(* ===== verification/_CoqProject ===== *)
-Q . S2P
Prelude.v
RangeBuffer.v
Packet.v
RecvBuffer.v
SendBuffer.v
FloatOps.v
Half.v
Slots.v
Tally.v
UBuffer.v
PairOps.v
PairProto.v
MathOps.v
Net.v
Frame.v
FrameSend.v
FrameRecv.v
FrameLink.v
NetRun.v
Groups.v
Rounds.v
Barrier.v
Bulk.v
Segments.v
Reducing.v
Pipeline.v
RingAllreduce.v
Reductions.v
Bcube.v
BcubeRun.v
Allreduce.v
Reduce.v
Gather.v
Broadcast.v
Allgather.v
Alltoall.v
BoundNet.v
BoundAlias.v
BoundRounds.v
Once.v
BoundBarrier.v
Pairwise.v
OneToAll.v
BoundRing.v
AllreduceRing.v
AllgatherRing.v
Stores.v
Device.v
Mesh.v
MeshRun.v
RecoveryModel.v
ConnState.v
ConnAck.v
AckExchange.v
ConnSend.v
AckBooks.v
DmludpApi.v
DmludpPair.v
DmludpSend.v
DmludpRecv.v
DmludpExchange.v
