(* ===== verification/Prelude.v ===== *)
(** * Gloo: a model of the transport and its protocols

    Gloo is a library of collective operations (all-reduce, broadcast, ...)
    over point-to-point transports. Its own core logic has these layers:

    - collectives ([src/gloo/barrier.cc], [gather.cc], [gatherv.cc],
      [scatter.cc], [alltoall.cc], [alltoallv.cc], [broadcast.cc],
      [allgather.cc], [allgatherv.cc], [allreduce.cc], [reduce.cc]) exchange messages
      on _slots_, 64-bit tags ([src/gloo/types.h]); they compute with
      [src/gloo/math.h] and half precision floats ([src/gloo/types.h]);
    - a _transport context_ per process keeps a _pair_ per peer; unbound
      buffers are sent and received through the pairs by a rendezvous protocol
      ([src/gloo/transport/context.h], [src/gloo/transport/tcp/pair.cc],
      [src/gloo/transport/tcp/context.cc],
      [src/gloo/transport/tcp/unbound_buffer.cc]);
    - a full mesh of pairs is connected through a _store_ in which every
      process leaves the addresses of its pairs ([src/gloo/rendezvous/],
      [transport/tcp/device.cc], [listener.cc], [address.cc]);
    - _dmludp_ is a datagram protocol with selective acknowledgements
      ([src/gloo/connection.h] and the headers it includes), under the pairs
      of [src/gloo/transport/dmludp].

    ** The files

    This file holds what the others share: outcomes of C++ code (a value, an
    exception, undefined behaviour), the state monad [M] in which a state
    survives an exception, record updates, machine integers ([u8] to [u64],
    [s32] wrap a [Z]), byte lists, bitwise lemmas, ordered maps.

    Datagram protocol, bottom up:
    - [RangeBuffer]: [class RangeBuf] of [RangeBuf.h], a received chunk;
    - [Packet]: [packet.h], the 26 byte header, its encoder and its two
      decoders, in both byte orders;
    - [RecvBuffer]: [class RecvBuf] of [recv_buf.h], reassembly;
    - [SendBuffer]: [class SendBuf] of [send_buf.h], chunks of the
      application's memory, the cursor of a sending round, acknowledgements;
    - [FloatOps]: IEEE single and double precision as the code uses them;
    - [RecoveryModel]: [class Recovery] of [Recovery.h], the send window;
    - [ConnState], [ConnAck], [ConnSend]: [class Connection] of
      [connection.h]: its fields ([Conn], a field [x] is [cn_x]), its small
      operations, acknowledgements and loss, sending. Every member function
      is a definition of the same name, a state passing function in [M Conn];
    - [DmludpApi]: the C functions of [dmludp.h];
    - [AckExchange], [AckBooks]: theorems about connections;
    - [DmludpPair]: pairs over the protocol, [transport/dmludp/pair.cc], where
      they differ from the TCP pair, whose definitions in [Frame] they share:
      [write2dmludp], [handleread], both ways to send and the device loop, over
      a socket whose answers are given in advance, in a monad [L] of runs that
      may not end. [DmludpSend]: one round of sending an operation whose parts
      fit a datagram each; [DmludpRecv]: reading what arrives;
      [DmludpExchange]: a message from one end to the other.

    Transport:
    - [Slots]: [class Slot] of [types.h], [types.cc]; [Half]: [float16] of
      [types.h] and its conversions;
    - [Frame]: a pair's connection, byte by byte: the operation in progress in
      each direction, the kernel's short reads and writes, the transmit queue,
      the synchronous modes, exceptions and states, [transport/tcp/pair.cc];
      [FrameSend], [FrameRecv]: invariants of the two directions;
      [FrameLink]: the two ends of a connection together;
    - [Tally]: the lists of pending operations, [transport/context.h], [.cc];
    - [UBuffer]: unbound buffers, [transport/tcp/unbound_buffer.cc];
    - [PairOps]: the operations of pairs and contexts on unbound buffers and
      the handlers of the device thread, [transport/tcp/pair.cc] and
      [context.cc]; [PairProto]: the system of all processes, its reachable
      states and their invariant.

    Collectives, over what the transport promises:
    - [MathOps]: the integer helpers of [math.h]; [Reductions]: its built-in
      reductions;
    - [Net]: a process runs a program, a list of actions [Act] (post a send
      or a receive on an unbound buffer, wait for one, compute on memory);
      processes and the queues between them are a [Net], and [net_step] is
      its step relation. [exec], the deterministic run, is one schedule;
    - [NetRun]: steps of different processes commute, so a _clean_ program
      (no region is touched while a pending operation uses it, every wait has
      an operation to wait for) that completes on one schedule completes on
      every schedule with the same memories; this is what [computes] says;
    - [Groups], [Rounds], [Bulk]: how the lead of one process of a group, the
      rounds of a barrier-like exchange and bulk-synchronous rounds run;
    - [Barrier], [Gather] ([gather.cc], [gatherv.cc], [scatter.cc]),
      [Alltoall] ([alltoall.cc], [alltoallv.cc]), [Broadcast], [Allgather]
      ([allgather.cc], [allgatherv.cc]): a program per collective, with the
      checks of its options;
    - [Segments], [Reducing], [Pipeline]: how [allreduce.cc] cuts its buffers,
      what a reduction function is, pipelined rounds; [RingAllreduce],
      [Bcube], [BcubeRun]: its two algorithms; [Allreduce]: the entry point;
      [Reduce]: [reduce.cc], the same ring, gathered to a root.

    Older collectives, over bound buffers: both ends register memory, a send
    names the place in the peer's, and data is written there when it arrives.
    - [BoundNet]: [transport/buffer.h], [tcp/buffer.cc] and their share of
      [tcp/pair.cc], at the granularity of messages: programs [BAct], the steps
      [bnet_step] and [bcomputes], which says of them what [computes] says in
      [NetRun]. A send may arrive before the peer waits for it. [Post] marks
      where, in an annotated copy of its program, a process is ready for the
      next message; if every put fits the place made ready ([agree]) and is
      known by an earlier message to come in time ([in_time]), a simulation
      carries what is proved in [NetRun] over ([bound_computes]);
    - [BoundAlias]: programs that differ only in where they keep memory that
      nobody reads run in lockstep. The rings and the pairwise exchange send
      all notifications from, and receive them into, one integer; what is
      proved with the receives apart is carried over to it
      ([alias_group_computes]);
    - [BoundRounds]: flow control by credits, which gives [in_time];
    - [Once]: programs that use every buffer once; what it means that a
      process has begun or left its program;
    - [BoundBarrier] ([barrier_all_to_all.h], [barrier_all_to_one.h]),
      [Pairwise] ([pairwise_exchange.h]), [OneToAll]
      ([broadcast_one_to_all.h]): the constructors, and [run]. A buffer is
      identified by a number that the constructor gives it, and an object runs
      once;

    - [BoundRing], [AllreduceRing] ([allreduce_ring.h], [allreduce_local.cc]),
      [AllgatherRing] ([allgather_ring.h]): rings, which use their buffers
      again in every round, after a notification from the neighbour.

    Connecting:
    - [Stores]: [store.h] as a class of operations with what a store promises
      as its laws ([StoreLaws]: keys are written once; [BlockingGet]); the
      stores of [hash_store.cc], [file_store.cc], [prefix_store.cc];
    - [Device]: addresses and their bytes, which of two pairs connects to the
      other ([isInitiator]), and the [Listener];
    - [Mesh]: [connectFullMesh] of [rendezvous/context.cc] as a program
      [MProg] of calls to the store and to pairs; a process ([MProc]) with its
      pairs, its listener and the work of its event loop; all processes
      ([Mesh]) and the steps [mesh_exec] of their programs, their loops and
      the network;
    - [MeshRun]: its invariant ([mesh_ok], with the place of each process in
      its program as a [phase]), the measure that every step lowers, and why
      nothing gets stuck: who waits for a pair waits for a process that is
      at the pair of a smaller rank.

    ** What is proved

    - Datagram protocol. Headers round trip and the two decoders agree.
      Chunks received in any order and any number of times drain to the
      stream ([RecvBuf_reassembly]), end to end in [dmludp_stream_delivery].
      Writing, emitting and acknowledging keep the send buffer well formed and
      do what they say ([SendBuf_write_spec], [SendBuf_emit_round],
      [SendBuf_ack_drop_spec]). A round of request, reply and processing drops
      exactly what was received ([ack_exchange]). The books of a connection
      agree in every reachable state ([conn_books]). [send_mmsg] lays out its
      datagrams correctly on a message that fits the window and the priority
      table ([send_mmsg_single]). The window's arithmetic ([Recovery_slow_start],
      [Recovery_rollback_spec]).
    - Pairs over the protocol. The data packets of a message, whatever the
      network repeats and reorders after its preamble, are stored and
      acknowledged, if the receiver runs when all of them have arrived, and
      with the answer the sender is done ([message_both_ends]); if the receiver
      runs earlier it loses the message and all later ones
      ([early_read_loses]); after a failed [sendmmsg] the device's thread never
      returns ([failed_send_hangs]), nor does a synchronous send
      ([sync_send_spins]). The kernel reads the headers after [send_mmsg] has
      freed them ([send_mmsg_headers_dangle]); a read of freed memory gives
      bytes of which nothing is assumed (the argument [stale]), so the theorem
      does not say that what is sent has headers.
    - Defects of the code, each as a theorem about the same definitions:
      reads past a vector, headers freed while they are referenced, a fill
      loop that does not end, bytes delivered twice, a frozen window history.
    - Framing. However the kernel cuts the byte stream, the operations one end
      writes are the operations the other end completes, in order and with
      their payload ([link_fifo]); the device's handlers always return
      ([handleEvents_total]); headers round trip ([preamble_roundtrip]).
    - Rendezvous protocol. The tallies implement ordered lists
      ([mut_session_spec]); in every reachable state of a group of processes
      no check of the device threads fails ([transport_safe]), sends and
      receives match in order ([transport_matching]) and nothing that could
      be matched is left waiting ([transport_quiescent]).
    - Collectives. For each, from every memory and on every schedule, all
      processes finish, and the output buffers hold what the collective
      promises, nothing else having changed ([gather_correct],
      [scatter_correct], [gatherv_correct], [alltoall_correct],
      [alltoallv_correct], [broadcast_correct], [allgather_correct],
      [allgatherv_correct], [allreduce_ring_correct],
      [allreduce_bcube_correct], [allreduce_agrees], [reduce_correct]). The
      counters of the loops over segments, [int]s in the code, count without
      bound (they would overflow from 2^31 segments on). No process leaves a
      barrier before all have entered it, and all leave it
      ([barrier_synchronizes], [barrier_completes]). The scratch space of the
      bcube is large enough and its group sizes multiply to the number of
      processes ([bcube_scratch_fits], [computeGroupSizePerStep_spec]).
    - Collectives over bound buffers. The same, on every schedule, though data
      arrives unasked: [BroadcastOneToAll_correct],
      [PairwiseExchange_correct]; the root of the former sends to nobody who
      has not begun; the barriers complete and synchronise
      ([BarrierAllToOne_correct], [BarrierAllToAll_correct]); the rings
      ([AllreduceRing_correct], [AllgatherRing_correct]).
    - Connecting. A [FileStore] is a [HashStore] in files
      ([FileStore_like_HashStore]); two prefixes are two stores to [set], [get]
      and [wait] ([PrefixStore_separate]);
      what a store lacks, it refuses ([PrefixStore_v2]). Addresses survive
      their bytes ([Address_roundtrip]), exactly one side connects
      ([isInitiator_sides]), connections find their pairs
      ([Listener_matches]), and a full mesh comes up on every schedule
      ([connectFullMesh_completes]).
    - Slots of different collectives and different sums of additions differ,
      and an addition that would leave the 8 bits throws
      ([Slot_adds_injective], [Slot_adds_spec]). Conversions between halves and
      floats are exact or correctly rounded ([half2float_exact],
      [float2half_nearest]).

    ** Conventions

    Pointers are integers; the memory behind them is not modelled where the
    code only passes them on. Clocks, allocators (the capacity a vector ends
    up with) and what other threads do during a wait are arguments.
    [UB] marks what C++ leaves undefined. Loops without a structural measure
    take fuel: [emit_loop] and [fill_loop] return [None] or a stuck state when
    it runs out, and the theorems give the amount that is enough (twice the
    entries for [RecvBuf_emit_total]), or prove that none is
    ([send_mmsg_livelock]); [normalize] of [Half] takes ten steps, the width
    of the mantissa; [recvFromAny] needs one step when no other thread runs. The loops over a
    socket take the kernel's answers as a list, and one more step than it has
    answers is enough ([read_loop]); reading all that has arrived takes at most
    two more steps than there are bytes ([read_all]). An execution of the mesh
    is bounded by the measure of its start, about seven steps for each
    ordered pair of processes and one for each rank below another.

    ** Not modelled

    System calls of sockets, epoll and network interfaces, and their errors
    (input and output); timeouts of collectives and of connections; the Redis
    store, CUDA, NCCL, MPI, ibverbs, libuv and TLS back ends (glue around other
    libraries); common utilities; benchmarks, examples, tests and build tools.
    Of the pairs over the datagram protocol: the handshake in [connect], [setSync]
    and [recv], and the timer of [pair.h], which nothing starts; the device,
    listener, context and buffers in [transport/dmludp] are copies of those in
    [transport/tcp]. Of the
    collectives over bound buffers the chunked ring, halving and doubling,
    the bcube and reduce-scatter are left out: they start a send from a region
    before the last one from it has completed, or share regions between
    buffers, so what a send carries would need a model of the transport at the
    granularity of bytes; and [ContextFactory], which sends a part of a
    buffer. *)
From Stdlib Require Import ZArith Lia.
From Stdlib Require Export Sorting.Sorted.
From stdpp Require Export base numbers list sorting gmap fin_maps sets.

#[global] Open Scope Z_scope.

(* ------------------------------------------------------------------ *)
(** * Outcomes of C++ code: a value, an exception, undefined behaviour *)

(** The exceptions the modelled code throws: [std::out_of_range] from
    [at()], [gloo::EnforceNotMet] from [GLOO_ENFORCE], [std::runtime_error],
    [std::length_error], [gloo::IoException], [gloo::InvalidOperationException]
    and [std::bad_alloc]. *)
Inductive exn :=
  | OutOfRange
  | EnforceNotMet
  | RuntimeError
  | LengthError
  | IoException
  | InvalidOperation
  | BadAlloc.

#[export] Instance exn_eq_dec : EqDecision exn.
Proof. solve_decision. Defined.

Inductive outcome (A : Type) :=
  | Val (a : A)
  | Exn (e : exn)
  | UB.
Arguments Val {A} a.
Arguments Exn {A} e.
Arguments UB {A}.

#[export] Instance outcome_eq_dec {A} `{EqDecision A} : EqDecision (outcome A).
Proof. solve_decision. Defined.

#[export] Instance outcome_ret : MRet outcome := @Val.
#[export] Instance outcome_bind : MBind outcome := λ A B f m,
  match m with Val a => f a | Exn e => Exn e | UB => UB end.
#[export] Instance outcome_fmap : FMap outcome := λ A B f m,
  match m with Val a => Val (f a) | Exn e => Exn e | UB => UB end.

(** A stateful operation: the state survives an exception, as it does in
    C++ when a member function throws half way. *)
Definition M (S A : Type) : Type := S → outcome A * S.

#[export] Instance M_ret {S} : MRet (M S) := λ A a s, (Val a, s).
#[export] Instance M_bind {S} : MBind (M S) := λ A B f m s,
  match m s with
  | (Val a, s') => f a s'
  | (Exn e, s') => (Exn e, s')
  | (UB, s') => (UB, s')
  end.

Definition get {S} : M S S := λ s, (Val s, s).
Definition put {S} (s' : S) : M S unit := λ _, (Val tt, s').
Definition modify {S} (f : S → S) : M S unit := λ s, (Val tt, f s).
Definition gets {S A} (f : S → A) : M S A := λ s, (Val (f s), s).
Definition lift {S A} (o : outcome A) : M S A := λ s, (o, s).
Definition throw {S A} (e : exn) : M S A := λ s, (Exn e, s).
Definition undef {S A} : M S A := λ s, (UB, s).

(** [GLOO_ENFORCE(cond)] *)
Definition enforce (b : bool) : outcome unit := if b then Val tt else Exn EnforceNotMet.

Definition from_option_ub {A} (o : option A) : outcome A :=
  match o with Some a => Val a | None => UB end.
Definition from_option_exn {A} (e : exn) (o : option A) : outcome A :=
  match o with Some a => Val a | None => Exn e end.

Lemma outcome_bind_val {A B} (m : outcome A) (f : A → outcome B) b :
  m ≫= f = Val b ↔ ∃ a, m = Val a ∧ f a = Val b.
Proof.
  destruct m; simpl; (split; [intros H|intros (? & H & ?)]); [eauto|congruence|done|congruence|done|congruence].
Qed.

(** Running a stateful operation step by step. *)
Lemma M_bind_val {S A B} (m : M S A) (f : A → M S B) s a s' :
  m s = (Val a, s') → (m ≫= f) s = f a s'.
Proof. unfold mbind, M_bind. by intros ->. Qed.

Lemma M_bind_exn {S A B} (m : M S A) (f : A → M S B) (s s' : S) e :
  m s = (Exn e, s') → (m ≫= f) s = (Exn e, s').
Proof. unfold mbind, M_bind. by intros ->. Qed.

Lemma M_bind_assoc {S A B C} (m : M S A) (f : A → M S B) (g : B → M S C) s :
  (m ≫= (λ a, f a ≫= g)) s = ((m ≫= f) ≫= g) s.
Proof. unfold mbind, M_bind. by destruct (m s) as [[] ?]. Qed.

Lemma M_bind_inv {S A B} (m : M S A) (f : A → M S B) s b s' :
  (m ≫= f) s = (Val b, s') → ∃ a s1, m s = (Val a, s1) ∧ f a s1 = (Val b, s').
Proof. unfold mbind, M_bind. destruct (m s) as [[a|e|] s1] eqn:Hm; [eauto|done|done]. Qed.

Lemma lift_inv {S A} (o : outcome A) (s s' : S) a : lift o s = (Val a, s') → o = Val a ∧ s' = s.
Proof. unfold lift. intros [= -> ->]. done. Qed.

Lemma get_inv {S} (s s' a : S) : get s = (Val a, s') → a = s ∧ s' = s.
Proof. by intros [= -> ->]. Qed.
Lemma gets_inv {S A} (f : S → A) s s' a : gets f s = (Val a, s') → a = f s ∧ s' = s.
Proof. unfold gets. by intros [= -> ->]. Qed.
Lemma put_inv {S} (s1 s s' : S) a : put s1 s = (Val a, s') → s' = s1.
Proof. by intros [= _ ->]. Qed.
Lemma modify_inv {S} (f : S → S) s s' a : modify f s = (Val a, s') → s' = f s.
Proof. unfold modify. by intros [= _ ->]. Qed.
Lemma ret_inv {S A} (a b : A) (s s' : S) : (mret a : M S A) s = (Val b, s') → b = a ∧ s' = s.
Proof. by intros [= -> ->]. Qed.

Lemma run_inv {S A} (a b : A) (s s' : S) : (Val a, s) = (Val b, s') → b = a ∧ s' = s.
Proof. by intros [= -> ->]. Qed.

(** [M_inv H]: the next step a successful run [H] went through. *)
Ltac M_step_inv H :=
  lazymatch type of H with
  | lift _ _ = _ => apply lift_inv in H as [H ->]
  | get _ = _ => apply get_inv in H as [-> ->]
  | put _ _ = _ => apply put_inv in H as ->
  | modify _ _ = _ => apply modify_inv in H as ->
  | gets _ _ = _ => apply gets_inv in H as [-> ->]
  | @mret _ _ _ _ _ = _ => apply ret_inv in H as [-> ->]
  | _ => idtac
  end.
Ltac M_inv H :=
  lazymatch type of H with
  | (_ ≫= _) _ = (Val _, _) =>
      let a := fresh "a" in let s := fresh "s" in let H1 := fresh "H" in
      apply M_bind_inv in H as (a & s & H1 & H); cbv beta in H; M_step_inv H1;
      try lazymatch type of a with unit => destruct a end
  | _ => M_step_inv H
  end.

Lemma lift_val {S A} (o : outcome A) (a : A) (s : S) : o = Val a → lift o s = (Val a, s).
Proof. by intros ->. Qed.

Lemma M_bind_get {S B} (g : S → M S B) s : (get ≫= g) s = g s s.
Proof. done. Qed.
Lemma M_bind_gets {S A B} (f : S → A) (g : A → M S B) s : (gets f ≫= g) s = g (f s) s.
Proof. done. Qed.
Lemma M_bind_modify {S B} (f : S → S) (g : unit → M S B) s : (modify f ≫= g) s = g () (f s).
Proof. done. Qed.
Lemma M_bind_ret {S A B} (a : A) (g : A → M S B) s : ((mret a : M S A) ≫= g) s = g a s.
Proof. done. Qed.
Lemma M_bind_lift {S A B} (a : A) (g : A → M S B) s : (lift (Val a) ≫= g) s = g a s.
Proof. done. Qed.
Lemma M_bind_enforce {S B} (b : bool) (g : unit → M S B) s : b = true → (lift (enforce b) ≫= g) s = g () s.
Proof. by intros ->. Qed.

(** [M_run]: the steps of a run that need no case analysis. *)
Ltac M_run :=
  repeat first [rewrite M_bind_get | rewrite M_bind_gets | rewrite M_bind_modify | rewrite M_bind_ret | rewrite M_bind_lift];
  cbv beta.

(** [frame R m]: however [m] ends, the state it leaves is related by [R] to
    the one it started in. With [R] "these fields are the same" it says what
    an operation does not touch. *)
Definition frame {S A} (R : S → S → Prop) (m : M S A) : Prop := ∀ s, R s (m s).2.

Section frame.
Context {S : Type} (R : S → S → Prop) `{!PreOrder R}.

Lemma frame_bind {A B} (m : M S A) (f : A → M S B) :
  frame R m → (∀ a, frame R (f a)) → frame R (m ≫= f).
Proof.
  intros Hm Hf s. unfold mbind, M_bind. specialize (Hm s). destruct (m s) as [[a|e|] s']; [|done|done].
  etrans; [exact Hm|]. apply Hf.
Qed.
Lemma frame_ret {A} (a : A) : frame R (mret a).
Proof. intros s. change (R s s). reflexivity. Qed.
Lemma frame_lift {A} (o : outcome A) : frame R (lift o).
Proof. intros s. change (R s s). reflexivity. Qed.
Lemma frame_get : frame R get.
Proof. intros s. change (R s s). reflexivity. Qed.
Lemma frame_gets {A} (f : S → A) : frame R (gets f).
Proof. intros s. change (R s s). reflexivity. Qed.
Lemma frame_undef {A} : frame R (@undef S A).
Proof. intros s. change (R s s). reflexivity. Qed.
Lemma frame_modify f : (∀ s, R s (f s)) → frame R (modify f).
Proof. intros Hf s. apply Hf. Qed.
Lemma frame_ask {A} (f : S → outcome A) : frame R (λ s, (f s, s)).
Proof. intros s. change (R s s). reflexivity. Qed.
Lemma frame_if {A} (b : bool) (m1 m2 : M S A) : frame R m1 → frame R m2 → frame R (if b then m1 else m2).
Proof. by destruct b. Qed.
End frame.

Create HintDb frame.
#[export] Hint Resolve frame_ret frame_lift frame_get frame_gets frame_undef frame_ask : frame.

(** [frame_tac] walks through an operation; what it cannot do is left. *)
Ltac frame_step :=
  lazymatch goal with
  | |- frame _ (_ ≫= _) => apply frame_bind; [typeclasses eauto| |intros ?]
  | |- frame _ (λ s, (@?f s, s)) => apply (frame_ask _ f)
  | |- frame _ (modify _) => apply frame_modify; intros ?
  | |- frame _ (if ?b then _ else _) => destruct b
  | |- frame _ (match ?x with _ => _ end) => destruct x
  | |- frame _ _ => solve [auto with frame typeclass_instances]
  end.
Ltac frame_tac := repeat frame_step; try reflexivity.

(* ------------------------------------------------------------------ *)
(** * Record update

    [s <| f := v |>] sets field [f] of [s]; a record type gives an [Eta]
    instance (its constructor applied to its projections) and the setter of
    a field is found by abstracting the projection in it. *)

Class Eta (R : Type) := eta : R → R.
Class Setter {R T : Type} (proj : R → T) := set_field : (T → T) → R → R.

Ltac solve_setter R T proj :=
  let e := constr:(@eta R _) in
  let e := eval cbv [eta] in e in
  let e := match e with ?i => eval unfold i in i end in
  match eval pattern proj in e with
  | ?F _ => exact (λ (g : T → T) (r : R), F (λ r0 : R, g (proj r0)) r)
  end.

#[export] Hint Extern 1 (@Setter ?R ?T ?proj) => solve_setter R T proj : typeclass_instances.

Declare Scope record_scope.
Delimit Scope record_scope with rec.
Notation "s <| f ::= g |>" := (set_field (proj := f) g s)
  (at level 12, left associativity, f at level 10) : record_scope.
Notation "s <| f := v |>" := (set_field (proj := f) (λ _, v) s)
  (at level 12, left associativity, f at level 10) : record_scope.
#[global] Open Scope record_scope.
Arguments set_field {R T} proj {_} / g r : assert.

(* ------------------------------------------------------------------ *)
(** * Machine integers *)

(** [wrap w x]: [x] as an unsigned [w]-bit integer. *)
Definition wrap (w x : Z) : Z := x `mod` 2 ^ w.
Abbreviation u8 := (wrap 8).
Abbreviation u32 := (wrap 32).
Abbreviation u64 := (wrap 64).

(** [swrap w x]: [x] as a two's complement signed [w]-bit integer. *)
Definition swrap (w x : Z) : Z := (x + 2 ^ (w - 1)) `mod` 2 ^ w - 2 ^ (w - 1).
Abbreviation s32 := (swrap 32).
Abbreviation s64 := (swrap 64).

Definition in_range (w x : Z) : Prop := 0 ≤ x < 2 ^ w.
Abbreviation is_u8 := (in_range 8).
Abbreviation is_u32 := (in_range 32).
Abbreviation is_u64 := (in_range 64).

Lemma wrap_small w x : in_range w x → wrap w x = x.
Proof. intros. by apply Z.mod_small. Qed.

Lemma wrap_range w x : 0 ≤ w → in_range w (wrap w x).
Proof. intros. apply Z.mod_pos_bound. lia. Qed.

Lemma wrap_wrap w x : 0 ≤ w → wrap w (wrap w x) = wrap w x.
Proof. intros. by apply wrap_small, wrap_range. Qed.

Lemma swrap_small w x : 0 < w → - 2 ^ (w - 1) ≤ x < 2 ^ (w - 1) → swrap w x = x.
Proof.
  intros Hw Hx. unfold swrap. rewrite Z.mod_small; [lia|].
  replace (2 ^ w) with (2 * 2 ^ (w - 1)); [lia|].
  rewrite <-Z.pow_succ_r by lia. f_equal; lia.
Qed.

(** [word_lia]: linear arithmetic about wrapped machine integers. *)
Ltac word_lia :=
  unfold in_range, wrap, swrap in *;
  change (2 ^ 8) with 256 in *; change (2 ^ 32) with 4294967296 in *;
  change (2 ^ 64) with 18446744073709551616 in *;
  change (2 ^ (64 - 1)) with 9223372036854775808 in *;
  change (2 ^ (32 - 1)) with 2147483648 in *;
  Z.to_euclidean_division_equations; lia.

(** Combining disjoint bit fields, and reading them. *)
Lemma land_shift_0 a b k : 0 ≤ k → 0 ≤ a < 2 ^ k → Z.land a (b * 2 ^ k) = 0.
Proof.
  intros Hk Ha. apply Z.bits_inj'. intros n Hn.
  rewrite Z.land_spec, Z.bits_0. destruct (decide (n < k)).
  - rewrite Z.mul_pow2_bits_low by lia. apply andb_false_r.
  - destruct (decide (a = 0)) as [->|]; [by rewrite Z.bits_0|].
    rewrite (Z.bits_above_log2 a); [done|lia|].
    assert (Z.log2 a < k); [apply Z.log2_lt_pow2; lia|lia].
Qed.

Lemma lor_add a b k : 0 ≤ k → 0 ≤ a < 2 ^ k → Z.lor a (b * 2 ^ k) = a + b * 2 ^ k.
Proof.
  intros Hk Ha. pose proof (land_shift_0 a b k Hk Ha) as Hl.
  by rewrite <-Z.lxor_lor, <-Z.add_nocarry_lxor.
Qed.

Lemma land_ones_mod a k : 0 ≤ k → Z.land a (2 ^ k - 1) = a `mod` 2 ^ k.
Proof. intros Hk. rewrite <-Z.land_ones by done. by rewrite Z.ones_equiv, Z.sub_1_r. Qed.

Lemma land_pow2 a k : 0 ≤ k → Z.land a (2 ^ k) = (a / 2 ^ k) `mod` 2 * 2 ^ k.
Proof.
  intros Hk. apply Z.bits_inj'. intros n Hn. rewrite Z.land_spec, Z.pow2_bits_eqb by done.
  rewrite <-Z.bit0_mod, Z.div_pow2_bits, Z.add_0_l by lia. destruct (Z.eqb_spec k n) as [->|].
  - rewrite andb_true_r, Z.mul_pow2_bits, Z.sub_diag by lia. by destruct (Z.testbit a n).
  - rewrite andb_false_r, Z.mul_pow2_bits by lia. destruct (decide (n < k)).
    + by rewrite Z.testbit_neg_r by lia.
    + destruct (Z.testbit a k); cbn [Z.b2z]; [|by rewrite Z.bits_0].
      symmetry. apply Z.bits_above_log2; [lia|]. change (Z.log2 1) with 0. lia.
Qed.

Create HintDb word.
#[export] Hint Resolve wrap_range : word.

(* ------------------------------------------------------------------ *)
(** * Sequences indexed by machine integers

    [std::vector], [std::deque] and raw memory ranges as lists. An index or
    an iterator range outside the sequence has no result ([None]); the
    definitions that use it say whether the source has undefined behaviour
    ([operator[]], iterators) or throws ([at()]). *)

Section sequences.
Context {A : Type}.
Implicit Types l m a c : list A.

Definition lenZ l : Z := Z.of_nat (length l).

Definition nthZ l (i : Z) : option A :=
  if bool_decide (0 ≤ i) then l !! Z.to_nat i else None.

(** The iterator range [\[begin + pos, begin + pos + n)]. *)
Definition sub l (pos n : Z) : option (list A) :=
  if bool_decide (0 ≤ pos ∧ 0 ≤ n ∧ pos + n ≤ lenZ l)
  then Some (take (Z.to_nat n) (drop (Z.to_nat pos) l))
  else None.

(** [std::copy(bs.begin(), bs.end(), l.begin() + pos)] *)
Definition blit l (pos : Z) (bs : list A) : option (list A) :=
  if bool_decide (0 ≤ pos ∧ pos + lenZ bs ≤ lenZ l)
  then Some (take (Z.to_nat pos) l ++ bs ++ drop (Z.to_nat (pos + lenZ bs)) l)
  else None.

(** [v.resize(n)], new elements being copies of [d]. *)
Definition resizeZ (d : A) (n : Z) l : list A := resize (Z.to_nat n) d l.

Lemma lenZ_app l m : lenZ (l ++ m) = lenZ l + lenZ m.
Proof. unfold lenZ. rewrite length_app. lia. Qed.
Lemma lenZ_nil : lenZ [] = 0.
Proof. done. Qed.
Lemma lenZ_cons x l : lenZ (x :: l) = lenZ l + 1.
Proof. unfold lenZ. simpl. lia. Qed.
Lemma lenZ_replicate n (x : A) : 0 ≤ n → lenZ (replicate (Z.to_nat n) x) = n.
Proof. unfold lenZ. rewrite length_replicate. lia. Qed.
Lemma lenZ_nonneg l : 0 ≤ lenZ l.
Proof. unfold lenZ. lia. Qed.

Lemma sub_spec l p n m :
  sub l p n = Some m ↔ ∃ a c, l = a ++ m ++ c ∧ lenZ a = p ∧ lenZ m = n.
Proof.
  unfold sub, lenZ. case_bool_decide as H; split.
  - intros [= <-]. exists (take (Z.to_nat p) l), (drop (Z.to_nat (p + n)) l).
    rewrite !length_take, length_drop. split_and!; [|lia|lia].
    rewrite Z2Nat.inj_add, <-drop_drop, !take_drop by lia. done.
  - intros (a & c & -> & <- & <-). f_equal.
    rewrite !Nat2Z.id, drop_app_length, take_app_length. done.
  - done.
  - intros (a & c & -> & <- & <-). destruct H. rewrite !length_app. lia.
Qed.

Lemma blit_spec l p bs l' :
  blit l p bs = Some l' ↔
  ∃ a m c, l = a ++ m ++ c ∧ lenZ a = p ∧ lenZ m = lenZ bs ∧ l' = a ++ bs ++ c.
Proof.
  unfold blit, lenZ. case_bool_decide as H; split.
  - intros [= <-]. exists (take (Z.to_nat p) l),
      (take (length bs) (drop (Z.to_nat p) l)), (drop (Z.to_nat (p + Z.of_nat (length bs))) l).
    rewrite !length_take, length_drop. split_and!; [|lia|lia|done].
    rewrite Z2Nat.inj_add, Nat2Z.id, <-drop_drop, !take_drop by lia. done.
  - intros (a & m & c & -> & <- & Hm & ->). f_equal.
    assert (length m = length bs) as Hm' by lia.
    rewrite <-Nat2Z.inj_add, !Nat2Z.id, take_app_length, <-Hm', <-drop_drop.
    by rewrite !drop_app_length.
  - done.
  - intros (a & m & c & -> & <- & Hm & ->). destruct H. rewrite !length_app. lia.
Qed.

Lemma lenZ_resizeZ d n l : 0 ≤ n → lenZ (resizeZ d n l) = n.
Proof. intros. unfold lenZ, resizeZ. rewrite length_resize. lia. Qed.

Lemma sub_app a m c : sub (a ++ m ++ c) (lenZ a) (lenZ m) = Some m.
Proof. apply sub_spec. eauto. Qed.

Lemma blit_app a m c bs :
  lenZ m = lenZ bs → blit (a ++ m ++ c) (lenZ a) bs = Some (a ++ bs ++ c).
Proof. intros. apply blit_spec. eauto 10. Qed.

Lemma sub_some l p n : 0 ≤ p → 0 ≤ n → p + n ≤ lenZ l → is_Some (sub l p n).
Proof. intros. unfold sub. rewrite bool_decide_true; eauto. Qed.

Lemma blit_some l p bs : 0 ≤ p → p + lenZ bs ≤ lenZ l → is_Some (blit l p bs).
Proof. intros. unfold blit. rewrite bool_decide_true; eauto. Qed.

Lemma sub_length l p n m : sub l p n = Some m → lenZ m = n.
Proof. rewrite sub_spec. by intros (? & ? & ? & ? & ?). Qed.

Lemma blit_length l p bs l' : blit l p bs = Some l' → lenZ l' = lenZ l.
Proof. rewrite blit_spec. intros (?&?&?&->&?&?&->). rewrite !lenZ_app. lia. Qed.

(** Reading back what was written. *)
Lemma sub_blit_eq l p bs l' : blit l p bs = Some l' → sub l' p (lenZ bs) = Some bs.
Proof. rewrite blit_spec, sub_spec. intros (a&m&c&->&?&?&->). eauto. Qed.

Lemma lenZ_inj_app_l a1 a2 l1 l2 : lenZ a1 = lenZ a2 → a1 ++ l1 = a2 ++ l2 → a1 = a2 ∧ l1 = l2.
Proof. unfold lenZ. intros ? H. apply app_inj_1 in H; [done|lia]. Qed.

Lemma sub_lookup l p n m i :
  sub l p n = Some m → 0 ≤ i < n → nthZ m i = nthZ l (p + i).
Proof.
  rewrite sub_spec. intros (a & c & -> & <- & <-) Hi. pose proof (lenZ_nonneg a).
  unfold nthZ, lenZ in *. rewrite !bool_decide_true by lia.
  rewrite lookup_app_r by lia. rewrite lookup_app_l by lia. f_equal. lia.
Qed.

Lemma blit_lookup l p bs l' i :
  blit l p bs = Some l' →
  nthZ l' i = if bool_decide (p ≤ i < p + lenZ bs) then nthZ bs (i - p) else nthZ l i.
Proof.
  rewrite blit_spec. intros (a & m & c & -> & <- & Hm & ->).
  unfold nthZ, lenZ in *. case_bool_decide as Hi; [|rewrite bool_decide_false by lia; done].
  case_bool_decide.
  - rewrite bool_decide_true by lia. rewrite lookup_app_r by lia.
    rewrite lookup_app_l by lia. f_equal. lia.
  - destruct (decide (i < Z.of_nat (length a))).
    + by rewrite !lookup_app_l by lia.
    + rewrite !(lookup_app_r a) by lia. rewrite !lookup_app_r by lia. f_equal. lia.
Qed.

Lemma list_eqZ l m : (∀ i, 0 ≤ i → nthZ l i = nthZ m i) → l = m.
Proof.
  intros H. apply list_eq. intros i. specialize (H (Z.of_nat i)).
  unfold nthZ in H. rewrite bool_decide_true, Nat2Z.id in H by lia. apply H. lia.
Qed.

Lemma nthZ_None l i : nthZ l i = None ↔ i < 0 ∨ lenZ l ≤ i.
Proof.
  unfold nthZ, lenZ. case_bool_decide; [|split; [lia|done]].
  rewrite lookup_ge_None. lia.
Qed.

Lemma nthZ_Some l i : is_Some (nthZ l i) ↔ 0 ≤ i < lenZ l.
Proof. rewrite <-not_eq_None_Some, nthZ_None. lia. Qed.

(** Reading a range disjoint from the one written. *)
Lemma sub_blit_ne l p bs l' q n :
  blit l p bs = Some l' → q + n ≤ p ∨ p + lenZ bs ≤ q → sub l' q n = sub l q n.
Proof.
  intros Hb Hd. pose proof (blit_length _ _ _ _ Hb) as Hlen.
  destruct (decide (0 ≤ q ∧ 0 ≤ n ∧ q + n ≤ lenZ l)) as [(?&?&?)|Hn].
  - destruct (sub_some l' q n) as [m1 Hm1]; [lia..|].
    destruct (sub_some l q n) as [m2 Hm2]; [lia..|].
    rewrite Hm1, Hm2. f_equal. apply list_eqZ. intros i Hi.
    destruct (decide (i < n)).
    + rewrite (sub_lookup _ _ _ _ _ Hm1), (sub_lookup _ _ _ _ _ Hm2) by lia.
      rewrite (blit_lookup _ _ _ _ _ Hb). rewrite bool_decide_false by lia. done.
    + apply sub_length in Hm1, Hm2.
      transitivity (@None A); [|symmetry]; apply nthZ_None; lia.
  - unfold sub. rewrite Hlen, !bool_decide_false by lia. done.
Qed.

End sequences.

Arguments lenZ : simpl never.
Arguments nthZ : simpl never.
Arguments sub : simpl never.
Arguments blit : simpl never.
Create HintDb seqs.
#[export] Hint Resolve lenZ_nonneg sub_some blit_some sub_length blit_length sub_blit_eq : seqs.

Lemma filter_ext_in {A} (P Q : A → Prop) `{∀ x, Decision (P x)} `{∀ x, Decision (Q x)} (l : list A) :
  (∀ x, x ∈ l → P x ↔ Q x) → filter P l = filter Q l.
Proof.
  induction l as [|x l IH]; intros HPQ; [done|]. rewrite !filter_cons, IH by set_solver.
  specialize (HPQ x). repeat case_decide; set_solver.
Qed.

Lemma Forall_filter {A} (Q P : A → Prop) `{∀ x, Decision (P x)} (l : list A) :
  Forall Q l → Forall Q (filter P l).
Proof. rewrite !Forall_forall. intros H1 x [_ Hx]%list_elem_of_filter. auto. Qed.
Lemma filter_none {A} (P : A → Prop) `{∀ x, Decision (P x)} (l : list A) : (∀ x, x ∈ l → ¬ P x) → filter P l = [].
Proof. intros H'. apply elem_of_nil_inv. intros x [Hx Hl]%list_elem_of_filter. by apply (H' x). Qed.

Lemma StronglySorted_filter {A} (R : A → A → Prop) (P : A → Prop) `{∀ x, Decision (P x)} (l : list A) :
  StronglySorted R l → StronglySorted R (filter P l).
Proof.
  induction 1 as [|x l _ IH Hall]; [constructor|]. rewrite filter_cons.
  case_decide; [|done]. constructor; [done|]. by apply Forall_filter.
Qed.

(** Bytes in memory are integers in [0, 256). *)
Definition bytes_ok (l : list Z) : Prop := Forall is_u8 l.

(* ------------------------------------------------------------------ *)
(** * [std::map] with integer keys, as its in-order list of entries *)

Section ordered_map.
Context {V : Type}.
Implicit Types m : list (Z * V).

Definition key_lt (p q : Z * V) : Prop := p.1 < q.1.

#[export] Instance key_lt_trans : Transitive key_lt.
Proof. intros x y z. unfold key_lt. lia. Qed.
#[export] Instance key_lt_antisymm : AntiSymm (=) key_lt.
Proof. intros x y. unfold key_lt. lia. Qed.

(** The invariant of the container: keys strictly ascending. *)
Abbreviation omap_wf := (StronglySorted key_lt).

Fixpoint omap_find (k : Z) m : option V :=
  match m with
  | [] => None
  | (k', v) :: m' => if k =? k' then Some v else omap_find k m'
  end.

(** [m.insert({k, v})]: an existing key keeps its value. *)
Fixpoint omap_insert (k : Z) (v : V) m : list (Z * V) :=
  match m with
  | [] => [(k, v)]
  | (k', v') :: m' =>
      if k <? k' then (k, v) :: m
      else if k =? k' then m
      else (k', v') :: omap_insert k v m'
  end.

Lemma omap_insert_elem k v m x :
  x ∈ omap_insert k v m → x = (k, v) ∨ x ∈ m.
Proof.
  induction m as [|[k' v'] m IH]; simpl; [rewrite list_elem_of_singleton; naive_solver|].
  case_match; [rewrite elem_of_cons; naive_solver|].
  case_match; [naive_solver|]. rewrite !elem_of_cons. naive_solver.
Qed.

Lemma omap_insert_old k v m x : x ∈ m → x ∈ omap_insert k v m.
Proof.
  induction m as [|[k' v'] m IH]; simpl; [set_solver|]. intros Hx.
  case_match; [by apply list_elem_of_further|].
  case_match; [done|]. rewrite elem_of_cons in *. naive_solver.
Qed.

Lemma omap_insert_wf k v m : omap_wf m → omap_wf (omap_insert k v m).
Proof.
  induction 1 as [|[k' v'] m Hm IH Hall]; simpl; [by repeat constructor|].
  destruct (Z.ltb_spec k k').
  - constructor; [by constructor|]. constructor; [done|].
    eapply Forall_impl; [exact Hall|]. unfold key_lt. simpl. lia.
  - destruct (Z.eqb_spec k k'); [by constructor|]. constructor; [done|].
    apply Forall_forall. intros x [->|Hx]%omap_insert_elem.
    + unfold key_lt. simpl. lia.
    + by eapply Forall_forall in Hall.
Qed.

(** A key not in the map is inserted. *)
Lemma omap_insert_new k v m :
  (∀ v', (k, v') ∉ m) → (k, v) ∈ omap_insert k v m.
Proof.
  induction m as [|[k' v'] m IH]; simpl; intros Hn; [by apply list_elem_of_here|].
  case_match; [apply list_elem_of_here|].
  destruct (Z.eqb_spec k k') as [->|].
  - destruct (Hn v'). apply list_elem_of_here.
  - apply list_elem_of_further, IH. intros v'' Hin.
    by apply (Hn v''), list_elem_of_further.
Qed.

Lemma omap_wf_functional m k v v' : omap_wf m → (k, v) ∈ m → (k, v') ∈ m → v = v'.
Proof.
  induction 1 as [|[k0 v0] m Hm IH Hall]; [set_solver|].
  rewrite !elem_of_cons. rewrite Forall_forall in Hall.
  intros [[= -> ->]|H1] [[= ]|H2]; subst; try done; auto.
  - apply Hall in H2. unfold key_lt in H2. simpl in *. lia.
  - apply Hall in H1. unfold key_lt in H1. simpl in *. lia.
Qed.

Lemma omap_wf_NoDup m : omap_wf m → NoDup m.
Proof.
  induction 1 as [|x m _ IH Hall]; constructor; [|done].
  intros Hx. eapply Forall_forall in Hall; [|exact Hx]. unfold key_lt in Hall. lia.
Qed.

(** Two maps with the same entries are the same list. *)
Lemma omap_ext m1 m2 :
  omap_wf m1 → omap_wf m2 → (∀ x, x ∈ m1 ↔ x ∈ m2) → m1 = m2.
Proof.
  intros H1 H2 Heq. eapply (StronglySorted_unique key_lt); [done..|].
  apply NoDup_Permutation; auto using omap_wf_NoDup.
Qed.

End ordered_map.
Abbreviation omap_wf := (StronglySorted key_lt).
#[export] Hint Resolve omap_insert_wf : seqs.

(** [std::set] of integers, as its in-order list of elements. *)
Fixpoint oset_insert (k : Z) (l : list Z) : list Z :=
  match l with
  | [] => [k]
  | k' :: l' =>
      if k <? k' then k :: l
      else if k =? k' then l
      else k' :: oset_insert k l'
  end.

Abbreviation oset_wf := (StronglySorted Z.lt).

Lemma oset_insert_elem k l x : x ∈ oset_insert k l ↔ x = k ∨ x ∈ l.
Proof.
  induction l as [|k' l IH]; simpl; [rewrite list_elem_of_singleton; set_solver|].
  repeat case_match; rewrite ?elem_of_cons, ?IH; [naive_solver| |naive_solver].
  assert (k = k') as -> by lia. naive_solver.
Qed.

Lemma oset_insert_wf k l : oset_wf l → oset_wf (oset_insert k l).
Proof.
  induction 1 as [|k' l Hl IH Hall]; simpl; [by repeat constructor|].
  destruct (Z.ltb_spec k k').
  - constructor; [by constructor|]. constructor; [done|].
    eapply Forall_impl; [exact Hall|]. lia.
  - destruct (Z.eqb_spec k k'); [by constructor|]. constructor; [done|].
    apply Forall_forall. intros x [->|Hx]%oset_insert_elem; [lia|].
    by eapply Forall_forall in Hall.
Qed.
#[export] Hint Resolve oset_insert_wf : seqs.

(** [decide_eval]: closed (in)equalities, decided by evaluation. *)
Ltac decide_eval := vm_compute; intuition congruence.
