(* ===== verification/RangeBuffer.v ===== *)
(** The received chunk of [src/gloo/RangeBuf.h]: a byte vector with its
    stream offset. [size_t] and [uint64_t] fields are wrapped integers. *)
From S2P Require Import Prelude.

Record RangeBuf := mkRangeBuf {
  rb_data : list Z;
  rb_start : Z;
  rb_pos : Z;
  rb_length : Z;
  rb_offset : Z;
}.

#[export] Instance RangeBuf_eta : Eta RangeBuf :=
  λ b, mkRangeBuf (rb_data b) (rb_start b) (rb_pos b) (rb_length b) (rb_offset b).

#[export] Instance RangeBuf_eq_dec : EqDecision RangeBuf.
Proof. solve_decision. Defined.

Definition RangeBuf_new (buf : list Z) (len off : Z) : RangeBuf :=
  mkRangeBuf buf 0 0 len off.

Definition RangeBuf_from (buf : list Z) (off : Z) : RangeBuf :=
  RangeBuf_new buf (lenZ buf) off.

Definition RangeBuf_off (b : RangeBuf) : Z :=
  u64 (u64 (rb_offset b - rb_start b) + rb_pos b).

Definition RangeBuf_len (b : RangeBuf) : Z := u64 (rb_length b - rb_pos b).

Definition RangeBuf_max_off (b : RangeBuf) : Z := u64 (RangeBuf_off b + RangeBuf_len b).

Definition RangeBuf_is_empty (b : RangeBuf) : bool := RangeBuf_len b =? 0.

Definition RangeBuf_consume (count : Z) (b : RangeBuf) : RangeBuf :=
  b <| rb_pos ::= λ p, u64 (p + count) |>.

(** A buffer as [write] creates it and [consume] keeps it. *)
Definition RangeBuf_wf (b : RangeBuf) : Prop :=
  rb_start b = 0 ∧ rb_length b = lenZ (rb_data b) ∧ 0 ≤ rb_pos b ≤ rb_length b ∧
  0 ≤ rb_offset b ∧ rb_offset b + rb_length b < 2 ^ 64.

Lemma RangeBuf_from_wf buf off :
  0 ≤ off → off + lenZ buf < 2 ^ 64 → RangeBuf_wf (RangeBuf_from buf off).
Proof. intros. pose proof (lenZ_nonneg buf). by split_and!; simpl; try lia. Qed.

Lemma RangeBuf_off_wf b : RangeBuf_wf b → RangeBuf_off b = rb_offset b + rb_pos b.
Proof. intros (Hs & ? & ? & ? & ?). unfold RangeBuf_off. rewrite Hs. word_lia. Qed.

Lemma RangeBuf_len_wf b : RangeBuf_wf b → RangeBuf_len b = rb_length b - rb_pos b.
Proof. intros (_ & ? & ? & ? & ?). unfold RangeBuf_len. word_lia. Qed.

Lemma RangeBuf_max_off_wf b : RangeBuf_wf b → RangeBuf_max_off b = rb_offset b + rb_length b.
Proof.
  intros Hwf. unfold RangeBuf_max_off. rewrite RangeBuf_off_wf, RangeBuf_len_wf by done.
  destruct Hwf as (_ & ? & ? & ? & ?). word_lia.
Qed.

Lemma RangeBuf_consume_wf n b :
  RangeBuf_wf b → 0 ≤ n ≤ RangeBuf_len b →
  RangeBuf_wf (RangeBuf_consume n b) ∧
  RangeBuf_off (RangeBuf_consume n b) = RangeBuf_off b + n ∧
  RangeBuf_max_off (RangeBuf_consume n b) = RangeBuf_max_off b.
Proof.
  intros Hwf Hn. rewrite RangeBuf_len_wf in Hn by done.
  assert (RangeBuf_wf (RangeBuf_consume n b)) as Hwf'.
  { destruct b, Hwf as (? & ? & ? & ? & ?). unfold RangeBuf_wf in *; simpl in *.
    split_and!; try done; word_lia. }
  rewrite !RangeBuf_off_wf, !RangeBuf_max_off_wf by done.
  destruct b, Hwf as (? & ? & ? & ? & ?); simpl in *. split_and!; [done|word_lia|done].
Qed.

#[export] Hint Resolve RangeBuf_from_wf : word.
