(* ===== verification/Packet.v ===== *)
(** Packet headers of [src/gloo/packet.h]: the 26 byte header, its encoder
    and its two decoders, and the packet number space. The macro
    [IS_BIG_ENDIAN] is the parameter [be] of the codec. *)
From S2P Require Import Prelude.

(** [enum Type : uint8_t] *)
Inductive PktType :=
  | Retry | Handshake | Application | ElicitAck | ACK | Stop | Fin | StartAck | Unknown.

#[export] Instance PktType_eq_dec : EqDecision PktType.
Proof. solve_decision. Defined.

Record Header := mkHeader {
  h_ty : PktType;
  h_pkt_num : Z;
  h_priority : Z;
  h_offset : Z;
  h_pkt_length : Z;
}.

#[export] Instance Header_eta : Eta Header :=
  λ h, mkHeader (h_ty h) (h_pkt_num h) (h_priority h) (h_offset h) (h_pkt_length h).

#[export] Instance Header_eq_dec : EqDecision Header.
Proof. solve_decision. Defined.

Definition Header_ok (h : Header) : Prop :=
  is_u64 (h_pkt_num h) ∧ is_u8 (h_priority h) ∧ is_u64 (h_offset h) ∧ is_u64 (h_pkt_length h).

(** [size_t len() { return 26; }] *)
Definition Header_len : Z := 26.

Section codec.
Context (be : bool).

(** [vec[position]]: no bounds check. *)
Definition get_u8 (vec : list Z) (position : Z) : outcome Z :=
  from_option_ub (nthZ vec position).

(** The loop of [get_u64]: [value |= byte << shift] for byte [i] of the slice. *)
Fixpoint or_bytes (i : Z) (slice : list Z) (value : Z) : Z :=
  match slice with
  | [] => value
  | b :: slice' =>
      or_bytes (i + 1) slice'
        (Z.lor value (u64 (Z.shiftl b (if be then (7 - i) * 8 else i * 8))))
  end.

Definition get_u64 (vec : list Z) (start : Z) : outcome Z :=
  data_slice ← from_option_ub (sub vec start 8);
  Val (or_bytes 0 data_slice 0).

Definition put_u64_slice (input : Z) : list Z :=
  (λ i, u8 (Z.shiftr input (if be then (7 - i) * 8 else i * 8))) <$> [0; 1; 2; 3; 4; 5; 6; 7].

Definition put_u64 (vec : list Z) (input position : Z) : outcome (list Z) :=
  from_option_ub (blit vec position (put_u64_slice input)).

(** [vec.at(position) = input] *)
Definition put_u8 (vec : list Z) (input position : Z) : outcome (list Z) :=
  from_option_exn OutOfRange (blit vec position [u8 input]).

(** The [if] chain shared by both decoders. The last test is an assignment,
    [first = 0x08], whose value is 8. *)
Definition type_of_byte (first : Z) : PktType :=
  if first =? 1 then Retry
  else if first =? 2 then Handshake
  else if first =? 3 then Application
  else if first =? 4 then ElicitAck
  else if first =? 5 then ACK
  else if first =? 6 then Stop
  else if first =? 7 then Fin
  else let first := 8 in
    if negb (first =? 0) then StartAck else Unknown.

Definition byte_of_type (ty : PktType) : Z :=
  match ty with
  | Retry => 1 | Handshake => 2 | Application => 3 | ElicitAck => 4
  | ACK => 5 | Stop => 6 | Fin => 7 | StartAck => 8 | Unknown => 9
  end.

Definition from_slice (b : list Z) : outcome Header :=
  first ← get_u8 b 0;
  second ← get_u64 b 1;
  third ← get_u8 b 9;
  forth ← get_u64 b 10;
  fifth ← get_u64 b 18;
  Val (mkHeader (type_of_byte first) second third forth fifth).

(** [*reinterpret_cast<const uint64_t*>(b.data() + pos)]: the eight bytes in
    the machine's byte order. *)
Fixpoint le_val (bs : list Z) : Z :=
  match bs with
  | [] => 0
  | b :: bs' => b + 256 * le_val bs'
  end.

Definition load_u64 (b : list Z) (pos : Z) : outcome Z :=
  bs ← from_option_ub (sub b pos 8);
  Val (le_val (if be then reverse bs else bs)).

Definition from_bytes (b : list Z) : outcome Header :=
  first ← get_u8 b 0;
  second ← load_u64 b 1;
  third ← from_option_ub (nthZ b 9);
  forth ← load_u64 b 10;
  fifth ← load_u64 b 18;
  Val (mkHeader (type_of_byte first) second third forth fifth).

Definition to_bytes (h : Header) (out : list Z) : outcome (list Z) :=
  let first := byte_of_type (h_ty h) in
  out ← put_u8 out first 0;
  out ← put_u64 out (h_pkt_num h) 1;
  out ← put_u8 out (h_priority h) 9;
  out ← put_u64 out (h_offset h) 10;
  put_u64 out (h_pkt_length h) 18.

End codec.

(** [class PktNumSpace]; its two maps are never used. *)
Record PktNumSpace := mkPktNumSpace { next_pkt_num : Z }.

Definition PktNumSpace_new : PktNumSpace := mkPktNumSpace 0.

Definition updatepktnum (s : PktNumSpace) : Z * PktNumSpace :=
  let next := u64 (next_pkt_num s + 1) in (u64 (next - 1), mkPktNumSpace next).

Definition PktNumSpace_reset (s : PktNumSpace) : PktNumSpace := mkPktNumSpace 0.

(* ------------------------------------------------------------------ *)
(** * Byte order lemmas *)

Lemma le_val_app l m : le_val (l ++ m) = le_val l + 256 ^ lenZ l * le_val m.
Proof.
  induction l as [|b l IH].
  - rewrite (lenZ_nil (A:=Z)). simpl app. simpl le_val. lia.
  - rewrite lenZ_cons, Z.pow_add_r by (pose proof (lenZ_nonneg l); lia).
    simpl. rewrite IH. lia.
Qed.

Lemma le_val_bound l : bytes_ok l → 0 ≤ le_val l < 256 ^ lenZ l.
Proof.
  induction 1 as [|b l Hb _ IH]; [rewrite (lenZ_nil (A:=Z)); simpl; lia|].
  rewrite lenZ_cons, Z.pow_add_r by (pose proof (lenZ_nonneg l); lia).
  simpl. unfold in_range in Hb. lia.
Qed.

Lemma pow256 n : 0 ≤ n → 256 ^ n = 2 ^ (n * 8).
Proof. intros. rewrite Z.mul_comm, Z.pow_mul_r by lia. done. Qed.

Lemma shift_byte b k : is_u8 b → 0 ≤ k ≤ 7 → u64 (Z.shiftl b (k * 8)) = b * 2 ^ (k * 8).
Proof.
  intros Hb Hk. rewrite Z.shiftl_mul_pow2 by lia. apply wrap_small.
  unfold in_range in *. replace 64 with (8 + (56 - k * 8) + k * 8) by lia.
  rewrite !Z.pow_add_r by lia.
  assert (0 < 2 ^ (k * 8)) by (apply Z.pow_pos_nonneg; lia).
  assert (0 < 2 ^ (56 - k * 8)) by (apply Z.pow_pos_nonneg; lia). nia.
Qed.

(** The little-endian loop adds the bytes in ascending weight. *)
Lemma or_bytes_le bs i v :
  bytes_ok bs → 0 ≤ i → i + lenZ bs ≤ 8 → 0 ≤ v < 256 ^ i →
  or_bytes false i bs v = v + 256 ^ i * le_val bs.
Proof.
  intros Hbs. revert i v. induction Hbs as [|b bs Hb _ IH]; intros i v Hi Hlen Hv.
  - simpl. lia.
  - rewrite lenZ_cons in Hlen. pose proof (lenZ_nonneg bs). simpl or_bytes. simpl le_val.
    rewrite shift_byte by (done || lia).
    rewrite lor_add by (rewrite <-?pow256 by lia; lia). rewrite <-pow256 by lia.
    unfold in_range in Hb. rewrite IH; [|lia|lia|].
    + rewrite Z.pow_add_r by lia. lia.
    + rewrite Z.pow_add_r by lia. nia.
Qed.

(** The big-endian loop adds them in descending weight. *)
Lemma or_bytes_be bs i w :
  bytes_ok bs → 0 ≤ i → i + lenZ bs = 8 →
  or_bytes true i bs (w * 256 ^ (lenZ bs)) = w * 256 ^ (lenZ bs) + le_val (reverse bs).
Proof.
  intros Hbs. revert i w. induction Hbs as [|b bs Hb Hbs IH]; intros i w Hi Hlen.
  - simpl. lia.
  - rewrite lenZ_cons in *. pose proof (lenZ_nonneg bs). simpl or_bytes.
    rewrite reverse_cons, le_val_app. replace (lenZ (reverse bs)) with (lenZ bs)
      by (unfold lenZ; by rewrite length_reverse).
    rewrite shift_byte by (done || lia).
    replace (7 - i) with (lenZ bs) by lia. rewrite <-pow256 by lia.
    assert (Z.lor (w * 256 ^ (lenZ bs + 1)) (b * 256 ^ lenZ bs)
            = (w * 256 + b) * 256 ^ lenZ bs) as ->.
    { rewrite Z.lor_comm, !pow256 by lia.
      replace ((lenZ bs + 1) * 8) with (lenZ bs * 8 + 8) by lia.
      rewrite lor_add; [rewrite Z.pow_add_r by lia; lia|lia|].
      unfold in_range in Hb. rewrite Z.pow_add_r by lia.
      assert (0 < 2 ^ (lenZ bs * 8)) by (apply Z.pow_pos_nonneg; lia). nia. }
    rewrite IH by lia. simpl le_val. rewrite Z.pow_add_r by lia. lia.
Qed.

Lemma bytes_ok_sub l p n m : bytes_ok l → sub l p n = Some m → bytes_ok m.
Proof.
  unfold bytes_ok. rewrite sub_spec. intros Hl (a & c & -> & _ & _).
  apply Forall_app in Hl as [_ Hl]. by apply Forall_app in Hl as [? _].
Qed.

(** The portable loop and the raw load read the same value. *)
Lemma get_u64_load be vec start :
  bytes_ok vec → get_u64 be vec start = load_u64 be vec start.
Proof.
  intros Hok. unfold get_u64, load_u64.
  destruct (sub vec start 8) as [bs|] eqn:Hs; simpl; [|done].
  pose proof (bytes_ok_sub _ _ _ _ Hok Hs) as Hbs. apply sub_length in Hs. f_equal.
  destruct be.
  - pose proof (or_bytes_be bs 0 0 Hbs ltac:(lia) ltac:(lia)) as H.
    rewrite Z.mul_0_l in H. lia.
  - rewrite or_bytes_le by (done || simpl; lia). lia.
Qed.

Lemma le_val_shifts v n :
  0 ≤ v → le_val ((λ i : Z, u8 (Z.shiftr v (i * 8))) <$> seqZ 0 (Z.of_nat n)) = v `mod` 256 ^ Z.of_nat n.
Proof.
  intros Hv. induction n as [|n IH].
  - simpl. by rewrite Z.mod_1_r.
  - rewrite seqZ_S, Z.add_0_l, fmap_app, le_val_app, IH. simpl.
    replace (lenZ _) with (Z.of_nat n)
      by (unfold lenZ; rewrite length_fmap, length_seqZ; lia).
    rewrite Z.shiftr_div_pow2, <-pow256 by lia. unfold wrap.
    rewrite Nat2Z.inj_succ, Z.pow_succ_r by lia.
    assert (0 < 256 ^ Z.of_nat n) by (apply Z.pow_pos_nonneg; lia).
    rewrite (Z.mul_comm 256 (256 ^ _)), Z.rem_mul_r by lia. change (2 ^ 8) with 256. lia.
Qed.

Lemma put_u64_slice_ok be v : bytes_ok (put_u64_slice be v).
Proof. unfold put_u64_slice, bytes_ok. simpl. repeat (constructor; [by apply wrap_range|]). constructor. Qed.

Lemma put_u64_slice_len be v : lenZ (put_u64_slice be v) = 8.
Proof. done. Qed.

(** The bytes written by [put_u64] read back, in either byte order. *)
Lemma put_u64_slice_val (be : bool) v :
  is_u64 v → le_val (if be then reverse (put_u64_slice be v) else put_u64_slice be v) = v.
Proof.
  intros Hv. unfold in_range in Hv.
  transitivity (le_val ((λ i : Z, u8 (Z.shiftr v (i * 8))) <$> seqZ 0 (Z.of_nat 8))).
  - by destruct be.
  - rewrite le_val_shifts by lia. change (256 ^ Z.of_nat 8) with (2 ^ 64).
    apply Z.mod_small. lia.
Qed.

(* ------------------------------------------------------------------ *)
(** * The header codec *)

Lemma put_u64_some be vec v p :
  0 ≤ p → p + 8 ≤ lenZ vec → ∃ out, put_u64 be vec v p = Val out ∧
    blit vec p (put_u64_slice be v) = Some out ∧ lenZ out = lenZ vec.
Proof.
  intros Hp Hl. unfold put_u64.
  destruct (blit_some vec p (put_u64_slice be v)) as [out Ho]; [done|by rewrite put_u64_slice_len|].
  rewrite Ho. simpl. eauto using blit_length.
Qed.

Lemma put_u8_some vec v p :
  0 ≤ p → p + 1 ≤ lenZ vec → ∃ out, put_u8 vec v p = Val out ∧
    blit vec p [u8 v] = Some out ∧ lenZ out = lenZ vec.
Proof.
  intros Hp Hl. unfold put_u8.
  destruct (blit_some vec p [u8 v]) as [out Ho]; [done..|].
  rewrite Ho. simpl. eauto using blit_length.
Qed.

Lemma get_u8_blit vec v p out :
  is_u8 v → blit vec p [u8 v] = Some out → get_u8 out p = Val v.
Proof.
  intros Hv Hb. unfold get_u8. rewrite (blit_lookup _ _ _ _ _ Hb).
  rewrite bool_decide_true by (unfold lenZ; simpl; lia). rewrite Z.sub_diag.
  unfold nthZ. simpl. by rewrite wrap_small.
Qed.

Lemma load_u64_blit be vec v p out :
  is_u64 v → blit vec p (put_u64_slice be v) = Some out → load_u64 be out p = Val v.
Proof.
  intros Hv Hb. unfold load_u64. apply sub_blit_eq in Hb. rewrite put_u64_slice_len in Hb.
  rewrite Hb. simpl. by rewrite put_u64_slice_val.
Qed.

Lemma load_u64_frame be vec bs p q out :
  blit vec p bs = Some out → q + 8 ≤ p ∨ p + lenZ bs ≤ q → load_u64 be out q = load_u64 be vec q.
Proof. intros Hb Hd. unfold load_u64. by rewrite (sub_blit_ne _ _ _ _ _ _ Hb Hd). Qed.

Lemma get_u8_frame vec bs p q out :
  blit vec p bs = Some out → q < p ∨ p + lenZ bs ≤ q → get_u8 out q = get_u8 vec q.
Proof.
  intros Hb Hd. unfold get_u8. rewrite (blit_lookup _ _ _ _ _ Hb).
  by rewrite bool_decide_false by lia.
Qed.

Lemma bytes_ok_blit vec bs p out :
  bytes_ok vec → bytes_ok bs → blit vec p bs = Some out → bytes_ok out.
Proof.
  unfold bytes_ok. rewrite blit_spec. intros Hv Hb (a & m & c & -> & _ & _ & ->).
  rewrite !Forall_app in *. naive_solver.
Qed.

(** The decoded buffer's layout: what [to_bytes] leaves in the first 26 bytes. *)
Record header_image (be : bool) (h : Header) (vec out : list Z) : Prop := {
  hi_len : lenZ out = lenZ vec;
  hi_ty : get_u8 out 0 = Val (byte_of_type (h_ty h));
  hi_num : load_u64 be out 1 = Val (h_pkt_num h);
  hi_prio : get_u8 out 9 = Val (h_priority h);
  hi_off : load_u64 be out 10 = Val (h_offset h);
  hi_plen : load_u64 be out 18 = Val (h_pkt_length h);
  hi_payload : ∀ i, 26 ≤ i → nthZ out i = nthZ vec i;
  hi_bytes : bytes_ok vec → bytes_ok out;
}.

Lemma byte_of_type_u8 ty : is_u8 (byte_of_type ty).
Proof. by destruct ty. Qed.

Lemma u8_ok v : bytes_ok [u8 v].
Proof. repeat constructor; by apply wrap_range. Qed.

Lemma to_bytes_image be h vec :
  Header_ok h → 26 ≤ lenZ vec → ∃ out, to_bytes be h vec = Val out ∧ header_image be h vec out.
Proof.
  intros (Hn & Hp & Ho & Hl) Hv. unfold to_bytes.
  destruct (put_u8_some vec (byte_of_type (h_ty h)) 0) as (o1&->&B1&L1); [lia..|]. simpl.
  destruct (put_u64_some be o1 (h_pkt_num h) 1) as (o2&->&B2&L2); [lia..|]. simpl.
  destruct (put_u8_some o2 (h_priority h) 9) as (o3&->&B3&L3); [lia..|]. simpl.
  destruct (put_u64_some be o3 (h_offset h) 10) as (o4&->&B4&L4); [lia..|]. simpl.
  destruct (put_u64_some be o4 (h_pkt_length h) 18) as (o5&->&B5&L5); [lia..|].
  exists o5. split; [done|].
  split; [lia|..].
  - rewrite (get_u8_frame _ _ _ _ _ B5), (get_u8_frame _ _ _ _ _ B4),
      (get_u8_frame _ _ _ _ _ B3), (get_u8_frame _ _ _ _ _ B2) by lia.
    by apply (get_u8_blit _ _ _ _ (byte_of_type_u8 _) B1).
  - rewrite (load_u64_frame _ _ _ _ _ _ B5), (load_u64_frame _ _ _ _ _ _ B4),
      (load_u64_frame _ _ _ _ _ _ B3) by lia. by apply (load_u64_blit _ _ _ _ _ Hn B2).
  - rewrite (get_u8_frame _ _ _ _ _ B5), (get_u8_frame _ _ _ _ _ B4) by lia.
    by apply (get_u8_blit _ _ _ _ Hp B3).
  - rewrite (load_u64_frame _ _ _ _ _ _ B5) by lia. by apply (load_u64_blit _ _ _ _ _ Ho B4).
  - by apply (load_u64_blit _ _ _ _ _ Hl B5).
  - intros i Hi. rewrite (blit_lookup _ _ _ _ _ B5), (blit_lookup _ _ _ _ _ B4),
      (blit_lookup _ _ _ _ _ B3), (blit_lookup _ _ _ _ _ B2), (blit_lookup _ _ _ _ _ B1).
    rewrite !put_u64_slice_len, !bool_decide_false by (unfold lenZ; simpl; lia). done.
  - intros Hok. pose proof (put_u64_slice_ok be) as Hs. pose proof u8_ok as Hu.
    refine (bytes_ok_blit _ _ _ _ _ (Hs _) B5). refine (bytes_ok_blit _ _ _ _ _ (Hs _) B4).
    refine (bytes_ok_blit _ _ _ _ _ (Hu _) B3). refine (bytes_ok_blit _ _ _ _ _ (Hs _) B2).
    by refine (bytes_ok_blit _ _ _ _ Hok (Hu _) B1).
Qed.

Lemma type_of_byte_of_type ty : ty ≠ Unknown → type_of_byte (byte_of_type ty) = ty.
Proof. by destruct ty. Qed.

Lemma from_bytes_image be h vec out :
  header_image be h vec out → h_ty h ≠ Unknown → from_bytes be out = Val h.
Proof.
  intros [_ H1 H2 H3 H4 H5 _ _] Hty. unfold from_bytes, get_u8 in *.
  rewrite H1, H2. simpl. rewrite H3, H4. simpl. rewrite H5. simpl.
  rewrite type_of_byte_of_type by done. by destruct h.
Qed.

(** The 26 bytes of a header. *)
Definition header_bytes (be : bool) (h : Header) : list Z :=
  [u8 (byte_of_type (h_ty h))] ++ put_u64_slice be (h_pkt_num h) ++ [u8 (h_priority h)] ++
  put_u64_slice be (h_offset h) ++ put_u64_slice be (h_pkt_length h).

Lemma header_bytes_len be h : lenZ (header_bytes be h) = 26.
Proof. done. Qed.

Lemma header_bytes_ok be h : bytes_ok (header_bytes be h).
Proof.
  unfold header_bytes, bytes_ok. rewrite !Forall_app.
  split_and!; try apply put_u64_slice_ok; apply u8_ok.
Qed.

Lemma to_bytes_app be h vec :
  26 ≤ lenZ vec → to_bytes be h vec = Val (header_bytes be h ++ drop 26 vec).
Proof.
  intros Hv. unfold lenZ in Hv.
  do 26 (destruct vec as [|? vec]; [exfalso; simpl in Hv; lia|]). clear Hv.
  unfold to_bytes, put_u8, put_u64. cbv zeta.
  match goal with |- context [blit (?x :: ?l) 0 ?b] =>
    replace (blit (x :: l) 0 b) with (Some (b ++ l)) by (symmetry; by apply (blit_app [] [x] l b)) end.
  cbn [from_option_exn mbind outcome_bind].
  match goal with |- context [blit ([?a] ++ ?x0 :: ?x1 :: ?x2 :: ?x3 :: ?x4 :: ?x5 :: ?x6 :: ?x7 :: ?l) 1 ?b] =>
    replace (blit ([a] ++ x0 :: x1 :: x2 :: x3 :: x4 :: x5 :: x6 :: x7 :: l) 1 b) with (Some ([a] ++ b ++ l))
      by (symmetry; by apply (blit_app [a] [x0; x1; x2; x3; x4; x5; x6; x7] l b)) end.
  cbn [from_option_ub mbind outcome_bind].
  match goal with |- context [blit ([?a] ++ ?m ++ ?x :: ?l) 9 ?b] =>
    replace (blit ([a] ++ m ++ x :: l) 9 b) with (Some ([a] ++ m ++ b ++ l))
      by (symmetry; by apply (blit_app ([a] ++ m) [x] l b)) end.
  cbn [from_option_exn mbind outcome_bind].
  match goal with |- context [blit ([?a] ++ ?m ++ ?p ++ ?x0 :: ?x1 :: ?x2 :: ?x3 :: ?x4 :: ?x5 :: ?x6 :: ?x7 :: ?l) 10 ?b] =>
    replace (blit ([a] ++ m ++ p ++ x0 :: x1 :: x2 :: x3 :: x4 :: x5 :: x6 :: x7 :: l) 10 b)
      with (Some ([a] ++ m ++ p ++ b ++ l))
      by (symmetry; by apply (blit_app ([a] ++ m ++ p) [x0; x1; x2; x3; x4; x5; x6; x7] l b)) end.
  cbn [from_option_ub mbind outcome_bind].
  match goal with |- context [blit ([?a] ++ ?m ++ ?p ++ ?q ++ ?x0 :: ?x1 :: ?x2 :: ?x3 :: ?x4 :: ?x5 :: ?x6 :: ?x7 :: ?l) 18 ?b] =>
    replace (blit ([a] ++ m ++ p ++ q ++ x0 :: x1 :: x2 :: x3 :: x4 :: x5 :: x6 :: x7 :: l) 18 b)
      with (Some ([a] ++ m ++ p ++ q ++ b ++ l))
      by (symmetry; by apply (blit_app ([a] ++ m ++ p ++ q) [x0; x1; x2; x3; x4; x5; x6; x7] l b)) end.
  done.
Qed.

(** [from_bytes] (raw loads) and [from_slice] (byte loops) decode every
    buffer alike, buffers that are too short included, on machines of both
    byte orders. *)
Theorem from_slice_from_bytes (be : bool) (b : list Z) :
  bytes_ok b → from_slice be b = from_bytes be b.
Proof.
  intros Hb. unfold from_slice, from_bytes. by rewrite !get_u64_load.
Qed.

(** C37: writing a header of any type but [Unknown] and reading it back returns
    the header, for both decoders and both byte orders ([Unknown] is read back
    as [StartAck], because the decoders assign where they mean to compare); the
    encoder keeps the buffer's length and leaves the payload after byte 26
    alone. *)
Theorem header_roundtrip (be : bool) (h : Header) (vec : list Z) :
  Header_ok h → h_ty h ≠ Unknown → 26 ≤ lenZ vec → bytes_ok vec →
  ∃ out, to_bytes be h vec = Val out ∧ lenZ out = lenZ vec ∧
    from_bytes be out = Val h ∧ from_slice be out = Val h ∧
    (∀ i, 26 ≤ i → nthZ out i = nthZ vec i).
Proof.
  intros Hh Hty Hv Hok. destruct (to_bytes_image be h vec Hh Hv) as (out & Ht & Hi).
  exists out. pose proof (from_bytes_image _ _ _ _ Hi Hty) as Hf. destruct Hi as [Hl _ _ _ _ _ Hp Hb].
  split_and!; [done|done|done| |done].
  unfold from_slice. rewrite !get_u64_load by auto. exact Hf.
Qed.

Lemma from_bytes_header be h body :
  Header_ok h → h_ty h ≠ Unknown → from_bytes be (header_bytes be h ++ body) = Val h.
Proof.
  intros Hh Hty. set (vec := replicate 26 0 ++ body).
  assert (26 ≤ lenZ vec) as Hv.
  { unfold vec. rewrite lenZ_app. change (lenZ (replicate 26 0)) with 26.
    pose proof (lenZ_nonneg body). lia. }
  destruct (to_bytes_image be h vec Hh Hv) as (out & Ht & Hi).
  rewrite to_bytes_app in Ht by done. change (drop 26 vec) with body in Ht. injection Ht as <-.
  by apply (from_bytes_image _ _ _ _ Hi).
Qed.

Lemma from_slice_header be h :
  Header_ok h → h_ty h ≠ Unknown → from_slice be (header_bytes be h) = Val h.
Proof.
  intros Hh Hty. pose proof (from_bytes_header be h [] Hh Hty) as H. rewrite app_nil_r in H.
  unfold from_slice. rewrite !get_u64_load by apply header_bytes_ok. exact H.
Qed.

Lemma get_u64_slice be vec a v c :
  is_u64 v → bytes_ok vec → vec = a ++ put_u64_slice be v ++ c → get_u64 be vec (lenZ a) = Val v.
Proof.
  intros Hv Hok ->. rewrite get_u64_load by done. unfold load_u64.
  assert (sub (a ++ put_u64_slice be v ++ c) (lenZ a) 8 = Some (put_u64_slice be v)) as ->
    by (apply sub_spec; eauto using put_u64_slice_len).
  simpl. by rewrite put_u64_slice_val.
Qed.

(* ------------------------------------------------------------------ *)
(** * The theorems at concrete inputs *)

Definition demo_header : Header := mkHeader Application 7 3 1350 42.

Lemma from_slice_from_bytes_witness :
  from_slice true (replicate 30 5) = from_bytes true (replicate 30 5).
Proof. apply from_slice_from_bytes. repeat constructor; done. Defined.

Lemma header_roundtrip_witness :
  ∃ out, to_bytes false demo_header (replicate 30 0) = Val out ∧ lenZ out = 30 ∧
    from_bytes false out = Val demo_header ∧ from_slice false out = Val demo_header ∧
    (∀ i, 26 ≤ i → nthZ out i = nthZ (replicate 30 0) i).
Proof.
  apply (header_roundtrip false demo_header (replicate 30 0)).
  - repeat split; decide_eval.
  - done.
  - decide_eval.
  - repeat constructor; done.
Defined.
