(* ===== verification/RecvBuffer.v ===== *)
(** The reassembly buffer of [src/gloo/recv_buf.h]: received chunks in an
    ordered map from stream offset to [RangeBuf], written by [write] in the
    order packets arrive and read by [emit] in offset order. *)
From S2P Require Import Prelude RangeBuffer.

Record RecvBuf := mkRecvBuf {
  rv_data : list (Z * RangeBuf);
  rv_off : Z;
  rv_len : Z;
  rv_last_maxoff : Z;
  rv_max_recv_off : Z;
}.

#[export] Instance RecvBuf_eta : Eta RecvBuf :=
  λ r, mkRecvBuf (rv_data r) (rv_off r) (rv_len r) (rv_last_maxoff r) (rv_max_recv_off r).

#[export] Instance RecvBuf_eq_dec : EqDecision RecvBuf.
Proof. solve_decision. Defined.

Definition RecvBuf_new : RecvBuf := mkRecvBuf [] 0 0 0 0.

Definition RecvBuf_write (out : list Z) (out_off : Z) (r : RecvBuf) : RecvBuf :=
  let buf := RangeBuf_from out out_off in
  let buf_len := RangeBuf_len buf in
  let tmp_off := u64 (RangeBuf_max_off buf - buf_len) in
  let r :=
    match last (rv_data r) with
    | Some entry => if fst entry =? tmp_off then r <| rv_max_recv_off := tmp_off |> else r
    | None => r
    end in
  r <| rv_data ::= omap_insert (RangeBuf_off buf) buf |>
    <| rv_len ::= λ l, u64 (l + buf_len) |>.

Definition RecvBuf_max_ack (r : RecvBuf) : Z := rv_max_recv_off r.

Definition RecvBuf_is_empty (r : RecvBuf) : bool :=
  match rv_data r with [] => true | _ => false end.

Definition RecvBuf_length (r : RecvBuf) : Z := rv_len r.

(** [data.begin()->second->len()]: dereferences [end()] when empty. *)
Definition RecvBuf_first_item_len (r : RecvBuf) : outcome Z :=
  match rv_data r with
  | (_, b) :: _ => Val (RangeBuf_len b)
  | [] => UB
  end.

Definition RecvBuf_ready (r : RecvBuf) : bool := negb (RecvBuf_is_empty r).

Definition RecvBuf_off_front (r : RecvBuf) : Z := rv_off r.

Definition RecvBuf_shutdown (r : RecvBuf) : RecvBuf :=
  r <| rv_data := [] |> <| rv_len := 0 |>.

Definition RecvBuf_reset (r : RecvBuf) : Z * RecvBuf := (0, r).

(** The locals of [emit]'s loop. *)
Record EmitState := mkEmitState {
  es_buf : RecvBuf;
  es_out : list Z;
  es_left : Z;
  es_last_max_off : Z;
  es_data_len : Z;
}.

#[export] Instance EmitState_eta : Eta EmitState :=
  λ s, mkEmitState (es_buf s) (es_out s) (es_left s) (es_last_max_off s) (es_data_len s).

(** [PTRDIFF_MAX], the [max_size()] of a byte vector. *)
Definition vector_max_size : Z := 2 ^ 63 - 1.

(** [out.insert(out.end(), n, 0)] *)
Definition append_zeros (out : list Z) (n : Z) : outcome (list Z) :=
  if lenZ out + n <=? vector_max_size
  then Val (out ++ replicate (Z.to_nat n) 0) else Exn LengthError.

(** The whole entry [b] has been copied: account for it and erase it. *)
Definition emit_take_entry (b : RangeBuf) (rest : list (Z * RangeBuf)) (s : EmitState) : EmitState :=
  let n := RangeBuf_len b in
  s <| es_data_len ::= λ d, u64 (d + n) |>
    <| es_left ::= λ l, u64 (l - n) |>
    <| es_last_max_off := RangeBuf_max_off b |>
    <| es_buf ::= λ r, r <| rv_len ::= λ l, u64 (l - n) |> <| rv_data := rest |> |>.

(** Part of the entry has been copied: [left] is reset before [consume(left)]. *)
Definition emit_take_part (k : Z) (b : RangeBuf) (rest : list (Z * RangeBuf)) (s : EmitState) : EmitState :=
  let n := es_left s in
  let s := s <| es_data_len ::= λ d, u64 (d + n) |>
             <| es_buf ::= λ r, r <| rv_len ::= λ l, u64 (l - n) |> |>
             <| es_left := 0 |> in
  s <| es_buf ::= λ r, r <| rv_data := (k, RangeBuf_consume (es_left s) b) :: rest |> |>.

(** One iteration of the [while] loop on the first entry [(k, b)]. *)
Definition emit_step (start_off k : Z) (b : RangeBuf) (rest : list (Z * RangeBuf))
    (s : EmitState) : outcome EmitState :=
  if RangeBuf_off b =? start_off then
    if RangeBuf_len b <=? es_left s then
      out ← from_option_ub (blit (es_out s) 0 (rb_data b));
      Val (emit_take_entry b rest (s <| es_out := out |>))
    else
      bytes ← from_option_ub (sub (rb_data b) 0 (es_left s));
      out ← from_option_ub (blit (es_out s) 0 bytes);
      Val (emit_take_part k b rest (s <| es_out := out |>))
  else
    let zero := u64 (RangeBuf_off b - es_last_max_off s) in
    if zero <? es_left s then
      out ← (if negb (zero =? 0) then append_zeros (es_out s) zero else Val (es_out s));
      let s := s <| es_out := out |> <| es_left ::= λ l, u64 (l - zero) |>
                 <| es_data_len ::= λ d, u64 (d + zero) |>
                 <| es_last_max_off ::= λ m, u64 (m + zero) |> in
      if u64 (RangeBuf_max_off b - es_last_max_off s) <? es_left s then
        (* std::copy(..., out.end()) *)
        out ← from_option_ub (blit (es_out s) (lenZ (es_out s)) (rb_data b));
        Val (emit_take_entry b rest (s <| es_out := out |>))
      else
        bytes ← from_option_ub (sub (rb_data b) 0 (es_left s));
        out ← from_option_ub (blit (es_out s) (lenZ (es_out s)) bytes);
        Val (emit_take_part k b rest (s <| es_out := out |>))
    else
      out ← append_zeros (es_out s) zero;
      Val (s <| es_out := out |> <| es_left ::= λ l, u64 (l - zero) |>
             <| es_data_len ::= λ d, u64 (d + zero) |>).

(** [while (ready() && left > 0)]; [None] when the fuel runs out. *)
Fixpoint emit_loop (fuel : nat) (start_off : Z) (s : EmitState) : option (outcome EmitState) :=
  match rv_data (es_buf s) with
  | [] => Some (Val s)
  | (k, b) :: rest =>
      if 0 <? es_left s then
        match fuel with
        | O => None
        | S fuel =>
            match emit_step start_off k b rest s with
            | Val s' => emit_loop fuel start_off s'
            | Exn e => Some (Exn e)
            | UB => Some UB
            end
        end
      else Some (Val s)
  end.

(** Two iterations per entry are enough, [RecvBuf_emit_total]. *)
Definition RecvBuf_emit (out : list Z) (output_len : Z) (r : RecvBuf)
    : option (outcome (Z * list Z * RecvBuf)) :=
  match rv_data r with
  | [] => Some UB
  | (_, b) :: _ =>
      let left := if output_len =? 0 then rv_len r else output_len in
      let s := mkEmitState r out left (RangeBuf_max_off b) 0 in
      res ← emit_loop (2 * length (rv_data r) + 1) (RangeBuf_off b) s;
      Some (s ← res; Val (es_data_len s, es_out s, es_buf s))
  end.

(* ------------------------------------------------------------------ *)
(** * Termination of [emit] *)

(** The entry starts past what is left to read: only zeros are appended. *)
Definition gap_only (start_off : Z) (b : RangeBuf) (s : EmitState) : Prop :=
  RangeBuf_off b ≠ start_off ∧ es_left s ≤ u64 (RangeBuf_off b - es_last_max_off s).

Lemma emit_step_progress start_off k b rest s s' :
  rv_data (es_buf s) = (k, b) :: rest → is_u64 (es_left s) →
  emit_step start_off k b rest s = Val s' →
  is_u64 (es_left s') ∧
  (es_left s' = 0 ∨ rv_data (es_buf s') = rest ∨
   (gap_only start_off b s ∧ rv_data (es_buf s') = (k, b) :: rest ∧ ¬ gap_only start_off b s')).
Proof.
  intros Hd Hl. unfold emit_step.
  destruct (Z.eqb_spec (RangeBuf_off b) start_off) as [Heq|Hne].
  { destruct (_ <=? _).
    - rewrite outcome_bind_val. intros (out & _ & [= <-]). split; [by apply wrap_range|]. auto.
    - rewrite outcome_bind_val. intros (bs & _ & H). rewrite outcome_bind_val in H.
      destruct H as (out & _ & [= <-]). split; [done|]. by left. }
  destruct (Z.ltb_spec (u64 (RangeBuf_off b - es_last_max_off s)) (es_left s)) as [Hlt|Hge].
  - rewrite outcome_bind_val. intros (out & _ & H). revert H. destruct (_ <? _).
    + rewrite outcome_bind_val. intros (o & _ & [= <-]). split; [by apply wrap_range|]. auto.
    + rewrite outcome_bind_val. intros (bs & _ & H). rewrite outcome_bind_val in H.
      destruct H as (o & _ & [= <-]). split; [done|]. by left.
  - rewrite outcome_bind_val. unfold append_zeros.
    destruct (Z.leb_spec (lenZ (es_out s) + u64 (RangeBuf_off b - es_last_max_off s)) vector_max_size)
      as [Hmax|]; [|naive_solver].
    intros (out & _ & [= <-]). split; [by apply wrap_range|].
    destruct (decide (u64 (es_left s - u64 (RangeBuf_off b - es_last_max_off s)) = 0)) as [->|Hnz];
      [by left|]. right. right. split_and!; [done|done|]. intros [_ Hg]. revert Hg Hnz. simpl.
    pose proof (lenZ_nonneg (es_out s)). unfold vector_max_size in Hmax.
    pose proof (wrap_range 64 (RangeBuf_off b - es_last_max_off s) ltac:(done)) as Hz.
    generalize dependent (u64 (RangeBuf_off b - es_last_max_off s)). intros z. intros.
    word_lia.
Qed.

Lemma emit_loop_total fuel start_off s :
  is_u64 (es_left s) →
  (2 * length (rv_data (es_buf s)) + 1 ≤ fuel ∨
   (2 * length (rv_data (es_buf s)) ≤ fuel ∧
    ∀ p, head (rv_data (es_buf s)) = Some p → ¬ gap_only start_off p.2 s))%nat →
  is_Some (emit_loop fuel start_off s).
Proof.
  revert s. induction fuel as [|fuel IH]; intros s Hl Hf.
  - destruct (rv_data (es_buf s)) as [|[k b] rest] eqn:Hd; simpl in *; rewrite Hd; eauto; lia.
  - destruct (rv_data (es_buf s)) as [|[k b] rest] eqn:Hd; simpl in *; rewrite Hd; [eauto|].
    destruct (Z.ltb_spec 0 (es_left s)); [|eauto].
    destruct (emit_step start_off k b rest s) as [s'| |] eqn:Hs; [|eauto..].
    destruct (emit_step_progress _ _ _ _ _ _ Hd Hl Hs) as (Hl' & [H0|[Hr|(Hg & Hr & Hn)]]).
    + destruct fuel; simpl; destruct (rv_data (es_buf s')) as [|[]]; rewrite ?H0; eauto.
    + apply IH; [done|]. rewrite Hr. left. lia.
    + apply IH; [done|]. rewrite Hr. right. simpl. split; [|by intros ? [= <-]].
      destruct Hf as [|[_ Hf]]; [lia|]. by destruct (Hf (k, b)).
Qed.

(** [emit] terminates: its loop runs at most twice per stored entry, for
    any buffer contents and any requested length. *)
Theorem RecvBuf_emit_total (out : list Z) (output_len : Z) (r : RecvBuf) :
  is_u64 output_len → is_u64 (rv_len r) → is_Some (RecvBuf_emit out output_len r).
Proof.
  intros Ho Hr. unfold RecvBuf_emit. destruct (rv_data r) as [|[k b] rest] eqn:Hd; [eauto|].
  destruct (emit_loop_total (2 * length ((k, b) :: rest) + 1) (RangeBuf_off b)
    (mkEmitState r out (if output_len =? 0 then rv_len r else output_len) (RangeBuf_max_off b) 0))
    as [res ->]; [by case_match| |eauto].
  left. simpl. rewrite Hd. done.
Qed.

(* ------------------------------------------------------------------ *)
(** * What [emit] returns *)

(** A chunk as received and not yet read from. *)
Definition fresh_chunk (b : RangeBuf) : Prop := RangeBuf_wf b ∧ rb_pos b = 0 ∧ 0 < lenZ (rb_data b).

Lemma fresh_chunk_len b : fresh_chunk b → RangeBuf_len b = lenZ (rb_data b).
Proof. intros (Hwf & Hp & _). rewrite RangeBuf_len_wf, Hp by done. destruct Hwf as (_ & -> & _). lia. Qed.

Lemma fresh_chunk_off b : fresh_chunk b → RangeBuf_off b = rb_offset b.
Proof. intros (Hwf & Hp & _). rewrite RangeBuf_off_wf, Hp by done. lia. Qed.

Lemma fresh_chunk_max_off b : fresh_chunk b → RangeBuf_max_off b = rb_offset b + lenZ (rb_data b).
Proof. intros (Hwf & _ & _). rewrite RangeBuf_max_off_wf by done. by destruct Hwf as (_ & -> & _). Qed.

Lemma fresh_chunk_bound b : fresh_chunk b → 0 < lenZ (rb_data b) < 2 ^ 64.
Proof. intros ((_ & Hl & ? & ? & ?) & _ & ?). lia. Qed.

Lemma blit_prefix {A} (l bs : list A) :
  lenZ bs ≤ lenZ l → blit l 0 bs = Some (bs ++ drop (length bs) l).
Proof.
  intros Hl. unfold blit. rewrite bool_decide_true by (unfold lenZ in *; lia).
  rewrite Z.add_0_l. simpl. unfold lenZ. by rewrite Nat2Z.id.
Qed.

Lemma blit_all {A} (l bs : list A) : lenZ bs = lenZ l → blit l 0 bs = Some bs.
Proof.
  intros Hl. rewrite blit_prefix by lia. f_equal. unfold lenZ in Hl.
  rewrite drop_ge by lia. apply app_nil_r.
Qed.

(** The first iteration, when the reader wants at least the first entry. *)
Lemma emit_step_first_whole k b rest out left last dl r :
  fresh_chunk b → lenZ (rb_data b) ≤ left → lenZ (rb_data b) ≤ lenZ out →
  emit_step (RangeBuf_off b) k b rest (mkEmitState r out left last dl) =
  Val (emit_take_entry b rest
        (mkEmitState r (rb_data b ++ drop (length (rb_data b)) out) left last dl)).
Proof.
  intros Hb Hl Ho. unfold emit_step. rewrite Z.eqb_refl. simpl.
  rewrite fresh_chunk_len by done. rewrite (proj2 (Z.leb_le _ _)) by done.
  by rewrite blit_prefix.
Qed.

Lemma emit_loop_done fuel start_off s : es_left s = 0 → emit_loop fuel start_off s = Some (Val s).
Proof. intros H. destruct fuel; simpl; destruct (rv_data _) as [|[]]; rewrite ?H; done. Qed.

Lemma emit_loop_step fuel start_off k b rest s :
  rv_data (es_buf s) = (k, b) :: rest → 0 < es_left s →
  emit_loop (S fuel) start_off s =
  match emit_step start_off k b rest s with
  | Val s' => emit_loop fuel start_off s' | Exn e => Some (Exn e) | UB => Some UB
  end.
Proof. intros Hd Hl. simpl. rewrite Hd. by rewrite (proj2 (Z.ltb_lt _ _)). Qed.

Arguments emit_loop : simpl never.

Lemma RecvBuf_emit_unfold out n r k b rest :
  rv_data r = (k, b) :: rest → 0 < n →
  RecvBuf_emit out n r =
  (res ← emit_loop (S (S (2 * length rest + 1))) (RangeBuf_off b)
           (mkEmitState r out n (RangeBuf_max_off b) 0);
   Some (s ← res; Val (es_data_len s, es_out s, es_buf s))).
Proof.
  intros Hd Hn. unfold RecvBuf_emit. rewrite Hd, (proj2 (Z.eqb_neq n 0)) by lia.
  by replace (2 * length ((k, b) :: rest) + 1)%nat with (S (S (2 * length rest + 1))) by (simpl; lia).
Qed.

(** Reading exactly the first entry removes it and returns its bytes. *)
Lemma RecvBuf_emit_first k b rest out r :
  rv_data r = (k, b) :: rest → fresh_chunk b → lenZ out = RangeBuf_len b →
  RecvBuf_emit out (RangeBuf_len b) r =
  Some (Val (RangeBuf_len b, rb_data b,
    r <| rv_len ::= λ l, u64 (l - RangeBuf_len b) |> <| rv_data := rest |>)).
Proof.
  intros Hd Hb Ho. pose proof (fresh_chunk_bound b Hb) as Hpos.
  rewrite fresh_chunk_len in * by done.
  rewrite (RecvBuf_emit_unfold _ _ _ _ _ _ Hd) by lia.
  rewrite (emit_loop_step _ _ k b rest) by (done || simpl; lia).
  rewrite emit_step_first_whole by (done || lia).
  rewrite emit_loop_done by (simpl; rewrite fresh_chunk_len by done; word_lia).
  simpl. rewrite fresh_chunk_len by done. rewrite drop_ge by (unfold lenZ in Ho; lia).
  rewrite app_nil_r. by rewrite (wrap_small 64) by (unfold in_range; lia).
Qed.

(** a read shorter than the first entry returns the right bytes but leaves
    the entry as it was ([left] is zeroed before [consume(left)]), so the next
    read delivers the same bytes again. *)
Theorem RecvBuf_emit_partial_redelivers (r : RecvBuf) (k : Z) (b : RangeBuf)
    (rest : list (Z * RangeBuf)) (n : Z) (out : list Z) :
  rv_data r = (k, b) :: rest → fresh_chunk b → 0 < n < RangeBuf_len b → lenZ out = n →
  ∃ bytes r', sub (rb_data b) 0 n = Some bytes ∧
    RecvBuf_emit out n r = Some (Val (n, bytes, r')) ∧
    rv_data r' = rv_data r ∧
    RecvBuf_emit out n r' = Some (Val (n, bytes, r' <| rv_len ::= λ l, u64 (l - n) |>)).
Proof.
  intros Hd Hb Hn Ho. pose proof (fresh_chunk_bound b Hb) as Hpos.
  destruct (sub_some (rb_data b) 0 n) as [bytes Hs]; [lia..|rewrite fresh_chunk_len in Hn by done; lia|].
  pose proof (sub_length _ _ _ _ Hs) as Hlen.
  assert (RangeBuf_consume 0 b = b) as Hc.
  { destruct Hb as ((_&?&?&_&?)&?&_). destruct b; unfold RangeBuf_consume; simpl in *. f_equal. word_lia. }
  assert (∀ r0, rv_data r0 = (k, b) :: rest → RecvBuf_emit out n r0 =
    Some (Val (n, bytes, r0 <| rv_len ::= λ l, u64 (l - n) |>))) as Hone.
  { intros r0 Hd0. rewrite (RecvBuf_emit_unfold _ _ _ _ _ _ Hd0) by lia.
    rewrite (emit_loop_step _ _ k b rest) by (done || simpl; lia).
    unfold emit_step. rewrite Z.eqb_refl. simpl. rewrite (proj2 (Z.leb_gt _ _)) by lia.
    rewrite Hs. simpl. rewrite blit_all by lia. simpl.
    rewrite Z.add_0_l, Hc, (wrap_small 64) by (unfold in_range; rewrite fresh_chunk_len in Hn by done; lia).
    by rewrite Hd0. }
  exists bytes, (r <| rv_len ::= λ l, u64 (l - n) |>).
  split_and!; [done|by apply Hone|done|]. by apply Hone.
Qed.

(** a read that wants more than the first entry holds, when the next entry
    is contiguous with it, copies to [out.end()]: undefined behaviour. *)
Theorem RecvBuf_emit_past_first_undefined (r : RecvBuf) (k1 k2 : Z) (b1 b2 : RangeBuf)
    (rest : list (Z * RangeBuf)) (n : Z) (out : list Z) :
  rv_data r = (k1, b1) :: (k2, b2) :: rest → fresh_chunk b1 → fresh_chunk b2 →
  rb_offset b2 = rb_offset b1 + lenZ (rb_data b1) →
  RangeBuf_len b1 < n < 2 ^ 64 → RangeBuf_len b1 ≤ lenZ out →
  RecvBuf_emit out n r = Some UB.
Proof.
  intros Hd Hb1 Hb2 Hoff Hn Ho.
  pose proof (fresh_chunk_bound b1 Hb1) as Hp1. pose proof (fresh_chunk_bound b2 Hb2) as Hp2.
  rewrite fresh_chunk_len in * by done.
  rewrite (RecvBuf_emit_unfold _ _ _ _ _ _ Hd) by lia.
  rewrite (emit_loop_step _ _ k1 b1 ((k2, b2) :: rest)) by (done || simpl; lia).
  rewrite emit_step_first_whole by (done || lia).
  rewrite (emit_loop_step _ _ k2 b2 rest)
    by (done || (simpl; rewrite fresh_chunk_len by done; word_lia)).
  unfold emit_step. simpl.
  rewrite !fresh_chunk_len, !(wrap_small 64 (n - _)) by (done || (unfold in_range; lia)). rewrite !fresh_chunk_off, !fresh_chunk_max_off by done.
  rewrite (proj2 (Z.eqb_neq _ _)) by lia.
  rewrite Hoff, Z.sub_diag. change (u64 0) with 0.
  rewrite (proj2 (Z.ltb_lt 0 _)) by lia. simpl.
  match goal with |- context [if ?c then _ else _] => destruct c eqn:Hlt end.
  - unfold blit. rewrite bool_decide_false by lia. done.
  - destruct (sub _ _ _) as [bytes|] eqn:Hs; simpl; [|done]. apply sub_length in Hs.
    unfold blit. rewrite bool_decide_false; [done|]. rewrite Hs, Z.sub_0_r.
    rewrite (wrap_small 64) by (unfold in_range; lia). lia.
Qed.

(* ------------------------------------------------------------------ *)
(** * Reassembly *)

(** A stream cut into chunks: (offset, payload), offsets ascending. *)
Definition chunk_ok (c : Z * list Z) : Prop :=
  0 ≤ c.1 ∧ 0 < lenZ c.2 ∧ c.1 + lenZ c.2 < 2 ^ 64.
Definition chunks_ok (cs : list (Z * list Z)) : Prop :=
  omap_wf cs ∧ Forall chunk_ok cs.

(** The reader: as long as the buffer is ready, ask for the length of the
    first item and read that many bytes. *)
Fixpoint RecvBuf_drain (fuel : nat) (r : RecvBuf) : option (outcome (list Z * RecvBuf)) :=
  if RecvBuf_ready r then
    match fuel with
    | O => None
    | S fuel =>
        match RecvBuf_first_item_len r with
        | Val n =>
            match RecvBuf_emit (replicate (Z.to_nat n) 0) n r with
            | Some (Val (_, bytes, r')) =>
                res ← RecvBuf_drain fuel r';
                Some ('(bs, r'') ← res; Val (bytes ++ bs, r''))
            | Some (Exn e) => Some (Exn e)
            | Some UB => Some UB
            | None => None
            end
        | Exn e => Some (Exn e)
        | UB => Some UB
        end
    end
  else Some (Val ([], r)).

Definition write_all (ws : list (Z * list Z)) : RecvBuf :=
  foldl (λ r w, RecvBuf_write w.2 w.1 r) RecvBuf_new ws.

Definition chunk_entry (c : Z * list Z) : Z * RangeBuf := (c.1, RangeBuf_from c.2 c.1).

Lemma chunk_entry_fresh c : chunk_ok c → fresh_chunk (chunk_entry c).2.
Proof. intros (?&?&?). split; [by apply RangeBuf_from_wf|]. by split. Qed.

Lemma RecvBuf_write_data w r :
  chunk_ok w → rv_data (RecvBuf_write w.2 w.1 r) = omap_insert w.1 (RangeBuf_from w.2 w.1) (rv_data r).
Proof.
  intros Hw. unfold RecvBuf_write. simpl.
  rewrite fresh_chunk_off by (by apply (chunk_entry_fresh w)).
  by destruct (last (rv_data r)) as [[k b]|]; simpl; [case_match|].
Qed.

Lemma write_all_wf ws : Forall chunk_ok ws → omap_wf (rv_data (write_all ws)).
Proof.
  unfold write_all. induction ws as [|w ws IH] using rev_ind; [constructor|].
  rewrite Forall_app, Forall_singleton, foldl_app. intros [Hws Hw]. cbn [foldl].
  rewrite RecvBuf_write_data by done. auto with seqs.
Qed.

(** The map holds one entry per distinct chunk written. *)
Lemma write_all_elem cs ws x :
  chunks_ok cs → Forall (.∈ cs) ws → x ∈ rv_data (write_all ws) ↔ ∃ w, w ∈ ws ∧ x = chunk_entry w.
Proof.
  intros [Hcs Hok]. rewrite Forall_forall in Hok. revert x.
  unfold write_all. induction ws as [|w ws IH] using rev_ind; intros x; [set_solver|].
  rewrite Forall_app, Forall_singleton, foldl_app. intros [Hws Hw]. cbn [foldl].
  rewrite RecvBuf_write_data by auto. split.
  - intros Hx. apply omap_insert_elem in Hx as [->|Hx]; [exists w; set_solver|].
    apply IH in Hx as (w' & ? & ->); [|done]. exists w'. set_solver.
  - intros (w' & Hw' & ->). apply elem_of_app in Hw' as [Hin|Hw'%list_elem_of_singleton]; [|subst w'].
    + apply omap_insert_old, IH; eauto.
    + destruct (decide (w ∈ ws)) as [Hin|Hnin].
      { apply omap_insert_old, IH; eauto. }
      apply omap_insert_new. intros v' Hv'. apply IH in Hv' as (w' & Hin & Heq); [|done].
      destruct Hnin. rewrite Forall_forall in Hws. pose proof (Hws _ Hin) as Hin'.
      destruct w as [k bs], w' as [k' bs']. injection Heq as <- _.
      by rewrite (omap_wf_functional _ _ _ _ Hcs Hw Hin').
Qed.

Lemma chunk_entries_wf cs : omap_wf cs → omap_wf (chunk_entry <$> cs).
Proof.
  induction 1 as [|c cs _ IH Hall]; simpl; constructor; [done|].
  apply Forall_fmap. eapply Forall_impl; [exact Hall|]. done.
Qed.

Lemma RecvBuf_drain_entries cs r :
  Forall chunk_ok cs → rv_data r = chunk_entry <$> cs →
  ∃ r', RecvBuf_drain (length cs) r = Some (Val (concat (snd <$> cs), r')) ∧
    RecvBuf_is_empty r' = true.
Proof.
  intros Hcs. revert r. induction Hcs as [|c cs Hc _ IH]; intros r Hd; simpl in *.
  - exists r. unfold RecvBuf_ready, RecvBuf_is_empty. by rewrite Hd.
  - pose proof (chunk_entry_fresh c Hc) as Hf. pose proof (fresh_chunk_bound _ Hf) as Hp.
    unfold RecvBuf_ready, RecvBuf_is_empty, RecvBuf_first_item_len. rewrite Hd.
    unfold chunk_entry at 1. simpl.
    change (RangeBuf_from c.2 c.1) with (chunk_entry c).2 in *.
    rewrite (RecvBuf_emit_first _ _ _ _ _ Hd Hf).
    2: { rewrite lenZ_replicate. done. rewrite fresh_chunk_len by done. lia. }
    edestruct IH as (r' & -> & He); [done|]. eauto.
Qed.

Lemma RecvBuf_reassembly_lemma (cs ws : list (Z * list Z)) :
  chunks_ok cs → (∀ w, w ∈ ws ↔ w ∈ cs) →
  ∃ r', RecvBuf_drain (length cs) (write_all ws) = Some (Val (concat (snd <$> cs), r')) ∧
    RecvBuf_is_empty r' = true.
Proof.
  intros Hcs Hws. pose proof Hcs as [Hwf Hok].
  assert (Forall (.∈ cs) ws) as Hin by (apply Forall_forall; set_solver).
  apply RecvBuf_drain_entries; [done|].
  apply omap_ext; [|by apply chunk_entries_wf|].
  - apply write_all_wf. rewrite Forall_forall in *. set_solver.
  - intros x. rewrite (write_all_elem cs) by done.
    rewrite list_elem_of_fmap. setoid_rewrite Hws. naive_solver.
Qed.

(** C36: chunks of a stream that arrive in any order, any number of times, read
    back in offset order: as long as every chunk arrives, draining the buffer
    item by item returns the stream, and leaves the buffer empty. *)
Theorem RecvBuf_reassembly (cs ws : list (Z * list Z)) :
  chunks_ok cs → (∀ w, w ∈ ws ↔ w ∈ cs) →
  ∃ r', RecvBuf_drain (length cs) (write_all ws) = Some (Val (concat (snd <$> cs), r')) ∧
    RecvBuf_is_empty r' = true.
Proof. apply RecvBuf_reassembly_lemma. Qed.

(* ------------------------------------------------------------------ *)
(** * The theorems at concrete inputs *)

Definition demo_chunks : list (Z * list Z) := [(0, [1; 2; 3]); (3, [4; 5])].
Definition demo_recv : RecvBuf := write_all [(3, [4; 5]); (0, [1; 2; 3])].

Lemma demo_chunks_ok : chunks_ok demo_chunks.
Proof. split; repeat constructor; decide_eval. Qed.

Lemma demo_fresh l off : 0 ≤ off < 2 ^ 32 → 0 < lenZ l < 2 ^ 32 → fresh_chunk (RangeBuf_from l off).
Proof. intros. apply (chunk_entry_fresh (off, l)). unfold chunk_ok. simpl. lia. Qed.

Lemma RecvBuf_emit_total_witness : is_Some (RecvBuf_emit (replicate 9 0) 9 demo_recv).
Proof. apply RecvBuf_emit_total; decide_eval. Defined.

Lemma RecvBuf_emit_partial_redelivers_witness :
  ∃ bytes r', sub [1; 2; 3] 0 2 = Some bytes ∧
    RecvBuf_emit (replicate 2 0) 2 demo_recv = Some (Val (2, bytes, r')) ∧
    rv_data r' = rv_data demo_recv ∧
    RecvBuf_emit (replicate 2 0) 2 r' = Some (Val (2, bytes, r' <| rv_len ::= λ l, u64 (l - 2) |>)).
Proof.
  apply (RecvBuf_emit_partial_redelivers demo_recv 0 (RangeBuf_from [1; 2; 3] 0)
    [(3, RangeBuf_from [4; 5] 3)] 2 (replicate 2 0)); [done|apply demo_fresh; decide_eval|decide_eval|done].
Defined.

Lemma RecvBuf_emit_past_first_undefined_witness :
  RecvBuf_emit (replicate 5 0) 5 demo_recv = Some UB.
Proof.
  apply (RecvBuf_emit_past_first_undefined demo_recv 0 3 (RangeBuf_from [1; 2; 3] 0)
    (RangeBuf_from [4; 5] 3) [] 5 (replicate 5 0)); try (apply demo_fresh); decide_eval.
Defined.

Lemma RecvBuf_reassembly_witness :
  ∃ r', RecvBuf_drain 2 (write_all [(3, [4; 5]); (0, [1; 2; 3]); (3, [4; 5])]) =
      Some (Val ([1; 2; 3; 4; 5], r')) ∧ RecvBuf_is_empty r' = true.
Proof.
  apply (RecvBuf_reassembly demo_chunks); [apply demo_chunks_ok|]. intros w. unfold demo_chunks.
  rewrite !elem_of_cons, elem_of_nil. tauto.
Defined.
