(* ===== verification/SendBuffer.v ===== *)
(** The send buffer of [src/gloo/send_buf.h]: references into the
    application's memory cut into datagram-sized items, the cursor of the
    current sending round, and the record of which offsets are acknowledged.
    Pointers are integer addresses; the buffer never reads through them. *)
From S2P Require Import Prelude.

Definition SEND_BUFFER_SIZE : Z := 1350.
Definition MIN_SENDBUF_INITIAL_LEN : Z := 1350.

(** [std::pair<uint64_t, std::pair<uint8_t*, uint64_t>>] *)
Record SendItem := mkSendItem {
  si_off : Z;
  si_ptr : Z;
  si_len : Z;
}.

#[export] Instance SendItem_eq_dec : EqDecision SendItem.
Proof. solve_decision. Defined.

(** [struct iovec] *)
Record iovec := mkIovec { iov_base : Z; iov_len : Z }.

#[export] Instance iovec_eq_dec : EqDecision iovec.
Proof. solve_decision. Defined.

Record SendBuf := mkSendBuf {
  sb_data : list SendItem;
  sb_pos : Z;
  sb_off : Z;
  sb_length : Z;
  sb_max_data : Z;
  sb_used_length : Z;
  sb_offset_recv : gmap Z bool;
  sb_removed : Z;
  sb_sent : Z;
  sb_recv_count : gset Z;
}.

#[export] Instance SendBuf_eta : Eta SendBuf :=
  λ s, mkSendBuf (sb_data s) (sb_pos s) (sb_off s) (sb_length s) (sb_max_data s)
    (sb_used_length s) (sb_offset_recv s) (sb_removed s) (sb_sent s) (sb_recv_count s).

Definition SendBuf_new : SendBuf :=
  mkSendBuf [] 0 0 0 (MIN_SENDBUF_INITIAL_LEN * 8) 0 ∅ 0 0 ∅.

(** [size_t len()]: sums the item lengths in a [size_t]. *)
Definition SendBuf_len (s : SendBuf) : Z :=
  foldl (λ n x, u64 (n + si_len x)) 0 (sb_data s).

(** [cap()] stores [len()] in [used_length]. *)
Definition SendBuf_cap (s : SendBuf) : Z * SendBuf :=
  let s := s <| sb_used_length := SendBuf_len s |> in
  (u64 (sb_max_data s - sb_used_length s), s).

(** [off_front()]: [data.size() - 1] wraps when the deque is empty, and a loop
    that finds no non-empty item falls off the end of the function. *)
Fixpoint off_front_loop (fuel : nat) (data : list SendItem) (tmp_pos : Z) : outcome Z :=
  if tmp_pos <=? u64 (lenZ data - 1) then
    b ← from_option_exn OutOfRange (nthZ data tmp_pos);
    if negb (si_len b =? 0) then Val (si_off b)
    else match fuel with O => UB | S fuel => off_front_loop fuel data (u64 (tmp_pos + 1)) end
  else UB.

Definition SendBuf_off_front (s : SendBuf) : outcome Z :=
  off_front_loop (length (sb_data s)) (sb_data s) (sb_pos s).

Definition SendBuf_is_empty (s : SendBuf) : bool :=
  match sb_data s with [] => true | _ => false end.

Definition SendBuf_ready (s : SendBuf) : bool := negb (SendBuf_is_empty s).

Definition SendBuf_clear (s : SendBuf) : SendBuf :=
  s <| sb_data := [] |> <| sb_pos := 0 |> <| sb_off := 0 |> <| sb_length := 0 |>.

Definition SendBuf_off_back (s : SendBuf) : Z := sb_off s.

Definition SendBuf_max_off (s : SendBuf) : Z := sb_max_data s.

Definition SendBuf_update_max_data (maxdata : Z) (s : SendBuf) : SendBuf :=
  s <| sb_max_data := maxdata |>.

Definition SendBuf_reset (s : SendBuf) : outcome (Z * SendBuf) :=
  unsent_off ← SendBuf_off_front s;
  let unsent_len := u64 (SendBuf_off_back s - unsent_off) in
  Val (unsent_len, s <| sb_data := [] |> <| sb_pos := 0 |> <| sb_length := 0 |> <| sb_off := unsent_off |>).

(** Mark received data as false. *)
Definition SendBuf_ack_and_drop (offset : Z) (s : SendBuf) : SendBuf :=
  match sb_offset_recv s !! offset with
  | Some _ => s <| sb_offset_recv ::= <[offset := false]> |>
  | None => s
  end.

Definition SendBuf_insert_ack (offset : Z) (s : SendBuf) : SendBuf :=
  match sb_offset_recv s !! offset with
  | Some _ => s <| sb_recv_count ::= λ c, {[offset]} ∪ c |>
  | None => s
  end.

Definition SendBuf_check_ack (s : SendBuf) : bool :=
  Nat.eqb (size (sb_recv_count s)) (size (sb_offset_recv s)).

(** Remove received data from the send buffer. *)
Definition SendBuf_recv_and_drop (s : SendBuf) : SendBuf :=
  match sb_data s with
  | [] => s
  | _ =>
      let keysToDelete : gset Z := dom (filter (λ kv, kv.2 = false) (sb_offset_recv s)) in
      s <| sb_data ::= filter (λ x, si_off x ∉ keysToDelete) |>
        <| sb_offset_recv ::= filter (λ kv, kv.1 ∉ keysToDelete) |>
  end.

Definition SendBuf_pkt_num (s : SendBuf) : Z := lenZ (sb_data s).

(** [offset_recv[off] = true; data.push_back(...); off += n; ...] *)
Definition push_chunk (ptr n : Z) (s : SendBuf) : SendBuf :=
  s <| sb_offset_recv ::= <[sb_off s := true]> |>
    <| sb_data ::= λ d, d ++ [mkSendItem (sb_off s) ptr n] |>
    <| sb_off ::= λ o, u64 (o + n) |>
    <| sb_length ::= λ l, u64 (l + n) |>
    <| sb_used_length ::= λ l, u64 (l + n) |>.

(** [for (auto it = off_len; it < ready_written; )]; returns [write_len]. *)
Fixpoint write_loop (fuel : nat) (base it ready_written write_len : Z) (s : SendBuf) : Z * SendBuf :=
  if it <? ready_written then
    match fuel with
    | O => (write_len, s)
    | S fuel =>
        if SEND_BUFFER_SIZE <? u64 (ready_written - it) then
          write_loop fuel base (u64 (it + SEND_BUFFER_SIZE)) ready_written
            (u64 (write_len + SEND_BUFFER_SIZE)) (push_chunk (u64 (base + it)) SEND_BUFFER_SIZE s)
        else
          let n := u64 (ready_written - it) in
          write_loop fuel base ready_written ready_written
            (u64 (write_len + n)) (push_chunk (u64 (base + it)) n s)
    end
  else (write_len, s).

(** The part of [write] common to its two branches: how much to write, the
    partial first chunk, the loop. Returns the [ssize_t] result, the updated
    [write_data_len] and the buffer. *)
Definition write_chunks (base write_data_len capacity off_len : Z) (s : SendBuf) : Z * Z * SendBuf :=
  let ready_written := if capacity <? write_data_len then capacity else write_data_len in
  let fuel := Z.to_nat (ready_written / SEND_BUFFER_SIZE + 1) in
  let finish '(write_len, s) := (s64 write_len, u64 (write_data_len - write_len), s) in
  if 0 <? off_len then
    if off_len <? ready_written
    then finish (write_loop fuel base off_len ready_written off_len (push_chunk base off_len s))
    else finish (ready_written, push_chunk base ready_written s)
  else finish (write_loop fuel base off_len ready_written 0 s).

Definition SendBuf_write (src start_off write_data_len window_size off_len : Z) (s : SendBuf)
    : Z * Z * SendBuf :=
  let s := if sb_pos s =? 0 then s <| sb_recv_count := ∅ |> else s in
  let '(capacity, s) := SendBuf_cap s in
  if capacity =? 0 then (0, write_data_len, s)
  else if write_data_len <=? 0 then (-1, write_data_len, s)
  else
    let base := u64 (src + start_off) in
    if SendBuf_is_empty s then
      let s := s <| sb_max_data := window_size |> <| sb_removed := 0 |> <| sb_sent := 0 |>
                 <| sb_length := SendBuf_len s |> <| sb_used_length := SendBuf_len s |> in
      if window_size <=? sb_length s then (0, write_data_len, s)
      else write_chunks base write_data_len capacity off_len s
    else
      if window_size <=? SendBuf_len s then (0, write_data_len, s)
      else write_chunks base write_data_len capacity off_len s.

(** [emit]'s loop over the items at [pos]. *)
Fixpoint emit_items (fuel : nat) (out : iovec) (out_len : Z) (s : SendBuf) : iovec * Z * SendBuf :=
  match fuel with
  | O => (out, out_len, s)
  | S fuel =>
      match nthZ (sb_data s) (sb_pos s) with
      | None => (out, out_len, s)
      | Some buf =>
          if si_len buf =? 0 then emit_items fuel out out_len (s <| sb_pos ::= λ p, u64 (p + 1) |>)
          else
            let partial := si_len buf <=? MIN_SENDBUF_INITIAL_LEN in
            let s := s <| sb_length ::= λ l, u64 (l - si_len buf) |>
                       <| sb_used_length ::= λ l, u64 (l - si_len buf) |>
                       <| sb_pos ::= λ p, u64 (p + 1) |> in
            let out := mkIovec (si_ptr buf) (si_len buf) in
            if partial then (out, si_len buf, s) else emit_items fuel out (si_len buf) s
      end
  end.

(** [bool emit(iovec& out, size_t& out_len, uint64_t& out_off)]: returns
    (stop, out, out_len, out_off) and the buffer. *)
Definition SendBuf_emit (out : iovec) (s : SendBuf) : outcome (bool * iovec * Z * Z * SendBuf) :=
  out_off ← SendBuf_off_front s;
  let '(out, out_len, s) := emit_items (length (sb_data s) + 1) out 0 s in
  let s := s <| sb_sent ::= λ n, u64 (n + out_len) |> in
  let '(stop, s) :=
    if sb_max_data s <=? sb_sent s then (true, s <| sb_pos := 0 |>) else (false, s) in
  let '(stop, s) :=
    if sb_pos s =? lenZ (sb_data s) then (true, s <| sb_pos := 0 |>) else (stop, s) in
  Val (stop, out, out_len, u64 (out_off + out_len), s).

(* ------------------------------------------------------------------ *)
(** * Invariant *)

(** The items are non-empty, fit a datagram, do not overlap, end before
    [off], and [offset_recv] tracks exactly their offsets. *)
Record SendBuf_wf (s : SendBuf) : Prop := {
  wf_items : Forall (λ x, 0 ≤ si_off x ∧ 0 < si_len x ≤ SEND_BUFFER_SIZE ∧
                          si_off x + si_len x ≤ sb_off s) (sb_data s);
  wf_sorted : StronglySorted (λ x y, si_off x + si_len x ≤ si_off y) (sb_data s);
  wf_tracked : ∀ o, is_Some (sb_offset_recv s !! o) ↔ o ∈ si_off <$> sb_data s;
  wf_pos : 0 ≤ sb_pos s ≤ lenZ (sb_data s);
  wf_off : 0 ≤ sb_off s < 2 ^ 64;
}.

Lemma SendBuf_new_wf : SendBuf_wf SendBuf_new.
Proof. split; simpl; try done; [constructor|]. intros o. rewrite lookup_empty, is_Some_alt. set_solver. Qed.

(** The lengths the items add up to. *)
Definition items_total (l : list SendItem) : Z := foldr (λ x n, si_len x + n) 0 l.

Lemma items_total_app l m : items_total (l ++ m) = items_total l + items_total m.
Proof. induction l; simpl; [done|]. rewrite IHl. lia. Qed.

Lemma items_total_bound lo hi l :
  lo ≤ hi →
  Forall (λ x, lo ≤ si_off x ∧ 0 < si_len x ∧ si_off x + si_len x ≤ hi) l →
  StronglySorted (λ x y, si_off x + si_len x ≤ si_off y) l →
  0 ≤ items_total l ≤ hi - lo.
Proof.
  intros Hlo Hf Hs. revert lo Hlo Hf. induction Hs as [|x l _ IH Hall]; simpl; intros lo Hlo Hf; [lia|].
  apply Forall_cons in Hf as [Hx Hf].
  assert (0 ≤ items_total l ≤ hi - (si_off x + si_len x)); [|lia].
  apply IH; [lia|]. rewrite !Forall_forall in *. intros y Hy.
  specialize (Hf y Hy). specialize (Hall y Hy). simpl in Hall. lia.
Qed.

Lemma SendBuf_total_bound s : SendBuf_wf s → 0 ≤ items_total (sb_data s) ≤ sb_off s.
Proof.
  intros [Hi Hs _ _ Ho]. rewrite <-(Z.sub_0_r (sb_off s)).
  apply items_total_bound; [lia| |done]. eapply Forall_impl; [exact Hi|]. simpl. lia.
Qed.

Lemma SendBuf_len_total s : SendBuf_wf s → SendBuf_len s = items_total (sb_data s).
Proof.
  intros Hwf. pose proof (SendBuf_total_bound s Hwf) as Hb. destruct Hwf as [Hi _ _ _ Ho].
  unfold SendBuf_len.
  assert (∀ l n, Forall (λ x, 0 < si_len x) l → 0 ≤ n → n + items_total l < 2 ^ 64 →
    foldl (λ n x, u64 (n + si_len x)) n l = n + items_total l) as Hgen.
  { induction l as [|x l IH]; simpl; intros n Hf Hn Hlt; [lia|].
    apply Forall_cons in Hf as [Hx Hf].
    assert (0 ≤ items_total l). { clear -Hf. induction Hf; simpl; lia. }
    rewrite IH; rewrite ?wrap_small by (unfold in_range; lia); [lia|done|lia|lia]. }
  rewrite Hgen; [done| |lia|lia]. eapply Forall_impl; [exact Hi|]. simpl. lia.
Qed.

(** [tiles off ptr n items]: the items are consecutive pieces, each at most a
    datagram, of the [n] bytes at address [ptr], at stream offsets from [off]. *)
Fixpoint tiles (off ptr n : Z) (items : list SendItem) : Prop :=
  match items with
  | [] => n = 0
  | x :: items' =>
      si_off x = off ∧ si_ptr x = ptr ∧ 0 < si_len x ≤ SEND_BUFFER_SIZE ∧
      tiles (off + si_len x) (ptr + si_len x) (n - si_len x) items'
  end.

Lemma tiles_app off ptr n m l1 l2 :
  tiles off ptr n l1 → tiles (off + n) (ptr + n) m l2 → tiles off ptr (n + m) (l1 ++ l2).
Proof.
  revert off ptr n. induction l1 as [|x l1 IH]; simpl; intros off ptr n.
  - intros ->. by rewrite !Z.add_0_r, Z.add_0_l.
  - intros (? & ? & ? & Ht) H2. do 3 (split; [done|]).
    replace (n + m - si_len x) with ((n - si_len x) + m) by lia. apply IH; [done|].
    by replace (off + si_len x + (n - si_len x)) with (off + n) by lia;
       replace (ptr + si_len x + (n - si_len x)) with (ptr + n) by lia.
Qed.

Lemma tiles_single off ptr n : 0 < n ≤ SEND_BUFFER_SIZE → tiles off ptr n [mkSendItem off ptr n].
Proof. intros. simpl. split_and!; lia. Qed.

(** What appending pieces to the buffer leaves. *)
Record appended (s s' : SendBuf) (ptr n : Z) (items : list SendItem) : Prop := {
  ap_wf : SendBuf_wf s';
  ap_tiles : tiles (sb_off s) ptr n items;
  ap_data : sb_data s' = sb_data s ++ items;
  ap_off : sb_off s' = sb_off s + n;
  ap_pos : sb_pos s' = sb_pos s;
  ap_max : sb_max_data s' = sb_max_data s;
  ap_sent : sb_sent s' = sb_sent s;
  ap_acks : sb_offset_recv s' = foldl (λ m x, <[si_off x := true]> m) (sb_offset_recv s) items;
}.

Lemma appended_trans s1 s2 s3 ptr n m l1 l2 :
  appended s1 s2 ptr n l1 → appended s2 s3 (ptr + n) m l2 → appended s1 s3 ptr (n + m) (l1 ++ l2).
Proof.
  intros [W1 T1 D1 O1 P1 M1 S1 A1] [W2 T2 D2 O2 P2 M2 S2 A2]. split; try congruence.
  - apply tiles_app; [done|]. by rewrite <-O1.
  - rewrite D2, D1. by rewrite app_assoc.
  - lia.
  - rewrite A2, A1. by rewrite foldl_app.
Qed.

Lemma push_chunk_appended ptr n s :
  SendBuf_wf s → 0 < n ≤ SEND_BUFFER_SIZE → sb_off s + n < 2 ^ 64 →
  appended s (push_chunk ptr n s) ptr n [mkSendItem (sb_off s) ptr n].
Proof.
  intros [Hi Hs Ht Hp Ho] Hn Hoff.
  assert (u64 (sb_off s + n) = sb_off s + n) as Hw by (apply wrap_small; unfold in_range; lia).
  split; try done; [|by apply tiles_single].
  split; simpl; rewrite ?Hw.
  - apply Forall_app; split.
    + eapply Forall_impl; [exact Hi|]. simpl. lia.
    + apply Forall_singleton. simpl. lia.
  - clear Ht Hp. induction Hs as [|x l Hl IH Hall]; simpl; [by repeat constructor|].
    apply Forall_cons in Hi as [Hx Hi]. constructor; [by apply IH|].
    apply Forall_app; split; [done|]. apply Forall_singleton. simpl. lia.
  - intros o. rewrite fmap_app, elem_of_app, <-Ht. simpl.
    rewrite list_elem_of_singleton, lookup_insert_is_Some. destruct (decide (sb_off s = o)); naive_solver.
  - rewrite lenZ_app. unfold lenZ at 2. simpl. lia.
  - lia.
Qed.

(** The chunk loop writes everything from [it] on. *)
Lemma write_loop_spec fuel base it rw wl s :
  SendBuf_wf s → 0 ≤ it ≤ rw → rw < 2 ^ 63 → 0 ≤ base → base + rw < 2 ^ 64 →
  sb_off s + (rw - it) < 2 ^ 64 → 0 ≤ wl → wl + (rw - it) < 2 ^ 64 →
  (rw - it ≤ SEND_BUFFER_SIZE * Z.of_nat fuel) →
  ∃ items s', write_loop fuel base it rw wl s = (wl + (rw - it), s') ∧
    appended s s' (base + it) (rw - it) items.
Proof.
  unfold SEND_BUFFER_SIZE. revert it wl s.
  induction fuel as [|fuel IH]; intros it wl s Hwf Hit Hrw Hb Hbr Hoff Hwl Hwlr Hfuel.
  { exists [], s. simpl. rewrite (proj2 (Z.ltb_ge _ _)) by lia.
    replace (rw - it) with 0 by lia. rewrite Z.add_0_r. split; [done|].
    split; simpl; try done; [by rewrite app_nil_r|lia]. }
  simpl. destruct (Z.ltb_spec it rw) as [Hlt|Hge]; last first.
  { exists [], s. replace (rw - it) with 0 by lia. rewrite Z.add_0_r. split; [done|].
    split; simpl; try done; [by rewrite app_nil_r|lia]. }
  unfold SEND_BUFFER_SIZE. rewrite !(wrap_small 64 (rw - it)) by (unfold in_range; lia).
  rewrite !(wrap_small 64 (base + it)) by (unfold in_range; lia).
  destruct (Z.ltb_spec 1350 (rw - it)) as [Hbig|Hsmall].
  - rewrite !wrap_small by (unfold in_range; lia).
    pose proof (push_chunk_appended (base + it) 1350 s Hwf ltac:(done) ltac:(lia)) as Happ.
    destruct (IH (it + 1350) (wl + 1350) (push_chunk (base + it) 1350 s))
      as (items & s' & -> & Happ'); try lia.
    { apply Happ. } { rewrite (ap_off _ _ _ _ _ Happ). lia. }
    exists ([mkSendItem (sb_off s) (base + it) 1350] ++ items), s'. split; [f_equal; lia|].
    replace (rw - it) with (1350 + (rw - (it + 1350))) by lia.
    eapply appended_trans; [exact Happ|]. by replace (base + it + 1350) with (base + (it + 1350)) by lia.
  - rewrite !wrap_small by (unfold in_range; lia).
    pose proof (push_chunk_appended (base + it) (rw - it) s Hwf
      ltac:(unfold SEND_BUFFER_SIZE; lia) ltac:(lia)) as Happ.
    exists [mkSendItem (sb_off s) (base + it) (rw - it)], (push_chunk (base + it) (rw - it) s).
    split; [|done]. destruct fuel; simpl; by rewrite (proj2 (Z.ltb_ge rw rw)) by lia.
Qed.

Lemma write_chunks_spec base wdl cap off_len s :
  SendBuf_wf s → 0 < cap < 2 ^ 63 → 0 < wdl < 2 ^ 63 → 0 ≤ off_len ≤ SEND_BUFFER_SIZE →
  0 ≤ base → base + Z.min cap wdl < 2 ^ 64 → sb_off s + Z.min cap wdl < 2 ^ 64 →
  ∃ items s', write_chunks base wdl cap off_len s = (Z.min cap wdl, wdl - Z.min cap wdl, s') ∧
    appended s s' base (Z.min cap wdl) items.
Proof.
  intros Hwf Hc Hw Ho Hb Hbn Hoff. unfold write_chunks.
  replace (if cap <? wdl then cap else wdl) with (Z.min cap wdl)
    by (destruct (Z.ltb_spec cap wdl); lia).
  assert (s64 (Z.min cap wdl) = Z.min cap wdl) as Hs by (apply swrap_small; lia).
  assert (u64 (wdl - Z.min cap wdl) = wdl - Z.min cap wdl) as Hu
    by (apply wrap_small; unfold in_range; lia).
  set (n := Z.min cap wdl) in *. assert (0 < n < 2 ^ 63) by lia. clearbody n.
  assert (n ≤ SEND_BUFFER_SIZE * Z.of_nat (Z.to_nat (n / SEND_BUFFER_SIZE + 1))) as Hfuel.
  { unfold SEND_BUFFER_SIZE. rewrite Z2Nat.id by word_lia. word_lia. }
  destruct (Z.ltb_spec 0 off_len) as [Hpos|]; [destruct (Z.ltb_spec off_len n) as [Hlt|]|].
  - pose proof (push_chunk_appended base off_len s Hwf ltac:(lia) ltac:(lia)) as Happ.
    pose proof (ap_off _ _ _ _ _ Happ) as Hoff'. pose proof (ap_wf _ _ _ _ _ Happ) as Hwf'.
    destruct (write_loop_spec (Z.to_nat (n / SEND_BUFFER_SIZE + 1)) base off_len n off_len
      (push_chunk base off_len s)) as (items & s' & -> & Happ'); [done|lia..|].
    eexists _, s'. replace (off_len + (n - off_len)) with n by lia. rewrite Hs, Hu. split; [done|].
    replace n with (off_len + (n - off_len)) by lia. by eapply appended_trans.
  - eexists _, (push_chunk base n s). rewrite Hs, Hu. split; [done|].
    apply push_chunk_appended; [done|lia|lia].
  - destruct (write_loop_spec (Z.to_nat (n / SEND_BUFFER_SIZE + 1)) base off_len n 0 s)
      as (items & s' & -> & Happ'); try lia; [done|].
    replace off_len with 0 in Happ' by lia. replace (0 + (n - off_len)) with n by lia.
    rewrite Z.add_0_r, Z.sub_0_r in Happ'. rewrite Hs, Hu. eauto.
Qed.

Lemma SendBuf_wf_fields s s' :
  sb_data s' = sb_data s → sb_off s' = sb_off s → sb_offset_recv s' = sb_offset_recv s →
  sb_pos s' = sb_pos s → SendBuf_wf s → SendBuf_wf s'.
Proof. intros Hd Ho Ha Hp []. split; by rewrite ?Hd, ?Ho, ?Ha, ?Hp. Qed.

Lemma SendBuf_write_lemma (s : SendBuf) (src start_off wdl window off_len : Z) :
  SendBuf_wf s → SendBuf_len s < sb_max_data s < 2 ^ 63 → SendBuf_len s < window →
  0 < wdl < 2 ^ 63 → 0 ≤ off_len ≤ SEND_BUFFER_SIZE → 0 ≤ src + start_off →
  src + start_off + Z.min (sb_max_data s - SendBuf_len s) wdl < 2 ^ 64 →
  sb_off s + Z.min (sb_max_data s - SendBuf_len s) wdl < 2 ^ 64 →
  ∃ n items s', n = Z.min (sb_max_data s - SendBuf_len s) wdl ∧
    SendBuf_write src start_off wdl window off_len s = (n, wdl - n, s') ∧
    SendBuf_wf s' ∧ sb_data s' = sb_data s ++ items ∧ tiles (sb_off s) (src + start_off) n items ∧
    sb_off s' = sb_off s + n ∧
    sb_offset_recv s' = foldl (λ m x, <[si_off x := true]> m) (sb_offset_recv s) items ∧
    sb_pos s' = sb_pos s ∧
    sb_max_data s' = (if SendBuf_is_empty s then window else sb_max_data s) ∧
    sb_sent s' = (if SendBuf_is_empty s then 0 else sb_sent s).
Proof.
  intros Hwf Hmax Hwin Hwdl Hol Hbase Hbn Hoff.
  pose proof (SendBuf_total_bound s Hwf) as Htot. rewrite <-SendBuf_len_total in Htot by done.
  exists (Z.min (sb_max_data s - SendBuf_len s) wdl). unfold SendBuf_write.
  set (s0 := if sb_pos s =? 0 then _ else s).
  assert (sb_data s0 = sb_data s ∧ sb_off s0 = sb_off s ∧ sb_offset_recv s0 = sb_offset_recv s ∧
    sb_pos s0 = sb_pos s ∧ sb_max_data s0 = sb_max_data s ∧ sb_sent s0 = sb_sent s) as (Hd & Ho & Ha & Hp & Hm & Hst)
    by (unfold s0; by case_match).
  assert (∀ s1, sb_data s1 = sb_data s → SendBuf_len s1 = SendBuf_len s) as Hlen
    by (intros ? Hd1; unfold SendBuf_len; by rewrite Hd1).
  unfold SendBuf_cap. cbv beta iota zeta.
  change (sb_max_data (s0 <| sb_used_length := _ |>)) with (sb_max_data s0).
  change (sb_used_length (s0 <| sb_used_length := _ |>)) with (SendBuf_len s0).
  rewrite Hm, (Hlen s0 Hd). rewrite !wrap_small by (unfold in_range; lia).
  rewrite (proj2 (Z.eqb_neq _ 0)), (proj2 (Z.leb_gt wdl 0)) by lia.
  assert (∀ s1, sb_data s1 = sb_data s → sb_off s1 = sb_off s → sb_offset_recv s1 = sb_offset_recv s →
    sb_pos s1 = sb_pos s → ∃ items s',
    Z.min (sb_max_data s - SendBuf_len s) wdl = Z.min (sb_max_data s - SendBuf_len s) wdl ∧
    write_chunks (src + start_off) wdl (sb_max_data s - SendBuf_len s) off_len s1 =
      (Z.min (sb_max_data s - SendBuf_len s) wdl,
       wdl - Z.min (sb_max_data s - SendBuf_len s) wdl, s') ∧
    SendBuf_wf s' ∧ sb_data s' = sb_data s ++ items ∧
    tiles (sb_off s) (src + start_off) (Z.min (sb_max_data s - SendBuf_len s) wdl) items ∧
    sb_off s' = sb_off s + Z.min (sb_max_data s - SendBuf_len s) wdl ∧
    sb_offset_recv s' = foldl (λ m x, <[si_off x := true]> m) (sb_offset_recv s) items ∧
    sb_pos s' = sb_pos s ∧ sb_max_data s' = sb_max_data s1 ∧ sb_sent s' = sb_sent s1) as Hgo.
  { intros s1 Hd1 Ho1 Ha1 Hp1. pose proof (SendBuf_wf_fields s s1 Hd1 Ho1 Ha1 Hp1 Hwf) as Hwf1.
    destruct (write_chunks_spec (src + start_off) wdl (sb_max_data s - SendBuf_len s) off_len s1)
      as (items & s' & -> & [W T D O P Mx St A]); [done|lia|lia|done|lia|lia|lia|].
    exists items, s'. rewrite Hd1 in D. rewrite Ho1 in T, O. rewrite Ha1 in A. rewrite Hp1 in P. by split_and!. }
  assert (SendBuf_is_empty (s0 <| sb_used_length := SendBuf_len s |>) = SendBuf_is_empty s) as Hemp
    by (unfold SendBuf_is_empty; cbn; by rewrite Hd).
  rewrite Hemp. destruct (SendBuf_is_empty s).
  - match goal with |- context [window <=? ?L] => replace L with (SendBuf_len s) by
      (symmetry; apply (Hlen s0 Hd)) end.
    rewrite (proj2 (Z.leb_gt window _)) by lia. apply Hgo; assumption.
  - rewrite (Hlen (s0 <| sb_used_length := _ |>)) by exact Hd.
    rewrite (proj2 (Z.leb_gt window _)) by lia.
    destruct (Hgo (s0 <| sb_used_length := SendBuf_len s |>)) as (items & s' & H); [assumption..|].
    exists items, s'.
    change (sb_max_data (s0 <| sb_used_length := _ |>)) with (sb_max_data s0) in H.
    change (sb_sent (s0 <| sb_used_length := _ |>)) with (sb_sent s0) in H.
    rewrite Hst, Hm in H. exact H.
Qed.

(** C34: an accepted [write] cuts the next [n] bytes of the application's data
    into datagram-sized items at consecutive stream offsets, where [n] is what
    the capacity allows; the items cover exactly the bytes at
    [src + start_off], all are recorded as unacknowledged, the remaining count
    drops by [n] and the buffer's invariant is kept. *)
Theorem SendBuf_write_spec (s : SendBuf) (src start_off wdl window off_len : Z) :
  SendBuf_wf s → SendBuf_len s < sb_max_data s < 2 ^ 63 → SendBuf_len s < window →
  0 < wdl < 2 ^ 63 → 0 ≤ off_len ≤ SEND_BUFFER_SIZE → 0 ≤ src + start_off →
  src + start_off + Z.min (sb_max_data s - SendBuf_len s) wdl < 2 ^ 64 →
  sb_off s + Z.min (sb_max_data s - SendBuf_len s) wdl < 2 ^ 64 →
  ∃ n items s', n = Z.min (sb_max_data s - SendBuf_len s) wdl ∧
    SendBuf_write src start_off wdl window off_len s = (n, wdl - n, s') ∧
    SendBuf_wf s' ∧ sb_data s' = sb_data s ++ items ∧ tiles (sb_off s) (src + start_off) n items ∧
    sb_off s' = sb_off s + n ∧
    sb_offset_recv s' = foldl (λ m x, <[si_off x := true]> m) (sb_offset_recv s) items.
Proof.
  intros. destruct (SendBuf_write_lemma s src start_off wdl window off_len)
    as (n & items & s' & ?); [done..|]. exists n, items, s'. naive_solver.
Qed.

(* ------------------------------------------------------------------ *)
(** * Emission: one round of the cursor over the items *)

(** One [emit] at a cursor inside the buffer: the item under the cursor. *)
Lemma SendBuf_emit_at s out x :
  SendBuf_wf s → nthZ (sb_data s) (sb_pos s) = Some x → lenZ (sb_data s) < 2 ^ 63 →
  ∃ stop s',
    SendBuf_emit out s = Val (stop, mkIovec (si_ptr x) (si_len x), si_len x,
                              si_off x + si_len x, s') ∧
    sb_data s' = sb_data s ∧ sb_off s' = sb_off s ∧ sb_offset_recv s' = sb_offset_recv s ∧
    sb_max_data s' = sb_max_data s ∧ sb_sent s' = u64 (sb_sent s + si_len x) ∧
    stop = (sb_max_data s <=? sb_sent s') || (sb_pos s + 1 =? lenZ (sb_data s)) ∧
    sb_pos s' = if stop then 0 else sb_pos s + 1.
Proof.
  intros [Hi _ _ Hp Ho] Hx Hlen.
  assert (0 ≤ sb_pos s < lenZ (sb_data s)) as Hpos by (apply nthZ_Some; eauto).
  assert (0 ≤ si_off x ∧ 0 < si_len x ≤ SEND_BUFFER_SIZE ∧ si_off x + si_len x ≤ sb_off s) as (Hx1 & Hx2 & Hx3).
  { rewrite Forall_lookup in Hi. apply (Hi (Z.to_nat (sb_pos s))).
    unfold nthZ in Hx. by rewrite bool_decide_true in Hx by lia. }
  unfold SendBuf_emit, SendBuf_off_front.
  assert (off_front_loop (length (sb_data s)) (sb_data s) (sb_pos s) = Val (si_off x)) as ->.
  { destruct (length (sb_data s)) as [|n] eqn:Hn; [unfold lenZ in Hpos; lia|]. simpl.
    rewrite (wrap_small 64 (_ - 1)) by (unfold in_range; lia).
    rewrite (proj2 (Z.leb_le _ _)) by lia. rewrite Hx. simpl.
    by rewrite (proj2 (Z.eqb_neq (si_len x) 0)) by lia. }
  replace (length (sb_data s) + 1)%nat with (S (length (sb_data s))) by lia.
  cbn [mbind outcome_bind emit_items]. rewrite Hx. rewrite (proj2 (Z.eqb_neq (si_len x) 0)) by lia.
  unfold SEND_BUFFER_SIZE, MIN_SENDBUF_INITIAL_LEN in *.
  rewrite (proj2 (Z.leb_le (si_len x) 1350)) by lia.
  simpl. rewrite (wrap_small 64 (sb_pos s + 1)) by (unfold in_range; lia).
  rewrite (wrap_small 64 (si_off x + si_len x)) by (unfold in_range; lia).
  destruct (lenZ (sb_data s)) as [|n|n] eqn:Hn; [lia| |lia].
  destruct (sb_max_data s <=? u64 (sb_sent s + si_len x)) eqn:Hm;
    destruct (sb_pos s + 1 =? lenZ (sb_data s)) eqn:He; simpl; rewrite ?Hn in *; rewrite ?He; simpl;
    eexists _, _; (split; [reflexivity|]); simpl; rewrite ?Hm; by split_and!.
Qed.

(** The caller's loop: [emit] until it returns [stop]. *)
Fixpoint emit_round (fuel : nat) (s : SendBuf) : option (outcome (list iovec * SendBuf)) :=
  match fuel with
  | O => None
  | S fuel =>
      match SendBuf_emit (mkIovec 0 0) s with
      | Val (stop, out, _, _, s) =>
          if (stop : bool) then Some (Val ([out], s))
          else r ← emit_round fuel s; Some (r ≫= λ '(l, s), Val (out :: l, s))
      | Exn e => Some (Exn e)
      | UB => Some UB
      end
  end.

Definition item_iovec (x : SendItem) : iovec := mkIovec (si_ptr x) (si_len x).

Lemma emit_round_from s l x0 l0 :
  SendBuf_wf s → drop (Z.to_nat (sb_pos s)) (sb_data s) = l → l = x0 :: l0 →
  lenZ (sb_data s) < 2 ^ 63 → 0 ≤ sb_sent s → sb_sent s + items_total l ≤ sb_max_data s < 2 ^ 64 →
  ∃ s', emit_round (length l) s = Some (Val (map item_iovec l, s')) ∧
    sb_data s' = sb_data s ∧ sb_pos s' = 0 ∧ sb_offset_recv s' = sb_offset_recv s.
Proof.
  intros Hwf Hl -> Hlen Hsent Hmax. revert x0 s Hwf Hl Hlen Hsent Hmax.
  induction l0 as [|x1 l0 IH]; intros x0 s Hwf Hl Hlen Hsent Hmax.
  all: pose proof (wf_pos _ Hwf) as Hp.
  all: assert (nthZ (sb_data s) (sb_pos s) = Some x0) as Hx by
    (unfold nthZ; rewrite bool_decide_true by lia; rewrite <-(Nat.add_0_r (Z.to_nat _)), <-lookup_drop, Hl; done).
  all: assert (lenZ (sb_data s) = sb_pos s + lenZ (drop (Z.to_nat (sb_pos s)) (sb_data s))) as Hlens by
    (unfold lenZ in *; rewrite length_drop; lia).
  all: rewrite Hl in Hlens; rewrite lenZ_cons in Hlens.
  all: destruct (SendBuf_emit_at s (mkIovec 0 0) x0 Hwf Hx Hlen)
    as (stop & s' & He & Hd & Ho & Ha & Hm & Hs & Hstop & Hpos).
  - rewrite (lenZ_nil (A:=SendItem)) in Hlens. rewrite (proj2 (Z.eqb_eq (sb_pos s + 1) _)) in Hstop by lia.
    rewrite orb_true_r in Hstop. subst stop. exists s'. cbn [length emit_round]. rewrite He. by split_and!.
  - rewrite lenZ_cons in Hlens. pose proof (lenZ_nonneg l0).
    rewrite (proj2 (Z.eqb_neq (sb_pos s + 1) _)), orb_false_r in Hstop by lia.
    cbn [items_total foldr] in Hmax. fold (items_total l0) in Hmax.
    assert (Forall (λ x, 0 < si_len x) (x0 :: x1 :: l0)) as Hf.
    { rewrite <-Hl. apply Forall_drop. eapply Forall_impl; [apply (wf_items _ Hwf)|]. simpl. lia. }
    inversion_clear Hf as [|?? Hx0 Hf']. inversion_clear Hf' as [|?? Hx1 Hf].
    assert (0 ≤ items_total l0). { clear -Hf. induction Hf; simpl; lia. }
    rewrite wrap_small in Hs by (unfold in_range; lia).
    rewrite (proj2 (Z.leb_gt _ _)) in Hstop by lia. subst stop.
    assert (SendBuf_wf s') as Hwf'.
    { destruct Hwf. split; rewrite ?Hd, ?Ho, ?Ha, ?Hpos; try done. lia. }
    destruct (IH x1 s') as (s'' & Hr & Hd' & Hp' & Ha'); try done.
    + rewrite Hpos, Hd, Z2Nat.inj_add, <-drop_drop, Hl by lia. done.
    + by rewrite Hd.
    + lia.
    + cbn [items_total foldr]. fold (items_total l0). lia.
    + exists s''. change (length (x0 :: x1 :: l0)) with (S (length (x1 :: l0))).
      cbn [emit_round]. rewrite He, Hr. cbn. rewrite Hd', Ha', Hd, Ha. done.
Qed.

(** one round of [emit] calls from the start of the buffer sends every
    item once, in stream order, each as the memory range the application gave,
    and signals [stop] exactly on the last one; the items stay in the buffer
    until they are acknowledged and the cursor is back at the start. *)
Theorem SendBuf_emit_round (s : SendBuf) :
  SendBuf_wf s → sb_pos s = 0 → sb_data s ≠ [] → lenZ (sb_data s) < 2 ^ 63 → 0 ≤ sb_sent s →
  sb_sent s + SendBuf_len s ≤ sb_max_data s < 2 ^ 64 →
  ∃ s', emit_round (length (sb_data s)) s = Some (Val (map item_iovec (sb_data s), s')) ∧
    sb_data s' = sb_data s ∧ sb_pos s' = 0 ∧ sb_offset_recv s' = sb_offset_recv s.
Proof.
  intros Hwf Hp Hne Hlen Hs Hmax. rewrite SendBuf_len_total in Hmax by done.
  destruct (sb_data s) as [|x l] eqn:Hd; [done|]. rewrite <-Hd in *.
  destruct (emit_round_from s (sb_data s) x l) as (s' & ? & ? & ? & ?); try done.
  - by rewrite Hp.
  - eauto.
Qed.

(** [emit] on an empty buffer throws: [off_front] evaluates
    [data.at(0)] because [data.size() - 1] wraps around. *)
Theorem SendBuf_emit_empty_throws (s : SendBuf) (out : iovec) :
  sb_data s = [] → 0 ≤ sb_pos s < 2 ^ 64 - 1 → SendBuf_emit out s = Exn OutOfRange.
Proof.
  intros Hd Hp. unfold SendBuf_emit, SendBuf_off_front. rewrite Hd. unfold off_front_loop; simpl.
  change (u64 (lenZ [] - 1)) with (2 ^ 64 - 1). rewrite (proj2 (Z.leb_le _ _)) by lia.
  assert (nthZ (A:=SendItem) [] (sb_pos s) = None) as -> by (apply nthZ_None; rewrite (lenZ_nil (A:=SendItem)); lia).
  done.
Qed.

(* ------------------------------------------------------------------ *)
(** * Acknowledgement *)

Lemma ack_and_drop_all_data offs s :
  sb_data (foldl (λ s o, SendBuf_ack_and_drop o s) s offs) = sb_data s ∧
  sb_pos (foldl (λ s o, SendBuf_ack_and_drop o s) s offs) = sb_pos s ∧
  sb_off (foldl (λ s o, SendBuf_ack_and_drop o s) s offs) = sb_off s.
Proof.
  revert s. induction offs as [|o offs IH]; intros s; [done|]. cbn [foldl].
  destruct (IH (SendBuf_ack_and_drop o s)) as (-> & -> & ->). unfold SendBuf_ack_and_drop. by case_match.
Qed.

Lemma ack_and_drop_all_lookup offs s o :
  sb_offset_recv (foldl (λ s o, SendBuf_ack_and_drop o s) s offs) !! o =
  (λ b, if decide (o ∈ offs) then false else b) <$> sb_offset_recv s !! o.
Proof.
  revert s. induction offs as [|p offs IH]; intros s.
  { cbn [foldl]. by destruct (sb_offset_recv s !! o). }
  cbn [foldl]. rewrite IH. unfold SendBuf_ack_and_drop.
  destruct (sb_offset_recv s !! p) eqn:Hp; simpl.
  - destruct (decide (p = o)) as [->|Hne].
    + rewrite lookup_insert_eq, Hp. cbn. f_equal. repeat case_decide; set_solver.
    + rewrite lookup_insert_ne by done. destruct (sb_offset_recv s !! o); [|done]. cbn [fmap option_fmap option_map].
      f_equal. repeat case_decide; set_solver.
  - destruct (sb_offset_recv s !! o) eqn:Ho; [|done]. cbn [fmap option_fmap option_map]. f_equal.
    repeat case_decide; set_solver.
Qed.

Lemma SendBuf_ack_drop_lemma (s : SendBuf) (offs : list Z) :
  SendBuf_wf s → sb_pos s = 0 → (∀ o b, sb_offset_recv s !! o = Some b → b = true) →
  let s' := SendBuf_recv_and_drop (foldl (λ s o, SendBuf_ack_and_drop o s) s offs) in
  SendBuf_wf s' ∧ sb_data s' = filter (λ x, si_off x ∉ offs) (sb_data s) ∧
  (∀ o b, sb_offset_recv s' !! o = Some b → b = true).
Proof.
  intros Hwf Hp Hall s1. destruct (ack_and_drop_all_data offs s) as (Hd & Hp' & Ho).
  pose proof (ack_and_drop_all_lookup offs s) as Ha. unfold s1. clear s1.
  set (s1 := foldl _ s offs) in *. clearbody s1. unfold SendBuf_recv_and_drop. rewrite Hd.
  destruct Hwf as [Hi Hs Ht _ Hoff]. set (K := dom (filter (λ kv, kv.2 = false) (sb_offset_recv s1))).
  assert (∀ o, o ∈ si_off <$> sb_data s → o ∈ K ↔ o ∈ offs) as HK.
  { intros o [b Hb]%Ht. pose proof (Hall _ _ Hb) as ->. specialize (Ha o). rewrite Hb in Ha. simpl in Ha.
    unfold K. rewrite elem_of_dom. unfold is_Some. setoid_rewrite map_lookup_filter_Some. rewrite Ha.
    case_decide; naive_solver. }
  destruct (sb_data s) as [|x l] eqn:Hdata; rewrite <-?Hdata in *.
  { rewrite Hdata. split_and!; [split| |].
    - by rewrite Hd, Hdata.
    - rewrite Hd, Hdata. constructor.
    - intros o. rewrite Hd, Ha, fmap_is_Some. apply Ht.
    - rewrite Hd, Hp', Hp, Hdata. done.
    - by rewrite Ho.
    - by rewrite Hd, Hdata.
    - intros o b Hb. rewrite Ha in Hb. assert (¬ is_Some (sb_offset_recv s !! o)) as Hn.
      { rewrite Ht, Hdata. simpl. set_solver. }
      destruct (sb_offset_recv s !! o); [exfalso; eauto|done]. }
  assert (filter (λ x, si_off x ∉ K) (sb_data s) = filter (λ x, si_off x ∉ offs) (sb_data s)) as Hf.
  { apply filter_ext_in. intros y Hy. rewrite HK; [done|].
    apply list_elem_of_fmap; eauto. }
  simpl. rewrite Hd, Hf. split_and!; [split|done|]; simpl; rewrite ?Hd, ?Hf, ?Ho, ?Hp', ?Hp.
  - apply Forall_filter. exact Hi.
  - apply StronglySorted_filter. exact Hs.
  - intros o. rewrite list_elem_of_fmap. unfold is_Some. setoid_rewrite map_lookup_filter_Some.
    setoid_rewrite list_elem_of_filter. rewrite Ha. split.
    + intros (b & Hb & Hn). destruct (sb_offset_recv s !! o) as [b'|] eqn:Hb'; [|done].
      assert (o ∈ si_off <$> sb_data s) as Hin by (apply Ht; eauto).
      simpl in Hn. rewrite HK in Hn by done. apply list_elem_of_fmap in Hin as (y & -> & Hy).
      exists y. done.
    + intros (y & -> & Hn & Hy).
      assert (si_off y ∈ si_off <$> sb_data s) as Hin by (apply list_elem_of_fmap; eauto).
      destruct (proj2 (Ht _) Hin) as [b ->]. eexists. split; [done|]. simpl. by rewrite HK.
  - split; [lia|apply lenZ_nonneg].
  - done.
  - intros o b. rewrite map_lookup_filter_Some. simpl. intros [Hb Hn].
    destruct b; [done|]. destruct Hn. unfold K. rewrite elem_of_dom. unfold is_Some.
    setoid_rewrite map_lookup_filter_Some. eauto.
Qed.

(** C35: acknowledging a list of offsets and dropping what was received leaves
    exactly the unacknowledged items, in order, with exactly their offsets
    tracked; unknown and repeated offsets do no harm. *)
Theorem SendBuf_ack_drop_spec (s : SendBuf) (offs : list Z) :
  SendBuf_wf s → sb_pos s = 0 → (∀ o b, sb_offset_recv s !! o = Some b → b = true) →
  let s' := SendBuf_recv_and_drop (foldl (λ s o, SendBuf_ack_and_drop o s) s offs) in
  SendBuf_wf s' ∧ sb_data s' = filter (λ x, si_off x ∉ offs) (sb_data s) ∧
  (∀ o b, sb_offset_recv s' !! o = Some b → b = true).
Proof. apply SendBuf_ack_drop_lemma. Qed.

(* ------------------------------------------------------------------ *)
(** * The theorems at concrete inputs *)

(** Two items of one message at address 4096. *)
Definition demo_buf : SendBuf :=
  mkSendBuf [mkSendItem 0 4096 100; mkSendItem 100 4196 50] 0 150 150 10800 150
    {[0 := true; 100 := true]} 0 0 ∅.

Lemma demo_tracked o : is_Some (sb_offset_recv demo_buf !! o) ↔ o ∈ [0; 100].
Proof.
  simpl. rewrite lookup_insert_is_Some, lookup_singleton_is_Some, !elem_of_cons, elem_of_nil.
  destruct (decide (0 = o)), (decide (100 = o)); naive_solver.
Qed.

Lemma demo_buf_wf : SendBuf_wf demo_buf.
Proof.
  split; try (repeat constructor; decide_eval); try decide_eval. apply demo_tracked.
Qed.

Lemma demo_all_unacked o b : sb_offset_recv demo_buf !! o = Some b → b = true.
Proof. simpl. intros [[_ <-]|[_ [_ <-]%lookup_singleton_Some]]%lookup_insert_Some; done. Qed.

Lemma SendBuf_write_spec_witness :
  ∃ n items s', n = 2000 ∧ SendBuf_write 4096 150 2000 21600 0 demo_buf = (n, 2000 - n, s') ∧
    SendBuf_wf s' ∧ sb_data s' = sb_data demo_buf ++ items ∧ tiles 150 4246 n items ∧
    sb_off s' = 150 + n ∧
    sb_offset_recv s' = foldl (λ m x, <[si_off x := true]> m) (sb_offset_recv demo_buf) items.
Proof. apply (SendBuf_write_spec demo_buf 4096 150 2000 21600 0); try decide_eval. apply demo_buf_wf. Defined.

Lemma SendBuf_emit_round_witness :
  ∃ s', emit_round 2 demo_buf = Some (Val ([mkIovec 4096 100; mkIovec 4196 50], s')) ∧
    sb_data s' = sb_data demo_buf ∧ sb_pos s' = 0 ∧ sb_offset_recv s' = sb_offset_recv demo_buf.
Proof. apply (SendBuf_emit_round demo_buf); try decide_eval. apply demo_buf_wf. Defined.

Lemma SendBuf_emit_empty_throws_witness : SendBuf_emit (mkIovec 0 0) SendBuf_new = Exn OutOfRange.
Proof. apply SendBuf_emit_empty_throws; decide_eval. Defined.

Lemma SendBuf_ack_drop_spec_witness :
  let s' := SendBuf_recv_and_drop (foldl (λ s o, SendBuf_ack_and_drop o s) demo_buf [0; 7; 0]) in
  SendBuf_wf s' ∧ sb_data s' = [mkSendItem 100 4196 50] ∧
  (∀ o b, sb_offset_recv s' !! o = Some b → b = true).
Proof.
  apply (SendBuf_ack_drop_spec demo_buf [0; 7; 0] demo_buf_wf eq_refl demo_all_unacked).
Defined.
