(* ===== verification/FloatOps.v ===== *)
(** IEEE 754 arithmetic of the C++ types [float] (binary32) and [double]
    (binary64), on the Standard Library's [SpecFloat]: constants, conversions
    between the two and to integers, and the four operations the sources use,
    all rounding to nearest even. *)
From Stdlib Require Import SpecFloat.
From S2P Require Import Prelude.

#[export] Instance spec_float_eq_dec : EqDecision spec_float.
Proof. solve_decision. Defined.

Definition f32_norm (m e : Z) (s : bool) : spec_float := binary_normalize 24 128 m e s.
Definition f64_norm (m e : Z) (s : bool) : spec_float := binary_normalize 53 1024 m e s.

(** The conversions from integers ([static_cast<double>(n)]). *)
Definition f32_of_Z (z : Z) : spec_float := f32_norm z 0 false.
Definition f64_of_Z (z : Z) : spec_float := f64_norm z 0 false.

(** Rounding a value of one format to another. *)
Definition reround (norm : Z → Z → bool → spec_float) (x : spec_float) : spec_float :=
  match x with
  | S754_finite s m e => norm (cond_Zopp s (Zpos m)) e s
  | _ => x
  end.
Definition f64_of_f32 : spec_float → spec_float := reround f64_norm.
Definition f32_of_f64 : spec_float → spec_float := reround f32_norm.

Definition f64_add := SFadd 53 1024.
Definition f64_sub := SFsub 53 1024.
Definition f64_mul := SFmul 53 1024.
Definition f64_div := SFdiv 53 1024.

(** [pow(x, 2)] of a double that came from a float: the square of a 24-bit
    significand fits in 53 bits, so the library's result is the product. *)
Definition f64_square (x : spec_float) : spec_float := f64_mul x x.

(** [a > b], [a != b]. *)
Definition f_gtb (a b : spec_float) : bool := SFltb b a.
Definition f_neqb (a b : spec_float) : bool := negb (SFeqb a b).

(** The value truncated towards zero; infinities and NaN have none. *)
Definition f_trunc (x : spec_float) : option Z :=
  match x with
  | S754_zero _ => Some 0
  | S754_finite s m e =>
      let a := if 0 <=? e then Zpos m * 2 ^ e else Zpos m / 2 ^ (- e) in
      Some (if s then - a else a)
  | _ => None
  end.

(** [(size_t)x]: undefined when the truncated value is not a [size_t]. *)
Definition f_to_size_t (x : spec_float) : outcome Z :=
  match f_trunc x with
  | Some z => if (0 <=? z) && (z <? 2 ^ 64) then Val z else UB
  | None => UB
  end.

(** The rational literal [n / d] ([0.15] is [15 / 100]), correctly rounded. *)
Definition f64_lit (n d : Z) : spec_float := f64_div (f64_of_Z n) (f64_of_Z d).
