(* ===== verification/Half.v ===== *)
(** Half precision floats: [src/gloo/types.h]. Floats and halves are their bit
    patterns, as the code has them. The conversions are shown exact in one
    direction and correctly rounded in the other; assignment and comparison
    go through the overload the language picks for them. *)
From Stdlib Require Import SpecFloat.
From S2P Require Import Prelude FloatOps.

(* ------------------------------------------------------------------ *)
(** * The conversions *)

(** [cpu_float2half_rn(f)] on the bits [x] of [f]. *)
Definition cpu_float2half_rn (x : Z) : Z :=
  let u := Z.land x 0x7fffffff in
  if 0x7f800000 <? u then 0x7fff
  else
    let sign := Z.land (Z.shiftr x 16) 0x8000 in
    if 0x477fefff <? u then Z.lor sign 0x7c00
    else if u <? 0x33000001 then Z.lor sign 0x0000
    else
      let exponent := Z.land (Z.shiftr u 23) 0xff in
      let mantissa := Z.land u 0x7fffff in
      let '(shift, exponent, mantissa) :=
        if 0x70 <? exponent then (13, exponent - 0x70, mantissa)
        else (0x7e - exponent, 0, Z.lor mantissa 0x800000) in
      let lsb := Z.shiftl 1 shift in
      let lsb_s1 := Z.shiftr lsb 1 in
      let lsb_m1 := lsb - 1 in
      let remainder := Z.land mantissa lsb_m1 in
      let mantissa := Z.shiftr mantissa shift in
      let '(exponent, mantissa) :=
        if (lsb_s1 <? remainder) || ((remainder =? lsb_s1) && negb (Z.land mantissa 1 =? 0)) then
          let mantissa := mantissa + 1 in
          if Z.land mantissa 0x3ff =? 0 then (exponent + 1, 0) else (exponent, mantissa)
        else (exponent, mantissa) in
      wrap 16 (Z.lor (Z.lor sign (Z.shiftl exponent 10)) mantissa).

(** The [do ... while (!msb)] loop. *)
Fixpoint normalize (fuel : nat) (mantissa exponent : Z) : Z * Z :=
  match fuel with
  | O => (mantissa, exponent)
  | S fuel =>
      let msb := Z.land mantissa 0x400000 in
      let mantissa := u32 (Z.shiftl mantissa 1) in
      let exponent := u32 (exponent - 1) in
      if msb =? 0 then normalize fuel mantissa exponent else (mantissa, exponent)
  end.

(** [cpu_half2float(h)]: the bits of the float. The ten bits of a half's
    mantissa bound the loop. *)
Definition cpu_half2float (h : Z) : Z :=
  let sign := Z.land (Z.shiftr h 15) 1 in
  let exponent := Z.land (Z.shiftr h 10) 0x1f in
  let mantissa := Z.shiftl (Z.land h 0x3ff) 13 in
  let '(sign, exponent, mantissa) :=
    if exponent =? 0x1f then
      if mantissa =? 0 then (sign, 0xff, 0) else (0, 0xff, 0x7fffff)
    else if exponent =? 0 then
      if mantissa =? 0 then (sign, exponent, mantissa)
      else
        let '(mantissa, exponent) := normalize 10 mantissa 0x71 in
        (sign, exponent, Z.land mantissa 0x7fffff)
    else (sign, exponent + 0x70, mantissa) in
  Z.lor (Z.lor (Z.shiftl sign 31) (Z.shiftl exponent 23)) mantissa.

(* ------------------------------------------------------------------ *)
(** * Values

    The magnitude of a half with the low 15 bits [c] in units of [2^-24], and
    of a float with the low 31 bits [u] in units of [2^-149]; both formulas
    continue past the largest finite number. *)

Definition half_mag (c : Z) : Z :=
  if c / 2 ^ 10 =? 0 then c else (2 ^ 10 + c `mod` 2 ^ 10) * 2 ^ (c / 2 ^ 10 - 1).
Definition float_mag (u : Z) : Z :=
  if u / 2 ^ 23 =? 0 then u else (2 ^ 23 + u `mod` 2 ^ 23) * 2 ^ (u / 2 ^ 23 - 1).

(** The units' ratio. *)
Definition half_unit : Z := 2 ^ 125.

(** The low bits and the sign. *)
Definition half_code (h : Z) : Z := h `mod` 2 ^ 15.
Definition half_sign (h : Z) : Z := h / 2 ^ 15.
Definition float_code (x : Z) : Z := x `mod` 2 ^ 31.
Definition float_sign (x : Z) : Z := x / 2 ^ 31.

Definition half_inf : Z := 0x7c00.
Definition float_inf : Z := 0x7f800000.

(** [upto n P i]: [P] holds of the [n] integers from [i], by evaluation. *)
Fixpoint upto (n : nat) (P : Z → bool) (i : Z) : bool :=
  match n with O => true | S n => P i && upto n P (i + 1) end.

Lemma upto_spec n P : ∀ i, upto n P i = true → ∀ k, i ≤ k < i + Z.of_nat n → P k = true.
Proof.
  induction n as [|n IH]; intros i H k Hk; [lia|]. cbn [upto] in H. apply andb_true_iff in H as [H0 H].
  destruct (decide (k = i)) as [->|]; [done|]. apply (IH (i + 1)); [done|lia].
Qed.

(* ------------------------------------------------------------------ *)
(** * Bit fields *)

(** A float is sign, exponent and mantissa side by side; so is a half. *)
Lemma lor_fields k j s e m :
  0 ≤ k → 0 ≤ j → 0 ≤ m < 2 ^ k → 0 ≤ e < 2 ^ j →
  Z.lor (Z.lor (Z.shiftl s (k + j)) (Z.shiftl e k)) m = s * 2 ^ (k + j) + e * 2 ^ k + m.
Proof.
  intros Hk Hj Hm He. rewrite !Z.shiftl_mul_pow2, (Z.lor_comm (s * _)), lor_add by
    (rewrite ?Z.pow_add_r by lia; nia).
  replace (e * 2 ^ k + s * 2 ^ (k + j)) with ((e + s * 2 ^ j) * 2 ^ k) by (rewrite Z.pow_add_r by lia; lia).
  rewrite Z.lor_comm, lor_add by lia. rewrite Z.pow_add_r by lia. lia.
Qed.

Lemma lor_float s e m : 0 ≤ m < 2 ^ 23 → 0 ≤ e < 256 →
  Z.lor (Z.lor (Z.shiftl s 31) (Z.shiftl e 23)) m = s * 2 ^ 31 + e * 2 ^ 23 + m.
Proof. intros. by apply (lor_fields 23 8). Qed.

Lemma half_mag_step c : 0 ≤ c → half_mag c < half_mag (c + 1).
Proof.
  intros Hc. unfold half_mag. change (2 ^ 10) with 1024.
  assert ((c + 1) / 1024 = c / 1024 ∧ (c + 1) `mod` 1024 = c `mod` 1024 + 1 ∨
          (c + 1) / 1024 = c / 1024 + 1 ∧ (c + 1) `mod` 1024 = 0 ∧ c `mod` 1024 = 1023) as H.
  { Z.to_euclidean_division_equations. lia. }
  assert (0 ≤ c / 1024) by (apply Z.div_pos; lia).
  destruct H as [[-> ->]|(-> & -> & Hm)].
  - destruct (Z.eqb_spec (c / 1024) 0); [lia|].
    assert (0 < 2 ^ (c / 1024 - 1)) by (apply Z.pow_pos_nonneg; lia). nia.
  - rewrite (proj2 (Z.eqb_neq (c / 1024 + 1) 0)) by lia. destruct (Z.eqb_spec (c / 1024) 0) as [Hz|].
    + rewrite Hz. change ((1024 + 0) * 2 ^ (0 + 1 - 1)) with 1024. Z.to_euclidean_division_equations. lia.
    + rewrite Hm. replace (c / 1024 + 1 - 1) with (Z.succ (c / 1024 - 1)) by lia.
      rewrite Z.pow_succ_r by lia.
      assert (0 < 2 ^ (c / 1024 - 1)) by (apply Z.pow_pos_nonneg; lia). nia.
Qed.

Lemma half_mag_mono c d : 0 ≤ c < d → half_mag c < half_mag d.
Proof.
  intros [Hc Hd]. replace d with (c + 1 + Z.of_nat (Z.to_nat (d - c - 1))) by lia.
  induction (Z.to_nat (d - c - 1)) as [|n IH].
  - rewrite Z.add_0_r. by apply half_mag_step.
  - pose proof (half_mag_step (c + 1 + Z.of_nat n) ltac:(lia)).
    replace (c + 1 + Z.of_nat (S n)) with (c + 1 + Z.of_nat n + 1) by lia. lia.
Qed.

(* ------------------------------------------------------------------ *)
(** * From half to float *)

(** Denormals: the loop normalises each of the 1023 mantissas. *)
Definition denormal_ok (m : Z) : bool :=
  let '(n, e) := normalize 10 (m * 2 ^ 13) 0x71 in
  (0 <? e) && (e <? 0x71) && (2 ^ 23 <=? n) && (n <? 2 ^ 24) && (n * 2 ^ (e - 1) =? m * 2 ^ 125).

Lemma denormals_ok m : 1 ≤ m < 1024 → denormal_ok m = true.
Proof.
  intros Hm. apply (upto_spec 1023 denormal_ok 1); [vm_compute; reflexivity|].
  change (Z.of_nat 1023) with 1023. lia.
Qed.

(** The three fields of a half. *)
Lemma half_fields h :
  in_range 16 h →
  ∃ s e m, h = s * 2 ^ 15 + e * 2 ^ 10 + m ∧ 0 ≤ s < 2 ∧ 0 ≤ e < 32 ∧ 0 ≤ m < 1024 ∧
    Z.land (Z.shiftr h 15) 1 = s ∧ Z.land (Z.shiftr h 10) 0x1f = e ∧ Z.land h 0x3ff = m ∧
    half_sign h = s ∧ half_code h = e * 1024 + m.
Proof.
  intros Hh. exists (h / 2 ^ 15), ((h / 2 ^ 10) `mod` 32), (h `mod` 1024).
  change (Z.land (Z.shiftr h 15) 1) with (Z.land (Z.shiftr h 15) (2 ^ 1 - 1)). change 0x1f with (2 ^ 5 - 1). change 0x3ff with (2 ^ 10 - 1).
  rewrite !land_ones_mod, !Z.shiftr_div_pow2 by lia. unfold half_sign, half_code, in_range in *.
  change (2 ^ 1) with 2. change (2 ^ 5) with 32. change (2 ^ 10) with 1024 in *. change (2 ^ 15) with 32768 in *.
  change (2 ^ 16) with 65536 in *. Z.to_euclidean_division_equations. lia.
Qed.

Lemma float_fields s e m :
  0 ≤ s → 0 ≤ e < 256 → 0 ≤ m < 2 ^ 23 →
  let x := s * 2 ^ 31 + e * 2 ^ 23 + m in
  float_sign x = s ∧ float_code x = e * 2 ^ 23 + m ∧
  float_mag (float_code x) = if e =? 0 then m else (2 ^ 23 + m) * 2 ^ (e - 1).
Proof.
  intros Hs He Hm x. assert (float_code x = e * 2 ^ 23 + m) as Hc.
  { unfold float_code, x. change (2 ^ 31) with 2147483648. change (2 ^ 23) with 8388608 in *.
    Z.to_euclidean_division_equations. lia. }
  split_and!; [|done|].
  - unfold float_sign, x. change (2 ^ 31) with 2147483648. change (2 ^ 23) with 8388608 in *.
    Z.to_euclidean_division_equations. lia.
  - rewrite Hc. unfold float_mag.
    rewrite Z.div_add_l, (Z.add_comm (e * _)), Z.mod_add, (Z.div_small m), (Z.mod_small m), Z.add_0_r by lia.
    destruct (Z.eqb_spec e 0) as [->|]; [lia|done].
Qed.

(** What the conversion of a half promises: infinities and NaNs to infinities
    and a NaN; a finite half to the finite float of the same sign and value. *)
Definition half2float_ok (h f : Z) : Prop :=
  if half_code h <? half_inf then
    float_sign f = half_sign h ∧ float_code f < float_inf ∧
    float_mag (float_code f) = half_mag (half_code h) * half_unit
  else if half_code h =? half_inf then f = half_sign h * 2 ^ 31 + float_inf
  else f = 0x7fffffff.

Lemma half2float_lemma h : in_range 16 h → half2float_ok h (cpu_half2float h).
Proof.
  intros Hh. destruct (half_fields h Hh) as (s & e & m & -> & Hs & He & Hm & Es & Ee & Em & Fs & Fc).
  unfold half2float_ok, cpu_half2float. rewrite Es, Ee, Em, Fs, Fc. unfold half_inf.
  rewrite Z.shiftl_mul_pow2 by lia.
  destruct (Z.eqb_spec e 0x1f) as [->|]; [|rewrite (proj2 (Z.ltb_lt _ 0x7c00)) by lia; destruct (Z.eqb_spec e 0) as [->|]].
  - rewrite (proj2 (Z.ltb_ge _ 0x7c00)) by lia.
    destruct (Z.eqb_spec m 0) as [->|].
    + change (0 * 2 ^ 13 =? 0) with true. change (31 * 1024 + 0 =? 0x7c00) with true. cbv beta iota zeta.
      rewrite lor_float by lia. unfold float_inf. lia.
    + rewrite (proj2 (Z.eqb_neq (m * 2 ^ 13) 0)) by lia. rewrite (proj2 (Z.eqb_neq _ 0x7c00)) by lia.
      reflexivity.
  - destruct (Z.eqb_spec m 0) as [->|].
    + change (0 * 2 ^ 13) with 0. change (0 =? 0) with true. cbv beta iota zeta.
      rewrite lor_float by lia. destruct (float_fields s 0 0) as (-> & -> & ->); [lia..|]. split_and!; done.
    + rewrite (proj2 (Z.eqb_neq (m * 2 ^ 13) 0)) by lia.
      pose proof (denormals_ok m ltac:(lia)) as Hd. unfold denormal_ok in Hd.
      destruct (normalize 10 (m * 2 ^ 13) 0x71) as [nm k]. rewrite !andb_true_iff in Hd.
      destruct Hd as [[[[H1 H2] H3] H4] H5]. apply Z.ltb_lt in H1, H2, H4. apply Z.leb_le in H3. apply Z.eqb_eq in H5.
      change 0x7fffff with (2 ^ 23 - 1). rewrite land_ones_mod by lia.
      assert (nm `mod` 2 ^ 23 = nm - 2 ^ 23) as ->.
      { symmetry. apply (Z.mod_unique_pos _ _ 1); lia. }
      rewrite lor_float by lia.
      destruct (float_fields s k (nm - 2 ^ 23)) as (-> & -> & ->); [lia..|].
      rewrite (proj2 (Z.eqb_neq k 0)) by lia. unfold half_mag, float_inf, half_unit.
      rewrite (Z.div_small (0 * 1024 + m)) by lia. split_and!; [done|lia|].
      change (0 =? 0) with true. cbv iota.
      replace (0 * 1024 + m) with m by lia. rewrite <-H5. f_equal. lia.
  - cbv beta iota zeta. rewrite lor_float by lia.
    destruct (float_fields s (e + 0x70) (m * 2 ^ 13)) as (-> & -> & ->); [lia..|].
    rewrite (proj2 (Z.eqb_neq (e + _) 0)) by lia. unfold half_mag, float_inf, half_unit.
    change (2 ^ 10) with 1024. rewrite Z.div_add_l, (Z.add_comm (e * 1024)), Z.mod_add by lia.
    rewrite (Z.div_small m), (Z.mod_small m), Z.add_0_r by lia.
    rewrite (proj2 (Z.eqb_neq e 0)) by lia. split_and!; [done|lia|].
    replace (e + 112 - 1) with ((e - 1) + 112) by lia. rewrite Z.pow_add_r by lia.
    replace (2 ^ 125) with (2 ^ 13 * 2 ^ 112) by reflexivity. change (2 ^ 23) with (1024 * 2 ^ 13). lia.
Qed.

(** every half converts exactly: a finite half to a finite float of the same
    sign and value (so the normalisation loop of denormals always ends), an
    infinity to the infinity of its sign, every NaN to the same NaN. *)
Theorem half2float_exact (h : Z) : in_range 16 h → half2float_ok h (cpu_half2float h).
Proof. apply half2float_lemma. Qed.

(* ------------------------------------------------------------------ *)
(** * From float to half *)

(** [c] is the code of a half nearest to the magnitude [f] (in float units),
    with an even mantissa when two are equally near; [half_inf] counts as
    [2^16], the value above which the format overflows. *)
Definition nearest (f c : Z) : Prop :=
  0 ≤ c ≤ half_inf ∧
  ∀ d, 0 ≤ d ≤ half_inf → d ≠ c →
    Z.abs (f - half_mag c * half_unit) ≤ Z.abs (f - half_mag d * half_unit) ∧
    (Z.abs (f - half_mag c * half_unit) = Z.abs (f - half_mag d * half_unit) → Z.even c = true).

(** It is enough to compare with the two neighbours. *)
Definition above (f c : Z) : Prop :=
  c = 0 ∨ (half_mag (c - 1) + half_mag c) * half_unit < 2 * f ∨
  (half_mag (c - 1) + half_mag c) * half_unit = 2 * f ∧ Z.even c = true.
Definition below (f c : Z) : Prop :=
  c = half_inf ∨ 2 * f < (half_mag c + half_mag (c + 1)) * half_unit ∨
  2 * f = (half_mag c + half_mag (c + 1)) * half_unit ∧ Z.even c = true.

Lemma half_mag_le c d : 0 ≤ c ≤ d → half_mag c ≤ half_mag d.
Proof.
  intros [? ?]. destruct (decide (c = d)) as [->|]; [done|]. apply Z.lt_le_incl, half_mag_mono. lia.
Qed.

Lemma nearest_neighbours f c : 0 ≤ c ≤ half_inf → above f c → below f c → nearest f c.
Proof.
  intros Hc Ha Hb. split; [done|]. intros d Hd Hne. unfold above, below in *.
  assert (0 < half_unit) as Hu by done. set (K := half_unit) in *.
  destruct (decide (d < c)).
  - pose proof (half_mag_le d (c - 1) ltac:(lia)). pose proof (half_mag_mono (c - 1) c ltac:(lia)).
    assert (half_mag d * K ≤ half_mag (c - 1) * K) by nia.
    assert (half_mag (c - 1) * K < half_mag c * K) by nia.
    destruct Ha as [->|[Ha|[Ha He]]]; [lia| |]; (split; [lia|intros; try done; lia]).
  - pose proof (half_mag_le (c + 1) d ltac:(lia)). pose proof (half_mag_mono c (c + 1) ltac:(lia)).
    assert (half_mag (c + 1) * K ≤ half_mag d * K) by nia.
    assert (half_mag c * K < half_mag (c + 1) * K) by nia.
    destruct Hb as [->|[Hb|[Hb He]]]; [lia| |]; (split; [lia|intros; try done; lia]).
Qed.

(** Rounding [f], which lies [r] parts of [n] above the half [c], by
    comparing [r] with [n / 2]. *)
Lemma nearest_round f c r n w :
  0 ≤ c < half_inf → 0 ≤ r < n → 0 < w →
  f = half_mag c * half_unit + r * w → half_mag (c + 1) * half_unit = half_mag c * half_unit + n * w →
  nearest f (if (n <? 2 * r) || ((2 * r =? n) && negb (Z.even c)) then c + 1 else c).
Proof.
  intros Hc Hr Hw Hf Hn. assert (0 < half_unit) as Hu by done.
  assert (c = 0 ∨ half_mag (c - 1) * half_unit < half_mag c * half_unit) as Hprev.
  { destruct (decide (c = 0)); [by left|right]. pose proof (half_mag_mono (c - 1) c ltac:(lia)). nia. }
  assert (half_mag (c + 1) * half_unit < half_mag (c + 1 + 1) * half_unit) as Hnext.
  { pose proof (half_mag_mono (c + 1) (c + 1 + 1) ltac:(lia)). nia. }
  assert (r * w < n * w) by nia. assert (0 ≤ r * w) by nia.
  destruct (Z.ltb_spec n (2 * r)); cbn [orb].
  - apply nearest_neighbours; [lia| |]; unfold above, below.
    + right; left. replace (c + 1 - 1) with c by lia. assert (n * w < 2 * r * w) by nia. lia.
    + right; left. lia.
  - assert (2 * r * w ≤ n * w) by nia. destruct (Z.eqb_spec (2 * r) n) as [Heq|]; cbn [andb].
    + assert (2 * r * w = n * w) by (by rewrite Heq). destruct (Z.even c) eqn:He; cbn [negb].
      * apply nearest_neighbours; [lia| |]; unfold above, below; [|right; right; split; [lia|done]].
        destruct Hprev; [by left|right; left; lia].
      * apply nearest_neighbours; [lia| |]; unfold above, below; [|right; left; lia].
        right; right. replace (c + 1 - 1) with c by lia. split; [lia|].
        by rewrite Z.add_1_r, Z.even_succ, <-Z.negb_even, He.
    + assert (2 * r * w < n * w) by nia.
      apply nearest_neighbours; [lia| |]; unfold above, below; [|right; left; lia].
      destruct Hprev; [by left|right; left; lia].
Qed.

(** The rounding step of the code, on a [k]-bit remainder, and the carry. *)
Lemma round_step (k e m : Z) :
  13 ≤ k ≤ 24 → 0 ≤ e → 0 ≤ m / 2 ^ k < 1024 →
  let lsb := Z.shiftl 1 k in
  let r := Z.land m (lsb - 1) in
  let q := Z.shiftr m k in
  let c := e * 1024 + m / 2 ^ k in
  ∃ e' q', (if (Z.shiftr lsb 1 <? r) || ((r =? Z.shiftr lsb 1) && negb (Z.land q 1 =? 0)) then
              if Z.land (q + 1) 0x3ff =? 0 then (e + 1, 0) else (e, q + 1)
            else (e, q)) = (e', q') ∧ 0 ≤ q' < 1024 ∧
    e' * 1024 + q' = if (2 ^ k <? 2 * (m `mod` 2 ^ k)) || ((2 * (m `mod` 2 ^ k) =? 2 ^ k) && negb (Z.even c))
                     then c + 1 else c.
Proof.
  intros Hk He Hq lsb r q c.
  assert (0 < 2 ^ (k - 1)) by (apply Z.pow_pos_nonneg; lia).
  assert (2 ^ k = 2 * 2 ^ (k - 1)) as H2k by (rewrite <-Z.pow_succ_r by lia; f_equal; lia).
  assert (lsb = 2 ^ k) as Hlsb by (unfold lsb; rewrite Z.shiftl_mul_pow2; lia).
  assert (r = m `mod` 2 ^ k) as Hr by (unfold r; rewrite Hlsb; apply land_ones_mod; lia).
  assert (q = m / 2 ^ k) as Hqe by (unfold q; apply Z.shiftr_div_pow2; lia).
  assert (Z.shiftr lsb 1 = 2 ^ (k - 1)) as ->.
  { rewrite Z.shiftr_div_pow2, Hlsb, H2k, Z.mul_comm by lia. by apply Z.div_mul. }
  rewrite Hr, Hqe. assert (negb (Z.land (m / 2 ^ k) 1 =? 0) = negb (Z.even c)) as ->.
  { unfold c. change (Z.land (m / 2 ^ k) 1) with (Z.land (m / 2 ^ k) (2 ^ 1 - 1)).
    rewrite land_ones_mod, Z.even_add, Z.even_mul by lia. change (Z.even 1024) with true.
    rewrite orb_true_r. change (2 ^ 1) with 2. rewrite Zmod_even. by destruct (Z.even (m / 2 ^ k)). }
  assert (((2 ^ (k - 1) <? m `mod` 2 ^ k) || ((m `mod` 2 ^ k =? 2 ^ (k - 1)) && negb (Z.even c))) =
          ((2 ^ k <? 2 * (m `mod` 2 ^ k)) || ((2 * (m `mod` 2 ^ k) =? 2 ^ k) && negb (Z.even c)))) as ->.
  { f_equal; [|f_equal]; apply eq_true_iff_eq; rewrite ?Z.ltb_lt, ?Z.eqb_eq; lia. }
  destruct (_ || _).
  - change 0x3ff with (2 ^ 10 - 1). rewrite land_ones_mod by lia. change (2 ^ 10) with 1024.
    destruct (Z.eqb_spec ((m / 2 ^ k + 1) `mod` 1024) 0) as [Hz|Hz].
    + exists (e + 1), 0. split; [done|]. unfold c. split; [lia|].
      Z.to_euclidean_division_equations. lia.
    + exists e, (m / 2 ^ k + 1). split; [done|]. unfold c. split; [|lia].
      destruct (decide (m / 2 ^ k = 1023)) as [E|]; [by rewrite E in Hz|lia].
  - eexists _, _. split; [done|]. unfold c. lia.
Qed.

Lemma lor_half s e m : 0 ≤ m < 1024 → 0 ≤ e < 32 →
  Z.lor (Z.lor (s * 2 ^ 15) (Z.shiftl e 10)) m = s * 2 ^ 15 + e * 2 ^ 10 + m.
Proof.
  intros. change (2 ^ 15) with (2 ^ (10 + 5)). rewrite <-lor_fields, (Z.shiftl_mul_pow2 s) by lia. done.
Qed.

Lemma half_sign_code s c : 0 ≤ c < 2 ^ 15 → half_sign (s * 2 ^ 15 + c) = s ∧ half_code (s * 2 ^ 15 + c) = c.
Proof.
  intros Hc. unfold half_sign, half_code. rewrite Z.div_add_l, Z.div_small, (Z.add_comm (_ * _)), Z.mod_add,
    Z.mod_small by lia. lia.
Qed.

(** The fields of a float as the code extracts them. *)
Lemma float_decode x :
  in_range 32 x →
  ∃ s e m, 0 ≤ s < 2 ∧ 0 ≤ e < 256 ∧ 0 ≤ m < 2 ^ 23 ∧ x = s * 2 ^ 31 + e * 2 ^ 23 + m ∧
    Z.land x 0x7fffffff = e * 2 ^ 23 + m ∧ Z.land (Z.shiftr x 16) 0x8000 = s * 2 ^ 15 ∧
    Z.land (Z.shiftr (e * 2 ^ 23 + m) 23) 0xff = e ∧ Z.land (e * 2 ^ 23 + m) 0x7fffff = m.
Proof.
  intros Hx. exists (x / 2 ^ 31), ((x / 2 ^ 23) `mod` 256), (x `mod` 2 ^ 23).
  change 0x7fffffff with (2 ^ 31 - 1). change 0x8000 with (2 ^ 15).
  change 0xff with (2 ^ 8 - 1). change 0x7fffff with (2 ^ 23 - 1).
  rewrite !land_ones_mod, land_pow2, !Z.shiftr_div_pow2 by lia. unfold in_range in *.
  rewrite Z.div_div by lia. change (2 ^ 16 * 2 ^ 15) with 2147483648. change (2 ^ 8) with 256.
  change (2 ^ 23) with 8388608. change (2 ^ 31) with 2147483648. change (2 ^ 15) with 32768.
  change (2 ^ 32) with 4294967296 in *. Z.to_euclidean_division_equations. lia.
Qed.

(** What the conversion of a float promises. *)
Definition float2half_ok (x h : Z) : Prop :=
  if float_inf <? float_code x then h = 0x7fff
  else half_sign h = float_sign x ∧ nearest (float_mag (float_code x)) (half_code h).

Lemma float_mag_bounds e m :
  0 ≤ e → 0 ≤ m < 2 ^ 23 → (2 ^ 23 + m) * 2 ^ (e - 1) < 2 ^ 24 * 2 ^ (e - 1) ∨ e = 0.
Proof.
  intros He Hm. destruct (decide (e = 0)); [by right|left].
  assert (0 < 2 ^ (e - 1)) by (apply Z.pow_pos_nonneg; lia). nia.
Qed.

(** Below half the smallest half, and above the largest. *)
Lemma nearest_underflow e m :
  0 ≤ e < 256 → 0 ≤ m < 2 ^ 23 → e * 2 ^ 23 + m < 0x33000001 →
  nearest (if e =? 0 then m else (2 ^ 23 + m) * 2 ^ (e - 1)) 0.
Proof.
  intros He Hm Hu. apply nearest_neighbours; [done|by left|].
  assert (2 * (if e =? 0 then m else (2 ^ 23 + m) * 2 ^ (e - 1)) ≤ half_unit) as Hle.
  { unfold half_unit. destruct (Z.eqb_spec e 0); [lia|]. destruct (decide (e = 102)) as [->|].
    - assert (m = 0) as -> by lia. vm_compute. discriminate.
    - assert (2 ^ (e - 1) ≤ 2 ^ 100) by (apply Z.pow_le_mono_r; lia).
      assert (0 < 2 ^ (e - 1)) by (apply Z.pow_pos_nonneg; lia). nia. }
  unfold below. change ((half_mag 0 + half_mag (0 + 1)) * half_unit) with half_unit.
  right. destruct (decide (2 * (if e =? 0 then m else (2 ^ 23 + m) * 2 ^ (e - 1)) = half_unit)); [by right|left; lia].
Qed.

Lemma nearest_overflow e m :
  0 ≤ e < 256 → 0 ≤ m < 2 ^ 23 → 0x477fefff < e * 2 ^ 23 + m →
  nearest (if e =? 0 then m else (2 ^ 23 + m) * 2 ^ (e - 1)) half_inf.
Proof.
  intros He Hm Hu. apply nearest_neighbours; [done| |by left]. unfold above.
  rewrite (proj2 (Z.eqb_neq e 0)) by lia.
  assert ((half_mag (half_inf - 1) + half_mag half_inf) * half_unit ≤ 2 * ((2 ^ 23 + m) * 2 ^ (e - 1))) as Hle.
  { change ((half_mag (half_inf - 1) + half_mag half_inf) * half_unit) with (4095 * 2 ^ 154).
    destruct (decide (e = 142)) as [->|].
    - change (2 ^ (142 - 1)) with (2 ^ 141). change (2 ^ 154) with (2 ^ 13 * 2 ^ 141). lia.
    - assert (2 ^ 142 ≤ 2 ^ (e - 1)) by (apply Z.pow_le_mono_r; lia).
      change (2 ^ 154) with (2 ^ 12 * 2 ^ 142). nia. }
  right. destruct (decide ((half_mag (half_inf - 1) + half_mag half_inf) * half_unit =
    2 * ((2 ^ 23 + m) * 2 ^ (e - 1)))); [by right|left; lia].
Qed.

(** Normal results: the exponent moves by [0x70] and 13 bits are dropped. *)
Lemma nearest_normal e m :
  0x70 < e ≤ 142 → 0 ≤ m < 2 ^ 23 → e * 2 ^ 23 + m ≤ 0x477fefff →
  let c := (e - 0x70) * 1024 + m / 2 ^ 13 in
  nearest ((2 ^ 23 + m) * 2 ^ (e - 1))
    (if (2 ^ 13 <? 2 * (m `mod` 2 ^ 13)) || ((2 * (m `mod` 2 ^ 13) =? 2 ^ 13) && negb (Z.even c)) then c + 1 else c).
Proof.
  intros He Hm Hu c. pose proof (Z.div_mod m (2 ^ 13)) as Hdm. pose proof (Z.mod_pos_bound m (2 ^ 13)) as Hb.
  assert (0 ≤ m / 2 ^ 13 < 1024) as Hq.
  { split; [apply Z.div_pos; lia|apply Z.div_lt_upper_bound; lia]. }
  assert (∀ q, 0 ≤ q ≤ 1024 → half_mag ((e - 0x70) * 1024 + q) * half_unit =
    (1024 + q) * (2 ^ 13 * 2 ^ (e - 1))) as Hv.
  { intros q Hq'. unfold half_mag, half_unit. change (2 ^ 10) with 1024.
    destruct (decide (q = 1024)) as [->|].
    - replace ((e - 0x70) * 1024 + 1024) with ((e - 0x70 + 1) * 1024) by lia.
      rewrite Z.div_mul, Z.mod_mul by lia. rewrite (proj2 (Z.eqb_neq _ 0)) by lia.
      replace (e - 1) with (e - 113 + 112) by lia. replace (e - 0x70 + 1 - 1) with (Z.succ (e - 113)) by lia.
      rewrite Z.pow_succ_r, Z.pow_add_r by lia. change (2 ^ 125) with (2 ^ 13 * 2 ^ 112). lia.
    - rewrite Z.div_add_l, (Z.add_comm (_ * 1024)), Z.mod_add, Z.div_small, Z.mod_small by lia.
      rewrite (proj2 (Z.eqb_neq _ 0)) by lia. replace (e - 1) with (e - 113 + 112) by lia.
      replace (e - 0x70 + 0 - 1) with (e - 113) by lia. rewrite Z.pow_add_r by lia.
      change (2 ^ 125) with (2 ^ 13 * 2 ^ 112). lia. }
  apply (nearest_round _ c _ _ (2 ^ (e - 1))); unfold c, half_inf.
  - assert (m / 2 ^ 13 * 2 ^ 13 ≤ m) by lia. lia.
  - lia.
  - apply Z.pow_pos_nonneg; lia.
  - rewrite Hv by lia. rewrite Hdm at 1 by lia. change (2 ^ 23) with (1024 * 2 ^ 13). lia.
  - rewrite <-Z.add_assoc, !Hv by lia. lia.
Qed.

(** Denormal results: the shift depends on the exponent. *)
Lemma nearest_denormal e m :
  102 ≤ e ≤ 0x70 → 0 ≤ m < 2 ^ 23 →
  let k := 0x7e - e in
  let c := (2 ^ 23 + m) / 2 ^ k in
  0 ≤ c < 1024 ∧
  nearest ((2 ^ 23 + m) * 2 ^ (e - 1))
    (if (2 ^ k <? 2 * ((2 ^ 23 + m) `mod` 2 ^ k)) ||
        ((2 * ((2 ^ 23 + m) `mod` 2 ^ k) =? 2 ^ k) && negb (Z.even c)) then c + 1 else c).
Proof.
  intros He Hm k c. assert (0 < 2 ^ k) as Hk by (apply Z.pow_pos_nonneg; lia).
  assert (2 ^ 14 ≤ 2 ^ k) by (apply Z.pow_le_mono_r; lia).
  pose proof (Z.div_mod (2 ^ 23 + m) (2 ^ k)) as Hdm. pose proof (Z.mod_pos_bound (2 ^ 23 + m) (2 ^ k)) as Hb.
  assert (0 ≤ c < 1024) as Hc.
  { split; [apply Z.div_pos; lia|apply Z.div_lt_upper_bound; [lia|]]. nia. }
  assert (2 ^ k * 2 ^ (e - 1) = half_unit) as Hu.
  { rewrite <-Z.pow_add_r by lia. unfold half_unit. f_equal. lia. }
  assert (∀ q, 0 ≤ q ≤ 1024 → half_mag q = q) as Hv.
  { intros q Hq. unfold half_mag. change (2 ^ 10) with 1024. destruct (decide (q = 1024)) as [->|]; [done|].
    rewrite (Z.div_small q) by lia. done. }
  split; [done|]. apply (nearest_round _ c _ _ (2 ^ (e - 1))); unfold half_inf.
  - lia.
  - lia.
  - apply Z.pow_pos_nonneg; lia.
  - rewrite Hv by lia. rewrite Hdm at 1 by lia. rewrite <-Hu. fold c. lia.
  - rewrite !Hv by lia. lia.
Qed.

Lemma float2half_lemma x : in_range 32 x → float2half_ok x (cpu_float2half_rn x).
Proof.
  intros Hx. destruct (float_decode x Hx) as (s & e & m & Hs & He & Hm & -> & Eu & Es & Ee & Em).
  destruct (float_fields s e m) as (Fs & Fc & Fm); [lia..|].
  unfold float2half_ok, cpu_float2half_rn. rewrite Fc, Fs. rewrite Fc in Fm. rewrite Fm.
  rewrite Eu, Es, Ee, Em. change 0x7f800000 with float_inf. clear Eu Es Ee Em Fs Fc Fm.
  destruct (Z.ltb_spec float_inf (e * 2 ^ 23 + m)) as [Hn|Hn]; [done|]. unfold float_inf in Hn. cbv zeta.
  assert (∀ c, Z.lor (s * 2 ^ 15) c = s * 2 ^ 15 + c → 0 ≤ c < 2 ^ 15 →
    nearest (if e =? 0 then m else (2 ^ 23 + m) * 2 ^ (e - 1)) c →
    half_sign (Z.lor (s * 2 ^ 15) c) = s ∧
    nearest (if e =? 0 then m else (2 ^ 23 + m) * 2 ^ (e - 1)) (half_code (Z.lor (s * 2 ^ 15) c))) as Hfin.
  { intros c -> Hc Hnear. by destruct (half_sign_code s c Hc) as [-> ->]. }
  destruct (Z.ltb_spec 0x477fefff (e * 2 ^ 23 + m)).
  { apply Hfin; [|done|by apply nearest_overflow]. rewrite Z.lor_comm, lor_add by done. lia. }
  destruct (Z.ltb_spec (e * 2 ^ 23 + m) 0x33000001).
  { apply Hfin; [by rewrite Z.lor_0_r, Z.add_0_r|done|by apply nearest_underflow]. }
  assert (∀ E q c, 0 ≤ q < 1024 → 0 ≤ E → E * 1024 + q = c → c ≤ half_inf →
    wrap 16 (Z.lor (Z.lor (s * 2 ^ 15) (Z.shiftl E 10)) q) = s * 2 ^ 15 + c) as Hpack.
  { unfold half_inf. intros E q c Hq HE <- Hc. rewrite lor_half by lia. rewrite wrap_small; [lia|].
    unfold in_range. lia. }
  rewrite (proj2 (Z.eqb_neq e 0)) by lia.
  destruct (Z.ltb_spec 0x70 e).
  - pose proof (nearest_normal e m ltac:(lia) Hm ltac:(lia)) as Hnear.
    destruct (round_step 13 (e - 0x70) m) as (E & q & -> & Hq & HE); [lia|lia| |].
    { split; [apply Z.div_pos; lia|apply Z.div_lt_upper_bound; lia]. }
    cbv zeta in Hnear. rewrite <-HE in Hnear. destruct (Hnear) as [Hr _].
    rewrite (Hpack E q _ Hq ltac:(lia) eq_refl) by lia.
    destruct (half_sign_code s (E * 1024 + q)) as [-> ->]; [unfold half_inf in Hr; lia|done].
  - pose proof (nearest_denormal e m ltac:(lia) Hm) as [Hc Hnear].
    change 0x800000 with (1 * 2 ^ 23). rewrite lor_add by lia. rewrite (Z.add_comm m), Z.mul_1_l.
    destruct (round_step (0x7e - e) 0 (2 ^ 23 + m)) as (E & q & -> & Hq & HE); [lia|lia|done|].
    cbv zeta in Hnear. rewrite Z.mul_0_l, Z.add_0_l in HE. rewrite <-HE in Hnear. destruct (Hnear) as [Hr _].
    rewrite (Hpack E q _ Hq ltac:(lia) eq_refl) by lia.
    destruct (half_sign_code s (E * 1024 + q)) as [-> ->]; [unfold half_inf in Hr; lia|done].
Qed.

(** C39: converting a float rounds correctly: the result has the float's sign and
    is a half nearest to it, the one with the even mantissa when two are
    equally near; beyond the range it is infinite, and a NaN gives [0x7fff]. *)
Theorem float2half_nearest (x : Z) : in_range 32 x → float2half_ok x (cpu_float2half_rn x).
Proof. apply float2half_lemma. Qed.

Lemma half_split h : h = half_sign h * 2 ^ 15 + half_code h.
Proof. unfold half_sign, half_code. pose proof (Z.div_mod h (2 ^ 15)). lia. Qed.

(** converting a half to float and back is the identity on everything but
    NaNs, which all become [0x7fff]. *)
Theorem half_roundtrip (h : Z) :
  in_range 16 h →
  cpu_float2half_rn (cpu_half2float h) = if half_inf <? half_code h then 0x7fff else h.
Proof.
  intros Hh. pose proof (half2float_lemma h Hh) as Hf. unfold half2float_ok in Hf.
  assert (0 ≤ half_sign h < 2) as Hs.
  { unfold half_sign, in_range in *. change (2 ^ 15) with 32768. change (2 ^ 16) with 65536 in Hh.
    Z.to_euclidean_division_equations. lia. }
  assert (0 ≤ half_code h) as Hc0 by (apply Z.mod_pos_bound; done).
  destruct (Z.ltb_spec (half_code h) half_inf) as [Hlt|Hge].
  - rewrite (proj2 (Z.ltb_ge half_inf (half_code h))) by lia. destruct Hf as (Hfs & Hfc & Hfm).
    set (f := cpu_half2float h) in *.
    assert (f = float_sign f * 2 ^ 31 + float_code f) as Hsplit.
    { unfold float_sign, float_code. pose proof (Z.div_mod f (2 ^ 31)). lia. }
    assert (0 ≤ float_code f) by (apply Z.mod_pos_bound; done).
    pose proof (float2half_lemma f) as Hr. unfold float2half_ok in Hr.
    rewrite (proj2 (Z.ltb_ge float_inf (float_code f))) in Hr by lia.
    destruct Hr as [Hrs [Hrc Hrn]]; [unfold in_range, float_inf in *; lia|].
    destruct (decide (half_code h = half_code (cpu_float2half_rn f))) as [Heq|Hne].
    + rewrite (half_split (cpu_float2half_rn f)), Hrs, Hfs, <-Heq. symmetry. apply half_split.
    + exfalso. destruct (Hrn (half_code h)) as [Habs _]; [lia|done|].
      rewrite Hfm, Z.sub_diag in Habs. assert (0 < half_unit) by done.
      assert (half_mag (half_code h) = half_mag (half_code (cpu_float2half_rn f))) as Hm by nia.
      destruct (decide (half_code h < half_code (cpu_float2half_rn f))).
      * pose proof (half_mag_mono (half_code h) (half_code (cpu_float2half_rn f)) ltac:(lia)). lia.
      * pose proof (half_mag_mono (half_code (cpu_float2half_rn f)) (half_code h) ltac:(lia)). lia.
  - destruct (Z.eqb_spec (half_code h) half_inf) as [Heq|Hne].
    + rewrite Hf, Heq, (half_split h), Heq. assert (half_sign h = 0 ∨ half_sign h = 1) as [->| ->] by lia;
        vm_compute; reflexivity.
    + rewrite (proj2 (Z.ltb_lt half_inf (half_code h))) by lia. rewrite Hf. vm_compute. reflexivity.
Qed.

(* ------------------------------------------------------------------ *)
(** * The class [float16] *)

(** Reinterpreting the bits of a float, and back. *)
Definition f32_of_bits (x : Z) : spec_float :=
  let s := x / 2 ^ 31 =? 1 in
  let e := (x / 2 ^ 23) `mod` 256 in
  let m := x `mod` 2 ^ 23 in
  if e =? 255 then if m =? 0 then S754_infinity s else S754_nan
  else if e =? 0 then match m with Zpos p => S754_finite s p (-149) | _ => S754_zero s end
  else match 2 ^ 23 + m with Zpos p => S754_finite s p (e - 150) | _ => S754_zero s end.
Definition bits_of_f32 (f : spec_float) : Z :=
  match f with
  | S754_zero s => Z.b2z s * 2 ^ 31
  | S754_infinity s => Z.b2z s * 2 ^ 31 + float_inf
  | S754_nan => 0x7fc00000
  | S754_finite s p e =>
      Z.b2z s * 2 ^ 31 + (if Zpos p <? 2 ^ 23 then Zpos p else (e + 150) * 2 ^ 23 + (Zpos p - 2 ^ 23))
  end.

(** [float16(int val)] *)
Definition float16_of_int (val : Z) : Z := cpu_float2half_rn (bits_of_f32 (f32_of_Z val)).

(** [operator==(const float16&)], [operator==(const int&)]. *)
Definition float16_eq (this rhs : Z) : bool := this =? rhs.
Definition float16_eq_int (this rhs : Z) : bool := this =? float16_of_int rhs.

(** [operator!=(rhs)] is [!( *this == rhs.x)]: [rhs.x] is a [uint16_t], the
    constructors from integers are explicit, and of the other overloads
    [operator==(const int&)] takes it by promotion. *)
Definition float16_ne (this rhs : Z) : bool := negb (float16_eq_int this rhs).

(** [operator=(rhs)]: [if (rhs != *this) x = rhs.x]. *)
Definition float16_assign (this rhs : Z) : Z := if float16_ne rhs this then rhs else this.

(** [float r = cpu_half2float( *this) op cpu_half2float(rhs)], rounded. *)
Definition float16_round (op : spec_float → spec_float → spec_float) (this rhs : Z) : Z :=
  cpu_float2half_rn (bits_of_f32 (op (f32_of_bits (cpu_half2float this)) (f32_of_bits (cpu_half2float rhs)))).
Definition float16_op_assign (op : spec_float → spec_float → spec_float) (this rhs : Z) : Z :=
  float16_assign this (float16_round op this rhs).

Definition f32_add := SFadd 24 128.
Definition f32_sub := SFsub 24 128.
Definition f32_mul := SFmul 24 128.
Definition f32_div := SFdiv 24 128.
Definition float16_add_assign : Z → Z → Z := float16_op_assign f32_add.
Definition float16_sub_assign : Z → Z → Z := float16_op_assign f32_sub.
Definition float16_mul_assign : Z → Z → Z := float16_op_assign f32_mul.
Definition float16_div_assign : Z → Z → Z := float16_op_assign f32_div.

(** [float16 result = lhs; result op= rhs; return result]. *)
Definition float16_add (lhs rhs : Z) : Z := let result := lhs in float16_add_assign result rhs.
Definition float16_sub (lhs rhs : Z) : Z := let result := lhs in float16_sub_assign result rhs.
Definition float16_mul (lhs rhs : Z) : Z := let result := lhs in float16_mul_assign result rhs.
Definition float16_div (lhs rhs : Z) : Z := let result := lhs in float16_div_assign result rhs.

Definition float16_cmp (cmp : spec_float → spec_float → bool) (lhs rhs : Z) : bool :=
  cmp (f32_of_bits (cpu_half2float lhs)) (f32_of_bits (cpu_half2float rhs)).
Definition float16_lt : Z → Z → bool := float16_cmp SFltb.
Definition float16_le : Z → Z → bool := float16_cmp SFleb.
Definition float16_gt (lhs rhs : Z) : bool := float16_lt rhs lhs.
Definition float16_ge (lhs rhs : Z) : bool := float16_le rhs lhs.

(** an assignment is lost when the new value is the old bit pattern read as
    an integer: [operator!=] compares with [rhs.x] as an [int], so [x = y]
    keeps [x] for [y = float16(int(bits of x))]. Adding 1 to the smallest
    denormal therefore returns the denormal, where the rounded sum is 1, and
    addition does not commute. *)
Theorem float16_assign_lost :
  (∀ x, float16_assign x (float16_of_int x) = x) ∧
  (∀ x y, y ≠ float16_of_int x → float16_assign x y = y) ∧
  float16_of_int 1 = 0x3c00 ∧
  float16_round f32_add 1 0x3c00 = 0x3c00 ∧ float16_add 1 0x3c00 = 1 ∧ float16_add 0x3c00 1 = 0x3c00.
Proof.
  split_and!; [| |vm_compute; reflexivity..].
  - intros x. unfold float16_assign, float16_ne, float16_eq_int. by rewrite Z.eqb_refl.
  - intros x y Hne. unfold float16_assign, float16_ne, float16_eq_int. by rewrite (proj2 (Z.eqb_neq _ _)).
Qed.

(* ------------------------------------------------------------------ *)
(** * The theorems at concrete inputs *)

Lemma half2float_exact_witness : half2float_ok 0x8001 (cpu_half2float 0x8001).
Proof. apply (half2float_exact 0x8001). decide_eval. Defined.

(** 2049 lies between the halves 2048 and 2050; the mantissa of 2048 is even. *)
Lemma float2half_nearest_witness : float2half_ok 0x45001000 (cpu_float2half_rn 0x45001000).
Proof. apply (float2half_nearest 0x45001000). decide_eval. Defined.

Lemma half_roundtrip_witness : cpu_float2half_rn (cpu_half2float 0x83ff) = 0x83ff.
Proof. apply (half_roundtrip 0x83ff). decide_eval. Defined.
