(* ===== verification/Slots.v ===== *)
(** Slots, the message tags of the collectives: [class Slot] of
    [src/gloo/types.h] and [src/gloo/types.cc]. *)
From S2P Require Import Prelude.

Definition kGatherSlotPrefix : Z := 0x01.
Definition kAllgatherSlotPrefix : Z := 0x02.
Definition kReduceSlotPrefix : Z := 0x03.
Definition kAllreduceSlotPrefix : Z := 0x04.
Definition kScatterSlotPrefix : Z := 0x05.
Definition kBroadcastSlotPrefix : Z := 0x06.
Definition kBarrierSlotPrefix : Z := 0x07.
Definition kAlltoallSlotPrefix : Z := 0x08.

Record Slot := mkSlot { sl_base : Z; sl_delta : Z }.

(** [Slot::build(prefix, tag)] *)
Definition Slot_build (prefix tag : Z) : Slot :=
  let u64prefix := u64 (Z.shiftl prefix 56) in
  let u64tag := u64 (Z.shiftl (Z.land tag 0xffffffff) 24) in
  mkSlot (Z.lor u64prefix u64tag) 0.

(** [operator uint64_t()] *)
Definition Slot_value (s : Slot) : Z := u64 (sl_base s + sl_delta s).

(** [operator+(uint8_t i)] *)
Definition Slot_add (s : Slot) (i : Z) : outcome Slot :=
  let delta := u64 (sl_delta s + i) in
  if 0xff <? delta then Exn RuntimeError else Val (mkSlot (sl_base s) delta).

(* ------------------------------------------------------------------ *)

Lemma Slot_build_base p t :
  is_u8 p → is_u32 t → Slot_build p t = mkSlot (p * 2 ^ 56 + t * 2 ^ 24) 0.
Proof.
  intros Hp Ht. unfold Slot_build, in_range in *. f_equal.
  change 0xffffffff with (2 ^ 32 - 1). rewrite land_ones_mod, (Z.mod_small t), !Z.shiftl_mul_pow2 by lia.
  rewrite !wrap_small by (unfold in_range; lia). rewrite Z.lor_comm, lor_add by lia. lia.
Qed.

(** A slot computed by several additions, as the collectives do. *)
Fixpoint Slot_adds (s : Slot) (l : list Z) : outcome Slot :=
  match l with
  | [] => Val s
  | i :: l => s ← Slot_add s i; Slot_adds s l
  end.

Lemma sum_u8 l : Forall is_u8 l → 0 ≤ foldr Z.add 0 l.
Proof. induction 1 as [|x l Hx _ IH]; cbn; unfold in_range in *; lia. Qed.

Lemma Slot_adds_from base l : ∀ d,
  Forall is_u8 l → 0 ≤ d ≤ 255 →
  Slot_adds (mkSlot base d) l =
    if 255 <? d + foldr Z.add 0 l then Exn RuntimeError else Val (mkSlot base (d + foldr Z.add 0 l)).
Proof.
  induction l as [|i l IH]; intros d Hl Hd; cbn [Slot_adds foldr].
  { rewrite Z.add_0_r. by rewrite (proj2 (Z.ltb_ge 255 d)) by lia. }
  apply Forall_cons in Hl as [Hi Hl]. unfold in_range in Hi. unfold Slot_add. cbn [sl_delta sl_base].
  rewrite wrap_small by (unfold in_range; lia).
  pose proof (sum_u8 l Hl) as Hpos.
  destruct (Z.ltb_spec 0xff (d + i)).
  - cbn. by rewrite (proj2 (Z.ltb_lt 255 (d + (i + foldr Z.add 0 l)))) by lia.
  - cbn [mbind outcome_bind]. rewrite IH by (done || lia). by rewrite Z.add_assoc.
Qed.

(** adding to a collective's slot either stays within its 8 bits, and then
    the slot is the prefix, the tag and the sum side by side, or throws:
    exactly when the sum exceeds 255, so that no addition reaches the tag. *)
Theorem Slot_adds_spec (p t : Z) (l : list Z) :
  is_u8 p → is_u32 t → Forall is_u8 l →
  Slot_value <$> Slot_adds (Slot_build p t) l =
    if 255 <? foldr Z.add 0 l then Exn RuntimeError else Val (p * 2 ^ 56 + t * 2 ^ 24 + foldr Z.add 0 l).
Proof.
  intros Hp Ht Hl. rewrite Slot_build_base, Slot_adds_from, Z.add_0_l by (done || lia).
  destruct (Z.ltb_spec 255 (foldr Z.add 0 l)); [done|]. cbn [fmap outcome_fmap Slot_value sl_base sl_delta].
  unfold Slot_value. cbn [sl_base sl_delta]. f_equal. apply wrap_small.
  pose proof (sum_u8 l Hl).
  unfold in_range in *. lia.
Qed.

(** C40: the slots of a collective's operations, made from its prefix and tag by
    any number of checked additions. The additions throw exactly when their sum
    exceeds 255; and the slots they make are the same number if and only if the
    prefixes, the tags and the sums are the same, so that no addition reaches
    the slots of another collective. *)
Theorem Slot_adds_injective (p t p' t' : Z) (l l' : list Z) :
  is_u8 p → is_u32 t → Forall is_u8 l → is_u8 p' → is_u32 t' → Forall is_u8 l' →
  (Slot_adds (Slot_build p t) l = Exn RuntimeError ↔ 255 < foldr Z.add 0 l) ∧
  ∀ s s', Slot_adds (Slot_build p t) l = Val s → Slot_adds (Slot_build p' t') l' = Val s' →
    Slot_value s = Slot_value s' ↔ p = p' ∧ t = t' ∧ foldr Z.add 0 l = foldr Z.add 0 l'.
Proof.
  intros Hp Ht Hl Hp' Ht' Hl'. rewrite !Slot_build_base, !Slot_adds_from, !Z.add_0_l by (done || lia).
  pose proof (sum_u8 l Hl) as H0. pose proof (sum_u8 l' Hl') as H0'. split.
  - destruct (Z.ltb_spec 255 (foldr Z.add 0 l)); split; done || lia.
  - intros s s'. destruct (Z.ltb_spec 255 (foldr Z.add 0 l)), (Z.ltb_spec 255 (foldr Z.add 0 l')); try done.
    intros [= <-] [= <-]. unfold Slot_value, in_range in *. cbn [sl_delta sl_base].
    rewrite !wrap_small by (unfold in_range; lia). lia.
Qed.

(* ------------------------------------------------------------------ *)
(** * The theorems at concrete inputs *)

Lemma Slot_adds_spec_witness :
  Slot_value <$> Slot_adds (Slot_build kBroadcastSlotPrefix 7) [200; 55] = Val (6 * 2 ^ 56 + 7 * 2 ^ 24 + 255).
Proof. apply (Slot_adds_spec kBroadcastSlotPrefix 7 [200; 55]); try done; repeat constructor; done. Defined.

(** Two ways to the same slot of one broadcast, and another broadcast's. *)
Lemma Slot_adds_injective_witness :
  (∀ s s', Slot_adds (Slot_build kBroadcastSlotPrefix 7) [200; 55] = Val s → Slot_adds (Slot_build kBroadcastSlotPrefix 7) [255] = Val s' →
    Slot_value s = Slot_value s') ∧
  (∀ s s', Slot_adds (Slot_build kBroadcastSlotPrefix 7) [200; 55] = Val s → Slot_adds (Slot_build kBroadcastSlotPrefix 8) [0] = Val s' →
    Slot_value s ≠ Slot_value s').
Proof.
  split; intros s s' H1 H2.
  - apply (Slot_adds_injective kBroadcastSlotPrefix 7 kBroadcastSlotPrefix 7 [200; 55] [255]); try done; repeat constructor; done.
  - intros Heq. apply (Slot_adds_injective kBroadcastSlotPrefix 7 kBroadcastSlotPrefix 8 [200; 55] [0]) in Heq; try done; repeat constructor; done || lia.
Defined.
