(* ===== verification/Tally.v ===== *)
(** The tallies of pending operations of a transport context:
    [Context::Tally], [LazyTally] and [Mutator] of
    [src/gloo/transport/context.h] and [context.cc]. A mutator session, from
    construction to destruction, is shown to implement two ordered lists of
    ranks per slot. *)
From S2P Require Import Prelude.

(* ------------------------------------------------------------------ *)
(** * [class Tally::List], [class Tally] *)

Definition List_empty (ranks : list Z) : bool := match ranks with [] => true | _ => false end.
Definition List_push (rank : Z) (ranks : list Z) : list Z := ranks ++ [rank].

(** [shift(rank)]: erases the first occurrence. *)
Fixpoint List_shift (rank : Z) (ranks : list Z) : bool * list Z :=
  match ranks with
  | [] => (false, [])
  | r :: rs =>
      if r =? rank then (true, rs) else let '(b, rs) := List_shift rank rs in (b, r :: rs)
  end.

Record Tally := mkTally { ty_slot : Z; ty_send : list Z; ty_recv : list Z }.
#[export] Instance Tally_eta : Eta Tally := λ t, mkTally (ty_slot t) (ty_send t) (ty_recv t).

Definition Tally_new (slot : Z) : Tally := mkTally slot [] [].
Definition Tally_empty (t : Tally) : bool := List_empty (ty_send t) && List_empty (ty_recv t).
Definition Tally_pushSend (rank : Z) (t : Tally) : Tally := t <| ty_send ::= List_push rank |>.
Definition Tally_pushRecv (rank : Z) (t : Tally) : Tally := t <| ty_recv ::= List_push rank |>.
Definition Tally_shiftSend (rank : Z) (t : Tally) : bool * Tally :=
  let '(b, l) := List_shift rank (ty_send t) in (b, t <| ty_send := l |>).
Definition Tally_shiftRecv (rank : Z) (t : Tally) : bool * Tally :=
  let '(b, l) := List_shift rank (ty_recv t) in (b, t <| ty_recv := l |>).

(* ------------------------------------------------------------------ *)
(** * [class LazyTally]

    The reference to the vector is explicit; [lz_it] is [None] until the
    iterator is initialised, then an index, the vector's length for [end()]. *)

Record LazyTally := mkLazy { lz_slot : Z; lz_it : option nat }.

Definition LazyTally_new (slot : Z) : LazyTally := mkLazy slot None.

(** [std::find_if(vec.begin(), vec.end(), op.slot == slot)] *)
Fixpoint find_slot (slot : Z) (vec : list Tally) : nat :=
  match vec with
  | [] => O
  | t :: vec => if ty_slot t =? slot then O else S (find_slot slot vec)
  end.

Definition LazyTally_initialize (vec : list Tally) (l : LazyTally) : LazyTally :=
  match lz_it l with
  | Some _ => l
  | None => mkLazy (lz_slot l) (Some (find_slot (lz_slot l) vec))
  end.

Definition LazyTally_exists (vec : list Tally) (l : LazyTally) : bool * LazyTally :=
  let l := LazyTally_initialize vec l in
  (negb (bool_decide (lz_it l = Some (length vec))), l).

(** [get()] returns a reference: the index of the tally it refers to. *)
Definition LazyTally_get (vec : list Tally) (l : LazyTally) : nat * list Tally * LazyTally :=
  let l := LazyTally_initialize vec l in
  let i := default O (lz_it l) in
  if bool_decide (i = length vec)
  then (i, vec ++ [Tally_new (lz_slot l)], mkLazy (lz_slot l) (Some i))
  else (i, vec, l).

(** [~LazyTally()] *)
Definition LazyTally_destroy (vec : list Tally) (l : LazyTally) : list Tally :=
  match lz_it l with
  | None => vec
  | Some i =>
      match vec !! i with
      | Some t => if Tally_empty t then delete i vec else vec
      | None => vec
      end
  end.

(* ------------------------------------------------------------------ *)
(** * [class Mutator]

    Its state is the two vectors of the context it locks and its two lazy
    tallies. *)

Record Mutator := mkMutator {
  mt_rank : Z;
  mt_pendingOperations : list Tally;
  mt_expectedNotifications : list Tally;
  mt_pending : LazyTally;
  mt_expected : LazyTally;
}.
#[export] Instance Mutator_eta : Eta Mutator := λ m,
  mkMutator (mt_rank m) (mt_pendingOperations m) (mt_expectedNotifications m) (mt_pending m) (mt_expected m).

Definition Mutator_new (pending expected : list Tally) (slot rank : Z) : Mutator :=
  mkMutator rank pending expected (LazyTally_new slot) (LazyTally_new slot).

(** [lazy.get().push...(rank)], [lazy.get().shift...(rank)] *)
Definition lazy_push (f : Tally → Tally) (vec : list Tally) (l : LazyTally) : list Tally * LazyTally :=
  let '(i, vec, l) := LazyTally_get vec l in
  (match vec !! i with Some t => <[i := f t]> vec | None => vec end, l).
Definition lazy_shift (f : Tally → bool * Tally) (vec : list Tally) (l : LazyTally) : bool * list Tally * LazyTally :=
  let '(ex, l) := LazyTally_exists vec l in
  if (ex : bool) then
    let '(i, vec, l) := LazyTally_get vec l in
    match vec !! i with
    | Some t => let '(b, t) := f t in (b, <[i := t]> vec, l)
    | None => (false, vec, l)
    end
  else (false, vec, l).

Definition pushRemotePendingRecv (m : Mutator) : Mutator :=
  let '(v, l) := lazy_push (Tally_pushRecv (mt_rank m)) (mt_pendingOperations m) (mt_pending m) in
  m <| mt_pendingOperations := v |> <| mt_pending := l |>.
Definition pushRemotePendingSend (m : Mutator) : Mutator :=
  let '(v, l) := lazy_push (Tally_pushSend (mt_rank m)) (mt_pendingOperations m) (mt_pending m) in
  m <| mt_pendingOperations := v |> <| mt_pending := l |>.
Definition shiftRemotePendingRecv (m : Mutator) : bool * Mutator :=
  let '(b, v, l) := lazy_shift (Tally_shiftRecv (mt_rank m)) (mt_pendingOperations m) (mt_pending m) in
  (b, m <| mt_pendingOperations := v |> <| mt_pending := l |>).
Definition shiftRemotePendingSend (m : Mutator) : bool * Mutator :=
  let '(b, v, l) := lazy_shift (Tally_shiftSend (mt_rank m)) (mt_pendingOperations m) (mt_pending m) in
  (b, m <| mt_pendingOperations := v |> <| mt_pending := l |>).
Definition pushExpectedSendNotification (m : Mutator) : Mutator :=
  let '(v, l) := lazy_push (Tally_pushSend (mt_rank m)) (mt_expectedNotifications m) (mt_expected m) in
  m <| mt_expectedNotifications := v |> <| mt_expected := l |>.
Definition shiftExpectedSendNotification (m : Mutator) : bool * Mutator :=
  let '(b, v, l) := lazy_shift (Tally_shiftSend (mt_rank m)) (mt_expectedNotifications m) (mt_expected m) in
  (b, m <| mt_expectedNotifications := v |> <| mt_expected := l |>).

(** [~Mutator()]: the two lazy tallies are destroyed, then the lock. *)
Definition Mutator_destroy (m : Mutator) : list Tally * list Tally :=
  (LazyTally_destroy (mt_pendingOperations m) (mt_pending m),
   LazyTally_destroy (mt_expectedNotifications m) (mt_expected m)).

(* ------------------------------------------------------------------ *)
(** * What the vectors mean: two lists of ranks per slot *)

Definition tally_at (vec : list Tally) (slot : Z) : option Tally := vec !! find_slot slot vec.
Definition sends (vec : list Tally) (slot : Z) : list Z := default [] (ty_send <$> tally_at vec slot).
Definition recvs (vec : list Tally) (slot : Z) : list Z := default [] (ty_recv <$> tally_at vec slot).

(** Outside of a session: one tally per slot, none empty. *)
Definition tallies_wf (vec : list Tally) : Prop :=
  NoDup (ty_slot <$> vec) ∧ Forall (λ t, Tally_empty t = false) vec.

(** During a session only the session's tally may be empty, and the lazy
    iterator is right. *)
Definition lazy_ok (vec : list Tally) (l : LazyTally) : Prop :=
  NoDup (ty_slot <$> vec) ∧
  Forall (λ t, Tally_empty t = false ∨ ty_slot t = lz_slot l ∧ is_Some (lz_it l)) vec ∧
  (∀ i, lz_it l = Some i → i = find_slot (lz_slot l) vec).

Lemma find_slot_Some slot vec t : vec !! find_slot slot vec = Some t → ty_slot t = slot.
Proof.
  induction vec as [|u vec IH]; cbn; [done|]. destruct (Z.eqb_spec (ty_slot u) slot); [by intros [= ->]|done].
Qed.

Lemma find_slot_le slot vec : (find_slot slot vec ≤ length vec)%nat.
Proof. induction vec as [|u vec IH]; cbn; [lia|]. destruct (ty_slot u =? slot); lia. Qed.

Lemma find_slot_None slot vec : find_slot slot vec = length vec ↔ slot ∉ ty_slot <$> vec.
Proof.
  induction vec as [|u vec IH]; cbn; [set_solver|].
  destruct (Z.eqb_spec (ty_slot u) slot) as [He|He]; [set_solver|].
  rewrite not_elem_of_cons, <-IH. split; [intros [= H]; split; [done|lia]|intros [_ ->]; done].
Qed.

(** A tally's place is its slot's place. *)
Lemma find_slot_lookup vec i t : NoDup (ty_slot <$> vec) → vec !! i = Some t → find_slot (ty_slot t) vec = i.
Proof.
  revert i. induction vec as [|u vec IH]; cbn; intros i Hnd Hi; [done|].
  apply NoDup_cons in Hnd as [Hni Hnd]. destruct i as [|i]; cbn in Hi.
  - injection Hi as ->. by rewrite Z.eqb_refl.
  - destruct (Z.eqb_spec (ty_slot u) (ty_slot t)) as [He|]; [|by rewrite (IH i)].
    exfalso. apply Hni. rewrite He. apply list_elem_of_fmap. exists t. split; [done|].
    by eapply list_elem_of_lookup_2.
Qed.

(** Replacing the tally of [slot] by one of the same slot. *)
Lemma find_slot_insert slot vec i t u :
  vec !! i = Some u → ty_slot t = ty_slot u → find_slot slot (<[i := t]> vec) = find_slot slot vec.
Proof.
  revert i. induction vec as [|w vec IH]; intros [|i] Hi Ht; [done..| |].
  - injection Hi as ->. cbn. by rewrite Ht.
  - change (<[S i:=t]> (w :: vec)) with (w :: <[i:=t]> vec). cbn [find_slot]. by rewrite (IH i).
Qed.

Lemma slots_insert (vec : list Tally) i t u :
  vec !! i = Some u → ty_slot t = ty_slot u → ty_slot <$> <[i := t]> vec = ty_slot <$> vec.
Proof.
  intros Hi Ht. rewrite list_fmap_insert. apply list_insert_id. by rewrite list_lookup_fmap, Hi, Ht.
Qed.

Lemma tally_at_insert vec i t u s :
  NoDup (ty_slot <$> vec) → vec !! i = Some u → ty_slot t = ty_slot u →
  tally_at (<[i := t]> vec) s = if decide (s = ty_slot u) then Some t else tally_at vec s.
Proof.
  intros Hnd Hi Ht. unfold tally_at. rewrite (find_slot_insert _ _ _ _ u) by done.
  destruct (decide (s = ty_slot u)) as [->|Hne].
  - rewrite (find_slot_lookup vec i u) by done. apply list_lookup_insert_eq. by eapply lookup_lt_Some.
  - rewrite list_lookup_insert_ne; [done|]. intros ->. apply find_slot_Some in Hi. congruence.
Qed.

Lemma tally_at_snoc vec slot s :
  slot ∉ ty_slot <$> vec →
  tally_at (vec ++ [Tally_new slot]) s = if decide (s = slot) then Some (Tally_new slot) else tally_at vec s.
Proof.
  intros Hni. unfold tally_at. induction vec as [|u vec IH].
  - cbn. destruct (Z.eqb_spec slot s), (decide (s = slot)); try done; congruence.
  - rewrite fmap_cons in Hni. apply not_elem_of_cons in Hni as [Hne Hni]. cbn [app find_slot].
    destruct (Z.eqb_spec (ty_slot u) s) as [He|]; [|by apply IH]. by rewrite decide_False by congruence.
Qed.

Lemma tally_at_None vec slot : slot ∉ ty_slot <$> vec → tally_at vec slot = None.
Proof. intros H%find_slot_None. unfold tally_at. rewrite H. by apply lookup_ge_None_2. Qed.

(* ------------------------------------------------------------------ *)
(** * A session keeps the lists *)

Lemma lazy_new_ok vec slot : tallies_wf vec → lazy_ok vec (LazyTally_new slot).
Proof.
  intros [Hnd Hne]. split_and!; [done| |done]. eapply Forall_impl; [exact Hne|]. intros t Ht. by left.
Qed.

Lemma lazy_initialize_ok vec l :
  lazy_ok vec l → lazy_ok vec (LazyTally_initialize vec l) ∧
    lz_slot (LazyTally_initialize vec l) = lz_slot l ∧
    lz_it (LazyTally_initialize vec l) = Some (find_slot (lz_slot l) vec).
Proof.
  intros (Hnd & Hne & Hit). unfold LazyTally_initialize. destruct (lz_it l) as [i|] eqn:Hi.
  - split; [by split_and!; rewrite ?Hi|]. split; [done|]. by rewrite Hi, (Hit i).
  - split; [|done]. split_and!; [done| |by intros i [= <-]].
    eapply Forall_impl; [exact Hne|]. intros t [?|[? [? [=]]]]. by left.
Qed.

Lemma lazy_exists_spec vec l :
  lazy_ok vec l →
  let '(b, l') := LazyTally_exists vec l in
  lazy_ok vec l' ∧ lz_slot l' = lz_slot l ∧ lz_it l' = Some (find_slot (lz_slot l) vec) ∧
  b = bool_decide (lz_slot l ∈ ty_slot <$> vec).
Proof.
  intros Hok. unfold LazyTally_exists. destruct (lazy_initialize_ok vec l Hok) as (Hok' & Hs & Hi).
  split_and!; [done..|]. rewrite Hi.
  destruct (decide (lz_slot l ∈ ty_slot <$> vec)) as [Hin|Hni].
  - rewrite (bool_decide_eq_true_2 _ Hin). apply negb_true_iff, bool_decide_eq_false_2.
    intros [= He]. by apply find_slot_None in He.
  - rewrite (bool_decide_eq_false_2 _ Hni). apply negb_false_iff, bool_decide_eq_true_2.
    f_equal. by apply find_slot_None.
Qed.

(** [get()] finds or appends the slot's tally, and leaves the lists alone. *)
Lemma lazy_get_spec vec l :
  lazy_ok vec l →
  ∃ i v l' t, LazyTally_get vec l = (i, v, l') ∧ lazy_ok v l' ∧ lz_slot l' = lz_slot l ∧
    is_Some (lz_it l') ∧ v !! i = Some t ∧ ty_slot t = lz_slot l ∧
    t = default (Tally_new (lz_slot l)) (tally_at vec (lz_slot l)) ∧
    (∀ s, sends v s = sends vec s ∧ recvs v s = recvs vec s).
Proof.
  intros Hok. unfold LazyTally_get. destruct (lazy_initialize_ok vec l Hok) as (Hok' & Hs & Hi). rewrite Hi, Hs.
  cbn [default]. destruct (decide (find_slot (lz_slot l) vec = length vec)) as [He|Hne].
  - rewrite bool_decide_eq_true_2 by done. eexists _, _, _, _. split; [done|].
    pose proof (proj1 (find_slot_None _ _) He) as Hni.
    rewrite (tally_at_None vec (lz_slot l)) by done. destruct Hok as (Hnd & Hne & Hit).
    assert (∀ s, tally_at (vec ++ [Tally_new (lz_slot l)]) s =
      if decide (s = lz_slot l) then Some (Tally_new (lz_slot l)) else tally_at vec s) as Hat.
    { intros s. by apply tally_at_snoc. }
    split_and!; cbn [lz_slot lz_it]; try done.
    + split_and!.
      * rewrite fmap_app. apply NoDup_app. split; [done|]. split; [|apply NoDup_singleton]. set_solver.
      * apply Forall_app. split; [|apply Forall_singleton; right; split; [done|by eexists]].
        eapply Forall_impl; [exact Hne|]. intros t [?|[? ?]]; [by left|right; split; [done|by eexists]].
      * intros i [= <-]. specialize (Hat (lz_slot l)). rewrite decide_True in Hat by done.
        unfold tally_at in Hat. symmetry. cbn [lz_slot].
        apply (find_slot_lookup _ _ (Tally_new (lz_slot l))).
        -- rewrite fmap_app. apply NoDup_app. split; [done|]. split; [|apply NoDup_singleton]. set_solver.
        -- rewrite He. rewrite list_lookup_middle; done.
    + rewrite He. by rewrite list_lookup_middle.
    + done.
    + intros s. unfold sends, recvs. rewrite Hat. destruct (decide (s = lz_slot l)) as [->|]; [|done].
      by rewrite (tally_at_None vec (lz_slot l)).
  - rewrite bool_decide_eq_false_2 by done.
    destruct (lookup_lt_is_Some_2 vec (find_slot (lz_slot l) vec)) as [t Ht].
    { pose proof (find_slot_le (lz_slot l) vec). lia. }
    eexists _, _, _, t. split; [done|]. split_and!; try done.
    + by eapply find_slot_Some.
    + unfold tally_at. by rewrite Ht.
Qed.

(** Replacing the session's tally. *)
Lemma lazy_ok_insert vec l i t u :
  lazy_ok vec l → is_Some (lz_it l) → vec !! i = Some u → ty_slot u = lz_slot l → ty_slot t = lz_slot l →
  lazy_ok (<[i := t]> vec) l.
Proof.
  intros (Hnd & Hne & Hit) His Hi Hu Ht. split_and!.
  - rewrite (slots_insert vec i t u) by congruence. done.
  - apply Forall_insert; [done|]. by right.
  - intros j Hj. rewrite (find_slot_insert _ _ _ _ u) by congruence. by apply Hit.
Qed.

Definition upd (f : Z → list Z) (s : Z) (l : list Z) (s' : Z) : list Z := if decide (s' = s) then l else f s'.

(** What the session's tally is before the operation. *)
Definition tally_of (vec : list Tally) (slot : Z) : Tally := default (Tally_new slot) (tally_at vec slot).

Lemma tally_of_send vec slot : ty_send (tally_of vec slot) = sends vec slot.
Proof. unfold tally_of, sends. by destruct (tally_at vec slot). Qed.
Lemma tally_of_recv vec slot : ty_recv (tally_of vec slot) = recvs vec slot.
Proof. unfold tally_of, recvs. by destruct (tally_at vec slot). Qed.

Lemma lazy_insert_spec vec l i t u :
  lazy_ok vec l → is_Some (lz_it l) → vec !! i = Some u → ty_slot u = lz_slot l → ty_slot t = lz_slot l →
  lazy_ok (<[i := t]> vec) l ∧
  (∀ s, sends (<[i := t]> vec) s = upd (sends vec) (lz_slot l) (ty_send t) s ∧
        recvs (<[i := t]> vec) s = upd (recvs vec) (lz_slot l) (ty_recv t) s).
Proof.
  intros Hok His Hi Hu Ht. split; [by eapply lazy_ok_insert|]. intros s. destruct Hok as [Hnd _].
  unfold sends, recvs, upd. rewrite (tally_at_insert vec i t u s) by congruence. rewrite Hu.
  by destruct (decide (s = lz_slot l)).
Qed.

Lemma lazy_push_spec (f : Tally → Tally) vec l :
  (∀ t, ty_slot (f t) = ty_slot t) → lazy_ok vec l →
  let '(v, l') := lazy_push f vec l in
  let t := tally_of vec (lz_slot l) in
  lazy_ok v l' ∧ lz_slot l' = lz_slot l ∧
  (∀ s, sends v s = upd (sends vec) (lz_slot l) (ty_send (f t)) s ∧
        recvs v s = upd (recvs vec) (lz_slot l) (ty_recv (f t)) s).
Proof.
  intros Hf Hok. unfold lazy_push.
  destruct (lazy_get_spec vec l Hok) as (i & v & l' & t & -> & Hok' & Hs & His & Hi & Ht & Heq & Hsame).
  fold (tally_of vec (lz_slot l)) in Heq. rewrite Hi, <-Heq.
  destruct (lazy_insert_spec v l' i (f t) t) as [Hok2 Hup]; [done..|congruence|rewrite Hf; congruence|].
  split_and!; [done..|]. intros s. destruct (Hup s) as [-> ->]. rewrite Hs. unfold upd.
  destruct (decide (s = lz_slot l)); [done|apply Hsame].
Qed.

Lemma lazy_shift_spec (f : Tally → bool * Tally) vec l :
  (∀ t, ty_slot (f t).2 = ty_slot t) → (∀ s, f (Tally_new s) = (false, Tally_new s)) → lazy_ok vec l →
  let '(b, v, l') := lazy_shift f vec l in
  let t := tally_of vec (lz_slot l) in
  lazy_ok v l' ∧ lz_slot l' = lz_slot l ∧ b = (f t).1 ∧
  (∀ s, sends v s = upd (sends vec) (lz_slot l) (ty_send (f t).2) s ∧
        recvs v s = upd (recvs vec) (lz_slot l) (ty_recv (f t).2) s).
Proof.
  intros Hf Hnew Hok. unfold lazy_shift. pose proof (lazy_exists_spec vec l Hok) as Hex.
  destruct (LazyTally_exists vec l) as [ex l1]. destruct Hex as (Hok1 & Hs1 & Hi1 & ->).
  case_bool_decide as Hin.
  - destruct (lazy_get_spec vec l1 Hok1) as (i & v & l' & t & -> & Hok' & Hs & His & Hi & Ht & Heq & Hsame).
    rewrite Hs1 in *. fold (tally_of vec (lz_slot l)) in Heq. rewrite Hi, <-Heq.
    pose proof (Hf t) as Hft. destruct (f t) as [b t'] eqn:Hb. cbn [fst snd] in *.
    destruct (lazy_insert_spec v l' i t' t) as [Hok2 Hup]; [done..|congruence|congruence|].
    split_and!; [done..|]. intros s. destruct (Hup s) as [-> ->]. rewrite Hs. unfold upd.
    destruct (decide (s = lz_slot l)); [done|apply Hsame].
  - unfold tally_of, sends, recvs, upd. rewrite (tally_at_None vec (lz_slot l)) by done.
    cbn [default]. rewrite Hnew. cbn [fst snd]. split_and!; [done..|].
    intros s. destruct (decide (s = lz_slot l)) as [->|]; [|done]. by rewrite (tally_at_None vec (lz_slot l)).
Qed.

(** The destructor removes the session's tally if it is empty, which the
    lists do not show. *)
Lemma find_slot_delete vec i t s :
  NoDup (ty_slot <$> vec) → vec !! i = Some t → Tally_empty t = true →
  sends (delete i vec) s = sends vec s ∧ recvs (delete i vec) s = recvs vec s.
Proof.
  unfold sends, recvs, tally_at. revert i. induction vec as [|u vec IH]; intros i Hnd Hi Ht; [done|].
  apply NoDup_cons in Hnd as [Hni Hnd]. destruct i as [|i].
  - injection Hi as ->. change (delete O (t :: vec)) with vec. cbn [find_slot].
    destruct (Z.eqb_spec (ty_slot t) s) as [He|]; [|done].
    assert (s ∉ ty_slot <$> vec) as Hs by (by rewrite <-He).
    rewrite (proj2 (find_slot_None s vec) Hs), lookup_ge_None_2 by done. cbn.
    unfold Tally_empty in Ht. destruct (ty_send t), (ty_recv t); done.
  - change (delete (S i) (u :: vec)) with (u :: delete i vec). cbn [find_slot].
    destruct (ty_slot u =? s); [done|]. by apply IH.
Qed.

Lemma lazy_destroy_spec vec l :
  lazy_ok vec l →
  tallies_wf (LazyTally_destroy vec l) ∧
  (∀ s, sends (LazyTally_destroy vec l) s = sends vec s ∧ recvs (LazyTally_destroy vec l) s = recvs vec s).
Proof.
  intros (Hnd & Hne & Hit). unfold LazyTally_destroy. destruct (lz_it l) as [i|] eqn:Hi.
  - specialize (Hit i eq_refl). destruct (vec !! i) as [t|] eqn:Ht.
    + assert (ty_slot t = lz_slot l) as Hs by (rewrite Hit in Ht; by eapply find_slot_Some).
      assert (∀ j u, vec !! j = Some u → j ≠ i → Tally_empty u = false) as Hothers.
      { intros j u Hj Hji. rewrite Forall_lookup in Hne. destruct (Hne j u Hj) as [?|[Hu _]]; [done|].
        exfalso. apply Hji. rewrite Hit, <-Hu. symmetry. by apply find_slot_lookup. }
      destruct (Tally_empty t) eqn:He.
      * split; [|intros s; by apply (find_slot_delete vec i t)]. split.
        -- rewrite list_fmap_delete. eapply sublist_NoDup; [exact Hnd|apply sublist_delete].
        -- apply Forall_lookup. intros j u Hj.
           destruct (decide (j < i)%nat).
           ++ rewrite list_lookup_delete_lt in Hj by done. eapply Hothers; [exact Hj|lia].
           ++ rewrite list_lookup_delete_ge in Hj by lia. eapply Hothers; [exact Hj|lia].
      * split; [|done]. split; [done|]. apply Forall_lookup. intros j u Hj.
        destruct (decide (j = i)) as [->|]; [congruence|by eapply Hothers].
    + split; [|done]. split; [done|]. rewrite Forall_lookup in Hne |- *. intros j u Hj.
      destruct (Hne j u Hj) as [?|[Hu _]]; [done|]. exfalso.
      rewrite Hit, <-Hu, (find_slot_lookup vec j u) in Ht by done. congruence.
  - split; [|done]. split; [done|]. eapply Forall_impl; [exact Hne|]. by intros t [?|[? [? [=]]]].
Qed.

(* ------------------------------------------------------------------ *)
(** * The mutator implements ordered lists of ranks *)

Inductive MutOp := PushRecv | PushSend | ShiftRecv | ShiftSend | PushExpected | ShiftExpected.

(** One operation; a push returns nothing, here [true]. *)
Definition mut_step (op : MutOp) (m : Mutator) : bool * Mutator :=
  match op with
  | PushRecv => (true, pushRemotePendingRecv m)
  | PushSend => (true, pushRemotePendingSend m)
  | ShiftRecv => shiftRemotePendingRecv m
  | ShiftSend => shiftRemotePendingSend m
  | PushExpected => (true, pushExpectedSendNotification m)
  | ShiftExpected => shiftExpectedSendNotification m
  end.

Fixpoint mut_run (ops : list MutOp) (m : Mutator) : list bool * Mutator :=
  match ops with
  | [] => ([], m)
  | op :: ops => let '(b, m) := mut_step op m in let '(bs, m) := mut_run ops m in (b :: bs, m)
  end.

(** A whole session against the context's two vectors. *)
Definition mut_session (ops : list MutOp) (slot rank : Z) (pending expected : list Tally)
    : list bool * list Tally * list Tally :=
  let '(bs, m) := mut_run ops (Mutator_new pending expected slot rank) in
  let '(p, e) := Mutator_destroy m in (bs, p, e).

(** The specification: the slot's pending sends, pending receives and
    expected notifications, each an ordered list of ranks. *)
Record SlotSpec := mkSpec { sp_sends : list Z; sp_recvs : list Z; sp_expected : list Z }.
#[export] Instance SlotSpec_eta : Eta SlotSpec := λ s, mkSpec (sp_sends s) (sp_recvs s) (sp_expected s).

(** The list without the element at the first place where [rank] is. *)
Definition remove_first (rank : Z) (l : list Z) : list Z :=
  match list_find (λ r, r = rank) l with Some (i, _) => delete i l | None => l end.

Definition spec_step (rank : Z) (op : MutOp) (s : SlotSpec) : bool * SlotSpec :=
  let shift (get : SlotSpec → list Z) (put : list Z → SlotSpec) :=
    (bool_decide (rank ∈ get s), put (remove_first rank (get s))) in
  match op with
  | PushRecv => (true, s <| sp_recvs ::= λ l, l ++ [rank] |>)
  | PushSend => (true, s <| sp_sends ::= λ l, l ++ [rank] |>)
  | PushExpected => (true, s <| sp_expected ::= λ l, l ++ [rank] |>)
  | ShiftRecv => shift sp_recvs (λ l, s <| sp_recvs := l |>)
  | ShiftSend => shift sp_sends (λ l, s <| sp_sends := l |>)
  | ShiftExpected => shift sp_expected (λ l, s <| sp_expected := l |>)
  end.

Fixpoint spec_run (rank : Z) (ops : list MutOp) (s : SlotSpec) : list bool * SlotSpec :=
  match ops with
  | [] => ([], s)
  | op :: ops => let '(b, s) := spec_step rank op s in let '(bs, s) := spec_run rank ops s in (b :: bs, s)
  end.

(** What two vectors say of a slot. *)
Definition spec_of (pending expected : list Tally) (slot : Z) : SlotSpec :=
  mkSpec (sends pending slot) (recvs pending slot) (sends expected slot).

(** [shift] removes one occurrence, the first, if there is any. *)
Lemma List_shift_spec rank l :
  (List_shift rank l).1 = bool_decide (rank ∈ l) ∧
  (rank ∉ l → (List_shift rank l).2 = l) ∧
  (∀ l1 l2, l = l1 ++ rank :: l2 → rank ∉ l1 → (List_shift rank l).2 = l1 ++ l2).
Proof.
  induction l as [|r l (IH1 & IH2 & IH3)]; cbn.
  - split; [by rewrite bool_decide_eq_false_2 by set_solver|]. split; [done|]. by intros [|] ? [=].
  - destruct (Z.eqb_spec r rank) as [->|Hne]; cbn.
    + split; [by rewrite bool_decide_eq_true_2 by set_solver|]. split; [set_solver|].
      intros [|x l1] l2 Heq Hni; simplify_eq/=; [done|set_solver].
    + destruct (List_shift rank l) as [b l']. cbn in *. split_and!.
      * rewrite IH1. apply bool_decide_ext. rewrite elem_of_cons. naive_solver.
      * intros Hni. f_equal. apply IH2. set_solver.
      * intros [|x l1] l2 Heq Hni; simplify_eq/=. f_equal. apply IH3; [done|set_solver].
Qed.

Lemma remove_first_in rank l : rank ∈ l → ∃ l1 l2, l = l1 ++ rank :: l2 ∧ (rank ∉ l1) ∧ remove_first rank l = l1 ++ l2.
Proof.
  unfold remove_first. intros Hin. destruct (list_find _ l) as [[i x]|] eqn:Hf.
  - apply list_find_Some in Hf as (Hi & -> & Hleast). exists (take i l), (drop (S i) l). rewrite delete_take_drop.
    split; [symmetry; by apply take_drop_middle|]. split; [|done].
    intros (j & Hj)%list_elem_of_lookup. apply lookup_take_Some in Hj as [Hj Hji]. by apply (Hleast j rank).
  - apply list_find_None in Hf. rewrite Forall_forall in Hf. by destruct (Hf rank).
Qed.
Lemma remove_first_notin rank l : rank ∉ l → remove_first rank l = l.
Proof.
  unfold remove_first. intros Hin. destruct (list_find _ l) as [[i x]|] eqn:Hf; [|done].
  apply list_find_Some in Hf as (Hi & -> & _). by apply list_elem_of_lookup_2 in Hi.
Qed.

Lemma List_shift_pair rank l : List_shift rank l = (bool_decide (rank ∈ l), remove_first rank l).
Proof.
  destruct (List_shift_spec rank l) as (H1 & H2 & H3). rewrite (surjective_pairing (List_shift rank l)), H1. f_equal.
  destruct (decide (rank ∈ l)) as [Hin|Hni]; [|by rewrite remove_first_notin, H2].
  destruct (remove_first_in rank l Hin) as (l1 & l2 & Hl & Hni & ->). by apply H3.
Qed.

(** During a session of [slot] that started with vectors [p0] and [e0]. *)
Record session_ok (p0 e0 : list Tally) (slot rank : Z) (s : SlotSpec) (m : Mutator) : Prop := {
  so_rank : mt_rank m = rank;
  so_pslot : lz_slot (mt_pending m) = slot;
  so_eslot : lz_slot (mt_expected m) = slot;
  so_pok : lazy_ok (mt_pendingOperations m) (mt_pending m);
  so_eok : lazy_ok (mt_expectedNotifications m) (mt_expected m);
  so_here : spec_of (mt_pendingOperations m) (mt_expectedNotifications m) slot = s;
  so_there : ∀ s', s' ≠ slot →
    spec_of (mt_pendingOperations m) (mt_expectedNotifications m) s' = spec_of p0 e0 s' ∧
    recvs (mt_expectedNotifications m) s' = recvs e0 s';
}.

Lemma upd_eq f s l : upd f s l s = l.
Proof. unfold upd. by rewrite decide_True. Qed.
Lemma upd_ne f s l s' : s' ≠ s → upd f s l s' = f s'.
Proof. intros. unfold upd. by rewrite decide_False. Qed.

(** An operation on the pending tally, and one on the expected tally. *)
Lemma session_pending p0 e0 slot rank s m v l snd rcv :
  session_ok p0 e0 slot rank s m → lazy_ok v l → lz_slot l = lz_slot (mt_pending m) →
  (∀ s', sends v s' = upd (sends (mt_pendingOperations m)) (lz_slot (mt_pending m)) snd s' ∧
         recvs v s' = upd (recvs (mt_pendingOperations m)) (lz_slot (mt_pending m)) rcv s') →
  session_ok p0 e0 slot rank (mkSpec snd rcv (sp_expected s))
    (m <| mt_pendingOperations := v |> <| mt_pending := l |>).
Proof.
  intros [] Hok Hl Hv. rewrite so_pslot0 in *. split; try done.
  - change (mkSpec (sends v slot) (recvs v slot) (sends (mt_expectedNotifications m) slot) =
      mkSpec snd rcv (sp_expected s)). destruct (Hv slot) as [-> ->]. rewrite !upd_eq. by rewrite <-so_here0.
  - intros s' Hs'. destruct (so_there0 s' Hs') as [Ht Hr]. split; [|done]. rewrite <-Ht.
    change (mkSpec (sends v s') (recvs v s') (sends (mt_expectedNotifications m) s') =
      mkSpec (sends (mt_pendingOperations m) s') (recvs (mt_pendingOperations m) s')
        (sends (mt_expectedNotifications m) s')).
    destruct (Hv s') as [-> ->]. by rewrite !upd_ne.
Qed.

Lemma session_expected p0 e0 slot rank s m v l snd rcv :
  session_ok p0 e0 slot rank s m → lazy_ok v l → lz_slot l = lz_slot (mt_expected m) →
  (∀ s', sends v s' = upd (sends (mt_expectedNotifications m)) (lz_slot (mt_expected m)) snd s' ∧
         recvs v s' = upd (recvs (mt_expectedNotifications m)) (lz_slot (mt_expected m)) rcv s') →
  session_ok p0 e0 slot rank (s <| sp_expected := snd |>)
    (m <| mt_expectedNotifications := v |> <| mt_expected := l |>).
Proof.
  intros [] Hok Hl Hv. rewrite so_eslot0 in *. split; try done.
  - change (mkSpec (sends (mt_pendingOperations m) slot) (recvs (mt_pendingOperations m) slot) (sends v slot) =
      mkSpec (sp_sends s) (sp_recvs s) snd). destruct (Hv slot) as [-> _]. rewrite !upd_eq. by rewrite <-so_here0.
  - intros s' Hs'. destruct (so_there0 s' Hs') as [Ht Hr]. destruct (Hv s') as [Hv1 Hv2].
    rewrite upd_ne in Hv1, Hv2 by done. split; [|by etrans; [exact Hv2|]]. rewrite <-Ht.
    change (mkSpec (sends (mt_pendingOperations m) s') (recvs (mt_pendingOperations m) s') (sends v s') =
      mkSpec (sends (mt_pendingOperations m) s') (recvs (mt_pendingOperations m) s')
        (sends (mt_expectedNotifications m) s')). by rewrite Hv1.
Qed.

Lemma Tally_shiftSend_eq rank t :
  Tally_shiftSend rank t = (bool_decide (rank ∈ ty_send t), t <| ty_send := remove_first rank (ty_send t) |>).
Proof. unfold Tally_shiftSend. by rewrite List_shift_pair. Qed.
Lemma Tally_shiftRecv_eq rank t :
  Tally_shiftRecv rank t = (bool_decide (rank ∈ ty_recv t), t <| ty_recv := remove_first rank (ty_recv t) |>).
Proof. unfold Tally_shiftRecv. by rewrite List_shift_pair. Qed.

Lemma shiftSend_slot rank t : ty_slot (Tally_shiftSend rank t).2 = ty_slot t.
Proof. by rewrite Tally_shiftSend_eq. Qed.
Lemma shiftRecv_slot rank t : ty_slot (Tally_shiftRecv rank t).2 = ty_slot t.
Proof. by rewrite Tally_shiftRecv_eq. Qed.

(** The session's new lists are what the specification computes. *)
Ltac session_lists :=
  lazymatch goal with Hps : lz_slot (mt_pending ?m) = ?slot |- _ =>
    unfold spec_of;
    rewrite <-?(tally_of_recv (mt_pendingOperations m) slot);
    rewrite <-?(tally_of_send (mt_pendingOperations m) slot);
    rewrite <-?(tally_of_send (mt_expectedNotifications m) slot)
  end; reflexivity.

Lemma session_step p0 e0 slot rank s m op :
  session_ok p0 e0 slot rank s m →
  let '(b, m') := mut_step op m in let '(b', s') := spec_step rank op s in
  b = b' ∧ session_ok p0 e0 slot rank s' m'.
Proof.
  intros Hso. destruct (Hso) as [Hr Hps Hes Hp He <- Hthere].
  destruct op; cbn [mut_step spec_step].
  - pose proof (lazy_push_spec (Tally_pushRecv (mt_rank m)) _ _ (λ _, eq_refl) Hp) as H.
    unfold pushRemotePendingRecv. destruct (lazy_push _ _ _) as [v l]. destruct H as (H1 & H2 & H3).
    split; [done|]. pose proof (session_pending _ _ _ _ _ _ _ _ _ _ Hso H1 H2 H3) as Hn.
    rewrite Hps, Hr in Hn. refine (eq_ind _ (λ s, session_ok _ _ _ _ s _) Hn _ _). session_lists.
  - pose proof (lazy_push_spec (Tally_pushSend (mt_rank m)) _ _ (λ _, eq_refl) Hp) as H.
    unfold pushRemotePendingSend. destruct (lazy_push _ _ _) as [v l]. destruct H as (H1 & H2 & H3).
    split; [done|]. pose proof (session_pending _ _ _ _ _ _ _ _ _ _ Hso H1 H2 H3) as Hn.
    rewrite Hps, Hr in Hn. refine (eq_ind _ (λ s, session_ok _ _ _ _ s _) Hn _ _). session_lists.
  - pose proof (lazy_shift_spec (Tally_shiftRecv (mt_rank m)) _ _ (shiftRecv_slot _) (λ _, eq_refl) Hp) as H.
    unfold shiftRemotePendingRecv. destruct (lazy_shift _ _ _) as [[b v] l]. destruct H as (H1 & H2 & Hb & H3).
    pose proof (session_pending _ _ _ _ _ _ _ _ _ _ Hso H1 H2 H3) as Hn.
    rewrite Hps, Hr, Tally_shiftRecv_eq in Hn, Hb. split; [rewrite Hb; session_lists|].
    refine (eq_ind _ (λ s, session_ok _ _ _ _ s _) Hn _ _). session_lists.
  - pose proof (lazy_shift_spec (Tally_shiftSend (mt_rank m)) _ _ (shiftSend_slot _) (λ _, eq_refl) Hp) as H.
    unfold shiftRemotePendingSend. destruct (lazy_shift _ _ _) as [[b v] l]. destruct H as (H1 & H2 & Hb & H3).
    pose proof (session_pending _ _ _ _ _ _ _ _ _ _ Hso H1 H2 H3) as Hn.
    rewrite Hps, Hr, Tally_shiftSend_eq in Hn, Hb. split; [rewrite Hb; session_lists|].
    refine (eq_ind _ (λ s, session_ok _ _ _ _ s _) Hn _ _). session_lists.
  - pose proof (lazy_push_spec (Tally_pushSend (mt_rank m)) _ _ (λ _, eq_refl) He) as H.
    unfold pushExpectedSendNotification. destruct (lazy_push _ _ _) as [v l]. destruct H as (H1 & H2 & H3).
    split; [done|]. pose proof (session_expected _ _ _ _ _ _ _ _ _ _ Hso H1 H2 H3) as Hn.
    rewrite Hes, Hr in Hn. refine (eq_ind _ (λ s, session_ok _ _ _ _ s _) Hn _ _). session_lists.
  - pose proof (lazy_shift_spec (Tally_shiftSend (mt_rank m)) _ _ (shiftSend_slot _) (λ _, eq_refl) He) as H.
    unfold shiftExpectedSendNotification. destruct (lazy_shift _ _ _) as [[b v] l]. destruct H as (H1 & H2 & Hb & H3).
    pose proof (session_expected _ _ _ _ _ _ _ _ _ _ Hso H1 H2 H3) as Hn.
    rewrite Hes, Hr, Tally_shiftSend_eq in Hn, Hb. split; [rewrite Hb; session_lists|].
    refine (eq_ind _ (λ s, session_ok _ _ _ _ s _) Hn _ _). session_lists.
Qed.

Lemma session_run p0 e0 slot rank ops : ∀ s m,
  session_ok p0 e0 slot rank s m →
  let '(bs, m') := mut_run ops m in let '(bs', s') := spec_run rank ops s in
  bs = bs' ∧ session_ok p0 e0 slot rank s' m'.
Proof.
  induction ops as [|op ops IH]; intros s m Hso; cbn; [done|].
  pose proof (session_step _ _ _ _ _ _ op Hso) as H. destruct (mut_step op m) as [b m'].
  destruct (spec_step rank op s) as [b' s']. destruct H as [-> Hso'].
  specialize (IH s' m' Hso'). destruct (mut_run ops m') as [bs m2]. destruct (spec_run rank ops s') as [bs' s2].
  destruct IH as [-> ?]. done.
Qed.

Lemma session_new p e slot rank :
  tallies_wf p → tallies_wf e →
  session_ok p e slot rank (spec_of p e slot) (Mutator_new p e slot rank).
Proof. intros Hp He. split; try done; by apply lazy_new_ok. Qed.

Lemma mut_session_lemma ops slot rank p e :
  tallies_wf p → tallies_wf e →
  let '(bs, p', e') := mut_session ops slot rank p e in
  let '(bs', s') := spec_run rank ops (spec_of p e slot) in
  bs = bs' ∧ tallies_wf p' ∧ tallies_wf e' ∧ spec_of p' e' slot = s' ∧
  (∀ s, s ≠ slot → spec_of p' e' s = spec_of p e s).
Proof.
  intros Hp He. unfold mut_session.
  pose proof (session_run p e slot rank ops _ _ (session_new p e slot rank Hp He)) as H.
  destruct (mut_run _ _) as [bs m]. destruct (spec_run _ _ _) as [bs' s']. destruct H as [-> Hso].
  unfold Mutator_destroy. destruct Hso.
  destruct (lazy_destroy_spec _ _ so_pok0) as [Hwp Hlp]. destruct (lazy_destroy_spec _ _ so_eok0) as [Hwe Hle].
  assert (∀ s, spec_of (LazyTally_destroy (mt_pendingOperations m) (mt_pending m))
    (LazyTally_destroy (mt_expectedNotifications m) (mt_expected m)) s =
    spec_of (mt_pendingOperations m) (mt_expectedNotifications m) s) as Hsame.
  { intros s. unfold spec_of. destruct (Hlp s) as [-> ->]. by destruct (Hle s) as [-> _]. }
  split_and!; try done; [by rewrite Hsame|]. intros s Hs. rewrite Hsame. by apply so_there0.
Qed.

(** C38: a mutator session, whatever its operations, implements the ordered lists
    of ranks: pushes append, a shift deletes the rank at the first place where
    it is found and reports whether there was one; the other slots are untouched, and the
    lazily created tallies leave the vectors with one non-empty tally per
    slot. *)
Theorem mut_session_spec (ops : list MutOp) (slot rank : Z) (p e : list Tally) :
  tallies_wf p → tallies_wf e →
  let '(bs, p', e') := mut_session ops slot rank p e in
  let '(bs', s') := spec_run rank ops (spec_of p e slot) in
  bs = bs' ∧ tallies_wf p' ∧ tallies_wf e' ∧ spec_of p' e' slot = s' ∧
  (∀ s, s ≠ slot → spec_of p' e' s = spec_of p e s).
Proof. apply mut_session_lemma. Qed.

(* ------------------------------------------------------------------ *)
(** * The theorem at concrete inputs *)

Lemma mut_session_spec_witness :
  mut_session [ShiftExpected; PushSend; ShiftSend] 5 2 [mkTally 5 [2; 1; 2] []] [] =
    ([false; true; true], [mkTally 5 [1; 2; 2] []], []) ∧
  spec_of [mkTally 5 [1; 2; 2] []] [] 5 = mkSpec [1; 2; 2] [] [].
Proof.
  destruct (mut_session_spec [ShiftExpected; PushSend; ShiftSend] 5 2 [mkTally 5 [2; 1; 2] []] [])
    as (_ & _ & _ & H & _).
  - split; [apply NoDup_singleton|by apply Forall_singleton].
  - split; [apply NoDup_nil_2|done].
  - split; [vm_compute; reflexivity|exact H].
Defined.
