(* ===== verification/UBuffer.v ===== *)
(** Unbound buffers: [src/gloo/transport/tcp/unbound_buffer.cc] (the dmludp
    transport has the same file). Completions are counted by the device
    thread and consumed by waiting user threads; what other threads do while
    a wait sleeps is an explicit sequence of steps. *)
From S2P Require Import Prelude.

Definition kUnspecifiedByteCount : Z := 2 ^ 64 - 1.

Record UnboundBuffer := mkUBuf {
  ub_ptr : Z;
  ub_size : Z;
  ub_abortWaitRecv : bool;
  ub_abortWaitSend : bool;
  ub_recvCompletions : Z;
  ub_recvRank : Z;
  ub_sendCompletions : Z;
  ub_sendRank : Z;
  ub_ex : option exn;
}.
#[export] Instance UnboundBuffer_eta : Eta UnboundBuffer := λ b,
  mkUBuf (ub_ptr b) (ub_size b) (ub_abortWaitRecv b) (ub_abortWaitSend b) (ub_recvCompletions b)
    (ub_recvRank b) (ub_sendCompletions b) (ub_sendRank b) (ub_ex b).

Definition UnboundBuffer_new (ptr size : Z) : UnboundBuffer :=
  mkUBuf ptr size false false 0 (-1) 0 (-1) None.

Definition handleRecvCompletion (rank : Z) (b : UnboundBuffer) : UnboundBuffer :=
  b <| ub_recvCompletions ::= Z.succ |> <| ub_recvRank := rank |>.
Definition handleSendCompletion (rank : Z) (b : UnboundBuffer) : UnboundBuffer :=
  b <| ub_sendCompletions ::= Z.succ |> <| ub_sendRank := rank |>.
Definition abortWaitRecv (b : UnboundBuffer) : UnboundBuffer := b <| ub_abortWaitRecv := true |>.
Definition abortWaitSend (b : UnboundBuffer) : UnboundBuffer := b <| ub_abortWaitSend := true |>.
Definition UnboundBuffer_signalException (e : exn) (b : UnboundBuffer) : UnboundBuffer := b <| ub_ex := Some e |>.

(** [throwIfException()] *)
Definition UnboundBuffer_throwIfException (b : UnboundBuffer) : outcome unit :=
  match ub_ex b with Some e => Exn e | None => Val () end.

(** [cv.wait_for(lock, timeout, pred)]: [pred] is tried at once and after
    every step of another thread; [env] is the steps that happen before the
    timeout. [false]: timed out. *)
Fixpoint wait_for (pred : UnboundBuffer → outcome bool) (env : list (UnboundBuffer → UnboundBuffer))
    : M UnboundBuffer bool := λ b,
  match pred b with
  | Val true => (Val true, b)
  | Val false =>
      match env with
      | [] => (Val false, b)
      | f :: env => wait_for pred env (f b)
      end
  | Exn e => (Exn e, b)
  | UB => (UB, b)
  end.

(** [waitRecv(&rank, timeout)]. On a timeout the context signals every pair
    before the exception is thrown; that is the caller's [IoException]. *)
Definition waitRecv (env : list (UnboundBuffer → UnboundBuffer)) : M UnboundBuffer (option Z) :=
  b ← get;
  _ ← (if ub_recvCompletions b =? 0 then
         done ← wait_for (λ b, _ ← UnboundBuffer_throwIfException b;
                               Val (ub_abortWaitRecv b || (0 <? ub_recvCompletions b))) env;
         if (done : bool) then mret () else throw IoException
       else mret ());
  b ← get;
  if ub_abortWaitRecv b then _ ← modify (λ b, b <| ub_abortWaitRecv := false |>); mret None
  else
    _ ← modify (λ b, b <| ub_recvCompletions ::= Z.pred |>);
    mret (Some (ub_recvRank b)).

Definition waitSend (env : list (UnboundBuffer → UnboundBuffer)) : M UnboundBuffer (option Z) :=
  b ← get;
  _ ← (if ub_sendCompletions b =? 0 then
         done ← wait_for (λ b, _ ← UnboundBuffer_throwIfException b;
                               Val (ub_abortWaitSend b || (0 <? ub_sendCompletions b))) env;
         if (done : bool) then mret () else throw IoException
       else mret ());
  b ← get;
  if ub_abortWaitSend b then _ ← modify (λ b, b <| ub_abortWaitSend := false |>); mret None
  else
    _ ← modify (λ b, b <| ub_sendCompletions ::= Z.pred |>);
    mret (Some (ub_sendRank b)).

(** The byte count of [send] and [recv]: the rest of the buffer by default. *)
Definition default_nbytes (offset nbytes : Z) (b : UnboundBuffer) : outcome Z :=
  if nbytes =? kUnspecifiedByteCount then
    _ ← enforce (offset <=? ub_size b); Val (ub_size b - offset)
  else Val nbytes.

(** The overload that receives from any rank demands [offset < size]. *)
Definition default_nbytes_any (offset nbytes : Z) (b : UnboundBuffer) : outcome Z :=
  if nbytes =? kUnspecifiedByteCount then
    _ ← enforce (offset <? ub_size b); Val (ub_size b - offset)
  else Val nbytes.

(* ------------------------------------------------------------------ *)
(** * Waiting *)

(** The steps other threads take on a buffer. *)
Inductive UbStep := SRecv (rank : Z) | SSend (rank : Z) | SAbortRecv | SAbortSend | SSignal (e : exn).
Definition ub_step (s : UbStep) : UnboundBuffer → UnboundBuffer :=
  match s with
  | SRecv r => handleRecvCompletion r
  | SSend r => handleSendCompletion r
  | SAbortRecv => abortWaitRecv
  | SAbortSend => abortWaitSend
  | SSignal e => UnboundBuffer_signalException e
  end.

(** The first step that ends a wait for a receive. *)
Fixpoint recv_wakeup (env : list UbStep) : option UbStep :=
  match env with
  | [] => None
  | SRecv r :: _ => Some (SRecv r)
  | SAbortRecv :: _ => Some SAbortRecv
  | SSignal e :: _ => Some (SSignal e)
  | _ :: env => recv_wakeup env
  end.

Definition idle_recv (b : UnboundBuffer) : Prop :=
  ub_recvCompletions b = 0 ∧ ub_abortWaitRecv b = false ∧ ub_ex b = None.

Lemma wait_recv_wakeup env : ∀ b,
  idle_recv b →
  let pred b := _ ← UnboundBuffer_throwIfException b;
                Val (ub_abortWaitRecv b || (0 <? ub_recvCompletions b)) in
  let '(o, b') := wait_for pred (map ub_step env) b in
  match recv_wakeup env with
  | None => o = Val false ∧ idle_recv b'
  | Some (SRecv r) => o = Val true ∧ ub_recvCompletions b' = 1 ∧ ub_recvRank b' = r ∧ ub_abortWaitRecv b' = false
  | Some SAbortRecv => o = Val true ∧ ub_recvCompletions b' = 0 ∧ ub_abortWaitRecv b' = true
  | Some (SSignal e) => o = Exn e
  | Some _ => False
  end.
Proof.
  induction env as [|s env IH]; intros b (Hc & Ha & He); cbn zeta.
  - cbn. unfold UnboundBuffer_throwIfException. rewrite He. cbn. rewrite Ha, Hc. done.
  - cbn [map wait_for recv_wakeup]. unfold UnboundBuffer_throwIfException at 1. rewrite He. cbn [mbind outcome_bind].
    rewrite Ha, Hc. change (false || (0 <? 0)) with false. cbv iota.
    assert (∀ l b, UnboundBuffer_throwIfException b = Val () →
      ub_abortWaitRecv b || (0 <? ub_recvCompletions b) = true →
      wait_for (λ b, _ ← UnboundBuffer_throwIfException b;
                     Val (ub_abortWaitRecv b || (0 <? ub_recvCompletions b))) l b = (Val true, b)) as Hdone.
    { intros l c H1 H2. destruct l; cbn [wait_for]; rewrite H1; cbn [mbind outcome_bind]; by rewrite H2. }
    destruct s as [r|r| | |e]; cbn [ub_step].
    + rewrite Hdone; [| |].
      * cbn. by rewrite Hc.
      * unfold UnboundBuffer_throwIfException. cbn. by rewrite He.
      * cbn. by rewrite Hc, orb_true_r.
    + apply IH. done.
    + rewrite Hdone; [done| |done]. unfold UnboundBuffer_throwIfException. cbn. by rewrite He.
    + apply IH. done.
    + destruct (map ub_step env); cbn; done.
Qed.

(** waiting for a receive on an idle buffer returns at the first completion
    with its rank and consumes it, returns without a rank at the first abort
    and leaves the buffer ready for the next wait, throws the exception that
    is signalled first, and throws [IoException] if nothing happens before the
    timeout. *)
Theorem waitRecv_spec (env : list UbStep) (b : UnboundBuffer) :
  idle_recv b →
  let '(o, b') := waitRecv (map ub_step env) b in
  match recv_wakeup env with
  | None => o = Exn IoException ∧ idle_recv b'
  | Some (SRecv r) => o = Val (Some r) ∧ ub_recvCompletions b' = 0 ∧ ub_abortWaitRecv b' = false
  | Some SAbortRecv => o = Val None ∧ ub_recvCompletions b' = 0 ∧ ub_abortWaitRecv b' = false
  | Some (SSignal e) => o = Exn e
  | Some _ => False
  end.
Proof.
  intros Hidle. pose proof (wait_recv_wakeup env b Hidle) as Hw. destruct (Hidle) as (Hc & _ & _). cbv zeta in Hw.
  unfold waitRecv. erewrite M_bind_val by reflexivity. rewrite Hc. change (0 =? 0) with true. cbv iota.
  destruct (wait_for _ _ b) as [o b1] eqn:Hwf.
  destruct (recv_wakeup env) as [[r|r| | |e]|]; try done.
  - destruct Hw as (-> & H1 & H2 & H3).
    erewrite M_bind_val; [|by erewrite M_bind_val by exact Hwf]. erewrite M_bind_val by reflexivity.
    rewrite H3. cbv iota. erewrite M_bind_val by reflexivity. cbn. by rewrite H1, H2, H3.
  - destruct Hw as (-> & H1 & H2).
    erewrite M_bind_val; [|by erewrite M_bind_val by exact Hwf]. erewrite M_bind_val by reflexivity.
    rewrite H2. cbv iota. erewrite M_bind_val by reflexivity. cbn. by rewrite H1.
  - rewrite Hw in Hwf. by erewrite M_bind_exn; [|by apply M_bind_exn, Hwf].
  - destruct Hw as (-> & H1). erewrite M_bind_exn; [|by erewrite M_bind_val by exact Hwf]. done.
Qed.

Lemma waitRecv_spec_witness :
  fst (waitRecv (map ub_step [SSend 3; SRecv 2; SSignal IoException]) (UnboundBuffer_new 0 8)) = Val (Some 2).
Proof.
  pose proof (waitRecv_spec [SSend 3; SRecv 2; SSignal IoException] (UnboundBuffer_new 0 8) ltac:(done)) as H.
  revert H. destruct (waitRecv _ _) as [o b']. cbn [recv_wakeup fst]. by intros [-> _].
Defined.
