(* ===== verification/PairOps.v ===== *)
(** The operations of a transport pair on unbound buffers:
    [src/gloo/transport/tcp/pair.cc], [tcp/context.cc] (the dmludp transport
    has the same functions). The state of a process is its context: tallies,
    posted recv-from-any operations, and a pair per peer. Whole messages are
    the unit here: [pr_wire] holds what was handed to [sendAsyncMode] and has
    not been read by the peer. *)
From S2P Require Import Prelude Tally UBuffer.

(** [UnboundBufferOp], the tuple of an unbound buffer, offset and count. *)
Record UOp := mkUOp { uo_buf : Z; uo_offset : Z; uo_nbytes : Z }.
#[export] Instance UOp_eq_dec : EqDecision UOp.
Proof. solve_decision. Defined.

(** [struct Op] and its preamble. *)
Inductive Opcode := SEND_BUFFER | SEND_UNBOUND_BUFFER | NOTIFY_SEND_READY | NOTIFY_RECV_READY.
#[export] Instance Opcode_eq_dec : EqDecision Opcode.
Proof. solve_decision. Defined.

Definition opcode_value (o : Opcode) : Z :=
  match o with SEND_BUFFER => 0 | SEND_UNBOUND_BUFFER => 1 | NOTIFY_SEND_READY => 2 | NOTIFY_RECV_READY => 3 end.

Record Preamble := mkPreamble {
  pa_nbytes : Z; pa_opcode : Opcode; pa_slot : Z; pa_offset : Z; pa_length : Z; pa_roffset : Z;
}.
Definition sizeof_preamble : Z := 48.

Record Op := mkOp { op_preamble : Preamble; op_uop : UOp }.
Definition op_slot (op : Op) : Z := pa_slot (op_preamble op).
Definition op_code (op : Op) : Opcode := pa_opcode (op_preamble op).
Definition no_uop : UOp := mkUOp 0 0 0.

(** What a run did, in order; the code never reads it. *)
Inductive Event :=
  | EvSend (dst slot : Z) (u : UOp)
  | EvPost (src slot : Z) (u : UOp)
  | EvDeliver (src slot : Z) (sent u : UOp).

(** [class Pair]; of a registered bound buffer, its size and the number of
    completed receives. *)
Inductive pair_state := INITIALIZING | CONNECTING | CONNECTED | CLOSED.
#[export] Instance pair_state_eq_dec : EqDecision pair_state.
Proof. solve_decision. Defined.

Record Pair := mkPair {
  pr_state : pair_state;
  pr_sync : bool;
  pr_ex : option exn;
  pr_localPendingSend : gmap Z (list UOp);
  pr_localPendingRecv : gmap Z (list UOp);
  pr_buffers : gmap Z (Z * Z);
  pr_wire : list Op;
}.
#[export] Instance Pair_eta : Eta Pair := λ p,
  mkPair (pr_state p) (pr_sync p) (pr_ex p) (pr_localPendingSend p) (pr_localPendingRecv p) (pr_buffers p)
    (pr_wire p).

(** A pair once connected, in the asynchronous mode. *)
Definition Pair_connected : Pair := mkPair CONNECTED false None ∅ ∅ ∅ [].

(** [tcp::Context] *)
Record Proc := mkProc {
  px_pendingOperations : list Tally;
  px_expectedNotifications : list Tally;
  px_pendingRecv : gmap Z (list (UOp * list Z));
  px_pairs : Z → Pair;
  px_ubufs : Z → UnboundBuffer;
  px_log : list Event;
}.
#[export] Instance Proc_eta : Eta Proc := λ p,
  mkProc (px_pendingOperations p) (px_expectedNotifications p) (px_pendingRecv p) (px_pairs p) (px_ubufs p)
    (px_log p).

(* ------------------------------------------------------------------ *)
(** * Deques by slot *)

(** [map[slot].push_back(u)] *)
Definition queue_push {A} (slot : Z) (u : A) (m : gmap Z (list A)) : gmap Z (list A) :=
  <[slot := default [] (m !! slot) ++ [u]]> m.

(** [queue.pop_front(); if (queue.empty()) map.erase(it)] *)
Definition queue_set {A} (slot : Z) (q : list A) (m : gmap Z (list A)) : gmap Z (list A) :=
  match q with [] => delete slot m | _ => <[slot := q]> m end.

(* ------------------------------------------------------------------ *)
(** * Sending messages *)

Definition on_pair (r : Z) (f : Pair → Pair) : M Proc unit :=
  modify (λ p, p <| px_pairs ::= λ g r', if decide (r' = r) then f (g r') else g r' |>).
Definition on_ubuf (b : Z) (f : UnboundBuffer → UnboundBuffer) : M Proc unit :=
  modify (λ p, p <| px_ubufs ::= λ g b', if decide (b' = b) then f (g b') else g b' |>).
Definition log_event (e : Event) : M Proc unit := modify (λ p, p <| px_log ::= λ l, l ++ [e] |>).

Definition Pair_throwIfException (r : Z) : M Proc unit :=
  ex ← gets (λ p, pr_ex (px_pairs p r));
  match ex with Some e => throw e | None => mret () end.

(** [sendAsyncMode(op)] *)
Definition sendAsyncMode (r : Z) (op : Op) : M Proc unit :=
  sync ← gets (λ p, pr_sync (px_pairs p r));
  _ ← lift (enforce (negb sync));
  on_pair r (λ pr, pr <| pr_wire ::= λ w, w ++ [op] |>).

Definition unbound_op (slot : Z) (u : UOp) : Op :=
  mkOp (mkPreamble (u64 (sizeof_preamble + uo_nbytes u)) SEND_UNBOUND_BUFFER slot 0 (uo_nbytes u) 0) u.
Definition recv_ready_op (slot nbytes : Z) : Op :=
  mkOp (mkPreamble sizeof_preamble NOTIFY_RECV_READY slot 0 nbytes 0) no_uop.
Definition send_ready_op (slot nbytes : Z) : Op :=
  mkOp (mkPreamble sizeof_preamble NOTIFY_SEND_READY slot 0 nbytes 0) no_uop.

Definition sendUnboundBuffer (r slot : Z) (u : UOp) : M Proc unit := sendAsyncMode r (unbound_op slot u).
Definition sendNotifyRecvReady (r slot nbytes : Z) : M Proc unit := sendAsyncMode r (recv_ready_op slot nbytes).
Definition sendNotifySendReady (r slot nbytes : Z) : M Proc unit := sendAsyncMode r (send_ready_op slot nbytes).

(** [localPendingSend_[slot].push_back(...)], [localPendingRecv_[slot]...] *)
Definition push_local_send (r slot : Z) (u : UOp) : M Proc unit :=
  on_pair r (λ pr, pr <| pr_localPendingSend ::= queue_push slot u |>).
Definition push_local_recv (r slot : Z) (u : UOp) : M Proc unit :=
  _ ← on_pair r (λ pr, pr <| pr_localPendingRecv ::= queue_push slot u |>);
  log_event (EvPost r slot u).

(** The context's lock and tallies: [Context::Mutator mutator(...)], and its
    destructor. *)
Definition mutator (r slot : Z) : M Proc Mutator :=
  gets (λ p, Mutator_new (px_pendingOperations p) (px_expectedNotifications p) slot r).
Definition unlock (m : Mutator) : M Proc unit :=
  modify (λ p, p <| px_pendingOperations := fst (Mutator_destroy m) |>
                 <| px_expectedNotifications := snd (Mutator_destroy m) |>).

(** The bounds both ends check; [size] is the buffer's. *)
Definition check_bounds (u : UOp) (size : Z) : outcome unit :=
  if 0 <? uo_nbytes u then
    _ ← enforce (uo_offset u <=? size); enforce (uo_nbytes u <=? size - uo_offset u)
  else Val ().

(* ------------------------------------------------------------------ *)
(** * The operations of the application *)

(** [Pair::send(tbuf, slot, offset, nbytes)] *)
Definition Pair_send (r slot : Z) (u : UOp) (size : Z) : M Proc unit :=
  _ ← lift (check_bounds u size);
  _ ← Pair_throwIfException r;
  m ← mutator r slot;
  let '(ready, m) := shiftRemotePendingRecv m in
  _ ← log_event (EvSend r slot u);
  if (ready : bool) then
    _ ← sendNotifySendReady r slot (uo_nbytes u);
    _ ← sendUnboundBuffer r slot u;
    unlock m
  else
    _ ← push_local_send r slot u;
    _ ← sendNotifySendReady r slot (uo_nbytes u);
    unlock m.

(** [Pair::recv(tbuf, slot, offset, nbytes)] *)
Definition Pair_recv (r slot : Z) (u : UOp) (size : Z) : M Proc unit :=
  _ ← lift (check_bounds u size);
  _ ← Pair_throwIfException r;
  m ← mutator r slot;
  let '(owed, m) := shiftRemotePendingSend m in
  let m := if (owed : bool) then m else pushExpectedSendNotification m in
  _ ← push_local_recv r slot u;
  _ ← sendNotifyRecvReady r slot (uo_nbytes u);
  unlock m.

(** [Pair::tryRecv(tbuf, slot, offset, nbytes)] *)
Definition Pair_tryRecv (r slot : Z) (u : UOp) (size : Z) : M Proc bool :=
  _ ← lift (check_bounds u size);
  _ ← Pair_throwIfException r;
  m ← mutator r slot;
  let '(pending, m) := shiftRemotePendingSend m in
  if (pending : bool) then
    _ ← push_local_recv r slot u;
    _ ← sendNotifyRecvReady r slot (uo_nbytes u);
    _ ← unlock m;
    mret true
  else
    _ ← unlock m; mret false.

(** [recvFromAnyFindRank(buf, slot, offset, nbytes, srcRanks)]: [None] is -1. *)
Definition recvFromAnyFindRank (slot : Z) (u : UOp) (srcRanks : list Z) : M Proc (option Z) :=
  p ← get;
  match find (λ r, existsb (Z.eqb r) srcRanks) (sends (px_pendingOperations p) slot) with
  | Some rank => mret (Some rank)
  | None =>
      _ ← modify (λ p, p <| px_pendingRecv ::= queue_push slot (u, srcRanks) |>);
      mret None
  end.

(** The loop of [recvFromAny]; [None]: out of fuel. Another thread may run
    between its two steps, here none does. *)
Fixpoint recvFromAny (fuel : nat) (slot : Z) (u : UOp) (size : Z) (srcRanks : list Z) (p : Proc)
    : option (outcome unit * Proc) :=
  match fuel with
  | O => None
  | S fuel =>
      match recvFromAnyFindRank slot u srcRanks p with
      | (Val None, p) => Some (Val (), p)
      | (Val (Some rank), p) =>
          match Pair_tryRecv rank slot u size p with
          | (Val true, p) => Some (Val (), p)
          | (Val false, p) => recvFromAny fuel slot u size srcRanks p
          | (Exn e, p) => Some (Exn e, p)
          | (UB, p) => Some (UB, p)
          end
      | (Exn e, p) => Some (Exn e, p)
      | (UB, p) => Some (UB, p)
      end
  end.

(** The first registered recv-from-any that accepts [rank], and the others. *)
Fixpoint take_accepting (rank : Z) (q : list (UOp * list Z)) : option (UOp * list (UOp * list Z)) :=
  match q with
  | [] => None
  | (u, ranks) :: q =>
      if existsb (Z.eqb rank) ranks then Some (u, q)
      else '(u', q') ← take_accepting rank q; Some (u', (u, ranks) :: q')
  end.

(** [findRecvFromAny(slot, rank, ...)] *)
Definition findRecvFromAny (slot rank : Z) : M Proc (option UOp) :=
  p ← get;
  match (q ← px_pendingRecv p !! slot; take_accepting rank q) with
  | Some (u, q) => _ ← modify (λ p, p <| px_pendingRecv ::= queue_set slot q |>); mret (Some u)
  | None => mret None
  end.

(* ------------------------------------------------------------------ *)
(** * The handlers of the device thread *)

(** [handleRemotePendingSend(op)] *)
Definition handleRemotePendingSend (r : Z) (op : Op) : M Proc unit :=
  let slot := op_slot op in
  m ← mutator r slot;
  let '(expected, m) := shiftExpectedSendNotification m in
  if (expected : bool) then unlock m
  else
    found ← findRecvFromAny slot r;
    match found with
    | Some u =>
        _ ← push_local_recv r slot u;
        _ ← sendNotifyRecvReady r slot (uo_nbytes u);
        unlock m
    | None => unlock (pushRemotePendingSend m)
    end.

(** [handleRemotePendingRecv(op)] *)
Definition handleRemotePendingRecv (r : Z) (op : Op) : M Proc unit :=
  let slot := op_slot op in
  q ← gets (λ p, pr_localPendingSend (px_pairs p r) !! slot);
  match q with
  | Some [] => throw EnforceNotMet
  | Some (u :: q) =>
      _ ← on_pair r (λ pr, pr <| pr_localPendingSend ::= queue_set slot q |>);
      sendUnboundBuffer r slot u
  | None =>
      m ← mutator r slot;
      unlock (pushRemotePendingRecv m)
  end.

(** [prepareRead] and [readComplete] for a whole [SEND_UNBOUND_BUFFER]
    message: take the oldest posted receive, check the size, complete. *)
Definition receiveUnbound (r : Z) (op : Op) : M Proc unit :=
  let slot := op_slot op in
  q ← gets (λ p, pr_localPendingRecv (px_pairs p r) !! slot);
  match q with
  | None | Some [] => throw EnforceNotMet
  | Some (u :: q) =>
      _ ← on_pair r (λ pr, pr <| pr_localPendingRecv ::= queue_set slot q |>);
      _ ← lift (enforce (pa_length (op_preamble op) <=? uo_nbytes u));
      _ ← on_ubuf (uo_buf u) (handleRecvCompletion r);
      log_event (EvDeliver r slot (op_uop op) u)
  end.

(** [registerBuffer], [unregisterBuffer] *)
Definition registerBuffer (r slot size : Z) : M Proc unit :=
  found ← gets (λ p, pr_buffers (px_pairs p r) !! slot);
  match found with
  | Some _ => throw EnforceNotMet
  | None => on_pair r (λ pr, pr <| pr_buffers ::= <[slot := (size, 0)]> |>)
  end.
Definition unregisterBuffer (r slot : Z) : M Proc unit := on_pair r (λ pr, pr <| pr_buffers ::= delete slot |>).

(** The same for [SEND_BUFFER]; while the buffer is not registered the
    message stays unread. *)
Definition receiveBound (r : Z) (op : Op) : M Proc bool :=
  let slot := s32 (op_slot op) in
  found ← gets (λ p, pr_buffers (px_pairs p r) !! slot);
  match found with
  | None => mret false
  | Some (size, n) =>
      _ ← lift (enforce (u64 (pa_roffset (op_preamble op) + pa_length (op_preamble op)) <=? size));
      _ ← on_pair r (λ pr, pr <| pr_buffers ::= <[slot := (size, n + 1)]> |>);
      mret true
  end.

(** [read()] of a whole message: [false] if it cannot be taken yet. *)
Definition Pair_read (r : Z) (op : Op) : M Proc bool :=
  match op_code op with
  | SEND_BUFFER => receiveBound r op
  | SEND_UNBOUND_BUFFER => _ ← receiveUnbound r op; mret true
  | NOTIFY_SEND_READY => _ ← handleRemotePendingSend r op; mret true
  | NOTIFY_RECV_READY => _ ← handleRemotePendingRecv r op; mret true
  end.

(* ------------------------------------------------------------------ *)
(** * The interface of an unbound buffer *)

(** [UnboundBuffer::send(dstRank, slot, offset, nbytes)] of the buffer [b];
    its size is the buffer's. *)
Definition UnboundBuffer_send (b dstRank slot offset nbytes : Z) : M Proc unit :=
  buf ← gets (λ p, px_ubufs p b);
  nbytes ← lift (default_nbytes offset nbytes buf);
  Pair_send dstRank slot (mkUOp b offset nbytes) (ub_size buf).

(** [UnboundBuffer::recv(srcRank, slot, offset, nbytes)] *)
Definition UnboundBuffer_recv (b srcRank slot offset nbytes : Z) : M Proc unit :=
  buf ← gets (λ p, px_ubufs p b);
  nbytes ← lift (default_nbytes offset nbytes buf);
  Pair_recv srcRank slot (mkUOp b offset nbytes) (ub_size buf).

(** [UnboundBuffer::recv(srcRanks, slot, offset, nbytes)] *)
Definition UnboundBuffer_recvAny (fuel : nat) (b : Z) (srcRanks : list Z) (slot offset nbytes : Z) (p : Proc)
    : option (outcome unit * Proc) :=
  let buf := px_ubufs p b in
  match default_nbytes_any offset nbytes buf with
  | Val nbytes => recvFromAny fuel slot (mkUOp b offset nbytes) (ub_size buf) srcRanks p
  | Exn e => Some (Exn e, p)
  | UB => Some (UB, p)
  end.
