(* ===== verification/PairProto.v ===== *)
(** The rendezvous protocol of unbound buffers between the processes of a
    group: every interleaving of the applications' operations with the
    delivery of messages, in order, on each connection. In every reachable
    state the bookkeeping of both ends of every connection agrees, so that no
    check of the device threads fails, sends and receives match in the order
    they were posted, and nothing that could be matched is left waiting. *)
From S2P Require Import Prelude Tally UBuffer PairOps.

(* ------------------------------------------------------------------ *)
(** * The system *)

(** Processes by rank. *)
Definition System : Type := Z → Proc.
Definition set_proc (p : Z) (P : Proc) (s : System) : System := λ q, if decide (q = p) then P else s q.

Definition Proc_init : Proc := mkProc [] [] ∅ (λ _, Pair_connected) (λ b, UnboundBuffer_new b 0) [].

(** The steps: an operation of the application at [p] towards [q], a step of
    recv-from-any, or the reading of the oldest message on the connection from
    [p] to [q]. A call that throws leaves no step: its checks come first. *)
Inductive sys_step (s : System) : System → Prop :=
  | step_send p q slot u size P' :
      p ≠ q → Pair_send q slot u size (s p) = (Val (), P') → sys_step s (set_proc p P' s)
  | step_recv p q slot u size P' :
      p ≠ q → Pair_recv q slot u size (s p) = (Val (), P') → sys_step s (set_proc p P' s)
  | step_tryRecv p q slot u size b P' :
      p ≠ q → Pair_tryRecv q slot u size (s p) = (Val b, P') → sys_step s (set_proc p P' s)
  | step_findRank p slot u ranks o P' :
      recvFromAnyFindRank slot u ranks (s p) = (Val o, P') → sys_step s (set_proc p P' s)
  | step_read p q op ops b Q' :
      p ≠ q → pr_wire (px_pairs (s p) q) = op :: ops → Pair_read p op (s q) = (Val b, Q') → b = true →
      sys_step s (set_proc q Q' (set_proc p (s p <| px_pairs ::= λ g r,
        if decide (r = q) then g r <| pr_wire := ops |> else g r |>) s)).

Inductive sys_reach : System → Prop :=
  | reach_init : sys_reach (λ _, Proc_init)
  | reach_step s s' : sys_reach s → sys_step s s' → sys_reach s'.

(* ------------------------------------------------------------------ *)
(** * What one process knows of a peer on a slot *)

Record View := mkView {
  v_lps : list UOp;     (* sends waiting for the peer *)
  v_lpr : list UOp;     (* posted receives *)
  v_rpr : nat;          (* the peer's receives not yet answered *)
  v_rps : nat;          (* the peer's sends announced *)
  v_exp : nat;          (* announcements still owed *)
  v_data : list UOp;    (* data messages on the way *)
  v_nsr : nat;          (* announcements of sends on the way *)
  v_nrr : nat;          (* announcements of receives on the way *)
  v_sent : list UOp;    (* all sends so far *)
  v_post : list UOp;    (* all receives registered so far *)
  v_deliv : list (UOp * UOp);  (* what was received: the send, the receive *)
}.

Definition count (r : Z) (l : list Z) : nat := length (filter (λ x, x = r) l).
Definition queue_at (m : gmap Z (list UOp)) (s : Z) : list UOp := default [] (m !! s).

Definition is_op (c : Opcode) (s : Z) (op : Op) : Prop := op_code op = c ∧ op_slot op = s.
#[export] Instance is_op_dec c s op : Decision (is_op c s op).
Proof. unfold is_op. apply _. Defined.
Definition data_of (s : Z) (w : list Op) : list UOp := op_uop <$> filter (is_op SEND_UNBOUND_BUFFER s) w.
Definition num_of (c : Opcode) (s : Z) (w : list Op) : nat := length (filter (is_op c s) w).

Definition sent_of (r s : Z) (l : list Event) : list UOp :=
  omap (λ e, match e with EvSend r' s' u => if decide (r' = r ∧ s' = s) then Some u else None | _ => None end) l.
Definition post_of (r s : Z) (l : list Event) : list UOp :=
  omap (λ e, match e with EvPost r' s' u => if decide (r' = r ∧ s' = s) then Some u else None | _ => None end) l.
Definition deliv_of (r s : Z) (l : list Event) : list (UOp * UOp) :=
  omap (λ e, match e with
             | EvDeliver r' s' t u => if decide (r' = r ∧ s' = s) then Some (t, u) else None
             | _ => None end) l.

Definition view (P : Proc) (r s : Z) : View :=
  let pr := px_pairs P r in
  let sp := spec_of (px_pendingOperations P) (px_expectedNotifications P) s in
  mkView (queue_at (pr_localPendingSend pr) s) (queue_at (pr_localPendingRecv pr) s)
    (count r (sp_recvs sp)) (count r (sp_sends sp)) (count r (sp_expected sp))
    (data_of s (pr_wire pr)) (num_of NOTIFY_SEND_READY s (pr_wire pr)) (num_of NOTIFY_RECV_READY s (pr_wire pr))
    (sent_of r s (px_log P)) (post_of r s (px_log P)) (deliv_of r s (px_log P)).

#[export] Instance View_eta : Eta View := λ v,
  mkView (v_lps v) (v_lpr v) (v_rpr v) (v_rps v) (v_exp v) (v_data v) (v_nsr v) (v_nrr v) (v_sent v) (v_post v)
    (v_deliv v).

(** The agreement of the two ends, for what [a] sends to [b]. *)
Record link (a b : View) : Prop := {
  lk_sends : v_sent a = (fst <$> v_deliv b) ++ v_data a ++ v_lps a;
  lk_recvs : v_post b = (snd <$> v_deliv b) ++ v_lpr b;
  lk_ready : length (v_post b) = (v_nrr b + v_rpr a + length (v_deliv b) + length (v_data a))%nat;
  lk_owed : (length (v_sent a) + v_exp b = v_nsr a + length (v_post b) + v_rps b)%nat;
  lk_idle : v_lps a = [] ∨ v_rpr a = O;
  lk_owe : v_rps b = O ∨ v_exp b = O;
}.

(** Facts of one process. *)
Record proc_ok (P : Proc) : Prop := {
  po_tallies : tallies_wf (px_pendingOperations P) ∧ tallies_wf (px_expectedNotifications P);
  po_send : ∀ r s, pr_localPendingSend (px_pairs P r) !! s ≠ Some [];
  po_recv : ∀ r s, pr_localPendingRecv (px_pairs P r) !! s ≠ Some [];
  po_async : ∀ r, pr_sync (px_pairs P r) = false;
  po_any : ∀ s q u ranks r, px_pendingRecv P !! s = Some q → (u, ranks) ∈ q → r ∈ ranks → v_rps (view P r s) = O;
}.

Record sys_ok (S : System) : Prop := {
  so_procs : ∀ p, proc_ok (S p);
  so_links : ∀ p q s, p ≠ q → link (view (S p) q s) (view (S q) p s);
}.

(* ------------------------------------------------------------------ *)
(** * Counting *)

Lemma count_app r l k : count r (l ++ k) = (count r l + count r k)%nat.
Proof. unfold count. by rewrite filter_app, length_app. Qed.
Lemma count_one r r' : count r [r'] = if decide (r' = r) then 1%nat else O.
Proof. unfold count. rewrite filter_cons. by destruct (decide (r' = r)). Qed.
Lemma count_zero r l : count r l = O ↔ r ∉ l.
Proof.
  unfold count. rewrite length_zero_iff_nil. split.
  - intros H Hin. assert (r ∈ filter (λ x, x = r) l) as Hf by (by apply list_elem_of_filter).
    rewrite H in Hf. set_solver.
  - intros Hni. destruct (filter (λ x, x = r) l) as [|x f] eqn:E; [done|].
    assert (x ∈ filter (λ x, x = r) l) as [-> Hx]%list_elem_of_filter by (rewrite E; set_solver). done.
Qed.

Lemma shifted_spec r l :
  if bool_decide (r ∈ l) then ∃ l1 l2, l = l1 ++ r :: l2 ∧ remove_first r l = l1 ++ l2 else remove_first r l = l.
Proof.
  case_bool_decide as Hin; [|by apply remove_first_notin].
  destruct (remove_first_in r l Hin) as (l1 & l2 & -> & _ & ?). by exists l1, l2.
Qed.

Lemma count_shifted r r' l :
  count r' (remove_first r l) = if decide (r' = r ∧ r ∈ l) then pred (count r' l) else count r' l.
Proof.
  pose proof (shifted_spec r l) as H. case_bool_decide as Hin.
  - destruct H as (l1 & l2 & -> & ->). change (r :: l2) with ([r] ++ l2). rewrite !count_app, count_one.
    repeat case_decide; try lia; naive_solver.
  - rewrite H, decide_False by naive_solver. done.
Qed.

(* ------------------------------------------------------------------ *)
(** * The effect of an operation on a process

    [effect P P' r s lps lpr ws sp evs any]: from [P] to [P'] only the pair of
    [r] and the slot [s] changed: its queues are now [lps] and [lpr], [ws] was
    sent, the tallies of the slot are [sp], [evs] was logged, and [any] is
    registered for recv-from-any. *)

Record effect (P P' : Proc) (r s : Z) (lps lpr : list UOp) (ws : list Op) (sp : SlotSpec) (evs : list Event)
    (any : gmap Z (list (UOp * list Z))) : Prop := {
  ef_pairs : ∀ r', r' ≠ r → px_pairs P' r' = px_pairs P r';
  ef_lps : ∀ s', queue_at (pr_localPendingSend (px_pairs P' r)) s' =
                 if decide (s' = s) then lps else queue_at (pr_localPendingSend (px_pairs P r)) s';
  ef_lpr : ∀ s', queue_at (pr_localPendingRecv (px_pairs P' r)) s' =
                 if decide (s' = s) then lpr else queue_at (pr_localPendingRecv (px_pairs P r)) s';
  ef_lps_ne : ∀ s', pr_localPendingSend (px_pairs P' r) !! s' ≠ Some [];
  ef_lpr_ne : ∀ s', pr_localPendingRecv (px_pairs P' r) !! s' ≠ Some [];
  ef_wire : pr_wire (px_pairs P' r) = pr_wire (px_pairs P r) ++ ws;
  ef_ws : Forall (λ op, op_slot op = s) ws;
  ef_sync : pr_sync (px_pairs P' r) = false;
  ef_tallies : tallies_wf (px_pendingOperations P') ∧ tallies_wf (px_expectedNotifications P');
  ef_spec : ∀ s', spec_of (px_pendingOperations P') (px_expectedNotifications P') s' =
                  if decide (s' = s) then sp
                  else spec_of (px_pendingOperations P) (px_expectedNotifications P) s';
  ef_log : px_log P' = px_log P ++ evs;
  ef_any : px_pendingRecv P' = any;
}.

Abbreviation spec_at P s := (spec_of (px_pendingOperations P) (px_expectedNotifications P) s).

Lemma effect_refl P r s :
  proc_ok P →
  effect P P r s (queue_at (pr_localPendingSend (px_pairs P r)) s) (queue_at (pr_localPendingRecv (px_pairs P r)) s)
    [] (spec_at P s) [] (px_pendingRecv P).
Proof.
  intros []. split; auto.
  - intros s'. by case_decide; subst.
  - intros s'. by case_decide; subst.
  - by rewrite app_nil_r.
  - intros s'. by case_decide; subst.
  - by rewrite app_nil_r.
Qed.

(** Changing the pair of [r]. *)
Lemma effect_pair P P1 P2 r s lps lpr ws sp evs any f lps' lpr' ws' :
  effect P P1 r s lps lpr ws sp evs any → on_pair r f P1 = (Val (), P2) →
  (∀ s', queue_at (pr_localPendingSend (f (px_pairs P1 r))) s' =
         if decide (s' = s) then lps' else queue_at (pr_localPendingSend (px_pairs P1 r)) s') →
  (∀ s', queue_at (pr_localPendingRecv (f (px_pairs P1 r))) s' =
         if decide (s' = s) then lpr' else queue_at (pr_localPendingRecv (px_pairs P1 r)) s') →
  (∀ s', pr_localPendingSend (f (px_pairs P1 r)) !! s' ≠ Some []) →
  (∀ s', pr_localPendingRecv (f (px_pairs P1 r)) !! s' ≠ Some []) →
  pr_wire (f (px_pairs P1 r)) = pr_wire (px_pairs P1 r) ++ ws' → Forall (λ op, op_slot op = s) ws' →
  pr_sync (f (px_pairs P1 r)) = pr_sync (px_pairs P1 r) →
  effect P P2 r s lps' lpr' (ws ++ ws') sp evs any.
Proof.
  intros [] Hf Hls Hlr Hne1 Hne2 Hw Hws Hsy. apply modify_inv in Hf.
  assert (∀ r', r' ≠ r → px_pairs P2 r' = px_pairs P1 r') as Ho.
  { intros r' Hr'. rewrite Hf. change ((if decide (r' = r) then f (px_pairs P1 r') else px_pairs P1 r') = px_pairs P1 r').
    by rewrite decide_False. }
  assert (px_pairs P2 r = f (px_pairs P1 r)) as Hr.
  { rewrite Hf. change ((if decide (r = r) then f (px_pairs P1 r) else px_pairs P1 r) = f (px_pairs P1 r)).
    by rewrite decide_True. }
  assert (px_pendingOperations P2 = px_pendingOperations P1 ∧
    px_expectedNotifications P2 = px_expectedNotifications P1 ∧ px_log P2 = px_log P1 ∧
    px_pendingRecv P2 = px_pendingRecv P1) as (E1 & E2 & E3 & E4) by (by rewrite Hf).
  clear Hf. split; rewrite ?Hr, ?E1, ?E2, ?E3, ?E4; auto.
  - intros r' Hr'. rewrite Ho by done. by apply ef_pairs0.
  - intros s'. rewrite Hls. case_decide; [done|]. by rewrite ef_lps0, decide_False.
  - intros s'. rewrite Hlr. case_decide; [done|]. by rewrite ef_lpr0, decide_False.
  - by rewrite Hw, ef_wire0, app_assoc.
  - by apply Forall_app.
  - by rewrite Hsy.
Qed.

Lemma effect_send P P1 P2 r s lps lpr ws sp evs any op :
  effect P P1 r s lps lpr ws sp evs any → sendAsyncMode r op P1 = (Val (), P2) → op_slot op = s →
  effect P P2 r s lps lpr (ws ++ [op]) sp evs any.
Proof.
  intros He H Hop. unfold sendAsyncMode in H. do 2 M_inv H.
  eapply effect_pair; [exact He|exact H|..]; try done; try (by apply He).
  - intros s'. change (queue_at (pr_localPendingSend (px_pairs P1 r)) s' =
      if decide (s' = s) then lps else queue_at (pr_localPendingSend (px_pairs P1 r)) s').
    case_decide; [|done]. rewrite (ef_lps _ _ _ _ _ _ _ _ _ _ He). by rewrite decide_True.
  - intros s'. change (queue_at (pr_localPendingRecv (px_pairs P1 r)) s' =
      if decide (s' = s) then lpr else queue_at (pr_localPendingRecv (px_pairs P1 r)) s').
    case_decide; [|done]. rewrite (ef_lpr _ _ _ _ _ _ _ _ _ _ He). by rewrite decide_True.
  - by apply Forall_singleton.
Qed.

Lemma queue_push_at s s' u (m : gmap Z (list UOp)) :
  queue_at (queue_push s u m) s' = if decide (s' = s) then queue_at m s ++ [u] else queue_at m s'.
Proof.
  unfold queue_at, queue_push. case_decide as Hs.
  - subst. by rewrite lookup_insert_eq.
  - by rewrite lookup_insert_ne.
Qed.
Lemma queue_push_ne s s' u (m : gmap Z (list UOp)) : m !! s' ≠ Some [] → queue_push s u m !! s' ≠ Some [].
Proof.
  intros Hm. unfold queue_push. destruct (decide (s = s')) as [->|].
  - rewrite lookup_insert_eq. intros [= H]. by apply app_nil in H as [_ ?].
  - by rewrite lookup_insert_ne.
Qed.
Lemma queue_set_at {A} s s' q (m : gmap Z (list A)) :
  default [] (queue_set s q m !! s') = if decide (s' = s) then q else default [] (m !! s').
Proof.
  unfold queue_set. case_decide as Hs; destruct q as [|u q]; subst.
  - by rewrite lookup_delete_eq.
  - by rewrite lookup_insert_eq.
  - by rewrite lookup_delete_ne.
  - by rewrite lookup_insert_ne.
Qed.
Lemma queue_set_ne {A} s s' q (m : gmap Z (list A)) : m !! s' ≠ Some [] → queue_set s q m !! s' ≠ Some [].
Proof.
  intros Hm. unfold queue_set. destruct (decide (s = s')) as [->|], q as [|u q].
  - by rewrite lookup_delete_eq.
  - by rewrite lookup_insert_eq.
  - by rewrite lookup_delete_ne.
  - by rewrite lookup_insert_ne.
Qed.

Lemma effect_push_send P P1 P2 r s lps lpr ws sp evs any u :
  effect P P1 r s lps lpr ws sp evs any → push_local_send r s u P1 = (Val (), P2) →
  effect P P2 r s (lps ++ [u]) lpr ws sp evs any.
Proof.
  intros He H. rewrite <-(app_nil_r ws). pose proof (ef_lps _ _ _ _ _ _ _ _ _ _ He s) as Hl.
  rewrite decide_True in Hl by done. eapply effect_pair; [exact He|exact H|..]; try (by apply He).
  - intros s'. rewrite <-Hl. apply queue_push_at.
  - intros s'. change (queue_at (pr_localPendingRecv (px_pairs P1 r)) s' =
      if decide (s' = s) then lpr else queue_at (pr_localPendingRecv (px_pairs P1 r)) s').
    case_decide; [|done]. rewrite (ef_lpr _ _ _ _ _ _ _ _ _ _ He). by rewrite decide_True.
  - intros s'. apply queue_push_ne, He.
  - by rewrite app_nil_r.
  - done.
  - done.
Qed.

Lemma effect_set_send P P1 P2 r s lps lpr ws sp evs any q :
  effect P P1 r s lps lpr ws sp evs any →
  on_pair r (λ pr, pr <| pr_localPendingSend ::= queue_set s q |>) P1 = (Val (), P2) →
  effect P P2 r s q lpr ws sp evs any.
Proof.
  intros He H. rewrite <-(app_nil_r ws).
  eapply effect_pair; [exact He|exact H|..]; try (by apply He).
  - intros s'. apply queue_set_at.
  - intros s'. change (queue_at (pr_localPendingRecv (px_pairs P1 r)) s' =
      if decide (s' = s) then lpr else queue_at (pr_localPendingRecv (px_pairs P1 r)) s').
    case_decide; [|done]. rewrite (ef_lpr _ _ _ _ _ _ _ _ _ _ He). by rewrite decide_True.
  - intros s'. apply queue_set_ne, He.
  - by rewrite app_nil_r.
  - done.
  - done.
Qed.

Lemma effect_pop_recv P P1 P2 r s lps lpr ws sp evs any q :
  effect P P1 r s lps lpr ws sp evs any →
  on_pair r (λ pr, pr <| pr_localPendingRecv ::= queue_set s q |>) P1 = (Val (), P2) →
  effect P P2 r s lps q ws sp evs any.
Proof.
  intros He H. rewrite <-(app_nil_r ws).
  eapply effect_pair; [exact He|exact H|..]; try (by apply He).
  - intros s'. change (queue_at (pr_localPendingSend (px_pairs P1 r)) s' =
      if decide (s' = s) then lps else queue_at (pr_localPendingSend (px_pairs P1 r)) s').
    case_decide; [|done]. rewrite (ef_lps _ _ _ _ _ _ _ _ _ _ He). by rewrite decide_True.
  - intros s'. apply queue_set_at.
  - intros s'. apply queue_set_ne, He.
  - by rewrite app_nil_r.
  - done.
  - done.
Qed.

(** Steps that leave the pairs alone. *)
Lemma effect_context P P1 P2 r s lps lpr ws sp evs any sp' evs' any' :
  effect P P1 r s lps lpr ws sp evs any →
  px_pairs P2 = px_pairs P1 → px_log P2 = px_log P1 ++ evs' → px_pendingRecv P2 = any' →
  tallies_wf (px_pendingOperations P2) ∧ tallies_wf (px_expectedNotifications P2) →
  (∀ s', spec_at P2 s' = if decide (s' = s) then sp' else spec_at P s') →
  effect P P2 r s lps lpr ws sp' (evs ++ evs') any'.
Proof.
  intros [] Hp Hl Ha Ht Hs. split; rewrite ?Hp; try done.
  by rewrite Hl, ef_log0, app_assoc.
Qed.

Lemma effect_log P P1 P2 r s lps lpr ws sp evs any e :
  effect P P1 r s lps lpr ws sp evs any → log_event e P1 = (Val (), P2) →
  effect P P2 r s lps lpr ws sp (evs ++ [e]) any.
Proof.
  intros He H. apply modify_inv in H. eapply effect_context; [exact He|..]; rewrite H; try done; apply He.
Qed.

Lemma effect_ubuf P P1 P2 r s lps lpr ws sp evs any b f :
  effect P P1 r s lps lpr ws sp evs any → on_ubuf b f P1 = (Val (), P2) →
  effect P P2 r s lps lpr ws sp evs any.
Proof.
  intros He H. apply modify_inv in H. rewrite <-(app_nil_r evs).
  eapply effect_context; [exact He|..]; rewrite H, ?app_nil_r; try done; apply He.
Qed.

Lemma effect_push_recv P P1 P2 r s lps lpr ws sp evs any u :
  effect P P1 r s lps lpr ws sp evs any → push_local_recv r s u P1 = (Val (), P2) →
  effect P P2 r s lps (lpr ++ [u]) ws sp (evs ++ [EvPost r s u]) any.
Proof.
  intros He H. unfold push_local_recv in H. M_inv H.
  eapply effect_log; [|exact H]. rewrite <-(app_nil_r ws). pose proof (ef_lpr _ _ _ _ _ _ _ _ _ _ He s) as Hl.
  rewrite decide_True in Hl by done. eapply effect_pair; [exact He|exact H0|..]; try (by apply He).
  - intros s'. change (queue_at (pr_localPendingSend (px_pairs P1 r)) s' =
      if decide (s' = s) then lps else queue_at (pr_localPendingSend (px_pairs P1 r)) s').
    case_decide; [|done]. rewrite (ef_lps _ _ _ _ _ _ _ _ _ _ He). by rewrite decide_True.
  - intros s'. rewrite <-Hl. apply queue_push_at.
  - intros s'. apply queue_push_ne, He.
  - by rewrite app_nil_r.
  - done.
  - done.
Qed.

(** A mutator made in [P] and released after [ops]. *)
Definition mutator_of (P : Proc) (r s : Z) (ops : list MutOp) (bs : list bool) (m : Mutator) : Prop :=
  mut_run ops (Mutator_new (px_pendingOperations P) (px_expectedNotifications P) s r) = (bs, m).

Lemma effect_unlock P P1 P2 r s lps lpr ws evs any ops bs m :
  proc_ok P → effect P P1 r s lps lpr ws (spec_at P s) evs any → mutator_of P r s ops bs m →
  unlock m P1 = (Val (), P2) →
  effect P P2 r s lps lpr ws (spec_run r ops (spec_at P s)).2 evs any ∧ bs = (spec_run r ops (spec_at P s)).1.
Proof.
  intros [[Hw1 Hw2] _ _ _ _] He Hm H. apply modify_inv in H.
  pose proof (mut_session_lemma ops s r _ _ Hw1 Hw2) as Hs. unfold mut_session in Hs.
  rewrite Hm in Hs. destruct (Mutator_destroy m) as [p' e'] eqn:Hd.
  destruct (spec_run r ops (spec_at P s)) as [bs' sp'] eqn:Hr. destruct Hs as (-> & Hp' & He' & Hh & Ht).
  split; [|done]. rewrite <-(app_nil_r evs).
  eapply effect_context; [exact He|..]; rewrite H, ?app_nil_r; rewrite ?Hd; try done.
  - apply He.
  - intros s'. change (spec_of p' e' s' = if decide (s' = s) then sp' else spec_at P s').
    case_decide as Hs'; [by subst|by apply Ht].
Qed.

(* ------------------------------------------------------------------ *)
(** * The effect on views *)

Definition event_at (r s : Z) (e : Event) : Prop :=
  match e with EvSend r' s' _ | EvPost r' s' _ | EvDeliver r' s' _ _ => r' = r ∧ s' = s end.

Lemma events_elsewhere r s r' s' evs :
  Forall (event_at r s) evs → ¬ (r' = r ∧ s' = s) →
  sent_of r' s' evs = [] ∧ post_of r' s' evs = [] ∧ deliv_of r' s' evs = [].
Proof.
  intros Hev Hne. induction Hev as [|e evs He Hev (IH1 & IH2 & IH3)]; [done|].
  unfold sent_of, post_of, deliv_of in *. cbn.
  destruct e; cbn in He; destruct He as [-> ->]; rewrite decide_False by naive_solver; done.
Qed.

Lemma filter_elsewhere c s s' ws :
  Forall (λ op, op_slot op = s) ws → s' ≠ s → filter (is_op c s') ws = [].
Proof.
  intros Hws Hne. induction Hws as [|op ws Hop Hws IH]; [done|].
  rewrite filter_cons, IH. rewrite decide_False; [done|]. unfold is_op. naive_solver.
Qed.

Lemma data_of_app s w w' : data_of s (w ++ w') = data_of s w ++ data_of s w'.
Proof. unfold data_of. by rewrite filter_app, fmap_app. Qed.
Lemma num_of_app c s w w' : num_of c s (w ++ w') = (num_of c s w + num_of c s w')%nat.
Proof. unfold num_of. by rewrite filter_app, length_app. Qed.

(** What an effect leaves as the view of [r] on [s]. *)
Definition view_after (v : View) (r s : Z) (lps lpr : list UOp) (ws : list Op) (sp : SlotSpec) (evs : list Event) : View :=
  mkView lps lpr (count r (sp_recvs sp)) (count r (sp_sends sp)) (count r (sp_expected sp))
    (v_data v ++ data_of s ws) (v_nsr v + num_of NOTIFY_SEND_READY s ws) (v_nrr v + num_of NOTIFY_RECV_READY s ws)
    (v_sent v ++ sent_of r s evs) (v_post v ++ post_of r s evs) (v_deliv v ++ deliv_of r s evs).

Lemma effect_view P P' r s lps lpr ws sp evs any :
  effect P P' r s lps lpr ws sp evs any → view P' r s = view_after (view P r s) r s lps lpr ws sp evs.
Proof.
  intros []. unfold view, view_after. cbn [v_data v_nsr v_nrr v_sent v_post v_deliv].
  rewrite ef_lps0, ef_lpr0, ef_spec0, ef_wire0, ef_log0, !decide_True by done.
  rewrite data_of_app, !num_of_app. unfold sent_of, post_of, deliv_of. by rewrite !omap_app.
Qed.

Definition same_counts (r : Z) (sp sp' : SlotSpec) : Prop :=
  ∀ r', r' ≠ r → count r' (sp_recvs sp') = count r' (sp_recvs sp) ∧
    count r' (sp_sends sp') = count r' (sp_sends sp) ∧ count r' (sp_expected sp') = count r' (sp_expected sp).

Lemma effect_view_ne P P' r s lps lpr ws sp evs any r' s' :
  effect P P' r s lps lpr ws sp evs any → same_counts r (spec_at P s) sp → Forall (event_at r s) evs →
  ¬ (r' = r ∧ s' = s) → view P' r' s' = view P r' s'.
Proof.
  intros [] Hc Hev Hne. destruct (events_elsewhere r s r' s' evs Hev Hne) as (E1 & E2 & E3).
  unfold view. rewrite ef_log0. unfold sent_of, post_of, deliv_of in *. rewrite !omap_app, E1, E2, E3, !app_nil_r.
  rewrite ef_spec0. destruct (decide (r' = r)) as [->|Hr].
  - assert (s' ≠ s) as Hs by naive_solver.
    rewrite ef_lps0, ef_lpr0, ef_wire0, !decide_False by done. rewrite data_of_app, !num_of_app.
    unfold data_of at 2, num_of at 2 4. rewrite !(filter_elsewhere _ s) by done.
    change (op_uop <$> []) with (@nil UOp). change (length []) with O. by rewrite app_nil_r, !Nat.add_0_r.
  - rewrite ef_pairs0 by done. case_decide as Hs; [|done]. subst. destruct (Hc r' Hr) as (-> & -> & ->). done.
Qed.

Lemma count_shifted_ne r r' l : r' ≠ r → count r' (remove_first r l) = count r' l.
Proof. intros Hr. rewrite count_shifted, decide_False; naive_solver. Qed.
Lemma count_snoc_ne r r' l : r' ≠ r → count r' (l ++ [r]) = count r' l.
Proof. intros Hr. rewrite count_app, count_one, decide_False by congruence. lia. Qed.

Lemma spec_step_counts r op sp : same_counts r sp (spec_step r op sp).2.
Proof.
  intros r' Hr'.
  destruct op; split_and!; try reflexivity; by (apply count_shifted_ne || apply count_snoc_ne).
Qed.

Lemma spec_run_counts r ops : ∀ sp, same_counts r sp (spec_run r ops sp).2.
Proof.
  induction ops as [|op ops IH]; intros sp; cbn; [done|].
  pose proof (spec_step_counts r op sp) as H1. destruct (spec_step r op sp) as [b sp1].
  specialize (IH sp1). destruct (spec_run r ops sp1) as [bs sp2]. cbn in *.
  intros r' Hr'. destruct (H1 r' Hr') as (<- & <- & <-). by apply IH.
Qed.

(** An operation keeps the process in order, if what is registered for
    recv-from-any stays unmatched. *)
Lemma effect_ok P P' r s lps lpr ws sp evs any :
  proc_ok P → effect P P' r s lps lpr ws sp evs any →
  (∀ s q u ranks r, any !! s = Some q → (u, ranks) ∈ q → r ∈ ranks → v_rps (view P' r s) = O) → proc_ok P'.
Proof.
  intros [] [] Hany. split; try done.
  - intros r' s'. destruct (decide (r' = r)) as [->|]; [done|]. by rewrite ef_pairs0.
  - intros r' s'. destruct (decide (r' = r)) as [->|]; [done|]. by rewrite ef_pairs0.
  - intros r'. destruct (decide (r' = r)) as [->|]; [done|]. by rewrite ef_pairs0.
  - intros s' q u ranks r' Hq. rewrite ef_any0 in Hq. by eapply Hany.
Qed.

(** The case where nothing is announced. *)
Lemma effect_ok_mono P P' r s lps lpr ws sp evs :
  proc_ok P → effect P P' r s lps lpr ws sp evs (px_pendingRecv P) → same_counts r (spec_at P s) sp →
  Forall (event_at r s) evs → (count r (sp_sends sp) ≤ v_rps (view P r s))%nat → proc_ok P'.
Proof.
  intros Hok He Hc Hev Hle. eapply effect_ok; [done|exact He|].
  intros s' q u ranks r' Hq Hu Hr'. pose proof (po_any P Hok s' q u ranks r' Hq Hu Hr') as Hz.
  destruct (decide (r' = r ∧ s' = s)) as [[-> ->]|Hne].
  - rewrite (effect_view _ _ _ _ _ _ _ _ _ _ He). cbn. lia.
  - by rewrite (effect_view_ne _ _ _ _ _ _ _ _ _ _ _ _ He Hc Hev Hne).
Qed.

(* ------------------------------------------------------------------ *)
(** * The operations on views *)

(** [view_step P P' r s f]: [f] happened to the view of [r] on [s], and
    nothing else. *)
Definition view_step (P P' : Proc) (r s : Z) (v : View) : Prop :=
  proc_ok P' ∧ view P' r s = v ∧ (∀ r' s', ¬ (r' = r ∧ s' = s) → view P' r' s' = view P r' s').

Lemma view_step_intro P P' r s lps lpr ws ops evs v :
  proc_ok P → effect P P' r s lps lpr ws (spec_run r ops (spec_at P s)).2 evs (px_pendingRecv P) →
  Forall (event_at r s) evs →
  view_after (view P r s) r s lps lpr ws (spec_run r ops (spec_at P s)).2 evs = v →
  (v_rps v ≤ v_rps (view P r s))%nat → view_step P P' r s v.
Proof.
  intros Hok He Hev <- Hle. split_and!.
  - eapply effect_ok_mono; [done|exact He|apply spec_run_counts|done|exact Hle].
  - by eapply effect_view.
  - intros r' s' Hne. eapply effect_view_ne; [exact He|apply spec_run_counts|done|done].
Qed.

Definition view_send (u : UOp) (v : View) : View :=
  match v_rpr v with
  | O => v <| v_lps ::= λ l, l ++ [u] |> <| v_nsr ::= S |> <| v_sent ::= λ l, l ++ [u] |>
  | S n => v <| v_rpr := n |> <| v_nsr ::= S |> <| v_data ::= λ l, l ++ [u] |> <| v_sent ::= λ l, l ++ [u] |>
  end.
Definition view_recv (u : UOp) (v : View) : View :=
  match v_rps v with O => v <| v_exp ::= S |> | S n => v <| v_rps := n |> end
    <| v_lpr ::= λ l, l ++ [u] |> <| v_post ::= λ l, l ++ [u] |> <| v_nrr ::= S |>.

Lemma mutator_inv r s P m P' : mutator r s P = (Val m, P') →
  P' = P ∧ m = Mutator_new (px_pendingOperations P) (px_expectedNotifications P) s r.
Proof. by intros [-> ->]%gets_inv. Qed.

Lemma throwIfException_inv r P P' : Pair_throwIfException r P = (Val (), P') → P' = P.
Proof. unfold Pair_throwIfException. intros H. M_inv H. destruct (pr_ex _); [done|]. by apply ret_inv in H as [_ ->]. Qed.

Lemma num_of_ready s n c : num_of c s [send_ready_op s n] = if decide (c = NOTIFY_SEND_READY) then 1%nat else O.
Proof. unfold num_of. rewrite filter_cons. unfold is_op. cbn. repeat case_decide; naive_solver. Qed.
Lemma num_of_recv_ready s n c : num_of c s [recv_ready_op s n] = if decide (c = NOTIFY_RECV_READY) then 1%nat else O.
Proof. unfold num_of. rewrite filter_cons. unfold is_op. cbn. repeat case_decide; naive_solver. Qed.
Lemma num_of_unbound s u c : num_of c s [unbound_op s u] = if decide (c = SEND_UNBOUND_BUFFER) then 1%nat else O.
Proof. unfold num_of. rewrite filter_cons. unfold is_op. cbn. repeat case_decide; naive_solver. Qed.
Lemma data_of_ready s n : data_of s [send_ready_op s n] = [].
Proof. unfold data_of. by rewrite filter_cons. Qed.
Lemma data_of_recv_ready s n : data_of s [recv_ready_op s n] = [].
Proof. unfold data_of. by rewrite filter_cons. Qed.
Lemma data_of_unbound s u : data_of s [unbound_op s u] = [u].
Proof. unfold data_of. rewrite filter_cons. unfold is_op. cbn. by rewrite decide_True. Qed.
Lemma sent_of_one r s u : sent_of r s [EvSend r s u] = [u].
Proof. unfold sent_of. cbn. by rewrite decide_True. Qed.
Lemma post_of_one r s u : post_of r s [EvPost r s u] = [u].
Proof. unfold post_of. cbn. by rewrite decide_True. Qed.
Lemma deliv_of_one r s t u : deliv_of r s [EvDeliver r s t u] = [(t, u)].
Proof. unfold deliv_of. cbn. by rewrite decide_True. Qed.

Lemma count_in r l : r ∈ l → count r l = S (count r (remove_first r l)).
Proof.
  intros Hin. rewrite count_shifted, decide_True by done. destruct (count r l) eqn:E; [|done].
  by apply count_zero in E.
Qed.
Lemma shifted_notin r l : r ∉ l → remove_first r l = l ∧ count r l = O.
Proof. intros Hni. split; [|by apply count_zero]. by apply remove_first_notin. Qed.

(** The outcomes of a session of one shift, and its next operation. *)
Lemma shift_recv_cases P r s b m :
  shiftRemotePendingRecv (Mutator_new (px_pendingOperations P) (px_expectedNotifications P) s r) = (b, m) →
  mutator_of P r s [ShiftRecv] [b] m.
Proof. intros Hm. unfold mutator_of. cbn [mut_run mut_step]. by rewrite Hm. Qed.
Lemma shift_send_cases P r s b m :
  shiftRemotePendingSend (Mutator_new (px_pendingOperations P) (px_expectedNotifications P) s r) = (b, m) →
  mutator_of P r s [ShiftSend] [b] m ∧
  mutator_of P r s [ShiftSend; PushExpected] [b; true] (pushExpectedSendNotification m).
Proof. intros Hm. unfold mutator_of. cbn [mut_run mut_step]. by rewrite Hm. Qed.
Lemma shift_expected_cases P r s b m :
  shiftExpectedSendNotification (Mutator_new (px_pendingOperations P) (px_expectedNotifications P) s r) = (b, m) →
  mutator_of P r s [ShiftExpected] [b] m ∧
  mutator_of P r s [ShiftExpected; PushSend] [b; true] (pushRemotePendingSend m).
Proof. intros Hm. unfold mutator_of. cbn [mut_run mut_step]. by rewrite Hm. Qed.

(** What the other events and messages add nothing to. *)
Lemma logs_other r s r' s' t u :
  sent_of r s [EvPost r' s' u] = [] ∧ sent_of r s [EvDeliver r' s' t u] = [] ∧
  post_of r s [EvSend r' s' u] = [] ∧ post_of r s [EvDeliver r' s' t u] = [] ∧
  deliv_of r s [EvSend r' s' u] = [] ∧ deliv_of r s [EvPost r' s' u] = [].
Proof. done. Qed.

(** The view of the new state, field by field. *)
Ltac view_fields :=
  unfold view_after; cbn [v_lps v_lpr v_rpr v_rps v_exp v_data v_nsr v_nrr v_sent v_post v_deliv];
  rewrite ?app_nil_l, ?data_of_app, ?num_of_app, ?data_of_ready, ?data_of_recv_ready, ?data_of_unbound,
    ?num_of_ready, ?num_of_recv_ready, ?num_of_unbound, ?sent_of_one, ?post_of_one, ?deliv_of_one;
  repeat match goal with
  | |- context [sent_of ?r ?s ?l] => change (sent_of r s l) with (@nil UOp)
  | |- context [post_of ?r ?s ?l] => change (post_of r s l) with (@nil UOp)
  | |- context [deliv_of ?r ?s ?l] => change (deliv_of r s l) with (@nil (UOp * UOp))
  | |- context [data_of ?s []] => change (data_of s []) with (@nil UOp)
  | |- context [num_of ?c ?s []] => change (num_of c s []) with O
  | |- context [if decide (?a = ?b) then 1%nat else O] =>
      first [change (if decide (a = b) then 1%nat else O) with 1%nat
            |change (if decide (a = b) then 1%nat else O) with O]
  end;
  rewrite ?app_nil_l, ?app_nil_r, ?Nat.add_0_r, ?Nat.add_1_r.

(** What the sessions of the operations leave. *)
Lemma spec_shift_recv r sp : (spec_run r [ShiftRecv] sp).2 = sp <| sp_recvs := remove_first r (sp_recvs sp) |>.
Proof. done. Qed.
Lemma spec_shift_send r sp : (spec_run r [ShiftSend] sp).2 = sp <| sp_sends := remove_first r (sp_sends sp) |>.
Proof. done. Qed.
Lemma spec_shift_send_push r sp :
  (spec_run r [ShiftSend; PushExpected] sp).2 =
  sp <| sp_sends := remove_first r (sp_sends sp) |> <| sp_expected ::= λ l, l ++ [r] |>.
Proof. done. Qed.
Lemma spec_shift_expected r sp :
  (spec_run r [ShiftExpected] sp).2 = sp <| sp_expected := remove_first r (sp_expected sp) |>.
Proof. done. Qed.
Lemma spec_shift_expected_push r sp :
  (spec_run r [ShiftExpected; PushSend] sp).2 =
  sp <| sp_expected := remove_first r (sp_expected sp) |> <| sp_sends ::= λ l, l ++ [r] |>.
Proof. done. Qed.
Lemma spec_push_recv r sp : (spec_run r [PushRecv] sp).2 = sp <| sp_recvs ::= λ l, l ++ [r] |>.
Proof. done. Qed.

Lemma Pair_send_view P P' r s u size :
  proc_ok P → Pair_send r s u size P = (Val (), P') → view_step P P' r s (view_send u (view P r s)).
Proof.
  intros Hok H. unfold Pair_send in H. do 3 M_inv H.
  apply throwIfException_inv in H1 as ->. apply mutator_inv in H2 as [-> ->].
  destruct (shiftRemotePendingRecv _) as [b m] eqn:Hm. apply shift_recv_cases in Hm.
  pose proof (effect_refl P r s Hok) as He. M_inv H.
  eapply effect_log in He; [|exact H1]. destruct b; do 2 M_inv H.
  - eapply effect_send in He; [|exact H2|done]. eapply effect_send in He; [|exact H3|done].
    eapply effect_unlock in He as [He Hb]; [|done|exact Hm|exact H]. injection Hb as Hb.
    symmetry in Hb. apply bool_decide_eq_true in Hb.
    change (r ∈ sp_recvs (spec_at P s)) in Hb.
    eapply view_step_intro; [done|exact He|by repeat constructor| |].
    + unfold view_send. change (v_rpr (view P r s)) with (count r (sp_recvs (spec_at P s))).
      rewrite (count_in _ _ Hb). view_fields. reflexivity.
    + unfold view_send. change (v_rpr (view P r s)) with (count r (sp_recvs (spec_at P s))).
      by rewrite (count_in _ _ Hb).
  - eapply effect_push_send in He; [|exact H2]. eapply effect_send in He; [|exact H3|done].
    eapply effect_unlock in He as [He Hb]; [|done|exact Hm|exact H]. injection Hb as Hb.
    symmetry in Hb. apply bool_decide_eq_false in Hb.
    change (r ∉ sp_recvs (spec_at P s)) in Hb. destruct (shifted_notin _ _ Hb) as [Hs Hc].
    eapply view_step_intro; [done|exact He|by repeat constructor| |].
    + unfold view_send. change (v_rpr (view P r s)) with (count r (sp_recvs (spec_at P s))).
      rewrite Hc. view_fields. rewrite spec_shift_recv, Hs. reflexivity.
    + unfold view_send. change (v_rpr (view P r s)) with (count r (sp_recvs (spec_at P s))).
      by rewrite Hc.
Qed.

Lemma Pair_recv_view P P' r s u size :
  proc_ok P → Pair_recv r s u size P = (Val (), P') → view_step P P' r s (view_recv u (view P r s)).
Proof.
  intros Hok H. unfold Pair_recv in H. do 3 M_inv H.
  apply throwIfException_inv in H1 as ->. apply mutator_inv in H2 as [-> ->].
  destruct (shiftRemotePendingSend _) as [b m] eqn:Hm. apply shift_send_cases in Hm as [Hm1 Hm2].
  pose proof (effect_refl P r s Hok) as He. do 2 M_inv H.
  eapply effect_push_recv in He; [|exact H1]. eapply effect_send in He; [|exact H2|done].
  unfold view_recv. change (v_rps (view P r s)) with (count r (sp_sends (spec_at P s))). destruct b.
  - eapply effect_unlock in He as [He Hb]; [|done|exact Hm1|exact H]. injection Hb as Hb.
    symmetry in Hb. apply bool_decide_eq_true in Hb. change (r ∈ sp_sends (spec_at P s)) in Hb.
    rewrite (count_in _ _ Hb).
    eapply view_step_intro; [done|exact He|by repeat constructor| |].
    + view_fields. reflexivity.
    + change (count r (remove_first r (sp_sends (spec_at P s))) ≤ count r (sp_sends (spec_at P s)))%nat.
      rewrite (count_in _ _ Hb). lia.
  - eapply effect_unlock in He as [He Hb]; [|done|exact Hm2|exact H]. injection Hb as Hb.
    symmetry in Hb. apply bool_decide_eq_false in Hb. change (r ∉ sp_sends (spec_at P s)) in Hb.
    destruct (shifted_notin _ _ Hb) as [Hs Hc]. rewrite Hc.
    eapply view_step_intro; [done|exact He|by repeat constructor| |done].
    view_fields. rewrite spec_shift_send_push, Hs.
    change (sp_expected (spec_at P s <| sp_sends := sp_sends (spec_at P s) |> <| sp_expected ::= λ l, l ++ [r] |>))
      with (sp_expected (spec_at P s) ++ [r]).
    rewrite count_app, count_one, decide_True, Nat.add_1_r by done. reflexivity.
Qed.

Lemma Pair_tryRecv_view P P' r s u size b :
  proc_ok P → Pair_tryRecv r s u size P = (Val b, P') →
  view_step P P' r s (if b then view_recv u (view P r s) else view P r s) ∧ (b = true ↔ v_rps (view P r s) ≠ O).
Proof.
  intros Hok H. unfold Pair_tryRecv in H. do 3 M_inv H.
  apply throwIfException_inv in H1 as ->. apply mutator_inv in H2 as [-> ->].
  destruct (shiftRemotePendingSend _) as [b' m] eqn:Hm. apply shift_send_cases in Hm as [Hm1 _].
  pose proof (effect_refl P r s Hok) as He.
  change (v_rps (view P r s)) with (count r (sp_sends (spec_at P s))). destruct b'.
  - do 3 M_inv H. apply ret_inv in H as [-> ->].
    eapply effect_push_recv in He; [|exact H1]. eapply effect_send in He; [|exact H2|done].
    eapply effect_unlock in He as [He Hb]; [|done|exact Hm1|exact H3]. injection Hb as Hb.
    symmetry in Hb. apply bool_decide_eq_true in Hb. change (r ∈ sp_sends (spec_at P s)) in Hb.
    unfold view_recv. change (v_rps (view P r s)) with (count r (sp_sends (spec_at P s))).
    rewrite (count_in _ _ Hb). split; [|done].
    eapply view_step_intro; [done|exact He|by repeat constructor| |].
    + view_fields. reflexivity.
    + change (count r (remove_first r (sp_sends (spec_at P s))) ≤ count r (sp_sends (spec_at P s)))%nat.
      rewrite (count_in _ _ Hb). lia.
  - M_inv H. apply ret_inv in H as [-> ->].
    eapply effect_unlock in He as [He Hb]; [|done|exact Hm1|exact H1]. injection Hb as Hb.
    symmetry in Hb. apply bool_decide_eq_false in Hb. change (r ∉ sp_sends (spec_at P s)) in Hb.
    destruct (shifted_notin _ _ Hb) as [Hs Hc]. split; [|by rewrite Hc].
    eapply view_step_intro; [done|exact He|constructor| |done].
    view_fields. rewrite spec_shift_send, Hs. reflexivity.
Qed.

(* ------------------------------------------------------------------ *)
(** ** Receiving from any rank *)

Lemma existsb_elem r l : existsb (Z.eqb r) l = true ↔ r ∈ l.
Proof.
  rewrite existsb_exists. setoid_rewrite Z.eqb_eq. setoid_rewrite <-list_elem_of_In. naive_solver.
Qed.

Lemma take_accepting_Some r q u q' : take_accepting r q = Some (u, q') → sublist q' q.
Proof.
  revert u q'. induction q as [|[u1 ranks] q IH]; intros u q' H; [done|]. cbn in H. case_match.
  - injection H as <- <-. by apply sublist_cons.
  - destruct (take_accepting r q) as [[u2 q2]|]; [|done]. injection H as <- <-.
    apply sublist_skip. by eapply IH.
Qed.
Lemma take_accepting_None r q u ranks : take_accepting r q = None → (u, ranks) ∈ q → r ∉ ranks.
Proof.
  induction q as [|[u1 ranks1] q IH]; intros H Hin; [set_solver|]. cbn in H.
  destruct (existsb (Z.eqb r) ranks1) eqn:E; [done|].
  apply elem_of_cons in Hin as [[= <- <-]|Hin].
  - intros Hr%existsb_elem. congruence.
  - apply IH; [|done]. by destruct (take_accepting r q) as [[]|].
Qed.

Lemma effect_find_any P P1 P2 r s lps lpr ws sp evs any o :
  effect P P1 r s lps lpr ws sp evs any → findRecvFromAny s r P1 = (Val o, P2) →
  match o with
  | None => P2 = P1 ∧ (∀ q u ranks, any !! s = Some q → (u, ranks) ∈ q → r ∉ ranks)
  | Some u => ∃ q q', any !! s = Some q ∧ sublist q' q ∧ effect P P2 r s lps lpr ws sp evs (queue_set s q' any)
  end.
Proof.
  intros He H. unfold findRecvFromAny in H. M_inv H. rewrite (ef_any _ _ _ _ _ _ _ _ _ _ He) in H.
  destruct (any !! s) as [q|] eqn:Hq; cbn [mbind option_bind] in H.
  - destruct (take_accepting r q) as [[u q']|] eqn:Ht.
    + M_inv H. apply ret_inv in H as [-> ->]. exists q, q'. split; [done|].
      split; [by eapply take_accepting_Some|]. rewrite <-(app_nil_r evs).
      eapply effect_context; [exact He|..]; rewrite ?app_nil_r; try done; try apply He.
      change (queue_set s q' (px_pendingRecv P1) = queue_set s q' any).
      by rewrite (ef_any _ _ _ _ _ _ _ _ _ _ He).
    + apply ret_inv in H as [-> ->]. split; [done|]. intros q0 u ranks [= <-]. by eapply take_accepting_None.
  - apply ret_inv in H as [-> ->]. split; [done|]. by intros.
Qed.

Lemma findRank_view P P' s u ranks o :
  proc_ok P → recvFromAnyFindRank s u ranks P = (Val o, P') →
  proc_ok P' ∧ (∀ r' s', view P' r' s' = view P r' s').
Proof.
  intros Hok H. unfold recvFromAnyFindRank in H. M_inv H. destruct (find _ _) as [r|] eqn:Hf.
  - by apply ret_inv in H as [_ ->].
  - M_inv H. apply ret_inv in H as [_ ->]. split; [|done]. destruct Hok. split; try done.
    intros s' q u' ranks' r Hq Hu Hr.
    change (queue_push s (u, ranks) (px_pendingRecv P) !! s' = Some q) in Hq.
    change (v_rps (view P r s') = O). unfold queue_push in Hq.
    destruct (decide (s = s')) as [->|Hs].
    + rewrite lookup_insert_eq in Hq. injection Hq as <-. apply elem_of_app in Hu as [Hu|Hu].
      * destruct (px_pendingRecv P !! s') as [q|] eqn:E; [by eapply po_any0|cbn in Hu; set_solver].
      * apply list_elem_of_singleton in Hu as [= -> ->]. apply count_zero. intros Hin.
        pose proof (find_none _ _ Hf r) as Hn. rewrite <-list_elem_of_In in Hn.
        specialize (Hn Hin). cbn in Hn. apply existsb_elem in Hr. congruence.
    + rewrite lookup_insert_ne in Hq by done. by eapply po_any0.
Qed.

(* ------------------------------------------------------------------ *)
(** ** The handlers *)

(** What the announcement of a send does. *)
Inductive announced (v : View) : View → Prop :=
  | ann_owed n : v_exp v = S n → announced v (v <| v_exp := n |>)
  | ann_match u : v_exp v = O →
      announced v (v <| v_lpr ::= λ l, l ++ [u] |> <| v_post ::= λ l, l ++ [u] |> <| v_nrr ::= S |>)
  | ann_wait : v_exp v = O → announced v (v <| v_rps ::= S |>).

Lemma handleRemotePendingSend_view P P' r op :
  proc_ok P → handleRemotePendingSend r op P = (Val (), P') →
  ∃ v', view_step P P' r (op_slot op) v' ∧ announced (view P r (op_slot op)) v'.
Proof.
  intros Hok H. unfold handleRemotePendingSend in H. set (s := op_slot op) in *. M_inv H.
  apply mutator_inv in H0 as [-> ->].
  destruct (shiftExpectedSendNotification _) as [b m] eqn:Hm. apply shift_expected_cases in Hm as [Hm1 Hm2].
  pose proof (effect_refl P r s Hok) as He.
  destruct b.
  - eapply effect_unlock in He as [He Hb]; [|done|exact Hm1|exact H]. injection Hb as Hb.
    symmetry in Hb. apply bool_decide_eq_true in Hb. change (r ∈ sp_expected (spec_at P s)) in Hb.
    eexists. split; [|exact (ann_owed (view P r s) _ (count_in _ _ Hb))].
    eapply view_step_intro; [done|exact He|constructor| |done]. view_fields. reflexivity.
  - M_inv H. eapply effect_find_any in H0; [|exact He]. destruct a as [u|].
    + destruct H0 as (q & q' & Hq & Hsub & He'). clear He. do 2 M_inv H.
      eapply effect_push_recv in He'; [|exact H0]. eapply effect_send in He'; [|exact H1|done].
      eapply effect_unlock in He' as [He Hb]; [|done|exact Hm1|exact H]. injection Hb as Hb.
      symmetry in Hb. apply bool_decide_eq_false in Hb. change (r ∉ sp_expected (spec_at P s)) in Hb.
      destruct (shifted_notin _ _ Hb) as [Hs Hc].
      eexists. split; [|exact (ann_match (view P r s) u Hc)].
      assert (view P' r s = view P r s <| v_lpr ::= λ l, l ++ [u] |> <| v_post ::= λ l, l ++ [u] |> <| v_nrr ::= S |>) as Hv.
      { rewrite (effect_view _ _ _ _ _ _ _ _ _ _ He). view_fields. rewrite spec_shift_expected, Hs. reflexivity. }
      assert (∀ r' s', ¬ (r' = r ∧ s' = s) → view P' r' s' = view P r' s') as Hne.
      { intros r' s' Hn. eapply effect_view_ne; [exact He|apply spec_run_counts|by repeat constructor|done]. }
      split_and!; [|done|done]. eapply effect_ok; [done|exact He|].
      intros s' q2 u2 ranks r2 Hq2 Hu2 Hr2.
      assert (v_rps (view P r2 s') = O) as Hz.
      { unfold queue_set in Hq2. destruct (decide (s = s')) as [->|].
        - destruct q' as [|x q']; [by rewrite lookup_delete_eq in Hq2|].
          rewrite lookup_insert_eq in Hq2. injection Hq2 as <-.
          eapply (po_any P Hok); [exact Hq| |exact Hr2]. by eapply elem_of_sublist.
        - assert (px_pendingRecv P !! s' = Some q2) as Hq3.
          { destruct q' as [|x q']; [by rewrite lookup_delete_ne in Hq2|by rewrite lookup_insert_ne in Hq2]. }
          by eapply (po_any P Hok). }
      destruct (decide (r2 = r ∧ s' = s)) as [[-> ->]|Hn]; [|by rewrite Hne]. rewrite Hv. exact Hz.
    + destruct H0 as [-> Hnone].
      eapply effect_unlock in He as [He Hb]; [|done|exact Hm2|exact H]. injection Hb as Hb.
      symmetry in Hb. apply bool_decide_eq_false in Hb. change (r ∉ sp_expected (spec_at P s)) in Hb.
      destruct (shifted_notin _ _ Hb) as [Hs Hc].
      eexists. split; [|exact (ann_wait (view P r s) Hc)].
      assert (view P' r s = view P r s <| v_rps ::= S |>) as Hv.
      { rewrite (effect_view _ _ _ _ _ _ _ _ _ _ He). view_fields. rewrite spec_shift_expected_push, Hs.
        change (sp_sends (spec_at P s <| sp_expected := sp_expected (spec_at P s) |> <| sp_sends ::= λ l, l ++ [r] |>))
          with (sp_sends (spec_at P s) ++ [r]).
        rewrite count_app, count_one, decide_True, Nat.add_1_r by done. reflexivity. }
      assert (∀ r' s', ¬ (r' = r ∧ s' = s) → view P' r' s' = view P r' s') as Hne.
      { intros r' s' Hn. eapply effect_view_ne; [exact He|apply spec_run_counts|constructor|done]. }
      split_and!; [|done|done]. eapply effect_ok; [done|exact He|].
      intros s' q2 u2 ranks r2 Hq2 Hu2 Hr2.
      destruct (decide (r2 = r ∧ s' = s)) as [[-> ->]|Hn].
      * exfalso. by eapply Hnone.
      * rewrite Hne by done. by eapply (po_any P Hok).
Qed.

Definition view_ready (v : View) : View :=
  match v_lps v with
  | u :: q => v <| v_lps := q |> <| v_data ::= λ l, l ++ [u] |>
  | [] => v <| v_rpr ::= S |>
  end.

Lemma handleRemotePendingRecv_view P P' r op :
  proc_ok P → handleRemotePendingRecv r op P = (Val (), P') →
  view_step P P' r (op_slot op) (view_ready (view P r (op_slot op))).
Proof.
  intros Hok H. unfold handleRemotePendingRecv in H. set (s := op_slot op) in *. M_inv H.
  pose proof (effect_refl P r s Hok) as He. unfold view_ready.
  change (v_lps (view P r s)) with (queue_at (pr_localPendingSend (px_pairs P r)) s).
  unfold queue_at. destruct (pr_localPendingSend (px_pairs P r) !! s) as [[|u q]|] eqn:Hq; cbn [default]; [done| |].
  - M_inv H. eapply effect_set_send in He; [|exact H0]. eapply effect_send in He; [|exact H|done].
    eapply (view_step_intro _ _ _ _ _ _ _ []); [done|exact He|constructor| |done].
    view_fields. reflexivity.
  - M_inv H. apply mutator_inv in H0 as [-> ->].
    assert (mutator_of P r s [PushRecv] [true] (pushRemotePendingRecv
      (Mutator_new (px_pendingOperations P) (px_expectedNotifications P) s r))) as Hm by done.
    eapply effect_unlock in He as [He _]; [|done|exact Hm|exact H].
    eapply view_step_intro; [done|exact He|constructor| |done].
    view_fields. rewrite spec_push_recv.
    change (sp_recvs (spec_at P s <| sp_recvs ::= λ l, l ++ [r] |>)) with (sp_recvs (spec_at P s) ++ [r]).
    rewrite count_app, count_one, decide_True, Nat.add_1_r by done. reflexivity.
Qed.

Lemma receiveUnbound_view P P' r op :
  proc_ok P → receiveUnbound r op P = (Val (), P') →
  let v := view P r (op_slot op) in
  ∃ u q, v_lpr v = u :: q ∧ pa_length (op_preamble op) ≤ uo_nbytes u ∧
    view_step P P' r (op_slot op) (v <| v_lpr := q |> <| v_deliv ::= λ l, l ++ [(op_uop op, u)] |>).
Proof.
  intros Hok H. unfold receiveUnbound in H. set (s := op_slot op) in *. M_inv H.
  pose proof (effect_refl P r s Hok) as He. cbv zeta.
  change (v_lpr (view P r s)) with (queue_at (pr_localPendingRecv (px_pairs P r)) s).
  unfold queue_at in *. destruct (pr_localPendingRecv (px_pairs P r) !! s) as [[|u q]|] eqn:Hq; [done| |done].
  do 3 M_inv H. exists u, q. split; [done|]. split.
  { unfold enforce in H1. destruct (Z.leb_spec (pa_length (op_preamble op)) (uo_nbytes u)); [done|done]. }
  eapply effect_pop_recv in He; [|exact H0]. eapply effect_ubuf in He; [|exact H2].
  eapply effect_log in He; [|exact H].
  eapply (view_step_intro _ _ _ _ _ _ _ []); [done|exact He|by repeat constructor| |done].
  view_fields. reflexivity.
Qed.

(* ------------------------------------------------------------------ *)
(** * The two ends stay linked *)

(** The view of the sender after its oldest message left the wire. *)
Inductive popped (op : Op) (v : View) : View → Prop :=
  | pop_data q : op_code op = SEND_UNBOUND_BUFFER → v_data v = op_uop op :: q → popped op v (v <| v_data := q |>)
  | pop_nsr n : op_code op = NOTIFY_SEND_READY → v_nsr v = S n → popped op v (v <| v_nsr := n |>)
  | pop_nrr n : op_code op = NOTIFY_RECV_READY → v_nrr v = S n → popped op v (v <| v_nrr := n |>)
  | pop_bound : op_code op = SEND_BUFFER → popped op v v.

Lemma link_send a b u : link a b → link (view_send u a) b.
Proof.
  intros []. unfold view_send. destruct (v_rpr a) as [|n] eqn:Hr; split; cbn; rewrite ?length_app; cbn.
  all: try done; try lia.
  - rewrite lk_sends0. by rewrite !app_assoc.
  - destruct lk_idle0 as [Hl|]; [|done]. rewrite lk_sends0, Hl. by rewrite !app_nil_r, app_assoc.
  - destruct lk_idle0 as [Hl|]; [by left|done].
Qed.

Lemma link_send_peer a b u : link a b → link a (view_send u b).
Proof. intros []. unfold view_send. destruct (v_rpr b) as [|n]; split; cbn; done. Qed.

Lemma link_recv a b u : link a b → link a (view_recv u b).
Proof.
  intros []. unfold view_recv. destruct (v_rps b) as [|n] eqn:Hr; split; cbn; rewrite ?length_app; cbn.
  all: try done; try lia.
  all: rewrite ?lk_recvs0, ?app_assoc; done.
Qed.
Lemma link_recv_peer a b u : link a b → link (view_recv u a) b.
Proof. intros []. unfold view_recv. destruct (v_rps a) as [|n]; split; cbn; done. Qed.

(** Delivering the oldest message of the connection from [a] to [b]: what
    [a] sends, and what [a] receives. *)
Lemma link_announced a b a' b' op :
  link a b → popped op a a' → op_code op = NOTIFY_SEND_READY → announced b b' → link a' b'.
Proof.
  intros [] Hp Hc Ha. destruct Hp as [q Hc'|n Hc' Hn|n Hc'|]; try congruence.
  destruct Ha as [m Hm|u Hm|Hm]; split; cbn; rewrite ?length_app; cbn; try done; try lia.
  rewrite lk_recvs0, app_assoc. done.
Qed.
Lemma link_announced_peer a b a' b' op :
  link b a → popped op a a' → op_code op = NOTIFY_SEND_READY → announced b b' → link b' a'.
Proof.
  intros [] Hp Hc Ha. destruct Hp as [q Hc'|n Hc' Hn|n Hc'|]; try congruence.
  destruct Ha as [m Hm|u Hm|Hm]; split; cbn; done.
Qed.

Lemma link_ready a b a' op :
  link a b → popped op a a' → op_code op = NOTIFY_RECV_READY → link a' (view_ready b).
Proof.
  intros [] Hp Hc. destruct Hp as [q Hc'|n Hc' Hn|n Hc'|]; try congruence.
  unfold view_ready. destruct (v_lps b); split; cbn; done.
Qed.
Lemma link_ready_peer a b a' op :
  link b a → popped op a a' → op_code op = NOTIFY_RECV_READY → link (view_ready b) a'.
Proof.
  intros [] Hp Hc. destruct Hp as [q Hc'|n Hc'|n Hc' Hn|]; try congruence.
  unfold view_ready. destruct (v_lps b) as [|u q] eqn:Hl; split; cbn; rewrite ?length_app; cbn; try done; try lia.
  - rewrite Hl. done.
  - rewrite Hl. by left.
  - rewrite lk_sends0, <-!app_assoc. done.
  - destruct lk_idle0; [done|by right].
Qed.

Lemma link_data a b a' op u q :
  link a b → popped op a a' → op_code op = SEND_UNBOUND_BUFFER → v_lpr b = u :: q →
  link a' (b <| v_lpr := q |> <| v_deliv ::= λ l, l ++ [(op_uop op, u)] |>).
Proof.
  intros [] Hp Hc Hl. destruct Hp as [d Hc' Hd|n Hc'|n Hc' Hn|]; try congruence.
  split; cbn; rewrite ?length_app, ?fmap_app; cbn; try done; try lia.
  - rewrite lk_sends0, Hd, <-!app_assoc. done.
  - rewrite lk_recvs0, Hl, <-!app_assoc. done.
  - rewrite Hd in lk_ready0. cbn in lk_ready0. lia.
Qed.
Lemma link_data_peer a b a' op u q :
  link b a → popped op a a' → op_code op = SEND_UNBOUND_BUFFER →
  link (b <| v_lpr := q |> <| v_deliv ::= λ l, l ++ [(op_uop op, u)] |>) a'.
Proof. intros [] Hp Hc. destruct Hp; try congruence. by split. Qed.

(** Linked ends never make the handlers' checks fail. *)
Lemma link_data_posted a b q u : link a b → v_data a = u :: q → v_lpr b ≠ [].
Proof.
  intros [] Hd Hl. rewrite lk_recvs0, Hl, Hd, length_app, length_fmap in lk_ready0. cbn in lk_ready0. lia.
Qed.

(* ------------------------------------------------------------------ *)
(** * Reachable systems *)

Lemma set_proc_eq p P S : set_proc p P S p = P.
Proof. unfold set_proc. by rewrite decide_True. Qed.
Lemma set_proc_ne p q P S : q ≠ p → set_proc p P S q = S q.
Proof. intros. unfold set_proc. by rewrite decide_False. Qed.

(** An operation at [p] that changed its view of [q] on one slot. *)
Lemma sys_ok_local S p q s v P' :
  sys_ok S → p ≠ q → view_step (S p) P' q s v →
  link v (view (S q) p s) → link (view (S q) p s) v → sys_ok (set_proc p P' S).
Proof.
  intros [Hp Hl] Hpq (Hok & Hv & Hne) L1 L2.
  assert (∀ b s', p ≠ b → link (view P' b s') (view (S b) p s') ∧ link (view (S b) p s') (view P' b s')) as Hcase.
  { intros b s' Hb. destruct (decide (b = q ∧ s' = s)) as [[-> ->]|Hn]; [by rewrite Hv|].
    rewrite Hne by done. split; by apply Hl. }
  split.
  - intros a. destruct (decide (a = p)) as [->|]; [by rewrite set_proc_eq|by rewrite set_proc_ne].
  - intros a b s' Hab. destruct (decide (a = p)) as [->|Ha].
    + rewrite set_proc_eq, set_proc_ne by done. by apply Hcase.
    + rewrite (set_proc_ne _ a) by done. destruct (decide (b = p)) as [->|Hb].
      * rewrite set_proc_eq. by apply Hcase.
      * rewrite set_proc_ne by done. by apply Hl.
Qed.

Lemma sys_ok_same S p P' :
  sys_ok S → proc_ok P' → (∀ r s, view P' r s = view (S p) r s) → sys_ok (set_proc p P' S).
Proof.
  intros [Hp Hl] Hok Hv. split.
  - intros a. destruct (decide (a = p)) as [->|]; [by rewrite set_proc_eq|by rewrite set_proc_ne].
  - intros a b s Hab. destruct (decide (a = p)) as [->|Ha]; [|rewrite (set_proc_ne _ a) by done].
    + rewrite set_proc_eq, set_proc_ne by done. rewrite Hv. by apply Hl.
    + destruct (decide (b = p)) as [->|Hb]; [rewrite set_proc_eq, Hv|rewrite set_proc_ne by done]; by apply Hl.
Qed.

(** Taking the oldest message off the wire. *)
Definition pop_wire (q : Z) (ops : list Op) (P : Proc) : Proc :=
  P <| px_pairs ::= λ g r, if decide (r = q) then g r <| pr_wire := ops |> else g r |>.

Lemma pop_wire_views P q op ops :
  pr_wire (px_pairs P q) = op :: ops →
  popped op (view P q (op_slot op)) (view (pop_wire q ops P) q (op_slot op)) ∧
  (∀ r s, ¬ (r = q ∧ s = op_slot op) → view (pop_wire q ops P) r s = view P r s).
Proof.
  intros Hw.
  assert (∀ r, r ≠ q → px_pairs (pop_wire q ops P) r = px_pairs P r) as Hr.
  { intros r Hr. unfold pop_wire. cbn. by rewrite decide_False. }
  assert (px_pairs (pop_wire q ops P) q = px_pairs P q <| pr_wire := ops |>) as Hq.
  { unfold pop_wire. cbn. by rewrite decide_True. }
  assert (∀ c s, filter (is_op c s) (op :: ops) =
    if decide (is_op c s op) then op :: filter (is_op c s) ops else filter (is_op c s) ops) as Hf.
  { intros. by rewrite filter_cons. }
  split.
  - assert (view (pop_wire q ops P) q (op_slot op) = view P q (op_slot op)
      <| v_data := data_of (op_slot op) ops |> <| v_nsr := num_of NOTIFY_SEND_READY (op_slot op) ops |>
      <| v_nrr := num_of NOTIFY_RECV_READY (op_slot op) ops |>) as ->.
    { unfold view. rewrite Hq. reflexivity. }
    assert (∀ c, op_code op ≠ c → num_of c (op_slot op) (op :: ops) = num_of c (op_slot op) ops) as Hn.
    { intros c Hc. unfold num_of. rewrite Hf, decide_False; [done|]. unfold is_op. naive_solver. }
    assert (op_code op ≠ SEND_UNBOUND_BUFFER → data_of (op_slot op) (op :: ops) = data_of (op_slot op) ops) as Hd.
    { intros Hc. unfold data_of. rewrite Hf, decide_False; [done|]. unfold is_op. naive_solver. }
    assert (num_of (op_code op) (op_slot op) (op :: ops) = S (num_of (op_code op) (op_slot op) ops)) as Hs.
    { unfold num_of. by rewrite Hf, decide_True. }
    set (v := view P q (op_slot op)).
    assert (v_data v = data_of (op_slot op) (op :: ops) ∧ v_nsr v = num_of NOTIFY_SEND_READY (op_slot op) (op :: ops) ∧
      v_nrr v = num_of NOTIFY_RECV_READY (op_slot op) (op :: ops)) as (V1 & V2 & V3).
    { unfold v, view. by rewrite Hw. }
    assert (v = v <| v_data := v_data v |> <| v_nsr := v_nsr v |> <| v_nrr := v_nrr v |>) as Hv by (by destruct v).
    destruct (op_code op) eqn:Hc.
    + rewrite <-Hd, <-!Hn, <-V1, <-V2, <-V3, <-Hv by done. by constructor.
    + rewrite <-!Hn, <-V2, <-V3 by done.
      change (popped op v (v <| v_data := data_of (op_slot op) ops |>)). constructor; [done|].
      rewrite V1. unfold data_of. rewrite Hf, decide_True; [done|]. by split.
    + rewrite <-Hd, <-(Hn NOTIFY_RECV_READY), <-V1, <-V3 by done.
      change (popped op v (v <| v_nsr := num_of NOTIFY_SEND_READY (op_slot op) ops |>)).
      constructor; [done|]. by rewrite V2.
    + rewrite <-Hd, <-(Hn NOTIFY_SEND_READY), <-V1, <-V2 by done.
      change (popped op v (v <| v_nrr := num_of NOTIFY_RECV_READY (op_slot op) ops |>)).
      constructor; [done|]. by rewrite V3.
  - intros r s Hne. unfold view. destruct (decide (r = q)) as [->|Hrq]; [|by rewrite Hr].
    assert (s ≠ op_slot op) as Hs by naive_solver.
    assert (∀ c, filter (is_op c s) (op :: ops) = filter (is_op c s) ops) as Hf'.
    { intros c. rewrite Hf, decide_False; [done|]. unfold is_op. naive_solver. }
    rewrite Hq, Hw. unfold data_of, num_of. rewrite !Hf'. reflexivity.
Qed.

Lemma pop_wire_ok P q op ops : pr_wire (px_pairs P q) = op :: ops → proc_ok P → proc_ok (pop_wire q ops P).
Proof.
  intros Hw []. destruct (pop_wire_views P q op ops Hw) as [_ _].
  assert (∀ r, pr_localPendingSend (px_pairs (pop_wire q ops P) r) = pr_localPendingSend (px_pairs P r) ∧
    pr_localPendingRecv (px_pairs (pop_wire q ops P) r) = pr_localPendingRecv (px_pairs P r) ∧
    pr_sync (px_pairs (pop_wire q ops P) r) = pr_sync (px_pairs P r)) as Hr.
  { intros r. unfold pop_wire. cbn. by destruct (decide (r = q)). }
  split; try done.
  - intros r s. destruct (Hr r) as (-> & _ & _). done.
  - intros r s. destruct (Hr r) as (_ & -> & _). done.
  - intros r. destruct (Hr r) as (_ & _ & ->). done.
Qed.

Lemma sys_ok_read S p q op ops Q' v' :
  sys_ok S → p ≠ q → pr_wire (px_pairs (S p) q) = op :: ops →
  view_step (S q) Q' p (op_slot op) v' →
  (∀ a', popped op (view (S p) q (op_slot op)) a' → link a' v' ∧ link v' a') →
  sys_ok (set_proc q Q' (set_proc p (pop_wire q ops (S p)) S)).
Proof.
  intros [Hp Hl] Hpq Hw (Hok & Hv & Hne) Hlink. destruct (pop_wire_views _ _ _ _ Hw) as [Hpop Hpne].
  set (P' := pop_wire q ops (S p)) in *. destruct (Hlink _ Hpop) as [L1 L2].
  set (S' := set_proc q Q' (set_proc p P' S)).
  assert (S' p = P') as Ep by (unfold S'; by rewrite set_proc_ne, set_proc_eq).
  assert (S' q = Q') as Eq by (unfold S'; by rewrite set_proc_eq).
  assert (∀ x, x ≠ p → x ≠ q → S' x = S x) as Ex by (intros; unfold S'; by rewrite !set_proc_ne).
  assert (∀ x r s, ¬ (x = p ∧ r = q ∧ s = op_slot op) → ¬ (x = q ∧ r = p ∧ s = op_slot op) →
    view (S' x) r s = view (S x) r s) as Hsame.
  { intros x r s H1 H2. destruct (decide (x = p)) as [->|]; [rewrite Ep; apply Hpne; naive_solver|].
    destruct (decide (x = q)) as [->|]; [rewrite Eq; apply Hne; naive_solver|by rewrite Ex]. }
  split.
  - intros x. destruct (decide (x = p)) as [->|]; [rewrite Ep; by eapply pop_wire_ok|].
    destruct (decide (x = q)) as [->|]; [by rewrite Eq|by rewrite Ex].
  - intros x y s Hxy. destruct (decide (x = p ∧ y = q ∧ s = op_slot op)) as [(-> & -> & ->)|H1].
    { by rewrite Ep, Eq, Hv. }
    destruct (decide (x = q ∧ y = p ∧ s = op_slot op)) as [(-> & -> & ->)|H2].
    { by rewrite Ep, Eq, Hv. }
    rewrite !Hsame by naive_solver. by apply Hl.
Qed.

Lemma receiveBound_view P P' r op b :
  proc_ok P → receiveBound r op P = (Val b, P') → proc_ok P' ∧ (∀ r' s', view P' r' s' = view P r' s').
Proof.
  intros [] H. unfold receiveBound in H. M_inv H.
  destruct (pr_buffers (px_pairs P r) !! s32 (op_slot op)) as [[size n]|].
  - M_inv H. do 1 M_inv H. apply ret_inv in H as [_ ->]. apply modify_inv in H1 as ->.
    set (P' := P <| px_pairs ::= _ |>).
    assert (∀ r', pr_localPendingSend (px_pairs P' r') = pr_localPendingSend (px_pairs P r') ∧
      pr_localPendingRecv (px_pairs P' r') = pr_localPendingRecv (px_pairs P r') ∧
      pr_sync (px_pairs P' r') = pr_sync (px_pairs P r') ∧ pr_wire (px_pairs P' r') = pr_wire (px_pairs P r')) as Hr.
    { intros r'. unfold P'. cbn. by destruct (decide (r' = r)). }
    assert (∀ r' s', view P' r' s' = view P r' s') as Hv.
    { intros r' s'. unfold view. destruct (Hr r') as (-> & -> & _ & ->). reflexivity. }
    split; [|done]. split; try done.
    + intros r' s'. destruct (Hr r') as (-> & _). done.
    + intros r' s'. destruct (Hr r') as (_ & -> & _). done.
    + intros r'. destruct (Hr r') as (_ & _ & -> & _). done.
  - apply ret_inv in H as [_ ->]. by split.
Qed.

Lemma sys_step_ok S S' : sys_ok S → sys_step S S' → sys_ok S'.
Proof.
  intros HS Hstep. pose proof (so_procs S HS) as Hp.
  destruct Hstep as [p q slot u size P' Hpq H|p q slot u size P' Hpq H|p q slot u size b P' Hpq H|
    p slot u ranks o P' H|p q op ops b Q' Hpq Hw H ->].
  - apply Pair_send_view in H; [|done]. assert (q ≠ p) as Hqp by done. eapply sys_ok_local; [done|done|exact H|..].
    + apply link_send. by apply HS.
    + apply link_send_peer. by apply HS.
  - apply Pair_recv_view in H; [|done]. assert (q ≠ p) as Hqp by done. eapply sys_ok_local; [done|done|exact H|..].
    + apply link_recv_peer. by apply HS.
    + apply link_recv. by apply HS.
  - apply Pair_tryRecv_view in H as [H _]; [|done]. assert (q ≠ p) as Hqp by done.
    eapply sys_ok_local; [done|done|exact H|..]; destruct b.
    + apply link_recv_peer. by apply HS.
    + by apply HS.
    + apply link_recv. by apply HS.
    + by apply HS.
  - apply findRank_view in H as [Hok Hv]; [|done]. by apply sys_ok_same.
  - change (sys_ok (set_proc q Q' (set_proc p (pop_wire q ops (S p)) S))). assert (q ≠ p) as Hqp by done.
    pose proof (so_links S HS p q (op_slot op) Hpq) as L1.
    pose proof (so_links S HS q p (op_slot op) ltac:(done)) as L2.
    unfold Pair_read in H. destruct (op_code op) eqn:Hc.
    + apply receiveBound_view in H as [Hok Hv]; [|done].
      eapply sys_ok_read; [done|done|exact Hw|split_and!; [exact Hok|apply Hv|by intros; rewrite Hv]|].
      intros a' Hpop. destruct Hpop; try congruence. by rewrite <-?Hv in *.
    + M_inv H. apply ret_inv in H as [_ ->].
      apply receiveUnbound_view in H0 as (u & l & Hl & _ & Hv); [|done].
      eapply sys_ok_read; [done|done|exact Hw|exact Hv|]. intros a' Hpop. split.
      * eapply link_data; [exact L1|exact Hpop|done|exact Hl].
      * eapply link_data_peer; [exact L2|exact Hpop|done].
    + M_inv H. apply ret_inv in H as [_ ->].
      apply handleRemotePendingSend_view in H0 as (v' & Hv & Ha); [|done].
      eapply sys_ok_read; [done|done|exact Hw|exact Hv|]. intros a' Hpop. split.
      * eapply link_announced; [exact L1|exact Hpop|done|exact Ha].
      * eapply link_announced_peer; [exact L2|exact Hpop|done|exact Ha].
    + M_inv H. apply ret_inv in H as [_ ->].
      apply handleRemotePendingRecv_view in H0; [|done].
      eapply sys_ok_read; [done|done|exact Hw|exact H0|]. intros a' Hpop. split.
      * eapply link_ready; [exact L1|exact Hpop|done].
      * eapply link_ready_peer; [exact L2|exact Hpop|done].
Qed.

Lemma Proc_init_ok : proc_ok Proc_init.
Proof. split; try done. split; split; by constructor. Qed.

Lemma sys_reach_ok S : sys_reach S → sys_ok S.
Proof.
  induction 1 as [|S S' _ IH Hs]; [|by eapply sys_step_ok].
  split; [intros p; apply Proc_init_ok|]. intros p q s Hpq. by split; [..|left|left].
Qed.

(* ------------------------------------------------------------------ *)
(** * The handlers' checks do not fail *)

Definition runs {A} (m : M Proc A) (P : Proc) : Prop := ∃ a P', m P = (Val a, P').

Lemma runs_bind {A B} (m : M Proc A) (f : A → M Proc B) P :
  runs m P → (∀ a P', m P = (Val a, P') → runs (f a) P') → runs (m ≫= f) P.
Proof.
  intros (a & P' & H) Hf. destruct (Hf a P' H) as (b & P2 & H2). exists b, P2.
  by erewrite M_bind_val by exact H.
Qed.
Lemma runs_modify f P : runs (modify f) P.
Proof. by eexists _, _. Qed.
Lemma runs_gets {A} (f : Proc → A) P : runs (gets f) P.
Proof. by eexists _, _. Qed.
Lemma runs_ret {A} (a : A) P : runs (mret a) P.
Proof. by eexists _, _. Qed.
Lemma runs_send r op P : pr_sync (px_pairs P r) = false → runs (sendAsyncMode r op) P.
Proof.
  intros Hs. unfold sendAsyncMode. apply runs_bind; [apply runs_gets|]. intros a P' [-> ->]%gets_inv.
  rewrite Hs. apply runs_bind; [by eexists _, _|]. intros a P' [_ ->]%lift_inv. apply runs_modify.
Qed.
Lemma runs_push_recv r s u P : runs (push_local_recv r s u) P.
Proof. apply runs_bind; [apply runs_modify|]. intros. apply runs_modify. Qed.
Lemma runs_find_any s r P : runs (findRecvFromAny s r) P.
Proof.
  unfold findRecvFromAny. apply runs_bind; [by eexists _, _|]. intros a P' _.
  destruct (q ← px_pendingRecv a !! s; take_accepting r q) as [[u q]|]; [|apply runs_ret].
  apply runs_bind; [apply runs_modify|]. intros. apply runs_ret.
Qed.

Lemma handleRemotePendingSend_runs r op P : proc_ok P → runs (handleRemotePendingSend r op) P.
Proof.
  intros Hok. unfold handleRemotePendingSend. set (s := op_slot op).
  apply runs_bind; [apply runs_gets|]. intros m P' [-> ->]%mutator_inv.
  destruct (shiftExpectedSendNotification _) as [[] m']; [apply runs_modify|].
  apply runs_bind; [apply runs_find_any|]. intros o P1 H.
  eapply effect_find_any in H; [|by apply (effect_refl P r s)]. destruct o as [u|]; [|apply runs_modify].
  destruct H as (q & q' & _ & _ & He).
  apply runs_bind; [apply runs_push_recv|]. intros [] P2 H2. eapply effect_push_recv in He; [|exact H2].
  apply runs_bind; [|intros; apply runs_modify]. apply runs_send. by eapply ef_sync.
Qed.

Lemma handleRemotePendingRecv_runs r op P : proc_ok P → runs (handleRemotePendingRecv r op) P.
Proof.
  intros Hok. unfold handleRemotePendingRecv. set (s := op_slot op).
  apply runs_bind; [apply runs_gets|]. intros q P' [-> ->]%gets_inv.
  destruct (pr_localPendingSend (px_pairs P r) !! s) as [[|u q]|] eqn:Hq.
  - by apply (po_send P Hok) in Hq.
  - apply runs_bind; [apply runs_modify|]. intros [] P1 H.
    eapply effect_set_send in H; [|by apply (effect_refl P r s)]. apply runs_send. by eapply ef_sync.
  - apply runs_bind; [apply runs_gets|]. intros. apply runs_modify.
Qed.

Lemma receiveUnbound_runs r op P u q :
  pr_localPendingRecv (px_pairs P r) !! op_slot op = Some (u :: q) →
  pa_length (op_preamble op) ≤ uo_nbytes u → runs (receiveUnbound r op) P.
Proof.
  intros Hq Hle. unfold receiveUnbound. apply runs_bind; [apply runs_gets|]. intros o P' [-> ->]%gets_inv.
  rewrite Hq. apply runs_bind; [apply runs_modify|]. intros [] P1 _.
  rewrite (proj2 (Z.leb_le _ _) Hle). apply runs_bind; [by eexists _, _|]. intros [] P2 _.
  apply runs_bind; [apply runs_modify|]. intros. apply runs_modify.
Qed.

(* ------------------------------------------------------------------ *)
(** * A run: 0 receives from 1 on slot 5, eight bytes *)

Definition demo_u : UOp := mkUOp 3 0 8.
Definition demo1 : System := set_proc 0 (Pair_recv 1 5 demo_u 8 Proc_init).2 (λ _, Proc_init).
Definition demo2 : System := set_proc 1 (Pair_send 0 5 demo_u 8 (demo1 1)).2 demo1.
Definition demo_read (p q : Z) (s : System) : System :=
  match pr_wire (px_pairs (s p) q) with
  | [] => s
  | op :: ops =>
      set_proc q (Pair_read p op (s q)).2 (set_proc p (s p <| px_pairs ::= λ g r,
        if decide (r = q) then g r <| pr_wire := ops |> else g r |>) s)
  end.
Definition demo3 : System := demo_read 1 0 (demo_read 0 1 demo2).
Definition demo4 : System := demo_read 1 0 demo3.

Lemma demo2_reach : sys_reach demo2.
Proof.
  eapply reach_step; [eapply reach_step; [apply reach_init|]|].
  - apply (step_recv _ 0 1 5 demo_u 8); [done|]. by vm_compute.
  - apply (step_send _ 1 0 5 demo_u 8); [done|]. by vm_compute.
Qed.

Lemma demo_read_reach p q op ops s :
  sys_reach s → p ≠ q → pr_wire (px_pairs (s p) q) = op :: ops → (Pair_read p op (s q)).1 = Val true →
  sys_reach (demo_read p q s).
Proof.
  intros Hs Hpq Hw Hr. eapply reach_step; [done|]. unfold demo_read. rewrite Hw.
  destruct (Pair_read p op (s q)) as [o Q'] eqn:E. cbn in Hr. subst o. by eapply step_read.
Qed.

Lemma demo3_reach : sys_reach demo3.
Proof.
  unfold demo3. eapply demo_read_reach; [|done|by vm_compute|by vm_compute].
  eapply demo_read_reach; [exact demo2_reach|done|by vm_compute|by vm_compute].
Qed.

Lemma demo4_reach : sys_reach demo4.
Proof. eapply demo_read_reach; [exact demo3_reach|done|by vm_compute|by vm_compute]. Qed.

(** C9: no check of the device threads can fail. In every reachable state the
    oldest message of every connection is processed by its receiver without
    an exception, with one exception: data for a posted receive that is
    shorter than the data, an error of the application. In particular data
    never arrives before its receive was posted. *)
Theorem transport_safe (S : System) (p q : Z) (op : Op) (ops : list Op) :
  sys_reach S → p ≠ q → pr_wire (px_pairs (S p) q) = op :: ops → op_code op ≠ SEND_BUFFER →
  (∃ Q', Pair_read p op (S q) = (Val true, Q')) ∨
  op_code op = SEND_UNBOUND_BUFFER ∧
    ∃ u l, pr_localPendingRecv (px_pairs (S q) p) !! op_slot op = Some (u :: l) ∧
      uo_nbytes u < pa_length (op_preamble op).
Proof.
  intros HS%sys_reach_ok Hpq Hw Hc. pose proof (so_procs S HS q) as Hok.
  assert (∀ (m : M Proc unit), runs m (S q) → ∃ Q', (_ ← m; mret true) (S q) = (Val true, Q')) as Hret.
  { intros m ([] & Q' & Hm). exists Q'. by erewrite M_bind_val by exact Hm. }
  unfold Pair_read. destruct (op_code op) eqn:Hcode; [done| | |].
  - pose proof (so_links S HS p q (op_slot op) Hpq) as L.
    destruct (pop_wire_views _ _ _ _ Hw) as [Hpop _].
    assert (∃ d, v_data (view (S p) q (op_slot op)) = op_uop op :: d) as [d Hd].
    { destruct Hpop as [d ? Hd| | |]; try congruence. by exists d. }
    pose proof (link_data_posted _ _ _ _ L Hd) as Hne.
    change (queue_at (pr_localPendingRecv (px_pairs (S q) p)) (op_slot op) ≠ []) in Hne. unfold queue_at in Hne.
    destruct (pr_localPendingRecv (px_pairs (S q) p) !! op_slot op) as [[|u l]|] eqn:Hq; [done| |done].
    destruct (decide (pa_length (op_preamble op) ≤ uo_nbytes u)).
    + left. apply Hret. by eapply receiveUnbound_runs.
    + right. split; [done|]. exists u, l. split; [done|lia].
  - left. by apply Hret, handleRemotePendingSend_runs.
  - left. by apply Hret, handleRemotePendingRecv_runs.
Qed.

(** The data message is the oldest one in [demo3]. *)
Lemma transport_safe_witness :
  (∃ Q', Pair_read 1 (unbound_op 5 demo_u) (demo3 0) = (Val true, Q')) ∨
  op_code (unbound_op 5 demo_u) = SEND_UNBOUND_BUFFER ∧
    ∃ u l, pr_localPendingRecv (px_pairs (demo3 0) 1) !! op_slot (unbound_op 5 demo_u) = Some (u :: l) ∧
      uo_nbytes u < pa_length (op_preamble (unbound_op 5 demo_u)).
Proof.
  apply (transport_safe demo3 1 0 (unbound_op 5 demo_u) []); [exact demo3_reach|done|by vm_compute|done].
Defined.

(** C8: sends and receives match in order. In every reachable state, what [q]
    received from [p] on a slot is, one for one and in order, the first sends
    [p] posted, each into the receive that [q] posted in the same place of
    its order (receives from any rank included). *)
Theorem transport_matching (S : System) (p q slot : Z) :
  sys_reach S → p ≠ q →
  let sent := sent_of q slot (px_log (S p)) in
  let posted := post_of p slot (px_log (S q)) in
  let received := deliv_of p slot (px_log (S q)) in
  received = zip (take (length received) sent) (take (length received) posted).
Proof.
  intros HS%sys_reach_ok Hpq sent posted received. destruct (so_links S HS p q slot Hpq).
  change (v_sent (view (S p) q slot)) with sent in lk_sends0.
  change (v_post (view (S q) p slot)) with posted in lk_recvs0.
  change (v_deliv (view (S q) p slot)) with received in lk_sends0, lk_recvs0.
  rewrite lk_sends0, lk_recvs0. rewrite !take_app_length' by (by rewrite length_fmap).
  clear. induction received as [|[a b] l IH]; [done|]. cbn. by f_equal.
Qed.

Lemma transport_matching_witness :
  deliv_of 1 5 (px_log (demo4 0)) = [(demo_u, demo_u)] ∧
  deliv_of 1 5 (px_log (demo4 0)) =
    zip (take (length (deliv_of 1 5 (px_log (demo4 0)))) (sent_of 0 5 (px_log (demo4 1))))
        (take (length (deliv_of 1 5 (px_log (demo4 0)))) (post_of 1 5 (px_log (demo4 0)))).
Proof. split; [by vm_compute|]. apply (transport_matching demo4 1 0 5); [exact demo4_reach|done]. Defined.

(** C10: nothing is left waiting. When both directions of a connection have been
    read, every send that has a receive has been delivered: the number of
    deliveries is the smaller of the two; and a receive from any rank is still
    registered only if no eligible rank has a send without a receive. *)
Theorem transport_quiescent (S : System) (p q slot : Z) :
  sys_reach S → p ≠ q → pr_wire (px_pairs (S p) q) = [] → pr_wire (px_pairs (S q) p) = [] →
  let sent := sent_of q slot (px_log (S p)) in
  let posted := post_of p slot (px_log (S q)) in
  length (deliv_of p slot (px_log (S q))) = Nat.min (length sent) (length posted) ∧
  (∀ l u ranks, px_pendingRecv (S q) !! slot = Some l → (u, ranks) ∈ l → p ∈ ranks →
     (length sent ≤ length posted)%nat).
Proof.
  intros HS%sys_reach_ok Hpq Hpw Hqw sent posted. destruct (so_links S HS p q slot Hpq).
  assert (v_data (view (S p) q slot) = []) as Ed by (unfold view; by rewrite Hpw).
  assert (v_nsr (view (S p) q slot) = O) as En by (unfold view; by rewrite Hpw).
  assert (v_nrr (view (S q) p slot) = O) as Er by (unfold view; by rewrite Hqw).
  rewrite Ed in lk_sends0, lk_ready0. rewrite En in lk_owed0. rewrite Er in lk_ready0.
  change (v_sent (view (S p) q slot)) with sent in *. change (v_post (view (S q) p slot)) with posted in *.
  change (deliv_of p slot (px_log (S q))) with (v_deliv (view (S q) p slot)).
  rewrite app_nil_l in lk_sends0. apply (f_equal length) in lk_sends0, lk_recvs0.
  rewrite length_app, length_fmap in lk_sends0, lk_recvs0. cbn [length] in lk_ready0. split.
  - destruct lk_idle0 as [Hl|Hz]; [|lia]. rewrite Hl in lk_sends0. cbn [length] in lk_sends0. lia.
  - intros l u ranks Hl Hu Hp. pose proof (po_any _ (so_procs S HS q) slot l u ranks p Hl Hu Hp) as Hz.
    lia.
Qed.

Lemma transport_quiescent_witness :
  length (deliv_of 1 5 (px_log (demo4 0))) = 1%nat ∧
  length (deliv_of 1 5 (px_log (demo4 0))) =
    Nat.min (length (sent_of 0 5 (px_log (demo4 1)))) (length (post_of 1 5 (px_log (demo4 0)))).
Proof.
  split; [by vm_compute|].
  apply (transport_quiescent demo4 1 0 5); [exact demo4_reach|done|by vm_compute|by vm_compute].
Defined.

(** the loop of [recvFromAny] ends: without interference its first round
    either registers the buffer or receives, since the rank it finds has a
    pending send. *)
Theorem recvFromAny_total (S : System) (q slot size : Z) (u : UOp) (ranks : list Z) :
  sys_reach S → (∀ r, pr_ex (px_pairs (S q) r) = None) → check_bounds u size = Val () →
  ∃ Q', recvFromAny 1 slot u size ranks (S q) = Some (Val (), Q').
Proof.
  intros HS%sys_reach_ok Hex Hb. pose proof (so_procs S HS q) as Hok. set (P := S q) in *. cbn [recvFromAny].
  unfold recvFromAnyFindRank. erewrite M_bind_val by reflexivity.
  destruct (find _ _) as [r|] eqn:Hf; [|by eexists]. change ((mret (Some r) : M Proc _) P) with (Val (Some r), P).
  cbv iota beta. apply find_some in Hf as [Hin _]. rewrite <-list_elem_of_In in Hin.
  assert (∃ b P', Pair_tryRecv r slot u size P = (Val b, P')) as (b & P' & H).
  { change (runs (Pair_tryRecv r slot u size) P). unfold Pair_tryRecv.
    apply runs_bind; [exists (), P; unfold lift; by rewrite Hb|]. intros [] P' [_ ->]%lift_inv.
    apply runs_bind. { unfold Pair_throwIfException. apply runs_bind; [apply runs_gets|]. intros ex P' [-> ->]%gets_inv.
      rewrite Hex. apply runs_ret. }
    intros [] P' ->%throwIfException_inv. apply runs_bind; [apply runs_gets|]. intros m P' [-> ->]%mutator_inv.
    destruct (shiftRemotePendingSend _) as [[] m].
    - apply runs_bind; [apply runs_push_recv|]. intros [] P2 H2.
      eapply effect_push_recv in H2; [|by apply (effect_refl P r slot)].
      apply runs_bind; [apply runs_send; by eapply ef_sync|]. intros. apply runs_bind; [apply runs_modify|].
      intros. apply runs_ret.
    - apply runs_bind; [apply runs_modify|]. intros. apply runs_ret. }
  rewrite H. apply Pair_tryRecv_view in H as [_ Ht]; [|done].
  destruct b; [by eexists|]. exfalso. assert (v_rps (view P r slot) ≠ O) as Hne; [|by apply Ht in Hne].
  intros Hz. by apply count_zero in Hz.
Qed.

Lemma recvFromAny_total_witness : ∃ Q', recvFromAny 1 5 demo_u 8 [0; 1] (demo2 0) = Some (Val (), Q').
Proof.
  apply (recvFromAny_total demo2 0 5 8 demo_u [0; 1]); [exact demo2_reach| |by vm_compute].
  intros r. unfold demo2, demo1, set_proc. destruct (decide (0 = 1)); [done|]. by destruct r as [|[]|].
Defined.
