(* ===== verification/MathOps.v ===== *)
(** Integer helpers of [src/gloo/math.h]: rounding up to a multiple and the
    number of bits that count to a value, in both of its variants. *)
From S2P Require Import Prelude.

(** [roundUp(value, multiple)] on [size_t]. *)
Definition roundUp (value multiple : Z) : Z :=
  let remainder := value `mod` multiple in
  if remainder =? 0 then value else u64 (value + multiple - remainder).

(** [__builtin_clz(x)]: leading zeros of a 32-bit value, [x > 0]. *)
Definition builtin_clz (x : Z) : Z := 31 - Z.log2 x.

(** [log2ceil(value)] with GNU C. *)
Definition log2ceil (value : Z) : Z := if value <=? 1 then 0 else 32 - builtin_clz (value - 1).

(** And without: [for (size = 1; size < value; ++dim, size <<= 1)]; [fuel]
    bounds the rounds, 32 are enough for [value <= 2^31]. *)
Fixpoint log2ceil_loop (fuel : nat) (value size dim : Z) : Z :=
  match fuel with
  | O => dim
  | S fuel => if size <? value then log2ceil_loop fuel value (u32 (Z.shiftl size 1)) (dim + 1) else dim
  end.

Lemma roundUp_spec value multiple :
  0 < multiple → 0 ≤ value → value + multiple ≤ 2 ^ 64 →
  (multiple | roundUp value multiple) ∧ value ≤ roundUp value multiple < value + multiple.
Proof.
  intros Hm Hv Hb. unfold roundUp. pose proof (Z.mod_pos_bound value multiple Hm).
  destruct (Z.eqb_spec (value `mod` multiple) 0) as [He|Hne].
  - split; [by apply Z.mod_divide; lia|lia].
  - rewrite wrap_small by (unfold in_range; lia). split; [|lia]. exists (value / multiple + 1).
    pose proof (Z.div_mod value multiple). lia.
Qed.

Lemma log2ceil_bounds value : 1 ≤ value → 2 ^ log2ceil value < 2 * value ∧ value ≤ 2 ^ log2ceil value.
Proof.
  intros Hv. unfold log2ceil, builtin_clz. destruct (Z.leb_spec value 1); [assert (value = 1) as -> by lia; lia|].
  replace (32 - (31 - Z.log2 (value - 1))) with (Z.succ (Z.log2 (value - 1))) by lia.
  destruct (Z.log2_spec (value - 1)) as [H1 H2]; [lia|]. rewrite Z.pow_succ_r in * by apply Z.log2_nonneg. lia.
Qed.

Lemma log2ceil_nonneg value : 0 ≤ log2ceil value.
Proof.
  unfold log2ceil, builtin_clz. pose proof (Z.log2_nonneg (value - 1)). destruct (value <=? 1); lia.
Qed.

Lemma log2ceil_loop_spec value : 1 ≤ value ≤ 2 ^ 31 → ∀ n dim,
  0 ≤ dim ≤ log2ceil value → Z.of_nat n = 32 - dim →
  log2ceil_loop n value (2 ^ dim) dim = log2ceil value.
Proof.
  intros Hv. destruct (log2ceil_bounds value) as [Hb1 Hb2]; [lia|].
  assert (log2ceil value < 32) as H32.
  { apply (Z.pow_lt_mono_r_iff 2); [lia..|].
    change (2 ^ 32) with (2 * 2 ^ 31). lia. }
  intros n. induction n as [|n IH]; intros dim Hd Hn; [lia|]. cbn [log2ceil_loop].
  destruct (Z.ltb_spec (2 ^ dim) value) as [Hlt|Hge].
  - assert (dim < log2ceil value) as Hdl by (apply (Z.pow_lt_mono_r_iff 2); lia).
    rewrite Z.shiftl_mul_pow2 by lia. change (2 ^ 1) with 2. rewrite Z.mul_comm, <-Z.pow_succ_r by lia.
    destruct (decide (Z.succ dim = 32)) as [He|Hne]; [lia|].
    rewrite wrap_small; [apply IH; lia|]. unfold in_range. split; [apply Z.pow_nonneg; lia|].
    apply Z.pow_lt_mono_r; lia.
  - destruct (Z.eq_dec dim (log2ceil value)) as [|Hne]; [done|].
    assert (2 * 2 ^ dim ≤ 2 ^ log2ceil value) by (rewrite <-Z.pow_succ_r by lia; apply Z.pow_le_mono_r; lia). lia.
Qed.

(** the two variants of [log2ceil] agree: the builtin on leading zeros and
    the loop that doubles, up to [2^31], beyond which the loop of 32-bit
    doubling would not end; and the result is the least number of bits that
    counts to [value]. *)
Theorem log2ceil_variants (value : Z) :
  1 ≤ value ≤ 2 ^ 31 →
  log2ceil_loop 32 value 1 0 = log2ceil value ∧ value ≤ 2 ^ log2ceil value < 2 * value.
Proof.
  intros Hv. split; [apply (log2ceil_loop_spec value Hv 32 0); [|done]|].
  - pose proof (log2ceil_nonneg value). lia.
  - destruct (log2ceil_bounds value); lia.
Qed.

Lemma log2ceil_variants_witness : log2ceil_loop 32 5 1 0 = log2ceil 5 ∧ 5 ≤ 2 ^ log2ceil 5 < 2 * 5.
Proof. apply (log2ceil_variants 5). lia. Defined.
