(* ===== verification/Net.v ===== *)
(** How collectives communicate: the programs of the processes as sequences
    of operations on unbound buffers, run in any interleaving with the
    transmission and the delivery of their messages. A program that never
    touches a region that may still be in transit makes the system
    deterministic: if one execution ends, every execution ends, in the same
    state. *)
From Stdlib Require Import FunctionalExtensionality.
From S2P Require Import Prelude.

(* ------------------------------------------------------------------ *)
(** * Memory and programs *)

(** Bytes of a process by buffer and offset; a region of a buffer. *)
Definition Mem : Type := Z → Z → Z.
(** Memories to run examples on. *)
Definition demo_mems : Z → Mem := λ r b i, (100 * r + 10 * b + i) `mod` 256.
Record Region := mkRegion { rg_buf : Z; rg_off : Z; rg_len : Z }.
#[export] Instance Region_eq_dec : EqDecision Region.
Proof. solve_decision. Defined.

#[export] Instance Region_eta : Eta Region := λ r, mkRegion (rg_buf r) (rg_off r) (rg_len r).

Definition inside (r : Region) (b i : Z) : Prop := b = rg_buf r ∧ rg_off r ≤ i < rg_off r + rg_len r.
#[export] Instance inside_dec r b i : Decision (inside r b i).
Proof. unfold inside. apply _. Defined.
Definition apart (r r' : Region) : Prop := ∀ b i, inside r b i → inside r' b i → False.

Definition read (m : Mem) (r : Region) : list Z := (λ i, m (rg_buf r) i) <$> seqZ (rg_off r) (rg_len r).
Definition write (m : Mem) (r : Region) (d : list Z) : Mem := λ b i,
  if decide (inside r b i) then nth (Z.to_nat (i - rg_off r)) d 0 else m b i.

(** A posted operation: its peer, slot and region, and the buffer that is
    told when it completes. Unbound buffers are told of the operations on
    their own memory. *)
Record Xfer := mkXferOf { x_peer : Z; x_slot : Z; x_reg : Region; x_buf : Z }.
#[export] Instance Xfer_eq_dec : EqDecision Xfer.
Proof. solve_decision. Defined.
Definition mkXfer (peer slot : Z) (r : Region) : Xfer := mkXferOf peer slot r (rg_buf r).

(** [buf->send], [buf->recv], [buf->waitSend], [buf->waitRecv], and a local
    computation of one region from others ([memcpy], reductions); a program
    stops by an exception, or with [None] where its behaviour is undefined. *)
Inductive Act :=
  | Send (x : Xfer)
  | Recv (x : Xfer)
  | WaitSend (b : Z)
  | WaitRecv (b : Z)
  | Compute (d : Region) (f : list (list Z) → list Z) (srcs : list Region)
  | Stop (e : option exn).

(** What a program did: the operations it posted, the waits it passed, and of
    each buffer how many operations had been posted when it last had no more
    to wait for. *)
Record Hist := mkHist {
  h_sends : list Xfer; h_recvs : list Xfer; h_ws : Z → nat; h_wr : Z → nat; h_fs : Z → nat; h_fr : Z → nat }.
#[export] Instance Hist_eta : Eta Hist := λ h, mkHist (h_sends h) (h_recvs h) (h_ws h) (h_wr h) (h_fs h) (h_fr h).

Definition bump (b : Z) (c : Z → nat) : Z → nat := λ b', if decide (b' = b) then S (c b') else c b'.
Definition unbump (b : Z) (c : Z → nat) : Z → nat := λ b', if decide (b' = b) then pred (c b') else c b'.

Definition on_buf (b : Z) (l : list Xfer) : nat := length (filter (λ y, x_buf y = b) l).
(** After a wait on [b]. *)
Definition settle (h : list Xfer) (w : Z → nat) (b : Z) (f : Z → nat) : Z → nat :=
  λ b', if decide (b' = b ∧ (on_buf b h ≤ w b)%nat) then length h else f b'.

Definition hist_step (a : Act) (h : Hist) : Hist :=
  match a with
  | Send x => h <| h_sends ::= λ l, l ++ [x] |>
  | Recv x => h <| h_recvs ::= λ l, l ++ [x] |>
  | WaitSend b => h <| h_ws ::= bump b |> <| h_fs ::= settle (h_sends h) (bump b (h_ws h)) b |>
  | WaitRecv b => h <| h_wr ::= bump b |> <| h_fr ::= settle (h_recvs h) (bump b (h_wr h)) b |>
  | Compute _ _ _ | Stop _ => h
  end.
Definition hist_run (p : list Act) (h : Hist) : Hist := fold_left (λ h a, hist_step a h) p h.
Definition hist0 : Hist := mkHist [] [] (λ _, O) (λ _, O) (λ _, O) (λ _, O).

(* ------------------------------------------------------------------ *)
(** * Programs that stay clear of what is in transit *)

Definition same_chan (x y : Xfer) : Prop := x_peer y = x_peer x ∧ x_slot y = x_slot x.
#[export] Instance same_chan_dec x y : Decision (same_chan x y).
Proof. unfold same_chan. apply _. Defined.
Definition tail_count (x : Xfer) (l : list Xfer) : nat :=
  length (filter (λ y, same_chan x y ∧ x_buf y = x_buf x) l).

(** Operation [j] of a history may still be in transit: a channel completes
    in order, so while it has not completed neither have the later operations
    of its channel, and the waits passed cannot be explained by the others;
    and no operation of its buffer was waited for last after it was posted. *)
Definition busy (h : list Xfer) (w f : Z → nat) (j : nat) (x : Xfer) : Prop :=
  h !! j = Some x ∧ (w (x_buf x) + tail_count x (drop j h) ≤ on_buf (x_buf x) h)%nat ∧ (f (x_buf x) ≤ j)%nat.

Definition clear_of_recvs (h : Hist) (r : Region) : Prop := ∀ j y, busy (h_recvs h) (h_wr h) (h_fr h) j y → apart (x_reg y) r.
Definition clear_of_sends (h : Hist) (r : Region) : Prop := ∀ j y, busy (h_sends h) (h_ws h) (h_fs h) j y → apart (x_reg y) r.

Definition ok_act (h : Hist) (a : Act) : Prop :=
  match a with
  | Send x => clear_of_recvs h (x_reg x)
  | Recv x => clear_of_recvs h (x_reg x) ∧ clear_of_sends h (x_reg x)
  | WaitSend _ | WaitRecv _ | Stop _ => True
  | Compute d _ srcs => clear_of_recvs h d ∧ clear_of_sends h d ∧ Forall (clear_of_recvs h) srcs
  end.
Fixpoint clean (h : Hist) (p : list Act) : Prop :=
  match p with [] => True | a :: p => ok_act h a ∧ clean (hist_step a h) p end.

(* ------------------------------------------------------------------ *)
(** * The system *)

(** The first element that satisfies [P], and the others. *)
Fixpoint pick {A} (P : A → bool) (l : list A) : option (A * list A) :=
  match l with
  | [] => None
  | x :: l => if P x then Some (x, l) else '(y, l') ← pick P l; Some (y, x :: l')
  end.

(** A process: the rest of its program, its memory, the posted operations not
    yet transmitted or delivered (with their number), the completions of each
    buffer not yet waited for. *)
Record Rank := mkRank {
  rs_prog : list Act;
  rs_mem : Mem;
  rs_ps : list (nat * Xfer);
  rs_pr : list (nat * Xfer);
  rs_cs : Z → nat;
  rs_cr : Z → nat;
  rs_h : Hist;
}.
#[export] Instance Rank_eta : Eta Rank := λ r,
  mkRank (rs_prog r) (rs_mem r) (rs_ps r) (rs_pr r) (rs_cs r) (rs_cr r) (rs_h r).

(** The next operation of the program; [None]: it has to wait, or it was left
    by an exception. *)
Definition local (R : Rank) : option Rank :=
  match rs_prog R with
  | [] => None
  | a :: p =>
      let R1 := R <| rs_prog := p |> <| rs_h ::= hist_step a |> in
      match a with
      | Send x => Some (R1 <| rs_ps ::= λ l, l ++ [(length (h_sends (rs_h R)), x)] |>)
      | Recv x => Some (R1 <| rs_pr ::= λ l, l ++ [(length (h_recvs (rs_h R)), x)] |>)
      | WaitSend b => if decide (rs_cs R b = O) then None else Some (R1 <| rs_cs ::= unbump b |>)
      | WaitRecv b => if decide (rs_cr R b = O) then None else Some (R1 <| rs_cr ::= unbump b |>)
      | Compute d f srcs => Some (R1 <| rs_mem ::= λ m, write m d (f (read m <$> srcs)) |>)
      | Stop _ => None
      end
  end.

(** The oldest operation with a peer on a slot. *)
Definition on_chan (peer slot : Z) (x : nat * Xfer) : bool := (x_peer x.2 =? peer) && (x_slot x.2 =? slot).

(** The transport reads the oldest send to [q] and hands it over. *)
Definition transmit (q slot : Z) (R : Rank) : option (list Z * Rank) :=
  '(x, ps) ← pick (on_chan q slot) (rs_ps R);
  Some (read (rs_mem R) (x_reg x.2), R <| rs_ps := ps |> <| rs_cs ::= bump (x_buf x.2) |>).

(** Data from [p] arrives: it goes to the oldest receive, which is no
    shorter. *)
Definition deliver (p slot : Z) (d : list Z) (R : Rank) : option Rank :=
  '(x, pr) ← pick (on_chan p slot) (rs_pr R);
  if decide (Z.of_nat (length d) ≤ rg_len (x_reg x.2)) then
    Some (R <| rs_pr := pr |> <| rs_cr ::= bump (x_buf x.2) |>
            <| rs_mem ::= λ m, write m (x_reg x.2 <| rg_len := Z.of_nat (length d) |>) d |>)
  else None.

(** All processes, and the messages on their way from [p] to [q] on a slot. *)
Record Net := mkNet { nt_rk : Z → Rank; nt_ch : Z * Z * Z → list (list Z) }.

Definition fset {A B} `{EqDecision A} (a : A) (b : B) (f : A → B) : A → B := λ a', if decide (a' = a) then b else f a'.

Inductive Label := LLocal (r : Z) | LTransmit (p q slot : Z) | LDeliver (p q slot : Z).
#[export] Instance Label_eq_dec : EqDecision Label.
Proof. solve_decision. Defined.

Definition exec (l : Label) (s : Net) : option Net :=
  match l with
  | LLocal r => R ← local (nt_rk s r); Some (mkNet (fset r R (nt_rk s)) (nt_ch s))
  | LTransmit p q slot =>
      '(d, R) ← transmit q slot (nt_rk s p);
      Some (mkNet (fset p R (nt_rk s)) (fset (p, q, slot) (nt_ch s (p, q, slot) ++ [d]) (nt_ch s)))
  | LDeliver p q slot =>
      match nt_ch s (p, q, slot) with
      | [] => None
      | d :: ds => R ← deliver p slot d (nt_rk s q); Some (mkNet (fset q R (nt_rk s)) (fset (p, q, slot) ds (nt_ch s)))
      end
  end.
Definition net_step (s s' : Net) : Prop := ∃ l, exec l s = Some s'.

(* ------------------------------------------------------------------ *)
(** * Picking *)

Lemma pick_Some {A} (P : A → bool) l x l' :
  pick P l = Some (x, l') ↔
  ∃ l1 l2, l = l1 ++ x :: l2 ∧ l' = l1 ++ l2 ∧ P x = true ∧ Forall (λ y, P y = false) l1.
Proof.
  revert l'. induction l as [|y l IH]; intros l'; cbn [pick].
  - split; [done|]. by intros ([|] & ? & ? & _).
  - destruct (P y) eqn:Hy.
    + split; [intros [= <- <-]; exists [], l; by eauto|].
      intros ([|z l1] & l2 & [= -> ->] & -> & Hx & Hl); [done|]. apply Forall_cons in Hl as [Hl _]. congruence.
    + split.
      * destruct (pick P l) as [[z k]|] eqn:Hp; [|done]. cbn. intros [= -> <-].
        destruct (proj1 (IH k) eq_refl) as (l1 & l2 & -> & -> & Hx & Hl). exists (y :: l1), l2. by rewrite Forall_cons.
      * intros ([|z l1] & l2 & [= -> ->] & -> & Hx & Hl); [congruence|]. apply Forall_cons in Hl as [_ Hl].
        assert (pick P (l1 ++ x :: l2) = Some (x, l1 ++ l2)) as -> .
        { apply IH. exists l1, l2. done. }
        done.
Qed.

Lemma pick_snoc {A} (P : A → bool) l x l' y : pick P l = Some (x, l') → pick P (l ++ [y]) = Some (x, l' ++ [y]).
Proof.
  intros (l1 & l2 & -> & -> & Hx & Hl)%pick_Some. apply pick_Some. exists l1, (l2 ++ [y]).
  by rewrite <-!(assoc_L (++)).
Qed.

Lemma pick_other {A} (P Q : A → bool) l x l1 y l2 :
  (∀ z, P z = true → Q z = true → False) → pick P l = Some (x, l1) → pick Q l = Some (y, l2) →
  ∃ l', pick Q l1 = Some (y, l') ∧ pick P l2 = Some (x, l').
Proof.
  intros Hpq. revert l1 l2. induction l as [|z l IH]; intros l1 l2; cbn [pick]; [done|].
  destruct (P z) eqn:HP, (Q z) eqn:HQ; [by destruct (Hpq z)| | |].
  - intros [= <- <-]. destruct (pick Q l) as [[w k]|] eqn:E; [|done]. intros [= -> <-]. exists k. cbn. by rewrite HP.
  - destruct (pick P l) as [[w k]|] eqn:E; [|done]. intros [= -> <-] [= <- <-]. exists k. cbn. by rewrite HQ.
  - destruct (pick P l) as [[w k]|] eqn:E; [|done]. destruct (pick Q l) as [[w' k']|] eqn:E'; [|done].
    intros [= -> <-] [= -> <-]. destruct (IH k k' eq_refl eq_refl) as (l' & Hq & Hp).
    exists (z :: l'). cbn. by rewrite HP, HQ, Hp, Hq.
Qed.

Lemma pick_elem {A} (P : A → bool) l x l' : pick P l = Some (x, l') → x ∈ l ∧ P x = true ∧ (∀ y, y ∈ l' → y ∈ l).
Proof. intros (l1 & l2 & -> & -> & Hx & _)%pick_Some. set_solver. Qed.

(* ------------------------------------------------------------------ *)
(** * Memory *)

Lemma read_write m r r' d : apart r' r → read (write m r' d) r = read m r.
Proof.
  intros Ha. unfold read. apply list_fmap_ext. intros i k Hk. apply lookup_seqZ in Hk as [-> Hk]. unfold write.
  rewrite decide_False; [done|]. intros Hi. apply (Ha _ _ Hi). unfold inside. lia.
Qed.

Lemma write_write m r r' d d' : apart r r' → write (write m r d) r' d' = write (write m r' d') r d.
Proof.
  intros Ha. extensionality b. extensionality i. unfold write.
  destruct (decide (inside r b i)), (decide (inside r' b i)); try done. by destruct (Ha b i).
Qed.

Lemma write_empty m r d : rg_len r ≤ 0 → write m r d = m.
Proof.
  intros Hr. extensionality b. extensionality i. unfold write. rewrite decide_False; [done|]. intros [_ ?]. lia.
Qed.

Lemma read_length m r : 0 ≤ rg_len r → Z.of_nat (length (read m r)) = rg_len r.
Proof. intros. unfold read. rewrite length_fmap, length_seqZ. lia. Qed.

Lemma read_write_same m r d : Z.of_nat (length d) = rg_len r → read (write m r d) r = d.
Proof.
  intros Hl. unfold read, write. apply list_eq. intros i. rewrite list_lookup_fmap.
  destruct (decide (i < length d)%nat) as [Hi|Hi].
  - rewrite lookup_seqZ_lt by lia. cbn. rewrite decide_True by (unfold inside; lia).
    replace (rg_off r + Z.of_nat i - rg_off r) with (Z.of_nat i) by lia. rewrite Nat2Z.id.
    rewrite nth_lookup. destruct (d !! i) eqn:E; [done|]. apply lookup_ge_None in E. lia.
  - rewrite lookup_seqZ_ge by lia. symmetry. apply lookup_ge_None. lia.
Qed.

Lemma read_split m b o k l : 0 ≤ k → 0 ≤ l → read m (mkRegion b o (k + l)) = read m (mkRegion b o k) ++ read m (mkRegion b (o + k) l).
Proof. intros. unfold read. cbn [rg_buf rg_off rg_len]. by rewrite seqZ_app, fmap_app by lia. Qed.

Lemma apart_sym r r' : apart r r' → apart r' r.
Proof. intros Ha b i ? ?. by apply (Ha b i). Qed.

Lemma apart_shorter r r' n : n ≤ rg_len r → apart r r' → apart (r <| rg_len := n |>) r'.
Proof. intros Hn Ha b i [H1 H2] H. apply (Ha b i); [|done]. cbn in *. split; [done|lia]. Qed.

Lemma bump_bump b b' c : bump b (bump b' c) = bump b' (bump b c).
Proof. extensionality x. unfold bump. by repeat case_decide. Qed.
Lemma bump_unbump b b' c : c b' ≠ O → unbump b' (bump b c) = bump b (unbump b' c).
Proof. intros. extensionality x. unfold bump, unbump. repeat case_decide; subst; lia. Qed.
Lemma bump_pos b b' c : c b' ≠ O → bump b c b' ≠ O.
Proof. unfold bump. case_decide; lia. Qed.

Lemma fset_swap {A B} `{EqDecision A} (a a' : A) (b b' : B) f : a ≠ a' → fset a b (fset a' b' f) = fset a' b' (fset a b f).
Proof. intros. extensionality x. unfold fset. repeat case_decide; congruence. Qed.
Lemma fset_twice {A B} `{EqDecision A} (a : A) (b b' : B) f : fset a b (fset a b' f) = fset a b f.
Proof. extensionality x. unfold fset. by case_decide. Qed.
Lemma fset_at {A B} `{EqDecision A} (a : A) (b : B) f : fset a b f a = b.
Proof. unfold fset. by rewrite decide_True. Qed.
Lemma fset_other {A B} `{EqDecision A} (a a' : A) (b : B) f : a' ≠ a → fset a b f a' = f a'.
Proof. intros. unfold fset. by rewrite decide_False. Qed.

(* ------------------------------------------------------------------ *)
(** * What is pending is busy *)

(** One direction of a process: [p] pending operations of the history [h],
    [c] completions not yet waited for, [w] waits passed, [f] operations when
    there was nothing more to wait for. *)
Record side_ok (p : list (nat * Xfer)) (h : list Xfer) (c w f : Z → nat) : Prop := {
  so_in : ∀ j x, (j, x) ∈ p → h !! j = Some x;
  so_later : ∀ j x k y, (j, x) ∈ p → (j ≤ k)%nat → h !! k = Some y → same_chan x y → (k, y) ∈ p;
  so_sorted : StronglySorted lt p.*1;
  so_count : ∀ b, (c b + w b + on_buf b p.*2 = on_buf b h)%nat;
  so_since : ∀ j x, (j, x) ∈ p → (f (x_buf x) ≤ j)%nat;
  so_past : ∀ b, (f b ≤ length h)%nat;
}.

Lemma on_buf_app b l k : on_buf b (l ++ k) = (on_buf b l + on_buf b k)%nat.
Proof. unfold on_buf. by rewrite filter_app, length_app. Qed.
Lemma on_buf_one b x : on_buf b [x] = if decide (x_buf x = b) then 1%nat else O.
Proof. unfold on_buf. rewrite filter_cons, filter_nil. by case_decide. Qed.

(** Counting by numbered elements. *)
Lemma filter_fmap_length {A B} (f : A → B) (P : B → Prop) `{!∀ x, Decision (P x)} l :
  length (filter P (f <$> l)) = length (filter (λ x, P (f x)) l).
Proof.
  induction l as [|x l IH]; [done|]. rewrite fmap_cons, !filter_cons. case_decide; cbn [length]; by rewrite IH.
Qed.

Lemma filter_imap_length {A} (P : A → Prop) `{!∀ x, Decision (P x)} l n :
  length (filter P l) = length (filter (λ x : nat * A, P x.2) (imap (λ k y, ((n + k)%nat, y)) l)).
Proof.
  revert n. induction l as [|y l IH]; intros n; [done|]. cbn [imap]. rewrite !filter_cons. cbn [snd].
  assert (imap ((λ k y0, ((n + k)%nat, y0)) ∘ S) l = imap (λ k y0, ((S n + k)%nat, y0)) l) as ->.
  { apply imap_ext. intros. cbn. f_equal. lia. }
  case_decide; cbn [length]; by rewrite (IH (S n)).
Qed.

Lemma side_busy p h c w f j x : side_ok p h c w f → (j, x) ∈ p → busy h w f j x.
Proof.
  intros [Hin Hlater Hs Hc Hf _] Hx. split; [by apply Hin|]. split; [|by apply Hf]. rewrite <-(Hc (x_buf x)).
  enough (tail_count x (drop j h) ≤ on_buf (x_buf x) p.*2)%nat by lia.
  unfold tail_count, on_buf. rewrite (filter_imap_length _ _ j), filter_fmap_length.
  apply submseteq_length, NoDup_submseteq.
  - apply NoDup_filter, NoDup_fmap_1 with (f := fst). rewrite fmap_imap. unfold compose.
    apply NoDup_alt. intros i i' k. rewrite !list_lookup_imap.
    destruct (drop j h !! i), (drop j h !! i'); try done. cbn. intros [= <-] [=]. lia.
  - intros [k y]. rewrite !list_elem_of_filter, list_elem_of_lookup. cbn [snd]. intros [[Hch Hb] (i & Hi)].
    rewrite list_lookup_imap, fmap_Some in Hi. destruct Hi as (z & Hz & [= -> ->]). rewrite lookup_drop in Hz.
    split; [done|]. apply (Hlater j x); [done|lia|done|done].
Qed.

Lemma side_post p h c w f x : side_ok p h c w f → side_ok (p ++ [(length h, x)]) (h ++ [x]) c w f.
Proof.
  intros [Hin Hlater Hs Hc Hf Hp]. split.
  - intros j y. rewrite elem_of_app, list_elem_of_singleton. intros [H|[= -> ->]].
    + apply lookup_app_l_Some. by apply Hin.
    + by rewrite lookup_app_r, Nat.sub_diag by done.
  - intros j y k z H Hjk Hz Hch. rewrite elem_of_app, list_elem_of_singleton.
    apply lookup_app_Some in Hz as [Hz|[Hk Hz]].
    + left. rewrite elem_of_app, list_elem_of_singleton in H. destruct H as [H|[= -> ->]]; [by eapply Hlater|].
      apply lookup_lt_Some in Hz. lia.
    + right. apply list_lookup_singleton_Some in Hz as [Hk0 ->]. f_equal. lia.
  - rewrite fmap_app. apply StronglySorted_app_2; [|done|by repeat constructor].
    intros i k Hi Hk. apply list_elem_of_singleton in Hk as ->. apply list_elem_of_fmap in Hi as ([j y] & -> & Hj).
    apply Hin, lookup_lt_Some in Hj. done.
  - intros b. rewrite fmap_app, !on_buf_app. specialize (Hc b). cbn [fmap list_fmap snd]. lia.
  - intros j y. rewrite elem_of_app, list_elem_of_singleton. intros [H|[= -> ->]]; [by apply Hf|apply Hp].
  - intros b. rewrite length_app. specialize (Hp b). lia.
Qed.

(** A buffer with no more to wait for has nothing pending. *)
Lemma on_buf_pos b (j : nat) x p : (j, x) ∈ p → x_buf x = b → (0 < on_buf b p.*2)%nat.
Proof.
  intros Hx Hb. unfold on_buf. assert (x ∈ filter (λ y, x_buf y = b) p.*2) as Hin.
  { apply list_elem_of_filter. split; [done|]. apply list_elem_of_fmap. by exists (j, x). }
  destruct (filter _ _); [by apply not_elem_of_nil in Hin|cbn; lia].
Qed.

Lemma side_wait p h c w f b : c b ≠ O → side_ok p h c w f → side_ok p h (unbump b c) (bump b w) (settle h (bump b w) b f).
Proof.
  intros Hb [Hin Hlater Hs Hc Hf Hp]. assert (∀ b', (unbump b c b' + bump b w b' + on_buf b' p.*2 = on_buf b' h)%nat) as Hc'.
  { intros b'. specialize (Hc b'). unfold bump, unbump. case_decide; subst; lia. }
  split; [done..| |].
  - intros j x Hx. unfold settle. case_decide as Hd; [|by apply Hf]. destruct Hd as [Hxb Hd].
    pose proof (on_buf_pos b j x p Hx Hxb). specialize (Hc' b). lia.
  - intros b'. unfold settle. case_decide; [done|apply Hp].
Qed.

Lemma side_complete p h c w f q sl j x p' :
  side_ok p h c w f → pick (on_chan q sl) p = Some ((j, x), p') → side_ok p' h (bump (x_buf x) c) w f.
Proof.
  intros [Hin Hlater Hs Hc Hf Hpast] (l1 & l2 & -> & -> & Hx & Hl1)%pick_Some.
  assert (∀ y, y ∈ l1 ++ l2 → y ∈ l1 ++ (j, x) :: l2) as Hsub by set_solver. split.
  - intros; by apply Hin, Hsub.
  - intros k y k' z Hy Hk Hz Hch. assert ((k', z) ∈ l1 ++ (j, x) :: l2) as H by (by eapply Hlater; [apply Hsub| | |]).
    rewrite elem_of_app, elem_of_cons in H. rewrite elem_of_app. destruct H as [H|[[= -> ->]|H]]; [by left| |by right].
    exfalso. assert (on_chan q sl (k, y) = true) as Hq.
    { unfold on_chan, same_chan in *. cbn in *. destruct Hch as [<- <-]. done. }
    rewrite elem_of_app in Hy. destruct Hy as [Hy|Hy].
    + rewrite Forall_forall in Hl1. by rewrite (Hl1 _ Hy) in Hq.
    + rewrite fmap_app in Hs. apply StronglySorted_app_1_r in Hs. cbn in Hs.
      apply StronglySorted_inv in Hs as [_ Hs]. rewrite Forall_forall in Hs.
      assert (j < k)%nat; [|lia]. apply Hs. apply list_elem_of_fmap. by exists (k, y).
  - rewrite fmap_app in *. cbn in Hs. clear -Hs. induction (l1.*1) as [|n l IH]; cbn in *.
    + by apply StronglySorted_inv in Hs as [? _].
    + apply StronglySorted_inv in Hs as [Hs Hf]. constructor; [by apply IH|].
      rewrite Forall_app, Forall_cons in *. tauto.
  - intros b. specialize (Hc b). rewrite fmap_app in *. rewrite fmap_cons in Hc.
    rewrite on_buf_app in *. change ((j, x).2 :: l2.*2) with ([x] ++ l2.*2) in Hc. rewrite on_buf_app, on_buf_one in Hc.
    unfold bump. repeat case_decide; subst; congruence || lia.
  - intros; by apply Hf, Hsub.
  - done.
Qed.

(* ------------------------------------------------------------------ *)
(** * The invariant of a process *)

Record rank_ok (R : Rank) : Prop := {
  ro_clean : clean (rs_h R) (rs_prog R);
  ro_sends : side_ok (rs_ps R) (h_sends (rs_h R)) (rs_cs R) (h_ws (rs_h R)) (h_fs (rs_h R));
  ro_recvs : side_ok (rs_pr R) (h_recvs (rs_h R)) (rs_cr R) (h_wr (rs_h R)) (h_fr (rs_h R));
  ro_rr : ∀ i x j y, (i, x) ∈ rs_pr R → (j, y) ∈ rs_pr R → i ≠ j → apart (x_reg x) (x_reg y);
  ro_sr : ∀ i x j y, (i, x) ∈ rs_ps R → (j, y) ∈ rs_pr R → apart (x_reg x) (x_reg y);
}.

Lemma rank_ok_recvs R r : rank_ok R → clear_of_recvs (rs_h R) r → ∀ j y, (j, y) ∈ rs_pr R → apart (x_reg y) r.
Proof. intros [? ? Hr _ _] Hc j y Hy. by eapply Hc, side_busy. Qed.
Lemma rank_ok_sends R r : rank_ok R → clear_of_sends (rs_h R) r → ∀ j y, (j, y) ∈ rs_ps R → apart (x_reg y) r.
Proof. intros [? Hs ? _ _] Hc j y Hy. by eapply Hc, side_busy. Qed.

(** The number of a new operation is new. *)
Lemma side_fresh p h c w f x j : side_ok p h c w f → (j, x) ∈ p → j ≠ length h.
Proof. intros [Hin _ _ _ _ _] Hj%Hin%lookup_lt_Some. lia. Qed.

Lemma local_ok R R' : rank_ok R → local R = Some R' → rank_ok R'.
Proof.
  intros HR. pose proof HR as [Hcl Hs Hr Hrr Hsr]. unfold local.
  pose proof (rank_ok_recvs R) as Hcr. pose proof (rank_ok_sends R) as Hcs.
  destruct R as [[|a p] mem ps pr cs cr h]; [done|]. cbn in *. destruct Hcl as [Ha Hcl].
  destruct a as [x|x|b|b|d f srcs|e]; cbn in Ha.
  - intros [= <-]. split; cbn; [done|by apply side_post|done..|]. intros i y j z.
    rewrite elem_of_app, list_elem_of_singleton. intros [Hy|[= -> ->]] Hz; [by eapply Hsr|].
    apply apart_sym. by eapply Hcr.
  - destruct Ha as [Ha1 Ha2]. intros [= <-]. split; cbn; [done|done|by apply side_post| |].
    + intros i y j z. rewrite !elem_of_app, !list_elem_of_singleton.
      intros [Hy|[= -> ->]] [Hz|[= -> ->]] Hne; [by eapply Hrr|by eapply Hcr|apply apart_sym; by eapply Hcr|done].
    + intros i y j z Hy. rewrite elem_of_app, list_elem_of_singleton.
      intros [Hz|[= -> ->]]; [by eapply Hsr|by eapply Hcs].
  - case_decide; [done|]. intros [= <-]. split; cbn; [done|by apply side_wait|done..].
  - case_decide; [done|]. intros [= <-]. split; cbn; [done|done|by apply side_wait|done..].
  - intros [= <-]. by split.
  - done.
Qed.

Lemma transmit_ok R q sl d R' : rank_ok R → transmit q sl R = Some (d, R') → rank_ok R'.
Proof.
  intros [Hcl Hs Hr Hrr Hsr]. unfold transmit. destruct (pick _ _) as [[[j x] ps]|] eqn:Hp; [|done].
  intros [= <- <-]. split; [done|by eapply side_complete|done|done|]. cbn [rs_ps rs_pr set_field].
  intros i y k z Hy. eapply Hsr. by apply (pick_elem _ _ _ _ Hp).
Qed.

Lemma deliver_ok R q sl d R' : rank_ok R → deliver q sl d R = Some R' → rank_ok R'.
Proof.
  intros [Hcl Hs Hr Hrr Hsr]. unfold deliver. destruct (pick _ _) as [[[j x] pr]|] eqn:Hp; [|done]. cbn [snd].
  cbn [mbind option_bind]. case_decide; [|done]. intros [= <-].
  pose proof (pick_elem _ _ _ _ Hp) as (_ & _ & Hsub).
  split; [done|done|by eapply side_complete| |]; cbn [rs_ps rs_pr set_field].
  - intros i y k z Hy Hz. by apply Hrr; apply Hsub.
  - intros i y k z Hy Hz. eapply Hsr; [done|by apply Hsub].
Qed.

(* ------------------------------------------------------------------ *)
(** * Steps commute *)

Lemma map_read_write (m : Mem) d data srcs :
  Forall (apart d) srcs → read (write m d data) <$> srcs = read m <$> srcs.
Proof. intros Hs. apply list_fmap_ext. intros i r Hr. apply read_write. by eapply Forall_lookup_1 in Hs. Qed.

Lemma local_transmit R R1 R2 q sl d :
  rank_ok R → local R = Some R1 → transmit q sl R = Some (d, R2) →
  ∃ R', transmit q sl R1 = Some (d, R') ∧ local R2 = Some R'.
Proof.
  intros HR Hl. unfold transmit. destruct (pick _ _) as [[[j x] ps']|] eqn:Hp; [|done]. intros [= <- <-].
  pose proof (pick_elem _ _ _ _ Hp) as (Hx & _ & _). pose proof (rank_ok_sends R) as Hcs.
  pose proof (ro_clean _ HR) as Hcl. unfold local in *.
  destruct R as [[|a p] mem ps pr cs cr h]; [done|]. cbn in *. destruct Hcl as [Ha _].
  destruct a as [y|y|b|b|dst f srcs|e]; cbn in Ha.
  - injection Hl as <-. cbn. rewrite (pick_snoc _ _ _ _ _ Hp). by eexists.
  - injection Hl as <-. cbn. rewrite Hp. by eexists.
  - case_decide as Hb; [done|]. injection Hl as <-. cbn. rewrite Hp. cbn. eexists. split; [done|].
    rewrite decide_False by by apply bump_pos. by rewrite bump_unbump.
  - case_decide; [done|]. injection Hl as <-. cbn. rewrite Hp. by eexists.
  - injection Hl as <-. destruct Ha as (_ & Ha & _). cbn. rewrite Hp. cbn. eexists. split; [|done].
    rewrite read_write; [done|]. apply apart_sym. by eapply Hcs.
  - done.
Qed.

Lemma local_deliver R R1 R2 q sl d :
  rank_ok R → local R = Some R1 → deliver q sl d R = Some R2 →
  ∃ R', deliver q sl d R1 = Some R' ∧ local R2 = Some R'.
Proof.
  intros HR Hl. unfold deliver. destruct (pick _ _) as [[[j x] pr']|] eqn:Hp; [|done].
  cbn [mbind option_bind snd]. case_decide as Hlen; [|done]. intros [= <-].
  pose proof (pick_elem _ _ _ _ Hp) as (Hx & _ & _). pose proof (rank_ok_recvs R) as Hcr.
  pose proof (ro_clean _ HR) as Hcl. unfold local in *.
  destruct R as [[|a p] mem ps pr cs cr h]; [done|]. cbn in *. destruct Hcl as [Ha _].
  destruct a as [y|y|b|b|dst f srcs|e]; cbn in Ha.
  - injection Hl as <-. cbn. rewrite Hp. cbn. rewrite decide_True by done. by eexists.
  - injection Hl as <-. cbn. rewrite (pick_snoc _ _ _ _ _ Hp). cbn. rewrite decide_True by done. by eexists.
  - case_decide; [done|]. injection Hl as <-. cbn. rewrite Hp. cbn. rewrite decide_True by done. by eexists.
  - case_decide as Hb; [done|]. injection Hl as <-. cbn. rewrite Hp. cbn. rewrite decide_True by done.
    eexists. split; [done|]. rewrite decide_False by by apply bump_pos. by rewrite bump_unbump.
  - injection Hl as <-. destruct Ha as (Ha & _ & Hs). cbn. rewrite Hp. cbn. rewrite decide_True by done.
    eexists. split; [done|]. do 2 f_equal. rewrite map_read_write.
    + rewrite write_write; [done|]. apply apart_shorter; [done|]. by eapply Hcr.
    + eapply Forall_impl; [exact Hs|]. intros r Hr. apply apart_shorter; [done|]. by eapply Hcr.
  - done.
Qed.

Lemma on_chan_other q sl q' sl' z : (q, sl) ≠ (q', sl') → on_chan q sl z = true → on_chan q' sl' z = true → False.
Proof. unfold on_chan. intros Hne. rewrite !andb_true_iff, !Z.eqb_eq. naive_solver. Qed.

Lemma transmit_transmit R R1 R2 q sl d q' sl' d' :
  (q, sl) ≠ (q', sl') → transmit q sl R = Some (d, R1) → transmit q' sl' R = Some (d', R2) →
  ∃ R', transmit q' sl' R1 = Some (d', R') ∧ transmit q sl R2 = Some (d, R').
Proof.
  intros Hne. unfold transmit. destruct (pick (on_chan q sl) _) as [[x ps1]|] eqn:H1; [|done]. intros [= <- <-].
  destruct (pick (on_chan q' sl') _) as [[y ps2]|] eqn:H2; [|done]. intros [= <- <-].
  destruct (pick_other _ _ _ _ _ _ _ (λ z, on_chan_other _ _ _ _ z Hne) H1 H2) as (ps' & H1' & H2').
  cbn. rewrite H1', H2'. cbn. eexists. split; [done|]. by rewrite bump_bump.
Qed.

Lemma deliver_deliver R R1 R2 q sl d q' sl' d' :
  rank_ok R → (q, sl) ≠ (q', sl') → deliver q sl d R = Some R1 → deliver q' sl' d' R = Some R2 →
  ∃ R', deliver q' sl' d' R1 = Some R' ∧ deliver q sl d R2 = Some R'.
Proof.
  intros HR Hne. unfold deliver. destruct (pick (on_chan q sl) _) as [[[i x] pr1]|] eqn:H1; [|done].
  cbn [mbind option_bind snd]. case_decide as Hl; [|done]. intros [= <-].
  destruct (pick (on_chan q' sl') _) as [[[j y] pr2]|] eqn:H2; [|done].
  cbn [mbind option_bind snd]. case_decide as Hl'; [|done]. intros [= <-].
  destruct (pick_other _ _ _ _ _ _ _ (λ z, on_chan_other _ _ _ _ z Hne) H1 H2) as (pr' & H1' & H2').
  cbn. rewrite H1', H2'. cbn. rewrite !decide_True by done. eexists. split; [done|]. rewrite bump_bump.
  do 2 f_equal. symmetry. apply write_write. apply apart_shorter; [done|]. apply apart_sym, apart_shorter; [done|].
  apply pick_elem in H1 as (Hx & Hqx & _), H2 as (Hy & Hqy & _). apply (ro_rr _ HR j y i x); [done|done|].
  intros ->. pose proof (so_in _ _ _ _ _ (ro_recvs _ HR) _ _ Hx). pose proof (so_in _ _ _ _ _ (ro_recvs _ HR) _ _ Hy).
  simplify_eq. by eapply on_chan_other.
Qed.

Lemma transmit_deliver R R1 R2 q sl d q' sl' d' :
  rank_ok R → transmit q sl R = Some (d, R1) → deliver q' sl' d' R = Some R2 →
  ∃ R', deliver q' sl' d' R1 = Some R' ∧ transmit q sl R2 = Some (d, R').
Proof.
  intros HR. unfold transmit, deliver. destruct (pick (on_chan q sl) _) as [[[i x] ps]|] eqn:H1; [|done].
  intros [= <- <-]. destruct (pick (on_chan q' sl') _) as [[[j y] pr]|] eqn:H2; [|done].
  cbn [mbind option_bind snd]. case_decide as Hl; [|done]. intros [= <-]. cbn.
  rewrite ?H1, ?H2. cbn. eexists. split; [done|]. do 2 f_equal. apply read_write. apply apart_shorter; [done|].
  apply pick_elem in H1 as (Hx & _), H2 as (Hy & _). apply apart_sym. by eapply (ro_sr _ HR).
Qed.

(* ------------------------------------------------------------------ *)
(** * Determinism *)

Definition net_ok (s : Net) : Prop := ∀ r, rank_ok (nt_rk s r).

Lemma net_ok_fset s r R ch : net_ok s → rank_ok R → net_ok (mkNet (fset r R (nt_rk s)) ch).
Proof. intros Hs HR r'. cbn. unfold fset. by case_decide. Qed.

Lemma exec_ok l s s' : net_ok s → exec l s = Some s' → net_ok s'.
Proof.
  intros Hs. destruct l as [r|p q sl|p q sl]; cbn.
  - destruct (local _) as [R|] eqn:E; [|done]. intros [= <-]. apply net_ok_fset; [done|]. by eapply local_ok.
  - destruct (transmit _ _ _) as [[d R]|] eqn:E; [|done]. intros [= <-]. apply net_ok_fset; [done|].
    by eapply transmit_ok.
  - destruct (nt_ch s _) as [|d ds]; [done|]. destruct (deliver _ _ _ _) as [R|] eqn:E; [|done].
    intros [= <-]. apply net_ok_fset; [done|]. by eapply deliver_ok.
Qed.

(** Two steps enabled in [s] commute. *)
Definition commute (s : Net) (l l' : Label) : Prop :=
  ∀ s1 s2, exec l s = Some s1 → exec l' s = Some s2 → ∃ s', exec l' s1 = Some s' ∧ exec l s2 = Some s'.

Lemma commute_sym s l l' : commute s l l' → commute s l' l.
Proof. intros H s1 s2 H1 H2. destruct (H s2 s1 H2 H1) as (s' & ? & ?). by exists s'. Qed.

(** The end of each case: the same updates in another order. *)
Ltac fset_done := eexists; split; [done|]; do 2 f_equal; apply fset_swap; congruence.

Section commute.
Context (s : Net) (Hs : net_ok s).

Lemma commute_local r r' : r ≠ r' → commute s (LLocal r) (LLocal r').
Proof.
  intros Hr s1 s2. cbn. destruct (local (nt_rk s r)) as [R|] eqn:E; [|done]. intros [= <-].
  destruct (local (nt_rk s r')) as [R'|] eqn:E'; [|done]. intros [= <-]. cbn.
  rewrite !fset_other, E, E' by congruence. cbn. fset_done.
Qed.

Lemma commute_local_transmit r p q sl : commute s (LLocal r) (LTransmit p q sl).
Proof.
  intros s1 s2. cbn. destruct (local (nt_rk s r)) as [R|] eqn:E; [|done]. intros [= <-].
  destruct (transmit _ _ _) as [[d R']|] eqn:E'; [|done]. intros [= <-]. cbn.
  destruct (decide (r = p)) as [->|Hr].
  - destruct (local_transmit _ _ _ _ _ _ (Hs p) E E') as (R2 & H1 & H2).
    rewrite !fset_at, H1, H2. cbn. rewrite !fset_twice. by eexists.
  - rewrite !fset_other, E, E' by congruence. cbn. fset_done.
Qed.

Lemma commute_local_deliver r p q sl : commute s (LLocal r) (LDeliver p q sl).
Proof.
  intros s1 s2. cbn. destruct (local (nt_rk s r)) as [R|] eqn:E; [|done]. intros [= <-].
  destruct (nt_ch s _) as [|d ds] eqn:Hd; [done|]. destruct (deliver _ _ _ _) as [R'|] eqn:E'; [|done].
  intros [= <-]. cbn. rewrite Hd. destruct (decide (r = q)) as [->|Hr].
  - destruct (local_deliver _ _ _ _ _ _ (Hs q) E E') as (R2 & H1 & H2).
    rewrite !fset_at, H1, H2. cbn. rewrite !fset_twice. by eexists.
  - rewrite !fset_other, E, E' by congruence. cbn. fset_done.
Qed.

Lemma commute_transmit p q sl p' q' sl' :
  (p, q, sl) ≠ (p', q', sl') → commute s (LTransmit p q sl) (LTransmit p' q' sl').
Proof.
  intros Hne s1 s2. cbn. destruct (transmit q sl _) as [[d R]|] eqn:E; [|done]. intros [= <-].
  destruct (transmit q' sl' _) as [[d' R']|] eqn:E'; [|done]. intros [= <-]. cbn.
  destruct (decide (p = p')) as [->|Hp].
  - assert ((q, sl) ≠ (q', sl')) as Hqs by congruence.
    destruct (transmit_transmit _ _ _ _ _ _ _ _ _ Hqs E E') as (R2 & H1 & H2).
    rewrite !fset_at, H1, H2. cbn. rewrite !fset_twice, !fset_other by congruence. fset_done.
  - rewrite !(fset_other (A := Z)), E, E' by congruence. cbn. rewrite !fset_other by congruence.
    eexists. split; [done|]. do 2 f_equal; apply fset_swap; congruence.
Qed.

Lemma commute_transmit_deliver p q sl p' q' sl' : commute s (LTransmit p q sl) (LDeliver p' q' sl').
Proof.
  intros s1 s2. cbn. destruct (transmit q sl _) as [[d R]|] eqn:E; [|done]. intros [= <-].
  destruct (nt_ch s (p', q', sl')) as [|d' ds] eqn:Hd; [done|].
  destruct (deliver _ _ _ _) as [R'|] eqn:E'; [|done]. intros [= <-]. cbn.
  assert (∃ R2, deliver p' sl' d' (fset p R (nt_rk s) q') = Some R2 ∧
    ∃ R3, transmit q sl (fset q' R' (nt_rk s) p) = Some (d, R3) ∧
      fset q' R2 (fset p R (nt_rk s)) = fset p R3 (fset q' R' (nt_rk s))) as (R2 & H1 & R3 & H2 & Heq).
  { destruct (decide (p = q')) as [->|Hp].
    - destruct (transmit_deliver _ _ _ _ _ _ _ _ _ (Hs q') E E') as (R2 & H1 & H2).
      rewrite !fset_at, H1, H2. exists R2. split; [done|]. exists R2. by rewrite !fset_twice.
    - rewrite !fset_other, E, E' by congruence. exists R'. split; [done|]. exists R. split; [done|].
      by apply fset_swap. }
  rewrite H2. cbn. destruct (decide ((p, q, sl) = (p', q', sl'))) as [Hch|Hch].
  - rewrite Hch, !fset_at, Hd. cbn. rewrite H1. cbn. eexists. split; [done|]. by rewrite Heq, !fset_twice.
  - rewrite !(fset_other (A := Z * Z * Z)), Hd by congruence. rewrite H1. cbn. eexists. split; [done|].
    rewrite Heq. do 2 f_equal. apply fset_swap. congruence.
Qed.

Lemma commute_deliver p q sl p' q' sl' :
  (p, q, sl) ≠ (p', q', sl') → commute s (LDeliver p q sl) (LDeliver p' q' sl').
Proof.
  intros Hne s1 s2. cbn. destruct (nt_ch s (p, q, sl)) as [|d ds] eqn:Hd; [done|].
  destruct (deliver p sl d _) as [R|] eqn:E; [|done]. intros [= <-].
  destruct (nt_ch s (p', q', sl')) as [|d' ds'] eqn:Hd'; [done|].
  destruct (deliver p' sl' d' _) as [R'|] eqn:E'; [|done]. intros [= <-]. cbn.
  rewrite !(fset_other (A := Z * Z * Z)), Hd, Hd' by congruence.
  destruct (decide (q = q')) as [->|Hq].
  - assert ((p, sl) ≠ (p', sl')) as Hps by congruence.
    destruct (deliver_deliver _ _ _ _ _ _ _ _ _ (Hs q') Hps E E') as (R2 & H1 & H2).
    rewrite !fset_at, H1, H2. cbn. rewrite !fset_twice. fset_done.
  - rewrite !fset_other, E, E' by congruence. cbn.
    eexists. split; [done|]. do 2 f_equal; apply fset_swap; congruence.
Qed.

Lemma exec_commute l l' : l ≠ l' → commute s l l'.
Proof.
  intros Hne. destruct l as [r|p q sl|p q sl], l' as [r'|p' q' sl'|p' q' sl'];
    first [apply commute_local; congruence | apply commute_local_transmit | apply commute_local_deliver
      | apply commute_transmit; congruence | apply commute_transmit_deliver | apply commute_deliver; congruence
      | apply commute_sym, commute_local_transmit | apply commute_sym, commute_local_deliver
      | apply commute_sym, commute_transmit_deliver].
Qed.
End commute.

Lemma net_step_ok s s' : net_ok s → net_step s s' → net_ok s'.
Proof. intros Hs [l Hl]. by eapply exec_ok. Qed.

Lemma net_step_diamond s s1 s2 : net_ok s → net_step s s1 → net_step s s2 →
  s1 = s2 ∨ ∃ s', net_step s1 s' ∧ net_step s2 s'.
Proof.
  intros Hs [l1 H1] [l2 H2]. destruct (decide (l1 = l2)) as [->|Hne]; [left; congruence|right].
  destruct (exec_commute s Hs l1 l2 Hne s1 s2 H1 H2) as (s' & ? & ?). exists s'. by split; eexists.
Qed.

(** If a clean system can end in [n] steps, every execution ends in [n]
    steps, in the same state. *)
Lemma net_descent_one n s f : net_ok s → nsteps net_step n s f → nf net_step f →
  ∀ s1, net_step s s1 → ∃ n', n = S n' ∧ nsteps net_step n' s1 f.
Proof.
  intros Hs H Hf. induction H as [s|n s a f Ha H IH]; intros s1 H1; [by destruct Hf; eexists|].
  exists n. split; [done|]. destruct (net_step_diamond s a s1 Hs Ha H1) as [->|(t & Ht1 & Ht2)]; [done|].
  destruct (IH (net_step_ok _ _ Hs Ha) Hf t Ht1) as (n' & -> & Hn). by eapply nsteps_l.
Qed.

Lemma net_descent n s f : net_ok s → nsteps net_step n s f → nf net_step f →
  ∀ m s', nsteps net_step m s s' → (m ≤ n)%nat ∧ nsteps net_step (n - m) s' f.
Proof.
  intros Hs H Hf m s' Hm. revert n H. induction Hm as [s|m s a s' Ha Hm IH]; intros n H.
  - rewrite Nat.sub_0_r. split; [lia|done].
  - destruct (net_descent_one n s f Hs H Hf a Ha) as (n' & -> & Hn').
    destruct (IH (net_step_ok _ _ Hs Ha) n' Hn') as [Hle Hr]. split; [lia|done].
Qed.
