(* ===== verification/Frame.v ===== *)
(** Messages on a TCP connection byte by byte: [prepareWrite], [write],
    [prepareRead] and [read] of [src/gloo/transport/tcp/pair.cc], the
    transmit queue, exceptions and the states of a pair. What the kernel
    answers is given in advance: [pi_ks] to [writev], [pi_rs] to [recv];
    after that, and where no byte has arrived, it answers [EAGAIN]. *)
From S2P Require Import Prelude Packet Tally UBuffer PairOps Net.

(* ------------------------------------------------------------------ *)
(** * Operations *)

(** [struct Op], with the bytes of its preamble; buffers are numbers. *)
Record IoOp := mkIoOp {
  io_preamble : list Z;
  io_buf : option Z;
  io_ubuf : option Z;
  io_nread : Z;
  io_nwritten : Z;
  io_offset : Z;
  io_nbytes : Z;
}.
#[export] Instance IoOp_eta : Eta IoOp := λ o,
  mkIoOp (io_preamble o) (io_buf o) (io_ubuf o) (io_nread o) (io_nwritten o) (io_offset o) (io_nbytes o).

Definition IoOp_new : IoOp := mkIoOp (replicate 48 0) None None 0 0 0 0.

(** A [size_t] in memory, and the six of the preamble. *)
Definition size_bytes (v : Z) : list Z := put_u64_slice false v.
Definition size_of_bytes (l : list Z) : Z := le_val l.
Definition preamble_bytes (p : Preamble) : list Z :=
  size_bytes (pa_nbytes p) ++ size_bytes (opcode_value (pa_opcode p)) ++ size_bytes (pa_slot p) ++
  size_bytes (pa_offset p) ++ size_bytes (pa_length p) ++ size_bytes (pa_roffset p).

Definition preamble_field (k : nat) (o : IoOp) : Z := size_of_bytes (take 8 (drop (8 * k) (io_preamble o))).
Abbreviation io_total := (preamble_field 0).
Abbreviation io_slot := (preamble_field 2).
Abbreviation io_poffset := (preamble_field 3).
Abbreviation io_length := (preamble_field 4).
Abbreviation io_roffset := (preamble_field 5).

(** [getOpcode()]; [None]: no value of the enumeration. *)
Definition getOpcode (o : IoOp) : option Opcode :=
  let v := preamble_field 1 o in
  if v =? 0 then Some SEND_BUFFER else if v =? 1 then Some SEND_UNBOUND_BUFFER
  else if v =? 2 then Some NOTIFY_SEND_READY else if v =? 3 then Some NOTIFY_RECV_READY else None.

(** The operations [sendUnboundBuffer], [sendNotifyRecvReady] and
    [sendNotifySendReady] hand to [sendAsyncMode]. *)
Definition io_of_op (op : Op) : IoOp :=
  match op_code op with
  | SEND_UNBOUND_BUFFER =>
      let u := op_uop op in mkIoOp (preamble_bytes (op_preamble op)) None (Some (uo_buf u)) 0 0 (uo_offset u) (uo_nbytes u)
  | _ => mkIoOp (preamble_bytes (op_preamble op)) None None 0 0 0 0
  end.

(** [Buffer::send(offset, length, roffset)] *)
Definition bound_op (b slot offset length roffset : Z) : IoOp :=
  mkIoOp (preamble_bytes (mkPreamble (u64 (sizeof_preamble + length)) SEND_BUFFER (u64 slot) offset length roffset))
    (Some b) None 0 0 0 0.

(* ------------------------------------------------------------------ *)
(** * What is written *)

(** [struct iovec]: the rest of the preamble, or memory of a buffer. *)
Inductive Iovec := IovPreamble (off len : Z) | IovMem (r : Region).
Definition iov_len (v : Iovec) : Z := match v with IovPreamble _ len => len | IovMem r => rg_len r end.
Definition iov_bytes (m : Mem) (o : IoOp) (v : Iovec) : list Z :=
  match v with
  | IovPreamble off len => take (Z.to_nat len) (drop (Z.to_nat off) (io_preamble o))
  | IovMem r => read m r
  end.

(** [prepareWrite(op, buf, iov, ioc)]; undefined if there is no buffer. *)
Definition prepareWrite (o : IoOp) : outcome (list Iovec * Z) :=
  let nwritten := io_nwritten o in
  let head := if nwritten <? sizeof_preamble then [IovPreamble nwritten (sizeof_preamble - nwritten)] else [] in
  let skip := if sizeof_preamble <? nwritten then nwritten - sizeof_preamble else 0 in
  let with_payload (b : option Z) (offset nbytes : Z) :=
    b ← from_option_ub b;
    let iov := head ++ [IovMem (mkRegion b (u64 (offset + skip)) (u64 (nbytes - skip)))] in
    Val (iov, s64 (foldr Z.add 0 (iov_len <$> iov))) in
  match getOpcode o with
  | Some SEND_BUFFER => with_payload (io_buf o) (io_poffset o) (io_length o)
  | Some SEND_UNBOUND_BUFFER => with_payload (io_ubuf o) (io_offset o) (io_nbytes o)
  | _ => Val (head, s64 (foldr Z.add 0 (iov_len <$> head)))
  end.

(* ------------------------------------------------------------------ *)
(** * The state of a pair *)

Inductive Errno := EAGAIN | ECONNRESET | EPIPE | EINTR | EOTHER.
(** Answers of [writev] and of [recv]: how many bytes it moves at most, an
    error, and the end of the stream. *)
Inductive KWrite := Wrote (n : Z) | WError (e : Errno).
Inductive KRead := Got (n : Z) | RError (e : Errno) | Eof.

(** What was completed, in order; the code never reads it. Of a message
    read: its preamble, and the payload where it was put. *)
Inductive Done := DoneSend (bound : bool) (b : Z) | DoneRecv (preamble payload : list Z).

Record Pio := mkPio {
  pi_state : pair_state;
  pi_sync : bool;
  pi_busyPoll : bool;
  pi_fd : bool;                               (* the descriptor is open *)
  pi_events : option bool;                    (* registered, for output too *)
  pi_ex : option exn;
  pi_tx : list IoOp;
  pi_rx : IoOp;
  pi_localPendingSend : gmap Z (list UOp);
  pi_localPendingRecv : gmap Z (list UOp);
  pi_buffers : gmap Z Z;                      (* registered buffers by slot *)
  pi_size : Z → Z;                            (* the sizes of bound buffers *)
  pi_alive : Z → bool;                        (* unbound buffers that exist *)
  pi_mem : Mem;
  pi_out : list Z;                            (* the bytes the socket took *)
  pi_in : list Z;                             (* the bytes that arrived *)
  pi_ks : list KWrite;
  pi_rs : list KRead;
  pi_done : list Done;
  pi_told : list Z;                           (* bound buffers told of an exception *)
  pi_utold : list Z;                          (* and unbound ones *)
}.
#[export] Instance Pio_eta : Eta Pio := λ p,
  mkPio (pi_state p) (pi_sync p) (pi_busyPoll p) (pi_fd p) (pi_events p) (pi_ex p) (pi_tx p) (pi_rx p)
    (pi_localPendingSend p) (pi_localPendingRecv p) (pi_buffers p) (pi_size p) (pi_alive p) (pi_mem p)
    (pi_out p) (pi_in p) (pi_ks p) (pi_rs p) (pi_done p) (pi_told p) (pi_utold p).

(** [changeState(nextState)]: closing lets go of the descriptor. *)
Definition changeState (next : pair_state) (p : Pio) : Pio :=
  let released := p <| pi_events := None |> <| pi_fd := false |> in
  match next with
  | CLOSED =>
      match pi_state p with
      | CONNECTING => if pi_fd p then released else p
      | CONNECTED => (if pi_sync p then p <| pi_fd := false |> else released)
      | _ => p
      end
  | _ => p
  end <| pi_state := next |>.

(** [close()] and the destructor. *)
Definition Pio_close (p : Pio) : Pio := match pi_state p with CLOSED => p | _ => changeState CLOSED p end.

Definition queued (m : gmap Z (list UOp)) : list Z := concat ((map_to_list m).*2) ≫= (λ u, [uo_buf u]).

(** [signalException(ex)] *)
Definition signalException (e : exn) : M Pio unit :=
  p ← get;
  _ ← lift (enforce (match pi_ex p with None => true | Some _ => false end));
  modify (λ p, changeState CLOSED (p
    <| pi_told ::= λ l, l ++ (map_to_list (pi_buffers p)).*2 ++ omap io_buf (pi_tx p) |>
    <| pi_utold ::= λ l, l ++ filter (λ b, pi_alive p b = true) (queued (pi_localPendingSend p) ++ queued (pi_localPendingRecv p)) |>
    <| pi_ex := Some e |>)).

(** [signalExceptionExternal(msg)] *)
Definition signalExceptionExternal : M Pio (option exn) :=
  p ← get;
  _ ← match pi_ex p with None => signalException IoException | Some _ => mret () end;
  gets pi_ex.

Definition Pio_throwIfException : M Pio unit :=
  ex ← gets pi_ex; match ex with Some e => throw e | None => mret () end.

(** [signalAndThrowException(ex)] *)
Definition signalAndThrowException : M Pio unit := _ ← signalException IoException; throw IoException.

(** [verifyConnected()] *)
Definition state_value (s : pair_state) : Z :=
  match s with INITIALIZING => 1 | CONNECTING => 3 | CONNECTED => 4 | CLOSED => 5 end.
Definition verifyConnected : M Pio unit :=
  s ← gets pi_state;
  _ ← lift (enforce (state_value CONNECTED <=? state_value s));
  match s with CLOSED => signalAndThrowException | _ => mret () end.

(* ------------------------------------------------------------------ *)
(** * Writing *)

(** [writeComplete(op, buf, opcode)] *)
Definition writeComplete (o : IoOp) : M Pio unit :=
  match getOpcode o, io_buf o, io_ubuf o with
  | Some SEND_BUFFER, Some b, _ => modify (λ p, p <| pi_done ::= λ l, l ++ [DoneSend true b] |>)
  | Some SEND_UNBOUND_BUFFER, _, Some b => modify (λ p, p <| pi_done ::= λ l, l ++ [DoneSend false b] |>)
  | _, _, _ => mret ()
  end.

(** The loop of [write(op)]: whether it is done, and the operation after it.
    [ks] is what the kernel still answers. *)
Fixpoint writev_loop (ks : list KWrite) (o : IoOp) : M Pio (bool * IoOp) :=
  '(iov, nbytes) ← lift (prepareWrite o);
  sync ← gets pi_sync;
  let eagain := _ ← (if (sync : bool) then signalException IoException else mret ()); mret (false, o) in
  match ks with
  | [] => eagain
  | k :: ks =>
      _ ← modify (λ p, p <| pi_ks := ks |>);
      match k with
      | Wrote n =>
          let rv := Z.max 0 (Z.min n nbytes) in
          _ ← modify (λ p, p <| pi_out ::= λ l, l ++ take (Z.to_nat rv) (concat (iov_bytes (pi_mem p) o <$> iov)) |>);
          let o := o <| io_nwritten ::= λ n, u64 (n + rv) |> in
          if rv <? nbytes then writev_loop ks o
          else
            _ ← lift (enforce (rv =? nbytes));
            _ ← lift (enforce (io_nwritten o =? io_total o));
            _ ← writeComplete o;
            mret (true, o)
      | WError EAGAIN => eagain
      | WError EINTR => writev_loop ks o
      | WError ECONNRESET | WError EPIPE => eagain
      | WError EOTHER => _ ← signalException IoException; mret (false, o)
      end
  end.

(** The unbound buffer of [op] no longer exists. *)
Definition buffer_gone (alive : Z → bool) (o : IoOp) : bool :=
  match getOpcode o with
  | Some SEND_UNBOUND_BUFFER => match io_ubuf o with Some b => negb (alive b) | None => true end
  | _ => false
  end.

(** [write(op)] *)
Definition Pio_write (o : IoOp) : M Pio (bool * IoOp) :=
  p ← get;
  match pi_state p with
  | CLOSED => mret (false, o)
  | _ =>
      if buffer_gone (pi_alive p) o then mret (false, o) else writev_loop (pi_ks p) o
  end.

(** [sendAsyncMode(op)] *)
Definition Pio_sendAsyncMode (o : IoOp) : M Pio unit :=
  p ← get;
  _ ← lift (enforce (negb (pi_sync p)));
  match pi_tx p with
  | _ :: _ => modify (λ p, p <| pi_tx ::= λ l, l ++ [o] |>)
  | [] =>
      '(done, o) ← Pio_write o;
      if (done : bool) then mret ()
      else
        _ ← Pio_throwIfException;
        modify (λ p, p <| pi_tx ::= λ l, l ++ [o] |> <| pi_events := Some true |>)
  end.

(** [sendSyncMode(op)] *)
Definition Pio_sendSyncMode (o : IoOp) : M Pio unit :=
  p ← get;
  _ ← lift (enforce (pi_sync p));
  '(done, o) ← Pio_write o;
  if (done : bool) then mret ()
  else
    ex ← gets pi_ex;
    match ex with Some e => throw e | None => throw EnforceNotMet end.

(** [send(op)]; the size of the socket's buffer is left to the kernel. *)
Definition Pio_send (o : IoOp) : M Pio unit :=
  _ ← Pio_throwIfException;
  _ ← verifyConnected;
  sync ← gets pi_sync;
  if (sync : bool) then Pio_sendSyncMode o else Pio_sendAsyncMode o.

(** The loop of [setSync] over the operations not yet written: the queue is
    only cleared when all are. *)
Fixpoint flush_sync (written ops : list IoOp) : M Pio unit :=
  match ops with
  | [] => mret ()
  | o :: ops =>
      '(done, o) ← Pio_write o;
      _ ← modify (λ p, p <| pi_tx := written ++ o :: ops |>);
      if (done : bool) then flush_sync (written ++ [o]) ops
      else
        ex ← gets pi_ex;
        match ex with Some e => throw e | None => throw EnforceNotMet end
  end.

(** [setSync(sync, busyPoll)] once the pair is connected: the loop runs while
    the pair still counts as asynchronous. *)
Definition Pio_setSync (sync busyPoll : bool) : M Pio unit :=
  _ ← (if sync then mret () else throw InvalidOperation);
  _ ← Pio_throwIfException;
  p ← get;
  _ ← match pi_state p with CLOSED => signalAndThrowException | _ => mret () end;
  _ ← (if pi_sync p then mret ()
       else
         _ ← modify (λ p, p <| pi_events := None |>);
         _ ← flush_sync [] (pi_tx p);
         modify (λ p, p <| pi_tx := [] |>));
  modify (λ p, p <| pi_sync := true |> <| pi_busyPoll := busyPoll |>).

(* ------------------------------------------------------------------ *)
(** * Reading *)

(** [getBuffer(int slot)]: the slot of the preamble loses its upper half. *)
Definition getBuffer (slot : Z) : M Pio (option Z) := gets (λ p, pi_buffers p !! s32 slot).

(** [registerBuffer(buf)], [unregisterBuffer(buf)] *)
Definition Pio_registerBuffer (slot b : Z) : M Pio unit :=
  found ← gets (λ p, pi_buffers p !! slot);
  match found with
  | Some _ => throw EnforceNotMet
  | None => modify (λ p, p <| pi_buffers ::= <[slot := b]> |>)
  end.
Definition Pio_unregisterBuffer (slot : Z) : M Pio unit := modify (λ p, p <| pi_buffers ::= delete slot |>).

Definition set_rx (f : IoOp → IoOp) : M Pio unit := modify (λ p, p <| pi_rx ::= f |>).

(** The parts of [prepareRead] that look for the buffer of a message. *)
Definition find_bound : M Pio (option Z) :=
  o ← gets pi_rx;
  match io_buf o with
  | Some b => mret (Some b)
  | None =>
      found ← getBuffer (io_slot o);
      _ ← set_rx (λ o, o <| io_buf := found |>);
      mret found
  end.
Definition find_unbound : M Pio unit :=
  o ← gets pi_rx;
  match io_ubuf o with
  | Some _ => mret ()
  | None =>
      q ← gets (λ p, pi_localPendingRecv p !! io_slot o);
      match q with
      | None | Some [] => throw EnforceNotMet
      | Some (u :: q) =>
          _ ← set_rx (λ o, o <| io_ubuf := Some (uo_buf u) |> <| io_offset := uo_offset u |>
                             <| io_nbytes := uo_nbytes u |>);
          modify (λ p, p <| pi_localPendingRecv ::= queue_set (io_slot o) q |>)
      end
  end.

(** [prepareRead(rx_, buf, iov)]: what [recv] may fill. [None]: not now,
    there is no buffer; an [iov_len] of zero: the message is complete. *)
Definition prepareRead : M Pio (option Iovec) :=
  o ← gets pi_rx;
  if io_nread o <? sizeof_preamble then
    mret (Some (IovPreamble (io_nread o) (sizeof_preamble - io_nread o)))
  else
    let offset := io_nread o - sizeof_preamble in
    match getOpcode o with
    | Some SEND_BUFFER =>
        found ← find_bound;
        match found with
        | None => mret None
        | Some b =>
            size ← gets (λ p, pi_size p b);
            _ ← lift (enforce (u64 (io_roffset o + io_length o) <=? size));
            mret (Some (IovMem (mkRegion b (u64 (offset + io_roffset o)) (u64 (io_length o - offset)))))
        end
    | Some SEND_UNBOUND_BUFFER =>
        _ ← find_unbound;
        o ← gets pi_rx;
        b ← lift (from_option_ub (io_ubuf o));
        alive ← gets (λ p, pi_alive p b);
        if (alive : bool) then
          _ ← lift (enforce (io_length o <=? io_nbytes o));
          mret (Some (IovMem (mkRegion b (u64 (io_offset o + offset)) (u64 (io_length o - offset)))))
        else mret None
    | _ => mret (Some (IovPreamble sizeof_preamble 0))
    end.

(** What one call of [recv] comes to, after the retries. *)
Inductive Recvd := RData (bs : list Z) | REof | RAgain | RFailed.

(** The loop around [recv(fd_, iov_base, iov_len, ...)]; [spin]: in the sync
    mode with busy polling [EAGAIN] is tried again until the time is up, here
    until the kernel has no more answers. *)
Fixpoint recv_call (spin : bool) (rs : list KRead) (len : Z) (arrived : list Z) : Recvd * list KRead :=
  match rs with
  | [] => (RAgain, [])
  | r :: rs =>
      match r with
      | Got n =>
          match take (Z.to_nat (Z.min n len)) arrived with
          | [] => if spin then recv_call spin rs len arrived else (RAgain, rs)
          | bs => (RData bs, rs)
          end
      | Eof => (REof, rs)
      | RError EAGAIN => if spin then recv_call spin rs len arrived else (RAgain, rs)
      | RError EINTR => recv_call spin rs len arrived
      | RError _ => (RFailed, rs)
      end
  end.

(** Storing what [recv] returned. *)
Definition fill (v : Iovec) (bs : list Z) : M Pio unit :=
  match v with
  | IovPreamble off _ =>
      set_rx (λ o, o <| io_preamble := take (Z.to_nat off) (io_preamble o) ++ bs ++
                                       drop (Z.to_nat off + length bs) (io_preamble o) |>)
  | IovMem r => modify (λ p, p <| pi_mem := write (pi_mem p) (mkRegion (rg_buf r) (rg_off r) (lenZ bs)) bs |>)
  end.

(** The payload of a message that was read, where it was put. *)
Definition rx_payload (m : Mem) (o : IoOp) : list Z :=
  match getOpcode o with
  | Some SEND_BUFFER => match io_buf o with Some b => read m (mkRegion b (io_roffset o) (io_length o)) | None => [] end
  | Some SEND_UNBOUND_BUFFER =>
      match io_ubuf o with Some b => read m (mkRegion b (io_offset o) (io_length o)) | None => [] end
  | _ => []
  end.

Section reading.
(** [handleRemotePendingSend] and [handleRemotePendingRecv], see [PairOps]. *)
Context (handle : Opcode → IoOp → M Pio unit).

(** [readComplete(buf)] *)
Definition readComplete : M Pio unit :=
  o ← gets pi_rx;
  _ ← match getOpcode o with
      | Some NOTIFY_SEND_READY => handle NOTIFY_SEND_READY o
      | Some NOTIFY_RECV_READY => handle NOTIFY_RECV_READY o
      | _ => mret ()
      end;
  modify (λ p, p <| pi_done ::= λ l, l ++ [DoneRecv (io_preamble o) (rx_payload (pi_mem p) o)] |>
                 <| pi_rx := IoOp_new |>).

(** The loop of [read()]; [None]: out of fuel. *)
Fixpoint read_loop (fuel : nat) : M Pio (option bool) :=
  match fuel with
  | O => mret None
  | S fuel =>
      v ← prepareRead;
      match v with
      | None => mret (Some false)
      | Some v =>
          let nbytes := s64 (iov_len v) in
          if nbytes <? 0 then mret (Some false)
          else if nbytes =? 0 then _ ← readComplete; mret (Some true)
          else
            p ← get;
            let '(r, rs) := recv_call (pi_sync p && pi_busyPoll p) (pi_rs p) (iov_len v) (pi_in p) in
            _ ← modify (λ p, p <| pi_rs := rs |>);
            match r with
            | RData bs =>
                _ ← modify (λ p, p <| pi_in ::= drop (length bs) |>);
                _ ← fill v bs;
                _ ← set_rx (λ o, o <| io_nread ::= λ n, u64 (n + lenZ bs) |>);
                read_loop fuel
            | REof | RFailed => _ ← signalException IoException; mret (Some false)
            | RAgain => _ ← (if pi_sync p then signalException IoException else mret ()); mret (Some false)
            end
      end
  end.

(** [read()] *)
Definition Pio_read : M Pio (option bool) :=
  p ← get;
  match pi_state p with CLOSED => mret (Some false) | _ => read_loop (S (length (pi_rs p))) end.

(** [recv()] *)
Definition Pio_recv : M Pio unit :=
  _ ← Pio_throwIfException;
  _ ← verifyConnected;
  rv ← Pio_read;
  match rv with
  | Some true => mret ()
  | _ =>
      ex ← gets pi_ex;
      match ex with Some e => throw e | None => throw EnforceNotMet end
  end.

(* ------------------------------------------------------------------ *)
(** * The device loop *)

(** [while (!tx_.empty()) ...] *)
Fixpoint write_queue (ops : list IoOp) : M Pio unit :=
  match ops with
  | [] => mret ()
  | o :: ops =>
      '(done, o) ← Pio_write o;
      if (done : bool) then _ ← modify (λ p, p <| pi_tx := ops |>); write_queue ops
      else modify (λ p, p <| pi_tx := o :: ops |>)
  end.

(** [while (read())]; [None]: out of fuel. *)
Fixpoint read_all (fuel : nat) : M Pio (option unit) :=
  match fuel with
  | O => mret None
  | S fuel =>
      rv ← Pio_read;
      match rv with
      | None => mret None
      | Some true => read_all fuel
      | Some false => mret (Some ())
      end
  end.

(** [handleReadWrite(events)] *)
Definition handleReadWrite (out inp : bool) : M Pio (option unit) :=
  _ ← (if out then
         p ← get;
         _ ← lift (enforce (match pi_tx p with [] => false | _ => true end));
         _ ← write_queue (pi_tx p);
         p ← get;
         match pi_tx p with [] => modify (λ p, p <| pi_events := Some false |>) | _ => mret () end
       else mret ());
  p ← get;
  if inp then read_all (S (S (length (pi_in p)))) else mret (Some ()).

(** [handleEvents(events)]; [locked]: another thread holds the mutex. *)
Definition handleEvents (locked out inp : bool) : M Pio (option unit) :=
  if locked then mret (Some ())
  else
    p ← get;
    _ ← lift (enforce (state_value (pi_state p) <=? state_value CONNECTED));
    _ ← lift (enforce (match pi_ex p with None => true | Some _ => false end));
    match pi_state p with
    | CONNECTED => handleReadWrite out inp
    | _ => throw EnforceNotMet
    end.
End reading.
