(* ===== verification/FrameSend.v ===== *)
(** Sending on a connection: however the kernel splits and refuses writes,
    what the socket took is the beginning of the frames of the operations
    sent, in order, and the rest is what the transmit queue still owes. *)
From S2P Require Import Prelude Packet PairOps Net Frame.

(* ------------------------------------------------------------------ *)
(** * Preambles *)

Record preamble_wf (p : Preamble) : Prop := {
  pw_nbytes : is_u64 (pa_nbytes p);
  pw_slot : is_u64 (pa_slot p);
  pw_offset : is_u64 (pa_offset p);
  pw_length : is_u64 (pa_length p);
  pw_roffset : is_u64 (pa_roffset p);
}.

Lemma size_bytes_val v : is_u64 v → size_of_bytes (size_bytes v) = v.
Proof. apply (put_u64_slice_val false). Qed.

Lemma size_bytes_length v : length (size_bytes v) = 8%nat.
Proof. done. Qed.

Lemma preamble_bytes_length p : length (preamble_bytes p) = 48%nat.
Proof. done. Qed.

Definition preamble_fields (p : Preamble) : list Z :=
  [pa_nbytes p; opcode_value (pa_opcode p); pa_slot p; pa_offset p; pa_length p; pa_roffset p].

(** Each field of a preamble reads back. *)
Lemma preamble_field_val k v p o :
  preamble_wf p → io_preamble o = preamble_bytes p → preamble_fields p !! k = Some v → preamble_field k o = v.
Proof.
  intros [] Hb Hk. unfold preamble_field. rewrite Hb.
  assert (is_u64 (opcode_value (pa_opcode p))) by (destruct (pa_opcode p); done).
  do 6 (destruct k as [|k]; [injection Hk as <-; by apply size_bytes_val|]). done.
Qed.

Lemma getOpcode_val p o : preamble_wf p → io_preamble o = preamble_bytes p → getOpcode o = Some (pa_opcode p).
Proof.
  intros Hp Hb. unfold getOpcode. rewrite (preamble_field_val 1 (opcode_value (pa_opcode p)) p o) by done.
  by destruct (pa_opcode p).
Qed.

(* ------------------------------------------------------------------ *)
(** * Messages *)

(** What an operation to send stands for: its payload and the whole frame. *)
Definition payload (m : Mem) (o : IoOp) : list Z :=
  match getOpcode o with
  | Some SEND_BUFFER => match io_buf o with Some b => read m (mkRegion b (io_poffset o) (io_length o)) | None => [] end
  | Some SEND_UNBOUND_BUFFER =>
      match io_ubuf o with Some b => read m (mkRegion b (io_offset o) (io_nbytes o)) | None => [] end
  | _ => []
  end.
Definition frame_of (m : Mem) (o : IoOp) : list Z := io_preamble o ++ payload m o.

(** How many bytes follow a preamble. *)
Definition payload_length (o : IoOp) : Z :=
  match getOpcode o with Some SEND_BUFFER | Some SEND_UNBOUND_BUFFER => io_length o | _ => 0 end.

(** An operation to send, as the code builds them. *)
Record op_wf (o : IoOp) : Prop := {
  ow_pre : length (io_preamble o) = 48%nat;
  ow_total : io_total o = 48 + payload_length o;
  ow_len : 0 ≤ payload_length o < 2 ^ 62;
  ow_kind : match getOpcode o with
            | Some SEND_BUFFER =>
                is_Some (io_buf o) ∧ 0 ≤ io_poffset o ∧ io_poffset o + io_length o < 2 ^ 64 ∧
                0 ≤ io_roffset o ∧ io_roffset o + io_length o < 2 ^ 64
            | Some SEND_UNBOUND_BUFFER =>
                is_Some (io_ubuf o) ∧ io_nbytes o = io_length o ∧ 0 ≤ io_offset o ∧ io_offset o + io_length o < 2 ^ 64
            | Some _ => True
            | None => False
            end;
}.

Lemma payload_len m o : op_wf o → lenZ (payload m o) = payload_length o.
Proof.
  intros []. unfold payload, payload_length, lenZ in *. destruct (getOpcode o) as [[]|]; [| |done|done|done].
  - destruct ow_kind0 as ([b ->] & _). by rewrite read_length by (cbn [rg_len]; lia).
  - destruct ow_kind0 as ([b ->] & Hn & _). rewrite read_length by (cbn [rg_len]; lia). done.
Qed.

Lemma frame_len m o : op_wf o → lenZ (frame_of m o) = io_total o.
Proof.
  intros Hw. unfold frame_of. rewrite lenZ_app, payload_len by done. destruct Hw. unfold lenZ. lia.
Qed.

(** The operations of [PairOps] and of bound buffers are such. *)
Lemma io_of_op_wf slot u : is_u64 slot → 0 ≤ uo_offset u → 0 ≤ uo_nbytes u < 2 ^ 62 → uo_offset u + uo_nbytes u < 2 ^ 64 →
  op_wf (io_of_op (unbound_op slot u)).
Proof.
  intros Hs Ho Hn Ht. set (o := io_of_op (unbound_op slot u)).
  assert (preamble_wf (op_preamble (unbound_op slot u))) as Hp by (split; cbn; try word_lia; done).
  assert (u64 (sizeof_preamble + uo_nbytes u) = 48 + uo_nbytes u) as Hu by (unfold sizeof_preamble; word_lia).
  pose proof (getOpcode_val _ o Hp eq_refl) as Hc. cbn in Hc.
  pose proof (λ k v, preamble_field_val k v _ o Hp eq_refl) as Hf.
  assert (io_total o = 48 + uo_nbytes u) as H0 by (apply Hf; cbn; by rewrite Hu).
  assert (io_length o = uo_nbytes u) as H4 by by apply Hf.
  split; unfold payload_length; rewrite ?Hc, ?H4; done.
Qed.

Lemma bound_op_wf b slot offset length roffset :
  - 2 ^ 31 ≤ slot < 2 ^ 31 → 0 ≤ offset → 0 ≤ roffset → 0 ≤ length < 2 ^ 62 →
  offset + length < 2 ^ 64 → roffset + length < 2 ^ 64 → op_wf (bound_op b slot offset length roffset).
Proof.
  intros Hs Ho Hr Hl Ht Ht'. set (o := bound_op b slot offset length roffset).
  set (p := mkPreamble (u64 (sizeof_preamble + length)) SEND_BUFFER (u64 slot) offset length roffset).
  assert (preamble_wf p) as Hp by (split; cbn; word_lia).
  assert (u64 (sizeof_preamble + length) = 48 + length) as Hu by (unfold sizeof_preamble; word_lia).
  pose proof (getOpcode_val p o Hp eq_refl) as Hc. cbn in Hc.
  pose proof (λ k v, preamble_field_val k v p o Hp eq_refl) as Hf.
  assert (io_total o = 48 + length) as H0 by (apply Hf; cbn; by rewrite Hu).
  assert (io_poffset o = offset) as H3 by by apply Hf.
  assert (io_length o = length) as H4 by by apply Hf.
  assert (io_roffset o = roffset) as H5 by by apply Hf.
  split; unfold payload_length; rewrite ?Hc, ?H3, ?H4, ?H5; done.
Qed.

(** The slot of a bound buffer survives the trip. *)
Lemma bound_slot slot : - 2 ^ 31 ≤ slot < 2 ^ 31 → s32 (u64 slot) = slot.
Proof. intros. word_lia. Qed.

(** Where a field only depends on the preamble and other bookkeeping. *)
Lemma op_wf_advance o n : op_wf o → op_wf (o <| io_nwritten := n |>).
Proof. intros []. by split. Qed.
Lemma frame_advance m o n : frame_of m (o <| io_nwritten := n |>) = frame_of m o.
Proof. done. Qed.

(* ------------------------------------------------------------------ *)
(** * Writing one operation *)

(** What is offered to the kernel is the rest of the frame. *)
Lemma prepareWrite_spec m o : op_wf o → 0 ≤ io_nwritten o < io_total o →
  ∃ iov, prepareWrite o = Val (iov, io_total o - io_nwritten o) ∧
    concat (iov_bytes m o <$> iov) = drop (Z.to_nat (io_nwritten o)) (frame_of m o).
Proof.
  intros Hw Hn. pose proof (payload_len m o Hw) as Hpl. destruct Hw as [Hpre Ht Hl Hk].
  set (n := io_nwritten o) in *.
  assert (∀ b off nb, 0 ≤ off → off + nb < 2 ^ 64 → payload m o = read m (mkRegion b off nb) → payload_length o = nb →
    let iov := (if n <? 48 then [IovPreamble n (48 - n)] else []) ++
      [IovMem (mkRegion b (u64 (off + if 48 <? n then n - 48 else 0)) (u64 (nb - if 48 <? n then n - 48 else 0)))] in
    Val (iov, s64 (foldr Z.add 0 (iov_len <$> iov))) = Val (iov, io_total o - n) ∧
    concat (iov_bytes m o <$> iov) = drop (Z.to_nat n) (frame_of m o)) as Hdata.
  { intros b off nb Ho Hb Hp Hnb iov. subst iov. unfold frame_of. rewrite Hp. clear Hpl Hk.
    destruct (Z.ltb_spec n 48); cbn [fmap list_fmap concat iov_bytes iov_len app foldr rg_len].
    - rewrite (proj2 (Z.ltb_ge 48 n)) by lia. rewrite Z.add_0_r, Z.sub_0_r, !wrap_small by (split; lia).
      rewrite app_nil_r, drop_app_le, take_ge by (rewrite ?length_drop; lia).
      split; [|done]. do 2 f_equal. rewrite swrap_small by lia. lia.
    - rewrite drop_app_ge by lia. rewrite app_nil_r, !wrap_small by (destruct (48 <? n) eqn:E; split; lia).
      assert ((if 48 <? n then n - 48 else 0) = n - 48) as -> by (destruct (Z.ltb_spec 48 n); lia).
      split; [do 2 f_equal; rewrite swrap_small by lia; lia|].
      replace nb with ((n - 48) + (nb - (n - 48))) at 2 by lia. rewrite read_split by lia.
      rewrite drop_app_length'; [done|]. apply Nat2Z.inj. rewrite read_length by (cbn [rg_len]; lia). cbn [rg_len]. lia. }
  assert (payload m o = [] → payload_length o = 0 →
    ∃ iov, Val (if n <? 48 then [IovPreamble n (48 - n)] else [],
                s64 (foldr Z.add 0 (iov_len <$> if n <? 48 then [IovPreamble n (48 - n)] else []))) = Val (iov, io_total o - n) ∧
    concat (iov_bytes m o <$> iov) = drop (Z.to_nat n) (frame_of m o)) as Hctl.
  { intros Hp H0. rewrite (proj2 (Z.ltb_lt n 48)) by lia. eexists. split.
    - do 2 f_equal. cbn [fmap list_fmap iov_len foldr]. rewrite swrap_small by lia. lia.
    - unfold frame_of. rewrite Hp, app_nil_r. cbn. rewrite app_nil_r. rewrite take_ge by (rewrite length_drop; lia). done. }
  unfold payload, payload_length in *. unfold prepareWrite, sizeof_preamble. fold n.
  destruct (getOpcode o) as [[]|]; [| | | |done].
  - destruct Hk as ([b Hb] & ? & ? & ?). rewrite Hb in *. eexists. by apply Hdata.
  - destruct Hk as ([b Hb] & Hnb & ? & ?). rewrite Hb, Hnb in *. eexists. by apply Hdata.
  - by apply Hctl.
  - by apply Hctl.
Qed.

(** What belongs to the sending side of a pair, and to the receiving one. *)
Definition sending (p : Pio) := (pi_tx p, pi_mem p, pi_alive p, pi_sync p).
Definition received (l : list Done) : list (list Z * list Z) :=
  omap (λ d, match d with DoneRecv pre pay => Some (pre, pay) | _ => None end) l.
Definition receiving (p : Pio) :=
  (pi_rx p, pi_in p, pi_rs p, pi_buffers p, pi_size p, pi_localPendingRecv p, received (pi_done p)).

(** After a write only the output, the kernel's answers and the log of sends
    differ, and the pair may have been closed by an exception. *)
Record wrote (p p' : Pio) (w : list Z) : Prop := {
  wr_out : pi_out p' = pi_out p ++ w;
  wr_sending : sending p' = sending p;
  wr_receiving : receiving p' = receiving p;
  wr_state : (pi_state p' = pi_state p ∧ pi_ex p' = pi_ex p) ∨ (pi_state p' = CLOSED ∧ is_Some (pi_ex p'));
}.

Lemma wrote_trans p p1 p2 w1 w2 : wrote p p1 w1 → wrote p1 p2 w2 → wrote p p2 (w1 ++ w2).
Proof.
  intros [Ho Hs Hr Hst] [Ho' Hs' Hr' Hst']. split; [by rewrite Ho', Ho, app_assoc|congruence..|].
  destruct Hst' as [[-> ->]|?]; auto.
Qed.

Lemma signalException_wrote e p : pi_ex p = None →
  ∃ p', signalException e p = (Val (), p') ∧ wrote p p' [] ∧ pi_state p' = CLOSED ∧ pi_ex p' = Some e.
Proof.
  intros He. destruct p as [st sy ? fd ? ex]. cbn in He. subst ex. eexists. split; [reflexivity|].
  split; [|by destruct st, sy, fd..].
  destruct st, sy, fd; split; cbn; rewrite ?app_nil_r; eauto.
Qed.

(** The result of writing [o]: some of what is left was written, and all of
    it when it says so; a blocking write that fails closes the pair. *)
Definition write_ok (o : IoOp) (p : Pio) (res : outcome (bool * IoOp) * Pio) : Prop :=
  ∃ (done : bool) n p' w, res = (Val (done, o <| io_nwritten := n |>), p') ∧ wrote p p' w ∧
    drop (Z.to_nat (io_nwritten o)) (frame_of (pi_mem p) o) = w ++ drop (Z.to_nat n) (frame_of (pi_mem p) o) ∧
    0 ≤ n ≤ io_total o ∧ (n = io_total o ↔ done = true) ∧
    (done = false → pi_sync p = true → pi_state p' = CLOSED ∧ is_Some (pi_ex p')).

Lemma write_ok_step o n p p1 w1 res :
  wrote p p1 w1 → drop (Z.to_nat (io_nwritten o)) (frame_of (pi_mem p) o) = w1 ++ drop (Z.to_nat n) (frame_of (pi_mem p) o) →
  write_ok (o <| io_nwritten := n |>) p1 res → write_ok o p res.
Proof.
  intros Hp Hd (d & n' & p' & w & -> & Hp' & Hd' & Hn & Hdone & Hs).
  assert (pi_mem p1 = pi_mem p ∧ pi_sync p1 = pi_sync p) as [Hm Hy] by (destruct Hp as [_ [=] _ _]; done).
  rewrite Hm in Hd'. exists d, n', p', (w1 ++ w). split_and!; [done|by eapply wrote_trans| |apply Hn|apply Hn|done|by rewrite <-Hy].
  rewrite Hd, <-app_assoc. f_equal. exact Hd'.
Qed.

Lemma write_ok_same o p p1 res : wrote p p1 [] → write_ok o p1 res → write_ok o p res.
Proof. intros Hw Hr. apply (write_ok_step o (io_nwritten o) p p1 []); [done..|]. by destruct o. Qed.

(** Giving up for now, and with an error. *)
Lemma write_ok_stop o p : 0 ≤ io_nwritten o < io_total o → pi_sync p = false → write_ok o p (Val (false, o), p).
Proof.
  intros Hn Hy. exists false, (io_nwritten o), p, []. split_and!; try done; [by destruct o| |lia|lia|split; [lia|done]|congruence].
  split; [by rewrite app_nil_r|done|done|auto].
Qed.
Lemma write_ok_fail o p : 0 ≤ io_nwritten o < io_total o → pi_ex p = None →
  write_ok o p ((_ ← signalException IoException; mret (false, o)) p).
Proof.
  intros Hn He. destruct (signalException_wrote IoException p He) as (p' & Hr & Hw & Hc & Hx).
  rewrite (M_bind_val _ _ _ _ _ Hr).
  exists false, (io_nwritten o), p', []. split_and!; try done; [by destruct o|lia|lia|split; [lia|done]].
Qed.
Lemma write_ok_again o p (sync : bool) : 0 ≤ io_nwritten o < io_total o → pi_ex p = None → pi_sync p = sync →
  write_ok o p ((_ ← (if sync then signalException IoException else mret ()); mret (false, o)) p).
Proof. intros ???. destruct sync; [by apply write_ok_fail|by apply write_ok_stop]. Qed.

Lemma writeComplete_wrote o p : ∃ p', writeComplete o p = (Val (), p') ∧ wrote p p' [].
Proof.
  assert (wrote p p []) as Hp by (split; rewrite ?app_nil_r; auto).
  assert (∀ b x, wrote p (p <| pi_done ::= λ l, l ++ [DoneSend b x] |>) []) as Hd.
  { intros b x. split; cbn; rewrite ?app_nil_r; auto. unfold receiving, received. cbn. by rewrite omap_app, app_nil_r. }
  unfold writeComplete. destruct (getOpcode o) as [[]|], (io_buf o), (io_ubuf o); eexists; (split; [reflexivity|auto]).
Qed.

Lemma writev_loop_ok ks : ∀ o p,
  pi_ex p = None → op_wf o → 0 ≤ io_nwritten o < io_total o → write_ok o p (writev_loop ks o p).
Proof.
  induction ks as [|k ks IH]; intros o p He Hw Hn;
    destruct (prepareWrite_spec (pi_mem p) o Hw Hn) as (iov & Hiov & Hb); cbn [writev_loop];
    rewrite (M_bind_val (lift (prepareWrite o)) _ p _ _ (lift_val _ _ p Hiov)); cbv beta iota;
    M_run.
  { by apply write_ok_again. }
  M_run. set (p1 := p <| pi_ks := ks |>).
  assert (wrote p p1 []) as H1 by (split; cbn; rewrite ?app_nil_r; auto).
  apply (write_ok_same _ _ p1 _ H1). destruct k as [n|[]].
  2-6: first [by apply write_ok_again|by apply write_ok_fail|by apply IH].
  cbv zeta. set (rv := Z.max 0 (Z.min n (io_total o - io_nwritten o))). set (l := io_total o - io_nwritten o) in *.
  assert (0 ≤ rv ≤ l) as Hrv by lia.
  set (w := take (Z.to_nat rv) (drop (Z.to_nat (io_nwritten o)) (frame_of (pi_mem p) o))).
  set (p2 := p1 <| pi_out ::= λ l, l ++ w |>).
  rewrite (M_bind_val _ _ p1 () p2) by (unfold modify; change (pi_mem p1) with (pi_mem p); by rewrite Hb). cbv beta.
  assert (wrote p1 p2 w) as H2 by (split; cbn; auto).
  assert (u64 (io_nwritten o + rv) = io_nwritten o + rv) as Hu.
  { destruct Hw as [_ Ht Hl _]. apply wrap_small. split; lia. }
  assert (drop (Z.to_nat (io_nwritten o)) (frame_of (pi_mem p) o) =
          w ++ drop (Z.to_nat (io_nwritten o + rv)) (frame_of (pi_mem p) o)) as Hd.
  { subst w. rewrite <-(take_drop (Z.to_nat rv) (drop _ _)) at 1. f_equal. rewrite drop_drop. f_equal. lia. }
  replace (o <| io_nwritten ::= λ n, u64 (n + rv) |>) with (o <| io_nwritten := io_nwritten o + rv |>)
    by (destruct o; cbn in *; by rewrite Hu).
  apply (write_ok_step o (io_nwritten o + rv) p1 p2 w); [done|exact Hd|].
  destruct (Z.ltb_spec rv l) as [Hlt|Hge].
  - apply IH; [done|by apply op_wf_advance|]. change (io_total (o <| io_nwritten := io_nwritten o + rv |>)) with (io_total o).
    change (io_nwritten (o <| io_nwritten := io_nwritten o + rv |>)) with (io_nwritten o + rv). lia.
  - assert (rv = l) as -> by lia. rewrite Z.eqb_refl.
    change (io_total (o <| io_nwritten := io_nwritten o + l |>)) with (io_total o).
    rewrite (M_bind_val _ _ p2 () p2 eq_refl). cbv beta.
    change (io_nwritten (o <| io_nwritten := io_nwritten o + l |>)) with (io_nwritten o + l).
    assert (io_nwritten o + l = io_total o) as Hl by lia. rewrite Hl, Z.eqb_refl.
    rewrite (M_bind_val _ _ p2 () p2 eq_refl). cbv beta.
    destruct (writeComplete_wrote (o <| io_nwritten := io_total o |>) p2) as (p3 & Hr & Hw3).
    rewrite (M_bind_val _ _ _ _ _ Hr).
    exists true, (io_total o), p3, []. split_and!; try done. destruct Hw; lia.
Qed.

(* ------------------------------------------------------------------ *)
(** * The transmit queue *)

(** [r] is what is left to send of the queued operation [o]; of a buffer
    that is gone nobody knows. *)
Definition queued_as (p : Pio) (o : IoOp) (r : list Z) : Prop :=
  op_wf o ∧ 0 ≤ io_nwritten o < io_total o ∧
  (buffer_gone (pi_alive p) o = true ∨ r = drop (Z.to_nat (io_nwritten o)) (frame_of (pi_mem p) o)).

Definition owes (p : Pio) (ops : list IoOp) (rest : list Z) : Prop :=
  pi_state p = CLOSED ∨ ∃ rs, Forall2 (queued_as p) ops rs ∧ rest = concat rs.

(** An exception closes the pair. *)
Definition calm (p : Pio) : Prop := pi_state p ≠ CLOSED → pi_ex p = None.

(** All of [sent] was written or is owed by the operations [ops], unless the
    pair is closed. *)
Record tx_owing (sent : list (list Z)) (ops : list IoOp) (p : Pio) : Prop := {
  to_up : pi_state p = CONNECTED ∨ pi_state p = CLOSED;
  to_calm : calm p;
  to_owes : ∃ rest, concat sent = pi_out p ++ rest ∧ owes p ops rest;
}.
(** The operations are those of the queue; there is none in the sync mode. *)
Record tx_ok (sent : list (list Z)) (p : Pio) : Prop := {
  tx_queue : tx_owing sent (pi_tx p) p;
  tx_sync : pi_sync p = true → pi_tx p = [];
}.

Lemma wrote_refl p : wrote p p [].
Proof. split; rewrite ?app_nil_r; auto. Qed.

Lemma wrote_calm p p' w : wrote p p' w → calm p → calm p'.
Proof. intros [_ _ _ [[Hs He]|[Hs He]]] Hc; [|by intros Hn; destruct Hn]. intros Hn. rewrite He. apply Hc. by rewrite <-Hs. Qed.

Lemma wrote_queue p p' w ops rs : wrote p p' w → Forall2 (queued_as p) ops rs → Forall2 (queued_as p') ops rs.
Proof.
  intros [_ [= _ Hm Ha _] _ _] H. eapply Forall2_impl; [exact H|]. intros o r (? & ? & Hr).
  split; [done|]. split; [done|]. by rewrite Hm, Ha.
Qed.

Lemma Pio_write_open o p : pi_state p ≠ CLOSED →
  Pio_write o p = if buffer_gone (pi_alive p) o then (Val (false, o), p) else writev_loop (pi_ks p) o p.
Proof.
  intros Hc. unfold Pio_write. M_run.
  destruct (pi_state p); [| | |done]; by destruct (buffer_gone (pi_alive p) o).
Qed.
Lemma Pio_write_closed o p : pi_state p = CLOSED → Pio_write o p = (Val (false, o), p).
Proof. intros Hc. unfold Pio_write. M_run. by rewrite Hc. Qed.

Lemma Pio_write_owes o ops p rest : calm p → owes p (o :: ops) rest →
  ∃ (done : bool) o' p' w rest', Pio_write o p = (Val (done, o'), p') ∧ wrote p p' w ∧
    (pi_state p = CLOSED → w = [] ∧ done = false) ∧
    (pi_state p ≠ CLOSED → rest = w ++ rest') ∧ owes p' (if done then ops else o' :: ops) rest' ∧
    (done = false → pi_sync p = true → pi_state p ≠ CLOSED → buffer_gone (pi_alive p) o = false → is_Some (pi_ex p')).
Proof.
  intros Hc Ho. destruct (decide (pi_state p = CLOSED)) as [Hcl|Hcl].
  { rewrite (Pio_write_closed o p Hcl). exists false, o, p, [], rest.
    split_and!; [done|apply wrote_refl|done..|by left|done]. }
  rewrite (Pio_write_open o p Hcl). destruct Ho as [|(rs & Hq & ->)]; [done|]. apply Forall2_cons_inv_l in Hq as (r & rs' & (Hw & Hn & Hr) & Hq & ->).
  destruct (buffer_gone (pi_alive p) o) eqn:Hg.
  { exists false, o, p, [], (r ++ concat rs'). split_and!; auto using wrote_refl; try done.
    right. exists (r :: rs'). split; [|done]. constructor; [|done]. split; [done|]. split; [done|by left]. }
  destruct Hr as [|Hr]; [done|].
  destruct (writev_loop_ok (pi_ks p) o p (Hc Hcl) Hw Hn) as (d & n & p' & w & -> & Hwr & Hd & Hn' & Hdone & Hs).
  exists d, (o <| io_nwritten := n |>), p', w, (drop (Z.to_nat n) (frame_of (pi_mem p) o) ++ concat rs').
  split_and!; [done|done|done|intros _; cbn; by rewrite Hr, Hd, <-app_assoc| |].
  - pose proof (wrote_queue _ _ _ _ _ Hwr Hq) as Hq'. destruct Hwr as [_ Hse _ _]. right. destruct d.
    + exists rs'. split; [done|]. rewrite (proj2 Hdone eq_refl).
      rewrite drop_ge; [done|]. pose proof (frame_len (pi_mem p) o Hw). unfold lenZ in *. lia.
    + exists (drop (Z.to_nat n) (frame_of (pi_mem p) o) :: rs'). split; [|done]. constructor; [|done].
      split_and!; [by apply op_wf_advance|apply Hn'| |].
      * change (n < io_total o). assert (n ≠ io_total o) by (intros ->; by destruct Hdone as [Hx _]; specialize (Hx eq_refl)). lia.
      * right. injection Hse as _ -> _ _. done.
  - intros Hd1 Hy _ _. by apply Hs.
Qed.

(** What an operation of the sending side may change. *)
Record tx_step (p p' : Pio) : Prop := {
  ts_out : ∃ w, pi_out p' = pi_out p ++ w;
  ts_receiving : receiving p' = receiving p;
  ts_mem : pi_mem p' = pi_mem p;
  ts_alive : pi_alive p' = pi_alive p;
}.
#[export] Instance tx_step_preorder : PreOrder tx_step.
Proof.
  split; [intros p; split; [exists []; by rewrite app_nil_r|done..]|].
  intros p1 p2 p3 [[w1 Ho1]] [[w2 Ho2]]. split; [|congruence..]. exists (w1 ++ w2). by rewrite Ho2, Ho1, app_assoc.
Qed.

Lemma wrote_tx_step p p' w : wrote p p' w → tx_step p p'.
Proof. intros [Ho [= _ Hm Ha _] Hr _]. split; eauto. Qed.

Lemma wrote_up p p' w : wrote p p' w → pi_state p = CONNECTED ∨ pi_state p = CLOSED → pi_state p' = CONNECTED ∨ pi_state p' = CLOSED.
Proof. intros [_ _ _ [[-> _]|[-> _]]]; auto. Qed.

(** A closed pair owes nothing more. *)
Lemma tx_owing_closed sent ops p : pi_state p = CLOSED → pi_out p `prefix_of` concat sent → tx_owing sent ops p.
Proof. intros Hc [rest Hr]. split; [by right|by intros []|]. exists rest. split; [done|by left]. Qed.

Lemma tx_owing_prefix sent ops p : tx_owing sent ops p → pi_out p `prefix_of` concat sent.
Proof. intros [_ _ (rest & -> & _)]. by eexists. Qed.

Lemma tx_owing_ex sent ops p e : tx_owing sent ops p → pi_ex p = Some e → pi_state p = CLOSED.
Proof. intros [[Hu|] Hc _] He; [|done]. rewrite Hc in He; [done|]. by rewrite Hu. Qed.

Lemma Pio_write_owing sent o ops p : tx_owing sent (o :: ops) p →
  ∃ (done : bool) o' p', Pio_write o p = (Val (done, o'), p') ∧ tx_owing sent (if done then ops else o' :: ops) p' ∧
    tx_step p p' ∧ pi_tx p' = pi_tx p ∧ pi_sync p' = pi_sync p ∧
    (done = false → pi_sync p = true → pi_state p = CONNECTED → buffer_gone (pi_alive p) o = false → is_Some (pi_ex p')).
Proof.
  intros [Hup Hc (rest & Hs & Ho)].
  destruct (Pio_write_owes o ops p rest Hc Ho) as (d & o' & p' & w & rest' & Hr & Hw & Hcl & Hrest & Ho' & Hsy).
  exists d, o', p'. split; [done|]. split; [|split; [by eapply wrote_tx_step|]].
  - destruct (decide (pi_state p = CLOSED)) as [E|E].
    + destruct (Hcl E) as [-> _], Hw as [Hw _ _ Hst]. rewrite app_nil_r in Hw. apply tx_owing_closed.
      * destruct Hst as [[-> _]|[-> _]]; done.
      * rewrite Hw, Hs. by eexists.
    + split; [by apply (wrote_up p p' w)|by apply (wrote_calm p p' w)|].
      exists rest'. split; [|exact Ho']. destruct Hw as [Hw _ _ _]. by rewrite Hw, Hs, (Hrest E), app_assoc.
  - destruct Hw as [_ [= Ht _ _ Hy] _ _]. split_and!; [done..|]. intros ?? Hco ?. apply Hsy; [done|done|by rewrite Hco|done].
Qed.

Lemma tx_owing_set sent ops p q : tx_owing sent ops p →
  pi_state q = pi_state p → pi_ex q = pi_ex p → pi_out q = pi_out p → pi_mem q = pi_mem p → pi_alive q = pi_alive p →
  tx_owing sent ops q.
Proof.
  intros [Hup Hc (rest & Hs & Ho)] Hst He Hou Hm Ha. split; [by rewrite Hst|by unfold calm; rewrite Hst, He|].
  exists rest. split; [by rewrite Hou|]. destruct Ho as [Ho|(rs & Hq & Hr)]; [left; congruence|right; exists rs; split; [|done]].
  eapply Forall2_impl; [exact Hq|]. unfold queued_as. by rewrite Hm, Ha.
Qed.

(** [write_queue] takes the queue as far as the kernel lets it. *)
Lemma write_queue_ok ops : ∀ sent p, tx_ok sent p → pi_tx p = ops →
  ∃ p', write_queue ops p = (Val (), p') ∧ tx_ok sent p' ∧ tx_step p p'.
Proof.
  induction ops as [|o ops IH]; intros sent p [Hq Hy] Htx; [by eexists|]. rewrite Htx in Hq, Hy.
  assert (pi_sync p = false) as Hyf by (destruct (pi_sync p); [by specialize (Hy eq_refl)|done]).
  destruct (Pio_write_owing _ _ _ _ Hq) as (d & o' & p1 & Hr & Hq1 & Hst & _ & Hy1 & _).
  cbn [write_queue]. rewrite (M_bind_val _ _ _ _ _ Hr). cbv beta iota.
  set (q := p1 <| pi_tx := if d then ops else o' :: ops |>).
  assert (tx_step p q) as Hpq by (etrans; [exact Hst|]; split; [exists []; by rewrite app_nil_r|done..]).
  assert (tx_ok sent q) as Hok by (split; [by apply (tx_owing_set _ _ p1)|cbn; congruence]).
  destruct d; [|by exists q].
  rewrite M_bind_modify. fold q. destruct (IH sent q Hok eq_refl) as (p' & Hp' & Hok' & Hst').
  exists p'. split_and!; [done..|by etrans].
Qed.

(** Sending: the message is written, queued, or the pair is closed. *)
Lemma owes_app p ops rest o : owes p ops rest → op_wf o → io_nwritten o = 0 → owes p (ops ++ [o]) (rest ++ frame_of (pi_mem p) o).
Proof.
  intros [Hc|(rs & Hq & ->)] Hw Hn; [by left|]. right. exists (rs ++ [frame_of (pi_mem p) o]). split.
  - apply Forall2_app; [done|]. constructor; [|done]. split; [done|]. rewrite Hn. split; [|by right].
    destruct Hw. lia.
  - rewrite concat_app. cbn. by rewrite app_nil_r.
Qed.

Lemma tx_owing_app sent ops p o : tx_owing sent ops p → op_wf o → io_nwritten o = 0 →
  tx_owing (sent ++ [frame_of (pi_mem p) o]) (ops ++ [o]) p.
Proof.
  intros [Hup Hc (rest & Hs & Ho)] Hw Hn. split; [done..|]. exists (rest ++ frame_of (pi_mem p) o).
  split; [|by apply owes_app]. rewrite concat_app, Hs. cbn. by rewrite app_nil_r, app_assoc.
Qed.

Lemma tx_step_set p q : pi_out q = pi_out p → receiving q = receiving p → pi_mem q = pi_mem p → pi_alive q = pi_alive p → tx_step p q.
Proof. intros Ho ???. split; [exists []; by rewrite Ho, app_nil_r|done..]. Qed.

(** Guards before an operation on the connection: they let it through, or
    the pair is closed. *)
Lemma guards_ok {A} (f : M Pio A) sent ops p res p' :
  tx_owing sent ops p → (_ ← Pio_throwIfException; _ ← verifyConnected; f) p = (res, p') →
  (pi_state p = CONNECTED ∧ f p = (res, p')) ∨
  (pi_state p' = CLOSED ∧ pi_out p' = pi_out p ∧ tx_step p p' ∧ pi_tx p' = pi_tx p ∧ pi_sync p' = pi_sync p).
Proof.
  intros Hq. unfold Pio_throwIfException. rewrite <-M_bind_assoc. M_run.
  destruct (pi_ex p) as [e|] eqn:He.
  { intros [= <- <-]. right. split_and!; try done. by eapply tx_owing_ex. }
  destruct Hq as [Hup _ _].
  M_run. unfold verifyConnected. rewrite <-M_bind_assoc. M_run. destruct Hup as [Hup|Hup]; rewrite Hup.
  { rewrite <-M_bind_assoc, M_bind_enforce by done. M_run. auto. }
  rewrite <-M_bind_assoc, M_bind_enforce by done. unfold signalAndThrowException.
  destruct (signalException_wrote IoException p He) as (q & Hr & Hw & Hcl & _).
  rewrite <-M_bind_assoc, (M_bind_val _ _ _ _ _ Hr). intros [= <- <-]. right. destruct Hw as [Hw [= Ht Hm Ha Hy] Hrc _].
  rewrite app_nil_r in Hw. split_and!; try done. by apply tx_step_set.
Qed.

Lemma sync_write_ok sent o p : tx_owing sent [o] p → pi_sync p = true → pi_tx p = [] → 
  pi_state p = CONNECTED → buffer_gone (pi_alive p) o = false →
  ∃ res p', Pio_sendSyncMode o p = (res, p') ∧ tx_ok sent p' ∧ tx_step p p' ∧ (res = Val () ∨ pi_state p' = CLOSED).
Proof.
  intros Hq Hy Ht Hco Hg. destruct (Pio_write_owing _ _ _ _ Hq) as (d & o' & p1 & Hr & Hq1 & Hst & Ht1 & Hy1 & Hf).
  unfold Pio_sendSyncMode. M_run. rewrite M_bind_enforce by done. rewrite (M_bind_val _ _ _ _ _ Hr). cbv beta iota.
  destruct d.
  { exists (Val ()), p1. split_and!; [done| |done|by left]. split; [by rewrite Ht1, Ht|congruence]. }
  destruct (Hf eq_refl Hy Hco Hg) as [e He]. M_run. rewrite He.
  assert (pi_state p1 = CLOSED) as Hcl by (by eapply tx_owing_ex).
  exists (Exn e), p1. split_and!; [done| |done|by right]. split; [|congruence].
  apply tx_owing_closed; [done|]. by eapply tx_owing_prefix.
Qed.

Lemma async_write_ok sent o p res p' :
  tx_owing sent (pi_tx p ++ [o]) p → pi_sync p = false → Pio_sendAsyncMode o p = (res, p') →
  tx_ok sent p' ∧ tx_step p p' ∧ (res = Val () ∨ pi_state p' = CLOSED).
Proof.
  intros Hqo Hsy. unfold Pio_sendAsyncMode. M_run. rewrite M_bind_enforce by (by rewrite Hsy). destruct (pi_tx p) as [|o1 tx] eqn:Htx.
  - destruct (Pio_write_owing _ _ _ _ Hqo) as (d & o' & p1 & Hw1 & Hq1 & Hst & Ht1 & Hy1 & _).
    rewrite (M_bind_val _ _ _ _ _ Hw1). cbv beta iota. rewrite Hsy in Hy1. destruct d.
    { intros [= <- <-]. split_and!; [|done|by left]. split; [by rewrite Ht1, Htx|congruence]. }
    unfold Pio_throwIfException. rewrite <-M_bind_assoc. M_run. destruct (pi_ex p1) as [e|] eqn:He; intros [= <- <-].
    + assert (pi_state p1 = CLOSED) as Hcl by (by eapply tx_owing_ex).
      split_and!; [|done|by right]. split; [|congruence]. apply tx_owing_closed; [done|]. by eapply tx_owing_prefix.
    + split_and!; [|by etrans; [exact Hst|apply tx_step_set]|by left]. split; [|cbn; congruence]. cbn.
      rewrite Ht1, Htx. by apply (tx_owing_set _ _ p1).
  - intros [= <- <-]. split_and!; [|by apply tx_step_set|by left]. split; [|cbn; congruence]. cbn. rewrite Htx.
    by apply (tx_owing_set _ _ p).
Qed.

(** [sendUnboundBuffer] and the notifications do not check the state. *)
Lemma Pio_sendAsyncMode_ok sent p o res p' :
  tx_ok sent p → op_wf o → io_nwritten o = 0 → pi_sync p = false → Pio_sendAsyncMode o p = (res, p') →
  tx_ok (sent ++ [frame_of (pi_mem p) o]) p' ∧ tx_step p p' ∧ (res = Val () ∨ pi_state p' = CLOSED).
Proof. intros [Hq Hy] Hw Hn Hs. apply async_write_ok; [by apply tx_owing_app|done]. Qed.

Lemma Pio_send_ok sent p o res p' :
  tx_ok sent p → op_wf o → io_nwritten o = 0 → buffer_gone (pi_alive p) o = false → Pio_send o p = (res, p') →
  tx_ok (sent ++ [frame_of (pi_mem p) o]) p' ∧ tx_step p p' ∧ (res = Val () ∨ pi_state p' = CLOSED).
Proof.
  intros [Hq Hy] Hw Hn Hg Hr. pose proof (tx_owing_app _ _ _ _ Hq Hw Hn) as Hqo.
  apply (guards_ok _ _ _ _ _ _ Hq) in Hr as [[Hco Hr]|(Hcl & Ho & Hst & Ht & Hsy)].
  2:{ split_and!; [|done|by right]. split; [|by rewrite Ht, Hsy]. apply tx_owing_closed; [done|].
      rewrite Ho. by eapply tx_owing_prefix. }
  revert Hr. M_run. destruct (pi_sync p) eqn:Hsy.
  { rewrite (Hy eq_refl) in Hqo. destruct (sync_write_ok _ _ _ Hqo Hsy (Hy eq_refl) Hco Hg) as (r & q & -> & ? & ? & ?).
    by intros [= <- <-]. }
  intros Hr. eapply async_write_ok; [exact Hqo|exact Hsy|exact Hr].
Qed.

(** The device loop when the socket can be written. *)
Lemma handleEvents_out_ok handle locked sent p res p' :
  tx_ok sent p → handleEvents handle locked true false p = (res, p') → tx_ok sent p' ∧ tx_step p p'.
Proof.
  intros Hok Hr. revert Hr. unfold handleEvents. destruct locked; [by intros [= <- <-]|]. M_run.
  pose proof Hok as [Hq Hy]. destruct (to_up _ _ _ Hq) as [Hup|Hup]; rewrite Hup; [|by intros [= <- <-]].
  rewrite M_bind_enforce by done. rewrite M_bind_enforce by (rewrite (to_calm _ _ _ Hq); [done|by rewrite Hup]).
  unfold handleReadWrite. rewrite <-M_bind_assoc. M_run. destruct (pi_tx p) as [|o tx] eqn:Htx; [by intros [= <- <-]|].
  rewrite <-M_bind_assoc, M_bind_enforce by done. rewrite <-M_bind_assoc.
  destruct (write_queue_ok (o :: tx) sent p) as (p1 & Hw & Hok1 & Hst); [done..|].
  rewrite (M_bind_val _ _ _ _ _ Hw). M_run. rewrite <-M_bind_assoc. M_run. destruct (pi_tx p1) as [|o1 tx1] eqn:Htx1; M_run.
  - intros [= <- <-]. split; [|by etrans; [exact Hst|apply tx_step_set]].
    destruct Hok1 as [Hq1 Hy1]. split; [|done]. by apply (tx_owing_set _ _ p1).
  - intros [= <- <-]. done.
Qed.

(** Switching to the sync mode flushes the queue. *)
Lemma flush_sync_ok ops : ∀ written sent p p', tx_owing sent ops p → flush_sync written ops p = (Val (), p') →
  tx_owing sent [] p' ∧ tx_step p p'.
Proof.
  induction ops as [|o ops IH]; intros written sent p p' Hq; [by intros [= <-]|].
  destruct (Pio_write_owing _ _ _ _ Hq) as (d & o' & p1 & Hr & Hq1 & Hst & _).
  cbn [flush_sync]. rewrite (M_bind_val _ _ _ _ _ Hr). cbv beta iota. M_run.
  set (q := p1 <| pi_tx := written ++ o' :: ops |>). destruct d.
  - intros Hf. apply (IH _ sent) in Hf as [Hq' Hst']; [|by apply (tx_owing_set _ _ p1)]. split; [done|].
    etrans; [exact Hst|]. etrans; [|exact Hst']. by apply tx_step_set.
  - M_run. by destruct (pi_ex q).
Qed.

Lemma setSync_ok sync busyPoll sent p p' :
  tx_ok sent p → Pio_setSync sync busyPoll p = (Val (), p') → tx_ok sent p' ∧ tx_step p p' ∧ pi_tx p' = [].
Proof.
  intros [Hq Hy]. unfold Pio_setSync. destruct sync; [|done]. M_run. unfold Pio_throwIfException. rewrite <-M_bind_assoc. M_run.
  destruct (pi_ex p) as [|] eqn:He; [done|]. M_run. destruct (to_up _ _ _ Hq) as [Hup|Hup]; rewrite Hup.
  2:{ unfold signalAndThrowException. intros Hr. M_inv Hr. M_inv H. done. }
  M_run. destruct (pi_sync p) eqn:Hsy; M_run.
  - intros [= <-]. rewrite (Hy eq_refl) in Hq. split_and!; [split; [|done]|by apply tx_step_set|by apply Hy].
    cbn. rewrite (Hy eq_refl). by apply (tx_owing_set _ _ p).
  - rewrite <-M_bind_assoc. M_run. set (q := p <| pi_events := None |>). intros Hr. rewrite <-M_bind_assoc in Hr. M_inv Hr.
    apply (flush_sync_ok _ _ sent) in H as [Hq' Hst]; [|by apply (tx_owing_set _ _ p)]. revert Hr. M_run. intros [= <-].
    split_and!; [split; [by apply (tx_owing_set _ _ s)|done]| |done].
    etrans; [by apply (tx_step_set p q)|]. etrans; [exact Hst|]. by apply tx_step_set.
Qed.

Lemma close_ok sent p : tx_ok sent p → tx_ok sent (Pio_close p) ∧ pi_out (Pio_close p) = pi_out p ∧ tx_step p (Pio_close p) ∧ pi_state (Pio_close p) = CLOSED.
Proof.
  intros [Hq Hy]. assert (pi_out (Pio_close p) = pi_out p ∧ receiving (Pio_close p) = receiving p ∧
    sending (Pio_close p) = sending p ∧ pi_state (Pio_close p) = CLOSED) as (Ho & Hr & [= Ht Hm Ha Hs] & Hc).
  { unfold Pio_close, changeState. destruct p as [[] [] ? []]; done. }
  split_and!; [|done|by apply tx_step_set|done]. split; [|by rewrite Ht, Hs].
  apply tx_owing_closed; [done|]. rewrite Ho. by eapply tx_owing_prefix.
Qed.
