(* ===== verification/FrameRecv.v ===== *)
(** Receiving on a connection: however the bytes arrive, what was read is the
    beginning of the stream, cut into whole messages, and the payload of each
    lies in the buffer it was received into. *)
From S2P Require Import Prelude Packet PairOps Net Frame FrameSend.

(** A message as it was sent: its preamble and payload. *)
Definition msg_wf (ms : list Z * list Z) : Prop :=
  ∃ m o, op_wf o ∧ ms = (io_preamble o, payload m o).
Definition flat (ms : list Z * list Z) : list Z := ms.1 ++ ms.2.

(** A receive that was posted within its buffer. *)
Definition post_wf (u : UOp) : Prop := 0 ≤ uo_offset u ∧ 0 ≤ uo_nbytes u ∧ uo_offset u + uo_nbytes u < 2 ^ 64.
Definition posts_wf (p : Pio) : Prop := ∀ s q u, pi_localPendingRecv p !! s = Some q → u ∈ q → post_wf u.

(** The buffer, and the offset in it, the payload is read into. *)
Definition rx_base (o : IoOp) : option (Z * Z) :=
  match getOpcode o with
  | Some SEND_BUFFER => (λ b, (b, io_roffset o)) <$> io_buf o
  | Some SEND_UNBOUND_BUFFER => (λ b, (b, io_offset o)) <$> io_ubuf o
  | _ => None
  end.

(** The bytes of the message being read. *)
Definition rx_bytes (m : Mem) (o : IoOp) : list Z :=
  take (Z.to_nat (io_nread o)) (io_preamble o) ++
  match rx_base o with Some (b, off) => read m (mkRegion b off (io_nread o - 48)) | None => [] end.

Record rx_wf (o : IoOp) : Prop := {
  rw_pre : length (io_preamble o) = 48%nat;
  rw_nread : 0 ≤ io_nread o;
  rw_early : io_nread o < 48 → io_buf o = None ∧ io_ubuf o = None;
  rw_late : 48 ≤ io_nread o → io_nread o ≤ 48 + payload_length o;
  rw_base : rx_base o = None → io_nread o ≤ 48;
  rw_post : is_Some (io_ubuf o) → 0 ≤ io_offset o ∧ 0 ≤ io_nbytes o ∧ io_offset o + io_nbytes o < 2 ^ 64;
}.

(** [ms] are the messages not yet read to the end; [future] is what has not
    arrived of them. *)
Record rx_ok (ms : list (list Z * list Z)) (future : list Z) (p : Pio) : Prop := {
  rk_msgs : Forall msg_wf ms;
  rk_posts : posts_wf p;
  rk_rx : rx_wf (pi_rx p);
  rk_bytes : concat (flat <$> ms) = rx_bytes (pi_mem p) (pi_rx p) ++ pi_in p ++ future;
}.

(** Some messages were read to the end. *)
Definition rx_moves (p p' : Pio) : Prop := ∀ ms future, rx_ok ms future p →
  ∃ ms1 ms2, ms = ms1 ++ ms2 ∧ received (pi_done p') = received (pi_done p) ++ ms1 ∧ rx_ok ms2 future p'.
#[export] Instance rx_moves_preorder : PreOrder rx_moves.
Proof.
  split; [intros p ms f H; exists [], ms; by rewrite app_nil_r|].
  intros p1 p2 p3 H12 H23 ms f H. destruct (H12 _ _ H) as (ms1 & ms2 & -> & Hr & H2).
  destruct (H23 _ _ H2) as (ms3 & ms4 & -> & Hr' & H3). exists (ms1 ++ ms3), ms4. by rewrite Hr', Hr, !app_assoc.
Qed.

(** What does not touch the receiving: other memory, more receives posted. *)
Record rx_env (p p' : Pio) : Prop := {
  re_rx : pi_rx p' = pi_rx p;
  re_in : pi_in p' = pi_in p;
  re_done : received (pi_done p') = received (pi_done p);
  re_mem : rx_bytes (pi_mem p') (pi_rx p) = rx_bytes (pi_mem p) (pi_rx p);
  re_posts : posts_wf p → posts_wf p';
}.
Lemma rx_env_moves p p' : rx_env p p' → rx_moves p p'.
Proof.
  intros [Hr Hi Hd Hm Hp] ms f [? ? ? Hb]. exists [], ms. rewrite app_nil_r. split_and!; [done..|].
  split; [done|auto|by rewrite Hr|]. by rewrite Hr, Hm, Hi.
Qed.

Lemma signalException_rx e : frame rx_moves (signalException e).
Proof.
  intros p. unfold signalException. M_run. destruct (pi_ex p) eqn:He; [done|].
  apply rx_env_moves. destruct p as [[] [] ? []]; done.
Qed.
#[export] Hint Resolve signalException_rx : frame.

(* ------------------------------------------------------------------ *)
(** * The next bytes to read *)

Lemma preamble_field_pre k o o' : io_preamble o = io_preamble o' → preamble_field k o = preamble_field k o'.
Proof. intros He. unfold preamble_field. by rewrite He. Qed.
Lemma getOpcode_pre o o' : io_preamble o = io_preamble o' → getOpcode o = getOpcode o'.
Proof. intros He. unfold getOpcode. by rewrite (preamble_field_pre 1 o o'). Qed.
Lemma payload_length_pre o o' : io_preamble o = io_preamble o' → payload_length o = payload_length o'.
Proof. intros He. unfold payload_length, getOpcode, preamble_field. by rewrite He. Qed.

(** Once its preamble has been read, the message is the first one. *)
Lemma first_message ms pre rest : Forall msg_wf ms → length pre = 48%nat → concat (flat <$> ms) = pre ++ rest →
  ∃ ms' m o, ms = (pre, payload m o) :: ms' ∧ op_wf o ∧ io_preamble o = pre ∧ rest = payload m o ++ concat (flat <$> ms').
Proof.
  intros Hm Hpre Hb. destruct Hm as [|ms1 ms' (m & o & Hw & ->) Hm].
  { cbn in Hb. apply (f_equal length) in Hb. rewrite length_app, Hpre in Hb. done. }
  cbn in Hb. unfold flat in Hb at 1. cbn in Hb. rewrite <-!app_assoc in Hb. apply app_inj_1 in Hb as [He Hr].
  - exists ms', m, o. by rewrite He.
  - destruct Hw. lia.
Qed.

Lemma rx_first ms future p : rx_ok ms future p → 48 ≤ io_nread (pi_rx p) →
  ∃ ms' m o, ms = (io_preamble (pi_rx p), payload m o) :: ms' ∧ op_wf o ∧ io_preamble o = io_preamble (pi_rx p) ∧
    drop 48 (rx_bytes (pi_mem p) (pi_rx p)) ++ pi_in p ++ future = payload m o ++ concat (flat <$> ms').
Proof.
  intros [Hm _ [Hpre Hn _ _ _ _] Hb] H48. unfold rx_bytes in *. rewrite take_ge in * by lia.
  rewrite drop_app_length' by done. rewrite <-app_assoc in Hb. by apply first_message.
Qed.

(** What [recv] may fill is the rest of the preamble or of the payload. *)
Definition next_iov (o : IoOp) (v : Iovec) : Prop :=
  if decide (io_nread o < 48) then v = IovPreamble (io_nread o) (48 - io_nread o)
  else match rx_base o with
       | Some (b, off) => v = IovMem (mkRegion b (off + (io_nread o - 48)) (payload_length o - (io_nread o - 48)))
       | None => io_nread o = 48 ∧ payload_length o = 0 ∧ v = IovPreamble 48 0
       end.

(** Finding the buffer does not lose a byte. *)
Record rx_prepared (p p' : Pio) : Prop := {
  rp_done : pi_done p' = pi_done p;
  rp_in : pi_in p' = pi_in p;
  rp_rs : pi_rs p' = pi_rs p;
  rp_nread : io_nread (pi_rx p') = io_nread (pi_rx p);
  rp_ok : ∀ ms future, rx_ok ms future p → rx_ok ms future p';
}.
Lemma rx_prepared_refl p : rx_prepared p p.
Proof. done. Qed.

(** Setting the buffer of the message being read. *)
Lemma rx_prepared_set p p' :
  pi_done p' = pi_done p → pi_in p' = pi_in p → pi_rs p' = pi_rs p → pi_mem p' = pi_mem p →
  48 ≤ io_nread (pi_rx p) → rx_base (pi_rx p) = None →
  io_nread (pi_rx p') = io_nread (pi_rx p) → io_preamble (pi_rx p') = io_preamble (pi_rx p) →
  (posts_wf p → posts_wf p' ∧ (is_Some (io_ubuf (pi_rx p')) →
    0 ≤ io_offset (pi_rx p') ∧ 0 ≤ io_nbytes (pi_rx p') ∧ io_offset (pi_rx p') + io_nbytes (pi_rx p') < 2 ^ 64)) →
  rx_prepared p p'.
Proof.
  intros Hd Hi Hr Hm Hn Hb Hn' Hpre Hp. split; [done..|]. intros ms fut [Hms Hps [] Hby].
  specialize (rw_base0 Hb). assert (io_nread (pi_rx p) = 48) as E by lia.
  destruct (Hp Hps) as [Hps' Hpost]. split; [done|done| |].
  - split; rewrite ?Hpre, ?Hn'; [done|done|lia| |lia|done].
    intros H. rewrite (payload_length_pre _ _ Hpre). auto.
  - rewrite Hby, Hi. f_equal. unfold rx_bytes. rewrite Hb, Hn', Hpre, E. f_equal.
    destruct (rx_base (pi_rx p')) as [[b off]|]; [|done]. done.
Qed.

Lemma rx_fits ms future p : rx_ok ms future p → 48 ≤ io_nread (pi_rx p) →
  0 ≤ payload_length (pi_rx p) < 2 ^ 62 ∧ is_Some (getOpcode (pi_rx p)) ∧
  (getOpcode (pi_rx p) = Some SEND_BUFFER → 0 ≤ io_roffset (pi_rx p) ∧ io_roffset (pi_rx p) + io_length (pi_rx p) < 2 ^ 64).
Proof.
  intros Hok Hn. destruct (rx_first _ _ _ Hok Hn) as (ms' & m & o & _ & [_ _ Hl Hk] & Hpre & _).
  rewrite <-(payload_length_pre _ _ Hpre). split; [done|].
  rewrite <-(getOpcode_pre _ _ Hpre), <-!(λ k, preamble_field_pre k _ _ Hpre).
  destruct (getOpcode o) as [c|]; [|done]. split; [done|]. intros [= ->]. tauto.
Qed.

Lemma find_bound_ok ms future p : rx_ok ms future p → 48 ≤ io_nread (pi_rx p) → getOpcode (pi_rx p) = Some SEND_BUFFER →
  ∃ found p', find_bound p = (Val found, p') ∧ rx_prepared p p' ∧ io_preamble (pi_rx p') = io_preamble (pi_rx p) ∧
    io_buf (pi_rx p') = found.
Proof.
  intros Hok Hn Hc. unfold find_bound, getBuffer. M_run. destruct (io_buf (pi_rx p)) as [b|] eqn:Hb.
  { by eexists _, p. }
  M_run. unfold set_rx. M_run. eexists _, _. split_and!; [done| |done..].
  apply rx_prepared_set; try done; [unfold rx_base; by rewrite Hc, Hb|].
  intros Hp. split; [done|]. apply (rw_post _ (rk_rx _ _ _ Hok)).
Qed.

Lemma queue_set_posts p s u q :
  posts_wf p → pi_localPendingRecv p !! s = Some (u :: q) →
  post_wf u ∧ ∀ s' q' u', queue_set s q (pi_localPendingRecv p) !! s' = Some q' → u' ∈ q' → post_wf u'.
Proof.
  intros Hp Hs. split; [by apply (Hp s _ _ Hs), list_elem_of_here|]. intros s' q' u' Hq Hu.
  destruct (decide (s' = s)) as [->|Hne].
  - destruct q; cbn in Hq; [by rewrite lookup_delete_eq in Hq|]. rewrite lookup_insert_eq in Hq. injection Hq as <-.
    apply (Hp s _ u' Hs). by apply list_elem_of_further.
  - apply (Hp s' q' u'); [|done]. destruct q; cbn in Hq; [by rewrite lookup_delete_ne in Hq|by rewrite lookup_insert_ne in Hq].
Qed.

Lemma find_unbound_ok ms future p : rx_ok ms future p → 48 ≤ io_nread (pi_rx p) → getOpcode (pi_rx p) = Some SEND_UNBOUND_BUFFER →
  ∃ res p', find_unbound p = (res, p') ∧ rx_prepared p p' ∧ io_preamble (pi_rx p') = io_preamble (pi_rx p) ∧
    (res = Val () → is_Some (io_ubuf (pi_rx p'))).
Proof.
  intros Hok Hn Hc. unfold find_unbound. M_run. destruct (io_ubuf (pi_rx p)) as [b|] eqn:Hb.
  { eexists _, p. split_and!; [done..|]. by rewrite Hb. }
  M_run. destruct (pi_localPendingRecv p !! io_slot (pi_rx p)) as [[|u q]|] eqn:Hq; [by eexists _, p| |by eexists _, p].
  unfold set_rx. M_run. eexists _, _. split_and!; [done| |done..].
  apply rx_prepared_set; try done; [unfold rx_base; by rewrite Hc, Hb|].
  intros Hp. destruct (queue_set_posts p _ _ _ Hp Hq) as [Hu Hp']. split; [exact Hp'|]. intros _. exact Hu.
Qed.

Lemma prepareRead_ok ms future p : rx_ok ms future p →
  ∃ res p', prepareRead p = (res, p') ∧ rx_prepared p p' ∧
    match res with Val (Some v) => next_iov (pi_rx p') v | _ => True end.
Proof.
  intros Hok. unfold prepareRead, sizeof_preamble. M_run. set (o := pi_rx p).
  destruct (Z.ltb_spec (io_nread o) 48) as [Hlt|Hge].
  { eexists _, p. split_and!; [done|apply rx_prepared_refl|]. unfold next_iov. by rewrite decide_True. }
  pose proof (rx_fits _ _ _ Hok Hge) as (Hl & Hop & Hro). fold o in Hl, Hop, Hro.
  assert (io_nread o ≤ 48 + payload_length o) as Hlate by (by apply (rk_rx _ _ _ Hok)).
  assert (∀ p' b off n, rx_prepared p p' → io_preamble (pi_rx p') = io_preamble o → rx_base (pi_rx p') = Some (b, off) → 
    0 ≤ off → off + payload_length o < 2 ^ 64 → n = io_nread o - 48 →
    next_iov (pi_rx p') (IovMem (mkRegion b (u64 (off + n)) (u64 (payload_length o - n))))) as Hreg.
  { intros p' b off n [_ _ _ Hn _] Hpre Hb H0 H1 ->. unfold next_iov. rewrite Hb, Hn. fold o. rewrite decide_False by lia.
    rewrite (payload_length_pre _ _ Hpre). by rewrite !wrap_small by (split; lia). }
  unfold payload_length in Hreg at 1 2. unfold payload_length in Hl, Hlate.
  destruct (getOpcode o) as [[]|] eqn:Hc; [| | | |by destruct Hop].
  - destruct (Hro eq_refl) as [Hr0 Hr1]. destruct (find_bound_ok _ _ _ Hok Hge Hc) as (found & p1 & Hf & Hp1 & Hpre & Hb).
    rewrite (M_bind_val _ _ _ _ _ Hf). cbv beta. destruct found as [b|]; [|by eexists _, p1]. M_run.
    destruct (u64 (io_roffset o + io_length o) <=? pi_size p1 b); [|by eexists _, p1].
    eexists _, p1. split_and!; [done|done|]. cbv beta iota. rewrite (Z.add_comm (io_nread o - 48)).
    apply Hreg; [done..| |done|done|done]. unfold rx_base. by rewrite (getOpcode_pre _ o Hpre), Hc, Hb, <-(preamble_field_pre 5 _ o Hpre).
  - destruct (find_unbound_ok _ _ _ Hok Hge Hc) as (res & p1 & Hf & Hp1 & Hpre & Hb).
    destruct res as [[]|e|]; [|eexists _, p1; split_and!; [unfold mbind, M_bind; by rewrite Hf|done..]..].
    rewrite (M_bind_val _ _ _ _ _ Hf). M_run. destruct (Hb eq_refl) as [b Hub]. rewrite Hub. cbn [from_option_ub]. M_run.
    destruct (pi_alive p1 b); [|by eexists _, p1].
    destruct (io_length (pi_rx p1) <=? io_nbytes (pi_rx p1)) eqn:Hle; [|by eexists _, p1].
    apply Z.leb_le in Hle. rewrite (preamble_field_pre 4 _ o Hpre) in *.
    destruct (rw_post _ (rk_rx _ _ _ (rp_ok _ _ Hp1 _ _ Hok))) as (? & ? & ?); [by eexists|].
    eexists _, p1. split_and!; [done|done|]. cbv beta iota.
    apply Hreg; [done..| |done|lia|done]. unfold rx_base. by rewrite (getOpcode_pre _ o Hpre), Hc, Hub.
  - eexists _, p. split_and!; [done|apply rx_prepared_refl|]. unfold next_iov. fold o. rewrite decide_False by lia.
    unfold rx_base, payload_length. rewrite Hc. split_and!; [lia|done..].
  - eexists _, p. split_and!; [done|apply rx_prepared_refl|]. unfold next_iov. fold o. rewrite decide_False by lia.
    unfold rx_base, payload_length. rewrite Hc. split_and!; [lia|done..].
Qed.

(* ------------------------------------------------------------------ *)
(** * Storing what arrived *)

Lemma recv_call_data spin rs len arrived : ∀ bs rs', recv_call spin rs len arrived = (RData bs, rs') →
  bs ≠ [] ∧ bs `prefix_of` arrived ∧ lenZ bs ≤ Z.max 0 len ∧ (length rs' < length rs)%nat.
Proof.
  induction rs as [|r rs IH]; [done|]. intros bs rs'. cbn [recv_call length].
  assert (recv_call spin rs len arrived = (RData bs, rs') →
    bs ≠ [] ∧ bs `prefix_of` arrived ∧ lenZ bs ≤ Z.max 0 len ∧ (length rs' < S (length rs))%nat) as IH'.
  { intros H. apply IH in H. intuition lia. }
  destruct r as [n|[]|]; [|by destruct spin; auto|done|done|auto|done|done].
  destruct (take (Z.to_nat (Z.min n len)) arrived) as [|x l] eqn:E; [by destruct spin; auto|].
  intros [= <- <-]. rewrite <-E. split_and!; [by rewrite E| | |lia].
  - by apply prefix_take.
  - unfold lenZ. rewrite length_take. lia.
Qed.

(** The state after a successful [recv]. *)
Definition stored (v : Iovec) (bs : list Z) (p : Pio) : Pio :=
  let p := p <| pi_in ::= drop (length bs) |> in
  match v with
  | IovPreamble off _ => p <| pi_rx ::= λ o, o
      <| io_preamble := take (Z.to_nat off) (io_preamble o) ++ bs ++ drop (Z.to_nat off + length bs) (io_preamble o) |>
      <| io_nread ::= λ n, u64 (n + lenZ bs) |> |>
  | IovMem r => p <| pi_mem := write (pi_mem p) (mkRegion (rg_buf r) (rg_off r) (lenZ bs)) bs |>
                  <| pi_rx ::= λ o, o <| io_nread ::= λ n, u64 (n + lenZ bs) |> |>
  end.

Lemma stored_preamble ms future p bs : rx_ok ms future p → io_nread (pi_rx p) < 48 →
  bs `prefix_of` pi_in p → lenZ bs ≤ 48 - io_nread (pi_rx p) →
  rx_ok ms future (stored (IovPreamble (io_nread (pi_rx p)) (48 - io_nread (pi_rx p))) bs p).
Proof.
  intros [Hms Hps [Hpre Hn He Hl _ _] Hb] Hlt [rest Hin] Hlen. unfold stored. set (o := pi_rx p) in *. 
  destruct (He Hlt) as [Hbuf Hub]. set (n := io_nread o) in *. pose proof (lenZ_nonneg bs).
  set (pre := take (Z.to_nat n) (io_preamble o) ++ bs ++ drop (Z.to_nat n + length bs) (io_preamble o)).
  assert (u64 (n + lenZ bs) = n + lenZ bs) as Hu by (apply wrap_small; split; lia).
  set (o' := o <| io_preamble := pre |> <| io_nread ::= λ n, u64 (n + lenZ bs) |>).
  assert (io_nread o' = n + lenZ bs) as Hn' by exact Hu.
  assert (length pre = 48%nat) as Hpl.
  { unfold pre. rewrite !length_app, length_take, length_drop. unfold lenZ in *. lia. }
  assert (rx_base o' = None) as Hbase.
  { unfold rx_base. change (io_buf o') with (io_buf o). change (io_ubuf o') with (io_ubuf o). rewrite Hbuf, Hub.
    by destruct (getOpcode o') as [[]|]. }
  assert (concat (flat <$> ms) = take (Z.to_nat (n + lenZ bs)) pre ++ rest ++ future) as Hc.
  { assert (rx_base o = None) as Hb0 by (unfold rx_base; rewrite Hbuf, Hub; by destruct (getOpcode o) as [[]|]).
    rewrite Hb. unfold rx_bytes. fold n. rewrite Hb0, app_nil_r, Hin. unfold pre.
    rewrite (app_assoc _ bs), take_app_length', <-!app_assoc; [done|].
    rewrite length_app, length_take. unfold lenZ in *. lia. }
  split; [done|done| |].
  - change (rx_wf o'). split; [done|lia|done| |lia|by change (io_ubuf o') with (io_ubuf o); rewrite Hub; intros []].
    intros H48. rewrite take_ge in Hc by lia. destruct (first_message _ _ _ Hms Hpl Hc) as (ms' & m & o1 & _ & [_ _ ? _] & Hp1 & _).
    rewrite <-(payload_length_pre o1 o' Hp1). lia.
  - change (concat (flat <$> ms) = rx_bytes (pi_mem p) o' ++ drop (length bs) (pi_in p) ++ future).
    unfold rx_bytes. rewrite Hbase, Hn', app_nil_r, Hin, drop_app_length. done.
Qed.

Lemma stored_payload ms future p bs b off : rx_ok ms future p → 48 ≤ io_nread (pi_rx p) →
  rx_base (pi_rx p) = Some (b, off) → bs `prefix_of` pi_in p → lenZ bs ≤ payload_length (pi_rx p) - (io_nread (pi_rx p) - 48) →
  rx_ok ms future (stored (IovMem (mkRegion b (off + (io_nread (pi_rx p) - 48))
                                     (payload_length (pi_rx p) - (io_nread (pi_rx p) - 48)))) bs p).
Proof.
  intros Hok Hge Hbase [rest Hin] Hlen. pose proof (rx_fits _ _ _ Hok Hge) as (Hpl & _).
  destruct Hok as [Hms Hps [Hpre Hn _ Hl _ Hpost] Hb]. unfold stored. set (o := pi_rx p) in *.
  set (n := io_nread o) in *. pose proof (lenZ_nonneg bs).
  assert (u64 (n + lenZ bs) = n + lenZ bs) as Hu by (apply wrap_small; split; lia).
  set (o' := o <| io_nread ::= λ n, u64 (n + lenZ bs) |>). assert (io_nread o' = n + lenZ bs) as Hn' by exact Hu.
  set (r := mkRegion b (off + (n - 48)) (lenZ bs)).
  split; [done|done| |].
  - change (rx_wf o'). split; [done|lia|lia|intros _; rewrite Hn'; change (payload_length o') with (payload_length o); lia
      |by change (rx_base o') with (rx_base o); rewrite Hbase|done].
  - change (concat (flat <$> ms) = rx_bytes (write (pi_mem p) r bs) o' ++ drop (length bs) (pi_in p) ++ future).
    rewrite Hb. unfold rx_bytes. change (rx_base o') with (rx_base o). rewrite Hbase, Hn'. fold n. rewrite Hin, drop_app_length.
    change (io_preamble o') with (io_preamble o). rewrite !take_ge by lia. rewrite <-!app_assoc. f_equal.
    replace (n + lenZ bs - 48) with ((n - 48) + lenZ bs) by lia. rewrite read_split by lia. fold r.
    rewrite read_write_same by done. rewrite read_write, <-app_assoc; [done|].
    intros b' i [_ ?] [_ ?]. unfold r in *. cbn in *. lia.
Qed.

(* ------------------------------------------------------------------ *)
(** * Whole messages *)

Lemma rx_payload_len m o : rx_wf o → 0 ≤ payload_length o → (rx_base o = None → payload_length o = 0) →
  lenZ (rx_payload m o) = payload_length o.
Proof.
  intros _ Hl H0. unfold rx_base, rx_payload, payload_length, lenZ in *. destruct (getOpcode o) as [[]|]; [| |done..].
  - destruct (io_buf o); [by rewrite read_length|by rewrite H0].
  - destruct (io_ubuf o); [by rewrite read_length|by rewrite H0].
Qed.

Lemma rx_bytes_full m o : rx_wf o → 48 ≤ io_nread o → io_nread o = 48 + payload_length o →
  (rx_base o = None → payload_length o = 0) → rx_bytes m o = io_preamble o ++ rx_payload m o.
Proof.
  intros [Hpre _ _ _ Hb _] Hn Hf H0. unfold rx_bytes. rewrite take_ge by lia. f_equal.
  unfold rx_base, rx_payload, payload_length in *. destruct (getOpcode o) as [[]|]; [| |done..].
  - destruct (io_buf o); [cbn [fmap option_fmap option_map]|done]. do 2 f_equal. lia.
  - destruct (io_ubuf o); [cbn [fmap option_fmap option_map]|done]. do 2 f_equal. lia.
Qed.

(** The actions of the device thread on notifications, as far as the bytes
    of the connection are concerned: they post receives and send. *)
Class RxHandler (handle : Opcode → IoOp → M Pio unit) : Prop := rx_handler : ∀ c o, frame rx_env (handle c o).

#[export] Instance rx_env_refl : Reflexive rx_env.
Proof. by split. Qed.

Section receiving.
Context (handle : Opcode → IoOp → M Pio unit) `{!RxHandler handle}.

Lemma readComplete_moves v ms future p : rx_ok ms future p → next_iov (pi_rx p) v → iov_len v = 0 →
  ∃ ms1 ms2, ms = ms1 ++ ms2 ∧ received (pi_done (readComplete handle p).2) = received (pi_done p) ++ ms1 ∧
    rx_ok ms2 future (readComplete handle p).2.
Proof.
  intros Hok Hv Hz. set (o := pi_rx p) in *.
  assert (48 ≤ io_nread o ∧ io_nread o = 48 + payload_length o ∧ (rx_base o = None → payload_length o = 0)) as (H48 & Hn & H0).
  { unfold next_iov in Hv. destruct (decide (io_nread o < 48)); [subst v; cbn [iov_len] in Hz; lia|].
    destruct (rx_base o) as [[b off]|].
    - subst v. cbn [iov_len rg_len] in Hz. split_and!; [lia|lia|done].
    - destruct Hv as (-> & -> & _). lia. }
  set (h := match getOpcode o with
            | Some NOTIFY_SEND_READY => handle NOTIFY_SEND_READY o
            | Some NOTIFY_RECV_READY => handle NOTIFY_RECV_READY o
            | _ => mret ()
            end).
  assert (frame rx_env h) as Hh.
  { unfold h. destruct (getOpcode o) as [[]|]; try apply rx_handler; intros s; apply rx_env_refl. }
  unfold readComplete. M_run. fold o h. specialize (Hh p). destruct (h p) as [res p1] eqn:Hr. cbn [snd] in Hh.
  destruct (rx_env_moves _ _ Hh ms future Hok) as (ms1 & ms2 & -> & Hd & Hok1).
  assert (ms1 = []) as ->.
  { rewrite (re_done _ _ Hh) in Hd. by apply (app_inv_head (received (pi_done p))); rewrite app_nil_r. }
  rewrite app_nil_r in Hd. destruct res as [[]|e|];
    [|exists [], ms2; unfold mbind, M_bind; rewrite Hr; by rewrite app_nil_r..].
  rewrite (M_bind_val _ _ _ _ _ Hr). unfold modify. cbn [snd].
  assert (pi_rx p1 = o) as Ho by apply Hh.
  pose proof Hok1 as [Hms Hps Hrx Hb]. rewrite Ho in *. destruct (rx_first _ _ _ Hok1) as (ms' & m & o1 & -> & Hw & Hpre & Hp1); rewrite Ho in *; [done|].
  rewrite (rx_bytes_full _ _ Hrx) in Hp1 by auto. rewrite drop_app_length' in Hp1 by (by rewrite (rw_pre _ Hrx)).
  apply app_inj_1 in Hp1 as [Hpay Hrest].
  2:{ pose proof (payload_len m o1 Hw) as Hl1. rewrite (payload_length_pre _ _ Hpre) in Hl1.
      destruct Hw as [_ _ Hl0 _]. rewrite (payload_length_pre _ _ Hpre) in Hl0.
      pose proof (rx_payload_len (pi_mem p1) o Hrx (proj1 Hl0) H0). unfold lenZ in *. lia. }
  exists [(io_preamble o, rx_payload (pi_mem p1) o)], ms'. split_and!; [by rewrite Hpay|cbn; rewrite <-Hd; unfold received; by rewrite omap_app|].
  split; [by inversion Hms|done| |].
  - cbn. done.
  - cbn. by rewrite <-Hrest.
Qed.

Lemma next_iov_len ms future p v : rx_ok ms future p → next_iov (pi_rx p) v → s64 (iov_len v) = iov_len v ∧ 0 ≤ iov_len v.
Proof.
  intros Hok Hv. enough (0 ≤ iov_len v < 2 ^ 62) by (split; [apply swrap_small|]; lia). pose proof (rk_rx _ _ _ Hok) as [_ Hn _ Hl _ _].
  unfold next_iov in Hv. destruct (decide (io_nread (pi_rx p) < 48)) as [|Hge]; [subst v; cbn [iov_len]; lia|].
  destruct (rx_fits _ _ _ Hok ltac:(lia)) as [? _]. specialize (Hl ltac:(lia)).
  destruct (rx_base (pi_rx p)) as [[b off]|]; [subst v; cbn [iov_len rg_len]; lia|]. by destruct Hv as (_ & _ & ->).
Qed.

(** [recv] and what is done with its bytes. *)
Lemma stored_ok ms future p v bs : rx_ok ms future p → next_iov (pi_rx p) v → bs ≠ [] →
  bs `prefix_of` pi_in p → lenZ bs ≤ Z.max 0 (iov_len v) → rx_ok ms future (stored v bs p).
Proof.
  intros Hok Hv Hne Hp Hl. assert (0 < lenZ bs) by (destruct bs; [done|rewrite lenZ_cons; pose proof (lenZ_nonneg bs); lia]).
  unfold next_iov in Hv. destruct (decide (io_nread (pi_rx p) < 48)).
  - subst v. cbn [iov_len] in Hl. apply stored_preamble; [done..|lia].
  - destruct (rx_base (pi_rx p)) as [[b off]|] eqn:Hb.
    + subst v. cbn [iov_len rg_len] in Hl. apply stored_payload; [done|lia|done|done|lia].
    + destruct Hv as (_ & _ & ->). cbn [iov_len] in Hl. lia.
Qed.

Lemma fill_stored {A} v bs (f : unit → M Pio A) p :
  (_ ← modify (λ p, p <| pi_in ::= drop (length bs) |>); _ ← fill v bs; _ ← set_rx (λ o, o <| io_nread ::= λ n, u64 (n + lenZ bs) |>); f ()) p
  = f () (stored v bs p).
Proof. by destruct v. Qed.

Lemma read_loop_moves fuel : frame rx_moves (read_loop handle fuel).
Proof.
  induction fuel as [|fuel IH]; [by apply frame_ret; apply _|]. intros p ms future Hok. cbn [read_loop].
  destruct (prepareRead_ok _ _ _ Hok) as (res & p1 & Hr & Hprep & Hv). pose proof (rp_ok _ _ Hprep _ _ Hok) as Hok1.
  assert (received (pi_done p1) = received (pi_done p)) as Hd1 by (by rewrite (rp_done _ _ Hprep)).
  assert (∀ q, rx_moves p1 q → ∃ ms1 ms2, ms = ms1 ++ ms2 ∧ received (pi_done q) = received (pi_done p) ++ ms1 ∧ rx_ok ms2 future q) as Hq.
  { intros q Hq. rewrite <-Hd1. by apply Hq. }
  assert (frame rx_moves (_ ← signalException IoException; mret (Some false))) as fail by frame_tac.
  assert (frame rx_moves (_ ← (if pi_sync p1 then signalException IoException else mret ()); mret (Some false))) as again by frame_tac.
  destruct res as [[v|]|e|]; [|rewrite (M_bind_val _ _ _ _ _ Hr); by apply Hq|unfold mbind, M_bind; rewrite Hr; by apply Hq..].
  destruct (next_iov_len _ _ _ _ Hok1 Hv) as [Hs _].
  rewrite (M_bind_val _ _ _ _ _ Hr). cbv beta zeta. rewrite Hs. destruct (iov_len v <? 0); [by apply Hq|].
  destruct (Z.eqb_spec (iov_len v) 0) as [Hz|Hz].
  - destruct (readComplete_moves v _ _ _ Hok1 Hv Hz) as (ms1 & ms2 & -> & Hd & Hok2). exists ms1, ms2.
    unfold mbind, M_bind. destruct (readComplete handle p1) as [[[]|e|] q]; (split_and!; [done| |done]); by rewrite <-Hd1.
  - rewrite M_bind_get. destruct (recv_call _ _ _ _) as [r rs] eqn:Hrc. rewrite M_bind_modify.
    set (p2 := p1 <| pi_rs := rs |>). assert (rx_ok ms future p2) as Hok2 by (by destruct Hok1).
    destruct r as [bs| | |].
    + apply recv_call_data in Hrc as (Hne & Hpre & Hlen & _). rewrite (fill_stored v bs (λ _, read_loop handle fuel)).
      destruct (IH (stored v bs p2) ms future) as (ms1 & ms2 & -> & Hd & Hok3).
      { by apply stored_ok. }
      exists ms1, ms2. split_and!; [done| |done]. rewrite Hd, <-Hd1. by destruct v.
    + rewrite <-Hd1. apply (fail p2 _ _ Hok2).
    + rewrite <-Hd1. apply (again p2 _ _ Hok2).
    + rewrite <-Hd1. apply (fail p2 _ _ Hok2).
Qed.

Lemma Pio_read_moves : frame rx_moves (Pio_read handle).
Proof. unfold Pio_read. frame_tac; apply read_loop_moves. Qed.

Lemma read_all_moves fuel : frame rx_moves (read_all handle fuel).
Proof. induction fuel; cbn [read_all]; frame_tac; apply Pio_read_moves || done. Qed.

Lemma Pio_recv_moves : frame rx_moves (Pio_recv handle).
Proof.
  unfold Pio_recv, Pio_throwIfException, verifyConnected, signalAndThrowException. frame_tac; try apply Pio_read_moves; by intros s.
Qed.

Lemma handleEvents_in_moves locked : frame rx_moves (handleEvents handle locked false true).
Proof. unfold handleEvents, handleReadWrite. frame_tac; try apply read_all_moves; by intros s. Qed.
End receiving.

(** What the sending side does leaves the receiving one alone. *)
Definition same_rx (p p' : Pio) : Prop := receiving p' = receiving p ∧ pi_mem p' = pi_mem p.
#[export] Instance same_rx_preorder : PreOrder same_rx.
Proof. split; [done|]. intros p1 p2 p3 [? ?] [? ?]. split; congruence. Qed.

Lemma signalException_same_rx e : frame same_rx (signalException e).
Proof.
  intros p. unfold signalException. M_run. destruct (pi_ex p); [done|]. by destruct p as [[] [] ? []].
Qed.
#[export] Hint Resolve signalException_same_rx : frame.
Lemma writev_loop_same_rx ks : ∀ o, frame same_rx (writev_loop ks o).
Proof.
  induction ks as [|k ks IH]; intros o; cbn [writev_loop]; unfold writeComplete; frame_tac; try first [apply IH|done].
  all: split; [|done]; unfold receiving, received; cbn; by rewrite omap_app, app_nil_r.
Qed.
#[export] Hint Resolve writev_loop_same_rx : frame.
Lemma write_queue_same_rx ops : frame same_rx (write_queue ops).
Proof. induction ops; cbn [write_queue]; unfold Pio_write; frame_tac; done. Qed.
Lemma Pio_sendAsyncMode_same_rx o : frame same_rx (Pio_sendAsyncMode o).
Proof. unfold Pio_sendAsyncMode, Pio_throwIfException, Pio_write. frame_tac; try (by intros ?); done. Qed.

Lemma same_rx_env p p' : same_rx p p' → rx_env p p'.
Proof.
  intros [Hr Hm]. injection Hr as Hrx Hin _ _ _ Hp Hd. split; [done..|by rewrite Hm|]. intros H s q u. rewrite Hp. apply H.
Qed.
Lemma tx_step_same_rx p p' : tx_step p p' → same_rx p p'.
Proof. by intros [_ Hr Hm _]. Qed.

(* ------------------------------------------------------------------ *)
(** * Reading ends *)

(** The stream only gets shorter. *)
Definition reads_on (p p' : Pio) : Prop := pi_rs p' = pi_rs p ∧ pi_in p' = pi_in p ∧ io_nread (pi_rx p') = io_nread (pi_rx p).
#[export] Instance reads_on_preorder : PreOrder reads_on.
Proof. split; [done|]. unfold reads_on. intros p1 p2 p3 (? & ? & ?) (? & ? & ?). split_and!; congruence. Qed.

Lemma prepareRead_reads_on : frame reads_on prepareRead.
Proof. unfold prepareRead, find_bound, find_unbound, getBuffer, set_rx. frame_tac; try done; by intros s. Qed.

Lemma read_loop_total handle fuel : ∀ p, (length (pi_rs p) < fuel)%nat → (read_loop handle fuel p).1 ≠ Val None.
Proof.
  induction fuel as [|fuel IH]; [lia|]. intros p Hl. cbn [read_loop].
  pose proof (prepareRead_reads_on p) as (Hrs & _). destruct (prepareRead p) as [[[v|]|e|] p1] eqn:Hr; cbn [snd] in Hrs;
    [|by rewrite (M_bind_val _ _ _ _ _ Hr)|by unfold mbind, M_bind; rewrite Hr..].
  rewrite (M_bind_val _ _ _ _ _ Hr). cbv beta zeta. destruct (s64 (iov_len v) <? 0); [done|].
  destruct (s64 (iov_len v) =? 0).
  { unfold mbind, M_bind. by destruct (readComplete handle p1) as [[[]|e|] q]. }
  rewrite M_bind_get. destruct (recv_call _ _ _ _) as [r rs] eqn:Hrc. rewrite M_bind_modify.
  destruct r as [bs| | |].
  - apply recv_call_data in Hrc as (_ & _ & _ & Hlt). rewrite (fill_stored v bs (λ _, read_loop handle fuel)).
    apply IH. rewrite Hrs in Hlt. destruct v; cbn; lia.
  - unfold mbind, M_bind. by destruct (signalException _ _) as [[[]|e|] q].
  - unfold mbind, M_bind. destruct (pi_sync p1); [by destruct (signalException _ _) as [[[]|e|] q]|done].
  - unfold mbind, M_bind. by destruct (signalException _ _) as [[[]|e|] q].
Qed.

Lemma Pio_read_total handle p : (Pio_read handle p).1 ≠ Val None.
Proof. unfold Pio_read. M_run. destruct (pi_state p); [apply read_loop_total; lia..|done]. Qed.

Section ending.
Context (handle : Opcode → IoOp → M Pio unit) `{!RxHandler handle}.

(** A message that was read to the end left fewer bytes, unless it was
    complete before. *)
Lemma readComplete_fresh p p' : readComplete handle p = (Val (), p') →
  pi_rx p' = IoOp_new ∧ pi_in p' = pi_in p.
Proof.
  unfold readComplete. M_run. set (o := pi_rx p).
  set (h := match getOpcode o with
            | Some NOTIFY_SEND_READY => handle NOTIFY_SEND_READY o
            | Some NOTIFY_RECV_READY => handle NOTIFY_RECV_READY o
            | _ => mret ()
            end).
  assert (frame rx_env h) as Hh.
  { unfold h. destruct (getOpcode o) as [[]|]; try apply rx_handler; intros s; apply rx_env_refl. }
  intros Hr. apply M_bind_inv in Hr as ([] & p1 & Hr1 & Hr). injection Hr as <-.
  specialize (Hh p). rewrite Hr1 in Hh. split; [done|]. by apply Hh.
Qed.

Lemma read_loop_eats fuel : ∀ p p', 0 ≤ io_nread (pi_rx p) → read_loop handle fuel p = (Val (Some true), p') →
  pi_rx p' = IoOp_new ∧ (length (pi_in p') ≤ length (pi_in p))%nat ∧
  (io_nread (pi_rx p) < 48 → (length (pi_in p') < length (pi_in p))%nat).
Proof.
  induction fuel as [|fuel IH]; [done|]. intros p p' H0 Hr. cbn [read_loop] in Hr.
  apply M_bind_inv in Hr as (v & p1 & Hv & Hr). pose proof (prepareRead_reads_on p) as Ho. rewrite Hv in Ho. destruct Ho as (_ & Hin & Hn).
  cbn [snd] in Hin, Hn. destruct v as [v|]; [|done]. cbv beta zeta in Hr. destruct (s64 (iov_len v) <? 0); [done|].
  destruct (s64 (iov_len v) =? 0) eqn:Hz.
  - apply M_bind_inv in Hr as ([] & p2 & Hc & Hr). injection Hr as <-. apply readComplete_fresh in Hc as [Hx Hi].
    split_and!; [done|by rewrite Hi, Hin|]. intros Hlt. exfalso.
    assert (v = IovPreamble (io_nread (pi_rx p)) (48 - io_nread (pi_rx p))) as ->.
    { revert Hv. unfold prepareRead, sizeof_preamble. M_run. rewrite (proj2 (Z.ltb_lt _ _) Hlt). by intros [= <- _]. }
    cbn [iov_len] in Hz. rewrite swrap_small in Hz by lia. apply Z.eqb_eq in Hz. lia.
  - rewrite M_bind_get in Hr. destruct (recv_call _ _ _ _) as [r rs] eqn:Hrc. rewrite M_bind_modify in Hr.
    destruct r as [bs| | |]; [|revert Hr; unfold mbind, M_bind; try destruct (pi_sync p1); try destruct (signalException _ _) as [[[]|e|] q]; done..].
    apply recv_call_data in Hrc as (Hne & [rest Hpre] & _). rewrite (fill_stored v bs (λ _, read_loop handle fuel)) in Hr.
    apply IH in Hr as (Hx & Hle & _).
    + assert (pi_in (stored v bs (p1 <| pi_rs := rs |>)) = rest) as Hs.
      { transitivity (drop (length bs) (pi_in p1)); [by destruct v|]. by rewrite Hpre, drop_app_length. }
      rewrite Hs in Hle. rewrite <-Hin, Hpre, length_app. assert (0 < length bs)%nat by (destruct bs; [done|cbn; lia]).
      split_and!; [done|lia|intros _; lia].
    + assert (0 ≤ u64 (io_nread (pi_rx p1) + lenZ bs)) by (by apply (wrap_range 64)). by destruct v.
Qed.

Lemma read_all_total fuel : ∀ p, 0 ≤ io_nread (pi_rx p) →
  (length (pi_in p) + (if decide (io_nread (pi_rx p) < 48)%Z then 0 else 1) < fuel)%nat → (read_all handle fuel p).1 ≠ Val None.
Proof.
  induction fuel as [|fuel IH]; [lia|]. intros p H0 Hl. cbn [read_all].
  pose proof (Pio_read_total handle p) as Ht. destruct (Pio_read handle p) as [[[[]|]|e|] p1] eqn:Hr; cbn [fst] in Ht;
    [|by rewrite (M_bind_val _ _ _ _ _ Hr)|done|by unfold mbind, M_bind; rewrite Hr..].
  rewrite (M_bind_val _ _ _ _ _ Hr). assert (∃ fuel', read_loop handle fuel' p = (Val (Some true), p1)) as [fuel' Hr'].
  { revert Hr. unfold Pio_read. M_run. destruct (pi_state p); [eauto..|done]. }
  apply read_loop_eats in Hr' as (Hx & Hle & Hlt); [|done]. apply IH; rewrite Hx; [done|].
  destruct (decide (io_nread IoOp_new < 48)) as [|Hn]; [|by destruct Hn].
  destruct (decide (io_nread (pi_rx p) < 48)) as [H48|]; [specialize (Hlt H48)|]; lia.
Qed.

(** C12: the device loop always returns: the answers of the kernel bound the loop over one message, and the bytes
    that have arrived the loop over the messages. *)
Theorem handleEvents_total p locked out inp :
  0 ≤ io_nread (pi_rx p) → (handleEvents handle locked out inp p).1 ≠ Val None.
Proof.
  intros H0. unfold handleEvents. destruct locked; [done|]. M_run.
  assert (∀ q, reads_on p q → ((if inp then read_all handle (S (S (length (pi_in q)))) else mret (Some ())) q).1 ≠ Val None) as Hin.
  { intros q (_ & _ & Hn). destruct inp; [|done]. apply read_all_total; [by rewrite Hn|].
    by destruct (decide (io_nread (pi_rx q) < 48)); lia. }
  destruct (state_value (pi_state p) <=? state_value CONNECTED); [|done]. rewrite M_bind_enforce by done.
  destruct (pi_ex p); [done|]. rewrite M_bind_enforce by done. destruct (pi_state p); [done..| |done].
  unfold handleReadWrite.
  set (w := if out then _ else _). assert (frame same_rx w) as Hw.
  { unfold w. frame_tac; try apply write_queue_same_rx; done. }
  specialize (Hw p). unfold mbind at 1, M_bind at 1. destruct (w p) as [[[]|e|] q]; [|done..]. M_run. apply Hin.
  destruct Hw as [Hw _]. injection Hw as Hx Hi Hs _ _ _ _. unfold reads_on. split_and!; congruence.
Qed.
End ending.
