(* ===== verification/FrameLink.v ===== *)
(** A connection between two pairs. The one end sends, the other one reads;
    the kernel splits what is written and delivers it in pieces of any size.
    Whatever happens, the messages read are the first ones that were sent. *)
From S2P Require Import Prelude Packet PairOps Net Frame FrameSend FrameRecv.

(** The two ends, the bytes on the way, and what was sent so far. *)
Record Link := mkLink { lk_a : Pio; lk_b : Pio; lk_flight : list Z; lk_sent : list (list Z * list Z) }.

Definition sent_msg (m : Mem) (o : IoOp) : list Z * list Z := (io_preamble o, payload m o).

(** What the sender may not touch meanwhile: its queue, and the memory it
    still has to send from, unless the buffer is gone. *)
Record tx_env (p p' : Pio) : Prop := {
  te_tx : pi_tx p' = pi_tx p;
  te_out : pi_out p' = pi_out p;
  te_sync : pi_sync p' = pi_sync p;
  te_state : (pi_state p' = pi_state p ∧ pi_ex p' = pi_ex p) ∨ pi_state p' = CLOSED;
  te_ops : ∀ o, o ∈ pi_tx p → buffer_gone (pi_alive p') o = true ∨
    (buffer_gone (pi_alive p) o = false ∧ frame_of (pi_mem p') o = frame_of (pi_mem p) o);
}.

(** The steps: the sender sends, its device loop writes, it becomes
    synchronous or closes; bytes arrive; the receiver's device loop or its
    own thread reads; and what the other threads of both do. *)
Inductive link_step (handle : Opcode → IoOp → M Pio unit) : Link → Link → Prop :=
  | ls_send a b fl sent o res a' w :
      op_wf o → io_nwritten o = 0 → buffer_gone (pi_alive a) o = false →
      Pio_send o a = (res, a') → pi_out a' = pi_out a ++ w →
      link_step handle (mkLink a b fl sent) (mkLink a' b (fl ++ w) (sent ++ [sent_msg (pi_mem a) o]))
  | ls_sendAsync a b fl sent o res a' w :
      op_wf o → io_nwritten o = 0 → pi_sync a = false →
      Pio_sendAsyncMode o a = (res, a') → pi_out a' = pi_out a ++ w →
      link_step handle (mkLink a b fl sent) (mkLink a' b (fl ++ w) (sent ++ [sent_msg (pi_mem a) o]))
  | ls_write a b fl sent locked res a' w :
      handleEvents handle locked true false a = (res, a') → pi_out a' = pi_out a ++ w →
      link_step handle (mkLink a b fl sent) (mkLink a' b (fl ++ w) sent)
  | ls_setSync a b fl sent sync busyPoll a' w :
      Pio_setSync sync busyPoll a = (Val (), a') → pi_out a' = pi_out a ++ w →
      link_step handle (mkLink a b fl sent) (mkLink a' b (fl ++ w) sent)
  | ls_close a b fl sent : link_step handle (mkLink a b fl sent) (mkLink (Pio_close a) b fl sent)
  | ls_sender a b fl sent a' : tx_env a a' → link_step handle (mkLink a b fl sent) (mkLink a' b fl sent)
  | ls_arrive a b x y sent :
      link_step handle (mkLink a b (x ++ y) sent) (mkLink a (b <| pi_in ::= λ l, l ++ x |>) y sent)
  | ls_read a b fl sent locked res b' :
      handleEvents handle locked false true b = (res, b') → link_step handle (mkLink a b fl sent) (mkLink a b' fl sent)
  | ls_recv a b fl sent res b' :
      Pio_recv handle b = (res, b') → link_step handle (mkLink a b fl sent) (mkLink a b' fl sent)
  | ls_receiver a b fl sent b' : rx_env b b' → link_step handle (mkLink a b fl sent) (mkLink a b' fl sent).

Definition link_reach (handle : Opcode → IoOp → M Pio unit) : Link → Link → Prop := rtc (link_step handle).

(** A fresh connection. *)
Record link_init (s : Link) : Prop := {
  li_up : pi_state (lk_a s) = CONNECTED;
  li_ex : pi_ex (lk_a s) = None;
  li_tx : pi_tx (lk_a s) = [];
  li_out : pi_out (lk_a s) = [];
  li_in : pi_in (lk_b s) = [];
  li_rx : pi_rx (lk_b s) = IoOp_new;
  li_done : received (pi_done (lk_b s)) = [];
  li_posts : posts_wf (lk_b s);
  li_flight : lk_flight s = [];
  li_sent : lk_sent s = [];
}.

(* ------------------------------------------------------------------ *)
(** * Both ends together *)

Definition link_ok (s : Link) : Prop :=
  tx_ok (flat <$> lk_sent s) (lk_a s) ∧
  ∃ ms rest, lk_sent s = received (pi_done (lk_b s)) ++ ms ∧
    concat (flat <$> lk_sent s) = pi_out (lk_a s) ++ rest ∧ rx_ok ms (lk_flight s ++ rest) (lk_b s).

Lemma tx_env_ok sent p p' : tx_env p p' → tx_ok sent p → tx_ok sent p'.
Proof.
  intros [Ht Ho Hy Hs Hops] [[Hup Hc (rest & Hr & Hq)] Hsy]. destruct Hs as [[Hs He]|Hs].
  2:{ split; [|by rewrite Ht, Hy]. apply tx_owing_closed; [done|]. rewrite Ho, Hr. by eexists. }
  split; [|by rewrite Ht, Hy]. split; [by rewrite Hs|unfold calm; by rewrite Hs, He|].
  exists rest. split; [by rewrite Ho|]. destruct Hq as [Hq|(rs & Hq & Hrs)]; [left; congruence|right; exists rs; split; [|done]].
  rewrite Ht. apply Forall2_same_length_lookup_2; [by eapply Forall2_length|]. intros i o r Hi Hj.
  destruct (Forall2_lookup_lr _ _ _ _ _ _ Hq Hi Hj) as (Hw & Hn & Hr'). split; [done|]. split; [done|].
  destruct (Hops o) as [|[Hg Hf]]; [by eapply list_elem_of_lookup_2|by left|]. rewrite Hf. right. destruct Hr' as [Hr'|]; [|done].
  by rewrite Hg in Hr'.
Qed.

(** More to come. *)
Lemma rx_ok_more ms ms' future p : rx_ok ms future p → Forall msg_wf ms' → rx_ok (ms ++ ms') (future ++ concat (flat <$> ms')) p.
Proof.
  intros [? ? ? Hb] Hm. split; [by apply Forall_app|done..|]. by rewrite fmap_app, concat_app, Hb, <-!app_assoc.
Qed.

Lemma link_ok_sender s a' w new : link_ok s → pi_out a' = pi_out (lk_a s) ++ w → Forall msg_wf new →
  tx_ok (flat <$> lk_sent s ++ new) a' → link_ok (mkLink a' (lk_b s) (lk_flight s ++ w) (lk_sent s ++ new)).
Proof.
  intros (_ & ms & rest & Hs & Hc & Hrx) Ho Hnew Htx. split; [done|]. cbn in *.
  destruct (tx_owing_prefix _ _ _ (tx_queue _ _ Htx)) as [rest' Hr']. exists (ms ++ new), rest'.
  split_and!; [by rewrite Hs, app_assoc|done|]. rewrite Ho, fmap_app, concat_app, Hc, <-!app_assoc in Hr'. apply app_inv_head in Hr'.
  rewrite <-app_assoc, <-Hr', app_assoc. by apply rx_ok_more.
Qed.

Lemma link_ok_receiver s b' : link_ok s → rx_moves (lk_b s) b' → link_ok (mkLink (lk_a s) b' (lk_flight s) (lk_sent s)).
Proof.
  intros (Htx & ms & rest & Hs & Hc & Hrx) Hb. split; [done|]. destruct (Hb _ _ Hrx) as (ms1 & ms2 & -> & Hd & Hrx').
  exists ms2, rest. cbn in *. split_and!; [by rewrite Hs, Hd, app_assoc|done|done].
Qed.

Lemma link_ok_step handle `{!RxHandler handle} s s' : link_step handle s s' → link_ok s → link_ok s'.
Proof.
  intros Hst Hok. pose proof Hok as [Htx _]. cbn in Htx.
  assert (∀ a' w, pi_out a' = pi_out (lk_a s) ++ w → tx_ok (flat <$> lk_sent s) a' →
    link_ok (mkLink a' (lk_b s) (lk_flight s ++ w) (lk_sent s))) as Hsend.
  { intros a' w Ho H. rewrite <-(app_nil_r (lk_sent s)). apply link_ok_sender; [done..|by rewrite app_nil_r]. }
  assert (∀ a', pi_out a' = pi_out (lk_a s) → tx_ok (flat <$> lk_sent s) a' →
    link_ok (mkLink a' (lk_b s) (lk_flight s) (lk_sent s))) as Hquiet.
  { intros a' Ho H. specialize (Hsend a' []). rewrite !app_nil_r in Hsend. by apply Hsend. }
  destruct Hst as [a b fl sent o res a' w Hw Hn Hg Hr Ho|a b fl sent o res a' w Hw Hn Hg Hr Ho|
    a b fl sent locked res a' w Hr Ho|a b fl sent sync bp a' w Hr Ho|a b fl sent
    |a b fl sent a' He|a b x y sent|a b fl sent locked res b' Hr|a b fl sent res b' Hr|a b fl sent b' He]; cbn in *.
  - destruct (Pio_send_ok _ _ _ _ _ Htx Hw Hn Hg Hr) as (Htx' & _).
    apply (link_ok_sender (mkLink a b fl sent)); [done..| |by rewrite fmap_app].
    constructor; [|done]. by exists (pi_mem a), o.
  - destruct (Pio_sendAsyncMode_ok _ _ _ _ _ Htx Hw Hn Hg Hr) as (Htx' & _).
    apply (link_ok_sender (mkLink a b fl sent)); [done..| |by rewrite fmap_app].
    constructor; [|done]. by exists (pi_mem a), o.
  - apply Hsend; [done|]. by apply (handleEvents_out_ok _ _ _ _ _ _ Htx) in Hr as [? _].
  - apply Hsend; [done|]. by apply (setSync_ok _ _ _ _ _ Htx) in Hr as [? _].
  - destruct (close_ok _ _ Htx) as (? & ? & _). by apply Hquiet.
  - apply Hquiet; [by apply He|by eapply tx_env_ok].
  - destruct Hok as (_ & ms & rest & Hs & Hc & [? ? ? Hb]). split; [done|]. exists ms, rest. cbn in *. split_and!; [done..|].
    split; [done..|]. cbn. by rewrite Hb, <-!app_assoc.
  - apply (link_ok_receiver (mkLink a b fl sent)); [done|]. pose proof (handleEvents_in_moves handle locked b) as H. by rewrite Hr in H.
  - apply (link_ok_receiver (mkLink a b fl sent)); [done|]. pose proof (Pio_recv_moves handle b) as H. by rewrite Hr in H.
  - apply (link_ok_receiver (mkLink a b fl sent)); [done|]. by apply rx_env_moves.
Qed.

Lemma link_init_ok s : link_init s → link_ok s.
Proof.
  destruct s as [a b fl sent]. intros [Hup Hex Htx Hout Hin Hrx Hd Hp Hf Hs]; cbn in *. subst fl sent.
  split; cbn.
  - split; [|by rewrite Htx]. rewrite Htx. split; [by left|by intros _|]. exists []. cbn. rewrite Hout. split; [done|].
    right. by exists [].
  - exists [], []. rewrite Hd, Hout. split_and!; [done..|]. split; [done|done|by rewrite Hrx|].
    by rewrite Hrx, Hin.
Qed.

Lemma link_reach_ok handle `{!RxHandler handle} s0 s : link_init s0 → link_reach handle s0 s → link_ok s.
Proof. intros H0%link_init_ok Hr. induction Hr; [done|]. eauto using link_ok_step. Qed.

Lemma flat_nonempty ms : Forall msg_wf ms → concat (flat <$> ms) = [] → ms = [].
Proof.
  intros [|x l (m & o & Hw & ->) _] Hc; [done|]. apply (f_equal length) in Hc. cbn in Hc.
  unfold flat in Hc at 1. rewrite !length_app in Hc. cbn [fst] in Hc. destruct Hw. lia.
Qed.

(** C11: a connection is a queue of whole messages. Whatever the sizes of the partial writes and reads, the errors and
    the interleaving, the messages read at the one end are, with their preambles and payloads, the first ones sent at
    the other; and when nothing is queued, on the way or half read, they are all of them. *)
Theorem link_fifo handle `{!RxHandler handle} s0 s : link_init s0 → link_reach handle s0 s →
  ∃ ms, lk_sent s = received (pi_done (lk_b s)) ++ ms ∧
    (pi_state (lk_a s) ≠ CLOSED → pi_tx (lk_a s) = [] → lk_flight s = [] → pi_in (lk_b s) = [] →
     io_nread (pi_rx (lk_b s)) = 0 → ms = []).
Proof.
  intros H0 Hr. destruct (link_reach_ok _ _ _ H0 Hr) as (Htx & ms & rest & Hs & Hc & [Hm _ Hrx Hb]).
  exists ms. split; [done|]. intros Hn Hq Hf Hi Hz. apply flat_nonempty; [done|].
  destruct Htx as [[_ _ (rest' & Hc' & Ho)] _]. rewrite Hc in Hc'. apply app_inv_head in Hc' as ->.
  destruct Ho as [|(rs & Hrs & ->)]; [done|]. rewrite Hq in Hrs. apply Forall2_nil_inv_l in Hrs as ->.
  rewrite Hb, Hf, Hi. cbn. rewrite app_nil_r. unfold rx_bytes. rewrite Hz. destruct (rw_early _ Hrx) as [Hb1 Hb2]; [lia|].
  unfold rx_base. rewrite Hb1, Hb2. by destruct (getOpcode (pi_rx (lk_b s))) as [[]|].
Qed.

(** what the receiver reads out of a preamble is what the sender put there. *)
Theorem preamble_roundtrip p o : preamble_wf p → io_preamble o = preamble_bytes p →
  getOpcode o = Some (pa_opcode p) ∧ io_total o = pa_nbytes p ∧ io_slot o = pa_slot p ∧ io_poffset o = pa_offset p ∧
  io_length o = pa_length p ∧ io_roffset o = pa_roffset p.
Proof.
  intros Hp Ho. split; [by apply getOpcode_val|]. split_and!; by apply (preamble_field_val _ _ p).
Qed.

(* ------------------------------------------------------------------ *)
(** * Examples *)

(** [handleRemotePendingRecv(op)] where a send is pending on the slot. *)
Definition serve_pending (c : Opcode) (o : IoOp) : M Pio unit :=
  q ← gets (λ p, pi_localPendingSend p !! io_slot o);
  match c, q with
  | NOTIFY_RECV_READY, Some [] => throw EnforceNotMet
  | NOTIFY_RECV_READY, Some (u :: q) =>
      _ ← modify (λ p, p <| pi_localPendingSend ::= queue_set (io_slot o) q |>);
      Pio_sendAsyncMode (io_of_op (unbound_op (io_slot o) u))
  | _, _ => mret ()
  end.
#[export] Instance serve_pending_rx : RxHandler serve_pending.
Proof.
  intros c o p. apply same_rx_env. revert p. change (frame same_rx (serve_pending c o)). unfold serve_pending.
  frame_tac; try apply Pio_sendAsyncMode_same_rx; try done; by intros ?.
Qed.

(** A pair, connected, with these answers of the kernel. *)
Definition demo_pair (ks : list KWrite) (rs : list KRead) (posts : gmap Z (list UOp)) (m : Mem) : Pio :=
  mkPio CONNECTED false false true (Some false) None [] IoOp_new ∅ posts ∅ (λ _, 0) (λ _, true) m [] [] ks rs [] [] [].
Definition demo_a : Pio := demo_pair [Wrote 50; WError EAGAIN; Wrote 1; WError EINTR; Wrote 99] [] ∅ (demo_mems 0).
Definition demo_b : Pio :=
  demo_pair [] [Got 7; RError EINTR; Got 100; RError EAGAIN; Got 18; Got 2; Got 99] {[ 3 := [mkUOp 9 2 8] ]} (demo_mems 1).
Definition demo_op : IoOp := io_of_op (unbound_op 3 (mkUOp 4 1 6)).
Definition demo_a1 : Pio := (Pio_send demo_op demo_a).2.
Definition demo_a2 : Pio := (handleEvents serve_pending false true false demo_a1).2.
Definition demo_feed (x : list Z) (b : Pio) : Pio := (handleEvents serve_pending false false true (b <| pi_in ::= λ l, l ++ x |>)).2.
Definition demo_b2 : Pio := demo_feed (drop 30 (pi_out demo_a2)) (demo_feed (take 30 (pi_out demo_a2)) demo_b).

(** The 54 bytes go out as 50, 1 and 3, and are read as 7, 23, 18, 2 and 4:
    the payload lies in the receiver's buffer. *)
Example demo_link_bytes : length (pi_out demo_a1) = 50%nat ∧ length (pi_tx demo_a1) = 1%nat ∧ length (pi_out demo_a2) = 54%nat ∧
  pi_tx demo_a2 = [] ∧ read (pi_mem demo_b2) (mkRegion 9 2 6) = read (demo_mems 0) (mkRegion 4 1 6).
Proof. vm_compute. done. Qed.

Definition demo_link0 : Link := mkLink demo_a demo_b [] [].
Definition demo_link : Link := mkLink demo_a2 demo_b2 [] ([] ++ [sent_msg (pi_mem demo_a) demo_op]).
Lemma demo_posts m ks rs : posts_wf (demo_pair ks rs {[ 3 := [mkUOp 9 2 8] ]} m).
Proof.
  intros s q u. cbn. intros [<- <-]%lookup_singleton_Some ->%list_elem_of_singleton. done.
Qed.
Lemma demo_link_init : link_init demo_link0.
Proof. split; try done. apply demo_posts. Qed.

Lemma demo_link_reach : link_reach serve_pending demo_link0 demo_link.
Proof.
  eapply rtc_l; [eapply (ls_send _ _ _ _ _ demo_op _ demo_a1 (pi_out demo_a1))|].
  - apply io_of_op_wf; done.
  - done.
  - done.
  - apply surjective_pairing.
  - done.
  - eapply rtc_l; [eapply (ls_write _ _ _ _ _ false _ demo_a2 (drop 50 (pi_out demo_a2))); [apply surjective_pairing|vm_compute; done]|].
    set (x := take 30 (pi_out demo_a2)). set (y := drop 30 (pi_out demo_a2)).
    replace (([] ++ pi_out demo_a1) ++ drop 50 (pi_out demo_a2)) with (x ++ y ++ []) by (vm_compute; done).
    eapply rtc_l; [apply (ls_arrive _ demo_a2 demo_b x)|]. eapply rtc_l; [eapply (ls_read _ _ _ _ _ false); apply surjective_pairing|].
    eapply rtc_l; [apply (ls_arrive _ demo_a2 _ y)|]. eapply rtc_l; [eapply (ls_read _ _ _ _ _ false); apply surjective_pairing|].
    unfold demo_link, demo_b2, demo_feed. fold x y. apply rtc_refl.
Qed.

Lemma link_fifo_witness : received (pi_done demo_b2) = [sent_msg (demo_mems 0) demo_op].
Proof.
  destruct (link_fifo serve_pending demo_link0 demo_link demo_link_init demo_link_reach) as (ms & Hs & Hms).
  rewrite Hms in Hs; [|vm_compute; done..]. by rewrite app_nil_r in Hs.
Defined.

Lemma preamble_roundtrip_witness : io_slot demo_op = 3 ∧ io_length demo_op = 6 ∧ getOpcode demo_op = Some SEND_UNBOUND_BUFFER.
Proof.
  destruct (preamble_roundtrip (op_preamble (unbound_op 3 (mkUOp 4 1 6))) demo_op) as (Hc & _ & Hs & _ & Hl & _).
  - split; cbn; word_lia.
  - done.
  - done.
Defined.

Lemma handleEvents_total_witness : (handleEvents serve_pending false true true demo_b).1 ≠ Val None.
Proof. apply (handleEvents_total serve_pending demo_b false true true). done. Defined.

(** A send that times out while [setSync] flushes the queue: the pair still
    counts as asynchronous, so no exception is set and the check that follows
    fails; the pair stays connected and unregistered, and when [setSync] is
    tried again, the send that had been completed is completed once more. *)
Definition demo_flush : Pio :=
  demo_pair [Wrote 99; WError EAGAIN; Wrote 99; Wrote 99] [] ∅ (demo_mems 0) <| pi_tx := [demo_op; demo_op] |>.
Example setSync_timeout :
  let '(res, p) := Pio_setSync true false demo_flush in
  let '(res', p') := Pio_setSync true false p in
  res = Exn EnforceNotMet ∧ pi_ex p = None ∧ pi_state p = CONNECTED ∧ pi_events p = None ∧ length (pi_tx p) = 2%nat ∧
  res' = Val () ∧ length (pi_out p') = 108%nat ∧ pi_done p' = [DoneSend false 4; DoneSend false 4; DoneSend false 4].
Proof. vm_compute. done. Qed.

(** An exception is not told to the unbound buffers of the operations in the
    transmit queue and of the message being read. *)
Definition demo_broken : Pio :=
  demo_pair [] [] ∅ (demo_mems 0) <| pi_tx := [demo_op] |> <| pi_rx ::= λ o, o <| io_ubuf := Some 9 |> |>.
Example signalException_untold :
  let p := (signalException IoException demo_broken).2 in pi_state p = CLOSED ∧ pi_told p = [] ∧ pi_utold p = [].
Proof. vm_compute. done. Qed.
