(* ===== verification/NetRun.v ===== *)
(** Running collectives: how to exhibit an execution of a system of programs
    round by round, and what determinism ([Net]) makes of it: every execution
    ends, in the state of the exhibited one. *)
From Stdlib Require Import FunctionalExtensionality.
From S2P Require Import Prelude Net.

(* ------------------------------------------------------------------ *)
(** * What a collective computes *)

(** All processes at the start of their programs. *)
Definition rank_init (p : list Act) (m : Mem) : Rank := mkRank p m [] [] (λ _, O) (λ _, O) hist0.
Definition net_init (progs : Z → list Act) (mems : Z → Mem) : Net :=
  mkNet (λ r, rank_init (progs r) (mems r)) (λ _, []).

Definition rank_done (R : Rank) : Prop := rs_prog R = [] ∧ rs_ps R = [] ∧ rs_pr R = [].
Definition finished (s : Net) : Prop := ∀ r, rank_done (nt_rk s r).

(** Whatever the interleaving, the programs end: there is a final state that
    satisfies [post], no execution is longer than [n] steps, and every
    execution that is shorter goes on to the final state. *)
Definition computes (progs : Z → list Act) (mems : Z → Mem) (post : (Z → Mem) → Prop) : Prop :=
  ∃ n f, finished f ∧ post (λ r, rs_mem (nt_rk f r)) ∧
    ∀ m s, nsteps net_step m (net_init progs mems) s → (m ≤ n)%nat ∧ nsteps net_step (n - m) s f.

Lemma side_init : side_ok [] [] (λ _, O) (λ _, O) (λ _, O).
Proof. split; [set_solver|set_solver|constructor|done|set_solver|done]. Qed.

Lemma rank_init_ok p m : clean hist0 p → rank_ok (rank_init p m).
Proof. split; [done|apply side_init|apply side_init|set_solver|set_solver]. Qed.

Lemma finished_nf f : finished f → nf net_step f.
Proof.
  intros Hf [s' [l Hl]]. destruct l as [r|p q sl|p q sl]; cbn in Hl.
  - destruct (Hf r) as (Hp & _). unfold local in Hl. by rewrite Hp in Hl.
  - destruct (Hf p) as (_ & Hp & _). unfold transmit in Hl. by rewrite Hp in Hl.
  - destruct (nt_ch f _); [done|]. destruct (Hf q) as (_ & _ & Hp). unfold deliver in Hl. by rewrite Hp in Hl.
Qed.

Lemma computes_intro progs mems (post : (Z → Mem) → Prop) f :
  (∀ r, clean hist0 (progs r)) → rtc net_step (net_init progs mems) f → finished f →
  post (λ r, rs_mem (nt_rk f r)) → computes progs mems post.
Proof.
  intros Hc [n Hn]%rtc_nsteps Hf Hp. exists n, f. split; [done|]. split; [done|]. apply net_descent; [|done|].
  - intros r. by apply rank_init_ok.
  - by apply finished_nf.
Qed.

(* ------------------------------------------------------------------ *)
(** * A process on its own *)

(** A message to or from a peer on a slot. *)
Record Msg := mkMsg { ms_peer : Z; ms_slot : Z; ms_data : list Z }.
Definition on_msg (c : Z * Z) (x : Msg) : Prop := (ms_peer x, ms_slot x) = c.
#[export] Instance on_msg_dec c x : Decision (on_msg c x).
Proof. unfold on_msg. apply _. Defined.
Definition datas (c : Z * Z) (l : list Msg) : list (list Z) := ms_data <$> filter (on_msg c) l.

(** Steps of one process that only send, and that only receive. *)
Inductive emits : Rank → list Msg → Rank → Prop :=
  | em_done R : emits R [] R
  | em_local R R1 l R' : local R = Some R1 → emits R1 l R' → emits R l R'
  | em_send R R1 q sl d l R' : transmit q sl R = Some (d, R1) → emits R1 l R' → emits R (mkMsg q sl d :: l) R'.
Inductive takes : Rank → list Msg → Rank → Prop :=
  | tk_done R : takes R [] R
  | tk_local R R1 l R' : local R = Some R1 → takes R1 l R' → takes R l R'
  | tk_recv R R1 p sl d l R' : deliver p sl d R = Some R1 → takes R1 l R' → takes R (mkMsg p sl d :: l) R'.

Lemma emits_app R l R1 k R2 : emits R l R1 → emits R1 k R2 → emits R (l ++ k) R2.
Proof. induction 1; cbn; eauto using emits. Qed.
Lemma takes_app R l R1 k R2 : takes R l R1 → takes R1 k R2 → takes R (l ++ k) R2.
Proof. induction 1; cbn; eauto using takes. Qed.

Lemma datas_cons c x l : datas c (x :: l) = (if decide (on_msg c x) then [ms_data x] else []) ++ datas c l.
Proof. unfold datas. rewrite filter_cons. by case_decide. Qed.

(** The channels after [p] sent [l], and before [q] received it. *)
Definition ch_after (p : Z) (l : list Msg) (ch : Z * Z * Z → list (list Z)) : Z * Z * Z → list (list Z) :=
  λ '(p', q, sl), if decide (p' = p) then ch (p', q, sl) ++ datas (q, sl) l else ch (p', q, sl).

Lemma emits_run R l R' : emits R l R' → ∀ s r, nt_rk s r = R →
  rtc net_step s (mkNet (fset r R' (nt_rk s)) (ch_after r l (nt_ch s))).
Proof.
  induction 1 as [R|R R1 l R' HR H IH|R R1 q sl d l R' HR H IH]; intros s r Hr.
  - assert (mkNet (fset r R (nt_rk s)) (ch_after r [] (nt_ch s)) = s) as ->; [|done].
    destruct s as [rk ch]. cbn in *. f_equal.
    + extensionality x. unfold fset. by case_decide; subst.
    + extensionality c. destruct c as [[p q] sl]. unfold ch_after. rewrite app_nil_r. by case_decide.
  - eapply rtc_l; [exists (LLocal r); cbn; by rewrite Hr, HR|]. specialize (IH (mkNet (fset r R1 (nt_rk s)) (nt_ch s)) r).
    cbn in IH. rewrite fset_twice in IH. apply IH. by rewrite fset_at.
  - eapply rtc_l; [exists (LTransmit r q sl); cbn; by rewrite Hr, HR|]. cbn.
    specialize (IH (mkNet (fset r R1 (nt_rk s)) (fset (r, q, sl) (nt_ch s (r, q, sl) ++ [d]) (nt_ch s))) r).
    cbn in IH. rewrite fset_twice in IH.
    assert (ch_after r (mkMsg q sl d :: l) (nt_ch s) =
      ch_after r l (fset (r, q, sl) (nt_ch s (r, q, sl) ++ [d]) (nt_ch s))) as ->; [|apply IH; by rewrite fset_at].
    extensionality c. destruct c as [[p' q'] sl']. unfold ch_after, fset. rewrite datas_cons. unfold on_msg.
    cbn [ms_peer ms_slot ms_data]. repeat case_decide; simplify_eq; try done. by rewrite <-(assoc_L (++)).
Qed.

Definition ch_before (q : Z) (l : list Msg) (ch : Z * Z * Z → list (list Z)) : Z * Z * Z → list (list Z) :=
  λ '(p, q', sl), if decide (q' = q) then datas (p, sl) l ++ ch (p, q', sl) else ch (p, q', sl).

Lemma ch_before_head p r sl d l ch :
  ch_before r (mkMsg p sl d :: l) ch (p, r, sl) = d :: datas (p, sl) l ++ ch (p, r, sl).
Proof.
  unfold ch_before. rewrite decide_True by done. rewrite datas_cons. unfold on_msg. cbn [ms_peer ms_slot ms_data].
  by rewrite decide_True.
Qed.

Lemma takes_run R l R' : takes R l R' → ∀ rk ch r, rk r = R →
  rtc net_step (mkNet rk (ch_before r l ch)) (mkNet (fset r R' rk) ch).
Proof.
  induction 1 as [R|R R1 l R' HR H IH|R R1 p sl d l R' HR H IH]; intros rk ch r Hr.
  - assert (mkNet rk (ch_before r [] ch) = mkNet (fset r R rk) ch) as ->; [|done]. f_equal.
    + extensionality x. unfold fset. by case_decide; subst.
    + extensionality c. destruct c as [[p q] sl]. unfold ch_before. cbn. by case_decide.
  - eapply rtc_l; [exists (LLocal r); cbn; by rewrite Hr, HR|]. specialize (IH (fset r R1 rk) ch r).
    rewrite fset_twice in IH. apply IH. by rewrite fset_at.
  - eapply rtc_l.
    + exists (LDeliver p r sl). cbn [exec nt_ch nt_rk]. by rewrite ch_before_head, Hr, HR.
    + specialize (IH (fset r R1 rk) ch r). rewrite fset_twice in IH.
      assert (fset (p, r, sl) (datas (p, sl) l ++ ch (p, r, sl)) (ch_before r (mkMsg p sl d :: l) ch) =
        ch_before r l ch) as ->; [|apply IH; by rewrite fset_at].
      extensionality c. destruct c as [[p' q'] sl']. unfold ch_before, fset. rewrite datas_cons. unfold on_msg.
      cbn [ms_peer ms_slot ms_data]. repeat case_decide; by simplify_eq.
Qed.

(* ------------------------------------------------------------------ *)
(** * A round of all processes *)

Definition at_rank (l : list Z) (r : Z) (k : list Msg) : list Msg := if decide (r ∈ l) then k else [].

Lemma all_emit l : ∀ s (ev : Z → list Msg) (Q : Z → Rank → Prop), NoDup l →
  (∀ r, r ∈ l → ∃ R, emits (nt_rk s r) (ev r) R ∧ Q r R) →
  ∃ s', rtc net_step s s' ∧ (∀ r, r ∈ l → Q r (nt_rk s' r)) ∧ (∀ r, r ∉ l → nt_rk s' r = nt_rk s r) ∧
    ∀ p q sl, nt_ch s' (p, q, sl) = nt_ch s (p, q, sl) ++ datas (q, sl) (at_rank l p (ev p)).
Proof.
  unfold at_rank. induction l as [|r l IH]; intros s ev Q Hnd H.
  - exists s. split; [done|]. split; [set_solver|]. split; [done|]. intros. by rewrite app_nil_r.
  - apply NoDup_cons in Hnd as [Hr Hnd]. destruct (H r) as (R & He & HQ); [set_solver|].
    pose proof (emits_run _ _ _ He s r eq_refl) as Hrun. set (s1 := mkNet _ _) in Hrun.
    destruct (IH s1 ev Q Hnd) as (s' & Hs & Hin & Hout & Hch).
    { intros r' Hr'. cbn. rewrite fset_other by set_solver. apply H. set_solver. }
    exists s'. split; [by etrans|]. split; [|split].
    + intros r' [->|Hr']%elem_of_cons; [|by apply Hin]. rewrite (Hout r) by done. cbn. by rewrite fset_at.
    + intros r' [Hne Hr']%not_elem_of_cons. rewrite (Hout r') by done. cbn. by rewrite fset_other.
    + intros p q sl. rewrite Hch. cbn [s1 nt_ch ch_after]. destruct (decide (p = r)) as [->|Hp].
      * rewrite (decide_False (P := r ∈ l)), (decide_True (P := r ∈ r :: l)) by set_solver. by rewrite app_nil_r.
      * f_equal. f_equal. apply decide_ext. set_solver.
Qed.

Lemma all_take l : ∀ s (tk : Z → list Msg) (Q : Z → Rank → Prop), NoDup l →
  (∀ r, r ∈ l → ∃ R, takes (nt_rk s r) (tk r) R ∧ Q r R) →
  (∀ p q sl, nt_ch s (p, q, sl) = datas (p, sl) (at_rank l q (tk q))) →
  ∃ s', rtc net_step s s' ∧ (∀ r, r ∈ l → Q r (nt_rk s' r)) ∧ (∀ r, r ∉ l → nt_rk s' r = nt_rk s r) ∧
    ∀ c, nt_ch s' c = [].
Proof.
  unfold at_rank. induction l as [|r l IH]; intros s tk Q Hnd H Hch.
  - exists s. split; [done|]. split; [set_solver|]. split; [done|]. intros [[p q] sl]. apply Hch.
  - apply NoDup_cons in Hnd as [Hr Hnd]. destruct (H r) as (R & He & HQ); [set_solver|].
    set (ch := λ '(p, q, sl), datas (p, sl) (at_rank l q (tk q))).
    pose proof (takes_run _ _ _ He (nt_rk s) ch r eq_refl) as Hrun.
    assert (mkNet (nt_rk s) (ch_before r (tk r) ch) = s) as Heq.
    { destruct s as [rk c]. cbn in *. f_equal. extensionality x. destruct x as [[p q] sl]. rewrite Hch.
      unfold ch_before, ch, at_rank. destruct (decide (q = r)) as [->|Hq].
      - rewrite (decide_False (P := r ∈ l)), (decide_True (P := r ∈ r :: l)) by set_solver. apply app_nil_r.
      - f_equal. apply decide_ext. set_solver. }
    rewrite Heq in Hrun. destruct (IH (mkNet (fset r R (nt_rk s)) ch) tk Q Hnd) as (s' & Hs & Hin & Hout & Hc).
    { intros r' Hr'. cbn. rewrite fset_other by set_solver. apply H. set_solver. }
    { done. }
    exists s'. split; [by etrans|]. split; [|split; [|done]].
    + intros r' [->|Hr']%elem_of_cons; [|by apply Hin]. rewrite (Hout r) by done. cbn. by rewrite fset_at.
    + intros r' [Hne Hr']%not_elem_of_cons. rewrite (Hout r') by done. cbn. by rewrite fset_other.
Qed.

(** A round: every process of [l] sends [ev] and then receives [tk]; the
    channels are empty before and after. *)
Definition rank_round (R : Rank) (ev tk : list Msg) (Q : Rank → Prop) : Prop :=
  ∃ R1 R2, emits R ev R1 ∧ takes R1 tk R2 ∧ Q R2.

Lemma net_round l s (ev tk : Z → list Msg) (Q : Z → Rank → Prop) :
  NoDup l → (∀ c, nt_ch s c = []) →
  (∀ r, r ∈ l → rank_round (nt_rk s r) (ev r) (tk r) (Q r)) →
  (∀ p q sl, datas (q, sl) (at_rank l p (ev p)) = datas (p, sl) (at_rank l q (tk q))) →
  ∃ s', rtc net_step s s' ∧ (∀ r, r ∈ l → Q r (nt_rk s' r)) ∧ (∀ r, r ∉ l → nt_rk s' r = nt_rk s r) ∧
    ∀ c, nt_ch s' c = [].
Proof.
  intros Hnd Hc H Hm.
  destruct (all_emit l s ev (λ r R1, ∃ R2, takes R1 (tk r) R2 ∧ Q r R2) Hnd) as (s1 & Hs1 & Hin & Hout & Hch).
  { intros r Hr. destruct (H r Hr) as (R1 & R2 & ? & ? & ?). exists R1. split; [done|]. by exists R2. }
  destruct (all_take l s1 tk Q Hnd Hin) as (s2 & Hs2 & Hin2 & Hout2 & Hch2).
  { intros p q sl. rewrite Hch, Hc, Hm. done. }
  exists s2. split; [by etrans|]. split; [done|]. split; [|done]. intros r Hr. by rewrite Hout2, Hout.
Qed.

(* ------------------------------------------------------------------ *)
(** * Rounds of posted operations *)

Definition locals : Rank → Rank → Prop := rtc (λ R R', local R = Some R').

Lemma emits_locals R R0 l R' : locals R R0 → emits R0 l R' → emits R l R'.
Proof. induction 1; eauto using emits. Qed.
Lemma takes_locals R l R1 R2 : takes R l R1 → locals R1 R2 → takes R l R2.
Proof.
  intros HT HL. rewrite <-(app_nil_r l). eapply takes_app; [done|]. clear HT. induction HL; eauto using takes.
Qed.

Lemma rank_round_pre R R0 ev tk Q : locals R R0 → rank_round R0 ev tk Q → rank_round R ev tk Q.
Proof. intros HL (R1 & R2 & He & Ht & HQ). exists R1, R2. split; [by eapply emits_locals|done]. Qed.
Lemma rank_round_post R ev tk (Q Q' : Rank → Prop) :
  rank_round R ev tk Q → (∀ R1, Q R1 → ∃ R2, locals R1 R2 ∧ Q' R2) → rank_round R ev tk Q'.
Proof.
  intros (R1 & R2 & He & Ht & HQ) H. destruct (H R2 HQ) as (R3 & HL & HQ'). exists R1, R3.
  split; [done|]. split; [by eapply takes_locals|done].
Qed.
Lemma rank_round_idle R (Q : Rank → Prop) R' : locals R R' → Q R' → rank_round R [] [] Q.
Proof. intros. exists R, R'. split; [constructor|]. split; [|done]. eapply takes_locals; [constructor|done]. Qed.

(** A process between rounds: nothing of its own is in transit. *)
Definition rank_at (p : list Act) (m : Mem) (cs cr : Z → nat) (R : Rank) : Prop :=
  ∃ h, R = mkRank p m [] [] cs cr h.

(** Operations that never wait. *)
Definition is_post (a : Act) : Prop := match a with Send _ | Recv _ | Compute _ _ _ => True | _ => False end.
Definition sends_of (acts : list Act) : list Xfer := omap (λ a, match a with Send x => Some x | _ => None end) acts.
Definition recvs_of (acts : list Act) : list Xfer := omap (λ a, match a with Recv x => Some x | _ => None end) acts.
Definition dsts_of (acts : list Act) : list Region :=
  omap (λ a, match a with Compute d _ _ => Some d | _ => None end) acts.
Definition srcs_of (acts : list Act) : list Region :=
  acts ≫= (λ a, match a with Compute _ _ srcs => srcs | _ => [] end).
Definition msg_of (m : Mem) (x : Xfer) : Msg := mkMsg (x_peer x) (x_slot x) (read m (x_reg x)).
Definition bumps (l : list Xfer) (c : Z → nat) : Z → nat := foldl (λ c x, bump (x_buf x) c) c l.
Definition receive (m : Mem) (x : Xfer) (d : Msg) : Mem := write m (x_reg x) (ms_data d).
Fixpoint receives (m : Mem) (l : list Xfer) (tk : list Msg) : Mem :=
  match l, tk with x :: l, d :: tk => receives (receive m x d) l tk | _, _ => m end.

Definition compute (m : Mem) (d : Region) (f : list (list Z) → list Z) (srcs : list Region) : Mem :=
  write m d (f (read m <$> srcs)).

(** The messages a sequence of operations sends, and the memory it leaves. *)
Fixpoint sent (m : Mem) (acts : list Act) : list Msg :=
  match acts with
  | [] => []
  | Send x :: acts => msg_of m x :: sent m acts
  | Compute d f srcs :: acts => sent (compute m d f srcs) acts
  | _ :: acts => sent m acts
  end.
Fixpoint mem_after (m : Mem) (acts : list Act) : Mem :=
  match acts with
  | [] => m
  | Compute d f srcs :: acts => mem_after (compute m d f srcs) acts
  | _ :: acts => mem_after m acts
  end.

(** A message for a posted receive, of its length. *)
Definition msg_for (x : Xfer) (d : Msg) : Prop :=
  ms_peer d = x_peer x ∧ ms_slot d = x_slot x ∧ Z.of_nat (length (ms_data d)) = rg_len (x_reg x).

Lemma posts_emit acts : ∀ p m pr cs cr h, Forall is_post acts →
  ∃ pr' h', pr'.*2 = recvs_of acts ∧
    emits (mkRank (acts ++ p) m [] pr cs cr h) (sent m acts)
      (mkRank p (mem_after m acts) [] (pr ++ pr') (bumps (sends_of acts) cs) cr h').
Proof.
  induction acts as [|a acts IH]; intros p m pr cs cr h Hp.
  - exists [], h. split; [done|]. rewrite app_nil_r. constructor.
  - apply Forall_cons in Hp as [Ha Hp]. destruct a as [x|x| | |d f srcs|]; try done.
    + destruct (IH p m pr (bump (x_buf x) cs) cr (hist_step (Send x) h) Hp) as (pr' & h' & ? & He).
      exists pr', h'. split; [done|]. eapply em_local; [done|]. eapply em_send; [|exact He].
      unfold transmit, on_chan. cbn. rewrite !Z.eqb_refl. done.
    + destruct (IH p m (pr ++ [(length (h_recvs h), x)]) cs cr (hist_step (Recv x) h) Hp) as (pr' & h' & Hpr & He).
      exists ((length (h_recvs h), x) :: pr'), h'. cbn. split; [by f_equal|]. eapply em_local; [done|].
      rewrite <-(assoc_L (++)) in He. exact He.
    + destruct (IH p (compute m d f srcs) pr cs cr h Hp) as (pr' & h' & ? & He).
      exists pr', h'. split; [done|]. eapply em_local; [done|exact He].
Qed.

Lemma region_len r n : n = rg_len r → mkRegion (rg_buf r) (rg_off r) n = r.
Proof. intros ->. by destruct r. Qed.

Lemma pending_take pr : ∀ tk p m ps cs cr h, Forall2 msg_for pr.*2 tk →
  takes (mkRank p m ps pr cs cr h) tk (mkRank p (receives m pr.*2 tk) ps [] cs (bumps pr.*2 cr) h).
Proof.
  induction pr as [|[j x] pr IH]; intros tk p m ps cs cr h H; cbn in H; inversion H as [|? d ? tk' Hd Htk]; subst.
  - constructor.
  - destruct d as [q sl dat]. destruct Hd as (Hq & Hsl & Hlen). cbn in Hq, Hsl, Hlen. subst.
    eapply tk_recv; [|by apply IH]. unfold deliver, on_chan. cbn. rewrite !Z.eqb_refl. cbn.
    rewrite decide_True by lia. do 2 f_equal. unfold receive. cbn. by rewrite (region_len (x_reg x)).
Qed.

Lemma rank_round_posts acts p m cs cr R tk :
  rank_at (acts ++ p) m cs cr R → Forall is_post acts → Forall2 msg_for (recvs_of acts) tk →
  rank_round R (sent m acts) tk
    (rank_at p (receives (mem_after m acts) (recvs_of acts) tk) (bumps (sends_of acts) cs) (bumps (recvs_of acts) cr)).
Proof.
  intros [h ->] Hp Htk. destruct (posts_emit acts p m [] cs cr h Hp) as (pr & h' & Hpr & He).
  exists (mkRank p (mem_after m acts) [] pr (bumps (sends_of acts) cs) cr h').
  exists (mkRank p (receives (mem_after m acts) pr.*2 tk) [] [] (bumps (sends_of acts) cs) (bumps pr.*2 cr) h').
  split; [exact He|]. split; [apply pending_take; by rewrite Hpr|]. rewrite <-Hpr. by exists h'.
Qed.

(** A process between rounds, with receives still pending. *)
Definition rank_in (L : list Xfer) (p : list Act) (m : Mem) (cs cr : Z → nat) (R : Rank) : Prop :=
  ∃ pr h, pr.*2 = L ∧ R = mkRank p m [] pr cs cr h.

Lemma rank_at_in p m cs cr R : rank_at p m cs cr R ↔ rank_in [] p m cs cr R.
Proof.
  split; [intros [h ->]; by exists [], h|]. intros (pr & h & Hpr & ->). apply fmap_nil_inv in Hpr as ->. by exists h.
Qed.

(** Waits and computations. *)
Lemma local_waitSend L b p m cs cr R :
  rank_in L (WaitSend b :: p) m cs cr R → cs b ≠ O → ∃ R', local R = Some R' ∧ rank_in L p m (unbump b cs) cr R'.
Proof. intros (pr & h & Hpr & ->) Hb. unfold local. cbn. rewrite decide_False by done. eexists. split; [done|]. by eexists _, _. Qed.
Lemma local_waitRecv L b p m cs cr R :
  rank_in L (WaitRecv b :: p) m cs cr R → cr b ≠ O → ∃ R', local R = Some R' ∧ rank_in L p m cs (unbump b cr) R'.
Proof. intros (pr & h & Hpr & ->) Hb. unfold local. cbn. rewrite decide_False by done. eexists. split; [done|]. by eexists _, _. Qed.
Lemma local_compute L d f srcs p m cs cr R :
  rank_in L (Compute d f srcs :: p) m cs cr R →
  ∃ R', local R = Some R' ∧ rank_in L p (compute m d f srcs) cs cr R'.
Proof. intros (pr & h & Hpr & ->). eexists. split; [done|]. by eexists _, _. Qed.

Lemma unbump_bump b c : unbump b (bump b c) = c.
Proof. extensionality x. unfold bump, unbump. by case_decide. Qed.
Lemma bump_ne_O b c : bump b c b ≠ O.
Proof. unfold bump. by rewrite decide_True. Qed.

(** What a program can do on its own from between two rounds. *)
Definition reaches (p : list Act) (m : Mem) (cs cr : Z → nat) (p' : list Act) (m' : Mem) (cs' cr' : Z → nat) : Prop :=
  ∀ L R, rank_in L p m cs cr R → ∃ R', locals R R' ∧ rank_in L p' m' cs' cr' R'.

Lemma reaches_at p m cs cr p' m' cs' cr' R : reaches p m cs cr p' m' cs' cr' → rank_at p m cs cr R →
  ∃ R', locals R R' ∧ rank_at p' m' cs' cr' R'.
Proof.
  intros H HR%rank_at_in. destruct (H _ _ HR) as (R' & HL & HR'%rank_at_in). by exists R'.
Qed.

Lemma reaches_refl p m cs cr : reaches p m cs cr p m cs cr.
Proof. intros L R HR. by exists R. Qed.
Lemma reaches_trans p m cs cr p1 m1 cs1 cr1 p2 m2 cs2 cr2 :
  reaches p m cs cr p1 m1 cs1 cr1 → reaches p1 m1 cs1 cr1 p2 m2 cs2 cr2 → reaches p m cs cr p2 m2 cs2 cr2.
Proof.
  intros H1 H2 L R HR. destruct (H1 L R HR) as (R1 & ? & HR1). destruct (H2 L R1 HR1) as (R2 & ? & ?).
  exists R2. split; [by etrans|done].
Qed.
Lemma reaches_waitSend b p m cs cr : reaches (WaitSend b :: p) m (bump b cs) cr p m cs cr.
Proof.
  intros L R HR. destruct (local_waitSend _ _ _ _ _ _ _ HR (bump_ne_O b cs)) as (R' & HL & HR').
  rewrite unbump_bump in HR'. exists R'. split; [by apply rtc_once|done].
Qed.
Lemma reaches_waitRecv b p m cs cr : reaches (WaitRecv b :: p) m cs (bump b cr) p m cs cr.
Proof.
  intros L R HR. destruct (local_waitRecv _ _ _ _ _ _ _ HR (bump_ne_O b cr)) as (R' & HL & HR').
  rewrite unbump_bump in HR'. exists R'. split; [by apply rtc_once|done].
Qed.
Lemma reaches_compute d f srcs p m cs cr :
  reaches (Compute d f srcs :: p) m cs cr p (compute m d f srcs) cs cr.
Proof.
  intros L R HR. destruct (local_compute _ _ _ _ _ _ _ _ _ HR) as (R' & HL & HR'). exists R'.
  split; [by apply rtc_once|done].
Qed.

(** The end of a collective: every process has run its program. *)
Lemma computes_at progs mems (post : (Z → Mem) → Prop) s (M : Z → Mem) :
  (∀ r, clean hist0 (progs r)) → rtc net_step (net_init progs mems) s →
  (∀ r, ∃ cs cr, rank_at [] (M r) cs cr (nt_rk s r)) → post M → computes progs mems post.
Proof.
  intros Hc Hs Hr Hp. eapply computes_intro; [done|done| |].
  - intros r. destruct (Hr r) as (cs & cr & h & ->). done.
  - assert ((λ r, rs_mem (nt_rk s r)) = M) as ->; [|done]. extensionality r.
    by destruct (Hr r) as (cs & cr & h & ->).
Qed.

(* ------------------------------------------------------------------ *)
(** * Showing that programs are clean *)

Lemma clean_app p q : ∀ h, clean h (p ++ q) ↔ clean h p ∧ clean (hist_run p h) q.
Proof.
  induction p as [|a p IH]; intros h; [split; [done|by intros [_ ?]]|]. cbn. rewrite IH. tauto.
Qed.

Lemma hist_run_app p q h : hist_run (p ++ q) h = hist_run q (hist_run p h).
Proof. unfold hist_run. apply fold_left_app. Qed.

Lemma apart_len0 r r' : rg_len r' ≤ 0 → apart r r'.
Proof. intros Hl b i _ [_ ?]. lia. Qed.
Lemma apart_buf r r' : rg_buf r ≠ rg_buf r' → apart r r'.
Proof. intros Hb b i [-> _] [? _]. congruence. Qed.
Lemma apart_off r r' : rg_off r + rg_len r ≤ rg_off r' ∨ rg_off r' + rg_len r' ≤ rg_off r → apart r r'.
Proof. intros Ho b i [_ ?] [_ ?]. lia. Qed.

Lemma clear_recvs_all h r : (∀ y, y ∈ h_recvs h → apart (x_reg y) r) → clear_of_recvs h r.
Proof. intros Ha j y [Hy _]. apply Ha. by eapply list_elem_of_lookup_2. Qed.
Lemma clear_sends_all h r : (∀ y, y ∈ h_sends h → apart (x_reg y) r) → clear_of_sends h r.
Proof. intros Ha j y [Hy _]. apply Ha. by eapply list_elem_of_lookup_2. Qed.

Lemma tail_pos h j x : h !! j = Some x → (0 < tail_count x (drop j h))%nat.
Proof.
  intros Hj. unfold tail_count. rewrite (drop_S _ _ _ Hj), filter_cons. rewrite decide_True by done. cbn. lia.
Qed.

(** An operation is not busy once its buffer has no operation left to wait
    for, or, in a buffer with one channel, once as many waits have passed. *)
Lemma busy_waited h w f j x : busy h w f j x → (w (x_buf x) < on_buf (x_buf x) h)%nat.
Proof. intros (Hj & Hb & _). pose proof (tail_pos _ _ _ Hj). lia. Qed.

Lemma on_buf_all b l : (∀ y, y ∈ l → x_buf y = b) → on_buf b l = length l.
Proof.
  unfold on_buf. induction l as [|y l IH]; intros H; [done|]. rewrite filter_cons, decide_True by (apply H; set_solver).
  cbn. f_equal. apply IH. set_solver.
Qed.

Lemma tail_fifo x l :
  (∀ y, y ∈ l → x_buf y = x_buf x → same_chan x y) → tail_count x l = on_buf (x_buf x) l.
Proof.
  unfold tail_count, on_buf. induction l as [|y l IH]; intros Hf; [done|]. rewrite !filter_cons.
  assert (length (filter (λ y, same_chan x y ∧ x_buf y = x_buf x) l) = length (filter (λ y, x_buf y = x_buf x) l)) as E.
  { apply IH. intros z Hz. apply Hf. set_solver. }
  assert (x_buf y = x_buf x → same_chan x y) by (apply Hf; set_solver).
  repeat case_decide; cbn [length]; tauto || lia.
Qed.

Lemma busy_fifo h w f j x :
  busy h w f j x → (∀ y, y ∈ h → x_buf y = x_buf x → same_chan x y) → (w (x_buf x) ≤ on_buf (x_buf x) (take j h))%nat.
Proof.
  intros (Hj & Hb & _) Hf. assert (tail_count x (drop j h) = on_buf (x_buf x) (drop j h)) as Ht.
  { apply tail_fifo. intros y Hy. apply Hf. apply list_elem_of_lookup in Hy as (i & Hi).
    rewrite lookup_drop in Hi. by eapply list_elem_of_lookup_2. }
  rewrite Ht in Hb. rewrite <-(take_drop j h) in Hb at 2. rewrite on_buf_app in Hb. lia.
Qed.

(** Nothing is busy. *)
Definition idle (h : Hist) : Prop :=
  ∀ b, (on_buf b (h_sends h) ≤ h_ws h b)%nat ∧ (on_buf b (h_recvs h) ≤ h_wr h b)%nat.
Lemma idle_recvs h r : idle h → clear_of_recvs h r.
Proof. intros Hi j y Hb%busy_waited. destruct (Hi (x_buf y)). lia. Qed.
Lemma idle_sends h r : idle h → clear_of_sends h r.
Proof. intros Hi j y Hb%busy_waited. destruct (Hi (x_buf y)). lia. Qed.
Lemma idle0 : idle hist0.
Proof. by split. Qed.

Lemma clean_empty p : Forall (λ a, match a with Send x | Recv x => rg_len (x_reg x) ≤ 0 | Compute _ _ _ => False
  | _ => True end) p → ∀ h, clean h p.
Proof.
  induction 1 as [|a p Ha _ IH]; intros h; [done|]. split; [|apply IH].
  destruct a; cbn in *; [|split| | |done|done]; try done; intros j y _; by apply apart_len0.
Qed.

(* ------------------------------------------------------------------ *)
(** * What was received was sent *)

Definition cnt (c : Z * Z) (l : list Xfer) : nat := length (filter (λ x, (x_peer x, x_slot x) = c) l).
#[global] Arguments cnt : simpl never.
Lemma cnt_app c l k : cnt c (l ++ k) = (cnt c l + cnt c k)%nat.
Proof. unfold cnt. by rewrite filter_app, length_app. Qed.
Lemma cnt_one c x : cnt c [x] = if decide ((x_peer x, x_slot x) = c) then 1%nat else O.
Proof. unfold cnt. rewrite filter_cons, filter_nil. by case_decide. Qed.

(** Of every channel: what its sender posted and has not handed over, what is
    on the way, what its receiver posted and has not received. *)
Definition flow (s : Net) : Prop := ∀ p q sl,
  (cnt (q, sl) (h_sends (rs_h (nt_rk s p))) + cnt (p, sl) (rs_pr (nt_rk s q)).*2 =
   cnt (q, sl) (rs_ps (nt_rk s p)).*2 + length (nt_ch s (p, q, sl)) + cnt (p, sl) (h_recvs (rs_h (nt_rk s q))))%nat.

Lemma local_flow R R' c : local R = Some R' →
  (cnt c (h_sends (rs_h R')) + cnt c (rs_ps R).*2 = cnt c (h_sends (rs_h R)) + cnt c (rs_ps R').*2)%nat ∧
  (cnt c (h_recvs (rs_h R')) + cnt c (rs_pr R).*2 = cnt c (h_recvs (rs_h R)) + cnt c (rs_pr R').*2)%nat.
Proof.
  unfold local. destruct R as [[|a p] mem ps pr cs cr h]; [done|].
  destruct a; cbn; try case_decide; try done; intros [= <-]; cbn; rewrite ?fmap_app, ?cnt_app; split; cbn; lia.
Qed.

Lemma pick_cnt c q sl (l l' : list (nat * Xfer)) x :
  pick (on_chan q sl) l = Some (x, l') →
  cnt c l.*2 = (cnt c l'.*2 + if decide ((q, sl) = c) then 1 else 0)%nat.
Proof.
  intros (l1 & l2 & -> & -> & Hx & _)%pick_Some. unfold on_chan in Hx.
  apply andb_true_iff in Hx as [Hq%Z.eqb_eq Hs%Z.eqb_eq].
  rewrite !fmap_app, fmap_cons. change (x.2 :: l2.*2) with ([x.2] ++ l2.*2). rewrite !cnt_app, cnt_one, Hq, Hs. lia.
Qed.

Lemma transmit_flow R R' q sl d c : transmit q sl R = Some (d, R') →
  rs_h R' = rs_h R ∧ rs_pr R' = rs_pr R ∧
  cnt c (rs_ps R).*2 = (cnt c (rs_ps R').*2 + if decide ((q, sl) = c) then 1 else 0)%nat.
Proof.
  unfold transmit. destruct (pick _ _) as [[x ps]|] eqn:Hp; [|done]. intros [= <- <-]. split; [done|]. split; [done|].
  by apply (pick_cnt c) in Hp.
Qed.

Lemma deliver_flow R R' q sl d c : deliver q sl d R = Some R' →
  rs_h R' = rs_h R ∧ rs_ps R' = rs_ps R ∧
  cnt c (rs_pr R).*2 = (cnt c (rs_pr R').*2 + if decide ((q, sl) = c) then 1 else 0)%nat.
Proof.
  unfold deliver. destruct (pick _ _) as [[x pr]|] eqn:Hp; [|done]. cbn [mbind option_bind].
  case_decide; [|done]. intros [= <-]. split; [done|]. split; [done|]. by apply (pick_cnt c) in Hp.
Qed.

Lemma exec_flow l s s' : exec l s = Some s' → flow s → flow s'.
Proof.
  intros Hl Hf p q sl. pose proof (Hf p q sl) as H. destruct l as [r|p0 q0 sl0|p0 q0 sl0]; cbn in Hl.
  - destruct (local (nt_rk s r)) as [R|] eqn:E; [|done]. injection Hl as <-. cbn.
    destruct (local_flow _ _ (q, sl) E) as [H1 _], (local_flow _ _ (p, sl) E) as [_ H2].
    unfold fset. repeat case_decide; subst; lia.
  - destruct (transmit _ _ _) as [[d R]|] eqn:E; [|done]. injection Hl as <-. cbn.
    destruct (transmit_flow _ _ _ _ _ (q, sl) E) as (H1 & H2 & H3). unfold fset.
    repeat case_decide; simplify_eq; rewrite ?H1, ?H2, ?length_app; cbn [length]; lia.
  - destruct (nt_ch s _) as [|d ds] eqn:Hd; [done|]. destruct (deliver _ _ _ _) as [R|] eqn:E; [|done].
    injection Hl as <-. cbn. destruct (deliver_flow _ _ _ _ _ (p, sl) E) as (H1 & H2 & H3). unfold fset.
    repeat case_decide; simplify_eq; rewrite ?H1, ?H2, ?Hd in *; cbn [length] in *; lia.
Qed.

(** Properties of every reachable state of clean programs. *)
Lemma reachable_ind progs mems (P : Net → Prop) :
  (∀ r, clean hist0 (progs r)) → P (net_init progs mems) →
  (∀ s s' l, net_ok s → flow s → P s → exec l s = Some s' → P s') →
  ∀ s, rtc net_step (net_init progs mems) s → P s.
Proof.
  intros Hc H0 HS s Hs. assert (net_ok s ∧ flow s ∧ P s) as (_ & _ & ?); [|done].
  revert s Hs. apply rtc_ind_r.
  - split; [intros r; by apply rank_init_ok|]. split; [by intros p q sl|done].
  - intros s s' Hs [l Hl] (Hok & Hf & HP). split; [by eapply exec_ok|]. split; [by eapply exec_flow|by eapply HS].
Qed.
