(* ===== verification/Groups.v ===== *)
(** Groups of processes: who is in a group, neighbours on a ring, checks and
    copies in the programs of collectives, and collectives that exchange all
    their messages in one round. *)
From Stdlib Require Import FunctionalExtensionality.
From S2P Require Import Prelude Net NetRun.

(** The program of each process of a group. *)
Definition group {A} (size : Z) (prog : Z → list A) (r : Z) : list A :=
  if decide (0 ≤ r < size) then prog r else [].

Definition ranks (size : Z) : list Z := seqZ 0 size.
Lemma elem_ranks size r : r ∈ ranks size ↔ 0 ≤ r < size.
Proof. unfold ranks. rewrite elem_of_seqZ. lia. Qed.

Lemma peer_recv size (Hsize : 1 ≤ size < 2 ^ 31) r d : 0 ≤ r < size → 0 ≤ d ≤ size →
  u64 (size + r - d) `mod` size = (r - d) `mod` size ∧ u64 (size + r + d) `mod` size = (r + d) `mod` size.
Proof.
  intros Hr Hd. rewrite !wrap_small by (unfold in_range; lia). split.
  - replace (size + r - d) with (r - d + 1 * size) by lia. by apply Z.mod_add; lia.
  - replace (size + r + d) with (r + d + 1 * size) by lia. by apply Z.mod_add; lia.
Qed.

(** [q] is where [p] sends exactly if [p] is where [q] receives from. *)
Lemma peer_inverse size p q d : 0 ≤ p < size → 0 ≤ q < size →
  ((p + d) `mod` size = q ↔ (q - d) `mod` size = p).
Proof.
  intros Hp Hq. split; intros <-.
  - rewrite Zminus_mod_idemp_l. replace (p + d - d) with p by lia. by apply Z.mod_small.
  - rewrite Zplus_mod_idemp_l. replace (q - d + d) with q by lia. by apply Z.mod_small.
Qed.

Lemma mod_shift_inj size p a b : 0 ≤ a < size → 0 ≤ b < size → (p + a) `mod` size = (p + b) `mod` size → a = b.
Proof.
  intros Ha Hb H. rewrite <-(Z.mod_small a size), <-(Z.mod_small b size) by done.
  replace a with (p + a - p) by lia. replace b with (p + b - p) by lia.
  by rewrite <-(Zminus_mod_idemp_l (p + a)), <-(Zminus_mod_idemp_l (p + b)), H.
Qed.

Lemma peer_neq size r a b : 0 ≤ a < size → 0 ≤ b < size → (r - a) `mod` size = (r - b) `mod` size → a = b.
Proof.
  intros Ha Hb H. pose proof (peer_inverse size ((r - a) `mod` size) (r `mod` size) a) as H1.
  assert (0 < size) as Hs by lia. pose proof (Z.mod_pos_bound (r - a) size Hs). pose proof (Z.mod_pos_bound r size Hs).
  apply (mod_shift_inj size ((r - a) `mod` size)); [done|done|]. rewrite H at 2. rewrite !Zplus_mod_idemp_l.
  f_equal. lia.
Qed.

Lemma group_clean size prog : (∀ r, 0 ≤ r < size → clean hist0 (prog r)) → ∀ r, clean hist0 (group size prog r).
Proof. intros Hc r. unfold group. case_decide; [by apply Hc|done]. Qed.

Lemma group_at size prog mems r : 0 ≤ r < size →
  rank_at (prog r) (mems r) (λ _, O) (λ _, O) (nt_rk (net_init (group size prog) mems) r).
Proof. intros Hr. exists hist0. cbn. unfold group. by rewrite decide_True. Qed.

Lemma group_out size prog mems r : ¬ 0 ≤ r < size →
  rank_at [] (mems r) (λ _, O) (λ _, O) (nt_rk (net_init (group size prog) mems) r).
Proof. intros Hr. exists hist0. cbn. unfold group. by rewrite decide_False. Qed.

Lemma group_computes size prog mems post s M :
  (∀ r, 0 ≤ r < size → clean hist0 (prog r)) →
  rtc net_step (net_init (group size prog) mems) s →
  (∀ r, r ∉ ranks size → nt_rk s r = nt_rk (net_init (group size prog) mems) r) →
  (∀ r, r ∈ ranks size → ∃ cs cr, rank_at [] (M r) cs cr (nt_rk s r)) →
  post (λ r, if decide (0 ≤ r < size) then M r else mems r) → computes (group size prog) mems post.
Proof.
  intros Hc Hs Hout Hin Hp. apply (computes_at _ _ _ s (λ r, if decide (0 ≤ r < size) then M r else mems r));
    [by apply group_clean|exact Hs| |exact Hp]. intros r.
  destruct (decide (0 ≤ r < size)) as [Hr|Hr]; [by apply Hin, elem_ranks|]. rewrite Hout by by rewrite elem_ranks.
  exists (λ _, O), (λ _, O). by apply group_out.
Qed.

(* ------------------------------------------------------------------ *)
(** * Writing programs *)

(** [GLOO_ENFORCE(b)] *)
Definition check (b : bool) : list Act := if b then [] else [Stop (Some EnforceNotMet)].
(** [memcpy(dst, src, n)] *)
Definition copy (dst src : Region) : Act := Compute dst (λ l, hd [] l) [src].
(** A buffer that has to be there. *)
Definition needs (b : option Z) (k : Z → list Act) : list Act :=
  match b with Some b => k b | None => [Stop (Some EnforceNotMet)] end.
(** A buffer dereferenced without a check. *)
Definition deref (b : option Z) (k : Z → list Act) : list Act :=
  match b with Some b => k b | None => [Stop None] end.
(** A vector indexed without a check. *)
Definition indexed (l : list Z) (i : Z) (k : Z → list Act) : list Act :=
  match l !! Z.to_nat i with Some x => k x | None => [Stop None] end.
(** [setElementSize(elementSize)] of the options of collectives: [cur] is the
    size set before, 0 when none was. *)
Definition setElementSize (cur elementSize : Z) : outcome Z :=
  if cur =? 0 then Val elementSize else _ ← enforce (elementSize =? cur); Val cur.
(** [for (i = 0; i < context->size; i++) { if (i == context->rank) continue; ... }] *)
Definition others (rank size : Z) : list Z := filter (λ i, i ≠ rank) (seqZ 0 size).

Lemma elem_others rank size i : i ∈ others rank size ↔ 0 ≤ i < size ∧ i ≠ rank.
Proof. unfold others. rewrite list_elem_of_filter, elem_of_seqZ. lia. Qed.
Lemma NoDup_others rank size : NoDup (others rank size).
Proof. apply NoDup_filter, NoDup_seqZ. Qed.

(* ------------------------------------------------------------------ *)
(** * Sequences of waits *)

Definition is_wait (a : Act) : Prop := match a with WaitSend _ | WaitRecv _ => True | _ => False end.
Definition one (b b' : Z) : nat := if decide (b' = b) then 1%nat else O.
Fixpoint waits_send (b : Z) (ws : list Act) : nat :=
  match ws with [] => O | WaitSend b' :: ws => (one b b' + waits_send b ws)%nat | _ :: ws => waits_send b ws end.
Fixpoint waits_recv (b : Z) (ws : list Act) : nat :=
  match ws with [] => O | WaitRecv b' :: ws => (one b b' + waits_recv b ws)%nat | _ :: ws => waits_recv b ws end.

(** Waits pass when enough operations have completed. *)
Lemma reaches_waits ws p m : Forall is_wait ws → ∀ cs cr cs' cr',
  (∀ b, cs b = (waits_send b ws + cs' b)%nat) → (∀ b, cr b = (waits_recv b ws + cr' b)%nat) →
  reaches (ws ++ p) m cs cr p m cs' cr'.
Proof.
  induction 1 as [|a ws Ha _ IH]; intros cs cr cs' cr' Hs Hr.
  - assert (cs = cs') as -> by (extensionality b; apply Hs). assert (cr = cr') as -> by (extensionality b; apply Hr).
    apply reaches_refl.
  - destruct a as [| |b|b| |]; try done; cbn in Hs, Hr.
    + assert (cs = bump b (unbump b cs)) as ->.
      { extensionality b'. specialize (Hs b'). unfold bump, unbump, one in *. repeat case_decide; subst; try done; lia. }
      eapply reaches_trans; [apply reaches_waitSend|]. apply IH; [|done]. intros b'. specialize (Hs b').
      unfold unbump, one in *. case_decide; case_decide; subst; try done; lia.
    + assert (cr = bump b (unbump b cr)) as ->.
      { extensionality b'. specialize (Hr b'). unfold bump, unbump, one in *. repeat case_decide; subst; try done; lia. }
      eapply reaches_trans; [apply reaches_waitRecv|]. apply IH; [done|]. intros b'. specialize (Hr b').
      unfold unbump, one in *. case_decide; case_decide; subst; try done; lia.
Qed.

Lemma clean_waits ws : Forall is_wait ws → ∀ h, clean h ws.
Proof. induction 1 as [|a ws Ha _ IH]; intros h; [done|]. split; [by destruct a|apply IH]. Qed.

Lemma bumps_count l c b : bumps l c b = (on_buf b l + c b)%nat.
Proof.
  unfold bumps, on_buf. revert c. induction l as [|x l IH]; intros c; [done|]. cbn [foldl]. rewrite IH, filter_cons.
  unfold bump. repeat case_decide; cbn [length]; try congruence; lia.
Qed.

(* ------------------------------------------------------------------ *)
(** * Posted operations on regions that are apart *)

Definition regions_apart : list Xfer → Prop := StronglySorted (λ x y, apart (x_reg x) (x_reg y)).

Lemma clean_posts acts : ∀ h,
  regions_apart (h_recvs h ++ recvs_of acts) →
  (∀ x y, x ∈ h_sends h ++ sends_of acts → y ∈ h_recvs h ++ recvs_of acts → apart (x_reg x) (x_reg y)) →
  (∀ d x, d ∈ dsts_of acts → x ∈ h_sends h ++ sends_of acts → apart (x_reg x) d) →
  (∀ r x, r ∈ dsts_of acts ++ srcs_of acts → x ∈ h_recvs h ++ recvs_of acts → apart (x_reg x) r) →
  clean h acts.
Proof.
  induction acts as [|a acts IH]; intros h Hr Hsr Hds Hrs; [done|].
  destruct a as [x|x|b|b|d f srcs|e]; cbn in *; [| |split; [done|by apply IH]..| |split; [done|by apply IH]].
  - split; [|apply IH; cbn; by rewrite <-?(assoc_L (++))].
    apply clear_recvs_all. intros y Hy. apply apart_sym. apply Hsr; set_solver.
  - split; [split|apply IH; cbn; by rewrite <-?(assoc_L (++))].
    + apply clear_recvs_all. intros y Hy. eapply (StronglySorted_app_1_elem_of _ _ _ y x Hr); set_solver.
    + apply clear_sends_all. intros y Hy. apply Hsr; set_solver.
  - split; [split_and!|apply IH; cbn; [done|done|set_solver|]].
    + apply clear_recvs_all. intros y Hy. apply Hrs; set_solver.
    + apply clear_sends_all. intros y Hy. apply Hds; set_solver.
    + apply Forall_forall. intros r Hr'. apply clear_recvs_all. intros y Hy. apply Hrs; set_solver.
    + intros r y Hr' Hy. apply Hrs; [|done]. set_solver.
Qed.

(** At the start of a program, with its lists of operations. *)
Lemma clean_posts0 acts sends recvs dsts srcs :
  sends_of acts = sends → recvs_of acts = recvs → dsts_of acts = dsts → srcs_of acts = srcs →
  regions_apart recvs →
  (∀ x y, x ∈ sends → y ∈ recvs → apart (x_reg x) (x_reg y)) →
  (∀ d x, d ∈ dsts → x ∈ sends → apart (x_reg x) d) →
  (∀ r x, r ∈ dsts ++ srcs → x ∈ recvs → apart (x_reg x) r) → clean hist0 acts.
Proof. intros <- <- <- <- ? ? ? ?. by apply clean_posts. Qed.

(** Computations that leave the regions sent alone. *)
Lemma sent_apart acts : ∀ m, (∀ d x, d ∈ dsts_of acts → x ∈ sends_of acts → apart d (x_reg x)) →
  sent m acts = msg_of m <$> sends_of acts.
Proof.
  induction acts as [|a acts IH]; intros m Ha; [done|]. destruct a as [x| | | |d f srcs|]; cbn in *; try by apply IH.
  - f_equal. apply IH. set_solver.
  - rewrite IH by set_solver. apply list_fmap_ext. intros i x Hx. unfold msg_of, compute. f_equal.
    apply read_write, Ha; [set_solver|]. by eapply list_elem_of_lookup_2.
Qed.

(** What a sequence of receives leaves in memory. *)

Lemma receives_out l : ∀ tk m r, (∀ x, x ∈ l → apart (x_reg x) r) → read (receives m l tk) r = read m r.
Proof.
  induction l as [|x l IH]; intros [|d tk] m r Ha; try done. cbn. rewrite IH by set_solver.
  unfold receive. apply read_write, Ha. set_solver.
Qed.

Lemma receives_in l : ∀ tk m i x d, regions_apart l → Forall2 msg_for l tk → l !! i = Some x → tk !! i = Some d →
  read (receives m l tk) (x_reg x) = ms_data d.
Proof.
  induction l as [|y l IH]; intros tk m i x d Ha Hm Hx Hd; [done|].
  inversion Hm as [|? e ? tk' He Htk]; subst. apply StronglySorted_inv in Ha as [Hs Hf]. cbn.
  destruct i as [|i]; cbn in Hx, Hd; [|by eapply IH].
  injection Hx as ->. injection Hd as ->. rewrite receives_out.
  - unfold receive. apply read_write_same. apply He.
  - intros z Hz. apply apart_sym. rewrite Forall_forall in Hf. by apply Hf.
Qed.

(* ------------------------------------------------------------------ *)
(** * Collectives of one round

    Every process [r] posts sends to [sp r] from the regions [xs r] and
    receives from [rp r] into the regions [ro r], then waits for all. *)

Lemma datas_map c (slot : Z) (f : Z → list Z) l : NoDup l →
  datas c ((λ q, mkMsg q slot (f q)) <$> l) = if decide (slot = c.2 ∧ c.1 ∈ l) then [f c.1] else [].
Proof.
  destruct c as [q sl]. cbn [fst snd]. induction 1 as [|q' l Hni Hnd IH].
  - rewrite decide_False; [done|]. set_solver.
  - rewrite fmap_cons, datas_cons, IH. unfold on_msg. cbn [ms_peer ms_slot ms_data].
    destruct (decide (slot = sl)) as [->|Hs].
    + destruct (decide (q' = q)) as [->|Hq].
      * rewrite (decide_True (P := (q, sl) = (q, sl))) by done.
        rewrite (decide_False (P := sl = sl ∧ q ∈ l)), (decide_True (P := sl = sl ∧ q ∈ q :: l)) by set_solver. done.
      * rewrite (decide_False (P := (q', sl) = (q, sl))) by congruence. apply decide_ext. set_solver.
    + rewrite (decide_False (P := (q', slot) = (q, sl))) by congruence.
      rewrite !decide_False by naive_solver. done.
Qed.

Section exchange.
Context (size slot : Z) (sp rp : Z → list Z) (xs ro : Z → Z → Region).
Context (acts post : Z → list Act) (mems M : Z → Mem).

Definition in_group (r : Z) : Prop := 0 ≤ r < size.
Definition incoming (r : Z) : list Msg := (λ p, mkMsg p slot (read (mems p) (xs p r))) <$> rp r.
Definition posted_recvs (r : Z) : list Xfer := (λ p, mkXfer p slot (ro r p)) <$> rp r.
Definition posted_sends (r : Z) : list Xfer := (λ q, mkXfer q slot (xs r q)) <$> sp r.

Context (Hnd : ∀ r, in_group r → NoDup (sp r) ∧ NoDup (rp r)).
Context (Hin : ∀ p q, in_group p → (q ∈ sp p → in_group q) ∧ (q ∈ rp p → in_group q)).
Context (Hmatch : ∀ p q, in_group p → in_group q → (q ∈ sp p ↔ p ∈ rp q)).
Context (Hlen : ∀ p q, in_group p → q ∈ sp p → rg_len (xs p q) = rg_len (ro q p) ∧ 0 ≤ rg_len (ro q p)).
Context (Hposts : ∀ r, in_group r → Forall is_post (acts r) ∧
  sends_of (acts r) = posted_sends r ∧ recvs_of (acts r) = posted_recvs r).
Context (Hsent : ∀ r d x, in_group r → d ∈ dsts_of (acts r) → x ∈ posted_sends r → apart d (x_reg x)).
Context (Hend : ∀ r, in_group r →
  reaches (post r) (receives (mem_after (mems r) (acts r)) (posted_recvs r) (incoming r))
    (bumps (posted_sends r) (λ _, O)) (bumps (posted_recvs r) (λ _, O)) [] (M r) (λ _, O) (λ _, O)).
Context (Hclean : ∀ r, in_group r → clean hist0 (acts r ++ post r)).

Lemma incoming_for r : in_group r → Forall2 msg_for (posted_recvs r) (incoming r).
Proof.
  intros Hr. unfold posted_recvs, incoming. apply Forall2_fmap, Forall2_same_length_lookup_2; [done|].
  intros i p p' Hp Hp'. assert (p' = p) as -> by congruence. apply list_elem_of_lookup_2 in Hp.
  split; [done|]. split; [done|]. cbn. apply (Hin r p Hr) in Hp as Hpg.
  destruct (Hlen p r Hpg) as [Hl Hl0]; [by apply Hmatch|]. rewrite read_length by lia. done.
Qed.

Lemma exchange_sent r : in_group r →
  sent (mems r) (acts r) = (λ q, mkMsg q slot (read (mems r) (xs r q))) <$> sp r.
Proof.
  intros Hr. destruct (Hposts r Hr) as (_ & Hs & _). rewrite sent_apart.
  - rewrite Hs. unfold posted_sends. by rewrite <-list_fmap_compose.
  - intros d x Hd Hx. rewrite Hs in Hx. by eapply Hsent.
Qed.

Lemma exchange_matched p q sl :
  datas (q, sl) (at_rank (ranks size) p (sent (mems p) (acts p))) = datas (p, sl) (at_rank (ranks size) q (incoming q)).
Proof.
  unfold at_rank, incoming. destruct (decide (p ∈ ranks size)) as [Hp%elem_ranks|Hp],
    (decide (q ∈ ranks size)) as [Hq%elem_ranks|Hq]; [| | |done].
  - rewrite exchange_sent by done. rewrite !datas_map by by apply Hnd. cbn [fst snd]. apply decide_ext. by rewrite Hmatch.
  - rewrite exchange_sent by done. rewrite datas_map by by apply Hnd. rewrite decide_False; [done|].
    intros [_ H]. by apply Hq, elem_ranks, (proj1 (Hin p q Hp)).
  - rewrite datas_map by by apply Hnd. rewrite decide_False; [done|].
    intros [_ H]. by apply Hp, elem_ranks, (proj2 (Hin q p Hq)).
Qed.

Lemma exchange_computes :
  computes (group size (λ r, acts r ++ post r)) mems (λ mems', ∀ r, in_group r → mems' r = M r).
Proof.
  set (s := net_init (group size (λ r, acts r ++ post r)) mems).
  destruct (net_round (ranks size) s (λ r, sent (mems r) (acts r)) incoming
    (λ r R, rank_at [] (M r) (λ _, O) (λ _, O) R)) as (s' & Hs & HR & Hout & _).
  - apply NoDup_seqZ.
  - done.
  - intros r Hr%elem_ranks. pose proof (group_at size (λ r, acts r ++ post r) mems r Hr) as H0.
    destruct (Hposts r Hr) as (Hp & Hs & Hrv).
    eapply rank_round_post; [apply (rank_round_posts (acts r) _ _ _ _ _ (incoming r) H0 Hp)|].
    + rewrite Hrv. by apply incoming_for.
    + intros R2 HR2. rewrite Hs, Hrv in HR2. by apply (reaches_at _ _ _ _ _ _ _ _ _ (Hend r Hr)).
  - apply exchange_matched.
  - eapply group_computes; [exact Hclean|exact Hs|done| |].
    + intros r Hr. exists (λ _, O), (λ _, O). by apply HR.
    + intros r Hr. by rewrite decide_True.
Qed.
End exchange.

(* ------------------------------------------------------------------ *)
(** * Maps of operations *)

Lemma bind_ext_all {A B} (f g : A → list B) l : (∀ x, f x = g x) → l ≫= f = l ≫= g.
Proof. intros Hfg. induction l as [|x l IH]; [done|]. cbn. rewrite Hfg. by f_equal. Qed.

Lemma bind_ext_elem {A B} (f g : A → list B) l : (∀ x, x ∈ l → f x = g x) → l ≫= f = l ≫= g.
Proof. induction l as [|x l IH]; intros Hfg; [done|]. cbn. rewrite Hfg by set_solver. f_equal. apply IH. set_solver. Qed.

Lemma bind_map {A B C} (g : B → C) (f : A → list B) l : l ≫= (λ k, g <$> f k) = g <$> (l ≫= f).
Proof. induction l as [|k l IH]; [done|]. cbn [mbind list_bind]. by rewrite fmap_app, IH. Qed.

Lemma sends_of_app p q : sends_of (p ++ q) = sends_of p ++ sends_of q.
Proof. apply omap_app. Qed.
Lemma recvs_of_app p q : recvs_of (p ++ q) = recvs_of p ++ recvs_of q.
Proof. apply omap_app. Qed.
Lemma dsts_of_app p q : dsts_of (p ++ q) = dsts_of p ++ dsts_of q.
Proof. apply omap_app. Qed.
Lemma sends_of_map {A} (f : A → Xfer) l : sends_of ((λ i, Send (f i)) <$> l) = f <$> l.
Proof. induction l as [|x l IH]; [done|]. cbn. by f_equal. Qed.
Lemma sends_of_map_recv {A} (f : A → Xfer) l : sends_of ((λ i, Recv (f i)) <$> l) = [].
Proof. by induction l. Qed.
Lemma recvs_of_map {A} (f : A → Xfer) l : recvs_of ((λ i, Recv (f i)) <$> l) = f <$> l.
Proof. induction l as [|x l IH]; [done|]. cbn. by f_equal. Qed.
Lemma recvs_of_map_send {A} (f : A → Xfer) l : recvs_of ((λ i, Send (f i)) <$> l) = [].
Proof. by induction l. Qed.
Lemma posts_map {A} (f : A → Act) l : (∀ i, is_post (f i)) → Forall is_post (f <$> l).
Proof. intros Hf. apply Forall_fmap, Forall_forall. intros x _. apply Hf. Qed.
Lemma waits_map {A} (f : A → Act) l : (∀ i, is_wait (f i)) → Forall is_wait (f <$> l).
Proof. intros Hf. apply Forall_fmap, Forall_forall. intros x _. apply Hf. Qed.

(** Waits of a loop. *)
Lemma waits_recv_map {A} b b' (l : list A) : waits_recv b ((λ _, WaitRecv b') <$> l) = if decide (b' = b) then length l else O.
Proof. induction l as [|x l IH]; cbn; [by destruct (decide (b' = b))|]. rewrite IH. unfold one. by destruct (decide (b' = b)). Qed.
Lemma waits_send_map {A} b b' (l : list A) : waits_send b ((λ _, WaitSend b') <$> l) = if decide (b' = b) then length l else O.
Proof. induction l as [|x l IH]; cbn; [by destruct (decide (b' = b))|]. rewrite IH. unfold one. by destruct (decide (b' = b)). Qed.
Lemma waits_recv_sends {A} b b' (l : list A) : waits_recv b ((λ _, WaitSend b') <$> l) = O.
Proof. by induction l. Qed.
Lemma waits_send_recvs {A} b b' (l : list A) : waits_send b ((λ _, WaitRecv b') <$> l) = O.
Proof. by induction l. Qed.
Lemma waits_send_replicate b b' n : waits_send b (replicate n (WaitSend b')) = if decide (b = b') then n else O.
Proof. induction n as [|n IH]; cbn; [by case_decide|]. rewrite IH. unfold one. by destruct (decide (b' = b)), (decide (b = b')). Qed.
Lemma waits_recv_replicate b b' n : waits_recv b (replicate n (WaitSend b')) = O.
Proof. by induction n. Qed.
Lemma on_buf_map {A} b b' (f : A → Xfer) l : (∀ i, x_buf (f i) = b') → on_buf b (f <$> l) = if decide (b' = b) then length l else O.
Proof.
  intros Hf. unfold on_buf. induction l as [|x l IH]; [cbn; by destruct (decide (b' = b))|].
  rewrite fmap_cons, filter_cons. destruct (decide (x_buf (f x) = b)) as [E|E]; rewrite Hf in E; cbn [length]; rewrite IH;
    by destruct (decide (b' = b)).
Qed.

Lemma regions_apart_map {A} (f : A → Xfer) l :
  NoDup l → (∀ i j, i ∈ l → j ∈ l → i ≠ j → apart (x_reg (f i)) (x_reg (f j))) → regions_apart (f <$> l).
Proof.
  induction 1 as [|i l Hni Hnd IH]; intros Ha; [constructor|]. constructor.
  - apply IH. intros. apply Ha; set_solver.
  - apply Forall_fmap, Forall_forall. intros j Hj. cbn. apply Ha; set_solver.
Qed.

Lemma group_some {A} size (p : Z → list A) r : 0 ≤ r < size → group size p r = p r.
Proof. intros Hr. unfold group. by rewrite decide_True. Qed.
Lemma group_nil {A} size (p : Z → list A) : (∀ r, 0 ≤ r < size → p r = []) → group size p = λ _, [].
Proof. intros H. extensionality r. unfold group. case_decide; [by apply H|done]. Qed.
Lemma group_ext {A} size (p p' : Z → list A) : (∀ r, 0 ≤ r < size → p r = p' r) → group size p = group size p'.
Proof. intros H. extensionality r. unfold group. case_decide; [by apply H|done]. Qed.

Lemma computes_weaken progs mems (P Q : (Z → Mem) → Prop) :
  computes progs mems P → (∀ m, P m → Q m) → computes progs mems Q.
Proof. intros (n & f & Hf & Hp & Hn) H. exists n, f. eauto. Qed.

(** Receiving leaves the rest of the memory alone. *)
Lemma receives_at l : ∀ tk m b i, (∀ x, x ∈ l → ¬ inside (x_reg x) b i) → receives m l tk b i = m b i.
Proof.
  induction l as [|x l IH]; intros [|d tk] m b i H; try done. cbn. rewrite IH by set_solver.
  unfold receive, write. rewrite decide_False; [done|]. apply H. set_solver.
Qed.

(** The receive from [p] of a round gets [p]'s data. *)
Lemma read_received (f : Z → Xfer) (g : Z → Msg) l m p :
  regions_apart (f <$> l) → Forall2 msg_for (f <$> l) (g <$> l) → p ∈ l →
  read (receives m (f <$> l) (g <$> l)) (x_reg (f p)) = ms_data (g p).
Proof.
  intros Ha Hm [i Hi]%list_elem_of_lookup. eapply receives_in; [done|done| |]; rewrite list_lookup_fmap, Hi; done.
Qed.

Lemma read_copy m dst src : rg_len dst = rg_len src → 0 ≤ rg_len src →
  read (compute m dst (λ l, hd [] l) [src]) dst = read m src.
Proof. intros Hl H0. unfold compute. apply read_write_same. cbn [fmap list_fmap hd]. rewrite read_length; lia. Qed.

Lemma mem_after_app p q m : mem_after m (p ++ q) = mem_after (mem_after m p) q.
Proof. revert m. induction p as [|a p IH]; intros m; [done|]. destruct a; apply IH. Qed.
Lemma mem_after_recvs {A} (f : A → Xfer) l m : mem_after m ((λ i, Recv (f i)) <$> l) = m.
Proof. by induction l. Qed.
Lemma mem_after_sends {A} (f : A → Xfer) l m : mem_after m ((λ i, Send (f i)) <$> l) = m.
Proof. by induction l. Qed.

(** Two parts of a region. *)

Lemma read_split_eq m m' b b' o o' n k : 0 ≤ k ≤ n →
  read m (mkRegion b o n) = read m' (mkRegion b' o' n) ↔
  read m (mkRegion b o k) = read m' (mkRegion b' o' k) ∧ read m (mkRegion b (o + k) (n - k)) = read m' (mkRegion b' (o' + k) (n - k)).
Proof.
  intros Hk. assert (∃ l, 0 ≤ l ∧ n = k + l) as (l & Hl & ->) by (exists (n - k); lia).
  replace (k + l - k) with l by lia. rewrite !read_split by lia. split; [|by intros [-> ->]].
  intros He. apply app_inj_1 in He; [done|]. apply Nat2Z.inj. by rewrite !read_length by (cbn; lia).
Qed.

(* ------------------------------------------------------------------ *)
(** * Sums of lengths *)

(** The sum of [f] before [n]. *)
Definition sum_before (f : Z → Z) (n : Z) : Z := foldr Z.add 0 (f <$> seqZ 0 n).

Lemma foldr_add_app l k : foldr Z.add 0 (l ++ k) = foldr Z.add 0 l + foldr Z.add 0 k.
Proof. induction l as [|x l IH]; cbn; [done|]. rewrite IH. lia. Qed.

Lemma sum_before_S f n : 0 ≤ n → sum_before f (n + 1) = sum_before f n + f n.
Proof.
  intros. unfold sum_before. rewrite seqZ_app by lia. rewrite fmap_app, foldr_add_app.
  change (seqZ (0 + n) 1) with [Z.of_nat 0 + (0 + n)]. cbn [fmap list_fmap foldr]. rewrite !Z.add_0_l. lia.
Qed.

Lemma sum_before_mono f m n : (∀ i, 0 ≤ i < n → 0 ≤ f i) → 0 ≤ m ≤ n → 0 ≤ sum_before f m ≤ sum_before f n.
Proof.
  intros Hf Hm. split.
  - assert (∀ k, 0 ≤ k → k ≤ n → 0 ≤ sum_before f k) as H; [|apply H; lia].
    apply (natlike_ind (λ k, k ≤ n → 0 ≤ sum_before f k)); [done|]. intros k Hk IH Hkn.
    unfold Z.succ in *. rewrite sum_before_S by done. specialize (Hf k). lia.
  - assert (∀ k, 0 ≤ k → m + k ≤ n → sum_before f m ≤ sum_before f (m + k)) as H.
    { apply (natlike_ind (λ k, m + k ≤ n → sum_before f m ≤ sum_before f (m + k))); [by rewrite Z.add_0_r|].
      intros k Hk IH Hkn. unfold Z.succ in *. rewrite Z.add_assoc, sum_before_S by lia. specialize (Hf (m + k)). lia. }
    specialize (H (n - m)). replace (m + (n - m)) with n in H by lia. apply H; lia.
Qed.

(** Parts laid out one after the other are apart. *)
Lemma sums_apart f es b n p q : 0 < es → (∀ i, 0 ≤ i < n → 0 ≤ f i) → 0 ≤ p < n → 0 ≤ q < n → p ≠ q →
  apart (mkRegion b (es * sum_before f p) (es * f p)) (mkRegion b (es * sum_before f q) (es * f q)).
Proof.
  intros Hes Hf Hp Hq Hne k i [_ H1] [_ H2]. cbn in *.
  assert (∀ a c, 0 ≤ a → a < c → c < n → sum_before f a + f a ≤ sum_before f c) as H.
  { intros a c Ha Hac Hc. rewrite <-sum_before_S by lia. apply sum_before_mono; [intros; apply Hf; lia|lia]. }
  destruct (Z.lt_total p q) as [Hlt|[|Hlt]]; [|done|].
  - specialize (H p q). nia.
  - specialize (H q p). nia.
Qed.
