(* ===== verification/Rounds.v ===== *)
(** Collectives of many rounds: running round after round, neighbours on a
    ring, and programs that are clean because the operations of a buffer
    complete in order. *)
From Stdlib Require Import FunctionalExtensionality.
From S2P Require Import Prelude Net NetRun Groups.

(* ------------------------------------------------------------------ *)
(** * Rounds *)

(** The actions of the rounds from [i] on, [k] of them. *)
Fixpoint rounds_from (acts post : nat → list Act) (k i : nat) : list Act :=
  match k with O => [] | S k => acts i ++ post i ++ rounds_from acts post k (S i) end.

(** Steps of the processes on their own. *)
Lemma locals_run size s (Q : Z → Rank → Prop) : (∀ c, nt_ch s c = []) →
  (∀ r, r ∈ ranks size → ∃ R, locals (nt_rk s r) R ∧ Q r R) →
  ∃ s', rtc net_step s s' ∧ (∀ r, r ∈ ranks size → Q r (nt_rk s' r)) ∧ (∀ r, r ∉ ranks size → nt_rk s' r = nt_rk s r) ∧
    ∀ c, nt_ch s' c = [].
Proof.
  intros Hc H. destruct (net_round (ranks size) s (λ _, []) (λ _, []) Q) as (s' & ?); [apply NoDup_seqZ|done| | |by exists s'].
  - intros r Hr. destruct (H r Hr) as (R & HL & HQ). by eapply rank_round_idle.
  - intros p q sl. unfold at_rank. by repeat case_decide.
Qed.

(** The processes go from states to others, nothing in transit before and
    after. *)
Definition advances (size : Z) (St St' : Z → Rank → Prop) : Prop :=
  ∀ s, (∀ c, nt_ch s c = []) → (∀ r, r ∈ ranks size → St r (nt_rk s r)) →
    ∃ s', rtc net_step s s' ∧ (∀ r, r ∉ ranks size → nt_rk s' r = nt_rk s r) ∧ (∀ c, nt_ch s' c = []) ∧
      ∀ r, r ∈ ranks size → St' r (nt_rk s' r).

Lemma advances_trans size St1 St2 St3 : advances size St1 St2 → advances size St2 St3 → advances size St1 St3.
Proof.
  intros H1 H2 s Hc HR. destruct (H1 s Hc HR) as (s1 & Hs1 & Ho1 & Hc1 & HR1).
  destruct (H2 s1 Hc1 HR1) as (s2 & Hs2 & Ho2 & Hc2 & HR2). exists s2. split; [by etrans|]. split; [|done].
  intros r Hr. by rewrite Ho2, Ho1.
Qed.

Lemma advances_iter size K (St : nat → Z → Rank → Prop) :
  (∀ i, (i < K)%nat → advances size (St i) (St (S i))) → advances size (St O) (St K).
Proof.
  intros H. induction K as [|K IH]; [intros s Hc HR; by exists s|].
  eapply advances_trans; [apply IH; intros i Hi; apply H; lia|apply H; lia].
Qed.

Lemma advances_round size (St St' : Z → Rank → Prop) (ev tk : Z → list Msg) :
  (∀ r R, 0 ≤ r < size → St r R → rank_round R (ev r) (tk r) (St' r)) →
  (∀ p q sl, datas (q, sl) (at_rank (ranks size) p (ev p)) = datas (p, sl) (at_rank (ranks size) q (tk q))) →
  advances size St St'.
Proof.
  intros Hr Hm s Hc HR. destruct (net_round (ranks size) s ev tk St') as (s' & Hs & Hi & Ho & Hc');
    [apply NoDup_seqZ|done| |done|by exists s'].
  intros r Hin. pose proof (HR r Hin). apply elem_ranks in Hin. by apply Hr.
Qed.

(** From programs and memories to others. *)
Definition leads (size : Z) (p : Z → list Act) (m : Z → Mem) (p' : Z → list Act) (m' : Z → Mem) : Prop :=
  advances size (λ r, rank_at (p r) (m r) (λ _, O) (λ _, O)) (λ r, rank_at (p' r) (m' r) (λ _, O) (λ _, O)).

Lemma leads_trans size p1 m1 p2 m2 p3 m3 : leads size p1 m1 p2 m2 → leads size p2 m2 p3 m3 → leads size p1 m1 p3 m3.
Proof. apply advances_trans. Qed.

Lemma advances_locals size (p p' : Z → list Act) (m m' : Z → Mem) (cs cr cs' cr' : Z → Z → nat) :
  (∀ r, 0 ≤ r < size → reaches (p r) (m r) (cs r) (cr r) (p' r) (m' r) (cs' r) (cr' r)) →
  advances size (λ r, rank_at (p r) (m r) (cs r) (cr r)) (λ r, rank_at (p' r) (m' r) (cs' r) (cr' r)).
Proof.
  intros H s Hc HR. destruct (locals_run size s (λ r R, rank_at (p' r) (m' r) (cs' r) (cr' r) R)) as (s' & ? & ? & ? & ?);
    [done| |by exists s'].
  intros r Hr. pose proof (HR r Hr). apply elem_ranks in Hr. by apply (reaches_at _ _ _ _ _ _ _ _ _ (H r Hr)).
Qed.

Lemma leads_locals size p m p' m' :
  (∀ r, 0 ≤ r < size → reaches (p r) (m r) (λ _, O) (λ _, O) (p' r) (m' r) (λ _, O) (λ _, O)) → leads size p m p' m'.
Proof. apply (advances_locals size p p' m m'). Qed.

Lemma leads_computes size p mems Mf :
  (∀ r, 0 ≤ r < size → clean hist0 (p r)) → leads size p mems (λ _, []) Mf →
  computes (group size p) mems (λ mems', ∀ r, 0 ≤ r < size → mems' r = Mf r).
Proof.
  intros Hc H. destruct (H (net_init (group size p) mems)) as (s & Hs & Hout & _ & HR); [done| |].
  { intros r Hr%elem_ranks. by apply (group_at size p). }
  eapply group_computes; [exact Hc|exact Hs|done| |].
  - intros r Hr. exists (λ _, O), (λ _, O). by apply HR.
  - intros r Hr. by rewrite decide_True.
Qed.

(** Computations only, and with waits between them. *)
Definition is_compute (a : Act) : Prop := match a with Compute _ _ _ => True | _ => False end.

Lemma computes_lists acts : Forall is_compute acts →
  Forall is_post acts ∧ sends_of acts = [] ∧ recvs_of acts = [] ∧ ∀ m, sent m acts = [].
Proof.
  induction 1 as [|a acts Ha _ (H1 & H2 & H3 & H4)]; [done|]. destruct a; try done.
  split; [by constructor|]. split; [exact H2|]. split; [exact H3|]. intros m. apply H4.
Qed.

Lemma sent_app p : ∀ q m, sent m (p ++ q) = sent m p ++ sent (mem_after m p) q.
Proof. induction p as [|a p IH]; intros q m; [done|]. destruct a; cbn; by rewrite IH. Qed.

Lemma reaches_computes acts p m cs cr : Forall is_compute acts → reaches (acts ++ p) m cs cr p (mem_after m acts) cs cr.
Proof.
  intros H. revert m. induction H as [|a acts Ha _ IH]; intros m; [apply reaches_refl|]. destruct a; try done.
  eapply reaches_trans; [apply reaches_compute|apply IH].
Qed.

Section rounds.
Context (size : Z) (K : nat) (pre fin rest : Z → list Act) (acts post : nat → Z → list Act).
Context (mems Mf : Z → Mem) (M : nat → Z → Mem) (cs cr : nat → Z → Z → nat) (tk : nat → Z → list Msg).

Let rounds (r : Z) : list Act := rounds_from (λ i, acts i r) (λ i, post i r) K 0.
Let prog (r : Z) : list Act := pre r ++ rounds r ++ fin r ++ rest r.

Context (Hpre : ∀ r rest, 0 ≤ r < size → reaches (pre r ++ rest) (mems r) (λ _, O) (λ _, O) rest (M 0 r) (cs 0 r) (cr 0 r)).
Context (Hposts : ∀ i r, (i < K)%nat → 0 ≤ r < size → Forall is_post (acts i r)).
Context (Hfor : ∀ i r, (i < K)%nat → 0 ≤ r < size → Forall2 msg_for (recvs_of (acts i r)) (tk i r)).
Context (Hmatch : ∀ i p q sl, (i < K)%nat →
  datas (q, sl) (at_rank (ranks size) p (sent (M i p) (acts i p))) = datas (p, sl) (at_rank (ranks size) q (tk i q))).
Context (Hend : ∀ i r rest, (i < K)%nat → 0 ≤ r < size →
  reaches (post i r ++ rest) (receives (mem_after (M i r) (acts i r)) (recvs_of (acts i r)) (tk i r))
    (bumps (sends_of (acts i r)) (cs i r)) (bumps (recvs_of (acts i r)) (cr i r)) rest (M (S i) r) (cs (S i) r) (cr (S i) r)).
Context (Hfin : ∀ r rest, 0 ≤ r < size → reaches (fin r ++ rest) (M K r) (cs K r) (cr K r) rest (Mf r) (λ _, O) (λ _, O)).

Lemma rounds_run : advances size (λ r, rank_at (rounds r ++ fin r ++ rest r) (M 0 r) (cs 0 r) (cr 0 r))
  (λ r, rank_at (fin r ++ rest r) (M K r) (cs K r) (cr K r)).
Proof.
  pose proof (advances_iter size K (λ i r, rank_at (rounds_from (λ i, acts i r) (λ i, post i r) (K - i) i ++ fin r ++ rest r)
    (M i r) (cs i r) (cr i r))) as H. cbv beta in H. rewrite Nat.sub_0_r, Nat.sub_diag in H. apply H. clear H. intros i Hi.
  apply (advances_round size _ _ (λ r, sent (M i r) (acts i r)) (tk i)); [|intros; by apply Hmatch].
  intros r R Hr H. replace (K - i)%nat with (S (K - S i)) in H by lia. cbn [rounds_from] in H. rewrite <-!(assoc_L (++)) in H.
  eapply rank_round_post; [apply (rank_round_posts _ _ _ _ _ _ (tk i r) H); by auto|].
  intros R1. by apply reaches_at, Hend.
Qed.

Lemma rounds_lead : leads size prog mems rest Mf.
Proof.
  eapply advances_trans; [apply advances_locals|eapply advances_trans; [apply rounds_run|apply advances_locals]].
  - intros r Hr. apply (Hpre r _ Hr).
  - intros r Hr. apply (Hfin r _ Hr).
Qed.
End rounds.

(** A loop that starts with the waits of the rounds before. *)
Lemma waits_first acts w k : ∀ i,
  (seq i k ≫= (λ j, w j ++ acts j)) ++ w (i + k)%nat = w i ++ rounds_from acts (λ j, w (S j)) k i.
Proof.
  induction k as [|k IH]; intros i; cbn [seq mbind list_bind rounds_from].
  - by rewrite Nat.add_0_r, app_nil_r.
  - rewrite <-!(assoc_L (++)). do 2 f_equal. replace (i + S k)%nat with (S i + k)%nat by lia. apply IH.
Qed.

Lemma loop_rounds acts w k : ∀ i,
  seq i (S k) ≫= (λ j, w j ++ acts j) = w i ++ rounds_from acts (λ j, w (S j)) k i ++ acts (i + k)%nat.
Proof.
  induction k as [|k IH]; intros i.
  - cbn. by rewrite Nat.add_0_r, app_nil_r.
  - change (seq i (S (S k)) ≫= (λ j, w j ++ acts j)) with ((w i ++ acts i) ++ (seq (S i) (S k) ≫= (λ j, w j ++ acts j))).
    rewrite IH. cbn [rounds_from]. replace (i + S k)%nat with (S i + k)%nat by lia. by rewrite <-!(assoc_L (++)).
Qed.

Lemma bind_seqZ {A} (f : Z → list A) n : seqZ 0 n ≫= f = seq 0 (Z.to_nat n) ≫= (λ j, f (Z.of_nat j)).
Proof.
  unfold seqZ. rewrite list_fmap_bind. apply bind_ext_all. intros j. cbn. by rewrite Z.add_0_r.
Qed.

(** Two by two. *)
Lemma seq_pairs {A} (f : nat → list A) n : ∀ i, seq (2 * i) (2 * n) ≫= f = seq i n ≫= (λ j, f (2 * j)%nat ++ f (2 * j + 1)%nat).
Proof.
  induction n as [|n IH]; intros i; [done|]. replace (2 * S n)%nat with (S (S (2 * n))) by lia. cbn [seq mbind list_bind].
  rewrite <-(assoc_L (++)). f_equal. replace (2 * i + 1)%nat with (S (2 * i)) by lia. f_equal.
  replace (S (S (2 * i))) with (2 * S i)%nat by lia. apply IH.
Qed.

Lemma bind_pairs {A} (g : nat → list A) n :
  seq 0 (2 * Z.to_nat n) ≫= g = seqZ 0 n ≫= (λ i, g (2 * Z.to_nat i)%nat ++ g (2 * Z.to_nat i + 1)%nat).
Proof.
  pose proof (seq_pairs g (Z.to_nat n) 0) as H. rewrite Nat.mul_0_r in H. rewrite H, bind_seqZ. apply bind_ext_all. intros j.
  by rewrite Nat2Z.id.
Qed.

Lemma bind_one {A C} (f : A → C) l : l ≫= (λ j, [f j]) = f <$> l.
Proof. induction l as [|x l IH]; [done|]. cbn [mbind list_bind]. by rewrite IH. Qed.

Lemma rounds_from_ext acts acts' post post' k : ∀ i,
  (∀ j, (i ≤ j < i + k)%nat → acts j = acts' j ∧ post j = post' j) → rounds_from acts post k i = rounds_from acts' post' k i.
Proof.
  induction k as [|k IH]; intros i H; [done|]. cbn [rounds_from]. destruct (H i) as [-> ->]; [lia|].
  rewrite (IH (S i)); [done|]. intros j Hj. apply H. lia.
Qed.

Lemma rounds_from_app acts post k : ∀ i,
  rounds_from acts post (S k) i = rounds_from acts post k i ++ acts (i + k)%nat ++ post (i + k)%nat.
Proof.
  induction k as [|k IH]; intros i.
  - cbn. rewrite Nat.add_0_r. by rewrite app_nil_r.
  - change (rounds_from acts post (S (S k)) i) with (acts i ++ post i ++ rounds_from acts post (S k) (S i)).
    rewrite IH. cbn [rounds_from]. replace (i + S k)%nat with (S i + k)%nat by lia. by rewrite <-!(assoc_L (++)).
Qed.

(* ------------------------------------------------------------------ *)
(** * Neighbours *)

Definition ring_next (size r : Z) : Z := (r + 1) `mod` size.
Definition ring_prev (size r : Z) : Z := (r - 1) `mod` size.

Lemma at_rank_ext size p k k' : (0 ≤ p < size → k = k') → at_rank (ranks size) p k = at_rank (ranks size) p k'.
Proof. intros H. unfold at_rank. case_decide as Hp; [|done]. by apply H, elem_ranks. Qed.

Lemma land_1 x : Z.land x 1 = x `mod` 2.
Proof. by apply (Z.land_ones x 1). Qed.

Lemma next_prev_mod size r : (size + r - 1) `mod` size = (r - 1) `mod` size ∧ (size + r + 1) `mod` size = (r + 1) `mod` size.
Proof.
  destruct (decide (size = 0)) as [->|]; [by rewrite !Z.mod_0_r|]. split.
  - replace (size + r - 1) with (r - 1 + 1 * size) by lia. by apply Z.mod_add.
  - replace (size + r + 1) with (r + 1 + 1 * size) by lia. by apply Z.mod_add.
Qed.

Lemma neighbours_neq size r : 2 ≤ size → (r + 1) `mod` size ≠ r ∧ (r - 1) `mod` size ≠ r.
Proof.
  intros Hs. split; intros H.
  - pose proof (Z.div_mod (r + 1) size ltac:(lia)). rewrite H in *. assert (size * ((r + 1) / size) = 1) by lia. destruct (Z.le_gt_cases ((r + 1) / size) 0); nia.
  - pose proof (Z.div_mod (r - 1) size ltac:(lia)). rewrite H in *. assert (size * ((r - 1) / size) = -1) by lia. destruct (Z.le_gt_cases 0 ((r - 1) / size)); nia.
Qed.

(** The ranks along the ring, starting anywhere, are the ranks. *)
Lemma ring_ranks size r : 0 ≤ r < size → Permutation ((λ k, (r + k) `mod` size) <$> seqZ 0 size) (ranks size).
Proof.
  intros Hrk. apply submseteq_length_Permutation; [apply NoDup_submseteq|].
  - apply NoDup_fmap_2_strong; [|apply NoDup_seqZ]. intros x y Hx%elem_of_seqZ Hy%elem_of_seqZ He.
    by apply (mod_shift_inj size r) in He; lia.
  - intros q [k [-> _]]%list_elem_of_fmap. apply elem_ranks, Z.mod_pos_bound. lia.
  - by rewrite length_fmap.
Qed.

(** The offset of a part of a segment, counted round the ring. *)
Lemma segment_offset size n k c : 0 < size → 0 ≤ c < n → 0 ≤ k → k * n + c < 2 ^ 64 →
  u64 (u64 (k * n) + c) `mod` (size * n) = k `mod` size * n + c.
Proof.
  intros Hs Hc Hk Hb. rewrite (wrap_small 64 (k * n)) by (unfold in_range; nia). rewrite wrap_small by (unfold in_range; nia).
  pose proof (Z.mod_pos_bound k size Hs). pose proof (Z.div_mod k size).
  symmetry. apply (Z.mod_unique _ _ (k / size)); [left; nia|nia].
Qed.

(** Every process of [P] sends to the neighbour [e] steps on, every process of
    [P'] receives from the one [e] steps back. *)
Lemma ring_matched size e slot (P P' : Z → bool) (f f' : Z → list Z) (p q sl : Z) :
  1 ≤ size → (∀ r, 0 ≤ r < size → P r = P' ((r + e) `mod` size)) →
  (∀ r, 0 ≤ r < size → P r = true → f r = f' ((r + e) `mod` size)) →
  datas (q, sl) (at_rank (ranks size) p (if P p then [mkMsg ((p + e) `mod` size) slot (f p)] else [])) =
  datas (p, sl) (at_rank (ranks size) q (if P' q then [mkMsg ((q - e) `mod` size) slot (f' q)] else [])).
Proof.
  intros Hsize HP Hf.
  assert (∀ c (b : bool) k slot d, datas c (if b then [mkMsg k slot d] else []) =
    if decide (b = true ∧ (k, slot) = c) then [d] else []) as Hone.
  { intros c [] k sl' d; [|by rewrite decide_False by naive_solver]. rewrite datas_cons. unfold on_msg.
    cbn [ms_peer ms_slot ms_data]. destruct (decide ((k, sl') = c)) as [E|E];
      [rewrite (decide_True (P := true = true ∧ _))|rewrite (decide_False (P := true = true ∧ _))]; done || naive_solver. }
  pose proof (Z.mod_pos_bound (p + e) size ltac:(lia)). pose proof (Z.mod_pos_bound (q - e) size ltac:(lia)).
  unfold at_rank. destruct (decide (p ∈ ranks size)) as [Hp|Hp], (decide (q ∈ ranks size)) as [Hq|Hq];
    rewrite elem_ranks in Hp, Hq; rewrite ?Hone; [| | |done].
  - pose proof (peer_inverse size p q e Hp Hq) as Hpq.
    destruct (decide (P p = true ∧ _)) as [[H1 H2]|H1], (decide (P' q = true ∧ _)) as [[H3 H4]|H3]; [| | |done].
    + injection H2 as H2 ->. by rewrite Hf, H2 by done.
    + destruct H3. injection H2 as H2 ->. rewrite <-H2, <-HP by done. split; [done|]. rewrite H2. f_equal. by apply Hpq.
    + destruct H1. injection H4 as H4 ->. assert ((p + e) `mod` size = q) as Hq' by by apply Hpq.
      split; [by rewrite HP, Hq' by done|]. by rewrite Hq'.
  - rewrite decide_False; [done|]. intros [_ [= E _]]. lia.
  - rewrite decide_False; [done|]. intros [_ [= E _]]. lia.
Qed.

(* ------------------------------------------------------------------ *)
(** * Buffers used in order *)

(** The operations that may be in transit when the operations of a buffer
    complete in order: a wait retires the oldest one of its buffer. *)
Definition all_apart (l : list Xfer) (r : Region) : Prop := Forall (λ y, apart (x_reg y) r) l.
Definition retire (b : Z) (l : list Xfer) : option (list Xfer) := snd <$> pick (λ x, x_buf x =? b) l.

Lemma retire_head b x l : x_buf x = b → retire b (x :: l) = Some l.
Proof. intros <-. unfold retire. cbn. by rewrite Z.eqb_refl. Qed.

Fixpoint fifo (ps pr : list Xfer) (p : list Act) : Prop :=
  match p with
  | [] => True
  | Send x :: p => all_apart pr (x_reg x) ∧ fifo (ps ++ [x]) pr p
  | Recv x :: p => (all_apart pr (x_reg x) ∧ all_apart ps (x_reg x)) ∧ fifo ps (pr ++ [x]) p
  | WaitSend b :: p => match retire b ps with Some ps => fifo ps pr p | None => False end
  | WaitRecv b :: p => match retire b pr with Some pr => fifo ps pr p | None => False end
  | Compute d _ srcs :: p => (all_apart pr d ∧ all_apart ps d ∧ Forall (all_apart pr) srcs) ∧ fifo ps pr p
  | Stop _ :: p => fifo ps pr p
  end.

(** A buffer has one channel. *)
Definition one_channel (l : list Xfer) : Prop := ∀ x y, x ∈ l → y ∈ l → x_buf y = x_buf x → same_chan x y.

Abbreviation on b := (λ x, x_buf x = b).
Definition in_flight (l h : list Xfer) (w : Z → nat) : Prop :=
  ∀ b, filter (on b) l = drop (w b) (filter (on b) h) ∧ (w b ≤ length (filter (on b) h))%nat.

Lemma in_flight_busy l h w f j x : in_flight l h w → one_channel h → busy h w f j x → x ∈ l.
Proof.
  intros Hl Ho Hb. pose proof (busy_fifo _ _ _ _ _ Hb) as Hw. destruct Hb as [Hj _].
  assert (w (x_buf x) ≤ on_buf (x_buf x) (take j h))%nat as Hw'.
  { apply Hw. intros y Hy. apply Ho; [by eapply list_elem_of_lookup_2|done]. }
  assert (x ∈ drop (w (x_buf x)) (filter (on (x_buf x)) h)) as Hx.
  { rewrite <-(take_drop_middle _ _ _ Hj), filter_app, filter_cons, decide_True by done.
    rewrite drop_app_le by done. set_solver. }
  rewrite <-(proj1 (Hl _)) in Hx. by apply list_elem_of_filter in Hx as [_ ?].
Qed.

Lemma in_flight_post l h w x : in_flight l h w → in_flight (l ++ [x]) (h ++ [x]) w.
Proof.
  intros Hl b. destruct (Hl b) as [H1 H2]. rewrite !filter_app, H1, drop_app_le, length_app by done. split; [done|lia].
Qed.

Lemma in_flight_retire l l' h w b : in_flight l h w → retire b l = Some l' → in_flight l' h (bump b w).
Proof.
  intros Hl Hr b'. unfold retire in Hr. destruct (pick _ l) as [[x k]|] eqn:Hp; [|done]. injection Hr as <-. cbn [snd].
  apply pick_Some in Hp as (l1 & l2 & -> & -> & Hx%Z.eqb_eq & Hl1). destruct (Hl b') as [H1 H2].
  rewrite filter_app, filter_cons in H1. rewrite filter_app. unfold bump. destruct (decide (b' = b)) as [->|Hb].
  - rewrite (decide_True (P := x_buf x = b)) in H1 by done.
    assert (filter (on b) l1 = []) as Hn.
    { apply elem_of_nil_inv. intros y [Hy Hin]%list_elem_of_filter. rewrite Forall_forall in Hl1.
      specialize (Hl1 y Hin). cbn in Hl1. lia. }
    rewrite Hn in H1 |- *. cbn [app] in H1 |- *.
    assert (drop (S (w b)) (filter (on b) h) = drop 1 (drop (w b) (filter (on b) h))) as -> .
    { rewrite drop_drop. f_equal. lia. }
    rewrite <-H1. split; [done|]. apply (f_equal length) in H1. rewrite length_drop in H1. cbn in H1. lia.
  - rewrite (decide_False (P := x_buf x = b')) in H1 by congruence. done.
Qed.

Lemma all_apart_clear l h w r :
  in_flight l h w → one_channel h → all_apart l r → ∀ f j y, busy h w f j y → apart (x_reg y) r.
Proof. intros Hl Ho Ha f j y Hb. unfold all_apart in Ha. rewrite Forall_forall in Ha. by eapply Ha, in_flight_busy. Qed.

Lemma one_channel_sub l k : one_channel (l ++ k) → one_channel l.
Proof. intros H x y Hx Hy. apply H; set_solver. Qed.

Lemma fifo_clean p : ∀ h ps pr,
  one_channel (h_sends h ++ sends_of p) → one_channel (h_recvs h ++ recvs_of p) →
  in_flight ps (h_sends h) (h_ws h) → in_flight pr (h_recvs h) (h_wr h) → fifo ps pr p → clean h p.
Proof.
  induction p as [|a p IH]; intros h ps pr Hos Hor Hs Hr Hf; [done|].
  pose proof (λ r H, all_apart_clear pr _ _ r Hr (one_channel_sub _ _ Hor) H (h_fr h)) as Hcr.
  change (∀ r, all_apart pr r → clear_of_recvs h r) in Hcr.
  pose proof (λ r H, all_apart_clear ps _ _ r Hs (one_channel_sub _ _ Hos) H (h_fs h)) as Hcs.
  change (∀ r, all_apart ps r → clear_of_sends h r) in Hcs.
  destruct a as [x|x|b|b|d f srcs|e]; cbn [fifo] in Hf; cbn [clean ok_act].
  - destruct Hf as [Ha Hf]. split; [by apply Hcr|]. apply (IH _ (ps ++ [x]) pr); [|done| |done|done].
    + change (one_channel ((h_sends h ++ [x]) ++ sends_of p)). by rewrite <-(assoc_L (++)).
    + by apply in_flight_post.
  - destruct Hf as [[Ha Ha'] Hf]. split; [split; [by apply Hcr|by apply Hcs]|]. apply (IH _ ps (pr ++ [x])); [done| |done| |done].
    + change (one_channel ((h_recvs h ++ [x]) ++ recvs_of p)). by rewrite <-(assoc_L (++)).
    + by apply in_flight_post.
  - destruct (retire b ps) as [ps'|] eqn:E; [|done]. split; [done|]. apply (IH _ ps' pr); [done|done| |done|done].
    by eapply in_flight_retire.
  - destruct (retire b pr) as [pr'|] eqn:E; [|done]. split; [done|]. apply (IH _ ps pr'); [done|done|done| |done].
    by eapply in_flight_retire.
  - destruct Hf as [(H1 & H2 & H3) Hf]. split; [|by apply (IH _ ps pr)]. split; [by apply Hcr|]. split; [by apply Hcs|].
    eapply Forall_impl; [exact H3|]. intros r Har. by apply Hcr.
  - split; [done|]. by apply (IH _ ps pr).
Qed.

(** From the start of a program. *)
Lemma fifo_clean0 p : one_channel (sends_of p) → one_channel (recvs_of p) → fifo [] [] p → clean hist0 p.
Proof. intros Hs Hr Hf. apply (fifo_clean p hist0 [] []); [done|done| |done|done]; intros b; by split. Qed.

(** Computations next to what is in flight: [ss] is being sent, [rs] received. *)
Definition quiet (ss rs : list Region) (acts : list Act) : Prop :=
  Forall (λ a, match a with
    | Compute d _ srcs => Forall (λ r, apart r d) (ss ++ rs) ∧ Forall (λ src, Forall (λ r, apart r src) rs) srcs
    | _ => False
    end) acts.

Lemma fifo_quiet ss rs ps pr acts rest :
  quiet ss rs acts → (∀ x, x ∈ ps → x_reg x ∈ ss) → (∀ x, x ∈ pr → x_reg x ∈ rs) →
  fifo ps pr rest → fifo ps pr (acts ++ rest).
Proof.
  intros Hq Hss Hrs Hf. assert (∀ l ls r, (∀ x, x ∈ l → x_reg x ∈ ls) → Forall (λ y, apart y r) ls → all_apart l r) as Hall.
  { intros l ls r Hl Hr. apply Forall_forall. intros y Hy. rewrite Forall_forall in Hr. by apply Hr, Hl. }
  induction Hq as [|a acts Ha _ IH]; [done|]. destruct a as [| | | |d f srcs|]; try done. cbn [app fifo].
  destruct Ha as [[H1 H2]%Forall_app H3]. split; [|done]. split; [by eapply Hall|]. split; [by eapply Hall|].
  eapply Forall_impl; [exact H3|]. intros src Hsrc. by eapply Hall.
Qed.

(** Computations on their own. *)
Lemma clean_computes acts : Forall is_compute acts → clean hist0 acts.
Proof.
  intros Hc. destruct (computes_lists acts Hc) as (_ & Hs & Hr & _). apply fifo_clean0.
  - rewrite Hs. by intros x y ?%not_elem_of_nil.
  - rewrite Hr. by intros x y ?%not_elem_of_nil.
  - rewrite <-(app_nil_r acts). apply (fifo_quiet [] []); [|by intros ? ?%not_elem_of_nil..|done].
    eapply Forall_impl; [exact Hc|]. intros [] Ha; try done. split; [constructor|]. by apply Forall_forall.
Qed.

Lemma only_computes size acts mems : Forall is_compute acts →
  computes (group size (λ _, acts)) mems (λ mems', ∀ r, 0 ≤ r < size → mems' r = mem_after (mems r) acts).
Proof.
  intros Hc. apply (leads_computes size (λ _, acts) mems (λ r, mem_after (mems r) acts)).
  - intros r _. by apply clean_computes.
  - apply leads_locals. intros r _. rewrite <-(app_nil_r acts) at 1. by apply reaches_computes.
Qed.

Lemma quiet_less ss ss' rs rs' acts :
  (∀ r, r ∈ ss' → r ∈ ss) → (∀ r, r ∈ rs' → r ∈ rs) → quiet ss rs acts → quiet ss' rs' acts.
Proof.
  intros Hs Hr Hq. eapply Forall_impl; [exact Hq|]. intros [| | | |d f srcs|]; try done. rewrite !Forall_forall. intros [H1 H2]. split.
  - intros r Hin. apply H1. apply elem_of_app in Hin as [Hin|Hin]; set_solver.
  - intros src Hsrc. specialize (H2 src Hsrc). rewrite !Forall_forall in *. intros r Hin. apply H2. auto.
Qed.

(** Round by round: what is in flight before each round. *)
Lemma fifo_rounds acts post (Is Ir : nat → list Xfer) k rest : ∀ i,
  (∀ j rest, (i ≤ j < i + k)%nat → fifo (Is (S j)) (Ir (S j)) rest → fifo (Is j) (Ir j) (acts j ++ post j ++ rest)) →
  fifo (Is (i + k)%nat) (Ir (i + k)%nat) rest → fifo (Is i) (Ir i) (rounds_from acts post k i ++ rest).
Proof.
  induction k as [|k IH]; intros i Hj Hr; [by rewrite Nat.add_0_r in Hr|]. cbn [rounds_from]. rewrite <-!(assoc_L (++)).
  apply Hj; [lia|]. apply IH; [|by replace (S i + k)%nat with (i + S k)%nat by lia]. intros j rest' Hj'. apply Hj. lia.
Qed.
