(* ===== verification/Barrier.v ===== *)
(** The dissemination barrier of [src/gloo/barrier.cc]: it always completes,
    and no process leaves it before every process has entered it. *)
From Stdlib Require Import FunctionalExtensionality.
From S2P Require Import Prelude Slots Net NetRun Groups.

(* ------------------------------------------------------------------ *)
(** * The program *)

Definition barrier_recv (rank size slot buf d : Z) : Xfer :=
  mkXfer (u64 (size + rank - d) `mod` size) slot (mkRegion buf 0 0).
Definition barrier_send (rank size slot buf d : Z) : Xfer :=
  mkXfer (u64 (size + rank + d) `mod` size) slot (mkRegion buf 0 0).

(** [for (size_t d = 1; d < context->size; d <<= 1)]; 32 rounds are enough
    for a size that is an [int]. *)
Fixpoint barrier_loop (fuel : nat) (rank size slot buf d : Z) : list Act :=
  match fuel with
  | O => []
  | S fuel =>
      if d <? size then
        Recv (barrier_recv rank size slot buf d) ::
        Send (barrier_send rank size slot buf d) ::
        WaitRecv buf ::
        WaitSend buf ::
        barrier_loop fuel rank size slot buf (u64 (Z.shiftl d 1))
      else []
  end.

(** [barrier(opts)] *)
Definition barrier (rank size tag buf : Z) : list Act :=
  barrier_loop 32 rank size (Slot_value (Slot_build kBarrierSlotPrefix tag)) buf 1.

(* ------------------------------------------------------------------ *)
(** * Completion *)

Section barrier.
Context (size slot buf : Z) (Hsize : 1 ≤ size < 2 ^ 31).

Lemma barrier_round fuel m d s :
  0 < d < size → (∀ c, nt_ch s c = []) →
  (∀ r, r ∈ ranks size → rank_at (barrier_loop (S fuel) r size slot buf d) (m r) (λ _, O) (λ _, O) (nt_rk s r)) →
  ∃ s', rtc net_step s s' ∧ (∀ c, nt_ch s' c = []) ∧ (∀ r, r ∉ ranks size → nt_rk s' r = nt_rk s r) ∧
    ∀ r, r ∈ ranks size → rank_at (barrier_loop fuel r size slot buf (2 * d)) (m r) (λ _, O) (λ _, O) (nt_rk s' r).
Proof.
  intros Hd Hc HR.
  set (ev := λ r, [mkMsg ((r + d) `mod` size) slot ([] : list Z)]).
  set (tk := λ r, [mkMsg ((r - d) `mod` size) slot ([] : list Z)]).
  destruct (net_round (ranks size) s ev tk
    (λ r R, rank_at (barrier_loop fuel r size slot buf (2 * d)) (m r) (λ _, O) (λ _, O) R))
    as (s' & Hs & Hin & Hout & Hc'); [apply NoDup_seqZ|done| | |by exists s'].
  - intros r Hr. specialize (HR r Hr). apply elem_ranks in Hr. destruct (peer_recv size Hsize r d Hr) as [E1 E2]; [lia|].
    cbn [barrier_loop] in HR. rewrite (proj2 (Z.ltb_lt d size)) in HR by lia.
    rewrite Z.shiftl_mul_pow2, (wrap_small 64 (d * _)) in HR by (unfold in_range; lia).
    change (2 ^ 1) with 2 in HR. rewrite (Z.mul_comm d 2) in HR.
    unfold barrier_recv, barrier_send in HR. rewrite E1, E2 in HR.
    eapply rank_round_post; [apply (rank_round_posts [Recv _; Send _] _ _ _ _ _ (tk r) HR); [by repeat constructor|]|].
    { repeat constructor. }
    intros R1 HR1. change (receives _ _ _) with (write (m r) (mkRegion buf 0 0) []) in HR1.
    rewrite write_empty in HR1 by done. eapply reaches_at; [|exact HR1]. eapply reaches_trans; [apply reaches_waitRecv|apply reaches_waitSend].
  - intros p q sl. unfold at_rank, datas, ev, tk. destruct (decide (p ∈ ranks size)) as [Hp|Hp], (decide (q ∈ ranks size)) as [Hq|Hq];
      rewrite elem_ranks in Hp, Hq; cbn [filter list_filter]; unfold on_msg; cbn [ms_peer ms_slot]; try done.
    + pose proof (peer_inverse size p q d Hp Hq) as [Hpq Hqp].
      destruct (decide (((p + d) `mod` size, slot) = (q, sl))) as [E1|E1],
        (decide (((q - d) `mod` size, slot) = (p, sl))) as [E2|E2]; [done| | |done].
      * destruct E2. injection E1 as E1 ->. by rewrite Hpq.
      * destruct E1. injection E2 as E2 ->. by rewrite Hqp.
    + rewrite decide_False; [done|]. intros [= Hx _]. pose proof (Z.mod_pos_bound (p + d) size). lia.
    + rewrite decide_False; [done|]. intros [= Hx _]. pose proof (Z.mod_pos_bound (q - d) size). lia.
Qed.

Lemma barrier_rounds m : ∀ fuel d s,
  0 < d → size ≤ d * 2 ^ Z.of_nat fuel → (∀ c, nt_ch s c = []) →
  (∀ r, r ∈ ranks size → rank_at (barrier_loop fuel r size slot buf d) (m r) (λ _, O) (λ _, O) (nt_rk s r)) →
  ∃ s', rtc net_step s s' ∧ (∀ r, r ∉ ranks size → nt_rk s' r = nt_rk s r) ∧
    ∀ r, r ∈ ranks size → rank_at [] (m r) (λ _, O) (λ _, O) (nt_rk s' r).
Proof.
  induction fuel as [|fuel IH]; intros d s Hd Hf Hc HR; [by exists s|].
  destruct (decide (d < size)) as [Hlt|Hge].
  - destruct (barrier_round fuel m d s) as (s1 & Hs1 & Hc1 & Hout1 & HR1); [lia|done..|].
    destruct (IH (2 * d) s1) as (s2 & Hs2 & Hout2 & HR2); [lia| |done..|].
    { rewrite Nat2Z.inj_succ, Z.pow_succ_r in Hf by lia. lia. }
    exists s2. split; [by etrans|]. split; [|done]. intros r Hr. by rewrite Hout2, Hout1.
  - exists s. split; [done|]. split; [done|]. intros r Hr. specialize (HR r Hr). cbn [barrier_loop] in HR.
    by rewrite (proj2 (Z.ltb_ge d size)) in HR by lia.
Qed.
End barrier.

Lemma barrier_loop_clean fuel r size slot buf d h : clean h (barrier_loop fuel r size slot buf d).
Proof.
  apply clean_empty. revert d. induction fuel as [|fuel IH]; intros d; cbn; [constructor|].
  destruct (d <? size); [|constructor]. do 4 (constructor; [done|]). apply IH.
Qed.

(** C23: the barrier completes. However the processes and their messages
    interleave, every process of the group runs to the end of the barrier,
    within a fixed number of steps. *)
Theorem barrier_completes (size tag buf : Z) (mems : Z → Mem) :
  1 ≤ size < 2 ^ 31 → computes (group size (λ r, barrier r size tag buf)) mems (λ mems', mems' = mems).
Proof.
  intros Hs. set (progs := group size _).
  destruct (barrier_rounds size (Slot_value (Slot_build kBarrierSlotPrefix tag)) buf Hs mems 32 1 (net_init progs mems))
    as (s' & Hs' & Hout & HR); [lia|change (2 ^ Z.of_nat 32) with (2 * 2 ^ 31); lia|done| |].
  - intros r Hr%elem_ranks. by apply (group_at size (λ r, barrier r size tag buf)).
  - eapply computes_at; [|exact Hs'| |reflexivity].
    + apply group_clean. intros. apply barrier_loop_clean.
    + intros r. exists (λ _, O), (λ _, O). destruct (decide (0 ≤ r < size)) as [Hr|Hr].
      * apply HR. by apply elem_ranks.
      * rewrite Hout by by rewrite elem_ranks. by apply group_out.
Qed.

Lemma barrier_completes_witness : computes (group 5 (λ r, barrier r 5 7 3)) demo_mems (λ mems', mems' = demo_mems).
Proof. apply (barrier_completes 5 7 3 demo_mems). lia. Defined.

(* ------------------------------------------------------------------ *)
(** * Synchronization *)

(** A process is in the barrier from its first operation on. *)
Definition entered (s : Net) (r : Z) : Prop := h_recvs (rs_h (nt_rk s r)) ≠ [].

Section sync.
Context (size slot buf : Z) (Hsize : 1 ≤ size < 2 ^ 31).

Abbreviation two k := (2 ^ Z.of_nat k).
Abbreviation recv_at r k := (barrier_recv r size slot buf (two k)).
Abbreviation send_at r k := (barrier_send r size slot buf (two k)).
Definition after (n : nat) (b : bool) : nat := if b then S n else n.

(** A process in round [k] that has done [j] of the round's four operations. *)
Record barrier_at (r : Z) (k j : nat) (R : Rank) : Prop := {
  ba_prog : rs_prog R = drop j (barrier_loop (32 - k) r size slot buf (two k));
  ba_round : (k ≤ 32)%nat ∧ (j ≤ 3)%nat ∧ ((1 ≤ j)%nat → two k < size) ∧ ∀ i, (i < k)%nat → two i < size;
  ba_recvs : h_recvs (rs_h R) = (λ i, recv_at r i) <$> seq 0 (after k (1 <=? j)%nat);
  ba_sends : h_sends (rs_h R) = (λ i, send_at r i) <$> seq 0 (after k (2 <=? j)%nat);
  ba_waits : h_wr (rs_h R) buf = after k (3 <=? j)%nat;
}.

Lemma two_pos k : 0 < two k.
Proof. apply Z.pow_pos_nonneg; lia. Qed.
Lemma two_S k : two (S k) = 2 * two k.
Proof. rewrite Nat2Z.inj_succ, Z.pow_succ_r by lia. done. Qed.

Lemma barrier_loop_S n r k : two k < size →
  barrier_loop (S n) r size slot buf (two k) =
    Recv (recv_at r k) :: Send (send_at r k) :: WaitRecv buf :: WaitSend buf ::
    barrier_loop n r size slot buf (two (S k)).
Proof.
  intros Hk. cbn [barrier_loop]. rewrite (proj2 (Z.ltb_lt _ _)) by done.
  rewrite Z.shiftl_mul_pow2, wrap_small, two_S by (pose proof (two_pos k); unfold in_range; lia).
  by rewrite Z.mul_comm.
Qed.

Lemma round_lt_32 k : two k < size → (k < 32)%nat.
Proof.
  intros Hk. apply Nat2Z.inj_lt. apply (Z.pow_lt_mono_r_iff 2); [lia|lia|]. change (2 ^ Z.of_nat 32) with (2 * 2 ^ 31). lia.
Qed.

Lemma barrier_here r k : two k < size →
  barrier_loop (32 - k) r size slot buf (two k) =
    Recv (recv_at r k) :: Send (send_at r k) :: WaitRecv buf :: WaitSend buf ::
    barrier_loop (32 - S k) r size slot buf (two (S k)).
Proof.
  intros Hk. pose proof (round_lt_32 k Hk). replace (32 - k)%nat with (S (32 - S k)) by lia. by apply barrier_loop_S.
Qed.

Lemma fmap_seq_S {A} (f : nat → A) n : f <$> seq 0 (S n) = (f <$> seq 0 n) ++ [f n].
Proof. by rewrite seq_S, fmap_app. Qed.

Lemma on_buf_recvs r n : on_buf buf ((λ i, recv_at r i) <$> seq 0 n) = n.
Proof.
  rewrite on_buf_all; [by rewrite length_fmap, length_seq|]. by intros y (i & -> & _)%list_elem_of_fmap.
Qed.

(** The wait of a round passes only when all receives have completed. *)
Lemma barrier_received r k R :
  rank_ok R → h_recvs (rs_h R) = (λ i, recv_at r i) <$> seq 0 (S k) → h_wr (rs_h R) buf = k →
  rs_cr R buf ≠ O → rs_pr R = [].
Proof.
  intros HR Hrs Hw Hcr. pose proof (so_count _ _ _ _ _ (ro_recvs _ HR) buf) as Hcount.
  rewrite Hrs, on_buf_recvs, Hw in Hcount. assert (on_buf buf (rs_pr R).*2 = O) as Hz by lia.
  destruct (rs_pr R) as [|[i x] pr] eqn:E; [done|]. exfalso.
  assert ((i, x) ∈ rs_pr R) as Hix by (rewrite E; set_solver). apply (so_in _ _ _ _ _ (ro_recvs _ HR)) in Hix.
  rewrite Hrs in Hix. apply list_lookup_fmap_Some in Hix as (i' & -> & _).
  unfold on_buf in Hz. rewrite fmap_cons, filter_cons, decide_True in Hz by done. done.
Qed.

(** The next operation of a process, and the receive it waits for. *)
Lemma barrier_at_local r k j R R' : 0 ≤ r < size → barrier_at r k j R → rank_ok R → local R = Some R' →
  (∃ k' j', barrier_at r k' j' R') ∧ (k ≤ h_wr (rs_h R') buf)%nat ∧
  (h_wr (rs_h R') buf = h_wr (rs_h R) buf ∨
   h_wr (rs_h R) buf = k ∧ j = 2%nat ∧ h_wr (rs_h R') buf = S k ∧ rs_pr R = []).
Proof.
  intros Hr [Hp (Hk & Hj & Hd & Hi) Hrs Hss Hw] HR. unfold local.
  assert (two k < size ∨ rs_prog R = []) as [Hlt|Hnil].
  { destruct j; [|left; apply Hd; lia]. rewrite Hp. destruct (32 - k)%nat; [by right|]. cbn.
    destruct (Z.ltb_spec (two k) size); [by left|by right]. }
  2: by rewrite Hnil.
  pose proof (round_lt_32 k Hlt). rewrite barrier_here in Hp by done.
  destruct j as [|[|[|[|j]]]]; [| | | |lia]; cbn [drop] in Hp; rewrite Hp; cbn [after Nat.leb] in Hrs, Hss, Hw.
  - intros [= <-]. split; [|split; [cbn; lia|by left]]. exists k, 1%nat. split; cbn [after Nat.leb].
    + by rewrite barrier_here.
    + split; [lia|]. split; [lia|done].
    + rewrite fmap_seq_S, <-Hrs. done.
    + exact Hss.
    + exact Hw.
  - intros [= <-]. split; [|split; [cbn; lia|by left]]. exists k, 2%nat. split; cbn [after Nat.leb].
    + by rewrite barrier_here.
    + split; [lia|]. split; [lia|done].
    + exact Hrs.
    + rewrite fmap_seq_S, <-Hss. done.
    + exact Hw.
  - case_decide as Hcr; [done|]. intros [= <-].
    assert (rs_pr R = []) as Hpr by (eapply barrier_received; [done..|lia]).
    assert (bump buf (h_wr (rs_h R)) buf = S k) as Hw' by (unfold bump; by rewrite decide_True, Hw).
    split; [|split; [cbn; lia|by right]]. exists k, 3%nat. split; cbn [after Nat.leb].
    + by rewrite barrier_here.
    + split; [lia|]. split; [lia|done].
    + exact Hrs.
    + exact Hss.
    + exact Hw'.
  - case_decide; [done|]. intros [= <-]. split; [|split; [cbn; lia|by left]]. exists (S k), O.
    split; cbn [after Nat.leb]; [done| |exact Hrs|exact Hss|exact Hw].
    split; [lia|]. split; [lia|]. split; [lia|]. intros i ?. destruct (decide (i = k)) as [->|]; [done|apply Hi; lia].
Qed.

(** What a process knows from the waits it has passed. *)
Definition knows (s : Net) (r : Z) : Prop :=
  ∀ t, 1 ≤ t < two (h_wr (rs_h (nt_rk s r)) buf) → entered s ((r - t) `mod` size).
Definition sync_inv (s : Net) : Prop :=
  ∀ r, 0 ≤ r < size → (∃ k j, barrier_at r k j (nt_rk s r)) ∧ knows s r.

(** A process that receives in round [k] hears from one that has passed the
    waits of the rounds before. *)
Lemma round_sender s r k :
  flow s → 0 ≤ r < size → two k < size →
  (∃ j, barrier_at ((r - two k) `mod` size) j.1 j.2 (nt_rk s ((r - two k) `mod` size))) →
  h_recvs (rs_h (nt_rk s r)) = (λ i, recv_at r i) <$> seq 0 (S k) → rs_pr (nt_rk s r) = [] →
  (k ≤ h_wr (rs_h (nt_rk s ((r - two k) `mod` size))) buf)%nat ∧ entered s ((r - two k) `mod` size).
Proof.
  intros Hf Hr Hk ([k' j'] & Hp) Hrs Hpr. set (p := (r - two k) `mod` size) in *. cbn [fst snd] in Hp.
  assert (0 ≤ p < size) as Hpp by (apply Z.mod_pos_bound; lia). pose proof (two_pos k) as Hk0.
  assert ((p + two k) `mod` size = r) as Hpk by (by apply (peer_inverse size)).
  pose proof (Hf p r slot) as H. rewrite Hrs, Hpr, fmap_seq_S, cnt_app, cnt_one in H.
  assert ((x_peer (recv_at r k), x_slot (recv_at r k)) = (p, slot)) as Hx.
  { cbn. by rewrite (proj1 (peer_recv size Hsize r (two k) Hr ltac:(lia))). }
  rewrite (decide_True _ _ Hx), (ba_sends _ _ _ _ Hp) in H.
  assert (cnt (r, slot) ((λ i, send_at p i) <$> seq 0 (after k' (2 <=? j')%nat)) ≠ O) as Hc by (change (cnt (p, slot) [].*2) with O in H; lia).
  clear Hx H.
  assert (∃ i, (i < after k' (2 <=? j')%nat)%nat ∧ two i < size ∧ (p + two i) `mod` size = r) as (i & Hi & Hi' & Hpi).
  { unfold cnt in Hc. destruct (filter _ _) as [|x l] eqn:E; [done|].
    assert (x ∈ filter (λ x, (x_peer x, x_slot x) = (r, slot)) ((λ i, send_at p i) <$> seq 0 (after k' (2 <=? j')%nat)))
      as [Hx (i & -> & Hi%elem_of_seq)%list_elem_of_fmap]%list_elem_of_filter by (rewrite E; set_solver).
    exists i. assert (two i < size) as Hti.
    { destruct (ba_round _ _ _ _ Hp) as (_ & _ & Hd & Hall). destruct (decide (i < k')%nat); [by apply Hall|].
      destruct j' as [|[|j']]; cbn [after Nat.leb] in Hi; [lia|lia|]. replace i with k' by lia. apply Hd. lia. }
    split; [lia|]. split; [done|]. injection Hx as Hx. unfold barrier_send in Hx. cbn in Hx.
    pose proof (two_pos i). by rewrite (proj2 (peer_recv size Hsize p (two i) Hpp ltac:(lia))) in Hx. }
  assert (i = k) as ->.
  { pose proof (two_pos i). assert (two i = two k) as Ht.
    { apply (mod_shift_inj size p); [lia|lia|]. by rewrite Hpi. }
    apply Nat2Z.inj, (Z.pow_inj_r 2); lia. }
  split.
  - rewrite (ba_waits _ _ _ _ Hp). unfold after in *. destruct (2 <=? j')%nat eqn:E2, (3 <=? j')%nat; lia.
  - unfold entered. rewrite (ba_recvs _ _ _ _ Hp). intros Hn%fmap_nil_inv. unfold after in *.
    destruct j' as [|[|j']]; cbn [Nat.leb] in *; destruct k'; cbn in *; try done; lia.
Qed.

Lemma barrier_at_same r k j R R' : rs_prog R' = rs_prog R → rs_h R' = rs_h R → barrier_at r k j R → barrier_at r k j R'.
Proof. intros Hp Hh [H1 H2 H3 H4 H5]. by split; rewrite ?Hp, ?Hh. Qed.

Lemma local_entered R R' : local R = Some R' → h_recvs (rs_h R) ≠ [] → h_recvs (rs_h R') ≠ [].
Proof.
  unfold local. destruct R as [[|a p] mem ps pr cs cr h]; [done|].
  destruct a; cbn; try case_decide; try done; intros [= <-]; try done. cbn. by destruct (h_recvs h).
Qed.

(** Steps of the transport change neither programs nor histories. *)
Lemma exec_transport l s s' : exec l s = Some s' →
  (∃ r R, l = LLocal r ∧ local (nt_rk s r) = Some R ∧ nt_rk s' = fset r R (nt_rk s)) ∨
  ∀ r, rs_prog (nt_rk s' r) = rs_prog (nt_rk s r) ∧ rs_h (nt_rk s' r) = rs_h (nt_rk s r).
Proof.
  destruct l as [r|p q sl|p q sl]; cbn; intros Hl.
  - destruct (local _) as [R|] eqn:E; [|done]. injection Hl as <-. left. by exists r, R.
  - right. destruct (transmit _ _ _) as [[d R]|] eqn:E; [|done]. injection Hl as <-. intros r. cbn. unfold fset.
    case_decide as Hrp; [|done]. subst. unfold transmit in E. destruct (pick _ _) as [[x ps]|]; [|done]. by injection E as <- <-.
  - right. destruct (nt_ch s _); [done|]. destruct (deliver _ _ _ _) as [R|] eqn:E; [|done]. injection Hl as <-.
    intros r. cbn. unfold fset. case_decide; [|done]. subst. unfold deliver in E. destruct (pick _ _) as [[x pr]|]; [|done].
    cbn [mbind option_bind] in E. case_decide; [|done]. by injection E as <-.
Qed.

Lemma exec_entered l s s' r : exec l s = Some s' → entered s r → entered s' r.
Proof.
  unfold entered. intros Hl. destruct (exec_transport _ _ _ Hl) as [(r' & R & -> & HR & ->)|H].
  - unfold fset. case_decide; [|done]. subst. by apply local_entered.
  - by rewrite (proj2 (H r)).
Qed.

Lemma sync_inv_step s s' l : net_ok s → flow s → sync_inv s → exec l s = Some s' → sync_inv s'.
Proof.
  intros Hok Hf Hinv Hl r Hr. destruct (Hinv r Hr) as [(k & j & Hb) Hk].
  destruct (exec_transport _ _ _ Hl) as [(r' & R & -> & HR & Hrk)|H].
  2: { destruct (H r) as [H1 H2]. split; [exists k, j; by eapply barrier_at_same|].
       intros t Ht. rewrite H2 in Ht. eapply exec_entered; [exact Hl|by apply Hk]. }
  destruct (decide (r = r')) as [<-|Hne].
  2: { unfold knows. rewrite Hrk, fset_other by done. split; [by exists k, j|].
       intros t Ht. eapply exec_entered; [exact Hl|by apply Hk]. }
  destruct (barrier_at_local r k j _ R Hr Hb (Hok r) HR) as (Hex & _ & Hw).
  unfold knows. rewrite Hrk, fset_at. split; [done|]. intros t Ht. eapply exec_entered; [exact Hl|].
  destruct Hw as [Hw|(Hw & -> & Hw' & Hpr)]; [apply Hk; by rewrite Hw in Ht|].
  rewrite Hw', two_S in Ht. assert (two k < size) as Hk2 by (apply (proj1 (proj2 (proj2 (ba_round _ _ _ _ Hb)))); lia).
  destruct (Hinv ((r - two k) `mod` size)) as [(kp & jp & Hbp) Hkp]; [apply Z.mod_pos_bound; lia|].
  destruct (round_sender s r k Hf Hr Hk2) as [Hwp Hep]; [by exists (kp, jp)|by apply (ba_recvs _ _ _ _ Hb)|done|].
  destruct (Z.lt_trichotomy t (two k)) as [Hlt|[->|Hgt]].
  - apply Hk. rewrite Hw. lia.
  - done.
  - replace (r - t) with (r - two k - (t - two k)) by lia. rewrite <-Zminus_mod_idemp_l. apply Hkp.
    split; [lia|]. apply Z.lt_le_trans with (two k); [lia|]. apply Z.pow_le_mono_r; lia.
Qed.

(** The waits passed at the end of the program cover the group. *)
Lemma barrier_end r k j R : barrier_at r k j R → rs_prog R = [] → size ≤ two (h_wr (rs_h R) buf).
Proof.
  intros [Hp (Hk & Hj & Hd & Hi) _ _ Hw] Hn. rewrite Hp in Hn.
  destruct (decide (two k < size)) as [Hlt|Hge].
  - rewrite barrier_here in Hn by done. by destruct j as [|[|[|[|j]]]]; [..|lia].
  - rewrite Hw. transitivity (two k); [lia|]. apply Z.pow_le_mono_r; [lia|]. destruct (3 <=? j)%nat; cbn [after]; lia.
Qed.
End sync.

(** C22: the barrier synchronizes. In every reachable state, if some process has
    left the barrier then every other process has entered it. *)
Theorem barrier_synchronizes (size tag buf : Z) (mems : Z → Mem) (s : Net) (p q : Z) :
  1 ≤ size < 2 ^ 31 → 0 ≤ p < size → 0 ≤ q < size → p ≠ q →
  rtc net_step (net_init (group size (λ r, barrier r size tag buf)) mems) s →
  rs_prog (nt_rk s p) = [] → entered s q.
Proof.
  intros Hs Hp Hq Hpq Hrun Hend. set (slot := Slot_value (Slot_build kBarrierSlotPrefix tag)).
  assert (sync_inv size slot buf s) as Hinv.
  { clear Hend. revert s Hrun. apply reachable_ind.
    - apply group_clean. intros. apply barrier_loop_clean.
    - intros r Hr. split; [|intros t Ht; cbn in Ht; lia]. exists O, O. cbn. unfold group. rewrite decide_True by done.
      split; [done| |done..]. split; [lia|]. split; [lia|]. split; lia.
    - intros s s' l. by apply sync_inv_step. }
  destruct (Hinv p Hp) as [(k & j & Hb) Hk]. pose proof (barrier_end size slot buf Hs p k j _ Hb Hend) as Hc.
  assert (0 < (p - q) `mod` size < size) as Ht.
  { pose proof (Z.mod_pos_bound (p - q) size). destruct (Z.eq_dec ((p - q) `mod` size) 0) as [E|]; [|lia].
    exfalso. apply Hpq. apply (mod_shift_inj size 0); [lia|lia|]. rewrite !Z.add_0_l.
    apply Z.mod_divide in E as [z Hz]; [|lia]. replace p with (q + z * size) by lia. by apply Z.mod_add; lia. }
  specialize (Hk ((p - q) `mod` size)). rewrite Zminus_mod_idemp_r in Hk.
  replace (p - (p - q)) with q in Hk by lia. rewrite (Z.mod_small q size) in Hk by lia. apply Hk. lia.
Qed.

(** Two processes: 1 leaves after its last wait, 0 has entered. *)
Lemma barrier_synchronizes_witness :
  ∃ s, rtc net_step (net_init (group 2 (λ r, barrier r 2 7 3)) (λ _ _ _, 0)) s ∧
    rs_prog (nt_rk s 1) = [] ∧ entered s 0.
Proof.
  destruct (barrier_completes 2 7 3 (λ _ _ _, 0)) as (n & f & Hf & _ & Hn); [lia|].
  destruct (Hn O _ (nsteps_O _ _)) as [_ Hs]. rewrite Nat.sub_0_r in Hs. apply rtc_nsteps_2 in Hs.
  exists f. split; [done|]. split; [apply Hf|].
  apply (barrier_synchronizes 2 7 3 (λ _ _ _, 0) f 1 0); [lia|lia|lia|lia|done|apply Hf].
Defined.
