(* ===== verification/Bulk.v ===== *)
(** Collectives of rounds in which every process posts its operations, waits
    for all of them, and goes on with nothing in transit. *)
From Stdlib Require Import FunctionalExtensionality.
From S2P Require Import Prelude Net NetRun Groups Rounds.

(* ------------------------------------------------------------------ *)
(** * One round *)

Section round.
(** Process [r] sends to the processes [sp r] and receives from [rp r]. *)
Context (size slot : Z) (sp rp : Z → list Z) (val : Z → Z → list Z) (ro : Z → Z → Region).
Context (acts ws fin : Z → list Act) (mems : Z → Mem).

Definition round_recvs (r : Z) : list Xfer := (λ p, mkXfer p slot (ro r p)) <$> rp r.
Definition round_msgs (r : Z) : list Msg := (λ p, mkMsg p slot (val p r)) <$> rp r.
Definition round_mem (r : Z) : Mem :=
  mem_after (receives (mem_after (mems r) (acts r)) (round_recvs r) (round_msgs r)) (fin r).

Context (Hsp : ∀ r q, 0 ≤ r < size → q ∈ sp r → 0 ≤ q < size ∧ r ∈ rp q).
Context (Hrp : ∀ r q, 0 ≤ r < size → q ∈ rp r → 0 ≤ q < size ∧ r ∈ sp q).
Context (Hnd : ∀ r, 0 ≤ r < size → NoDup (sp r) ∧ NoDup (rp r)).
Context (Hposts : ∀ r, 0 ≤ r < size → Forall is_post (acts r) ∧ recvs_of (acts r) = round_recvs r).
Context (Hsent : ∀ r, 0 ≤ r < size → sent (mems r) (acts r) = (λ q, mkMsg q slot (val r q)) <$> sp r).
Context (Hlen : ∀ r p, 0 ≤ r < size → p ∈ rp r → Z.of_nat (length (val p r)) = rg_len (ro r p)).
Context (Hws : ∀ r, 0 ≤ r < size → Forall is_wait (ws r) ∧ ∀ b,
  waits_send b (ws r) = on_buf b (sends_of (acts r)) ∧ waits_recv b (ws r) = on_buf b (recvs_of (acts r))).
Context (Hfin : ∀ r, 0 ≤ r < size → Forall is_compute (fin r)).

Lemma round_matched p q sl :
  datas (q, sl) (at_rank (ranks size) p (sent (mems p) (acts p))) = datas (p, sl) (at_rank (ranks size) q (round_msgs q)).
Proof.
  unfold at_rank, round_msgs. destruct (decide (p ∈ ranks size)) as [Hp%elem_ranks|Hp],
    (decide (q ∈ ranks size)) as [Hq%elem_ranks|Hq]; [| | |done].
  - rewrite Hsent by done. rewrite (datas_map (q, sl) slot (val p)), (datas_map (p, sl) slot (λ p, val p q)) by by apply Hnd.
    cbn [fst snd]. apply decide_ext. split; (intros [-> H]; split; [done|]); [by eapply Hsp|by eapply Hrp].
  - rewrite Hsent by done. rewrite (datas_map (q, sl) slot (val p)) by by apply Hnd. rewrite decide_False; [done|].
    intros [_ H]. apply Hq, elem_ranks. by apply (Hsp p q Hp).
  - rewrite (datas_map (p, sl) slot (λ p, val p q)) by by apply Hnd. rewrite decide_False; [done|].
    intros [_ H]. apply Hp, elem_ranks. by apply (Hrp q p Hq).
Qed.

Lemma round_lead rest : leads size (λ r, acts r ++ ws r ++ fin r ++ rest r) mems rest round_mem.
Proof.
  intros s Hc HR.
  destruct (net_round (ranks size) s (λ r, sent (mems r) (acts r)) round_msgs
    (λ r R, rank_at (rest r) (round_mem r) (λ _, O) (λ _, O) R)) as (s' & Hs & HR' & Hout & Hc').
  - apply NoDup_seqZ.
  - done.
  - intros r Hr. pose proof (HR r Hr) as H0. apply elem_ranks in Hr. destruct (Hposts r Hr) as (Hp & Hrv).
    destruct (Hws r Hr) as (Hw & Hcnt).
    eapply rank_round_post; [apply (rank_round_posts _ _ _ _ _ _ (round_msgs r) H0 Hp)|].
    + rewrite Hrv. unfold round_recvs, round_msgs. apply Forall2_fmap, Forall_Forall2_diag, Forall_forall.
      intros p Hin. split; [done|]. split; [done|]. by apply Hlen.
    + intros R2 HR2. rewrite Hrv in HR2.
      assert (reaches (ws r ++ fin r ++ rest r) (receives (mem_after (mems r) (acts r)) (round_recvs r) (round_msgs r))
        (bumps (sends_of (acts r)) (λ _, O)) (bumps (round_recvs r) (λ _, O)) (rest r) (round_mem r) (λ _, O) (λ _, O)) as Hre; [|by apply (reaches_at _ _ _ _ _ _ _ _ _ Hre)].
      eapply reaches_trans; [|by apply reaches_computes, Hfin].
      apply reaches_waits; [done|..]; intros b; rewrite bumps_count; destruct (Hcnt b) as [H1 H2]; [by rewrite H1|by rewrite H2, Hrv].
  - apply round_matched.
  - exists s'. split; [done|]. split; [done|]. split; [done|]. done.
Qed.
End round.

(* ------------------------------------------------------------------ *)
(** * Rounds stay clear of what is in transit *)

(** Nothing posted so far is in transit, and all of it was waited for. *)
Record rested (h : Hist) : Prop := {
  re_sends : ∀ j y, h_sends h !! j = Some y → (j < h_fs h (x_buf y))%nat;
  re_recvs : ∀ j y, h_recvs h !! j = Some y → (j < h_fr h (x_buf y))%nat;
  re_count : ∀ b, h_ws h b = on_buf b (h_sends h) ∧ h_wr h b = on_buf b (h_recvs h);
}.

Lemma rested0 : rested hist0.
Proof. by split. Qed.

(** All that may be in transit is in [l]. *)
Definition among (l h : list Xfer) (f : Z → nat) : Prop := ∀ j y, h !! j = Some y → (j < f (x_buf y))%nat ∨ y ∈ l.

Lemma among_clear l h w f r : among l h f → all_apart l r → ∀ j y, busy h w f j y → apart (x_reg y) r.
Proof.
  intros Ha Hl j y (Hj & _ & Hf). destruct (Ha j y Hj); [lia|]. unfold all_apart in Hl. rewrite Forall_forall in Hl. by apply Hl.
Qed.

Lemma among_post l h f x : among l h f → among (l ++ [x]) (h ++ [x]) f.
Proof.
  intros Ha j y [Hj|[_ Hj]]%lookup_app_Some.
  - destruct (Ha j y Hj); [by left|right; set_solver].
  - apply list_lookup_singleton_Some in Hj as [_ ->]. right. set_solver.
Qed.

(** Posts that keep clear of those before. *)
Fixpoint tidy (ps pr : list Xfer) (p : list Act) : Prop :=
  match p with
  | [] => True
  | Send x :: p => all_apart pr (x_reg x) ∧ tidy (ps ++ [x]) pr p
  | Recv x :: p => (all_apart pr (x_reg x) ∧ all_apart ps (x_reg x)) ∧ tidy ps (pr ++ [x]) p
  | Compute d _ srcs :: p => (all_apart pr d ∧ all_apart ps d ∧ Forall (all_apart pr) srcs) ∧ tidy ps pr p
  | _ => False
  end.

Lemma tidy_clean acts : ∀ h ps pr rest,
  among ps (h_sends h) (h_fs h) → among pr (h_recvs h) (h_fr h) → tidy ps pr acts →
  (∀ h', among (ps ++ sends_of acts) (h_sends h') (h_fs h') → among (pr ++ recvs_of acts) (h_recvs h') (h_fr h') →
     h_sends h' = h_sends h ++ sends_of acts → h_recvs h' = h_recvs h ++ recvs_of acts →
     h_ws h' = h_ws h → h_wr h' = h_wr h → clean h' rest) →
  clean h (acts ++ rest).
Proof.
  induction acts as [|a acts IH]; intros h ps pr rest Hs Hr Ht Hk.
  - cbn in *. rewrite !app_nil_r in Hk. by apply Hk.
  - pose proof (λ r, among_clear pr _ (h_wr h) _ r Hr) as Hcr. change (∀ r, all_apart pr r → clear_of_recvs h r) in Hcr.
    pose proof (λ r, among_clear ps _ (h_ws h) _ r Hs) as Hcs. change (∀ r, all_apart ps r → clear_of_sends h r) in Hcs.
    destruct a as [x|x| | |d f srcs|]; cbn [tidy] in Ht; try done; cbn [app clean ok_act].
    + destruct Ht as [Ha Ht]. split; [by apply Hcr|]. eapply (IH _ (ps ++ [x]) pr); [by apply among_post|done|done|].
      intros h'. cbn [h_sends h_recvs h_ws h_wr h_fs h_fr hist_step]. intros H1 H2 H3 H4. apply Hk.
      * change (sends_of (Send x :: acts)) with ([x] ++ sends_of acts). by rewrite (assoc_L (++)).
      * done.
      * change (sends_of (Send x :: acts)) with ([x] ++ sends_of acts). by rewrite (assoc_L (++)).
      * done.
    + destruct Ht as [[Ha1 Ha2] Ht]. split; [split; [by apply Hcr|by apply Hcs]|].
      eapply (IH _ ps (pr ++ [x])); [done|by apply among_post|done|].
      intros h'. cbn [h_sends h_recvs h_ws h_wr h_fs h_fr hist_step]. intros H1 H2 H3 H4. apply Hk.
      * done.
      * change (recvs_of (Recv x :: acts)) with ([x] ++ recvs_of acts). by rewrite (assoc_L (++)).
      * done.
      * change (recvs_of (Recv x :: acts)) with ([x] ++ recvs_of acts). by rewrite (assoc_L (++)).
    + destruct Ht as [(H1 & H2 & H3) Ht]. split; [|by apply (IH _ ps pr)]. split; [by apply Hcr|]. split; [by apply Hcs|].
      eapply Forall_impl; [exact H3|]. intros r Har. by apply Hcr.
Qed.

Lemma tidy_app p : ∀ ps pr q, tidy ps pr p → tidy (ps ++ sends_of p) (pr ++ recvs_of p) q → tidy ps pr (p ++ q).
Proof.
  induction p as [|a p IH]; intros ps pr q Hp Hq; [cbn in Hq; by rewrite !app_nil_r in Hq|].
  destruct a as [x|x| | |d f srcs|]; cbn [tidy] in Hp; try done; cbn [app tidy]; destruct Hp as [Ha Hp]; (split; [done|]); apply IH; try done.
  - change (sends_of (Send x :: p)) with ([x] ++ sends_of p) in Hq. by rewrite (assoc_L (++)) in Hq.
  - change (recvs_of (Recv x :: p)) with ([x] ++ recvs_of p) in Hq. by rewrite (assoc_L (++)) in Hq.
Qed.

Lemma tidy_quiet ss rs ps pr acts :
  quiet ss rs acts → (∀ x, x ∈ ps → x_reg x ∈ ss) → (∀ x, x ∈ pr → x_reg x ∈ rs) → tidy ps pr acts.
Proof.
  intros Hq Hss Hrs. assert (∀ l ls r, (∀ x, x ∈ l → x_reg x ∈ ls) → Forall (λ y, apart y r) ls → all_apart l r) as Hall.
  { intros l ls r Hl Hr. apply Forall_forall. intros y Hy. rewrite Forall_forall in Hr. by apply Hr, Hl. }
  induction Hq as [|a acts Ha _ IH]; [done|]. destruct a as [| | | |d f srcs|]; try done. cbn [tidy].
  destruct Ha as [[H1 H2]%Forall_app H3]. split; [|done]. split; [by eapply Hall|]. split; [by eapply Hall|].
  eapply Forall_impl; [exact H3|]. intros r Hr. by eapply Hall.
Qed.

Lemma tidy_recvs {A} (f : A → Xfer) l : NoDup l → (∀ i j, i ∈ l → j ∈ l → i ≠ j → apart (x_reg (f i)) (x_reg (f j))) →
  ∀ ps pr, (∀ i, i ∈ l → all_apart ps (x_reg (f i)) ∧ all_apart pr (x_reg (f i))) → tidy ps pr ((λ i, Recv (f i)) <$> l).
Proof.
  induction 1 as [|i l Hni Hnd IH]; intros Ha ps pr Hall; [done|]. cbn [fmap list_fmap tidy].
  destruct (Hall i ltac:(set_solver)) as [H1 H2]. split; [done|]. apply IH; [intros; apply Ha; set_solver|].
  intros j Hj. destruct (Hall j ltac:(set_solver)) as [H3 H4]. split; [done|]. apply Forall_app. split; [done|].
  constructor; [|constructor]. apply Ha; set_solver.
Qed.

Lemma tidy_sends {A} (f : A → Xfer) l : ∀ ps pr, (∀ i, i ∈ l → all_apart pr (x_reg (f i))) → tidy ps pr ((λ i, Send (f i)) <$> l).
Proof.
  induction l as [|i l IH]; intros ps pr Hall; [done|]. cbn [fmap list_fmap tidy]. split; [apply Hall; set_solver|].
  apply IH. set_solver.
Qed.

(** Waiting for everything. *)
Definition waited (h : list Xfer) (w f : Z → nat) (n : Z → nat) : Prop :=
  (∀ b, on_buf b h = (w b + n b)%nat) ∧ ∀ j y, h !! j = Some y → (j < f (x_buf y))%nat ∨ (0 < n (x_buf y))%nat.

Lemma waited_step h w f n b : waited h w f (λ b', (one b' b + n b')%nat) → waited h (bump b w) (settle h (bump b w) b f) n.
Proof.
  intros [H1 H2]. split.
  - intros b'. specialize (H1 b'). unfold bump, one in *. repeat case_decide; lia || congruence.
  - intros j y Hj. unfold settle. pose proof (lookup_lt_Some _ _ _ Hj) as Hlt. specialize (H2 j y Hj). specialize (H1 b).
    destruct (decide (x_buf y = b)) as [Hb|Hb].
    + destruct (decide (n b = O)) as [Hn|Hn]; [left|right; rewrite Hb; lia]. rewrite decide_True; [done|]. split; [done|].
      unfold bump, one in *. rewrite !decide_True in * by done. lia.
    + rewrite decide_False by tauto. unfold one in H2. rewrite decide_False in H2 by congruence. done.
Qed.

Lemma waits_clean ws : Forall is_wait ws → ∀ h rest,
  waited (h_sends h) (h_ws h) (h_fs h) (λ b, waits_send b ws) → waited (h_recvs h) (h_wr h) (h_fr h) (λ b, waits_recv b ws) →
  (∀ h', rested h' → clean h' rest) → clean h (ws ++ rest).
Proof.
  induction 1 as [|a ws Ha _ IH]; intros h rest Hs Hr Hk.
  - apply Hk. destruct Hs as [S1 S2], Hr as [R1 R2]. split.
    + intros j y Hj. destruct (S2 j y Hj); [done|cbn in *; lia].
    + intros j y Hj. destruct (R2 j y Hj); [done|cbn in *; lia].
    + intros b. specialize (S1 b). specialize (R1 b). cbn in *. lia.
  - destruct a as [| |b|b| |]; try done; (split; [done|]); apply IH; [by apply waited_step|done|done|done|by apply waited_step|done].
Qed.

Lemma round_clean h acts ws rest : rested h → tidy [] [] acts → Forall is_wait ws →
  (∀ b, waits_send b ws = on_buf b (sends_of acts) ∧ waits_recv b ws = on_buf b (recvs_of acts)) →
  (∀ h', rested h' → clean h' rest) → clean h (acts ++ ws ++ rest).
Proof.
  intros [H1 H2 H3] Ht Hw Hc Hk. apply (tidy_clean acts h [] []); [by left; apply H1|by left; apply H2|done|].
  intros h' A1 A2 E1 E2 E3 E4. cbn [app] in A1, A2.
  assert (∀ b l y, y ∈ l → x_buf y = b → (0 < on_buf b l)%nat) as Hpos.
  { intros b l y Hy Hb. unfold on_buf. assert (y ∈ filter (λ y, x_buf y = b) l) as Hin by by apply list_elem_of_filter.
    destruct (filter _ _); [by apply not_elem_of_nil in Hin|cbn; lia]. }
  apply waits_clean; [done| | |done].
  - split; [intros b; destruct (H3 b), (Hc b); rewrite E1, E3, on_buf_app; lia|].
    intros j y Hj. destruct (A1 j y Hj) as [|Hin]; [by left|right]. destruct (Hc (x_buf y)) as [-> _]. by eapply Hpos.
  - split; [intros b; destruct (H3 b), (Hc b); rewrite E2, E4, on_buf_app; lia|].
    intros j y Hj. destruct (A2 j y Hj) as [|Hin]; [by left|right]. destruct (Hc (x_buf y)) as [_ ->]. by eapply Hpos.
Qed.

(** Computations with nothing in transit. *)
Lemma rested_computes acts : Forall is_compute acts → ∀ h rest, rested h → (∀ h', rested h' → clean h' rest) → clean h (acts ++ rest).
Proof.
  induction 1 as [|a acts Ha _ IH]; intros h rest Hh Hk; [by apply Hk|]. destruct a as [| | | |d f srcs|]; try done.
  split; [|by apply IH]. destruct Hh as [H1 H2 _].
  assert (∀ r, clear_of_recvs h r) as Hcr by (intros r j y (Hj & _ & Hf); specialize (H2 j y Hj); lia).
  assert (∀ r, clear_of_sends h r) as Hcs by (intros r j y (Hj & _ & Hf); specialize (H1 j y Hj); lia).
  split; [done|]. split; [done|]. by apply Forall_forall.
Qed.

(* ------------------------------------------------------------------ *)
(** * Rested after operations in order *)

(** A buffer with no more to wait for has completed all of its operations. *)
Definition settled (h : list Xfer) (w f : Z → nat) : Prop :=
  ∀ j y, h !! j = Some y → (on_buf (x_buf y) h ≤ w (x_buf y))%nat → (j < f (x_buf y))%nat.

Lemma settled_post h w f l x : in_flight l h w → settled h w f → settled (h ++ [x]) w f.
Proof.
  intros Hl H j y Hj Hw. destruct (Hl (x_buf y)) as [_ Hle]. change (length _) with (on_buf (x_buf y) h) in Hle.
  rewrite on_buf_app, on_buf_one in Hw. apply lookup_app_Some in Hj as [Hj|[_ Hj]].
  - apply (H j y Hj). lia.
  - apply list_lookup_singleton_Some in Hj as [_ ->]. rewrite decide_True in Hw by done. lia.
Qed.

Lemma settled_wait h w f b : settled h w f → settled h (bump b w) (settle h (bump b w) b f).
Proof.
  intros H j y Hj Hw. unfold settle. pose proof (lookup_lt_Some _ _ _ Hj). case_decide as Hd; [done|].
  destruct (decide (x_buf y = b)) as [Hb|Hb].
  - destruct Hd. split; [done|]. by rewrite Hb in Hw.
  - apply (H j y Hj). unfold bump in Hw. by rewrite decide_False in Hw.
Qed.

Lemma fifo_settled p : ∀ h ps pr, fifo ps pr p →
  in_flight ps (h_sends h) (h_ws h) → in_flight pr (h_recvs h) (h_wr h) →
  settled (h_sends h) (h_ws h) (h_fs h) → settled (h_recvs h) (h_wr h) (h_fr h) →
  let h' := hist_run p h in settled (h_sends h') (h_ws h') (h_fs h') ∧ settled (h_recvs h') (h_wr h') (h_fr h').
Proof.
  induction p as [|a p IH]; intros h ps pr Hf Hs Hr Ss Sr; [done|].
  change (hist_run (a :: p) h) with (hist_run p (hist_step a h)). destruct a as [x|x|b|b|d f srcs|e]; cbn [fifo] in Hf.
  - destruct Hf as [_ Hf]. apply (IH _ (ps ++ [x]) pr); [done|by apply in_flight_post|done|by eapply settled_post|done].
  - destruct Hf as [_ Hf]. apply (IH _ ps (pr ++ [x])); [done|done|by apply in_flight_post|done|by eapply settled_post].
  - destruct (retire b ps) as [ps'|] eqn:E; [|done].
    apply (IH _ ps' pr); [done|by eapply in_flight_retire|done|by apply settled_wait|done].
  - destruct (retire b pr) as [pr'|] eqn:E; [|done].
    apply (IH _ ps pr'); [done|done|by eapply in_flight_retire|done|by apply settled_wait].
  - destruct Hf as [_ Hf]. by apply (IH _ ps pr).
  - by apply (IH _ ps pr).
Qed.

Lemma waits_app b p q :
  waits_send b (p ++ q) = (waits_send b p + waits_send b q)%nat ∧ waits_recv b (p ++ q) = (waits_recv b p + waits_recv b q)%nat.
Proof. induction p as [|a p [H1 H2]]; [done|]. destruct a; cbn [app waits_send waits_recv]; rewrite ?H1, ?H2; lia. Qed.

Lemma waits_computes b p : Forall is_compute p → waits_send b p = O ∧ waits_recv b p = O.
Proof. induction 1 as [|a p Ha _ IH]; [done|]. by destruct a. Qed.

(** As many waits as operations. *)
Definition all_waited (p : list Act) : Prop :=
  ∀ b, waits_send b p = on_buf b (sends_of p) ∧ waits_recv b p = on_buf b (recvs_of p).

Lemma hist_run_waits p : ∀ h b,
  h_ws (hist_run p h) b = (h_ws h b + waits_send b p)%nat ∧ h_wr (hist_run p h) b = (h_wr h b + waits_recv b p)%nat.
Proof.
  induction p as [|a p IH]; intros h b; [cbn; lia|]. change (hist_run (a :: p) h) with (hist_run p (hist_step a h)).
  destruct (IH (hist_step a h) b) as [-> ->].
  destruct a as [x|x|b'|b'|d f srcs|e]; cbn [hist_step waits_send waits_recv h_ws h_wr]; try done;
    unfold one, bump; cbn; case_decide as Hd; case_decide; subst; try done; lia.
Qed.

Lemma hist_run_ops p : ∀ h, h_sends (hist_run p h) = h_sends h ++ sends_of p ∧ h_recvs (hist_run p h) = h_recvs h ++ recvs_of p.
Proof.
  induction p as [|a p IH]; intros h; [by rewrite !app_nil_r|]. change (hist_run (a :: p) h) with (hist_run p (hist_step a h)).
  destruct (IH (hist_step a h)) as [-> ->]. destruct a as [x|x|b|b|d f srcs|e]; try done; cbn [hist_step]; cbn; by rewrite <-(assoc_L (++)).
Qed.

Lemma fifo_rested p : fifo [] [] p → all_waited p → rested (hist_run p hist0).
Proof.
  intros Hf Hw. destruct (fifo_settled p hist0 [] [] Hf) as [Ss Sr]; [done..|].
  destruct (hist_run_ops p hist0) as [Es Er].
  assert (∀ b, h_ws (hist_run p hist0) b = on_buf b (h_sends (hist_run p hist0)) ∧
    h_wr (hist_run p hist0) b = on_buf b (h_recvs (hist_run p hist0))) as Hc.
  { intros b. destruct (hist_run_waits p hist0 b) as [-> ->]. rewrite Es, Er. destruct (Hw b) as [-> ->]. done. }
  split; [..|done]; intros j y Hj.
  - apply (Ss j y Hj). by rewrite (proj1 (Hc _)).
  - apply (Sr j y Hj). by rewrite (proj2 (Hc _)).
Qed.
