(* ===== verification/Segments.v ===== *)
(** How the ring reductions cut a buffer into segments: the arithmetic of
    [ring] in [src/gloo/allreduce.cc] and of [reduce] in [src/gloo/reduce.cc]. *)
From S2P Require Import Prelude MathOps Net NetRun Groups Rounds.

(* ------------------------------------------------------------------ *)
(** * The code's arithmetic *)

(** Segments in all, segments per rank, bytes per segment. *)
Record Layout := mkLayout { numSegments : Z; numSegmentsPerRank : Z; segmentBytes : Z }.

(** [ring] of [allreduce.cc] *)
Definition allreduce_layout (size totalBytes elementSize maxSegmentSize : Z) : Layout :=
  let maxSegmentBytes := u64 (elementSize * Z.max 1 (maxSegmentSize / elementSize)) in
  let numSegments :=
    roundUp (Z.max (u64 (totalBytes + (maxSegmentBytes - 1)) / maxSegmentBytes) (size * 2)) size in
  let numSegmentsPerRank := numSegments / size in
  let segmentBytes := roundUp (u64 (totalBytes + numSegments - 1) / numSegments) elementSize in
  mkLayout numSegments numSegmentsPerRank segmentBytes.

(** [reduce]: overflow of the [int] [size * 2] and dividing by zero are
    undefined. *)
Definition reduce_layout (size totalBytes elementSize maxSegmentSize : Z) : option Layout :=
  if 2 ^ 31 <=? size * 2 then None else
  let maxSegmentSize := u64 (elementSize * (maxSegmentSize / elementSize)) in
  let segmentBytes :=
    roundUp (Z.min (u64 (totalBytes + (size * 2 - 1)) / (size * 2)) maxSegmentSize) elementSize in
  if segmentBytes =? 0 then None else
  let numSegments := roundUp (Z.max (u64 (totalBytes + (segmentBytes - 1)) / segmentBytes) (size * 2)) size in
  Some (mkLayout numSegments (numSegments / size) segmentBytes).

(** The offset of segment [i] of the chunk [k] ranks on, and the length there. *)
Definition segment_off (L : Layout) (rank k i : Z) : Z :=
  u64 (u64 (u64 ((rank + k) * numSegmentsPerRank L) + i) * segmentBytes L) `mod` u64 (numSegments L * segmentBytes L).
Definition segment_len (L : Layout) (totalBytes off : Z) : Z :=
  Z.min (s64 (segmentBytes L)) (s64 (s64 totalBytes - s64 off)).

(** [computeReduceScatterOffsets(i)] and [computeAllgatherOffsets(i)]: offset
    and length of a segment of the chunk [k] ranks on. *)
Definition computeOffsets (L : Layout) (totalBytes rank k i : Z) : Z * Z :=
  let off := segment_off L rank k i in (off, segment_len L totalBytes off).

(** A segment of the other chunks only when it has a length. *)
Definition when_positive (len : Z) (l : list Act) : list Act := if 0 <? len then l else [].

(** Where segment [i] goes in a scratch buffer that holds two. *)
Definition half_of (segmentBytes : Z) (i : nat) : Z := if Z.land (Z.of_nat i) 1 =? 0 then 0 else segmentBytes.

(* ------------------------------------------------------------------ *)
(** * What the layouts promise *)

Record layout_ok (size totalBytes elementSize : Z) (L : Layout) : Prop := {
  lo_ranks : numSegments L = size * numSegmentsPerRank L;
  lo_two : 2 ≤ numSegmentsPerRank L;
  lo_cover : totalBytes ≤ numSegments L * segmentBytes L;
  lo_elems : (elementSize | segmentBytes L);
  lo_pos : 0 < segmentBytes L;
}.

Lemma ceil_div a b : 0 < b → 0 ≤ a → a ≤ (a + (b - 1)) / b * b.
Proof. intros. pose proof (Z.div_mod (a + (b - 1)) b). pose proof (Z.mod_pos_bound (a + (b - 1)) b). nia. Qed.

Lemma allreduce_layout_lemma size totalBytes elementSize maxSegmentSize :
  1 ≤ size < 2 ^ 31 → 0 < elementSize → 0 < totalBytes < 2 ^ 62 → 0 ≤ maxSegmentSize < 2 ^ 62 → elementSize < 2 ^ 62 →
  layout_ok size totalBytes elementSize (allreduce_layout size totalBytes elementSize maxSegmentSize).
Proof.
  intros Hs He Ht Hm He2. unfold allreduce_layout.
  assert (0 < elementSize * Z.max 1 (maxSegmentSize / elementSize) < 2 ^ 63) as Hmax.
  { pose proof (Z.mul_div_le maxSegmentSize elementSize He). nia. }
  rewrite (wrap_small 64 (elementSize * _)) by (unfold in_range; lia).
  set (mb := elementSize * _) in *. rewrite (wrap_small 64 (totalBytes + (mb - 1))) by (unfold in_range; lia).
  assert (0 ≤ (totalBytes + (mb - 1)) / mb ≤ totalBytes) as Hq.
  { split; [apply Z.div_pos; lia|]. apply Z.div_le_upper_bound; nia. }
  destruct (roundUp_spec (Z.max ((totalBytes + (mb - 1)) / mb) (size * 2)) size) as (Hd & H1 & H2); [lia|lia|lia|].
  set (ns := roundUp _ size) in *. destruct Hd as [p Hp].
  rewrite (wrap_small 64 (totalBytes + ns - 1)) by (unfold in_range; lia).
  assert (0 ≤ (totalBytes + ns - 1) / ns ≤ totalBytes) as Hsb.
  { split; [apply Z.div_pos; lia|]. apply Z.div_le_upper_bound; nia. }
  destruct (roundUp_spec ((totalBytes + ns - 1) / ns) elementSize) as (Hd' & H3 & H4); [lia|lia|lia|].
  set (sb := roundUp _ elementSize) in *.
  pose proof (ceil_div totalBytes ns ltac:(lia) ltac:(lia)) as Hc.
  replace (totalBytes + (ns - 1)) with (totalBytes + ns - 1) in Hc by lia.
  assert (ns / size = p) as Hpp by (rewrite Hp; by apply Z.div_mul; lia).
  split; cbn [numSegments numSegmentsPerRank segmentBytes]; rewrite ?Hpp; [lia|nia|nia|done|nia].
Qed.

Lemma div_up_bound a b : 0 < b → 0 ≤ a → (a + (b - 1)) / b * b ≤ a + (b - 1).
Proof. intros. pose proof (Z.mul_div_le (a + (b - 1)) b). lia. Qed.

(** The segments reach over the end of the buffer by little. *)
Lemma allreduce_layout_bytes size totalBytes elementSize maxSegmentSize :
  1 ≤ size < 2 ^ 31 → 0 < elementSize → 0 < totalBytes < 2 ^ 62 → 0 ≤ maxSegmentSize < 2 ^ 62 → elementSize < 2 ^ 62 →
  let L := allreduce_layout size totalBytes elementSize maxSegmentSize in
  numSegments L * segmentBytes L ≤ 2 * totalBytes + (3 * size + 1) * elementSize.
Proof.
  intros Hs He Ht Hm He2. unfold allreduce_layout. cbn [numSegments segmentBytes].
  assert (elementSize ≤ elementSize * Z.max 1 (maxSegmentSize / elementSize) < 2 ^ 63) as Hmax.
  { pose proof (Z.mul_div_le maxSegmentSize elementSize He). nia. }
  rewrite (wrap_small 64 (elementSize * _)) by (unfold in_range; lia).
  set (mb := elementSize * _) in *. rewrite (wrap_small 64 (totalBytes + (mb - 1))) by (unfold in_range; lia).
  pose proof (div_up_bound totalBytes mb ltac:(lia) ltac:(lia)) as Hq.
  assert (0 ≤ (totalBytes + (mb - 1)) / mb ≤ totalBytes) as Hq0.
  { split; [apply Z.div_pos; lia|]. apply Z.div_le_upper_bound; nia. }
  set (q := (totalBytes + (mb - 1)) / mb) in *.
  destruct (roundUp_spec (Z.max q (size * 2)) size) as (_ & H1 & H2); [lia|lia|lia|].
  set (ns := roundUp _ size) in *. rewrite (wrap_small 64 (totalBytes + ns - 1)) by (unfold in_range; lia).
  replace (totalBytes + ns - 1) with (totalBytes + (ns - 1)) by lia.
  pose proof (div_up_bound totalBytes ns ltac:(lia) ltac:(lia)) as Hc.
  assert (0 ≤ (totalBytes + (ns - 1)) / ns ≤ totalBytes) as Hsb.
  { split; [apply Z.div_pos; lia|]. apply Z.div_le_upper_bound; nia. }
  destruct (roundUp_spec ((totalBytes + (ns - 1)) / ns) elementSize) as (_ & H3 & H4); [lia|lia|lia|].
  set (sb := roundUp _ elementSize) in *. set (c := (totalBytes + (ns - 1)) / ns) in *.
  assert (ns * sb ≤ ns * (c + elementSize - 1)) as HA by (apply Z.mul_le_mono_nonneg_l; lia).
  assert (ns ≤ q + 3 * size - 1) as HB by lia.
  assert (ns * elementSize ≤ (q + 3 * size - 1) * elementSize) as HC by (apply Z.mul_le_mono_nonneg_r; lia).
  assert (q * elementSize ≤ totalBytes + elementSize) as HD; [|lia].
  destruct (decide (q = 0)) as [->|Hq1]; [lia|]. assert ((q - 1) * elementSize ≤ (q - 1) * mb) by (apply Z.mul_le_mono_nonneg_l; lia). lia.
Qed.

(** The segments of a reduce. *)
Lemma reduce_layout_lemma size totalBytes elementSize maxSegmentSize :
  1 ≤ size < 2 ^ 30 → 0 < elementSize ≤ maxSegmentSize → maxSegmentSize < 2 ^ 62 → 0 < totalBytes < 2 ^ 62 →
  ∃ L, reduce_layout size totalBytes elementSize maxSegmentSize = Some L ∧ layout_ok size totalBytes elementSize L ∧
    2 * (numSegments L * segmentBytes L) ≤ 5 * totalBytes + 6 * (size * elementSize).
Proof.
  intros Hs He Hm Ht. unfold reduce_layout. rewrite (proj2 (Z.leb_gt _ _)) by lia.
  pose proof (Z.mul_div_le maxSegmentSize elementSize ltac:(lia)) as Hq.
  assert (1 ≤ maxSegmentSize / elementSize) as Hq1 by (apply Z.div_le_lower_bound; lia).
  rewrite (wrap_small 64 (elementSize * _)) by (unfold in_range; nia). set (mb := elementSize * _) in *.
  assert (0 < mb) as Hmb by (unfold mb; nia).
  rewrite (wrap_small 64 (totalBytes + (size * 2 - 1))) by (unfold in_range; lia).
  pose proof (div_up_bound totalBytes (size * 2) ltac:(lia) ltac:(lia)) as Hc1. pose proof (ceil_div totalBytes (size * 2) ltac:(lia) ltac:(lia)) as Hc2.
  set (c := (totalBytes + (size * 2 - 1)) / (size * 2)) in *. assert (1 ≤ c ≤ totalBytes) as Hc by (split; [apply Z.div_le_lower_bound|apply Z.div_le_upper_bound]; nia).
  destruct (roundUp_spec (Z.min c mb) elementSize) as (Hd & H1 & H2); [lia|lia|lia|].
  set (sb := roundUp (Z.min c mb) elementSize) in *. rewrite (proj2 (Z.eqb_neq _ _)) by lia.
  rewrite (wrap_small 64 (totalBytes + (sb - 1))) by (unfold in_range; lia).
  pose proof (div_up_bound totalBytes sb ltac:(lia) ltac:(lia)) as Hk1. pose proof (ceil_div totalBytes sb ltac:(lia) ltac:(lia)) as Hk2.
  set (k := (totalBytes + (sb - 1)) / sb) in *. assert (1 ≤ k ≤ totalBytes) as Hk by (split; [apply Z.div_le_lower_bound|apply Z.div_le_upper_bound]; nia).
  destruct (roundUp_spec (Z.max k (size * 2)) size) as (Hd' & H3 & H4); [lia|lia|lia|].
  set (ns := roundUp (Z.max k (size * 2)) size) in *. destruct Hd' as [p Hp].
  assert (ns / size = p) as Hpp by (rewrite Hp; by apply Z.div_mul; lia).
  eexists. split; [done|]. cbn [numSegments segmentBytes]. split.
  - split; cbn [numSegments numSegmentsPerRank segmentBytes]; rewrite ?Hpp; [lia| | |done|lia].
    + apply (Z.mul_le_mono_pos_r _ _ size); lia.
    + etransitivity; [exact Hk2|]. apply Z.mul_le_mono_nonneg_r; lia.
  - assert (1 * sb ≤ size * sb) by (apply Z.mul_le_mono_nonneg_r; lia).
    assert (size * sb ≤ size * (c + elementSize - 1)) by (apply Z.mul_le_mono_nonneg_l; lia).
    assert (ns * sb ≤ (Z.max k (size * 2) + size - 1) * sb) by (apply Z.mul_le_mono_nonneg_r; lia).
    assert (Z.max k (size * 2) * sb ≤ totalBytes + 2 * (size * sb)) by (destruct (Z.max_spec k (size * 2)) as [[_ ->]|[_ ->]]; lia). lia.
Qed.

(** A segment size below the size of an element is not rounded up to it. *)
Lemma reduce_layout_undefined size totalBytes elementSize maxSegmentSize :
  1 ≤ size → 0 ≤ maxSegmentSize < elementSize → elementSize < 2 ^ 62 → 0 < totalBytes < 2 ^ 62 →
  reduce_layout size totalBytes elementSize maxSegmentSize = None.
Proof.
  intros Hs Hm He Ht. unfold reduce_layout. destruct (Z.leb_spec (2 ^ 31) (size * 2)); [done|].
  rewrite (Z.div_small maxSegmentSize) by lia. rewrite Z.mul_0_r. change (u64 0) with 0.
  rewrite (wrap_small 64 (totalBytes + _)) by (unfold in_range; lia).
  assert (0 ≤ (totalBytes + (size * 2 - 1)) / (size * 2)) by (apply Z.div_pos; lia). rewrite Z.min_r by done.
  destruct (roundUp_spec 0 elementSize) as ([q Hq] & H1 & H2); [lia|lia|lia|]. assert (q = 0) by nia.
  by rewrite (proj2 (Z.eqb_eq _ _)) by lia.
Qed.

(** the segments of a ring allreduce cover the buffer: the number of
    segments is a multiple of the group's size, at least two per rank, of
    whole elements, and reaches over the end of the buffer. *)
Theorem allreduce_layout_spec size totalBytes elementSize maxSegmentSize :
  1 ≤ size < 2 ^ 31 → 0 < elementSize < 2 ^ 62 → 0 < totalBytes < 2 ^ 62 → 0 ≤ maxSegmentSize < 2 ^ 62 →
  layout_ok size totalBytes elementSize (allreduce_layout size totalBytes elementSize maxSegmentSize).
Proof. intros. apply allreduce_layout_lemma; lia. Qed.

Lemma allreduce_layout_spec_witness : layout_ok 3 100 4 (allreduce_layout 3 100 4 16).
Proof. apply (allreduce_layout_spec 3 100 4 16); lia. Defined.

(* ------------------------------------------------------------------ *)
(** * Segments *)

Section segments.
Context (size T es : Z) (L : Layout) (HL : layout_ok size T es L) (Hsize : 1 ≤ size) (HT : 0 < T < 2 ^ 62).
Context (Hes : 0 < es) (HTe : (es | T)) (Hb : 3 * (numSegments L * segmentBytes L) < 2 ^ 63).

Abbreviation N := (numSegments L).
Abbreviation p := (numSegmentsPerRank L).
Abbreviation S := (segmentBytes L).

(** Segment [i] of the chunk [k] ranks after [r]. *)
Definition seg (k i r : Z) : Z := ((r + k) * p + i) `mod` N.
Definition slen (g : Z) : Z := Z.min S (T - g * S).
Definition sreg (b g : Z) : Region := mkRegion b (g * S) (slen g).

Lemma layout_facts : 0 < N ∧ 2 ≤ p ∧ p ≤ N ∧ 0 < S ∧ N = size * p.
Proof. destruct HL as [H1 H2 H3 H4 H5]. repeat split; nia. Qed.

Lemma seg_range k i r : 0 ≤ seg k i r < N.
Proof. apply Z.mod_pos_bound. apply layout_facts. Qed.

Lemma NS_bound m : 0 ≤ m ≤ 3 * N → 0 ≤ m * S < 2 ^ 63.
Proof.
  intros Hm. destruct layout_facts as (HN & _ & _ & HS & _). split; [apply Z.mul_nonneg_nonneg; lia|].
  apply Z.le_lt_trans with (3 * N * S); [apply Z.mul_le_mono_nonneg_r; lia|lia].
Qed.

Lemma segment_off_spec k i r : 0 ≤ r < size → 0 ≤ k ≤ 2 → 0 ≤ i < N → segment_off L r k i = seg k i r * S.
Proof.
  intros Hr Hk Hi. destruct layout_facts as (HN & Hp & HpN & HS & E). unfold segment_off, seg.
  assert (0 ≤ (r + k) * p ≤ (size + 1) * p) as H1.
  { split; [apply Z.mul_nonneg_nonneg; lia|apply Z.mul_le_mono_nonneg_r; lia]. }
  assert (0 ≤ ((r + k) * p + i) * S < 2 ^ 63) as H2 by (apply NS_bound; lia).
  assert (0 ≤ N * S < 2 ^ 63) as H3 by (apply NS_bound; lia).
  assert ((r + k) * p + i ≤ ((r + k) * p + i) * S) as H4 by (rewrite <-(Z.mul_1_r ((r + k) * p + i)) at 1; apply Z.mul_le_mono_nonneg_l; lia).
  rewrite (wrap_small 64 ((r + k) * p)) by (unfold in_range; lia).
  rewrite (wrap_small 64 (_ + i)) by (unfold in_range; lia).
  rewrite (wrap_small 64 (_ * S)) by (unfold in_range; lia). rewrite wrap_small by (unfold in_range; lia).
  by rewrite Z.mul_mod_distr_r by lia.
Qed.

Lemma segment_len_spec g : 0 ≤ g < N → segment_len L T (g * S) = slen g.
Proof.
  intros Hg. destruct layout_facts as (HN & Hp & HpN & HS & E). unfold segment_len, slen.
  assert (0 ≤ 3 * N * S < 2 ^ 63) as H1 by (apply NS_bound; lia).
  assert (0 ≤ g * S ≤ N * S) as H2 by (split; [apply Z.mul_nonneg_nonneg; lia|apply Z.mul_le_mono_nonneg_r; lia]).
  assert (S ≤ N * S) as H3 by (rewrite <-(Z.mul_1_l S) at 1; apply Z.mul_le_mono_nonneg_r; lia).
  rewrite (swrap_small 64 S) by lia. rewrite (swrap_small 64 T) by lia. rewrite (swrap_small 64 (g * S)) by lia.
  rewrite swrap_small by lia. done.
Qed.

(** Segments of whole elements, apart from each other. *)
Lemma slen_elems g : 0 < slen g → slen g / es * es = slen g.
Proof.
  intros Hg. assert (es | slen g) as [q ->]; [|by rewrite Z.div_mul by lia].
  unfold slen in *. destruct (Z.min_spec S (T - g * S)) as [[_ ->]|[_ ->]]; [apply HL|].
  apply Z.divide_sub_r; [done|]. apply Z.divide_mul_r, HL.
Qed.

Lemma sreg_apart b g g' : g ≠ g' → apart (sreg b g) (sreg b g').
Proof.
  intros Hne. apply apart_off. unfold sreg, slen. cbn [rg_off rg_len]. destruct layout_facts as (_ & _ & _ & HS & _).
  destruct (Z.lt_gt_cases g g') as [[Hlt|Hgt] _]; [done|left|right].
  - assert ((g + 1) * S ≤ g' * S) by (apply Z.mul_le_mono_nonneg_r; lia). lia.
  - assert ((g' + 1) * S ≤ g * S) by (apply Z.mul_le_mono_nonneg_r; lia). lia.
Qed.

(** The neighbours' segments. *)
Lemma seg_next k i r : seg k i ((r + 1) `mod` size) = seg (k + 1) i r.
Proof.
  destruct layout_facts as (HN & Hp & HpN & HS & E). unfold seg.
  pose proof (Z.div_mod (r + 1) size ltac:(lia)) as Hd.
  replace ((r + (k + 1)) * p + i) with ((((r + 1) `mod` size + k) * p + i) + ((r + 1) / size) * N) by (rewrite E; nia).
  by rewrite Z.mod_add by lia.
Qed.

Lemma seg_inj k i k' i' r : seg k i r = seg k' i' r → - N < (k * p + i) - (k' * p + i') < N → k * p + i = k' * p + i'.
Proof.
  destruct layout_facts as (HN & _). unfold seg. intros H Hd.
  pose proof (Z.div_mod ((r + k) * p + i) N ltac:(lia)) as H1. pose proof (Z.div_mod ((r + k') * p + i') N ltac:(lia)) as H2.
  rewrite H in H1. set (a := ((r + k) * p + i) / N) in *. set (b := ((r + k') * p + i') / N) in *.
  assert ((k * p + i) - (k' * p + i') = N * (a - b)) as He by lia.
  assert (a - b = 0) by nia. lia.
Qed.

(** The round in which process [r] receives segment [g] while reducing: the
    last ones are those of the chunk it sends first. *)
Definition turn (r g : Z) : Z := (g - (r + 2) * p) `mod` N.

Lemma turn_range r g : 0 ≤ turn r g < N.
Proof. apply Z.mod_pos_bound. apply layout_facts. Qed.

Lemma seg_turn r g : 0 ≤ g < N → seg 2 (turn r g) r = g.
Proof.
  intros Hg. unfold seg, turn. rewrite Zplus_mod_idemp_r. replace ((r + 2) * p + (g - (r + 2) * p)) with g by lia. by apply Z.mod_small.
Qed.

Lemma turn_seg2 r i : 0 ≤ i < N → turn r (seg 2 i r) = i.
Proof.
  intros Hi. unfold seg, turn. rewrite Zminus_mod_idemp_l. replace ((r + 2) * p + i - (r + 2) * p) with i by lia. by apply Z.mod_small.
Qed.

Lemma turn_seg1 r i : 0 ≤ i < N → turn r (seg 1 i r) = if decide (i < p) then N - p + i else i - p.
Proof.
  intros Hi. destruct layout_facts as (HN & Hp & HpN & _ & _). unfold seg, turn. rewrite Zminus_mod_idemp_l.
  replace ((r + 1) * p + i - (r + 2) * p) with (i - p) by lia. case_decide as Hd; [|by rewrite Z.mod_small by lia].
  replace (i - p) with (N - p + i + -1 * N) by lia. rewrite Z.mod_add by lia. by rewrite Z.mod_small by lia.
Qed.

Lemma turn_inj r g g' : 0 ≤ g < N → 0 ≤ g' < N → turn r g = turn r g' → g = g'.
Proof. intros Hg Hg' Ht. by rewrite <-(seg_turn r g Hg), Ht, seg_turn. Qed.

Lemma turn_first r i g : 0 ≤ i < p → 0 ≤ g < N → turn r g = N - p + i → g = seg 1 i r.
Proof.
  intros Hi Hg Ht. destruct layout_facts as (HN & Hp & HpN & _ & _). apply (turn_inj r); [done|apply seg_range|].
  rewrite turn_seg1 by lia. by rewrite decide_True by lia.
Qed.

Lemma turn_second r j g : 0 ≤ j < N → 0 ≤ g < N → turn r g = j → g = seg 2 j r.
Proof. intros Hj Hg Ht. apply (turn_inj r); [done|apply seg_range|]. by rewrite turn_seg2. Qed.

Lemma seg_neq k i k' i' r : - N < (k * p + i) - (k' * p + i') < N → k * p + i ≠ k' * p + i' → seg k i r ≠ seg k' i' r.
Proof. intros Hd Hne He. apply Hne. by apply (seg_inj k i k' i' r). Qed.

Lemma sreg_neq b k i k' i' r : - N < (k * p + i) - (k' * p + i') < N → k * p + i ≠ k' * p + i' →
  apart (sreg b (seg k i r)) (sreg b (seg k' i' r)).
Proof. intros Hd Hne. apply sreg_apart. by apply seg_neq. Qed.

Lemma computeOffsets_spec r k i : 0 ≤ r < size → 0 ≤ k ≤ 2 → 0 ≤ i < N →
  computeOffsets L T r k i = (seg k i r * S, slen (seg k i r)).
Proof.
  intros Hr Hk Hi. unfold computeOffsets. rewrite segment_off_spec by done. by rewrite segment_len_spec by apply seg_range.
Qed.

(** The halves of the scratch buffer. *)
Lemma half_of_2 i : (if Z.land (Z.of_nat i + 2) 1 =? 0 then 0 else S) = half_of S i.
Proof. unfold half_of. rewrite !land_1. replace (Z.of_nat i + 2) with (Z.of_nat i + 1 * 2) by lia. by rewrite Z.mod_add. Qed.

Lemma halves_apart b i n n' : n ≤ S → n' ≤ S → apart (mkRegion b (half_of S i) n) (mkRegion b (half_of S (Datatypes.S i)) n').
Proof.
  intros Hn Hn'. apply apart_off. unfold half_of. cbn [rg_off rg_len]. rewrite !land_1.
  pose proof (Z.mod_pos_bound (Z.of_nat i) 2). pose proof (Z.div_mod (Z.of_nat i) 2).
  pose proof (Z.div_mod (Z.of_nat (Datatypes.S i)) 2). pose proof (Z.mod_pos_bound (Z.of_nat (Datatypes.S i)) 2).
  destruct (Z.eqb_spec (Z.of_nat i `mod` 2) 0), (Z.eqb_spec (Z.of_nat (Datatypes.S i) `mod` 2) 0); lia.
Qed.

(** How many processes a segment passes before [r]. *)
Definition hops (r g : Z) : Z := (g / p - 1 - r) `mod` size.

Lemma hops_turn r g : 0 ≤ g < N →
  (N - p ≤ turn r g → hops r g = 0) ∧
  (turn r g < N - p → hops r g = hops ((r + 1) `mod` size) g + 1).
Proof.
  intros Hg. destruct layout_facts as (HN & Hp & HpN & _ & E). unfold hops, turn.
  pose proof (Z.div_mod g p ltac:(lia)) as Hd. pose proof (Z.mod_pos_bound g p ltac:(lia)) as Hm.
  set (c := g / p) in *. set (e := g `mod` p) in *.
  pose proof (Z.mod_pos_bound (c - r - 2) size ltac:(lia)) as Hh.
  assert ((g - (r + 2) * p) `mod` N = (c - r - 2) `mod` size * p + e) as ->.
  { replace (g - (r + 2) * p) with ((c - r - 2) * p + e) by lia.
    pose proof (Z.div_mod (c - r - 2) size ltac:(lia)). symmetry.
    apply (Z.mod_unique _ _ ((c - r - 2) / size)); [left; nia|rewrite E; nia]. }
  assert ((c - 1 - (r + 1) `mod` size) `mod` size = (c - r - 2) `mod` size) as ->.
  { rewrite Zminus_mod_idemp_r. f_equal. lia. }
  assert ((c - 1 - r) `mod` size = ((c - r - 2) `mod` size + 1) `mod` size) as ->.
  { rewrite Zplus_mod_idemp_l. f_equal. lia. }
  set (h := (c - r - 2) `mod` size) in *. split; intros Ht.
  - assert (h = size - 1) as -> by nia. replace (size - 1 + 1) with size by lia. apply Z.mod_same. lia.
  - apply Z.mod_small. assert (h < size - 1) by nia. lia.
Qed.
End segments.
