(* ===== verification/Reducing.v ===== *)
(** Local reductions and broadcasts of [src/gloo/allreduce.cc], and what
    reducing the buffers of all processes means. *)
From S2P Require Import Prelude Net NetRun Groups Rounds.

(** The caller's element-wise reduction: [fn(c, a, b, n)] writes to [c] what
    it computes from [n] elements of [a] and [b]. *)
Definition RedOp : Type := list Z → list Z → list Z.

Definition reduce_act (op : RedOp) (c a b : Region) : Act :=
  Compute c (λ l, match l with [x; y] => op x y | _ => [] end) [a; b].

(** [length / elementSize] elements *)
Definition elems (elementSize b off len : Z) : Region := mkRegion b off (len / elementSize * elementSize).

(** The function that [genLocalReduceFunction(in, out, elementSize, fn)]
    returns. *)
Definition reduceInputs (ins outs : list Z) (elementSize : Z) (op : RedOp) (off len : Z) : list Act :=
  match outs with
  | [] => match ins with [] => [] | _ => [Stop None] end
  | out0 :: outs =>
      let el b := elems elementSize b off len in
      match ins with
      | [] => (λ b, reduce_act op (el out0) (el out0) (el b)) <$> outs
      | [in0] => [copy (mkRegion out0 off len) (mkRegion in0 off len)]
      | in0 :: in1 :: ins =>
          reduce_act op (el out0) (el in0) (el in1) ::
          ((λ b, reduce_act op (el out0) (el out0) (el b)) <$> ins)
      end
  end.

(** The function that [genLocalBroadcastFunction(out)] returns. *)
Definition broadcastOutputs (outs : list Z) (off len : Z) : list Act :=
  match outs with
  | [] => []
  | out0 :: outs => (λ b, copy (mkRegion b off len) (mkRegion out0 off len)) <$> outs
  end.

(* ------------------------------------------------------------------ *)
(** * Reducing lists of byte strings *)

Definition foldl1 (op : RedOp) (l : list (list Z)) : list Z :=
  match l with [] => [] | x :: l => foldl op x l end.

(** The inputs of a process: its outputs when it has no others. *)
Definition inputs (ins outs : list Z) : list Z := match ins with [] => outs | _ => ins end.
Definition local_value (ins outs : list Z) (op : RedOp) (m : Mem) (off len : Z) : list Z :=
  foldl1 op ((λ b, read m (mkRegion b off len)) <$> inputs ins outs).

(** What the reduction has to be: element by element, so it keeps the length
    and can be done part by part. *)
Record op_ok (elementSize : Z) (op : RedOp) : Prop := {
  op_length : ∀ a b, length a = length b → length (op a b) = length a;
  op_app : ∀ a a' b b', length a = length b → (elementSize | Z.of_nat (length a)) →
    op (a ++ a') (b ++ b') = op a b ++ op a' b';
}.

(* ------------------------------------------------------------------ *)
(** * What the functions do *)

Lemma read_compute m d f srcs r : apart d r → read (compute m d f srcs) r = read m r.
Proof. intros Ha. by apply read_write, Ha. Qed.

(** Reducing regions into one. *)
Lemma accumulate_regions {A} (op : RedOp) (Hl : ∀ a b, length a = length b → length (op a b) = length a)
    (c : Region) (reg : A → Region) l : 0 ≤ rg_len c → (∀ i, i ∈ l → rg_len (reg i) = rg_len c ∧ apart c (reg i)) → ∀ m,
  let m' := mem_after m ((λ i, reduce_act op c c (reg i)) <$> l) in
  read m' c = foldl op (read m c) ((λ i, read m (reg i)) <$> l) ∧ ∀ r, apart c r → read m' r = read m r.
Proof.
  intros Hc. induction l as [|i l IH]; intros Hreg m; [done|]. cbn [fmap list_fmap mem_after reduce_act foldl].
  destruct (Hreg i ltac:(set_solver)) as [Hi Hap].
  destruct (IH ltac:(set_solver) (compute m c (λ l, match l with [x; y] => op x y | _ => [] end) [c; reg i])) as [H1 H2]. split.
  - etransitivity; [exact H1|]. f_equal.
    + unfold compute. apply read_write_same. cbn [fmap list_fmap]. rewrite Hl; [by apply read_length|].
      apply Nat2Z.inj. by rewrite !read_length by lia.
    + apply list_fmap_ext. intros k i' Hi'. apply read_compute, Hreg. apply list_elem_of_lookup_2 in Hi'. set_solver.
  - intros r Hr. etransitivity; [by apply H2|]. by apply read_compute.
Qed.

Section effects.
Context (es : Z) (op : RedOp) (Hop : op_ok es op) (off len : Z) (Hlen : 0 ≤ len) (Hel : len / es * es = len).

Abbreviation at_ b := (mkRegion b off len).

Lemma elems_at b : elems es b off len = at_ b.
Proof. unfold elems. by rewrite Hel. Qed.

Lemma read_at m b : Z.of_nat (length (read m (at_ b))) = len.
Proof. rewrite read_length; [done|]. cbn. lia. Qed.

Lemma read_reduce m c a b : read (compute m (at_ c) (λ l, match l with [x; y] => op x y | _ => [] end) [at_ a; at_ b]) (at_ c) =
  op (read m (at_ a)) (read m (at_ b)).
Proof.
  unfold compute. rewrite read_write_same; [done|]. cbn [fmap list_fmap rg_len]. rewrite (op_length _ _ Hop).
  - apply read_at.
  - apply Nat2Z.inj. by rewrite !read_at.
Qed.

(** Accumulating into one buffer from others. *)
Lemma accumulate bs c : c ∉ bs → ∀ m,
  let m' := mem_after m ((λ b, reduce_act op (at_ c) (at_ c) (at_ b)) <$> bs) in
  read m' (at_ c) = foldl op (read m (at_ c)) ((λ b, read m (at_ b)) <$> bs) ∧
  ∀ r, apart (at_ c) r → read m' r = read m r.
Proof.
  intros Hc m. apply (accumulate_regions op (op_length _ _ Hop) (at_ c) (λ b, at_ b) bs Hlen). intros b Hb. split; [done|].
  apply apart_buf. cbn. by intros ->.
Qed.

Lemma reduceInputs_effect ins out0 outs m : NoDup (ins ++ out0 :: outs) →
  let m' := mem_after m (reduceInputs ins (out0 :: outs) es op off len) in
  read m' (at_ out0) = local_value ins (out0 :: outs) op m off len ∧ ∀ r, apart (at_ out0) r → read m' r = read m r.
Proof.
  intros Hnd. unfold reduceInputs, local_value, inputs. apply NoDup_app in Hnd as (Hni & Hdis & Hno).
  apply NoDup_cons in Hno as [Hno _]. destruct ins as [|in0 [|in1 ins]].
  - assert (((λ b, reduce_act op (elems es out0 off len) (elems es out0 off len) (elems es b off len)) <$> outs) =
      ((λ b, reduce_act op (at_ out0) (at_ out0) (at_ b)) <$> outs)) as ->.
    { apply list_fmap_ext. intros i b _. by rewrite !elems_at. }
    by apply accumulate.
  - cbn. split; [by apply read_copy; [|cbn; lia]|]. intros r. apply read_compute.
  - assert (((λ b, reduce_act op (elems es out0 off len) (elems es out0 off len) (elems es b off len)) <$> ins) =
      ((λ b, reduce_act op (at_ out0) (at_ out0) (at_ b)) <$> ins)) as ->.
    { apply list_fmap_ext. intros i b _. by rewrite !elems_at. }
    rewrite !elems_at. cbn [mem_after reduce_act]. assert (out0 ∉ ins) as Ho.
    { intros Hin. apply (Hdis out0); set_solver. }
    destruct (accumulate ins out0 Ho (compute m (at_ out0) (λ l, match l with [x; y] => op x y | _ => [] end) [at_ in0; at_ in1])) as [H1 H2].
    split.
    + etransitivity; [exact H1|]. rewrite read_reduce. cbn [fmap list_fmap foldl1 foldl]. f_equal.
      apply list_fmap_ext. intros i b Hb. apply read_compute, apart_buf. cbn. apply list_elem_of_lookup_2 in Hb. set_solver.
    + intros r Hr. etransitivity; [by apply H2|]. by apply read_compute.
Qed.

Lemma reduceInputs_computes ins out0 outs : Forall is_compute (reduceInputs ins (out0 :: outs) es op off len).
Proof.
  unfold reduceInputs. destruct ins as [|in0 [|in1 ins]].
  - by apply Forall_fmap, Forall_forall.
  - by repeat constructor.
  - constructor; [done|]. by apply Forall_fmap, Forall_forall.
Qed.

Lemma reduceInputs_quiet ins out0 outs ss rs :
  Forall (λ r, apart r (at_ out0)) ss → (∀ b, b ∈ ins ++ out0 :: outs → Forall (λ r, apart r (at_ b)) rs) →
  quiet ss rs (reduceInputs ins (out0 :: outs) es op off len).
Proof.
  intros Hss Hrs. assert (Forall (λ r, apart r (at_ out0)) (ss ++ rs)) as Hd by (apply Forall_app; split; [done|apply Hrs; set_solver]).
  unfold reduceInputs, quiet. destruct ins as [|in0 [|in1 ins]].
  - apply Forall_fmap, Forall_forall. intros b Hb. cbn. rewrite !elems_at. split; [done|].
    repeat constructor; apply Hrs; set_solver.
  - repeat constructor; [done|]. apply Hrs. set_solver.
  - constructor; [|apply Forall_fmap, Forall_forall; intros b Hb]; cbn; rewrite !elems_at; (split; [done|]);
      repeat constructor; apply Hrs; set_solver.
Qed.

End effects.

(** The local broadcast. *)
Section sharing.
Context (off len : Z) (Hlen : 0 ≤ len).
Abbreviation at_ b := (mkRegion b off len).

Lemma broadcastOutputs_effect out0 outs m : out0 ∉ outs →
  let m' := mem_after m (broadcastOutputs (out0 :: outs) off len) in
  (∀ b, b ∈ outs → read m' (at_ b) = read m (at_ out0)) ∧
  (∀ r, (∀ b, b ∈ outs → apart (at_ b) r) → read m' r = read m r).
Proof.
  intros Ho. cbn [broadcastOutputs]. revert m. induction outs as [|b outs IH]; intros m; [split; [set_solver|done]|].
  apply not_elem_of_cons in Ho as [Hob Ho]. cbn [fmap list_fmap mem_after copy].
  destruct (IH Ho (compute m (at_ b) (λ l, hd [] l) [at_ out0])) as [H1 H2].
  assert (read (compute m (at_ b) (λ l, hd [] l) [at_ out0]) (at_ b) = read m (at_ out0)) as E by (apply read_copy; [done|cbn; lia]).
  assert (read (compute m (at_ b) (λ l, hd [] l) [at_ out0]) (at_ out0) = read m (at_ out0)) as E0.
  { apply read_compute, apart_buf. cbn. congruence. }
  split.
  - intros b' Hb'. destruct (decide (b' ∈ outs)) as [Hin|Hin].
    + etransitivity; [by apply H1|]. exact E0.
    + assert (b' = b) as -> by set_solver. etransitivity; [|exact E]. apply H2. intros b' Hb2. apply apart_buf. cbn. set_solver.
  - intros r Hr. etransitivity; [apply H2; intros; apply Hr; set_solver|]. apply read_compute, Hr. set_solver.
Qed.

Lemma broadcastOutputs_computes outs : Forall is_compute (broadcastOutputs outs off len).
Proof. destruct outs; [constructor|]. by apply Forall_fmap, Forall_forall. Qed.

Lemma broadcastOutputs_quiet out0 outs ss rs :
  (∀ b, b ∈ outs → Forall (λ r, apart r (at_ b)) (ss ++ rs)) → Forall (λ r, apart r (at_ out0)) rs →
  quiet ss rs (broadcastOutputs (out0 :: outs) off len).
Proof.
  intros Hb H0. apply Forall_fmap, Forall_forall. intros b Hin. cbn. split; [by apply Hb|]. by repeat constructor.
Qed.
End sharing.

(* ------------------------------------------------------------------ *)
(** * Reducing in any order *)

(** Exact reductions: sums of integers, maxima, minima. *)
Record op_ac (op : RedOp) : Prop := {
  op_comm : ∀ a b, length a = length b → op a b = op b a;
  op_assoc : ∀ a b c, length a = length b → length b = length c → op a (op b c) = op (op a b) c;
}.

Section order.
Context (es : Z) (op : RedOp) (Hop : op_ok es op) (n : nat).

Abbreviation sized := (Forall (λ l : list Z, length l = n)).

Lemma foldl_op_length l x : length x = n → sized l → length (foldl op x l) = n.
Proof.
  revert x. induction l as [|y l IH]; intros x Hx Hl; [done|]. apply Forall_cons in Hl as [Hy Hl]. cbn. apply IH; [|done].
  rewrite (op_length _ _ Hop); lia.
Qed.

Lemma foldl1_length l : l ≠ [] → sized l → length (foldl1 op l) = n.
Proof. destruct l as [|x l]; [done|]. intros _ [Hx Hl]%Forall_cons. by apply foldl_op_length. Qed.

Context (Hac : op_ac op).

Lemma op_foldl a x l : length a = n → length x = n → sized l → op a (foldl op x l) = foldl op (op a x) l.
Proof.
  revert x. induction l as [|y l IH]; intros x Ha Hx Hl; [done|]. apply Forall_cons in Hl as [Hy Hl]. cbn.
  rewrite IH by (done || rewrite (op_length _ _ Hop); lia). f_equal. apply (op_assoc _ Hac); lia.
Qed.

Lemma foldl_perm l l' : Permutation l l' → ∀ x, length x = n → sized l → foldl op x l = foldl op x l'.
Proof.
  induction 1 as [|y l l' _ IH|y z l|l1 l2 l3 H1 IH1 H2 IH2]; intros x Hx Hl; [done|..].
  - apply Forall_cons in Hl as [Hy Hl]. cbn. apply IH; [|done]. rewrite (op_length _ _ Hop); lia.
  - apply Forall_cons in Hl as [Hy [Hz Hl]%Forall_cons]. cbn. f_equal.
    rewrite <-!(op_assoc _ Hac) by lia. f_equal. apply (op_comm _ Hac). lia.
  - rewrite IH1, IH2; [done..| |done|done]. by rewrite <-H1.
Qed.

Lemma foldl1_perm l l' : Permutation l l' → sized l → foldl1 op l = foldl1 op l'.
Proof.
  induction 1 as [|y l l' H _|y z l|l1 l2 l3 H1 IH1 H2 IH2]; intros Hl; [done|..].
  - apply Forall_cons in Hl as [Hy Hl]. by apply foldl_perm.
  - apply Forall_cons in Hl as [Hy [Hz Hl]%Forall_cons]. cbn. f_equal. apply (op_comm _ Hac). lia.
  - rewrite IH1, IH2; [done| |done]. by rewrite <-H1.
Qed.

Lemma foldl1_app l l' : l ≠ [] → l' ≠ [] → sized l → sized l' → foldl1 op (l ++ l') = op (foldl1 op l) (foldl1 op l').
Proof.
  destruct l as [|x l], l' as [|y l']; try done. intros _ _ [Hx Hl]%Forall_cons [Hy Hl']%Forall_cons. cbn [app foldl1].
  rewrite foldl_app. cbn [foldl]. by rewrite op_foldl by by (try apply foldl_op_length).
Qed.

(** Reductions of reductions. *)
Lemma foldl1_concat ls : Forall (λ l, l ≠ [] ∧ sized l) ls → foldl1 op (foldl1 op <$> ls) = foldl1 op (concat ls).
Proof.
  destruct ls as [|l ls]; [done|]. revert l. induction ls as [|l' ls IH]; intros l H.
  - cbn. by rewrite app_nil_r.
  - apply Forall_cons in H as [[Hl Hsl] H]. assert (Forall (λ l, l ≠ [] ∧ sized l) (l' :: ls)) as H' by done.
    assert (sized (concat (l' :: ls)) ∧ concat (l' :: ls) ≠ []) as [Hs Hne].
    { apply Forall_cons in H as [[Hl' Hsl'] H]. split; [|by destruct l'].
      apply Forall_concat. constructor; [done|]. eapply Forall_impl; [exact H|]. by intros k [_ ?]. }
    change (concat (l :: l' :: ls)) with (l ++ concat (l' :: ls)). rewrite foldl1_app by done. rewrite <-(IH l' H').
    change (foldl1 op <$> l :: l' :: ls) with ([foldl1 op l] ++ (foldl1 op <$> l' :: ls)). rewrite foldl1_app; [done|done|done|..].
    + constructor; [by apply foldl1_length|constructor].
    + apply Forall_fmap. eapply Forall_impl; [exact H'|]. intros k [? ?]. by apply foldl1_length.
Qed.
End order.

(* ------------------------------------------------------------------ *)
(** * Reducing along the ring *)

(** The values of [n + 1] processes from [r] on, the last ones first. *)
Fixpoint along (size : Z) (op : RedOp) (val : Z → list Z) (n : nat) (r : Z) : list Z :=
  match n with O => val r | S n => op (val r) (along size op val n (ring_next size r)) end.

Section along.
Context (size es : Z) (op : RedOp) (Hop : op_ok es op) (val : Z → list Z) (len : nat) (Hlen : ∀ q, length (val q) = len).

Lemma along_length n : ∀ r, length (along size op val n r) = len.
Proof.
  induction n as [|n IH]; intros r; cbn [along]; [done|]. rewrite (op_length _ _ Hop); [done|]. by rewrite Hlen, IH.
Qed.

Lemma along_fold n : op_ac op → ∀ r, 0 ≤ r < size →
  along size op val n r = foldl1 op (val <$> ((λ k, (r + k) `mod` size) <$> seqZ 0 (Z.of_nat (S n)))).
Proof.
  intros Hac. induction n as [|n IH]; intros r Hr.
  - change (seqZ 0 (Z.of_nat 1)) with [0]. cbn [fmap list_fmap foldl1 foldl along]. by rewrite Z.add_0_r, Z.mod_small.
  - cbn [along]. rewrite IH by (apply Z.mod_pos_bound; lia). rewrite (seqZ_cons 0 (Z.of_nat (S (S n)))) by lia.
    cbn [fmap list_fmap]. rewrite Z.add_0_r, (Z.mod_small r) by done.
    match goal with |- _ = foldl1 op (?x :: ?l) => change (x :: l) with ([x] ++ l) end.
    rewrite (foldl1_app es op Hop len Hac); [|done| |by repeat constructor|].
    + cbn [foldl1 foldl]. do 2 f_equal. change (Z.succ 0) with (1 + 0). rewrite <-(fmap_add_seqZ 1 0).
      replace (Z.pred (Z.of_nat (S (S n)))) with (Z.of_nat (S n)) by lia. rewrite <-!list_fmap_compose.
      apply list_fmap_ext. intros i k _. unfold compose, ring_next. f_equal. rewrite Zplus_mod_idemp_l. f_equal. lia.
    + rewrite seqZ_cons by lia. done.
    + apply Forall_fmap, Forall_fmap, Forall_forall. intros k _. apply Hlen.
Qed.

(** All processes, from anywhere. *)
Lemma along_all r : op_ac op → 0 ≤ r < size → along size op val (Z.to_nat (size - 1)) r = foldl1 op (val <$> ranks size).
Proof.
  intros Hac Hr. rewrite along_fold by done. replace (Z.of_nat (S (Z.to_nat (size - 1)))) with size by lia.
  apply (foldl1_perm es op Hop len Hac); [by apply fmap_Permutation, ring_ranks|].
  apply Forall_fmap, Forall_forall. intros q _. apply Hlen.
Qed.
End along.

(* ------------------------------------------------------------------ *)
(** * Reducing part by part *)

Definition slice (o n : Z) (l : list Z) : list Z := take (Z.to_nat n) (drop (Z.to_nat o) l).

Lemma slice_length o n l : 0 ≤ o → 0 ≤ n → o + n ≤ Z.of_nat (length l) → Z.of_nat (length (slice o n l)) = n.
Proof. intros. unfold slice. rewrite length_take, length_drop. lia. Qed.

Lemma read_slice_at m b k o n t : 0 ≤ o → 0 ≤ n → o + n ≤ t → slice o n (read m (mkRegion b k t)) = read m (mkRegion b (k + o) n).
Proof.
  intros Ho Hn Ht. replace t with (o + (n + (t - o - n))) by lia. rewrite read_split by lia. rewrite (read_split _ _ _ n) by lia.
  unfold slice. rewrite drop_app_length' by (apply Nat2Z.inj; rewrite read_length; cbn; lia).
  by rewrite take_app_length' by (apply Nat2Z.inj; rewrite read_length; cbn; lia).
Qed.

Lemma read_slice m b o n t : 0 ≤ o → 0 ≤ n → o + n ≤ t → slice o n (read m (mkRegion b 0 t)) = read m (mkRegion b o n).
Proof. apply read_slice_at. Qed.

Lemma read_whole m b t : 0 ≤ t → Z.of_nat (length (read m (mkRegion b 0 t))) = t.
Proof. intros Ht. by rewrite read_length. Qed.

Section parts.
Context (es : Z) (op : RedOp) (Hop : op_ok es op) (t o n : Z).
Context (Ho : 0 ≤ o) (Hn : 0 ≤ n) (Ht : o + n ≤ t) (Heo : (es | o)) (Hen : (es | n)).

Lemma op_slice a b : Z.of_nat (length a) = t → Z.of_nat (length b) = t → slice o n (op a b) = op (slice o n a) (slice o n b).
Proof.
  intros Ha Hb.
  assert (∀ l : list Z, Z.of_nat (length l) = t → ∃ l1 l2 l3, l = l1 ++ l2 ++ l3 ∧ Z.of_nat (length l1) = o ∧ Z.of_nat (length l2) = n ∧ slice o n l = l2) as Hsplit.
  { intros l Hl. exists (take (Z.to_nat o) l), (slice o n l), (drop (Z.to_nat n) (drop (Z.to_nat o) l)).
    split; [unfold slice; by rewrite (take_drop (Z.to_nat n)), take_drop|]. rewrite length_take, slice_length by lia.
    split_and!; [lia|done|done]. }
  destruct (Hsplit a Ha) as (a1 & a2 & a3 & Ea & La1 & La2 & ->). destruct (Hsplit b Hb) as (b1 & b2 & b3 & Eb & Lb1 & Lb2 & ->).
  subst a b. rewrite (op_app _ _ Hop) by (lia || by rewrite La1). rewrite (op_app _ _ Hop a2) by (lia || by rewrite La2).
  unfold slice. rewrite drop_app_length' by (rewrite (op_length _ _ Hop); lia).
  by rewrite take_app_length' by (rewrite (op_length _ _ Hop); lia).
Qed.

Lemma foldl1_slice l : Forall (λ x, Z.of_nat (length x) = t) l → slice o n (foldl1 op l) = foldl1 op (slice o n <$> l).
Proof.
  destruct l as [|x l]; [intros; unfold slice; cbn; by rewrite drop_nil, take_nil|]. intros [Hx Hl]%Forall_cons.
  cbn [fmap list_fmap foldl1]. revert x Hx. induction Hl as [|y l Hy Hl IH]; intros x Hx; [done|]. cbn [fmap list_fmap foldl].
  rewrite IH; [by rewrite op_slice|]. rewrite (op_length _ _ Hop); lia.
Qed.
End parts.

(** Equal part by part. *)
Lemma slices_eq s t (l l' : list Z) : 0 < s → Z.of_nat (length l) = t → Z.of_nat (length l') = t →
  (∀ g, 0 ≤ g → 0 < Z.min s (t - g * s) → slice (g * s) (Z.min s (t - g * s)) l = slice (g * s) (Z.min s (t - g * s)) l') → l = l'.
Proof.
  intros Hs Hl Hl' H. apply list_eq. intros i. destruct (decide (Z.of_nat i < t)) as [Hi|Hi].
  2: { rewrite !lookup_ge_None_2 by lia. done. }
  pose proof (Z.div_mod (Z.of_nat i) s ltac:(lia)) as Hd. pose proof (Z.mod_pos_bound (Z.of_nat i) s Hs) as Hm.
  set (g := Z.of_nat i / s) in *. assert (0 ≤ g) as Hg by (apply Z.div_pos; lia). rewrite (Z.mul_comm s g) in Hd.
  specialize (H g Hg ltac:(lia)). apply (f_equal (λ k, k !! Z.to_nat (Z.of_nat i - g * s))) in H. unfold slice in H.
  rewrite !lookup_take_lt, !lookup_drop in H by lia. by replace (Z.to_nat (g * s) + Z.to_nat (Z.of_nat i - g * s))%nat with i in H by lia.
Qed.
