(* ===== verification/Pipeline.v ===== *)
(** Rings that overlap their rounds: every process posts the operations of a
    round, and a round later works on what the round before brought. *)
From Stdlib Require Import FunctionalExtensionality.
From S2P Require Import Prelude Net NetRun Groups Rounds Bulk.

Section pipeline.
(** Process [r] sends [sx i r] to the process before it in round [i], and
    receives [rx i r] from the one after it. It computes [ps] before and [qs]
    after it posts the send; [pr] before and [qr] after it waits for the
    receive, one round later. *)
Context (size slot : Z) (K : nat) (sx rx : nat → Z → Region) (ps qs pr qr : nat → Z → list Act).

Definition pl_send (i : nat) (r : Z) : Xfer := mkXfer (ring_prev size r) slot (sx i r).
Definition pl_recv (i : nat) (r : Z) : Xfer := mkXfer (ring_next size r) slot (rx i r).
Definition pl_sends (i : nat) (r : Z) : bool := (i <? K)%nat && (0 <? rg_len (sx i r)).
Definition pl_recvs (i : nat) (r : Z) : bool := (i <? K)%nat && (0 <? rg_len (rx i r)).

Definition pl_acts (i : nat) (r : Z) : list Act :=
  (if pl_recvs i r then [Recv (pl_recv i r)] else []) ++
  (if pl_sends i r then ps i r ++ Send (pl_send i r) :: qs i r else []).
Definition pl_handle (i : nat) (r : Z) : list Act :=
  (if pl_recvs i r then pr i r ++ WaitRecv (rg_buf (rx i r)) :: qr i r else []) ++
  (if pl_sends i r then [WaitSend (rg_buf (sx i r))] else []).
Definition pl_post (i : nat) (r : Z) : list Act := match i with O => [] | S i => pl_handle i r end.
Definition pl_prog (r : Z) : list Act := rounds_from (λ i, pl_acts i r) (λ i, pl_post i r) (S K) 0.

Context (Hsize : 1 ≤ size).
Context (Hcomp : ∀ i r, Forall is_compute (ps i r) ∧ Forall is_compute (qs i r) ∧ Forall is_compute (pr i r) ∧ Forall is_compute (qr i r)).

Lemma pl_lists i r :
  Forall is_post (pl_acts i r) ∧
  sends_of (pl_acts i r) = (if pl_sends i r then [pl_send i r] else []) ∧
  recvs_of (pl_acts i r) = (if pl_recvs i r then [pl_recv i r] else []) ∧
  ∀ m, sent m (pl_acts i r) = if pl_sends i r then [msg_of (mem_after m (ps i r)) (pl_send i r)] else [].
Proof.
  destruct (Hcomp i r) as (H1 & H2 & _). destruct (computes_lists _ H1) as (P1 & S1 & R1 & M1).
  destruct (computes_lists _ H2) as (P2 & S2 & R2 & M2). unfold pl_acts.
  assert (sends_of (ps i r ++ Send (pl_send i r) :: qs i r) = [pl_send i r] ∧
    recvs_of (ps i r ++ Send (pl_send i r) :: qs i r) = []) as [Es Er].
  { rewrite sends_of_app, recvs_of_app, S1, R1. split; cbn [app].
    - change (pl_send i r :: sends_of (qs i r) = [pl_send i r]). by rewrite S2.
    - exact R2. }
  assert (∀ m, sent m (ps i r ++ Send (pl_send i r) :: qs i r) = [msg_of (mem_after m (ps i r)) (pl_send i r)]) as Em.
  { intros m. rewrite sent_app, M1. cbn [app sent]. by rewrite M2. }
  split; [|split; [|split]].
  - apply Forall_app. split; [destruct (pl_recvs i r); by repeat constructor|].
    destruct (pl_sends i r); [|constructor]. apply Forall_app. split; [done|by constructor].
  - rewrite sends_of_app. destruct (pl_sends i r); [rewrite Es|]; by destruct (pl_recvs i r).
  - rewrite recvs_of_app. destruct (pl_sends i r); [rewrite Er|]; by destruct (pl_recvs i r).
  - intros m. rewrite sent_app. destruct (pl_sends i r); [rewrite Em|]; by destruct (pl_recvs i r).
Qed.

(** What is not waited for before round [i]. *)
Definition pl_cs (i : nat) (r b : Z) : nat :=
  match i with O => O | S j => if pl_sends j r then one b (rg_buf (sx j r)) else O end.
Definition pl_cr (i : nat) (r b : Z) : nat :=
  match i with O => O | S j => if pl_recvs j r then one b (rg_buf (rx j r)) else O end.

Lemma pl_post_reaches i r rest m :
  reaches (pl_post i r ++ rest) m
    (λ b, (pl_cs i r b + pl_cs (S i) r b)%nat) (λ b, (pl_cr i r b + pl_cr (S i) r b)%nat)
    rest (mem_after m (pl_post i r)) (pl_cs (S i) r) (pl_cr (S i) r).
Proof.
  destruct i as [|i]; [apply reaches_refl|]. cbn [pl_post]. set (cs := pl_cs (S (S i)) r). set (cr := pl_cr (S (S i)) r).
  destruct (Hcomp i r) as (_ & _ & H3 & H4). unfold pl_handle. rewrite <-(assoc_L (++)), mem_after_app.
  eapply (reaches_trans _ _ _ _ _ (mem_after m (if pl_recvs i r then pr i r ++ WaitRecv (rg_buf (rx i r)) :: qr i r else []))
    (λ b, (pl_cs (S i) r b + cs b)%nat) cr).
  - unfold pl_cr. fold cr. destruct (pl_recvs i r); [|apply reaches_refl].
    rewrite mem_after_app, <-(assoc_L (++)). eapply reaches_trans; [by apply reaches_computes|].
    change (mem_after (mem_after m (pr i r)) (WaitRecv (rg_buf (rx i r)) :: qr i r)) with (mem_after (mem_after m (pr i r)) (qr i r)).
    eapply reaches_trans; [|by apply reaches_computes].
    apply (reaches_waits [WaitRecv (rg_buf (rx i r))]); [by repeat constructor|done|].
    intros b. cbn. by rewrite Nat.add_0_r.
  - unfold pl_cs. destruct (pl_sends i r); [|apply reaches_refl].
    apply (reaches_waits [WaitSend (rg_buf (sx i r))]); [by repeat constructor| |done]. intros b. cbn. by rewrite Nat.add_0_r.
Qed.

Lemma pl_bumps i r :
  bumps (sends_of (pl_acts i r)) (pl_cs i r) = (λ b, (pl_cs i r b + pl_cs (S i) r b)%nat) ∧
  bumps (recvs_of (pl_acts i r)) (pl_cr i r) = (λ b, (pl_cr i r b + pl_cr (S i) r b)%nat).
Proof.
  destruct (pl_lists i r) as (_ & -> & -> & _). split; extensionality b; rewrite bumps_count; cbn [pl_cs pl_cr].
  - destruct (pl_sends i r); [|cbn; lia]. rewrite on_buf_one. unfold one, x_buf. cbn. lia.
  - destruct (pl_recvs i r); [|cbn; lia]. rewrite on_buf_one. unfold one, x_buf. cbn. lia.
Qed.

(** Everything is waited for. *)
Lemma pl_post_counts i r b :
  sends_of (pl_post i r) = [] ∧ recvs_of (pl_post i r) = [] ∧
  waits_send b (pl_post i r) = pl_cs i r b ∧ waits_recv b (pl_post i r) = pl_cr i r b.
Proof.
  destruct i as [|j]; [done|]. cbn [pl_post pl_cs pl_cr]. unfold pl_handle. destruct (Hcomp j r) as (_ & _ & H3 & H4).
  destruct (computes_lists _ H3) as (_ & S3 & R3 & _), (computes_lists _ H4) as (_ & S4 & R4 & _).
  destruct (waits_computes b _ H3) as [W3 V3], (waits_computes b _ H4) as [W4 V4].
  rewrite sends_of_app, recvs_of_app. destruct (waits_app b (if pl_recvs j r then pr j r ++ WaitRecv (rg_buf (rx j r)) :: qr j r else [])
    (if pl_sends j r then [WaitSend (rg_buf (sx j r))] else [])) as [-> ->].
  destruct (pl_recvs j r); [|by destruct (pl_sends j r); cbn; rewrite ?Nat.add_0_r].
  rewrite sends_of_app, recvs_of_app, S3, R3. destruct (waits_app b (pr j r) (WaitRecv (rg_buf (rx j r)) :: qr j r)) as [-> ->].
  change (sends_of (WaitRecv ?b :: qr j r)) with (sends_of (qr j r)). change (recvs_of (WaitRecv ?b :: qr j r)) with (recvs_of (qr j r)).
  cbn [waits_send waits_recv]. rewrite W3, V3, W4, V4, S4, R4. destruct (pl_sends j r); cbn; by rewrite ?Nat.add_0_r.
Qed.

Lemma pl_acts_waits i r b : waits_send b (pl_acts i r) = O ∧ waits_recv b (pl_acts i r) = O.
Proof.
  destruct (Hcomp i r) as (H1 & H2 & _). destruct (waits_computes b _ H1) as [W1 V1], (waits_computes b _ H2) as [W2 V2].
  unfold pl_acts. destruct (waits_app b (if pl_recvs i r then [Recv (pl_recv i r)] else [])
    (if pl_sends i r then ps i r ++ Send (pl_send i r) :: qs i r else [])) as [-> ->].
  destruct (waits_app b (ps i r) (Send (pl_send i r) :: qs i r)) as [E1 E2]. cbn [waits_send waits_recv] in E1, E2.
  destruct (pl_recvs i r), (pl_sends i r); cbn; rewrite ?E1, ?E2; lia.
Qed.

Lemma pl_waited r : all_waited (pl_prog r).
Proof.
  intros b. assert (∀ k i, let p := rounds_from (λ i, pl_acts i r) (λ i, pl_post i r) k i in
    (waits_send b p + pl_cs (i + k) r b = pl_cs i r b + on_buf b (sends_of p))%nat ∧
    (waits_recv b p + pl_cr (i + k) r b = pl_cr i r b + on_buf b (recvs_of p))%nat) as H.
  { induction k as [|k IH]; intros i; [rewrite Nat.add_0_r; cbn; lia|]. cbn [rounds_from].
    destruct (IH (S i)) as [I1 I2]. replace (i + S k)%nat with (S i + k)%nat by lia.
    destruct (waits_app b (pl_acts i r) (pl_post i r ++ rounds_from (λ i, pl_acts i r) (λ i, pl_post i r) k (S i))) as [-> ->].
    destruct (waits_app b (pl_post i r) (rounds_from (λ i, pl_acts i r) (λ i, pl_post i r) k (S i))) as [-> ->].
    destruct (pl_post_counts i r b) as (P1 & P2 & P3 & P4). destruct (pl_acts_waits i r b) as [-> ->].
    rewrite !sends_of_app, !recvs_of_app, P1, P2, P3, P4, !on_buf_app. cbn [app].
    destruct (pl_bumps i r) as [B1 B2]. apply (f_equal (λ f, f b)) in B1, B2. rewrite bumps_count in B1, B2.
    change (on_buf b []) with O. lia. }
  destruct (H (S K) O) as [H1 H2]. unfold pl_prog. cbn [pl_cs pl_cr Nat.add] in H1, H2.
  unfold pl_sends, pl_recvs in H1, H2. rewrite (proj2 (Nat.ltb_ge K K)) in H1, H2 by lia. cbn [andb] in H1, H2. lia.
Qed.

(** All operations are with the neighbours. *)
Lemma pl_peers r :
  (∀ x, x ∈ sends_of (pl_prog r) → x_peer x = ring_prev size r ∧ x_slot x = slot) ∧
  (∀ x, x ∈ recvs_of (pl_prog r) → x_peer x = ring_next size r ∧ x_slot x = slot).
Proof.
  unfold pl_prog. generalize O as i, (S K) as k. intros i k. revert i. induction k as [|k IH]; intros i; [split; set_solver|].
  cbn [rounds_from]. rewrite !sends_of_app, !recvs_of_app. destruct (pl_lists i r) as (_ & -> & -> & _).
  destruct (pl_post_counts i r 0) as (-> & -> & _).
  destruct (IH (S i)) as [H1 H2]. split; intros x; rewrite !elem_of_app.
  - intros [Hx|[Hx|Hx]]; [|set_solver|by apply H1]. destruct (pl_sends i r); set_solver.
  - intros [Hx|[Hx|Hx]]; [|set_solver|by apply H2]. destruct (pl_recvs i r); set_solver.
Qed.
Lemma next_of_prev r : 0 ≤ r < size → ring_next size (ring_prev size r) = r.
Proof.
  intros Hr. unfold ring_next, ring_prev. apply (peer_inverse size (ring_prev size r) r 1); [apply Z.mod_pos_bound; lia|done|done].
Qed.

Section memory.
(** [val i r] is what [r] sends in round [i]. *)
Context (mems : Z → Mem) (val : nat → Z → list Z).
Definition pl_tk (i : nat) (r : Z) : list Msg :=
  if pl_recvs i r then [mkMsg (ring_next size r) slot (val i (ring_next size r))] else [].
Fixpoint pl_mem (i : nat) (r : Z) : Mem :=
  match i with
  | O => mems r
  | S i => mem_after (receives (mem_after (pl_mem i r) (pl_acts i r)) (recvs_of (pl_acts i r)) (pl_tk i r)) (pl_post i r)
  end.

(** The memory after a round. *)
Lemma pl_mem_S i r :
  pl_mem (S i) r =
    let m1 := if pl_sends i r then mem_after (mem_after (pl_mem i r) (ps i r)) (qs i r) else pl_mem i r in
    let m2 := if pl_recvs i r then write m1 (rx i r) (val i (ring_next size r)) else m1 in
    match i with
    | O => m2
    | S j => if pl_recvs j r then mem_after (mem_after m2 (pr j r)) (qr j r) else m2
    end.
Proof.
  cbn [pl_mem]. destruct (pl_lists i r) as (_ & _ & -> & _). unfold pl_tk.
  assert (mem_after (pl_mem i r) (pl_acts i r) =
    if pl_sends i r then mem_after (mem_after (pl_mem i r) (ps i r)) (qs i r) else pl_mem i r) as ->.
  { unfold pl_acts. rewrite mem_after_app. assert (∀ m, mem_after m (if pl_recvs i r then [Recv (pl_recv i r)] else []) = m) as ->
      by by destruct (pl_recvs i r).
    destruct (pl_sends i r); [|done]. by rewrite mem_after_app. }
  cbv zeta. set (m1 := if pl_sends i r then _ else _).
  assert (∀ k d, receives m1 (if pl_recvs i r then [pl_recv i r] else []) (if pl_recvs i r then [mkMsg k slot d] else []) =
    if pl_recvs i r then write m1 (rx i r) d else m1) as -> by (intros; by destruct (pl_recvs i r)).
  destruct i as [|j]; [done|]. cbn [pl_post]. unfold pl_handle. rewrite mem_after_app.
  assert (∀ m, mem_after m (if pl_sends j r then [WaitSend (rg_buf (sx j r))] else []) = m) as -> by by destruct (pl_sends j r).
  destruct (pl_recvs j r); [|done]. by rewrite mem_after_app.
Qed.

(** The data is what the receivers expect. *)
Context (Hlen : ∀ i r, (i < K)%nat → 0 ≤ r < size → rg_len (sx i r) = rg_len (rx i (ring_prev size r))).
Context (Hval : ∀ i r, (i < K)%nat → 0 ≤ r < size → 0 < rg_len (sx i r) →
  read (mem_after (pl_mem i r) (ps i r)) (sx i r) = val i r).
Context (Hval_len : ∀ i r, (i < K)%nat → 0 ≤ r < size → 0 < rg_len (sx i r) → Z.of_nat (length (val i r)) = rg_len (sx i r)).

Lemma ring_in r : 0 ≤ ring_next size r < size ∧ 0 ≤ ring_prev size r < size.
Proof. split; apply Z.mod_pos_bound; lia. Qed.

Lemma prev_of_next r : 0 ≤ r < size → ring_prev size (ring_next size r) = r.
Proof.
  intros Hr. unfold ring_prev. apply (peer_inverse size r (ring_next size r) 1 Hr); [apply ring_in|done].
Qed.

Lemma pl_recvs_prev i r : 0 ≤ r < size → pl_recvs i (ring_prev size r) = pl_sends i r.
Proof.
  intros Hr. unfold pl_recvs, pl_sends. destruct (Nat.ltb_spec i K); [|done]. cbn [andb]. by rewrite Hlen.
Qed.

Lemma pl_lead rest : leads size (λ r, pl_prog r ++ rest r) mems rest (pl_mem (S K)).
Proof.
  apply (rounds_lead size (S K) (λ _, []) (λ _, []) rest pl_acts pl_post mems (pl_mem (S K)) pl_mem pl_cs pl_cr pl_tk).
  - intros r rest' _. apply reaches_refl.
  - intros i r _ _. apply pl_lists.
  - intros i r _ Hr. destruct (pl_lists i r) as (_ & _ & -> & _). unfold pl_tk.
    destruct (pl_recvs i r) eqn:E; [|constructor]. apply Forall2_cons. split; [|constructor]. split; [done|]. split; [done|].
    rewrite <-(prev_of_next r) in E by done. rewrite pl_recvs_prev in E by apply ring_in. cbn.
    unfold pl_sends in E. apply andb_true_iff in E as [E1%Nat.ltb_lt E2%Z.ltb_lt].
    rewrite Hval_len by (done || apply ring_in). rewrite Hlen by (done || apply ring_in). by rewrite prev_of_next.
  - intros i p q sl Hi. rewrite (at_rank_ext size p _ (if pl_sends i p then [mkMsg ((p + -1) `mod` size) slot (val i p)] else [])).
    2: { intros Hp. destruct (pl_lists i p) as (_ & _ & _ & ->). destruct (pl_sends i p) eqn:E; [|done].
         unfold pl_sends in E. apply andb_true_iff in E as [E1%Nat.ltb_lt E2%Z.ltb_lt]. unfold msg_of. cbn. by rewrite Hval. }
    unfold pl_tk. change (ring_next size q) with ((q + 1) `mod` size).
    replace ((q + 1) `mod` size) with ((q - -1) `mod` size) by (f_equal; lia).
    apply (ring_matched size (-1) slot (pl_sends i) (pl_recvs i) (val i) (λ q, val i ((q - -1) `mod` size))); [done|..];
      intros r Hr; change ((r + -1) `mod` size) with (ring_prev size r).
    + by rewrite pl_recvs_prev.
    + intros _. f_equal. replace (ring_prev size r - -1) with (ring_prev size r + 1) by lia. symmetry. by apply next_of_prev.
  - intros i r rest' _ _. destruct (pl_bumps i r) as [-> ->]. apply pl_post_reaches.
  - intros r rest' _. cbn [app]. assert (pl_cs (S K) r = (λ _, O) ∧ pl_cr (S K) r = (λ _, O)) as [-> ->]; [|apply reaches_refl].
    unfold pl_cs, pl_cr, pl_sends, pl_recvs. rewrite (proj2 (Nat.ltb_ge K K)) by lia. done.
Qed.

End memory.

(* ------------------------------------------------------------------ *)
(** * Apartness *)

Context (Hsr : ∀ i r, (i ≤ K)%nat → apart (rx i r) (sx i r)).
Context (Hnext : ∀ i r, (S i ≤ K)%nat → apart (rx i r) (rx (S i) r) ∧ apart (sx i r) (rx (S i) r) ∧ apart (rx i r) (sx (S i) r)).
(** What may be in flight around round [i]. *)
Definition near (f : nat → Z → Region) (i : nat) (r : Z) : list Region := match i with O => [f O r] | S j => [f j r; f i r] end.
Definition before (f : nat → Z → Region) (i : nat) (r : Z) : list Region := match i with O => [] | S j => [f j r] end.
Context (Hps : ∀ i r, (i < K)%nat → pl_sends i r = true → quiet (before sx i r) (near rx i r) (ps i r)).
Context (Hqs : ∀ i r, (i < K)%nat → pl_sends i r = true → quiet (near sx i r) (near rx i r) (qs i r)).
Context (Hpr : ∀ i r, (i < K)%nat → pl_recvs i r = true → quiet [sx i r; sx (S i) r] [rx i r; rx (S i) r] (pr i r)).
Context (Hqr : ∀ i r, (i < K)%nat → pl_recvs i r = true → quiet [sx i r; sx (S i) r] [rx (S i) r] (qr i r)).

Definition flying (b : nat → Z → bool) (f : nat → Z → Xfer) (i : nat) (r : Z) : list Xfer :=
  match i with O => [] | S j => if b j r then [f j r] else [] end.

Lemma flying_in b f g i r x : (∀ j, x_reg (f j r) = g j r) → x ∈ flying b f i r → x_reg x ∈ before g i r.
Proof. intros Hf. destruct i as [|j]; [set_solver|]. cbn. destruct (b j r); [|set_solver]. intros ->%list_elem_of_singleton. rewrite Hf. set_solver. Qed.

Lemma flying_apart b f g i r d : (∀ j, x_reg (f j r) = g j r) → Forall (λ x, apart x d) (before g i r) → all_apart (flying b f i r) d.
Proof.
  intros Hf Ha. apply Forall_forall. intros x Hx. rewrite Forall_forall in Ha. by eapply Ha, flying_in.
Qed.

Lemma pl_fifo_round i r rest : (i ≤ K)%nat →
  fifo (flying pl_sends pl_send (S i) r) (flying pl_recvs pl_recv (S i) r) rest →
  fifo (flying pl_sends pl_send i r) (flying pl_recvs pl_recv i r) (pl_acts i r ++ pl_post i r ++ rest).
Proof.
  intros Hi Hrest.
  assert (∀ j, x_reg (pl_send j r) = sx j r) as Es by done. assert (∀ j, x_reg (pl_recv j r) = rx j r) as Er by done.
  assert (Forall (λ x, apart x (rx i r)) (before rx i r) ∧ Forall (λ x, apart x (rx i r)) (before sx i r) ∧
    Forall (λ x, apart x (sx i r)) (before rx i r)) as (A1 & A2 & A3).
  { destruct i as [|j]; [by repeat constructor|]. destruct (Hnext j r Hi) as (? & ? & ?). by repeat constructor. }
  set (rs := flying pl_recvs pl_recv i r ++ if pl_recvs i r then [pl_recv i r] else []).
  set (ss := flying pl_sends pl_send i r ++ if pl_sends i r then [pl_send i r] else []).
  assert (∀ x, x ∈ rs → x_reg x ∈ near rx i r) as Hrs.
  { intros x [Hx|Hx]%elem_of_app.
    - apply (flying_in _ _ rx) in Hx; [|done]. unfold before, near in *. destruct i; set_solver.
    - destruct (pl_recvs i r); [|set_solver]. apply list_elem_of_singleton in Hx as ->. unfold near. destruct i; set_solver. }
  assert (∀ x, x ∈ ss → x_reg x ∈ near sx i r) as Hss.
  { intros x [Hx|Hx]%elem_of_app.
    - apply (flying_in _ _ sx) in Hx; [|done]. unfold before, near in *. destruct i; set_solver.
    - destruct (pl_sends i r); [|set_solver]. apply list_elem_of_singleton in Hx as ->. unfold near. destruct i; set_solver. }
  (* the operations of the round *)
  assert (fifo ss rs (pl_post i r ++ rest)) as Hpost.
  2: { unfold pl_acts. rewrite <-!(assoc_L (++)).
    assert (fifo (flying pl_sends pl_send i r) rs
      ((if pl_sends i r then ps i r ++ Send (pl_send i r) :: qs i r else []) ++ pl_post i r ++ rest)) as H2.
    { unfold ss in Hpost, Hss. destruct (pl_sends i r) eqn:E; [|by rewrite app_nil_r in Hpost].
      assert (i < K)%nat as HiK by (apply andb_true_iff in E as [?%Nat.ltb_lt _]; done).
      rewrite <-(assoc_L (++)). apply (fifo_quiet (before sx i r) (near rx i r)); [by apply Hps|intros x; by apply flying_in|done|].
      cbn [app fifo]. split.
      - unfold all_apart. apply Forall_forall. intros x Hx%Hrs. cbn. unfold near in Hx. destruct i as [|j].
        + apply list_elem_of_singleton in Hx as ->. by apply Hsr.
        + apply elem_of_cons in Hx as [->|Hx]; [by apply (Hnext j)|]. apply list_elem_of_singleton in Hx as ->. by apply Hsr.
      - apply (fifo_quiet (near sx i r) (near rx i r)); [by apply Hqs|done|done|done]. }
    unfold rs in H2. destruct (pl_recvs i r) eqn:E; [|by rewrite app_nil_r in H2]. cbn [app fifo].
    split; [|done]. split; [by apply (flying_apart _ _ rx)|by apply (flying_apart _ _ sx)]. }
  (* the work on the round before *)
  unfold ss, rs. destruct i as [|j]; [done|]. cbn [flying pl_post] in *. unfold pl_handle.
  assert (∀ x, x ∈ ss → x_reg x ∈ [sx j r; sx (S j) r]) as Hss' by done.
  assert (∀ x, x ∈ rs → x_reg x ∈ [rx j r; rx (S j) r]) as Hrs' by done.
  rewrite <-!(assoc_L (++)). fold ss.
  assert (fifo ss (if pl_recvs (S j) r then [pl_recv (S j) r] else [])
    ((if pl_sends j r then [WaitSend (rg_buf (sx j r))] else []) ++ rest)) as H1.
  { unfold ss. destruct (pl_sends j r); cbn [app fifo]; [|exact Hrest]. by rewrite retire_head. }
  destruct (pl_recvs j r) eqn:E; cbn [app]; [|exact H1].
  assert (j < K)%nat as HjK by lia. rewrite <-!(assoc_L (++)).
  apply (fifo_quiet [sx j r; sx (S j) r] [rx j r; rx (S j) r]); [by apply Hpr|done|done|]. cbn [app fifo].
  rewrite retire_head by done. apply (fifo_quiet [sx j r; sx (S j) r] [rx (S j) r]); [by apply Hqr|done| |done].
  intros x Hx. destruct (pl_recvs (S j) r); [|set_solver]. apply list_elem_of_singleton in Hx as ->. set_solver.
Qed.

Lemma pl_fifo r rest : fifo [] [] rest → fifo [] [] (pl_prog r ++ rest).
Proof.
  intros Hrest. apply (fifo_rounds (λ i, pl_acts i r) (λ i, pl_post i r)
    (λ i, flying pl_sends pl_send i r) (λ i, flying pl_recvs pl_recv i r) (S K) rest O).
  - intros j rest' Hj. apply pl_fifo_round. lia.
  - cbn [plus flying]. unfold pl_sends, pl_recvs. by rewrite (proj2 (Nat.ltb_ge K K)) by lia.
Qed.

End pipeline.

(** A pipelined loop as the code writes it: what it waits for in iteration
    [i] belongs to iteration [i - 2]. *)
Lemma pipelined_loop K n (w acts : Z → list Act) (acts' post' : nat → list Act) : n = Z.of_nat K + 2 →
  (∀ i, (i ≤ K)%nat → acts (Z.of_nat i) = acts' i) → acts (Z.of_nat (S K)) = [] →
  w 0 = [] → w 1 = post' O → (∀ i, (i < K)%nat → w (Z.of_nat i + 2) = post' (S i)) →
  seqZ 0 n ≫= (λ i, w i ++ acts i) = rounds_from acts' post' (S K) 0.
Proof.
  intros -> Ha Hl H0 H1 Hw. rewrite bind_seqZ. replace (Z.to_nat (Z.of_nat K + 2)) with (S (S K)) by lia.
  rewrite (loop_rounds (λ j, acts (Z.of_nat j)) (λ j, w (Z.of_nat j))). cbn [Nat.add]. rewrite Hl, app_nil_r.
  change (Z.of_nat 0) with 0. rewrite H0. cbn [app]. apply rounds_from_ext. intros j Hj. split; [apply Ha; lia|].
  destruct j as [|j]; [exact H1|]. rewrite <-Hw by lia. f_equal. lia.
Qed.
