(* ===== verification/RingAllreduce.v ===== *)
(** The ring algorithm of [src/gloo/allreduce.cc]: a reduce/scatter in which
    every process ends up with one reduced chunk, and an allgather. *)
From Stdlib Require Import FunctionalExtensionality.
From S2P Require Import Prelude Slots MathOps Net NetRun Groups Rounds Segments Reducing Pipeline.

(* ------------------------------------------------------------------ *)
(** * The program *)

(** [ring(opts, reduceInputs, broadcastOutputs)]; [tmp] is the scratch buffer.
    The counters of the two loops are [int]s in the code, here unbounded: from
    2^31 segments on they would overflow. *)
Definition ring (rank size tag elementSize elements maxSegmentSize : Z) (ins outs : list Z) (tmp : Z) (op : RedOp)
    (getPair : Z → bool) : list Act :=
  let slot := Slot_value (Slot_build kAllreduceSlotPrefix tag) in
  let totalBytes := u64 (elements * elementSize) in
  let recvRank := (size + rank + 1) `mod` size in
  let sendRank := (size + rank - 1) `mod` size in
  check (getPair recvRank) ++
  check (getPair sendRank) ++
  let L := allreduce_layout size totalBytes elementSize maxSegmentSize in
  check (numSegments L `mod` size =? 0) ++
  check (size * 2 <=? numSegments L) ++
  match outs with
  | [] => [Stop None]
  | out0 :: _ =>
      let segmentOffset i := if Z.land i 1 =? 0 then 0 else segmentBytes L in
      let rounds := numSegments L - numSegmentsPerRank L in
      let el b off len := elems elementSize b off len in
      (* reduce/scatter *)
      (seqZ 0 (rounds + 2) ≫= (λ i,
        (if 2 <=? i then
           let '(sendOffset, sendLength) := computeOffsets L totalBytes rank 1 (i - 2) in
           let '(recvOffset, recvLength) := computeOffsets L totalBytes rank 2 (i - 2) in
           when_positive recvLength
             (reduceInputs ins outs elementSize op recvOffset recvLength ++
              [WaitRecv tmp;
               reduce_act op (el out0 recvOffset recvLength) (el out0 recvOffset recvLength)
                 (el tmp (segmentOffset i) recvLength)]) ++
           when_positive sendLength [WaitSend out0]
         else []) ++
        (if i <? rounds then
           let '(sendOffset, sendLength) := computeOffsets L totalBytes rank 1 i in
           let '(recvOffset, recvLength) := computeOffsets L totalBytes rank 2 i in
           when_positive recvLength [Recv (mkXfer recvRank slot (mkRegion tmp (segmentOffset i) recvLength))] ++
           when_positive sendLength
             ((if i <? numSegmentsPerRank L then reduceInputs ins outs elementSize op sendOffset sendLength else []) ++
              [Send (mkXfer sendRank slot (mkRegion out0 sendOffset sendLength))])
         else []))) ++
      (* allgather *)
      (seqZ 0 (rounds + 2) ≫= (λ i,
        (if 2 <=? i then
           let '(sendOffset, sendLength) := computeOffsets L totalBytes rank 0 (i - 2) in
           let '(recvOffset, recvLength) := computeOffsets L totalBytes rank 1 (i - 2) in
           when_positive recvLength (WaitRecv out0 :: broadcastOutputs outs recvOffset recvLength) ++
           when_positive sendLength [WaitSend out0]
         else []) ++
        (if i <? rounds then
           let '(sendOffset, sendLength) := computeOffsets L totalBytes rank 0 i in
           let '(recvOffset, recvLength) := computeOffsets L totalBytes rank 1 i in
           when_positive recvLength [Recv (mkXfer recvRank slot (mkRegion out0 recvOffset recvLength))] ++
           when_positive sendLength
             (Send (mkXfer sendRank slot (mkRegion out0 sendOffset sendLength)) ::
              (if i <? numSegmentsPerRank L then broadcastOutputs outs sendOffset sendLength else []))
         else [])))
  end.

(* ------------------------------------------------------------------ *)
(** * Reducing along the ring *)

Section allreduce.
Context (size T es slot : Z) (L : Layout) (HL : layout_ok size T es L) (Hsize : 2 ≤ size) (HT : 0 < T < 2 ^ 62).
Context (Hes : 0 < es) (HTe : (es | T)) (Hb : 3 * (numSegments L * segmentBytes L) < 2 ^ 63).
Context (ins outs : list Z) (out0 tmp : Z) (op : RedOp) (Hop : op_ok es op) (mems : Z → Mem).
Context (Hnd : NoDup (ins ++ out0 :: outs)) (Htmp : tmp ∉ ins ++ out0 :: outs).

Abbreviation N := (numSegments L).
Abbreviation p := (numSegmentsPerRank L).
Abbreviation Sb := (segmentBytes L).
Abbreviation seg := (seg L).
Abbreviation slen := (slen T L).
Abbreviation sreg := (sreg T L).
Abbreviation turn := (turn L).
Abbreviation next := (ring_next size).
Abbreviation prev := (ring_prev size).

Let K : nat := Z.to_nat (N - p).

Lemma facts : 0 < N ∧ 2 ≤ p ∧ p ≤ N ∧ 0 < Sb ∧ N = size * p ∧ Z.of_nat K = N - p ∧ p ≤ N - p.
Proof. destruct (layout_facts size T es L HL) as (H1 & H2 & H3 & H4 & H5); [lia|]. unfold K. repeat split; nia. Qed.

(** The reduction of the inputs of one process, and along the ring. *)
Definition local_sum (r g : Z) : list Z := local_value ins (out0 :: outs) op (mems r) (g * Sb) (slen g).
Definition ring_sum (n : nat) (r g : Z) : list Z := along size op (λ q, local_sum q g) n r.
Definition partial (r g : Z) : list Z := ring_sum (Z.to_nat (hops size L r g)) r g.

Lemma partial_first r g : 0 ≤ g < N → N - p ≤ turn r g → partial r g = local_sum r g.
Proof.
  intros Hg Ht. unfold partial. destruct (hops_turn size T es L HL ltac:(lia) r g Hg) as [H _]. by rewrite (H Ht).
Qed.

Lemma partial_step r g : 0 ≤ g < N → turn r g < N - p → partial r g = op (local_sum r g) (partial (next r) g).
Proof.
  intros Hg Ht. unfold partial. destruct (hops_turn size T es L HL ltac:(lia) r g Hg) as [_ H]. specialize (H Ht).
  rewrite H. assert (0 ≤ hops size L ((r + 1) `mod` size) g) by (apply Z.mod_pos_bound; lia).
  replace (Z.to_nat (_ + 1)) with (S (Z.to_nat (hops size L ((r + 1) `mod` size) g))) by lia. done.
Qed.

Lemma local_sum_length r g : 0 < slen g → Z.of_nat (length (local_sum r g)) = slen g.
Proof using Hop.
  clear Htmp Hnd tmp.
  intros Hg. unfold local_sum, local_value, inputs.
  assert (∀ l a, Z.of_nat (length a) = slen g → Forall (λ b, Z.of_nat (length b) = slen g) l →
    Z.of_nat (length (foldl op a l)) = slen g) as Hf.
  { induction l as [|b l IH]; intros a Ha Hl; [done|]. apply Forall_cons in Hl as [Hbl Hl]. cbn [foldl]. apply IH; [|done].
    rewrite (op_length _ _ Hop); [done|]. apply Nat2Z.inj. lia. }
  assert (∀ b, Z.of_nat (length (read (mems r) (mkRegion b (g * Sb) (slen g)))) = slen g) as Hr.
  { intros b. rewrite read_length; [done|]. cbn. lia. }
  assert (∀ l, Forall (λ b, Z.of_nat (length b) = slen g) ((λ b, read (mems r) (mkRegion b (g * Sb) (slen g))) <$> l)) as Hl.
  { intros l. apply Forall_fmap, Forall_forall. intros b _. apply Hr. }
  destruct ins as [|b l]; cbn [fmap list_fmap foldl1]; by apply Hf.
Qed.

Lemma ring_sum_length n r g : 0 < slen g → Z.of_nat (length (ring_sum n r g)) = slen g.
Proof using Hop.
  clear Htmp Hnd tmp. intros Hg. unfold ring_sum. rewrite (along_length size es op Hop _ (Z.to_nat (slen g))); [lia|].
  intros q. apply Nat2Z.inj. rewrite local_sum_length by done. lia.
Qed.

(* ------------------------------------------------------------------ *)
(** * The reduce/scatter phase *)

Definition rs_sx (i : nat) (r : Z) : Region := sreg out0 (seg 1 (Z.of_nat i) r).
Definition rs_rx (i : nat) (r : Z) : Region := mkRegion tmp (half_of Sb i) (slen (seg 2 (Z.of_nat i) r)).
Definition rs_reduce (g : Z) : list Act := reduceInputs ins (out0 :: outs) es op (g * Sb) (slen g).
Definition rs_ps (i : nat) (r : Z) : list Act :=
  if Z.of_nat i <? p then rs_reduce (seg 1 (Z.of_nat i) r) else [].
Definition rs_pr (i : nat) (r : Z) : list Act := rs_reduce (seg 2 (Z.of_nat i) r).
Definition rs_qr (i : nat) (r : Z) : list Act :=
  let g := seg 2 (Z.of_nat i) r in
  let el b off := elems es b off (slen g) in
  [reduce_act op (el out0 (g * Sb)) (el out0 (g * Sb)) (el tmp (half_of Sb i))].
Definition rs_val (i : nat) (r : Z) : list Z := partial r (seg 1 (Z.of_nat i) r).

Let rs_mem : nat → Z → Mem := pl_mem size slot K rs_sx rs_rx rs_ps (λ _ _, []) rs_pr rs_qr mems rs_val.

Lemma rs_computes i r : Forall is_compute (rs_ps i r) ∧ Forall is_compute (@nil Act) ∧
  Forall is_compute (rs_pr i r) ∧ Forall is_compute (rs_qr i r).
Proof.
  unfold rs_ps, rs_pr, rs_qr. split; [|split; [done|split; [apply reduceInputs_computes|by repeat constructor]]].
  destruct (_ <? _); [apply reduceInputs_computes|done].
Qed.

(** Before round [i], process [r] has finished with segment [g]. *)
Definition rs_done (i r g : Z) : Prop := turn r g < N - p ∧ turn r g + 2 ≤ i ∨ N - p ≤ turn r g ∧ turn r g - (N - p) < i.
#[export] Instance rs_done_dec i r g : Decision (rs_done i r g).
Proof. unfold rs_done. apply _. Defined.

Definition rs_inv (i : nat) (r : Z) : Prop :=
  (∀ g, 0 ≤ g < N → 0 < slen g →
    (∀ b, b ∈ ins ++ outs → read (rs_mem i r) (sreg b g) = read (mems r) (sreg b g)) ∧
    read (rs_mem i r) (sreg out0 g) = if decide (rs_done (Z.of_nat i) r g) then partial r g else read (mems r) (sreg out0 g)) ∧
  match i with
  | O => True
  | S j => pl_recvs K rs_rx j r = true → read (rs_mem i r) (rs_rx j r) = partial (next r) (seg 2 (Z.of_nat j) r)
  end.

(** A memory in which the inputs are untouched and the output holds [D]. *)
Definition holds (r : Z) (m : Mem) (D : Z → list Z) : Prop := ∀ g, 0 ≤ g < N → 0 < slen g →
  (∀ b, b ∈ ins ++ outs → read m (sreg b g) = read (mems r) (sreg b g)) ∧ read m (sreg out0 g) = D g.
Definition initial (r g : Z) : list Z := read (mems r) (sreg out0 g).

Lemma holds_ext r m D D' : (∀ g, 0 ≤ g < N → 0 < slen g → D g = D' g) → holds r m D → holds r m D'.
Proof. intros HD H g Hg Hs. rewrite <-(HD g Hg Hs). by apply H. Qed.

Lemma others_apart b g g' : b ∈ ins ++ outs → apart (sreg out0 g) (sreg b g').
Proof.
  intros Hin. apply apart_buf. cbn. intros <-. apply NoDup_app in Hnd as (_ & Hdis & Hno). apply NoDup_cons in Hno as [Hno _].
  apply elem_of_app in Hin as [Hin|Hin]; [|done]. by apply (Hdis out0 Hin); set_solver.
Qed.

Lemma tmp_apart b g o n : b ∈ ins ++ out0 :: outs → apart (mkRegion tmp o n) (sreg b g).
Proof. intros Hin. apply apart_buf. cbn. by intros ->. Qed.

(** Writing to segment [g0] of the output. *)
Lemma holds_write r m m' D g0 v : 0 ≤ g0 < N → holds r m D → read m' (sreg out0 g0) = v →
  (∀ reg, apart (sreg out0 g0) reg → read m' reg = read m reg) → holds r m' (fset g0 v D).
Proof.
  intros Hg0 H Hv Hr g Hg Hs. destruct (H g Hg Hs) as [H1 H2]. split.
  - intros b Hin. rewrite Hr by by apply others_apart. by apply H1.
  - unfold fset. destruct (decide (g = g0)) as [->|Hne]; [done|]. rewrite Hr; [done|].
    by apply (sreg_apart size T es L HL ltac:(lia)), not_eq_sym.
Qed.

Lemma holds_tmp r m D o n d : holds r m D → holds r (write m (mkRegion tmp o n) d) D.
Proof.
  intros H g Hg Hs. destruct (H g Hg Hs) as [H1 H2]. split.
  - intros b Hin. rewrite read_write by (apply tmp_apart; set_solver). by apply H1.
  - rewrite read_write by (apply tmp_apart; set_solver). done.
Qed.

Lemma rs_reduce_holds r m D g0 : 0 ≤ g0 < N → 0 < slen g0 → holds r m D → D g0 = initial r g0 →
  holds r (mem_after m (rs_reduce g0)) (fset g0 (local_sum r g0) D) ∧
  ∀ reg, apart (sreg out0 g0) reg → read (mem_after m (rs_reduce g0)) reg = read m reg.
Proof.
  intros Hg0 Hs0 H HD. destruct (H g0 Hg0 Hs0) as [H1 H2].
  pose proof (slen_elems size T es L HL Hes HTe g0 Hs0) as He.
  destruct (reduceInputs_effect es op Hop (g0 * Sb) (slen g0) (Z.lt_le_incl _ _ Hs0) He ins out0 outs m Hnd) as [E1 E2].
  split; [|exact E2]. apply (holds_write r m _ D); [done|done| |exact E2]. etransitivity; [exact E1|].
  unfold local_sum, local_value. f_equal. apply list_fmap_ext. intros i b Hi. apply list_elem_of_lookup_2 in Hi.
  destruct (decide (b = out0)) as [->|Hne]; [rewrite HD in H2; exact H2|]. apply H1.
  unfold inputs in Hi. destruct ins; set_solver.
Qed.

Definition rs_D (i : Z) (r g : Z) : list Z := if decide (rs_done i r g) then partial r g else initial r g.

Lemma rs_inv_holds i r : rs_inv i r → holds r (rs_mem i r) (rs_D (Z.of_nat i) r).
Proof. intros [H _]. exact H. Qed.

Lemma rs_after_first i r m :
  (i < K)%nat → pl_sends K rs_sx i r = true → holds r m (rs_D (Z.of_nat i) r) → Z.of_nat i < p →
  holds r (mem_after m (rs_ps i r)) (fset (seg 1 (Z.of_nat i) r) (partial r (seg 1 (Z.of_nat i) r)) (rs_D (Z.of_nat i) r)) ∧
  ∀ reg, apart (rs_sx i r) reg → read (mem_after m (rs_ps i r)) reg = read m reg.
Proof.
  intros Hi Hs H Hp. destruct facts as (HN & Hp2 & HpN & HS & E & HK & HpK).
  unfold rs_ps. rewrite (proj2 (Z.ltb_lt _ _)) by done. set (g := seg 1 (Z.of_nat i) r).
  assert (0 ≤ g < N) as Hg by (apply (seg_range size T es L HL); lia).
  assert (0 < slen g) as Hsg by (unfold pl_sends in Hs; apply andb_true_iff in Hs as [_ Hs%Z.ltb_lt]; done).
  assert (turn r g = N - p + Z.of_nat i) as Ht.
  { unfold g. rewrite (turn_seg1 size T es L HL) by lia. by rewrite decide_True. }
  rewrite (partial_first r g) by lia. apply rs_reduce_holds; [done|done|done|].
  unfold rs_D. rewrite decide_False; [done|]. unfold rs_done. lia.
Qed.

Lemma rs_sent i r : (i < K)%nat → 0 < rg_len (rs_sx i r) → rs_inv i r →
  read (mem_after (rs_mem i r) (rs_ps i r)) (rs_sx i r) = rs_val i r.
Proof.
  intros Hi Hlen Hinv%rs_inv_holds. destruct facts as (HN & Hp2 & HpN & HS & E & HK & HpK).
  assert (0 ≤ seg 1 (Z.of_nat i) r < N) as Hg by (apply (seg_range size T es L HL); lia).
  destruct (decide (Z.of_nat i < p)) as [Hlt|Hge].
  - assert (pl_sends K rs_sx i r = true) as Hs.
    { unfold pl_sends. by rewrite (proj2 (Nat.ltb_lt i K) Hi), (proj2 (Z.ltb_lt 0 _) Hlen). }
    destruct (rs_after_first i r _ Hi Hs Hinv Hlt) as [H _]. etransitivity; [apply (H _ Hg Hlen)|]. by rewrite fset_at.
  - unfold rs_ps. rewrite (proj2 (Z.ltb_ge _ _)) by lia. cbn [mem_after].
    etransitivity; [apply (Hinv _ Hg Hlen)|]. unfold rs_D. rewrite decide_True; [done|]. left. rewrite (turn_seg1 size T es L HL) by lia. rewrite decide_False by lia. lia.
Qed.

Lemma rx_apart i r : apart (rs_rx i r) (rs_rx (S i) r).
Proof. apply halves_apart; unfold Segments.slen; lia. Qed.

(** The memory of a round before it waits: the segment sent first is reduced. *)
Definition rs_m1 (i : nat) (r : Z) : Mem := if pl_sends K rs_sx i r then mem_after (rs_mem i r) (rs_ps i r) else rs_mem i r.
Definition rs_D1 (i : nat) (r : Z) : Z → list Z :=
  let g := seg 1 (Z.of_nat i) r in
  if decide (Z.of_nat i < p) then fset g (partial r g) (rs_D (Z.of_nat i) r) else rs_D (Z.of_nat i) r.

Lemma rs_first i r : rs_inv i r →
  holds r (rs_m1 i r) (rs_D1 i r) ∧ ∀ reg, rg_buf reg = tmp → read (rs_m1 i r) reg = read (rs_mem i r) reg.
Proof.
  intros H0%rs_inv_holds. destruct facts as (HN & Hp2 & HpN & HS & E & HK & HpK).
  assert (∀ reg, rg_buf reg = tmp → apart (rs_sx i r) reg) as Hap.
  { intros reg Ht. apply apart_buf. cbn. rewrite Ht. intros ->. apply Htmp. set_solver. }
  unfold rs_m1, rs_D1. destruct (pl_sends K rs_sx i r) eqn:Es.
  - assert (i < K)%nat as HiK by (unfold pl_sends in Es; apply andb_true_iff in Es as [?%Nat.ltb_lt _]; done).
    case_decide as Hlt; [|unfold rs_ps; by rewrite (proj2 (Z.ltb_ge _ _)) by lia].
    destruct (rs_after_first i r _ HiK Es H0 Hlt) as [Ha Hb']. split; [done|]. intros reg Ht. by apply Hb', Hap.
  - split; [|done]. case_decide as Hlt; [|done]. eapply holds_ext; [|exact H0]. intros g Hg Hs. unfold fset.
    case_decide; [|done]. subst g. unfold pl_sends in Es. rewrite (proj2 (Nat.ltb_lt i K)) in Es by lia.
    cbn in Es. apply Z.ltb_ge in Es. lia.
Qed.

(** What is done before the next round. *)
Lemma rs_D_first r g : 0 ≤ g < N → rs_D1 0 r g = rs_D 1 r g.
Proof.
  intros Hg. destruct facts as (HN & Hp2 & HpN & HS & E & HK & HpK).
  unfold rs_D1. rewrite decide_True by lia. unfold fset, rs_D, rs_done. change (Z.of_nat 0) with 0.
  pose proof (turn_seg1 size T es L HL ltac:(lia) r 0 ltac:(lia)) as Ht. rewrite decide_True in Ht by lia.
  destruct (decide (g = seg 1 0 r)) as [->|Hne]; [by rewrite decide_True by lia|].
  assert (turn r g ≠ N - p + 0) as Hnt by (intros H; apply Hne, (turn_first size T es L HL); lia).
  pose proof (turn_range size T es L HL ltac:(lia) r g). apply decide_ext. lia.
Qed.

Lemma rs_D_next j r g : (j < K)%nat → 0 ≤ g < N → let g2 := seg 2 (Z.of_nat j) r in
  rs_D1 (S j) r g2 = initial r g2 ∧ fset g2 (partial r g2) (rs_D1 (S j) r) g = rs_D (Z.of_nat (S (S j))) r g.
Proof.
  intros Hj Hg g2. destruct facts as (HN & Hp2 & HpN & HS & E & HK & HpK).
  pose proof (turn_seg2 L r (Z.of_nat j) ltac:(lia)) as Ht2. fold g2 in Ht2.
  pose proof (turn_seg1 size T es L HL ltac:(lia) r (Z.of_nat (S j)) ltac:(lia)) as Ht1.
  set (g1 := seg 1 (Z.of_nat (S j)) r) in *. unfold rs_D1. fold g1. split.
  - unfold fset, rs_D, rs_done. destruct (decide (Z.of_nat (S j) < p)).
    + rewrite (decide_False (P := g2 = g1)) by (intros He; rewrite He in Ht2; lia). rewrite decide_False; [done|]. lia.
    + rewrite decide_False; [done|]. lia.
  - unfold fset, rs_D, rs_done. destruct (decide (g = g2)) as [->|Hne2]; [by rewrite decide_True by lia|].
    assert (turn r g ≠ Z.of_nat j) as Hn2 by (intros H; apply Hne2, (turn_second size T es L HL); lia).
    pose proof (turn_range size T es L HL ltac:(lia) r g).
    destruct (decide (Z.of_nat (S j) < p)) as [Hlt|Hge]; [|apply decide_ext; lia].
    destruct (decide (g = g1)) as [->|Hne1]; [by rewrite decide_True by lia|].
    assert (turn r g ≠ N - p + Z.of_nat (S j)) by (intros H'; apply Hne1, (turn_first size T es L HL); lia). apply decide_ext. lia.
Qed.

(** The work on what the round before brought. *)
Lemma rs_work j r m D : (j < K)%nat → let g := seg 2 (Z.of_nat j) r in
  0 < slen g → holds r m D → D g = initial r g → read m (rs_rx j r) = partial (next r) g →
  let m' := mem_after (mem_after m (rs_pr j r)) (rs_qr j r) in
  holds r m' (fset g (partial r g) D) ∧ ∀ reg, apart (sreg out0 g) reg → read m' reg = read m reg.
Proof.
  intros Hj g Hs H HD Ht. destruct facts as (HN & Hp2 & HpN & HS & E & HK & HpK).
  assert (0 ≤ g < N) as Hg by (apply (seg_range size T es L HL); lia).
  destruct (rs_reduce_holds r m D g Hg Hs H HD) as [H3 T3]. change (rs_pr j r) with (rs_reduce g).
  set (m3 := mem_after m (rs_reduce g)) in *. cbv zeta.
  assert (read m3 (rs_rx j r) = partial (next r) g) as Htm.
  { rewrite T3; [done|]. apply apart_sym, tmp_apart. set_solver. }
  assert (mem_after m3 (rs_qr j r) = compute m3 (sreg out0 g) (λ l, match l with [x; y] => op x y | _ => [] end)
    [sreg out0 g; rs_rx j r]) as ->.
  { unfold rs_qr, elems. fold g. rewrite (slen_elems size T es L HL Hes HTe g Hs). done. }
  destruct (H3 g Hg Hs) as [_ Hloc]. rewrite fset_at in Hloc. split.
  - eapply holds_ext; [|apply (holds_write r m3 _ (fset g (local_sum r g) D) g (partial r g) Hg H3)].
    + intros g' _ _. unfold fset. by destruct (decide (g' = g)).
    + unfold compute. cbn [fmap list_fmap]. rewrite Hloc, Htm. rewrite read_write_same.
      * symmetry. apply partial_step; [done|]. pose proof (turn_seg2 L r (Z.of_nat j) ltac:(lia)) as Ht2. fold g in Ht2. lia.
      * rewrite (op_length _ _ Hop); [by apply local_sum_length|].
        apply Nat2Z.inj. unfold partial. by rewrite local_sum_length, ring_sum_length.
    + intros reg Hr. by apply read_compute.
  - intros reg Hr. rewrite read_compute by done. by apply T3.
Qed.

(** The invariant, round by round. *)
Lemma rs_inv_step i r : (i ≤ K)%nat → rs_inv i r → rs_inv (S i) r.
Proof.
  intros Hi Hinv. destruct (rs_first i r Hinv) as [H1 T1]. destruct Hinv as [_ Htmp0].
  pose proof (pl_mem_S size slot K rs_sx rs_rx rs_ps (λ _ _, []) rs_pr rs_qr rs_computes mems rs_val i r) as Hm.
  fold rs_mem in Hm. cbv zeta in Hm. cbn [mem_after] in Hm. fold (rs_m1 i r) in Hm.
  set (m2 := if pl_recvs K rs_rx i r then write (rs_m1 i r) (rs_rx i r) (rs_val i (next r)) else rs_m1 i r) in *.
  assert (holds r m2 (rs_D1 i r)) as H2 by (unfold m2; destruct (pl_recvs K rs_rx i r); [by apply holds_tmp|done]).
  assert (pl_recvs K rs_rx i r = true → read m2 (rs_rx i r) = partial (next r) (seg 2 (Z.of_nat i) r)) as HT2.
  { intros Er. unfold m2. rewrite Er. unfold pl_recvs in Er. apply andb_true_iff in Er as [_ Er%Z.ltb_lt]. cbn in Er.
    assert (seg 1 (Z.of_nat i) (next r) = seg 2 (Z.of_nat i) r) as Hnx by apply (seg_next size T es L HL ltac:(lia) 1).
    unfold rs_val. rewrite Hnx. apply read_write_same. cbn. unfold partial. by rewrite ring_sum_length. }
  destruct i as [|j].
  { split; [|by rewrite Hm]. rewrite Hm. apply (holds_ext r m2 (rs_D1 0 r) (rs_D 1 r)); [|done]. intros g Hg _. by apply rs_D_first. }
  assert (j < K)%nat as HjK by lia. set (g2 := seg 2 (Z.of_nat j) r).
  destruct (pl_recvs K rs_rx j r) eqn:Er.
  - assert (0 < slen g2) as Hs2 by (unfold pl_recvs in Er; apply andb_true_iff in Er as [_ Er%Z.ltb_lt]; exact Er).
    assert (read m2 (rs_rx j r) = partial (next r) g2) as Htm.
    { unfold m2. assert (read (rs_m1 (S j) r) (rs_rx j r) = partial (next r) g2) as Hm1 by (rewrite T1 by done; by apply Htmp0).
      destruct (pl_recvs K rs_rx (S j) r); [|done]. rewrite read_write; [done|]. apply apart_sym, rx_apart. }
    assert (0 ≤ g2 < N) as Hg2 by (apply (seg_range size T es L HL); lia).
    destruct (rs_work j r m2 (rs_D1 (S j) r) HjK Hs2 H2) as [H4 T4]; [by apply (rs_D_next j r g2)|exact Htm|].
    rewrite <-Hm in H4, T4. split.
    + apply (holds_ext r (rs_mem (S (S j)) r) (fset g2 (partial r g2) (rs_D1 (S j) r))); [|exact H4]. intros g Hg _. by apply rs_D_next.
    + intros Er2. rewrite T4; [by apply HT2|]. apply apart_sym, tmp_apart. set_solver.
  - unfold rs_inv. rewrite Hm. split; [|done]. apply (holds_ext r m2 (rs_D1 (S j) r) (rs_D (Z.of_nat (S (S j))) r)); [|done].
    intros g Hg Hs. rewrite <-(proj2 (rs_D_next j r g HjK Hg)). unfold fset. case_decide as Hd; [subst g|done].
    unfold pl_recvs in Er. rewrite (proj2 (Nat.ltb_lt j K)) in Er by done. cbn in Er. apply Z.ltb_ge in Er. unfold g2 in Hs. lia.
Qed.

Lemma rs_inv_all i r : (i ≤ S K)%nat → rs_inv i r.
Proof.
  induction i as [|i IH]; intros Hi; [|apply rs_inv_step; [lia|apply IH; lia]]. split; [|done].
  intros g Hg Hs. split; [done|]. rewrite decide_False; [done|]. unfold rs_done.
  pose proof (turn_range size T es L HL ltac:(lia) r g). lia.
Qed.

Lemma rs_len i r : 0 ≤ r < size → rg_len (rs_sx i r) = rg_len (rs_rx i (prev r)).
Proof.
  intros Hr. cbn. f_equal. rewrite <-(seg_next size T es L HL ltac:(lia) 1).
  change ((prev r + 1) `mod` size) with (next (prev r)). by rewrite (next_of_prev size) by (done || lia).
Qed.

Lemma rs_lead rest :
  leads size (λ r, pl_prog size slot K rs_sx rs_rx rs_ps (λ _ _, []) rs_pr rs_qr r ++ rest r) mems rest (rs_mem (S K)).
Proof.
  apply (pl_lead size slot K rs_sx rs_rx rs_ps (λ _ _, []) rs_pr rs_qr ltac:(lia) rs_computes mems rs_val).
  - intros i r _. apply rs_len.
  - intros i r Hi _ Hlen. apply rs_sent; [done|done|]. apply rs_inv_all. lia.
  - intros i r Hi _ Hlen. unfold rs_val, partial. by apply ring_sum_length.
Qed.

Lemma rs_out_apart i r k j : - N < (1 * p + Z.of_nat i) - (k * p + j) < N → 1 * p + Z.of_nat i ≠ k * p + j →
  apart (rs_sx i r) (sreg out0 (seg k j r)).
Proof. apply (sreg_neq size T es L HL ltac:(lia)). Qed.

Lemma rs_reduce_quiet ss rs g :
  0 < slen g → Forall (λ r, apart r (sreg out0 g)) ss → Forall (λ r, rg_buf r = tmp) rs → quiet ss rs (rs_reduce g).
Proof.
  intros Hg Hss Hrs. apply (reduceInputs_quiet es op Hop (g * Sb) (slen g) (Z.lt_le_incl _ _ Hg)); [by apply (slen_elems size T es L HL)|done|].
  intros b Hin. eapply Forall_impl; [exact Hrs|]. intros reg Ht. apply apart_buf. rewrite Ht. cbn. by intros ->.
Qed.

Lemma rs_fifo r rest : fifo [] [] rest → fifo [] [] (pl_prog size slot K rs_sx rs_rx rs_ps (λ _ _, []) rs_pr rs_qr r ++ rest).
Proof.
  destruct facts as (HN & Hp2 & HpN & HS & E & HK & HpK).
  assert (∀ o n b g, b ∈ ins ++ out0 :: outs → apart (mkRegion tmp o n) (sreg b g)) as Hto by (intros; by apply tmp_apart).
  apply (pl_fifo size slot K rs_sx rs_rx rs_ps (λ _ _, []) rs_pr rs_qr ltac:(lia) rs_computes).
  - intros i r' Hi. apply Hto. set_solver.
  - intros i r' Hi. split; [apply rx_apart|]. split; [apply apart_sym|]; apply Hto; set_solver.
  - intros i r' Hi Hs. unfold rs_ps. destruct (Z.ltb_spec (Z.of_nat i) p); [|constructor].
    unfold pl_sends in Hs. apply andb_true_iff in Hs as [_ Hs%Z.ltb_lt]. apply rs_reduce_quiet; [done| |].
    + destruct i as [|j]; [constructor|]. constructor; [|constructor]. apply rs_out_apart; lia.
    + destruct i; by repeat constructor.
  - intros i r' Hi Hs. constructor.
  - intros i r' Hi Hs. unfold pl_recvs in Hs. apply andb_true_iff in Hs as [_ Hs%Z.ltb_lt].
    apply rs_reduce_quiet; [done| |by repeat constructor]. repeat constructor; apply rs_out_apart; lia.
  - intros i r' Hi Hs. unfold pl_recvs in Hs. apply andb_true_iff in Hs as [_ Hs%Z.ltb_lt]. cbn in Hs.
    unfold rs_qr, elems. rewrite (slen_elems size T es L HL Hes HTe _ Hs). constructor; [|constructor]. cbn. split.
    + repeat constructor; [apply rs_out_apart; lia..|]. apply Hto. set_solver.
    + constructor; [|constructor; [|constructor]].
      * constructor; [|constructor]. apply Hto. set_solver.
      * constructor; [|constructor]. apply apart_sym, rx_apart.
Qed.

(* ------------------------------------------------------------------ *)
(** * The allgather phase *)

(** The reduction of all processes, as the owner of the chunk has it. *)
Definition full (g : Z) : list Z := partial (g / p) g.

Definition ag_sx (i : nat) (r : Z) : Region := sreg out0 (seg 0 (Z.of_nat i) r).
Definition ag_rx (i : nat) (r : Z) : Region := sreg out0 (seg 1 (Z.of_nat i) r).
Definition ag_share (g : Z) : list Act := broadcastOutputs (out0 :: outs) (g * Sb) (slen g).
Definition ag_qs (i : nat) (r : Z) : list Act := if Z.of_nat i <? p then ag_share (seg 0 (Z.of_nat i) r) else [].
Definition ag_qr (i : nat) (r : Z) : list Act := ag_share (seg 1 (Z.of_nat i) r).
Definition ag_val (i : nat) (r : Z) : list Z := full (seg 0 (Z.of_nat i) r).

Let ag_mem : nat → Z → Mem := pl_mem size slot K ag_sx ag_rx (λ _ _, []) ag_qs (λ _ _, []) ag_qr (rs_mem (S K)) ag_val.

Lemma ag_computes i (r : Z) : Forall is_compute (@nil Act) ∧ Forall is_compute (ag_qs i r) ∧
  Forall is_compute (@nil Act) ∧ Forall is_compute (ag_qr i r).
Proof.
  unfold ag_qs, ag_qr. split; [done|]. split; [|split; [done|apply broadcastOutputs_computes]].
  destruct (_ <? _); [apply broadcastOutputs_computes|done].
Qed.

(** What process [r] has before round [i]: in its first output, in the others. *)
Definition got (i r g : Z) : Prop := turn (r - 1) g < i ∨ N - p ≤ turn (r - 1) g.
Definition shared (i r g : Z) : Prop := turn (r - 1) g + 1 < i ∨ N - p ≤ turn (r - 1) g ∧ turn (r - 1) g - (N - p) < i.

(** The segments of [G] are in the first output, those of [Sh] in the others. *)
Definition has (G Sh : Z → Prop) (m : Mem) : Prop := ∀ g, 0 ≤ g < N → 0 < slen g →
  (G g → read m (sreg out0 g) = full g) ∧ (Sh g → ∀ b, b ∈ outs → read m (sreg b g) = full g).

Lemma out0_outs : out0 ∉ outs.
Proof. apply NoDup_app in Hnd as (_ & _ & Hno). by apply NoDup_cons in Hno as [? _]. Qed.

Lemma ag_share_effect m g0 : 0 ≤ g0 < N → 0 < slen g0 → read m (sreg out0 g0) = full g0 →
  let m' := mem_after m (ag_share g0) in
  (∀ b, b ∈ outs → read m' (sreg b g0) = full g0) ∧
  ∀ b g, (b = out0 ∨ g ≠ g0) → read m' (sreg b g) = read m (sreg b g).
Proof.
  intros Hg0 Hs0 Hm. destruct (broadcastOutputs_effect (g0 * Sb) (slen g0) (Z.lt_le_incl _ _ Hs0) out0 outs m out0_outs) as [H1 H2].
  split.
  - intros b Hb'. etransitivity; [by apply H1|]. exact Hm.
  - intros b g Hbg. apply H2. intros b' Hb'. destruct (decide (b' = b)) as [->|Hne]; [|by apply apart_buf].
    destruct Hbg as [->|Hg]; [by destruct out0_outs|]. by apply (sreg_apart size T es L HL ltac:(lia)), not_eq_sym.
Qed.

Lemma seg_back k i r : seg (k + 1) i (r - 1) = seg k i r.
Proof. unfold Segments.seg. f_equal. lia. Qed.

Lemma full_own r g : 0 ≤ g < N → 0 ≤ r < size → N - p ≤ turn (r - 1) g → full g = partial r g.
Proof.
  intros Hg Hr Ht. destruct facts as (HN & Hp2 & HpN & HS & E & HK & HpK). unfold full. f_equal.
  destruct (hops_turn size T es L HL ltac:(lia) (r - 1) g Hg) as [H0 _]. specialize (H0 Ht). unfold hops in H0.
  replace (g / p - 1 - (r - 1)) with (g / p - r) in H0 by lia.
  assert (0 ≤ g / p < size) as Hc by (split; [apply Z.div_pos; lia|apply Z.div_lt_upper_bound; lia]).
  pose proof (Z.div_mod (g / p - r) size ltac:(lia)) as Hd. rewrite H0 in Hd. assert ((g / p - r) / size = 0) by nia. lia.
Qed.

Lemma has_weaken (G Sh G' Sh' : Z → Prop) m :
  (∀ g, 0 ≤ g < N → 0 < slen g → (G' g → G g) ∧ (Sh' g → Sh g)) → has G Sh m → has G' Sh' m.
Proof. intros Hw H g Hg Hs. destruct (H g Hg Hs) as [H1 H2]. destruct (Hw g Hg Hs) as [W1 W2]. split; auto. Qed.

Lemma has_share G Sh m g0 : 0 ≤ g0 < N → 0 < slen g0 → G g0 → has G Sh m →
  has G (λ g, Sh g ∨ g = g0) (mem_after m (ag_share g0)).
Proof.
  intros Hg0 Hs0 Hgot H g Hg Hs. destruct (H g0 Hg0 Hs0) as [H1 _]. destruct (H g Hg Hs) as [H3 H4].
  destruct (ag_share_effect m g0 Hg0 Hs0 (H1 Hgot)) as [E1 E2]. split.
  - intros Hgo. rewrite E2 by auto. by apply H3.
  - intros Hsh b Hin. destruct (decide (g = g0)) as [->|Hne]; [by apply E1|]. rewrite E2 by auto.
    destruct Hsh as [Hsh|]; [by apply H4|done].
Qed.

Lemma has_receive G Sh m g0 : 0 ≤ g0 < N → 0 < slen g0 → has G Sh m →
  has (λ g, G g ∨ g = g0) Sh (write m (sreg out0 g0) (full g0)).
Proof.
  intros Hg0 Hs0 H g Hg Hs. destruct (H g Hg Hs) as [H3 H4]. split.
  - intros HG. destruct (decide (g = g0)) as [->|Hne]; [apply read_write_same; by apply ring_sum_length|].
    rewrite read_write by by apply (sreg_apart size T es L HL ltac:(lia)), not_eq_sym. destruct HG; [by apply H3|done].
  - intros HSh b Hin. rewrite read_write; [by apply H4|]. apply apart_buf. cbn. intros <-. by destruct out0_outs.
Qed.

Lemma ag_turns r : 0 ≤ r < size → (∀ j, 0 ≤ j < N → turn (r - 1) (seg 1 j r) = j) ∧
  (∀ j, 0 ≤ j < N → turn (r - 1) (seg 0 j r) = if decide (j < p) then N - p + j else j - p) ∧
  ∀ g, 0 ≤ g < N → g = seg 1 (turn (r - 1) g) r.
Proof.
  intros Hr. split; [|split].
  - intros j Hj. rewrite <-seg_back. by apply (turn_seg2 L).
  - intros j Hj. rewrite <-(seg_back 0). by apply (turn_seg1 size T es L HL ltac:(lia)).
  - intros g Hg. rewrite <-seg_back. symmetry. by apply (seg_turn L).
Qed.

Lemma ag_own r j g : 0 ≤ r < size → 0 ≤ j < p → 0 ≤ g < N → turn (r - 1) g = N - p + j → g = seg 0 j r.
Proof.
  intros Hr Hj Hg Ht. destruct facts as (HN & Hp2 & HpN & HS & E & HK & HpK).
  destruct (ag_turns r Hr) as (_ & H0 & _). apply (turn_inj L (r - 1)); [done|apply (seg_range size T es L HL); lia|].
  rewrite H0 by lia. by rewrite decide_True by lia.
Qed.

(** The memory after each part of a round. *)
Lemma ag_shares_own i r m : (i ≤ K)%nat → 0 ≤ r < size → has (got (Z.of_nat i) r) (shared (Z.of_nat i) r) m →
  has (got (Z.of_nat i) r) (λ g, shared (Z.of_nat i) r g ∨ Z.of_nat i < p ∧ g = seg 0 (Z.of_nat i) r)
    (if pl_sends K ag_sx i r then mem_after m (ag_qs i r) else m).
Proof.
  intros Hi Hr H. destruct facts as (HN & Hp2 & HpN & HS & E & HK & HpK). destruct (ag_turns r Hr) as (_ & H0 & _).
  unfold pl_sends, ag_qs. destruct (Z.ltb_spec (Z.of_nat i) p) as [Hip|Hip].
  - rewrite (proj2 (Nat.ltb_lt i K)) by lia. cbn [andb ag_sx Segments.sreg rg_len].
    destruct (Z.ltb_spec 0 (slen (seg 0 (Z.of_nat i) r))) as [Hs|Hs].
    + eapply has_weaken; [|apply has_share; [apply (seg_range size T es L HL); lia|exact Hs| |exact H]].
      * intros g _ _. split; [done|]. intros [?|[_ ?]]; auto.
      * right. rewrite H0 by lia. rewrite decide_True by lia. lia.
    + eapply has_weaken; [|exact H]. intros g _ Hsg. split; [done|]. intros [?|[_ ->]]; [done|lia].
  - destruct (_ && _); (eapply has_weaken; [|exact H]); intros g _ _; (split; [done|]); intros [?|[? _]]; done || lia.
Qed.

Lemma ag_receives i r m Sh : (i ≤ K)%nat → 0 ≤ r < size → has (got (Z.of_nat i) r) Sh m →
  has (got (Z.of_nat (S i)) r) Sh (if pl_recvs K ag_rx i r then write m (ag_rx i r) (ag_val i (next r)) else m).
Proof.
  intros Hi Hr H. destruct facts as (HN & Hp2 & HpN & HS & E & HK & HpK). destruct (ag_turns r Hr) as (_ & _ & H2).
  assert (seg 0 (Z.of_nat i) (next r) = seg 1 (Z.of_nat i) r) as Hnx by apply (seg_next size T es L HL ltac:(lia) 0).
  assert (∀ g, 0 ≤ g < N → got (Z.of_nat (S i)) r g → got (Z.of_nat i) r g ∨ (i < K)%nat ∧ g = seg 1 (Z.of_nat i) r) as Hgot.
  { intros g Hg [Ht|Ht]; [|left; by right]. destruct (decide (turn (r - 1) g < Z.of_nat i)); [left; by left|].
    assert (turn (r - 1) g = Z.of_nat i) as Hti by lia. destruct (decide (i < K)%nat).
    - right. split; [done|]. rewrite <-Hti. by apply H2.
    - left. right. lia. }
  unfold pl_recvs. destruct (Nat.ltb_spec i K) as [HiK|HiK]; cbn [andb ag_rx Segments.sreg rg_len].
  - unfold ag_val. rewrite Hnx. destruct (Z.ltb_spec 0 (slen (seg 1 (Z.of_nat i) r))) as [Hs|Hs].
    + eapply has_weaken; [|apply has_receive; [apply (seg_range size T es L HL); lia|exact Hs|exact H]].
      intros g Hg _. split; [|done]. intros [?|[_ ?]]%Hgot; auto.
    + eapply has_weaken; [|exact H]. intros g Hg Hsg. split; [|done]. intros [?|[_ ->]]%Hgot; [done|lia|done].
  - eapply has_weaken; [|exact H]. intros g Hg _. split; [|done]. intros [?|[? _]]%Hgot; [done|lia|done].
Qed.

Lemma ag_shares_received j r m (Sh : Z → Prop) : (j < K)%nat → 0 ≤ r < size → has (got (Z.of_nat (S (S j))) r) Sh m →
  has (got (Z.of_nat (S (S j))) r) (λ g, Sh g ∨ g = seg 1 (Z.of_nat j) r)
    (if pl_recvs K ag_rx j r then mem_after m (ag_qr j r) else m).
Proof.
  intros Hj Hr H. destruct facts as (HN & Hp2 & HpN & HS & E & HK & HpK). destruct (ag_turns r Hr) as (H1 & _ & _).
  unfold pl_recvs. rewrite (proj2 (Nat.ltb_lt j K)) by done. cbn [andb ag_rx Segments.sreg rg_len].
  destruct (Z.ltb_spec 0 (slen (seg 1 (Z.of_nat j) r))) as [Hs|Hs].
  - apply has_share; [apply (seg_range size T es L HL); lia|exact Hs| |exact H]. left. rewrite H1 by lia. lia.
  - eapply has_weaken; [|exact H]. intros g Hg Hsg. split; [done|]. intros [?| ->]; [done|lia].
Qed.

Lemma ag_inv i r : 0 ≤ r < size → (i ≤ S K)%nat → has (got (Z.of_nat i) r) (shared (Z.of_nat i) r) (ag_mem i r).
Proof.
  intros Hr. destruct facts as (HN & Hp2 & HpN & HS & E & HK & HpK).
  assert (∀ g, 0 ≤ turn (r - 1) g < N) as Htr by (intros; apply (turn_range size T es L HL); lia).
  induction i as [|i IH]; intros Hi.
  - intros g Hg Hs. specialize (Htr g). split; [|unfold shared; lia]. intros Hgot.
    change (ag_mem 0 r) with (rs_mem (S K) r). destruct (rs_inv_all (S K) r ltac:(lia)) as [Hinv _].
    destruct (Hinv g Hg Hs) as [_ ->]. rewrite (full_own r g) by (done || unfold got in Hgot; lia).
    rewrite decide_True; [done|]. unfold rs_done. pose proof (turn_range size T es L HL ltac:(lia) r g). lia.
  - specialize (IH ltac:(lia)). apply (ag_shares_own i r) in IH; [|lia|done]. apply (ag_receives i r) in IH; [|lia|done].
    pose proof (pl_mem_S size slot K ag_sx ag_rx (λ _ _, []) ag_qs (λ _ _, []) ag_qr ag_computes (rs_mem (S K)) ag_val i r) as Hm.
    fold ag_mem in Hm. cbv zeta in Hm. cbn [mem_after] in Hm. rewrite Hm. destruct i as [|j].
    + eapply has_weaken; [|exact IH]. intros g Hg _. split; [done|]. intros Hsh. right. split; [lia|].
      apply ag_own; [done|lia|done|]. unfold shared in Hsh. specialize (Htr g). lia.
    + apply ag_shares_received in IH; [|lia|done]. eapply has_weaken; [|exact IH]. intros g Hg _. split; [done|].
      intros Hsh. specialize (Htr g). destruct (decide (turn (r - 1) g = Z.of_nat j)) as [<-|Hne].
      * right. by apply (ag_turns r Hr).
      * left. unfold shared in *. destruct (decide (turn (r - 1) g = N - p + Z.of_nat (S j))); [right|left; lia].
        split; [lia|]. apply ag_own; [done|lia|done|done].
Qed.

Lemma ag_len i r : 0 ≤ r < size → rg_len (ag_sx i r) = rg_len (ag_rx i (prev r)).
Proof.
  intros Hr. cbn. f_equal. rewrite <-(seg_next size T es L HL ltac:(lia) 0).
  change ((prev r + 1) `mod` size) with (next (prev r)). by rewrite (next_of_prev size) by (done || lia).
Qed.

Lemma ag_lead rest :
  leads size (λ r, pl_prog size slot K ag_sx ag_rx (λ _ _, []) ag_qs (λ _ _, []) ag_qr r ++ rest r) (rs_mem (S K)) rest (ag_mem (S K)).
Proof.
  apply (pl_lead size slot K ag_sx ag_rx (λ _ _, []) ag_qs (λ _ _, []) ag_qr ltac:(lia) ag_computes (rs_mem (S K)) ag_val).
  - intros i r _. apply ag_len.
  - intros i r Hi Hr Hlen. cbn [mem_after]. destruct facts as (HN & Hp2 & HpN & HS & E & HK & HpK).
    destruct (ag_inv i r Hr ltac:(lia) (seg 0 (Z.of_nat i) r)) as [H _]; [apply (seg_range size T es L HL); lia|done|].
    apply H. destruct (ag_turns r Hr) as (_ & H0 & _). unfold got. rewrite H0 by lia. case_decide; [right|left]; lia.
  - intros i r Hi _ Hlen. unfold ag_val, full, partial. by apply ring_sum_length.
Qed.

Lemma ag_fifo r rest : fifo [] [] rest →
  fifo [] [] (pl_prog size slot K ag_sx ag_rx (λ _ _, []) ag_qs (λ _ _, []) ag_qr r ++ rest).
Proof.
  destruct facts as (HN & Hp2 & HpN & HS & E & HK & HpK).
  assert (∀ ss rs g, (∀ x, x ∈ ss ++ rs → rg_buf x = out0) → Forall (λ x, apart x (sreg out0 g)) rs → quiet ss rs (ag_share g)) as Hq.
  { intros ss rs g Hall Hrs. apply broadcastOutputs_quiet; [|done]. intros b Hin. apply Forall_forall. intros x Hx%Hall.
    apply apart_buf. rewrite Hx. cbn. intros <-. by destruct out0_outs. }
  apply (pl_fifo size slot K ag_sx ag_rx (λ _ _, []) ag_qs (λ _ _, []) ag_qr ltac:(lia) ag_computes).
  - intros i r' Hi. apply (sreg_neq size T es L HL ltac:(lia)); lia.
  - intros i r' Hi. split; [|split]; apply (sreg_neq size T es L HL ltac:(lia)); lia.
  - constructor.
  - intros i r' Hi _. unfold ag_qs. destruct (_ <? p); [|constructor]. apply Hq.
    + intros x. unfold near. destruct i; set_solver.
    + destruct i as [|j]; repeat constructor; apply (sreg_neq size T es L HL ltac:(lia)); lia.
  - constructor.
  - intros i r' Hi _. apply Hq; [set_solver|]. repeat constructor. apply (sreg_neq size T es L HL ltac:(lia)); lia.
Qed.

(** Both phases: every output holds the reduction of every segment. *)
Definition phases (r : Z) : list Act :=
  pl_prog size slot K rs_sx rs_rx rs_ps (λ _ _, []) rs_pr rs_qr r ++
  pl_prog size slot K ag_sx ag_rx (λ _ _, []) ag_qs (λ _ _, []) ag_qr r.

Lemma phases_clean r : clean hist0 (phases r).
Proof.
  destruct (pl_peers size slot K rs_sx rs_rx rs_ps (λ _ _, []) rs_pr rs_qr ltac:(lia) rs_computes r) as [P1 P2].
  destruct (pl_peers size slot K ag_sx ag_rx (λ _ _, []) ag_qs (λ _ _, []) ag_qr ltac:(lia) ag_computes r) as [P3 P4].
  apply fifo_clean0; unfold phases.
  - rewrite sends_of_app. intros x y Hx Hy _. apply elem_of_app in Hx, Hy.
    assert (x_peer x = prev r ∧ x_slot x = slot) as [E1 E2] by (destruct Hx; auto).
    assert (x_peer y = prev r ∧ x_slot y = slot) as [E3 E4] by (destruct Hy; auto). split; congruence.
  - rewrite recvs_of_app. intros x y Hx Hy _. apply elem_of_app in Hx, Hy.
    assert (x_peer x = next r ∧ x_slot x = slot) as [E1 E2] by (destruct Hx; auto).
    assert (x_peer y = next r ∧ x_slot y = slot) as [E3 E4] by (destruct Hy; auto). split; congruence.
  - apply rs_fifo. pose proof (ag_fifo r [] I) as H. by rewrite app_nil_r in H.
Qed.

Lemma phases_compute : computes (group size phases) mems
  (λ mems', ∀ r g b, 0 ≤ r < size → 0 ≤ g < N → 0 < slen g → b ∈ out0 :: outs → read (mems' r) (sreg b g) = full g).
Proof.
  eapply computes_weaken; [apply (leads_computes size phases mems (ag_mem (S K)))|].
  - intros r _. apply phases_clean.
  - assert (phases = λ r, pl_prog size slot K rs_sx rs_rx rs_ps (λ _ _, []) rs_pr rs_qr r ++
      pl_prog size slot K ag_sx ag_rx (λ _ _, []) ag_qs (λ _ _, []) ag_qr r ++ []) as ->.
    { extensionality r. by rewrite app_nil_r. }
    eapply leads_trans; [apply rs_lead|apply (ag_lead (λ _, []))].
  - intros m Hm r g b Hr Hg Hs Hin. rewrite (Hm r Hr). destruct facts as (HN & Hp2 & HpN & HS & E & HK & HpK).
    pose proof (turn_range size T es L HL ltac:(lia) (r - 1) g).
    destruct (ag_inv (S K) r Hr ltac:(lia) g Hg Hs) as [H1 H2]. apply elem_of_cons in Hin as [->|Hin].
    + apply H1. unfold got. lia.
    + apply H2; [unfold shared; lia|done].
Qed.

(* ------------------------------------------------------------------ *)
(** * The program is the two phases *)

Lemma rs_loop r : 0 ≤ r < size →
  seqZ 0 (N - p + 2) ≫= (λ i,
    (if 2 <=? i then
       let '(sendOffset, sendLength) := computeOffsets L T r 1 (i - 2) in
       let '(recvOffset, recvLength) := computeOffsets L T r 2 (i - 2) in
       when_positive recvLength
         (reduceInputs ins (out0 :: outs) es op recvOffset recvLength ++
          [WaitRecv tmp;
           reduce_act op (elems es out0 recvOffset recvLength) (elems es out0 recvOffset recvLength)
             (elems es tmp (if Z.land i 1 =? 0 then 0 else Sb) recvLength)]) ++
       when_positive sendLength [WaitSend out0]
     else []) ++
    (if i <? N - p then
       let '(sendOffset, sendLength) := computeOffsets L T r 1 i in
       let '(recvOffset, recvLength) := computeOffsets L T r 2 i in
       when_positive recvLength [Recv (mkXfer (next r) slot (mkRegion tmp (if Z.land i 1 =? 0 then 0 else Sb) recvLength))] ++
       when_positive sendLength
         ((if i <? p then reduceInputs ins (out0 :: outs) es op sendOffset sendLength else []) ++
          [Send (mkXfer (prev r) slot (mkRegion out0 sendOffset sendLength))])
     else [])) =
  pl_prog size slot K rs_sx rs_rx rs_ps (λ _ _, []) rs_pr rs_qr r.
Proof.
  intros Hr. destruct facts as (HN & Hp2 & HpN & HS & E & HK & HpK).
  apply (pipelined_loop K); [lia|..].
  - intros i Hi. unfold pl_acts, pl_recvs, pl_sends. destruct (Nat.ltb_spec i K).
    + rewrite (proj2 (Z.ltb_lt _ _)) by lia. rewrite !(computeOffsets_spec size T es L HL) by lia. done.
    + by rewrite (proj2 (Z.ltb_ge _ _)) by lia.
  - by rewrite (proj2 (Z.ltb_ge _ _)) by lia.
  - done.
  - done.
  - intros i Hi. cbn [pl_post]. unfold pl_handle, pl_recvs, pl_sends. rewrite (proj2 (Nat.ltb_lt _ _)) by done.
    rewrite (proj2 (Z.leb_le _ _)) by lia. replace (Z.of_nat i + 2 - 2) with (Z.of_nat i) by lia.
    rewrite (half_of_2 L), !(computeOffsets_spec size T es L HL) by lia. done.
Qed.

Lemma ag_loop r : 0 ≤ r < size →
  seqZ 0 (N - p + 2) ≫= (λ i,
    (if 2 <=? i then
       let '(sendOffset, sendLength) := computeOffsets L T r 0 (i - 2) in
       let '(recvOffset, recvLength) := computeOffsets L T r 1 (i - 2) in
       when_positive recvLength (WaitRecv out0 :: broadcastOutputs (out0 :: outs) recvOffset recvLength) ++
       when_positive sendLength [WaitSend out0]
     else []) ++
    (if i <? N - p then
       let '(sendOffset, sendLength) := computeOffsets L T r 0 i in
       let '(recvOffset, recvLength) := computeOffsets L T r 1 i in
       when_positive recvLength [Recv (mkXfer (next r) slot (mkRegion out0 recvOffset recvLength))] ++
       when_positive sendLength
         (Send (mkXfer (prev r) slot (mkRegion out0 sendOffset sendLength)) ::
          (if i <? p then broadcastOutputs (out0 :: outs) sendOffset sendLength else []))
     else [])) =
  pl_prog size slot K ag_sx ag_rx (λ _ _, []) ag_qs (λ _ _, []) ag_qr r.
Proof.
  intros Hr. destruct facts as (HN & Hp2 & HpN & HS & E & HK & HpK).
  apply (pipelined_loop K); [lia|..].
  - intros i Hi. unfold pl_acts, pl_recvs, pl_sends. destruct (Nat.ltb_spec i K).
    + rewrite (proj2 (Z.ltb_lt _ _)) by lia. rewrite !(computeOffsets_spec size T es L HL) by lia. done.
    + by rewrite (proj2 (Z.ltb_ge _ _)) by lia.
  - by rewrite (proj2 (Z.ltb_ge _ _)) by lia.
  - done.
  - done.
  - intros i Hi. cbn [pl_post]. unfold pl_handle, pl_recvs, pl_sends. rewrite (proj2 (Nat.ltb_lt _ _)) by done.
    rewrite (proj2 (Z.leb_le _ _)) by lia. replace (Z.of_nat i + 2 - 2) with (Z.of_nat i) by lia.
    rewrite !(computeOffsets_spec size T es L HL) by lia. done.
Qed.
End allreduce.
