(* ===== verification/Reductions.v ===== *)
(** The reduction functions of [src/gloo/math.h] on unsigned integers, as
    functions on bytes: they work element by element, and in any order. *)
From S2P Require Import Prelude Packet Net NetRun Groups Rounds Reducing.

(* ------------------------------------------------------------------ *)
(** * The functions *)

(** A loop [for (i = 0; i < n; i++) c[i] = f(a[i], b[i])] over elements of
    [es] bytes; [fuel] bounds their number. *)
Fixpoint pointwise (fuel es : nat) (f : list Z → list Z → list Z) (a b : list Z) : list Z :=
  match fuel with
  | O => []
  | S fuel =>
      match a with
      | [] => []
      | _ => f (take es a) (take es b) ++ pointwise fuel es f (drop es a) (drop es b)
      end
  end.
Definition elementwise (es : nat) (f : list Z → list Z → list Z) : RedOp := λ a b, pointwise (length a) es f a b.

(** The integer that some bytes are, and the bytes of an integer. *)
Definition decode (l : list Z) : Z := le_val l `mod` 256 ^ Z.of_nat (length l).
Definition encode (n : nat) (v : Z) : list Z := (λ i, u8 (Z.shiftr v (i * 8))) <$> seqZ 0 (Z.of_nat n).
Definition on_elements (f : Z → Z → Z) (x y : list Z) : list Z := encode (length x) (f (decode x) (decode y)).

(** [sum<T>], [product<T>], [max<T>] and [min<T>] for an unsigned [T] of [es]
    bytes. *)
Definition sum (es : nat) : RedOp := elementwise es (on_elements Z.add).
Definition product (es : nat) : RedOp := elementwise es (on_elements Z.mul).
Definition max (es : nat) : RedOp := elementwise es (on_elements Z.max).
Definition min (es : nat) : RedOp := elementwise es (on_elements Z.min).

Example sum_wraps : sum 2 [255; 1; 1; 0] [2; 0; 5; 7] = [1; 2; 6; 7].
Proof. reflexivity. Qed.

(* ------------------------------------------------------------------ *)
(** * Element by element *)

Section pointwise.
Context (es : nat) (f : list Z → list Z → list Z) (Hes : (0 < es)%nat).
Context (Hf : ∀ x y, length x = length y → length (f x y) = length x).

Lemma pointwise_length fuel : ∀ a b, (length a ≤ fuel)%nat → length a = length b → length (pointwise fuel es f a b) = length a.
Proof.
  induction fuel as [|fuel IH]; intros a b Hl He; [cbn; lia|]. destruct a as [|x a]; [done|]. cbn [pointwise].
  rewrite length_app, Hf by (rewrite !length_take; lia). rewrite IH by (rewrite !length_drop; cbn in *; lia).
  rewrite length_take, length_drop. lia.
Qed.

Lemma pointwise_fuel fuel : ∀ fuel' a b, (length a ≤ fuel)%nat → (length a ≤ fuel')%nat →
  pointwise fuel es f a b = pointwise fuel' es f a b.
Proof.
  induction fuel as [|fuel IH]; intros fuel' a b Hl Hl'; [by destruct a; [destruct fuel'|cbn in Hl; lia]|].
  destruct a as [|x a]; [by destruct fuel'|]. destruct fuel' as [|fuel']; [cbn in Hl'; lia|]. cbn [pointwise]. f_equal.
  cbn [length] in *. apply IH; rewrite length_drop; cbn [length]; lia.
Qed.

Lemma pointwise_cons fuel a b : a ≠ [] →
  pointwise (S fuel) es f a b = f (take es a) (take es b) ++ pointwise fuel es f (drop es a) (drop es b).
Proof. by destruct a. Qed.

Lemma pointwise_app k : ∀ fuel a a' b b', length a = (k * es)%nat → length a = length b → (length (a ++ a') ≤ fuel)%nat →
  pointwise fuel es f (a ++ a') (b ++ b') = pointwise fuel es f a b ++ pointwise fuel es f a' b'.
Proof.
  induction k as [|k IH]; intros fuel a a' b b' Hk He Hl.
  - destruct a; [|done]. destruct b; [|done]. by destruct fuel.
  - rewrite length_app in Hl. assert (es ≤ length a)%nat as Hea by lia. destruct fuel as [|fuel]; [lia|].
    rewrite (pointwise_cons fuel (a ++ a')) by (destruct a; [cbn in Hea; lia|done]).
    rewrite (pointwise_cons fuel a) by (destruct a; [cbn in Hea; lia|done]).
    rewrite !take_app_le, !drop_app_le by lia. rewrite <-(assoc_L (++)). f_equal.
    rewrite IH; [|rewrite length_drop; lia|rewrite !length_drop; lia|rewrite length_app, length_drop; lia].
    f_equal. destruct a' as [|x a']; [by destruct fuel|]. apply pointwise_fuel; lia.
Qed.

Lemma elementwise_ok : op_ok (Z.of_nat es) (elementwise es f).
Proof.
  split; unfold elementwise.
  - intros a b He. by apply pointwise_length.
  - intros a a' b b' He [k Hk]. rewrite (pointwise_app (Z.to_nat k)) by (done || nia).
    f_equal; apply pointwise_fuel; rewrite ?length_app; lia.
Qed.

(** Commutative and associative when the element operation is. *)
Lemma pointwise_comm fuel : ∀ a b, (∀ x y, length x = length y → f x y = f y x) → length a = length b →
  pointwise fuel es f a b = pointwise fuel es f b a.
Proof.
  induction fuel as [|fuel IH]; intros a b Hc He; [done|]. destruct (decide (a = [])) as [->|Ha]; [by destruct b|].
  rewrite !pointwise_cons by (try done; intros ->; by destruct a). rewrite Hc by (rewrite !length_take; lia).
  by rewrite IH by (try done; rewrite !length_drop; lia).
Qed.

(** The first element of a result, and the rest. *)
Lemma pointwise_split fuel a b : length a = length b → let c := pointwise (S fuel) es f a b in
  (length a ≤ S fuel)%nat → take es c = f (take es a) (take es b) ∧ drop es c = pointwise fuel es f (drop es a) (drop es b).
Proof.
  intros He c Hl. destruct (decide (a = [])) as [->|Ha].
  - destruct b; [|done]. subst c. rewrite !take_nil, !drop_nil. assert (f [] [] = []) as -> by (apply length_zero_iff_nil, Hf; done).
    cbn [pointwise]. rewrite take_nil, drop_nil. by destruct fuel.
  - subst c. rewrite pointwise_cons by done. assert (length (f (take es a) (take es b)) = Nat.min es (length a)) as Hlf.
    { rewrite Hf; rewrite !length_take; lia. }
    destruct (decide (es ≤ length a)%nat) as [Hle|Hgt].
    + rewrite take_app_length', drop_app_length' by lia. done.
    + rewrite (drop_ge a) by lia. assert (pointwise fuel es f [] (drop es b) = []) as -> by by destruct fuel.
      rewrite app_nil_r, take_ge, drop_ge by lia. done.
Qed.

Lemma pointwise_assoc fuel : (∀ x y z, length x = length y → length y = length z → f x (f y z) = f (f x y) z) →
  ∀ a b c, length a = length b → length b = length c → (length a ≤ fuel)%nat →
  pointwise fuel es f a (pointwise fuel es f b c) = pointwise fuel es f (pointwise fuel es f a b) c.
Proof.
  intros Ha. induction fuel as [|fuel IH]; intros a b c H1 H2 Hl; [done|].
  destruct (decide (a = [])) as [->|Hne]; [by destruct b|].
  assert (pointwise (S fuel) es f a b ≠ []) as Hne'.
  { intros H%(f_equal length). rewrite pointwise_length in H by done. by destruct a. }
  rewrite (pointwise_cons fuel a) by done. rewrite (pointwise_cons fuel (pointwise (S fuel) es f a b)) by done.
  destruct (pointwise_split fuel a b H1 ltac:(lia)) as [-> ->]. destruct (pointwise_split fuel b c H2 ltac:(lia)) as [-> ->].
  rewrite Ha by (rewrite !length_take; lia). f_equal. apply IH; rewrite !length_drop; lia.
Qed.

Lemma elementwise_ac : (∀ x y, length x = length y → f x y = f y x) →
  (∀ x y z, length x = length y → length y = length z → f x (f y z) = f (f x y) z) → op_ac (elementwise es f).
Proof.
  intros Hc Ha. split; unfold elementwise.
  - intros a b He. rewrite He. by apply pointwise_comm.
  - intros a b c H1 H2. rewrite pointwise_length by lia. rewrite <-H1. rewrite pointwise_assoc by (done || lia). done.
Qed.
End pointwise.

(* ------------------------------------------------------------------ *)
(** * On integers *)

Lemma decode_range l : 0 ≤ decode l < 256 ^ Z.of_nat (length l).
Proof. apply Z.mod_pos_bound. apply Z.pow_pos_nonneg; lia. Qed.

Lemma encode_length n v : length (encode n v) = n.
Proof. unfold encode. rewrite length_fmap, length_seqZ. lia. Qed.

Lemma decode_encode n v : 0 ≤ v → decode (encode n v) = v `mod` 256 ^ Z.of_nat n.
Proof.
  intros Hv. unfold decode. rewrite encode_length. unfold encode. rewrite le_val_shifts by done. apply Z.mod_mod.
  apply Z.pow_nonzero; lia.
Qed.

Lemma encode_mod n v w : 0 ≤ v → 0 ≤ w → v `mod` 256 ^ Z.of_nat n = w `mod` 256 ^ Z.of_nat n → encode n v = encode n w.
Proof.
  intros Hv Hw H. unfold encode. apply list_fmap_ext. intros i k Hk. apply lookup_seqZ in Hk as [-> Hi]. unfold wrap.
  rewrite !Z.shiftr_div_pow2 by lia. change 256 with (2 ^ 8) in H. rewrite <-!Z.pow_mul_r in H by lia.
  assert (∀ u, (u / 2 ^ (Z.of_nat i * 8)) `mod` 2 ^ 8 = ((u `mod` 2 ^ (8 * Z.of_nat n)) / 2 ^ (Z.of_nat i * 8)) `mod` 2 ^ 8) as E.
  { intros u. apply Z.bits_inj'. intros k Hk.
    destruct (decide (k < 8)); [|by rewrite !Z.mod_pow2_bits_high by lia].
    rewrite !Z.mod_pow2_bits_low by lia. rewrite !Z.div_pow2_bits by lia. by rewrite Z.mod_pow2_bits_low by lia. }
  rewrite !Z.add_0_l. by rewrite (E v), (E w), H.
Qed.

Lemma on_elements_length f x y : length (on_elements f x y) = length x.
Proof. apply encode_length. Qed.

(** Operations that are associative up to the width of the type. *)
Lemma on_elements_ok es f : (0 < es)%nat → op_ok (Z.of_nat es) (elementwise es (on_elements f)).
Proof. intros Hes. apply elementwise_ok; [done|]. intros. apply on_elements_length. Qed.

Lemma on_elements_ac es f : (0 < es)%nat → (∀ a b, 0 ≤ a → 0 ≤ b → 0 ≤ f a b) → (∀ a b, f a b = f b a) →
  (∀ a b c m, 0 < m → 0 ≤ a < m → 0 ≤ b < m → 0 ≤ c < m → f a (f b c `mod` m) `mod` m = f (f a b `mod` m) c `mod` m) →
  op_ac (elementwise es (on_elements f)).
Proof.
  intros Hes Hp Hc Ha. apply elementwise_ac; [done|intros; apply on_elements_length|..].
  - intros x y He. unfold on_elements. by rewrite He, Hc.
  - intros x y z H1 H2. unfold on_elements.
    pose proof (decode_range x) as Dx. pose proof (decode_range y) as Dy. pose proof (decode_range z) as Dz.
    rewrite encode_length, !decode_encode by (apply Hp; lia). rewrite <-H2, <-H1 in *.
    set (m := 256 ^ Z.of_nat (length x)) in *. assert (0 < m) as Hm by (apply Z.pow_pos_nonneg; lia).
    specialize (Ha (decode x) (decode y) (decode z) m Hm Dx Dy Dz). apply encode_mod; [| |exact Ha].
    + apply Hp; [lia|]. apply Z.mod_pos_bound. lia.
    + apply Hp; [|lia]. apply Z.mod_pos_bound. lia.
Qed.

Lemma sum_ok es : (0 < es)%nat → op_ok (Z.of_nat es) (sum es) ∧ op_ac (sum es).
Proof.
  intros Hes. split; [by apply on_elements_ok|]. apply on_elements_ac; [done|lia|lia|]. intros a b c m Hm _ _ _.
  rewrite Z.add_mod_idemp_r, Z.add_mod_idemp_l by lia. f_equal. lia.
Qed.

Lemma product_ok es : (0 < es)%nat → op_ok (Z.of_nat es) (product es) ∧ op_ac (product es).
Proof.
  intros Hes. split; [by apply on_elements_ok|]. apply on_elements_ac; [done|nia|lia|]. intros a b c m Hm _ _ _.
  rewrite Z.mul_mod_idemp_r, Z.mul_mod_idemp_l by lia. f_equal. lia.
Qed.

Lemma max_ok es : (0 < es)%nat → op_ok (Z.of_nat es) (max es) ∧ op_ac (max es).
Proof.
  intros Hes. split; [by apply on_elements_ok|]. apply on_elements_ac; [done|lia|lia|]. intros a b c m Hm Ha Hb Hc.
  rewrite (Z.mod_small (b `max` c)), (Z.mod_small (a `max` b)) by lia. f_equal. lia.
Qed.

Lemma min_ok es : (0 < es)%nat → op_ok (Z.of_nat es) (min es) ∧ op_ac (min es).
Proof.
  intros Hes. split; [by apply on_elements_ok|]. apply on_elements_ac; [done|lia|lia|]. intros a b c m Hm Ha Hb Hc.
  rewrite (Z.mod_small (b `min` c)), (Z.mod_small (a `min` b)) by lia. f_equal. lia.
Qed.

Lemma builtin_lemma es op : (0 < es)%nat → op ∈ [sum es; product es; max es; min es] → op_ok (Z.of_nat es) op ∧ op_ac op.
Proof.
  intros Hes Hin. repeat (apply elem_of_cons in Hin as [->|Hin]); [..|by apply elem_of_nil in Hin].
  - by apply sum_ok.
  - by apply product_ok.
  - by apply max_ok.
  - by apply min_ok.
Qed.

(** the built-in reductions of unsigned integers, on the bytes of buffers,
    work element by element and do not depend on the order in which buffers
    are reduced, whatever overflows. *)
Theorem builtin_reductions es op : (0 < es)%nat → op ∈ [sum es; product es; max es; min es] →
  op_ok (Z.of_nat es) op ∧ op_ac op.
Proof. apply builtin_lemma. Qed.

Lemma builtin_reductions_witness : op_ok 4 (sum 4) ∧ op_ac (sum 4).
Proof. apply (builtin_reductions 4); [lia|apply list_elem_of_here]. Defined.
