(* ===== verification/Bcube.v ===== *)
(** The bcube algorithm of [src/gloo/allreduce.cc]: in each step the processes
    of a group exchange and reduce chunks of the segment they share, and the
    steps are undone in reverse to gather the result. *)
From Stdlib Require Import FunctionalExtensionality.
From S2P Require Import Prelude Slots MathOps Net NetRun Groups Rounds Segments Reducing.

(* ------------------------------------------------------------------ *)
(** * The program *)

(** The loop of [computeGroupSizePerStep(size, n)]: [None] when the fuel is
    out. *)
Fixpoint group_sizes (fuel : nat) (size n : Z) : option (list Z) :=
  match fuel with
  | O => None
  | S fuel =>
      if size `mod` n =? 0 then cons n <$> group_sizes fuel (size / n) n
      else Some (if 1 <? size then [size] else [])
  end.

(** [computeGroupSizePerStep(size, n)]; the sizes are below [2 ^ 64], so 64
    rounds are enough. *)
Definition computeGroupSizePerStep (size n : Z) : outcome (option (list Z)) :=
  _ ← enforce (1 <? n); Val (group_sizes 64 size n).

(** [struct group] *)
Record Group := mkGroup {
  peerDistance : Z; bufferOffset : Z; bufferLength : Z; g_ranks : list Z;
  chunkLength : Z; myChunkOffset : Z; myChunkLength : Z;
}.

(** The offset and length of chunk [i] of a segment. *)
Definition chunk_at (off len chunk i : Z) : Z * Z :=
  (u64 (off + u64 (i * chunk)),
   Z.min chunk (u64 (Z.max 0 (s64 (s64 len - s64 (u64 (i * chunk))))))).
Definition chunk_of (G : Group) (i : Z) : Z * Z := chunk_at (bufferOffset G) (bufferLength G) (chunkLength G) i.

(** The group of a step, and those of the steps after it. *)
Definition step_group (rank groupSize distance off len : Z) : Group :=
  let groupRank := (rank / distance) `mod` groupSize in
  let baseRank := u64 (rank - u64 (groupRank * distance)) in
  let chunk := u64 (len + (groupSize - 1)) / groupSize in
  let '(myOffset, myLength) := chunk_at off len chunk groupRank in
  mkGroup distance off len ((λ i, u64 (baseRank + u64 (i * distance))) <$> seqZ 0 groupSize) chunk myOffset myLength.

Fixpoint groups_of (rank : Z) (groupSizePerStep : list Z) (distance off len : Z) : list Group :=
  match groupSizePerStep with
  | [] => []
  | groupSize :: rest =>
      let G := step_group rank groupSize distance off len in
      G :: groups_of rank rest (u64 (distance * groupSize)) (myChunkOffset G) (myChunkLength G)
  end.

(** The length in elements of the scratch space. *)
Definition scratch_length (elements : Z) (groups : list Group) : Z :=
  foldl (λ n G, Z.max n (u64 (Z.of_nat (length (g_ranks G)) * chunkLength G))) elements groups.

(** The members of a group apart from [rank], with their index. *)
Definition peers_of (rank : Z) (G : Group) : list (Z * Z) :=
  filter (λ iq, iq.2 ≠ rank) (imap (λ i q, (Z.of_nat i, q)) (g_ranks G)).

(** A step of the reduce/scatter phase. *)
Definition bcube_reduce_step (rank slot elementSize : Z) (ins outs : list Z) (out tmp : Z) (op : RedOp) (step : nat) (G : Group)
    : list Act :=
  let bytes n := u64 (n * elementSize) in
  let peers := peers_of rank G in
  ((λ iq, Recv (mkXfer iq.2 slot (mkRegion tmp (bytes (u64 (iq.1 * chunkLength G))) (bytes (myChunkLength G))))) <$> peers) ++
  (peers ≫= (λ iq,
    let '(off, len) := chunk_of G iq.1 in
    (if (step =? 0)%nat then reduceInputs ins outs elementSize op (bytes off) (bytes len) else []) ++
    [Send (mkXfer iq.2 slot (mkRegion out (bytes off) (bytes len)))])) ++
  (peers ≫= (λ _, [WaitRecv tmp; WaitSend out])) ++
  (if (step =? 0)%nat
   then reduceInputs ins outs elementSize op (bytes (myChunkOffset G)) (bytes (myChunkLength G)) else []) ++
  ((λ iq,
    let mine := mkRegion out (bytes (myChunkOffset G)) (myChunkLength G * elementSize) in
    reduce_act op mine mine (mkRegion tmp (bytes (u64 (iq.1 * chunkLength G))) (myChunkLength G * elementSize))) <$> peers).

(** A step of the allgather phase. *)
Definition bcube_gather_step (rank slot elementSize : Z) (outs : list Z) (out : Z) (G : Group) : list Act :=
  let bytes n := u64 (n * elementSize) in
  let peers := peers_of rank G in
  ((λ iq, let '(off, len) := chunk_of G iq.1 in Recv (mkXfer iq.2 slot (mkRegion out (bytes off) (bytes len)))) <$> peers) ++
  ((λ iq, Send (mkXfer iq.2 slot (mkRegion out (bytes (myChunkOffset G)) (bytes (myChunkLength G))))) <$> peers) ++
  (peers ≫= (λ _, [WaitRecv out; WaitSend out])) ++
  (peers ≫= (λ iq, let '(off, len) := chunk_of G iq.1 in broadcastOutputs outs (bytes off) (bytes len))).

(** [bcube(opts, reduceInputs, broadcastOutputs)]; [tmp] is the scratch
    buffer. *)
Definition bcube (rank size tag elementSize elements : Z) (ins outs : list Z) (tmp : Z) (op : RedOp) : list Act :=
  let slot := Slot_value (Slot_build kAllreduceSlotPrefix tag) in
  let bytes n := u64 (n * elementSize) in
  match outs, computeGroupSizePerStep size 2 with
  | [], _ | _, UB | _, Val None => [Stop None]
  | _, Exn e => [Stop (Some e)]
  | out :: _, Val (Some sizes) =>
      let groups := groups_of rank sizes 1 0 elements in
      mjoin (imap (bcube_reduce_step rank slot elementSize ins outs out tmp op) groups) ++
      match last groups with
      | None => [Stop None]
      | Some G => broadcastOutputs outs (bytes (myChunkOffset G)) (bytes (myChunkLength G))
      end ++
      (reverse groups ≫= bcube_gather_step rank slot elementSize outs out)
  end.

(* ------------------------------------------------------------------ *)
(** * The sizes of the groups *)

Lemma group_sizes_spec fuel : ∀ size n, 2 ≤ n → 1 ≤ size < 2 ^ Z.of_nat fuel →
  ∃ l, group_sizes fuel size n = Some l ∧ foldr Z.mul 1 l = size ∧ Forall (λ g, 2 ≤ g) l.
Proof.
  induction fuel as [|fuel IH]; intros size n Hn Hs; [cbn in Hs; lia|]. cbn [group_sizes].
  destruct (Z.eqb_spec (size `mod` n) 0) as [Hm|Hm].
  - pose proof (Z.div_mod size n ltac:(lia)) as Hd. rewrite Hm, Z.add_0_r in Hd.
    rewrite Nat2Z.inj_succ, Z.pow_succ_r in Hs by lia.
    destruct (IH (size / n) n Hn) as (l & -> & Hl & Hf); [split; [nia|apply Z.div_lt_upper_bound; nia]|].
    exists (n :: l). split; [done|]. split; [cbn; lia|by constructor].
  - destruct (Z.ltb_spec 1 size) as [H1|H1]; [exists [size]|exists []]; (split; [done|]); (split; [cbn; lia|]); [|done].
    constructor; [lia|done].
Qed.

Lemma computeGroupSizes_lemma size n : 2 ≤ n → 1 ≤ size < 2 ^ 64 →
  ∃ l, computeGroupSizePerStep size n = Val (Some l) ∧ foldr Z.mul 1 l = size ∧ Forall (λ g, 2 ≤ g) l.
Proof.
  intros Hn Hs. destruct (group_sizes_spec 64 size n Hn Hs) as (l & E & Hl). exists l. split; [|done].
  unfold computeGroupSizePerStep, enforce. rewrite (proj2 (Z.ltb_lt 1 n)) by lia. cbn [mbind outcome_bind]. by rewrite E.
Qed.

(* ------------------------------------------------------------------ *)
(** * Ranks in groups

    In a step of distance [d] and group size [g] a rank is
    [d * g * h + d * i + e]: member [i] of its group. *)

Section members.
Context (d g : Z) (Hd : 0 < d) (Hg : 0 < g).

Definition member (r : Z) : Z := (r / d) `mod` g.
Definition rank_of (r i : Z) : Z := r - member r * d + i * d.

Lemma rank_digits h i e : 0 ≤ i < g → 0 ≤ e < d →
  let q := d * g * h + d * i + e in member q = i ∧ q `mod` d = e ∧ q / (d * g) = h.
Proof.
  intros Hi He q. assert (q / d = g * h + i) as E1.
  { symmetry. apply (Z.div_unique _ _ _ e); [by left|]. unfold q. lia. }
  assert (q / (d * g) = h) as E2.
  { symmetry. apply (Z.div_unique _ _ _ (d * i + e)); [left; nia|]. unfold q. lia. }
  split_and!; [|symmetry; apply (Z.mod_unique _ _ (g * h + i)); [by left|unfold q; lia]|done].
  unfold member. rewrite E1. symmetry. apply (Z.mod_unique _ _ h); [by left|lia].
Qed.

Lemma rank_split r : r = d * g * (r / (d * g)) + d * member r + r `mod` d ∧ 0 ≤ member r < g ∧ 0 ≤ r `mod` d < d.
Proof.
  unfold member. pose proof (Z.mod_pos_bound (r / d) g Hg). pose proof (Z.mod_pos_bound r d Hd).
  split; [|done]. pose proof (Z.div_mod r d ltac:(lia)). pose proof (Z.div_mod (r / d) g ltac:(lia)) as H2.
  rewrite Z.div_div in H2 by lia. nia.
Qed.

Lemma rank_of_digits r i : rank_of r i = d * g * (r / (d * g)) + d * i + r `mod` d.
Proof. unfold rank_of. destruct (rank_split r) as [E _]. lia. Qed.

Lemma rank_of_spec r i : 0 ≤ i < g →
  member (rank_of r i) = i ∧ rank_of r i `mod` d = r `mod` d ∧ rank_of r i / (d * g) = r / (d * g).
Proof. intros Hi. rewrite rank_of_digits. apply rank_digits; [done|]. apply rank_split. Qed.

Lemma rank_of_member r : rank_of r (member r) = r.
Proof. unfold rank_of. lia. Qed.

Lemma rank_of_of r i j : 0 ≤ i < g → rank_of (rank_of r i) j = rank_of r j.
Proof. intros Hi. destruct (rank_of_spec r i Hi) as (_ & E1 & E2). rewrite !(rank_of_digits _ j), E1, E2. done. Qed.

Lemma rank_of_inj r i j : 0 ≤ i < g → 0 ≤ j < g → rank_of r i = rank_of r j → i = j.
Proof. unfold rank_of. intros. nia. Qed.

Lemma rank_of_range size r i : (d * g | size) → 0 ≤ r < size → 0 ≤ i < g → 0 ≤ rank_of r i < size.
Proof.
  intros [k Hk] Hr Hi. rewrite rank_of_digits. destruct (rank_split r) as (E & Hm & He).
  assert (0 ≤ r / (d * g) < k) as Hh.
  { split; [apply Z.div_pos; nia|apply Z.div_lt_upper_bound; nia]. }
  assert (0 ≤ d * i + r `mod` d < d * g) by nia.
  assert (0 ≤ d * g * (r / (d * g)) ≤ d * g * (k - 1)) by (split; [apply Z.mul_nonneg_nonneg; lia|apply Z.mul_le_mono_nonneg_l; lia]).
  nia.
Qed.

(** The ranks of the next step that a group is. *)
Lemma rank_of_mod_next r i : 0 ≤ i < g → rank_of r i `mod` (d * g) = d * i + r `mod` d.
Proof.
  intros Hi. rewrite rank_of_digits. symmetry. apply (Z.mod_unique _ _ (r / (d * g))); [|lia].
  left. pose proof (Z.mod_pos_bound r d Hd). nia.
Qed.
End members.

(* ------------------------------------------------------------------ *)
(** * Chunks of a segment *)

Section chunks.
Context (g len : Z) (Hg : 0 < g) (Hlen : 0 ≤ len).

Definition chunk_size : Z := (len + (g - 1)) / g.
Definition chunk_len (i : Z) : Z := Z.max 0 (Z.min chunk_size (len - i * chunk_size)).

Lemma chunk_size_spec : 0 ≤ chunk_size ∧ len ≤ g * chunk_size ≤ len + (g - 1).
Proof.
  unfold chunk_size. pose proof (Z.div_mod (len + (g - 1)) g ltac:(lia)). pose proof (Z.mod_pos_bound (len + (g - 1)) g Hg).
  split; [apply Z.div_pos; lia|lia].
Qed.

Lemma chunk_len_bound i : 0 ≤ chunk_len i ≤ chunk_size.
Proof. unfold chunk_len. pose proof chunk_size_spec. lia. Qed.

(** A chunk that is not empty is inside the segment. *)
Lemma chunk_inside i : 0 ≤ i → 0 < chunk_len i → i * chunk_size + chunk_len i ≤ len.
Proof. unfold chunk_len. lia. Qed.

Lemma chunk_slice es (l : list Z) i : 0 ≤ es → 0 ≤ i → Z.of_nat (length l) = len * es →
  Z.of_nat (length (slice (i * chunk_size * es) (chunk_len i * es) l)) = chunk_len i * es.
Proof.
  intros Hes Hi Hl. pose proof (chunk_len_bound i). destruct (decide (chunk_len i = 0)) as [E|E].
  - rewrite E. unfold slice. by rewrite Z.mul_0_l, take_0.
  - pose proof (chunk_inside i Hi ltac:(lia)). rewrite slice_length; [done|..].
    + apply Z.mul_nonneg_nonneg; [apply Z.mul_nonneg_nonneg; lia|done].
    + apply Z.mul_nonneg_nonneg; lia.
    + rewrite Hl, <-Z.mul_add_distr_r. apply Z.mul_le_mono_nonneg_r; lia.
Qed.

(** The chunks put together. *)
Lemma chunks_join es (l : list Z) : 0 ≤ es → Z.of_nat (length l) = len * es →
  mjoin ((λ i, slice (i * chunk_size * es) (chunk_len i * es) l) <$> seqZ 0 g) = l.
Proof.
  intros Hes Hl. destruct chunk_size_spec as [Hc0 Hc].
  assert (∀ n : nat, mjoin ((λ i, slice (i * chunk_size * es) (chunk_len i * es) l) <$> seqZ 0 (Z.of_nat n)) =
    take (Z.to_nat (Z.min len (Z.of_nat n * chunk_size) * es)) l) as H.
  { induction n as [|n IH]; [change (Z.of_nat 0) with 0; by rewrite Z.mul_0_l, Z.min_r by lia|].
    rewrite seqZ_S, fmap_app, join_app, IH, Nat2Z.inj_succ. rewrite Z.add_0_l. cbn [fmap list_fmap mjoin list_join].
    rewrite app_nil_r. unfold slice.
    assert (∃ a b : nat, Z.to_nat (Z.min len (Z.of_nat n * chunk_size) * es) = a ∧ Z.to_nat (chunk_len (Z.of_nat n) * es) = b ∧
      Z.to_nat (Z.min len (Z.succ (Z.of_nat n) * chunk_size) * es) = (a + b)%nat ∧
      (b = O ∨ Z.to_nat (Z.of_nat n * chunk_size * es) = a)) as (a & b & -> & -> & -> & Hab).
    { eexists _, _. split; [done|]. split; [done|]. unfold chunk_len. split.
      - rewrite <-Z2Nat.inj_add by (apply Z.mul_nonneg_nonneg; lia). f_equal. rewrite <-Z.mul_add_distr_r. f_equal. lia.
      - destruct (decide (len ≤ Z.of_nat n * chunk_size)); [left|right; f_equal; f_equal; lia].
        rewrite Z.max_l by lia. done. }
    rewrite <-take_take_drop. destruct Hab as [->| ->]; [by rewrite !take_0, ?app_nil_r|done]. }
  specialize (H (Z.to_nat g)). rewrite Z2Nat.id in H by lia. rewrite H. rewrite Z.min_l by lia. apply take_ge. lia.
Qed.
End chunks.

(* ------------------------------------------------------------------ *)
(** * The groups of the code *)

(** A segment stays in the buffer, as far as it has elements. *)
Record seg_ok (elements size off len : Z) : Prop := {
  sk_off : 0 ≤ off ≤ elements + size;
  sk_len : 0 ≤ len ≤ elements;
  sk_end : 0 < len → off + len ≤ elements;
}.

Lemma chunk_seg_ok elements size off len g i : 0 ≤ elements → 0 < g ≤ size → 0 ≤ i < g → seg_ok elements size off len →
  seg_ok elements size (off + i * chunk_size g len) (chunk_len g len i).
Proof.
  intros He Hg Hi [H1 H2 H3]. destruct (chunk_size_spec g len) as [Hc0 Hc]; [lia|lia|].
  assert (0 ≤ i * chunk_size g len ≤ (g - 1) * chunk_size g len) as Hic.
  { split; [apply Z.mul_nonneg_nonneg; lia|apply Z.mul_le_mono_nonneg_r; lia]. }
  pose proof (chunk_len_bound g len ltac:(lia) ltac:(lia) i) as Hb.
  split.
  - destruct (decide (len = 0)) as [->|Hl]; [|lia].
    assert (chunk_size g 0 = 0) as E by (unfold chunk_size; apply Z.div_small; lia). rewrite E. lia.
  - unfold chunk_len. lia.
  - intros Hp. pose proof (chunk_inside g len i ltac:(lia) Hp). unfold chunk_len in Hp. lia.
Qed.

Section code.
Context (size elements : Z) (Hsize : 1 ≤ size < 2 ^ 31) (Hel : 0 ≤ elements ≤ 2 ^ 60).
Context (d g off len : Z) (Hd : 0 < d) (Hg : 2 ≤ g) (Hdg : (d * g | size)) (Hok : seg_ok elements size off len).

Lemma dg_le : d * g ≤ size ∧ d ≤ size ∧ g ≤ size.
Proof. assert (d * g ≤ size) by (apply Z.divide_pos_le; [lia|done]). nia. Qed.

Lemma chunk_at_spec i : 0 ≤ i < g → chunk_at off len (chunk_size g len) i = (off + i * chunk_size g len, chunk_len g len i).
Proof.
  intros Hi. destruct Hok as [H1 H2 H3]. destruct (chunk_size_spec g len) as [Hc0 Hc]; [lia|lia|]. destruct dg_le as (_ & _ & Hgs).
  assert (0 ≤ i * chunk_size g len ≤ (g - 1) * chunk_size g len) as Hic.
  { split; [apply Z.mul_nonneg_nonneg; lia|apply Z.mul_le_mono_nonneg_r; lia]. }
  assert (0 ≤ i * chunk_size g len ≤ 2 ^ 61) as Hb by lia. unfold chunk_at, chunk_len.
  rewrite (wrap_small 64 (i * _)) by (unfold in_range; lia). rewrite (wrap_small 64 (off + _)) by (unfold in_range; lia).
  rewrite (swrap_small 64 len), (swrap_small 64 (i * _)), swrap_small by lia. rewrite wrap_small by (unfold in_range; lia).
  f_equal. lia.
Qed.

Lemma step_group_spec r : 0 ≤ r < size →
  step_group r g d off len =
  mkGroup d off len (rank_of d g r <$> seqZ 0 g) (chunk_size g len)
    (off + member d g r * chunk_size g len) (chunk_len g len (member d g r)).
Proof.
  intros Hr. destruct Hok as [H1 H2 H3]. destruct dg_le as (Hdgs & Hds & Hgs). unfold step_group.
  fold (member d g r). destruct (rank_split d g ltac:(lia) ltac:(lia) r) as (E & Hm & He).
  assert (u64 (len + (g - 1)) / g = chunk_size g len) as -> by (rewrite wrap_small by (unfold in_range; lia); done).
  rewrite chunk_at_spec by done. f_equal. apply list_fmap_ext. intros j i Hi. apply lookup_seqZ in Hi as [-> Hi].
  rewrite Z.add_0_l. set (i := Z.of_nat j) in *.
  assert (0 ≤ i * d < size) as H4 by nia. rewrite (wrap_small 64 (i * d)) by (unfold in_range; lia).
  assert (0 ≤ member d g r * d ≤ r) as H5.
  { pose proof (Z.div_pos r (d * g) ltac:(lia) ltac:(lia)). nia. }
  rewrite (wrap_small 64 (member d g r * d)) by (unfold in_range; lia).
  rewrite (wrap_small 64 (r - _)) by (unfold in_range; lia). rewrite wrap_small by (unfold in_range; lia). done.
Qed.

Lemma peers_of_spec r : 0 ≤ r < size →
  peers_of r (step_group r g d off len) = (λ i, (i, rank_of d g r i)) <$> others (member d g r) g.
Proof.
  intros Hr. rewrite step_group_spec by done. unfold peers_of, others. cbn [g_ranks].
  assert (imap (λ i q, (Z.of_nat i, q)) (rank_of d g r <$> seqZ 0 g) = (λ i, (i, rank_of d g r i)) <$> seqZ 0 g) as ->.
  { apply list_eq. intros k. rewrite list_lookup_imap, !list_lookup_fmap. destruct (seqZ 0 g !! k) as [i|] eqn:Ei; [|done].
    apply lookup_seqZ in Ei as [-> _]. cbn. by rewrite Z.add_0_l. }
  assert (∀ l, Forall (λ i, 0 ≤ i < g) l →
    filter (λ iq : Z * Z, iq.2 ≠ r) ((λ i, (i, rank_of d g r i)) <$> l) =
    (λ i, (i, rank_of d g r i)) <$> filter (λ i, i ≠ member d g r) l) as H; [|apply H, Forall_forall; intros i; rewrite elem_of_seqZ; lia].
  induction 1 as [|i l Hi Hl IH]; [done|]. cbn [fmap list_fmap]. rewrite !filter_cons, IH. cbn [snd].
  destruct (decide (i = member d g r)) as [->|Hne].
  - rewrite !decide_False; [done|tauto|]. rewrite rank_of_member. tauto.
  - rewrite !decide_True; [done|done|]. intros Heq. apply Hne.
    destruct (rank_of_spec d g Hd ltac:(lia) r i Hi) as [<- _]. by rewrite Heq.
Qed.
End code.

(** The groups of all steps. *)
Lemma groups_of_spec size elements (Hsize : 1 ≤ size < 2 ^ 31) (Hel : 0 ≤ elements ≤ 2 ^ 60) r (Hr : 0 ≤ r < size) sizes : ∀ d off len,
  0 < d → Forall (λ g, 2 ≤ g) sizes → (d * foldr Z.mul 1 sizes | size) → seg_ok elements size off len →
  Forall (λ G, ∃ d g, 0 < d ∧ 2 ≤ g ∧ (d * g | size) ∧ seg_ok elements size (bufferOffset G) (bufferLength G) ∧
    G = step_group r g d (bufferOffset G) (bufferLength G)) (groups_of r sizes d off len).
Proof.
  induction sizes as [|g sizes IH]; intros d off len Hd Hsz Hdv Hok; [constructor|]. apply Forall_cons in Hsz as [Hg Hsz].
  cbn [foldr] in Hdv. rewrite Z.mul_assoc in Hdv.
  assert ((d * g | size)) as Hdg by (eapply Z.divide_trans; [apply Z.divide_factor_l|exact Hdv]).
  cbn [groups_of]. rewrite (step_group_spec size elements Hsize Hel d g off len Hd Hg Hdg Hok r Hr) at 1.
  destruct (dg_le size elements Hsize Hel d g Hd Hg Hdg) as (Hdgs & _ & Hgs).
  rewrite (step_group_spec size elements Hsize Hel d g off len Hd Hg Hdg Hok r Hr). cbn [myChunkOffset myChunkLength].
  constructor.
  - exists d, g. cbn [bufferOffset bufferLength]. split_and!; [done|done|done|done|].
    by rewrite (step_group_spec size elements Hsize Hel d g off len Hd Hg Hdg Hok r Hr).
  - rewrite wrap_small by (unfold in_range; lia). apply IH; [nia|done|done|].
    apply chunk_seg_ok; [lia|lia|apply Z.mod_pos_bound; lia|done].
Qed.

Lemma foldl_max_ge {A} (f : A → Z) l : ∀ n, n ≤ foldl (λ n x, Z.max n (f x)) n l ∧ ∀ x, x ∈ l → f x ≤ foldl (λ n x, Z.max n (f x)) n l.
Proof.
  induction l as [|y l IH]; intros n; cbn [foldl]; [split; [lia|set_solver]|]. destruct (IH (Z.max n (f y))) as [H1 H2].
  split; [lia|]. intros x [->|Hx]%elem_of_cons; [lia|by apply H2].
Qed.

(** C31: the scratch buffer of the bcube algorithm is large enough, in all steps:
    what a process receives from a peer of its group lies inside it. *)
Theorem bcube_scratch_fits size elements r sizes G iq :
  1 ≤ size < 2 ^ 31 → 0 ≤ elements ≤ 2 ^ 60 → 0 ≤ r < size → computeGroupSizePerStep size 2 = Val (Some sizes) →
  let groups := groups_of r sizes 1 0 elements in
  G ∈ groups → iq ∈ peers_of r G →
  0 ≤ iq.2 < size ∧ 0 ≤ u64 (iq.1 * chunkLength G) ∧ 0 ≤ myChunkLength G ∧
  u64 (iq.1 * chunkLength G) + myChunkLength G ≤ scratch_length elements groups.
Proof.
  intros Hsize Hel Hr Hg groups HG Hiq. destruct (computeGroupSizes_lemma size 2 ltac:(lia) ltac:(lia)) as (l & E & Hp & Hf).
  assert (l = sizes) as -> by congruence.
  pose proof (groups_of_spec size elements Hsize Hel r Hr sizes 1 0 elements ltac:(lia) Hf) as HA.
  rewrite Hp, Z.mul_1_l in HA. specialize (HA (Z.divide_refl size) ltac:(split; lia)). rewrite Forall_forall in HA.
  destruct (HA G HG) as (d & g & Hd & Hg2 & Hdg & Hok & EG).
  destruct (dg_le size elements Hsize Hel d g Hd Hg2 Hdg) as (_ & _ & Hgs). pose proof (sk_len _ _ _ _ Hok) as Hlen.
  pose proof (chunk_size_spec g (bufferLength G) ltac:(lia) ltac:(lia)) as [Hc0 Hc].
  pose proof (step_group_spec size elements Hsize Hel d g _ _ Hd Hg2 Hdg Hok r Hr) as ES.
  pose proof (chunk_len_bound g (bufferLength G) ltac:(lia) ltac:(lia) (member d g r)) as Hml.
  rewrite EG in Hiq. rewrite (peers_of_spec size elements Hsize Hel d g _ _ Hd Hg2 Hdg Hok r Hr) in Hiq.
  apply list_elem_of_fmap in Hiq as (i & -> & [Hi _]%elem_others). cbn [fst snd].
  assert (chunkLength G = chunk_size g (bufferLength G)) as E1 by (rewrite EG at 1; by rewrite ES).
  assert (myChunkLength G = chunk_len g (bufferLength G) (member d g r)) as E2 by (rewrite EG at 1; by rewrite ES).
  assert (Z.of_nat (length (g_ranks G)) = g) as E3 by (rewrite EG; rewrite ES; cbn; rewrite length_fmap, length_seqZ; lia).
  split; [apply rank_of_range; done || lia|]. rewrite E1, E2.
  assert (0 ≤ i * chunk_size g (bufferLength G) ≤ (g - 1) * chunk_size g (bufferLength G)) as Hic.
  { split; [apply Z.mul_nonneg_nonneg; lia|apply Z.mul_le_mono_nonneg_r; lia]. }
  rewrite wrap_small by (unfold in_range; lia). split; [lia|]. split; [lia|].
  destruct (foldl_max_ge (λ G, u64 (Z.of_nat (length (g_ranks G)) * chunkLength G)) groups elements) as [_ H]. specialize (H G HG). cbv beta in H.
  rewrite E3, E1, wrap_small in H by (unfold in_range; lia). unfold scratch_length. lia.
Qed.

Lemma bcube_scratch_fits_witness :
  let groups := groups_of 4 [2; 3] 1 0 7 in
  let G := step_group 4 2 1 0 7 in
  (G ∈ groups ∧ (1, 5) ∈ peers_of 4 G) ∧
  0 ≤ 5 < 6 ∧ 0 ≤ u64 (1 * chunkLength G) ∧ 0 ≤ myChunkLength G ∧
  u64 (1 * chunkLength G) + myChunkLength G ≤ scratch_length 7 groups.
Proof.
  intros groups G. assert (G ∈ groups) as HG by apply list_elem_of_here.
  assert ((1, 5) ∈ peers_of 4 G) as Hp by (vm_compute; apply list_elem_of_here).
  split; [by split|]. by apply (bcube_scratch_fits 6 7 4 [2; 3] G (1, 5)).
Defined.

(** [computeGroupSizePerStep] ends, for every number of processes, with
    group sizes of at least two that multiply to it. *)
Theorem computeGroupSizePerStep_spec size n : 2 ≤ n → 1 ≤ size < 2 ^ 64 →
  ∃ l, computeGroupSizePerStep size n = Val (Some l) ∧ foldr Z.mul 1 l = size ∧ Forall (λ g, 2 ≤ g) l.
Proof. apply computeGroupSizes_lemma. Qed.

Lemma computeGroupSizePerStep_spec_witness :
  ∃ l, computeGroupSizePerStep 12 2 = Val (Some l) ∧ foldr Z.mul 1 l = 12 ∧ Forall (λ g, 2 ≤ g) l.
Proof. apply (computeGroupSizePerStep_spec 12 2); lia. Defined.
