(* ===== verification/BcubeRun.v ===== *)
(** The steps of the bcube algorithm, and what they compute together. *)
From Stdlib Require Import FunctionalExtensionality.
From S2P Require Import Prelude Slots MathOps Net NetRun Groups Rounds Bulk Segments Reducing Bcube.

Section bcube.
Context (size es slot : Z) (ins outs : list Z) (out tmp : Z) (op : RedOp).
Context (Hsize : 1 ≤ size < 2 ^ 31) (Hes : 0 < es) (Hop : op_ok es op).
Context (Hnd : NoDup (ins ++ out :: outs)) (Htmp : tmp ∉ ins ++ out :: outs).

(** Elements [off .. off + len) of a buffer. *)
Definition ereg (b off len : Z) : Region := mkRegion b (off * es) (len * es).

(* ------------------------------------------------------------------ *)
(** * A step of reduce/scatter

    Process [r] has the value [v r] of the segment [sg r], one part after the
    other as [prep] makes them, and exchanges the parts within its group. *)

Section step.
Context (d g : Z) (Hd : 0 < d) (Hg : 2 ≤ g) (Hdg : (d * g | size)).
Context (sg : Z → Z * Z) (Hsg : ∀ r r', 0 ≤ r < size → 0 ≤ r' < size → r `mod` d = r' `mod` d → sg r = sg r').
Context (Hlen0 : ∀ r, 0 ≤ r < size → 0 ≤ (sg r).2).

Abbreviation mem_of := (member d g).
Abbreviation rk := (rank_of d g).
Definition part (r i : Z) : Z * Z :=
  ((sg r).1 + i * chunk_size g (sg r).2, chunk_len g (sg r).2 i).
Definition preg (b r i : Z) : Region := ereg b (part r i).1 (part r i).2.
Definition idx (r : Z) : list Z := others (mem_of r) g.
Definition partners (r : Z) : list Z := rk r <$> idx r.

Lemma mem_of_range r : 0 ≤ mem_of r < g.
Proof. apply Z.mod_pos_bound. lia. Qed.

Lemma idx_range r i : i ∈ idx r → 0 ≤ i < g ∧ i ≠ mem_of r.
Proof. intros H%elem_others. lia. Qed.

Lemma part_len r i : 0 ≤ r < size → 0 ≤ (part r i).2.
Proof. intros Hr. apply chunk_len_bound; [lia|by apply Hlen0]. Qed.

Lemma part_group r i j : 0 ≤ r < size → 0 ≤ i < g → part (rk r i) j = part r j.
Proof.
  intros Hr Hi. unfold part. rewrite (Hsg (rk r i) r); [done| |done|].
  - apply rank_of_range; [done|lia|done|done|done].
  - apply rank_of_spec; [done|lia|done].
Qed.

Lemma pregs_apart b b' r i j : 0 ≤ r < size → 0 ≤ i → 0 ≤ j → i ≠ j → apart (preg b r i) (preg b' r j).
Proof.
  intros Hr Hi Hj Hne. destruct (decide (b = b')) as [<-|]; [|by apply apart_buf].
  apply apart_off. unfold preg, ereg, part. cbn [fst snd rg_off rg_len].
  pose proof (chunk_size_spec g (sg r).2 ltac:(lia) (Hlen0 r Hr)) as [Hc _].
  pose proof (chunk_len_bound g (sg r).2 ltac:(lia) (Hlen0 r Hr) i) as Hbi.
  pose proof (chunk_len_bound g (sg r).2 ltac:(lia) (Hlen0 r Hr) j) as Hbj. set (c := chunk_size g (sg r).2) in *.
  destruct (Z.lt_total i j) as [Hlt|[|Hlt]]; [left| |right]; [|done|].
  - rewrite <-Z.mul_add_distr_r. apply Z.mul_le_mono_nonneg_r; [lia|]. assert ((i + 1) * c ≤ j * c) by (apply Z.mul_le_mono_nonneg_r; lia). lia.
  - rewrite <-Z.mul_add_distr_r. apply Z.mul_le_mono_nonneg_r; [lia|]. assert ((j + 1) * c ≤ i * c) by (apply Z.mul_le_mono_nonneg_r; lia). lia.
Qed.

Lemma partners_spec r q : 0 ≤ r < size → q ∈ partners r → 0 ≤ q < size ∧ r ∈ partners q ∧ mem_of q ∈ idx r ∧ q = rk r (mem_of q).
Proof.
  intros Hr (i & -> & Hi)%list_elem_of_fmap. pose proof (idx_range r i Hi) as [Hig Hne].
  destruct (rank_of_spec d g Hd ltac:(lia) r i Hig) as (E1 & _).
  split; [apply rank_of_range; done || lia|]. rewrite E1. split; [|done]. apply list_elem_of_fmap. exists (mem_of r).
  split; [by rewrite rank_of_of, rank_of_member by lia|]. apply elem_others. rewrite E1. pose proof (mem_of_range r). lia.
Qed.

Lemma partners_nodup r : NoDup (partners r).
Proof.
  apply NoDup_fmap_2_strong; [|apply NoDup_others]. intros i j [Hi _]%idx_range [Hj _]%idx_range Heq.
  apply (rank_of_inj d g) with r; done || lia.
Qed.

(* ------------------------------------------------------------------ *)
(** * A step of allgather

    Process [r] has its own part [w r] in every output and gets the others. *)

Section gather.
Context (w : Z → list Z) (Hw : ∀ r, 0 ≤ r < size → Z.of_nat (length (w r)) = (part r (mem_of r)).2 * es).
Context (mems : Z → Mem).
Context (Hm : ∀ r b, 0 ≤ r < size → b ∈ out :: outs → read (mems r) (preg b r (mem_of r)) = w r).

Definition bg_recv (r i : Z) : Xfer := mkXfer (rk r i) slot (preg out r i).
Definition bg_send (r i : Z) : Xfer := mkXfer (rk r i) slot (preg out r (mem_of r)).
Definition bg_posts (r : Z) : list Act := ((λ i, Recv (bg_recv r i)) <$> idx r) ++ ((λ i, Send (bg_send r i)) <$> idx r).
Definition bg_waits (r : Z) : list Act := idx r ≫= (λ _, [WaitRecv out; WaitSend out]).
Definition bg_final (r : Z) : list Act :=
  idx r ≫= (λ i, broadcastOutputs (out :: outs) ((part r i).1 * es) ((part r i).2 * es)).
Definition bg_val (r q : Z) : list Z := w r.
Definition bg_ro (r p : Z) : Region := preg out r (mem_of p).

Lemma bg_posts_lists r : Forall is_post (bg_posts r) ∧ sends_of (bg_posts r) = bg_send r <$> idx r ∧
  recvs_of (bg_posts r) = bg_recv r <$> idx r ∧ (∀ m, mem_after m (bg_posts r) = m) ∧
  ∀ m, sent m (bg_posts r) = (λ i, msg_of m (bg_send r i)) <$> idx r.
Proof.
  unfold bg_posts. rewrite sends_of_app, recvs_of_app, sends_of_map_recv, sends_of_map, recvs_of_map.
  assert (∀ l, recvs_of ((λ i, Send (bg_send r i)) <$> l) = []) as -> by (induction l; done).
  split; [apply Forall_app; split; by apply posts_map|]. split; [done|]. split; [apply app_nil_r|]. split.
  - intros m. by rewrite mem_after_app, mem_after_recvs, mem_after_sends.
  - intros m. rewrite sent_app, mem_after_recvs.
    assert (∀ l, sent m ((λ i, Recv (bg_recv r i)) <$> l) = []) as -> by (induction l; done).
    induction (idx r) as [|i l IH]; [done|]. cbn. by f_equal.
Qed.

Lemma bg_waits_spec r : Forall is_wait (bg_waits r) ∧ ∀ b,
  waits_send b (bg_waits r) = on_buf b (sends_of (bg_posts r)) ∧ waits_recv b (bg_waits r) = on_buf b (recvs_of (bg_posts r)).
Proof.
  destruct (bg_posts_lists r) as (_ & -> & -> & _). unfold bg_waits. split; [apply Forall_bind, Forall_forall; by repeat constructor|].
  intros b. rewrite !(on_buf_map b out) by done.
  induction (idx r) as [|i l [IH1 IH2]]; [by split; case_decide|]. cbn. rewrite IH1, IH2. unfold one.
  split; repeat case_decide; cbn; lia || congruence.
Qed.

Lemma bg_final_computes r : Forall is_compute (bg_final r).
Proof. apply Forall_bind, Forall_forall. intros i _. apply broadcastOutputs_computes. Qed.

Definition bg_mem (r : Z) : Mem := round_mem slot partners bg_val bg_ro bg_posts bg_final mems r.

Lemma bg_lead rest : leads size (λ r, bg_posts r ++ bg_waits r ++ bg_final r ++ rest r) mems rest bg_mem.
Proof.
  apply (round_lead size slot partners partners).
  - intros r q Hr Hq. by destruct (partners_spec r q Hr Hq) as (? & ? & _).
  - intros r q Hr Hq. by destruct (partners_spec r q Hr Hq) as (? & ? & _).
  - intros r _. split; apply partners_nodup.
  - intros r Hr. destruct (bg_posts_lists r) as (H1 & _ & -> & _). split; [done|].
    unfold round_recvs, partners. rewrite <-list_fmap_compose. apply list_fmap_ext. intros k i Hi.
    apply list_elem_of_lookup_2, idx_range in Hi as [Hi _]. unfold compose, bg_recv, bg_ro.
    by destruct (rank_of_spec d g Hd ltac:(lia) r i Hi) as [-> _].
  - intros r Hr. destruct (bg_posts_lists r) as (_ & _ & _ & _ & ->). unfold partners. rewrite <-list_fmap_compose.
    apply list_fmap_ext. intros k i _. unfold compose, msg_of, bg_send, bg_val. cbn [mkXfer x_peer x_slot x_reg]. by rewrite Hm by (done || set_solver).
  - intros r q Hr Hq. destruct (partners_spec r q Hr Hq) as (Hq' & _ & Hi & E). unfold bg_val, bg_ro. rewrite Hw by done.
    cbn [rg_len preg ereg]. rewrite E at 1. rewrite part_group; [done|done|apply mem_of_range].
  - intros r _. apply bg_waits_spec.
  - intros r _. apply bg_final_computes.
Qed.

(** The local broadcasts of a loop. *)
Lemma bg_final_loop r l : 0 ≤ r < size → (∀ i, i ∈ l → 0 ≤ i < g) → NoDup l → ∀ m,
  let m' := mem_after m (l ≫= (λ i, broadcastOutputs (out :: outs) ((part r i).1 * es) ((part r i).2 * es))) in
  (∀ b i, b ∈ outs → i ∈ l → read m' (preg b r i) = read m (preg out r i)) ∧
  ∀ reg, (∀ b i, b ∈ outs → i ∈ l → apart (preg b r i) reg) → read m' reg = read m reg.
Proof.
  intros Hr Hl Hndl. assert (out ∉ outs) as Ho by (apply NoDup_app in Hnd as (_ & _ & Hno); by apply NoDup_cons in Hno as [? _]).
  induction Hndl as [|i l Hni _ IH]; intros m; [split; [set_solver|done]|]. cbn [mbind list_bind]. rewrite mem_after_app.
  assert (0 ≤ (part r i).2 * es) as Hpos by (apply Z.mul_nonneg_nonneg; [by apply part_len|lia]).
  destruct (broadcastOutputs_effect ((part r i).1 * es) ((part r i).2 * es) Hpos out outs m Ho) as [E1 E2].
  set (m1 := mem_after m (broadcastOutputs _ _ _)) in *. destruct (IH ltac:(set_solver) m1) as [IH1 IH2].
  assert (∀ j, j ∈ l → 0 ≤ i ∧ 0 ≤ j ∧ i ≠ j) as Hij.
  { intros j Hj. pose proof (Hl i ltac:(set_solver)). pose proof (Hl j ltac:(set_solver)). split; [lia|]. split; [lia|set_solver]. }
  split.
  - intros b j Hb Hj. apply elem_of_cons in Hj as [->|Hj].
    + etransitivity; [apply IH2|by apply E1]. intros b' j' _ Hj'. destruct (Hij j' Hj') as (? & ? & ?). by apply pregs_apart.
    + etransitivity; [by apply IH1|]. apply E2. intros b' _. destruct (Hij j Hj) as (? & ? & ?). by apply (pregs_apart b' out r i j).
  - intros reg Hreg. etransitivity; [apply IH2; intros; apply Hreg; set_solver|]. apply E2. intros b Hb. apply (Hreg b i); set_solver.
Qed.

(** After the step every output has all parts. *)
Lemma bg_result r b i : 0 ≤ r < size → b ∈ out :: outs → 0 ≤ i < g → read (bg_mem r) (preg b r i) = w (rk r i).
Proof.
  intros Hr Hb Hi. unfold bg_mem, round_mem. destruct (bg_posts_lists r) as (_ & _ & _ & -> & _). set (m2 := receives _ _ _).
  assert (out ∉ outs) as Ho by (apply NoDup_app in Hnd as (_ & _ & Hno); by apply NoDup_cons in Hno as [? _]).
  assert (∀ j, 0 ≤ j < g → read m2 (preg out r j) = w (rk r j)) as Hout.
  { intros j Hj. unfold m2. destruct (decide (j = mem_of r)) as [->|Hne].
    - rewrite receives_out; [rewrite rank_of_member; apply Hm; [done|set_solver]|].
      intros x (p & -> & Hp)%list_elem_of_fmap. destruct (partners_spec r p Hr Hp) as (_ & _ & Hpi & _).
      apply idx_range in Hpi. apply pregs_apart; [done|lia|lia|tauto].
    - unfold round_recvs, round_msgs. destruct (rank_of_spec d g Hd ltac:(lia) r j Hj) as [E _].
      assert (preg out r j = x_reg (mkXfer (rk r j) slot (bg_ro r (rk r j)))) as Ex by (cbn; unfold bg_ro; by rewrite E).
      rewrite Ex. apply (read_received (λ p, mkXfer p slot (bg_ro r p))).
      + apply regions_apart_map; [apply partners_nodup|]. intros p q Hp Hq Hpq.
        destruct (partners_spec r p Hr Hp) as (_ & _ & Hpi & Ep). destruct (partners_spec r q Hr Hq) as (_ & _ & Hqi & Eq).
        apply idx_range in Hpi, Hqi. apply pregs_apart; [done|lia|lia|]. congruence.
      + apply Forall2_fmap, Forall_Forall2_diag, Forall_forall. intros q Hq. split; [done|]. split; [done|]. cbn.
        destruct (partners_spec r q Hr Hq) as (Hq' & _ & Hpi & Eq). unfold bg_val. rewrite Hw by done.
        rewrite Eq at 1. rewrite part_group; [done|done|apply mem_of_range].
      + apply list_elem_of_fmap. exists j. split; [done|]. apply elem_others. lia. }
  destruct (bg_final_loop r (idx r) Hr) with (m := m2) as [F1 F2]; [intros j Hj; apply (idx_range r j Hj)|apply NoDup_others|].
  fold (bg_final r) in F1, F2. apply elem_of_cons in Hb as [->|Hb].
  - rewrite F2; [by apply Hout|]. intros b' j Hb' _. apply apart_buf. cbn. by intros ->.
  - destruct (decide (i = mem_of r)) as [->|Hne].
    + rewrite F2.
      * unfold m2. rewrite receives_out; [rewrite rank_of_member; apply Hm; [done|set_solver]|].
        intros x (p & -> & _)%list_elem_of_fmap. apply apart_buf. cbn. by intros <-.
      * intros b' j _ [Hj Hjn]%idx_range. apply pregs_apart; [done|lia|lia|done].
    + rewrite F1; [by apply Hout|done|]. apply elem_others. lia.
Qed.

Lemma bg_clean r h rest : 0 ≤ r < size → rested h → (∀ h', rested h' → clean h' rest) →
  clean h (bg_posts r ++ bg_waits r ++ bg_final r ++ rest).
Proof.
  intros Hr Hh Hk. destruct (bg_waits_spec r) as [Hws Hc]. apply round_clean; [done| |done|done|].
  2: { intros h' Hh'. apply rested_computes; [apply bg_final_computes|done|done]. }
  unfold bg_posts. apply tidy_app.
  - apply tidy_recvs; [apply NoDup_others| |intros; split; constructor].
    intros i j [Hi _]%idx_range [Hj _]%idx_range Hne. apply pregs_apart; [done|lia|lia|done].
  - apply tidy_sends. intros i _. rewrite recvs_of_map. cbn [app]. apply Forall_fmap, Forall_forall. intros j [Hj Hjn]%idx_range.
    pose proof (mem_of_range r). apply pregs_apart; [done|lia|lia|done].
Qed.
End gather.

(* ------------------------------------------------------------------ *)
(** What a process posts: receives of its own part, and each part of the
    others once it is prepared. *)
Context (prep : Z → Z → list Act).
Context (Hcomp : ∀ r i, Forall is_compute (prep r i)).
Context (Hquiet : ∀ r i ss rs, 0 ≤ r < size → 0 ≤ i < g → Forall (λ x, apart x (preg out r i)) ss → Forall (λ x, rg_buf x = tmp) rs →
  quiet ss rs (prep r i)).

Definition tmp_reg (r i : Z) : Region := mkRegion tmp (i * chunk_size g (sg r).2 * es) ((part r (mem_of r)).2 * es).
Definition bs_recv (r i : Z) : Xfer := mkXfer (rk r i) slot (tmp_reg r i).
Definition bs_send (r i : Z) : Xfer := mkXfer (rk r i) slot (preg out r i).
Definition bs_posts (r : Z) : list Act :=
  ((λ i, Recv (bs_recv r i)) <$> idx r) ++ (idx r ≫= (λ i, prep r i ++ [Send (bs_send r i)])).
Definition bs_waits (r : Z) : list Act := idx r ≫= (λ _, [WaitRecv tmp; WaitSend out]).
Definition bs_own (r : Z) : Region := preg out r (mem_of r).
Definition bs_final (r : Z) : list Act :=
  prep r (mem_of r) ++ ((λ i, reduce_act op (bs_own r) (bs_own r) (tmp_reg r i)) <$> idx r).

Lemma bs_lists r l : sends_of (l ≫= (λ i, prep r i ++ [Send (bs_send r i)])) = bs_send r <$> l ∧
  recvs_of (l ≫= (λ i, prep r i ++ [Send (bs_send r i)])) = [] ∧ Forall is_post (l ≫= (λ i, prep r i ++ [Send (bs_send r i)])).
Proof.
  induction l as [|i l (IH1 & IH2 & IH3)]; [done|]. cbn [mbind list_bind fmap list_fmap].
  destruct (computes_lists _ (Hcomp r i)) as (H1 & H2 & H3 & _).
  rewrite !sends_of_app, !recvs_of_app, H2, H3. split; [cbn; by f_equal|]. split; [exact IH2|].
  apply Forall_app. split; [|exact IH3]. apply Forall_app. split; [done|]. by repeat constructor.
Qed.

Lemma bs_posts_lists r : Forall is_post (bs_posts r) ∧ sends_of (bs_posts r) = bs_send r <$> idx r ∧
  recvs_of (bs_posts r) = bs_recv r <$> idx r.
Proof.
  unfold bs_posts. destruct (bs_lists r (idx r)) as (H1 & H2 & H3). rewrite sends_of_app, recvs_of_app, H1, H2.
  split; [apply Forall_app; split; [by apply posts_map|done]|]. split; [by rewrite sends_of_map_recv|].
  rewrite recvs_of_map. apply app_nil_r.
Qed.

Lemma bs_waits_spec r : Forall is_wait (bs_waits r) ∧ ∀ b,
  waits_send b (bs_waits r) = on_buf b (sends_of (bs_posts r)) ∧ waits_recv b (bs_waits r) = on_buf b (recvs_of (bs_posts r)).
Proof.
  destruct (bs_posts_lists r) as (_ & -> & ->). unfold bs_waits. split; [apply Forall_bind, Forall_forall; by repeat constructor|].
  intros b. rewrite (on_buf_map b out), (on_buf_map b tmp) by done.
  induction (idx r) as [|i l [IH1 IH2]]; [by split; case_decide|]. cbn. rewrite IH1, IH2. unfold one.
  split; repeat case_decide; cbn; lia || congruence.
Qed.

Lemma bs_final_computes r : Forall is_compute (bs_final r).
Proof. apply Forall_app. split; [apply Hcomp|]. by apply Forall_fmap, Forall_forall. Qed.

Lemma scratch_apart b r i o n : b ∈ ins ++ out :: outs → apart (mkRegion tmp o n) (preg b r i).
Proof. intros Hb. apply apart_buf. cbn. by intros ->. Qed.

Lemma tmp_regs_apart r i j : 0 ≤ r < size → 0 ≤ i → 0 ≤ j → i ≠ j → apart (tmp_reg r i) (tmp_reg r j).
Proof.
  intros Hr Hi Hj Hne. apply apart_off. unfold tmp_reg, part. cbn [rg_off rg_len snd].
  pose proof (chunk_len_bound g (sg r).2 ltac:(lia) (Hlen0 r Hr) (mem_of r)) as Hb. set (c := chunk_size g (sg r).2) in *.
  destruct (Z.lt_total i j) as [Hlt|[|Hlt]]; [left| |right]; [|done|].
  - rewrite <-Z.mul_add_distr_r. apply Z.mul_le_mono_nonneg_r; [lia|]. assert ((i + 1) * c ≤ j * c) by (apply Z.mul_le_mono_nonneg_r; lia). lia.
  - rewrite <-Z.mul_add_distr_r. apply Z.mul_le_mono_nonneg_r; [lia|]. assert ((j + 1) * c ≤ i * c) by (apply Z.mul_le_mono_nonneg_r; lia). lia.
Qed.

Lemma bs_clean r h rest : 0 ≤ r < size → rested h → (∀ h', rested h' → clean h' rest) →
  clean h (bs_posts r ++ bs_waits r ++ bs_final r ++ rest).
Proof.
  intros Hr Hh Hk. destruct (bs_waits_spec r) as [Hw Hc]. apply round_clean; [done| |done|done|].
  2: { intros h' Hh'. apply rested_computes; [apply bs_final_computes|done|done]. }
  unfold bs_posts. apply tidy_app.
  - apply tidy_recvs; [apply NoDup_others| |intros; split; constructor]. intros i j [Hi _]%idx_range [Hj _]%idx_range. apply tmp_regs_apart; [done|lia|lia].
  - rewrite recvs_of_map, sends_of_map_recv. cbn [app]. set (pr := bs_recv r <$> idx r).
    assert (∀ b i, b ∈ ins ++ out :: outs → all_apart pr (preg b r i)) as Hpr.
    { intros b i Hb. apply Forall_fmap, Forall_forall. intros j _. by apply scratch_apart. }
    assert (∀ l ps, NoDup l → (∀ i, i ∈ l → 0 ≤ i < g) → (∀ x, x ∈ ps → (∃ j, 0 ≤ j ∧ (j ∉ l) ∧ x_reg x = preg out r j)) →
      tidy ps pr (l ≫= (λ i, prep r i ++ [Send (bs_send r i)]))) as H.
    { induction l as [|i l IH]; intros ps Hndl Hl Hps; [done|]. cbn [mbind list_bind]. apply NoDup_cons in Hndl as [Hni Hndl].
      assert (0 ≤ i < g) as Hi by (apply Hl; set_solver). rewrite <-(assoc_L (++)). apply tidy_app.
      - apply (tidy_quiet (x_reg <$> ps) (x_reg <$> pr)).
        + apply Hquiet; [done|done| |].
          * apply Forall_fmap, Forall_forall. intros x Hx. destruct (Hps x Hx) as (j & Hj & Hjl & E). cbn. rewrite E.
            apply pregs_apart; [done|lia|lia|set_solver].
          * apply Forall_fmap, Forall_fmap, Forall_forall. done.
        + intros x Hx. by apply list_elem_of_fmap_2.
        + intros x Hx. by apply list_elem_of_fmap_2.
      - destruct (computes_lists _ (Hcomp r i)) as (_ & -> & -> & _). rewrite !app_nil_r. cbn [app tidy].
        split; [apply Hpr; set_solver|]. apply IH; [done|set_solver|]. intros x [Hx|Hx]%elem_of_app.
        + destruct (Hps x Hx) as (j & Hj & Hjl & E). exists j. split; [done|]. split; [set_solver|done].
        + apply list_elem_of_singleton in Hx as ->. exists i. split; [lia|]. done. }
    apply H; [apply NoDup_others| |by intros x ?%not_elem_of_nil]. intros i Hi. apply (idx_range r i Hi).
Qed.

(** What the processes have to send and to reduce. *)
Context (v : Z → list Z) (Hv : ∀ r, 0 ≤ r < size → Z.of_nat (length (v r)) = (sg r).2 * es).
Definition vpart (r i : Z) : list Z := slice (i * chunk_size g (sg r).2 * es) (chunk_len g (sg r).2 i * es) (v r).
Definition reduced_part (r : Z) : list Z :=
  foldl op (vpart r (mem_of r)) ((λ i, vpart (rk r i) (mem_of r)) <$> idx r).

Lemma vpart_length r i : 0 ≤ r < size → 0 ≤ i → Z.of_nat (length (vpart r i)) = (part r i).2 * es.
Proof. intros Hr Hi. apply (chunk_slice g (sg r).2); [lia|by apply Hlen0|lia|done|by apply Hv]. Qed.

Context (mems : Z → Mem).
Context (Hprep : ∀ r i m, 0 ≤ r < size → 0 ≤ i < g →
  (∀ b, b ∈ ins ++ out :: outs → read m (preg b r i) = read (mems r) (preg b r i)) →
  read (mem_after m (prep r i)) (preg out r i) = vpart r i).
Context (Hframe : ∀ r i m reg, 0 ≤ r < size → 0 ≤ i < g → apart (preg out r i) reg → read (mem_after m (prep r i)) reg = read m reg).

Definition bs_val (r q : Z) : list Z := vpart r (mem_of q).
Definition bs_ro (r p : Z) : Region := tmp_reg r (mem_of p).

(** The loop of sends. *)
Lemma bs_loop r l : 0 ≤ r < size → (∀ i, i ∈ l → 0 ≤ i < g) → NoDup l → ∀ m,
  (∀ i b, i ∈ l → b ∈ ins ++ out :: outs → read m (preg b r i) = read (mems r) (preg b r i)) →
  sent m (l ≫= (λ i, prep r i ++ [Send (bs_send r i)])) = (λ i, mkMsg (rk r i) slot (vpart r i)) <$> l ∧
  ∀ reg, (∀ i, i ∈ l → apart (preg out r i) reg) → read (mem_after m (l ≫= (λ i, prep r i ++ [Send (bs_send r i)]))) reg = read m reg.
Proof.
  intros Hr Hl Hndl. induction Hndl as [|i l Hni _ IH]; intros m Hm; [done|]. cbn [mbind list_bind fmap list_fmap].
  rewrite sent_app, !sent_app, !mem_after_app. destruct (computes_lists _ (Hcomp r i)) as (_ & _ & _ & Hs).
  assert (0 ≤ i < g) as Hi by (apply Hl; set_solver).
  destruct (IH ltac:(set_solver) (mem_after m (prep r i))) as [IH1 IH2].
  { intros j b Hj Hb. rewrite Hframe; [apply Hm; set_solver|done|done|]. assert (0 ≤ j < g) by (apply Hl; set_solver). apply pregs_apart; [done|lia|lia|set_solver]. }
  split.
  - rewrite Hs. cbn [app sent mem_after]. unfold msg_of, bs_send at 1. cbn [mkXfer x_peer x_slot x_reg].
    rewrite Hprep by (done || intros; apply Hm; set_solver). f_equal. exact IH1.
  - intros reg Hreg. cbn [mem_after]. etransitivity; [apply IH2; set_solver|]. apply Hframe; [done|done|]. apply Hreg. set_solver.
Qed.

Lemma bs_recvs r : 0 ≤ r < size → bs_recv r <$> idx r = round_recvs slot partners bs_ro r.
Proof.
  intros Hr. unfold round_recvs, partners. rewrite <-list_fmap_compose. apply list_fmap_ext. intros k i Hi.
  apply list_elem_of_lookup_2, idx_range in Hi as [Hi _]. unfold compose, bs_recv, bs_ro.
  by destruct (rank_of_spec d g Hd ltac:(lia) r i Hi) as [-> _].
Qed.

Lemma bs_sent r : 0 ≤ r < size → sent (mems r) (bs_posts r) = (λ q, mkMsg q slot (bs_val r q)) <$> partners r.
Proof.
  intros Hr. unfold bs_posts. rewrite sent_app.
  assert (∀ l, sent (mems r) ((λ i, Recv (bs_recv r i)) <$> l) = []) as -> by (induction l; done).
  rewrite mem_after_recvs. destruct (bs_loop r (idx r) Hr) with (m := mems r) as [H _].
  - intros i Hi. apply (idx_range r i Hi).
  - apply NoDup_others.
  - done.
  - etransitivity; [exact H|]. unfold partners. rewrite <-list_fmap_compose. apply list_fmap_ext. intros k i Hi.
    apply list_elem_of_lookup_2, idx_range in Hi as [Hi _]. unfold compose, bs_val.
    by destruct (rank_of_spec d g Hd ltac:(lia) r i Hi) as [-> _].
Qed.

Definition bs_mem (r : Z) : Mem := round_mem slot partners bs_val bs_ro bs_posts bs_final mems r.

Lemma bs_lead rest : leads size (λ r, bs_posts r ++ bs_waits r ++ bs_final r ++ rest r) mems rest bs_mem.
Proof.
  apply (round_lead size slot partners partners).
  - intros r q Hr Hq. by destruct (partners_spec r q Hr Hq) as (? & ? & _).
  - intros r q Hr Hq. by destruct (partners_spec r q Hr Hq) as (? & ? & _).
  - intros r _. split; apply partners_nodup.
  - intros r Hr. destruct (bs_posts_lists r) as (H1 & _ & ->). split; [done|by apply bs_recvs].
  - apply bs_sent.
  - intros r q Hr Hq. destruct (partners_spec r q Hr Hq) as (Hq' & _ & Hm & E). unfold bs_val, bs_ro, tmp_reg. cbn [rg_len].
    rewrite vpart_length; [|done|apply mem_of_range]. rewrite E at 1. rewrite part_group; [done|done|apply mem_of_range].
  - intros r _. apply bs_waits_spec.
  - intros r _. apply bs_final_computes.
Qed.

(** After the step the process has reduced its own part. *)
Lemma bs_result r : 0 ≤ r < size → read (bs_mem r) (bs_own r) = reduced_part r.
Proof.
  intros Hr. pose proof (mem_of_range r) as Hmr. unfold bs_mem, round_mem, bs_final. rewrite mem_after_app.
  set (m1 := mem_after (mems r) (bs_posts r)). set (m2 := receives m1 _ _).
  assert (∀ i, i ∈ idx r → read m2 (tmp_reg r i) = vpart (rk r i) (mem_of r)) as Htm.
  { intros i Hi. destruct (idx_range r i Hi) as [Hig _]. destruct (rank_of_spec d g Hd ltac:(lia) r i Hig) as [E _].
    unfold m2, round_recvs, round_msgs.
    assert (tmp_reg r i = x_reg (mkXfer (rk r i) slot (bs_ro r (rk r i)))) as Ex by (cbn; unfold bs_ro; by rewrite E).
    rewrite Ex. apply (read_received (λ p, mkXfer p slot (bs_ro r p))).
    - apply regions_apart_map; [apply partners_nodup|]. intros p q Hp Hq Hne.
      destruct (partners_spec r p Hr Hp) as (_ & _ & Hpi & Ep). destruct (partners_spec r q Hr Hq) as (_ & _ & Hqi & Eq).
      apply idx_range in Hpi, Hqi. apply tmp_regs_apart; [done|lia|lia|]. congruence.
    - apply Forall2_fmap, Forall_Forall2_diag, Forall_forall. intros q Hq. split; [done|]. split; [done|]. cbn.
      destruct (partners_spec r q Hr Hq) as (Hq' & _ & Hm & Eq). unfold bs_val. rewrite vpart_length by (done || lia).
      rewrite Eq at 1. rewrite part_group; [done|done|apply mem_of_range].
    - apply list_elem_of_fmap. by exists i. }
  assert (∀ b, b ∈ ins ++ out :: outs → read m2 (preg b r (mem_of r)) = read (mems r) (preg b r (mem_of r))) as Hown.
  { intros b Hb. unfold m2. rewrite receives_out.
    2: { intros x (p & -> & _)%list_elem_of_fmap. by apply scratch_apart. }
    unfold m1, bs_posts. rewrite mem_after_app, mem_after_recvs.
    destruct (bs_loop r (idx r) Hr) with (m := mems r) as [_ H].
    - intros i Hi. apply (idx_range r i Hi).
    - apply NoDup_others.
    - done.
    - apply H. intros i [Hi Hne]%idx_range. apply pregs_apart; [done|lia|lia|done]. }
  set (m3 := mem_after m2 (prep r (mem_of r))).
  assert (read m3 (bs_own r) = vpart r (mem_of r)) as H3 by by apply Hprep.
  assert (∀ i, i ∈ idx r → read m3 (tmp_reg r i) = vpart (rk r i) (mem_of r)) as Ht3.
  { intros i Hi. unfold m3. rewrite Hframe; [by apply Htm|done|done|]. apply apart_sym, scratch_apart. set_solver. }
  destruct (accumulate_regions op (op_length _ _ Hop) (bs_own r) (tmp_reg r) (idx r)) with (m := m3) as [H _].
  - cbn. apply Z.mul_nonneg_nonneg; [by apply part_len|lia].
  - intros i Hi. split; [done|]. apply apart_sym, scratch_apart. set_solver.
  - etransitivity; [exact H|]. unfold reduced_part. rewrite H3. f_equal. apply list_fmap_ext. intros k i Hi.
    apply Ht3. by eapply list_elem_of_lookup_2.
Qed.

End step.

(* ------------------------------------------------------------------ *)
(** * All steps *)

Definition next_seg (d g : Z) (sg : Z → Z * Z) (r : Z) : Z * Z := part g sg r (member d g r).
(** The local reduction is made in the first step. *)
Definition prepare (k : nat) (d g : Z) (sg : Z → Z * Z) (r i : Z) : list Act :=
  match k with
  | O => reduceInputs ins (out :: outs) es op ((part g sg r i).1 * es) ((part g sg r i).2 * es)
  | S _ => []
  end.
Definition reduce_step (k : nat) (d g : Z) (sg : Z → Z * Z) (r : Z) : list Act :=
  bs_posts d g sg (prepare k d g sg) r ++ bs_waits d g r ++ bs_final d g sg (prepare k d g sg) r.
Definition gather_step (d g : Z) (sg : Z → Z * Z) (r : Z) : list Act :=
  bg_posts d g sg r ++ bg_waits d g r ++ bg_final d g sg r.

(** The steps on the way down and on the way back. *)
Fixpoint nest (k : nat) (sizes : list Z) (d : Z) (sg : Z → Z * Z) (r : Z) : list Act :=
  match sizes with
  | [] => broadcastOutputs (out :: outs) ((sg r).1 * es) ((sg r).2 * es)
  | g :: sizes =>
      reduce_step k d g sg r ++ nest (S k) sizes (d * g) (next_seg d g sg) r ++ gather_step d g sg r
  end.

(** What the steps compute of the values that the processes start with. *)
Fixpoint total (sizes : list Z) (d : Z) (sg : Z → Z * Z) (v : Z → list Z) (r : Z) : list Z :=
  match sizes with
  | [] => v r
  | g :: sizes =>
      mjoin ((λ i, total sizes (d * g) (next_seg d g sg) (reduced_part d g sg v) (rank_of d g r i)) <$> seqZ 0 g)
  end.

Definition segs_ok (d : Z) (sg : Z → Z * Z) : Prop :=
  (∀ r r', 0 ≤ r < size → 0 ≤ r' < size → r `mod` d = r' `mod` d → sg r = sg r') ∧ ∀ r, 0 ≤ r < size → 0 ≤ (sg r).2.

Lemma member_mod d g r r' : 0 < d → 0 < g → r `mod` (d * g) = r' `mod` (d * g) →
  member d g r = member d g r' ∧ r `mod` d = r' `mod` d.
Proof.
  intros Hd Hg E. destruct (rank_split d g Hd Hg r) as (E1 & H1 & H2). destruct (rank_split d g Hd Hg r') as (E2 & H3 & H4).
  assert (r `mod` (d * g) = d * member d g r + r `mod` d) as E3 by (symmetry; apply (Z.mod_unique _ _ (r / (d * g))); [left; nia|lia]).
  assert (r' `mod` (d * g) = d * member d g r' + r' `mod` d) as E4 by (symmetry; apply (Z.mod_unique _ _ (r' / (d * g))); [left; nia|lia]).
  assert (d * (member d g r - member d g r') = r' `mod` d - r `mod` d) as E5 by lia.
  assert (member d g r - member d g r' = 0) by nia. lia.
Qed.

Lemma next_segs d g sg : 0 < d → 2 ≤ g → segs_ok d sg → segs_ok (d * g) (next_seg d g sg).
Proof.
  intros Hd Hg [H1 H2]. split.
  - intros r r' Hr Hr' E. destruct (member_mod d g r r' Hd ltac:(lia) E) as [E1 E2]. unfold next_seg, part. by rewrite E1, (H1 r r').
  - intros r Hr. apply chunk_len_bound; [lia|by apply H2].
Qed.

(** Parts of what is read. *)
Lemma read_part m b g sg r i : 2 ≤ g → 0 ≤ (sg r).2 → 0 ≤ i →
  read m (preg g sg b r i) = slice (i * chunk_size g (sg r).2 * es) (chunk_len g (sg r).2 i * es) (read m (ereg b (sg r).1 (sg r).2)).
Proof.
  intros Hg Hl Hi. unfold preg, ereg, part. cbn [fst snd]. pose proof (chunk_len_bound g (sg r).2 ltac:(lia) Hl i) as Hb.
  destruct (chunk_size_spec g (sg r).2 ltac:(lia) Hl) as [Hc _].
  destruct (decide (chunk_len g (sg r).2 i = 0)) as [->|Hne]; [unfold slice; by rewrite Z.mul_0_l, take_0|].
  pose proof (chunk_inside g (sg r).2 i Hi ltac:(lia)) as Hin. rewrite read_slice_at.
  - by rewrite Z.mul_add_distr_r.
  - apply Z.mul_nonneg_nonneg; [apply Z.mul_nonneg_nonneg|]; lia.
  - apply Z.mul_nonneg_nonneg; lia.
  - rewrite <-Z.mul_add_distr_r. apply Z.mul_le_mono_nonneg_r; lia.
Qed.

(** Reducing part by part. *)
Lemma part_foldl1 g len i l : 2 ≤ g → 0 ≤ len → 0 ≤ i → l ≠ [] → Forall (λ x, Z.of_nat (length x) = len * es) l →
  slice (i * chunk_size g len * es) (chunk_len g len i * es) (foldl1 op l) =
  foldl1 op (slice (i * chunk_size g len * es) (chunk_len g len i * es) <$> l).
Proof.
  intros Hg Hs Hi Hne Hl. pose proof (chunk_len_bound g len ltac:(lia) Hs i) as Hb.
  pose proof (chunk_size_spec g len ltac:(lia) Hs) as [Hc _].
  destruct (decide (chunk_len g len i = 0)) as [Hz|Hz].
  - rewrite Hz, Z.mul_0_l. assert (∀ o (x : list Z), slice o 0 x = []) as Hn by (intros; unfold slice; by rewrite take_0).
    rewrite Hn. symmetry. apply length_zero_iff_nil. rewrite (foldl1_length es op Hop 0); [done|by destruct l|].
    apply Forall_fmap, Forall_forall. intros x _. cbn. by rewrite Hn.
  - pose proof (chunk_inside g len i Hi ltac:(lia)) as Hin. apply (foldl1_slice es op Hop (len * es)); [..|done].
    + apply Z.mul_nonneg_nonneg; [apply Z.mul_nonneg_nonneg|]; lia.
    + apply Z.mul_nonneg_nonneg; lia.
    + rewrite <-Z.mul_add_distr_r. apply Z.mul_le_mono_nonneg_r; lia.
    + by exists (i * chunk_size g len).
    + by exists (chunk_len g len i).
Qed.

(** What a process starts a step with. *)
Definition has_value (k : nat) (sg : Z → Z * Z) (v : Z → list Z) (mems : Z → Mem) : Prop := ∀ r, 0 ≤ r < size →
  v r = match k with
        | O => local_value ins (out :: outs) op (mems r) ((sg r).1 * es) ((sg r).2 * es)
        | S _ => read (mems r) (ereg out (sg r).1 (sg r).2)
        end.

Lemma foldl1_reads_length m l o n : 0 ≤ n → l ≠ [] → Z.of_nat (length (foldl1 op ((λ b, read m (mkRegion b o n)) <$> l))) = n.
Proof using Hop.
  clear tmp Htmp Hnd Hsize Hes.
  intros Hn Hl. rewrite (foldl1_length es op Hop (Z.to_nat n)); [lia|by destruct l|].
  apply Forall_fmap, Forall_forall. intros b _. apply Nat2Z.inj. cbn. rewrite read_length by done. cbn. lia.
Qed.

Lemma inputs_nonempty : inputs ins (out :: outs) ≠ [].
Proof using Type. clear Hnd Htmp. unfold inputs. by destruct ins. Qed.

Lemma has_value_length k sg v mems r : 0 ≤ r < size → 0 ≤ (sg r).2 → has_value k sg v mems →
  Z.of_nat (length (v r)) = (sg r).2 * es.
Proof using Hes Hop.
  clear tmp Htmp Hnd Hsize. intros Hr Hs Hv. rewrite (Hv r Hr). assert (0 ≤ (sg r).2 * es) by (apply Z.mul_nonneg_nonneg; lia). destruct k.
  - apply foldl1_reads_length; [done|apply inputs_nonempty].
  - by apply read_length.
Qed.

Lemma prepare_effect k d g sg v mems r i m : 2 ≤ g → 0 ≤ r < size → 0 ≤ (sg r).2 → 0 ≤ i < g → has_value k sg v mems →
  (∀ b, b ∈ ins ++ out :: outs → read m (preg g sg b r i) = read (mems r) (preg g sg b r i)) →
  read (mem_after m (prepare k d g sg r i)) (preg g sg out r i) = vpart g sg v r i.
Proof.
  intros Hg Hr Hs Hi Hv Hm. pose proof (chunk_len_bound g (sg r).2 ltac:(lia) Hs i) as Hb. unfold vpart. rewrite (Hv r Hr). destruct k as [|k].
  - assert (0 ≤ (part g sg r i).2 * es) as Hpos by (apply Z.mul_nonneg_nonneg; cbn; lia).
    destruct (reduceInputs_effect es op Hop ((part g sg r i).1 * es) ((part g sg r i).2 * es) Hpos) with (ins := ins) (out0 := out) (outs := outs) (m := m)
      as [E _]; [by rewrite Z.div_mul by lia|done|].
    etransitivity; [exact E|]. unfold local_value.
    assert (((λ b, read m (mkRegion b ((part g sg r i).1 * es) ((part g sg r i).2 * es))) <$> inputs ins (out :: outs)) =
      slice (i * chunk_size g (sg r).2 * es) (chunk_len g (sg r).2 i * es) <$>
        ((λ b, read (mems r) (mkRegion b ((sg r).1 * es) ((sg r).2 * es))) <$> inputs ins (out :: outs))) as ->.
    { rewrite <-list_fmap_compose. apply list_fmap_ext. intros k b Hin. apply list_elem_of_lookup_2 in Hin. unfold compose.
      etransitivity; [|apply (read_part (mems r) b g sg r i Hg Hs); lia]. apply Hm. unfold inputs in Hin. destruct ins; set_solver. }
    symmetry. apply part_foldl1; [done|done|lia| |].
    + pose proof inputs_nonempty. by destruct (inputs ins (out :: outs)).
    + apply Forall_fmap, Forall_forall. intros b _. apply read_length. apply Z.mul_nonneg_nonneg; lia.
  - cbn [mem_after prepare]. rewrite Hm by set_solver. apply read_part; [done|done|lia].
Qed.

Lemma prepare_frame k d g sg r i m reg : 2 ≤ g → 0 ≤ (sg r).2 → apart (preg g sg out r i) reg →
  read (mem_after m (prepare k d g sg r i)) reg = read m reg.
Proof.
  intros Hg Hs Ha. destruct k as [|k]; [|done].
  assert (0 ≤ (part g sg r i).2 * es) as Hpos.
  { apply Z.mul_nonneg_nonneg; [|lia]. apply chunk_len_bound; [lia|done]. }
  destruct (reduceInputs_effect es op Hop ((part g sg r i).1 * es) ((part g sg r i).2 * es) Hpos) with (ins := ins) (out0 := out) (outs := outs) (m := m)
    as [_ E]; [by rewrite Z.div_mul by lia|done|]. by apply E.
Qed.

Lemma prepare_computes k d g sg r i : Forall is_compute (prepare k d g sg r i).
Proof. destruct k; [apply reduceInputs_computes|constructor]. Qed.

Lemma prepare_quiet k d g sg r i ss rs : 2 ≤ g → 0 ≤ (sg r).2 →
  Forall (λ x, apart x (preg g sg out r i)) ss → Forall (λ x, rg_buf x = tmp) rs → quiet ss rs (prepare k d g sg r i).
Proof.
  intros Hg Hs Hss Hrs. destruct k; [|constructor].
  assert (0 ≤ (part g sg r i).2 * es) as Hpos.
  { apply Z.mul_nonneg_nonneg; [|lia]. apply chunk_len_bound; [lia|done]. }
  apply (reduceInputs_quiet es op Hop _ _ Hpos); [by rewrite Z.div_mul by lia|done|].
  intros b Hb. eapply Forall_impl; [exact Hrs|]. intros x Hx. apply apart_buf. rewrite Hx. cbn. by intros ->.
Qed.

Lemma sizes_divide d g sizes : (d * foldr Z.mul 1 (g :: sizes) | size) →
  (d * g | size) ∧ (d * g * foldr Z.mul 1 sizes | size).
Proof.
  cbn [foldr]. rewrite Z.mul_assoc. intros H. split; [|done]. eapply Z.divide_trans; [|exact H]. apply Z.divide_factor_l.
Qed.

Lemma nest_clean sizes : ∀ k d sg r h rest, 0 < d → Forall (λ g, 2 ≤ g) sizes → (d * foldr Z.mul 1 sizes | size) → segs_ok d sg → 0 ≤ r < size → rested h →
  (∀ h', rested h' → clean h' rest) → clean h (nest k sizes d sg r ++ rest).
Proof.
  induction sizes as [|g sizes IH]; intros k d sg r h rest Hd Hsz Hdv Hsg Hr Hh Hk; cbn [nest].
  - apply rested_computes; [apply broadcastOutputs_computes|done|done].
  - apply Forall_cons in Hsz as [Hg Hsz]. pose proof (next_segs d g sg Hd Hg Hsg) as Hnext.
    destruct Hsg as [Hsg1 Hsg2]. apply sizes_divide in Hdv as [Hdg Hdv].
    unfold reduce_step, gather_step. rewrite <-!(assoc_L (++)). apply bs_clean; [done|done|done|done|done|intros; apply prepare_computes| |done|done|].
    { intros r' i ss rs Hr' Hi. apply prepare_quiet; [done|by apply Hsg2]. }
    intros h1 Hh1. apply IH; [nia|done|done|done|done|done|]. intros h2 Hh2. by apply bg_clean.
Qed.

(** The value of the next step is in the memory that the step leaves. *)
Lemma reduced_part_length d g sg v r : 0 < d → 2 ≤ g → (d * g | size) → segs_ok d sg → 0 ≤ r < size →
  (∀ r, 0 ≤ r < size → Z.of_nat (length (v r)) = (sg r).2 * es) →
  Z.of_nat (length (reduced_part d g sg v r)) = (next_seg d g sg r).2 * es.
Proof.
  intros Hd Hg Hdg [Hs1 Hs2] Hr Hv. unfold reduced_part. assert (0 ≤ member d g r < g) as Hm by (apply Z.mod_pos_bound; lia).
  rewrite (foldl_op_length es op Hop (Z.to_nat ((next_seg d g sg r).2 * es))).
  - rewrite Z2Nat.id; [done|]. apply Z.mul_nonneg_nonneg; [|lia]. by apply (next_segs d g sg).
  - apply Nat2Z.inj. rewrite Z2Nat.id; [apply vpart_length; done || lia|]. apply Z.mul_nonneg_nonneg; [|lia]. by apply (next_segs d g sg).
  - apply Forall_fmap, Forall_forall. intros i Hi. apply elem_others in Hi as [Hi _]. apply Nat2Z.inj. cbv beta. unfold compose.
    rewrite Z2Nat.id by (apply Z.mul_nonneg_nonneg; [by apply (next_segs d g sg)|lia]).
    assert (0 ≤ rank_of d g r i < size) by (apply rank_of_range; done || lia).
    rewrite vpart_length by (done || lia). unfold next_seg. by rewrite part_group.
Qed.

(** A step of reduce/scatter, and what it leaves. *)
Lemma reduce_step_lead k d g sg v mems : 0 < d → 2 ≤ g → (d * g | size) → segs_ok d sg → has_value k sg v mems →
  ∃ M, (∀ rest, leads size (λ r, reduce_step k d g sg r ++ rest r) mems rest M) ∧
    has_value (S k) (next_seg d g sg) (reduced_part d g sg v) M.
Proof.
  intros Hd Hg Hdg [Hs1 Hs2] Hv.
  assert (∀ r, 0 ≤ r < size → Z.of_nat (length (v r)) = (sg r).2 * es) as Hl.
  { intros r Hr. eapply has_value_length; [done|by apply Hs2|done]. }
  exists (bs_mem d g sg (prepare k d g sg) v mems). split.
  - intros rest. unfold reduce_step.
    assert ((λ r, (bs_posts d g sg (prepare k d g sg) r ++ bs_waits d g r ++ bs_final d g sg (prepare k d g sg) r) ++ rest r) =
      (λ r, bs_posts d g sg (prepare k d g sg) r ++ bs_waits d g r ++ bs_final d g sg (prepare k d g sg) r ++ rest r)) as ->.
    { extensionality r. by rewrite <-!(assoc_L (++)). }
    apply bs_lead; try done.
    + intros; apply prepare_computes.
    + intros r i ss rs Hr Hi. apply prepare_quiet; [done|by apply Hs2].
    + intros r i m Hr Hi Hm. by eapply prepare_effect; [|done|apply Hs2|done|done|].
    + intros r i m reg Hr Hi Ha. apply prepare_frame; [done|by apply Hs2|done].
  - intros r Hr. symmetry. apply bs_result; try done.
    + intros; apply prepare_computes.
    + intros r' i ss rs Hr' Hi. apply prepare_quiet; [done|by apply Hs2].
    + intros r' i m Hr' Hi Hm. by eapply prepare_effect; [|done|apply Hs2|done|done|].
    + intros r' i m reg Hr' Hi Ha. apply prepare_frame; [done|by apply Hs2|done].
Qed.

(** A step of allgather, and what it leaves. *)
Lemma gather_step_lead d g sg w mems : 0 < d → 2 ≤ g → (d * g | size) → segs_ok d sg →
  (∀ r b, 0 ≤ r < size → b ∈ out :: outs → read (mems r) (ereg b (next_seg d g sg r).1 (next_seg d g sg r).2) = w r) →
  ∃ M, (∀ rest, leads size (λ r, gather_step d g sg r ++ rest r) mems rest M) ∧
    ∀ r b, 0 ≤ r < size → b ∈ out :: outs →
      read (M r) (ereg b (sg r).1 (sg r).2) = mjoin ((λ i, w (rank_of d g r i)) <$> seqZ 0 g).
Proof.
  intros Hd Hg Hdg Hsg Hw. pose proof (next_segs d g sg Hd Hg Hsg) as [_ Hn2]. destruct Hsg as [Hs1 Hs2].
  assert (∀ r, 0 ≤ r < size → Z.of_nat (length (w r)) = (part g sg r (member d g r)).2 * es) as Hl.
  { intros r Hr. rewrite <-(Hw r out Hr) by set_solver. apply read_length. apply Z.mul_nonneg_nonneg; [by apply Hn2|lia]. }
  exists (bg_mem d g sg w mems). split.
  - intros rest. unfold gather_step.
    assert ((λ r, (bg_posts d g sg r ++ bg_waits d g r ++ bg_final d g sg r) ++ rest r) =
      (λ r, bg_posts d g sg r ++ bg_waits d g r ++ bg_final d g sg r ++ rest r)) as ->.
    { extensionality r. by rewrite <-!(assoc_L (++)). }
    by apply bg_lead.
  - intros r b Hr Hb. rewrite <-(chunks_join g (sg r).2 ltac:(lia) (Hs2 r Hr) es (read _ _)); [|lia|apply read_length; apply Z.mul_nonneg_nonneg; [by apply Hs2|lia]].
    f_equal. apply list_fmap_ext. intros k i Hi. apply list_elem_of_lookup_2, elem_of_seqZ in Hi.
    rewrite <-read_part by (done || lia || by apply Hs2). apply bg_result; done || lia.
Qed.

(** All steps from a step on. *)
Lemma nest_lead sizes : ∀ k d sg v mems, 0 < d → Forall (λ g, 2 ≤ g) sizes → (d * foldr Z.mul 1 sizes | size) → segs_ok d sg →
  (k = O → sizes ≠ []) → has_value k sg v mems →
  ∃ M, (∀ rest, leads size (λ r, nest k sizes d sg r ++ rest r) mems rest M) ∧
    ∀ r b, 0 ≤ r < size → b ∈ out :: outs → read (M r) (ereg b (sg r).1 (sg r).2) = total sizes d sg v r.
Proof.
  induction sizes as [|g sizes IH]; intros k d sg v mems Hd Hsz Hdv Hsg Hk Hv; cbn [nest total].
  - destruct k as [|k]; [by destruct (Hk eq_refl)|].
    exists (λ r, mem_after (mems r) (broadcastOutputs (out :: outs) ((sg r).1 * es) ((sg r).2 * es))). split.
    + intros rest. apply leads_locals. intros r Hr. apply reaches_computes, broadcastOutputs_computes.
    + intros r b Hr Hb. assert (out ∉ outs) as Ho by (apply NoDup_app in Hnd as (_ & _ & Hno); by apply NoDup_cons in Hno as [? _]).
      assert (0 ≤ (sg r).2 * es) as Hpos by (apply Z.mul_nonneg_nonneg; [by apply Hsg|lia]).
      destruct (broadcastOutputs_effect ((sg r).1 * es) ((sg r).2 * es) Hpos out outs (mems r) Ho) as [E1 E2].
      rewrite (Hv r Hr). apply elem_of_cons in Hb as [->|Hb]; [|by apply E1].
      apply E2. intros b Hb. apply apart_buf. cbn. by intros ->.
  - apply Forall_cons in Hsz as [Hg Hsz]. apply sizes_divide in Hdv as [Hdg Hdv].
    destruct (reduce_step_lead k d g sg v mems Hd Hg Hdg Hsg Hv) as (M1 & L1 & V1).
    destruct (IH (S k) (d * g) (next_seg d g sg) (reduced_part d g sg v) M1) as (M2 & L2 & V2); [nia|done|done|by apply next_segs|done|done|].
    destruct (gather_step_lead d g sg (total sizes (d * g) (next_seg d g sg) (reduced_part d g sg v)) M2 Hd Hg Hdg Hsg V2) as (M3 & L3 & V3).
    exists M3. split; [|exact V3]. intros rest.
    assert ((λ r, (reduce_step k d g sg r ++ nest (S k) sizes (d * g) (next_seg d g sg) r ++ gather_step d g sg r) ++ rest r) =
      (λ r, reduce_step k d g sg r ++ nest (S k) sizes (d * g) (next_seg d g sg) r ++ gather_step d g sg r ++ rest r)) as ->.
    { extensionality r. by rewrite <-!(assoc_L (++)). }
    eapply leads_trans; [apply L1|]. eapply leads_trans; [apply L2|]. apply L3.
Qed.

(** Processes that agree on their segment end with the same. *)
Lemma total_agree sizes : ∀ d sg v r r', 0 < d → Forall (λ g, 2 ≤ g) sizes → d * foldr Z.mul 1 sizes = size →
  0 ≤ r < size → 0 ≤ r' < size → r `mod` d = r' `mod` d → total sizes d sg v r = total sizes d sg v r'.
Proof.
  induction sizes as [|g sizes IH]; intros d sg v r r' Hd Hsz Hp Hr Hr' E; cbn [total].
  - cbn in Hp. rewrite Z.mul_1_r in Hp. subst d. by rewrite !Z.mod_small in E by done; subst.
  - apply Forall_cons in Hsz as [Hg Hsz]. cbn in Hp. f_equal. apply list_fmap_ext. intros k i Hi.
    apply list_elem_of_lookup_2, elem_of_seqZ in Hi. assert ((d * g | size)) as Hdg by (exists (foldr Z.mul 1 sizes); lia).
    apply IH; [nia|done|lia|apply rank_of_range; done || lia|apply rank_of_range; done || lia|].
    rewrite !rank_of_mod_next by lia. by rewrite E.
Qed.

(* ------------------------------------------------------------------ *)
(** * The reduction of all processes *)

(** The ranks that share a segment with [r] before the step of distance [d]. *)
Definition class (d r : Z) : list Z := filter (λ q, q `mod` d = r `mod` d) (ranks size).
(** A process and its partners. *)
Definition circle (d g r : Z) : list Z := r :: partners d g r.

Lemma elem_class d r q : q ∈ class d r ↔ 0 ≤ q < size ∧ q `mod` d = r `mod` d.
Proof. unfold class. rewrite list_elem_of_filter, elem_ranks. tauto. Qed.

Lemma elem_circle d g r q : 0 < d → 2 ≤ g → q ∈ circle d g r ↔ ∃ j, 0 ≤ j < g ∧ q = rank_of d g r j.
Proof.
  intros Hd Hg. unfold circle, partners. rewrite elem_of_cons. assert (0 ≤ member d g r < g) as Hm by (apply Z.mod_pos_bound; lia). split.
  - intros [->|(j & -> & Hj)%list_elem_of_fmap]; [exists (member d g r); by rewrite rank_of_member|].
    apply elem_others in Hj as [Hj _]. by exists j.
  - intros (j & Hj & ->). destruct (decide (j = member d g r)) as [->|Hne]; [left; apply rank_of_member|right].
    apply list_elem_of_fmap. exists j. split; [done|]. by apply elem_others.
Qed.

Lemma circle_nodup d g r : 0 < d → 2 ≤ g → NoDup (circle d g r).
Proof.
  intros Hd Hg. unfold circle. apply NoDup_cons. split; [|by apply partners_nodup].
  intros (j & E & Hj)%list_elem_of_fmap. apply elem_others in Hj as [Hj Hne]. apply Hne.
  destruct (rank_of_spec d g Hd ltac:(lia) r j Hj) as [<- _]. by rewrite <-E.
Qed.

Lemma class_circles d g r i : 0 < d → 2 ≤ g → (d * g | size) → 0 ≤ r < size → 0 ≤ i < g →
  Permutation (class (d * g) (rank_of d g r i) ≫= circle d g) (class d r).
Proof.
  intros Hd Hg Hdg Hr Hi.
  assert (∀ q, q `mod` (d * g) = rank_of d g r i `mod` (d * g) → member d g q = i ∧ q `mod` d = r `mod` d) as Hq.
  { intros q E. destruct (member_mod d g q (rank_of d g r i) Hd ltac:(lia) E) as [-> ->].
    destruct (rank_of_spec d g Hd ltac:(lia) r i Hi) as (-> & -> & _). done. }
  apply NoDup_Permutation.
  - apply NoDup_bind; [|intros; by apply circle_nodup|apply NoDup_filter, NoDup_seqZ].
    intros q q' y [_ Hq1]%elem_class [_ Hq2]%elem_class Hy1 Hy2.
    apply elem_circle in Hy1 as (j & Hj & ->); [|done..]. apply elem_circle in Hy2 as (j' & Hj' & E); [|done..].
    apply Hq in Hq1 as [M1 _], Hq2 as [M2 _].
    rewrite <-(rank_of_member d g q), <-(rank_of_member d g q'), M1, M2.
    rewrite <-(rank_of_of d g Hd ltac:(lia) q j i Hj), E. by apply rank_of_of; lia.
  - apply NoDup_filter, NoDup_seqZ.
  - intros y. rewrite list_elem_of_bind, elem_class. split.
    + intros (q & (j & Hj & ->)%elem_circle & [Hqs Hqm]%elem_class); [|done..]. apply Hq in Hqm as [_ E].
      split; [apply rank_of_range; done || lia|]. by destruct (rank_of_spec d g Hd ltac:(lia) q j Hj) as (_ & -> & _).
    + intros [Hy E]. exists (rank_of d g y i). split.
      * apply elem_circle; [done..|]. exists (member d g y). split; [apply Z.mod_pos_bound; lia|].
        by rewrite rank_of_of, rank_of_member by lia.
      * apply elem_class. split; [apply rank_of_range; done || lia|]. rewrite !rank_of_mod_next by lia. by rewrite E.
Qed.

Lemma reduced_part_circle d g sg v r : 0 < d → 2 ≤ g → (d * g | size) → segs_ok d sg → 0 ≤ r < size →
  reduced_part d g sg v r =
  foldl1 op (slice (member d g r * chunk_size g (sg r).2 * es) (chunk_len g (sg r).2 (member d g r) * es) <$> (v <$> circle d g r)).
Proof.
  intros Hd Hg Hdg [Hs1 _] Hr. unfold reduced_part, circle, partners, foldl1. cbn [fmap list_fmap]. f_equal.
  rewrite <-!list_fmap_compose. apply list_fmap_ext. intros k i Hi. apply list_elem_of_lookup_2, elem_others in Hi as [Hi _].
  unfold compose, vpart. rewrite (Hs1 (rank_of d g r i) r); [done|apply rank_of_range; done || lia|done|].
  by destruct (rank_of_spec d g Hd ltac:(lia) r i Hi) as (_ & -> & _).
Qed.

(** A part of what a class has, reduced circle by circle. *)
Lemma total_part d g sg v r i : op_ac op → 0 < d → 2 ≤ g → (d * g | size) → segs_ok d sg → 0 ≤ r < size → 0 ≤ i < g →
  class d r ≠ [] → (∀ q, q ∈ class d r → sg q = sg r ∧ Z.of_nat (length (v q)) = (sg r).2 * es) →
  foldl1 op (reduced_part d g sg v <$> class (d * g) (rank_of d g r i)) =
  slice (i * chunk_size g (sg r).2 * es) (chunk_len g (sg r).2 i * es) (foldl1 op (v <$> class d r)).
Proof.
  intros Hac Hd Hg Hdg Hsg Hr Hi Hne Hcl. pose proof Hsg as [_ Hs2]. set (sl := slice _ _).
  pose proof (class_circles d g r i Hd Hg Hdg Hr Hi) as HP.
  assert (∀ q, q ∈ class (d * g) (rank_of d g r i) → 0 ≤ q < size ∧ member d g q = i ∧
    ∀ q', q' ∈ circle d g q → q' ∈ class d r) as Hq.
  { intros q Hin. split; [by apply elem_class in Hin as [? _]|]. split.
    - apply elem_class in Hin as [_ E]. destruct (member_mod d g q (rank_of d g r i) Hd ltac:(lia) E) as [-> _].
      by destruct (rank_of_spec d g Hd ltac:(lia) r i Hi) as (-> & _).
    - intros q' Hq'. rewrite <-HP. apply list_elem_of_bind. by exists q. }
  assert (∀ l, l ∈ v <$> class d r → length (sl l) = Z.to_nat (chunk_len g (sg r).2 i * es)) as Hsl.
  { intros l (q & -> & Hin)%list_elem_of_fmap. apply Nat2Z.inj. rewrite Z2Nat.id.
    - apply chunk_slice; [lia|by apply Hs2|lia|lia|by apply Hcl].
    - apply Z.mul_nonneg_nonneg; [|lia]. apply chunk_len_bound; [lia|by apply Hs2]. }
  assert (reduced_part d g sg v <$> class (d * g) (rank_of d g r i) =
    foldl1 op <$> ((λ q, sl <$> (v <$> circle d g q)) <$> class (d * g) (rank_of d g r i))) as ->.
  { rewrite <-list_fmap_compose. apply list_fmap_ext. intros k q Hin. apply list_elem_of_lookup_2 in Hin.
    destruct (Hq q Hin) as (Hqs & Hm & Hc). unfold compose. rewrite reduced_part_circle by done. rewrite Hm.
    destruct (Hcl q) as [-> _]; [|done]. apply Hc. unfold circle. set_solver. }
  rewrite (foldl1_concat es op Hop (Z.to_nat (chunk_len g (sg r).2 i * es)) Hac).
  - assert (∀ l : list Z, concat ((λ q, sl <$> (v <$> circle d g q)) <$> l) = sl <$> (v <$> (l ≫= circle d g))) as ->.
    { induction l as [|q l IHl]; [done|]. cbn [fmap list_fmap concat mbind list_bind]. rewrite IHl. by rewrite !fmap_app. }
    rewrite (foldl1_perm es op Hop (Z.to_nat (chunk_len g (sg r).2 i * es)) Hac _ (sl <$> (v <$> class d r))).
    + symmetry. apply part_foldl1; [done|by apply Hs2|lia|by destruct (class d r)|].
      apply Forall_fmap, Forall_forall. intros q Hin. by apply Hcl.
    + by rewrite HP.
    + rewrite HP. apply Forall_fmap, Forall_forall. intros l Hl. by apply Hsl.
  - apply Forall_fmap, Forall_forall. intros q Hin. destruct (Hq q Hin) as (_ & _ & Hc). split; [done|].
    apply Forall_fmap, Forall_fmap, Forall_forall. intros q' Hq'. apply Hsl. apply list_elem_of_fmap_2. by apply Hc.
Qed.

Lemma total_reduces sizes : ∀ d sg v r, op_ac op → 0 < d → Forall (λ g, 2 ≤ g) sizes → d * foldr Z.mul 1 sizes = size →
  segs_ok d sg → (∀ r, 0 ≤ r < size → Z.of_nat (length (v r)) = (sg r).2 * es) → 0 ≤ r < size →
  total sizes d sg v r = foldl1 op (v <$> class d r).
Proof.
  intros d sg v r Hac. revert d sg v r. induction sizes as [|g sizes IH]; intros d sg v r Hd Hsz Hp Hsg Hv Hr; cbn [total].
  - cbn in Hp. rewrite Z.mul_1_r in Hp. subst d. assert (Permutation (class size r) [r]) as HP.
    { apply NoDup_Permutation; [apply NoDup_filter, NoDup_seqZ|apply NoDup_singleton|]. intros q. rewrite elem_class, list_elem_of_singleton. split.
      - intros [Hq E]. by rewrite !Z.mod_small in E.
      - by intros ->. }
    by apply Permutation_singleton_r in HP as ->.
  - apply Forall_cons in Hsz as [Hg Hsz]. cbn in Hp. assert ((d * g | size)) as Hdg by (exists (foldr Z.mul 1 sizes); lia).
    pose proof (next_segs d g sg Hd Hg Hsg) as Hnext. pose proof Hsg as [Hs1 Hs2].
    assert (∀ q, q ∈ class d r → sg q = sg r ∧ Z.of_nat (length (v q)) = (sg r).2 * es) as Hcl.
    { intros q [Hq E]%elem_class. assert (sg q = sg r) as E2 by by apply Hs1. split; [done|]. rewrite <-E2. by apply Hv. }
    assert (class d r ≠ []) as Hne.
    { intros E. assert (r ∈ class d r) as Hin by by apply elem_class. rewrite E in Hin. by apply not_elem_of_nil in Hin. }
    rewrite <-(chunks_join g (sg r).2 ltac:(lia) (Hs2 r Hr) es (foldl1 op (v <$> class d r))).
    + f_equal. apply list_fmap_ext. intros k i Hi. apply list_elem_of_lookup_2, elem_of_seqZ in Hi.
      assert (0 ≤ rank_of d g r i < size) as Hrk by (apply rank_of_range; done || lia).
      rewrite IH; [|nia|done|lia|done|intros; by apply reduced_part_length|done].
      by apply total_part.
    + lia.
    + rewrite (foldl1_length es op Hop (Z.to_nat ((sg r).2 * es))); [|by destruct (class d r)|].
      * rewrite Z2Nat.id; [done|]. apply Z.mul_nonneg_nonneg; [by apply Hs2|lia].
      * apply Forall_fmap, Forall_forall. intros q Hq. apply Nat2Z.inj. cbv beta. unfold compose.
        rewrite Z2Nat.id by (apply Z.mul_nonneg_nonneg; [by apply Hs2|lia]). by apply Hcl.
Qed.

(* ------------------------------------------------------------------ *)
(** * The steps of the code *)

Section code.
Context (elements : Z) (Hel : 0 ≤ elements ≤ 2 ^ 60) (Hbytes : (elements + size) * es < 2 ^ 62).

Lemma bytes_small n : 0 ≤ n ≤ elements + size → u64 (n * es) = n * es.
Proof.
  intros Hn. apply wrap_small. unfold in_range. split; [apply Z.mul_nonneg_nonneg; lia|].
  assert (n * es ≤ (elements + size) * es) by (apply Z.mul_le_mono_nonneg_r; lia). lia.
Qed.

Section step.
Context (d g : Z) (sg : Z → Z * Z) (r : Z) (Hd : 0 < d) (Hg : 2 ≤ g) (Hdg : (d * g | size)) (Hr : 0 ≤ r < size).
Context (Hok : seg_ok elements size (sg r).1 (sg r).2).

Abbreviation G := (step_group r g d (sg r).1 (sg r).2).

Lemma group_chunk i : 0 ≤ i < g → chunk_of G i = part g sg r i ∧
  u64 ((part g sg r i).1 * es) = (part g sg r i).1 * es ∧ u64 ((part g sg r i).2 * es) = (part g sg r i).2 * es ∧
  u64 (u64 (i * chunkLength G) * es) = i * chunk_size g (sg r).2 * es.
Proof.
  intros Hi. destruct (dg_le size elements Hsize Hel d g Hd Hg Hdg) as (_ & _ & Hgs).
  pose proof (chunk_seg_ok elements size _ _ g i ltac:(lia) ltac:(lia) Hi Hok) as [H1 H2 _].
  assert (chunkLength G = chunk_size g (sg r).2) as Ec by by rewrite (step_group_spec size elements Hsize Hel d g _ _ Hd Hg Hdg Hok r Hr).
  split; [|split; [|split]].
  - unfold chunk_of. rewrite Ec. rewrite (step_group_spec size elements Hsize Hel d g _ _ Hd Hg Hdg Hok r Hr). cbn [bufferOffset bufferLength].
    by rewrite (chunk_at_spec size elements Hsize Hel d g _ _ Hd Hg Hdg Hok).
  - apply bytes_small. exact H1.
  - apply bytes_small. cbn [part snd]. lia.
  - rewrite Ec. destruct (sk_off _ _ _ _ Hok) as [Ho _]. pose proof (sk_len _ _ _ _ Hok) as Hl.
    pose proof (chunk_size_spec g (sg r).2 ltac:(lia) ltac:(lia)) as [Hc0 _].
    assert (0 ≤ i * chunk_size g (sg r).2) by (apply Z.mul_nonneg_nonneg; lia).
    rewrite (wrap_small 64 (i * _)) by (unfold in_range; lia). apply bytes_small. lia.
Qed.

Lemma group_own : myChunkOffset G = (next_seg d g sg r).1 ∧ myChunkLength G = (next_seg d g sg r).2 ∧
  u64 (myChunkOffset G * es) = (next_seg d g sg r).1 * es ∧ u64 (myChunkLength G * es) = (next_seg d g sg r).2 * es.
Proof.
  assert (0 ≤ member d g r < g) as Hm by (apply Z.mod_pos_bound; lia).
  destruct (group_chunk (member d g r) Hm) as (_ & E1 & E2 & _).
  rewrite (step_group_spec size elements Hsize Hel d g _ _ Hd Hg Hdg Hok r Hr). by split_and!.
Qed.

Lemma reduce_step_code k :
  bcube_reduce_step r slot es ins (out :: outs) out tmp op k G = reduce_step k d g sg r.
Proof.
  destruct group_own as (E1 & E2 & E3 & E4). unfold bcube_reduce_step, reduce_step. rewrite E3, E4.
  rewrite (peers_of_spec size elements Hsize Hel d g _ _ Hd Hg Hdg Hok r Hr). change (others (member d g r) g) with (idx d g r).
  unfold bs_posts, bs_waits, bs_final. rewrite !list_fmap_bind, <-!list_fmap_compose, <-!(assoc_L (++)). f_equal; [|f_equal; [|f_equal; f_equal]].
  - apply list_fmap_ext. intros j i Hi. apply list_elem_of_lookup_2, elem_others in Hi as [Hi _]. unfold compose. cbn [fst snd].
    destruct (group_chunk i Hi) as (_ & _ & _ & ->). done.
  - apply bind_ext_elem. intros i Hi. apply elem_others in Hi as [Hi _]. unfold compose. cbn [fst snd].
    destruct (group_chunk i Hi) as (-> & B1 & B2 & _). destruct (part g sg r i) as [o n] eqn:Ep. cbn [fst snd] in B1, B2. rewrite B1, B2.
    unfold bs_send, preg, ereg. rewrite Ep. cbn [fst snd]. f_equal. destruct k; [|done]. unfold prepare. by rewrite Ep.
  - by destruct k.
  - apply list_fmap_ext. intros j i Hi. apply list_elem_of_lookup_2, elem_others in Hi as [Hi _]. unfold compose. cbn [fst snd].
    destruct (group_chunk i Hi) as (_ & _ & _ & ->). rewrite E2. done.
Qed.

Lemma gather_step_code : bcube_gather_step r slot es (out :: outs) out G = gather_step d g sg r.
Proof.
  destruct group_own as (E1 & E2 & E3 & E4). unfold bcube_gather_step, gather_step. rewrite E3, E4.
  rewrite (peers_of_spec size elements Hsize Hel d g _ _ Hd Hg Hdg Hok r Hr). change (others (member d g r) g) with (idx d g r).
  unfold bg_posts, bg_waits, bg_final. rewrite !list_fmap_bind, <-!list_fmap_compose, <-!(assoc_L (++)). f_equal; [|do 2 f_equal].
  - apply list_fmap_ext. intros j i Hi. apply list_elem_of_lookup_2, elem_others in Hi as [Hi _]. unfold compose. cbn [fst snd].
    destruct (group_chunk i Hi) as (-> & B1 & B2 & _). unfold bg_recv, preg, ereg. destruct (part g sg r i) as [o n]. cbn [fst snd] in *. by rewrite B1, B2.
  - apply bind_ext_elem. intros i Hi. apply elem_others in Hi as [Hi _]. unfold compose. cbn [fst snd].
    destruct (group_chunk i Hi) as (-> & B1 & B2 & _). destruct (part g sg r i) as [o n]. cbn [fst snd] in *. by rewrite B1, B2.
Qed.
End step.

(** The lists of steps, from a step on; [P] is the group before. *)
Definition middle (G : option Group) : list Act :=
  match G with
  | None => [Stop None]
  | Some G => broadcastOutputs (out :: outs) (u64 (myChunkOffset G * es)) (u64 (myChunkLength G * es))
  end.

Lemma nest_code sizes : ∀ k d sg r P, 0 < d → Forall (λ g, 2 ≤ g) sizes → (d * foldr Z.mul 1 sizes | size) → 0 ≤ r < size →
  seg_ok elements size (sg r).1 (sg r).2 → (myChunkOffset P, myChunkLength P) = sg r →
  let groups := groups_of r sizes d (sg r).1 (sg r).2 in
  mjoin (imap (λ i, bcube_reduce_step r slot es ins (out :: outs) out tmp op (k + i)) groups) ++ middle (last (P :: groups)) ++
    (reverse groups ≫= bcube_gather_step r slot es (out :: outs) out) = nest k sizes d sg r.
Proof.
  induction sizes as [|g sizes IH]; intros k d sg r P Hd Hsz Hdv Hr Hok HP; cbn [groups_of nest].
  - cbn [imap mjoin list_join last reverse middle app mbind list_bind rev_append]. rewrite app_nil_r.
    assert (myChunkOffset P = (sg r).1 ∧ myChunkLength P = (sg r).2) as [-> ->] by (by rewrite <-HP).
    destruct Hok as [H1 H2 _]. by rewrite !bytes_small by lia.
  - apply Forall_cons in Hsz as [Hg Hsz]. apply sizes_divide in Hdv as [Hdg Hdv].
    destruct (dg_le size elements Hsize Hel d g Hd Hg Hdg) as (Hdgs & _ & Hgs).
    destruct (group_own d g sg r Hd Hg Hdg Hr Hok) as (E1 & E2 & _). set (G := step_group r g d (sg r).1 (sg r).2) in *.
    assert (0 ≤ member d g r < g) as Hm by (apply Z.mod_pos_bound; lia).
    rewrite (wrap_small 64 (d * g)) by (unfold in_range; lia). rewrite E1, E2.
    specialize (IH (S k) (d * g) (next_seg d g sg) r G ltac:(nia) Hsz Hdv Hr).
    rewrite <-IH; [|apply chunk_seg_ok; [lia|lia|done|done]|by rewrite E1, E2, <-surjective_pairing].
    set (gs := groups_of r sizes (d * g) (next_seg d g sg r).1 (next_seg d g sg r).2).
    rewrite last_cons_cons. rewrite imap_cons, Nat.add_0_r. cbn [mjoin list_join].
    change (step_group r g d (sg r).1 (sg r).2) with G. rewrite reverse_cons, bind_app. cbn [mbind list_bind]. rewrite app_nil_r.
    rewrite <-(reduce_step_code d g sg r Hd Hg Hdg Hr Hok k), <-(gather_step_code d g sg r Hd Hg Hdg Hr Hok). fold G.
    rewrite <-!(assoc_L (++)). f_equal. f_equal. f_equal. apply imap_ext. intros i x _. unfold compose. f_equal. lia.
Qed.
End code.
End bcube.
