(* ===== verification/Allreduce.v ===== *)
(** [allreduce] of [src/gloo/allreduce.cc]: its checks, the choice of the
    algorithm, and what the ring algorithm computes. *)
From Stdlib Require Import FunctionalExtensionality.
From S2P Require Import Prelude Slots MathOps Net NetRun Groups Rounds Segments Reducing Pipeline RingAllreduce Reductions Bulk Bcube BcubeRun.

(* ------------------------------------------------------------------ *)
(** * The program *)

(** [AllreduceOptionsImpl::Algorithm] *)
Definition UNSPECIFIED : Z := 0.
Definition RING : Z := 1.
Definition BCUBE : Z := 2.

Definition kMaxSegmentSize : Z := 1024 * 1024.

(** [allreduce(opts)]; [tmp] is the scratch buffer that the algorithm makes. *)
Definition allreduce (rank size tag algorithm elementSize elements maxSegmentSize : Z) (ins outs : list Z) (tmp : Z)
    (reduce : option RedOp) (bsize : Z → Z) (getPair : Z → bool) : list Act :=
  if elements =? 0 then [] else
  check (0 <? Z.of_nat (length outs)) ++
  check (0 <? elementSize) ++
  match reduce with
  | None => [Stop (Some EnforceNotMet)]
  | Some op =>
      let totalBytes := u64 (elements * elementSize) in
      (outs ≫= (λ b, check (bsize b =? totalBytes))) ++
      (ins ≫= (λ b, check (bsize b =? totalBytes))) ++
      if size =? 1 then reduceInputs ins outs elementSize op 0 totalBytes ++ broadcastOutputs outs 0 totalBytes
      else if (algorithm =? UNSPECIFIED) || (algorithm =? RING)
      then ring rank size tag elementSize elements maxSegmentSize ins outs tmp op getPair
      else if algorithm =? BCUBE then bcube rank size tag elementSize elements ins outs tmp op
      else [Stop (Some EnforceNotMet)]
  end.

(* ------------------------------------------------------------------ *)
(** * What it is called with *)

(** All processes call it with buffers of the same sizes, of their own, and
    bounded so that no offset leaves 63 bits. *)
Record ready (size elementSize elements maxSegmentSize : Z) (ins outs : list Z) (tmp : Z) (bsize : Z → Z → Z) : Prop := {
  rd_size : 1 ≤ size < 2 ^ 30;
  rd_elementSize : 0 < elementSize ∧ size * elementSize ≤ 2 ^ 57;
  rd_elements : 0 < elements ∧ elements * elementSize ≤ 2 ^ 58;
  rd_segment : 0 ≤ maxSegmentSize < 2 ^ 62;
  rd_outs : outs ≠ [];
  rd_apart : NoDup (ins ++ outs);
  rd_tmp : tmp ∉ ins ++ outs;
  rd_bsize : ∀ r b, 0 ≤ r < size → b ∈ ins ++ outs → bsize r b = elements * elementSize;
}.

(** The inputs of all processes, reduced in the order of the ranks. *)
Definition all_inputs (size totalBytes : Z) (ins outs : list Z) (mems : Z → Mem) : list (list Z) :=
  ranks size ≫= (λ q, (λ b, read (mems q) (mkRegion b 0 totalBytes)) <$> inputs ins outs).
Definition reduced (op : RedOp) (size totalBytes : Z) (ins outs : list Z) (mems : Z → Mem) : list Z :=
  foldl1 op (all_inputs size totalBytes ins outs mems).

Section allreduce_ring.
Context (size tag es elements maxSegmentSize : Z) (ins outs : list Z) (tmp : Z) (op : RedOp).
Context (bsize : Z → Z → Z) (getPair : Z → Z → bool) (mems : Z → Mem).
Context (Hr : ready size es elements maxSegmentSize ins outs tmp bsize) (Hop : op_ok es op).
Context (Hpair : ∀ p q, 0 ≤ p < size → 0 ≤ q < size → p ≠ q → getPair p q = true).

Let T : Z := elements * es.
Let L : Layout := allreduce_layout size T es maxSegmentSize.
Let slot : Z := Slot_value (Slot_build kAllreduceSlotPrefix tag).

Lemma ready_bytes : u64 (elements * es) = T ∧ 0 < T ≤ 2 ^ 58 ∧ (es | T) ∧ 0 < es < 2 ^ 62.
Proof using Hr.
  clear Hop Hpair slot.
  destruct (rd_elements _ _ _ _ _ _ _ _ Hr) as [H1 H2]. destruct (rd_elementSize _ _ _ _ _ _ _ _ Hr) as [H3 H4].
  assert (0 < T) by (unfold T; nia). assert (es < 2 ^ 62).
  { pose proof (rd_size _ _ _ _ _ _ _ _ Hr). nia. }
  split; [apply wrap_small; unfold in_range, T in *; lia|]. split; [by unfold T|]. split; [by exists elements|lia].
Qed.

Lemma ready_layout : layout_ok size T es L ∧ 3 * (numSegments L * segmentBytes L) < 2 ^ 63.
Proof using Hr.
  clear Hop Hpair slot.
  destruct ready_bytes as (_ & HT & _ & Hes). pose proof (rd_size _ _ _ _ _ _ _ _ Hr) as Hs.
  pose proof (rd_segment _ _ _ _ _ _ _ _ Hr) as Hm. destruct (rd_elementSize _ _ _ _ _ _ _ _ Hr) as [_ He].
  split; [apply allreduce_layout_lemma; lia|].
  pose proof (allreduce_layout_bytes size T es maxSegmentSize ltac:(lia) ltac:(lia) ltac:(lia) ltac:(lia) ltac:(lia)) as H.
  cbv zeta in H. fold L in H. assert (es ≤ size * es) by nia. lia.
Qed.

(** The checks of [allreduce] pass. *)
Lemma allreduce_checked r algorithm : 0 ≤ r < size →
  allreduce r size tag algorithm es elements maxSegmentSize ins outs tmp (Some op) (bsize r) (getPair r) =
  if size =? 1 then reduceInputs ins outs es op 0 T ++ broadcastOutputs outs 0 T
  else if (algorithm =? UNSPECIFIED) || (algorithm =? RING)
  then ring r size tag es elements maxSegmentSize ins outs tmp op (getPair r)
  else if algorithm =? BCUBE then bcube r size tag es elements ins outs tmp op
  else [Stop (Some EnforceNotMet)].
Proof using Hr Hop.
  clear mems Hpair.
  intros Hrk. destruct ready_bytes as (HT & _ & _ & Hes). destruct (rd_elements _ _ _ _ _ _ _ _ Hr) as [He _].
  unfold allreduce. rewrite (proj2 (Z.eqb_neq _ _)) by lia. rewrite HT.
  assert (∀ l, (∀ b, b ∈ l → b ∈ ins ++ outs) → (l ≫= (λ b, check (bsize r b =? T))) = []) as Hall.
  { intros l Hl. induction l as [|b l IH]; [done|]. cbn [mbind list_bind].
    rewrite (rd_bsize _ _ _ _ _ _ _ _ Hr r b Hrk) by (apply Hl; set_solver). fold T. rewrite Z.eqb_refl. apply IH. set_solver. }
  rewrite !Hall by set_solver. rewrite (proj2 (Z.ltb_lt 0 es)) by lia.
  destruct outs as [|out0 os] eqn:Eo; [by destruct (rd_outs _ _ _ _ _ _ _ _ Hr)|]. done.
Qed.

Lemma ring_phases r out0 outs' : outs = out0 :: outs' → 2 ≤ size → 0 ≤ r < size →
  ring r size tag es elements maxSegmentSize ins outs tmp op (getPair r) = phases size T es slot L ins outs' out0 tmp op r.
Proof.
  intros Eo Hs Hrk. destruct ready_bytes as (HT & HT2 & _ & Hes). destruct ready_layout as [HL Hb]. unfold ring.
  rewrite HT. fold L slot. destruct (next_prev_mod size r) as [E1 E2]. rewrite E1, E2.
  destruct (neighbours_neq size r Hs) as [Hn1 Hn2].
  pose proof (Z.mod_pos_bound (r + 1) size ltac:(lia)). pose proof (Z.mod_pos_bound (r - 1) size ltac:(lia)).
  rewrite !Hpair by (lia || congruence). rewrite (lo_ranks _ _ _ _ HL) at 1 2. rewrite (Z.mul_comm size (numSegmentsPerRank L)), Z.mod_mul by lia.
  rewrite (proj2 (Z.leb_le _ _)) by (pose proof (lo_two _ _ _ _ HL); nia). rewrite Eo.
  unfold phases. rewrite <-(rs_loop size T es slot L HL Hs ltac:(lia) Hb ins outs' out0 tmp op r Hrk).
  by rewrite <-(ag_loop size T es slot L HL Hs ltac:(lia) Hb outs' out0 r Hrk).
Qed.

(* ------------------------------------------------------------------ *)
(** * The ring reduces the inputs of all processes *)

Abbreviation lsum outs' out0 := (local_sum T L ins outs' out0 op mems).

Lemma local_sum_slices outs' out0 q g : outs = out0 :: outs' → 0 ≤ g < numSegments L → 0 < slen T L g →
  lsum outs' out0 q g =
  foldl1 op (slice (g * segmentBytes L) (slen T L g) <$> ((λ b, read (mems q) (mkRegion b 0 T)) <$> inputs ins outs)).
Proof.
  intros Eo Hg Hs. unfold local_sum, local_value. rewrite <-Eo. f_equal. rewrite <-list_fmap_compose. apply list_fmap_ext. intros i b _.
  unfold compose. rewrite read_slice; [done|..].
  - destruct ready_layout as [HL _]. pose proof (lo_pos _ _ _ _ HL). nia.
  - lia.
  - unfold slen. lia.
Qed.

Lemma inputs_ne : inputs ins outs ≠ [].
Proof. unfold inputs. destruct ins; [apply (rd_outs _ _ _ _ _ _ _ _ Hr)|done]. Qed.

Lemma slice_parts g : 0 ≤ g < numSegments L → 0 < slen T L g →
  0 ≤ g * segmentBytes L ∧ 0 ≤ slen T L g ∧ g * segmentBytes L + slen T L g ≤ T ∧
  (es | g * segmentBytes L) ∧ (es | slen T L g).
Proof.
  intros Hg Hs. destruct ready_bytes as (_ & HT & HTe & Hes). destruct ready_layout as [HL _].
  pose proof (lo_pos _ _ _ _ HL). split_and!; [nia|lia|unfold slen; lia|apply Z.divide_mul_r, HL|].
  pose proof (slen_elems size T es L HL ltac:(lia) HTe g Hs) as He. exists (slen T L g / es). lia.
Qed.

Lemma full_reduced outs' out0 g : outs = out0 :: outs' → 2 ≤ size → op_ac op → 0 ≤ g < numSegments L → 0 < slen T L g →
  full size T L ins outs' out0 op mems g = slice (g * segmentBytes L) (slen T L g) (reduced op size T ins outs mems).
Proof.
  intros Eo Hs Hac Hg Hlen. destruct ready_bytes as (_ & HT & HTe & Hes). destruct ready_layout as [HL _].
  destruct (slice_parts g Hg Hlen) as (P1 & P2 & P3 & P4 & P5). set (n := Z.to_nat (slen T L g)).
  assert (0 ≤ g / numSegmentsPerRank L < size) as Hc.
  { pose proof (lo_two _ _ _ _ HL). pose proof (lo_ranks _ _ _ _ HL). split; [apply Z.div_pos; lia|apply Z.div_lt_upper_bound; lia]. }
  unfold full, partial, hops. replace (g / numSegmentsPerRank L - 1 - g / numSegmentsPerRank L) with (size - 1 + -1 * size) by lia.
  rewrite Z.mod_add, Z.mod_small by lia. unfold ring_sum. rewrite (along_all size es op Hop _ n); [|..|done|done].
  2: { intros q. apply Nat2Z.inj. rewrite (local_sum_length T es L ins outs' out0 op Hop mems q g Hlen). lia. }
  set (read_all q := (λ b, read (mems q) (mkRegion b 0 T)) <$> inputs ins outs).
  assert (∀ q, Forall (λ l, Z.of_nat (length l) = T) (read_all q)) as Hread.
  { intros q. apply Forall_fmap, Forall_forall. intros b _. cbn. rewrite read_length; cbn; lia. }
  assert (∀ q, Forall (λ l, length l = n) (slice (g * segmentBytes L) (slen T L g) <$> read_all q)) as Hsl.
  { intros q. apply Forall_fmap. eapply Forall_impl; [apply Hread|]. intros l Hl. apply Nat2Z.inj. cbv beta in Hl |- *.
    rewrite slice_length by lia. lia. }
  assert (((λ q, lsum outs' out0 q g) <$> ranks size) =
    foldl1 op <$> ((λ q, slice (g * segmentBytes L) (slen T L g) <$> read_all q) <$> ranks size)) as ->.
  { rewrite <-list_fmap_compose. apply list_fmap_ext. intros i q _. by apply local_sum_slices. }
  rewrite (foldl1_concat es op Hop n Hac).
  - unfold reduced, all_inputs. fold read_all. rewrite (foldl1_slice es op Hop T); [|done..|].
    2: { apply Forall_bind, Forall_forall. intros q _. apply Hread. }
    f_equal. generalize (ranks size). intros l. induction l as [|q l IH]; [done|].
    cbn [fmap list_fmap concat mbind list_bind]. rewrite IH. symmetry. apply fmap_app.
  - apply Forall_fmap, Forall_forall. intros q _. split; [|apply Hsl]. unfold read_all. destruct (inputs ins outs) eqn:Ei; [|done].
    by destruct inputs_ne.
Qed.

(* ------------------------------------------------------------------ *)
(** * What the collective computes *)

Lemma outs_cons : ∃ out0 outs', outs = out0 :: outs'.
Proof using Hr.
  clear mems Hpair Hop. destruct outs as [|out0 outs']; [by destruct (rd_outs _ _ _ _ _ _ _ _ Hr)|by exists out0, outs']. Qed.

Definition allreduce_prog (algorithm r : Z) : list Act :=
  allreduce r size tag algorithm es elements maxSegmentSize ins outs tmp (Some op) (bsize r) (getPair r).

(** Segment by segment, with [D g] the content of segment [g]. *)
Lemma ring_segments algorithm : 2 ≤ size → algorithm = UNSPECIFIED ∨ algorithm = RING → ∃ D : Z → list Z,
  (op_ac op → ∀ g, 0 ≤ g < numSegments L → 0 < slen T L g →
     D g = slice (g * segmentBytes L) (slen T L g) (reduced op size T ins outs mems)) ∧
  computes (group size (allreduce_prog algorithm)) mems
    (λ mems', ∀ r g b, 0 ≤ r < size → 0 ≤ g < numSegments L → 0 < slen T L g → b ∈ outs →
       slice (g * segmentBytes L) (slen T L g) (read (mems' r) (mkRegion b 0 T)) = D g).
Proof.
  intros Hs Ha. destruct ready_bytes as (_ & HT & HTe & Hes). destruct ready_layout as [HL Hb].
  destruct outs_cons as (out0 & outs' & Eo).
  exists (full size T L ins outs' out0 op mems). split; [by intros; apply full_reduced|].
  rewrite (group_ext size _ (phases size T es slot L ins outs' out0 tmp op)).
  - eapply computes_weaken; [apply (phases_compute size T es slot L HL Hs ltac:(lia) ltac:(lia) HTe Hb ins outs' out0 tmp op Hop mems)|].
    + rewrite <-Eo. apply Hr.
    + rewrite <-Eo. apply Hr.
    + intros m Hm r g b Hrk Hg Hlen Hin. destruct (slice_parts g Hg Hlen) as (P1 & P2 & P3 & _).
      rewrite read_slice by done. apply Hm; [done|done|done|]. by rewrite <-Eo.
  - intros r Hrk. unfold allreduce_prog. rewrite allreduce_checked by done. rewrite (proj2 (Z.eqb_neq _ _)) by lia.
    assert ((algorithm =? UNSPECIFIED) || (algorithm =? RING) = true) as -> by by destruct Ha as [->| ->].
    by apply ring_phases.
Qed.

(** A single process. *)
Lemma single_computes algorithm : size = 1 →
  computes (group size (allreduce_prog algorithm)) mems
    (λ mems', ∀ r b, 0 ≤ r < size → b ∈ outs → read (mems' r) (mkRegion b 0 T) = reduced op size T ins outs mems).
Proof using Hr Hop.
  clear Hpair.
  intros Hs. destruct ready_bytes as (_ & HT & HTe & Hes).
  destruct outs_cons as (out0 & outs' & Eo).
  pose proof (rd_apart _ _ _ _ _ _ _ _ Hr) as Hnd. rewrite Eo in Hnd.
  assert (T / es * es = T) as HTd by (unfold T; by rewrite Z.div_mul by lia).
  set (acts := reduceInputs ins (out0 :: outs') es op 0 T ++ broadcastOutputs (out0 :: outs') 0 T).
  assert (Forall is_compute acts) as Hc.
  { apply Forall_app. split; [apply reduceInputs_computes|apply broadcastOutputs_computes]. }
  rewrite (group_ext size _ (λ _, acts)).
  2: { intros r Hrk. unfold allreduce_prog. rewrite allreduce_checked by done. by rewrite Hs, Eo. }
  eapply computes_weaken; [by apply only_computes|].
  intros m Hm r b Hrk Hin. rewrite Hm by done. unfold acts. rewrite mem_after_app.
  destruct (reduceInputs_effect es op Hop 0 T ltac:(lia) HTd ins out0 outs' (mems r) Hnd) as [E1 _].
  assert (out0 ∉ outs') as Ho by (apply NoDup_app in Hnd as (_ & _ & Hno); by apply NoDup_cons in Hno as [? _]).
  destruct (broadcastOutputs_effect 0 T ltac:(lia) out0 outs' (mem_after (mems r) (reduceInputs ins (out0 :: outs') es op 0 T)) Ho) as [E2 E3].
  assert (reduced op size T ins outs mems = local_value ins (out0 :: outs') op (mems r) 0 T) as ->.
  { unfold reduced, all_inputs, local_value. rewrite Hs, Eo. assert (r = 0) as -> by lia.
    change (ranks 1) with [0]. cbn [mbind list_bind]. by rewrite app_nil_r. }
  rewrite <-E1. rewrite Eo in Hin. apply elem_of_cons in Hin as [->|Hin]; [|by apply E2]. apply E3. intros b Hb. apply apart_buf. cbn. congruence.
Qed.
(* ------------------------------------------------------------------ *)
(** * The bcube algorithm *)

Lemma bcube_segs : segs_ok size 1 (λ _, (0, elements)).
Proof. split; [done|]. intros r _. cbn. pose proof (rd_elements _ _ _ _ _ _ _ _ Hr). lia. Qed.

Lemma bcube_bytes : (elements + size) * es < 2 ^ 62 ∧ 0 ≤ elements ≤ 2 ^ 60.
Proof.
  destruct (rd_elements _ _ _ _ _ _ _ _ Hr) as [H1 H2]. destruct (rd_elementSize _ _ _ _ _ _ _ _ Hr) as [H3 H4].
  split; [lia|nia].
Qed.

Lemma bcube_program r out0 outs' sizes : outs = out0 :: outs' → 2 ≤ size → 0 ≤ r < size →
  group_sizes 64 size 2 = Some sizes → foldr Z.mul 1 sizes = size → Forall (λ g, 2 ≤ g) sizes →
  bcube r size tag es elements ins outs tmp op = nest es slot ins outs' out0 tmp op 0 sizes 1 (λ _, (0, elements)) r.
Proof using Hr Hop.
  clear mems Hpair.
  intros Eo Hs Hrk Hg Hp Hf. pose proof (rd_size _ _ _ _ _ _ _ _ Hr) as Hsz0. assert (1 ≤ size < 2 ^ 31) as Hsz by lia. clear Hsz0. destruct bcube_bytes as [Hb He].
  destruct ready_bytes as (_ & _ & _ & Hes). destruct (rd_elements _ _ _ _ _ _ _ _ Hr) as [He0 _].
  unfold bcube, computeGroupSizePerStep. rewrite Hg, Eo. cbn [enforce Z.ltb Z.compare Pos.compare Pos.compare_cont mbind outcome_bind].
  fold slot. destruct sizes as [|g sizes]; [cbn in Hp; lia|].
  rewrite <-(nest_code size es slot ins outs' out0 tmp op Hsz ltac:(lia) elements He Hb (g :: sizes) 0 1 (λ _, (0, elements)) r
    (mkGroup 1 0 elements [] 0 0 elements)); [|lia|done|rewrite Z.mul_1_l, Hp; by exists 1; lia|done| |done].
  - cbn [fst snd groups_of]. rewrite last_cons_cons. done.
  - split; cbn [fst snd]; lia.
Qed.

(** Every output of every process ends with the same value. *)
Lemma bcube_computes : 2 ≤ size → ∃ D : list Z,
  (op_ac op → D = reduced op size T ins outs mems) ∧
  computes (group size (allreduce_prog BCUBE)) mems
    (λ mems', ∀ r b, 0 ≤ r < size → b ∈ outs → read (mems' r) (mkRegion b 0 T) = D).
Proof using Hr Hop.
  clear Hpair.
  intros Hs. pose proof (rd_size _ _ _ _ _ _ _ _ Hr) as Hsz0. assert (1 ≤ size < 2 ^ 31) as Hsz by lia. clear Hsz0. destruct ready_bytes as (_ & HT & HTe & Hes). destruct outs_cons as (out0 & outs' & Eo).
  destruct (group_sizes_spec 64 size 2 ltac:(lia) ltac:(lia)) as (sizes & Hg & Hp & Hf).
  pose proof (rd_apart _ _ _ _ _ _ _ _ Hr) as Hnd. pose proof (rd_tmp _ _ _ _ _ _ _ _ Hr) as Ht. rewrite Eo in Hnd, Ht.
  set (sg := λ _ : Z, (0, elements)). set (v := λ r, local_value ins (out0 :: outs') op (mems r) 0 T).
  assert (has_value size es ins outs' out0 op 0 sg v mems) as Hv by done.
  assert (∀ r, 0 ≤ r < size → Z.of_nat (length (v r)) = (sg r).2 * es) as Hl.
  { intros r Hrk. eapply has_value_length; [|exact Hop|exact Hrk| |exact Hv]; [lia|]. destruct bcube_segs as [_ H]. by apply (H r). }
  assert (1 * foldr Z.mul 1 sizes = size) as Hp1 by lia.
  exists (total es op sizes 1 sg v 0). split.
  - intros Hac. rewrite (total_reduces size es ins outs' out0 tmp op Hsz ltac:(lia) Hop Hnd Ht sizes 1 sg v 0 Hac) by (done || lia || apply bcube_segs).
    assert (class size 1 0 = ranks size) as ->.
    { unfold class. generalize (ranks size). intros l. induction l as [|q l IH]; [done|]. rewrite filter_cons.
      rewrite decide_True by by rewrite !Z.mod_1_r. by rewrite IH. }
    unfold reduced, all_inputs, v, local_value. rewrite <-Eo.
    assert (∀ l, (λ q, foldl1 op ((λ b, read (mems q) (mkRegion b 0 T)) <$> inputs ins outs)) <$> l =
      foldl1 op <$> ((λ q, (λ b, read (mems q) (mkRegion b 0 T)) <$> inputs ins outs) <$> l)) as -> by (intros l; by rewrite <-list_fmap_compose).
    rewrite (foldl1_concat es op Hop (Z.to_nat T) Hac).
    + f_equal. generalize (ranks size). intros l. induction l as [|q l IH]; [done|]. cbn [fmap list_fmap concat mbind list_bind]. by rewrite IH.
    + apply Forall_fmap, Forall_forall. intros q _. split; [pose proof inputs_ne; by destruct (inputs ins outs)|].
      apply Forall_fmap, Forall_forall. intros b _. apply Nat2Z.inj. cbv beta. unfold compose. rewrite read_length; cbn; lia.
  - rewrite (group_ext size _ (nest es slot ins outs' out0 tmp op 0 sizes 1 sg)).
    2: { intros r Hrk. unfold allreduce_prog. rewrite allreduce_checked by done. rewrite (proj2 (Z.eqb_neq size 1)) by lia. by apply bcube_program. }
    destruct (nest_lead size es slot ins outs' out0 tmp op Hsz ltac:(lia) Hop Hnd Ht sizes 0 1 sg v mems) as (M & HM & HD);
      [lia|done|by exists 1; lia|apply bcube_segs|intros _ ->; cbn in Hp; lia|done|].
    eapply computes_weaken; [apply (leads_computes size _ mems M)|].
    + intros r Hrk. rewrite <-(app_nil_r (nest _ _ _ _ _ _ _ _ _ _ _ _)).
      eapply (nest_clean size es slot ins outs' out0 tmp op); [done|lia|done|done|done|lia|done|exists 1; lia|apply bcube_segs|done|apply rested0|done].
    + specialize (HM (λ _, [])). assert ((λ r, nest es slot ins outs' out0 tmp op 0 sizes 1 sg r ++ []) = nest es slot ins outs' out0 tmp op 0 sizes 1 sg) as E.
      { extensionality r. apply app_nil_r. }
      rewrite <-E. exact HM.
    + intros m Hm r b Hrk Hin. rewrite Hm by done. rewrite Eo in Hin. etransitivity; [apply (HD r b Hrk Hin)|].
      apply (total_agree size es op); [lia|done|done|done|lia|by rewrite !Z.mod_1_r].
Qed.
End allreduce_ring.

Lemma reduced_length es op size T ins outs mems : op_ok es op → 1 ≤ size → 0 ≤ T → inputs ins outs ≠ [] →
  Z.of_nat (length (reduced op size T ins outs mems)) = T.
Proof.
  intros Hop Hs HT Hne. unfold reduced. rewrite (foldl1_length es op Hop (Z.to_nat T)); [lia|..].
  - unfold all_inputs, ranks. rewrite seqZ_cons by lia. cbn [mbind list_bind]. by destruct (inputs ins outs).
  - apply Forall_bind, Forall_forall. intros q _. apply Forall_fmap, Forall_forall. intros b _. apply Nat2Z.inj.
    cbv beta. unfold compose. rewrite read_whole; lia.
Qed.

Lemma demo_ready size : 1 ≤ size ≤ 100 → ready size 4 5 kMaxSegmentSize [1; 2] [3; 4] 9 (λ _ _, 20).
Proof.
  intros Hs. split; [lia|lia|lia|unfold kMaxSegmentSize; lia|done| |set_solver|done].
  repeat (apply NoDup_cons; split; [set_solver|]). constructor.
Qed.

(** C13: the ring allreduce. When all processes call [allreduce] with buffers of
    the same sizes, every execution ends, and every output buffer of every
    process holds the reduction of the inputs of all processes; the reduction
    works element by element, and is associative and commutative. The counters
    of its loops count without bound, see [ring]. *)
Theorem allreduce_ring_correct size tag algorithm es elements maxSegmentSize ins outs tmp op bsize getPair mems :
  ready size es elements maxSegmentSize ins outs tmp bsize → op_ok es op → op_ac op →
  (∀ p q, 0 ≤ p < size → 0 ≤ q < size → p ≠ q → getPair p q = true) →
  algorithm = UNSPECIFIED ∨ algorithm = RING →
  computes (group size (λ r,
      allreduce r size tag algorithm es elements maxSegmentSize ins outs tmp (Some op) (bsize r) (getPair r))) mems
    (λ mems', ∀ r b, 0 ≤ r < size → b ∈ outs →
       read (mems' r) (mkRegion b 0 (elements * es)) = reduced op size (elements * es) ins outs mems).
Proof.
  intros Hr Hop Hac Hpair Ha. pose proof (rd_size _ _ _ _ _ _ _ _ Hr) as Hs.
  destruct (decide (size = 1)) as [H1|H1]; [by eapply single_computes|].
  destruct (ready_bytes size es elements maxSegmentSize ins outs tmp bsize Hr) as (_ & HT & _).
  destruct (ready_layout size es elements maxSegmentSize ins outs tmp bsize Hr) as [HL _].
  destruct (ring_segments size tag es elements maxSegmentSize ins outs tmp op bsize getPair mems Hr Hop Hpair algorithm ltac:(lia) Ha)
    as (D & HD & HC).
  eapply computes_weaken; [exact HC|]. intros m Hm r b Hrk Hin.
  apply (slices_eq _ (elements * es) _ _ (lo_pos _ _ _ _ HL)); [apply read_whole; lia|..].
  { apply (reduced_length es); [done|lia|lia|by eapply inputs_ne]. }
  intros g Hg Hlen. assert (g < numSegments (allreduce_layout size (elements * es) es maxSegmentSize)) as Hgn.
  { pose proof (lo_cover _ _ _ _ HL). pose proof (lo_pos _ _ _ _ HL). nia. }
  etransitivity; [by apply Hm|]. by apply HD.
Qed.

Lemma allreduce_ring_correct_witness :
  computes (group 3 (λ r, allreduce r 3 7 RING 4 5 kMaxSegmentSize [1; 2] [3; 4] 9 (Some (sum 4)) (λ _, 20) (λ _, true))) demo_mems
    (λ mems', ∀ r b, 0 ≤ r < 3 → b ∈ [3; 4] → read (mems' r) (mkRegion b 0 (5 * 4)) = reduced (sum 4) 3 (5 * 4) [1; 2] [3; 4] demo_mems).
Proof.
  apply (allreduce_ring_correct 3 7 RING 4 5 kMaxSegmentSize [1; 2] [3; 4] 9 (sum 4) (λ _ _, 20) (λ _ _, true) demo_mems (demo_ready 3 ltac:(lia)));
    [apply (sum_ok 4); lia|apply (sum_ok 4); lia|done|by right].
Defined.

(** C14: the bcube allreduce. When all processes call [allreduce] with the
    hypercube algorithm and buffers of the same sizes, for any number of
    processes, every execution ends with the reduction of the inputs of all
    processes in every output buffer of every process. *)
Theorem allreduce_bcube_correct size tag es elements maxSegmentSize ins outs tmp op bsize getPair mems :
  ready size es elements maxSegmentSize ins outs tmp bsize → op_ok es op → op_ac op →
  computes (group size (λ r,
      allreduce r size tag BCUBE es elements maxSegmentSize ins outs tmp (Some op) (bsize r) (getPair r))) mems
    (λ mems', ∀ r b, 0 ≤ r < size → b ∈ outs →
       read (mems' r) (mkRegion b 0 (elements * es)) = reduced op size (elements * es) ins outs mems).
Proof.
  intros Hr Hop Hac. pose proof (rd_size _ _ _ _ _ _ _ _ Hr) as Hs.
  destruct (decide (size = 1)) as [H1|H1]; [by eapply single_computes|].
  destruct (bcube_computes size tag es elements maxSegmentSize ins outs tmp op bsize getPair mems Hr Hop ltac:(lia)) as (D & HD & HC).
  rewrite <-(HD Hac). exact HC.
Qed.

Lemma allreduce_bcube_correct_witness :
  computes (group 6 (λ r, allreduce r 6 7 BCUBE 4 5 kMaxSegmentSize [1; 2] [3; 4] 9 (Some (max 4)) (λ _, 20) (λ _, false))) demo_mems
    (λ mems', ∀ r b, 0 ≤ r < 6 → b ∈ [3; 4] → read (mems' r) (mkRegion b 0 (5 * 4)) = reduced (max 4) 6 (5 * 4) [1; 2] [3; 4] demo_mems).
Proof.
  apply (allreduce_bcube_correct 6 7 4 5 kMaxSegmentSize [1; 2] [3; 4] 9 (max 4) (λ _ _, 20) (λ _ _, false) demo_mems (demo_ready 6 ltac:(lia)));
    apply (max_ok 4); lia.
Defined.

(** C15: the processes of an allreduce agree, with both algorithms. Whatever the reduction does to
    elements, as with rounding sums of floating point numbers, every execution
    ends with the same bytes in all output buffers of all processes. *)
Theorem allreduce_agrees size tag algorithm es elements maxSegmentSize ins outs tmp op bsize getPair mems :
  ready size es elements maxSegmentSize ins outs tmp bsize → op_ok es op →
  (∀ p q, 0 ≤ p < size → 0 ≤ q < size → p ≠ q → getPair p q = true) →
  algorithm = UNSPECIFIED ∨ algorithm = RING ∨ algorithm = BCUBE →
  computes (group size (λ r,
      allreduce r size tag algorithm es elements maxSegmentSize ins outs tmp (Some op) (bsize r) (getPair r))) mems
    (λ mems', ∀ r r' b b', 0 ≤ r < size → 0 ≤ r' < size → b ∈ outs → b' ∈ outs →
       read (mems' r) (mkRegion b 0 (elements * es)) = read (mems' r') (mkRegion b' 0 (elements * es))).
Proof.
  intros Hr Hop Hpair Ha. pose proof (rd_size _ _ _ _ _ _ _ _ Hr) as Hs.
  destruct (ready_bytes size es elements maxSegmentSize ins outs tmp bsize Hr) as (_ & HT & _).
  destruct (decide (size = 1)) as [H1|H1].
  { eapply computes_weaken; [by eapply single_computes|]. intros m Hm r r' b b' Hrk Hrk' Hin Hin'.
    etransitivity; [by apply Hm|]. symmetry. by apply Hm. }
  destruct (decide (algorithm = BCUBE)) as [->|Hb].
  { destruct (bcube_computes size tag es elements maxSegmentSize ins outs tmp op bsize getPair mems Hr Hop ltac:(lia)) as (D & _ & HC).
    eapply computes_weaken; [exact HC|]. intros m Hm r r' b b' Hrk Hrk' Hin Hin'. etransitivity; [by apply Hm|]. symmetry. by apply Hm. }
  assert (algorithm = UNSPECIFIED ∨ algorithm = RING) as Ha' by tauto.
  destruct (ready_layout size es elements maxSegmentSize ins outs tmp bsize Hr) as [HL _].
  destruct (ring_segments size tag es elements maxSegmentSize ins outs tmp op bsize getPair mems Hr Hop Hpair algorithm ltac:(lia) Ha')
    as (D & _ & HC).
  eapply computes_weaken; [exact HC|]. intros m Hm r r' b b' Hrk Hrk' Hin Hin'.
  apply (slices_eq _ (elements * es) _ _ (lo_pos _ _ _ _ HL)); [apply read_whole; lia..|].
  intros g Hg Hlen. assert (g < numSegments (allreduce_layout size (elements * es) es maxSegmentSize)) as Hgn.
  { pose proof (lo_cover _ _ _ _ HL). pose proof (lo_pos _ _ _ _ HL). nia. }
  etransitivity; [by apply Hm|]. symmetry. by apply Hm.
Qed.

Lemma allreduce_agrees_witness :
  computes (group 3 (λ r, allreduce r 3 7 UNSPECIFIED 4 5 kMaxSegmentSize [1; 2] [3; 4] 9 (Some (sum 4)) (λ _, 20) (λ _, true))) demo_mems
    (λ mems', ∀ r r' b b', 0 ≤ r < 3 → 0 ≤ r' < 3 → b ∈ [3; 4] → b' ∈ [3; 4] →
       read (mems' r) (mkRegion b 0 (5 * 4)) = read (mems' r') (mkRegion b' 0 (5 * 4))).
Proof.
  apply (allreduce_agrees 3 7 UNSPECIFIED 4 5 kMaxSegmentSize [1; 2] [3; 4] 9 (sum 4) (λ _ _, 20) (λ _ _, true) demo_mems (demo_ready 3 ltac:(lia)));
    [apply (sum_ok 4); lia|done|by left].
Defined.
