(* ===== verification/Reduce.v ===== *)
(** [reduce] of [src/gloo/reduce.cc]: a ring that reduces a chunk per process,
    and the chunks gathered to the root. *)
From Stdlib Require Import FunctionalExtensionality.
From S2P Require Import Prelude Slots MathOps Net NetRun Groups Rounds Bulk Segments Reducing Pipeline Reductions.

(* ------------------------------------------------------------------ *)
(** * The program *)

(** The loop of the ring. Its counter is an [int] in the code, here unbounded:
    from 2^31 segments on it would overflow. *)
Definition reduce_ring (rank slot elementSize totalBytes : Z) (L : Layout) (recvRank sendRank inb outb tmp : Z)
    (op : RedOp) : list Act :=
  let segmentOffset i := if Z.land i 1 =? 0 then 0 else segmentBytes L in
  let el b off len := elems elementSize b off len in
  seqZ 0 (numSegments L) ≫= (λ i,
    (if 2 <=? i then
       let '(sendOffset, sendLength) := computeOffsets L totalBytes rank 1 (i - 2) in
       let '(recvOffset, recvLength) := computeOffsets L totalBytes rank 2 (i - 2) in
       when_positive recvLength
         [WaitRecv tmp;
          reduce_act op (el outb recvOffset recvLength) (el inb recvOffset recvLength) (el tmp (segmentOffset i) recvLength)] ++
       when_positive sendLength [WaitSend (if i - 2 <? numSegmentsPerRank L then inb else outb)]
     else []) ++
    (if i <? numSegments L - 2 then
       let '(sendOffset, sendLength) := computeOffsets L totalBytes rank 1 i in
       let '(recvOffset, recvLength) := computeOffsets L totalBytes rank 2 i in
       when_positive recvLength [Recv (mkXfer recvRank slot (mkRegion tmp (segmentOffset i) recvLength))] ++
       when_positive sendLength
         [Send (mkXfer sendRank slot (mkRegion (if i <? numSegmentsPerRank L then inb else outb) sendOffset sendLength))]
     else [])).

(** The gathering of the chunks at the root. *)
Definition reduce_gather (rank size root slot totalBytes : Z) (L : Layout) (outb : Z) : list Act :=
  let chunkBytes := u64 (numSegmentsPerRank L * segmentBytes L) in
  let chunkOffset rank := u64 (u64 (rank * numSegmentsPerRank L) * segmentBytes L) in
  let chunkLength rank := Z.min (s64 chunkBytes) (s64 (s64 totalBytes - s64 (chunkOffset rank))) in
  if rank =? root then
    let posted := others rank size ≫= (λ rank,
      when_positive (chunkLength rank) [Recv (mkXfer rank slot (mkRegion outb (chunkOffset rank) (chunkLength rank)))]) in
    posted ++ replicate (length posted) (WaitRecv outb)
  else
    when_positive (chunkLength rank)
      [Send (mkXfer root slot (mkRegion outb (chunkOffset rank) (chunkLength rank))); WaitSend outb].

(** [reduce(opts)]; [tmp] is the scratch buffer. *)
Definition reduce (rank size root tag elementSize elements maxSegmentSize : Z) (inb outb : option Z) (tmp : Z)
    (fn : option RedOp) (bsize : Z → Z) (getPair : Z → bool) : list Act :=
  if elements =? 0 then [] else
  let slot := Slot_value (Slot_build kReduceSlotPrefix tag) in
  check (0 <? elementSize) ++
  check ((0 <=? root) && (root <? size)) ++
  match fn with
  | None => [Stop (Some EnforceNotMet)]
  | Some op =>
      let recvRank := (size + rank + 1) `mod` size in
      let sendRank := (size + rank - 1) `mod` size in
      check ((recvRank =? rank) || getPair recvRank) ++
      check ((sendRank =? rank) || getPair sendRank) ++
      deref (match inb with Some _ => inb | None => outb end) (λ inb,
        let totalBytes := u64 (elements * elementSize) in
        check (bsize inb =? totalBytes) ++
        deref outb (λ outb,
          check (bsize outb =? totalBytes) ++
          if size =? 1 then
            if inb =? outb then [] else [copy (mkRegion outb 0 totalBytes) (mkRegion inb 0 totalBytes)]
          else match reduce_layout size totalBytes elementSize maxSegmentSize with
          | None => [Stop None]
          | Some L =>
              check (numSegments L `mod` size =? 0) ++
              check (size * 2 <=? numSegments L) ++
              reduce_ring rank slot elementSize totalBytes L recvRank sendRank inb outb tmp op ++
              reduce_gather rank size root slot totalBytes L outb
          end))
  end.

(* ------------------------------------------------------------------ *)
(** * The ring *)

Section reduce.
Context (size T es slot root : Z) (L : Layout) (HL : layout_ok size T es L) (Hsize : 2 ≤ size) (HT : 0 < T < 2 ^ 62).
Context (Hes : 0 < es) (HTe : (es | T)) (Hb : 3 * (numSegments L * segmentBytes L) < 2 ^ 63) (Hroot : 0 ≤ root < size).
Context (inb out tmp : Z) (op : RedOp) (Hop : op_ok es op) (mems : Z → Mem) (Hti : tmp ≠ inb) (Hto : tmp ≠ out).

Abbreviation N := (numSegments L).
Abbreviation p := (numSegmentsPerRank L).
Abbreviation Sb := (segmentBytes L).
Abbreviation seg := (seg L).
Abbreviation slen := (slen T L).
Abbreviation sreg := (sreg T L).
Abbreviation turn := (turn L).
Abbreviation next := (ring_next size).
Abbreviation prev := (ring_prev size).

Let K : nat := Z.to_nat (N - 2).

Lemma red_facts : 4 ≤ N ∧ 2 ≤ p ∧ 2 * p ≤ N ∧ 0 < Sb ∧ N = size * p ∧ Z.of_nat K = N - 2.
Proof. destruct (layout_facts size T es L HL) as (H1 & H2 & H3 & H4 & H5); [lia|]. unfold K. repeat split; nia. Qed.

Definition red_input (r g : Z) : list Z := read (mems r) (sreg inb g).
Definition red_sum (n : Z) (r g : Z) : list Z := along size op (λ q, red_input q g) (Z.to_nat n) r.

Definition red_buf (i : nat) : Z := if Z.of_nat i <? p then inb else out.
Definition red_sx (i : nat) (r : Z) : Region := sreg (red_buf i) (seg 1 (Z.of_nat i) r).
Definition red_rx (i : nat) (r : Z) : Region := mkRegion tmp (half_of Sb i) (slen (seg 2 (Z.of_nat i) r)).
Definition red_qr (i : nat) (r : Z) : list Act :=
  let g := seg 2 (Z.of_nat i) r in
  let el b off := elems es b off (slen g) in
  [reduce_act op (el out (g * Sb)) (el inb (g * Sb)) (el tmp (half_of Sb i))].
Definition red_val (i : nat) (r : Z) : list Z := red_sum (Z.of_nat i / p) r (seg 1 (Z.of_nat i) r).

Abbreviation none := (λ (_ : nat) (_ : Z), @nil Act).
Let red_mem : nat → Z → Mem := pl_mem size slot K red_sx red_rx none none none red_qr mems red_val.
Definition red_prog (r : Z) : list Act := pl_prog size slot K red_sx red_rx none none none red_qr r.

Lemma red_computes i r : Forall is_compute (none i r) ∧ Forall is_compute (none i r) ∧
  Forall is_compute (none i r) ∧ Forall is_compute (red_qr i r).
Proof. split_and!; try done. by repeat constructor. Qed.

Lemma red_input_length r g : 0 < slen g → Z.of_nat (length (red_input r g)) = slen g.
Proof. intros Hg. unfold red_input. rewrite read_length; [done|]. cbn. lia. Qed.

Lemma red_sum_length n r g : 0 < slen g → Z.of_nat (length (red_sum n r g)) = slen g.
Proof.
  intros Hg. unfold red_sum. rewrite (along_length size es op Hop _ (Z.to_nat (slen g))); [lia|].
  intros q. apply Nat2Z.inj. rewrite red_input_length by done. lia.
Qed.

Lemma red_sum_step n r g : 0 ≤ n → red_sum (n + 1) r g = op (red_input r g) (red_sum n (next r) g).
Proof. intros Hn. unfold red_sum. replace (Z.to_nat (n + 1)) with (S (Z.to_nat n)) by lia. done. Qed.

Lemma sregs_apart b b' g g' : g ≠ g' → apart (sreg b g) (sreg b' g').
Proof.
  intros Hg. destruct (decide (b = b')) as [<-|]; [|by apply apart_buf]. by apply (sreg_apart size T es L HL ltac:(lia)).
Qed.

Lemma red_tmp_apart o n b g : b = inb ∨ b = out → apart (mkRegion tmp o n) (sreg b g).
Proof. intros Hbuf. apply apart_buf. cbn. destruct Hbuf; congruence. Qed.

(** Before round [i] the segments of the rounds up to [i - 2] are reduced in
    the output; the others are as they were in the input. *)
Definition red_holds (i r : Z) (m : Mem) : Prop := ∀ g, 0 ≤ g < N → 0 < slen g →
  (i ≤ turn r g + 1 ∨ inb ≠ out → read m (sreg inb g) = red_input r g) ∧
  (turn r g + 1 < i → read m (sreg out g) = red_sum (turn r g / p + 1) r g).
Definition red_inv (i : nat) (r : Z) : Prop :=
  red_holds (Z.of_nat i) r (red_mem i r) ∧
  match i with
  | O => True
  | S j => pl_recvs K red_rx j r = true → read (red_mem i r) (red_rx j r) = red_sum (Z.of_nat j / p) (next r) (seg 2 (Z.of_nat j) r)
  end.

Lemma red_holds_tmp i r m o n d : red_holds i r m → red_holds i r (write m (mkRegion tmp o n) d).
Proof.
  intros H g Hg Hs. destruct (H g Hg Hs) as [H1 H2].
  split; intros Ht; rewrite read_write by (apply red_tmp_apart; auto); auto.
Qed.

(** What is sent is reduced over the processes it has passed. *)
Lemma red_sent i r m : (i < K)%nat → 0 < rg_len (red_sx i r) → red_holds (Z.of_nat i) r m → read m (red_sx i r) = red_val i r.
Proof.
  intros Hi Hlen H. destruct red_facts as (HN & Hp2 & HpN & HS & E & HK).
  assert (0 ≤ seg 1 (Z.of_nat i) r < N) as Hg by (apply (seg_range size T es L HL); lia).
  destruct (H _ Hg Hlen) as [H1 H2]. pose proof (turn_seg1 size T es L HL ltac:(lia) r (Z.of_nat i) ltac:(lia)) as Ht.
  unfold red_val, red_sx, red_buf in *. destruct (Z.ltb_spec (Z.of_nat i) p) as [Hp|Hp].
  - rewrite decide_True in Ht by done. rewrite Z.div_small by lia. apply H1. left. lia.
  - rewrite decide_False in Ht by lia. etransitivity; [apply H2; lia|]. f_equal. rewrite Ht.
    replace (Z.of_nat i - p) with (Z.of_nat i + -1 * p) by lia. rewrite Z.div_add by lia. lia.
Qed.

(** The work on what a round brought. *)
Lemma red_work j r m : (j < K)%nat → let g := seg 2 (Z.of_nat j) r in
  0 < slen g → red_holds (Z.of_nat (S j)) r m → read m (red_rx j r) = red_sum (Z.of_nat j / p) (next r) g →
  let m' := mem_after m (red_qr j r) in
  red_holds (Z.of_nat (S (S j))) r m' ∧ ∀ reg, apart (sreg out g) reg → read m' reg = read m reg.
Proof.
  intros Hj g Hs H Ht. destruct red_facts as (HN & Hp2 & HpN & HS & E & HK).
  assert (0 ≤ g < N) as Hg by (apply (seg_range size T es L HL); lia).
  pose proof (turn_seg2 L r (Z.of_nat j) ltac:(lia)) as Htg. fold g in Htg. cbv zeta.
  assert (mem_after m (red_qr j r) = compute m (sreg out g) (λ l, match l with [x; y] => op x y | _ => [] end)
    [sreg inb g; red_rx j r]) as ->.
  { unfold red_qr, elems. fold g. rewrite (slen_elems size T es L HL Hes HTe g Hs). done. }
  assert (∀ reg, apart (sreg out g) reg → read (compute m (sreg out g) (λ l, match l with [x; y] => op x y | _ => [] end)
    [sreg inb g; red_rx j r]) reg = read m reg) as Hout by (intros; by apply read_compute).
  split; [|exact Hout]. intros g' Hg' Hs'. destruct (H g' Hg' Hs') as [H1 H2]. destruct (decide (g' = g)) as [->|Hne].
  - split.
    + intros Hor. rewrite Hout; [apply H1; left; lia|]. apply apart_buf. cbn. destruct Hor as [?|Hio]; [lia|congruence].
    + intros _. unfold compute. cbn [fmap list_fmap]. rewrite Ht, (proj1 (H g Hg Hs)) by (left; lia).
      rewrite read_write_same.
      * rewrite Htg. symmetry. apply red_sum_step. apply Z.div_pos; lia.
      * rewrite (op_length _ _ Hop); [by apply red_input_length|]. apply Nat2Z.inj. by rewrite red_input_length, red_sum_length.
  - assert (turn r g' ≠ Z.of_nat j) as Hnt by (intros Hj'; apply Hne, (turn_second size T es L HL); lia).
    split; intros Hd; rewrite Hout by (by apply sregs_apart, not_eq_sym).
    + apply H1. destruct Hd; [left; lia|by right].
    + apply H2. lia.
Qed.

Lemma red_rx_apart i r : apart (red_rx i r) (red_rx (S i) r).
Proof. apply halves_apart; unfold Segments.slen; lia. Qed.

Lemma red_inv_step i r : (i ≤ K)%nat → red_inv i r → red_inv (S i) r.
Proof.
  intros Hi [H0 Ht0]. pose proof (pl_mem_S size slot K red_sx red_rx none none none red_qr red_computes mems red_val i r) as Hm.
  fold red_mem in Hm. cbv zeta in Hm. cbn [mem_after] in Hm. set (m := red_mem i r) in *.
  assert ((if pl_sends K red_sx i r then m else m) = m) as E by by destruct (pl_sends K red_sx i r). rewrite E in Hm. clear E.
  set (m2 := if pl_recvs K red_rx i r then write m (red_rx i r) (red_val i (next r)) else m) in *.
  assert (red_holds (Z.of_nat i) r m2) as H2 by (unfold m2; destruct (pl_recvs K red_rx i r); [by apply red_holds_tmp|done]).
  assert (pl_recvs K red_rx i r = true → read m2 (red_rx i r) = red_sum (Z.of_nat i / p) (next r) (seg 2 (Z.of_nat i) r)) as HT2.
  { intros Er. unfold m2. rewrite Er. unfold pl_recvs in Er. apply andb_true_iff in Er as [_ Er%Z.ltb_lt]. cbn in Er.
    assert (seg 1 (Z.of_nat i) (next r) = seg 2 (Z.of_nat i) r) as Hnx by apply (seg_next size T es L HL ltac:(lia) 1).
    unfold red_val. rewrite Hnx. apply read_write_same. cbn. by rewrite red_sum_length. }
  destruct i as [|j].
  { split; [|by rewrite Hm]. rewrite Hm. intros g Hg Hs. destruct (H2 g Hg Hs) as [I1 I2].
    pose proof (turn_range size T es L HL ltac:(lia) r g). split; [intros; apply I1; left; lia|lia]. }
  assert (j < K)%nat as HjK by lia. set (g2 := seg 2 (Z.of_nat j) r).
  destruct (pl_recvs K red_rx j r) eqn:Er.
  - assert (0 < slen g2) as Hs2 by (unfold pl_recvs in Er; apply andb_true_iff in Er as [_ Er%Z.ltb_lt]; exact Er).
    assert (read m2 (red_rx j r) = red_sum (Z.of_nat j / p) (next r) g2) as Htm.
    { unfold m2. destruct (pl_recvs K red_rx (S j) r); [|by apply Ht0]. rewrite read_write; [by apply Ht0|]. apply apart_sym, red_rx_apart. }
    destruct (red_work j r m2 HjK Hs2 H2 Htm) as [H3 T3]. rewrite <-Hm in H3, T3. split; [exact H3|].
    intros Er2. rewrite T3; [by apply HT2|]. apply apart_sym, red_tmp_apart. by right.
  - rewrite <-Hm in H2. split; [|by rewrite Hm]. intros g Hg Hs. destruct (H2 g Hg Hs) as [I1 I2]. split.
    + intros Hor. apply I1. destruct Hor; [left; lia|by right].
    + intros Hd. destruct (decide (turn r g = Z.of_nat j)) as [Ht|Ht]; [|apply I2; lia].
      destruct red_facts as (HN & Hp2 & HpN & HS & E & HK).
      apply (turn_second size T es L HL) in Ht; [|lia..]. exfalso. unfold pl_recvs in Er.
      rewrite (proj2 (Nat.ltb_lt j K)) in Er by done. cbn in Er. apply Z.ltb_ge in Er. rewrite <-Ht in Er. lia.
Qed.

Lemma red_inv_all i r : (i ≤ S K)%nat → red_inv i r.
Proof.
  induction i as [|i IH]; intros Hi; [|apply red_inv_step; [lia|apply IH; lia]]. split; [|done].
  intros g Hg Hs. pose proof (turn_range size T es L HL ltac:(lia) r g). split; [done|lia].
Qed.

Lemma red_lead rest : leads size (λ r, red_prog r ++ rest r) mems rest (red_mem (S K)).
Proof.
  apply (pl_lead size slot K red_sx red_rx none none none red_qr ltac:(lia) red_computes mems red_val).
  - intros i r _ Hr. cbn. f_equal. rewrite <-(seg_next size T es L HL ltac:(lia) 1).
    change ((prev r + 1) `mod` size) with (next (prev r)). by rewrite (next_of_prev size) by (done || lia).
  - intros i r Hi _ Hlen. cbn [mem_after]. apply red_sent; [done|done|]. apply red_inv_all. lia.
  - intros i r Hi _ Hlen. by apply red_sum_length.
Qed.

Lemma red_fifo r rest : fifo [] [] rest → fifo [] [] (red_prog r ++ rest).
Proof.
  destruct red_facts as (HN & Hp2 & HpN & HS & E & HK).
  assert (∀ i, red_buf i = inb ∨ red_buf i = out) as Hbuf by (intros i; unfold red_buf; case_match; auto).
  assert (∀ i j r, (i < K)%nat → (i ≤ j ≤ S i)%nat → apart (red_sx j r) (sreg out (seg 2 (Z.of_nat i) r))) as Hsx.
  { intros i j r' Hi Hj. apply sregs_apart, (seg_neq size T es L HL ltac:(lia)); lia. }
  apply (pl_fifo size slot K red_sx red_rx none none none red_qr ltac:(lia) red_computes); try (by constructor).
  - intros i r' Hi. apply red_tmp_apart, Hbuf.
  - intros i r' Hi. split; [apply red_rx_apart|]. split; [apply apart_sym|]; apply red_tmp_apart, Hbuf.
  - intros i r' Hi Hs. unfold pl_recvs in Hs. apply andb_true_iff in Hs as [_ Hs%Z.ltb_lt]. cbn in Hs.
    unfold red_qr, elems. rewrite (slen_elems size T es L HL Hes HTe _ Hs). constructor; [|constructor]. cbn. split.
    + repeat constructor; [apply Hsx; lia..|]. apply red_tmp_apart. by right.
    + constructor; [|constructor; [|constructor]].
      * constructor; [|constructor]. apply red_tmp_apart. by left.
      * constructor; [|constructor]. apply apart_sym, red_rx_apart.
Qed.

Lemma red_clean r : clean hist0 (red_prog r) ∧ rested (hist_run (red_prog r) hist0).
Proof.
  pose proof (red_fifo r [] I) as Hf. rewrite app_nil_r in Hf. split; [apply fifo_clean0; [..|done]|].
  - destruct (pl_peers size slot K red_sx red_rx none none none red_qr ltac:(lia) red_computes r) as [P _].
    intros x y Hx Hy _. destruct (P x Hx), (P y Hy). split; congruence.
  - destruct (pl_peers size slot K red_sx red_rx none none none red_qr ltac:(lia) red_computes r) as [_ P].
    intros x y Hx Hy _. destruct (P x Hx), (P y Hy). split; congruence.
  - apply fifo_rested; [done|]. apply (pl_waited size slot K red_sx red_rx none none none red_qr red_computes).
Qed.

(* ------------------------------------------------------------------ *)
(** * The gathering *)

Definition gt_len (q : Z) : Z := Z.min (p * Sb) (T - q * p * Sb).
Definition gt_chunk (q : Z) : Region := mkRegion out (q * p * Sb) (gt_len q).
Definition gt_from : list Z := filter (λ q, 0 < gt_len q) (others root size).
Definition gt_sp (r : Z) : list Z := if r =? root then [] else if 0 <? gt_len r then [root] else [].
Definition gt_rp (r : Z) : list Z := if r =? root then gt_from else [].
Definition gt_posts (r : Z) : list Act :=
  if r =? root then (λ q, Recv (mkXfer q slot (gt_chunk q))) <$> gt_from
  else if 0 <? gt_len r then [Send (mkXfer root slot (gt_chunk r))] else [].
Definition gt_waits (r : Z) : list Act :=
  if r =? root then (λ _, WaitRecv out) <$> gt_from else if 0 <? gt_len r then [WaitSend out] else [].
Definition gt_val (q _ : Z) : list Z := read (red_mem (S K) q) (gt_chunk q).
Definition gt_mem (r : Z) : Mem := round_mem slot gt_rp gt_val (λ _ q, gt_chunk q) gt_posts (λ _, []) (red_mem (S K)) r.

Lemma gt_from_spec q : q ∈ gt_from ↔ 0 < gt_len q ∧ 0 ≤ q < size ∧ q ≠ root.
Proof. unfold gt_from. rewrite list_elem_of_filter, elem_others. tauto. Qed.

Lemma gt_from_nodup : NoDup gt_from.
Proof. apply NoDup_filter, NoDup_others. Qed.

Lemma gt_chunks_apart q q' : q ≠ q' → apart (gt_chunk q) (gt_chunk q').
Proof.
  intros Hne. destruct red_facts as (HN & Hp2 & HpN & HS & E & HK). apply apart_off. unfold gt_chunk, gt_len. cbn [rg_off rg_len].
  assert (∀ a b, a < b → a * p * Sb + p * Sb ≤ b * p * Sb) as Hlt.
  { intros a b Hab. rewrite <-!Z.mul_assoc. assert ((a + 1) * (p * Sb) ≤ b * (p * Sb)) by (apply Z.mul_le_mono_nonneg_r; nia). lia. }
  destruct (Z.lt_total q q') as [H|[|H]]; [left|done|right]; apply Hlt in H; lia.
Qed.

Lemma gt_lists r : Forall is_post (gt_posts r) ∧
  sends_of (gt_posts r) = (λ q, mkXfer q slot (gt_chunk r)) <$> gt_sp r ∧
  recvs_of (gt_posts r) = round_recvs slot gt_rp (λ _ q, gt_chunk q) r ∧
  sent (red_mem (S K) r) (gt_posts r) = (λ q, mkMsg q slot (gt_val r q)) <$> gt_sp r ∧
  ∀ m, mem_after m (gt_posts r) = m.
Proof.
  unfold gt_posts, gt_sp, round_recvs, gt_rp, gt_val. destruct (r =? root).
  - split_and!; [by apply posts_map|apply sends_of_map_recv|apply recvs_of_map| |intros; apply mem_after_recvs].
    by induction gt_from.
  - destruct (0 <? gt_len r); split_and!; try done. by repeat constructor.
Qed.

Lemma gt_waits_spec r : Forall is_wait (gt_waits r) ∧ ∀ b,
  waits_send b (gt_waits r) = on_buf b (sends_of (gt_posts r)) ∧ waits_recv b (gt_waits r) = on_buf b (recvs_of (gt_posts r)).
Proof.
  destruct (gt_lists r) as (_ & -> & -> & _). unfold gt_waits, gt_sp, round_recvs, gt_rp. destruct (r =? root).
  - split; [by apply waits_map|]. intros b. rewrite waits_send_recvs, waits_recv_map, (on_buf_map b out _ gt_from) by done. done.
  - destruct (0 <? gt_len r); (split; [by repeat constructor|]); intros b; [|done].
    rewrite (on_buf_map b out) by done. cbn. unfold one. by destruct (decide (out = b)).
Qed.

Lemma gt_lead rest : leads size (λ r, gt_posts r ++ gt_waits r ++ [] ++ rest r) (red_mem (S K)) rest gt_mem.
Proof.
  apply (round_lead size slot gt_sp gt_rp).
  - intros r q Hr. unfold gt_sp, gt_rp. destruct (Z.eqb_spec r root); [set_solver|]. destruct (Z.ltb_spec 0 (gt_len r)); [|set_solver].
    intros ->%list_elem_of_singleton. rewrite Z.eqb_refl. split; [done|]. by apply gt_from_spec.
  - intros r q Hr. unfold gt_sp, gt_rp. destruct (Z.eqb_spec r root) as [->|]; [|set_solver]. intros (H1 & H2 & H3)%gt_from_spec.
    split; [done|]. rewrite (proj2 (Z.eqb_neq _ _)), (proj2 (Z.ltb_lt _ _)) by done. set_solver.
  - intros r _. unfold gt_sp, gt_rp. destruct (r =? root); [split; [constructor|apply gt_from_nodup]|].
    destruct (0 <? gt_len r); (split; [|constructor]); [apply NoDup_singleton|constructor].
  - intros r _. by destruct (gt_lists r) as (? & _ & ? & _).
  - intros r _. apply gt_lists.
  - intros r q Hr. unfold gt_rp. destruct (r =? root); [|set_solver]. intros (H1 & _)%gt_from_spec. unfold gt_val.
    rewrite read_length; cbn; lia.
  - intros r _. apply gt_waits_spec.
  - intros r _. constructor.
Qed.

Definition red_all (r : Z) : list Act := red_prog r ++ gt_posts r ++ gt_waits r.

Lemma red_all_clean r : clean hist0 (red_all r).
Proof.
  destruct (red_clean r) as [Hc Hr]. apply clean_app. split; [done|]. rewrite <-(app_nil_r (gt_waits r)).
  destruct (gt_waits_spec r) as [Hw Hn]. apply round_clean; [done| |done|done|done].
  unfold gt_posts. destruct (r =? root); [|destruct (0 <? gt_len r); [by split; [constructor|]|done]].
  apply tidy_recvs; [apply gt_from_nodup| |].
  - intros i j _ _ Hij. by apply gt_chunks_apart.
  - intros i _. split; constructor.
Qed.

Lemma red_all_computes : computes (group size red_all) mems (λ mems', ∀ r, 0 ≤ r < size → mems' r = gt_mem r).
Proof.
  apply leads_computes; [intros; apply red_all_clean|].
  assert (red_all = λ r, red_prog r ++ gt_posts r ++ gt_waits r ++ [] ++ []) as ->.
  { extensionality r. unfold red_all. by rewrite !app_nil_r. }
  eapply leads_trans; [apply red_lead|apply (gt_lead (λ _, []))].
Qed.

(* ------------------------------------------------------------------ *)
(** * What the root has *)

(** The chunk of a process is reduced over all of them. *)
Lemma red_own r g : 0 ≤ r < size → 0 ≤ g < N → 0 < slen g → g / p = r →
  read (red_mem (S K) r) (sreg out g) = red_sum (size - 1) r g.
Proof.
  intros Hr Hg Hs Hgr. destruct red_facts as (HN & Hp2 & HpN & HS & E & HK).
  pose proof (Z.div_mod g p ltac:(lia)) as Hd. pose proof (Z.mod_pos_bound g p ltac:(lia)) as Hm. rewrite Hgr in Hd.
  set (e := g `mod` p) in *. assert (turn r g = N - 2 * p + e) as Ht.
  { unfold Segments.turn. symmetry. apply (Z.mod_unique _ _ (-1)); [left; lia|]. lia. }
  destruct (red_inv_all (S K) r ltac:(lia)) as [Hinv _]. destruct (Hinv g Hg Hs) as [_ H].
  rewrite H by lia. f_equal. rewrite Ht, E. replace (size * p - 2 * p + e) with (e + (size - 2) * p) by lia.
  rewrite Z.div_add, Z.div_small by lia. lia.
Qed.

(** A segment is a part of its chunk. *)
Lemma sreg_chunk m g : 0 ≤ g < N → 0 < slen g → let q := g / p in
  0 ≤ q < size ∧ 0 < gt_len q ∧ read m (sreg out g) = slice (g `mod` p * Sb) (slen g) (read m (gt_chunk q)).
Proof.
  intros Hg Hs q. destruct red_facts as (HN & Hp2 & HpN & HS & E & HK).
  pose proof (Z.div_mod g p ltac:(lia)) as Hd. pose proof (Z.mod_pos_bound g p ltac:(lia)) as Hm. fold q in Hd.
  set (e := g `mod` p) in *. assert (g * Sb = q * p * Sb + e * Sb) as Ho by (rewrite Hd; lia).
  assert (0 ≤ e * Sb) by nia. assert (e * Sb + Sb ≤ p * Sb).
  { replace (e * Sb + Sb) with ((e + 1) * Sb) by lia. apply Z.mul_le_mono_nonneg_r; lia. }
  unfold Segments.slen in *. split; [|split].
  - split; [apply Z.div_pos; lia|apply Z.div_lt_upper_bound; lia].
  - unfold gt_len. lia.
  - unfold gt_chunk. rewrite read_slice_at; [|lia..|unfold gt_len; lia]. unfold Segments.sreg, Segments.slen. by rewrite Ho.
Qed.

Lemma gt_mem_root : gt_mem root =
  receives (red_mem (S K) root) ((λ q, mkXfer q slot (gt_chunk q)) <$> gt_from)
    ((λ q, mkMsg q slot (read (red_mem (S K) q) (gt_chunk q))) <$> gt_from).
Proof.
  unfold gt_mem, round_mem. cbn [mem_after]. destruct (gt_lists root) as (_ & _ & _ & _ & ->).
  unfold round_recvs, round_msgs, gt_rp. by rewrite Z.eqb_refl.
Qed.

Lemma gt_mem_other r : r ≠ root → gt_mem r = red_mem (S K) r.
Proof.
  intros Hr. unfold gt_mem, round_mem. cbn [mem_after]. destruct (gt_lists r) as (_ & _ & _ & _ & ->).
  unfold round_recvs, round_msgs, gt_rp. by rewrite (proj2 (Z.eqb_neq _ _)).
Qed.

Lemma gt_root_segment g : 0 ≤ g < N → 0 < slen g → read (gt_mem root) (sreg out g) = red_sum (size - 1) (g / p) g.
Proof.
  intros Hg Hs. destruct (sreg_chunk (gt_mem root) g Hg Hs) as (Hq & Hl & ->). rewrite <-red_own by done.
  destruct (sreg_chunk (red_mem (S K) (g / p)) g Hg Hs) as (_ & _ & ->). f_equal. rewrite gt_mem_root.
  destruct (decide (g / p = root)) as [->|Hne].
  - apply receives_out. intros x (q & -> & (_ & _ & Hq')%gt_from_spec)%list_elem_of_fmap. by apply gt_chunks_apart.
  - apply (read_received (λ q, mkXfer q slot (gt_chunk q)) (λ q, mkMsg q slot (read (red_mem (S K) q) (gt_chunk q)))).
    + apply regions_apart_map; [apply gt_from_nodup|]. intros i j _ _. apply gt_chunks_apart.
    + apply Forall2_fmap, Forall_Forall2_diag, Forall_forall. intros q (H & _)%gt_from_spec.
      split; [done|]. split; [done|]. cbn. rewrite read_length; cbn; lia.
    + by apply gt_from_spec.
Qed.

(** A separate input is left alone. *)
Lemma gt_input r g : inb ≠ out → 0 ≤ g < N → 0 < slen g → read (gt_mem r) (sreg inb g) = red_input r g.
Proof.
  intros Hio Hg Hs. destruct (red_inv_all (S K) r ltac:(lia)) as [Hinv _]. destruct (Hinv g Hg Hs) as [H _].
  rewrite <-H by (by right). destruct (decide (r = root)) as [->|Hr]; [|by rewrite gt_mem_other].
  rewrite gt_mem_root. apply receives_out. intros x (q & -> & _)%list_elem_of_fmap. apply apart_buf. cbn. congruence.
Qed.

(** The reduction of the inputs, part by part. *)
Lemma red_total g : op_ac op → 0 ≤ g < N → 0 < slen g →
  red_sum (size - 1) (g / p) g = slice (g * Sb) (slen g) (foldl1 op ((λ q, read (mems q) (mkRegion inb 0 T)) <$> ranks size)).
Proof.
  intros Hac Hg Hs. destruct red_facts as (HN & Hp2 & HpN & HS & E & HK). destruct (sreg_chunk (mems 0) g Hg Hs) as (Hq & _).
  unfold red_sum. rewrite (along_all size es op Hop _ (Z.to_nat (slen g))); [|..|done|done].
  2: { intros q. apply Nat2Z.inj. rewrite red_input_length by done. lia. }
  rewrite (foldl1_slice es op Hop T).
  - f_equal. rewrite <-list_fmap_compose. apply list_fmap_ext. intros i q _. unfold compose.
    by rewrite read_slice by (unfold Segments.slen in *; nia).
  - nia.
  - lia.
  - unfold Segments.slen. lia.
  - apply Z.divide_mul_r, HL.
  - pose proof (slen_elems size T es L HL Hes HTe g Hs). exists (slen g / es). lia.
  - apply Forall_fmap, Forall_forall. intros q _. cbn. apply read_whole. lia.
Qed.

Lemma red_result : op_ac op → computes (group size red_all) mems (λ mems',
  read (mems' root) (mkRegion out 0 T) = foldl1 op ((λ q, read (mems q) (mkRegion inb 0 T)) <$> ranks size) ∧
  (inb ≠ out → ∀ r, 0 ≤ r < size → read (mems' r) (mkRegion inb 0 T) = read (mems r) (mkRegion inb 0 T))).
Proof.
  intros Hac. destruct red_facts as (HN & Hp2 & HpN & HS & E & HK).
  assert (∀ g, 0 ≤ g → 0 < Z.min Sb (T - g * Sb) → 0 ≤ g < N) as Hgn by (intros; pose proof (lo_cover _ _ _ _ HL); nia).
  eapply computes_weaken; [apply red_all_computes|]. intros m Hm. split.
  - rewrite Hm by done. apply (slices_eq Sb T); [done|apply read_whole; lia|..].
    + rewrite (foldl1_length es op Hop (Z.to_nat T)); [lia| |].
      * unfold ranks. by rewrite seqZ_cons by lia.
      * apply Forall_fmap, Forall_forall. intros q _. apply Nat2Z.inj. cbv beta. rewrite read_whole; lia.
    + intros g Hg Hlen. rewrite read_slice by nia. etransitivity; [apply gt_root_segment; auto|]. apply red_total; auto.
  - intros Hio r Hr. rewrite Hm by done. apply (slices_eq Sb T); [done|apply read_whole; lia..|].
    intros g Hg Hlen. rewrite !read_slice by nia. apply (gt_input r g); auto.
Qed.
(* ------------------------------------------------------------------ *)
(** * The program is the ring and the gathering *)

Lemma red_loop r : 0 ≤ r < size → reduce_ring r slot es T L (next r) (prev r) inb out tmp op = red_prog r.
Proof.
  intros Hr. destruct red_facts as (HN & Hp2 & HpN & HS & E & HK).
  apply (pipelined_loop K); [lia|..].
  - intros i Hi. unfold pl_acts, pl_recvs, pl_sends. destruct (Nat.ltb_spec i K).
    + rewrite (proj2 (Z.ltb_lt (Z.of_nat i) (N - 2))) by lia. rewrite !(computeOffsets_spec size T es L HL) by lia. done.
    + by rewrite (proj2 (Z.ltb_ge _ _)) by lia.
  - by rewrite (proj2 (Z.ltb_ge _ _)) by lia.
  - done.
  - done.
  - intros i Hi. cbn [pl_post]. unfold pl_handle, pl_recvs, pl_sends. rewrite (proj2 (Nat.ltb_lt _ _)) by done.
    rewrite (proj2 (Z.leb_le _ _)) by lia. replace (Z.of_nat i + 2 - 2) with (Z.of_nat i) by lia.
    rewrite (half_of_2 L), !(computeOffsets_spec size T es L HL) by lia. done.
Qed.

Lemma gather_offset q : 0 ≤ q < size → u64 (u64 (q * p) * Sb) = q * p * Sb ∧
  Z.min (s64 (u64 (p * Sb))) (s64 (s64 T - s64 (q * p * Sb))) = gt_len q.
Proof.
  intros Hq. destruct red_facts as (HN & Hp2 & HpN & HS & E & HK).
  assert (0 ≤ q * p ≤ N) as H1 by (split; [apply Z.mul_nonneg_nonneg; lia|rewrite E; apply Z.mul_le_mono_nonneg_r; lia]).
  pose proof (NS_bound size T es L HL ltac:(lia) Hb (q * p) ltac:(lia)) as H2.
  pose proof (NS_bound size T es L HL ltac:(lia) Hb p ltac:(lia)) as H3.
  pose proof (NS_bound size T es L HL ltac:(lia) Hb N ltac:(lia)) as H4. assert (N ≤ N * Sb) by nia.
  rewrite (wrap_small 64 (q * p)) by (unfold in_range; lia). split; [apply wrap_small; unfold in_range; lia|].
  rewrite (wrap_small 64 (p * Sb)) by (unfold in_range; lia). rewrite (swrap_small 64 (p * Sb)), (swrap_small 64 T), (swrap_small 64 (q * p * Sb)) by lia.
  by rewrite swrap_small by lia.
Qed.

Lemma gather_loop l : (∀ q, q ∈ l → 0 ≤ q < size) →
  l ≫= (λ q, when_positive (Z.min (s64 (u64 (p * Sb))) (s64 (s64 T - s64 (u64 (u64 (q * p) * Sb)))))
    [Recv (mkXfer q slot (mkRegion out (u64 (u64 (q * p) * Sb)) (Z.min (s64 (u64 (p * Sb))) (s64 (s64 T - s64 (u64 (u64 (q * p) * Sb)))))))]) =
  (λ q, Recv (mkXfer q slot (gt_chunk q))) <$> filter (λ q, 0 < gt_len q) l.
Proof.
  induction l as [|q l IH]; intros Hl; [done|]. cbn [mbind list_bind]. rewrite IH by set_solver.
  destruct (gather_offset q (Hl q ltac:(set_solver))) as [E1 E2]. rewrite E1, E2, filter_cons. unfold when_positive.
  destruct (Z.ltb_spec 0 (gt_len q)); [by rewrite decide_True|by rewrite decide_False by lia].
Qed.

Lemma red_gather r : 0 ≤ r < size → reduce_gather r size root slot T L out = gt_posts r ++ gt_waits r.
Proof.
  intros Hr. unfold reduce_gather, gt_posts, gt_waits. cbv zeta. destruct (Z.eqb_spec r root) as [->|Hne].
  - rewrite gather_loop by (intros q [Hq _]%elem_others; lia). rewrite length_fmap. fold gt_from. f_equal.
    induction gt_from as [|q l IH]; [done|]. cbn. by f_equal.
  - destruct (gather_offset r Hr) as [E1 E2]. rewrite E1, E2. unfold when_positive. by destruct (0 <? gt_len r).
Qed.
End reduce.

(* ------------------------------------------------------------------ *)
(** * What the collective computes *)

Section top.
Context (size root tag es elements maxSegmentSize : Z) (inb : option Z) (out tmp : Z) (op : RedOp).
Context (bsize : Z → Z → Z) (getPair : Z → Z → bool) (mems : Z → Mem).
Context (Hs : 1 ≤ size < 2 ^ 30) (Hroot : 0 ≤ root < size) (Hes : 0 < es ≤ maxSegmentSize) (Hm : maxSegmentSize < 2 ^ 62).
Context (Hse : size * es ≤ 2 ^ 57) (Hel : 0 < elements) (HT : elements * es ≤ 2 ^ 58) (Hop : op_ok es op) (Hac : op_ac op).
Context (Hti : tmp ≠ default out inb) (Hto : tmp ≠ out).
Context (Hbs : ∀ r, 0 ≤ r < size → bsize r (default out inb) = elements * es ∧ bsize r out = elements * es).
Context (Hpair : ∀ p q, 0 ≤ p < size → 0 ≤ q < size → p ≠ q → getPair p q = true).

Let T : Z := elements * es.
Let b : Z := default out inb.
Let slot : Z := Slot_value (Slot_build kReduceSlotPrefix tag).

(** The checks pass. *)
Lemma reduce_checked r : 0 ≤ r < size →
  reduce r size root tag es elements maxSegmentSize inb (Some out) tmp (Some op) (bsize r) (getPair r) =
  if size =? 1 then (if b =? out then [] else [copy (mkRegion out 0 T) (mkRegion b 0 T)]) else
  match reduce_layout size T es maxSegmentSize with
  | None => [Stop None]
  | Some L =>
      check (numSegments L `mod` size =? 0) ++ check (size * 2 <=? numSegments L) ++
      reduce_ring r slot es T L (ring_next size r) (ring_prev size r) b out tmp op ++ reduce_gather r size root slot T L out
  end.
Proof using Hs Hroot Hes Hel HT Hbs Hpair Hti.
  intros Hr. unfold reduce. rewrite (proj2 (Z.eqb_neq elements 0)) by lia.
  rewrite (proj2 (Z.ltb_lt 0 es)), (proj2 (Z.leb_le 0 root)), (proj2 (Z.ltb_lt root size)) by lia. cbn [check app andb].
  destruct (next_prev_mod size r) as [E1 E2]. rewrite E1, E2.
  assert (∀ q, 0 ≤ q < size → check ((q =? r) || getPair r q) = []) as Hck.
  { intros q Hq. destruct (Z.eqb_spec q r); [done|]. by rewrite Hpair by auto. }
  rewrite !Hck by (apply Z.mod_pos_bound; lia). cbn [app].
  assert (u64 (elements * es) = T) as -> by (apply wrap_small; unfold in_range; nia).
  destruct (Hbs r Hr) as [B1 B2]. fold b T in B1. fold T in B2.
  assert (match inb with Some _ => inb | None => Some out end = Some b) as -> by (unfold b; by destruct inb).
  cbn [deref]. rewrite B1, B2, !Z.eqb_refl. done.
Qed.

Lemma reduce_lemma :
  computes (group size (λ r,
      reduce r size root tag es elements maxSegmentSize inb (Some out) tmp (Some op) (bsize r) (getPair r))) mems
    (λ mems', read (mems' root) (mkRegion out 0 T) = foldl1 op ((λ q, read (mems q) (mkRegion b 0 T)) <$> ranks size) ∧
       (b ≠ out → ∀ r, 0 ≤ r < size → read (mems' r) (mkRegion b 0 T) = read (mems r) (mkRegion b 0 T))).
Proof.
  assert (0 < T) as HT0 by (unfold T; nia). rewrite (group_ext size _ _ reduce_checked). destruct (Z.eqb_spec size 1) as [H1|Hne].
  - assert (root = 0) as -> by lia.
    eapply computes_weaken; [apply only_computes; by destruct (b =? out); repeat constructor|].
    intros m Hm'. rewrite H1. change (ranks 1) with [0]. cbn [fmap list_fmap foldl1 foldl]. split.
    + rewrite Hm' by lia. destruct (Z.eqb_spec b out) as [->|Hb]; [done|]. by apply read_copy; cbn; lia.
    + intros Hb r Hr. rewrite Hm' by lia. rewrite (proj2 (Z.eqb_neq b out)) by done. by apply read_compute, apart_buf.
  - destruct (reduce_layout_lemma size T es maxSegmentSize) as (L & -> & HL & HB); [lia..|].
    rewrite (group_ext size _ (red_all size T es slot root L b out tmp op)).
    + apply (red_result size T es slot root L HL); try lia; try done. by exists elements.
    + intros r Hr. rewrite (lo_ranks _ _ _ _ HL) at 1 2. rewrite (Z.mul_comm size (numSegmentsPerRank L)), Z.mod_mul by lia.
      rewrite (proj2 (Z.leb_le _ _)) by (pose proof (lo_two _ _ _ _ HL); nia). rewrite Z.eqb_refl. cbn [check app].
      unfold red_all. rewrite (red_loop size T es slot root L HL) by (lia || done). f_equal.
      apply (red_gather size T es slot root L HL ltac:(lia) ltac:(lia) ltac:(lia) ltac:(by exists elements) ltac:(lia) ltac:(lia) b out tmp op Hop mems); lia.
Qed.
End top.

(** C16: reduce reduces to the root. When all processes call [reduce] with
    buffers of the same sizes, every execution ends, and the root's output
    holds the reduction of the inputs of all processes, for any number of
    processes (below 2^30), any root and any segment size of at least one
    element (a smaller one divides by zero); inputs apart from the outputs keep
    what they hold. *)
Theorem reduce_correct size root tag es elements maxSegmentSize inb out tmp op (bsize : Z → Z → Z) getPair mems :
  1 ≤ size < 2 ^ 30 → 0 ≤ root < size → 0 < es ≤ maxSegmentSize → maxSegmentSize < 2 ^ 62 → size * es ≤ 2 ^ 57 →
  0 < elements → elements * es ≤ 2 ^ 58 → op_ok es op → op_ac op →
  (∀ r, 0 ≤ r < size → bsize r (default out inb) = elements * es ∧ bsize r out = elements * es) →
  tmp ≠ default out inb → tmp ≠ out → (∀ p q, 0 ≤ p < size → 0 ≤ q < size → p ≠ q → getPair p q = true) →
  let T := elements * es in
  computes (group size (λ r,
      reduce r size root tag es elements maxSegmentSize inb (Some out) tmp (Some op) (bsize r) (getPair r))) mems
    (λ mems', read (mems' root) (mkRegion out 0 T) =
         foldl1 op ((λ q, read (mems q) (mkRegion (default out inb) 0 T)) <$> ranks size) ∧
       (default out inb ≠ out → ∀ r, 0 ≤ r < size →
         read (mems' r) (mkRegion (default out inb) 0 T) = read (mems r) (mkRegion (default out inb) 0 T))).
Proof. intros. by apply reduce_lemma. Qed.

Lemma reduce_correct_witness :
  computes (group 3 (λ r, reduce r 3 2 7 4 5 16 (Some 1) (Some 3) 9 (Some (sum 4)) (λ _, 20) (λ _, true))) demo_mems
    (λ mems', read (mems' 2) (mkRegion 3 0 (5 * 4)) = foldl1 (sum 4) ((λ q, read (demo_mems q) (mkRegion 1 0 (5 * 4))) <$> ranks 3) ∧
       (1 ≠ 3 → ∀ r, 0 ≤ r < 3 → read (mems' r) (mkRegion 1 0 (5 * 4)) = read (demo_mems r) (mkRegion 1 0 (5 * 4)))).
Proof.
  apply (reduce_correct 3 2 7 4 5 16 (Some 1) 3 9 (sum 4) (λ _ _, 20) (λ _ _, true) demo_mems); try lia; try done;
    apply (sum_ok 4); lia.
Defined.
