(* ===== verification/Gather.v ===== *)
(** Gathering to a root and scattering from it: [src/gloo/gather.cc],
    [gatherv.cc] and [scatter.cc]. *)
From Stdlib Require Import FunctionalExtensionality.
From S2P Require Import Prelude Slots Net NetRun Groups.

(* ------------------------------------------------------------------ *)
(** * The programs *)

(** [gather(opts)]: [inb] and [outb] are the optional buffers, [bsize] their
    sizes in bytes. *)
Definition gather (rank size root tag elementSize : Z) (inb outb : option Z) (bsize : Z → Z) : list Act :=
  let slot := Slot_value (Slot_build kGatherSlotPrefix tag) in
  check (0 <? elementSize) ++
  needs inb (λ inb,
    if rank =? root then
      let chunkSize := bsize inb in
      needs outb (λ outb,
        check (u64 (bsize inb * size) =? bsize outb) ++
        ((λ i, Recv (mkXfer i slot (mkRegion outb (u64 (i * chunkSize)) chunkSize))) <$> others rank size) ++
        [copy (mkRegion outb (u64 (rank * chunkSize)) chunkSize) (mkRegion inb 0 chunkSize)] ++
        ((λ _, WaitRecv outb) <$> others rank size))
    else
      [Send (mkXfer root slot (mkRegion inb 0 (bsize inb))); WaitSend inb]).

(** The loop of [gatherv] at the root: [counts] are the element counts of the
    ranks from [i] on. *)
Fixpoint gatherv_loop (rank slot elementSize inb outb insize i : Z) (counts : list Z) (offset : Z) : list Act :=
  match counts with
  | [] => []
  | c :: counts =>
      let copyLength := u64 (elementSize * c) in
      (if i =? rank then
         check (copyLength =? insize) ++
         (if 0 <? copyLength then [copy (mkRegion outb offset insize) (mkRegion inb 0 insize)] else [])
       else [Recv (mkXfer i slot (mkRegion outb offset copyLength))]) ++
      gatherv_loop rank slot elementSize inb outb insize (i + 1) counts (u64 (offset + copyLength))
  end.

(** [GathervOptions::setOutput(buf, elementsPerRank, elementSize)]: the
    element size and counts it stores, one count per rank of the group. *)
Definition gatherv_setOutput (size cur : Z) (elementsPerRank : list Z) (elementSize bufsize : Z) : outcome (Z * list Z) :=
  let totalElements := foldl (λ a e, u64 (a + e)) 0 elementsPerRank in
  stored ← setElementSize cur elementSize;
  _ ← enforce (Z.of_nat (length elementsPerRank) =? size);
  _ ← enforce (u64 (totalElements * elementSize) =? bufsize);
  Val (stored, elementsPerRank).

(** [gatherv(opts)]; the root dereferences its output without a check, and
    [setOutput] has left an element count per rank with it. *)
Definition gatherv (rank size root tag elementSize : Z) (inb outb : option Z) (elementsPerRank : list Z)
    (bsize : Z → Z) : list Act :=
  let slot := Slot_value (Slot_build kGatherSlotPrefix tag) in
  check (0 <? elementSize) ++
  needs inb (λ inb,
    if rank =? root then
      deref outb (λ outb,
        gatherv_loop rank slot elementSize inb outb (bsize inb) 0 elementsPerRank 0 ++
        ((λ _, WaitRecv outb) <$> seqZ 0 (size - 1)))
    else
      indexed elementsPerRank rank (λ elements,
        let sendLength := u64 (elementSize * elements) in
        check (sendLength <=? bsize inb) ++
        [Send (mkXfer root slot (mkRegion inb 0 sendLength)); WaitSend inb])).

(** [scatter(opts)]: [ins] are the root's inputs, one per rank. *)
Definition scatter (rank size root tag elementSize : Z) (ins : list Z) (outb : option Z) (bsize : Z → Z) : list Act :=
  let slot := Slot_value (Slot_build kScatterSlotPrefix tag) in
  check (0 <? elementSize) ++
  check ((0 <=? root) && (root <? size)) ++
  needs outb (λ outb,
    if rank =? root then
      check (Z.of_nat (length ins) =? size) ++
      check (forallb (λ b, bsize b =? bsize outb) ins) ++
      (others rank size ≫= (λ i, indexed ins i (λ b, [Send (mkXfer i slot (mkRegion b 0 (bsize b)))]))) ++
      indexed ins rank (λ b, [copy (mkRegion outb 0 (bsize outb)) (mkRegion b 0 (bsize outb))]) ++
      (others rank size ≫= (λ i, indexed ins i (λ b, [WaitSend b])))
    else
      [Recv (mkXfer root slot (mkRegion outb 0 (bsize outb))); WaitRecv outb]).

(* ------------------------------------------------------------------ *)
(** * gather *)

Section gather.
Context (size root tag elementSize inb outb : Z) (bsize : Z → Z) (mems : Z → Mem).
Context (Hsize : 1 ≤ size < 2 ^ 31) (Hroot : 0 ≤ root < size) (He : 0 < elementSize) (Hio : inb ≠ outb).
Context (Hin : 0 ≤ bsize inb) (Htotal : bsize inb * size < 2 ^ 64) (Hout : bsize outb = bsize inb * size).

Let slot := Slot_value (Slot_build kGatherSlotPrefix tag).
Let chunk := bsize inb.
Let part (p : Z) : Region := mkRegion outb (p * chunk) chunk.
Let whole : Region := mkRegion inb 0 chunk.
Let own : Act := copy (part root) whole.

Let acts (r : Z) : list Act :=
  if r =? root then ((λ i, Recv (mkXfer i slot (part i))) <$> others root size) ++ [own]
  else [Send (mkXfer root slot whole)].
Let post (r : Z) : list Act :=
  if r =? root then (λ _, WaitRecv outb) <$> others root size else [WaitSend inb].
Let sp (r : Z) : list Z := if r =? root then [] else [root].
Let rp (r : Z) : list Z := if r =? root then others root size else [].

Lemma part_bounds i : 0 ≤ i < size → u64 (i * chunk) = i * chunk.
Proof. intros. apply wrap_small. unfold in_range, chunk. nia. Qed.

Lemma gather_program r : gather r size root tag elementSize (Some inb) (Some outb) bsize = acts r ++ post r.
Proof.
  unfold gather, acts, post, check, needs. rewrite (proj2 (Z.ltb_lt 0 elementSize)) by done. cbn [app].
  destruct (Z.eqb_spec r root) as [->|]; [|done].
  rewrite wrap_small, Hout, Z.eqb_refl by (unfold in_range; nia). cbn [app]. rewrite <-(assoc_L (++)).
  f_equal; [|by rewrite part_bounds].
  apply list_fmap_ext. intros k i Hi%list_elem_of_lookup_2. apply elem_others in Hi as [Hi _].
  by rewrite part_bounds.
Qed.

Lemma parts_apart i j : i ≠ j → apart (part i) (part j).
Proof. intros Hij b k [_ H1] [_ H2]. cbn in *. unfold chunk in *. nia. Qed.

Lemma parts_whole i : apart (part i) whole.
Proof. by apply apart_buf. Qed.

Let M (r : Z) : Mem :=
  receives (mem_after (mems r) (acts r)) (posted_recvs slot rp (λ _ p, part p) r)
    (incoming slot rp (λ _ _, whole) mems r).

Lemma gather_lists r : Forall is_post (acts r) ∧
  sends_of (acts r) = posted_sends slot sp (λ _ _, whole) r ∧ recvs_of (acts r) = posted_recvs slot rp (λ _ p, part p) r ∧
  dsts_of (acts r) ++ srcs_of (acts r) = if r =? root then [part root; whole] else [].
Proof.
  unfold acts, posted_sends, posted_recvs, sp, rp. destruct (r =? root).
  - rewrite sends_of_app, recvs_of_app, dsts_of_app, recvs_of_map. split_and!.
    + apply Forall_app. split; [by apply posts_map|by repeat constructor].
    + induction (others root size) as [|i l IH]; [done|apply IH].
    + cbn. by rewrite app_nil_r.
    + unfold srcs_of. rewrite bind_app. induction (others root size) as [|i l IH]; [done|apply IH].
  - split; [by repeat constructor|done].
Qed.

Lemma gather_clean r : clean hist0 (acts r ++ post r).
Proof.
  destruct (gather_lists r) as (Hp & Hs & Hr & Hd). apply clean_app. split.
  - apply clean_posts; cbn; rewrite ?Hs, ?Hr; unfold posted_sends, posted_recvs, sp, rp.
    + destruct (r =? root); [|constructor]. apply regions_apart_map; [apply NoDup_others|]. intros. by apply parts_apart.
    + destruct (r =? root); [set_solver|]. intros x y _ Hy. set_solver.
    + intros d x Hd' Hx. destruct (r =? root) eqn:E; [set_solver|].
      assert (d ∈ dsts_of (acts r) ++ srcs_of (acts r)) as H by set_solver. rewrite Hd in H. set_solver.
    + intros d x Hd' Hx. rewrite Hd in Hd'. destruct (r =? root) eqn:E; [|set_solver].
      apply list_elem_of_fmap in Hx as (i & -> & Hi). apply elem_others in Hi as [_ Hi].
      assert (d = part root ∨ d = whole) as [->| ->] by set_solver; [by apply parts_apart|apply parts_whole].
  - apply clean_waits. unfold post. destruct (r =? root); [by apply waits_map|by repeat constructor].
Qed.

Lemma gather_end r :
  reaches (post r) (M r) (bumps (posted_sends slot sp (λ _ _, whole) r) (λ _, O))
    (bumps (posted_recvs slot rp (λ _ p, part p) r) (λ _, O)) [] (M r) (λ _, O) (λ _, O).
Proof.
  unfold post, posted_sends, posted_recvs, sp, rp.
  rewrite <-(app_nil_r (if r =? root then (λ _, WaitRecv outb) <$> others root size else [WaitSend inb])).
  apply reaches_waits; [destruct (r =? root); [by apply waits_map|by repeat constructor]|..]; intros b; rewrite bumps_count.
  - destruct (r =? root); [by rewrite waits_send_recvs|]. unfold on_buf. cbn. unfold one. by destruct (decide (inb = b)).
  - destruct (r =? root); [|done]. rewrite waits_recv_map, (on_buf_map b outb) by done. done.
Qed.

Lemma gather_lemma :
  computes (group size (λ r, gather r size root tag elementSize (Some inb) (Some outb) bsize)) mems
    (λ mems', (∀ p, 0 ≤ p < size → read (mems' root) (part p) = read (mems p) whole) ∧
       ∀ r, 0 ≤ r < size → r ≠ root → mems' r = mems r).
Proof.
  rewrite (group_ext size _ (λ r, acts r ++ post r)) by (intros; apply gather_program).
  eapply computes_weaken.
  - apply (exchange_computes size slot sp rp (λ _ _, whole) (λ _ p, part p) acts post mems M).
    + intros r _. unfold sp, rp. destruct (r =? root); split; [constructor|apply NoDup_others|apply NoDup_singleton|constructor].
    + intros p q Hp. unfold sp, rp, in_group. destruct (p =? root); split; rewrite ?elem_others; set_solver.
    + intros p q Hp Hq. unfold sp, rp, in_group in *. destruct (Z.eqb_spec p root), (Z.eqb_spec q root);
        rewrite ?elem_others, ?list_elem_of_singleton; set_solver.
    + done.
    + intros r _. by destruct (gather_lists r) as (? & ? & ? & _).
    + intros r d x _ Hd Hx. destruct (gather_lists r) as (_ & _ & _ & Hds). unfold posted_sends, sp in Hx.
      destruct (r =? root) eqn:E; [set_solver|].
      assert (d ∈ dsts_of (acts r) ++ srcs_of (acts r)) as H by set_solver. rewrite Hds in H. set_solver.
    + intros r _. apply gather_end.
    + intros r _. apply gather_clean.
  - intros m Hm. split.
    + intros p Hp. rewrite (Hm root) by done. unfold M, posted_recvs, incoming, rp, acts. rewrite Z.eqb_refl.
      rewrite mem_after_app, mem_after_recvs. destruct (decide (p = root)) as [->|Hne].
      * rewrite receives_out; [by apply read_copy|]. intros x (i & -> & Hi%elem_others)%list_elem_of_fmap.
        apply parts_apart, Hi.
      * apply (read_received (λ p, mkXfer p slot (part p))).
        -- apply regions_apart_map; [apply NoDup_others|]. intros. by apply parts_apart.
        -- apply Forall2_fmap, Forall_Forall2_diag, Forall_forall. intros i _. split; [done|]. split; [done|]. cbn. by rewrite read_length.
        -- by apply elem_others.
    + intros r Hr Hne. rewrite (Hm r) by done. unfold M, posted_recvs, incoming, rp, acts.
      by rewrite (proj2 (Z.eqb_neq r root)).
Qed.
End gather.

(** gather gathers. In every execution the collective ends, with the input
    of process [p] in part [p] of the root's output, for every [p], and the
    memory of the other processes unchanged. *)
Theorem gather_correct (size root tag elementSize inb outb : Z) (bsize : Z → Z) (mems : Z → Mem) :
  1 ≤ size < 2 ^ 31 → 0 ≤ root < size → 0 < elementSize → inb ≠ outb →
  0 ≤ bsize inb → bsize inb * size < 2 ^ 64 → bsize outb = bsize inb * size →
  computes (group size (λ r, gather r size root tag elementSize (Some inb) (Some outb) bsize)) mems
    (λ mems', (∀ p, 0 ≤ p < size →
         read (mems' root) (mkRegion outb (p * bsize inb) (bsize inb)) = read (mems p) (mkRegion inb 0 (bsize inb))) ∧
       ∀ r, 0 ≤ r < size → r ≠ root → mems' r = mems r).
Proof. apply gather_lemma. Qed.

Lemma gather_correct_witness :
  computes (group 3 (λ r, gather r 3 1 7 4 (Some 0) (Some 5) (λ b, if b =? 0 then 8 else 24))) demo_mems
    (λ mems', (∀ p, 0 ≤ p < 3 → read (mems' 1) (mkRegion 5 (p * 8) 8) = read (demo_mems p) (mkRegion 0 0 8)) ∧
       ∀ r, 0 ≤ r < 3 → r ≠ 1 → mems' r = demo_mems r).
Proof. apply (gather_correct 3 1 7 4 0 5 (λ b, if b =? 0 then 8 else 24) demo_mems); cbn; lia. Defined.


(* ------------------------------------------------------------------ *)
(** * scatter *)

Section scatter.
Context (size root tag elementSize outb n : Z) (ins : list Z) (bsize : Z → Z) (mems : Z → Mem).
Context (Hsize : 1 ≤ size < 2 ^ 31) (Hroot : 0 ≤ root < size) (He : 0 < elementSize) (Hn : 0 ≤ n).
Context (Hlen : Z.of_nat (length ins) = size) (Hin : ∀ b, b ∈ ins → bsize b = n) (Hout : bsize outb = n) (Hio : outb ∉ ins).

Let slot := Slot_value (Slot_build kScatterSlotPrefix tag).
Let inp (i : Z) : Z := default 0 (ins !! Z.to_nat i).
Let whole : Region := mkRegion outb 0 n.
Let xs (_ i : Z) : Region := mkRegion (inp i) 0 n.
Let acts (r : Z) : list Act :=
  if r =? root then ((λ i, Send (mkXfer i slot (xs r i))) <$> others root size) ++ [copy whole (xs root root)]
  else [Recv (mkXfer root slot whole)].
Let post (r : Z) : list Act :=
  if r =? root then (λ i, WaitSend (inp i)) <$> others root size else [WaitRecv outb].
Let sp (r : Z) : list Z := if r =? root then others root size else [].
Let rp (r : Z) : list Z := if r =? root then [] else [root].

Lemma inp_indexed i k : 0 ≤ i < size → indexed ins i k = k (inp i) ∧ inp i ∈ ins.
Proof.
  intros Hi. unfold indexed, inp. destruct (ins !! Z.to_nat i) as [b|] eqn:E.
  - split; [done|]. by eapply list_elem_of_lookup_2.
  - apply lookup_ge_None in E. lia.
Qed.

Lemma scatter_program r : scatter r size root tag elementSize ins (Some outb) bsize = acts r ++ post r.
Proof.
  unfold scatter, acts, post, check, needs. fold slot.
  rewrite (proj2 (Z.ltb_lt 0 elementSize)), (proj2 (Z.leb_le 0 root)),
    (proj2 (Z.ltb_lt root size)) by lia. cbn [app andb]. rewrite Hout.
  destruct (Z.eqb_spec r root) as [->|]; [|done]. rewrite Hlen, Z.eqb_refl.
  rewrite (proj2 (forallb_forall _ _)).
  2: { intros b Hb%list_elem_of_In. by rewrite Hin, Z.eqb_refl. }
  cbn [app]. rewrite <-(assoc_L (++)). f_equal; [|rewrite (proj1 (inp_indexed root _ Hroot)); cbn [app]; f_equal].
  all: assert (∀ i, i ∈ others root size → 0 ≤ i < size) as Ho by (intros i Hi%elem_others; lia).
  all: induction (others root size) as [|i l IH]; [done|]; cbn [mbind list_bind fmap list_fmap];
    destruct (inp_indexed i (λ b, [Send (mkXfer i slot (mkRegion b 0 (bsize b)))])) as [E1 Hi]; [apply Ho; set_solver|];
    destruct (inp_indexed i (λ b, [WaitSend b])) as [E2 _]; [apply Ho; set_solver|].
  - rewrite E1. cbn [app]. unfold xs at 1. rewrite (Hin _ Hi). f_equal. apply IH. set_solver.
  - rewrite E2. cbn [app]. f_equal. apply IH. set_solver.
Qed.

Lemma inp_out i : 0 ≤ i < size → apart (xs root i) whole.
Proof. intros Hi. apply apart_buf. cbn. destruct (inp_indexed i (λ _, []) Hi) as [_ H]. congruence. Qed.

Lemma scatter_lists r : Forall is_post (acts r) ∧
  sends_of (acts r) = posted_sends slot sp xs r ∧ recvs_of (acts r) = posted_recvs slot rp (λ _ _, whole) r ∧
  dsts_of (acts r) = (if r =? root then [whole] else []) ∧
  srcs_of (acts r) = (if r =? root then [xs root root] else []).
Proof.
  unfold acts, posted_sends, posted_recvs, sp, rp. destruct (r =? root).
  - rewrite sends_of_app, recvs_of_app, dsts_of_app, sends_of_map. split_and!.
    + apply Forall_app. split; [by apply posts_map|by repeat constructor].
    + cbn. by rewrite app_nil_r.
    + induction (others root size) as [|i l IH]; [done|apply IH].
    + induction (others root size) as [|i l IH]; [done|apply IH].
    + unfold srcs_of. rewrite bind_app. induction (others root size) as [|i l IH]; [done|apply IH].
  - split; [by repeat constructor|done].
Qed.

Lemma scatter_clean r : clean hist0 (acts r ++ post r).
Proof.
  destruct (scatter_lists r) as (Hp & Hs & Hr & Hd & Hsrc). apply clean_app. split.
  - apply (clean_posts0 _ _ _ _ _ Hs Hr Hd Hsrc); unfold posted_sends, posted_recvs, sp, rp; destruct (r =? root).
    + constructor.
    + by repeat constructor.
    + set_solver.
    + set_solver.
    + intros d x ->%list_elem_of_singleton (i & -> & [Hi _]%elem_others)%list_elem_of_fmap. by apply inp_out.
    + set_solver.
    + set_solver.
    + set_solver.
  - apply clean_waits. unfold post. destruct (r =? root); [by apply waits_map|by repeat constructor].
Qed.

Lemma waits_send_of b (f : Z → Z) l : waits_send b ((λ i, WaitSend (f i)) <$> l) =
  on_buf b ((λ i, mkXfer i slot (mkRegion (f i) 0 n)) <$> l) ∧ waits_recv b ((λ i, WaitSend (f i)) <$> l) = O.
Proof.
  unfold on_buf. induction l as [|i l [IH1 IH2]]; [done|]. cbn [fmap list_fmap waits_send waits_recv]. split; [|done].
  rewrite filter_cons. unfold one. change (x_buf (mkXfer i slot (mkRegion (f i) 0 n))) with (f i).
  destruct (decide (f i = b)) as [Hf|Hf]; cbn [length]; by rewrite <-IH1.
Qed.

Lemma scatter_end r m :
  reaches (post r) m (bumps (posted_sends slot sp xs r) (λ _, O)) (bumps (posted_recvs slot rp (λ _ _, whole) r) (λ _, O))
    [] m (λ _, O) (λ _, O).
Proof.
  unfold post, posted_sends, posted_recvs, sp, rp. rewrite <-(app_nil_r (if r =? root then _ else _)).
  apply reaches_waits; [destruct (r =? root); [by apply waits_map|by repeat constructor]|..]; intros b; rewrite bumps_count.
  - destruct (r =? root); [|done]. rewrite (proj1 (waits_send_of b inp _)). done.
  - destruct (r =? root); [by rewrite (proj2 (waits_send_of b inp _))|].
    unfold on_buf. cbn. unfold one. by destruct (decide (outb = b)).
Qed.

Lemma scatter_lemma :
  computes (group size (λ r, scatter r size root tag elementSize ins (Some outb) bsize)) mems
    (λ mems', ∀ r, 0 ≤ r < size → read (mems' r) whole = read (mems root) (xs root r)).
Proof.
  rewrite (group_ext size _ (λ r, acts r ++ post r)) by (intros; apply scatter_program).
  set (M := λ r, receives (mem_after (mems r) (acts r)) (posted_recvs slot rp (λ _ _, whole) r) (incoming slot rp xs mems r)).
  eapply computes_weaken.
  - apply (exchange_computes size slot sp rp xs (λ _ _, whole) acts post mems M).
    + intros r _. unfold sp, rp. destruct (r =? root); split; [apply NoDup_others|constructor|constructor|apply NoDup_singleton].
    + intros p q Hp. unfold sp, rp, in_group. destruct (p =? root); split; rewrite ?elem_others; set_solver.
    + intros p q Hp Hq. unfold sp, rp, in_group in *. destruct (Z.eqb_spec p root), (Z.eqb_spec q root);
        rewrite ?elem_others, ?list_elem_of_singleton; set_solver.
    + done.
    + intros r _. by destruct (scatter_lists r) as (? & ? & ? & _).
    + intros r d x _ Hd Hx. destruct (scatter_lists r) as (_ & _ & _ & Hds & _). unfold posted_sends, sp in Hx.
      rewrite Hds in Hd. destruct (r =? root) eqn:E; [|set_solver]. apply list_elem_of_singleton in Hd as ->.
      apply list_elem_of_fmap in Hx as (i & -> & [Hi _]%elem_others). apply apart_sym. by apply inp_out.
    + intros r _. apply scatter_end.
    + intros r _. apply scatter_clean.
  - intros m Hm r Hr. rewrite (Hm r Hr). unfold M, posted_recvs, incoming, rp, acts.
    destruct (Z.eqb_spec r root) as [->|Hne].
    + rewrite mem_after_app, mem_after_sends. by apply read_copy.
    + apply (read_received (λ p, mkXfer p slot whole) (λ p, mkMsg p slot (read (mems p) (xs p r)))); [by repeat constructor| |set_solver].
      repeat constructor. cbn. by rewrite read_length.
Qed.
End scatter.

(** scatter scatters. In every execution the collective ends, with the
    root's input of rank [r] in the output of process [r], for every [r]. *)
Theorem scatter_correct (size root tag elementSize outb n : Z) (ins : list Z) (bsize : Z → Z) (mems : Z → Mem) :
  1 ≤ size < 2 ^ 31 → 0 ≤ root < size → 0 < elementSize → 0 ≤ n →
  Z.of_nat (length ins) = size → (∀ b, b ∈ ins → bsize b = n) → bsize outb = n → outb ∉ ins →
  computes (group size (λ r, scatter r size root tag elementSize ins (Some outb) bsize)) mems
    (λ mems', ∀ r, 0 ≤ r < size →
       read (mems' r) (mkRegion outb 0 n) = read (mems root) (mkRegion (default 0 (ins !! Z.to_nat r)) 0 n)).
Proof. apply scatter_lemma. Qed.

Lemma scatter_correct_witness :
  computes (group 3 (λ r, scatter r 3 1 7 4 [10; 11; 12] (Some 5) (λ _, 8))) demo_mems
    (λ mems', ∀ r, 0 ≤ r < 3 →
       read (mems' r) (mkRegion 5 0 8) = read (demo_mems 1) (mkRegion (default 0 ([10; 11; 12] !! Z.to_nat r)) 0 8)).
Proof. apply (scatter_correct 3 1 7 4 5 8 [10; 11; 12] (λ _, 8) demo_mems); [lia..|done|done|done|set_solver]. Defined.

(* ------------------------------------------------------------------ *)
(** * gatherv *)

Section gatherv.
Context (size root tag es inb outb : Z) (count : Z → Z) (bsize : Z → Z → Z) (mems : Z → Mem).
Context (Hsize : 1 ≤ size < 2 ^ 31) (Hroot : 0 ≤ root < size) (Hes : 0 < es) (Hio : inb ≠ outb).
Context (Hc : ∀ r, 0 ≤ r < size → 0 ≤ count r) (Hb : es * sum_before count size < 2 ^ 64).
Context (Hin : ∀ r, 0 ≤ r < size → es * count r ≤ bsize r inb) (Hinr : bsize root inb = es * count root).

Let slot := Slot_value (Slot_build kGatherSlotPrefix tag).
Let part (p : Z) : Region := mkRegion outb (es * sum_before count p) (es * count p).
Let whole (p : Z) : Region := mkRegion inb 0 (es * count p).
Let loop (a : Z) : list Act :=
  gatherv_loop root slot es inb outb (bsize root inb) a (count <$> seqZ a (size - a)) (es * sum_before count a).
Let acts (r : Z) : list Act := if r =? root then loop 0 else [Send (mkXfer root slot (whole r))].
Let post (r : Z) : list Act :=
  if r =? root then (λ _, WaitRecv outb) <$> seqZ 0 (size - 1) else [WaitSend inb].
Let sp (r : Z) : list Z := if r =? root then [] else [root].
Let rp (r : Z) : list Z := if r =? root then others root size else [].

Lemma sum_bound i : 0 ≤ i < size → 0 ≤ es * count i ∧ 0 ≤ es * sum_before count i ∧ es * sum_before count (i + 1) < 2 ^ 64.
Proof.
  intros Hi. pose proof (sum_before_mono count i size Hc ltac:(lia)). pose proof (sum_before_mono count (i + 1) size Hc ltac:(lia)).
  pose proof (Hc i Hi). split; [|split]; nia.
Qed.

Lemma gatherv_loop_cons a : 0 ≤ a < size →
  loop a = (if a =? root then if 0 <? es * count root then [copy (part root) (whole root)] else []
            else [Recv (mkXfer a slot (part a))]) ++ loop (a + 1).
Proof.
  intros Ha. unfold loop at 1. rewrite seqZ_cons by lia. cbn [fmap list_fmap gatherv_loop].
  destruct (sum_bound a Ha) as (H1 & H2 & H3). rewrite sum_before_S in H3 by lia.
  rewrite (wrap_small 64 (es * count a)) by (unfold in_range; lia).
  rewrite wrap_small by (unfold in_range; lia). unfold loop. rewrite sum_before_S by lia.
  replace (es * (sum_before count a + count a)) with (es * sum_before count a + es * count a) by lia.
  replace (Z.pred (size - a)) with (size - (a + 1)) by lia. f_equal.
  destruct (Z.eqb_spec a root) as [->|]; [|done]. by rewrite Hinr, Z.eqb_refl.
Qed.

Lemma gatherv_loop_lists a m : 0 ≤ a ≤ size →
  Forall is_post (loop a) ∧ sends_of (loop a) = [] ∧
  recvs_of (loop a) = (λ p, mkXfer p slot (part p)) <$> filter (λ i, i ≠ root) (seqZ a (size - a)) ∧
  (∀ d, d ∈ dsts_of (loop a) → d = part root) ∧ (∀ d, d ∈ srcs_of (loop a) → d = whole root) ∧
  mem_after m (loop a) =
    if decide (a ≤ root ∧ 0 < es * count root) then compute m (part root) (λ l, hd [] l) [whole root] else m.
Proof.
  intros Ha. remember (Z.to_nat (size - a)) as k eqn:Hk. revert a m Ha Hk. induction k as [|k IH]; intros a m Ha Hk.
  - assert (a = size) as -> by lia. unfold loop. rewrite Z.sub_diag. cbn. rewrite decide_False by lia.
    split_and!; try done; set_solver.
  - rewrite gatherv_loop_cons, seqZ_cons by lia. replace (Z.pred (size - a)) with (size - (a + 1)) by lia. fold (Z.succ a).
    change (Z.succ a) with (a + 1).
    destruct (IH (a + 1) (if decide (a = root ∧ 0 < es * count root) then compute m (part root) (λ l, hd [] l) [whole root] else m))
      as (H1 & H2 & H3 & H4 & H5 & H6); [lia|lia|].
    rewrite filter_cons. unfold srcs_of in *.
    rewrite sends_of_app, recvs_of_app, dsts_of_app, bind_app, mem_after_app, H2, H3.
    destruct (Z.eqb_spec a root) as [->|Hne].
    + rewrite (decide_False (P := root ≠ root)) by auto. rewrite (decide_False (P := root + 1 ≤ root ∧ _)) in H6 by lia.
      destruct (Z.ltb_spec 0 (es * count root)) as [Hp|Hp].
      * rewrite decide_True in H6 by lia. rewrite decide_True by lia. split_and!; try done.
        -- by constructor.
        -- intros d [->|Hd]%elem_of_cons; [done|by apply H4].
        -- intros d [->|Hd]%elem_of_cons; [done|by apply H5].
      * rewrite decide_False in H6 by lia. rewrite decide_False by lia. by split_and!.
    + rewrite (decide_True (P := a ≠ root)) by done. rewrite (decide_False (P := a = root ∧ _)) in H6 by lia.
      split_and!; [by constructor|done|done|done|done|]. cbn. rewrite H6. apply decide_ext. lia.
Qed.

Lemma gatherv_program r : 0 ≤ r < size →
  gatherv r size root tag es (Some inb) (Some outb) (count <$> ranks size) (bsize r) = acts r ++ post r.
Proof.
  intros Hr. unfold gatherv, acts, post, check, needs, deref, ranks. fold slot. rewrite (proj2 (Z.ltb_lt 0 es)) by done. cbn [app].
  destruct (Z.eqb_spec r root) as [->|].
  - unfold loop. rewrite Z.sub_0_r. change (es * sum_before count 0) with (es * 0). by rewrite Z.mul_0_r.
  - unfold indexed. rewrite list_lookup_fmap, lookup_seqZ_lt by lia. cbn.
    rewrite Z2Nat.id by lia. destruct (sum_bound r Hr) as (H1 & H2 & H3). rewrite sum_before_S in H3 by lia.
    rewrite Z.add_0_l, wrap_small by (unfold in_range; lia). by rewrite (proj2 (Z.leb_le _ _)) by by apply Hin.
Qed.

Lemma parts_apart_v i j : 0 ≤ i < size → 0 ≤ j < size → i ≠ j → apart (part i) (part j).
Proof. intros. by apply (sums_apart count es outb size). Qed.

Lemma gatherv_lists r :
  Forall is_post (acts r) ∧ sends_of (acts r) = posted_sends slot sp (λ p _, whole p) r ∧
  recvs_of (acts r) = posted_recvs slot rp (λ _ p, part p) r ∧
  (∀ d, d ∈ dsts_of (acts r) → r = root ∧ d = part root) ∧ (∀ d, d ∈ srcs_of (acts r) → d = whole root).
Proof.
  unfold acts, posted_sends, posted_recvs, sp, rp. destruct (Z.eqb_spec r root) as [->|Hne].
  - destruct (gatherv_loop_lists 0 (mems root)) as (H1 & H2 & H3 & H4 & H5 & _); [lia|]. split_and!; try done.
    + rewrite H3. unfold others. by rewrite Z.sub_0_r.
    + intros d Hd. by split; [|apply H4].
  - split_and!; [by repeat constructor|done|done|set_solver|set_solver].
Qed.

Lemma gatherv_clean r : clean hist0 (acts r ++ post r).
Proof.
  destruct (gatherv_lists r) as (Hp & Hs & Hr & Hd & Hsrc). apply clean_app. split.
  - apply (clean_posts0 _ _ _ _ _ Hs Hr eq_refl eq_refl); unfold posted_sends, posted_recvs, sp, rp.
    + destruct (r =? root); [|constructor]. apply regions_apart_map; [apply NoDup_others|].
      intros i j [Hi _]%elem_others [Hj _]%elem_others Hij. by apply parts_apart_v.
    + destruct (r =? root); [set_solver|]. intros x y _ Hy. set_solver.
    + intros d x Hdx Hx. apply Hd in Hdx as [-> ->]. rewrite Z.eqb_refl in Hx. set_solver.
    + intros d x Hdx Hx. destruct (Z.eqb_spec r root) as [->|Hne]; [|set_solver].
      apply list_elem_of_fmap in Hx as (i & -> & [Hi Hne]%elem_others). apply elem_of_app in Hdx as [Hdx|Hdx].
      * apply Hd in Hdx as [_ ->]. by apply parts_apart_v.
      * apply Hsrc in Hdx as ->. by apply apart_buf.
  - apply clean_waits. unfold post. destruct (r =? root); [by apply waits_map|by repeat constructor].
Qed.

Lemma length_others : length (others root size) = Z.to_nat (size - 1).
Proof.
  assert (Permutation (root :: others root size) (seqZ 0 size)) as Hp.
  { apply NoDup_Permutation; [constructor; [by intros [_ ?]%elem_others|apply NoDup_others]|apply NoDup_seqZ|].
    intros i. rewrite elem_of_cons, elem_others, elem_of_seqZ. destruct (decide (i = root)); [subst; lia|lia]. }
  apply Permutation_length in Hp. rewrite length_seqZ in Hp. cbn in Hp. lia.
Qed.

Lemma gatherv_end r m :
  reaches (post r) m (bumps (posted_sends slot sp (λ p _, whole p) r) (λ _, O))
    (bumps (posted_recvs slot rp (λ _ p, part p) r) (λ _, O)) [] m (λ _, O) (λ _, O).
Proof.
  unfold post, posted_sends, posted_recvs, sp, rp. rewrite <-(app_nil_r (if r =? root then _ else _)).
  apply reaches_waits; [destruct (r =? root); [by apply waits_map|by repeat constructor]|..]; intros b; rewrite bumps_count.
  - destruct (r =? root); [by rewrite waits_send_recvs|]. unfold on_buf. cbn. unfold one. by destruct (decide (inb = b)).
  - destruct (r =? root); [|done]. rewrite waits_recv_map, (on_buf_map b outb), length_others, length_seqZ by done. done.
Qed.

Lemma gatherv_lemma :
  computes (group size (λ r, gatherv r size root tag es (Some inb) (Some outb) (count <$> ranks size) (bsize r))) mems
    (λ mems', ∀ p, 0 ≤ p < size → read (mems' root) (part p) = read (mems p) (whole p)).
Proof.
  rewrite (group_ext size _ (λ r, acts r ++ post r)) by apply gatherv_program.
  set (M := λ r, receives (mem_after (mems r) (acts r)) (posted_recvs slot rp (λ _ p, part p) r)
    (incoming slot rp (λ p _, whole p) mems r)).
  eapply computes_weaken.
  - apply (exchange_computes size slot sp rp (λ p _, whole p) (λ _ p, part p) acts post mems M).
    + intros r _. unfold sp, rp. destruct (r =? root); split; [constructor|apply NoDup_others|apply NoDup_singleton|constructor].
    + intros p q Hp. unfold sp, rp, in_group. destruct (p =? root); split; rewrite ?elem_others; set_solver.
    + intros p q Hp Hq. unfold sp, rp, in_group in *. destruct (Z.eqb_spec p root), (Z.eqb_spec q root);
        rewrite ?elem_others, ?list_elem_of_singleton; set_solver.
    + intros p q Hp _. split; [done|]. by apply sum_bound.
    + intros r _. by destruct (gatherv_lists r) as (? & ? & ? & _).
    + intros r d x _ Hd Hx. destruct (gatherv_lists r) as (_ & _ & _ & Hds & _). apply Hds in Hd as [-> ->].
      unfold posted_sends, sp in Hx. rewrite Z.eqb_refl in Hx. set_solver.
    + intros r _. apply gatherv_end.
    + intros r _. apply gatherv_clean.
  - intros m Hm p Hp. rewrite (Hm root) by done. unfold M, posted_recvs, incoming, rp, acts. rewrite Z.eqb_refl.
    destruct (gatherv_loop_lists 0 (mems root)) as (_ & _ & _ & _ & _ & ->); [lia|]. destruct (decide (p = root)) as [->|Hne].
    + rewrite receives_out.
      * case_decide as Hd; [apply read_copy; [done|apply sum_bound; lia]|].
        destruct (sum_bound root Hp) as [H0 _]. unfold read, part, whole. cbn [rg_len rg_off rg_buf].
        replace (es * count root) with 0 by lia. done.
      * intros x (i & -> & [Hi Hne]%elem_others)%list_elem_of_fmap. by apply parts_apart_v.
    + apply (read_received (λ p, mkXfer p slot (part p))).
      * apply regions_apart_map; [apply NoDup_others|]. intros i j [Hi _]%elem_others [Hj _]%elem_others Hij. by apply parts_apart_v.
      * apply Forall2_fmap, Forall_Forall2_diag, Forall_forall. intros i [Hi _]%elem_others.
        split; [done|]. split; [done|]. cbn. rewrite read_length; [done|]. cbn. by apply sum_bound.
      * by apply elem_others.
Qed.
End gatherv.

(** C25: gatherv gathers parts of different sizes. In every execution the
    collective ends, with the [count p] elements of process [p] at the offset
    that the counts before [p] add up to in the root's output. *)
Theorem gatherv_correct (size root tag es inb outb : Z) (count : Z → Z) (bsize : Z → Z → Z) (mems : Z → Mem) :
  1 ≤ size < 2 ^ 31 → 0 ≤ root < size → 0 < es → inb ≠ outb →
  (∀ r, 0 ≤ r < size → 0 ≤ count r) → es * sum_before count size < 2 ^ 64 →
  (∀ r, 0 ≤ r < size → es * count r ≤ bsize r inb) → bsize root inb = es * count root →
  computes (group size (λ r, gatherv r size root tag es (Some inb) (Some outb) (count <$> ranks size) (bsize r))) mems
    (λ mems', ∀ p, 0 ≤ p < size →
       read (mems' root) (mkRegion outb (es * sum_before count p) (es * count p)) =
       read (mems p) (mkRegion inb 0 (es * count p))).
Proof. apply gatherv_lemma. Qed.

Lemma gatherv_correct_witness :
  computes (group 3 (λ r, gatherv r 3 1 7 4 (Some 0) (Some 5) ((λ r, 2 * r) <$> ranks 3) (λ _, 4 * (2 * r)))) demo_mems
    (λ mems', ∀ p, 0 ≤ p < 3 →
       read (mems' 1) (mkRegion 5 (4 * sum_before (λ r, 2 * r) p) (4 * (2 * p))) = read (demo_mems p) (mkRegion 0 0 (4 * (2 * p)))).
Proof. apply (gatherv_correct 3 1 7 4 0 5 (λ r, 2 * r) (λ r _, 4 * (2 * r)) demo_mems); [lia..|done|lia|lia]. Defined.
