(* ===== verification/Broadcast.v ===== *)
(** Broadcast along a binomial tree: [src/gloo/broadcast.cc]. *)
From Stdlib Require Import FunctionalExtensionality.
From S2P Require Import Prelude Slots MathOps Net NetRun Groups.

(* ------------------------------------------------------------------ *)
(** * The program *)

(** The loop from round [i] on, [n] rounds before the last, and what follows
    it; [numSends] sends are pending. *)
Fixpoint broadcast_loop (n : nat) (vrank vsize root slot : Z) (whole_in whole_out : Region) (tail : nat → list Act)
    (i mask : Z) (numSends : nat) : list Act :=
  match n with
  | O => tail numSends
  | S n =>
      let mask := Z.lxor mask (Z.shiftl 1 i) in
      let next := broadcast_loop n vrank vsize root slot whole_in whole_out tail (i + 1) mask in
      if negb (Z.land vrank mask =? 0) then next numSends
      else
        let vpeer := Z.lxor vrank (Z.shiftl 1 i) in
        if vsize <=? vpeer then next numSends
        else
          let peer := u64 (vpeer + root) `mod` vsize in
          if Z.land vrank (Z.shiftl 1 i) =? 0 then
            Send (mkXfer peer slot whole_in) :: next (S numSends)
          else
            Recv (mkXfer peer slot whole_out) :: WaitRecv (rg_buf whole_out) :: next numSends
  end.

(** [broadcast(opts)]; shifting the [int] 1 by 31 or more is undefined. *)
Definition broadcast (rank size root tag elementSize : Z) (inb outb : option Z) (bsize : Z → Z) : list Act :=
  let slot := Slot_value (Slot_build kBroadcastSlotPrefix tag) in
  check (0 <? elementSize) ++
  check ((0 <=? root) && (root <? size)) ++
  needs outb (λ outb,
    (if rank =? root then match inb with Some inb => check (bsize inb =? bsize outb) | None => [] end
     else match inb with Some _ => check false | None => [] end) ++
    let inb := if rank =? root then default outb inb else outb in
    let vsize := size in
    let vrank := u64 (rank + vsize - root) `mod` vsize in
    let dim := log2ceil vsize in
    if 31 <=? dim then [Stop None] else
    broadcast_loop (Z.to_nat dim) vrank vsize root slot (mkRegion inb 0 (bsize inb)) (mkRegion outb 0 (bsize outb))
      (λ numSends,
        (if (rank =? root) && negb (inb =? outb)
         then [copy (mkRegion outb 0 (bsize outb)) (mkRegion inb 0 (bsize outb))] else []) ++
        replicate numSends (WaitSend inb))
      0 (Z.shiftl 1 dim - 1) 0).

(* ------------------------------------------------------------------ *)
(** * Masks *)

(** The mask at the start of round [i]. *)
Definition round_mask (dim i : Z) : Z := Z.ldiff (Z.ones dim) (Z.ones i).

Lemma round_mask_0 dim : 0 ≤ dim → Z.shiftl 1 dim - 1 = round_mask dim 0.
Proof. intros. unfold round_mask. change (Z.ones 0) with 0. rewrite Z.ldiff_0_r, Z.shiftl_1_l, Z.ones_equiv. lia. Qed.

Lemma round_mask_S dim i : 0 ≤ i < dim → Z.lxor (round_mask dim i) (Z.shiftl 1 i) = round_mask dim (i + 1).
Proof.
  intros Hi. unfold round_mask. rewrite Z.shiftl_1_l. apply Z.bits_inj'. intros k Hk.
  rewrite Z.lxor_spec, !Z.ldiff_spec, Z.pow2_bits_eqb, !Z.testbit_ones_nonneg by lia.
  destruct (Z.eqb_spec i k), (Z.ltb_spec k dim), (Z.ltb_spec k i), (Z.ltb_spec k (i + 1)); try done; lia.
Qed.

Lemma round_mask_land v dim i : 0 ≤ v < 2 ^ dim → 0 ≤ i ≤ dim → Z.land v (round_mask dim i) = 0 ↔ v < 2 ^ i.
Proof.
  intros Hv Hi. assert (Z.land v (round_mask dim i) = Z.shiftl (Z.shiftr v i) i) as ->.
  { unfold round_mask. rewrite <-Z.ldiff_ones_r by lia. apply Z.bits_inj'. intros k Hk.
    rewrite Z.land_spec, !Z.ldiff_spec, !Z.testbit_ones_nonneg by lia.
    destruct (Z.ltb_spec k dim); [by destruct (Z.testbit v k)|].
    assert (Z.testbit v k = false) as ->; [|done]. destruct (decide (v = 0)) as [->|]; [apply Z.testbit_0_l|].
    apply Z.bits_above_log2; [lia|]. apply Z.log2_lt_pow2; [lia|].
    apply Z.lt_le_trans with (2 ^ dim); [lia|]. apply Z.pow_le_mono_r; lia. }
  rewrite Z.shiftl_mul_pow2, Z.shiftr_div_pow2 by lia. pose proof (Z.pow_pos_nonneg 2 i). split.
  - intros H0. assert (v / 2 ^ i = 0) as Hz by nia. apply Z.div_small_iff in Hz; lia.
  - intros Hlt. by rewrite Z.div_small by lia.
Qed.

(** Bit [i] of a number with [i + 1] bits, and flipping it. *)
Lemma top_bit v i : 0 ≤ i → 0 ≤ v < 2 ^ (i + 1) →
  (Z.land v (Z.shiftl 1 i) = 0 ↔ v < 2 ^ i) ∧
  Z.lxor v (Z.shiftl 1 i) = if decide (v < 2 ^ i) then v + 2 ^ i else v - 2 ^ i.
Proof.
  intros Hi Hv. rewrite Z.shiftl_1_l. rewrite Z.pow_add_r in Hv by lia. change (2 ^ 1) with 2 in Hv.
  assert (∀ w, 0 ≤ w < 2 ^ i → Z.land w (2 ^ i) = 0) as Hland.
  { intros w Hw. apply Z.bits_inj'. intros k Hk. rewrite Z.land_spec, Z.pow2_bits_eqb, Z.testbit_0_l by lia.
    destruct (Z.eqb_spec i k) as [<-|]; [|by rewrite andb_false_r]. rewrite andb_true_r.
    destruct (decide (w = 0)) as [->|]; [apply Z.testbit_0_l|]. apply Z.bits_above_log2; [lia|]. apply Z.log2_lt_pow2; lia. }
  case_decide as Hlt.
  - pose proof (Hland v ltac:(lia)) as H0. split; [done|]. by rewrite <-Z.add_nocarry_lxor.
  - assert (0 ≤ v - 2 ^ i < 2 ^ i) as Hw by lia. pose proof (Hland _ Hw) as H0.
    assert (v = Z.lxor (v - 2 ^ i) (2 ^ i)) as Hx by (rewrite <-Z.add_nocarry_lxor; lia). split.
    + split; [|lia]. intros Hz. exfalso. assert (Z.testbit v i = false) as Hb.
      { pose proof (Z.land_spec v (2 ^ i) i) as Hs. rewrite Hz, Z.testbit_0_l, Z.pow2_bits_true, andb_true_r in Hs by lia. done. }
      rewrite Hx, Z.lxor_spec, Z.pow2_bits_true in Hb by lia.
      pose proof (Z.land_spec (v - 2 ^ i) (2 ^ i) i) as Hs. rewrite H0, Z.testbit_0_l, Z.pow2_bits_true, andb_true_r in Hs by lia.
      rewrite <-Hs in Hb. done.
    + rewrite Hx at 1. by rewrite Z.lxor_assoc, Z.lxor_nilpotent, Z.lxor_0_r.
Qed.

(* ------------------------------------------------------------------ *)
(** * The rounds

    Virtual rank [v] is [v] steps after the root; before round [i] the
    virtual ranks below [2^i] have the data. *)

Section broadcast.
Context (size root slot outb n : Z) (inb : option Z) (mems : Z → Mem).
Context (Hsize : 1 ≤ size ≤ 2 ^ 30) (Hroot : 0 ≤ root < size) (Hn : 0 ≤ n) (Hio : inb ≠ Some outb).

Let dim : Z := log2ceil size.
Let whole (b : Z) : Region := mkRegion b 0 n.
Let src (r : Z) : Z := if r =? root then default outb inb else outb.
Let vr (r : Z) : Z := (r - root) `mod` size.
Let rk (v : Z) : Z := (v + root) `mod` size.
Let data : list Z := read (mems root) (whole (src root)).
Let tail (r : Z) (ns : nat) : list Act :=
  (if (r =? root) && negb (src r =? outb) then [copy (whole outb) (whole (src r))] else []) ++
  replicate ns (WaitSend (src r)).
Let loop (i : Z) (r : Z) (ns : nat) : list Act :=
  broadcast_loop (Z.to_nat (dim - i)) (vr r) size root slot (whole (src r)) (whole outb) (tail r) i (round_mask dim i) ns.
Let sends (i r : Z) : Prop := vr r < 2 ^ i ∧ vr r + 2 ^ i < size.
Let receives_at (i r : Z) : Prop := 2 ^ i ≤ vr r < 2 ^ (i + 1).
Let M (i r : Z) : Mem := if decide (r ≠ root ∧ vr r < 2 ^ i) then write (mems r) (whole outb) data else mems r.

Lemma dim_bounds : 0 ≤ dim < 31 ∧ size ≤ 2 ^ dim.
Proof.
  destruct (log2ceil_bounds size) as [H1 H2]; [lia|]. fold dim in H1, H2. split; [|done]. split; [apply log2ceil_nonneg|].
  apply (Z.pow_lt_mono_r_iff 2); [lia|lia|]. change (2 ^ 31) with (2 * 2 ^ 30). lia.
Qed.

Lemma vr_range r : 0 ≤ vr r < size.
Proof. apply Z.mod_pos_bound. lia. Qed.

Lemma vr_root r : 0 ≤ r < size → vr r = 0 ↔ r = root.
Proof.
  intros Hr. unfold vr. rewrite <-(peer_inverse size 0 r root) by lia. rewrite Z.add_0_l, Z.mod_small by done. done.
Qed.

Lemma rk_vr r v : 0 ≤ r < size → 0 ≤ v < size → rk v = r ↔ v = vr r.
Proof. intros Hr Hv. unfold rk, vr. rewrite (peer_inverse size v r root) by lia. done. Qed.

Lemma loop_step i r ns : 0 ≤ i < dim →
  loop i r ns =
    if decide (sends i r) then Send (mkXfer (rk (vr r + 2 ^ i)) slot (whole (src r))) :: loop (i + 1) r (S ns)
    else if decide (receives_at i r) then
      Recv (mkXfer (rk (vr r - 2 ^ i)) slot (whole outb)) :: WaitRecv outb :: loop (i + 1) r ns
    else loop (i + 1) r ns.
Proof.
  intros Hi. pose proof (vr_range r) as Hv. destruct dim_bounds as [Hd1 Hd2]. unfold loop at 1.
  replace (Z.to_nat (dim - i)) with (S (Z.to_nat (dim - (i + 1)))) by lia. cbn [broadcast_loop].
  rewrite round_mask_S by done. pose proof (round_mask_land (vr r) dim (i + 1) ltac:(lia) ltac:(lia)) as Hm.
  assert (2 ^ (i + 1) = 2 * 2 ^ i) as Hp by (by rewrite Z.pow_add_r, Z.mul_comm by lia). unfold sends, receives_at.
  destruct (Z.eqb_spec (Z.land (vr r) (round_mask dim (i + 1))) 0) as [H0|H0]; cbn [negb].
  - apply Hm in H0. destruct (top_bit (vr r) i ltac:(lia) ltac:(lia)) as [Hb Hx]. rewrite Hx.
    pose proof (Z.pow_pos_nonneg 2 i). assert (0 < 2 ^ i ≤ 2 ^ 30) as Hi30.
    { split; [lia|]. apply Z.pow_le_mono_r; lia. }
    destruct (Z.eqb_spec (Z.land (vr r) (Z.shiftl 1 i)) 0) as [H1|H1].
    + apply Hb in H1. rewrite !(decide_True (P := vr r < 2 ^ i)) by done.
      rewrite (decide_False (P := _ ≤ vr r < _)) by lia. destruct (Z.leb_spec size (vr r + 2 ^ i)) as [Hle|Hlt].
      * rewrite decide_False by lia. done.
      * rewrite decide_True by lia. rewrite wrap_small by (unfold in_range; lia). done.
    + assert (2 ^ i ≤ vr r) as Hge by (destruct (Z.lt_ge_cases (vr r) (2 ^ i)) as [Hlt|]; [by apply Hb in Hlt|done]).
      rewrite !(decide_False (P := vr r < 2 ^ i)) by lia. rewrite (proj2 (Z.leb_gt _ _)) by lia.
      rewrite decide_False by lia. rewrite decide_True by lia. rewrite wrap_small by (unfold in_range; lia). done.
  - assert (2 ^ (i + 1) ≤ vr r) by (destruct (Z.lt_ge_cases (vr r) (2 ^ (i + 1))) as [Hlt|]; [by apply Hm in Hlt|done]).
    rewrite !decide_False by lia. done.
Qed.

Let pending (r : Z) (ns : nat) : Z → nat := λ b, if decide (b = src r) then ns else O.
Let before (i : Z) (s : Net) : Prop :=
  ∀ r, r ∈ ranks size → ∃ ns, rank_at (loop i r ns) (M i r) (pending r ns) (λ _, O) (nt_rk s r).

Lemma data_length : Z.of_nat (length data) = n.
Proof. apply (read_length (mems root) (whole (src root))). done. Qed.

Lemma M_keep i r : 0 ≤ i → ¬ receives_at i r → M (i + 1) r = M i r.
Proof.
  intros Hi Hr. unfold M, receives_at in *. apply decide_ext.
  assert (2 ^ i ≤ 2 ^ (i + 1)) by (apply Z.pow_le_mono_r; lia). lia.
Qed.

Lemma M_sends i r : 0 ≤ r < size → sends i r → read (M i r) (whole (src r)) = data.
Proof.
  intros Hr [Hv _]. unfold M. case_decide as Hd.
  - destruct Hd as [Hne _]. unfold src. rewrite (proj2 (Z.eqb_neq _ _)) by done.
    apply read_write_same. apply data_length.
  - assert (r = root) as -> by (destruct (decide (r = root)); tauto). done.
Qed.

Lemma M_receives i r : 0 ≤ i → 0 ≤ r < size → receives_at i r → M (i + 1) r = write (M i r) (whole outb) data.
Proof.
  intros Hi Hr [H1 H2]. pose proof (Z.pow_pos_nonneg 2 i). assert (r ≠ root) by (rewrite <-vr_root by done; lia).
  unfold M. rewrite decide_True by done. rewrite decide_False; [done|]. lia.
Qed.

Lemma bump_pending r ns : bump (src r) (pending r ns) = pending r (S ns).
Proof. extensionality b. unfold bump, pending. by case_decide. Qed.

Lemma broadcast_matched i p q sl : 0 ≤ i →
  datas (q, sl) (at_rank (ranks size) p
    (if decide (sends i p) then [mkMsg (rk (vr p + 2 ^ i)) slot data] else [])) =
  datas (p, sl) (at_rank (ranks size) q
    (if decide (receives_at i q) then [mkMsg (rk (vr q - 2 ^ i)) slot data] else [])).
Proof.
  intros Hi. pose proof (Z.pow_pos_nonneg 2 i). pose proof (vr_range p). pose proof (vr_range q).
  assert (2 ^ (i + 1) = 2 * 2 ^ i) as Hp2 by (by rewrite Z.pow_add_r, Z.mul_comm by lia).
  assert (∀ r r' d, 0 ≤ r < size → 0 ≤ vr r + d < size →
    datas (r', sl) [mkMsg (rk (vr r + d)) slot data] =
      if decide (slot = sl ∧ 0 ≤ r' < size ∧ vr r' = vr r + d) then [data] else []) as Hone.
  { intros r r' d Hr Hd. rewrite datas_cons. unfold on_msg. cbn [ms_peer ms_slot ms_data datas filter]. rewrite app_nil_r.
    apply decide_ext. split.
    - intros [= Hrk ->]. assert (0 ≤ r' < size) as Hr' by (rewrite <-Hrk; apply Z.mod_pos_bound; lia).
      apply (rk_vr r') in Hrk; [|done..]. auto.
    - intros (-> & Hr' & Hv). f_equal. by apply rk_vr. }
  unfold at_rank, sends, receives_at. destruct (decide (p ∈ ranks size)) as [Hp|Hp], (decide (q ∈ ranks size)) as [Hq|Hq];
    rewrite elem_ranks in Hp, Hq; [| | |done].
  - destruct (decide (vr p < 2 ^ i ∧ _)) as [Hs|Hs], (decide (2 ^ i ≤ vr q < _)) as [Hr|Hr]; [| | |done].
    + rewrite Hone by lia. replace (vr q - 2 ^ i) with (vr q + - 2 ^ i) by lia. rewrite Hone by lia.
      apply decide_ext. lia.
    + rewrite Hone by lia. rewrite decide_False; [done|]. lia.
    + replace (vr q - 2 ^ i) with (vr q + - 2 ^ i) by lia. rewrite Hone by lia. rewrite decide_False; [done|]. lia.
  - destruct (decide (vr p < 2 ^ i ∧ _)) as [Hs|Hs]; [|done]. rewrite Hone by lia. by rewrite decide_False by lia.
  - destruct (decide (2 ^ i ≤ vr q < _)) as [Hs|Hs]; [|done]. replace (vr q - 2 ^ i) with (vr q + - 2 ^ i) by lia.
    rewrite Hone by lia. by rewrite decide_False by lia.
Qed.

Lemma broadcast_round i s : 0 ≤ i < dim → (∀ c, nt_ch s c = []) → before i s →
  ∃ s', rtc net_step s s' ∧ (∀ c, nt_ch s' c = []) ∧ (∀ r, r ∉ ranks size → nt_rk s' r = nt_rk s r) ∧ before (i + 1) s'.
Proof.
  intros Hi Hc HR.
  destruct (net_round (ranks size) s
    (λ r, if decide (sends i r) then [mkMsg (rk (vr r + 2 ^ i)) slot data] else [])
    (λ r, if decide (receives_at i r) then [mkMsg (rk (vr r - 2 ^ i)) slot data] else [])
    (λ r R, ∃ ns, rank_at (loop (i + 1) r ns) (M (i + 1) r) (pending r ns) (λ _, O) R))
    as (s' & Hs & Hin & Hout & Hc'); [apply NoDup_seqZ|done| |intros; by apply broadcast_matched; lia|by exists s'].
  intros r Hr. destruct (HR r Hr) as [ns H]. apply elem_ranks in Hr. rewrite loop_step in H by done.
  assert (sends i r → ¬ receives_at i r) as Hno by (unfold sends, receives_at; lia).
  destruct (decide (sends i r)) as [Hs|Hs].
  - rewrite (decide_False (P := receives_at i r)) by auto.
    eapply (rank_round_post _ _ _ (rank_at (loop (i + 1) r (S ns)) (M (i + 1) r) (pending r (S ns)) (λ _, O))).
    + rewrite M_keep, <-(M_sends i r), <-bump_pending by (auto; lia).
      apply (rank_round_posts [Send _] _ _ _ _ _ [] H); by repeat constructor.
    + intros R1 HR1. exists R1. split; [constructor|]. by exists (S ns).
  - destruct (decide (receives_at i r)) as [Hrv|Hrv].
    + eapply rank_round_post.
      * apply (rank_round_posts [Recv _] _ _ _ _ _ [mkMsg (rk (vr r - 2 ^ i)) slot data] H); [by repeat constructor|].
        repeat constructor. apply data_length.
      * intros R1 HR1. rewrite (M_receives i r) by (auto; lia). cbn in HR1.
        destruct (reaches_at _ _ _ _ _ _ _ _ _ (reaches_waitRecv _ _ _ _ _) HR1) as (R2 & HL & HR2). exists R2. split; [done|]. by exists ns.
    + eapply rank_round_idle; [constructor|]. exists ns. by rewrite M_keep by (auto; lia).
Qed.

Lemma broadcast_rounds k : ∀ i s, Z.of_nat k = dim - i → 0 ≤ i → (∀ c, nt_ch s c = []) → before i s →
  ∃ s', rtc net_step s s' ∧ (∀ c, nt_ch s' c = []) ∧ (∀ r, r ∉ ranks size → nt_rk s' r = nt_rk s r) ∧ before dim s'.
Proof.
  induction k as [|k IH]; intros i s Hk Hi Hc Hb.
  - replace i with dim in Hb by lia. by exists s.
  - destruct (broadcast_round i s) as (s1 & Hs1 & Hc1 & Ho1 & Hb1); [lia|done..|].
    destruct (IH (i + 1) s1) as (s2 & Hs2 & Hc2 & Ho2 & Hb2); [lia|lia|done..|].
    exists s2. split; [by etrans|]. split; [done|]. split; [|done]. intros r Hr. by rewrite Ho2, Ho1.
Qed.

Lemma loop_end r ns : loop dim r ns = tail r ns.
Proof. unfold loop. by rewrite Z.sub_diag. Qed.

Lemma broadcast_clean r k : ∀ i ns h, Z.of_nat k = dim - i → 0 ≤ i →
  (∀ b, (on_buf b (h_recvs h) ≤ h_wr h b)%nat) → (∀ x, x ∈ h_sends h → rg_buf (x_reg x) = src r) →
  h_sends h = [] ∨ vr r < 2 ^ i → clean h (loop i r ns).
Proof.
  induction k as [|k IH]; intros i ns h Hk Hi Hrv Hsd Hv.
  - replace i with dim by lia. rewrite loop_end. apply clean_app. split.
    2: { apply clean_waits, Forall_replicate. done. }
    destruct ((r =? root) && negb (src r =? outb)) eqn:E; [|done]. apply andb_true_iff in E as [_ E%negb_true_iff%Z.eqb_neq].
    split; [|done]. split; [|split; [|repeat constructor]].
    1, 3: intros j y Hy%busy_waited; specialize (Hrv (x_buf y)); lia.
    apply clear_sends_all. intros y Hy%Hsd. apply apart_buf. by rewrite Hy.
  - rewrite loop_step by lia. assert (vr r < 2 ^ i → vr r < 2 ^ (i + 1)) as Hup.
    { intros H. pose proof (Z.pow_le_mono_r 2 i (i + 1)). lia. }
    destruct (decide (sends i r)) as [[Hs _]|Hs]; [|destruct (decide (receives_at i r)) as [[Hr1 Hr2]|Hr]].
    + split; [intros j y Hy%busy_waited; specialize (Hrv (x_buf y)); lia|].
      apply IH; [lia|lia|exact Hrv| |by right; apply Hup]. cbn. intros x [Hx|Hx%list_elem_of_singleton]%elem_of_app; [by apply Hsd|by subst].
    + destruct Hv as [Hv|Hv]; [|lia]. split; [split|split; [done|]].
      * intros j y Hy%busy_waited. specialize (Hrv (x_buf y)). lia.
      * apply clear_sends_all. rewrite Hv. set_solver.
      * apply IH; [lia|lia| |exact Hsd|by left]. intros b. specialize (Hrv b).
        change (on_buf b (h_recvs h ++ [mkXfer (rk (vr r - 2 ^ i)) slot (whole outb)]) ≤ bump outb (h_wr h) b)%nat.
        rewrite on_buf_app, on_buf_one. unfold bump. change (x_buf _) with outb.
        destruct (decide (outb = b)) as [->|Hb]; [rewrite decide_True by done; lia|rewrite decide_False by done; lia].
    + apply IH; [lia|lia|done|done|]. destruct Hv; [by left|right; by apply Hup].
Qed.

Lemma broadcast_lemma (bsize : Z → Z) (tag es : Z) :
  slot = Slot_value (Slot_build kBroadcastSlotPrefix tag) → 0 < es →
  (∀ b, Some b = inb → bsize b = n) → bsize outb = n →
  computes (group size (λ r, broadcast r size root tag es (if r =? root then inb else None) (Some outb) bsize)) mems
    (λ mems', ∀ r, 0 ≤ r < size → read (mems' r) (whole outb) = data).
Proof.
  intros Hslot Hes Hbi Hbo. destruct dim_bounds as [Hd1 Hd2].
  rewrite (group_ext size _ (λ r, loop 0 r 0)).
  2: { intros r Hr. unfold broadcast, check, needs. rewrite (proj2 (Z.ltb_lt 0 es)) by done.
       rewrite (proj2 (Z.leb_le 0 root)), (proj2 (Z.ltb_lt root size)) by lia. cbn [andb app].
       assert (bsize (src r) = n) as Hbs.
       { unfold src. destruct (r =? root); [|done]. destruct inb as [b|]; [by apply Hbi|done]. }
       assert ((if r =? root then match (if r =? root then inb else None) with Some b => if bsize b =? bsize outb then [] else [Stop (Some EnforceNotMet)] | None => [] end
         else match (if r =? root then inb else None) with Some _ => [Stop (Some EnforceNotMet)] | None => [] end) = @nil Act) as Hnil.
       { destruct (r =? root); [|done]. destruct inb as [b|]; [|done]. by rewrite Hbi, Hbo, Z.eqb_refl by done. }
       etransitivity; [apply (f_equal (λ l, l ++ _) Hnil)|]. cbn [app].
       assert ((if r =? root then default outb (if r =? root then inb else None) else outb) = src r) as ->.
       { unfold src. by destruct (r =? root). }
       fold dim. rewrite (proj2 (Z.leb_gt 31 dim)) by lia. rewrite round_mask_0 by lia. rewrite <-Hslot.
       rewrite wrap_small by (unfold in_range; lia). rewrite Hbs, Hbo. unfold loop. rewrite Z.sub_0_r.
       assert ((r + size - root) `mod` size = vr r) as ->; [|done].
       unfold vr. replace (r + size - root) with (r - root + 1 * size) by lia. by rewrite Z.mod_add by lia. }
  set (s := net_init (group size (λ r, loop 0 r 0)) mems).
  destruct (broadcast_rounds (Z.to_nat dim) 0 s) as (s' & Hs & Hc & Hout & Hb); [lia|lia|done| |].
  { intros r Hr%elem_ranks. exists O. unfold M. rewrite decide_False.
    - assert (pending r 0 = (λ _, O)) as -> by (extensionality b; unfold pending; by case_decide).
      by apply (group_at size (λ r, loop 0 r 0)).
    - intros [Hne Hv]. apply Hne, (vr_root r Hr). pose proof (vr_range r). change (2 ^ 0) with 1 in Hv. lia. }
  set (Mf := λ r, if (r =? root) && negb (src r =? outb)
    then compute (M dim r) (whole outb) (λ l, hd [] l) [whole (src r)] else M dim r).
  destruct (net_round (ranks size) s' (λ _, []) (λ _, []) (λ r R, rank_at [] (Mf r) (λ _, O) (λ _, O) R))
    as (s2 & Hs2 & Hin2 & Hout2 & _); [apply NoDup_seqZ|done| | |].
  { intros r Hr. destruct (Hb r Hr) as [ns H]. rewrite loop_end in H.
    assert (reaches (tail r ns) (M dim r) (pending r ns) (λ _, O) [] (Mf r) (λ _, O) (λ _, O)) as Ht.
    { unfold tail, Mf. destruct (_ && _); [eapply reaches_trans; [apply reaches_compute|]|]; cbn [app];
        rewrite <-(app_nil_r (replicate _ _)); apply reaches_waits; try (by apply Forall_replicate); intros b;
        by rewrite ?waits_send_replicate, ?waits_recv_replicate. }
    destruct (reaches_at _ _ _ _ _ _ _ _ _ Ht H) as (R' & HL & HR'). by eapply rank_round_idle. }
  { intros p q sl. unfold at_rank. by repeat case_decide. }
  eapply group_computes; [| |intros r Hr; by rewrite Hout2, Hout| |].
  - intros r Hr. eapply (broadcast_clean r (Z.to_nat dim)); [lia|lia|done|set_solver|by left].
  - by etrans.
  - intros r Hr. exists (λ _, O), (λ _, O). by apply Hin2.
  - intros r Hr. rewrite decide_True by done. unfold Mf. pose proof (vr_range r).
    destruct (Z.eqb_spec r root) as [->|Hne]; cbn [andb].
    + assert (M dim root = mems root) as -> by (unfold M; by rewrite decide_False by naive_solver).
      destruct (Z.eqb_spec (src root) outb) as [E|E]; cbn [negb]; [unfold data; by rewrite E|].
      by apply read_copy.
    + unfold M. rewrite decide_True by (split; [done|lia]). apply read_write_same, data_length.
Qed.
End broadcast.

(** C18: broadcast delivers the root's data. In every execution the collective
    ends, with the root's input (its output, when it has no input) in the
    output of every process. *)
Theorem broadcast_correct (size root tag elementSize outb n : Z) (inb : option Z) (bsize : Z → Z) (mems : Z → Mem) :
  1 ≤ size ≤ 2 ^ 30 → 0 ≤ root < size → 0 < elementSize → 0 ≤ n →
  inb ≠ Some outb → (∀ b, Some b = inb → bsize b = n) → bsize outb = n →
  computes (group size (λ r, broadcast r size root tag elementSize (if r =? root then inb else None) (Some outb) bsize)) mems
    (λ mems', ∀ r, 0 ≤ r < size →
       read (mems' r) (mkRegion outb 0 n) = read (mems root) (mkRegion (default outb inb) 0 n)).
Proof.
  intros Hs Hr He Hn Hio Hi Ho. eapply computes_weaken; [by eapply broadcast_lemma|].
  intros m Hm r Hr'. rewrite (Hm r Hr'). by rewrite Z.eqb_refl.
Qed.

Lemma broadcast_correct_witness :
  computes (group 5 (λ r, broadcast r 5 3 7 4 (if r =? 3 then Some 0 else None) (Some 1) (λ _, 8))) demo_mems
    (λ mems', ∀ r, 0 ≤ r < 5 → read (mems' r) (mkRegion 1 0 8) = read (demo_mems 3) (mkRegion 0 0 8)).
Proof. apply (broadcast_correct 5 3 7 4 1 8 (Some 0) (λ _, 8) demo_mems); [lia..|done|done|done]. Defined.
