(* ===== verification/Allgather.v ===== *)
(** Gathering from all to all along a ring: [src/gloo/allgather.cc] and
    [allgatherv.cc]. *)
From Stdlib Require Import FunctionalExtensionality.
From S2P Require Import Prelude Slots Net NetRun Groups Rounds.

(* ------------------------------------------------------------------ *)
(** * The programs *)

(** [GLOO_ENFORCE(peer == context->rank || context->getPair(peer), ...)] *)
Definition connected (rank : Z) (getPair : Z → bool) (peer : Z) : list Act := check ((peer =? rank) || getPair peer).

(** [allgather(opts)]; [getPair] tells which processes have a pair. *)
Definition allgather (rank size tag elementSize : Z) (inb outb : option Z) (bsize : Z → Z) (getPair : Z → bool) : list Act :=
  let slot := Slot_value (Slot_build kAllgatherSlotPrefix tag) in
  check (0 <? elementSize) ++
  let recvRank := (size + rank - 1) `mod` size in
  connected rank getPair recvRank ++
  let sendRank := (size + rank + 1) `mod` size in
  connected rank getPair sendRank ++
  deref outb (λ outb,
    (match inb with
     | Some inb => check (bsize outb =? u64 (bsize inb * size))
     | None => check (bsize outb `mod` size =? 0)
     end) ++
    let inBytes := bsize outb / size in
    let outBytes := bsize outb in
    (match inb with
     | Some inb => [copy (mkRegion outb (u64 (rank * bsize inb)) (bsize inb)) (mkRegion inb 0 (bsize inb))]
     | None => []
     end) ++
    if (size =? 1) || (outBytes =? 0) then [] else
    let chunkSize (i : Z) := if Z.land i 1 =? 0 then inBytes / 2 else inBytes - inBytes / 2 in
    let chunkOffset (i : Z) := if Z.land i 1 =? 0 then 0 else inBytes / 2 in
    (seqZ 0 ((size - 1) * 2) ≫= (λ i,
      let sendSegment := size + rank - i / 2 in
      let recvSegment := sendSegment - 1 in
      let sendOffset := u64 (u64 (sendSegment * inBytes) + chunkOffset i) `mod` outBytes in
      let recvOffset := u64 (u64 (recvSegment * inBytes) + chunkOffset i) `mod` outBytes in
      (if i <? 2 then [] else [WaitSend outb; WaitRecv outb]) ++
      [Send (mkXfer sendRank slot (mkRegion outb sendOffset (chunkSize i)));
       Recv (mkXfer recvRank slot (mkRegion outb recvOffset (chunkSize i)))])) ++
    (seqZ 0 2 ≫= (λ _, [WaitSend outb; WaitRecv outb]))).

(** The byte counts and offsets of the elements of each rank. *)
Fixpoint allgatherv_layout (offset : Z) (elements : list Z) (elementSize : Z) : list (Z * Z) * Z :=
  match elements with
  | [] => ([], offset)
  | e :: elements =>
      let bytes := u64 (e * elementSize) in
      let '(l, total) := allgatherv_layout (u64 (offset + bytes)) elements elementSize in
      ((offset, bytes) :: l, total)
  end.

(** [byteOffsets[i]], [byteCounts[i]] *)
Definition layout_at (l : list (Z * Z)) (i : Z) (k : Z → Z → list Act) : list Act :=
  match l !! Z.to_nat i with Some (offset, bytes) => k offset bytes | None => [Stop None] end.

(** [allgatherv(opts)] *)
Definition allgatherv (rank size tag elementSize : Z) (inb outb : option Z) (elements : list Z) (bsize : Z → Z)
    (getPair : Z → bool) : list Act :=
  let slot := Slot_value (Slot_build kAllgatherSlotPrefix tag) in
  check (0 <? elementSize) ++
  let recvRank := (size + rank - 1) `mod` size in
  connected rank getPair recvRank ++
  let sendRank := (size + rank + 1) `mod` size in
  connected rank getPair sendRank ++
  let '(layout, offset) := allgatherv_layout 0 elements elementSize in
  (match inb with
   | Some inb =>
       layout_at layout rank (λ off bytes,
         check (bytes =? bsize inb) ++
         if 0 <? bytes then deref outb (λ outb, [copy (mkRegion outb off (bsize inb)) (mkRegion inb 0 (bsize inb))]) else [])
   | None => []
   end) ++
  if (size =? 1) || (offset =? 0) then [] else
  deref outb (λ outb,
    let baseIndex := size + rank in
    (seqZ 0 (size - 1) ≫= (λ i,
      let sendIndex := (baseIndex - i) `mod` size in
      let recvIndex := (baseIndex - i - 1) `mod` size in
      (if i =? 0 then [] else [WaitSend outb; WaitRecv outb]) ++
      layout_at layout sendIndex (λ off bytes, [Send (mkXfer sendRank slot (mkRegion outb off bytes))]) ++
      layout_at layout recvIndex (λ off bytes, [Recv (mkXfer recvRank slot (mkRegion outb off bytes))]))) ++
    [WaitSend outb; WaitRecv outb]).

(** [AllgathervOptions::setOutput(buf, elements, elementSize)] *)
Definition allgatherv_setOutput (size cur : Z) (elements : list Z) (elementSize bufsize : Z) : outcome (Z * list Z) :=
  let totalElements := foldl (λ a e, u64 (a + e)) 0 elements in
  stored ← setElementSize cur elementSize;
  _ ← enforce (Z.of_nat (length elements) =? size);
  _ ← enforce (u64 (totalElements * elementSize) =? bufsize);
  Val (stored, elements).

(* ------------------------------------------------------------------ *)
(** * Passing blocks along a ring

    In round [i] every process sends block [sb i r] to the next one and
    receives the block that the previous one sends; the waits of a round come
    at once, or one round later ([lag]). *)

Section ring.
Context (B : Type) `{!EqDecision B} (size slot outb : Z) (K : nat) (lag : bool) (pre : Z → list Act) (mems M0 : Z → Mem).
Context (reg : B → Region) (ok : B → Prop) (data : B → list Z) (sb : nat → Z → B) (known : nat → Z → B → Prop).
Context (Hsize : 1 ≤ size).

Definition next_rank (r : Z) : Z := (r + 1) `mod` size.
Definition prev_rank (r : Z) : Z := (r - 1) `mod` size.
Definition ring_send (i : nat) (r : Z) : Xfer := mkXfer (next_rank r) slot (reg (sb i r)).
Definition ring_recv (i : nat) (r : Z) : Xfer := mkXfer (prev_rank r) slot (reg (sb i (prev_rank r))).
Definition ring_acts (i : nat) (r : Z) : list Act := [Send (ring_send i r); Recv (ring_recv i r)].
Definition ring_wait : list Act := [WaitSend outb; WaitRecv outb].
Definition ring_post (i : nat) : list Act := if lag then match i with O => [] | _ => ring_wait end else ring_wait.
Definition ring_fin : list Act := if lag then match K with O => [] | _ => ring_wait end else [].
Definition ring_prog (r : Z) : list Act :=
  pre r ++ rounds_from (λ i, ring_acts i r) (λ i, ring_post i) K 0 ++ ring_fin.

Context (Hreg : ∀ b, rg_buf (reg b) = outb).
Context (Hapart : ∀ b b', ok b → ok b' → b ≠ b' → apart (reg b) (reg b')).
Context (Hok : ∀ i r, (i < K)%nat → 0 ≤ r < size → ok (sb i r)).
Context (Hdata : ∀ b, ok b → Z.of_nat (length (data b)) = rg_len (reg b)).
Context (Hnew : ∀ i r, (i < K)%nat → 0 ≤ r < size → sb i (prev_rank r) ≠ sb i r).
Context (Hlag : ∀ i r, lag = true → (S i < K)%nat → 0 ≤ r < size →
  sb i (prev_rank r) ≠ sb (S i) r ∧ sb i (prev_rank r) ≠ sb (S i) (prev_rank r) ∧ sb i r ≠ sb (S i) (prev_rank r)).
Context (Hknown0 : ∀ r b, 0 ≤ r < size → known 0 r b → ok b ∧ read (M0 r) (reg b) = data b).
Context (Hknown : ∀ i r, (i < K)%nat → 0 ≤ r < size → known i r (sb i r)).
Context (HknownS : ∀ i r b, (i < K)%nat → 0 ≤ r < size → known (S i) r b → known i r b ∨ b = sb i (prev_rank r)).
Context (Hpre : ∀ r rest, 0 ≤ r < size → reaches (pre r ++ rest) (mems r) (λ _, O) (λ _, O) rest (M0 r) (λ _, O) (λ _, O)).
Context (Hpre_clean : ∀ r, 0 ≤ r < size → sends_of (pre r) = [] ∧ recvs_of (pre r) = [] ∧
  ∀ rest, fifo [] [] rest → fifo [] [] (pre r ++ rest)).

Definition ring_mem (i : nat) (r : Z) : Mem :=
  foldl (λ m j, write m (reg (sb j (prev_rank r))) (data (sb j (prev_rank r)))) (M0 r) (seq 0 i).

Lemma prev_in r : 0 ≤ prev_rank r < size.
Proof. apply Z.mod_pos_bound. lia. Qed.

Lemma ring_mem_S i r : ring_mem (S i) r = write (ring_mem i r) (reg (sb i (prev_rank r))) (data (sb i (prev_rank r))).
Proof. unfold ring_mem. by rewrite seq_S, foldl_snoc. Qed.

(** A process that knows a block has its data. *)
Lemma ring_known i r b : (i ≤ K)%nat → 0 ≤ r < size → known i r b → ok b ∧ read (ring_mem i r) (reg b) = data b.
Proof.
  induction i as [|i IH]; intros Hi Hr Hb; [by apply Hknown0|]. rewrite ring_mem_S.
  assert (ok (sb i (prev_rank r))) as Hsb by (apply Hok; [lia|apply prev_in]).
  assert (ok b) as Hokb.
  { apply HknownS in Hb as [Hb| ->]; [|done|lia|done]. apply IH; [lia|done..]. }
  split; [done|]. destruct (decide (b = sb i (prev_rank r))) as [->|Hne]; [by apply read_write_same, Hdata|].
  rewrite read_write by by apply Hapart. apply HknownS in Hb as [Hb|Hb]; [|done|lia|done]. apply IH; [lia|done..].
Qed.

Definition in_transit (i : nat) : nat := if lag then match i with O => O | _ => 1%nat end else O.
Definition ring_count (i : nat) (_ b : Z) : nat := if decide (b = outb) then in_transit i else O.

Lemma ring_wait_reaches rest m c c' : (∀ b, c b = (if decide (b = outb) then 1%nat else O) + c' b)%nat →
  reaches (ring_wait ++ rest) m c c rest m c' c'.
Proof.
  intros Hc. apply reaches_waits; [by repeat constructor| |]; intros b; rewrite Hc; cbn; unfold one;
    destruct (decide (outb = b)), (decide (b = outb)); congruence || lia.
Qed.

Lemma ring_posted i c b : bump outb (ring_count i c) b = ((if decide (b = outb) then 1%nat else O) + ring_count i c b)%nat.
Proof. unfold bump. by case_decide. Qed.

(** The operations in flight before round [i]. *)
Definition ring_pending (f : nat → Z → Xfer) (i : nat) (r : Z) : list Xfer :=
  if lag then match i with O => [] | S j => [f j r] end else [].

Lemma ring_buf i r : x_buf (ring_send i r) = outb ∧ x_buf (ring_recv i r) = outb.
Proof. split; apply Hreg. Qed.

Lemma ring_fifo_round i r rest : (i < K)%nat → 0 ≤ r < size →
  fifo (ring_pending ring_send (S i) r) (ring_pending ring_recv (S i) r) rest →
  fifo (ring_pending ring_send i r) (ring_pending ring_recv i r) (ring_acts i r ++ ring_post i ++ rest).
Proof.
  intros Hi Hr. pose proof (Hok i r Hi Hr) as Ho. pose proof (Hok i _ Hi (prev_in r)) as Ho'.
  assert (apart (reg (sb i r)) (reg (sb i (prev_rank r)))) as Hn by (apply Hapart; [done|done|]; by apply not_eq_sym, Hnew).
  unfold ring_pending, ring_post. destruct lag eqn:Hl; [|].
  - destruct i as [|j]; intros Hrest.
    + cbn. split; [constructor|]. split; [split; [constructor|by repeat constructor]|done].
    + destruct (Hlag j r) as (H1 & H2 & H3); [done|lia|done|].
      pose proof (Hok j r ltac:(lia) Hr) as Hoj. pose proof (Hok j _ ltac:(lia) (prev_in r)) as Hoj'.
      cbn [ring_acts app fifo ring_wait]. unfold all_apart.
      split; [by constructor; [apply Hapart|]|]. split.
      * split; [by constructor; [apply Hapart|]|]. by constructor; [apply Hapart|repeat constructor].
      * rewrite !retire_head by apply ring_buf. done.
  - intros Hrest. cbn [ring_acts app fifo ring_wait]. split; [constructor|]. split; [split; [constructor|by repeat constructor]|].
    by rewrite !retire_head by apply ring_buf.
Qed.

Lemma ring_channels r l (f : nat → Z → Xfer) : (∀ i, x_peer (f i r) = x_peer (f O r) ∧ x_slot (f i r) = x_slot (f O r)) →
  (∀ x, x ∈ l → ∃ i, x = f i r) → one_channel l.
Proof.
  intros Hf Hl x y [i ->]%Hl [j ->]%Hl _. destruct (Hf i), (Hf j). split; congruence.
Qed.

Lemma ring_ops k r : ∀ i,
  (∀ x, x ∈ sends_of (rounds_from (λ i, ring_acts i r) (λ i, ring_post i) k i) → ∃ j, x = ring_send j r) ∧
  (∀ x, x ∈ recvs_of (rounds_from (λ i, ring_acts i r) (λ i, ring_post i) k i) → ∃ j, x = ring_recv j r).
Proof.
  induction k as [|k IH]; intros i; [split; set_solver|]. cbn [rounds_from]. rewrite !sends_of_app, !recvs_of_app.
  destruct (IH (S i)) as [H1 H2]. assert (sends_of (ring_post i) = [] ∧ recvs_of (ring_post i) = []) as [-> ->].
  { unfold ring_post. by destruct lag, i. }
  cbn. split; intros x [->|Hx]%elem_of_cons; eauto.
Qed.

Lemma ring_clean r : 0 ≤ r < size → clean hist0 (ring_prog r).
Proof.
  intros Hr. destruct (Hpre_clean r Hr) as (Hps & Hpr & Hpf). destruct (ring_ops K r O) as [H1 H2].
  assert (sends_of ring_fin = [] ∧ recvs_of ring_fin = []) as [Hf1 Hf2] by (unfold ring_fin; by destruct lag, K).
  apply fifo_clean0; unfold ring_prog.
  - rewrite !sends_of_app, Hps, Hf1, app_nil_r. by apply (ring_channels r _ ring_send).
  - rewrite !recvs_of_app, Hpr, Hf2, app_nil_r. by apply (ring_channels r _ ring_recv).
  - apply Hpf. assert (ring_pending ring_send 0 r = []) as Es by (unfold ring_pending; by destruct lag).
    assert (ring_pending ring_recv 0 r = []) as Er by (unfold ring_pending; by destruct lag).
    rewrite <-Es at 1. rewrite <-Er. apply (fifo_rounds _ _ (λ i, ring_pending ring_send i r) (λ i, ring_pending ring_recv i r)).
    + intros j rest Hj. apply ring_fifo_round; [lia|done].
    + cbn [plus]. unfold ring_fin, ring_pending. destruct lag; [|done]. destruct K as [|k]; [done|].
      unfold ring_wait. cbn [fifo]. by rewrite !retire_head by apply ring_buf.
Qed.

Lemma next_prev r : 0 ≤ r < size → prev_rank (next_rank r) = r.
Proof. intros Hr. apply (peer_inverse size r (next_rank r) 1 Hr); [apply Z.mod_pos_bound; lia|done]. Qed.

Lemma ring_prog_nil :
  (λ r, pre r ++ rounds_from (λ i, ring_acts i r) (λ i, ring_post i) K 0 ++ ring_fin ++ []) = ring_prog.
Proof. extensionality r. unfold ring_prog. by rewrite app_nil_r. Qed.

Lemma ring_computes :
  computes (group size ring_prog) mems (λ mems', ∀ r b, 0 ≤ r < size → known K r b → read (mems' r) (reg b) = data b).
Proof.
  eapply computes_weaken; [apply (leads_computes size _ _ (ring_mem K)); [apply ring_clean|]|].
  - rewrite <-ring_prog_nil.
    apply (rounds_lead size K pre (λ _, ring_fin) (λ _, []) (λ i r, ring_acts i r) (λ i _, ring_post i) mems (ring_mem K) ring_mem
      ring_count ring_count (λ i r, [mkMsg (prev_rank r) slot (data (sb i (prev_rank r)))])).
    + intros r rest Hr. assert (ring_count 0 r = (λ _, O)) as ->; [|by apply Hpre].
      extensionality b. unfold ring_count, in_transit. by destruct (decide (b = outb)), lag.
    + intros. by repeat constructor.
    + intros i r Hi Hr. apply Forall2_cons. split; [|by apply Forall2_nil]. split; [done|]. split; [done|]. apply Hdata, Hok; [done|apply prev_in].
    + intros i p q sl Hi.
      rewrite (at_rank_ext size p _ (if true then [mkMsg ((p + 1) `mod` size) slot (data (sb i p))] else [])).
      2: { intros Hp. cbn. unfold msg_of. cbn. f_equal. f_equal. apply (ring_known i p); [lia|done|by apply Hknown]. }
      apply (ring_matched size 1 slot (λ _, true) (λ _, true) (λ p, data (sb i p)) (λ q, data (sb i (prev_rank q)))); [done|done|].
      intros r Hr _. change ((r + 1) `mod` size) with (next_rank r). by rewrite next_prev.
    + intros i r rest Hi Hr.
      change (receives _ _ _) with (write (ring_mem i r) (reg (sb i (prev_rank r))) (data (sb i (prev_rank r)))).
      rewrite <-ring_mem_S. unfold bumps. cbn [sends_of recvs_of omap list_omap ring_acts foldl].
      rewrite (proj1 (ring_buf i r)), (proj2 (ring_buf i r)).
      assert (∀ b, bump outb (ring_count i r) b = ((if ring_post i is [] then O else if decide (b = outb) then 1%nat else O) + ring_count (S i) r b)%nat) as Hb.
      { intros b. rewrite ring_posted. unfold ring_post, ring_count, in_transit. destruct lag, i; cbn; case_decide; lia. }
      destruct (ring_post i) as [|a l] eqn:E.
      * assert (bump outb (ring_count i r) = ring_count (S i) r) as -> by (extensionality b; apply Hb). apply reaches_refl.
      * rewrite <-E. assert (ring_post i = ring_wait) as ->; [|by apply ring_wait_reaches].
        unfold ring_post in *. by destruct lag, i.
    + intros r rest Hr. unfold ring_fin, ring_count, in_transit. destruct lag, K as [|k].
      1, 3, 4: assert ((λ b, if decide (b = outb) then O else O) = (λ _, O)) as -> by (extensionality b; by case_decide); apply reaches_refl.
      apply ring_wait_reaches. intros b. case_decide; lia.
  - intros m Hm r b Hr Hb. rewrite (Hm r Hr). by apply ring_known.
Qed.
End ring.

(* ------------------------------------------------------------------ *)
(** * allgather *)

Section allgather.
Context (size tag es outb n : Z) (inb : option Z) (bsize : Z → Z) (getPair : Z → Z → bool) (mems : Z → Mem).
Context (Hsize : 1 ≤ size ≤ 2 ^ 30) (Hes : 0 < es) (Hn : 0 ≤ n) (Hb : 2 * (size * n) < 2 ^ 64) (Hio : inb ≠ Some outb).
Context (Hbo : bsize outb = size * n) (Hbi : ∀ b, inb = Some b → bsize b = n).
Context (Hpair : ∀ p q, 0 ≤ p < size → 0 ≤ q < size → p ≠ q → getPair p q = true).

Let slot := Slot_value (Slot_build kAllgatherSlotPrefix tag).
Let off (h : bool) : Z := if h then n / 2 else 0.
Let len (h : bool) : Z := if h then n - n / 2 else n / 2.
Let inp (s : Z) : Region := match inb with Some b => mkRegion b 0 n | None => mkRegion outb (s * n) n end.
Let K : nat := if n =? 0 then O else Z.to_nat ((size - 1) * 2).
Let pre (r : Z) : list Act := match inb with Some b => [copy (mkRegion outb (r * n) n) (mkRegion b 0 n)] | None => [] end.
Let M0 (r : Z) : Mem :=
  match inb with Some b => compute (mems r) (mkRegion outb (r * n) n) (λ l, hd [] l) [mkRegion b 0 n] | None => mems r end.
Let reg (b : Z * bool) : Region := mkRegion outb (b.1 * n + off b.2) (len b.2).
Let ok (b : Z * bool) : Prop := 0 ≤ b.1 < size.
Let data (b : Z * bool) : list Z := read (mems b.1) (mkRegion (rg_buf (inp b.1)) (rg_off (inp b.1) + off b.2) (len b.2)).
Let half (i : nat) : bool := negb (Z.land (Z.of_nat i) 1 =? 0).
Let sb (i : nat) (r : Z) : Z * bool := ((r - Z.of_nat i / 2) `mod` size, half i).
Let bit (h : bool) : Z := if h then 1 else 0.
Let known (i : nat) (r : Z) (b : Z * bool) : Prop :=
  ∃ t, 0 ≤ t < size ∧ b.1 = (r - t) `mod` size ∧ (t = 0 ∨ 2 * (t - 1) + bit b.2 < Z.of_nat i).

Lemma half_bit i : bit (half i) = Z.of_nat i `mod` 2.
Proof.
  unfold bit, half. rewrite land_1.
  pose proof (Z.mod_pos_bound (Z.of_nat i) 2 ltac:(lia)). destruct (Z.eqb_spec (Z.of_nat i `mod` 2) 0); cbn; lia.
Qed.

Lemma half_S i : half (S i) ≠ half i.
Proof.
  intros He. pose proof (half_bit (S i)) as H1. rewrite He, half_bit in H1.
  pose proof (Z.div_mod (Z.of_nat i) 2). pose proof (Z.div_mod (Z.of_nat (S i)) 2). lia.
Qed.

Lemma off_len h : 0 ≤ off h ∧ 0 ≤ len h ∧ off h + len h ≤ n ∧ (0 < n → off h < n).
Proof. unfold off, len. pose proof (Z.div_mod n 2). pose proof (Z.mod_pos_bound n 2). destruct h; lia. Qed.

Lemma blocks_apart b b' : ok b → ok b' → b ≠ b' → apart (reg b) (reg b').
Proof.
  destruct b as [s h], b' as [s' h']. unfold ok. cbn [fst]. intros H1 H2 Hne. apply apart_off.
  unfold reg. cbn [rg_off rg_len fst snd]. pose proof (off_len h). pose proof (off_len h').
  destruct (Z.lt_trichotomy s s') as [Hlt|[->|Hgt]]; [left; nia| |right; nia].
  assert (h ≠ h') by congruence. unfold off, len in *. destruct h, h'; try done; lia.
Qed.

Lemma allgather_K i : (i < K)%nat → 0 ≤ Z.of_nat i / 2 < size - 1 ∧ 0 < n ∧ Z.of_nat i < (size - 1) * 2.
Proof.
  unfold K. destruct (Z.eqb_spec n 0); [lia|]. intros Hi. split; [|lia].
  pose proof (Z.div_mod (Z.of_nat i) 2). pose proof (Z.mod_pos_bound (Z.of_nat i) 2). lia.
Qed.

Lemma sb_prev i r : sb i (prev_rank size r) = ((r - (Z.of_nat i / 2 + 1)) `mod` size, half i).
Proof. unfold sb, prev_rank. rewrite Zminus_mod_idemp_l. do 2 f_equal. lia. Qed.

Lemma inp_start r b : 0 ≤ r < size → b.1 = r → ok b ∧ read (M0 r) (reg b) = data b.
Proof.
  destruct b as [s h]. cbn [fst]. intros Hr ->. split; [done|]. unfold data, reg. cbn [fst snd].
  assert (read (M0 r) (mkRegion outb (r * n) n) = read (mems r) (mkRegion (rg_buf (inp r)) (rg_off (inp r)) n)) as Hw.
  { unfold M0, inp. destruct inb as [b|]; [by apply read_copy|done]. }
  pose proof (off_len true). unfold off, len in *.
  apply (read_split_eq _ _ _ _ _ _ n (n / 2)) in Hw as [Hw1 Hw2]; [|lia]. destruct h; [done|by rewrite !Z.add_0_r].
Qed.

Lemma known_end r s h : 0 ≤ r < size → 0 ≤ s < size → 0 < n → known K r (s, h).
Proof.
  intros Hr Hs Hn0. exists ((r - s) `mod` size). split; [apply Z.mod_pos_bound; lia|]. cbn [fst snd]. split.
  - rewrite Zminus_mod_idemp_r. replace (r - (r - s)) with s by lia. by rewrite Z.mod_small.
  - unfold K. destruct (Z.eqb_spec n 0); [lia|]. pose proof (Z.mod_pos_bound (r - s) size). unfold bit. destruct h; lia.
Qed.

Lemma allgather_ring :
  computes (group size (ring_prog (Z * bool) size slot outb K true pre reg sb)) mems
    (λ mems', ∀ r b, 0 ≤ r < size → known K r b → read (mems' r) (reg b) = data b).
Proof.
  apply (ring_computes (Z * bool) size slot outb K true pre mems M0 reg ok data sb known); [lia|..].
  - done.
  - apply blocks_apart.
  - intros i r _ Hr. apply Z.mod_pos_bound. lia.
  - intros b _. unfold data. rewrite read_length; [done|]. apply off_len.
  - intros i r Hi Hr. destruct (allgather_K i Hi) as (H1 & _). rewrite sb_prev. unfold sb. intros [= He].
    apply (peer_neq size r (Z.of_nat i / 2 + 1) (Z.of_nat i / 2)) in He; lia.
  - intros i r _ _ _. rewrite !sb_prev. unfold sb. split; [|split]; intros [= _ He]; by apply (half_S i).
  - intros r b Hr (t & Ht & Hs & Hk). apply inp_start; [done|]. rewrite Hs.
    assert (t = 0) as -> by (unfold bit in Hk; destruct b.2; lia). rewrite Z.sub_0_r. by apply Z.mod_small.
  - intros i r Hi Hr. destruct (allgather_K i Hi) as (H1 & H2 & H3). exists (Z.of_nat i / 2). split; [lia|]. split; [done|].
    right. cbn [snd sb]. rewrite half_bit. pose proof (Z.div_mod (Z.of_nat i) 2). lia.
  - intros i r [s h] Hi Hr (t & Ht & Hs & Hk). cbn [fst snd] in *.
    destruct (decide (t = 0 ∨ 2 * (t - 1) + bit h < Z.of_nat i)) as [Hd|Hd]; [left; by exists t|right].
    assert (Z.of_nat i = 2 * (t - 1) + bit h) as Hi' by lia. rewrite sb_prev.
    pose proof (half_bit i) as Hh. assert (bit h = bit (half i)) as Hbit.
    { rewrite Hh, Hi'. rewrite Z.mul_comm, Z.add_comm, Z.mod_add by lia. unfold bit. by destruct h. }
    assert (Z.of_nat i / 2 = t - 1) as ->.
    { rewrite Hi', Z.mul_comm, Z.div_add_l by lia. unfold bit. destruct h; [change (1 / 2) with 0|change (0 / 2) with 0]; lia. }
    rewrite Hs. f_equal; [f_equal; lia|]. unfold bit in Hbit. by destruct h, (half i).
  - intros r rest Hr. unfold pre, M0. destruct inb; [apply reaches_compute|apply reaches_refl].
  - intros r Hr. unfold pre. destruct inb; (split; [done|split; [done|intros rest H]]); [|done]. cbn. by repeat constructor.
Qed.

Lemma allgather_program r : 0 ≤ r < size →
  allgather r size tag es inb (Some outb) bsize (getPair r) = ring_prog (Z * bool) size slot outb K true pre reg sb r.
Proof.
  intros Hr. unfold allgather, connected, check, deref. fold slot. rewrite (proj2 (Z.ltb_lt 0 es)) by done. cbn [app].
  destruct (next_prev_mod size r) as [-> ->]. fold (prev_rank size r) (next_rank size r).
  assert (∀ q, 0 ≤ q < size → (q =? r) || getPair r q = true) as Hq.
  { intros q Hq. destruct (Z.eqb_spec q r) as [|Hne]; [done|]. by apply Hpair. }
  rewrite (Hq (prev_rank size r)) by (apply Z.mod_pos_bound; lia).
  rewrite (Hq (next_rank size r)) by (apply Z.mod_pos_bound; lia). cbn [app].
  rewrite Hbo. rewrite (Z.mul_comm size n), Z.div_mul by lia.
  assert ((match inb with Some b => if n * size =? u64 (bsize b * size) then [] else [Stop (Some EnforceNotMet)]
    | None => if (n * size) `mod` size =? 0 then [] else [Stop (Some EnforceNotMet)] end) = @nil Act) as ->.
  { destruct inb as [b|]; [|by rewrite Z.mod_mul by lia]. rewrite (Hbi b) by done.
    rewrite wrap_small by (unfold in_range; nia). by rewrite Z.eqb_refl. }
  assert ((match inb with Some b => [copy (mkRegion outb (u64 (r * bsize b)) (bsize b)) (mkRegion b 0 (bsize b))] | None => [] end) = pre r) as ->.
  { unfold pre. destruct inb as [b|]; [|done]. rewrite (Hbi b) by done. by rewrite wrap_small by (unfold in_range; nia). }
  cbn [app]. unfold ring_prog. f_equal.
  destruct (Z.eqb_spec size 1) as [E1|E1]; [|destruct (Z.eqb_spec (n * size) 0) as [E2|E2]]; cbn [orb].
  { assert (K = O) as -> by (unfold K; rewrite E1; by destruct (n =? 0)). done. }
  { assert (K = O) as -> by (unfold K; assert (n = 0) as -> by nia; done). done. }
  assert (0 < n) as Hn0 by nia. assert (K = Z.to_nat ((size - 1) * 2)) as HK by (unfold K; by rewrite (proj2 (Z.eqb_neq n 0)) by lia).
  rewrite bind_seqZ, <-HK. change (seqZ 0 2 ≫= _) with (ring_wait outb ++ ring_wait outb). rewrite (assoc_L (++)).
  pose proof (waits_first (λ i, ring_acts (Z * bool) size slot reg sb i r)
    (λ i, if Z.of_nat i <? 2 then [] else ring_wait outb) K 0) as Hw.
  cbn [plus] in Hw. rewrite (proj2 (Z.ltb_ge (Z.of_nat K) 2)) in Hw by lia. cbn [app Z.of_nat Z.ltb] in Hw.
  change (0 <? 2) with true in Hw. cbn [app] in Hw.
  assert (ring_fin outb K true = ring_wait outb) as ->.
  { unfold ring_fin. destruct K; [lia|done]. }
  f_equal. etransitivity; [|etransitivity; [exact Hw|]].
  - f_equal. apply bind_ext_elem. intros i Hi%elem_of_seq. destruct (allgather_K i ltac:(lia)) as (H1 & _ & H2).
    f_equal. unfold ring_acts, ring_send, ring_recv. rewrite sb_prev. unfold reg, sb. cbn [fst snd].
    rewrite (Z.mul_comm n size). pose proof (off_len (half i)) as Ho.
    assert ((if Z.land (Z.of_nat i) 1 =? 0 then 0 else n / 2) = off (half i)) as ->.
    { unfold half, off. by destruct (Z.land (Z.of_nat i) 1 =? 0). }
    assert ((if Z.land (Z.of_nat i) 1 =? 0 then n / 2 else n - n / 2) = len (half i)) as ->.
    { unfold half, len. by destruct (Z.land (Z.of_nat i) 1 =? 0). }
    rewrite !segment_offset by (lia || nia).
    assert (∀ t, (size + r - t) `mod` size = (r - t) `mod` size) as Hmod.
    { intros t. replace (size + r - t) with (r - t + 1 * size) by lia. by rewrite Z.mod_add by lia. }
    rewrite Hmod. replace (size + r - Z.of_nat i / 2 - 1) with (size + r - (Z.of_nat i / 2 + 1)) by lia. by rewrite Hmod.
  - apply rounds_from_ext. intros j _. split; [done|]. unfold ring_post. destruct j; [done|].
    by rewrite (proj2 (Z.ltb_ge _ _)) by lia.
Qed.

Lemma allgather_lemma :
  computes (group size (λ r, allgather r size tag es inb (Some outb) bsize (getPair r))) mems
    (λ mems', ∀ r s, 0 ≤ r < size → 0 ≤ s < size → read (mems' r) (mkRegion outb (s * n) n) = read (mems s) (inp s)).
Proof.
  rewrite (group_ext size _ _ allgather_program). eapply computes_weaken; [apply allgather_ring|].
  intros m Hm r s Hr Hs. destruct (decide (n = 0)) as [->|Hn0].
  { unfold inp. by destruct inb. }
  pose proof (λ h, Hm r (s, h) Hr (known_end r s h Hr Hs ltac:(lia))) as H. unfold reg, data in H. cbn [fst snd] in H.
  assert (inp s = mkRegion (rg_buf (inp s)) (rg_off (inp s)) n) as -> by (unfold inp; by destruct inb).
  pose proof (off_len true). unfold off, len in *. apply (read_split_eq _ _ _ _ _ _ n (n / 2)); [lia|].
  split; [specialize (H false); by rewrite !Z.add_0_r in H|apply (H true)].
Qed.
End allgather.

(** C17: allgather gathers from all to all. In every execution the collective
    ends, with the input of every process [s] (its part of the output, when it
    runs in place) as part [s] of the output of every process. *)
Theorem allgather_correct (size tag elementSize outb n : Z) (inb : option Z) (bsize : Z → Z) (getPair : Z → Z → bool)
    (mems : Z → Mem) :
  1 ≤ size ≤ 2 ^ 30 → 0 < elementSize → 0 ≤ n → 2 * (size * n) < 2 ^ 64 → inb ≠ Some outb →
  bsize outb = size * n → (∀ b, inb = Some b → bsize b = n) →
  (∀ p q, 0 ≤ p < size → 0 ≤ q < size → p ≠ q → getPair p q = true) →
  computes (group size (λ r, allgather r size tag elementSize inb (Some outb) bsize (getPair r))) mems
    (λ mems', ∀ r s, 0 ≤ r < size → 0 ≤ s < size →
       read (mems' r) (mkRegion outb (s * n) n) =
       read (mems s) (match inb with Some b => mkRegion b 0 n | None => mkRegion outb (s * n) n end)).
Proof. intros. by apply allgather_lemma. Qed.

Lemma allgather_correct_witness :
  computes (group 3 (λ r, allgather r 3 7 4 (Some 0) (Some 1) (λ b, if b =? 0 then 12 else 36) (λ _, true))) demo_mems
    (λ mems', ∀ r s, 0 ≤ r < 3 → 0 ≤ s < 3 → read (mems' r) (mkRegion 1 (s * 12) 12) = read (demo_mems s) (mkRegion 0 0 12)).
Proof.
  apply (allgather_correct 3 7 4 1 12 (Some 0) (λ b, if b =? 0 then 12 else 36) (λ _ _, true) demo_mems);
    [lia..|done|done|by intros b [= <-]|done].
Defined.

(* ------------------------------------------------------------------ *)
(** * allgatherv *)

Lemma layout_sums es f n : 0 < es → (∀ i, 0 ≤ i < n → 0 ≤ f i) → es * sum_before f n < 2 ^ 64 →
  ∀ k a, 0 ≤ a → Z.of_nat k = n - a →
  allgatherv_layout (es * sum_before f a) (f <$> seqZ a (n - a)) es =
    ((λ i, (es * sum_before f i, es * f i)) <$> seqZ a (n - a), es * sum_before f n).
Proof.
  intros Hes Hf Hb. induction k as [|k IH]; intros a Ha Hk.
  - replace a with n by lia. rewrite Z.sub_diag. done.
  - rewrite seqZ_cons by lia. cbn [fmap list_fmap allgatherv_layout].
    pose proof (sum_before_mono f a n Hf ltac:(lia)). pose proof (sum_before_mono f (a + 1) n Hf ltac:(lia)) as H1.
    rewrite sum_before_S in H1 by done. pose proof (Hf a ltac:(lia)).
    rewrite (wrap_small 64 (f a * es)) by (unfold in_range; nia). rewrite wrap_small by (unfold in_range; nia).
    replace (es * sum_before f a + f a * es) with (es * sum_before f (a + 1)) by (rewrite sum_before_S by done; lia).
    replace (Z.pred (n - a)) with (n - (a + 1)) by lia. change (Z.succ a) with (a + 1).
    rewrite (IH (a + 1)) by lia. by rewrite (Z.mul_comm (f a)).
Qed.

Section allgatherv.
Context (size tag es outb : Z) (count : Z → Z) (inb : option Z) (bsize : Z → Z → Z) (getPair : Z → Z → bool) (mems : Z → Mem).
Context (Hsize : 1 ≤ size ≤ 2 ^ 30) (Hes : 0 < es) (Hio : inb ≠ Some outb).
Context (Hc : ∀ r, 0 ≤ r < size → 0 ≤ count r) (Hb : es * sum_before count size < 2 ^ 64).
Context (Hbi : ∀ r b, 0 ≤ r < size → inb = Some b → bsize r b = es * count r).
Context (Hpair : ∀ p q, 0 ≤ p < size → 0 ≤ q < size → p ≠ q → getPair p q = true).

Let slot := Slot_value (Slot_build kAllgatherSlotPrefix tag).
Let total : Z := es * sum_before count size.
Let reg (s : Z) : Region := mkRegion outb (es * sum_before count s) (es * count s).
Let inp (s : Z) : Region := match inb with Some b => mkRegion b 0 (es * count s) | None => reg s end.
Let K : nat := if total =? 0 then O else Z.to_nat (size - 1).
Let pre (r : Z) : list Act :=
  match inb with
  | Some b => if 0 <? es * count r then [copy (reg r) (mkRegion b 0 (es * count r))] else []
  | None => []
  end.
Let M0 (r : Z) : Mem :=
  match inb with
  | Some b => if 0 <? es * count r then compute (mems r) (reg r) (λ l, hd [] l) [mkRegion b 0 (es * count r)] else mems r
  | None => mems r
  end.
Let data (s : Z) : list Z := read (mems s) (inp s).
Let ok (s : Z) : Prop := 0 ≤ s < size.
Let sb (i : nat) (r : Z) : Z := (r - Z.of_nat i) `mod` size.
Let known (i : nat) (r s : Z) : Prop := ∃ t, 0 ≤ t < size ∧ t ≤ Z.of_nat i ∧ s = (r - t) `mod` size.

Lemma sb_prev_v i r : sb i (prev_rank size r) = (r - (Z.of_nat i + 1)) `mod` size.
Proof. unfold sb, prev_rank. rewrite Zminus_mod_idemp_l. f_equal. lia. Qed.

Lemma allgatherv_K0 : size = 1 ∨ total = 0 → K = O.
Proof. unfold K. destruct (Z.eqb_spec total 0); [done|]. intros [->|]; done. Qed.
Lemma allgatherv_K1 : total ≠ 0 → K = Z.to_nat (size - 1).
Proof. intros. unfold K. by rewrite (proj2 (Z.eqb_neq _ _)). Qed.

Lemma allgatherv_K i : (i < K)%nat → Z.of_nat i < size - 1.
Proof. unfold K. destruct (total =? 0); lia. Qed.

Lemma allgatherv_ring :
  computes (group size (ring_prog Z size slot outb K false pre reg sb)) mems
    (λ mems', ∀ r b, 0 ≤ r < size → known K r b → read (mems' r) (reg b) = data b).
Proof.
  apply (ring_computes Z size slot outb K false pre mems M0 reg ok data sb known); [lia|..].
  - done.
  - intros b b' H1 H2 Hne. by apply (sums_apart count es outb size).
  - intros i r _ Hr. apply Z.mod_pos_bound. lia.
  - intros b Hbs. unfold data. specialize (Hc b Hbs). unfold inp. rewrite read_length; [by destruct inb|].
    destruct inb; cbn; nia.
  - intros i r Hi Hr He. apply allgatherv_K in Hi. rewrite sb_prev_v in He. unfold sb in He.
    apply (peer_neq size r (Z.of_nat i + 1) (Z.of_nat i)) in He; lia.
  - done.
  - intros r b Hr (t & Ht & Hti & ->). assert (t = 0) as -> by lia. rewrite Z.sub_0_r, Z.mod_small by done.
    split; [done|]. unfold M0, data, inp. destruct inb as [b|]; [|done]. specialize (Hc r Hr).
    destruct (Z.ltb_spec 0 (es * count r)); [by apply read_copy; [|cbn; lia]|].
    assert (es * count r = 0) as E by nia. unfold reg. by rewrite E.
  - intros i r Hi Hr. apply allgatherv_K in Hi. exists (Z.of_nat i). split; [lia|]. split; [lia|done].
  - intros i r s Hi Hr (t & Ht & Hti & ->). apply allgatherv_K in Hi.
    destruct (decide (t ≤ Z.of_nat i)); [left; by exists t|right]. rewrite sb_prev_v. do 2 f_equal. lia.
  - intros r rest Hr. unfold pre, M0. destruct inb; [|apply reaches_refl]. destruct (0 <? _); [apply reaches_compute|apply reaches_refl].
  - intros r Hr. unfold pre. destruct inb; [|done]. destruct (0 <? _); [|done].
    split; [done|split; [done|intros rest H]]. cbn. by repeat constructor.
Qed.

Lemma layout_here i k : 0 ≤ i < size →
  layout_at ((λ i, (es * sum_before count i, es * count i)) <$> ranks size) i k = k (es * sum_before count i) (es * count i).
Proof.
  intros Hi. unfold layout_at, ranks. rewrite list_lookup_fmap, lookup_seqZ_lt by lia. cbn. by rewrite Z2Nat.id, Z.add_0_l by lia.
Qed.

Lemma allgatherv_program r : 0 ≤ r < size →
  allgatherv r size tag es inb (Some outb) (count <$> ranks size) (bsize r) (getPair r) =
    ring_prog Z size slot outb K false pre reg sb r.
Proof.
  intros Hr. unfold allgatherv, connected, check, deref. fold slot. rewrite (proj2 (Z.ltb_lt 0 es)) by done. cbn [app].
  destruct (next_prev_mod size r) as [-> ->]. fold (prev_rank size r) (next_rank size r).
  assert (∀ q, 0 ≤ q < size → (q =? r) || getPair r q = true) as Hq.
  { intros q Hq. destruct (Z.eqb_spec q r) as [|Hne]; [done|]. by apply Hpair. }
  rewrite (Hq (prev_rank size r)) by (apply Z.mod_pos_bound; lia).
  rewrite (Hq (next_rank size r)) by (apply Z.mod_pos_bound; lia). cbn [app].
  pose proof (layout_sums es count size Hes Hc Hb (Z.to_nat size) 0 ltac:(lia) ltac:(lia)) as Hl.
  rewrite Z.sub_0_r in Hl. change (es * sum_before count 0) with (es * 0) in Hl. rewrite Z.mul_0_r in Hl.
  unfold ranks at 1. rewrite Hl. unfold ring_prog. f_equal.
  - unfold pre. destruct inb as [b|] eqn:E; [|done]. rewrite layout_here by done. rewrite (Hbi r b), Z.eqb_refl by done. done.
  - fold total. destruct (Z.eqb_spec size 1) as [E1|E1]; [by rewrite allgatherv_K0 by auto|].
    destruct (Z.eq_dec total 0) as [E2|E2]; [rewrite allgatherv_K0 by auto; by rewrite E2|].
    rewrite (proj2 (Z.eqb_neq total 0) E2). cbn [orb]. assert (K = Z.to_nat (size - 1)) as HK by by apply allgatherv_K1.
    rewrite bind_seqZ, <-HK. change [WaitSend outb; WaitRecv outb] with (ring_wait outb).
    pose proof (waits_first (λ i, ring_acts Z size slot reg sb i r) (λ i, if Z.of_nat i =? 0 then [] else ring_wait outb) K 0) as Hw.
    cbn [plus] in Hw. rewrite (proj2 (Z.eqb_neq (Z.of_nat K) 0)) in Hw by lia. cbn [app Z.of_nat Z.eqb] in Hw.
    etransitivity; [|etransitivity; [exact Hw|]].
    + f_equal. apply bind_ext_elem. intros i Hi%elem_of_seq.
      assert (∀ t, (size + r - t) `mod` size = (r - t) `mod` size) as Hmod.
      { intros t. replace (size + r - t) with (r - t + 1 * size) by lia. by rewrite Z.mod_add by lia. }
      rewrite Hmod. replace (size + r - Z.of_nat i - 1) with (size + r - (Z.of_nat i + 1)) by lia. rewrite Hmod.
      f_equal. change (seqZ 0 size) with (ranks size). rewrite !layout_here by (apply Z.mod_pos_bound; lia).
      unfold ring_acts, ring_send, ring_recv. by rewrite sb_prev_v.
    + rewrite app_nil_r. apply rounds_from_ext. intros j _. split; [done|].
      by rewrite (proj2 (Z.eqb_neq _ _)) by lia.
Qed.

Lemma allgatherv_lemma :
  computes (group size (λ r, allgatherv r size tag es inb (Some outb) (count <$> ranks size) (bsize r) (getPair r))) mems
    (λ mems', ∀ r s, 0 ≤ r < size → 0 ≤ s < size → read (mems' r) (reg s) = read (mems s) (inp s)).
Proof.
  rewrite (group_ext size _ _ allgatherv_program). eapply computes_weaken; [apply allgatherv_ring|].
  intros m Hm r s Hr Hs. destruct (decide (total = 0)) as [Ht|Ht].
  - pose proof (Hc s Hs). pose proof (sum_before_mono count (s + 1) size Hc ltac:(lia)) as H1.
    pose proof (sum_before_mono count s size Hc ltac:(lia)). rewrite sum_before_S in H1 by lia.
    assert (es * count s = 0) as E by (unfold total in Ht; nia).
    unfold reg, inp, reg. rewrite E. by destruct inb.
  - apply Hm; [done|]. exists ((r - s) `mod` size). pose proof (Z.mod_pos_bound (r - s) size). split; [lia|]. split.
    + unfold K. rewrite (proj2 (Z.eqb_neq _ _)) by done. lia.
    + rewrite Zminus_mod_idemp_r. replace (r - (r - s)) with s by lia. by rewrite Z.mod_small.
Qed.
End allgatherv.

(** allgatherv gathers parts of different sizes from all to all. In every
    execution the collective ends, with the elements of every process [s] at
    the offset that the counts before [s] add up to, at every process. *)
Theorem allgatherv_correct (size tag elementSize outb : Z) (count : Z → Z) (inb : option Z) (bsize : Z → Z → Z)
    (getPair : Z → Z → bool) (mems : Z → Mem) :
  1 ≤ size ≤ 2 ^ 30 → 0 < elementSize → inb ≠ Some outb →
  (∀ r, 0 ≤ r < size → 0 ≤ count r) → elementSize * sum_before count size < 2 ^ 64 →
  (∀ r b, 0 ≤ r < size → inb = Some b → bsize r b = elementSize * count r) →
  (∀ p q, 0 ≤ p < size → 0 ≤ q < size → p ≠ q → getPair p q = true) →
  computes (group size (λ r,
      allgatherv r size tag elementSize inb (Some outb) (count <$> ranks size) (bsize r) (getPair r))) mems
    (λ mems', ∀ r s, 0 ≤ r < size → 0 ≤ s < size →
       let part := mkRegion outb (elementSize * sum_before count s) (elementSize * count s) in
       read (mems' r) part =
       read (mems s) (match inb with Some b => mkRegion b 0 (elementSize * count s) | None => part end)).
Proof. intros. by apply allgatherv_lemma. Qed.

Lemma allgatherv_correct_witness :
  computes (group 3 (λ r, allgatherv r 3 7 4 None (Some 1) ((λ r, 2 * r) <$> ranks 3) (λ _, 24) (λ _, true))) demo_mems
    (λ mems', ∀ r s, 0 ≤ r < 3 → 0 ≤ s < 3 →
       let part := mkRegion 1 (4 * sum_before (λ r, 2 * r) s) (4 * (2 * s)) in
       read (mems' r) part = read (demo_mems s) part).
Proof. apply (allgatherv_correct 3 7 4 1 (λ r, 2 * r) None (λ _ _, 24) (λ _ _, true) demo_mems); [lia..|done|lia|done|done|done]. Defined.
