(* ===== verification/Alltoall.v ===== *)
(** All-to-all exchanges: [src/gloo/alltoall.cc] and [alltoallv.cc]. *)
From Stdlib Require Import FunctionalExtensionality.
From S2P Require Import Prelude Slots Net NetRun Groups.

(* ------------------------------------------------------------------ *)
(** * The programs *)

(** [alltoall(opts)] *)
Definition alltoall (myRank worldSize tag elementSize : Z) (inb outb : option Z) (bsize : Z → Z) : list Act :=
  let slot := Slot_value (Slot_build kAlltoallSlotPrefix tag) in
  check (0 <? elementSize) ++
  needs inb (λ inb, needs outb (λ outb,
    check (bsize inb `mod` worldSize =? 0) ++
    check (bsize inb =? bsize outb) ++
    let chunkSize := bsize inb / worldSize in
    let part b r := mkRegion b (u64 (r * chunkSize)) chunkSize in
    [copy (part outb myRank) (part inb myRank)] ++
    (seqZ 1 (worldSize - 1) ≫= (λ i,
      let sendRank := (myRank + i) `mod` worldSize in
      let recvRank := (myRank + worldSize - i) `mod` worldSize in
      [Send (mkXfer sendRank slot (part inb sendRank)); Recv (mkXfer recvRank slot (part outb recvRank))])) ++
    (seqZ 1 (worldSize - 1) ≫= (λ _, [WaitSend inb; WaitRecv outb])))).

(** [splitOffsetsAndLengths(elementsPerRank, elementSize, offsets, lengths)],
    from an offset on: the offset and length of each rank. *)
Fixpoint splitOffsetsAndLengths (offset : Z) (elementsPerRank : list Z) (elementSize : Z) : list (Z * Z) :=
  match elementsPerRank with
  | [] => []
  | elements :: rest =>
      let length := u64 (elements * elementSize) in
      (offset, length) :: splitOffsetsAndLengths (u64 (offset + length)) rest elementSize
  end.

(** [alltoallv(opts)]; [ins] and [outs] are the offsets and lengths that
    [setInput] and [setOutput] computed. *)
Definition at_rank_of (l : list (Z * Z)) (r : Z) (b : Z) (k : Region → list Act) : list Act :=
  match l !! Z.to_nat r with Some (o, n) => k (mkRegion b o n) | None => [Stop None] end.

Definition alltoallv (myRank worldSize tag elementSize : Z) (inb outb : option Z) (ins outs : list (Z * Z)) : list Act :=
  let slot := Slot_value (Slot_build kAlltoallSlotPrefix tag) in
  check (0 <? elementSize) ++
  needs inb (λ inb, needs outb (λ outb,
    at_rank_of ins myRank inb (λ i, at_rank_of outs myRank outb (λ o,
      check (rg_len i =? rg_len o) ++ [copy (mkRegion outb (rg_off o) (rg_len i)) i])) ++
    (seqZ 1 (worldSize - 1) ≫= (λ i,
      let sendRank := (myRank + i) `mod` worldSize in
      let recvRank := (myRank + worldSize - i) `mod` worldSize in
      at_rank_of ins sendRank inb (λ x, [Send (mkXfer sendRank slot x)]) ++
      at_rank_of outs recvRank outb (λ x, [Recv (mkXfer recvRank slot x)]))) ++
    (seqZ 1 (worldSize - 1) ≫= (λ _, [WaitSend inb; WaitRecv outb])))).

(** [AlltoallvOptions::setInput], [setOutput]: the element counts must cover
    the group and the buffer. *)
Definition alltoallv_set (size cur : Z) (elementsPerRank : list Z) (elementSize bufsize : Z) : outcome (Z * list (Z * Z)) :=
  let totalElements := foldl (λ a e, u64 (a + e)) 0 elementsPerRank in
  stored ← setElementSize cur elementSize;
  _ ← enforce (Z.of_nat (length elementsPerRank) =? size);
  _ ← enforce (u64 (totalElements * elementSize) =? bufsize);
  Val (stored, splitOffsetsAndLengths 0 elementsPerRank elementSize).

(* ------------------------------------------------------------------ *)
(** * The exchange

    Every process [r] has a part [xs r q] for each [q], and a place [ro r p]
    for what comes from [p]. *)

Section alltoall.
Context (size slot inb outb : Z) (xs ro : Z → Z → Region) (mems : Z → Mem).
Context (Hsize : 1 ≤ size < 2 ^ 31) (Hio : inb ≠ outb).
Context (Hxs : ∀ p q, rg_buf (xs p q) = inb) (Hro : ∀ p q, rg_buf (ro p q) = outb).
Context (Hlen : ∀ p q, 0 ≤ p < size → 0 ≤ q < size → rg_len (xs p q) = rg_len (ro q p) ∧ 0 ≤ rg_len (ro q p)).
Context (Hapart : ∀ r p q, 0 ≤ r < size → 0 ≤ p < size → 0 ≤ q < size → p ≠ q → apart (ro r p) (ro r q)).

Let own (r : Z) : Act := copy (ro r r) (xs r r).
Let pair_of (r i : Z) : list Act :=
  [Send (mkXfer ((r + i) `mod` size) slot (xs r ((r + i) `mod` size)));
   Recv (mkXfer ((r + size - i) `mod` size) slot (ro r ((r + size - i) `mod` size)))].
Definition exchange_acts (r : Z) : list Act := own r :: (seqZ 1 (size - 1) ≫= pair_of r).
Definition exchange_waits : list Act := seqZ 1 (size - 1) ≫= (λ _, [WaitSend inb; WaitRecv outb]).
Let sp (r : Z) : list Z := (λ i, (r + i) `mod` size) <$> seqZ 1 (size - 1).
Let rp (r : Z) : list Z := (λ i, (r + size - i) `mod` size) <$> seqZ 1 (size - 1).

Lemma ring_dist r q : 0 ≤ r < size → 0 ≤ q < size → q ≠ r →
  1 ≤ (q - r) `mod` size < size ∧ (r + (q - r) `mod` size) `mod` size = q.
Proof.
  intros Hr Hq Hne. assert ((r + (q - r) `mod` size) `mod` size = q) as He.
  { rewrite Zplus_mod_idemp_r. replace (r + (q - r)) with q by lia. by apply Z.mod_small. }
  split; [|done]. pose proof (Z.mod_pos_bound (q - r) size). destruct (decide ((q - r) `mod` size = 0)) as [E|]; [|lia].
  rewrite E, Z.add_0_r, Z.mod_small in He by done. congruence.
Qed.

Lemma elem_sp r q : 0 ≤ r < size → (q ∈ sp r ↔ 0 ≤ q < size ∧ q ≠ r).
Proof.
  intros Hr. unfold sp. rewrite list_elem_of_fmap. setoid_rewrite elem_of_seqZ. split.
  - intros (i & -> & Hi). split; [apply Z.mod_pos_bound; lia|]. intros He.
    assert (i = 0); [|lia]. apply (mod_shift_inj size r); [lia|lia|]. rewrite He, Z.add_0_r. symmetry. by apply Z.mod_small.
  - intros [Hq Hne]. exists ((q - r) `mod` size). destruct (ring_dist r q Hr Hq Hne). split; [done|lia].
Qed.

Lemma elem_rp r p : 0 ≤ r < size → (p ∈ rp r ↔ 0 ≤ p < size ∧ p ≠ r).
Proof.
  intros Hr. unfold rp. rewrite list_elem_of_fmap. setoid_rewrite elem_of_seqZ. split.
  - intros (i & -> & Hi). split; [apply Z.mod_pos_bound; lia|]. intros He.
    assert (size - i = 0); [|lia]. apply (mod_shift_inj size r); [lia|lia|]. rewrite Z.add_0_r.
    replace (r + (size - i)) with (r + size - i) by lia. rewrite He. symmetry. by apply Z.mod_small.
  - intros [Hp Hne]. exists (size - (p - r) `mod` size). destruct (ring_dist r p Hr Hp Hne) as [H1 H2]. split; [|lia].
    by replace (r + size - (size - (p - r) `mod` size)) with (r + (p - r) `mod` size) by lia.
Qed.

Lemma NoDup_sp r : NoDup (sp r).
Proof.
  apply NoDup_fmap_2_strong; [|apply NoDup_seqZ]. intros i j Hi%elem_of_seqZ Hj%elem_of_seqZ.
  apply mod_shift_inj; lia.
Qed.
Lemma NoDup_rp r : NoDup (rp r).
Proof.
  apply NoDup_fmap_2_strong; [|apply NoDup_seqZ]. intros i j Hi%elem_of_seqZ Hj%elem_of_seqZ H.
  assert (size - i = size - j); [|lia]. apply (mod_shift_inj size r); [lia|lia|].
  replace (r + (size - i)) with (r + size - i) by lia. replace (r + (size - j)) with (r + size - j) by lia. done.
Qed.

Lemma exchange_lists r : Forall is_post (exchange_acts r) ∧
  sends_of (exchange_acts r) = posted_sends slot sp xs r ∧ recvs_of (exchange_acts r) = posted_recvs slot rp ro r ∧
  dsts_of (exchange_acts r) = [ro r r] ∧ srcs_of (exchange_acts r) = [xs r r] ∧
  mem_after (mems r) (exchange_acts r) = compute (mems r) (ro r r) (λ l, hd [] l) [xs r r].
Proof.
  unfold exchange_acts, posted_sends, posted_recvs, sp, rp. split_and!.
  - constructor; [done|]. apply Forall_bind, Forall_forall. by repeat constructor.
  - cbn. induction (seqZ 1 (size - 1)) as [|i l IH]; [done|]. cbn. by f_equal.
  - cbn. induction (seqZ 1 (size - 1)) as [|i l IH]; [done|]. cbn. by f_equal.
  - cbn. f_equal. induction (seqZ 1 (size - 1)) as [|i l IH]; [done|]. exact IH.
  - unfold srcs_of. cbn. f_equal. induction (seqZ 1 (size - 1)) as [|i l IH]; [done|]. exact IH.
  - cbn. induction (seqZ 1 (size - 1)) as [|i l IH]; [done|]. exact IH.
Qed.

Lemma exchange_clean r : 0 ≤ r < size → clean hist0 (exchange_acts r ++ exchange_waits).
Proof.
  intros Hr. destruct (exchange_lists r) as (Hp & Hs & Hrv & Hd & Hsrc & _). apply clean_app. split.
  - apply (clean_posts0 _ _ _ _ _ Hs Hrv Hd Hsrc); unfold posted_sends, posted_recvs.
    + apply regions_apart_map; [apply NoDup_rp|]. intros p q [Hp' _]%elem_rp [Hq' _]%elem_rp Hne; [|done..].
      by apply Hapart.
    + intros x y (q & -> & _)%list_elem_of_fmap (p & -> & _)%list_elem_of_fmap. apply apart_buf. cbn. by rewrite Hxs, Hro.
    + intros d x ->%list_elem_of_singleton (q & -> & _)%list_elem_of_fmap. apply apart_buf. cbn. by rewrite Hxs, Hro.
    + intros d x Hdx (p & -> & [Hp' Hne]%elem_rp)%list_elem_of_fmap; [|done]. cbn.
      assert (d = ro r r ∨ d = xs r r) as [->| ->] by set_solver; [by apply Hapart|].
      apply apart_buf. by rewrite Hxs, Hro.
  - apply clean_waits. apply Forall_bind, Forall_forall. by repeat constructor.
Qed.

Lemma exchange_end r m :
  reaches exchange_waits m (bumps (posted_sends slot sp xs r) (λ _, O)) (bumps (posted_recvs slot rp ro r) (λ _, O))
    [] m (λ _, O) (λ _, O).
Proof.
  rewrite <-(app_nil_r exchange_waits). unfold exchange_waits, posted_sends, posted_recvs, sp, rp.
  apply reaches_waits; [|intros b; rewrite bumps_count, <-list_fmap_compose..].
  - apply Forall_bind, Forall_forall. by repeat constructor.
  - rewrite (on_buf_map b inb) by (intros; apply Hxs). induction (seqZ 1 (size - 1)) as [|i l IH].
    + by destruct (decide (inb = b)).
    + cbn. unfold one. destruct (decide (inb = b)); cbn in *; lia.
  - rewrite (on_buf_map b outb) by (intros; apply Hro). induction (seqZ 1 (size - 1)) as [|i l IH].
    + by destruct (decide (outb = b)).
    + cbn. unfold one. destruct (decide (outb = b)); cbn in *; lia.
Qed.

Lemma alltoall_exchange :
  computes (group size (λ r, exchange_acts r ++ exchange_waits)) mems
    (λ mems', ∀ p q, 0 ≤ p < size → 0 ≤ q < size → read (mems' q) (ro q p) = read (mems p) (xs p q)).
Proof.
  set (M := λ r, receives (mem_after (mems r) (exchange_acts r)) (posted_recvs slot rp ro r) (incoming slot rp xs mems r)).
  eapply computes_weaken.
  - apply (exchange_computes size slot sp rp xs ro exchange_acts (λ _, exchange_waits) mems M).
    + intros r _. split; [apply NoDup_sp|apply NoDup_rp].
    + intros p q Hp. rewrite elem_sp, elem_rp by done. unfold in_group. tauto.
    + intros p q Hp Hq. rewrite elem_sp, elem_rp by done. unfold in_group in *. intuition congruence.
    + intros p q Hp [Hq _]%elem_sp; [|done]. by apply Hlen.
    + intros r _. destruct (exchange_lists r) as (? & ? & ? & _). done.
    + intros r d x Hr Hd (q & -> & _)%list_elem_of_fmap. destruct (exchange_lists r) as (_ & _ & _ & Hds & _).
      rewrite Hds in Hd. apply list_elem_of_singleton in Hd as ->. apply apart_buf. cbn. by rewrite Hxs, Hro.
    + intros r _. apply exchange_end.
    + intros r Hr. by apply exchange_clean.
  - intros m Hm p q Hp Hq. rewrite (Hm q Hq). unfold M, posted_recvs, incoming.
    destruct (exchange_lists q) as (_ & _ & _ & _ & _ & ->). destruct (decide (p = q)) as [->|Hne].
    + rewrite receives_out; [apply read_copy; destruct (Hlen q q); lia|].
      intros x (i & -> & [Hi Hne]%elem_rp)%list_elem_of_fmap; [|done]. by apply Hapart.
    + apply (read_received (λ p, mkXfer p slot (ro q p))).
      * apply regions_apart_map; [apply NoDup_rp|]. intros i j [Hi _]%elem_rp [Hj _]%elem_rp Hij; [|done..]. by apply Hapart.
      * apply Forall2_fmap, Forall_Forall2_diag, Forall_forall. intros i [Hi _]%elem_rp; [|done].
        split; [done|]. split; [done|]. cbn. destruct (Hlen i q) as [Hl H0]; [done|done|]. by rewrite read_length by lia.
      * by apply elem_rp.
Qed.
End alltoall.

(* ------------------------------------------------------------------ *)
(** * alltoall *)

(** all-to-all exchanges. In every execution the collective ends, with part
    [q] of the input of process [p] as part [p] of the output of process [q],
    for all [p] and [q]. *)
Theorem alltoall_correct (size tag elementSize inb outb chunk : Z) (bsize : Z → Z) (mems : Z → Mem) :
  1 ≤ size < 2 ^ 31 → 0 < elementSize → inb ≠ outb → 0 ≤ chunk →
  bsize inb = chunk * size → bsize outb = chunk * size → chunk * size < 2 ^ 64 →
  computes (group size (λ r, alltoall r size tag elementSize (Some inb) (Some outb) bsize)) mems
    (λ mems', ∀ p q, 0 ≤ p < size → 0 ≤ q < size →
       read (mems' q) (mkRegion outb (p * chunk) chunk) = read (mems p) (mkRegion inb (q * chunk) chunk)).
Proof.
  intros Hs He Hio Hc Hin Hout Hb. set (slot := Slot_value (Slot_build kAlltoallSlotPrefix tag)).
  rewrite (group_ext size _ (λ r, exchange_acts size slot (λ _ q, mkRegion inb (q * chunk) chunk)
    (λ _ p, mkRegion outb (p * chunk) chunk) r ++ exchange_waits size inb outb)).
  - apply alltoall_exchange; [done|done|done|done|done|]. intros r p q _ _ _ Hne b i [_ H1] [_ H2]. cbn in *. nia.
  - intros r Hr. unfold alltoall, check, needs. rewrite (proj2 (Z.ltb_lt 0 elementSize)) by done.
    rewrite Hin, Hout, Z_mod_mult, Z.div_mul, !Z.eqb_refl by lia. cbn [app].
    assert (∀ i, 0 ≤ i < size → u64 (i * chunk) = i * chunk) as Hw by (intros; apply wrap_small; unfold in_range; nia).
    unfold exchange_acts. cbn [app]. rewrite Hw by done. f_equal. f_equal.
    apply bind_ext_all. intros i. rewrite !Hw by (apply Z.mod_pos_bound; lia). done.
Qed.

Lemma alltoall_correct_witness :
  computes (group 3 (λ r, alltoall r 3 7 4 (Some 0) (Some 1) (λ _, 24))) demo_mems
    (λ mems', ∀ p q, 0 ≤ p < 3 → 0 ≤ q < 3 → read (mems' q) (mkRegion 1 (p * 8) 8) = read (demo_mems p) (mkRegion 0 (q * 8) 8)).
Proof. apply (alltoall_correct 3 7 4 0 1 8 (λ _, 24) demo_mems); lia. Defined.

(* ------------------------------------------------------------------ *)
(** * alltoallv *)

(** Without overflow the offsets are the sums of the lengths before. *)
Lemma split_lookup f es n : 0 < es → (∀ i, 0 ≤ i < n → 0 ≤ f i) → es * sum_before f n < 2 ^ 64 →
  ∀ k a, 0 ≤ a → Z.of_nat k = n - a →
  ∀ i, a ≤ i < n → splitOffsetsAndLengths (es * sum_before f a) (f <$> seqZ a (n - a)) es !! Z.to_nat (i - a) =
    Some (es * sum_before f i, es * f i).
Proof.
  intros Hes Hf Hb. induction k as [|k IH]; intros a Ha Hk i Hi; [lia|].
  rewrite seqZ_cons by lia. cbn [fmap list_fmap splitOffsetsAndLengths].
  pose proof (sum_before_mono f a n Hf ltac:(lia)). pose proof (sum_before_mono f (a + 1) n Hf ltac:(lia)).
  rewrite sum_before_S in * by done. pose proof (Hf a ltac:(lia)).
  rewrite (wrap_small 64 (f a * es)) by (unfold in_range; nia).
  destruct (decide (i = a)) as [->|Hne].
  - rewrite Z.sub_diag. cbn. by rewrite (Z.mul_comm (f a)).
  - replace (Z.to_nat (i - a)) with (S (Z.to_nat (i - (a + 1)))) by lia. cbn [lookup list_lookup].
    rewrite wrap_small by (unfold in_range; nia).
    replace (es * sum_before f a + f a * es) with (es * sum_before f (a + 1)) by (rewrite sum_before_S by done; lia).
    replace (Z.pred (n - a)) with (n - (a + 1)) by lia. apply (IH (a + 1)); lia.
Qed.

Lemma at_rank_of_split f es n i b k : 0 < es → (∀ i, 0 ≤ i < n → 0 ≤ f i) → es * sum_before f n < 2 ^ 64 →
  0 ≤ i < n →
  at_rank_of (splitOffsetsAndLengths 0 (f <$> seqZ 0 n) es) i b k = k (mkRegion b (es * sum_before f i) (es * f i)).
Proof.
  intros Hes Hf Hb Hi. unfold at_rank_of. pose proof (split_lookup f es n Hes Hf Hb (Z.to_nat n) 0) as H.
  rewrite !Z.sub_0_r in H. change (es * sum_before f 0) with (es * 0) in H. rewrite Z.mul_0_r in H.
  specialize (H ltac:(lia) ltac:(lia) i Hi). rewrite Z.sub_0_r in H. by rewrite H.
Qed.

(** C24: all-to-all with counts exchanges. When process [p] sends [count p q]
    elements to [q] and both gave these counts, every execution ends with the
    elements for [q] in the input of [p] as the elements from [p] in the
    output of [q]. *)
Theorem alltoallv_correct (size tag es inb outb : Z) (count : Z → Z → Z) (mems : Z → Mem) :
  1 ≤ size < 2 ^ 31 → 0 < es → inb ≠ outb →
  (∀ p q, 0 ≤ p < size → 0 ≤ q < size → 0 ≤ count p q) →
  (∀ r, 0 ≤ r < size → es * sum_before (count r) size < 2 ^ 64 ∧ es * sum_before (λ p, count p r) size < 2 ^ 64) →
  computes (group size (λ r, alltoallv r size tag es (Some inb) (Some outb)
      (splitOffsetsAndLengths 0 (count r <$> ranks size) es)
      (splitOffsetsAndLengths 0 ((λ p, count p r) <$> ranks size) es))) mems
    (λ mems', ∀ p q, 0 ≤ p < size → 0 ≤ q < size →
       read (mems' q) (mkRegion outb (es * sum_before (λ p, count p q) p) (es * count p q)) =
       read (mems p) (mkRegion inb (es * sum_before (count p) q) (es * count p q))).
Proof.
  intros Hs He Hio Hc Hb. set (slot := Slot_value (Slot_build kAlltoallSlotPrefix tag)).
  rewrite (group_ext size _ (λ r, exchange_acts size slot
    (λ p q, mkRegion inb (es * sum_before (count p) q) (es * count p q))
    (λ q p, mkRegion outb (es * sum_before (λ p, count p q) p) (es * count p q)) r ++ exchange_waits size inb outb)).
  - apply alltoall_exchange; [done|done|done|done| |].
    + intros p q Hp Hq. cbn. specialize (Hc p q Hp Hq). split; [done|nia].
    + intros r p q Hr Hp Hq Hne. apply (sums_apart (λ p, count p r) es outb size); auto.
  - intros r Hr. destruct (Hb r Hr) as [Hb1 Hb2]. unfold alltoallv, check, needs, ranks.
    rewrite (proj2 (Z.ltb_lt 0 es)) by done. cbn [app].
    rewrite !at_rank_of_split by (auto; lia). cbn [rg_len rg_off]. rewrite Z.eqb_refl. cbn [app].
    unfold exchange_acts. cbn [app]. f_equal. f_equal. apply bind_ext_all. intros i.
    rewrite !at_rank_of_split by (auto; apply Z.mod_pos_bound; lia). done.
Qed.

Lemma alltoallv_correct_witness :
  computes (group 2 (λ r, alltoallv r 2 7 4 (Some 0) (Some 1)
      (splitOffsetsAndLengths 0 ((λ q, r + 2 * q) <$> ranks 2) 4) (splitOffsetsAndLengths 0 ((λ p, p + 2 * r) <$> ranks 2) 4))) demo_mems
    (λ mems', ∀ p q, 0 ≤ p < 2 → 0 ≤ q < 2 →
       read (mems' q) (mkRegion 1 (4 * sum_before (λ p, p + 2 * q) p) (4 * (p + 2 * q))) =
       read (demo_mems p) (mkRegion 0 (4 * sum_before (λ q, p + 2 * q) q) (4 * (p + 2 * q)))).
Proof.
  apply (alltoallv_correct 2 7 4 0 1 (λ p q, p + 2 * q) demo_mems); [lia|lia|lia|lia|].
  intros r Hr. assert (r = 0 ∨ r = 1) as [->| ->] by lia; by split.
Defined.
