(* ===== verification/BoundNet.v ===== *)
(** Programs over bound buffers ([src/gloo/transport/buffer.h],
    [tcp/buffer.cc]): a send names the place in the peer's registered buffer,
    and its data is written there as soon as it arrives, whether or not the
    peer waits for it. Such programs run as the programs of [Net] do if every
    send is known, by a message received before, to find the peer ready for
    it; where it is ready is marked by [Post] in an annotated copy of its
    program. *)
From Stdlib Require Import FunctionalExtensionality.
From S2P Require Import Prelude Net NetRun Groups.

(* ------------------------------------------------------------------ *)
(** * Programs *)

(** [class Buffer]: its identity, its pair and slot, and its memory. *)
Record BBuf := mkBBuf { bb_id : Z; bb_peer : Z; bb_slot : Z; bb_reg : Region }.

(** [BPut x roff]: the region of [x] is to be written at [roff] of the peer's
    buffer. *)
Inductive BAct :=
  | BPut (x : Xfer) (roff : Z)
  | BWaitSend (b : Z)
  | BWaitRecv (b : Z)
  | BCompute (d : Region) (f : list (list Z) → list Z) (srcs : list Region)
  | BStop (e : option exn).

(** [send(offset, length, roffset)], [send()], [waitSend()], [waitRecv()] *)
Definition buffer_send (b : BBuf) (offset length roffset : Z) : list BAct :=
  if u64 (offset + length) <=? rg_len (bb_reg b) then
    [BPut (mkXferOf (bb_peer b) (bb_slot b) (mkRegion (rg_buf (bb_reg b)) (rg_off (bb_reg b) + offset) length) (bb_id b)) roffset]
  else [BStop (Some EnforceNotMet)].
Definition buffer_send_all (b : BBuf) : list BAct := buffer_send b 0 (rg_len (bb_reg b)) 0.
Definition buffer_waitSend (b : BBuf) : BAct := BWaitSend (bb_id b).
Definition buffer_waitRecv (b : BBuf) : BAct := BWaitRecv (bb_id b).

(* ------------------------------------------------------------------ *)
(** * Processes with bound buffers *)

Record BRank := mkBRank {
  br_prog : list BAct;
  br_mem : Mem;
  br_ps : list (Xfer * Z);        (* posted sends not yet transmitted *)
  br_cs : Z → nat;
  br_cr : Z → nat;
}.
#[export] Instance BRank_eta : Eta BRank := λ r, mkBRank (br_prog r) (br_mem r) (br_ps r) (br_cs r) (br_cr r).

Definition blocal (R : BRank) : option BRank :=
  match br_prog R with
  | [] => None
  | a :: p =>
      let R1 := R <| br_prog := p |> in
      match a with
      | BPut x roff => Some (R1 <| br_ps ::= λ l, l ++ [(x, roff)] |>)
      | BWaitSend b => if decide (br_cs R b = O) then None else Some (R1 <| br_cs ::= unbump b |>)
      | BWaitRecv b => if decide (br_cr R b = O) then None else Some (R1 <| br_cr ::= unbump b |>)
      | BCompute d f srcs => Some (R1 <| br_mem ::= λ m, write m d (f (read m <$> srcs)) |>)
      | BStop _ => None
      end
  end.

Definition on_put (peer slot : Z) (y : Xfer * Z) : bool := (x_peer y.1 =? peer) && (x_slot y.1 =? slot).

Definition btransmit (q slot : Z) (R : BRank) : option ((Z * list Z) * BRank) :=
  '(y, ps) ← pick (on_put q slot) (br_ps R);
  Some ((y.2, read (br_mem R) (x_reg y.1)), R <| br_ps := ps |> <| br_cs ::= bump (x_buf y.1) |>).

(** The buffer registered for a slot of the pair with a peer. *)
Definition find_buf (peer slot : Z) (bufs : list BBuf) : option BBuf :=
  find (λ b, (bb_peer b =? peer) && (bb_slot b =? slot)) bufs.

(** Data arrives: it is written, within the bounds of the buffer. *)
Definition bdeliver (bufs : list BBuf) (p slot : Z) (msg : Z * list Z) (R : BRank) : option BRank :=
  b ← find_buf p slot bufs;
  if decide (0 ≤ msg.1 ∧ msg.1 + lenZ msg.2 ≤ rg_len (bb_reg b)) then
    Some (R <| br_cr ::= bump (bb_id b) |>
            <| br_mem ::= λ m, write m (mkRegion (rg_buf (bb_reg b)) (rg_off (bb_reg b) + msg.1) (lenZ msg.2)) msg.2 |>)
  else None.

Record BNet := mkBNet { bn_rk : Z → BRank; bn_ch : Z * Z * Z → list (Z * list Z) }.

Definition bexec (bufs : Z → list BBuf) (l : Label) (s : BNet) : option BNet :=
  match l with
  | LLocal r => R ← blocal (bn_rk s r); Some (mkBNet (fset r R (bn_rk s)) (bn_ch s))
  | LTransmit p q slot =>
      '(d, R) ← btransmit q slot (bn_rk s p);
      Some (mkBNet (fset p R (bn_rk s)) (fset (p, q, slot) (bn_ch s (p, q, slot) ++ [d]) (bn_ch s)))
  | LDeliver p q slot =>
      match bn_ch s (p, q, slot) with
      | [] => None
      | d :: ds =>
          R ← bdeliver (bufs q) p slot d (bn_rk s q);
          Some (mkBNet (fset q R (bn_rk s)) (fset (p, q, slot) ds (bn_ch s)))
      end
  end.
Definition bnet_step (bufs : Z → list BBuf) (s s' : BNet) : Prop := ∃ l, bexec bufs l s = Some s'.

Definition brank_init (p : list BAct) (m : Mem) : BRank := mkBRank p m [] (λ _, O) (λ _, O).
Definition bnet_init (progs : Z → list BAct) (mems : Z → Mem) : BNet :=
  mkBNet (λ r, brank_init (progs r) (mems r)) (λ _, []).
Definition bfinished (s : BNet) : Prop :=
  (∀ r, br_prog (bn_rk s r) = [] ∧ br_ps (bn_rk s r) = []) ∧ ∀ c, bn_ch s c = [].

(** Whatever the interleaving, the programs end, in a state that satisfies
    [post]. *)
Definition bcomputes (bufs : Z → list BBuf) (progs : Z → list BAct) (mems : Z → Mem) (post : (Z → Mem) → Prop) : Prop :=
  ∃ n, ∀ m s, nsteps (bnet_step bufs) m (bnet_init progs mems) s →
    (m ≤ n)%nat ∧ ∃ f, rtc (bnet_step bufs) s f ∧ bfinished f ∧ post (λ r, br_mem (bn_rk f r)).

Lemma bcomputes_weaken bufs progs mems (P Q : (Z → Mem) → Prop) :
  bcomputes bufs progs mems P → (∀ m, P m → Q m) → bcomputes bufs progs mems Q.
Proof.
  intros [n H] HPQ. exists n. intros m s Hm. destruct (H m s Hm) as (Hle & f & Hf & Hfin & HP). split; [done|].
  exists f. split; [done|]. split; [done|]. by apply HPQ.
Qed.

(* ------------------------------------------------------------------ *)
(** * Annotated programs *)

Inductive GAct := Do (a : BAct) | Post (x : Xfer).
Definition code (p : list GAct) : list BAct := omap (λ g, match g with Do a => Some a | Post _ => None end) p.
Definition net_act (g : GAct) : Act :=
  match g with
  | Do (BPut x _) => Send x
  | Do (BWaitSend b) => WaitSend b
  | Do (BWaitRecv b) => WaitRecv b
  | Do (BCompute d f srcs) => Compute d f srcs
  | Do (BStop e) => Stop e
  | Post x => Recv x
  end.
Definition net_prog (p : list GAct) : list Act := net_act <$> p.

(** The operations of a list that are on a channel. *)
Definition chan {A} (f : A → Xfer) (c : Z * Z) (l : list A) : list A := filter (λ y, (x_peer (f y), x_slot (f y)) = c) l.

Lemma chan_app {A} (f : A → Xfer) c l k : chan f c (l ++ k) = chan f c l ++ chan f c k.
Proof. apply filter_app. Qed.
Lemma chan_one {A} (f : A → Xfer) c y : chan f c [y] = if decide ((x_peer (f y), x_slot (f y)) = c) then [y] else [].
Proof. unfold chan. rewrite filter_cons, filter_nil. done. Qed.
Lemma chan_fmap {A B} (f : B → Xfer) (g : A → B) c l : chan f c (g <$> l) = g <$> chan (f ∘ g) c l.
Proof. unfold chan. induction l as [|x l IH]; [done|]. rewrite fmap_cons, !filter_cons. cbn. case_decide; by rewrite IH. Qed.

(** What a program puts, and is ready for. *)
Definition gputs (p : list GAct) : list (Xfer * Z) := omap (λ g, match g with Do (BPut x ro) => Some (x, ro) | _ => None end) p.
Definition gposts (p : list GAct) : list Xfer := omap (λ g, match g with Post x => Some x | _ => None end) p.
Definition puts (c : Z * Z) (p : list GAct) : list (Xfer * Z) := chan fst c (gputs p).
Definition posts (c : Z * Z) (p : list GAct) : list Xfer := chan id c (gposts p).
Definition gwaits (b : Z) (p : list GAct) : nat :=
  length (omap (λ g, match g with Do (BWaitRecv b') => if decide (b' = b) then Some () else None | _ => None end) p).
Definition not_posting (p : list GAct) : Prop := match p with Post _ :: _ => False | _ => True end.

Lemma puts_app c p q : puts c (p ++ q) = puts c p ++ puts c q.
Proof. unfold puts, gputs. by rewrite omap_app, chan_app. Qed.
Lemma posts_app c p q : posts c (p ++ q) = posts c p ++ posts c q.
Proof. unfold posts, gposts. by rewrite omap_app, chan_app. Qed.
Lemma gwaits_app b p q : gwaits b (p ++ q) = (gwaits b p + gwaits b q)%nat.
Proof. unfold gwaits. by rewrite omap_app, length_app. Qed.
Lemma code_app p q : code (p ++ q) = code p ++ code q.
Proof. apply omap_app. Qed.
Lemma net_prog_app p q : net_prog (p ++ q) = net_prog p ++ net_prog q.
Proof. apply fmap_app. Qed.

(* ------------------------------------------------------------------ *)
(** * Histories and channels *)

Lemma h_sends_run p : ∀ h, h_sends (hist_run p h) = h_sends h ++ sends_of p.
Proof.
  induction p as [|a p IH]; intros h; [by rewrite app_nil_r|]. change (hist_run (a :: p) h) with (hist_run p (hist_step a h)).
  rewrite IH. destruct a; try done. cbn. by rewrite <-(assoc_L (++)).
Qed.
Lemma h_recvs_run p : ∀ h, h_recvs (hist_run p h) = h_recvs h ++ recvs_of p.
Proof.
  induction p as [|a p IH]; intros h; [by rewrite app_nil_r|]. change (hist_run (a :: p) h) with (hist_run p (hist_step a h)).
  rewrite IH. destruct a; try done. cbn. by rewrite <-(assoc_L (++)).
Qed.
Lemma h_wr_run b p : ∀ h, h_wr (hist_run (net_prog p) h) b = (h_wr h b + gwaits b p)%nat.
Proof.
  induction p as [|a p IH]; intros h; [cbn; lia|].
  change (hist_run (net_prog (a :: p)) h) with (hist_run (net_prog p) (hist_step (net_act a) h)).
  change (a :: p) with ([a] ++ p). rewrite IH, gwaits_app. destruct a as [[x ro|b'|b'|d f srcs|e]|x]; try done.
  cbn. unfold gwaits, bump. cbn. do 2 case_decide; cbn; subst; try done; lia.
Qed.

Lemma pick_fmap {A B} (P : B → bool) (f : A → B) (l : list A) :
  pick P (f <$> l) = option_map (λ y : A * list A, (f y.1, f <$> y.2)) (pick (P ∘ f) l).
Proof.
  induction l as [|x l IH]; [done|]. cbn. destruct (P (f x)); [done|]. rewrite IH. by destruct (pick (P ∘ f) l) as [[]|].
Qed.

Lemma pick_chan {A} (f : A → Xfer) q sl l y l' :
  pick (λ y, (x_peer (f y) =? q) && (x_slot (f y) =? sl)) l = Some (y, l') →
  ∀ c, chan f c l = (if decide ((q, sl) = c) then [y] else []) ++ chan f c l'.
Proof.
  revert l'. induction l as [|x l IH]; intros l' H c; [done|]. cbn [pick] in H. change (x :: l) with ([x] ++ l). rewrite chan_app, chan_one.
  destruct ((x_peer (f x) =? q) && (x_slot (f x) =? sl)) eqn:E.
  - apply andb_true_iff in E as [Hq%Z.eqb_eq Hs%Z.eqb_eq]. rewrite Hq, Hs. by injection H as -> ->.
  - destruct (pick _ l) as [[z k]|] eqn:Hk; [|done]. injection H as -> <-. change (x :: k) with ([x] ++ k).
    rewrite chan_app, chan_one, (IH k) by done. destruct (decide ((q, sl) = c)) as [<-|]; [|by repeat case_decide].
    case_decide as Hx; [|done]. injection Hx as Hq Hs. by rewrite Hq, Hs, !Z.eqb_refl in E.
Qed.
Lemma pick_none {A} (f : A → Xfer) q sl l :
  pick (λ y, (x_peer (f y) =? q) && (x_slot (f y) =? sl)) l = None → chan f (q, sl) l = [].
Proof.
  induction l as [|x l IH]; [done|]. cbn [pick]. destruct ((x_peer (f x) =? q) && (x_slot (f x) =? sl)) eqn:E; [done|].
  destruct (pick _ l) as [[z k]|]; [done|]. intros _. change (x :: l) with ([x] ++ l). rewrite chan_app, IH, chan_one by done.
  case_decide as Hx; [|done]. injection Hx as Hq Hs. by rewrite Hq, Hs, !Z.eqb_refl in E.
Qed.

Lemma sends_puts p : sends_of (net_prog p) = (gputs p).*1.
Proof. induction p as [|[[x ro|b|b|d f srcs|e]|x] p IH]; [done|..]; cbn; f_equal; exact IH. Qed.
Lemma recvs_posts p : recvs_of (net_prog p) = gposts p.
Proof. induction p as [|[[x ro|b|b|d f srcs|e]|x] p IH]; [done|..]; cbn; f_equal; exact IH. Qed.

(* ------------------------------------------------------------------ *)
(** * The two systems side by side *)

(** A process whose program is done up to [Q], in both systems. *)
Record rsim (A Q : list GAct) (R : BRank) (N : Rank) : Prop := {
  sr_bprog : br_prog R = code Q;
  sr_prog : rs_prog N = net_prog Q;
  sr_hist : rs_h N = hist_run (net_prog A) hist0;
  sr_mem : br_mem R = rs_mem N;
  sr_cs : br_cs R = rs_cs N;
  sr_cr : br_cr R = rs_cr N;
  sr_ps : (br_ps R).*1 = (rs_ps N).*2;
}.

Lemma hist_snoc A g : hist_run (net_prog (A ++ [g])) hist0 = hist_step (net_act g) (hist_run (net_prog A) hist0).
Proof. by rewrite net_prog_app, hist_run_app. Qed.

Lemma sim_post A x Q R N : rsim A (Post x :: Q) R N →
  ∃ N', local N = Some N' ∧ rsim (A ++ [Post x]) Q R N' ∧ (rs_pr N').*2 = (rs_pr N).*2 ++ [x].
Proof.
  destruct R as [bp bm bps bcs bcr], N as [np nm nps npr ncs ncr nh]. intros [H1 H2 H3 H4 H5 H6 H7]. cbn in *. subst.
  eexists. split; [done|]. split; [|cbn; by rewrite fmap_app].
  split; cbn; try done. by rewrite hist_snoc.
Qed.

Lemma sim_do A a Q R N : rsim A (Do a :: Q) R N →
  (blocal R = None ∧ local N = None) ∨
  ∃ R' N', blocal R = Some R' ∧ local N = Some N' ∧ rsim (A ++ [Do a]) Q R' N' ∧ br_ps R' = br_ps R ++ gputs [Do a] ∧
    rs_pr N' = rs_pr N.
Proof.
  destruct R as [bp bm bps bcs bcr], N as [np nm nps npr ncs ncr nh]. intros [H1 H2 H3 H4 H5 H6 H7]. cbn in *. subst.
  destruct a as [x ro|b|b|d f srcs|e]; unfold blocal, local; cbn; try case_decide; try (by left); right;
    eexists _, _; (split; [done|]); (split; [done|]); cbn; rewrite ?app_nil_r; (split; [|done]);
    split; cbn; rewrite ?hist_snoc, ?fmap_app; try done.
  by rewrite H7.
Qed.

(** A message that is what a put sends. *)
Definition fits (y : Xfer * Z) (m : Z * list Z) : Prop := m.1 = y.2 ∧ lenZ m.2 = rg_len (x_reg y.1).

(** What [p] put to [q]: arrived, on the way, not yet transmitted. *)
Definition csim (p q sl : Z) (ps : list (Xfer * Z)) (A : list GAct) (s : BNet) (t : Net) : Prop :=
  ∃ l1 l2, puts (q, sl) A = l1 ++ l2 ++ chan fst (q, sl) ps ∧ Forall2 fits l2 (bn_ch s (p, q, sl)) ∧
    snd <$> bn_ch s (p, q, sl) = nt_ch t (p, q, sl).

Section transfer.
Context (bufs : Z → list BBuf) (G : Z → list GAct).

(** The [k]-th message put to a channel fits the [k]-th place made ready. *)
Definition agree : Prop := ∀ p q sl k y, puts (q, sl) (G p) !! k = Some y →
  ∃ x b, posts (p, sl) (G q) !! k = Some x ∧ find_buf p sl (bufs q) = Some b ∧ x_buf x = bb_id b ∧
    x_reg x = mkRegion (rg_buf (bb_reg b)) (rg_off (bb_reg b) + y.2) (rg_len (x_reg y.1)) ∧
    0 ≤ y.2 ∧ 0 ≤ rg_len (x_reg y.1) ∧ y.2 + rg_len (x_reg y.1) ≤ rg_len (bb_reg b).

(** Before it puts, a process has waited for [j] messages that the peer only
    sends once it is ready. *)
Definition in_time : Prop := ∀ p q sl A x ro Q, G p = A ++ Do (BPut x ro) :: Q → x_peer x = q → x_slot x = sl →
  ∃ b sl' j, (j ≤ gwaits b A)%nat ∧
    (j = O ∨ ∀ y, y ∈ gposts (G p) → x_buf y = b ↔ (x_peer y, x_slot y) = (q, sl')) ∧
    ∀ B Q', G q = B ++ Q' → not_posting Q' → (j ≤ length (puts (p, sl') B))%nat →
      (length (puts (q, sl) A) < length (posts (p, sl) B))%nat.

(** The two systems, every process [r] having done [A r]. *)
Record sim (A : Z → list GAct) (s : BNet) (t : Net) : Prop := {
  sm_ok : net_ok t;
  sm_flow : flow t;
  sm_rank : ∀ r, ∃ Q, G r = A r ++ Q ∧ rsim (A r) Q (bn_rk s r) (nt_rk t r);
  sm_chan : ∀ p q sl, csim p q sl (br_ps (bn_rk s p)) (A p) s t;
  sm_post : ∀ p q sl, chan id (p, sl) (rs_pr (nt_rk t q)).*2 `suffix_of` posts (p, sl) (A q);
}.

Lemma sim_init mems : (∀ r, clean hist0 (net_prog (G r))) →
  sim (λ _, []) (bnet_init (λ r, code (G r)) mems) (net_init (λ r, net_prog (G r)) mems).
Proof.
  intros Hc. split.
  - intros r. by apply rank_init_ok.
  - by intros p q sl.
  - intros r. by exists (G r).
  - intros p q sl. by exists [], [].
  - intros p q sl. by exists [].
Qed.

(** A process goes on. *)
Lemma sim_advance A s t r g Q R N : sim A s t → G r = A r ++ g :: Q → rsim (A r ++ [g]) Q R N →
  br_ps R = br_ps (bn_rk s r) ++ gputs [g] → (rs_pr N).*2 = (rs_pr (nt_rk t r)).*2 ++ gposts [g] →
  exec (LLocal r) t = Some (mkNet (fset r N (nt_rk t)) (nt_ch t)) →
  sim (fset r (A r ++ [g]) A) (mkBNet (fset r R (bn_rk s)) (bn_ch s)) (mkNet (fset r N (nt_rk t)) (nt_ch t)).
Proof.
  intros [Hok Hfl Hrk Hch Hpo] HG HR Hps Hpr Hex. split.
  - by eapply exec_ok.
  - by eapply exec_flow.
  - intros r'. unfold fset. cbn. case_decide as Hr; [subst|by apply Hrk]. exists Q. by rewrite <-(assoc_L (++)).
  - intros p q sl. unfold fset, csim. cbn. case_decide as Hr; [subst|by apply Hch].
    destruct (Hch r q sl) as (l1 & l2 & Hp & Hf & Hs). exists l1, l2. split; [|done].
    rewrite puts_app, Hp, Hps, chan_app. unfold puts. by rewrite <-!(assoc_L (++)).
  - intros p q sl. unfold fset. cbn. case_decide as Hr; [subst|by apply Hpo].
    destruct (Hpo p r sl) as [k Hk]. exists k. rewrite posts_app, Hpr, chan_app, Hk. unfold posts. by rewrite <-(assoc_L (++)).
Qed.

Lemma fset_id {A B} `{EqDecision A} (a : A) (f : A → B) : fset a (f a) f = f.
Proof. extensionality x. unfold fset. by case_decide; subst. Qed.

Lemma sim_net_post A s t r x Q : sim A s t → G r = A r ++ Post x :: Q →
  ∃ t', exec (LLocal r) t = Some t' ∧ sim (fset r (A r ++ [Post x]) A) s t'.
Proof.
  intros H HG. destruct (sm_rank _ _ _ H r) as (Q' & HQ & HR). rewrite HG in HQ. apply app_inv_head in HQ as <-.
  destruct (sim_post _ _ _ _ _ HR) as (N' & HN & HR' & Hpr). eexists. assert (exec (LLocal r) t = Some (mkNet (fset r N' (nt_rk t)) (nt_ch t))) as Hex.
  { cbn. by rewrite HN. }
  split; [exact Hex|]. pose proof (sim_advance A s t r (Post x) Q (bn_rk s r) N' H HG HR') as Hs. rewrite fset_id in Hs.
  destruct s as [rk ch]. cbn in Hs. apply Hs; [by rewrite app_nil_r|done|done].
Qed.

Lemma sim_net_do A s t r a Q : sim A s t → G r = A r ++ Do a :: Q →
  (bexec bufs (LLocal r) s = None ∧ exec (LLocal r) t = None) ∨
  ∃ s' t', bexec bufs (LLocal r) s = Some s' ∧ exec (LLocal r) t = Some t' ∧ sim (fset r (A r ++ [Do a]) A) s' t'.
Proof.
  intros H HG. destruct (sm_rank _ _ _ H r) as (Q' & HQ & HR). rewrite HG in HQ. apply app_inv_head in HQ as <-.
  destruct (sim_do _ _ _ _ _ HR) as [[H1 H2]|(R' & N' & H1 & H2 & HR' & Hps & Hpr)]; [left; cbn; by rewrite H1, H2|right].
  assert (exec (LLocal r) t = Some (mkNet (fset r N' (nt_rk t)) (nt_ch t))) as Hex by (cbn; by rewrite H2).
  eexists _, _. split; [cbn; by rewrite H1|]. split; [exact Hex|].
  apply (sim_advance A s t r (Do a) Q); [done..| |done]. rewrite Hpr. by rewrite app_nil_r.
Qed.

(** The put transmitted next. *)
Lemma sim_pick q sl (ps : list (Xfer * Z)) (ns : list (nat * Xfer)) : ps.*1 = ns.*2 →
  match pick (on_put q sl) ps, pick (on_chan q sl) ns with
  | Some (y, ps'), Some (x, ns') => y.1 = x.2 ∧ ps'.*1 = ns'.*2
  | None, None => True
  | _, _ => False
  end.
Proof.
  intros He. pose proof (pick_fmap (λ x, (x_peer x =? q) && (x_slot x =? sl)) fst ps) as H1.
  pose proof (pick_fmap (λ x, (x_peer x =? q) && (x_slot x =? sl)) snd ns) as H2. rewrite He, H2 in H1.
  change (pick (on_put q sl) ps) with (pick ((λ x, (x_peer x =? q) && (x_slot x =? sl)) ∘ fst) ps).
  change (pick (on_chan q sl) ns) with (pick ((λ x, (x_peer x =? q) && (x_slot x =? sl)) ∘ snd) ns).
  destruct (pick _ ps) as [[y ps']|], (pick _ ns) as [[x ns']|]; cbn in H1; by simplify_eq.
Qed.

Context (Hagree : agree).

Lemma agree_done A s t p q sl k y : sim A s t → puts (q, sl) (A p) !! k = Some y →
  ∃ x b, posts (p, sl) (G q) !! k = Some x ∧ find_buf p sl (bufs q) = Some b ∧ x_buf x = bb_id b ∧
    x_reg x = mkRegion (rg_buf (bb_reg b)) (rg_off (bb_reg b) + y.2) (rg_len (x_reg y.1)) ∧
    0 ≤ y.2 ∧ 0 ≤ rg_len (x_reg y.1) ∧ y.2 + rg_len (x_reg y.1) ≤ rg_len (bb_reg b).
Proof.
  intros H Hk. destruct (sm_rank _ _ _ H p) as (Q & HQ & _). apply (Hagree p q sl k). rewrite HQ, puts_app.
  rewrite lookup_app_l; [done|]. by eapply lookup_lt_Some.
Qed.

Lemma sim_transmit A s t p q sl : sim A s t →
  (bexec bufs (LTransmit p q sl) s = None ∧ exec (LTransmit p q sl) t = None) ∨
  ∃ s' t', bexec bufs (LTransmit p q sl) s = Some s' ∧ exec (LTransmit p q sl) t = Some t' ∧ sim A s' t'.
Proof.
  intros H. pose proof H as [Hok Hfl Hrk Hch Hpo]. destruct (Hrk p) as (Q & HQ & HR).
  pose proof (sim_pick q sl _ _ (sr_ps _ _ _ _ HR)) as Hp. cbn [bexec exec]. unfold btransmit, transmit.
  destruct (pick (on_put _ _) _) as [[y ps']|] eqn:E1, (pick (on_chan _ _) _) as [[x ns']|] eqn:E2; try done; [right|by left].
  destruct Hp as [Hyx Hps]. cbn. eexists _, _. split; [done|]. split; [done|].
  pose proof (pick_chan fst q sl _ _ _ E1) as Hpick. split.
  - eapply (exec_ok (LTransmit p q sl)); [exact Hok|]. cbn [exec]. unfold transmit. by rewrite E2.
  - eapply (exec_flow (LTransmit p q sl)); [|exact Hfl]. cbn [exec]. unfold transmit. by rewrite E2.
  - intros r. unfold fset. cbn. case_decide as Hr; [subst|by apply Hrk]. exists Q. split; [done|].
    destruct HR. split; cbn; congruence.
  - intros p' q' sl'. destruct (Hch p' q' sl') as (l1 & l2 & Hp & Hf & Hs). unfold csim.
    cbn [bn_rk bn_ch nt_ch]. destruct (decide ((p', q', sl') = (p, q, sl))) as [[= -> -> ->]|Hne].
    + rewrite !fset_at. cbn [br_ps set_field BRank_eta]. rewrite Hpick, decide_True in Hp by done.
      exists l1, (l2 ++ [y]). split; [by rewrite Hp, <-!(assoc_L (++))|]. rewrite fmap_app, Hs.
      split; [|by rewrite Hyx, (sr_mem _ _ _ _ HR)].
      apply Forall2_app; [done|]. constructor; [|constructor]. split; [done|]. cbn.
      destruct (agree_done A s t p q sl (length l1 + length l2) y) as (? & ? & _ & _ & _ & _ & _ & Hl & _); [done| |].
      { rewrite Hp, lookup_app_r by lia. rewrite lookup_app_r by lia.
        by replace (length l1 + length l2 - length l1 - length l2)%nat with O by lia. }
      unfold lenZ. by apply read_length.
    + rewrite !(fset_other (A := Z * Z * Z)) by done. exists l1, l2. split; [|done].
      destruct (decide (p' = p)) as [->|]; [|by rewrite fset_other].
      rewrite fset_at. cbn. rewrite Hp, Hpick, decide_False by congruence. done.
  - intros p' q' sl'. unfold fset. cbn. case_decide as Hr; [subst|by apply Hpo]. by apply Hpo.
Qed.

(** The counts of a channel, in both systems. *)
Lemma sim_counts A s t p q sl : sim A s t →
  (length (puts (q, sl) (A p)) + cnt (p, sl) (rs_pr (nt_rk t q)).*2 =
   length (chan fst (q, sl) (br_ps (bn_rk s p))) + length (bn_ch s (p, q, sl)) + length (posts (p, sl) (A q)))%nat.
Proof.
  intros [Hok Hfl Hrk Hch Hpo]. specialize (Hfl p q sl). destruct (Hrk p) as (Q & HQ & HR), (Hrk q) as (Q' & HQ' & HR').
  rewrite (sr_hist _ _ _ _ HR), h_sends_run, sends_puts, (sr_hist _ _ _ _ HR'), h_recvs_run, recvs_posts in Hfl.
  rewrite <-(sr_ps _ _ _ _ HR) in Hfl. destruct (Hch p q sl) as (l1 & l2 & _ & _ & Hs). rewrite <-Hs, length_fmap in Hfl.
  cbn [h_sends h_recvs hist0 app] in Hfl.
  change (cnt (q, sl) (gputs (A p)).*1) with (length (chan id (q, sl) (gputs (A p)).*1)) in Hfl.
  change (cnt (q, sl) (br_ps (bn_rk s p)).*1) with (length (chan id (q, sl) (br_ps (bn_rk s p)).*1)) in Hfl.
  rewrite !chan_fmap, !length_fmap in Hfl. exact Hfl.
Qed.

Lemma pick_pending p sl (pr : list (nat * Xfer)) :
  match pick (on_chan p sl) pr with
  | Some (x, pr') => ∀ c, chan id c pr.*2 = (if decide ((p, sl) = c) then [x.2] else []) ++ chan id c pr'.*2
  | None => chan id (p, sl) pr.*2 = []
  end.
Proof.
  destruct (pick (on_chan p sl) pr) as [[x pr']|] eqn:E.
  - intros c. rewrite !chan_fmap. etrans; [exact (f_equal (fmap snd) (pick_chan snd p sl pr x pr' E c))|].
    rewrite fmap_app. by case_decide.
  - rewrite chan_fmap. exact (f_equal (fmap snd) (pick_none snd p sl pr E)).
Qed.

Lemma sim_deliver A s t p q sl : sim A s t → chan id (p, sl) (rs_pr (nt_rk t q)).*2 ≠ [] → bn_ch s (p, q, sl) ≠ [] →
  ∃ s' t', bexec bufs (LDeliver p q sl) s = Some s' ∧ exec (LDeliver p q sl) t = Some t' ∧ sim A s' t'.
Proof.
  intros H Hpr Hne. pose proof (sim_counts A s t p q sl H) as Hcnt. pose proof H as [Hok Hfl Hrk Hch Hpo].
  destruct (Hrk q) as (Q & HQ & HR). destruct (Hch p q sl) as (l1 & l2 & Hp & Hf & Hs).
  destruct (Hpo p q sl) as [k1 Hk]. assert (length k1 = length l1) as Hlen.
  { rewrite Hp, Hk, !length_app, (Forall2_length _ _ _ Hf) in Hcnt. unfold cnt, chan in *. cbn in *. lia. }
  destruct (bn_ch s (p, q, sl)) as [|[ro d] ds] eqn:Hd; [done|]. inversion Hf as [|y ? l2' ? [Hro Hlend] Hf']; subst.
  cbn in Hro, Hlend. destruct (agree_done A s t p q sl (length l1) y H) as (x & b & Hx & Hb & Hxb & Hreg & Hy0 & Hl0 & Hfit).
  { by rewrite Hp, lookup_app_r, Nat.sub_diag by lia. }
  pose proof (pick_pending p sl (rs_pr (nt_rk t q))) as Hsome.
  destruct (pick (on_chan p sl) (rs_pr (nt_rk t q))) as [[[j x'] pr']|] eqn:E; [|done].
  assert (x' = x) as ->.
  { pose proof (Hsome (p, sl)) as Hc. rewrite decide_True in Hc by done. rewrite HQ, posts_app, Hk, Hc in Hx.
    rewrite <-!(assoc_L (++)), lookup_app_r, Hlen, Nat.sub_diag in Hx by lia. by injection Hx. }
  assert (exec (LDeliver p q sl) t = Some (mkNet
    (fset q (nt_rk t q <| rs_pr := pr' |> <| rs_cr ::= bump (x_buf x) |>
       <| rs_mem ::= λ m, write m (x_reg x <| rg_len := Z.of_nat (length d) |>) d |>) (nt_rk t))
    (fset (p, q, sl) (snd <$> ds) (nt_ch t)))) as Hex.
  { cbn [exec]. rewrite <-Hs. cbn. unfold deliver. rewrite E. cbn. rewrite decide_True; [done|].
    rewrite Hreg. cbn. unfold lenZ in *. lia. }
  eexists _, _. split; [|split; [exact Hex|]].
  { cbn [bexec]. rewrite Hd. unfold bdeliver. rewrite Hb. cbn [mbind option_bind fst snd]. rewrite decide_True by lia. done. }
  split; [by eapply exec_ok|by eapply exec_flow|..].
  - intros r. unfold fset. cbn. case_decide as Hr; [subst|by apply Hrk]. exists Q. split; [done|].
    destruct HR as [? ? ? Hmem ? Hcr ?]. split; cbn; try done; [|by rewrite Hcr, Hxb].
    rewrite Hmem, Hreg. done.
  - intros p' q' sl'. unfold csim. cbn [bn_rk bn_ch nt_ch].
    assert (∀ R' : BRank, br_ps R' = br_ps (bn_rk s q) → br_ps (fset q R' (bn_rk s) p') = br_ps (bn_rk s p')) as Hbp.
    { intros R' HR'. unfold fset. case_decide; congruence. }
    rewrite Hbp by done.
    destruct (decide ((p', q', sl') = (p, q, sl))) as [[= -> -> ->]|Hn].
    + rewrite !fset_at. exists (l1 ++ [y]), l2'. by rewrite Hp, <-!(assoc_L (++)).
    + rewrite !(fset_other (A := Z * Z * Z)) by done. apply Hch.
  - intros p' q' sl'. cbn [nt_rk]. unfold fset. case_decide as Hr; [subst|by apply Hpo]. cbn.
    pose proof (Hsome (p', sl')) as Hc. destruct (Hpo p' q sl') as [k Hk']. rewrite Hc in Hk'. rewrite Hk', (assoc_L (++)). by eexists.
Qed.

Context (Hin : in_time).

Lemma puts_split c A : ∀ k y, puts c A !! k = Some y →
  ∃ A1 A2, A = A1 ++ Do (BPut y.1 y.2) :: A2 ∧ length (puts c A1) = k ∧ (x_peer y.1, x_slot y.1) = c.
Proof.
  induction A as [|g A IH]; intros k y Hk; [done|]. change (g :: A) with ([g] ++ A) in Hk. rewrite puts_app in Hk.
  destruct (decide (k = O ∧ puts c [g] ≠ [])) as [[-> Hg]|Hn].
  - destruct g as [[x ro|b|b|d f srcs|e]|x]; try done. unfold puts, gputs in Hk, Hg. cbn [omap list_omap] in Hk, Hg.
    rewrite chan_one in Hk, Hg. case_decide as Hc; [|done]. injection Hk as <-. by exists [], A.
  - assert (length (puts c [g]) ≤ k)%nat as Hle.
    { assert (length (puts c [g]) ≤ 1)%nat by (destruct g as [[x ro|b|b|d f srcs|e]|x]; cbn; try case_decide; cbn; lia).
      destruct (puts c [g]); cbn in *; [lia|]. destruct k; [by destruct Hn|lia]. }
    rewrite lookup_app_r in Hk by done. destruct (IH _ _ Hk) as (A1 & A2 & -> & Hl & Hc). exists (g :: A1), A2.
    split; [done|]. split; [|done]. change (g :: A1) with ([g] ++ A1). rewrite puts_app, length_app. lia.
Qed.

Lemma on_buf_cnt b c l : (∀ y, y ∈ l → x_buf y = b ↔ (x_peer y, x_slot y) = c) → on_buf b l = cnt c l.
Proof.
  induction l as [|y l IH]; intros H; [done|]. change (y :: l) with ([y] ++ l). rewrite on_buf_app, cnt_app, on_buf_one, cnt_one, IH.
  - pose proof (H y (list_elem_of_here _ _)). repeat case_decide; tauto.
  - intros z Hz. apply H. by apply list_elem_of_further.
Qed.

(** Waits passed have been answered. *)
Lemma sim_waits A s t p q sl' b : sim A s t → (∀ y, y ∈ gposts (G p) → x_buf y = b ↔ (x_peer y, x_slot y) = (q, sl')) →
  (gwaits b (A p) ≤ length (puts (p, sl') (A q)))%nat.
Proof.
  intros H Hb. pose proof (sim_counts A s t q p sl' H) as Hc. destruct (sm_rank _ _ _ H p) as (Q & HQ & HR).
  pose proof (ro_recvs _ (sm_ok _ _ _ H p)) as Hside. pose proof (so_count _ _ _ _ _ Hside b) as Hcount.
  rewrite (sr_hist _ _ _ _ HR), h_wr_run, h_recvs_run, recvs_posts in Hcount. cbn [hist0 h_wr h_recvs app] in Hcount.
  assert (∀ y, y ∈ gposts (A p) → x_buf y = b ↔ (x_peer y, x_slot y) = (q, sl')) as Hb'.
  { intros y Hy. apply Hb. rewrite HQ. unfold gposts in *. rewrite omap_app. set_solver. }
  rewrite (on_buf_cnt b (q, sl') (gposts (A p))) in Hcount by done.
  rewrite (on_buf_cnt b (q, sl')) in Hcount.
  - change (cnt (q, sl') (gposts (A p))) with (length (posts (q, sl') (A p))) in Hcount. lia.
  - intros y ([j y'] & -> & Hy)%list_elem_of_fmap. apply Hb'. apply (so_in _ _ _ _ _ Hside) in Hy.
    rewrite (sr_hist _ _ _ _ HR), h_recvs_run, recvs_posts in Hy. by eapply list_elem_of_lookup_2.
Qed.

Lemma sim_ready A s t p q sl Q : sim A s t → G q = A q ++ Q → not_posting Q → bn_ch s (p, q, sl) ≠ [] →
  chan id (p, sl) (rs_pr (nt_rk t q)).*2 ≠ [].
Proof.
  intros H HQ Hnp Hne. pose proof (sim_counts A s t p q sl H) as Hcnt.
  destruct (sm_chan _ _ _ H p q sl) as (l1 & l2 & Hp & Hf & _). destruct l2 as [|y l2].
  { apply Forall2_nil_inv_l in Hf. done. }
  destruct (puts_split (q, sl) (A p) (length l1) y) as (A1 & A2 & HA & Hl & [= Hyq Hys]).
  { by rewrite Hp, lookup_app_r, Nat.sub_diag by lia. }
  destruct (sm_rank _ _ _ H p) as (Qp & HG & _). rewrite HA, <-(assoc_L (++)) in HG.
  destruct (Hin p q sl A1 y.1 y.2 _ HG Hyq Hys) as (b & sl' & j & Hj & Hb & Hready).
  assert (j ≤ length (puts (p, sl') (A q)))%nat as Hjp.
  { destruct Hb as [->|Hb]; [lia|]. pose proof (sim_waits A s t p q sl' b H Hb) as Hw. rewrite HA, gwaits_app in Hw. lia. }
  specialize (Hready (A q) Q HQ Hnp Hjp). rewrite Hl in Hready.
  rewrite Hp, !length_app, (Forall2_length _ _ _ Hf) in Hcnt. unfold cnt, chan in *. cbn in *. intros Hz. rewrite Hz in Hcnt. cbn in Hcnt. lia.
Qed.

(** Every place that can be made ready is. *)
Lemma sim_pump q A s t : sim A s t →
  ∃ A' t' Q, rtc net_step t t' ∧ sim A' s t' ∧ G q = A' q ++ Q ∧ not_posting Q.
Proof.
  intros H. destruct (sm_rank _ _ _ H q) as (Q & HQ & _). revert A t H HQ.
  induction Q as [|[a|x] Q IH]; intros A t H HQ; [by exists A, t, []|by exists A, t, (Do a :: Q)|].
  destruct (sim_net_post A s t q x Q H HQ) as (t1 & Ht1 & H1).
  destruct (IH _ _ H1) as (A' & t' & Q' & Ht' & H'); [by rewrite fset_at, <-(assoc_L (++))|].
  exists A', t', Q'. split; [|done]. eapply rtc_l; [|exact Ht']. by eexists.
Qed.

Lemma sim_forward A s t l s' : sim A s t → bexec bufs l s = Some s' →
  ∃ A' t1 t', rtc net_step t t1 ∧ net_step t1 t' ∧ sim A' s' t'.
Proof.
  intros H Hl. destruct l as [r|p q sl|p q sl].
  - destruct (sim_pump r A s t H) as (A1 & t1 & Q & Ht1 & H1 & HQ & Hnp).
    destruct (sm_rank _ _ _ H1 r) as (Q' & HQ' & HR). rewrite HQ in HQ'. apply app_inv_head in HQ' as <-.
    destruct Q as [|[a|x] Q]; [|..|done].
    { cbn in Hl. unfold blocal in Hl. by rewrite (sr_bprog _ _ _ _ HR) in Hl. }
    destruct (sim_net_do _ _ _ _ _ _ H1 HQ) as [[Hb _]|(s2 & t2 & Hb & Ht2 & H2)]; [congruence|].
    rewrite Hl in Hb. injection Hb as <-. eexists _, t1, t2. split; [done|]. split; [by eexists|done].
  - destruct (sim_transmit A s t p q sl H) as [[Hb _]|(s2 & t2 & Hb & Ht2 & H2)]; [congruence|].
    rewrite Hl in Hb. injection Hb as <-. exists A, t, t2. split; [done|]. split; [by eexists|done].
  - destruct (sim_pump q A s t H) as (A1 & t1 & Q & Ht1 & H1 & HQ & Hnp).
    assert (bn_ch s (p, q, sl) ≠ []) as Hne by (cbn in Hl; by destruct (bn_ch s (p, q, sl))).
    destruct (sim_deliver A1 s t1 p q sl H1) as (s2 & t2 & Hb & Ht2 & H2); [by eapply sim_ready|done|].
    rewrite Hl in Hb. injection Hb as <-. exists A1, t1, t2. split; [done|]. split; [by eexists|done].
Qed.

Lemma sim_backward A s t l t' : sim A s t → exec l t = Some t' → ∃ A' s', rtc (bnet_step bufs) s s' ∧ sim A' s' t'.
Proof.
  intros H Hl. destruct l as [r|p q sl|p q sl].
  - destruct (sm_rank _ _ _ H r) as (Q & HQ & HR). destruct Q as [|[a|x] Q].
    + cbn in Hl. unfold local in Hl. by rewrite (sr_prog _ _ _ _ HR) in Hl.
    + destruct (sim_net_do _ _ _ _ _ _ H HQ) as [[_ Hb]|(s2 & t2 & Hb & Ht2 & H2)]; [congruence|].
      rewrite Hl in Ht2. injection Ht2 as <-. eexists _, s2. split; [|done]. apply rtc_once. by eexists.
    + destruct (sim_net_post A s t r x Q H HQ) as (t1 & Ht1 & H1). rewrite Hl in Ht1. injection Ht1 as <-. by eexists _, s.
  - destruct (sim_transmit A s t p q sl H) as [[_ Hb]|(s2 & t2 & Hb & Ht2 & H2)]; [congruence|].
    rewrite Hl in Ht2. injection Ht2 as <-. exists A, s2. split; [|done]. apply rtc_once. by eexists.
  - destruct (sim_deliver A s t p q sl H) as (s2 & t2 & Hb & Ht2 & H2).
    + cbn in Hl. pose proof (pick_pending p sl (rs_pr (nt_rk t q))) as Hp. destruct (nt_ch t (p, q, sl)); [done|].
      unfold deliver in Hl. destruct (pick _ _) as [[x pr]|]; [|done]. rewrite Hp, decide_True by done. done.
    + destruct (sm_chan _ _ _ H p q sl) as (? & ? & _ & _ & Hs). cbn in Hl. intros Hz. rewrite Hz in Hs. cbn in Hs.
      by rewrite <-Hs in Hl.
    + rewrite Hl in Ht2. injection Ht2 as <-. exists A, s2. split; [|done]. apply rtc_once. by eexists.
Qed.

Lemma sim_finished A s f : sim A s f → finished f → bfinished s ∧ (λ r, br_mem (bn_rk s r)) = (λ r, rs_mem (nt_rk f r)).
Proof.
  intros H Hf. assert (∀ r, rsim (A r) [] (bn_rk s r) (nt_rk f r) ∧ G r = A r ++ []) as HR.
  { intros r. destruct (sm_rank _ _ _ H r) as (Q & HQ & HR). destruct (Hf r) as (Hp & _). rewrite (sr_prog _ _ _ _ HR) in Hp.
    destruct Q; [done|]. done. }
  split; [split|].
  - intros r. destruct (HR r) as [Hr _]. split; [by rewrite (sr_bprog _ _ _ _ Hr)|]. destruct (Hf r) as (_ & Hps & _).
    pose proof (sr_ps _ _ _ _ Hr) as Hps'. rewrite Hps in Hps'. by apply fmap_nil_inv in Hps'.
  - intros [[p q] sl]. destruct (decide (bn_ch s (p, q, sl) = [])) as [|Hne]; [done|exfalso].
    destruct (HR q) as [_ HG]. apply (sim_ready A s f p q sl [] H HG) in Hne; [|done].
    destruct (Hf q) as (_ & _ & Hpr). by rewrite Hpr in Hne.
  - extensionality r. by rewrite (sr_mem _ _ _ _ (proj1 (HR r))).
Qed.

Lemma bound_computes mems post : (∀ r, clean hist0 (net_prog (G r))) →
  computes (λ r, net_prog (G r)) mems post → bcomputes bufs (λ r, code (G r)) mems post.
Proof.
  intros Hc (n & f & Hf & Hpost & Hrun). exists n. intros m s Hm.
  assert (∃ A t k, nsteps net_step k (net_init (λ r, net_prog (G r)) mems) t ∧ (m ≤ k)%nat ∧ sim A s t) as (A & t & k & Hk & Hmk & H).
  { pose proof (sim_init mems Hc) as H0. revert H0. generalize (net_init (λ r, net_prog (G r)) mems) (λ _ : Z, [] : list GAct).
    clear Hrun. induction Hm as [s|m s s1 s' [l Hl] Hm IH]; intros t0 A0 H0; [exists A0, t0, O; split; [constructor|done]|].
    destruct (sim_forward _ _ _ _ _ H0 Hl) as (A1 & t1 & t2 & [k1 Hk1]%rtc_nsteps & Ht2 & H2).
    destruct (IH t2 A1 H2) as (A & t & k & Hk & Hmk & H). exists A, t, (k1 + S k)%nat.
    split; [|split; [lia|done]]. eapply nsteps_trans; [exact Hk1|]. by eapply nsteps_l. }
  destruct (Hrun k t Hk) as [Hkn Hkf]. split; [lia|]. revert Hkf. generalize (n - k)%nat. intros j Hj.
  clear - Hj H Hf Hpost Hagree Hin. revert A s H. induction Hj as [f|j t t1 f [l Hl] Hj IH]; intros A s H.
  - destruct (sim_finished A s f H Hf) as [Hb Hm]. exists s. split; [done|]. split; [done|]. by rewrite Hm.
  - destruct (sim_backward A s t l t1 H Hl) as (A' & s1 & Hs1 & H1). destruct (IH Hf Hpost A' s1 H1) as (g & Hg & ?).
    exists g. split; [by etrans|done].
Qed.

(** Who has waited for a message knows that it was sent, and what is on the
    way was sent. *)
Lemma bound_causal mems s : (∀ r, clean hist0 (net_prog (G r))) →
  rtc (bnet_step bufs) (bnet_init (λ r, code (G r)) mems) s →
  ∃ A, (∀ r, ∃ Q, G r = A r ++ Q ∧ br_prog (bn_rk s r) = code Q) ∧
    (∀ p q sl b, (∀ y, y ∈ gposts (G p) → x_buf y = b ↔ (x_peer y, x_slot y) = (q, sl)) →
      (gwaits b (A p) ≤ length (puts (p, sl) (A q)))%nat) ∧
    ∀ p q sl, bn_ch s (p, q, sl) ≠ [] → puts (q, sl) (A p) ≠ [].
Proof.
  intros Hc Hs. assert (∃ A t, sim A s t) as (A & t & H).
  { pose proof (sim_init mems Hc) as H0. revert H0. generalize (net_init (λ r, net_prog (G r)) mems) (λ _ : Z, [] : list GAct).
    induction Hs as [s|s s1 s' [l Hl] Hs IH]; intros t0 A0 H0; [by exists A0, t0|].
    destruct (sim_forward _ _ _ _ _ H0 Hl) as (A1 & t1 & t2 & _ & _ & H2). by apply (IH t2 A1). }
  exists A. split; [|split; [intros p q sl b; by apply (sim_waits A s t)|]].
  2: { intros p q sl Hne Hz. destruct (sm_chan _ _ _ H p q sl) as (l1 & l2 & Hp & Hf & _). rewrite Hz in Hp.
    symmetry in Hp. apply app_nil in Hp as [_ [-> _]%app_nil]. by apply Forall2_nil_inv_l in Hf. }
  intros r. destruct (sm_rank _ _ _ H r) as (Q & HQ & HR). exists Q. split; [done|by apply (sr_bprog _ _ _ _ HR)].
Qed.
End transfer.

(** What a step does to a process: nothing, a step of its own, or data arrives. *)
Lemma bexec_process bufs l s s' r : bexec bufs l s = Some s' →
  (br_prog (bn_rk s' r) = br_prog (bn_rk s r) ∧
    (br_mem (bn_rk s' r) = br_mem (bn_rk s r) ∨ ∃ p sl, bn_ch s (p, r, sl) ≠ [])) ∨
  ∃ a, br_prog (bn_rk s r) = a :: br_prog (bn_rk s' r).
Proof.
  destruct l as [q|p q sl|p q sl]; cbn; intros H.
  - unfold blocal in H. destruct (br_prog (bn_rk s q)) as [|a p] eqn:Hp; [done|].
    destruct (decide (r = q)) as [->|Hne]; [right; exists a|left].
    + destruct a; cbn in H; repeat case_decide; try done; injection H as <-; cbn; by rewrite fset_at.
    + destruct a; cbn in H; repeat case_decide; try done; injection H as <-; cbn; rewrite fset_other by done; by split; [|left].
  - unfold btransmit in H. destruct (pick _ _) as [[y ps]|]; [|done]. injection H as <-. cbn. left. unfold fset. case_decide; subst; by split; [|left].
  - destruct (bn_ch s (p, q, sl)) as [|d ds] eqn:Hd; [done|]. unfold bdeliver in H. destruct (find_buf _ _ _) as [b|]; [|done].
    cbn in H. case_decide; [|done]. injection H as <-. cbn. left. unfold fset. case_decide; [subst|by split; [|left]].
    split; [done|]. right. exists p, sl. by rewrite Hd.
Qed.
