(* ===== verification/BoundAlias.v ===== *)
(** Memory that nobody reads. Two families of programs over bound buffers that
    differ only in where they keep some memory whose content never reaches the
    rest (the integer that notifications are sent from and received into) run
    in lockstep: the same steps can be taken, and the memories agree elsewhere.
    So what is proved of programs that keep such integers apart holds of those
    that use one integer for all. *)
From S2P Require Import Prelude Net Groups BoundNet.

Lemma pick_Forall2 {A B} (R : A → B → Prop) (P : A → bool) (Q : B → bool) l k :
  Forall2 R l k → (∀ x y, R x y → P x = Q y) →
  option_Forall2 (λ a b, R a.1 b.1 ∧ Forall2 R a.2 b.2) (pick P l) (pick Q k).
Proof.
  intros Hl HP. induction Hl as [|x y l k Hxy Hl IH]; [constructor|]. cbn. rewrite (HP x y Hxy).
  destruct (Q y); [by constructor|]. destruct IH as [[? ?] [? ?] [? ?]|]; [|constructor].
  constructor. split; [done|by constructor].
Qed.

Section alias.
(** Memory that holds noise, in the first family and in the second; the memory
    the second starts with. *)
Context (D D' : Z → Prop) (Hsub : ∀ b, D' b → D b) (init : Z → Mem).

Definition alias_reg (r r' : Region) : Prop :=
  (r = r' ∧ ¬ D (rg_buf r)) ∨ (rg_len r = rg_len r' ∧ D (rg_buf r) ∧ D' (rg_buf r')).
Definition alias_buf (b b' : BBuf) : Prop :=
  bb_id b = bb_id b' ∧ bb_peer b = bb_peer b' ∧ bb_slot b = bb_slot b' ∧ alias_reg (bb_reg b) (bb_reg b').
Definition alias_mem (r : Z) (m m' : Mem) : Prop :=
  ∀ b i, (¬ D b → m' b i = m b i) ∧ (D b → ¬ D' b → m' b i = init r b i).

Context (bufs bufs' : Z → list BBuf) (Hbufs : ∀ r, Forall2 alias_buf (bufs r) (bufs' r)).

(** Where a channel ends in such memory. *)
Definition noisy (c : Z * Z * Z) : Prop :=
  ∀ b, find_buf c.1.1 c.2 (bufs c.1.2) = Some b → D (rg_buf (bb_reg b)).

Definition alias_put (p : Z) (y y' : Xfer * Z) : Prop :=
  y.2 = y'.2 ∧ x_peer y.1 = x_peer y'.1 ∧ x_slot y.1 = x_slot y'.1 ∧ x_buf y.1 = x_buf y'.1 ∧
  alias_reg (x_reg y.1) (x_reg y'.1) ∧ (D (rg_buf (x_reg y.1)) → noisy (p, x_peer y.1, x_slot y.1)).
Definition alias_act (p : Z) (a a' : BAct) : Prop :=
  match a, a' with
  | BPut x ro, BPut x' ro' => alias_put p (x, ro) (x', ro')
  | BWaitSend b, BWaitSend b' | BWaitRecv b, BWaitRecv b' => b = b'
  | BCompute d f srcs, BCompute d' f' srcs' =>
      d = d' ∧ f = f' ∧ srcs = srcs' ∧ ¬ D (rg_buf d) ∧ Forall (λ r, ¬ D (rg_buf r)) srcs
  | BStop e, BStop e' => e = e'
  | _, _ => False
  end.
Definition alias_msg (c : Z * Z * Z) (m m' : Z * list Z) : Prop :=
  m.1 = m'.1 ∧ length m.2 = length m'.2 ∧ (noisy c ∨ m.2 = m'.2).

Record alias_rank (r : Z) (R R' : BRank) : Prop := {
  al_prog : Forall2 (alias_act r) (br_prog R) (br_prog R');
  al_mem : alias_mem r (br_mem R) (br_mem R');
  al_ps : Forall2 (alias_put r) (br_ps R) (br_ps R');
  al_cs : br_cs R = br_cs R';
  al_cr : br_cr R = br_cr R';
}.
Record alias_net (s s' : BNet) : Prop := {
  al_rank : ∀ r, alias_rank r (bn_rk s r) (bn_rk s' r);
  al_chan : ∀ c, Forall2 (alias_msg c) (bn_ch s c) (bn_ch s' c);
}.

(* ------------------------------------------------------------------ *)
(** * Memory *)

Lemma alias_read r m m' reg : alias_mem r m m' → ¬ D (rg_buf reg) → read m' reg = read m reg.
Proof. intros Hm Hr. apply list_fmap_ext. intros ? i _. by apply Hm. Qed.
Lemma alias_read_length m m' reg reg' : rg_len reg = rg_len reg' → length (read m reg) = length (read m' reg').
Proof. intros H. unfold read. by rewrite !length_fmap, !length_seqZ, H. Qed.

Lemma alias_write r m m' reg d : alias_mem r m m' → ¬ D (rg_buf reg) → alias_mem r (write m reg d) (write m' reg d).
Proof.
  intros Hm Hr b i. unfold write. case_decide as Hin; [|apply Hm]. destruct Hin as [-> _]. split; [done|]. by intros ?%Hr.
Qed.
Lemma alias_write_noise r m m' reg reg' d d' : alias_mem r m m' → D (rg_buf reg) → D' (rg_buf reg') →
  alias_mem r (write m reg d) (write m' reg' d').
Proof.
  intros Hm Hr Hr' b i. unfold write, inside. split.
  - intros Hb. rewrite !decide_False; [by apply Hm|..]; intros [-> _]; [done|]. by apply Hb, Hsub.
  - intros Hb Hb'. rewrite decide_False; [by apply Hm|]. by intros [-> _].
Qed.

(* ------------------------------------------------------------------ *)
(** * The two families in lockstep *)

Lemma alias_find p sl r : option_Forall2 alias_buf (find_buf p sl (bufs r)) (find_buf p sl (bufs' r)).
Proof.
  unfold find_buf. generalize (Hbufs r). generalize (bufs r) (bufs' r). intros l k H.
  induction H as [|b b' l k Hb _ IH]; [constructor|]. cbn. destruct Hb as (Hi & Hp & Hs & Hr). rewrite <-Hp, <-Hs.
  destruct (_ && _); [by constructor|done].
Qed.

Lemma alias_local r R R' : alias_rank r R R' → option_Forall2 (alias_rank r) (blocal R) (blocal R').
Proof.
  destruct R as [p m ps cs cr], R' as [p' m' ps' cs' cr']. intros [Hp Hm Hps Hcs Hcr]. cbn in *. subst cs' cr'.
  unfold blocal. cbn. destruct Hp as [|a a' p p' Ha Hp]; [constructor|].
  destruct a as [x ro|b|b|d f srcs|e], a' as [x' ro'|b'|b'|d' f' srcs'|e']; try done; cbn in Ha.
  - constructor. split; cbn; try done. apply Forall2_app; [done|]. apply Forall2_cons; split; [exact Ha|constructor].
  - subst. case_decide; constructor. by split.
  - subst. case_decide; constructor. by split.
  - destruct Ha as (<- & <- & <- & Hd & Hs). constructor. split; cbn; try done.
    assert (read m' <$> srcs = read m <$> srcs) as ->; [|by apply alias_write].
    apply list_fmap_ext. intros i reg Hi. rewrite Forall_lookup in Hs. by apply (alias_read r), (Hs i).
  - constructor.
Qed.

Lemma alias_transmit r q sl R R' : alias_rank r R R' →
  option_Forall2 (λ a b, alias_msg (r, q, sl) a.1 b.1 ∧ alias_rank r a.2 b.2) (btransmit q sl R) (btransmit q sl R').
Proof.
  intros H. pose proof H as [Hp Hm Hps Hcs Hcr]. unfold btransmit.
  pose proof (pick_Forall2 _ (on_put q sl) (on_put q sl) _ _ Hps) as Hpick.
  assert (∀ x y, alias_put r x y → on_put q sl x = on_put q sl y) as Hon.
  { intros x y (_ & H1 & H2 & _). unfold on_put. by rewrite H1, H2. }
  specialize (Hpick Hon). assert (∀ z, pick (on_put q sl) (br_ps R) = Some z → x_peer z.1.1 = q ∧ x_slot z.1.1 = sl) as Hz.
  { generalize (br_ps R). induction l as [|x l IH]; [done|]. cbn. destruct (on_put q sl x) eqn:E.
    - intros z [= <-]. unfold on_put in E. cbn. lia.
    - intros z. destruct (pick _ l) as [[y k]|]; [|done]. intros [= <-]. exact (IH _ eq_refl). }
  destruct Hpick as [[[x ro] ps] [[x' ro'] ps'] [Hx Hps']|]; [|constructor]. specialize (Hz _ eq_refl). cbn in *.
  destruct Hz as [<- <-]. destruct Hx as (H1 & H2 & H3 & H4 & H5 & H6). cbn in *. constructor. split.
  - split; [done|]. cbn. destruct H5 as [[<- Hd]|(Hl & Hd & Hd')]; [|split; [by apply alias_read_length|left; by apply H6]].
    rewrite (alias_read r (br_mem R) (br_mem R')) by done. split; [done|by right].
  - split; cbn; try done. by rewrite Hcs, H4.
Qed.

Lemma alias_deliver p q sl d d' R R' : alias_msg (p, q, sl) d d' → alias_rank q R R' →
  option_Forall2 (alias_rank q) (bdeliver (bufs q) p sl d R) (bdeliver (bufs' q) p sl d' R').
Proof.
  destruct d as [ro d], d' as [ro' d']. intros (Hro & Hlen & Hd) [Hp Hm Hps Hcs Hcr]. cbn in *. subst ro'.
  unfold bdeliver. pose proof (alias_find p sl q) as Hf. unfold noisy in Hd. cbn in Hd.
  destruct Hf as [b b' (Hi & _ & _ & Hr)|]; [|constructor]. cbn.
  assert (rg_len (bb_reg b) = rg_len (bb_reg b')) as Hl by (destruct Hr as [[<- _]|[? _]]; done).
  unfold lenZ. rewrite Hl, Hlen. case_decide; [|constructor]. constructor.
  split; cbn; try done; [|by rewrite Hcr, Hi]. destruct Hr as [[<- Hb]|(_ & Hb & Hb')].
  - destruct Hd as [Hd|<-]; [by destruct (Hb (Hd b eq_refl))|]. by apply alias_write.
  - by apply alias_write_noise.
Qed.

Lemma alias_set s s' r R R' (c : Z * Z * Z) l l' : alias_net s s' → alias_rank r R R' → Forall2 (alias_msg c) l l' →
  alias_net (mkBNet (fset r R (bn_rk s)) (fset c l (bn_ch s))) (mkBNet (fset r R' (bn_rk s')) (fset c l' (bn_ch s'))).
Proof.
  intros [Hr Hc] HR Hl. split; cbn; [intros q|intros c']; unfold fset; case_decide; subst; done || apply Hr || apply Hc.
Qed.

Lemma alias_exec l s s' : alias_net s s' → option_Forall2 alias_net (bexec bufs l s) (bexec bufs' l s').
Proof.
  intros H. pose proof H as [Hr Hc]. destruct l as [r|p q sl|p q sl]; cbn.
  - destruct (alias_local r _ _ (Hr r)) as [R R' HR|]; constructor. split; [|done]. intros q. cbn. unfold fset.
    case_decide; subst; [done|apply Hr].
  - destruct (alias_transmit p q sl _ _ (Hr p)) as [[d R] [d' R'] [Hd HR]|]; constructor. apply alias_set; [done|done|].
    apply Forall2_app; [apply Hc|by apply Forall2_cons; split; [exact Hd|constructor]].
  - destruct (Hc (p, q, sl)) as [|d d' ds ds' Hd Hds]; [constructor|].
    destruct (alias_deliver p q sl d d' _ _ Hd (Hr q)) as [R R' HR|]; constructor. by apply alias_set.
Qed.

Lemma alias_forth s s' t : alias_net s s' → bnet_step bufs s t → ∃ t', bnet_step bufs' s' t' ∧ alias_net t t'.
Proof.
  intros H [l Hl]. pose proof (alias_exec l s s' H) as He. rewrite Hl in He. destruct (bexec bufs' l s') as [t'|] eqn:E; [|by inversion He].
  inversion He; subst. exists t'. split; [by exists l|done].
Qed.
Lemma alias_back s s' t' : alias_net s s' → bnet_step bufs' s' t' → ∃ t, bnet_step bufs s t ∧ alias_net t t'.
Proof.
  intros H [l Hl]. pose proof (alias_exec l s s' H) as He. rewrite Hl in He. destruct (bexec bufs l s) as [t|] eqn:E; [|by inversion He].
  inversion He; subst. exists t. split; [by exists l|done].
Qed.

Lemma alias_finished s s' : alias_net s s' → bfinished s → bfinished s'.
Proof.
  intros [Hr Hc] [H1 H2]. split.
  - intros r. destruct (H1 r) as [Hp Hps], (Hr r) as [Ap _ Aps _ _]. rewrite Hp in Ap. rewrite Hps in Aps.
    split; [by apply Forall2_nil_inv_l in Ap|by apply Forall2_nil_inv_l in Aps].
  - intros c. specialize (Hc c). rewrite H2 in Hc. by apply Forall2_nil_inv_l in Hc.
Qed.

Lemma alias_init progs progs' : (∀ r, Forall2 (alias_act r) (progs r) (progs' r)) → alias_net (bnet_init progs init) (bnet_init progs' init).
Proof. intros Hp. split; [|by intros c]. intros r. split; cbn; try done. Qed.

(** What the first family computes, the second computes, where it is not noise. *)
Lemma alias_computes progs progs' post : (∀ r, Forall2 (alias_act r) (progs r) (progs' r)) →
  bcomputes bufs progs init post →
  bcomputes bufs' progs' init (λ mems', ∃ mems, post mems ∧ ∀ r, alias_mem r (mems r) (mems' r)).
Proof.
  intros Hp [n Hn]. exists n. intros m s' Hm.
  assert (∃ s, nsteps (bnet_step bufs) m (bnet_init progs init) s ∧ alias_net s s') as (s & Hs & Hal).
  { pose proof (alias_init _ _ Hp) as Hi. revert Hi. generalize (bnet_init progs init). clear - Hm Hbufs Hsub.
    induction Hm as [s'|m s' t' u' Hst _ IH]; intros s Hi; [exists s; split; [constructor|done]|].
    destruct (alias_back _ _ _ Hi Hst) as (t & Ht & Hal). destruct (IH t Hal) as (u & Hu & ?). exists u. split; [by eapply nsteps_l|done]. }
  destruct (Hn m s Hs) as (Hle & f & Hf & Hfin & Hpost). split; [done|].
  assert (∃ f', rtc (bnet_step bufs') s' f' ∧ alias_net f f') as (f' & Hf' & Hal').
  { clear - Hf Hal Hbufs Hsub. revert s' Hal. induction Hf as [s|s t u Hst _ IH]; intros s' Hal; [by exists s'|].
    destruct (alias_forth _ _ _ Hal Hst) as (t' & Ht & Hal'). destruct (IH t' Hal') as (u' & Hu & ?). exists u'. split; [by eapply rtc_l|done]. }
  exists f'. split; [done|]. split; [by eapply alias_finished|]. eexists. split; [exact Hpost|]. intros r. apply (al_rank _ _ Hal').
Qed.

Lemma alias_group_computes size progs progs' post : (∀ r, 0 ≤ r < size → Forall2 (alias_act r) (progs r) (progs' r)) →
  bcomputes bufs (group size progs) init post →
  bcomputes bufs' (group size progs') init (λ mems', ∃ mems, post mems ∧ ∀ r, alias_mem r (mems r) (mems' r)).
Proof. intros Hp. apply alias_computes. intros r. unfold group. case_decide; [by apply Hp|constructor]. Qed.
(** Memory that holds no noise in the second family is as in the first, or as
    it was. *)
Lemma alias_mem_read r m m' reg : Decision (D (rg_buf reg)) → alias_mem r m m' → ¬ D' (rg_buf reg) →
  (¬ D (rg_buf reg) → read m reg = read (init r) reg) → read m' reg = read (init r) reg.
Proof.
  intros [Hd|Hd] Hm Hn Hr; [|rewrite <-Hr by done; by apply (alias_read r)]. apply list_fmap_ext. intros k i _. by apply Hm.
Qed.

(* ------------------------------------------------------------------ *)
(** * Programs in lockstep *)

Lemma alias_computations r p : Forall (λ a, match a with BCompute d f srcs => ¬ D (rg_buf d) ∧ Forall (λ r, ¬ D (rg_buf r)) srcs | _ => False end) p →
  Forall2 (alias_act r) p p.
Proof. induction 1 as [|a p Ha _ IH]; constructor; [|done]. by destruct a. Qed.

(** A send of a whole buffer. *)
Lemma alias_send_all r b b' : alias_buf b b' → (D (rg_buf (bb_reg b)) → noisy (r, bb_peer b, bb_slot b)) →
  Forall2 (alias_act r) (buffer_send_all b) (buffer_send_all b').
Proof.
  intros (Hi & Hp & Hs & Hr) Hn. unfold buffer_send_all, buffer_send.
  assert (rg_len (bb_reg b) = rg_len (bb_reg b')) as Hl by (destruct Hr as [[<- _]|[? _]]; done).
  rewrite Hl. destruct (_ <=? _); [|by repeat constructor]. constructor; [|constructor]. split; [done|]. cbn. split_and!; try done.
  destruct Hr as [[<- Hb]|(_ & Hb & Hb')]; [by left|by right].
Qed.
Lemma alias_send r b offset length roffset : ¬ D (rg_buf (bb_reg b)) →
  Forall2 (alias_act r) (buffer_send b offset length roffset) (buffer_send b offset length roffset).
Proof.
  intros Hn. unfold buffer_send. destruct (_ <=? _); [|by repeat constructor]. constructor; [|constructor].
  split; [done|]. cbn. split_and!; try done. by left.
Qed.
End alias.
