(* ===== verification/BoundRounds.v ===== *)
(** Running programs over bound buffers: rounds with receives still pending,
    and flow control by credits, which tells that every put finds its place
    ready. *)
From Stdlib Require Import FunctionalExtensionality.
From S2P Require Import Prelude Net NetRun Groups Rounds BoundNet.

(* ------------------------------------------------------------------ *)
(** * Rounds with pending receives *)

(** A process sends messages, until it has to wait. *)
Definition emitting (L : list Xfer) (p : list Act) (m : Mem) (cs cr : Z → nat) (ev : list Msg)
    (L' : list Xfer) (p' : list Act) (m' : Mem) (cs' cr' : Z → nat) : Prop :=
  ∀ R, rank_in L p m cs cr R → ∃ R', emits R ev R' ∧ rank_in L' p' m' cs' cr' R'.

Lemma emitting_reaches L p m cs cr p' m' cs' cr' :
  reaches p m cs cr p' m' cs' cr' → emitting L p m cs cr [] L p' m' cs' cr'.
Proof. intros H R HR. destruct (H L R HR) as (R' & HL & HR'). exists R'. split; [|done]. eapply emits_locals; [done|constructor]. Qed.

Lemma emitting_posts L acts p m cs cr : Forall is_post acts →
  emitting L (acts ++ p) m cs cr (sent m acts) (L ++ recvs_of acts) p (mem_after m acts) (bumps (sends_of acts) cs) cr.
Proof.
  intros Hp R (pr & h & Hpr & ->). destruct (posts_emit acts p m pr cs cr h Hp) as (pr' & h' & Hpr' & He).
  eexists. split; [exact He|]. exists (pr ++ pr'), h'. by rewrite fmap_app, Hpr, Hpr'.
Qed.

Lemma emitting_trans L p m cs cr l L1 p1 m1 cs1 cr1 k L2 p2 m2 cs2 cr2 :
  emitting L p m cs cr l L1 p1 m1 cs1 cr1 → emitting L1 p1 m1 cs1 cr1 k L2 p2 m2 cs2 cr2 →
  emitting L p m cs cr (l ++ k) L2 p2 m2 cs2 cr2.
Proof.
  intros H1 H2 R HR. destruct (H1 R HR) as (R1 & He1 & HR1). destruct (H2 R1 HR1) as (R2 & He2 & HR2).
  exists R2. split; [by eapply emits_app|done].
Qed.

Lemma pending_take_first now rest : ∀ tk p m ps cs cr h, Forall2 msg_for now.*2 tk →
  takes (mkRank p m ps (now ++ rest) cs cr h) tk (mkRank p (receives m now.*2 tk) ps rest cs (bumps now.*2 cr) h).
Proof.
  induction now as [|[j x] now IH]; intros tk p m ps cs cr h H; cbn in H; inversion H as [|? d ? tk' Hd Htk]; subst.
  - constructor.
  - destruct d as [q sl dat]. destruct Hd as (Hq & Hsl & Hlen). cbn in Hq, Hsl, Hlen. subst.
    eapply tk_recv; [|by apply IH]. unfold deliver, on_chan. cbn. rewrite !Z.eqb_refl. cbn.
    rewrite decide_True by lia. do 2 f_equal. unfold receive. cbn. by rewrite (region_len (x_reg x)).
Qed.

(** A round: a process sends, receives what it has been waiting for longest,
    and goes on to its next send. *)
Lemma emitting_round L p m cs cr ev now L' p1 m1 cs1 cr1 tk p' m' cs' cr' R :
  rank_in L p m cs cr R → emitting L p m cs cr ev (now ++ L') p1 m1 cs1 cr1 → Forall2 msg_for now tk →
  reaches p1 (receives m1 now tk) cs1 (bumps now cr1) p' m' cs' cr' →
  rank_round R ev tk (rank_in L' p' m' cs' cr').
Proof.
  intros HR He Htk Hre. destruct (He R HR) as (R1 & He1 & pr & h & Hpr & ->).
  apply fmap_app_inv in Hpr as (l1 & l2 & -> & -> & ->).
  eapply rank_round_post.
  - eexists _, (mkRank p1 (receives m1 l1.*2 tk) [] l2 cs1 (bumps l1.*2 cr1) h). split; [exact He1|].
    split; [by apply pending_take_first|]. instantiate (1 := rank_in l2.*2 p1 (receives m1 l1.*2 tk) cs1 (bumps l1.*2 cr1)).
    by exists l2, h.
  - intros R1 HR1. by apply Hre.
Qed.

(** A group of processes that runs to its end. *)
Lemma advances_computes size p mems (Mf : Z → Mem) (St : Z → Rank → Prop) :
  (∀ r, 0 ≤ r < size → clean hist0 (p r)) →
  advances size (λ r, rank_in [] (p r) (mems r) (λ _, O) (λ _, O)) St →
  (∀ r R, 0 ≤ r < size → St r R → ∃ cs cr, rank_in [] [] (Mf r) cs cr R) →
  computes (group size p) mems (λ mems', ∀ r, 0 ≤ r < size → mems' r = Mf r).
Proof.
  intros Hc H HSt. destruct (H (net_init (group size p) mems)) as (s & Hs & Hout & _ & HR); [done| |].
  { intros r Hr%elem_ranks. apply rank_at_in. by apply (group_at size p). }
  eapply group_computes; [exact Hc|exact Hs|done| |].
  - intros r Hr. pose proof (HR r Hr) as HSr. apply elem_ranks in Hr. destruct (HSt r _ Hr HSr) as (cs & cr & HR').
    exists cs, cr. by apply rank_at_in.
  - intros r Hr. by rewrite decide_True.
Qed.

(* ------------------------------------------------------------------ *)
(** * Along a program *)

(** [P] holds of every action of [l] and the program before it, after [B]. *)
Fixpoint walk (P : list GAct → GAct → Prop) (B l : list GAct) : Prop :=
  match l with [] => True | a :: l => P B a ∧ walk P (B ++ [a]) l end.

Lemma walk_app P l : ∀ k B, walk P B (l ++ k) ↔ walk P B l ∧ walk P (B ++ l) k.
Proof.
  induction l as [|a l IH]; intros k B; cbn; [rewrite app_nil_r; tauto|]. rewrite IH, <-(assoc_L (++)). tauto.
Qed.

Lemma walk_at P l : ∀ B A a Q, walk P B l → l = A ++ a :: Q → P (B ++ A) a.
Proof. intros B A a Q H ->. apply walk_app in H as [_ H]. by destruct H. Qed.

Lemma walk_rounds P (f : nat → list GAct) n : ∀ i B,
  (∀ k, (i ≤ k < i + n)%nat → walk P (B ++ (seq i (k - i) ≫= f)) (f k)) → walk P B (seq i n ≫= f).
Proof.
  induction n as [|n IH]; intros i B H; [done|]. cbn [seq mbind list_bind]. apply walk_app. split.
  - specialize (H i). rewrite Nat.sub_diag in H. cbn in H. rewrite app_nil_r in H. apply H. lia.
  - apply IH. intros k Hk. specialize (H k). replace (k - i)%nat with (S (k - S i)) in H by lia. cbn [seq mbind list_bind] in H.
    rewrite <-(assoc_L (++)). apply H. lia.
Qed.

(* ------------------------------------------------------------------ *)
(** * Credits *)

(** [p] may put [c] messages to [q] before it hears of it, and one more for
    every message it has waited for. *)
Definition credit (G : Z → list GAct) (p q sl : Z) : Prop := ∃ c b sl',
  ((length (puts (q, sl) (G p)) ≤ c)%nat ∨ ∀ y, y ∈ gposts (G p) → x_buf y = b ↔ (x_peer y, x_slot y) = (q, sl')) ∧
  (∀ A x ro Q, G p = A ++ Do (BPut x ro) :: Q → (x_peer x, x_slot x) = (q, sl) →
    (length (puts (q, sl) A) < c + gwaits b A)%nat) ∧
  (∀ B Q, G q = B ++ Q → not_posting Q →
    (length (puts (q, sl) (G p)) `min` (c + length (puts (p, sl') B)) ≤ length (posts (p, sl) B))%nat).

Lemma credit_in_time G : (∀ p q sl, puts (q, sl) (G p) ≠ [] → credit G p q sl) → in_time G.
Proof.
  intros H p q sl A x ro Q HG Hq Hsl. assert (puts (q, sl) [Do (BPut x ro)] = [(x, ro)]) as Hone.
  { unfold puts. cbn [gputs omap list_omap]. rewrite chan_one. cbn. by rewrite Hq, Hsl, decide_True. }
  assert (length (puts (q, sl) A) < length (puts (q, sl) (G p)))%nat as Hlt.
  { rewrite HG. change (Do (BPut x ro) :: Q) with ([Do (BPut x ro)] ++ Q). rewrite !puts_app, Hone, !length_app. cbn. lia. }
  destruct (H p q sl) as (c & b & sl' & Hb & Hs & Hr); [intros Hz; rewrite Hz in Hlt; cbn in Hlt; lia|].
  assert ((x_peer x, x_slot x) = (q, sl)) as Hx by congruence.
  specialize (Hs A x ro Q HG Hx). exists b, sl', (S (length (puts (q, sl) A)) - c)%nat. split; [lia|].
  split; [destruct Hb as [Hb|Hb]; [left; lia|by right]|]. intros B Q' HB Hnp Hj. specialize (Hr B Q' HB Hnp). lia.
Qed.

(** Everything is ready from the start. *)
Lemma credit_all G p q sl : 
  (∀ B Q, G q = B ++ Q → not_posting Q → (length (puts (q, sl) (G p)) ≤ length (posts (p, sl) B))%nat) → credit G p q sl.
Proof.
  intros H. exists (length (puts (q, sl) (G p))), 0, 0. split; [by left|]. split; [|intros B Q HB Hnp; specialize (H B Q HB Hnp); lia].
  intros A x ro Q HG Hx. rewrite HG. change (Do (BPut x ro) :: Q) with ([Do (BPut x ro)] ++ Q). rewrite !puts_app, !length_app.
  assert (length (puts (q, sl) [Do (BPut x ro)]) = 1%nat); [|lia]. unfold puts. cbn [gputs omap list_omap]. rewrite chan_one. by rewrite decide_True.
Qed.
Lemma posts_first (G : Z → list GAct) q c (xs : list Xfer) p B Q : G q = (Post <$> xs) ++ p → B ++ Q = G q → not_posting Q →
  (length (chan id c xs) ≤ length (posts c B))%nat.
Proof.
  intros HG HB Hnp. rewrite HG in HB. clear HG.
  assert (∃ B', B = (Post <$> xs) ++ B') as [B' ->].
  { revert B HB. induction xs as [|x xs IH]; intros B HB; [by exists B|]. destruct B as [|g B]; cbn in HB.
    - by rewrite HB in Hnp.
    - injection HB as -> HB. destruct (IH B HB) as [B' ->]. by exists B'. }
  rewrite posts_app, length_app. unfold posts. assert (gposts (Post <$> xs) = xs) as ->; [|lia].
  clear. induction xs as [|x xs IH]; [done|]. cbn. f_equal. exact IH.
Qed.

Lemma puts_group size G p c : puts c (group size G p) ≠ [] → 0 ≤ p < size ∧ group size G p = G p.
Proof. unfold group. by case_decide. Qed.

(** A group whose programs are clean when receives stand where places are
    made ready, and where every put fits and comes in time. *)
Lemma bound_group size bufs (G : Z → list GAct) mems post :
  agree bufs (group size G) → (∀ p q sl, puts (q, sl) (group size G p) ≠ [] → credit (group size G) p q sl) →
  (∀ r, 0 ≤ r < size → clean hist0 (net_prog (G r))) →
  computes (group size (λ r, net_prog (G r))) mems post → bcomputes bufs (group size (λ r, code (G r))) mems post.
Proof.
  intros Ha Hc Hcl H. assert (group size (λ r, code (G r)) = λ r, code (group size G r)) as ->.
  { extensionality r. unfold group. by case_decide. }
  assert (group size (λ r, net_prog (G r)) = λ r, net_prog (group size G r)) as E.
  { extensionality r. unfold group. by case_decide. }
  apply bound_computes; [done|by apply credit_in_time| |by rewrite <-E].
  intros r. unfold group. case_decide; [by apply Hcl|done].
Qed.
