(* ===== verification/Once.v ===== *)
(** Programs in which every bound buffer is used once: everything that is to
    arrive may arrive from the start. *)
From Stdlib Require Import FunctionalExtensionality.
From S2P Require Import Prelude Net NetRun Groups Rounds BoundNet BoundRounds.

(** [createSendBuffer], [createRecvBuffer]: a new object [id] on a pair, for
    the memory at a pointer. *)
Definition createSendBuffer (id pair slot : Z) (mem : Region) : BBuf := mkBBuf id pair slot mem.
Definition createRecvBuffer (id pair slot : Z) (mem : Region) : BBuf := mkBBuf id pair slot mem.

(** The operation on all of a buffer. *)
Definition xfer_of (b : BBuf) : Xfer := mkXferOf (bb_peer b) (bb_slot b) (bb_reg b) (bb_id b).
Definition bb_chan (b : BBuf) : Z * Z := (bb_peer b, bb_slot b).

Lemma buffer_send_whole b : 0 ≤ rg_len (bb_reg b) < 2 ^ 64 → buffer_send_all b = [BPut (xfer_of b) 0].
Proof.
  intros Hl. unfold buffer_send_all, buffer_send. rewrite Z.add_0_l, wrap_small, Z.leb_refl by (unfold in_range; lia).
  unfold xfer_of. rewrite Z.add_0_r. by destruct b as [? ? ? []].
Qed.

Lemma filter_one {A B} `{EqDecision B} (f : A → B) (l : list A) x : NoDup (f <$> l) → x ∈ l → filter (λ y, f y = f x) l = [x].
Proof.
  induction l as [|y l IH]; [set_solver|]. rewrite fmap_cons, filter_cons. intros [Hy Hnd]%NoDup_cons [->|Hx]%elem_of_cons.
  - rewrite decide_True by done. f_equal. apply elem_of_nil_inv. intros z [Hz Hzl]%list_elem_of_filter.
    apply Hy. rewrite <-Hz. by apply list_elem_of_fmap_2.
  - rewrite decide_False; [by apply IH|]. intros E. apply Hy. rewrite E. by apply list_elem_of_fmap_2.
Qed.

(* ------------------------------------------------------------------ *)
(** * Endpoints *)

(** An endpoint: a send buffer and a receive buffer on the same pair and slot.
    Each is used once, for all of its memory. *)
Abbreviation Endpoint := (BBuf * BBuf)%type.
Definition e_chan (e : Endpoint) : Z * Z := bb_chan e.1.
(** The other end of [e], which is one of [p]. *)
Definition other_end (p : Z) (e e' : Endpoint) : Prop :=
  bb_peer e'.1 = p ∧ bb_slot e'.1 = bb_slot e.1 ∧ rg_len (bb_reg e'.2) = rg_len (bb_reg e.1) ∧ 0 ≤ rg_len (bb_reg e.1) < 2 ^ 64.

Record endpoints (size : Z) (E : Z → list Endpoint) : Prop := {
  ep_pair : ∀ r e, 0 ≤ r < size → e ∈ E r → bb_chan e.2 = bb_chan e.1;
  ep_nodup : ∀ r, 0 ≤ r < size → NoDup (e_chan <$> E r);
  ep_match : ∀ p e, 0 ≤ p < size → e ∈ E p → 0 ≤ bb_peer e.1 < size ∧ ∃ e', e' ∈ E (bb_peer e.1) ∧ other_end p e e';
}.

(** The program, everything made ready first. *)
Definition once_prog (E : list Endpoint) (run : list BAct) : list GAct := (Post <$> (xfer_of ∘ snd <$> E)) ++ (Do <$> run).
Definition once_puts (E : list Endpoint) : list (Xfer * Z) := (λ e, (xfer_of e.1, 0)) <$> E.

Lemma code_do p : code (Do <$> p) = p.
Proof. induction p as [|a p IH]; [done|]. cbn. f_equal. exact IH. Qed.
Lemma code_posts xs p : code ((Post <$> xs) ++ p) = code p.
Proof. rewrite code_app. assert (code (Post <$> xs) = []) as ->; [|done]. induction xs as [|x xs IH]; [done|exact IH]. Qed.
Lemma code_once E run : code (once_prog E run) = run.
Proof. unfold once_prog. by rewrite code_posts, code_do. Qed.
Lemma gposts_do p : gposts (Do <$> p) = [].
Proof. induction p as [|a p IH]; [done|exact IH]. Qed.
Lemma gposts_posts xs : gposts (Post <$> xs) = xs.
Proof. induction xs as [|x xs IH]; [done|]. cbn. f_equal. exact IH. Qed.
Lemma gputs_posts xs : gputs (Post <$> xs) = [].
Proof. induction xs as [|x xs IH]; [done|exact IH]. Qed.
Lemma gposts_app p q : gposts (p ++ q) = gposts p ++ gposts q.
Proof. apply omap_app. Qed.
Lemma gputs_app p q : gputs (p ++ q) = gputs p ++ gputs q.
Proof. apply omap_app. Qed.

Section once.
Context (size : Z) (bufs : Z → list BBuf) (E : Z → list Endpoint) (run : Z → list BAct).
Context (Hbufs : ∀ r, 0 ≤ r < size → bufs r = (E r).*2).
Context (HE : endpoints size E).
Context (Hputs : ∀ r, 0 ≤ r < size → gputs (Do <$> run r) = once_puts (E r)).

Let G (r : Z) : list GAct := once_prog (E r) (run r).

Lemma once_gposts r : gposts (G r) = xfer_of ∘ snd <$> E r.
Proof. unfold G, once_prog. by rewrite gposts_app, gposts_do, gposts_posts, app_nil_r. Qed.
Lemma once_gputs r : 0 ≤ r < size → gputs (G r) = once_puts (E r).
Proof. intros Hr. unfold G, once_prog. by rewrite gputs_app, gputs_posts, Hputs. Qed.

Lemma chan_sends l c : chan fst c (once_puts l) = once_puts (filter (λ e, e_chan e = c) l).
Proof. unfold once_puts. rewrite chan_fmap. done. Qed.
Lemma chan_recvs l c : (∀ e, e ∈ l → bb_chan e.2 = bb_chan e.1) →
  chan id c (xfer_of ∘ snd <$> l) = xfer_of ∘ snd <$> filter (λ e, e_chan e = c) l.
Proof.
  intros Hl. rewrite chan_fmap. f_equal. apply filter_ext_in. intros e He. unfold e_chan. rewrite <-(Hl e He). done.
Qed.

Lemma once_channel p q sl k y : 0 ≤ p < size → puts (q, sl) (G p) !! k = Some y →
  ∃ e e', k = O ∧ y = (xfer_of e.1, 0) ∧ e ∈ E p ∧ bb_chan e.1 = (q, sl) ∧ e' ∈ E q ∧ other_end p e e' ∧
    posts (p, sl) (G q) = [xfer_of e'.2] ∧ 0 ≤ q < size ∧ puts (q, sl) (G p) = [y].
Proof.
  intros Hp Hk. unfold puts in *. rewrite once_gputs, chan_sends in * by done.
  destruct (filter (λ e, e_chan e = (q, sl)) (E p)) as [|e l] eqn:Hf; [done|].
  assert (e ∈ filter (λ e, e_chan e = (q, sl)) (E p)) as [Hec He]%list_elem_of_filter by (rewrite Hf; set_solver).
  pose proof (filter_one e_chan (E p) e (ep_nodup _ _ HE p Hp) He) as H1. rewrite Hec, Hf in H1. injection H1 as ->.
  destruct k; [|done]. injection Hk as <-. destruct (ep_match _ _ HE p e Hp He) as (Hq & e' & He' & Ho).
  pose proof Ho as (Hp' & Hs' & _). injection Hec as Hbq Hbs. rewrite Hbq in *.
  exists e, e'. split_and!; try done; try lia; [by unfold bb_chan; congruence|].
  unfold posts. rewrite once_gposts, chan_recvs by (intros; by eapply (ep_pair _ _ HE q)).
  assert ((p, sl) = e_chan e') as -> by (unfold e_chan, bb_chan; congruence).
  by rewrite (filter_one e_chan) by (done || by apply (ep_nodup _ _ HE)).
Qed.

Lemma find_endpoint q e : 0 ≤ q < size → e ∈ E q → find_buf (bb_peer e.1) (bb_slot e.1) (snd <$> E q) = Some e.2.
Proof.
  intros Hq. pose proof (ep_nodup _ _ HE q Hq) as Hnd. pose proof (λ e, ep_pair _ _ HE q e Hq) as Hpair. revert Hnd Hpair.
  induction (E q) as [|e' l IH]; [set_solver|]. rewrite fmap_cons. intros [Hn Hnd]%NoDup_cons Hpair [->|He]%elem_of_cons.
  - unfold find_buf. cbn. pose proof (Hpair e' (list_elem_of_here _ _)) as [= -> ->]. by rewrite !Z.eqb_refl.
  - unfold find_buf. cbn. pose proof (Hpair e' (list_elem_of_here _ _)) as [= -> ->].
    destruct ((bb_peer e'.1 =? bb_peer e.1) && (bb_slot e'.1 =? bb_slot e.1)) eqn:Eq.
    + apply andb_true_iff in Eq as [Hp%Z.eqb_eq Hs%Z.eqb_eq]. destruct Hn.
      assert (e_chan e' = e_chan e) as -> by (unfold e_chan, bb_chan; congruence). by apply list_elem_of_fmap_2.
    + apply IH; [done| |done]. intros e2 H2. apply Hpair. by apply list_elem_of_further.
Qed.

Lemma once_agree : agree bufs (group size G).
Proof.
  intros p q sl k y Hk. assert (puts (q, sl) (group size G p) ≠ []) as [Hp HG]%puts_group by (intros Hz; by rewrite Hz in Hk).
  rewrite HG in Hk. destruct (once_channel p q sl k y Hp Hk) as (e & e' & -> & -> & He & Hc & He' & (Ho1 & Ho2 & Ho3 & Ho4) & Hpo & Hq & _).
  injection Hc as Hc1 Hc2. exists (xfer_of e'.2), e'.2. unfold group at 1. rewrite decide_True, Hpo by done. split; [done|].
  pose proof (find_endpoint q e' Hq He') as Hf. rewrite Ho1, Ho2, Hc2 in Hf. rewrite Hbufs by done. split; [done|]. split; [done|]. cbn.
  rewrite Z.add_0_r, <-Ho3. split; [by destruct (bb_reg e'.2)|]. lia.
Qed.

Lemma once_credit p q sl : puts (q, sl) (group size G p) ≠ [] → credit (group size G) p q sl.
Proof.
  intros Hne. destruct (puts_group size G p (q, sl) Hne) as [Hp HG]. apply credit_all. intros B Q HB Hnp. rewrite HG in *.
  destruct (puts (q, sl) (G p)) as [|y l] eqn:Hy; [done|].
  destruct (once_channel p q sl O y Hp) as (e & e' & _ & -> & He & Hc & He' & Ho & Hpo & Hq & Hone); [by rewrite Hy|].
  rewrite Hy in Hone. injection Hone as ->.
  pose proof (posts_first G q (p, sl) (xfer_of ∘ snd <$> E q) (Do <$> run q) B Q eq_refl) as Hfirst.
  unfold group in HB. rewrite decide_True in HB by done. specialize (Hfirst (eq_sym HB) Hnp).
  rewrite <-once_gposts in Hfirst. change (chan id (p, sl) (gposts (G q))) with (posts (p, sl) (G q)) in Hfirst.
  rewrite Hpo in Hfirst. exact Hfirst.
Qed.

Lemma once_computes mems post : (∀ r, 0 ≤ r < size → clean hist0 (net_prog (G r))) →
  computes (group size (λ r, net_prog (G r))) mems post → bcomputes bufs (group size run) mems post.
Proof.
  intros Hc H. assert (group size run = group size (λ r, code (G r))) as ->.
  { apply group_ext. intros r _. unfold G. by rewrite code_once. }
  apply bound_group; [apply once_agree|apply once_credit|done|done].
Qed.
End once.

(* ------------------------------------------------------------------ *)
(** * Messages between endpoints *)

Definition sent_msg_of (dat : Endpoint → list Z) (e : Endpoint) : Msg := mkMsg (bb_peer e.1) (bb_slot e.1) (dat e).

Lemma datas_endpoints (dat : Endpoint → list Z) l c :
  datas c (sent_msg_of dat <$> l) = dat <$> filter (λ e, e_chan e = c) l.
Proof.
  induction l as [|e l IH]; [done|]. rewrite fmap_cons, datas_cons, filter_cons, IH. unfold on_msg, e_chan, bb_chan. cbn.
  destruct (decide _); done.
Qed.

(** What the processes send on the endpoints [S] is what they receive on [T]. *)
Lemma endpoints_matched size (S T : Z → list Endpoint) (dat dat' : Z → Endpoint → list Z) p q sl :
  (∀ r, 0 ≤ r < size → NoDup (e_chan <$> S r) ∧ NoDup (e_chan <$> T r)) →
  (∀ p e, 0 ≤ p < size → e ∈ S p → 0 ≤ bb_peer e.1 < size ∧
    ∃ e', e' ∈ T (bb_peer e.1) ∧ bb_peer e'.1 = p ∧ bb_slot e'.1 = bb_slot e.1 ∧ dat' (bb_peer e.1) e' = dat p e) →
  (∀ q e', 0 ≤ q < size → e' ∈ T q → 0 ≤ bb_peer e'.1 < size ∧
    ∃ e, e ∈ S (bb_peer e'.1) ∧ bb_peer e.1 = q ∧ bb_slot e.1 = bb_slot e'.1) →
  datas (q, sl) (at_rank (ranks size) p (sent_msg_of (dat p) <$> S p)) =
  datas (p, sl) (at_rank (ranks size) q (sent_msg_of (dat' q) <$> T q)).
Proof.
  intros Hnd Hst Hts. unfold at_rank.
  assert (∀ c l, (∀ e, e ∈ l → e_chan e ≠ c) → filter (λ e, e_chan e = c) l = []) as Hnil.
  { intros c l H. apply filter_none. intros e He. by apply H. }
  destruct (decide (p ∈ ranks size)) as [Hp|Hp]; rewrite elem_ranks in Hp.
  - rewrite datas_endpoints. destruct (decide (Exists (λ e, e_chan e = (q, sl)) (S p))) as [Hex|Hex].
    + apply Exists_exists in Hex as (e & He & Hec). pose proof Hec as [= Hq Hsl].
      destruct (Hst p e Hp He) as (Hqr & e' & He' & Hp' & Hsl' & Hd). rewrite Hq in *.
      rewrite (decide_True (P := q ∈ _)) by by apply elem_ranks. rewrite datas_endpoints.
      rewrite <-Hec, (filter_one e_chan) by (done || by apply Hnd).
      assert ((p, sl) = e_chan e') as -> by (unfold e_chan, bb_chan; congruence).
      rewrite (filter_one e_chan) by (done || by apply Hnd). cbn. by rewrite Hd.
    + rewrite Hnil by (intros e He Hc; apply Hex, Exists_exists; by exists e).
      destruct (decide (q ∈ ranks size)) as [Hq|Hq]; [|done]. rewrite elem_ranks in Hq. rewrite datas_endpoints, Hnil; [done|].
      intros e' He' [= Hc1 Hc2]. destruct (Hts q e' Hq He') as (_ & e & He & Hc3 & Hc4). rewrite Hc1 in He.
      apply Hex, Exists_exists. exists e. split; [done|]. unfold e_chan, bb_chan. congruence.
  - destruct (decide (q ∈ ranks size)) as [Hq|Hq]; [|done]. rewrite elem_ranks in Hq. rewrite datas_endpoints, Hnil; [done|].
    intros e' He' [= Hc1 Hc2]. destruct (Hts q e' Hq He') as (Hpr & _). by rewrite Hc1 in Hpr.
Qed.

(* ------------------------------------------------------------------ *)
(** * One exchange after the other *)

(** [for (auto& b : sendBuffers_) b->send();] and the like. *)
Definition sends_on (l : list Endpoint) : list BAct := l.*1 ≫= buffer_send_all.
Definition waits_on (l : list Endpoint) : list BAct := buffer_waitRecv <$> l.*2.

Lemma receives_app l1 : ∀ l2 t1 t2 m, length l1 = length t1 → receives m (l1 ++ l2) (t1 ++ t2) = receives (receives m l1 t1) l2 t2.
Proof. induction l1 as [|x l1 IH]; intros l2 [|d t1] t2 m Hl; try done. cbn. apply IH. by injection Hl. Qed.

Lemma net_posts xs : net_prog (Post <$> xs) = Recv <$> xs.
Proof. unfold net_prog. by rewrite <-list_fmap_compose. Qed.
Lemma net_sends l : (∀ e, e ∈ l → 0 ≤ rg_len (bb_reg e.1) < 2 ^ 64) →
  net_prog (Do <$> sends_on l) = (λ e, Send (xfer_of e.1)) <$> l.
Proof.
  induction l as [|e l IH]; intros Hl; [done|]. unfold sends_on. rewrite fmap_cons. cbn [mbind list_bind].
  rewrite buffer_send_whole by (apply Hl; set_solver). cbn. f_equal. apply IH. set_solver.
Qed.
Lemma net_waits l : net_prog (Do <$> waits_on l) = (λ e : Endpoint, WaitRecv (bb_id e.2)) <$> l.
Proof. unfold net_prog, waits_on. by rewrite <-!list_fmap_compose. Qed.

Lemma waits_recv_endpoints b (l : list Endpoint) :
  waits_recv b ((λ e : Endpoint, WaitRecv (bb_id e.2)) <$> l) = on_buf b (xfer_of ∘ snd <$> l) ∧
  waits_send b ((λ e : Endpoint, WaitRecv (bb_id e.2)) <$> l) = O.
Proof.
  induction l as [|e l [IH1 IH2]]; [done|]. rewrite !fmap_cons. cbn [waits_recv waits_send]. split; [|done].
  change ((xfer_of ∘ snd) e :: (xfer_of ∘ snd <$> l)) with ([(xfer_of ∘ snd) e] ++ (xfer_of ∘ snd <$> l)).
  by rewrite IH1, on_buf_app, on_buf_one.
Qed.

Lemma sends_gputs l : (∀ e, e ∈ l → 0 ≤ rg_len (bb_reg e.1) < 2 ^ 64) → gputs (Do <$> sends_on l) = once_puts l.
Proof.
  induction l as [|e l IH]; intros Hl; [done|]. unfold sends_on. rewrite fmap_cons. cbn [mbind list_bind].
  rewrite fmap_app, gputs_app, buffer_send_whole by (apply Hl; set_solver). cbn. f_equal. apply IH. set_solver.
Qed.
Lemma waits_gputs l : gputs (Do <$> waits_on l) = [].
Proof. induction l as [|e l IH]; [done|exact IH]. Qed.

(** Such programs are clean when they only send and wait, between regions
    that are apart. *)
Definition no_compute (p : list BAct) : Prop := Forall (λ a, match a with BCompute _ _ _ => False | _ => True end) p.

Lemma once_clean E run : no_compute run → gputs (Do <$> run) = once_puts E → NoDup (e_chan <$> E) →
  (∀ e e', e ∈ E → e' ∈ E → apart (bb_reg e'.2) (bb_reg e.1)) →
  (∀ e e', e ∈ E → e' ∈ E → e ≠ e' → apart (bb_reg e.2) (bb_reg e'.2)) →
  clean hist0 (net_prog (once_prog E run)).
Proof.
  intros Hn Hp Hnd Hsr Hrr. assert (dsts_of (net_prog (once_prog E run)) = [] ∧ srcs_of (net_prog (once_prog E run)) = []) as [Hd Hs].
  { unfold once_prog. induction (xfer_of ∘ snd <$> E) as [|x l IH]; [|exact IH]. clear Hp. cbn.
    induction Hn as [|a p Ha _ IH]; [done|]. by destruct a. }
  eapply (clean_posts0 _ _ _ _ _ eq_refl eq_refl Hd Hs); [|intros x y|set_solver|set_solver];
    rewrite ?recvs_posts, ?sends_puts; unfold once_prog; rewrite ?gposts_app, ?gputs_app, ?gposts_do, ?gposts_posts, ?gputs_posts, ?Hp, ?app_nil_r.
  - apply regions_apart_map; [by eapply NoDup_fmap_1|]. intros e e' ? ? ?. by apply Hrr.
  - cbn [app]. unfold once_puts. rewrite <-list_fmap_compose. intros (e & -> & He)%list_elem_of_fmap (e' & -> & He')%list_elem_of_fmap.
    apply apart_sym. by apply Hsr.
Qed.

Lemma sends_no_compute l : no_compute (sends_on l).
Proof.
  apply Forall_forall. intros a (b & Ha & Hb)%list_elem_of_bind. unfold buffer_send_all, buffer_send in Ha.
  destruct (_ <=? _); by apply list_elem_of_singleton in Ha as ->.
Qed.
Lemma waits_no_compute l : no_compute (waits_on l).
Proof. apply Forall_fmap, Forall_forall. by intros b. Qed.

Lemma no_compute_dsts p : no_compute p → dsts_of (net_prog (Do <$> p)) = [] ∧ srcs_of (net_prog (Do <$> p)) = [].
Proof. induction 1 as [|a p Ha _ IH]; [done|]. by destruct a. Qed.

Lemma exchanges_no_compute K (ES ET : nat → Z → list Endpoint) r : no_compute (seq 0 K ≫= (λ k, sends_on (ES k r) ++ waits_on (ET k r))).
Proof.
  apply Forall_forall. intros a (k & Ha & _)%list_elem_of_bind.
  apply elem_of_app in Ha as [Ha|Ha]; revert a Ha; apply Forall_forall; [apply sends_no_compute|apply waits_no_compute].
Qed.

(** The computations of a program are those of its end. *)
Lemma once_dsts E p q : no_compute p →
  dsts_of (net_prog (once_prog E (p ++ q))) = dsts_of (net_prog (Do <$> q)) ∧
  srcs_of (net_prog (once_prog E (p ++ q))) = srcs_of (net_prog (Do <$> q)).
Proof.
  intros [Hd Hs]%no_compute_dsts. unfold once_prog. rewrite fmap_app, !net_prog_app, net_posts.
  assert (∀ l k, srcs_of (l ++ k) = srcs_of l ++ srcs_of k) as Happ by (intros; apply bind_app).
  rewrite !dsts_of_app, !Happ, Hd, Hs. split; by induction (xfer_of ∘ snd <$> E).
Qed.

Lemma waits_send_endpoints b (l : list Endpoint) :
  waits_send b ((λ e : Endpoint, WaitSend (bb_id e.1)) <$> l) = on_buf b ((λ e : Endpoint, xfer_of e.1) <$> l) ∧
  waits_recv b ((λ e : Endpoint, WaitSend (bb_id e.1)) <$> l) = O.
Proof.
  induction l as [|e l [IH1 IH2]]; [done|]. rewrite !fmap_cons. cbn [waits_recv waits_send]. split; [|done].
  change (xfer_of e.1 :: ((λ e : Endpoint, xfer_of e.1) <$> l)) with ([xfer_of e.1] ++ ((λ e : Endpoint, xfer_of e.1) <$> l)).
  by rewrite IH1, on_buf_app, on_buf_one.
Qed.

Section exchanges.
Context (size : Z) (bufs : Z → list BBuf) (E : Z → list Endpoint) (K : nat) (ES ET : nat → Z → list Endpoint) (fin : Z → list BAct) (psrc : Z → Endpoint → Region).
Context (mems Mf : Z → Mem).

Let exch (r : Z) (k : nat) : list BAct := sends_on (ES k r) ++ waits_on (ET k r).
Definition exchanges (r : Z) : list BAct := (seq 0 K ≫= exch r) ++ fin r.

Context (Hbufs : ∀ r, 0 ≤ r < size → bufs r = (E r).*2).
Context (HE : endpoints size E).
Context (HS : ∀ r, 0 ≤ r < size → E r = seq 0 K ≫= (λ k, ES k r)).
Context (HT : ∀ r, 0 ≤ r < size → E r = seq 0 K ≫= (λ k, ET k r)).
Context (Hfp : ∀ r, 0 ≤ r < size → gputs (Do <$> fin r) = []).
Context (Hst : ∀ k p e, (k < K)%nat → 0 ≤ p < size → e ∈ ES k p →
  ∃ e', e' ∈ ET k (bb_peer e.1) ∧ other_end p e e' ∧ psrc (bb_peer e.1) e' = bb_reg e.1).
Context (Hts : ∀ k q e', (k < K)%nat → 0 ≤ q < size → e' ∈ ET k q →
  ∃ e, e ∈ ES k (bb_peer e'.1) ∧ bb_peer e.1 = q ∧ bb_slot e.1 = bb_slot e'.1).
Context (Hapart : ∀ r e e', 0 ≤ r < size → e ∈ E r → e' ∈ E r → apart (bb_reg e'.2) (bb_reg e.1)).

Definition got_data (r : Z) (e : Endpoint) : list Z := read (mems (bb_peer e.1)) (psrc r e).
Definition arrived (k : nat) (r : Z) : Mem :=
  let l := seq 0 k ≫= (λ j, ET j r) in receives (mems r) (xfer_of ∘ snd <$> l) (sent_msg_of (got_data r) <$> l).
Let sent_before (k : nat) (r : Z) : Z → nat := bumps ((λ e : Endpoint, xfer_of e.1) <$> (seq 0 k ≫= (λ j, ES j r))) (λ _, O).

Context (Hfin : ∀ r, 0 ≤ r < size → ∃ cs cr,
  reaches (net_prog (Do <$> fin r)) (arrived K r) (sent_before K r) (λ _, O) [] (Mf r) cs cr).
Context (Hclean : ∀ r, 0 ≤ r < size → clean hist0 (net_prog (once_prog (E r) (exchanges r)))).

Lemma sent_in k r e : (k < K)%nat → 0 ≤ r < size → e ∈ ES k r → e ∈ E r.
Proof. intros Hk Hr He. rewrite HS by done. apply list_elem_of_bind. exists k. split; [done|]. apply elem_of_seq. lia. Qed.
Lemma waited_in k r e : (k < K)%nat → 0 ≤ r < size → e ∈ ET k r → e ∈ E r.
Proof. intros Hk Hr He. rewrite HT by done. apply list_elem_of_bind. exists k. split; [done|]. apply elem_of_seq. lia. Qed.
Lemma endpoint_len r e : 0 ≤ r < size → e ∈ E r → 0 ≤ rg_len (bb_reg e.1) < 2 ^ 64.
Proof. intros Hr He. destruct (ep_match _ _ HE r e Hr He) as (_ & e' & _ & _ & _ & _ & ?). done. Qed.

Lemma exchanges_gputs r : 0 ≤ r < size → gputs (Do <$> exchanges r) = once_puts (E r).
Proof.
  intros Hr. unfold exchanges. rewrite fmap_app, gputs_app, Hfp, app_nil_r by done. pose proof (λ e, endpoint_len r e Hr) as Hl.
  rewrite HS in Hl |- * by done. revert Hl.
  generalize (seq 0 K). intros l. induction l as [|k l IH]; intros Hl; [done|]. cbn [mbind list_bind] in *. unfold exch at 1.
  rewrite !fmap_app, !gputs_app, waits_gputs, app_nil_r, sends_gputs, IH; [unfold once_puts; by rewrite fmap_app|..].
  - intros e He. apply Hl, elem_of_app. by right.
  - intros e He. apply Hl, elem_of_app. by left.
Qed.

Lemma arrived_S k r : arrived (S k) r = receives (arrived k r) (xfer_of ∘ snd <$> ET k r) (sent_msg_of (got_data r) <$> ET k r).
Proof.
  unfold arrived. rewrite seq_S, bind_app, !fmap_app. cbn [mbind list_bind]. rewrite app_nil_r. apply receives_app. by rewrite !length_fmap.
Qed.

(** Memory that is sent does not change while messages arrive. *)
Lemma arrived_sent k r e : (k ≤ K)%nat → 0 ≤ r < size → e ∈ E r → read (arrived k r) (bb_reg e.1) = read (mems r) (bb_reg e.1).
Proof.
  intros Hk Hr He. unfold arrived. apply receives_out. intros x (e' & -> & (j & He' & Hj%elem_of_seq)%list_elem_of_bind)%list_elem_of_fmap.
  apply (Hapart r e e'); [done|done|]. apply (waited_in j); [lia|done|done].
Qed.

Lemma exchange_messages k p q sl : (k < K)%nat →
  datas (q, sl) (at_rank (ranks size) p (sent_msg_of (λ e, read (mems p) (bb_reg e.1)) <$> ES k p)) =
  datas (p, sl) (at_rank (ranks size) q (sent_msg_of (got_data q) <$> ET k q)).
Proof.
  intros Hk. apply (endpoints_matched size (ES k) (ET k) (λ p e, read (mems p) (bb_reg e.1)) got_data).
  - intros r Hr. pose proof (ep_nodup _ _ HE r Hr) as Hnd.
    assert (∀ f : nat → list Endpoint, NoDup (e_chan <$> (seq 0 K ≫= f)) → NoDup (e_chan <$> f k)) as Hsub.
    { intros f Hf. assert (k ∈ seq 0 K) as (l1 & l2 & Heq)%list_elem_of_split by (apply elem_of_seq; lia).
      rewrite Heq, bind_app, fmap_app in Hf. cbn [mbind list_bind] in Hf. rewrite fmap_app in Hf.
      apply NoDup_app in Hf as (_ & _ & Hf). by apply NoDup_app in Hf as (Hf & _ & _). }
    split; [apply (Hsub (λ k, ES k r)); rewrite <-HS by done; exact Hnd|apply (Hsub (λ k, ET k r)); rewrite <-HT by done; exact Hnd].
  - intros p' e Hp He. destruct (ep_match _ _ HE p' e Hp (sent_in k p' e Hk Hp He)) as (Hq & _). split; [done|].
    destruct (Hst k p' e Hk Hp He) as (e' & He' & (Ho1 & Ho2 & _) & Hps). exists e'. split_and!; try done.
    unfold got_data. by rewrite Ho1, Hps.
  - intros q' e' Hq He'. destruct (ep_match _ _ HE q' e' Hq (waited_in k q' e' Hk Hq He')) as (Hp & _). split; [done|].
    by apply (Hts k q' e').
Qed.

Lemma got_for_one k q e' : (k < K)%nat → 0 ≤ q < size → e' ∈ ET k q → msg_for (xfer_of e'.2) (sent_msg_of (got_data q) e').
Proof.
  intros Hk Hq He'.
  pose proof (waited_in k q e' Hk Hq He') as HeE. pose proof (ep_pair _ _ HE q e' Hq HeE) as [= Hpeer Hslot].
  split; [done|]. split; [done|]. cbn. destruct (ep_match _ _ HE q e' Hq HeE) as (Hp & _).
  destruct (Hts k q e' Hk Hq He') as (e & He & Hq1 & Hs1). destruct (Hst k _ e Hk Hp He) as (e2 & He2 & (Ho1 & Ho2 & Ho3 & Ho4) & Hps).
  rewrite Hq1 in He2. assert (e2 = e') as ->.
  { pose proof (ep_nodup _ _ HE q Hq) as Hnd. pose proof (filter_one e_chan (E q) e' Hnd HeE) as H1.
    assert (e2 ∈ filter (λ y, e_chan y = e_chan e') (E q)) as H2.
    { apply list_elem_of_filter. split; [|by apply (waited_in k)]. unfold e_chan, bb_chan. congruence. }
    rewrite H1 in H2. by apply list_elem_of_singleton in H2. }
  unfold got_data. rewrite Hq1 in Hps. rewrite Hps, Ho3. apply read_length. lia.
Qed.
Lemma got_for k q : (k < K)%nat → 0 ≤ q < size → Forall2 msg_for (xfer_of ∘ snd <$> ET k q) (sent_msg_of (got_data q) <$> ET k q).
Proof.
  intros Hk Hq. apply Forall2_fmap, Forall_Forall2_diag, Forall_forall. intros e' He'. by apply (got_for_one k).
Qed.

Let todo (k : nat) (r : Z) : list BAct := (seq k (K - k) ≫= exch r) ++ fin r.
Let at_exchange (k : nat) (r : Z) : Rank → Prop :=
  rank_in (xfer_of ∘ snd <$> (seq k (K - k) ≫= (λ j, ET j r))) (net_prog (Do <$> todo k r)) (arrived k r) (sent_before k r) (λ _, O).

Lemma exchange_emits k r L p : (k < K)%nat → 0 ≤ r < size →
  emitting L (net_prog (Do <$> sends_on (ES k r)) ++ p) (arrived k r) (sent_before k r) (λ _, O)
    (sent_msg_of (λ e, read (mems r) (bb_reg e.1)) <$> ES k r) L p (arrived k r) (sent_before (S k) r) (λ _, O).
Proof.
  intros Hk Hr. assert (∀ e, e ∈ ES k r → e ∈ E r) as Hin by (intros e; by apply sent_in).
  rewrite net_sends by (intros e He; by apply (endpoint_len r), Hin).
  pose proof (emitting_posts L ((λ e : Endpoint, Send (xfer_of e.1)) <$> ES k r) p (arrived k r) (sent_before k r) (λ _, O)) as Hem.
  rewrite recvs_of_map_send, app_nil_r, mem_after_sends, sends_of_map in Hem.
  assert (bumps ((λ e : Endpoint, xfer_of e.1) <$> ES k r) (sent_before k r) = sent_before (S k) r) as Hb.
  { unfold sent_before. rewrite seq_S, bind_app, fmap_app. cbn [mbind list_bind]. rewrite app_nil_r. unfold bumps. by rewrite foldl_app. }
  rewrite Hb in Hem. assert (sent (arrived k r) ((λ e : Endpoint, Send (xfer_of e.1)) <$> ES k r) =
    sent_msg_of (λ e, read (mems r) (bb_reg e.1)) <$> ES k r) as Hs; [|rewrite Hs in Hem; apply Hem; by apply posts_map].
  clear Hem Hb. revert Hin. generalize (ES k r). intros l. induction l as [|e l IH]; intros Hin; [done|]. cbn. rewrite IH by set_solver.
  f_equal. unfold msg_of, sent_msg_of. f_equal. cbn. apply arrived_sent; [lia|done|]. apply Hin. set_solver.
Qed.

Lemma exchange_round k r R : (k < K)%nat → 0 ≤ r < size → at_exchange k r R →
  rank_round R (sent_msg_of (λ e, read (mems r) (bb_reg e.1)) <$> ES k r) (sent_msg_of (got_data r) <$> ET k r) (at_exchange (S k) r).
Proof.
  intros Hk Hr HR. unfold at_exchange, todo in HR. replace (K - k)%nat with (S (K - S k)) in HR by lia. cbn [seq mbind list_bind] in HR.
  unfold exch at 1 in HR. rewrite <-!(assoc_L (++)), !fmap_app, !net_prog_app in HR.
  eapply emitting_round; [exact HR|by apply exchange_emits|by apply got_for|].
  rewrite <-net_prog_app, <-fmap_app, <-arrived_S, net_waits. apply reaches_waits; [by apply waits_map|..].
  - intros b. by rewrite (proj2 (waits_recv_endpoints _ _)).
  - intros b. by rewrite (proj1 (waits_recv_endpoints _ _)), bumps_count.
Qed.

Lemma exchanges_start : advances size
  (λ r, rank_in [] (net_prog (once_prog (E r) (exchanges r))) (mems r) (λ _, O) (λ _, O)) (at_exchange O).
Proof.
  apply (advances_round size _ _ (λ _, []) (λ _, [])).
  - intros r R Hr HR. unfold once_prog in HR. rewrite net_prog_app, net_posts in HR.
    eapply (emitting_round _ _ _ _ _ [] []); [exact HR| |constructor|apply reaches_refl].
    pose proof (emitting_posts [] (Recv <$> (xfer_of ∘ snd <$> E r)) (net_prog (Do <$> exchanges r)) (mems r) (λ _, O) (λ _, O)) as Hem.
    rewrite (sends_of_map_recv id), (recvs_of_map id), (mem_after_recvs id), list_fmap_id in Hem.
    assert (sent (mems r) (Recv <$> (xfer_of ∘ snd <$> E r)) = []) as Hs by (generalize (xfer_of ∘ snd <$> E r); intros l; by induction l).
    rewrite Hs in Hem. unfold at_exchange, todo. rewrite Nat.sub_0_r, <-HT by done. apply Hem. by apply posts_map.
  - intros p q sl. unfold at_rank. by repeat case_decide.
Qed.

Lemma exchanges_computes : bcomputes bufs (group size exchanges) mems (λ mems', ∀ r, 0 ≤ r < size → mems' r = Mf r).
Proof.
  apply (once_computes size bufs E); [done|done|intros r Hr; by apply exchanges_gputs|done|].
  apply (advances_computes _ _ _ _ (λ r R, ∃ cs cr, rank_in [] [] (Mf r) cs cr R)); [done| |by intros r R].
  eapply advances_trans; [exact exchanges_start|]. apply (advances_trans _ _ (at_exchange K)).
  - apply advances_iter. intros k Hk.
    apply (advances_round size _ _ (λ r, sent_msg_of (λ e, read (mems r) (bb_reg e.1)) <$> ES k r) (λ r, sent_msg_of (got_data r) <$> ET k r)).
    + intros r R Hr HR. by apply exchange_round.
    + intros p q sl. by apply exchange_messages.
  - apply (advances_round size _ _ (λ _, []) (λ _, [])); [|intros p q sl; unfold at_rank; by repeat case_decide].
    intros r R Hr HR. unfold at_exchange, todo in HR. rewrite Nat.sub_diag in HR. cbn [seq mbind list_bind app fmap list_fmap] in HR.
    destruct (Hfin r Hr) as (cs & cr & Hre). destruct (Hre _ _ HR) as (R' & HL & HR'). eapply rank_round_idle; [done|]. by exists cs, cr.
Qed.

(** What arrived. *)
Lemma arrived_read r e : 0 ≤ r < size → e ∈ E r →
  (∀ e1 e2, e1 ∈ E r → e2 ∈ E r → e1 ≠ e2 → apart (bb_reg e1.2) (bb_reg e2.2)) →
  read (arrived K r) (bb_reg e.2) = got_data r e.
Proof.
  intros Hr He Ha. unfold arrived. rewrite <-HT by done. apply list_elem_of_lookup in He as [i Hi].
  eapply (receives_in _ _ _ i (xfer_of e.2) (sent_msg_of (got_data r) e)).
  - apply regions_apart_map; [|intros; by apply Ha]. eapply NoDup_fmap_1, (ep_nodup _ _ HE r Hr).
  - apply Forall2_fmap, Forall_Forall2_diag, Forall_forall. intros e' He'. change (e' ∈ E r) in He'. rewrite HT in He' by done.
    apply list_elem_of_bind in He' as (k & He' & Hk%elem_of_seq). apply (got_for_one k); [lia|done|done].
  - rewrite list_lookup_fmap. etrans; [apply (f_equal _ Hi)|done].
  - rewrite list_lookup_fmap. etrans; [apply (f_equal _ Hi)|done].
Qed.

Lemma arrived_out r reg : 0 ≤ r < size → (∀ e, e ∈ E r → apart (bb_reg e.2) reg) → read (arrived K r) reg = read (mems r) reg.
Proof.
  intros Hr Ha. unfold arrived. rewrite <-HT by done. apply receives_out. intros x (e & -> & He)%list_elem_of_fmap. by apply Ha.
Qed.
End exchanges.

(** Exchanges without computations between regions that are apart: every
    buffer receives what its other end sent, and no other memory changes. *)
Lemma exchanges_plain size bufs E K ES ET run psrc mems :
  endpoints size E →
  (∀ r, 0 ≤ r < size → bufs r = (E r).*2 ∧ E r = seq 0 K ≫= (λ k, ES k r) ∧ E r = seq 0 K ≫= (λ k, ET k r) ∧
    run r = seq 0 K ≫= (λ k, sends_on (ES k r) ++ waits_on (ET k r))) →
  (∀ k p e, (k < K)%nat → 0 ≤ p < size → e ∈ ES k p →
    ∃ e', e' ∈ ET k (bb_peer e.1) ∧ other_end p e e' ∧ psrc (bb_peer e.1) e' = bb_reg e.1) →
  (∀ k q e', (k < K)%nat → 0 ≤ q < size → e' ∈ ET k q →
    ∃ e, e ∈ ES k (bb_peer e'.1) ∧ bb_peer e.1 = q ∧ bb_slot e.1 = bb_slot e'.1) →
  (∀ r e e', 0 ≤ r < size → e ∈ E r → e' ∈ E r → apart (bb_reg e'.2) (bb_reg e.1) ∧ (e ≠ e' → apart (bb_reg e.2) (bb_reg e'.2))) →
  bcomputes bufs (group size run) mems (λ mems', ∀ r, 0 ≤ r < size →
    (∀ e, e ∈ E r → read (mems' r) (bb_reg e.2) = got_data psrc mems r e) ∧
    (∀ reg, (∀ e, e ∈ E r → apart (bb_reg e.2) reg) → read (mems' r) reg = read (mems r) reg)).
Proof.
  intros HE HK Hst Hts Hap. assert (group size run = group size (exchanges K ES ET (λ _, []))) as ->.
  { apply group_ext. intros r Hr. unfold exchanges. rewrite app_nil_r. by apply HK. }
  assert (∀ r, 0 ≤ r < size → bufs r = (E r).*2) as Hbufs by (intros; by apply HK).
  assert (∀ r, 0 ≤ r < size → E r = seq 0 K ≫= (λ k, ES k r)) as HS by (intros; by apply HK).
  assert (∀ r, 0 ≤ r < size → E r = seq 0 K ≫= (λ k, ET k r)) as HT by (intros; by apply HK).
  assert (∀ r e e', 0 ≤ r < size → e ∈ E r → e' ∈ E r → apart (bb_reg e'.2) (bb_reg e.1)) as Hsr by (intros r e e' Hr He He'; by apply (Hap r e e')).
  eapply bcomputes_weaken; [apply (exchanges_computes size bufs E K ES ET (λ _, []) psrc mems (arrived ET psrc mems K)); try done|].
  - intros r Hr. eexists _, _. apply reaches_refl.
  - intros r Hr. apply once_clean.
    + unfold exchanges. rewrite app_nil_r. apply exchanges_no_compute.
    + by apply (exchanges_gputs size E).
    + by apply (ep_nodup _ _ HE).
    + intros e e' He He'. by apply (Hap r e e').
    + intros e e' He He'. by apply (Hap r e e').
  - intros mems' Hm r Hr. rewrite Hm by done. split.
    + intros e He. eapply (arrived_read size E K ES ET psrc mems); try done. intros e1 e2 He1 He2. by apply (Hap r e1 e2).
    + intros reg Hreg. by apply (arrived_out size E K ET psrc mems).
Qed.

(* ------------------------------------------------------------------ *)
(** * Begun and ended *)

(** A process has begun its program; a process has ended it. *)
Definition b_entered (run : Z → list BAct) (s : BNet) (r : Z) : Prop := br_prog (bn_rk s r) ≠ run r.
Definition b_left (s : BNet) (r : Z) : Prop := br_prog (bn_rk s r) = [].

Lemma puts_code c A : (length (puts c A) ≤ length (code A))%nat.
Proof.
  transitivity (length (gputs A)); [apply length_filter|]. induction A as [|[[x ro|b|b|d f srcs|e]|x] A IH]; cbn; [done|by apply le_n_S|by apply le_S..|done].
Qed.
Lemma put_entered r run s E A Q c : once_prog E (run r) = A ++ Q → br_prog (bn_rk s r) = code Q → (1 ≤ length (puts c A))%nat → b_entered run s r.
Proof.
  intros HG HQ Hp Heq. pose proof (puts_code c A) as Hl. pose proof (f_equal length (f_equal code HG)) as Hc.
  rewrite code_once, code_app, length_app, <-HQ, Heq in Hc. lia.
Qed.
