(* ===== verification/BoundBarrier.v ===== *)
(** The two barriers over bound buffers: [barrier_all_to_all.h] and
    [barrier_all_to_one.h]. *)
From Stdlib Require Import FunctionalExtensionality.
From S2P Require Import Prelude Net NetRun Groups Rounds BoundNet BoundRounds Once.

(** An [int] of its own for the send and for the receive buffer of a pair. *)
Definition int_endpoint (slot : Z) (sdata rdata : Z → Z) (i : Z) : Endpoint :=
  (createSendBuffer i i slot (mkRegion (sdata i) 0 4), createRecvBuffer i i slot (mkRegion (rdata i) 0 4)).

(** [BarrierAllToAll]: its buffers and [run]. *)
Definition BarrierAllToAll (contextRank contextSize slot : Z) (sdata rdata : Z → Z) : list Endpoint :=
  int_endpoint slot sdata rdata <$> others contextRank contextSize.
Definition BarrierAllToAll_run (buffers : list Endpoint) : list BAct := sends_on buffers ++ waits_on buffers.

(** [BarrierAllToOne]: its buffers and [run]; the first elements of the
    vectors of buffers are read without a check. *)
Definition BarrierAllToOne (contextRank contextSize rootRank slot : Z) (sdata rdata : Z → Z) : list Endpoint :=
  int_endpoint slot sdata rdata <$> (if contextRank =? rootRank then others contextRank contextSize else [rootRank]).
Definition BarrierAllToOne_run (contextRank rootRank : Z) (buffers : list Endpoint) : list BAct :=
  if contextRank =? rootRank then waits_on buffers ++ sends_on buffers
  else match buffers with
       | b :: _ => buffer_send_all b.1 ++ [buffer_waitRecv b.2]
       | [] => [BStop None]
       end.

(** Processes [r] that each have an endpoint for the processes [peers r]. *)
Section int_endpoints.
Context (size slot : Z) (peers : Z → list Z) (sdata rdata : Z → Z → Z).
Context (Hpeers : ∀ r, 0 ≤ r < size → NoDup (peers r) ∧ ∀ i, i ∈ peers r → 0 ≤ i < size ∧ r ∈ peers i).
Context (Hdata : ∀ r i j, 0 ≤ r < size → sdata r i ≠ rdata r j ∧ (rdata r i = rdata r j → i = j)).

Let E (r : Z) : list Endpoint := int_endpoint slot (sdata r) (rdata r) <$> peers r.

Lemma int_endpoints : endpoints size E.
Proof.
  split.
  - by intros r e _ (i & -> & _)%list_elem_of_fmap.
  - intros r Hr. unfold E. rewrite <-list_fmap_compose. apply NoDup_fmap_2; [|by apply Hpeers]. intros i j [= ->]. done.
  - intros p e Hp (i & -> & Hi)%list_elem_of_fmap. destruct (Hpeers p Hp) as [_ Hin]. destruct (Hin i Hi) as [Hi' Hpi]. split; [done|].
    exists (int_endpoint slot (sdata i) (rdata i) p). split; [by apply list_elem_of_fmap_2|]. split; [done|]. split; [done|]. split; [done|]. cbn. lia.
Qed.

Lemma int_apart r e e' : 0 ≤ r < size → e ∈ E r → e' ∈ E r →
  apart (bb_reg e'.2) (bb_reg e.1) ∧ (e ≠ e' → apart (bb_reg e.2) (bb_reg e'.2)).
Proof.
  intros Hr (i & -> & Hi)%list_elem_of_fmap (j & -> & Hj)%list_elem_of_fmap. split.
  - apply apart_buf. cbn. intros Heq. by destruct (Hdata r i j Hr) as [[] _].
  - intros Hne. apply apart_buf. cbn. intros Heq. apply Hne. by rewrite (proj2 (Hdata r i j Hr) Heq).
Qed.
End int_endpoints.

Lemma others_peers size r : 0 ≤ r < size → NoDup (others r size) ∧ ∀ i, i ∈ others r size → 0 ≤ i < size ∧ r ∈ others i size.
Proof. intros Hr. split; [apply NoDup_others|]. intros i [Hi Hne]%elem_others. split; [done|]. by apply elem_others. Qed.

Lemma root_peers size root r : 0 ≤ root < size → 0 ≤ r < size →
  let peers r := if r =? root then others r size else [root] in
  NoDup (peers r) ∧ ∀ i, i ∈ peers r → 0 ≤ i < size ∧ r ∈ peers i.
Proof.
  intros Hroot Hr peers. unfold peers. destruct (Z.eqb_spec r root) as [->|Hne].
  - split; [apply NoDup_others|]. intros i [Hi Hne]%elem_others. split; [done|]. destruct (Z.eqb_spec i root); [done|set_solver].
  - split; [apply NoDup_singleton|]. intros i ->%list_elem_of_singleton. split; [done|]. rewrite Z.eqb_refl. by apply elem_others.
Qed.

Section barriers.
Context (size slot : Z) (sdata rdata : Z → Z → Z) (mems : Z → Mem).
Context (Hdata : ∀ r i j, 0 ≤ r < size → sdata r i ≠ rdata r j ∧ (rdata r i = rdata r j → i = j)).

(** Nothing but the barrier's own integers changes. *)
Definition memory_kept (mems' : Z → Mem) : Prop :=
  ∀ r reg, 0 ≤ r < size → (∀ i, rdata r i ≠ rg_buf reg) → read (mems' r) reg = read (mems r) reg.

Section peers.
Context (peers : Z → list Z) (run : Z → list BAct).
Context (Hpeers : ∀ r, 0 ≤ r < size → NoDup (peers r) ∧ ∀ i, i ∈ peers r → 0 ≤ i < size ∧ r ∈ peers i).

Abbreviation ep r i := (int_endpoint slot (sdata r) (rdata r) i).
Let E (r : Z) : list Endpoint := (λ i, ep r i) <$> peers r.

(** In [K] exchanges: in the [k]-th, [r] sends to [ps k r] and waits for
    [pt k r]. *)
Lemma int_barrier_completes K (ps pt : nat → Z → list Z) :
  (∀ r, 0 ≤ r < size → peers r = seq 0 K ≫= (λ k, ps k r) ∧ peers r = seq 0 K ≫= (λ k, pt k r) ∧
    run r = seq 0 K ≫= (λ k, sends_on ((λ i, ep r i) <$> ps k r) ++ waits_on ((λ i, ep r i) <$> pt k r))) →
  (∀ k p q, (k < K)%nat → 0 ≤ p < size → 0 ≤ q < size → q ∈ ps k p ↔ p ∈ pt k q) →
  bcomputes (λ r, (E r).*2) (group size run) mems memory_kept.
Proof.
  intros HK Hst.
  assert (∀ k p q, (k < K)%nat → 0 ≤ p < size → (q ∈ ps k p ∨ q ∈ pt k p) → 0 ≤ q < size) as Hrange.
  { intros k p q Hk Hp Hq. destruct (HK p Hp) as (H1 & H2 & _). apply (Hpeers p Hp).
    destruct Hq; [rewrite H1|rewrite H2]; apply list_elem_of_bind; exists k; (split; [done|]); apply elem_of_seq; lia. }
  eapply bcomputes_weaken; [apply (exchanges_plain size (λ r, (E r).*2) E K (λ k r, (λ i, ep r i) <$> ps k r) (λ k r, (λ i, ep r i) <$> pt k r) run
    (λ q e, mkRegion (sdata (bb_peer e.1) q) 0 4) mems)|].
  - by apply int_endpoints.
  - intros r Hr. destruct (HK r Hr) as (H1 & H2 & H3). rewrite !bind_map, <-H1, <-H2. done.
  - intros k p e Hk Hp (q & -> & Hq)%list_elem_of_fmap. exists (ep q p). cbn. split; [|by split_and!].
    apply list_elem_of_fmap_2. apply (Hst k p q); [done|done|eapply Hrange; by eauto|done].
  - intros k q e Hk Hq (p & -> & Hp)%list_elem_of_fmap. exists (ep p q). cbn. split; [|done].
    apply list_elem_of_fmap_2. apply (Hst k p q); [done|eapply Hrange; by eauto|done|done].
  - intros r e e' Hr He He'. by apply (int_apart size slot peers sdata rdata Hdata r).
  - intros mems' H r reg Hr Hreg. apply (H r Hr). intros e (i & -> & _)%list_elem_of_fmap. apply apart_buf. apply Hreg.
Qed.

Context (Hputs : ∀ r, 0 ≤ r < size → gputs (Do <$> run r) = once_puts (E r)) (Hnc : ∀ r, 0 ≤ r < size → no_compute (run r)).
Let G : Z → list GAct := group size (λ r, once_prog (E r) (run r)).

(** What processes that have waited know of the others. *)
Lemma int_causal s : rtc (bnet_step (λ r, (E r).*2)) (bnet_init (group size run) mems) s →
  ∃ A, (∀ r, ∃ Q, G r = A r ++ Q ∧ br_prog (bn_rk s r) = code Q) ∧
    ∀ p q, 0 ≤ p < size → (gwaits q (A p) ≤ length (puts (p, slot) (A q)))%nat.
Proof.
  intros Hs. pose proof (int_endpoints size slot peers sdata rdata Hpeers) as HE.
  assert (group size run = λ r, code (G r)) as Hrun.
  { extensionality r. unfold G, group. case_decide; [by rewrite code_once|done]. }
  rewrite Hrun in Hs.
  assert (agree (λ r, (E r).*2) G) as Hag by by apply once_agree.
  assert (in_time G) as Hin by (apply credit_in_time; intros p q sl Hne; by apply (once_credit size (λ r, (E r).*2) E run)).
  assert (∀ r, clean hist0 (net_prog (G r))) as Hc.
  { intros r. unfold G, group. case_decide as Hr; [|done]. apply once_clean; [by apply Hnc|by apply Hputs|by apply (ep_nodup _ _ HE)|..];
      intros e e' He He'; by apply (int_apart size slot peers sdata rdata Hdata r e e'). }
  destruct (bound_causal _ G Hag Hin mems s Hc Hs) as (A & HA & Hk & _). exists A. split; [done|].
  intros p q Hp. apply Hk. unfold G. rewrite group_some by done. unfold once_prog. rewrite gposts_app, gposts_do, gposts_posts, app_nil_r.
  intros y (e & -> & (i & -> & Hi)%list_elem_of_fmap)%list_elem_of_fmap. cbn. split; [by intros ->|by intros [= ->]].
Qed.
End peers.

Lemma gwaits_done r E (run : Z → list BAct) A Q b : once_prog E (run r) = A ++ Q → code Q = [] → gwaits b A = gwaits b (Do <$> run r).
Proof.
  intros HG HQ. pose proof (f_equal (gwaits b) HG) as H. unfold once_prog in H. rewrite !gwaits_app in H.
  assert (∀ xs, gwaits b (Post <$> xs) = O) as Hp by (intros xs; induction xs as [|x xs IH]; [done|exact IH]). rewrite Hp in H.
  assert (gwaits b Q = O); [|lia]. clear - HQ. induction Q as [|[a|x] Q IH]; [done|done|exact (IH HQ)].
Qed.
Lemma gwaits_waits (E : list Endpoint) e : e ∈ E → (1 ≤ gwaits (bb_id e.2) (Do <$> waits_on E))%nat.
Proof.
  intros (l1 & l2 & ->)%list_elem_of_split. unfold waits_on. rewrite !fmap_app, gwaits_app. rewrite !fmap_cons.
  change (Do ?a :: ?l) with ([Do a] ++ l). rewrite gwaits_app. unfold gwaits at 2. cbn. rewrite decide_True by done. cbn. lia.
Qed.

End barriers.

(** the all-to-all barrier over bound buffers. Every process runs to its
    end, nothing but the barrier's own integers having changed; and in every
    reachable state, if some process has left the barrier then every other
    process has entered it. *)
Theorem BarrierAllToAll_correct size slot (sdata rdata : Z → Z → Z) (mems : Z → Mem)
    (buffers := λ r, BarrierAllToAll r size slot (sdata r) (rdata r)) (run := λ r, BarrierAllToAll_run (buffers r)) :
  (∀ r i j, 0 ≤ r < size → sdata r i ≠ rdata r j ∧ (rdata r i = rdata r j → i = j)) →
  bcomputes (λ r, (buffers r).*2) (group size run) mems (memory_kept size rdata mems) ∧
  ∀ s p q, rtc (bnet_step (λ r, (buffers r).*2)) (bnet_init (group size run) mems) s →
    0 ≤ p < size → 0 ≤ q < size → p ≠ q → b_left s p → b_entered run s q.
Proof.
  intros Hdata. pose proof (others_peers size) as Hpeers.
  assert (∀ r, gputs (Do <$> run r) = once_puts (buffers r)) as Hputs.
  { intros r. unfold run, BarrierAllToAll_run. rewrite fmap_app, gputs_app, waits_gputs, app_nil_r, sends_gputs; [done|].
    by intros e (i & -> & _)%list_elem_of_fmap. }
  split.
  - apply (int_barrier_completes size slot sdata rdata mems Hdata (λ r, others r size) run Hpeers 1 (λ _ r, others r size) (λ _ r, others r size)).
    + intros r Hr. cbn [seq mbind list_bind]. by rewrite !app_nil_r.
    + intros _ p q _ Hp Hq. rewrite !elem_others. naive_solver.
  - intros s p q Hs Hp Hq Hne Hleft.
    destruct (int_causal size slot sdata rdata mems Hdata (λ r, others r size) run Hpeers (λ r _, Hputs r)) with (s := s) as (A & HA & Hk);
      [intros r _; apply Forall_app; split; [apply sends_no_compute|apply waits_no_compute]|done|].
    destruct (HA p) as (Qp & HGp & HQp), (HA q) as (Qq & HGq & HQq). rewrite group_some in HGp, HGq by done.
    eapply put_entered; [exact HGq|done|]. etrans; [|apply (Hk p q Hp)]. rewrite (gwaits_done _ _ _ _ _ _ HGp) by by rewrite <-HQp.
    unfold run, BarrierAllToAll_run. rewrite fmap_app, gwaits_app.
    pose proof (gwaits_waits (buffers p) (int_endpoint slot (sdata p) (rdata p) q)) as Hw. cbn in Hw.
    etrans; [apply Hw|lia]. apply list_elem_of_fmap_2, elem_others. naive_solver.
Qed.

(** The barrier through a root in two exchanges. *)
Section all_to_one.
Context (size slot root : Z) (sdata rdata : Z → Z → Z) (Hroot : 0 ≤ root < size).

Let peers (r : Z) : list Z := if r =? root then others r size else [root].
Let buffers (r : Z) : list Endpoint := BarrierAllToOne r size root slot (sdata r) (rdata r).
Let run (r : Z) : list BAct := BarrierAllToOne_run r root (buffers r).

Definition a1_send (k : nat) (r : Z) : list Z := if r =? root then (match k with O => [] | _ => others r size end)
  else match k with O => [root] | _ => [] end.
Definition a1_wait (k : nat) (r : Z) : list Z := if r =? root then (match k with O => others r size | _ => [] end)
  else match k with O => [] | _ => [root] end.

Lemma a1_run r : peers r = seq 0 2 ≫= (λ k, a1_send k r) ∧ peers r = seq 0 2 ≫= (λ k, a1_wait k r) ∧
  run r = seq 0 2 ≫= (λ k, sends_on (int_endpoint slot (sdata r) (rdata r) <$> a1_send k r) ++
    waits_on (int_endpoint slot (sdata r) (rdata r) <$> a1_wait k r)).
Proof.
  unfold peers, run, buffers, BarrierAllToOne_run, BarrierAllToOne, a1_send, a1_wait. cbn [seq mbind list_bind].
  destruct (r =? root); cbn [app fmap list_fmap]; rewrite !app_nil_r; done.
Qed.

Lemma a1_puts r : gputs (Do <$> run r) = once_puts (buffers r).
Proof.
  destruct (a1_run r) as (Hs & _ & ->). unfold buffers, BarrierAllToOne. fold (peers r). rewrite Hs. cbn [seq mbind list_bind].
  rewrite !app_nil_r, !fmap_app, !gputs_app, !waits_gputs, !app_nil_r. unfold once_puts. rewrite !fmap_app.
  f_equal; (etrans; [apply sends_gputs; by intros e (i & -> & _)%list_elem_of_fmap|done]).
Qed.

Lemma a1_no_compute r : no_compute (run r).
Proof.
  destruct (a1_run r) as (_ & _ & ->). cbn [seq mbind list_bind]. rewrite app_nil_r.
  apply Forall_app; split; (apply Forall_app; split; [apply sends_no_compute|apply waits_no_compute]).
Qed.

(** The processes a process waits for, and when the root sends. *)
Lemma a1_waits r q : q ∈ peers r → (1 ≤ gwaits q (Do <$> run r))%nat.
Proof.
  intros Hq. destruct (a1_run r) as (_ & Hw & ->). rewrite Hw in Hq. cbn [seq mbind list_bind] in *. rewrite app_nil_r in *.
  rewrite !fmap_app, !gwaits_app.
  assert (∀ l, q ∈ l → (1 ≤ gwaits q (Do <$> waits_on (int_endpoint slot (sdata r) (rdata r) <$> l)))%nat) as H1.
  { intros l Hl. apply (gwaits_waits _ (int_endpoint slot (sdata r) (rdata r) q)). by apply list_elem_of_fmap_2. }
  apply elem_of_app in Hq as [Hq|Hq]; apply H1 in Hq; lia.
Qed.

Lemma a1_root_sends A Q c q : once_prog (buffers root) (run root) = A ++ Q → (1 ≤ length (puts c A))%nat →
  q ∈ others root size → (1 ≤ gwaits q A)%nat.
Proof.
  intros HG Hp Hq. unfold once_prog, run, BarrierAllToOne_run in HG. rewrite Z.eqb_refl, fmap_app, (assoc_L (++)) in HG.
  apply app_eq_inv in HG as [(l & HA & HB)|(l & HA & HB)].
  - exfalso. assert (puts c A = []) as Hz; [|rewrite Hz in Hp; cbn in Hp; lia].
    assert (puts c ((Post <$> (xfer_of ∘ snd <$> buffers root)) ++ (Do <$> waits_on (buffers root))) = []) as Hz.
    { unfold puts. by rewrite gputs_app, gputs_posts, waits_gputs. }
    rewrite HA, puts_app in Hz. by apply app_nil in Hz as [Hz _].
  - rewrite HA, !gwaits_app. pose proof (gwaits_waits (buffers root) (int_endpoint slot (sdata root) (rdata root) q)) as Hw. cbn in Hw.
    etrans; [apply Hw|lia]. unfold buffers, BarrierAllToOne. rewrite Z.eqb_refl. by apply list_elem_of_fmap_2.
Qed.
End all_to_one.

(** C30: the barrier through a root over bound buffers. Every process runs to
    its end, nothing but the barrier's own integers having changed; and in
    every reachable state, if some process has left the barrier then every
    other process has entered it. *)
Theorem BarrierAllToOne_correct size slot root (sdata rdata : Z → Z → Z) (mems : Z → Mem)
    (buffers := λ r, BarrierAllToOne r size root slot (sdata r) (rdata r)) (run := λ r, BarrierAllToOne_run r root (buffers r)) :
  0 ≤ root < size → (∀ r i j, 0 ≤ r < size → sdata r i ≠ rdata r j ∧ (rdata r i = rdata r j → i = j)) →
  bcomputes (λ r, (buffers r).*2) (group size run) mems (memory_kept size rdata mems) ∧
  ∀ s p q, rtc (bnet_step (λ r, (buffers r).*2)) (bnet_init (group size run) mems) s →
    0 ≤ p < size → 0 ≤ q < size → p ≠ q → b_left s p → b_entered run s q.
Proof.
  intros Hroot Hdata. pose proof (root_peers size root) as Hpeers. split.
  - apply (int_barrier_completes size slot sdata rdata mems Hdata (λ r, if r =? root then others r size else [root]) run
      (λ r, Hpeers r Hroot) 2 (a1_send size root) (a1_wait size root)).
    + intros r Hr. apply a1_run.
    + intros k p q Hk Hp Hq. unfold a1_send, a1_wait.
      destruct (Z.eqb_spec p root) as [->|Hpr], (Z.eqb_spec q root) as [->|Hqr], k; rewrite ?elem_others, ?list_elem_of_singleton; set_solver.
  - intros s p q Hs Hp Hq Hne Hleft.
    destruct (int_causal size slot sdata rdata mems Hdata (λ r, if r =? root then others r size else [root]) run (λ r, Hpeers r Hroot)
      (λ r _, a1_puts size slot root sdata rdata r) (λ r _, a1_no_compute size slot root sdata rdata r) s Hs) as (A & HA & Hk).
    assert (∀ r, 0 ≤ r < size → ∃ Q, once_prog (buffers r) (run r) = A r ++ Q ∧ br_prog (bn_rk s r) = code Q) as HA'.
    { intros r Hr. destruct (HA r) as (Q & HQ & Hb). rewrite group_some in HQ by done. by exists Q. }
    clear HA. destruct (HA' p Hp) as (Qp & HGp & HQp), (HA' q Hq) as (Qq & HGq & HQq).
    assert (∀ i, i ∈ (if p =? root then others p size else [root]) → (1 ≤ gwaits i (A p))%nat) as Hpw.
    { intros i Hi. rewrite (gwaits_done _ _ _ _ _ _ HGp) by by rewrite <-HQp. by apply (a1_waits size slot root sdata rdata). }
    assert (∃ c, (1 ≤ length (puts c (A q)))%nat) as [c Hc]; [|by eapply put_entered].
    destruct (Z.eqb_spec p root) as [->|Hpr].
    + eexists. etrans; [|apply (Hk root q Hp)]. apply Hpw, elem_others. naive_solver.
    + assert (1 ≤ length (puts (p, slot) (A root)))%nat as Hrp by (etrans; [|apply (Hk p root Hp)]; apply Hpw; set_solver).
      destruct (decide (q = root)) as [->|Hqr]; [by eexists|].
      destruct (HA' root Hroot) as (Qr & HGr & HQr). eexists. etrans; [|apply (Hk root q Hroot)].
      apply (a1_root_sends size slot root sdata rdata (A root) Qr (p, slot) q HGr Hrp). apply elem_others. naive_solver.
Qed.

(** Three processes, the sent integers at even places, the others at odd. *)
Lemma BarrierAllToAll_correct_witness :
  (∀ r i j, 0 ≤ r < 3 → 2 * i ≠ 2 * j + 1 ∧ (2 * i + 1 = 2 * j + 1 → i = j)) ∧
  bcomputes (λ r, (BarrierAllToAll r 3 7 (Z.mul 2) (λ i, 2 * i + 1)).*2)
    (group 3 (λ r, BarrierAllToAll_run (BarrierAllToAll r 3 7 (Z.mul 2) (λ i, 2 * i + 1)))) demo_mems
    (memory_kept 3 (λ _ i, 2 * i + 1) demo_mems).
Proof.
  split; [intros; split; lia|].
  apply (proj1 (BarrierAllToAll_correct 3 7 (λ _, Z.mul 2) (λ _ i, 2 * i + 1) demo_mems ltac:(intros; split; lia))).
Defined.

Lemma BarrierAllToOne_correct_witness :
  0 ≤ 1 < 3 ∧ (∀ r i j, 0 ≤ r < 3 → 2 * i ≠ 2 * j + 1 ∧ (2 * i + 1 = 2 * j + 1 → i = j)) ∧
  bcomputes (λ r, (BarrierAllToOne r 3 1 7 (Z.mul 2) (λ i, 2 * i + 1)).*2)
    (group 3 (λ r, BarrierAllToOne_run r 1 (BarrierAllToOne r 3 1 7 (Z.mul 2) (λ i, 2 * i + 1)))) demo_mems
    (memory_kept 3 (λ _ i, 2 * i + 1) demo_mems).
Proof.
  split; [lia|]. split; [intros; split; lia|].
  apply (proj1 (BarrierAllToOne_correct 3 7 1 (λ _, Z.mul 2) (λ _ i, 2 * i + 1) demo_mems ltac:(lia) ltac:(intros; split; lia))).
Defined.
