(* ===== verification/Pairwise.v ===== *)
(** [pairwise_exchange.h]: the processes exchange data in pairs that differ
    in one bit of their ranks, one bit after the other. *)
From Stdlib Require Import FunctionalExtensionality.
From S2P Require Import Prelude Net NetRun Groups Rounds BoundNet BoundAlias BoundRounds Once.

(** The buffers of destination [i], of its data and of its notification;
    [sendData], [recvData] are the arrays. The notifications are all sent from
    and received into one integer, [dummy_]. *)
Definition pw_buffers (contextRank slot bytesPerMsg sendData recvData dummy_ i : Z) : Endpoint * Endpoint :=
  let bitmask := u64 (Z.shiftl 1 i) in
  let destination := s32 (Z.lxor contextRank bitmask) in
  let slot := slot + 2 * i in
  ((createSendBuffer (2 * i) destination slot (mkRegion sendData (i * bytesPerMsg) bytesPerMsg),
    createRecvBuffer (2 * i) destination slot (mkRegion recvData (i * bytesPerMsg) bytesPerMsg)),
   (createSendBuffer (2 * i + 1) destination (slot + 1) (mkRegion dummy_ 0 4),
    createRecvBuffer (2 * i + 1) destination (slot + 1) (mkRegion dummy_ 0 4))).

(** The constructor. The members are initialized before the checks; [log2]
    of the size is rounded down, which an integer does not notice. [getPair]
    throws for a rank that is not in the context. *)
Definition PairwiseExchange (contextRank contextSize numBytes numDestinations slot sendData recvData dummy_ : Z) :
    outcome (list (Endpoint * Endpoint)) :=
  if (numDestinations =? 0) || ((numBytes =? - 2 ^ 31) && (numDestinations =? -1)) then UB else
  let bytesPerMsg := Z.quot numBytes numDestinations in
  if numBytes <? 0 then Exn BadAlloc
  else if negb (Z.rem contextSize 2 =? 0) then Exn EnforceNotMet
  else if bytesPerMsg <=? 0 then Exn EnforceNotMet
  else if numDestinations <=? 0 then Exn EnforceNotMet
  else if Z.log2 contextSize <? numDestinations then Exn EnforceNotMet
  else
    let buffers := pw_buffers contextRank slot bytesPerMsg sendData recvData dummy_ <$> seqZ 0 numDestinations in
    if forallb (λ b : Endpoint * Endpoint, (0 <=? bb_peer b.1.1) && (bb_peer b.1.1 <? contextSize)) buffers then Val buffers
    else Exn OutOfRange.

Definition PairwiseExchange_run (buffers : list (Endpoint * Endpoint)) : list BAct :=
  buffers ≫= (λ b : Endpoint * Endpoint, buffer_send_all b.1.1 ++ [buffer_waitRecv b.1.2] ++ buffer_send_all b.2.1 ++ [buffer_waitRecv b.2.2]).
(** The receive buffers of a process. *)
Definition PairwiseExchange_bufs (buffers : list (Endpoint * Endpoint)) : list BBuf := buffers ≫= (λ b : Endpoint * Endpoint, [b.1.2; b.2.2]).

Example PairwiseExchange_six : PairwiseExchange 4 6 100 2 0 1 2 3 = Exn OutOfRange.
Proof. reflexivity. Qed.
Example PairwiseExchange_zero : PairwiseExchange 0 6 100 0 0 1 2 3 = UB.
Proof. reflexivity. Qed.

(** The same with the [i]-th notification received into memory of its own,
    [dummyIn i], for the proofs. *)
Definition pw_buffers_apart (contextRank slot bytesPerMsg sendData recvData dummy_ : Z) (dummyIn : Z → Z) (i : Z) : Endpoint * Endpoint :=
  let b := pw_buffers contextRank slot bytesPerMsg sendData recvData dummy_ i in
  (b.1, (b.2.1, mkBBuf (2 * i + 1) (bb_peer b.2.2) (bb_slot b.2.2) (mkRegion (dummyIn i) 0 4))).

Lemma lxor_bit_range k r i : 0 ≤ i < k → 0 ≤ r < 2 ^ k → 0 ≤ Z.lxor r (2 ^ i) < 2 ^ k.
Proof.
  intros Hi Hr. assert (0 ≤ Z.lxor r (2 ^ i)) as H0 by (apply Z.lxor_nonneg; lia). split; [done|].
  destruct (Z.eq_dec (Z.lxor r (2 ^ i)) 0) as [->|Hne]; [lia|]. apply Z.log2_lt_pow2; [lia|].
  eapply Z.le_lt_trans; [apply Z.log2_lxor; lia|]. rewrite Z.log2_pow2 by lia.
  destruct (Z.eq_dec r 0) as [->|]; [cbn; lia|]. pose proof (proj1 (Z.log2_lt_pow2 r k ltac:(lia)) ltac:(lia)). lia.
Qed.

Definition pw_partner (r i : Z) : Z := Z.lxor r (2 ^ i).
Lemma pw_destination k r i : 0 ≤ k ≤ 30 → 0 ≤ r < 2 ^ k → 0 ≤ i < k → s32 (Z.lxor r (u64 (Z.shiftl 1 i))) = pw_partner r i ∧ 0 ≤ pw_partner r i < 2 ^ k.
Proof.
  intros Hk Hr Hi. pose proof (lxor_bit_range k r i Hi Hr) as Hx. unfold pw_partner. split; [|done].
  pose proof (Z.pow_le_mono_r 2 k 30 ltac:(lia) ltac:(lia)). pose proof (Z.pow_lt_mono_r 2 i k ltac:(lia) ltac:(lia) ltac:(lia)).
  rewrite Z.shiftl_mul_pow2, Z.mul_1_l by lia. rewrite (wrap_small 64) by (unfold in_range; lia). apply swrap_small; lia.
Qed.

Section pairwise.
Context (k slot bytes sendData recvData dummy_ : Z) (dummyIn : Z → Z) (n : nat) (mems : Z → Mem).
Context (Hk : 0 ≤ k ≤ 30) (Hn : Z.of_nat n ≤ k) (Hbytes : 0 < bytes < 2 ^ 31).
Context (Hmem : recvData ≠ sendData ∧ recvData ≠ dummy_ ∧ ∀ i, dummyIn i ≠ sendData ∧ dummyIn i ≠ dummy_ ∧ dummyIn i ≠ recvData ∧
  ∀ j, dummyIn i = dummyIn j → i = j).

Abbreviation bufs r i := (pw_buffers_apart r slot bytes sendData recvData dummy_ dummyIn i).
(** The endpoints one after the other; the memory of the [j]-th. *)
Definition pw_out (j : nat) : Region :=
  if Nat.even j then mkRegion sendData (Z.of_nat (Nat.div2 j) * bytes) bytes else mkRegion dummy_ 0 4.
Definition pw_in (j : nat) : Region :=
  if Nat.even j then mkRegion recvData (Z.of_nat (Nat.div2 j) * bytes) bytes else mkRegion (dummyIn (Z.of_nat (Nat.div2 j))) 0 4.
Definition pw_endpoint (r : Z) (j : nat) : Endpoint :=
  let q := pw_partner r (Z.of_nat (Nat.div2 j)) in
  (createSendBuffer (Z.of_nat j) q (slot + Z.of_nat j) (pw_out j), createRecvBuffer (Z.of_nat j) q (slot + Z.of_nat j) (pw_in j)).

Lemma pw_buffers_endpoints r i : 0 ≤ r < 2 ^ k → (i < n)%nat →
  bufs r (Z.of_nat i) = (pw_endpoint r (2 * i), pw_endpoint r (2 * i + 1)).
Proof.
  intros Hr Hi. destruct (pw_destination k r (Z.of_nat i) Hk Hr ltac:(lia)) as [Hd _].
  unfold pw_buffers_apart, pw_buffers, pw_endpoint, pw_out, pw_in. cbn [fst snd createRecvBuffer bb_peer bb_slot]. rewrite Hd.
  rewrite Nat.add_1_r, Nat.even_succ, Nat.div2_double, Nat.div2_succ_double, <-Nat.negb_even, Nat.even_even. cbn [negb].
  replace (Z.of_nat (S (2 * i))) with (2 * Z.of_nat i + 1) by lia. replace (Z.of_nat (2 * i)) with (2 * Z.of_nat i) by lia.
  by rewrite <-Z.add_assoc.
Qed.

Let E (r : Z) : list Endpoint := pw_endpoint r <$> seq 0 (2 * n).
Let B (r : Z) : list (Endpoint * Endpoint) := (λ i, bufs r (Z.of_nat i)) <$> seq 0 n.

Lemma pw_run r : 0 ≤ r < 2 ^ k →
  PairwiseExchange_bufs (B r) = (E r).*2 ∧
  PairwiseExchange_run (B r) = seq 0 (2 * n) ≫= (λ j, sends_on [pw_endpoint r j] ++ waits_on [pw_endpoint r j]).
Proof.
  intros Hr. pose proof (seq_pairs (λ j, [(pw_endpoint r j).2]) n 0) as H1.
  pose proof (seq_pairs (λ j, sends_on [pw_endpoint r j] ++ waits_on [pw_endpoint r j]) n 0) as H2.
  rewrite Nat.mul_0_r in H1, H2. rewrite H2. rewrite bind_one in H1. unfold E. rewrite <-list_fmap_compose.
  change (snd ∘ pw_endpoint r) with (λ j, (pw_endpoint r j).2). rewrite H1. unfold B, PairwiseExchange_bufs, PairwiseExchange_run.
  rewrite !list_fmap_bind. split; apply bind_ext_elem; intros i Hi%elem_of_seq; cbn [compose]; unfold compose;
    rewrite pw_buffers_endpoints by (done || lia); [done|]. unfold sends_on, waits_on. cbn [fmap list_fmap mbind list_bind fst snd].
  by rewrite !app_nil_r, <-!(assoc_L (++)).
Qed.

Lemma pw_endpoints : endpoints (2 ^ k) E.
Proof.
  split.
  - by intros r e _ (j & -> & _)%list_elem_of_fmap.
  - intros r Hr. unfold E. rewrite <-list_fmap_compose. apply NoDup_fmap_2; [|apply NoDup_seq]. intros i j. unfold compose, e_chan, bb_chan. cbn.
    intros [= _ H]. lia.
  - intros p e Hp (j & -> & Hj%elem_of_seq)%list_elem_of_fmap. cbn.
    pose proof (Nat.div2_div j). assert (Nat.div2 j < n)%nat as Hi by (rewrite Nat.div2_div; apply Nat.Div0.div_lt_upper_bound; lia).
    destruct (pw_destination k p (Z.of_nat (Nat.div2 j)) Hk Hp ltac:(lia)) as [_ Hq]. split; [done|]. exists (pw_endpoint (pw_partner p (Z.of_nat (Nat.div2 j))) j).
    split; [apply list_elem_of_fmap_2, elem_of_seq; lia|]. split; [|split; [done|]].
    + cbn. unfold pw_partner. by rewrite Z.lxor_assoc, Z.lxor_nilpotent, Z.lxor_0_r.
    + cbn. unfold pw_out, pw_in. destruct (Nat.even j); cbn; lia.
Qed.

Lemma pw_apart r e e' : e ∈ E r → e' ∈ E r → apart (bb_reg e'.2) (bb_reg e.1) ∧ (e ≠ e' → apart (bb_reg e.2) (bb_reg e'.2)).
Proof.
  intros (i & -> & _)%list_elem_of_fmap (j & -> & _)%list_elem_of_fmap. destruct Hmem as (H1 & H2 & H3). split.
  - apply apart_buf. cbn. unfold pw_out, pw_in. destruct (H3 (Z.of_nat (Nat.div2 j))) as (H4 & H5 & _).
    by destruct (Nat.even i), (Nat.even j); cbn.
  - intros Hne. assert (i ≠ j) as Hij by (by intros ->). pose proof (Nat.div2_odd i) as Hi. pose proof (Nat.div2_odd j) as Hj.
    rewrite <-Nat.negb_even in Hi, Hj. cbn. unfold pw_in. destruct (Nat.even i), (Nat.even j); cbn in *.
    + apply apart_off. cbn. assert (Nat.div2 i ≠ Nat.div2 j) by lia. nia.
    + apply apart_buf. cbn. intros Heq. by apply (H3 (Z.of_nat (Nat.div2 j))).
    + apply apart_buf. cbn. intros Heq. by apply (H3 (Z.of_nat (Nat.div2 i))).
    + apply apart_buf. cbn. intros Heq. apply (H3 (Z.of_nat (Nat.div2 i))) in Heq. lia.
Qed.

Lemma pairwise_computes : bcomputes (λ r, PairwiseExchange_bufs (B r)) (group (2 ^ k) (λ r, PairwiseExchange_run (B r))) mems
  (λ mems', ∀ r, 0 ≤ r < 2 ^ k →
    (∀ i, 0 ≤ i < Z.of_nat n → read (mems' r) (mkRegion recvData (i * bytes) bytes) =
       read (mems (pw_partner r i)) (mkRegion sendData (i * bytes) bytes)) ∧
    ∀ reg, rg_buf reg ≠ recvData → (∀ i, rg_buf reg ≠ dummyIn i) → read (mems' r) reg = read (mems r) reg).
Proof.
  assert (∀ j, (j < 2 * n)%nat → (Nat.div2 j < n)%nat) as Hdiv by (intros j Hj; rewrite Nat.div2_div; apply Nat.Div0.div_lt_upper_bound; lia).
  eapply bcomputes_weaken; [apply (exchanges_plain (2 ^ k) _ E (2 * n) (λ j r, [pw_endpoint r j]) (λ j r, [pw_endpoint r j]) _ (λ _ e, bb_reg e.1))|].
  - exact pw_endpoints.
  - intros r Hr. destruct (pw_run r Hr) as [H1 H2]. rewrite bind_one. done.
  - intros j p e Hj Hp ->%list_elem_of_singleton. exists (pw_endpoint (pw_partner p (Z.of_nat (Nat.div2 j))) j). split; [set_solver|].
    split; [|done]. split; [|split; [done|]]; cbn.
    + unfold pw_partner. by rewrite Z.lxor_assoc, Z.lxor_nilpotent, Z.lxor_0_r.
    + unfold pw_out, pw_in. destruct (Nat.even j); cbn; lia.
  - intros j q e Hj Hq ->%list_elem_of_singleton. exists (pw_endpoint (pw_partner q (Z.of_nat (Nat.div2 j))) j). split; [set_solver|].
    split; [|done]. cbn. unfold pw_partner. by rewrite Z.lxor_assoc, Z.lxor_nilpotent, Z.lxor_0_r.
  - intros r e e' Hr. apply pw_apart.
  - intros mems' H r Hr. destruct (H r Hr) as [Hin Hout]. split.
    + intros i Hi. assert (pw_endpoint r (2 * Z.to_nat i) ∈ E r) as He by (apply list_elem_of_fmap_2, elem_of_seq; lia).
      apply Hin in He. unfold got_data, pw_endpoint, pw_in, pw_out in He. cbn [fst snd createSendBuffer createRecvBuffer bb_reg bb_peer] in He.
      rewrite Nat.even_even, Nat.div2_double, Z2Nat.id in He by lia. exact He.
    + intros reg H1 H2. apply Hout. intros e (j & -> & _)%list_elem_of_fmap. apply apart_buf. cbn. unfold pw_in.
      destruct (Nat.even j); cbn; congruence.
Qed.

(* ------------------------------------------------------------------ *)
(** ** One integer for all notifications *)

Context (base : Z) (Hbase : sendData < base ∧ recvData < base ∧ dummy_ < base ∧ ∀ i, base ≤ dummyIn i) (Hsend : sendData ≠ dummy_).
Definition pw_noise (b : Z) : Prop := b = dummy_ ∨ base ≤ b.
Let one_ (r : Z) : list (Endpoint * Endpoint) := (λ i, pw_buffers r slot bytes sendData recvData dummy_ (Z.of_nat i)) <$> seq 0 n.

Lemma pw_quiet : ¬ pw_noise sendData ∧ ¬ pw_noise recvData.
Proof. unfold pw_noise. destruct Hmem as (_ & ? & _). lia. Qed.

Lemma pw_note_alias r i : alias_buf pw_noise (eq dummy_) (bufs r i).2.1 (pw_buffers r slot bytes sendData recvData dummy_ i).2.1 ∧
  alias_buf pw_noise (eq dummy_) (bufs r i).2.2 (pw_buffers r slot bytes sendData recvData dummy_ i).2.2.
Proof.
  split; (split_and!; [done..|]); right; (split; [done|]); (split; [|done]); [by left|right]. cbn. by apply Hbase.
Qed.

Lemma pw_alias_bufs r : Forall2 (alias_buf pw_noise (eq dummy_)) (PairwiseExchange_bufs (B r)) (PairwiseExchange_bufs (one_ r)).
Proof.
  unfold B, one_, PairwiseExchange_bufs. rewrite !list_fmap_bind. generalize (seq 0 n). induction l as [|i l IH]; [constructor|].
  cbn [mbind list_bind]. apply Forall2_app; [|exact IH]. unfold compose. apply Forall2_cons. split; [|apply Forall2_cons; split; [|constructor]].
  - split_and!; [done..|]. left. split; [done|]. apply pw_quiet.
  - apply pw_note_alias.
Qed.

Lemma pw_noisy p q i : noisy pw_noise (λ r, PairwiseExchange_bufs (B r)) (p, q, slot + 2 * i + 1).
Proof.
  intros b Hb%find_some. destruct Hb as [Hb Heq]. cbn in Heq. unfold PairwiseExchange_bufs, B in Hb.
  apply list_elem_of_In, list_elem_of_bind in Hb as (e & Hb & (j & -> & _)%list_elem_of_fmap).
  apply elem_of_cons in Hb as [-> | ->%list_elem_of_singleton]; [cbn in Heq; lia|]. right. by apply Hbase.
Qed.

Lemma pw_alias_run r : Forall2 (alias_act pw_noise (eq dummy_) (λ r, PairwiseExchange_bufs (B r)) r)
  (PairwiseExchange_run (B r)) (PairwiseExchange_run (one_ r)).
Proof.
  unfold PairwiseExchange_run. unfold B at 2, one_. rewrite !list_fmap_bind. generalize (seq 0 n). induction l as [|i l IH]; [constructor|].
  cbn [mbind list_bind]. apply Forall2_app; [|exact IH]. unfold compose. destruct pw_quiet as [Hs _].
  apply Forall2_app; [|apply Forall2_app; [by apply Forall2_cons|apply Forall2_app; [|by apply Forall2_cons]]].
  - apply alias_send_all; [|intros ?%Hs; done]. split_and!; [done..|]. by left.
  - apply alias_send_all; [apply pw_note_alias|]. intros _. apply pw_noisy.
Qed.

Lemma pairwise_computes_one : bcomputes (λ r, PairwiseExchange_bufs (one_ r)) (group (2 ^ k) (λ r, PairwiseExchange_run (one_ r))) mems
  (λ mems', ∀ r, 0 ≤ r < 2 ^ k →
    (∀ i, 0 ≤ i < Z.of_nat n → read (mems' r) (mkRegion recvData (i * bytes) bytes) =
       read (mems (pw_partner r i)) (mkRegion sendData (i * bytes) bytes)) ∧
    ∀ reg, rg_buf reg ≠ recvData → rg_buf reg ≠ dummy_ → read (mems' r) reg = read (mems r) reg).
Proof.
  eapply bcomputes_weaken.
  - eapply (alias_group_computes pw_noise (eq dummy_)); [by intros b <-; left|apply pw_alias_bufs|intros r _; apply pw_alias_run|apply pairwise_computes].
  - intros mems' (m & Hm & Hal) r Hr. specialize (Hal r). destruct (Hm r Hr) as [H1 H2]. split.
    + intros i Hi. rewrite <-H1 by done. apply (alias_read pw_noise (eq dummy_) mems r); [done|apply pw_quiet].
    + intros reg H3 H4. apply (alias_mem_read pw_noise (eq dummy_) mems r (m r)); [unfold pw_noise; apply _|done|congruence|].
      intros Hno. apply H2; [done|]. intros i Heq. apply Hno. right. rewrite Heq. by apply Hbase.
Qed.
End pairwise.

(** Memory for each notification, all of it from [base] on. *)
Definition pw_fresh (base i : Z) : Z := base + (if 0 <=? i then 2 * i else - 2 * i - 1).

Lemma pairwise_constructed k numBytes numDestinations slot sendData recvData dummy_ r (bytes := numBytes / numDestinations) :
  1 ≤ k ≤ 30 → 1 ≤ numDestinations ≤ k → 0 < bytes → 0 ≤ numBytes → 0 ≤ r < 2 ^ k →
  PairwiseExchange r (2 ^ k) numBytes numDestinations slot sendData recvData dummy_ =
    Val ((λ i, pw_buffers r slot bytes sendData recvData dummy_ (Z.of_nat i)) <$> seq 0 (Z.to_nat numDestinations)).
Proof.
  intros Hk Hn Hb Hnb Hr.
  unfold PairwiseExchange.
  rewrite (proj2 (Z.eqb_neq numDestinations 0)), (proj2 (Z.eqb_neq numDestinations (-1))), andb_false_r, orb_false_l by lia.
  rewrite Z.quot_div_nonneg by lia. fold bytes. rewrite (proj2 (Z.ltb_ge numBytes 0)) by lia.
  assert (Z.rem (2 ^ k) 2 = 0) as Hrem.
  { rewrite Z.rem_mod_nonneg by lia. replace k with (Z.succ (k - 1)) by lia. rewrite Z.pow_succ_r by lia. rewrite Z.mul_comm. apply Z.mod_mul. lia. }
  rewrite Hrem, (proj2 (Z.leb_gt bytes 0)), (proj2 (Z.leb_gt numDestinations 0)), Z.log2_pow2, (proj2 (Z.ltb_ge k numDestinations)) by lia.
  cbn [negb Z.eqb]. assert (∀ i, pw_buffers r slot bytes sendData recvData dummy_ <$> seqZ 0 i =
    (λ i, pw_buffers r slot bytes sendData recvData dummy_ (Z.of_nat i)) <$> seq 0 (Z.to_nat i)) as Hseq.
  { intros i. unfold seqZ. rewrite <-list_fmap_compose. apply list_fmap_ext. intros ? j _. unfold compose. by rewrite Z.add_0_r. }
  rewrite Hseq.  rewrite (proj2 (forallb_forall _ _)); [done|]. intros b (i & -> & Hi%elem_of_seq)%list_elem_of_In%list_elem_of_fmap.
  cbn. destruct (pw_destination k r (Z.of_nat i) ltac:(lia) Hr ltac:(lia)) as [-> ?]. lia.
Qed.

(** C29: pairwise exchange among [2 ^ k] processes. The constructor succeeds, and
    every process runs to its end, the [i]-th part of its receive array then
    holding the [i]-th part of the send array of the process whose rank
    differs in bit [i]; no other memory changes but the one integer that all
    notifications are sent from and received into. *)
Theorem PairwiseExchange_correct k numBytes numDestinations slot sendData recvData dummy_ (mems : Z → Mem)
    (bytes := numBytes / numDestinations) :
  1 ≤ k ≤ 30 → 1 ≤ numDestinations ≤ k → numDestinations ≤ numBytes < 2 ^ 31 → NoDup [sendData; recvData; dummy_] →
  ∃ buffers : Z → list (Endpoint * Endpoint),
    (∀ r, 0 ≤ r < 2 ^ k →
      PairwiseExchange r (2 ^ k) numBytes numDestinations slot sendData recvData dummy_ = Val (buffers r)) ∧
    bcomputes (λ r, PairwiseExchange_bufs (buffers r)) (group (2 ^ k) (λ r, PairwiseExchange_run (buffers r))) mems
      (λ mems', ∀ r, 0 ≤ r < 2 ^ k →
        (∀ i, 0 ≤ i < numDestinations → read (mems' r) (mkRegion recvData (i * bytes) bytes) =
           read (mems (Z.lxor r (2 ^ i))) (mkRegion sendData (i * bytes) bytes)) ∧
        ∀ reg, rg_buf reg ≠ recvData → rg_buf reg ≠ dummy_ → read (mems' r) reg = read (mems r) reg).
Proof.
  intros Hk Hn Hbytes Hmem. assert (0 < bytes < 2 ^ 31) as Hb.
  { unfold bytes. split; [apply Z.div_str_pos; lia|]. eapply Z.le_lt_trans; [apply Z.div_le_upper_bound with (q := numBytes); nia|lia]. }
  assert (sendData ≠ recvData ∧ sendData ≠ dummy_ ∧ recvData ≠ dummy_) as (Hsr & Hsd & Hrd).
  { rewrite !NoDup_cons, !not_elem_of_cons in Hmem. tauto. }
  set (n := Z.to_nat numDestinations). assert (Z.of_nat n = numDestinations) as Hnd by (unfold n; lia).
  exists (λ r, (λ i, pw_buffers r slot bytes sendData recvData dummy_ (Z.of_nat i)) <$> seq 0 n). split.
  - intros r Hr. apply (pairwise_constructed k); lia.
  - set (base := 1 + Z.max sendData (Z.max recvData dummy_)).
    assert (∀ i, base ≤ pw_fresh base i) as Hbase by (intros i; unfold pw_fresh; destruct (Z.leb_spec 0 i); lia).
    eapply bcomputes_weaken; [apply (pairwise_computes_one k slot bytes sendData recvData dummy_ (pw_fresh base) n mems) with (base := base)|].
    + lia.
    + lia.
    + done.
    + split; [done|]. split; [done|]. intros i. specialize (Hbase i). split_and!; try lia. intros j. unfold pw_fresh.
      destruct (Z.leb_spec 0 i), (Z.leb_spec 0 j); lia.
    + split_and!; [lia..|done].
    + done.
    + intros mems' H r Hr. destruct (H r Hr) as [H1 H2]. split; [|done]. intros i Hi. apply H1. lia.
Qed.

(** Eight processes exchange 100 bytes in two rounds. *)
Lemma PairwiseExchange_correct_witness :
  (1 ≤ 3 ≤ 30 ∧ 1 ≤ 2 ≤ 3 ∧ 2 ≤ 100 < 2 ^ 31) ∧
  ∃ buffers : Z → list (Endpoint * Endpoint),
    ∀ r, 0 ≤ r < 2 ^ 3 → PairwiseExchange r (2 ^ 3) 100 2 0 2 4 6 = Val (buffers r).
Proof.
  split; [lia|]. destruct (PairwiseExchange_correct 3 100 2 0 2 4 6 demo_mems) as (buffers & H & _);
    [lia|lia|lia|apply (bool_decide_unpack _); by vm_compute|by exists buffers].
Defined.
