(* ===== verification/OneToAll.v ===== *)
(** [broadcast_one_to_all.h]: the root sends to each of the others, once it
    has been told that they are ready. *)
From Stdlib Require Import FunctionalExtensionality.
From S2P Require Import Prelude Net NetRun Groups Rounds Reducing BoundNet BoundRounds Once.

Definition bcopy (dst src : Region) : BAct := BCompute dst (λ l, hd [] l) [src].

(** The constructor: [ptrs] are the buffers of [bytes] bytes; the root has a
    [sender_] for every other process, the others have a [receiver_]; each
    keeps a [dummy] for its clear-to-send message. *)
Definition BroadcastOneToAll (contextRank contextSize : Z) (ptrs : list Z) (bytes rootRank rootPointerRank slot : Z)
    (senderDummy : Z → Z) (receiverDummy : Z) : outcome (list Endpoint) :=
  if rootRank <? 0 then Exn EnforceNotMet
  else if contextSize <=? rootRank then Exn EnforceNotMet
  else if rootPointerRank <? 0 then Exn EnforceNotMet
  else match ptrs !! Z.to_nat rootPointerRank with
       | None => Exn EnforceNotMet
       | Some ptr =>
           if 1 <? contextSize then
             if contextRank =? rootRank then
               Val ((λ i, (createSendBuffer i i slot (mkRegion ptr 0 bytes),
                           createRecvBuffer i i slot (mkRegion (senderDummy i) 0 4))) <$> others contextRank contextSize)
             else Val [(createSendBuffer rootRank rootRank slot (mkRegion receiverDummy 0 4),
                        createRecvBuffer rootRank rootRank slot (mkRegion ptr 0 bytes))]
           else Val []
       end.

Definition broadcastLocally (ptrs : list Z) (bytes rootPointerRank : Z) : list BAct :=
  let ptr i := nth (Z.to_nat i) ptrs 0 in
  (λ i, bcopy (mkRegion (ptr i) 0 bytes) (mkRegion (ptr rootPointerRank) 0 bytes)) <$> others rootPointerRank (lenZ ptrs).

(** [run]; [receiver_] is a null pointer for no process that is not the root. *)
Definition BroadcastOneToAll_run (contextRank contextSize : Z) (ptrs : list Z) (bytes rootRank rootPointerRank : Z)
    (buffers : list Endpoint) : list BAct :=
  if contextSize =? 1 then broadcastLocally ptrs bytes rootPointerRank
  else if contextRank =? rootRank then
    (buffers ≫= (λ b : Endpoint, buffer_waitRecv b.2 :: buffer_send_all b.1)) ++
    broadcastLocally ptrs bytes rootPointerRank ++
    ((λ b : Endpoint, buffer_waitSend b.1) <$> buffers)
  else
    match buffers with
    | b :: _ => buffer_send_all b.1 ++ [buffer_waitRecv b.2] ++ broadcastLocally ptrs bytes rootPointerRank
    | [] => [BStop None]
    end.

Lemma bind_only {A} (f : Z → list A) r l : NoDup l → r ∈ l → l ≫= (λ i, if i =? r then f i else []) = f r.
Proof.
  induction 1 as [|i l Hi Hnd IH]; [set_solver|]. cbn [mbind list_bind]. intros [->|Hr]%elem_of_cons.
  - rewrite Z.eqb_refl. rewrite (bind_ext_elem _ (λ _, [])).
    + assert (l ≫= (λ _, []) = ([] : list A)) as ->; [|by rewrite app_nil_r]. clear. induction l as [|x l IH]; [done|exact IH].
    + intros j Hj. destruct (Z.eqb_spec j i) as [->|]; done.
  - destruct (Z.eqb_spec i r) as [->|]; [done|]. by apply IH.
Qed.

Lemma bind_others {A} (f : Z → list A) r size : others r size ≫= f = seqZ 0 size ≫= (λ i, if i =? r then [] else f i).
Proof.
  unfold others. induction (seqZ 0 size) as [|i l IH]; [done|]. rewrite filter_cons. cbn [mbind list_bind].
  destruct (Z.eqb_spec i r) as [->|Hne]; [by rewrite decide_False by (intros []; done)|].
  rewrite decide_True by done. cbn [mbind list_bind]. by rewrite IH.
Qed.

Section one_to_all.
Context (size slot bytes root rootPtr : Z) (ptrs : Z → list Z) (senderDummy : Z → Z) (receiverDummy : Z) (mems : Z → Mem).
Context (Hroot : 0 ≤ root < size) (Hbytes : 0 ≤ bytes < 2 ^ 64).
Context (Hptrs : ∀ r, 0 ≤ r < size → 0 ≤ rootPtr < lenZ (ptrs r) ∧ NoDup (ptrs r) ∧
  ∀ b, b ∈ ptrs r → b ≠ receiverDummy ∧ ∀ i, b ≠ senderDummy i).
Context (Hdummy : ∀ i j, senderDummy i = senderDummy j → i = j).

Abbreviation ptr r := (nth (Z.to_nat rootPtr) (ptrs r) 0).
Abbreviation at_ b := (mkRegion b 0 bytes).

(** The endpoint of [r] for [i]. *)
Definition o2a_endpoint (r i : Z) : Endpoint :=
  if r =? root then (createSendBuffer i i slot (at_ (ptr r)), createRecvBuffer i i slot (mkRegion (senderDummy i) 0 4))
  else (createSendBuffer i i slot (mkRegion receiverDummy 0 4), createRecvBuffer i i slot (at_ (ptr r))).
Definition o2a_peers (r : Z) : list Z := if r =? root then others r size else [root].
Let E (r : Z) : list Endpoint := o2a_endpoint r <$> o2a_peers r.

Lemma o2a_constructed r : 0 ≤ r < size → 1 < size →
  BroadcastOneToAll r size (ptrs r) bytes root rootPtr slot senderDummy receiverDummy = Val (E r).
Proof.
  intros Hr Hs. destruct (Hptrs r Hr) as (Hp & _). unfold BroadcastOneToAll.
  rewrite (proj2 (Z.ltb_ge root 0)), (proj2 (Z.leb_gt size root)), (proj2 (Z.ltb_ge rootPtr 0)), (proj2 (Z.ltb_lt 1 size)) by lia.
  destruct (lookup_lt_is_Some_2 (ptrs r) (Z.to_nat rootPtr)) as [x Hx]; [unfold lenZ in Hp; lia|]. rewrite Hx.
  pose proof (nth_lookup_Some _ _ 0 _ Hx) as Hn. unfold E, o2a_peers, o2a_endpoint. rewrite Hn. by destruct (r =? root).
Qed.

Lemma o2a_endpoints : endpoints size E.
Proof.
  split.
  - intros r e _ (i & -> & _)%list_elem_of_fmap. unfold o2a_endpoint. by destruct (r =? root).
  - intros r Hr. unfold E. rewrite <-list_fmap_compose. apply NoDup_fmap_2.
    + intros i j. unfold compose, e_chan, bb_chan, o2a_endpoint. destruct (r =? root); cbn; by intros [= ->].
    + unfold o2a_peers. destruct (r =? root); [apply NoDup_others|apply NoDup_singleton].
  - intros p e Hp (i & -> & Hi)%list_elem_of_fmap. unfold o2a_peers in Hi. unfold o2a_endpoint. destruct (Z.eqb_spec p root) as [->|Hne].
    + apply elem_others in Hi as [Hi Hir]. cbn. split; [done|]. exists (o2a_endpoint i root). unfold E, o2a_peers, o2a_endpoint.
      destruct (Z.eqb_spec i root); [done|]. split; [set_solver|]. split; [done|]. split; [done|]. split; [done|]. cbn. lia.
    + apply list_elem_of_singleton in Hi as ->. cbn. split; [done|]. exists (o2a_endpoint root p). unfold E, o2a_peers, o2a_endpoint.
      rewrite Z.eqb_refl. split; [|split; [done|]; split; [done|]; split; [done|]; cbn; lia].
      apply list_elem_of_fmap. exists p. split; [done|]. by apply elem_others.
Qed.

(** The exchanges: process [i], if it is not the root, with the root in turn,
    the clear-to-send message and then the data. *)
Definition o2a_send (k : nat) (r : Z) : list Endpoint :=
  let i := Z.of_nat (Nat.div2 k) in
  if i =? root then []
  else if Nat.even k then (if i =? r then [o2a_endpoint r root] else [])
  else (if r =? root then [o2a_endpoint r i] else []).
Definition o2a_wait (k : nat) (r : Z) : list Endpoint :=
  let i := Z.of_nat (Nat.div2 k) in
  if i =? root then []
  else if Nat.even k then (if r =? root then [o2a_endpoint r i] else [])
  else (if i =? r then [o2a_endpoint r root] else []).


Lemma o2a_even i : 0 ≤ i → Nat.even (2 * Z.to_nat i) = true ∧ Nat.even (2 * Z.to_nat i + 1) = false ∧
  Z.of_nat (Nat.div2 (2 * Z.to_nat i)) = i ∧ Z.of_nat (Nat.div2 (2 * Z.to_nat i + 1)) = i.
Proof.
  intros Hi. rewrite Nat.add_1_r, Nat.even_succ, Nat.div2_double, Nat.div2_succ_double, <-Nat.negb_even, Nat.even_even. cbn [negb]. split_and!; lia || done.
Qed.

(** What a process does in the exchanges of [i]. *)
Lemma o2a_sends {A} (f : list Endpoint → list A) r : f [] = [] → 0 ≤ r < size →
  seq 0 (2 * Z.to_nat size) ≫= (λ k, f (o2a_send k r)) = o2a_peers r ≫= (λ i, f [o2a_endpoint r i]) ∧
  seq 0 (2 * Z.to_nat size) ≫= (λ k, f (o2a_wait k r)) = o2a_peers r ≫= (λ i, f [o2a_endpoint r i]).
Proof.
  intros Hf Hr. rewrite !bind_pairs. unfold o2a_peers. destruct (Z.eqb_spec r root) as [->|Hne].
  - rewrite !bind_others. split; apply bind_ext_elem; intros i Hi%elem_of_seqZ; destruct (o2a_even i ltac:(lia)) as (H1 & H2 & H3 & H4);
      unfold o2a_send, o2a_wait; rewrite H1, H2, H3, H4, Z.eqb_refl; destruct (Z.eqb_spec i root); rewrite ?Hf, ?app_nil_r; done.
  - cbn [mbind list_bind]. rewrite app_nil_r.
    split; (etrans; [|apply (bind_only (λ _, f [o2a_endpoint r root]) r (seqZ 0 size)); [apply NoDup_seqZ|by apply elem_of_seqZ]]);
      apply bind_ext_elem; intros i Hi%elem_of_seqZ; destruct (o2a_even i ltac:(lia)) as (H1 & H2 & H3 & H4);
      unfold o2a_send, o2a_wait; rewrite H1, H2, H3, H4, (proj2 (Z.eqb_neq r root)) by done;
      destruct (Z.eqb_spec i root), (Z.eqb_spec i r); subst; rewrite ?Hf, ?app_nil_r; done.
Qed.

Let fin (r : Z) : list BAct :=
  broadcastLocally (ptrs r) bytes rootPtr ++ (if r =? root then (λ b : Endpoint, buffer_waitSend b.1) <$> E r else []).
Let run (r : Z) : list BAct := BroadcastOneToAll_run r size (ptrs r) bytes root rootPtr (E r).

Lemma o2a_small_group r : 0 ≤ r < size → size = 1 → r = root ∧ E r = [].
Proof. intros Hr Hs. assert (r = root) as -> by lia. split; [done|]. unfold E, o2a_peers. rewrite Z.eqb_refl. assert (root = 0) as -> by lia. by rewrite Hs. Qed.

Lemma o2a_all r : 0 ≤ r < size →
  E r = seq 0 (2 * Z.to_nat size) ≫= (λ k, o2a_send k r) ∧ E r = seq 0 (2 * Z.to_nat size) ≫= (λ k, o2a_wait k r).
Proof.
  intros Hr. destruct (o2a_sends (λ l, l) r eq_refl Hr) as [Hs Hw]. rewrite bind_one in Hs, Hw. by rewrite Hs, Hw.
Qed.

Lemma o2a_run r : 0 ≤ r < size → run r = (seq 0 (2 * Z.to_nat size) ≫= (λ k, sends_on (o2a_send k r) ++ waits_on (o2a_wait k r))) ++ fin r.
Proof.
  intros Hr. assert (seq 0 (2 * Z.to_nat size) ≫= (λ k, sends_on (o2a_send k r) ++ waits_on (o2a_wait k r)) =
    o2a_peers r ≫= (λ i, if r =? root then waits_on [o2a_endpoint r i] ++ sends_on [o2a_endpoint r i]
      else sends_on [o2a_endpoint r i] ++ waits_on [o2a_endpoint r i])) as ->.
  { rewrite bind_pairs. unfold o2a_peers. destruct (Z.eqb_spec r root) as [->|Hne].
    - rewrite bind_others. apply bind_ext_elem; intros i Hi%elem_of_seqZ; destruct (o2a_even i ltac:(lia)) as (H1 & H2 & H3 & H4).
      unfold o2a_send, o2a_wait. rewrite H1, H2, H3, H4, Z.eqb_refl. destruct (Z.eqb_spec i root) as [->|Hi']; [done|].
      change (waits_on []) with (@nil BAct). by rewrite app_nil_r.
    - cbn [mbind list_bind]. rewrite app_nil_r.
      etrans; [|apply (bind_only (λ _, sends_on [o2a_endpoint r root] ++ waits_on [o2a_endpoint r root]) r (seqZ 0 size)); [apply NoDup_seqZ|by apply elem_of_seqZ]].
      apply bind_ext_elem; intros i Hi%elem_of_seqZ; destruct (o2a_even i ltac:(lia)) as (H1 & H2 & H3 & H4).
      unfold o2a_send, o2a_wait. rewrite H1, H2, H3, H4, (proj2 (Z.eqb_neq r root)) by done.
      change (waits_on []) with (@nil BAct). destruct (Z.eqb_spec i root), (Z.eqb_spec i r); subst; rewrite ?app_nil_r; done. }
  unfold run, BroadcastOneToAll_run, fin. destruct (Z.eqb_spec size 1) as [Hs|Hs].
  - destruct (o2a_small_group r Hr Hs) as [-> HE]. rewrite HE, Z.eqb_refl. cbn [fmap list_fmap]. rewrite app_nil_r.
    assert (o2a_peers root = []) as ->; [|done]. unfold E in HE. by apply fmap_nil_inv in HE.
  - unfold E, o2a_peers. destruct (Z.eqb_spec r root) as [->|Hne].
    + f_equal. rewrite list_fmap_bind. apply bind_ext_all. intros i. unfold compose, sends_on, waits_on. cbn. by rewrite app_nil_r.
    + cbn [fmap list_fmap mbind list_bind]. unfold sends_on, waits_on. cbn. by rewrite !app_nil_r, <-!(assoc_L (++)).
Qed.

(** The local copies. *)
Let locals_of (r : Z) : list Z := (λ i, nth (Z.to_nat i) (ptrs r) 0) <$> others rootPtr (lenZ (ptrs r)).

Lemma o2a_local r : net_prog (Do <$> broadcastLocally (ptrs r) bytes rootPtr) = broadcastOutputs (ptr r :: locals_of r) 0 bytes.
Proof. unfold broadcastLocally, locals_of, broadcastOutputs, net_prog. by rewrite <-!list_fmap_compose. Qed.

Lemma o2a_locals r b : 0 ≤ r < size → b ∈ ptrs r ↔ b = ptr r ∨ b ∈ locals_of r.
Proof.
  intros Hr. destruct (Hptrs r Hr) as (Hp & _). unfold locals_of, lenZ in *. rewrite list_elem_of_fmap. split.
  - intros [i Hi]%list_elem_of_lookup. destruct (decide (i = Z.to_nat rootPtr)) as [->|Hne].
    + left. by rewrite (nth_lookup_Some _ _ 0 _ Hi).
    + right. exists (Z.of_nat i). rewrite Nat2Z.id, (nth_lookup_Some _ _ 0 _ Hi). split; [done|]. apply elem_others.
      apply lookup_lt_Some in Hi. lia.
  - intros [->|(i & -> & [Hi _]%elem_others)]; apply list_elem_of_In, nth_In; lia.
Qed.

Lemma o2a_ptr_fresh r : 0 ≤ r < size → ptr r ∉ locals_of r.
Proof.
  intros Hr. destruct (Hptrs r Hr) as (Hp & Hnd & _). unfold locals_of, lenZ in *. intros (i & Heq & [Hi Hne]%elem_others)%list_elem_of_fmap.
  rewrite NoDup_ListNoDup, (List.NoDup_nth _ 0) in Hnd. apply Hnd in Heq; lia.
Qed.

Definition o2a_src (q : Z) (e : Endpoint) : Region := if q =? root then mkRegion receiverDummy 0 4 else at_ (ptr root).

Lemma o2a_st k p e : e ∈ o2a_send k p →
  ∃ e', e' ∈ o2a_wait k (bb_peer e.1) ∧ other_end p e e' ∧ o2a_src (bb_peer e.1) e' = bb_reg e.1.
Proof.
  unfold o2a_send, o2a_wait, o2a_src. destruct (Z.eqb_spec (Z.of_nat (Nat.div2 k)) root) as [|Hi]; [set_solver|]. destruct (Nat.even k).
  - destruct (Z.eqb_spec (Z.of_nat (Nat.div2 k)) p) as [<-|]; [|set_solver]. intros ->%list_elem_of_singleton. unfold o2a_endpoint.
    rewrite (proj2 (Z.eqb_neq _ _) Hi). cbn. rewrite !Z.eqb_refl. eexists. split; [apply list_elem_of_here|].
    split; [|done]. split; [done|]. split; [done|]. split; [done|]. cbn. lia.
  - destruct (Z.eqb_spec p root) as [->|]; [|set_solver]. intros ->%list_elem_of_singleton. unfold o2a_endpoint.
    rewrite Z.eqb_refl. cbn. rewrite Z.eqb_refl, !(proj2 (Z.eqb_neq _ _) Hi). eexists. split; [apply list_elem_of_here|].
    split; [|done]. split; [done|]. split; [done|]. split; [done|]. cbn. lia.
Qed.

Lemma o2a_ts k q e' : e' ∈ o2a_wait k q → ∃ e, e ∈ o2a_send k (bb_peer e'.1) ∧ bb_peer e.1 = q ∧ bb_slot e.1 = bb_slot e'.1.
Proof.
  unfold o2a_send, o2a_wait. destruct (Z.eqb_spec (Z.of_nat (Nat.div2 k)) root) as [|Hi]; [set_solver|]. destruct (Nat.even k).
  - destruct (Z.eqb_spec q root) as [->|]; [|set_solver]. intros ->%list_elem_of_singleton. unfold o2a_endpoint. rewrite Z.eqb_refl. cbn.
    rewrite Z.eqb_refl, (proj2 (Z.eqb_neq _ _) Hi). eexists. split; [apply list_elem_of_here|]. done.
  - destruct (Z.eqb_spec (Z.of_nat (Nat.div2 k)) q) as [<-|]; [|set_solver]. intros ->%list_elem_of_singleton. unfold o2a_endpoint.
    rewrite (proj2 (Z.eqb_neq _ _) Hi). cbn. rewrite Z.eqb_refl. eexists. split; [apply list_elem_of_here|]. done.
Qed.

Lemma o2a_apart r e e' : 0 ≤ r < size → e ∈ E r → e' ∈ E r → apart (bb_reg e'.2) (bb_reg e.1).
Proof.
  intros Hr (i & -> & Hi)%list_elem_of_fmap (j & -> & Hj)%list_elem_of_fmap. destruct (Hptrs r Hr) as (_ & _ & Hd).
  destruct (Hd (ptr r)) as [H1 H2]; [apply (o2a_locals r _ Hr); by left|]. unfold o2a_endpoint. apply apart_buf.
  destruct (r =? root); cbn; [intros Heq; by apply (H2 j)|done].
Qed.

Let K : nat := (2 * Z.to_nat size)%nat.
Definition o2a_mem (r : Z) : Mem := mem_after (arrived o2a_wait o2a_src mems K r) (broadcastOutputs (ptr r :: locals_of r) 0 bytes).

Lemma o2a_fin r : 0 ≤ r < size → ∃ cs cr,
  reaches (net_prog (Do <$> fin r)) (arrived o2a_wait o2a_src mems K r)
    (bumps ((λ e : Endpoint, xfer_of e.1) <$> (seq 0 K ≫= (λ j, o2a_send j r))) (λ _, O)) (λ _, O) [] (o2a_mem r) cs cr.
Proof.
  intros Hr. unfold fin. rewrite fmap_app, net_prog_app, o2a_local.
  destruct (o2a_all r Hr) as [Hs _].
  destruct (Z.eqb_spec r root) as [->|Hne].
  - exists (λ _, O), (λ _, O). eapply reaches_trans; [apply reaches_computes, broadcastOutputs_computes|].
    assert (net_prog (Do <$> ((λ b : Endpoint, buffer_waitSend b.1) <$> E root)) = ((λ e : Endpoint, WaitSend (bb_id e.1)) <$> E root) ++ []) as ->.
    { unfold net_prog. rewrite <-!list_fmap_compose. by rewrite app_nil_r. }
    apply reaches_waits; [by apply waits_map|..]; intros b; destruct (waits_send_endpoints b (E root)) as [H1 H2]; [|by rewrite H2].
    rewrite H1. unfold K. rewrite <-Hs, bumps_count. done.
  - eexists _, _. apply reaches_computes, broadcastOutputs_computes.
Qed.

Lemma o2a_gputs r : 0 ≤ r < size → gputs (Do <$> run r) = once_puts (E r).
Proof.
  intros Hr. rewrite o2a_run by done. apply (exchanges_gputs size E K o2a_send o2a_wait fin o2a_endpoints); [| |done].
  - intros r' Hr'. by apply o2a_all.
  - intros r' _. unfold fin, broadcastLocally. rewrite fmap_app, gputs_app. generalize (others rootPtr (lenZ (ptrs r'))). intros l.
    assert (∀ l : list Endpoint, gputs (Do <$> ((λ b : Endpoint, buffer_waitSend b.1) <$> l)) = []) as Hw by (intros l'; induction l' as [|e l' IH]; [done|exact IH]).
    induction l as [|i l IH]; [destruct (r' =? root); [apply Hw|done]|exact IH].
Qed.

Lemma o2a_clean_root : clean hist0 (net_prog (once_prog (E root) (run root))).
Proof.
  assert (dsts_of (net_prog (once_prog (E root) (run root))) = (λ b, at_ b) <$> locals_of root ∧
    srcs_of (net_prog (once_prog (E root) (run root))) = (λ _, at_ (ptr root)) <$> locals_of root) as [Hd Hs].
  { rewrite o2a_run by done. destruct (once_dsts (E root) _ (fin root) (exchanges_no_compute (2 * Z.to_nat size) o2a_send o2a_wait root)) as [H1 H2].
    rewrite H1, H2. unfold fin. rewrite fmap_app, net_prog_app, o2a_local, Z.eqb_refl, dsts_of_app.
    assert (∀ l k, srcs_of (l ++ k) = srcs_of l ++ srcs_of k) as Happ by (intros; apply bind_app). rewrite Happ.
    assert (∀ l : list Endpoint, no_compute ((λ b : Endpoint, buffer_waitSend b.1) <$> l)) as Hw by (intros l; by apply Forall_fmap, Forall_forall).
    destruct (no_compute_dsts _ (Hw (E root))) as [-> ->]. rewrite !app_nil_r. cbn [broadcastOutputs].
    split; (induction (locals_of root) as [|b l IH]; [done|cbn; f_equal; exact IH]). }
  eapply (clean_posts0 _ _ _ _ _ eq_refl eq_refl Hd Hs); rewrite ?recvs_posts, ?sends_puts; unfold once_prog;
    rewrite ?gposts_app, ?gputs_app, ?gposts_do, ?gposts_posts, ?gputs_posts, ?o2a_gputs, ?app_nil_r by done.
  - apply regions_apart_map; [eapply NoDup_fmap_1, (ep_nodup _ _ o2a_endpoints root Hroot)|].
    intros e e' (i & -> & _)%list_elem_of_fmap (j & -> & _)%list_elem_of_fmap Hne. unfold o2a_endpoint, compose in *. rewrite Z.eqb_refl in *.
    apply apart_buf. cbn. intros Heq. apply Hne. by rewrite (Hdummy _ _ Heq).
  - intros x y. cbn [app]. unfold once_puts. rewrite <-list_fmap_compose.
    intros (e & -> & He)%list_elem_of_fmap (e' & -> & He')%list_elem_of_fmap. apply apart_sym. by apply (o2a_apart root e e').
  - intros d x (b & -> & Hb)%list_elem_of_fmap. cbn [app]. unfold once_puts. rewrite <-list_fmap_compose.
    intros (e & -> & (i & -> & _)%list_elem_of_fmap)%list_elem_of_fmap. unfold o2a_endpoint, compose. rewrite Z.eqb_refl.
    apply apart_buf. cbn. intros Heq. apply (o2a_ptr_fresh root Hroot). by rewrite Heq.
  - intros reg x Hreg (e & -> & (i & -> & _)%list_elem_of_fmap)%list_elem_of_fmap. unfold o2a_endpoint, compose. rewrite Z.eqb_refl.
    destruct (Hptrs root Hroot) as (_ & _ & Hd').
    assert (∃ b, b ∈ ptrs root ∧ reg = at_ b) as (b & Hb & ->).
    { apply elem_of_app in Hreg as [(b & -> & Hb)%list_elem_of_fmap|(b & -> & Hb)%list_elem_of_fmap].
      - exists b. split; [|done]. apply (o2a_locals root b Hroot). by right.
      - exists (ptr root). split; [|done]. apply (o2a_locals root _ Hroot). by left. }
    apply apart_buf. cbn. intros Heq. by apply (proj2 (Hd' b Hb) i).
Qed.

Lemma o2a_clean_other r : 0 ≤ r < size → r ≠ root → clean hist0 (net_prog (once_prog (E r) (run r))).
Proof.
  intros Hr Hne. destruct (Hptrs r Hr) as (_ & _ & Hd). set (e := o2a_endpoint r root).
  assert (net_prog (once_prog (E r) (run r)) = Recv (xfer_of e.2) :: Send (xfer_of e.1) :: WaitRecv root :: broadcastOutputs (ptr r :: locals_of r) 0 bytes) as ->.
  { rewrite <-o2a_local. unfold run, BroadcastOneToAll_run, E, o2a_peers. rewrite (proj2 (Z.eqb_neq size 1)), (proj2 (Z.eqb_neq r root)) by lia.
    cbn [fmap list_fmap]. fold e. rewrite buffer_send_whole; [|unfold e, o2a_endpoint; rewrite (proj2 (Z.eqb_neq r root)) by done; cbn; lia].
    unfold once_prog. cbn. unfold e, o2a_endpoint. by rewrite (proj2 (Z.eqb_neq r root)). }
  destruct (computes_lists _ (broadcastOutputs_computes 0 bytes (ptr r :: locals_of r))) as (_ & Hs & Hv & _).
  apply fifo_clean0.
  - change (one_channel (xfer_of e.1 :: sends_of (broadcastOutputs (ptr r :: locals_of r) 0 bytes))). rewrite Hs.
    by intros x y ->%list_elem_of_singleton ->%list_elem_of_singleton.
  - change (one_channel (xfer_of e.2 :: recvs_of (broadcastOutputs (ptr r :: locals_of r) 0 bytes))). rewrite Hv.
    by intros x y ->%list_elem_of_singleton ->%list_elem_of_singleton.
  - assert (e ∈ E r) as He by (unfold E, o2a_peers; rewrite (proj2 (Z.eqb_neq r root)) by done; set_solver).
    cbn [fifo app]. split; [split; constructor|]. split; [repeat constructor; by apply (o2a_apart r e e)|].
    rewrite retire_head by (unfold e, o2a_endpoint; by rewrite (proj2 (Z.eqb_neq r root))).
    rewrite <-(app_nil_r (broadcastOutputs _ _ _)). apply (fifo_quiet [bb_reg e.1] []).
    + apply broadcastOutputs_quiet; [|constructor]. intros b Hb. repeat constructor. unfold e, o2a_endpoint.
      rewrite (proj2 (Z.eqb_neq r root)) by done. apply apart_buf. cbn. intros Heq.
      destruct (Hd b) as [H1 _]; [|congruence]. apply (o2a_locals r b Hr). by right.
    + intros x ->%list_elem_of_singleton. set_solver.
    + by intros x ?%not_elem_of_nil.
    + done.
Qed.

Lemma one_to_all_computes : bcomputes (λ r, (E r).*2) (group size run) mems (λ mems', ∀ r, 0 ≤ r < size → mems' r = o2a_mem r).
Proof.
  assert (group size run = group size (exchanges K o2a_send o2a_wait fin)) as -> by (apply group_ext; intros r Hr; by apply o2a_run).
  apply (exchanges_computes size _ E K o2a_send o2a_wait fin o2a_src).
  - done.
  - exact o2a_endpoints.
  - intros r Hr. by apply o2a_all.
  - intros r Hr. by apply o2a_all.
  - intros r Hr. pose proof (o2a_gputs r Hr) as Hg. rewrite o2a_run, fmap_app, gputs_app in Hg by done.
    unfold fin, broadcastLocally. rewrite fmap_app, gputs_app. generalize (others rootPtr (lenZ (ptrs r))). intros l.
    assert (∀ l : list Endpoint, gputs (Do <$> ((λ b : Endpoint, buffer_waitSend b.1) <$> l)) = []) as Hw by (intros l'; induction l' as [|e l' IH]; [done|exact IH]).
    induction l as [|i l IH]; [destruct (r =? root); [apply Hw|done]|exact IH].
  - intros k p e _ _. apply o2a_st.
  - intros k q e _ _. apply o2a_ts.
  - exact o2a_apart.
  - exact o2a_fin.
  - intros r Hr. assert (exchanges K o2a_send o2a_wait fin r = run r) as -> by (symmetry; by apply o2a_run).
    destruct (decide (r = root)) as [->|Hne]; [apply o2a_clean_root|by apply o2a_clean_other].
Qed.

(** What the processes end with. *)
Lemma o2a_result r : 0 ≤ r < size →
  (∀ b, b ∈ ptrs r → read (o2a_mem r) (at_ b) = read (mems root) (at_ (ptr root))) ∧
  ∀ reg, rg_buf reg ∉ ptrs r → (∀ i, rg_buf reg ≠ senderDummy i) → read (o2a_mem r) reg = read (mems r) reg.
Proof.
  intros Hr. unfold o2a_mem. destruct (broadcastOutputs_effect 0 bytes (proj1 Hbytes) (ptr r) (locals_of r) (arrived o2a_wait o2a_src mems K r) (o2a_ptr_fresh r Hr)) as [H1 H2].
  destruct (o2a_all r Hr) as [_ Hw].
  assert (∀ reg, (∀ e, e ∈ E r → apart (bb_reg e.2) reg) → read (arrived o2a_wait o2a_src mems K r) reg = read (mems r) reg) as Hout.
  { intros reg Hreg. unfold arrived, K. cbv zeta. rewrite <-Hw. apply receives_out. intros x (e & -> & He)%list_elem_of_fmap. by apply Hreg. }
  destruct (Hptrs r Hr) as (_ & _ & Hd). assert (ptr r ∈ ptrs r) as Hpin by (apply (o2a_locals r _ Hr); by left). split.
  - assert (read (arrived o2a_wait o2a_src mems K r) (at_ (ptr r)) = read (mems root) (at_ (ptr root))) as Hptr.
    { destruct (Z.eqb_spec r root) as [->|Hne].
      - apply Hout. intros e (i & -> & _)%list_elem_of_fmap. unfold o2a_endpoint. rewrite Z.eqb_refl. apply apart_buf. cbn.
        intros Heq. by apply (proj2 (Hd (ptr root) Hpin) i).
      - unfold arrived, K. cbv zeta. rewrite <-Hw. unfold E, o2a_peers. rewrite (proj2 (Z.eqb_neq r root)) by done. cbn [fmap list_fmap receives].
        unfold receive, compose, o2a_endpoint. rewrite (proj2 (Z.eqb_neq r root)) by done. cbn. unfold got_data, o2a_src. cbn.
        rewrite (proj2 (Z.eqb_neq r root)) by done. apply read_write_same. cbn. apply read_length. cbn. lia. }
    intros b [->|Hb]%(o2a_locals r b Hr); [|by rewrite H1]. rewrite H2; [done|]. intros b Hb. apply apart_buf. cbn. intros Heq.
    apply (o2a_ptr_fresh r Hr). by rewrite <-Heq.
  - intros reg Hreg Hdum. rewrite H2.
    + apply Hout. intros e (i & -> & _)%list_elem_of_fmap. unfold o2a_endpoint. apply apart_buf. destruct (r =? root); cbn; [congruence|].
      intros Heq. apply Hreg. by rewrite <-Heq.
    + intros b Hb. apply apart_buf. cbn. intros Heq. apply Hreg. rewrite <-Heq. apply (o2a_locals r b Hr). by right.
Qed.
(* ------------------------------------------------------------------ *)
(** ** Nothing arrives at a process that has not begun *)

(** Before every message to [q] stands a wait for [q]. *)
Definition asks_first (p : list GAct) : Prop := ∀ A y ro Q, p = A ++ Do (BPut y ro) :: Q → (1 ≤ gwaits (x_peer y) A)%nat.
Lemma asks_quiet p : gputs p = [] → asks_first p.
Proof.
  intros Hp A y ro Q ->. change (Do (BPut y ro) :: Q) with ([Do (BPut y ro)] ++ Q) in Hp. rewrite !gputs_app in Hp.
  by apply app_nil in Hp as [_ [? _]%app_nil].
Qed.
Lemma asks_posts xs p : asks_first p → asks_first ((Post <$> xs) ++ p).
Proof.
  intros Hp. induction xs as [|x xs IH]; [done|]. intros [|a A] y ro Q; intros [= <- H].
  change (Post x :: A) with ([Post x] ++ A). rewrite gwaits_app. by apply (IH _ _ _ _ H).
Qed.
Lemma asks_one x p : asks_first p → asks_first (Do (BWaitRecv (x_peer x)) :: Do (BPut x 0) :: p).
Proof.
  intros Hp A y ro Q. destruct A as [|a [|a' A]]; [done|intros [= <- -> _ _]|intros [= <- <- H]].
  - unfold gwaits. cbn. by rewrite decide_True.
  - specialize (Hp _ _ _ _ H). change (?b :: ?c :: A) with ([b; c] ++ A). rewrite gwaits_app. lia.
Qed.

Lemma o2a_asks : asks_first (once_prog (E root) (run root)).
Proof.
  apply asks_posts. unfold run, BroadcastOneToAll_run. destruct (Z.eqb_spec size 1) as [Hs|Hs].
  { apply asks_quiet. unfold broadcastLocally. by induction (others _ _). }
  rewrite Z.eqb_refl, fmap_app. unfold E, o2a_peers. rewrite Z.eqb_refl, list_fmap_bind.
  assert (gputs (Do <$> broadcastLocally (ptrs root) bytes rootPtr ++
    ((λ b : Endpoint, buffer_waitSend b.1) <$> (o2a_endpoint root <$> others root size))) = []) as Hq.
  { rewrite fmap_app, gputs_app. unfold broadcastLocally. generalize (others rootPtr (lenZ (ptrs root))) (others root size). intros l k.
    assert (gputs (Do <$> ((λ b : Endpoint, buffer_waitSend b.1) <$> (o2a_endpoint root <$> k))) = []) as -> by (by induction k).
    rewrite app_nil_r. by induction l. }
  revert Hq. generalize (Do <$> broadcastLocally (ptrs root) bytes rootPtr ++
    ((λ b : Endpoint, buffer_waitSend b.1) <$> (o2a_endpoint root <$> others root size))).
  intros t Ht. induction (others root size) as [|i l IH]; [by apply asks_quiet|]. cbn [mbind list_bind]. unfold compose at 1.
  unfold o2a_endpoint at 1 2. rewrite Z.eqb_refl, buffer_send_whole by (cbn; lia). rewrite fmap_app, <-(assoc_L (++)).
  exact (asks_one (mkXferOf i slot (at_ (ptr root)) i) _ IH).
Qed.

Let G : Z → list GAct := group size (λ r, once_prog (E r) (run r)).

Lemma o2a_causal s : rtc (bnet_step (λ r, (E r).*2)) (bnet_init (group size run) mems) s →
  ∃ A, (∀ r, ∃ Q, G r = A r ++ Q ∧ br_prog (bn_rk s r) = code Q) ∧
    (∀ q, 0 ≤ q < size → (gwaits q (A root) ≤ length (puts (root, slot) (A q)))%nat) ∧
    ∀ p q sl, bn_ch s (p, q, sl) ≠ [] → puts (q, sl) (A p) ≠ [].
Proof.
  intros Hs. assert (group size run = λ r, code (G r)) as Hrun.
  { extensionality r. unfold G, group. case_decide; [by rewrite code_once|done]. }
  rewrite Hrun in Hs.
  assert (agree (λ r, (E r).*2) G) as Hag by (apply once_agree; [done|apply o2a_endpoints|apply o2a_gputs]).
  assert (in_time G) as Hti.
  { apply credit_in_time. intros p q sl. apply (once_credit size (λ r, (E r).*2) E run); [done|apply o2a_endpoints|apply o2a_gputs]. }
  assert (∀ r, clean hist0 (net_prog (G r))) as Hc.
  { intros r. unfold G, group. case_decide as Hr; [|done]. destruct (decide (r = root)) as [->|Hne]; [apply o2a_clean_root|by apply o2a_clean_other]. }
  destruct (bound_causal _ G Hag Hti mems s Hc Hs) as (A & HA & Hk & Hch). exists A. split; [done|]. split; [|done].
  intros q Hq. apply Hk. unfold G. rewrite group_some by done. unfold once_prog. rewrite gposts_app, gposts_do, gposts_posts, app_nil_r.
  intros y (e & -> & (i & -> & Hi)%list_elem_of_fmap)%list_elem_of_fmap. unfold compose, o2a_endpoint. rewrite Z.eqb_refl. cbn.
  split; [by intros ->|by intros [= ->]].
Qed.

(** Data on the way to a process was asked for by it. *)
Lemma o2a_arriving s r p sl : rtc (bnet_step (λ r, (E r).*2)) (bnet_init (group size run) mems) s →
  0 ≤ r < size → r ≠ root → bn_ch s (p, r, sl) ≠ [] → b_entered run s r.
Proof.
  intros Hs Hr Hne Hch. destruct (o2a_causal s Hs) as (A & HA & Hk & Hsent). apply Hsent in Hch.
  destruct (HA r) as (Q & HQ & HQp). unfold G in HQ. rewrite group_some in HQ by done. eapply (put_entered r run s (E r) (A r) Q (root, slot) HQ HQp).
  etrans; [|by apply Hk]. destruct (HA p) as (Qp & HQ' & _).
  assert (puts (r, sl) (G p) ≠ []) as Hp by (rewrite HQ', puts_app; by destruct (puts (r, sl) (A p))).
  destruct (puts_group size _ p (r, sl) Hp) as [Hpr HGp]. unfold G in HQ'. rewrite group_some in HQ' by done.
  destruct (puts (r, sl) (A p)) as [|y l] eqn:Hy; [done|].
  destruct (puts_split (r, sl) (A p) 0 y) as (A1 & A2 & HA1 & _ & [= Hyp _]); [by rewrite Hy|].
  assert (p = root) as ->.
  { unfold G in Hp. rewrite group_some in Hp by done. unfold puts, once_prog in Hp. rewrite gputs_app, gputs_posts, o2a_gputs in Hp by done.
    destruct (decide (p = root)) as [|Hpn]; [done|]. exfalso. apply Hp. unfold E, o2a_peers, o2a_endpoint.
    rewrite (proj2 (Z.eqb_neq p root)) by done. unfold once_puts. cbn [app fmap list_fmap]. rewrite chan_one. cbn. rewrite decide_False; [done|congruence]. }
  pose proof (o2a_asks A1 y.1 y.2 (A2 ++ Qp)) as Hask. rewrite HQ', HA1, <-(assoc_L (++)) in Hask. specialize (Hask eq_refl).
  rewrite Hyp in Hask. rewrite HA1, gwaits_app. lia.
Qed.

Lemma o2a_untouched s r : rtc (bnet_step (λ r, (E r).*2)) (bnet_init (group size run) mems) s →
  0 ≤ r < size → r ≠ root → br_prog (bn_rk s r) = run r → br_mem (bn_rk s r) = mems r.
Proof.
  intros Hs Hr Hne. revert s Hs. refine (rtc_ind_r _ _ (λ _, eq_refl) _). intros s s' Hs [l Hl] IH Hrun.
  assert (length (br_prog (bn_rk s r)) ≤ length (run r))%nat as Hlen.
  { destruct (o2a_causal s Hs) as (A & HA & _). destruct (HA r) as (Q & HQ & ->). apply (f_equal code) in HQ. unfold G in HQ.
    rewrite group_some, code_once, code_app in HQ by done. rewrite HQ, length_app. lia. }
  destruct (bexec_process _ _ _ _ r Hl) as [[Hp [->|(p & sl & Hch)]]|(a & Ha)].
  - apply IH. congruence.
  - exfalso. apply (o2a_arriving s r p sl Hs Hr Hne Hch). congruence.
  - rewrite Ha, Hrun in Hlen. cbn in Hlen. lia.
Qed.
End one_to_all.

(** C28: one-to-all broadcast over bound buffers. The constructors succeed, and
    every process runs to its end with all its buffers holding what the chosen
    buffer of the root held, no other memory having changed but what receives
    the clear-to-send messages. And the root waits for a process to be ready:
    in every reachable state the memory of a process other than the root that
    has not begun to run is as it was. *)
Theorem BroadcastOneToAll_correct size slot bytes root rootPtr (ptrs : Z → list Z) (senderDummy : Z → Z) receiverDummy (mems : Z → Mem) :
  0 ≤ root < size → 0 ≤ bytes < 2 ^ 64 →
  (∀ r, 0 ≤ r < size → 0 ≤ rootPtr < lenZ (ptrs r) ∧ NoDup (ptrs r) ∧ ∀ b, b ∈ ptrs r → b ≠ receiverDummy ∧ ∀ i, b ≠ senderDummy i) →
  (∀ i j, senderDummy i = senderDummy j → i = j) →
  ∃ buffers : Z → list Endpoint,
    (∀ r, 0 ≤ r < size → BroadcastOneToAll r size (ptrs r) bytes root rootPtr slot senderDummy receiverDummy = Val (buffers r)) ∧
    let run r := BroadcastOneToAll_run r size (ptrs r) bytes root rootPtr (buffers r) in
    bcomputes (λ r, (buffers r).*2) (group size run) mems
      (λ mems', ∀ r, 0 ≤ r < size →
        (∀ b, b ∈ ptrs r → read (mems' r) (mkRegion b 0 bytes) = read (mems root) (mkRegion (nth (Z.to_nat rootPtr) (ptrs root) 0) 0 bytes)) ∧
        ∀ reg, rg_buf reg ∉ ptrs r → (∀ i, rg_buf reg ≠ senderDummy i) → read (mems' r) reg = read (mems r) reg) ∧
    ∀ s r, rtc (bnet_step (λ r, (buffers r).*2)) (bnet_init (group size run) mems) s →
      0 ≤ r < size → r ≠ root → br_prog (bn_rk s r) = run r → br_mem (bn_rk s r) = mems r.
Proof.
  intros Hroot Hbytes Hptrs Hdummy.
  exists (λ r, o2a_endpoint slot bytes root rootPtr ptrs senderDummy receiverDummy r <$> o2a_peers size root r). split; [|split].
  - intros r Hr. destruct (decide (1 < size)) as [Hs|Hs]; [by apply (o2a_constructed size slot bytes root rootPtr ptrs)|].
    assert (r = 0 ∧ root = 0 ∧ size = 1) as (-> & -> & ->) by lia. destruct (Hptrs 0 ltac:(lia)) as (Hp & _).
    unfold BroadcastOneToAll. cbn [Z.ltb Z.leb Z.compare Pos.compare]. rewrite (proj2 (Z.ltb_ge rootPtr 0)) by lia.
    destruct (lookup_lt_is_Some_2 (ptrs 0) (Z.to_nat rootPtr)) as [x ->]; [unfold lenZ in Hp; lia|done].
  - eapply bcomputes_weaken; [by apply (one_to_all_computes size slot bytes root rootPtr ptrs)|].
    intros mems' H r Hr. rewrite H by done. by apply o2a_result.
  - intros s r Hs Hr Hne Hrun. by apply (o2a_untouched size slot bytes root rootPtr ptrs senderDummy receiverDummy).
Qed.

(** Three processes with two buffers each, the root being process 1. *)
Lemma BroadcastOneToAll_correct_witness :
  (∀ r, 0 ≤ r < 3 → 0 ≤ 1 < lenZ [2; 4] ∧ NoDup [2; 4] ∧ ∀ b, b ∈ [2; 4] → b ≠ 6 ∧ ∀ i, b ≠ 2 * i + 1) ∧
  ∃ buffers : Z → list Endpoint,
    ∀ r, 0 ≤ r < 3 → BroadcastOneToAll r 3 [2; 4] 100 1 1 7 (λ i, 2 * i + 1) 6 = Val (buffers r).
Proof.
  assert (∀ r, 0 ≤ r < 3 → 0 ≤ 1 < lenZ [2; 4] ∧ NoDup [2; 4] ∧ ∀ b, b ∈ [2; 4] → b ≠ 6 ∧ ∀ i, b ≠ 2 * i + 1) as Hp.
  { intros r _. split; [done|]. split; [apply (bool_decide_unpack _); by vm_compute|].
    intros b Hb. assert (b = 2 ∨ b = 4) as [-> | ->] by set_solver; split; lia. }
  split; [exact Hp|].
  destruct (BroadcastOneToAll_correct 3 7 100 1 1 (λ _, [2; 4]) (λ i, 2 * i + 1) 6 demo_mems) as (buffers & H & _);
    [lia|split; [lia|by vm_compute]|exact Hp|intros i j Hij; cbv beta in Hij; lia|by exists buffers].
Defined.
