(* ===== verification/BoundRing.v ===== *)
(** Rings over bound buffers: in every round a process sends to its right,
    receives from its left, tells its left that it has taken the data, and
    waits to be told so by its right. *)
From Stdlib Require Import FunctionalExtensionality.
From S2P Require Import Prelude Net NetRun Groups Rounds BoundNet BoundAlias BoundRounds Once.

(** The buffers of such an algorithm: data to the right and from the left,
    notifications to the left and from the right. The notifications are sent
    from and received into one integer, [dummy_]. *)
Record RingBuffers := mkRingBuffers {
  sendDataBuf_ : BBuf; recvDataBuf_ : BBuf; sendNotificationBuf_ : BBuf; recvNotificationBuf_ : BBuf }.
Definition ring_buffers (contextRank contextSize slot notificationSlot : Z) (outbox inbox : Region) (dummy_ : Z) : RingBuffers :=
  let left := (contextSize + contextRank - 1) `mod` contextSize in
  let right := (contextRank + 1) `mod` contextSize in
  mkRingBuffers (createSendBuffer 0 right slot outbox) (createRecvBuffer 0 left slot inbox)
    (createSendBuffer 1 left notificationSlot (mkRegion dummy_ 0 4)) (createRecvBuffer 1 right notificationSlot (mkRegion dummy_ 0 4)).
(** The registered ones. *)
Definition ring_receivers (b : RingBuffers) : list BBuf := [recvDataBuf_ b; recvNotificationBuf_ b].


(* ------------------------------------------------------------------ *)
(** * Notifications received elsewhere *)

(** Nobody reads what is received into [dummy_], so a proof may receive it
    into memory of its own, [dummyIn]. *)
Definition ring_buffers_apart (contextRank contextSize slot notificationSlot : Z) (outbox inbox : Region) (dummy_ dummyIn : Z) : RingBuffers :=
  let b := ring_buffers contextRank contextSize slot notificationSlot outbox inbox dummy_ in
  mkRingBuffers (sendDataBuf_ b) (recvDataBuf_ b) (sendNotificationBuf_ b)
    (mkBBuf 1 (bb_peer (recvNotificationBuf_ b)) notificationSlot (mkRegion dummyIn 0 4)).
Definition ring_noise (dummy_ dummyIn : Z) : Z → Prop := λ b, b = dummy_ ∨ b = dummyIn.

Lemma not_noise dummy_ dummyIn b : b ≠ dummy_ → b ≠ dummyIn → ¬ ring_noise dummy_ dummyIn b.
Proof. intros ? ? [?|?]; done. Qed.
Lemma exists_fresh (l : list Z) : ∃ d, d ∉ l.
Proof. exists (fresh l). apply infinite_is_fresh. Qed.

Section apart.
Context (rank size slot ns : Z) (outbox inbox : Region) (dummy_ dummyIn : Z) (Hslots : slot ≠ ns).
Context (Hout : ¬ ring_noise dummy_ dummyIn (rg_buf outbox)) (Hin : ¬ ring_noise dummy_ dummyIn (rg_buf inbox)).

Abbreviation noise := (ring_noise dummy_ dummyIn).
Abbreviation apart_ r := (ring_buffers_apart r size slot ns outbox inbox dummy_ dummyIn).
Abbreviation one_ r := (ring_buffers r size slot ns outbox inbox dummy_).

Lemma ring_alias_receivers : Forall2 (alias_buf noise (eq dummy_)) (ring_receivers (apart_ rank)) (ring_receivers (one_ rank)).
Proof.
  apply Forall2_cons. split; [split_and!; try done; by left|]. apply Forall2_cons. split; [|constructor].
  split_and!; try done. right. split; [done|]. split; [by right|done].
Qed.
Lemma ring_alias_note : alias_buf noise (eq dummy_) (sendNotificationBuf_ (apart_ rank)) (sendNotificationBuf_ (one_ rank)).
Proof. split_and!; try done. right. split; [done|]. split; [by left|done]. Qed.
Lemma ring_alias_data : alias_buf noise (eq dummy_) (sendDataBuf_ (apart_ rank)) (sendDataBuf_ (one_ rank)).
Proof. split_and!; try done. by left. Qed.
Lemma ring_noisy (bufs : Z → list BBuf) p q : (∀ r, bufs r = ring_receivers (apart_ r) ∨ bufs r = []) → noisy noise bufs (p, q, ns).
Proof.
  intros Hb b. cbn. destruct (Hb q) as [->| ->]; [|done]. unfold find_buf. cbn.
  rewrite (proj2 (Z.eqb_neq slot ns)), andb_false_r by done. destruct (_ && _); [|done]. intros [= <-]. by right.
Qed.
End apart.

(** Neither puts nor waits for what was put. *)
Definition neutral (p : list BAct) : Prop := Forall (λ a, match a with BCompute _ _ _ | BWaitSend _ => True | _ => False end) p.

Lemma neutral_lists p : neutral p → gputs (Do <$> p) = [] ∧ gposts (Do <$> p) = [] ∧ ∀ b, gwaits b (Do <$> p) = O.
Proof.
  induction 1 as [|a p Ha _ (H1 & H2 & H3)]; [done|]. destruct a; try done; (split; [exact H1|]; split; [exact H2|exact H3]).
Qed.
Lemma chan_bind {A B} (f : B → Xfer) c (g : A → list B) l : chan f c (l ≫= g) = l ≫= (λ k, chan f c (g k)).
Proof. induction l as [|x l IH]; [done|]. cbn [mbind list_bind]. by rewrite chan_app, IH. Qed.
Lemma gputs_bind {A} (g : A → list GAct) l : gputs (l ≫= g) = l ≫= (λ k, gputs (g k)).
Proof. induction l as [|x l IH]; [done|]. cbn [mbind list_bind]. by rewrite gputs_app, IH. Qed.
Lemma gposts_bind {A} (g : A → list GAct) l : gposts (l ≫= g) = l ≫= (λ k, gposts (g k)).
Proof. induction l as [|x l IH]; [done|]. cbn [mbind list_bind]. by rewrite gposts_app, IH. Qed.
Lemma code_bind {A} (g : A → list GAct) l : code (l ≫= g) = l ≫= (λ k, code (g k)).
Proof. induction l as [|x l IH]; [done|]. cbn [mbind list_bind]. by rewrite code_app, IH. Qed.
Lemma bind_nil {A B} (l : list A) : l ≫= (λ _, []) = ([] : list B).
Proof. induction l as [|x l IH]; [done|exact IH]. Qed.

Lemma credit_unbump b c : c b ≠ O → bump b (unbump b c) = c.
Proof. intros Hb. extensionality b'. unfold bump, unbump. case_decide as E; [|done]. subst. lia. Qed.

Lemma reaches_counts p m cs cr p' m' cs1 cs2 cr' : reaches p m cs cr p' m' cs1 cr' → (∀ b, cs1 b = cs2 b) → reaches p m cs cr p' m' cs2 cr'.
Proof. intros H Heq. by replace cs2 with cs1 by by extensionality b. Qed.

Lemma reaches_neutral p rest cr : neutral p → ∀ m cs, (∀ b, (waits_send b (net_prog (Do <$> p)) ≤ cs b)%nat) →
  reaches (net_prog (Do <$> p) ++ rest) m cs cr rest (mem_after m (net_prog (Do <$> p)))
    (λ b, (cs b - waits_send b (net_prog (Do <$> p)))%nat) cr.
Proof.
  induction 1 as [|a p Ha _ IH]; intros m cs Hb; [eapply reaches_counts; [apply reaches_refl|intros b; cbn; lia]|].
  destruct a as [|b| |d f srcs|]; try done.
  - assert (cs b ≠ O) as Hne. { specialize (Hb b). cbn in Hb. unfold one in Hb. rewrite decide_True in Hb by done. lia. }
    eapply reaches_counts; [apply (reaches_trans _ _ _ _ (net_prog (Do <$> p) ++ rest) m (unbump b cs) cr); [rewrite <-(credit_unbump b cs Hne) at 1; apply reaches_waitSend|apply IH]|].
    + intros b'. specialize (Hb b'). cbn in Hb. unfold one in Hb. unfold unbump, net_prog. repeat case_decide; subst; try done; lia.
    + intros b'. cbn. unfold unbump, one, net_prog. repeat case_decide; subst; try done; lia.
  - eapply reaches_trans; [apply reaches_compute|by apply IH].
Qed.

(** Nothing to do. *)
Lemma bcomputes_nil bufs mems (post : (Z → Mem) → Prop) : post mems → bcomputes bufs (λ _, []) mems post.
Proof.
  intros Hp. assert (∀ s', bnet_step bufs (bnet_init (λ _, []) mems) s' → False) as Hno.
  { intros s' [[r|p q sl|p q sl] Hl]; done. }
  exists O. intros m s Hs. inversion Hs as [|? ? ? ? Hst]; subst; [|by apply Hno in Hst]. split; [done|].
  eexists. split; [done|]. split; [by split|done].
Qed.

Section ring.
Context (size ds ns dummy_ dummyIn : Z) (K : nat) (inbox : Z → Region).
Context (sx : nat → Z → Region) (ro : nat → Z → Z) (pre fin : Z → list BAct) (mid : nat → Z → list BAct).
Context (Hsize : 1 ≤ size) (Hslots : ds ≠ ns).

Abbreviation left r := (ring_prev size r).
Abbreviation right r := (ring_next size r).

(** Where the data of round [k] arrives. *)
Definition ring_rx (k : nat) (r : Z) : Region :=
  mkRegion (rg_buf (inbox r)) (rg_off (inbox r) + ro k (left r)) (rg_len (sx k (left r))).
Definition data_put (k : nat) (r : Z) : Xfer := mkXferOf (right r) ds (sx k r) 0.
Definition data_post (k : nat) (r : Z) : Xfer := mkXferOf (left r) ds (ring_rx k r) 0.
Definition note_put (r : Z) : Xfer := mkXferOf (left r) ns (mkRegion dummy_ 0 4) 1.
Definition note_post (r : Z) : Xfer := mkXferOf (right r) ns (mkRegion dummyIn 0 4) 1.

(** The program, and where it is ready for what: for the data of the next
    round before it tells so, for a notification before it puts what will be
    answered. *)
Definition next_post (r : Z) (k : nat) : list GAct := if (k <? K)%nat then [Post (data_post k r)] else [].
Definition ring_round (r : Z) (k : nat) : list GAct :=
  [Post (note_post r); Do (BPut (data_put k r) (ro k r)); Do (BWaitRecv 0)] ++ (Do <$> mid k r) ++ next_post r (S k) ++
  [Do (BPut (note_put r) 0); Do (BWaitRecv 1)].
Definition ring_front (r : Z) : list GAct := next_post r 0 ++ (Do <$> pre r).
Definition ring_program (r : Z) : list GAct := ring_front r ++ (seq 0 K ≫= ring_round r) ++ (Do <$> fin r).

Context (Hneutral : ∀ k r, neutral (pre r) ∧ neutral (mid k r) ∧ neutral (fin r)).

Lemma ring_code r : code (ring_program r) =
  pre r ++ (seq 0 K ≫= (λ k, BPut (data_put k r) (ro k r) :: BWaitRecv 0 :: mid k r ++ [BPut (note_put r) 0; BWaitRecv 1])) ++ fin r.
Proof.
  assert (∀ k, code (next_post r k) = []) as Hn by (intros k; unfold next_post; by destruct (k <? K)%nat).
  unfold ring_program, ring_front. rewrite !code_app, !code_do, code_bind, Hn. cbn [app]. do 2 f_equal. apply bind_ext_all. intros k.
  unfold ring_round. rewrite !code_app, code_do, Hn. done.
Qed.

Lemma ring_prog_puts r : gputs (ring_program r) = seq 0 K ≫= (λ k, [(data_put k r, ro k r); (note_put r, 0)]).
Proof.
  assert (∀ k, gputs (next_post r k) = []) as Hn by (intros k; unfold next_post; by destruct (k <? K)%nat).
  destruct (Hneutral 0 r) as (Hp & _ & Hf). unfold ring_program, ring_front.
  rewrite !gputs_app, gputs_bind, Hn, (proj1 (neutral_lists _ Hp)), (proj1 (neutral_lists _ Hf)), !app_nil_r. cbn [app]. apply bind_ext_all. intros k.
  unfold ring_round. destruct (Hneutral k r) as (_ & Hm & _). rewrite !gputs_app, Hn, (proj1 (neutral_lists _ Hm)). done.
Qed.

Lemma ring_prog_posts r : gposts (ring_program r) = gposts (next_post r 0) ++ (seq 0 K ≫= (λ k, note_post r :: gposts (next_post r (S k)))).
Proof.
  destruct (Hneutral 0 r) as (Hp & _ & Hf). unfold ring_program, ring_front.
  rewrite !gposts_app, gposts_bind, (proj1 (proj2 (neutral_lists _ Hp))), (proj1 (proj2 (neutral_lists _ Hf))), !app_nil_r. f_equal.
  apply bind_ext_all. intros k. unfold ring_round. destruct (Hneutral k r) as (_ & Hm & _).
  rewrite !gposts_app, (proj1 (proj2 (neutral_lists _ Hm))). cbn. by rewrite app_nil_r.
Qed.

(** The channels. *)
Lemma ring_data_puts r : puts (right r, ds) (ring_program r) = (λ k, (data_put k r, ro k r)) <$> seq 0 K.
Proof.
  unfold puts. rewrite ring_prog_puts, chan_bind, <-bind_one. apply bind_ext_all. intros k.
  change [(data_put k r, ro k r); (note_put r, 0)] with ([(data_put k r, ro k r)] ++ [(note_put r, 0)]). rewrite chan_app, !chan_one. cbn.
  rewrite decide_True by done. rewrite decide_False by congruence. done.
Qed.
Lemma ring_note_puts r : puts (left r, ns) (ring_program r) = (λ _, (note_put r, 0)) <$> seq 0 K.
Proof.
  unfold puts. rewrite ring_prog_puts, chan_bind, <-bind_one. apply bind_ext_all. intros k.
  change [(data_put k r, ro k r); (note_put r, 0)] with ([(data_put k r, ro k r)] ++ [(note_put r, 0)]). rewrite chan_app, !chan_one. cbn.
  rewrite decide_False by congruence. by rewrite decide_True by done.
Qed.
Lemma ring_other_puts r c : c ≠ (right r, ds) → c ≠ (left r, ns) → puts c (ring_program r) = [].
Proof.
  intros H1 H2. unfold puts. rewrite ring_prog_puts, chan_bind. etrans; [|apply (bind_nil (seq 0 K))]. apply bind_ext_all. intros k.
  change [(data_put k r, ro k r); (note_put r, 0)] with ([(data_put k r, ro k r)] ++ [(note_put r, 0)]). rewrite chan_app, !chan_one. cbn.
  by rewrite !decide_False by congruence.
Qed.
Lemma next_posts c r k : chan id c (gposts (next_post r k)) = if decide (c = (left r, ds) ∧ (k < K)%nat) then [data_post k r] else [].
Proof.
  unfold next_post. destruct (Nat.ltb_spec k K).
  - cbn [gposts omap list_omap]. rewrite chan_one. cbn. repeat case_decide; try done; naive_solver.
  - rewrite decide_False by lia. done.
Qed.
Lemma ring_data_posts r : posts (left r, ds) (ring_program r) = (λ k, data_post k r) <$> seq 0 K.
Proof.
  unfold posts. rewrite ring_prog_posts, chan_app, chan_bind, next_posts.
  assert (∀ n i, (n + i = K)%nat → seq i n ≫= (λ k, chan id (left r, ds) (note_post r :: gposts (next_post r (S k)))) =
    (λ k, data_post k r) <$> seq (S i) (pred n)) as H.
  { induction n as [|n IH]; intros i Hi; [done|]. cbn [seq mbind list_bind]. rewrite (IH (S i)) by lia.
    change (note_post r :: gposts (next_post r (S i))) with ([note_post r] ++ gposts (next_post r (S i))).
    rewrite chan_app, chan_one, next_posts. cbn. rewrite decide_False by congruence. destruct n as [|n].
    - rewrite decide_False by lia. done.
    - rewrite decide_True by (split; [done|lia]). done. }
  rewrite (H K 0%nat) by lia. clear H. destruct (decide (0 < K)%nat) as [HK|HK].
  - rewrite decide_True by done. by replace (seq 0 K) with (seq 0 (S (pred K))) by (f_equal; lia).
  - rewrite decide_False by tauto. by replace K with 0%nat by lia.
Qed.
Lemma ring_note_posts r : posts (right r, ns) (ring_program r) = (λ _, note_post r) <$> seq 0 K.
Proof.
  unfold posts. rewrite ring_prog_posts, chan_app, chan_bind, next_posts, decide_False by (intros [? _]; congruence).
  rewrite <-bind_one. apply bind_ext_all. intros k.
  change (note_post r :: gposts (next_post r (S k))) with ([note_post r] ++ gposts (next_post r (S k))).
  rewrite chan_app, chan_one, next_posts. cbn. rewrite decide_True by done. by rewrite decide_False by (intros [? _]; congruence).
Qed.

Lemma ring_neighbours r : 0 ≤ r < size → 0 ≤ left r < size ∧ 0 ≤ right r < size ∧ left (right r) = r ∧ right (left r) = r.
Proof.
  intros Hr. pose proof (Z.mod_pos_bound (r - 1) size ltac:(lia)) as Hl. pose proof (Z.mod_pos_bound (r + 1) size ltac:(lia)) as Hn.
  unfold ring_prev, ring_next. split; [done|]. split; [done|]. split; apply (peer_inverse size); done.
Qed.

Context (bufs : Z → list BBuf).
Context (Hbufs : ∀ r, (0 < K)%nat → 0 ≤ r < size →
  find_buf (left r) ds (bufs r) = Some (createRecvBuffer 0 (left r) ds (inbox r)) ∧
  find_buf (right r) ns (bufs r) = Some (createRecvBuffer 1 (right r) ns (mkRegion dummyIn 0 4))).
Context (Hfit : ∀ k r, (k < K)%nat → 0 ≤ r < size →
  0 ≤ ro k r ∧ 0 ≤ rg_len (sx k r) ∧ ro k r + rg_len (sx k r) ≤ rg_len (inbox (right r))).

(** What is put to a channel: data to the right, notifications to the left. *)
Lemma bring_channels p q sl : puts (q, sl) (group size ring_program p) ≠ [] →
  0 ≤ p < size ∧ (0 < K)%nat ∧ ((q = right p ∧ sl = ds) ∨ (q = left p ∧ sl = ns)).
Proof.
  intros Hne. destruct (puts_group size ring_program p (q, sl) Hne) as [Hp HG]. rewrite HG in Hne. split; [done|]. split.
  - destruct (decide (0 < K)%nat) as [|HK]; [done|]. destruct Hne. unfold puts. rewrite ring_prog_puts. by replace K with 0%nat by lia.
  - destruct (decide ((q, sl) = (right p, ds))) as [[= -> ->]|H1]; [by left|].
    destruct (decide ((q, sl) = (left p, ns))) as [[= -> ->]|H2]; [by right|]. by rewrite ring_other_puts in Hne.
Qed.

Lemma ring_agree : agree bufs (group size ring_program).
Proof.
  intros p q sl k y Hy. destruct (bring_channels p q sl) as (Hp & HK & Hc); [intros Hz; by rewrite Hz in Hy|].
  destruct (ring_neighbours p Hp) as (Hl & Hr & Hlr & Hrl). rewrite (group_some size _ p Hp) in Hy.
  destruct Hc as [[-> ->]|[-> ->]]; rewrite (group_some size) by done.
  - rewrite ring_data_puts in Hy. apply list_lookup_fmap_Some in Hy as (k' & -> & [-> Hk]%lookup_seq). cbn [Nat.add] in *.
    exists (data_post k (right p)), (createRecvBuffer 0 p ds (inbox (right p))).
    destruct (Hbufs (right p) HK Hr) as [Hb _]. destruct (Hfit k p Hk Hp) as (H1 & H2 & H3).
    pose proof (ring_data_posts (right p)) as Hposts. rewrite Hlr in Hb, Hposts.
    split; [rewrite Hposts, list_lookup_fmap, lookup_seq_lt by done; done|]. split; [done|]. split; [done|].
    split; [|done]. cbn. unfold ring_rx. by rewrite Hlr.
  - rewrite ring_note_puts in Hy. apply list_lookup_fmap_Some in Hy as (k' & -> & [-> Hk]%lookup_seq). cbn [Nat.add] in *.
    exists (note_post (left p)), (createRecvBuffer 1 p ns (mkRegion dummyIn 0 4)).
    destruct (Hbufs (left p) HK Hl) as [_ Hb]. pose proof (ring_note_posts (left p)) as Hposts. rewrite Hrl in Hb, Hposts.
    split; [rewrite Hposts, list_lookup_fmap, lookup_seq_lt by done; done|]. split; [done|]. split; [done|].
    split; [done|]. cbn. lia.
Qed.

(** What a part of a program puts (data, notifications), is ready for, and
    waits for. *)
Definition tally (r : Z) (B : list GAct) (dp np dq nq w0 w1 : nat) : Prop :=
  length (puts (right r, ds) B) = dp ∧ length (puts (left r, ns) B) = np ∧ length (posts (left r, ds) B) = dq ∧
  length (posts (right r, ns) B) = nq ∧ gwaits 0 B = w0 ∧ gwaits 1 B = w1.

Lemma tally_app r B C a b c d e f a' b' c' d' e' f' : tally r B a b c d e f → tally r C a' b' c' d' e' f' →
  tally r (B ++ C) (a + a') (b + b') (c + c') (d + d') (e + e') (f + f').
Proof. unfold tally. rewrite !puts_app, !posts_app, !gwaits_app, !length_app. lia. Qed.
Lemma tally_eq r B a b c d e f a' b' c' d' e' f' : tally r B a b c d e f →
  (a = a' ∧ b = b' ∧ c = c' ∧ d = d' ∧ e = e' ∧ f = f')%nat → tally r B a' b' c' d' e' f'.
Proof. intros H (-> & -> & -> & -> & -> & ->). exact H. Qed.

Lemma tally_neutral r p : neutral p → tally r (Do <$> p) 0 0 0 0 0 0.
Proof. intros (H1 & H2 & H3)%neutral_lists. unfold tally, puts, posts. by rewrite H1, H2, !H3. Qed.
Lemma tally_act r a : tally r [a]
  (match a with Do (BPut x _) => if decide ((x_peer x, x_slot x) = (right r, ds)) then 1 else 0 | _ => 0 end)
  (match a with Do (BPut x _) => if decide ((x_peer x, x_slot x) = (left r, ns)) then 1 else 0 | _ => 0 end)
  (match a with Post x => if decide ((x_peer x, x_slot x) = (left r, ds)) then 1 else 0 | _ => 0 end)
  (match a with Post x => if decide ((x_peer x, x_slot x) = (right r, ns)) then 1 else 0 | _ => 0 end)
  (match a with Do (BWaitRecv b) => if decide (b = 0) then 1 else 0 | _ => 0 end)
  (match a with Do (BWaitRecv b) => if decide (b = 1) then 1 else 0 | _ => 0 end).
Proof.
  unfold tally, puts, posts, gwaits. destruct a as [[x ro'|b|b|d f srcs|e]|x]; cbn [gputs gposts omap list_omap]; rewrite ?chan_one; cbn;
    repeat case_decide; done.
Qed.

Lemma tally_acts r k :
  tally r [Post (data_post k r)] 0 0 1 0 0 0 ∧ tally r [Post (note_post r)] 0 0 0 1 0 0 ∧
  tally r [Do (BPut (data_put k r) (ro k r))] 1 0 0 0 0 0 ∧ tally r [Do (BPut (note_put r) 0)] 0 1 0 0 0 0 ∧
  tally r [Do (BWaitRecv 0)] 0 0 0 0 1 0 ∧ tally r [Do (BWaitRecv 1)] 0 0 0 0 0 1.
Proof.
  split_and!; (eapply tally_eq; [apply tally_act|]); cbn; repeat case_decide; naive_solver.
Qed.

Lemma tally_next r k : tally r (next_post r k) 0 0 (if (k <? K)%nat then 1 else 0) 0 0 0.
Proof. unfold next_post. destruct (k <? K)%nat; [apply tally_acts|apply (tally_neutral r []); constructor]. Qed.

(** What is true before an action: a process that is not getting ready is
    ready for the next data and for the answer to what it has put; before it
    puts, it has been told. *)
Definition ring_ready (r : Z) (B : list GAct) (g : GAct) : Prop :=
  ∃ dp np dq nq w0 w1, tally r B dp np dq nq w0 w1 ∧
    (match g with Post _ => True | _ => (K `min` S np ≤ dq)%nat ∧ (dp ≤ nq)%nat end) ∧
    match g with
    | Do (BPut x _) => ((x_peer x, x_slot x) = (right r, ds) → (dp < 1 + w1)%nat) ∧ ((x_peer x, x_slot x) = (left r, ns) → (np < w0)%nat)
    | _ => True
    end.

Lemma walk_neutral r p B a b c d e f : neutral p → tally r B a b c d e f → (K `min` S b ≤ c)%nat → (a ≤ d)%nat →
  walk (ring_ready r) B (Do <$> p).
Proof.
  intros Hp. revert B. induction Hp as [|x p Hx _ IH]; intros B HB H1 H2; [done|]. rewrite fmap_cons. cbn [walk]. split.
  - exists a, b, c, d, e, f. split; [done|]. split; [done|]. by destruct x.
  - apply IH; [|done|done]. eapply tally_eq; [apply tally_app; [exact HB|apply (tally_neutral r [x]); by constructor]|lia].
Qed.

Lemma tally_round r k : tally r (ring_round r k) 1 1 (if (S k <? K)%nat then 1 else 0) 1 1 1.
Proof.
  destruct (tally_acts r k) as (_ & H2 & H3 & H4 & H5 & H6). destruct (Hneutral k r) as (_ & Hm%(tally_neutral r) & _).
  unfold ring_round. change [Post (note_post r); Do (BPut (data_put k r) (ro k r)); Do (BWaitRecv 0)] with
    ([Post (note_post r)] ++ [Do (BPut (data_put k r) (ro k r))] ++ [Do (BWaitRecv 0)]).
  change [Do (BPut (note_put r) 0); Do (BWaitRecv 1)] with ([Do (BPut (note_put r) 0)] ++ [Do (BWaitRecv 1)]).
  eapply tally_eq; [|].
  { apply tally_app; [apply tally_app; [exact H2|apply tally_app; [exact H3|exact H5]]|]. apply tally_app; [exact Hm|].
    apply tally_app; [apply tally_next|]. apply tally_app; [exact H4|exact H6]. }
  destruct (S k <? K)%nat; lia.
Qed.

Lemma tally_rounds r k : (k ≤ K)%nat → tally r (ring_front r ++ (seq 0 k ≫= ring_round r)) k k (K `min` S k) k k k.
Proof.
  induction k as [|k IH]; intros Hk.
  - cbn. rewrite app_nil_r. eapply tally_eq; [apply tally_app; [apply tally_next|apply tally_neutral, (Hneutral 0 r)]|].
    destruct (Nat.ltb_spec 0 K); lia.
  - rewrite seq_S, bind_app. cbn [mbind list_bind Nat.add]. rewrite app_nil_r, (assoc_L (++)).
    eapply tally_eq; [apply tally_app; [apply IH; lia|apply tally_round]|]. destruct (Nat.ltb_spec (S k) K); lia.
Qed.

Lemma walk_step r B g l a b c d e f a' b' c' d' e' f' :
  tally r B a b c d e f → tally r [g] a' b' c' d' e' f' →
  match g with Post _ => True | _ => (K `min` S b ≤ c)%nat ∧ (a ≤ d)%nat end →
  match g with
  | Do (BPut x _) => ((x_peer x, x_slot x) = (right r, ds) → (a < 1 + f)%nat) ∧ ((x_peer x, x_slot x) = (left r, ns) → (b < e)%nat)
  | _ => True
  end →
  (tally r (B ++ [g]) (a + a') (b + b') (c + c') (d + d') (e + e') (f + f') → walk (ring_ready r) (B ++ [g]) l) →
  walk (ring_ready r) B (g :: l).
Proof.
  intros HB Hg H1 H2 H. split; [by exists a, b, c, d, e, f|]. apply H. by apply tally_app.
Qed.

Lemma ring_walk_round r k B : (k < K)%nat → tally r B k k (K `min` S k) k k k → walk (ring_ready r) B (ring_round r k).
Proof.
  intros Hk HB. destruct (tally_acts r k) as (_ & H2 & H3 & H4 & H5 & H6). destruct (Hneutral k r) as (_ & Hn & _).
  unfold ring_round. cbn [app].
  eapply walk_step; [exact HB|exact H2|done|done|]. clear HB. intros HB.
  eapply walk_step; [exact HB|exact H3|lia|cbn; split; [lia|intros ?; congruence]|]. clear HB. intros HB.
  eapply walk_step; [exact HB|exact H5|lia|done|]. clear HB. intros HB.
  apply walk_app. split; [eapply walk_neutral; [exact Hn|exact HB|lia|lia]|].
  pose proof (tally_app _ _ _ _ _ _ _ _ _ _ _ _ _ _ _ HB (tally_neutral r _ Hn)) as HB'. clear HB.
  apply walk_app. split; [unfold next_post; destruct (S k <? K)%nat; [|done]; split; [|done]; do 6 eexists; split; [exact HB'|done]|].
  pose proof (tally_app _ _ _ _ _ _ _ _ _ _ _ _ _ _ _ HB' (tally_next r (S k))) as HB. clear HB'.
  assert (K `min` S (S k) ≤ K `min` S k + 0 + 0 + 0 + 0 + (if (S k <? K)%nat then 1 else 0))%nat as HK by (destruct (Nat.ltb_spec (S k) K); lia).
  eapply walk_step; [exact HB|exact H4|lia|cbn; split; [intros ?; congruence|lia]|]. clear HB. intros HB.
  eapply walk_step; [exact HB|exact H6|lia|done|]. done.
Qed.

Lemma ring_walk r : walk (ring_ready r) [] (ring_program r).
Proof.
  destruct (Hneutral 0 r) as (Hp & _ & Hf). unfold ring_program. apply walk_app. split; [unfold ring_front; apply walk_app; split|].
  - unfold next_post. destruct (0 <? K)%nat; [|done]. split; [|done]. exists 0%nat, 0%nat, 0%nat, 0%nat, 0%nat, 0%nat. by split.
  - eapply walk_neutral; [done|apply tally_next|destruct (Nat.ltb_spec 0 K); lia|lia].
  - apply walk_app. split.
    + apply walk_rounds. intros k Hk. rewrite Nat.sub_0_r. apply ring_walk_round; [lia|]. apply tally_rounds. lia.
    + eapply walk_neutral; [done|apply tally_rounds; lia|lia|lia].
Qed.

(** At every place where a process is not getting ready. *)
Lemma ring_prefix r B Q : ring_program r = B ++ Q → not_posting Q →
  (K `min` S (length (puts (left r, ns) B)) ≤ length (posts (left r, ds) B))%nat ∧
  (length (puts (right r, ds) B) ≤ length (posts (right r, ns) B))%nat.
Proof.
  intros HG HQ. destruct Q as [|g Q].
  - rewrite app_nil_r in HG. subst B. rewrite ring_note_puts, ring_data_posts, ring_data_puts, ring_note_posts, !length_fmap, !length_seq. lia.
  - destruct (walk_at _ _ _ _ _ _ (ring_walk r) HG) as (dp & np & dq & nq & w0 & w1 & (H1 & H2 & H3 & H4 & _) & H & _).
    cbn [app] in *. destruct g; [|done]. lia.
Qed.

Lemma ring_credit p q sl : puts (q, sl) (group size ring_program p) ≠ [] → credit (group size ring_program) p q sl.
Proof.
  intros Hne. destruct (bring_channels p q sl Hne) as (Hp & HK & Hc). destruct (ring_neighbours p Hp) as (Hl & Hr & Hlr & Hrl).
  assert (∀ y, y ∈ gposts (ring_program p) → (x_buf y = 0 ∧ (x_peer y, x_slot y) = (left p, ds)) ∨ (x_buf y = 1 ∧ (x_peer y, x_slot y) = (right p, ns))) as Hposts.
  { assert (∀ k y, y ∈ gposts (next_post p k) → x_buf y = 0 ∧ (x_peer y, x_slot y) = (left p, ds)) as Hn.
    { intros k y. unfold next_post. destruct (k <? K)%nat; [|by intros ?%not_elem_of_nil]. by intros ->%list_elem_of_singleton. }
    intros y. rewrite ring_prog_posts. intros [Hy|(k & Hy & _)%list_elem_of_bind]%elem_of_app; [left; by eapply Hn|].
    apply elem_of_cons in Hy as [->|Hy]; [by right|left; by eapply Hn]. }
  destruct Hc as [[-> ->]|[-> ->]].
  - exists 1%nat, 1, ns. rewrite !(group_some size) by done. split; [|split].
    + right. intros y Hy. destruct (Hposts y Hy) as [[-> ->]|[-> ->]]; split; congruence.
    + intros A x ro' Q HG Hx. destruct (walk_at _ _ _ _ _ _ (ring_walk p) HG) as (dp & np & dq & nq & w0 & w1 & (H1 & _ & _ & _ & _ & H2) & _ & H & _).
      cbn [app] in *. specialize (H Hx). lia.
    + intros B Q HG HQ. destruct (ring_prefix _ _ _ HG HQ) as [H _]. rewrite Hlr in H. rewrite ring_data_puts, length_fmap, length_seq. lia.
  - exists 0%nat, 0, ds. rewrite !(group_some size) by done. split; [|split].
    + right. intros y Hy. destruct (Hposts y Hy) as [[-> ->]|[-> ->]]; split; congruence.
    + intros A x ro' Q HG Hx. destruct (walk_at _ _ _ _ _ _ (ring_walk p) HG) as (dp & np & dq & nq & w0 & w1 & (_ & H1 & _ & _ & H2 & _) & _ & _ & H).
      cbn [app] in *. specialize (H Hx). lia.
    + intros B Q HG HQ. destruct (ring_prefix _ _ _ HG HQ) as [_ H]. rewrite Hrl in H. rewrite ring_note_puts, length_fmap, length_seq. lia.
Qed.

(* ------------------------------------------------------------------ *)
(** ** Running *)

Context (ws : bool) (mems : Z → Mem).
Context (Hwaits : ∀ k r b, waits_send b (net_prog (Do <$> pre r)) = O ∧ waits_send b (net_prog (Do <$> fin r)) = O ∧
  waits_send b (net_prog (Do <$> mid k r)) = if ws && bool_decide (b = 0) then 1%nat else O).

(** The memories when the data of a round has been received, when it has been
    used, and when the notification has been received. *)
Definition ring_received (M : Z → Mem) (k : nat) (r : Z) : Mem := write (M r) (ring_rx k r) (read (M (left r)) (sx k (left r))).
Definition ring_used (M : Z → Mem) (k : nat) (r : Z) : Mem := mem_after (ring_received M k r) (net_prog (Do <$> mid k r)).
Fixpoint ring_memory (k : nat) (r : Z) : Mem :=
  match k with
  | O => mem_after (mems r) (net_prog (Do <$> pre r))
  | S k => write (ring_used (ring_memory k) k r) (mkRegion dummyIn 0 4) (read (ring_used (ring_memory k) k (right r)) (mkRegion dummy_ 0 4))
  end.
Definition ring_result (r : Z) : Mem := mem_after (ring_memory K r) (net_prog (Do <$> fin r)).

(** Sends that have completed and were not waited for. *)
Definition ring_cs (k n : nat) (b : Z) : nat := if decide (b = 0) then (if ws then O else k) else if decide (b = 1) then n else O.

Let pending (k : nat) (r : Z) : list Xfer := gposts (next_post r k).
Let rest_of (k : nat) (r : Z) : list GAct := (seq k (K - k) ≫= ring_round r) ++ (Do <$> fin r).
Let at_round (k : nat) (r : Z) : Rank → Prop :=
  rank_in (pending k r) (net_prog (rest_of k r)) (ring_memory k r) (ring_cs k k) (λ _, O).
Let at_half (k : nat) (r : Z) : Rank → Prop :=
  rank_in [note_post r] (net_prog (next_post r (S k) ++ [Do (BPut (note_put r) 0); Do (BWaitRecv 1)] ++ rest_of (S k) r))
    (ring_used (ring_memory k) k r) (ring_cs (S k) k) (λ _, O).

Lemma rest_S k r : (k < K)%nat → rest_of k r = ring_round r k ++ rest_of (S k) r.
Proof. intros Hk. unfold rest_of. replace (K - k)%nat with (S (K - S k)) by lia. cbn [seq mbind list_bind]. by rewrite <-(assoc_L (++)). Qed.
Lemma pending_one k r : (k < K)%nat → pending k r = [data_post k r].
Proof. intros Hk. unfold pending, next_post. by rewrite (proj2 (Nat.ltb_lt k K) Hk). Qed.
Lemma net_next_post k r : net_prog (next_post r k) = Recv <$> pending k r.
Proof. unfold pending, next_post. by destruct (k <? K)%nat. Qed.

Lemma ring_data_phase k r R : (k < K)%nat → 0 ≤ r < size → at_round k r R →
  rank_round R [mkMsg (right r) ds (read (ring_memory k r) (sx k r))]
    [mkMsg (left r) ds (read (ring_memory k (left r)) (sx k (left r)))] (at_half k r).
Proof.
  intros Hk Hr HR. destruct (ring_neighbours r Hr) as (Hl & _). unfold at_round in HR. rewrite rest_S, pending_one in HR by done.
  unfold ring_round in HR. rewrite <-!(assoc_L (++)), net_prog_app in HR.
  eapply (emitting_round _ _ _ _ _ _ [data_post k r] [note_post r]); [exact HR| | |].
  - apply (emitting_posts [data_post k r] [Recv (note_post r); Send (data_put k r)] (WaitRecv 0 :: _)). by repeat constructor.
  - constructor; [|done]. split; [done|]. split; [done|]. cbn. apply read_length. by apply Hfit.
  - cbn [recvs_of sends_of omap list_omap bumps foldl mem_after receives]. rewrite net_prog_app.
    destruct (Hneutral k r) as (_ & Hn & _). eapply reaches_trans; [apply reaches_waitRecv|].
    assert (ring_cs (S k) k = λ b, (bump 0 (ring_cs k k) b - waits_send b (net_prog (Do <$> mid k r)))%nat) as ->.
    { extensionality b. destruct (Hwaits k r b) as (_ & _ & ->). unfold ring_cs, bump. destruct ws; cbn [andb].
      - destruct (bool_decide_reflect (b = 0)); repeat case_decide; try done; lia.
      - repeat case_decide; try done; lia. }
    apply reaches_neutral; [done|]. intros b. destruct (Hwaits k r b) as (_ & _ & ->). unfold bump. destruct ws; cbn [andb]; [|lia].
    destruct (bool_decide_reflect (b = 0)); case_decide; try done; lia.
Qed.

Lemma ring_note_phase k r R : (k < K)%nat → at_half k r R →
  rank_round R [mkMsg (left r) ns (read (ring_used (ring_memory k) k r) (mkRegion dummy_ 0 4))]
    [mkMsg (right r) ns (read (ring_used (ring_memory k) k (right r)) (mkRegion dummy_ 0 4))] (at_round (S k) r).
Proof.
  intros Hk HR. unfold at_half in HR. rewrite net_prog_app, net_next_post in HR.
  eapply (emitting_round _ _ _ _ _ _ [note_post r] (pending (S k) r)); [exact HR| | |].
  - pose proof (emitting_posts [note_post r] ((Recv <$> pending (S k) r) ++ [Send (note_put r)]) (WaitRecv 1 :: net_prog (rest_of (S k) r))
      (ring_used (ring_memory k) k r) (ring_cs (S k) k) (λ _, O)) as He.
    rewrite <-(assoc_L (++)), sends_of_app, recvs_of_app, (sends_of_map_recv id), (recvs_of_map id), list_fmap_id, app_nil_r in He.
    rewrite sent_app, mem_after_app, (mem_after_recvs id) in He. 
    assert (∀ l m, sent m (Recv <$> l) = []) as Hs by (intros l m; by induction l). rewrite Hs in He. apply He.
    apply Forall_app. split; [by apply posts_map|by repeat constructor].
  - constructor; [|done]. by split_and!.
  - assert (bump 1 (ring_cs (S k) k) = ring_cs (S k) (S k)) as Hcs.
    { extensionality b. unfold bump, ring_cs. repeat case_decide; subst; try done. }
    cbn [bumps foldl sends_of omap list_omap app receives]. unfold at_round. rewrite <-Hcs. apply reaches_waitRecv.
Qed.

Lemma ring_data_messages k p q sl :
  datas (q, sl) (at_rank (ranks size) p [mkMsg (right p) ds (read (ring_memory k p) (sx k p))]) =
  datas (p, sl) (at_rank (ranks size) q [mkMsg (left q) ds (read (ring_memory k (left q)) (sx k (left q)))]).
Proof.
  apply (ring_matched size 1 ds (λ _, true) (λ _, true) (λ r, read (ring_memory k r) (sx k r))
    (λ r, read (ring_memory k (left r)) (sx k (left r)))); [lia|done|].
  intros r Hr _. destruct (ring_neighbours r Hr) as (_ & _ & H & _). cbv beta. fold (ring_next size r). by rewrite H.
Qed.
Lemma ring_note_messages k p q sl :
  let note r := read (ring_used (ring_memory k) k r) (mkRegion dummy_ 0 4) in
  datas (q, sl) (at_rank (ranks size) p [mkMsg (left p) ns (note p)]) =
  datas (p, sl) (at_rank (ranks size) q [mkMsg (right q) ns (note (right q))]).
Proof.
  intros note. apply (ring_matched size (-1) ns (λ _, true) (λ _, true) note (λ r, note (right r))); [lia|done|].
  intros r Hr _. destruct (ring_neighbours r Hr) as (_ & _ & _ & H). cbv beta. change ((r + -1) `mod` size) with (left r). by rewrite H.
Qed.

Lemma ring_start r R : 0 ≤ r < size → rank_in [] (net_prog (ring_program r)) (mems r) (λ _, O) (λ _, O) R →
  rank_round R [] [] (at_round O r).
Proof.
  intros Hr HR. unfold ring_program, ring_front in HR. rewrite <-!(assoc_L (++)), net_prog_app, net_next_post in HR.
  eapply (emitting_round _ _ _ _ _ [] [] (pending O r)); [exact HR| |constructor|].
  - pose proof (emitting_posts [] (Recv <$> pending O r) (net_prog ((Do <$> pre r) ++ (seq 0 K ≫= ring_round r) ++ (Do <$> fin r)))
      (mems r) (λ _, O) (λ _, O)) as He.
    rewrite (sends_of_map_recv id), (recvs_of_map id), list_fmap_id, (mem_after_recvs id) in He.
    assert (∀ l m, sent m (Recv <$> l) = []) as Hs by (intros l m; by induction l). rewrite Hs in He. apply He. by apply posts_map.
  - rewrite net_prog_app. unfold rest_of. rewrite Nat.sub_0_r. destruct (Hneutral 0 r) as (Hn & _).
    eapply reaches_counts; [apply reaches_neutral; [done|]|]; intros b; cbn; destruct (Hwaits 0 r b) as (Hz & _); [by rewrite Hz|].
    unfold ring_cs. by repeat case_decide; destruct ws.
Qed.

Lemma ring_end r R : at_round K r R → ∃ R', locals R R' ∧ ∃ cs cr, rank_in [] [] (ring_result r) cs cr R'.
Proof.
  intros HR. unfold at_round, rest_of in HR. rewrite Nat.sub_diag in HR. cbn [seq mbind list_bind app] in HR.
  assert (pending K r = []) as Hp by (unfold pending, next_post; by rewrite Nat.ltb_irrefl). rewrite Hp in HR.
  destruct (Hneutral 0 r) as (_ & _ & Hn). rewrite <-(app_nil_r (net_prog (Do <$> fin r))) in HR.
  destruct (reaches_neutral (fin r) [] (λ _, O) Hn (ring_memory K r) (ring_cs K K)) with (L := @nil Xfer) (R := R) as (R' & HL & HR'); [|done|].
  - intros b. destruct (Hwaits 0 r b) as (_ & Hz & _). rewrite Hz. lia.
  - exists R'. split; [done|]. eexists _, _. exact HR'.
Qed.

Lemma ring_run : advances size (λ r, rank_in [] (net_prog (ring_program r)) (mems r) (λ _, O) (λ _, O))
  (λ r R, ∃ cs cr, rank_in [] [] (ring_result r) cs cr R).
Proof.
  eapply advances_trans; [apply (advances_round size _ (at_round O) (λ _, []) (λ _, []))|].
  { intros r R Hr. by apply ring_start. }
  { intros p q sl. unfold at_rank. by repeat case_decide. }
  apply (advances_trans _ _ (at_round K)).
  - apply advances_iter. intros k Hk. eapply advances_trans.
    + apply (advances_round size _ (at_half k) (λ r, [mkMsg (right r) ds (read (ring_memory k r) (sx k r))])
        (λ r, [mkMsg (left r) ds (read (ring_memory k (left r)) (sx k (left r)))])).
      * intros r R Hr. by apply ring_data_phase.
      * intros p q sl. apply ring_data_messages.
    + apply (advances_round size _ _ (λ r, [mkMsg (left r) ns (read (ring_used (ring_memory k) k r) (mkRegion dummy_ 0 4))])
        (λ r, [mkMsg (right r) ns (read (ring_used (ring_memory k) k (right r)) (mkRegion dummy_ 0 4))])).
      * intros r R Hr. by apply ring_note_phase.
      * intros p q sl. apply (ring_note_messages k).
  - apply (advances_round size _ _ (λ _, []) (λ _, [])); [|intros p q sl; unfold at_rank; by repeat case_decide].
    intros r R Hr HR. destruct (ring_end r R HR) as (R' & HL & HR'). by eapply rank_round_idle.
Qed.

(* ------------------------------------------------------------------ *)
(** ** What is in flight *)

Definition ring_sends (k : nat) (r : Z) : list Xfer := seq 0 k ≫= (λ j, (if ws then [] else [data_put j r]) ++ [note_put r]).
Definition ring_unwaited (k : nat) (r : Z) : list Xfer := ring_sends k r ++ (if ws then [] else [data_put k r]).

Context (Hapart : ∀ k r, (k < K)%nat → 0 ≤ r < size →
  rg_buf (inbox r) ≠ dummyIn ∧ rg_buf (inbox r) ≠ dummy_ ∧ dummy_ ≠ dummyIn ∧ rg_buf (sx k r) ≠ dummyIn ∧
  apart (ring_rx k r) (sx k r) ∧ (ws = false → ∀ j, (j < k)%nat → apart (sx j r) (ring_rx k r))).
Context (Hpre : ∀ r p, 0 ≤ r < size → fifo [] (gposts (next_post r 0)) p → fifo [] (gposts (next_post r 0)) (net_prog (Do <$> pre r) ++ p)).
Context (Hmid : ∀ k r p, (k < K)%nat → 0 ≤ r < size → fifo (ring_unwaited k r) [note_post r] p →
  fifo (ring_sends k r ++ [data_put k r]) [note_post r] (net_prog (Do <$> mid k r) ++ p)).
Context (Hfin : ∀ r, 0 ≤ r < size → fifo (ring_sends K r) [] (net_prog (Do <$> fin r))).

Lemma ring_sends_apart k r reg : (∀ j, (j < k)%nat → ws = false → apart (sx j r) reg) → rg_buf reg ≠ dummy_ → all_apart (ring_sends k r) reg.
Proof.
  intros Hj Hd. unfold ring_sends. apply Forall_forall. intros y (j & Hy & Hjk%elem_of_seq)%list_elem_of_bind.
  apply elem_of_app in Hy as [Hy|Hy%list_elem_of_singleton].
  - destruct ws; [by apply not_elem_of_nil in Hy|]. apply list_elem_of_singleton in Hy as ->. apply Hj; [lia|done].
  - subst y. apply apart_buf. cbn. congruence.
Qed.

Lemma ring_sends_S k r : ring_sends (S k) r = ring_unwaited k r ++ [note_put r].
Proof. unfold ring_unwaited, ring_sends. rewrite seq_S, bind_app. cbn [mbind list_bind Nat.add]. by rewrite app_nil_r, (assoc_L (++)). Qed.

Lemma bring_fifo_round k r p : (k < K)%nat → 0 ≤ r < size → fifo (ring_sends (S k) r) (pending (S k) r) p →
  fifo (ring_sends k r) (pending k r) (net_prog (ring_round r k) ++ p).
Proof.
  intros Hk Hr Hp. rewrite pending_one by done. unfold ring_round. rewrite !net_prog_app, net_next_post, <-!(assoc_L (++)).
  destruct (Hapart k r Hk Hr) as (H1 & H2 & H3 & H4 & H5 & _).
  cbn [net_prog fmap list_fmap net_act app fifo]. split; [split|].
  - constructor; [|done]. by apply apart_buf.
  - apply ring_sends_apart; [|done]. intros j Hj _. apply apart_buf. apply (Hapart j r); [lia|done].
  - split; [constructor; [done|constructor; [|done]]|].
    { apply apart_buf. cbn. congruence. }
    rewrite retire_head by done. apply Hmid; [done|done|].
    assert (∀ p', fifo (ring_unwaited k r) ([note_post r] ++ pending (S k) r) p' →
      fifo (ring_unwaited k r) [note_post r] ((Recv <$> pending (S k) r) ++ p')) as Hnext.
    { intros p' Hp'. unfold pending, next_post in *. destruct (Nat.ltb_spec (S k) K) as [HS|]; [|done].
      destruct (Hapart (S k) r HS Hr) as (_ & _ & _ & _ & _ & H6).
      cbn [gposts omap list_omap fmap list_fmap app fifo] in *. split; [split|done].
      - constructor; [|done]. apply apart_buf. cbn. congruence.
      - unfold ring_unwaited. apply Forall_app. split; [apply ring_sends_apart; [|done]; intros j Hj Hw; apply H6; [done|lia]|].
        destruct ws eqn:Ew; [done|]. constructor; [|done]. apply H6; [done|lia]. }
    apply Hnext. cbn [net_prog fmap list_fmap net_act app fifo]. split.
    + constructor; [apply apart_buf; cbn; congruence|]. unfold pending, next_post. destruct (S k <? K)%nat; [|done]. constructor; [|done].
      by apply apart_buf.
    + rewrite retire_head by done. by rewrite <-ring_sends_S.
Qed.

Lemma bring_clean r : 0 ≤ r < size → clean hist0 (net_prog (ring_program r)).
Proof.
  intros Hr. apply fifo_clean0.
  - rewrite sends_puts, ring_prog_puts. 
    assert (∀ x, x ∈ (seq 0 K ≫= (λ k, [(data_put k r, ro k r); (note_put r, 0)])).*1 →
      (x_buf x = 0 ∧ x_peer x = right r ∧ x_slot x = ds) ∨ (x_buf x = 1 ∧ x_peer x = left r ∧ x_slot x = ns)) as Hx.
    { intros x (y & -> & (k & Hy & _)%list_elem_of_bind)%list_elem_of_fmap.
      apply elem_of_cons in Hy as [->|Hy%list_elem_of_singleton]; [by left|subst y; by right]. }
    intros x y Hx1%Hx Hy1%Hx Hxy. unfold same_chan. destruct Hx1 as [(? & ? & ?)|(? & ? & ?)], Hy1 as [(? & ? & ?)|(? & ? & ?)]; try congruence; split; congruence.
  - rewrite recvs_posts.
    assert (∀ x, x ∈ gposts (ring_program r) →
      (x_buf x = 0 ∧ x_peer x = left r ∧ x_slot x = ds) ∨ (x_buf x = 1 ∧ x_peer x = right r ∧ x_slot x = ns)) as Hx.
    { assert (∀ k y, y ∈ gposts (next_post r k) → x_buf y = 0 ∧ x_peer y = left r ∧ x_slot y = ds) as Hn.
      { intros k y. unfold next_post. destruct (k <? K)%nat; [|by intros ?%not_elem_of_nil]. by intros ->%list_elem_of_singleton. }
      intros y. rewrite ring_prog_posts. intros [Hy|(k & Hy & _)%list_elem_of_bind]%elem_of_app; [left; by eapply Hn|].
      apply elem_of_cons in Hy as [->|Hy]; [by right|left; by eapply Hn]. }
    intros x y Hx1%Hx Hy1%Hx Hxy. unfold same_chan. destruct Hx1 as [(? & ? & ?)|(? & ? & ?)], Hy1 as [(? & ? & ?)|(? & ? & ?)]; try congruence; split; congruence.
  - unfold ring_program, ring_front. rewrite !net_prog_app, net_next_post, <-!(assoc_L (++)).
    assert (∀ p, fifo [] (pending O r) p → fifo [] [] ((Recv <$> pending O r) ++ p)) as Hfirst.
    { intros p Hp. unfold pending, next_post in *. destruct (0 <? K)%nat; [|done]. cbn [gposts omap list_omap fmap list_fmap app fifo] in *. split; [split; constructor|done]. }
    apply Hfirst, Hpre; [done|].
    assert (∀ n k, (k + n = K)%nat → fifo (ring_sends k r) (pending k r) (net_prog (seq k n ≫= ring_round r) ++ net_prog (Do <$> fin r))) as H.
    { induction n as [|n IH]; intros k Hk.
      - assert (k = K) as -> by lia. unfold pending, next_post. rewrite Nat.ltb_irrefl. by apply Hfin.
      - cbn [seq mbind list_bind]. rewrite net_prog_app, <-(assoc_L (++)). apply bring_fifo_round; [lia|done|]. apply IH. lia. }
    apply (H K O). lia.
Qed.

(** The ring runs to its end on every schedule. *)
Lemma bring_computes : bcomputes bufs (group size (λ r, code (ring_program r))) mems
  (λ mems', ∀ r, 0 ≤ r < size → mems' r = ring_result r).
Proof.
  apply bound_group; [apply ring_agree|apply ring_credit|apply bring_clean|].
  apply (advances_computes size (λ r, net_prog (ring_program r)) mems ring_result (λ r R, ∃ cs cr, rank_in [] [] (ring_result r) cs cr R));
    [apply bring_clean|apply ring_run|done].
Qed.
End ring.
