(* ===== verification/AllreduceRing.v ===== *)
(** [allreduce_ring.h] and [allreduce_local.cc]: the inputs travel round the
    ring, and every process adds what passes by to its own. *)
From Stdlib Require Import FunctionalExtensionality.
From S2P Require Import Prelude Net NetRun Groups Rounds Reducing Reductions BoundNet BoundAlias BoundRounds Once OneToAll BoundRing.

(** [fn_->call(x, y, count)]: [x] is reduced with [y], element by element. *)
Definition fn_call (op : RedOp) (elementSize x y count : Z) : BAct :=
  BCompute (mkRegion x 0 (count * elementSize)) (λ l, match l with [a; b] => op a b | _ => [] end)
    [mkRegion x 0 (count * elementSize); mkRegion y 0 (count * elementSize)].

(** The loops over [ptrs_], into and from the first buffer. *)
Definition reduce_ptrs (op : RedOp) (elementSize count : Z) (ptrs : list Z) : list BAct :=
  match ptrs with [] => [] | p :: ps => (λ q, fn_call op elementSize p q count) <$> ps end.
Definition broadcast_ptrs (bytes : Z) (ptrs : list Z) : list BAct :=
  match ptrs with [] => [] | p :: ps => (λ q, bcopy (mkRegion q 0 bytes) (mkRegion p 0 bytes)) <$> ps end.

(** [bytes_] is an [int]. *)
Definition bytes_of (count elementSize : Z) : Z := s32 (u64 (u64 count * elementSize)).

Definition AllreduceLocal_run (op : RedOp) (elementSize count : Z) (ptrs : list Z) : list BAct :=
  reduce_ptrs op elementSize count ptrs ++ broadcast_ptrs (bytes_of count elementSize) ptrs.

(** The constructor. [inbox] and [outbox] are what [malloc] returned; [slot]
    and its successor come from [nextSlot]. *)
Definition AllreduceRing (contextRank contextSize count elementSize slot inbox outbox dummy_ : Z) : option RingBuffers :=
  let bytes := bytes_of count elementSize in
  if contextSize =? 1 then None
  else Some (ring_buffers contextRank contextSize slot (slot + 1) (mkRegion outbox 0 bytes) (mkRegion inbox 0 bytes) dummy_).

Definition AllreduceRing_run (contextSize : Z) (op : RedOp) (elementSize count : Z) (ptrs : list Z) (inbox outbox : Z)
    (buffers : option RingBuffers) : list BAct :=
  let bytes := bytes_of count elementSize in
  if count =? 0 then []
  else
    match ptrs with
    | [] => [BStop None]
    | ptr0 :: _ =>
        reduce_ptrs op elementSize count ptrs ++
        [bcopy (mkRegion outbox 0 bytes) (mkRegion ptr0 0 bytes)] ++
        (let numRounds := contextSize - 1 in
         seqZ 0 numRounds ≫= (λ round,
           match buffers with
           | None => [BStop None]
           | Some b =>
               buffer_send_all (sendDataBuf_ b) ++
               [buffer_waitRecv (recvDataBuf_ b);
                fn_call op elementSize ptr0 inbox count;
                buffer_waitSend (sendDataBuf_ b)] ++
               (if round <? numRounds - 1 then [bcopy (mkRegion outbox 0 bytes) (mkRegion inbox 0 bytes)] else []) ++
               buffer_send_all (sendNotificationBuf_ b) ++
               [buffer_waitRecv (recvNotificationBuf_ b)]
           end)) ++
        broadcast_ptrs bytes ptrs
    end.

(** The same with the notifications received elsewhere, for the proofs. *)
Definition AllreduceRing_apart (contextRank contextSize count elementSize slot inbox outbox dummy_ dummyIn : Z) : option RingBuffers :=
  let bytes := bytes_of count elementSize in
  if contextSize =? 1 then None
  else Some (ring_buffers_apart contextRank contextSize slot (slot + 1) (mkRegion outbox 0 bytes) (mkRegion inbox 0 bytes) dummy_ dummyIn).

(* ------------------------------------------------------------------ *)
(** * Computations *)

Lemma sum_bytes_small count es : 0 ≤ count → 0 < es → count * es < 2 ^ 31 → bytes_of count es = count * es.
Proof.
  intros Hc He Hb. unfold bytes_of. rewrite (wrap_small 64 count), wrap_small, swrap_small by (unfold in_range; nia). done.
Qed.

Lemma neutral_computes p : Forall (λ a, match a with BCompute _ _ _ => True | _ => False end) p →
  neutral p ∧ Forall is_compute (net_prog (Do <$> p)) ∧ ∀ b, waits_send b (net_prog (Do <$> p)) = O.
Proof.
  induction 1 as [|a p Ha _ (H1 & H2 & H3)]; [repeat split; constructor|]. destruct a; try done.
  split; [by constructor|]. split; [by constructor|exact H3].
Qed.

Section local.
Context (es count : Z) (op : RedOp) (Hop : op_ok es op) (Hes : 0 < es) (Hcount : 0 ≤ count) (Hbytes : count * es < 2 ^ 31).

Abbreviation bytes := (count * es).
Abbreviation at_ b := (mkRegion b 0 bytes).

Lemma net_reduce_ptrs p ps : net_prog (Do <$> reduce_ptrs op es count (p :: ps)) = reduceInputs [] (p :: ps) es op 0 bytes.
Proof.
  unfold reduce_ptrs, reduceInputs, net_prog. rewrite <-!list_fmap_compose. apply list_fmap_ext. intros i q _. unfold compose, fn_call, elems. cbn.
  by rewrite Z.div_mul by lia.
Qed.
Lemma net_broadcast_ptrs p ps : net_prog (Do <$> broadcast_ptrs (bytes_of count es) (p :: ps)) = broadcastOutputs (p :: ps) 0 bytes.
Proof. rewrite sum_bytes_small by done. unfold broadcast_ptrs, broadcastOutputs, net_prog. by rewrite <-!list_fmap_compose. Qed.
Lemma reduce_ptrs_neutral ptrs : Forall (λ a, match a with BCompute _ _ _ => True | _ => False end) (reduce_ptrs op es count ptrs).
Proof. destruct ptrs; [done|]. by apply Forall_fmap, Forall_forall. Qed.
Lemma broadcast_ptrs_neutral b ptrs : Forall (λ a, match a with BCompute _ _ _ => True | _ => False end) (broadcast_ptrs b ptrs).
Proof. destruct ptrs; [done|]. by apply Forall_fmap, Forall_forall. Qed.

(** The value of a process: the reduction of its buffers. *)
Definition ptrs_value (ptrs : list Z) (m : Mem) : list Z := foldl1 op ((λ b, read m (at_ b)) <$> ptrs).

Lemma reduce_ptrs_effect p ps m : NoDup (p :: ps) →
  let m' := mem_after m (net_prog (Do <$> reduce_ptrs op es count (p :: ps))) in
  read m' (at_ p) = ptrs_value (p :: ps) m ∧ ∀ reg, rg_buf reg ≠ p → read m' reg = read m reg.
Proof.
  intros Hnd m'. unfold m'. rewrite net_reduce_ptrs.
  destruct (reduceInputs_effect es op Hop 0 bytes ltac:(nia) ltac:(by rewrite Z.div_mul by lia) [] p ps m Hnd) as [H1 H2].
  split; [exact H1|]. intros reg Hreg. apply H2. by apply apart_buf.
Qed.

Lemma broadcast_ptrs_effect p ps m : p ∉ ps →
  let m' := mem_after m (net_prog (Do <$> broadcast_ptrs (bytes_of count es) (p :: ps))) in
  (∀ b, b ∈ p :: ps → read m' (at_ b) = read m (at_ p)) ∧ ∀ reg, rg_buf reg ∉ p :: ps → read m' reg = read m reg.
Proof.
  intros Hp m'. unfold m'. rewrite net_broadcast_ptrs.
  destruct (broadcastOutputs_effect 0 bytes ltac:(nia) p ps m Hp) as [H1 H2]. split.
  - intros b [->|Hb]%elem_of_cons; [|by apply H1]. apply H2. intros b Hb. apply apart_buf. cbn. by intros ->.
  - intros reg Hreg. apply H2. intros b Hb. apply apart_buf. cbn. intros ->. apply Hreg. by right.
Qed.
End local.

(* ------------------------------------------------------------------ *)
(** * The ring *)

Section allreduce_ring.
Context (size es count slot inbox outbox dummy_ dummyIn : Z) (op : RedOp) (ptrs : Z → list Z) (mems : Z → Mem).
Context (Hsize : 1 ≤ size) (Hop : op_ok es op) (Hes : 0 < es) (Hcount : 0 < count) (Hbytes : count * es < 2 ^ 31).
Context (Hboxes : NoDup [inbox; outbox; dummy_; dummyIn]).
Context (Hptrs : ∀ r, 0 ≤ r < size → ptrs r ≠ [] ∧ NoDup (ptrs r) ∧ ∀ b, b ∈ ptrs r → b ∉ [inbox; outbox; dummy_; dummyIn]).

Abbreviation bytes := (count * es).
Abbreviation at_ b := (mkRegion b 0 bytes).
Abbreviation ptr0 r := (hd 0 (ptrs r)).

Let K : nat := Z.to_nat (size - 1).
Let buffers (r : Z) : option RingBuffers := AllreduceRing_apart r size count es slot inbox outbox dummy_ dummyIn.
Let bufs (r : Z) : list BBuf := from_option ring_receivers [] (buffers r).
Let run (r : Z) : list BAct := AllreduceRing_run size op es count (ptrs r) inbox outbox (buffers r).

Let sx (k : nat) (r : Z) : Region := at_ outbox.
Let pre (r : Z) : list BAct := reduce_ptrs op es count (ptrs r) ++ [bcopy (at_ outbox) (at_ (ptr0 r))].
Let mid (k : nat) (r : Z) : list BAct :=
  [fn_call op es (ptr0 r) inbox count; BWaitSend 0] ++ (if Z.of_nat k <? size - 2 then [bcopy (at_ outbox) (at_ inbox)] else []).
Let fin (r : Z) : list BAct := broadcast_ptrs (bytes_of count es) (ptrs r).
Let prog (r : Z) : list GAct :=
  ring_program size slot (slot + 1) dummy_ dummyIn K (λ _, at_ inbox) sx (λ _ _, 0) pre fin mid r.

Lemma ar_neutral k r : neutral (pre r) ∧ neutral (mid k r) ∧ neutral (fin r).
Proof.
  unfold pre, mid, fin. split; [|split].
  - apply Forall_app. split; [|by repeat constructor]. apply neutral_computes, reduce_ptrs_neutral.
  - apply Forall_app. split; [by repeat constructor|]. destruct (_ <? _); by repeat constructor.
  - apply neutral_computes, broadcast_ptrs_neutral.
Qed.

Lemma ar_waits k r b : waits_send b (net_prog (Do <$> pre r)) = O ∧ waits_send b (net_prog (Do <$> fin r)) = O ∧
  waits_send b (net_prog (Do <$> mid k r)) = if true && bool_decide (b = 0) then 1%nat else O.
Proof.
  split; [|split].
  - apply neutral_computes, Forall_app. split; [apply reduce_ptrs_neutral|by repeat constructor].
  - apply neutral_computes, broadcast_ptrs_neutral.
  - unfold mid. rewrite fmap_app, net_prog_app. cbn. unfold one.
    destruct (bool_decide_reflect (b = 0)), (_ <? _); cbn; repeat case_decide; congruence || done.
Qed.

Lemma ar_code r : 0 ≤ r < size → run r = code (prog r).
Proof.
  intros Hr. unfold prog. rewrite ring_code by apply ar_neutral. unfold run, AllreduceRing_run.
  destruct (Hptrs r Hr) as (Hne & _). rewrite (proj2 (Z.eqb_neq count 0)) by lia.
  rewrite sum_bytes_small by lia. unfold pre. destruct (ptrs r) as [|p ps] eqn:Hp; [done|]. cbn [hd]. rewrite <-!(assoc_L (++)). do 2 f_equal.
  unfold fin. rewrite Hp, sum_bytes_small by lia. f_equal. rewrite bind_seqZ. fold K. apply bind_ext_elem. intros k Hk%elem_of_seq.
  unfold buffers, AllreduceRing_apart. rewrite (proj2 (Z.eqb_neq size 1)), sum_bytes_small by lia.
  unfold mid. rewrite Hp. cbn [hd ring_buffers_apart ring_buffers sendDataBuf_ recvDataBuf_ sendNotificationBuf_ recvNotificationBuf_].
  rewrite !buffer_send_whole by (cbn; nia). unfold xfer_of, data_put, note_put, buffer_waitRecv, buffer_waitSend, sx.
  cbn [bb_peer bb_slot bb_reg bb_id createSendBuffer createRecvBuffer app]. rewrite (proj1 (next_prev_mod size r)).
  replace (size - 1 - 1) with (size - 2) by lia. by destruct (Z.of_nat k <? size - 2).
Qed.

Lemma ar_bufs r : (0 < K)%nat → 0 ≤ r < size →
  find_buf (ring_prev size r) slot (bufs r) = Some (createRecvBuffer 0 (ring_prev size r) slot (at_ inbox)) ∧
  find_buf (ring_next size r) (slot + 1) (bufs r) = Some (createRecvBuffer 1 (ring_next size r) (slot + 1) (mkRegion dummyIn 0 4)).
Proof.
  intros HK Hr. unfold bufs, buffers, AllreduceRing_apart. rewrite (proj2 (Z.eqb_neq size 1)), sum_bytes_small by lia.
  unfold find_buf. cbn. rewrite (proj1 (next_prev_mod size r)). fold (ring_prev size r) (ring_next size r). rewrite !Z.eqb_refl. cbn.
  split; [done|]. rewrite (proj2 (Z.eqb_neq slot (slot + 1))), andb_false_r by lia. done.
Qed.

Lemma ar_boxes : inbox ≠ outbox ∧ inbox ≠ dummy_ ∧ inbox ≠ dummyIn ∧ outbox ≠ dummy_ ∧ outbox ≠ dummyIn ∧ dummy_ ≠ dummyIn.
Proof.
  clear - Hboxes. rewrite !NoDup_cons in Hboxes. destruct Hboxes as (H1 & H2 & H3 & _). rewrite !not_elem_of_cons in *. tauto.
Qed.
Lemma ar_ptr0 r : 0 ≤ r < size → ptr0 r ∈ ptrs r ∧ ptrs r = ptr0 r :: tail (ptrs r) ∧ (ptr0 r ∉ tail (ptrs r)) ∧
  ptr0 r ≠ inbox ∧ ptr0 r ≠ outbox ∧ ptr0 r ≠ dummy_ ∧ ptr0 r ≠ dummyIn.
Proof.
  intros Hr. destruct (Hptrs r Hr) as (Hne & Hnd & Hb). destruct (ptrs r) as [|p ps]; [done|]. cbn.
  apply NoDup_cons in Hnd as [Hnd _]. specialize (Hb p (list_elem_of_here _ _)). rewrite !not_elem_of_cons in Hb. 
  split; [by left|]. tauto.
Qed.

(** The value of a process; the sum of those of [k + 1] processes. *)
Let v (r : Z) : list Z := ptrs_value es count op (ptrs r) (mems r).
Let acc (k : nat) (r : Z) : list Z := foldl op (v r) ((λ j, v ((r - Z.of_nat j) `mod` size)) <$> seq 1 k).

Lemma v_length r : 0 ≤ r < size → length (v r) = Z.to_nat bytes.
Proof.
  intros Hr. destruct (Hptrs r Hr) as (Hne & _). apply (foldl1_length es op Hop).
  - by destruct (ptrs r).
  - apply Forall_fmap, Forall_forall. intros b _. apply Nat2Z.inj. unfold compose. rewrite read_length by (cbn; nia). cbn. lia.
Qed.
Lemma acc_length k r : 0 ≤ r < size → length (acc k r) = Z.to_nat bytes.
Proof.
  intros Hr. apply (foldl_op_length es op Hop); [by apply v_length|]. apply Forall_fmap, Forall_forall. intros j _.
  apply v_length, Z.mod_pos_bound. lia.
Qed.
Lemma acc_S k r : acc (S k) r = op (acc k r) (v ((r - Z.of_nat (S k)) `mod` size)).
Proof. unfold acc. rewrite seq_S, fmap_app, foldl_app. done. Qed.

Let M : nat → Z → Mem := ring_memory size dummy_ dummyIn (λ _, at_ inbox) sx (λ _ _, 0) pre mid mems.
Definition ar_inv (k : nat) : Prop := ∀ r, 0 ≤ r < size →
  read (M k r) (at_ (ptr0 r)) = acc k r ∧ ((k < K)%nat → read (M k r) (at_ outbox) = v ((r - Z.of_nat k) `mod` size)) ∧
  ∀ reg, (rg_buf reg ∉ [ptr0 r; inbox; outbox; dummyIn]) → read (M k r) reg = read (mems r) reg.

Lemma ar_inv0 : ar_inv 0.
Proof.
  intros r Hr. destruct (ar_ptr0 r Hr) as (_ & Hp & Hni & H1 & H2 & H3 & H4). pose proof (v_length r Hr) as Hv. destruct (Hptrs r Hr) as (_ & Hnd & _).
  unfold M. cbn [ring_memory]. unfold pre. rewrite fmap_app, net_prog_app, mem_after_app.
  destruct (reduce_ptrs_effect es count op Hop Hes ltac:(lia) (ptr0 r) (tail (ptrs r)) (mems r) ltac:(by rewrite <-Hp)) as [Ha Hb].
  rewrite <-Hp in Ha, Hb. set (m := mem_after (mems r) _) in *. 
  assert (∀ reg, rg_buf reg ≠ outbox → read (compute m (at_ outbox) (λ l, hd [] l) [at_ (ptr0 r)]) reg = read m reg) as Hc.
  { intros reg Hreg. apply read_compute, apart_buf. cbn. congruence. }
  cbn [net_prog fmap list_fmap net_act mem_after]. split; [|split].
  - etransitivity; [by apply Hc|]. exact Ha.
  - intros _. rewrite Z.sub_0_r, Z.mod_small by done. etransitivity; [apply read_copy; [done|cbn; nia]|]. exact Ha.
  - intros reg Hreg. rewrite !not_elem_of_cons in Hreg. etransitivity; [apply Hc; tauto|]. apply Hb. tauto.
Qed.

Lemma ar_used k r : (k < K)%nat → 0 ≤ r < size → ar_inv k →
  let m := ring_used size (λ _, at_ inbox) sx (λ _ _, 0) mid (M k) k r in
  read m (at_ (ptr0 r)) = acc (S k) r ∧ ((S k < K)%nat → read m (at_ outbox) = v ((r - Z.of_nat (S k)) `mod` size)) ∧
  ∀ reg, (rg_buf reg ∉ [ptr0 r; inbox; outbox]) → read m reg = read (M k r) reg.
Proof.
  intros Hk Hr Hinv m. destruct (ar_ptr0 r Hr) as (_ & _ & _ & H1 & H2 & _). destruct ar_boxes as (H3 & _).
  assert (0 ≤ ring_prev size r < size) as Hl by (apply Z.mod_pos_bound; lia).
  destruct (Hinv _ Hl) as (_ & Ho & _). specialize (Ho Hk). destruct (Hinv r Hr) as (Hacc & _ & _).
  assert ((ring_prev size r - Z.of_nat k) `mod` size = (r - Z.of_nat (S k)) `mod` size) as Hq.
  { unfold ring_prev. rewrite Zminus_mod_idemp_l. f_equal. lia. }
  rewrite Hq in Ho. set (q := (r - Z.of_nat (S k)) `mod` size) in *.
  assert (0 ≤ q < size) as Hqr by (apply Z.mod_pos_bound; lia). pose proof (v_length q Hqr) as Hvq.
  set (m1 := write (M k r) (at_ inbox) (v q)).
  assert (read m1 (at_ inbox) = v q) as Hin by (apply read_write_same; cbn; rewrite Hvq; nia).
  assert (∀ reg, rg_buf reg ≠ inbox → read m1 reg = read (M k r) reg) as Hm1.
  { intros reg Hreg. apply read_write, apart_buf. cbn. congruence. }
  set (m2 := compute m1 (at_ (ptr0 r)) (λ l, match l with [a; b] => op a b | _ => [] end) [at_ (ptr0 r); at_ inbox]).
  assert (read m2 (at_ (ptr0 r)) = acc (S k) r) as Hp2.
  { unfold m2. etransitivity; [apply (read_reduce es op Hop 0 bytes ltac:(nia))|]. rewrite Hin, (Hm1 (at_ (ptr0 r)) H1), Hacc, acc_S. done. }
  assert (∀ reg, rg_buf reg ≠ ptr0 r → read m2 reg = read m1 reg) as Hm2.
  { intros reg Hreg. apply read_compute, apart_buf. cbn. congruence. }
  assert (m = if Z.of_nat k <? size - 2 then compute m2 (at_ outbox) (λ l, hd [] l) [at_ inbox] else m2) as ->.
  { unfold m, ring_used, ring_received. replace (read (M k (ring_prev size r)) (sx k (ring_prev size r))) with (v q) by done.
    unfold mid. rewrite fmap_app, net_prog_app, mem_after_app. by destruct (_ <? _). }
  assert ((S k < K)%nat → (Z.of_nat k <? size - 2) = true) as Hcopy by (intros; apply Z.ltb_lt; lia).
  destruct (Z.of_nat k <? size - 2); [|split; [done|]; split; [by intros ?%Hcopy|intros reg Hreg; rewrite !not_elem_of_cons in Hreg; rewrite Hm2, Hm1 by tauto; done]].
  assert (∀ reg, rg_buf reg ≠ outbox → read (compute m2 (at_ outbox) (λ l, hd [] l) [at_ inbox]) reg = read m2 reg) as Hm3.
  { intros reg Hreg. apply read_compute, apart_buf. cbn. congruence. }
  split; [etransitivity; [by apply Hm3|done]|]. split.
  - intros _. etransitivity; [apply read_copy; [done|cbn; nia]|]. rewrite Hm2 by (cbn; congruence). done.
  - intros reg Hreg. rewrite !not_elem_of_cons in Hreg. rewrite Hm3, Hm2, Hm1 by tauto. done.
Qed.

Lemma ar_invariant k : (k ≤ K)%nat → ar_inv k.
Proof.
  induction k as [|k IH]; intros Hk; [exact ar_inv0|]. intros r Hr. specialize (IH ltac:(lia)).
  destruct (ar_used k r ltac:(lia) Hr IH) as (H1 & H2 & H3). destruct (ar_ptr0 r Hr) as (_ & _ & _ & H4 & H5 & H6 & H7). destruct ar_boxes as (_ & _ & H8 & _ & H9 & _).
  assert (∀ reg, rg_buf reg ≠ dummyIn → read (M (S k) r) reg = read (ring_used size (λ _, at_ inbox) sx (λ _ _, 0) mid (M k) k r) reg) as Hd.
  { intros reg Hreg. unfold M. cbn [ring_memory]. apply read_write, apart_buf. cbn. congruence. }
  split; [rewrite Hd by done; done|]. split; [intros HS; rewrite Hd by done; by apply H2|].
  intros reg Hreg. rewrite !not_elem_of_cons in Hreg. rewrite Hd by tauto. rewrite H3 by (rewrite !not_elem_of_cons; tauto).
  apply IH; [done|]. rewrite !not_elem_of_cons. tauto.
Qed.

(* ------------------------------------------------------------------ *)
(** ** Running *)

Lemma ar_pre_fifo r p : 0 ≤ r < size →
  let pr := gposts (next_post size slot K (λ _, at_ inbox) sx (λ _ _, 0) r 0) in
  fifo [] pr p → fifo [] pr (net_prog (Do <$> pre r) ++ p).
Proof.
  intros Hr pr. destruct (ar_ptr0 r Hr) as (Hin & Hp & _ & H1 & H2 & _). destruct ar_boxes as (H3 & _). destruct (Hptrs r Hr) as (_ & _ & Hb).
  apply (fifo_quiet [] [at_ inbox]).
  - unfold pre. rewrite fmap_app, net_prog_app. apply Forall_app. split.
    + rewrite Hp, net_reduce_ptrs by done. apply (reduceInputs_quiet es op Hop 0 bytes ltac:(nia) ltac:(by rewrite Z.div_mul by lia)); [constructor|].
      cbn [app]. rewrite <-Hp. intros b Hbin. constructor; [|done]. apply apart_buf. cbn. specialize (Hb b Hbin). rewrite !not_elem_of_cons in Hb. intuition congruence.
    + repeat constructor; apply apart_buf; cbn; congruence.
  - by intros x ?%not_elem_of_nil.
  - intros x. unfold pr, next_post. destruct (0 <? K)%nat; [|by intros ?%not_elem_of_nil]. intros ->%list_elem_of_singleton. by left.
Qed.

Lemma ar_sends k r : Forall (λ x, x = note_put size (slot + 1) dummy_ r) (ring_sends size slot (slot + 1) dummy_ sx true k r).
Proof.
  unfold ring_sends. apply Forall_forall. intros x (j & Hx & _)%list_elem_of_bind. cbn [app] in Hx. by apply list_elem_of_singleton in Hx.
Qed.

Lemma retire_last b l x : Forall (λ y, x_buf y ≠ b) l → x_buf x = b → retire b (l ++ [x]) = Some l.
Proof.
  intros Hl Hx. unfold retire. induction Hl as [|y l Hy Hl IH]; cbn.
  - by rewrite Hx, Z.eqb_refl.
  - rewrite (proj2 (Z.eqb_neq _ _) Hy). destruct (pick (λ x0, x_buf x0 =? b) (l ++ [x])) as [[z m]|]; [|done]. cbn in *. by injection IH as ->.
Qed.

Lemma ar_mid_fifo k r p : 0 ≤ r < size →
  let note := note_post size (slot + 1) dummyIn r in
  fifo (ring_unwaited size slot (slot + 1) dummy_ sx true k r) [note] p →
  fifo (ring_sends size slot (slot + 1) dummy_ sx true k r ++ [data_put size slot sx k r]) [note] (net_prog (Do <$> mid k r) ++ p).
Proof.
  intros Hr note Hp. destruct (ar_ptr0 r Hr) as (_ & _ & _ & H1 & H2 & H3 & H4). destruct ar_boxes as (H5 & H6 & H7 & H8 & H9 & _).
  unfold ring_unwaited in Hp. rewrite app_nil_r in Hp. pose proof (ar_sends k r) as Hs.
  set (ps := ring_sends size slot (slot + 1) dummy_ sx true k r) in *.
  assert (∀ reg, rg_buf reg ≠ dummy_ → all_apart ps reg) as Hps.
  { intros reg Hreg. eapply Forall_impl; [exact Hs|]. intros x ->. apply apart_buf. cbn. congruence. }
  unfold mid. rewrite fmap_app, net_prog_app, <-(assoc_L (++)). cbn [net_prog fmap list_fmap net_act fn_call app fifo].
  split; [split; [|split]|].
  - constructor; [|done]. apply apart_buf. cbn. congruence.
  - apply Forall_app. split; [by apply Hps|]. constructor; [|done]. apply apart_buf. cbn. congruence.
  - repeat constructor; apply apart_buf; cbn; congruence.
  - rewrite retire_last; [|eapply Forall_impl; [exact Hs|by intros x ->]|done].
    destruct (Z.of_nat k <? size - 2); [|done]. cbn [net_prog fmap list_fmap net_act bcopy app fifo]. split; [|done].
    split; [|split; [by apply Hps|]]; repeat constructor; apply apart_buf; cbn; congruence.
Qed.

Lemma ar_fin_fifo r : 0 ≤ r < size → fifo (ring_sends size slot (slot + 1) dummy_ sx true K r) [] (net_prog (Do <$> fin r)).
Proof.
  intros Hr. destruct (ar_ptr0 r Hr) as (_ & Hp & _). destruct (Hptrs r Hr) as (_ & _ & Hb). unfold fin. rewrite <-(app_nil_r (net_prog _)).
  apply (fifo_quiet [mkRegion dummy_ 0 4] []); [| |by intros x ?%not_elem_of_nil|done].
  - rewrite Hp, net_broadcast_ptrs by lia. apply broadcastOutputs_quiet; [|done]. intros b Hbin.
    assert (b ∈ ptrs r) as Hin by (rewrite Hp; by right). specialize (Hb b Hin). rewrite !not_elem_of_cons in Hb.
    constructor; [|done]. apply apart_buf. cbn. intuition congruence.
  - intros x Hx. pose proof (ar_sends K r) as Hs. rewrite Forall_forall in Hs. rewrite (Hs x Hx). by left.
Qed.

Lemma ar_computes : bcomputes bufs (group size run) mems (λ mems', ∀ r, 0 ≤ r < size → mems' r = mem_after (M K r) (net_prog (Do <$> fin r))).
Proof.
  assert (group size run = group size (λ r, code (prog r))) as -> by (apply group_ext, ar_code).
  destruct ar_boxes as (H1 & H2 & H3 & H4 & H5 & H6).
  apply (bring_computes size slot (slot + 1) dummy_ dummyIn K (λ _, at_ inbox) sx (λ _ _, 0) pre fin mid Hsize ltac:(lia) ar_neutral bufs ar_bufs) with (ws := true).
  - intros k r Hk Hr. cbn. nia.
  - exact ar_waits.
  - intros k r Hk Hr. cbn. do 4 (split; [done|]). split; [by apply apart_buf|done].
  - intros r p Hr. by apply ar_pre_fifo.
  - intros k r p Hk Hr. by apply ar_mid_fifo.
  - intros r Hr. by apply ar_fin_fifo.
Qed.

(** Everybody's value, from the last to the first. *)
Lemma ring_back_ranks r : 0 ≤ r < size → Permutation ((λ j, (r - Z.of_nat j) `mod` size) <$> seq 0 (S K)) (ranks size).
Proof.
  intros Hr. apply submseteq_length_Permutation; [apply NoDup_submseteq|].
  - apply NoDup_fmap_2_strong; [|apply NoDup_seq]. intros i j Hi%elem_of_seq Hj%elem_of_seq He.
    apply peer_neq in He; lia.
  - intros q (j & -> & _)%list_elem_of_fmap. apply elem_ranks, Z.mod_pos_bound. lia.
  - unfold ranks. rewrite length_fmap, length_seq, length_seqZ. lia.
Qed.

Lemma acc_all (Hac : op_ac op) r : 0 ≤ r < size →
  acc K r = foldl1 op (ranks size ≫= (λ q, (λ b, read (mems q) (at_ b)) <$> ptrs q)).
Proof.
  intros Hr. transitivity (foldl1 op (v <$> ranks size)).
  - transitivity (foldl1 op (v <$> ((λ j, (r - Z.of_nat j) `mod` size) <$> seq 0 (S K)))).
    + cbn [seq fmap list_fmap foldl1]. rewrite Z.sub_0_r, Z.mod_small by done. unfold acc. by rewrite <-list_fmap_compose.
    + apply (foldl1_perm es op Hop (Z.to_nat bytes) Hac); [by apply fmap_Permutation, ring_back_ranks|].
      apply Forall_fmap, Forall_fmap, Forall_forall. intros j _. apply v_length, Z.mod_pos_bound. lia.
  - assert (v <$> ranks size = foldl1 op <$> ((λ q, (λ b, read (mems q) (at_ b)) <$> ptrs q) <$> ranks size)) as ->.
    { by rewrite <-list_fmap_compose. }
    rewrite (foldl1_concat es op Hop (Z.to_nat bytes) Hac).
    + f_equal. generalize (ranks size). intros l. induction l as [|q l IH]; [done|]. cbn. by rewrite <-IH.
    + apply Forall_fmap, Forall_forall. intros q Hq%elem_ranks. destruct (Hptrs q Hq) as (Hne & _). split; [by destruct (ptrs q)|].
      apply Forall_fmap, Forall_forall. intros b _. apply Nat2Z.inj. unfold compose. rewrite read_length by (cbn; nia). cbn. lia.
Qed.

Lemma ar_result (Hac : op_ac op) r (m := mem_after (M K r) (net_prog (Do <$> fin r))) : 0 ≤ r < size →
  (∀ b, b ∈ ptrs r → read m (at_ b) = foldl1 op (ranks size ≫= (λ q, (λ b, read (mems q) (at_ b)) <$> ptrs q))) ∧
  ∀ reg, (rg_buf reg ∉ ptrs r ++ [inbox; outbox; dummyIn]) → read m reg = read (mems r) reg.
Proof.
  intros Hr. destruct (ar_ptr0 r Hr) as (Hin & Hp & Hn & _). destruct (ar_invariant K (le_n K) r Hr) as (H1 & _ & H2).
  destruct (broadcast_ptrs_effect es count Hes ltac:(lia) Hbytes (ptr0 r) (tail (ptrs r)) (M K r) Hn) as [H3 H4].
  unfold m, fin. rewrite <-Hp in H3, H4. split.
  - intros b Hb. rewrite H3 by done. by rewrite H1, acc_all.
  - intros reg Hreg. rewrite not_elem_of_app, !not_elem_of_cons in Hreg. rewrite H4 by tauto. apply H2.
    rewrite !not_elem_of_cons. split; [|tauto]. intros Heq. apply (proj1 Hreg). by rewrite Heq.
Qed.
End allreduce_ring.

Lemma no_bytes size (ptrs : Z → list Z) (mems : Z → Mem) op es :
  1 ≤ size → op_ok es op → (∀ r, 0 ≤ r < size → ptrs r ≠ []) →
  foldl1 op (ranks size ≫= (λ q, (λ b, read (mems q) (mkRegion b 0 0)) <$> ptrs q)) = [].
Proof.
  intros Hs Hop Hne. apply length_zero_iff_nil. apply (foldl1_length es op Hop).
  - unfold ranks. rewrite seqZ_cons by lia. cbn [mbind list_bind]. specialize (Hne 0 ltac:(lia)). by destruct (ptrs 0).
  - apply Forall_forall. intros l (q & (b & -> & _)%list_elem_of_fmap & _)%list_elem_of_bind. done.
Qed.

(* ------------------------------------------------------------------ *)
(** * One integer for all notifications *)

Section one_dummy.
Context (size es count slot inbox outbox dummy_ dummyIn : Z) (op : RedOp) (ptrs : Z → list Z).
Context (Hboxes : NoDup [inbox; outbox; dummy_]) (Hfresh : dummyIn ∉ [inbox; outbox; dummy_]).
Context (Hptrs : ∀ r, 0 ≤ r < size → ∀ b, b ∈ ptrs r → b ∉ [dummy_; dummyIn]).

Abbreviation noise := (ring_noise dummy_ dummyIn).
Let apart_ (r : Z) : option RingBuffers := AllreduceRing_apart r size count es slot inbox outbox dummy_ dummyIn.
Let one_ (r : Z) : option RingBuffers := AllreduceRing r size count es slot inbox outbox dummy_.
Let bufs (r : Z) : list BBuf := from_option ring_receivers [] (apart_ r).

Lemma ar_quiet : ¬ noise inbox ∧ ¬ noise outbox.
Proof.
  clear - Hboxes Hfresh. rewrite !NoDup_cons in Hboxes. destruct Hboxes as (H1 & H2 & _). rewrite !not_elem_of_cons in *.
  split; apply not_noise; intuition congruence.
Qed.

Lemma ar_alias_bufs r : Forall2 (alias_buf noise (eq dummy_)) (bufs r) (from_option ring_receivers [] (one_ r)).
Proof.
  destruct ar_quiet as [Hi Ho]. unfold bufs, apart_, one_, AllreduceRing, AllreduceRing_apart. destruct (_ =? 1); [constructor|].
  by apply ring_alias_receivers.
Qed.

Lemma ar_alias_run r : 0 ≤ r < size →
  Forall2 (alias_act noise (eq dummy_) bufs r) (AllreduceRing_run size op es count (ptrs r) inbox outbox (apart_ r))
    (AllreduceRing_run size op es count (ptrs r) inbox outbox (one_ r)).
Proof.
  intros Hr. destruct ar_quiet as [Hi Ho]. assert (∀ b, b ∈ ptrs r → ¬ noise b) as Hp.
  { intros b Hb. specialize (Hptrs r Hr b Hb). rewrite !not_elem_of_cons in Hptrs. apply not_noise; tauto. }
  unfold AllreduceRing_run. destruct (count =? 0); [constructor|]. destruct (ptrs r) as [|p ps]; [by repeat constructor|].
  assert (¬ noise p) as Hp0 by (apply Hp; by left). assert (∀ q, q ∈ ps → ¬ noise q) as Hps by (intros q Hq; apply Hp; by right).
  repeat apply Forall2_app.
  - apply alias_computations, Forall_fmap, Forall_forall. intros q Hq. cbn. rewrite !Forall_cons, Forall_nil. split_and!; try done. by apply Hps.
  - apply alias_computations. rewrite Forall_cons, Forall_nil. split; [split; [done|by rewrite Forall_cons, Forall_nil]|done].
  - generalize (seqZ 0 (size - 1)). induction l as [|k l IH]; [constructor|]. cbn [mbind list_bind]. apply Forall2_app; [|exact IH].
    unfold apart_, one_, AllreduceRing, AllreduceRing_apart. destruct (size =? 1) eqn:E1; [by repeat constructor|].
    repeat apply Forall2_app.
    + by apply alias_send_all; [apply ring_alias_data|intros ?%Ho].
    + apply Forall2_cons. split; [done|]. apply Forall2_cons. split; [|by repeat constructor]. split_and!; try done. by rewrite !Forall_cons, Forall_nil.
    + destruct (_ <? _); [|constructor]. apply alias_computations. rewrite Forall_cons, Forall_nil. split; [split; [done|by rewrite Forall_cons, Forall_nil]|done].
    + apply alias_send_all; [by apply ring_alias_note|]. intros _. apply (ring_noisy size slot (slot + 1) (mkRegion outbox 0 (bytes_of count es))
        (mkRegion inbox 0 (bytes_of count es))); [lia|]. intros q. left. unfold bufs, apart_, AllreduceRing_apart. by rewrite E1.
    + by repeat constructor.
  - apply alias_computations, Forall_fmap, Forall_forall. intros q Hq. split; [by apply Hps|]. by rewrite Forall_cons, Forall_nil.
Qed.
End one_dummy.

(** C26: the ring allreduce over bound buffers. When every process of a group has
    constructed an [AllreduceRing] and calls [run], every execution ends, and
    all buffers of all processes hold the reduction of all buffers of all
    processes; nothing else changes but the memory the object owns ([inbox],
    [outbox] and the one integer that all notifications are sent from and
    received into). The reduction works element by element, and is associative
    and commutative. *)
Theorem AllreduceRing_correct size es count slot inbox outbox dummy_ op (ptrs : Z → list Z) mems
    (buffers := λ r, AllreduceRing r size count es slot inbox outbox dummy_) :
  1 ≤ size → 0 < es → 0 ≤ count → count * es < 2 ^ 31 → op_ok es op → op_ac op → NoDup [inbox; outbox; dummy_] →
  (∀ r, 0 ≤ r < size → ptrs r ≠ [] ∧ NoDup (ptrs r) ∧ ∀ b, b ∈ ptrs r → b ∉ [inbox; outbox; dummy_]) →
  bcomputes (λ r, from_option ring_receivers [] (buffers r))
    (group size (λ r, AllreduceRing_run size op es count (ptrs r) inbox outbox (buffers r))) mems
    (λ mems', ∀ r, 0 ≤ r < size →
      (∀ b, b ∈ ptrs r → read (mems' r) (mkRegion b 0 (count * es)) =
         foldl1 op (ranks size ≫= (λ q, (λ p, read (mems q) (mkRegion p 0 (count * es))) <$> ptrs q))) ∧
      ∀ reg, (rg_buf reg ∉ ptrs r ++ [inbox; outbox; dummy_]) → read (mems' r) reg = read (mems r) reg).
Proof.
  intros Hs Hes Hc Hb Hop Hac Hbox Hptrs. destruct (decide (count = 0)) as [->|Hne].
  { rewrite group_nil by done. apply bcomputes_nil. intros r Hr. split; [|done]. intros b _. etransitivity; [|symmetry; apply (no_bytes size ptrs mems op es Hs Hop); intros q Hq; by apply Hptrs]. done. }
  destruct (exists_fresh ((ranks size ≫= ptrs) ++ [inbox; outbox; dummy_])) as [dummyIn [Hf1 Hf2]%not_elem_of_app].
  assert (∀ r b, 0 ≤ r < size → b ∈ ptrs r → b ≠ dummyIn) as Hfp.
  { intros r b Hr Hbr ->. apply Hf1, list_elem_of_bind. exists r. split; [done|by apply elem_ranks]. }
  assert (∀ r, 0 ≤ r < size → ptrs r ≠ [] ∧ NoDup (ptrs r) ∧ ∀ b, b ∈ ptrs r → b ∉ [inbox; outbox; dummy_; dummyIn]) as Hptrs'.
  { intros r Hr. destruct (Hptrs r Hr) as (H1 & H2 & H3). split; [done|]. split; [done|]. intros b Hbr.
    specialize (H3 b Hbr). specialize (Hfp r b Hr Hbr). rewrite !not_elem_of_cons in *. tauto. }
  assert (NoDup [inbox; outbox; dummy_; dummyIn]) as Hbox'.
  { apply (NoDup_app [inbox; outbox; dummy_] [dummyIn]). split; [done|]. split; [|apply NoDup_singleton].
    intros b Hbb ->%list_elem_of_singleton. done. }
  eapply bcomputes_weaken.
  - eapply (alias_group_computes (ring_noise dummy_ dummyIn) (eq dummy_)); [|by intros r; apply ar_alias_bufs|..|
      by apply (ar_computes size es count slot inbox outbox dummy_ dummyIn op ptrs mems Hs Hop Hes ltac:(lia))].
    + intros b <-. by left.
    + intros r Hr. apply ar_alias_run; [done|done| |done]. intros q Hq b Hbq. destruct (Hptrs' q Hq) as (_ & _ & H). specialize (H b Hbq).
      rewrite !not_elem_of_cons in *. tauto.
  - intros mems' (m & Hm & Hal) r Hr. specialize (Hal r). specialize (Hm r Hr). cbv beta in Hm. destruct (Hptrs' r Hr) as (_ & _ & Hp).
    destruct (ar_result size es count slot inbox outbox dummy_ dummyIn op ptrs mems Hs Hop Hes ltac:(lia) Hb Hbox' Hptrs' Hac r Hr) as [H1 H2].
    rewrite <-Hm in H1, H2. split.
    + intros b Hbr. rewrite <-(H1 b) by done. apply (alias_read (ring_noise dummy_ dummyIn) (eq dummy_) mems r); [done|]. specialize (Hp b Hbr). rewrite !not_elem_of_cons in Hp.
      apply not_noise; cbn; tauto.
    + intros reg Hreg. rewrite not_elem_of_app, !not_elem_of_cons in Hreg.
      apply (alias_mem_read (ring_noise dummy_ dummyIn) (eq dummy_) mems r (m r)); [unfold ring_noise; apply _|done|intros Heq; symmetry in Heq; tauto|].
      intros Hn. apply H2. rewrite not_elem_of_app, !not_elem_of_cons. unfold ring_noise in Hn. tauto.
Qed.

(** Three processes with two buffers of five integers each. *)
Lemma AllreduceRing_correct_witness :
  bcomputes (λ r, from_option ring_receivers [] (AllreduceRing r 3 5 4 7 1 2 3))
    (group 3 (λ r, AllreduceRing_run 3 (sum 4) 4 5 [5; 6] 1 2 (AllreduceRing r 3 5 4 7 1 2 3))) demo_mems
    (λ mems', ∀ r, 0 ≤ r < 3 →
      (∀ b, b ∈ [5; 6] → read (mems' r) (mkRegion b 0 (5 * 4)) =
         foldl1 (sum 4) (ranks 3 ≫= (λ q, (λ p, read (demo_mems q) (mkRegion p 0 (5 * 4))) <$> [5; 6]))) ∧
      ∀ reg, (rg_buf reg ∉ [5; 6] ++ [1; 2; 3]) → read (mems' r) reg = read (demo_mems r) reg).
Proof.
  apply (AllreduceRing_correct 3 4 5 7 1 2 3 (sum 4) (λ _, [5; 6]) demo_mems); try lia;
    [apply (sum_ok 4); lia|apply (sum_ok 4); lia|apply (bool_decide_unpack _); by vm_compute|].
  intros r _. split; [done|]. split; [apply (bool_decide_unpack _); by vm_compute|].
  intros b Hb. apply (bool_decide_unpack _). assert (b = 5 ∨ b = 6) as [-> | ->] by set_solver; by vm_compute.
Defined.

(** The local one: every buffer ends with the reduction of all of them. *)
Lemma AllreduceLocal_correct op es count ptrs m (m' := mem_after m (net_prog (Do <$> AllreduceLocal_run op es count ptrs))) :
  0 < es → 0 ≤ count → count * es < 2 ^ 31 → op_ok es op → NoDup ptrs →
  (∀ b, b ∈ ptrs → read m' (mkRegion b 0 (count * es)) = foldl1 op ((λ p, read m (mkRegion p 0 (count * es))) <$> ptrs)) ∧
  ∀ reg, (rg_buf reg ∉ ptrs) → read m' reg = read m reg.
Proof.
  intros Hes Hc Hb Hop Hnd. destruct ptrs as [|p ps]; [split; [by intros b ?%not_elem_of_nil|done]|].
  unfold m', AllreduceLocal_run. rewrite fmap_app, net_prog_app, mem_after_app.
  destruct (reduce_ptrs_effect es count op Hop Hes Hc p ps m Hnd) as [H1 H2]. apply NoDup_cons in Hnd as [Hn _].
  destruct (broadcast_ptrs_effect es count Hes Hc Hb p ps (mem_after m (net_prog (Do <$> reduce_ptrs op es count (p :: ps)))) Hn) as [H3 H4].
  split.
  - intros b Hin. rewrite H3 by done. exact H1.
  - intros reg Hreg. rewrite H4 by done. apply H2. rewrite not_elem_of_cons in Hreg. tauto.
Qed.
