(* ===== verification/AllgatherRing.v ===== *)
(** [allgather_ring.h]: every process passes on what it received, until the
    inputs of all have been everywhere. *)
From Stdlib Require Import FunctionalExtensionality.
From S2P Require Import Prelude Net NetRun Groups Rounds Reducing BoundNet BoundAlias BoundRounds Once OneToAll BoundRing AllreduceRing.

(** The constructor, with [n] input buffers; a process has no pair to
    itself. *)
Definition AllgatherRing (contextRank contextSize n outPtr count elementSize slot dummy_ : Z) : outcome RingBuffers :=
  let bytes := bytes_of count elementSize in
  let size := u64 (u64 (n * contextSize) * u64 bytes) in
  if contextSize =? 1 then Exn EnforceNotMet
  else Val (ring_buffers contextRank contextSize slot (slot + 1) (mkRegion outPtr 0 size) (mkRegion outPtr 0 size) dummy_).

(** [inputStride_] *)
Definition inputStride (count n : Z) : Z := s32 (u64 (u64 count * n)).

(** The rounds from [round] on, for the [i]-th input. *)
Fixpoint allgather_rounds (k : nat) (rank contextSize n count elementSize i round inRank : Z) (b : RingBuffers) : list BAct :=
  match k with
  | O => []
  | S k =>
      let sendOffset := s32 (inRank * inputStride count n + i * count) in
      buffer_send (sendDataBuf_ b) (u64 (sendOffset * elementSize)) (bytes_of count elementSize) (u64 (sendOffset * elementSize)) ++
      [buffer_waitRecv (recvDataBuf_ b)] ++
      buffer_send_all (sendNotificationBuf_ b) ++
      [buffer_waitRecv (recvNotificationBuf_ b)] ++
      allgather_rounds k rank contextSize n count elementSize i (round + 1)
        (Z.rem (contextSize - 1 - round + rank) contextSize) b
  end.

Definition AllgatherRing_run (rank contextSize : Z) (inPtrs : list Z) (outPtr count elementSize : Z) (b : RingBuffers) : list BAct :=
  let n := lenZ inPtrs in
  let bytes := bytes_of count elementSize in
  if (contextSize =? 1) || (count =? 0) then []
  else
    imap (λ i inPtr, bcopy (mkRegion outPtr ((rank * inputStride count n + Z.of_nat i * count) * elementSize) bytes) (mkRegion inPtr 0 bytes)) inPtrs ++
    (seqZ 0 n ≫= (λ i, allgather_rounds (Z.to_nat (contextSize - 1)) rank contextSize n count elementSize i 0 rank b)).

Example AllgatherRing_alone : AllgatherRing 0 1 1 5 10 4 7 8 = Exn EnforceNotMet.
Proof. reflexivity. Qed.

(** Two nested loops are one. *)
Lemma bind_product {A} (f : nat → nat → list A) n m : m ≠ O →
  seq 0 n ≫= (λ i, seq 0 m ≫= f i) = seq 0 (n * m) ≫= (λ k, f (k / m)%nat (k `mod` m)%nat).
Proof.
  intros Hm. induction n as [|n IH]; [done|]. rewrite seq_S, bind_app, IH. cbn [mbind list_bind Nat.add]. rewrite app_nil_r.
  replace (S n * m)%nat with (n * m + m)%nat by lia. rewrite seq_app, bind_app. f_equal.
  replace (seq (0 + n * m) m) with (Nat.add (n * m) <$> seq 0 m) by (rewrite fmap_add_seq; f_equal; lia). rewrite list_fmap_bind. apply bind_ext_elem. intros j Hj%elem_of_seq. unfold compose.
  rewrite Nat.div_add_l, (Nat.div_small j), Nat.add_0_r by lia. f_equal. rewrite Nat.add_comm, Nat.Div0.mod_add, Nat.mod_small by lia. done.
Qed.

Section allgather_ring.
Context (size n outPtr count es slot dummy_ dummyIn : Z) (inPtrs : Z → list Z) (mems : Z → Mem).
Context (Hsize : 2 ≤ size) (Hes : 0 < es) (Hcount : 0 < count) (Hn : 0 ≤ n) (Hbytes : size * n * count * es < 2 ^ 31).
Context (Hsmall : count * es < 2 ^ 31).
Context (Hbufs_apart : outPtr ≠ dummy_ ∧ outPtr ≠ dummyIn ∧ dummy_ ≠ dummyIn).
Context (Hin : ∀ r, 0 ≤ r < size → lenZ (inPtrs r) = n ∧ ∀ b, b ∈ inPtrs r → b ≠ outPtr).

Abbreviation bytes := (count * es).
(** The place of the [i]-th input of process [o]. *)
Definition ag_block (o i : Z) : Region := mkRegion outPtr ((o * n + i) * bytes) bytes.

Let P1 : nat := Z.to_nat (size - 1).
Let K : nat := (Z.to_nat n * P1)%nat.
(** The input sent in round [k], and where it comes from. *)
Let ix (k : nat) : Z := Z.of_nat (k / P1).
Let own (k : nat) (r : Z) : Z := (r - Z.of_nat (k `mod` P1)) `mod` size.

Let b_ (r : Z) : RingBuffers :=
  ring_buffers_apart r size slot (slot + 1) (mkRegion outPtr 0 (n * size * bytes)) (mkRegion outPtr 0 (n * size * bytes)) dummy_ dummyIn.
(** The buffers the constructor makes. *)
Let one_ (r : Z) : RingBuffers :=
  ring_buffers r size slot (slot + 1) (mkRegion outPtr 0 (n * size * bytes)) (mkRegion outPtr 0 (n * size * bytes)) dummy_.
Let run (r : Z) : list BAct := AllgatherRing_run r size (inPtrs r) outPtr count es (b_ r).

Let sx (k : nat) (r : Z) : Region := ag_block (own k r) (ix k).
Let ro (k : nat) (r : Z) : Z := (own k r * n + ix k) * bytes.
Let pre (r : Z) : list BAct := imap (λ i inPtr, bcopy (ag_block r (Z.of_nat i)) (mkRegion inPtr 0 bytes)) (inPtrs r).
Let prog (r : Z) : list GAct :=
  ring_program size slot (slot + 1) dummy_ dummyIn K (λ _, mkRegion outPtr 0 (n * size * bytes)) sx ro pre (λ _, []) (λ _ _, []) r.

Lemma ag_P1 : P1 ≠ O ∧ Z.of_nat P1 = size - 1.
Proof. unfold P1. lia. Qed.

Lemma ag_constructed r : AllgatherRing r size n outPtr count es slot dummy_ = Val (one_ r).
Proof.
  unfold AllgatherRing, one_. rewrite (proj2 (Z.eqb_neq size 1)), sum_bytes_small by lia. 
  rewrite (wrap_small 64 bytes), (wrap_small 64 (n * size)), wrap_small by (unfold in_range; nia). done.
Qed.

Lemma ag_round k r : (k < K)%nat → 0 ≤ r < size → 0 ≤ own k r < size ∧ 0 ≤ ix k < n ∧ (k `mod` P1 < P1)%nat ∧ Z.of_nat (k `mod` P1) < size - 1.
Proof.
  intros Hk Hr. destruct ag_P1 as [Hp Hp']. pose proof (Nat.mod_upper_bound k P1 Hp).
  split; [apply Z.mod_pos_bound; lia|]. split; [|lia]. unfold ix.
  pose proof (Nat.Div0.div_lt_upper_bound k P1 (Z.to_nat n)). unfold K in Hk. nia.
Qed.

Lemma ag_offset o i : 0 ≤ o < size → 0 ≤ i < n → 0 ≤ (o * n + i) * bytes ∧ (o * n + i) * bytes + bytes ≤ n * size * bytes ∧
  (o * n + i) * count < 2 ^ 31 ∧ n * size * bytes < 2 ^ 31.
Proof.
  intros Ho Hi. assert (o * n + i + 1 ≤ n * size) by nia. assert (0 < bytes) by nia. split; [nia|]. split; [nia|]. split; [|nia].
  assert ((o * n + i) * count ≤ n * size * count) by nia. nia.
Qed.

Lemma ag_stride : inputStride count n = count * n.
Proof.
  unfold inputStride. assert (count * n < 2 ^ 31) by nia. assert (count < 2 ^ 31) by nia. 
  rewrite (wrap_small 64 count), wrap_small, swrap_small by (unfold in_range; nia). done.
Qed.

Lemma ag_send r o i : 0 ≤ r < size → 0 ≤ o < size → 0 ≤ i < n →
  let sendOffset := s32 (o * inputStride count n + i * count) in
  buffer_send (sendDataBuf_ (b_ r)) (u64 (sendOffset * es)) (bytes_of count es) (u64 (sendOffset * es)) =
  [BPut (mkXferOf (ring_next size r) slot (ag_block o i) 0) ((o * n + i) * bytes)].
Proof.
  intros Hr Ho Hi sendOffset. destruct (ag_offset o i Ho Hi) as (H1 & H2 & H3 & H4).
  assert (sendOffset = (o * n + i) * count) as ->.
  { unfold sendOffset. rewrite ag_stride. replace (o * (count * n) + i * count) with ((o * n + i) * count) by lia. apply swrap_small; nia. }
  replace ((o * n + i) * count * es) with ((o * n + i) * bytes) by lia. rewrite (wrap_small 64), sum_bytes_small by (unfold in_range; lia).
  unfold buffer_send. rewrite (wrap_small 64) by (unfold in_range; nia). cbn [b_ ring_buffers_apart ring_buffers sendDataBuf_ createSendBuffer bb_reg rg_len].
  rewrite (proj2 (Z.leb_le _ _)) by lia. done.
Qed.

Lemma ag_rounds_from r i k : 0 ≤ r < size → 0 ≤ i < n → ∀ j, (j + k ≤ P1)%nat →
  allgather_rounds k r size n count es i (Z.of_nat j) ((r - Z.of_nat j) `mod` size) (b_ r) =
  seq j k ≫= (λ j, let o := (r - Z.of_nat j) `mod` size in
    [BPut (mkXferOf (ring_next size r) slot (ag_block o i) 0) ((o * n + i) * bytes); BWaitRecv 0;
     BPut (note_put size (slot + 1) dummy_ r) 0; BWaitRecv 1]).
Proof.
  intros Hr Hi. destruct ag_P1 as [_ HP]. induction k as [|k IH]; intros j Hj; [done|]. cbn [allgather_rounds seq mbind list_bind].
  rewrite ag_send by (done || apply Z.mod_pos_bound; lia).
  assert (Z.rem (size - 1 - Z.of_nat j + r) size = (r - Z.of_nat (S j)) `mod` size) as ->.
  { rewrite Z.rem_mod_nonneg by lia. replace (size - 1 - Z.of_nat j + r) with (r - Z.of_nat (S j) + 1 * size) by lia. apply Z.mod_add. lia. }
  replace (Z.of_nat j + 1) with (Z.of_nat (S j)) by lia. rewrite IH by lia.
  rewrite buffer_send_whole by (cbn; lia). unfold xfer_of, note_put. cbn [b_ ring_buffers_apart ring_buffers sendNotificationBuf_ recvDataBuf_ recvNotificationBuf_ createSendBuffer createRecvBuffer bb_peer bb_slot bb_reg bb_id].
  by rewrite (proj1 (next_prev_mod size r)).
Qed.

Lemma ag_pre_copies r : Forall (λ a, match a with BCompute _ _ _ => True | _ => False end) (pre r).
Proof. unfold pre. apply Forall_forall. intros a (i & b & -> & _)%elem_of_lookup_imap_1. done. Qed.

Lemma ag_neutral k r : neutral (pre r) ∧ neutral ((λ (_ : nat) (_ : Z), []) k r) ∧ neutral ((λ _ : Z, []) r).
Proof. split; [|split; constructor]. by apply neutral_computes, ag_pre_copies. Qed.

Lemma ag_code r : 0 ≤ r < size → run r = code (prog r).
Proof.
  intros Hr. unfold prog. rewrite ring_code by apply ag_neutral. unfold run, AllgatherRing_run. destruct (Hin r Hr) as [Hl _].
  rewrite (proj2 (Z.eqb_neq size 1)), (proj2 (Z.eqb_neq count 0)), Hl, app_nil_r by lia. cbn [orb]. f_equal.
  - unfold pre. rewrite ag_stride, sum_bytes_small by lia. apply imap_ext. intros i b _. unfold ag_block. do 2 f_equal. lia.
  - rewrite bind_seqZ. destruct ag_P1 as [HP _]. transitivity (seq 0 (Z.to_nat n) ≫= (λ i, seq 0 P1 ≫= (λ j,
      let o := (r - Z.of_nat j) `mod` size in
      [BPut (mkXferOf (ring_next size r) slot (ag_block o (Z.of_nat i)) 0) ((o * n + Z.of_nat i) * bytes); BWaitRecv 0;
       BPut (note_put size (slot + 1) dummy_ r) 0; BWaitRecv 1]))).
    + apply bind_ext_elem. intros i Hi%elem_of_seq. rewrite <-(ag_rounds_from r (Z.of_nat i) P1) by lia.
      cbn [Z.of_nat]. by rewrite Z.sub_0_r, Z.mod_small by done.
    + rewrite (bind_product _ _ _ HP). apply bind_ext_all. intros k. done.
Qed.

(* ------------------------------------------------------------------ *)
(** ** Memory *)

Lemma ag_blocks_apart o i o' i' : 0 ≤ i < n → 0 ≤ i' < n → (o, i) ≠ (o', i') → apart (ag_block o i) (ag_block o' i').
Proof.
  intros Hi Hi' Hne. apply apart_off. cbn. assert (o * n + i ≠ o' * n + i') as H.
  { intros Heq. apply Hne. assert (o = o') by nia. subst. f_equal. lia. }
  assert (0 < bytes) by nia. assert (o * n + i + 1 ≤ o' * n + i' ∨ o' * n + i' + 1 ≤ o * n + i) as [Hlt|Hlt] by lia; [left|right]; nia.
Qed.

(** The copies of the process's own inputs. *)
Lemma ag_copies r l : (∀ b, b ∈ l → b ≠ outPtr) → ∀ k m, Z.of_nat k + lenZ l ≤ n →
  let m' := mem_after m (net_prog (Do <$> imap (λ i inPtr, bcopy (ag_block r (Z.of_nat (k + i))) (mkRegion inPtr 0 bytes)) l)) in
  (∀ i b, l !! i = Some b → read m' (ag_block r (Z.of_nat (k + i))) = read m (mkRegion b 0 bytes)) ∧
  ∀ reg, (∀ i, (i < length l)%nat → apart (ag_block r (Z.of_nat (k + i))) reg) → read m' reg = read m reg.
Proof.
  induction l as [|b l IH]; intros Hl k m Hk m'; [done|]. unfold lenZ in Hk, IH. unfold m'. rewrite imap_cons. cbn [fmap list_fmap net_prog net_act bcopy mem_after].
  cbn [length] in Hk.
  destruct (IH (λ b' Hb', Hl b' (list_elem_of_further _ _ _ Hb')) (S k) (compute m (ag_block r (Z.of_nat (k + 0))) (λ l, hd [] l) [mkRegion b 0 bytes]) ltac:(lia)) as [H1 H2].
  assert (∀ (l : list Z), imap ((λ i inPtr, bcopy (ag_block r (Z.of_nat (k + i))) (mkRegion inPtr 0 bytes)) ∘ S) l =
    imap (λ i inPtr, bcopy (ag_block r (Z.of_nat (S k + i))) (mkRegion inPtr 0 bytes)) l) as Hshift.
  { intros l'. apply imap_ext. intros i x Hx. unfold compose. by rewrite Nat.add_succ_comm. }
  rewrite Hshift. clear Hshift. unfold net_prog in H1, H2. split.
  - intros [|i] x Hx.
    + injection Hx as <-. etransitivity; [apply H2|].
      * intros i Hi. apply ag_blocks_apart; [lia|lia|]. intros [= ?]. lia.
      * apply read_copy; [done|cbn; nia].
    + rewrite <-Nat.add_succ_comm. etransitivity; [by apply H1|]. apply read_compute, apart_buf. cbn.
      intros Heq. symmetry in Heq. revert Heq. apply Hl. by apply (list_elem_of_lookup_2 _ (S i)).
  - intros reg Hreg. etransitivity; [apply H2|].
    + intros i Hi. rewrite Nat.add_succ_comm. apply Hreg. cbn. lia.
    + apply read_compute. apply (Hreg O). cbn. lia.
Qed.

(** The inputs, and where they have arrived after [k] rounds. *)
Let val (o i : Z) : list Z := read (mems o) (mkRegion (nth (Z.to_nat i) (inPtrs o) 0) 0 bytes).
Definition ag_known (k : nat) (r o i : Z) : Prop :=
  o = r ∨ ∃ t, 1 ≤ t < size ∧ o = (r - t) `mod` size ∧ i * (size - 1) + (t - 1) < Z.of_nat k.
Let M : nat → Z → Mem := ring_memory size dummy_ dummyIn (λ _, mkRegion outPtr 0 (n * size * bytes)) sx ro pre (λ _ _, []) mems.
Definition agr_inv (k : nat) : Prop := ∀ r, 0 ≤ r < size →
  (∀ o i, 0 ≤ o < size → 0 ≤ i < n → ag_known k r o i → read (M k r) (ag_block o i) = val o i) ∧
  ∀ reg, (rg_buf reg ∉ [outPtr; dummyIn]) → read (M k r) reg = read (mems r) reg.

Lemma ag_inv0 : agr_inv 0.
Proof.
  intros r Hr. destruct (Hin r Hr) as [Hl Hb]. destruct (ag_copies r (inPtrs r) Hb 0 (mems r) ltac:(lia)) as [H1 H2].
  unfold M. cbn [ring_memory]. split.
  - intros o i Ho Hi [->|(t & Ht & _ & Hk)]; [|nia]. unfold lenZ in Hl.
    destruct (lookup_lt_is_Some_2 (inPtrs r) (Z.to_nat i)) as [b Hib]; [lia|]. specialize (H1 _ _ Hib).
    cbn [Nat.add] in H1. rewrite Z2Nat.id in H1 by lia. unfold pre, val. rewrite (nth_lookup_Some _ _ 0 _ Hib). exact H1.
  - intros reg Hreg. apply H2. intros i _. apply apart_buf. cbn. rewrite !not_elem_of_cons in Hreg. intuition congruence.
Qed.

Lemma ag_own_left k r : own k (ring_prev size r) = (r - (Z.of_nat (k `mod` P1) + 1)) `mod` size.
Proof. unfold own, ring_prev. rewrite Zminus_mod_idemp_l. f_equal. lia. Qed.

Lemma ag_inv_S k : (k < K)%nat → agr_inv k → agr_inv (S k).
Proof.
  intros Hk Hinv r Hr. assert (0 ≤ ring_prev size r < size) as Hl by (apply Z.mod_pos_bound; lia).
  destruct (ag_round k _ Hk Hl) as (Ho & Hi & Hj & Hj'). destruct ag_P1 as [HP HP']. destruct Hbufs_apart as (Hd1 & Hd2 & Hd3).
  destruct (Hinv r Hr) as [HM Hrest]. set (o := own k (ring_prev size r)) in *. set (i := ix k) in *.
  assert (Z.of_nat k = i * (size - 1) + Z.of_nat (k `mod` P1)) as Hkk.
  { unfold i, ix. rewrite <-HP', (Nat.div_mod k P1 HP) at 1. lia. }
  assert (read (M k (ring_prev size r)) (ag_block o i) = val o i) as Hval.
  { apply (Hinv _ Hl); [done|done|]. destruct (decide (k `mod` P1 = 0)%nat) as [Hz|Hz].
    - left. unfold o, own. rewrite Hz, Z.sub_0_r. by apply Z.mod_small.
    - right. exists (Z.of_nat (k `mod` P1)). split; [lia|]. split; [done|lia]. }
  assert (∀ reg, rg_buf reg ≠ dummyIn → read (M (S k) r) reg = read (write (M k r) (ag_block o i) (val o i)) reg) as Hstep.
  { intros reg Hreg. unfold M. cbn [ring_memory]. etransitivity; [apply read_write, apart_buf; cbn; congruence|].
    unfold ring_used, ring_received. cbn [net_prog fmap list_fmap mem_after]. fold M.
    change (sx k (ring_prev size r)) with (ag_block o i). by rewrite Hval. }
  assert (lenZ (val o i) = bytes) as Hlen by (unfold val, lenZ; rewrite read_length; cbn; nia). unfold lenZ in Hlen.
  split.
  - intros o' i' Ho' Hi' Hkn. rewrite Hstep by (cbn; congruence).
    destruct (decide ((o', i') = (o, i))) as [[= -> ->]|Hne]; [by apply read_write_same|].
    rewrite read_write by (apply ag_blocks_apart; done). apply HM; [done|done|].
    destruct Hkn as [?|(t & Ht & Hot & Hkt)]; [by left|right]. exists t. split; [done|]. split; [done|].
    destruct (decide (i' * (size - 1) + (t - 1) = Z.of_nat k)) as [Heq|]; [|lia]. exfalso. apply Hne.
    destruct (Z.div_mod_unique (size - 1) i' i (t - 1) (Z.of_nat (k `mod` P1))) as [-> Htk]; [left; lia|left; lia|lia|].
    f_equal. replace t with (Z.of_nat (k `mod` P1) + 1) in Hot by lia. by rewrite Hot, <-ag_own_left.
  - intros reg Hreg. rewrite !not_elem_of_cons in Hreg. rewrite Hstep by tauto.
    rewrite read_write by (apply apart_buf; cbn; intuition congruence). apply Hrest. rewrite !not_elem_of_cons. tauto.
Qed.

Lemma ag_invariant k : (k ≤ K)%nat → agr_inv k.
Proof. induction k as [|k IH]; intros Hk; [exact ag_inv0|]. apply ag_inv_S; [lia|]. apply IH. lia. Qed.

Lemma ag_result r : 0 ≤ r < size →
  (∀ o i, 0 ≤ o < size → 0 ≤ i < n → read (M K r) (ag_block o i) = val o i) ∧
  ∀ reg, (rg_buf reg ∉ [outPtr; dummyIn]) → read (M K r) reg = read (mems r) reg.
Proof.
  intros Hr. destruct (ag_invariant K (le_n K) r Hr) as [H1 H2]. split; [|done]. intros o i Ho Hi. apply H1; [done|done|].
  destruct (decide (o = r)) as [->|Hne]; [by left|right]. exists ((r - o) `mod` size).
  pose proof (Z.mod_pos_bound (r - o) size ltac:(lia)). destruct ag_P1 as [HP HP'].
  assert ((r - o) `mod` size ≠ 0) as Hz.
  { intros Hz. apply Hne. apply Z.mod_divide in Hz as [c Hc]; [|lia]. assert (c = 0) by nia. subst. lia. }
  split; [lia|]. split.
  - rewrite Zminus_mod_idemp_r. replace (r - (r - o)) with o by lia. by rewrite Z.mod_small.
  - unfold K. rewrite Nat2Z.inj_mul, HP', Z2Nat.id by lia. nia.
Qed.

(* ------------------------------------------------------------------ *)
(** ** Running *)

(** What has been sent is not what is received later. *)
Lemma ag_sent_apart j k r : (j ≤ k < K)%nat → 0 ≤ r < size → apart (sx j r) (ag_block (own k (ring_prev size r)) (ix k)).
Proof.
  intros Hjk Hr. destruct (ag_round j r ltac:(lia) Hr) as (_ & Hi & _ & Hj). destruct (ag_round k r ltac:(lia) Hr) as (_ & Hi' & _ & Hk).
  destruct ag_P1 as [HP _]. apply ag_blocks_apart; [done|done|]. intros [= Ho Hx]. rewrite ag_own_left in Ho. unfold own in Ho.
  apply peer_neq in Ho; [|lia|lia]. pose proof (Nat.div_mod j P1 HP). pose proof (Nat.div_mod k P1 HP). unfold ix in Hx.
  assert (j / P1 = k / P1)%nat as Hq by lia. rewrite Hq in *. lia.
Qed.

Lemma ag_pre_fifo r p : 0 ≤ r < size →
  let pr := gposts (next_post size slot K (λ _, mkRegion outPtr 0 (n * size * bytes)) sx ro r 0) in
  fifo [] pr p → fifo [] pr (net_prog (Do <$> pre r) ++ p).
Proof.
  intros Hr pr. destruct (Hin r Hr) as [Hl Hb]. assert (0 ≤ ring_prev size r < size) as Hlr by (apply Z.mod_pos_bound; lia).
  unfold pr, next_post. destruct (Nat.ltb_spec 0 K) as [HK|HK].
  - destruct (ag_round 0 r HK Hr) as (_ & Hix & _). apply (fifo_quiet [] [ag_block (own 0 (ring_prev size r)) (ix 0)]); [|by intros x ?%not_elem_of_nil|].
    + apply Forall_forall. intros a Ha. unfold net_prog, pre in Ha. apply list_elem_of_fmap in Ha as (g & -> & Hg).
      apply list_elem_of_fmap in Hg as (a & -> & (i & b & -> & Hib)%elem_of_lookup_imap_1). cbn.
      pose proof (lookup_lt_Some _ _ _ Hib) as Hi. unfold lenZ in Hl. split; constructor; try done.
      * apply ag_blocks_apart; [lia|lia|]. intros [= Ho _]. rewrite ag_own_left, Nat.Div0.mod_0_l in Ho.
        replace (Z.of_nat 0 + 1) with 1 in Ho by lia. by apply (neighbours_neq size r) in Ho.
      * constructor; [|done]. apply apart_buf. cbn. intros Heq. apply (Hb b); [by eapply list_elem_of_lookup_2|done].
    + intros x ->%list_elem_of_singleton. left.
  - assert (inPtrs r = [] ∨ K ≠ O) as [Hz|] by (destruct (inPtrs r) as [|b l]; [by left|right]; unfold K, lenZ in *; cbn in Hl; destruct ag_P1; nia); [|lia].
    unfold pre. by rewrite Hz.
Qed.

Lemma agr_computes : bcomputes (λ r, ring_receivers (b_ r)) (group size run) mems (λ mems', ∀ r, 0 ≤ r < size → mems' r = M K r).
Proof.
  assert (group size run = group size (λ r, code (prog r))) as -> by (apply group_ext, ag_code).
  destruct Hbufs_apart as (H1 & H2 & H3). 
  assert (∀ k r, (k < K)%nat → 0 ≤ r < size → 0 ≤ ro k r ∧ ro k r + bytes ≤ n * size * bytes) as Hro.
  { intros k r Hk Hr. destruct (ag_round k r Hk Hr) as (Ho & Hi & _). destruct (ag_offset _ _ Ho Hi) as (? & ? & _). done. }
  apply (bring_computes size slot (slot + 1) dummy_ dummyIn K (λ _, mkRegion outPtr 0 (n * size * bytes)) sx ro pre (λ _, []) (λ _ _, []) ltac:(lia) ltac:(lia) ag_neutral) with (ws := false).
  - intros r HK Hr. unfold find_buf. cbn. rewrite (proj1 (next_prev_mod size r)). fold (ring_prev size r) (ring_next size r). rewrite !Z.eqb_refl. cbn.
    split; [done|]. by rewrite (proj2 (Z.eqb_neq slot (slot + 1))), andb_false_r by lia.
  - intros k r Hk Hr. destruct (Hro k r Hk Hr). cbn. nia.
  - intros k r b. split; [|done]. apply neutral_computes, ag_pre_copies.
  - intros k r Hk Hr. split; [done|]. split; [done|]. split; [done|]. split; [done|].
    change (ring_rx size (λ _ : Z, mkRegion outPtr 0 (n * size * bytes)) sx ro k r) with (ag_block (own k (ring_prev size r)) (ix k)).
    split; [|intros _ j Hj; apply ag_sent_apart; [lia|done]].
    intros b i Ha Hb. by apply (ag_sent_apart k k r ltac:(lia) Hr b i).
  - intros r p Hr. by apply ag_pre_fifo.
  - intros k r p _ _ Hp. exact Hp.
  - intros r Hr. constructor.
Qed.

(* ------------------------------------------------------------------ *)
(** ** One integer for all notifications *)

Context (Hquiet : ∀ r, 0 ≤ r < size → ∀ b, b ∈ inPtrs r → b ≠ dummy_ ∧ b ≠ dummyIn).
Abbreviation noise := (ring_noise dummy_ dummyIn).

Lemma ag_alias_rounds r i b b' k : ¬ noise (rg_buf (bb_reg (sendDataBuf_ b))) → sendDataBuf_ b' = sendDataBuf_ b →
  bb_id (recvDataBuf_ b) = bb_id (recvDataBuf_ b') → bb_id (recvNotificationBuf_ b) = bb_id (recvNotificationBuf_ b') →
  Forall2 (alias_act noise (eq dummy_) (λ r, ring_receivers (b_ r)) r) (buffer_send_all (sendNotificationBuf_ b)) (buffer_send_all (sendNotificationBuf_ b')) →
  ∀ round inRank, Forall2 (alias_act noise (eq dummy_) (λ r, ring_receivers (b_ r)) r)
    (allgather_rounds k r size n count es i round inRank b) (allgather_rounds k r size n count es i round inRank b').
Proof.
  intros Hd Hsd Hrd Hrn Hsn. induction k as [|k IH]; intros round inRank; [constructor|]. cbn [allgather_rounds].
  repeat apply Forall2_app; [|by apply Forall2_cons|done|by apply Forall2_cons|apply IH]. rewrite Hsd. by apply alias_send.
Qed.

Lemma ag_alias_run r : 0 ≤ r < size →
  Forall2 (alias_act noise (eq dummy_) (λ r, ring_receivers (b_ r)) r) (run r) (AllgatherRing_run r size (inPtrs r) outPtr count es (one_ r)).
Proof.
  intros Hr. assert (¬ noise outPtr) as Ho by (apply not_noise; tauto). unfold run, AllgatherRing_run. destruct (_ || _); [constructor|].
  apply Forall2_app.
  - apply alias_computations, Forall_forall. intros a (i & b & -> & Hb%list_elem_of_lookup_2)%elem_of_lookup_imap_1.
    destruct (Hquiet r Hr b Hb). split; [done|]. rewrite Forall_cons, Forall_nil. split; [by apply not_noise|done].
  - destruct (Hin r Hr) as [-> _]. generalize (seqZ 0 n). induction l as [|i l IH]; [constructor|]. cbn [mbind list_bind].
    apply Forall2_app; [|exact IH]. apply ag_alias_rounds; [done..|]. apply alias_send_all; [by apply ring_alias_note|]. intros _.
    apply (ring_noisy size slot (slot + 1) (mkRegion outPtr 0 (n * size * bytes)) (mkRegion outPtr 0 (n * size * bytes))); [lia|by left].
Qed.

Lemma agr_computes_one : bcomputes (λ r, ring_receivers (one_ r)) (group size (λ r, AllgatherRing_run r size (inPtrs r) outPtr count es (one_ r))) mems
  (λ mems', ∀ r, 0 ≤ r < size → alias_mem noise (eq dummy_) mems r (M K r) (mems' r)).
Proof.
  eapply bcomputes_weaken.
  - eapply (alias_group_computes noise (eq dummy_)); [by intros b <-; left| | |apply agr_computes].
    + intros r. by apply ring_alias_receivers; apply not_noise; cbn; tauto.
    + apply ag_alias_run.
  - intros mems' (m & Hm & Hal) r Hr. specialize (Hal r). by rewrite Hm in Hal.
Qed.

Lemma ag_result_one r m' : 0 ≤ r < size → alias_mem noise (eq dummy_) mems r (M K r) m' →
  (∀ o i, 0 ≤ o < size → 0 ≤ i < n → read m' (ag_block o i) = val o i) ∧
  ∀ reg, (rg_buf reg ∉ [outPtr; dummy_]) → read m' reg = read (mems r) reg.
Proof.
  intros Hr Hal. destruct (ag_result r Hr) as [H1 H2]. split.
  - intros o i Ho Hi. rewrite <-H1 by done. apply (alias_read noise (eq dummy_) mems r); [done|]. apply not_noise; cbn; tauto.
  - intros reg Hreg. rewrite !not_elem_of_cons in Hreg.
    apply (alias_mem_read noise (eq dummy_) mems r (M K r)); [unfold ring_noise; apply _|done|intros Heq; symmetry in Heq; tauto|].
    intros Hno. apply H2. rewrite !not_elem_of_cons. unfold ring_noise in Hno. tauto.
Qed.
End allgather_ring.

(** C27: the ring allgather over bound buffers, among at least two processes with
    the same number of inputs. The constructors succeed, and every process runs
    to its end with the inputs of all processes, in order, in its output; no
    other memory changes but the one integer that all notifications are sent
    from and received into. *)
Theorem AllgatherRing_correct size n outPtr count es slot dummy_ (inPtrs : Z → list Z) mems :
  2 ≤ size → 0 < es → 0 ≤ count → count * es < 2 ^ 31 → size * n * count * es < 2 ^ 31 → outPtr ≠ dummy_ →
  (∀ r, 0 ≤ r < size → lenZ (inPtrs r) = n ∧ ∀ b, b ∈ inPtrs r → b ∉ [outPtr; dummy_]) →
  ∃ buffers : Z → RingBuffers,
    (∀ r, AllgatherRing r size n outPtr count es slot dummy_ = Val (buffers r)) ∧
    bcomputes (λ r, ring_receivers (buffers r)) (group size (λ r, AllgatherRing_run r size (inPtrs r) outPtr count es (buffers r))) mems
      (λ mems', ∀ r, 0 ≤ r < size →
        (∀ q i, 0 ≤ q < size → 0 ≤ i < n → read (mems' r) (mkRegion outPtr ((q * n + i) * (count * es)) (count * es)) =
           read (mems q) (mkRegion (nth (Z.to_nat i) (inPtrs q) 0) 0 (count * es))) ∧
        ∀ reg, (rg_buf reg ∉ [outPtr; dummy_]) → read (mems' r) reg = read (mems r) reg).
Proof.
  intros Hs Hes Hc Hb Hb' Hd Hin. assert (0 ≤ n) as Hn by (destruct (Hin 0 ltac:(lia)) as [<- _]; unfold lenZ; lia).
  destruct (decide (count = 0)) as [->|Hne].
  { eexists. split; [intros r; unfold AllgatherRing; by rewrite (proj2 (Z.eqb_neq size 1)) by lia|].
    rewrite group_nil by (intros r _; unfold AllgatherRing_run; by destruct (size =? 1)). apply bcomputes_nil. by intros r Hr. }
  destruct (exists_fresh ((ranks size ≫= inPtrs) ++ [outPtr; dummy_])) as [dummyIn [Hf1 Hf2]%not_elem_of_app].
  rewrite !not_elem_of_cons in Hf2. assert (∀ r, 0 ≤ r < size → ∀ b, b ∈ inPtrs r → b ≠ outPtr ∧ b ≠ dummy_ ∧ b ≠ dummyIn) as Hq.
  { intros r Hr b Hbr. destruct (Hin r Hr) as [_ H]. specialize (H b Hbr). rewrite !not_elem_of_cons in H. split; [tauto|].
    split; [tauto|]. intros ->. apply Hf1, list_elem_of_bind. exists r. split; [done|by apply elem_ranks]. }
  assert (∀ r, 0 ≤ r < size → lenZ (inPtrs r) = n ∧ ∀ b, b ∈ inPtrs r → b ≠ outPtr) as Hin'.
  { intros r Hr. split; [by apply Hin|]. intros b Hbr. by apply (Hq r Hr). }
  assert (outPtr ≠ dummy_ ∧ outPtr ≠ dummyIn ∧ dummy_ ≠ dummyIn) as Hd' by (intuition congruence).
  eexists. split; [intros r; apply (ag_constructed size n outPtr count es slot dummy_); done || lia|].
  eapply bcomputes_weaken; [apply (agr_computes_one size n outPtr count es slot dummy_ dummyIn inPtrs mems); try done || lia; intros; by eapply Hq|].
  intros mems' H r Hr. apply (ag_result_one size n outPtr count es slot dummy_ dummyIn inPtrs mems); try done || lia. by apply H.
Qed.

(** Three processes with two inputs of five integers each. *)
Lemma AllgatherRing_correct_witness :
  ∃ buffers : Z → RingBuffers,
    (∀ r, AllgatherRing r 3 2 1 5 4 7 2 = Val (buffers r)) ∧
    bcomputes (λ r, ring_receivers (buffers r)) (group 3 (λ r, AllgatherRing_run r 3 [5; 6] 1 5 4 (buffers r))) demo_mems
      (λ mems', ∀ r, 0 ≤ r < 3 →
        (∀ q i, 0 ≤ q < 3 → 0 ≤ i < 2 → read (mems' r) (mkRegion 1 ((q * 2 + i) * (5 * 4)) (5 * 4)) =
           read (demo_mems q) (mkRegion (nth (Z.to_nat i) [5; 6] 0) 0 (5 * 4))) ∧
        ∀ reg, (rg_buf reg ∉ [1; 2]) → read (mems' r) reg = read (demo_mems r) reg).
Proof.
  apply (AllgatherRing_correct 3 2 1 5 4 7 2 (λ _, [5; 6]) demo_mems); try lia.
  intros r _. split; [done|]. intros b Hb. apply (bool_decide_unpack _). assert (b = 5 ∨ b = 6) as [-> | ->] by set_solver; by vm_compute.
Defined.
