(* ===== verification/Stores.v ===== *)
(** [rendezvous/store.h] and its implementations: the stores through which
    the processes of a group find each other. *)
From Stdlib Require Import Ascii.
From stdpp Require Import strings pretty.
From S2P Require Import Prelude.

(** [std::vector<char>], as bytes. *)
Abbreviation Data := (list Z).

(** [class Store]. [get] and [wait] may have to wait: [None]. They are told
    how much time has passed since they began; times are in milliseconds, and a
    timeout of 0 is none. *)
Class Store (S : Type) := {
  store_set : string → Data → M S unit;
  store_get : string → Z → S → option (outcome Data);
  store_wait : list string → Z → Z → S → option (outcome unit);
  has_v2_support : S → bool;
  multi_get : list string → M S (list Data);
  multi_set : list string → list Data → M S unit;
  append : string → Data → M S unit;
  add : string → Z → M S Z;
}.

(** What the base class does for stores without the newer operations. *)
Definition no_v2 {S} : S → bool := λ _, false.
Definition unsupported {S A} : M S A := throw InvalidOperation.

Definition kDefaultTimeout : Z := 30000.

(* ------------------------------------------------------------------ *)
(** * What a store promises *)

(** A store shows, of the keys in [K], a map that is written once. *)
Class StoreLaws {S} (st : Store S) (K : string → Prop) (view : S → string → option Data) : Prop := {
  sl_set s k d : K k → view s k = None → ∃ s', store_set k d s = (Val (), s') ∧
    ∀ k', K k' → view s' k' = if decide (k' = k) then Some d else view s k';
  sl_set_taken s k d : K k → view s k ≠ None → ∃ s', store_set k d s = (Exn EnforceNotMet, s') ∧
    ∀ k', K k' → view s' k' = view s k';
  sl_get s k d elapsed : K k → view s k = Some d → d ≠ [] → store_get k elapsed s = Some (Val d);
  sl_wait_ready s ks timeout elapsed : Forall K ks → Forall (λ k, view s k ≠ None) ks →
    store_wait ks timeout elapsed s = Some (Val ());
  sl_wait s ks timeout elapsed : Forall K ks → ¬ Forall (λ k, view s k ≠ None) ks →
    (timeout = 0 ∨ elapsed < timeout → store_wait ks timeout elapsed s = None) ∧
    (store_wait ks timeout elapsed s = None ∨ store_wait ks timeout elapsed s = Some (Exn IoException));
}.

(** [get] of a key that nobody has set waits for it, until it times out. *)
Class BlockingGet {S} (st : Store S) (K : string → Prop) (view : S → string → option Data) : Prop :=
  sl_get_blocks s k elapsed : K k → view s k = None → elapsed <= kDefaultTimeout → store_get k elapsed s = None.

(** What [get] and [wait] answer depends on what the store shows of their keys. *)
Class StoreLocal {S} (st : Store S) (K : string → Prop) (view : S → string → option Data) : Prop := {
  sl_get_local s s' k elapsed : K k → view s k = view s' k → store_get k elapsed s = store_get k elapsed s';
  sl_wait_local s s' ks timeout elapsed : Forall K ks → Forall (λ k, view s k = view s' k) ks →
    store_wait ks timeout elapsed s = store_wait ks timeout elapsed s';
}.

Lemma StoreLaws_weaken {S} (st : Store S) (K K' : string → Prop) view :
  (∀ k, K k → K' k) → StoreLaws st K' view → StoreLaws st K view.
Proof.
  intros HK [H1 H2 H3 H4 H5]. split.
  - intros s k d Hk Hn. destruct (H1 s k d) as (s' & Hs & Hv); eauto.
  - intros s k d Hk Hn. destruct (H2 s k d) as (s' & Hs & Hv); eauto.
  - intros s k d elapsed Hk. apply H3; auto.
  - intros s ks timeout elapsed Hks. apply H4. eapply Forall_impl; eauto.
  - intros s ks timeout elapsed Hks. apply H5. eapply Forall_impl; eauto.
Qed.

(* ------------------------------------------------------------------ *)
(** * HashStore *)

Record HashStore := mkHashStore { map_ : gmap string Data }.

Definition HashStore_set (key : string) (data : Data) : M HashStore unit :=
  s ← get;
  _ ← lift (enforce (bool_decide (map_ s !! key = None)));
  put (mkHashStore (<[key := data]> (map_ s))).

(** A key that is not there: an empty vector. *)
Definition HashStore_get (key : string) (elapsed : Z) (s : HashStore) : option (outcome Data) :=
  Some (Val match map_ s !! key with None => [] | Some data => data end).

Fixpoint HashStore_pred (keys : list string) (s : HashStore) : bool :=
  match keys with
  | [] => true
  | key :: keys => match map_ s !! key with None => false | Some _ => HashStore_pred keys s end
  end.
Definition HashStore_wait (keys : list string) (timeout elapsed : Z) (s : HashStore) : option (outcome unit) :=
  if HashStore_pred keys s then Some (Val ())
  else if timeout =? 0 then None
  else if timeout <=? elapsed then Some (Exn IoException) else None.

#[export] Instance HashStore_store : Store HashStore := {|
  store_set := HashStore_set; store_get := HashStore_get; store_wait := HashStore_wait; has_v2_support := no_v2;
  multi_get _ := unsupported; multi_set _ _ := unsupported; append _ _ := unsupported; add _ _ := unsupported |}.

Definition HashStore_view (s : HashStore) (k : string) : option Data := map_ s !! k.

Lemma HashStore_pred_spec keys s : HashStore_pred keys s = true ↔ Forall (λ k, HashStore_view s k ≠ None) keys.
Proof.
  unfold HashStore_view. induction keys as [|k keys IH]; [done|]. cbn [HashStore_pred]. rewrite Forall_cons, <-IH.
  destruct (map_ s !! k); naive_solver.
Qed.

#[export] Instance HashStore_laws : StoreLaws HashStore_store (λ _, True) HashStore_view.
Proof.
  split.
  - intros s k d _ Hn. unfold HashStore_view in *. cbn. unfold HashStore_set. M_run. rewrite M_bind_enforce by by apply bool_decide_eq_true.
    eexists. split; [done|]. intros k' _. cbn. case_decide as E; [subst; by rewrite lookup_insert_eq|by rewrite lookup_insert_ne].
  - intros s k d _ Hn. unfold HashStore_view in *. exists s. split; [|done]. cbn. unfold HashStore_set. M_run.
    by rewrite bool_decide_eq_false_2.
  - intros s k d elapsed _ Hs _. unfold store_get, HashStore_store, HashStore_get. unfold HashStore_view in Hs. by destruct (map_ s !! k); simplify_eq.
  - intros s ks timeout elapsed _ H. cbn. unfold HashStore_wait. by apply HashStore_pred_spec in H as ->.
  - intros s ks timeout elapsed _ H. cbn. unfold HashStore_wait. rewrite <-HashStore_pred_spec in H.
    destruct (HashStore_pred ks s); [done|]. destruct (Z.eqb_spec timeout 0), (Z.leb_spec timeout elapsed); split; auto; lia.
Qed.

#[export] Instance HashStore_local : StoreLocal HashStore_store (λ _, True) HashStore_view.
Proof.
  split.
  - intros s s' k elapsed _ Hv. unfold HashStore_view in Hv. cbn. unfold HashStore_get. by rewrite Hv.
  - intros s s' ks timeout elapsed _ Hv. cbn. unfold HashStore_wait. replace (HashStore_pred ks s') with (HashStore_pred ks s); [done|].
    unfold HashStore_view in Hv. induction Hv as [|k ks Hk _ IH]; [done|]. cbn. by rewrite Hk, IH.
Qed.

(* ------------------------------------------------------------------ *)
(** * PrefixStore *)

Section prefix.
Context {S : Type} (st : Store S) (prefix_ : string).

Definition joinKey (key : string) : string := (prefix_ +:+ "/" +:+ key)%string.

Definition PrefixStore_wait (keys : list string) (timeout elapsed : Z) (s : S) : option (outcome unit) :=
  store_wait (joinKey <$> keys) timeout elapsed s.

(** The newer operations, if the other store has them. *)
Definition if_v2 {A} (m : M S A) : M S A := s ← get; if has_v2_support s then m else throw InvalidOperation.

Definition PrefixStore : Store S := {|
  store_set key data := store_set (joinKey key) data;
  store_get key := store_get (joinKey key);
  store_wait := PrefixStore_wait;
  has_v2_support := has_v2_support;
  multi_get keys := if_v2 (multi_get (joinKey <$> keys));
  multi_set keys values := if_v2 (multi_set (joinKey <$> keys) values);
  append key data := if_v2 (append (joinKey key) data);
  add key value := if_v2 (add (joinKey key) value) |}.
End prefix.

Lemma joinKey_key p : Inj (=) (=) (joinKey p).
Proof.
  intros k k'. unfold joinKey. intros H. apply (inj (String.append p)) in H. by apply (inj (String.append "/")) in H.
Qed.

#[export] Instance PrefixStore_laws {S} (st : Store S) p K view :
  StoreLaws st K view → StoreLaws (PrefixStore st p) (λ k, K (joinKey p k)) (λ s k, view s (joinKey p k)).
Proof.
  intros [H1 H2 H3 H4 H5]. split.
  - intros s k d Hk Hn. destruct (H1 s _ d Hk Hn) as (s' & Hs & Hv). exists s'. split; [exact Hs|]. intros k' Hk'. rewrite Hv by done.
    repeat case_decide; try congruence. by apply joinKey_key in H.
  - intros s k d Hk Hn. destruct (H2 s _ d Hk Hn) as (s' & Hs & Hv). exists s'. split; [exact Hs|]. intros k' Hk'. by apply Hv.
  - intros s k d elapsed. apply H3.
  - intros s ks timeout elapsed Hks H. by apply H4; apply Forall_fmap.
  - intros s ks timeout elapsed Hks H. apply H5; by rewrite Forall_fmap.
Qed.
#[export] Instance PrefixStore_blocks {S} (st : Store S) p K view :
  BlockingGet st K view → BlockingGet (PrefixStore st p) (λ k, K (joinKey p k)) (λ s k, view s (joinKey p k)).
Proof. intros H s k elapsed. apply H. Qed.

(* ------------------------------------------------------------------ *)
(** * FileStore *)

(** The directory, by path, as all processes see it, and the paths this
    process asked for. [hashFn] is the library's [std::hash]. *)
Record FileStore := mkFileStore { fs : gmap string Data; keyFilePaths_ : list string }.

Section file.
Context (basePath_ : string) (hashFn : string → N).

Definition encodeName (name : string) : string := pretty (hashFn name).
Definition tmpPath (name : string) : string := (basePath_ +:+ "/." +:+ encodeName name)%string.
Definition objectPath (name : string) : string := (basePath_ +:+ "/" +:+ encodeName name)%string.

(** [rename(2)] *)
Definition rename (tmp path : string) : M FileStore unit :=
  s ← get;
  match fs s !! tmp with
  | None => throw EnforceNotMet
  | Some data => put (mkFileStore (<[path := data]> (delete tmp (fs s))) (keyFilePaths_ s))
  end.

(** The three things [set] does to the directory. *)
Definition set_check (path : string) : M FileStore unit :=
  s ← get;
  lift (enforce (bool_decide (fs s !! path = None))).
Definition set_write (tmp : string) (data : Data) : M FileStore unit :=
  modify (λ s, mkFileStore (<[tmp := data]> (fs s)) (keyFilePaths_ s)).

Definition FileStore_set (key : string) (data : Data) : M FileStore unit :=
  let tmp := tmpPath key in
  let path := objectPath key in
  _ ← modify (λ s, mkFileStore (fs s) (keyFilePaths_ s ++ [path]));
  _ ← set_check path;
  _ ← set_write tmp data;
  rename tmp path.

Fixpoint check_paths (paths : list string) (s : FileStore) : bool :=
  match paths with
  | [] => true
  | path :: paths => match fs s !! path with None => false | Some _ => check_paths paths s end
  end.
Definition FileStore_check (keys : list string) (s : FileStore) : bool := check_paths (objectPath <$> keys) s.

(** The time that passed is cut to whole seconds. *)
Definition FileStore_wait (keys : list string) (timeout elapsed : Z) (s : FileStore) : option (outcome unit) :=
  if FileStore_check keys s then Some (Val ())
  else if negb (timeout =? 0) && (timeout <? elapsed / 1000 * 1000) then Some (Exn IoException) else None.

Definition FileStore_read (key : string) (s : FileStore) : outcome Data :=
  match fs s !! objectPath key with
  | None => Exn EnforceNotMet
  | Some data => _ ← enforce (0 <? length data)%nat; Val data
  end.
Definition FileStore_get (key : string) (elapsed : Z) (s : FileStore) : option (outcome Data) :=
  r ← FileStore_wait [key] kDefaultTimeout elapsed s;
  Some (r ≫= λ _, FileStore_read key s).

Definition FileStore_store : Store FileStore := {|
  store_set := FileStore_set; store_get := FileStore_get; store_wait := FileStore_wait; has_v2_support := no_v2;
  multi_get _ := unsupported; multi_set _ _ := unsupported; append _ _ := unsupported; add _ _ := unsupported |}.

Definition FileStore_view (s : FileStore) (k : string) : option Data := fs s !! objectPath k.

(** No path of a temporary file is the path of a key. *)
Lemma pretty_N_go_head x : ∀ s s', pretty_N_go x s = String "." s' → ∃ s'', s = String "." s''.
Proof.
  induction (N.lt_wf_0 x) as [x _ IH]. intros s s'. destruct (decide (0 < x)%N) as [Hx|Hx].
  - rewrite pretty_N_go_step by done. intros (s'' & Hs)%IH; [|by apply N.div_lt]. exfalso. injection Hs as Hc _. revert Hc.
    unfold pretty_N_char. by repeat case_match.
  - assert (x = 0%N) as -> by lia. rewrite pretty_N_go_0. eauto.
Qed.

Lemma pretty_N_head (x : N) s : pretty x ≠ String "." s.
Proof. unfold pretty, pretty_N. case_decide; [done|]. intros (s' & Hs)%pretty_N_go_head. done. Qed.

Lemma tmp_object k k' : tmpPath k ≠ objectPath k'.
Proof.
  unfold tmpPath, objectPath, encodeName. intros H. apply (inj (String.append basePath_)) in H. injection H as H.
  by eapply pretty_N_head.
Qed.

Lemma objectPath_inj k k' : objectPath k = objectPath k' → hashFn k = hashFn k'.
Proof.
  unfold objectPath, encodeName. intros H. apply (inj (String.append basePath_)) in H.
  apply (inj (String.append "/")) in H. by apply (inj pretty) in H.
Qed.

Lemma FileStore_check_spec keys s : FileStore_check keys s = true ↔ Forall (λ k, FileStore_view s k ≠ None) keys.
Proof.
  unfold FileStore_view, FileStore_check. induction keys as [|k keys IH]; [done|]. cbn [check_paths fmap list_fmap]. rewrite Forall_cons, <-IH.
  destruct (fs s !! objectPath k); naive_solver.
Qed.

Lemma FileStore_set_run s k d :
  FileStore_set k d s = match FileStore_view s k with
    | None => (Val (), mkFileStore (<[objectPath k := d]> (delete (tmpPath k) (fs s))) (keyFilePaths_ s ++ [objectPath k]))
    | Some _ => (Exn EnforceNotMet, mkFileStore (fs s) (keyFilePaths_ s ++ [objectPath k])) end.
Proof.
  unfold FileStore_set, FileStore_view, set_check, set_write, rename. M_run. cbn [fs keyFilePaths_].
  destruct (fs s !! objectPath k) as [d'|] eqn:Hs.
  - unfold mbind, M_bind, get, lift. cbn [fs]. by rewrite Hs.
  - unfold mbind, M_bind, get, lift, modify, put. cbn [fs]. rewrite Hs. cbn [enforce bool_decide fs keyFilePaths_ decide_rel].
    cbn. rewrite lookup_insert_eq. by rewrite delete_insert_eq.
Qed.
End file.

#[export] Instance FileStore_laws basePath hashFn (K : string → Prop) :
  (∀ k k', K k → K k' → hashFn k = hashFn k' → k = k') →
  StoreLaws (FileStore_store basePath hashFn) K (FileStore_view basePath hashFn).
Proof.
  intros HK. set (st := FileStore_store basePath hashFn). split.
  - intros s k d Hk Hn. change (store_set k d s) with (FileStore_set basePath hashFn k d s). rewrite FileStore_set_run, Hn.
    eexists. split; [done|]. intros k' Hk'. unfold FileStore_view in *. cbn [fs]. case_decide as E.
    + subst. by rewrite lookup_insert_eq.
    + rewrite lookup_insert_ne by (intros ?%objectPath_inj; auto). apply lookup_delete_ne. apply tmp_object.
  - intros s k d Hk Hn. change (store_set k d s) with (FileStore_set basePath hashFn k d s). rewrite FileStore_set_run.
    destruct (FileStore_view basePath hashFn s k); [|done]. by eexists.
  - intros s k d elapsed Hk Hs Hd. change (store_get k elapsed s) with (FileStore_get basePath hashFn k elapsed s).
    unfold FileStore_get, FileStore_wait, FileStore_read. replace (FileStore_check _ _ _ _) with true.
    + unfold FileStore_view in Hs. cbn [mbind option_bind outcome_bind]. rewrite Hs. by destruct d.
    + symmetry. apply FileStore_check_spec. repeat constructor. by rewrite Hs.
  - intros s ks timeout elapsed _ H. change (FileStore_wait basePath hashFn ks timeout elapsed s = Some (Val ())).
    unfold FileStore_wait. by apply FileStore_check_spec in H as ->.
  - intros s ks timeout elapsed _ H. change (store_wait ks timeout elapsed s) with (FileStore_wait basePath hashFn ks timeout elapsed s).
    unfold FileStore_wait. rewrite <-FileStore_check_spec in H. destruct (FileStore_check _ _ _ _); [done|].
    pose proof (Z.mul_div_le elapsed 1000).
    destruct (Z.eqb_spec timeout 0), (Z.ltb_spec timeout (elapsed / 1000 * 1000)); split; cbn; auto; lia.
Qed.

#[export] Instance FileStore_local basePath hashFn K :
  StoreLocal (FileStore_store basePath hashFn) K (FileStore_view basePath hashFn).
Proof.
  assert (∀ s s' ks, Forall (λ k, FileStore_view basePath hashFn s k = FileStore_view basePath hashFn s' k) ks →
    FileStore_check basePath hashFn ks s = FileStore_check basePath hashFn ks s') as Hc.
  { intros s s' ks. unfold FileStore_view, FileStore_check. induction 1 as [|k ks Hk _ IH]; [done|]. cbn. by rewrite Hk, IH. }
  split.
  - intros s s' k elapsed _ Hv. change (FileStore_get basePath hashFn k elapsed s = FileStore_get basePath hashFn k elapsed s').
    unfold FileStore_get, FileStore_wait, FileStore_read. rewrite (Hc s s') by by repeat constructor.
    unfold FileStore_view in Hv. by rewrite Hv.
  - intros s s' ks timeout elapsed _ Hv.
    change (FileStore_wait basePath hashFn ks timeout elapsed s = FileStore_wait basePath hashFn ks timeout elapsed s').
    unfold FileStore_wait. by rewrite (Hc s s').
Qed.

#[export] Instance FileStore_blocks basePath hashFn K :
  BlockingGet (FileStore_store basePath hashFn) K (FileStore_view basePath hashFn).
Proof.
  intros s k elapsed _ Hs He. change (FileStore_get basePath hashFn k elapsed s = None).
  unfold FileStore_get, FileStore_wait. destruct (FileStore_check _ _ _ _) eqn:Hc.
  - apply FileStore_check_spec in Hc. inversion_clear Hc. done.
  - change kDefaultTimeout with 30000 in *. cbn [negb Z.eqb andb]. destruct (Z.ltb_spec 30000 (elapsed / 1000 * 1000)); [|done].
    pose proof (Z.div_mod elapsed 1000). pose proof (Z.mod_pos_bound elapsed 1000). lia.
Qed.

(* ------------------------------------------------------------------ *)
(** * Many calls *)

(** The results of [set] on one key after another. *)
Fixpoint set_all {S} (st : Store S) (sets : list (string * Data)) (s : S) : list (outcome unit) * S :=
  match sets with
  | [] => ([], s)
  | (key, data) :: sets =>
      let '(r, s) := store_set key data s in
      let '(rs, s) := set_all st sets s in
      (r :: rs, s)
  end.

(** Two stores that show the same go on showing the same. *)
Lemma set_all_agree {S S'} (st : Store S) (st' : Store S') K view view' sets :
  StoreLaws st K view → StoreLaws st' K view' → Forall (λ kd, K kd.1) sets →
  ∀ s s', (∀ k, K k → view s k = view' s' k) →
  (set_all st sets s).1 = (set_all st' sets s').1 ∧
  ∀ k, K k → view (set_all st sets s).2 k = view' (set_all st' sets s').2 k.
Proof.
  intros L L'. induction 1 as [|[k d] sets Hk _ IH]; intros s s' Hv; [done|]. cbn in Hk. cbn [set_all].
  destruct (view s k) eqn:Hs; pose proof Hs as Hs'; rewrite Hv in Hs' by done.
  - destruct (sl_set_taken s k d) as (s1 & -> & Hv1); [done|congruence|].
    destruct (sl_set_taken s' k d) as (s1' & -> & Hv1'); [done|congruence|].
    destruct (IH s1 s1') as [IH1 IH2]; [intros k' Hk'; by rewrite Hv1, Hv1', Hv|].
    destruct (set_all st sets s1), (set_all st' sets s1'). cbn in *. by rewrite IH1.
  - destruct (sl_set s k d) as (s1 & -> & Hv1); [done..|].
    destruct (sl_set s' k d) as (s1' & -> & Hv1'); [done..|].
    destruct (IH s1 s1') as [IH1 IH2]; [intros k' Hk'; rewrite Hv1, Hv1' by done; case_decide; [done|by apply Hv]|].
    destruct (set_all st sets s1), (set_all st' sets s1'). cbn in *. by rewrite IH1.
Qed.

(** What a store shows never changes once it is set. *)
Lemma set_all_stable {S} (st : Store S) K view sets :
  StoreLaws st K view → Forall (λ kd, K kd.1) sets → ∀ s k, K k → view s k ≠ None → view (set_all st sets s).2 k = view s k.
Proof.
  intros L. induction 1 as [|[k' d] sets Hk' _ IH]; intros s k Hk Hv; [done|]. cbn in Hk'. cbn [set_all].
  destruct (view s k') eqn:Hs.
  - destruct (sl_set_taken s k' d) as (s1 & -> & Hv1); [done|congruence|]. specialize (IH s1 k Hk).
    destruct (set_all st sets s1). cbn in *. rewrite Hv1 in IH by done. auto.
  - destruct (sl_set s k' d) as (s1 & -> & Hv1); [done..|]. specialize (IH s1 k Hk).
    destruct (set_all st sets s1). cbn in *. rewrite Hv1 in IH by done. rewrite decide_False in IH; [auto|by intros ->].
Qed.

(** C32: A FileStore behaves as a HashStore: on keys whose hashes differ, after
    the same calls to [set] from an empty directory and an empty map, each
    call has had the same result (the first for a key succeeds, any other
    throws), the same keys are ready to be waited for, and [get] of a key that
    was set to some bytes, at least one, gives those bytes. (Of a key set to no
    bytes a FileStore's [get] throws, and of one not set it waits; a HashStore
    answers with no bytes in both cases.) *)
Theorem FileStore_like_HashStore basePath hashFn (K : string → Prop) (sets : list (string * Data))
    (HK : ∀ k k', K k → K k' → hashFn k = hashFn k' → k = k') (Hsets : Forall (λ kd, K kd.1) sets) :
  let file := set_all (FileStore_store basePath hashFn) sets (mkFileStore ∅ []) in
  let hash := set_all HashStore_store sets (mkHashStore ∅) in
  file.1 = hash.1 ∧
  (∀ keys elapsed, Forall K keys →
    FileStore_wait basePath hashFn keys 0 elapsed file.2 = HashStore_wait keys 0 elapsed hash.2) ∧
  (∀ k elapsed d, K k → map_ hash.2 !! k = Some d → d ≠ [] →
    FileStore_get basePath hashFn k elapsed file.2 = HashStore_get k elapsed hash.2 ∧
    FileStore_get basePath hashFn k elapsed file.2 = Some (Val d)).
Proof.
  pose proof (FileStore_laws basePath hashFn K HK) as L.
  pose proof (StoreLaws_weaken HashStore_store K (λ _, True) HashStore_view (λ _ _, I) _) as L'.
  destruct (set_all_agree _ _ K _ _ sets L L' Hsets (mkFileStore ∅ []) (mkHashStore ∅)) as [H1 H2]; [done|]. cbn zeta.
  generalize dependent (set_all HashStore_store sets (mkHashStore ∅)). intros hash.
  generalize (set_all (FileStore_store basePath hashFn) sets (mkFileStore ∅ [])). intros file H1 H2.
  split; [done|]. split.
  - intros keys elapsed Hkeys. unfold FileStore_wait, HashStore_wait. cbn [Z.eqb negb andb].
    replace (FileStore_check basePath hashFn keys file.2) with (HashStore_pred keys hash.2); [done|].
    apply eq_true_iff_eq. rewrite FileStore_check_spec, HashStore_pred_spec, !Forall_forall in *.
    split; intros H k Hk; [rewrite H2 by auto|rewrite <-H2 by auto]; auto.
  - intros k elapsed d Hk Hs Hd. change (HashStore_view hash.2 k = Some d) in Hs. rewrite <-(H2 k Hk) in Hs.
    pose proof (sl_get (StoreLaws := L) file.2 k d elapsed Hk Hs Hd) as Hg.
    rewrite (H2 k Hk) in Hs. pose proof (sl_get (StoreLaws := L') hash.2 k d elapsed Hk Hs Hd) as Hg'.
    split; [by etrans|exact Hg].
Qed.

(** A store that has no support for the newer operations gives none through
    a prefix: [multi_get], [multi_set], [append] and [add] throw
    InvalidOperationException, whatever the prefix and the arguments, and the
    store is as it was; where it has them, the prefix is put before each key. *)
Theorem PrefixStore_v2 {S} (st : Store S) prefix (s : S) :
  let ps := PrefixStore st prefix in
  (@has_v2_support S ps s = false → ∀ keys values key data value,
    @multi_get S ps keys s = (Exn InvalidOperation, s) ∧ @multi_set S ps keys values s = (Exn InvalidOperation, s) ∧
    @append S ps key data s = (Exn InvalidOperation, s) ∧ @add S ps key value s = (Exn InvalidOperation, s)) ∧
  (@has_v2_support S ps s = true → ∀ keys values key data value,
    @multi_get S ps keys s = @multi_get S st (joinKey prefix <$> keys) s ∧
    @multi_set S ps keys values s = @multi_set S st (joinKey prefix <$> keys) values s ∧
    @append S ps key data s = @append S st (joinKey prefix key) data s ∧
    @add S ps key value s = @add S st (joinKey prefix key) value s).
Proof.
  cbn. unfold if_v2. split; intros Hv keys values key data value; split_and!; unfold mbind, M_bind, get; by rewrite Hv.
Qed.

Lemma PrefixStore_v2_witness : @add HashStore (PrefixStore HashStore_store "p") "k" 1 (mkHashStore ∅) = (Exn InvalidOperation, mkHashStore ∅).
Proof. by apply (proj1 (PrefixStore_v2 HashStore_store "p" (mkHashStore ∅)) eq_refl [] [] "k"%string [] 1). Defined.

(* ------------------------------------------------------------------ *)
(** * Two prefixes over one store *)

Fixpoint slashless (s : string) : Prop :=
  match s with EmptyString => True | String c s => c ≠ "/"%char ∧ slashless s end.

Lemma joinKey_prefix p : ∀ q k k', slashless p → slashless q → joinKey p k = joinKey q k' → p = q.
Proof.
  unfold joinKey. induction p as [|c p IH]; intros [|c' q] k k' Hp Hq H; cbn in *; [done|simplify_eq; naive_solver..|].
  simplify_eq. f_equal. apply (IH q k k'); naive_solver.
Qed.

(** Calls to a store, and what each came to; [None]: it still waits. *)
Inductive Call := CSet (key : string) (data : Data) | CGet (key : string) (elapsed : Z) | CWait (keys : list string) (timeout elapsed : Z).
Inductive Answer := ASet (r : outcome unit) | AGet (r : option (outcome Data)) | AWait (r : option (outcome unit)).
Definition call {S} (st : Store S) (c : Call) (s : S) : Answer * S :=
  match c with
  | CSet key data => let '(r, s) := store_set key data s in (ASet r, s)
  | CGet key elapsed => (AGet (store_get key elapsed s), s)
  | CWait keys timeout elapsed => (AWait (store_wait keys timeout elapsed s), s)
  end.
Fixpoint call_all {S} (st : Store S) (cs : list Call) (s : S) : list Answer * S :=
  match cs with
  | [] => ([], s)
  | c :: cs => let '(r, s) := call st c s in let '(rs, s) := call_all st cs s in (r :: rs, s)
  end.
Definition call_keys (c : Call) : list string :=
  match c with CSet key _ | CGet key _ => [key] | CWait keys _ _ => keys end.

Section two.
Context {S : Type} (st : Store S) (K : string → Prop) (view : S → string → option Data) `{!StoreLaws st K view, !StoreLocal st K view}.
Context (prefix : bool → string).

(** Calls through one prefix or the other, as they come. *)
Fixpoint calls_two (cs : list (bool * Call)) (s : S) : list (bool * Answer) * S :=
  match cs with
  | [] => ([], s)
  | (b, c) :: cs =>
      let '(r, s) := call (PrefixStore st (prefix b)) c s in
      let '(rs, s) := calls_two cs s in
      ((b, r) :: rs, s)
  end.

(** What came or went through one of them. *)
Definition through {A} (b : bool) (l : list (bool * A)) : list A := (filter (λ x, x.1 = b) l).*2.

Definition sees (b : bool) (s s' : S) : Prop :=
  ∀ k, K (joinKey (prefix b) k) → view s (joinKey (prefix b) k) = view s' (joinKey (prefix b) k).
Definition keys_ok (b : bool) (c : Call) : Prop := Forall (λ k, K (joinKey (prefix b) k)) (call_keys c).

Lemma set_step (k : string) d s : K k → ∃ r s1, store_set k d s = (r, s1) ∧
  r = match view s k with None => Val () | Some _ => Exn EnforceNotMet end ∧
  ∀ k', K k' → view s1 k' = if decide (k' = k ∧ view s k = None) then Some d else view s k'.
Proof.
  intros Hk. destruct (view s k) eqn:Hs.
  - destruct (sl_set_taken s k d) as (s1 & Hr & Hv); [done|congruence|]. eexists _, s1. split_and!; [exact Hr|done|].
    intros k' Hk'. rewrite decide_False by naive_solver. auto.
  - destruct (sl_set s k d) as (s1 & Hr & Hv); [done..|]. eexists _, s1. split_and!; [exact Hr|done|].
    intros k' Hk'. rewrite Hv by done. repeat case_decide; naive_solver.
Qed.

(** A call answers from what the prefix sees, and the same is seen after it. *)
Lemma call_own b c s s' : keys_ok b c → sees b s s' →
  let r := call (PrefixStore st (prefix b)) c s in let r' := call (PrefixStore st (prefix b)) c s' in
  r.1 = r'.1 ∧ sees b r.2 r'.2.
Proof.
  unfold keys_ok. intros Hk Hv. destruct c as [k d|k elapsed|ks timeout elapsed]; cbn [call call_keys] in *.
  - apply Forall_cons in Hk as [Hk _].
    change (@store_set S (PrefixStore st (prefix b)) k d) with (store_set (Store := st) (joinKey (prefix b) k) d).
    destruct (set_step _ d s Hk) as (r & s1 & -> & -> & Hv1), (set_step _ d s' Hk) as (r' & s1' & -> & -> & Hv1').
    rewrite <-(Hv k Hk) in *. cbn. split; [done|]. intros k' Hk'. rewrite Hv1, Hv1' by done. case_decide; auto.
  - apply Forall_cons in Hk as [Hk _]. split; [|done]. cbn. f_equal. by apply sl_get_local, Hv.
  - split; [|done]. cbn. f_equal. apply sl_wait_local; apply Forall_fmap; [done|]. eapply Forall_impl; [exact Hk|]. intros k. apply Hv.
Qed.

(** A call through the other prefix is not seen. *)
Lemma call_other b b' c s : slashless (prefix b) → slashless (prefix b') → prefix b' ≠ prefix b → keys_ok b' c →
  sees b (call (PrefixStore st (prefix b')) c s).2 s.
Proof.
  unfold keys_ok. intros Hb Hb' Hne Hk. destruct c as [k d|k elapsed|ks timeout elapsed]; cbn [call call_keys] in *; [|done..].
  apply Forall_cons in Hk as [Hk _].
  change (@store_set S (PrefixStore st (prefix b')) k d) with (store_set (Store := st) (joinKey (prefix b') k) d).
  destruct (set_step _ d s Hk) as (r & s1 & -> & _ & Hv1). intros k' Hk'. cbn. rewrite Hv1, decide_False; [done| |done].
  intros [?%joinKey_prefix _]; congruence.
Qed.

Lemma calls_two_sees b cs :
  slashless (prefix true) → slashless (prefix false) → prefix true ≠ prefix false →
  Forall (λ bc, keys_ok bc.1 bc.2) cs → ∀ s s', sees b s s' →
  through b (calls_two cs s).1 = (call_all (PrefixStore st (prefix b)) (through b cs) s').1 ∧
  sees b (calls_two cs s).2 (call_all (PrefixStore st (prefix b)) (through b cs) s').2.
Proof.
  intros Ht Hf Hne. induction 1 as [|[b' c] cs Hk _ IH]; intros s s' Hv; [done|]. cbn in Hk. cbn [calls_two].
  unfold through. rewrite filter_cons. cbn [fst]. destruct (decide (b' = b)) as [->|Hb].
  - cbn [fmap list_fmap snd call_all]. destruct (call_own b c s s' Hk Hv) as [Hr Hv1].
    destruct (call _ c s) as [r s1], (call _ c s') as [r' s1']. cbn in Hr, Hv1. subst r'. destruct (IH s1 s1' Hv1) as [IH1 IH2].
    fold (through b cs). destruct (calls_two cs s1), (call_all (PrefixStore st (prefix b)) (through b cs) s1').
    cbn in *. rewrite decide_True by done. cbn. split; [by f_equal|done].
  - assert (sees b (call (PrefixStore st (prefix b')) c s).2 s) as Ho by (apply call_other; [by destruct b|by destruct b'|destruct b, b'; cbn in *; congruence|done]).
    destruct (call _ c s) as [r s1]. cbn in Ho. destruct (IH s1 s') as [IH1 IH2]; [intros k' Hk'; rewrite Ho by done; auto|].
    fold (through b cs). destruct (calls_two cs s1). cbn in *. by rewrite decide_False.
Qed.
End two.

(** C33: Two prefixes over one store are two stores: when neither holds a slash
    and they differ, calls of [set], [get] and [wait] through both, mixed in any
    order, have for each prefix the answers its own calls alone would have had,
    and leave it seeing the same data, whatever was called through the other.
    The store behaves on the joined keys as a map that is written once (every
    [HashStore]; a [FileStore] if their hashes differ). *)
Theorem PrefixStore_separate {S} (st : Store S) (K : string → Prop) view (L : StoreLaws st K view) (O : StoreLocal st K view)
    (prefix : bool → string) (cs : list (bool * Call)) (s : S)
    (Hp : slashless (prefix true) ∧ slashless (prefix false)) (Hne : prefix true ≠ prefix false)
    (HK : Forall (λ bc, Forall (λ k, K (joinKey (prefix bc.1) k)) (call_keys bc.2)) cs) (b : bool) :
  let all := calls_two st prefix cs s in
  let own := call_all (PrefixStore st (prefix b)) (through b cs) s in
  through b all.1 = own.1 ∧
  ∀ k, K (joinKey (prefix b) k) → view all.2 (joinKey (prefix b) k) = view own.2 (joinKey (prefix b) k).
Proof. cbn zeta. destruct Hp as [Ht Hf]. by apply (calls_two_sees st K view prefix b cs Ht Hf Hne HK s s). Qed.

Lemma PrefixStore_separate_witness :
  let prefix b := if b : bool then "a"%string else "b"%string in
  let cs := [(true, CSet "k" [1]); (false, CGet "k" 0); (false, CSet "k" [2]); (true, CSet "k" [3]); (true, CGet "k" 0);
             (false, CWait ["k"%string] 0 0)] in
  through true (calls_two HashStore_store prefix cs (mkHashStore ∅)).1
    = (call_all (PrefixStore HashStore_store "a") (through true cs) (mkHashStore ∅)).1.
Proof.
  cbn zeta.
  apply (PrefixStore_separate HashStore_store (λ _, True) HashStore_view HashStore_laws HashStore_local
    (λ b, if b : bool then "a" else "b")%string
    [(true, CSet "k" [1]); (false, CGet "k" 0); (false, CSet "k" [2]); (true, CSet "k" [3]); (true, CGet "k" 0);
     (false, CWait ["k"%string] 0 0)] (mkHashStore ∅)) with (b := true).
  - vm_compute. by repeat split.
  - done.
  - by repeat constructor.
Defined.

(** With a slash in them two prefixes can meet. *)
Example PrefixStore_slash : joinKey "a" "b/c" = joinKey "a/b" "c".
Proof. reflexivity. Qed.

Lemma FileStore_like_HashStore_witness :
  (set_all (FileStore_store "/tmp" (λ k, N.of_nat (String.length k)))
    [("0"%string, [1; 2]); ("0"%string, [3]); ("rank"%string, [])] (mkFileStore ∅ [])).1 = [Val (); Exn EnforceNotMet; Val ()].
Proof.
  assert (HK : ∀ k k' : string, k = "0"%string ∨ k = "rank"%string → k' = "0"%string ∨ k' = "rank"%string →
    N.of_nat (String.length k) = N.of_nat (String.length k') → k = k') by (intros k k' [-> | ->] [-> | ->]; done).
  destruct (FileStore_like_HashStore "/tmp" _ _ [("0"%string, [1; 2]); ("0"%string, [3]); ("rank"%string, [])] HK) as [H _].
  - rewrite !Forall_cons; cbn; auto 10.
  - rewrite H. reflexivity.
Defined.

(** [get] of a missing key: the one store answers, the other waits. *)
Example HashStore_get_missing : HashStore_get "0" 0 (mkHashStore ∅) = Some (Val []).
Proof. reflexivity. Qed.
Example FileStore_get_missing : FileStore_get "/tmp" (λ _, 0%N) "0" 0 (mkFileStore ∅ []) = None.
Proof. reflexivity. Qed.

(** Between the steps of [set] another process can take its own: then both
    succeed, and the data of the first is lost. *)
Lemma FileStore_set_race basePath hashFn k d d' files paths :
  let path := objectPath basePath hashFn k in let tmp := tmpPath basePath hashFn k in
  files !! path = None →
  (_ ← set_check path; _ ← set_check path;
   _ ← set_write tmp d; _ ← rename tmp path;
   _ ← set_write tmp d'; rename tmp path) (mkFileStore files paths)
  = (Val (), mkFileStore (<[path := d']> (delete tmp files)) paths).
Proof.
  intros path tmp Hn. pose proof (tmp_object basePath hashFn k k) as Hne. fold path tmp in Hne.
  unfold set_check, set_write, rename, mbind, M_bind, get, lift, modify, put. cbn [fs keyFilePaths_].
  rewrite bool_decide_eq_true_2 by done. cbn [enforce fs keyFilePaths_]. rewrite lookup_insert_eq. cbn [fs keyFilePaths_].
  rewrite lookup_insert_eq. do 2 f_equal. apply map_eq. intros i.
  destruct (decide (i = path)) as [->|]; [by rewrite !lookup_insert_eq|]. rewrite !(lookup_insert_ne _ path) by done.
  destruct (decide (i = tmp)) as [->|]; [by rewrite !lookup_delete_eq|].
  by rewrite !lookup_delete_ne, !lookup_insert_ne, lookup_delete_ne, lookup_insert_ne by done.
Qed.
