(* ===== verification/Device.v ===== *)
(** [transport/tcp/address], [device] and [listener]: the addresses of pairs,
    which of two pairs connects to the other, and how connections that come in
    find the pairs that wait for them. *)
From stdpp Require Import gmap strings.
From S2P Require Import Prelude Packet.

(* ------------------------------------------------------------------ *)
(** * Addresses *)

(** [Address::Impl]: the bytes of the [sockaddr_storage], and the sequence
    number, an [ssize_t]. *)
Record Address := mkAddress { ad_ss : list Z; ad_seq : Z }.

Definition kSequenceNumberUnset : Z := -1.
Definition sizeof_ss : nat := 128.
Definition sizeof_Impl : Z := 136.

Definition Address_bytes (a : Address) : list Z := ad_ss a ++ put_u64_slice false (u64 (ad_seq a)).

(** [Address(const std::vector<char>&)] *)
Definition Address_of (bytes : list Z) : outcome Address :=
  _ ← enforce (sizeof_Impl =? lenZ bytes);
  Val (mkAddress (take sizeof_ss bytes) (s64 (le_val (drop sizeof_ss bytes)))).

Record Address_wf (a : Address) : Prop := {
  aw_len : length (ad_ss a) = sizeof_ss;
  aw_bytes : bytes_ok (ad_ss a);
  aw_seq : - 2 ^ 63 <= ad_seq a < 2 ^ 63;
}.

(** The members of [sockaddr_in] and [sockaddr_in6] that are used; the ports
    are loaded as they lie in memory. *)
Definition AF_INET : Z := 2.
Definition AF_INET6 : Z := 10.
Definition ss_family (a : Address) : Z := le_val (take 2 (ad_ss a)).
Definition sin_port (a : Address) : Z := le_val (take 2 (drop 2 (ad_ss a))).
Definition sin_addr (a : Address) : list Z := take 4 (drop 4 (ad_ss a)).
Definition sin6_addr (a : Address) : list Z := take 16 (drop 8 (ad_ss a)).

(* ------------------------------------------------------------------ *)
(** * Who connects *)

(** [memcmp(3)] of regions of one size, of which only the sign is used. *)
Fixpoint memcmp (a b : list Z) : Z :=
  match a, b with
  | x :: a, y :: b => if x <? y then -1 else if y <? x then 1 else memcmp a b
  | _, _ => 0
  end.

(** The difference of two [ssize_t], then cut to an [int]. *)
Definition seq_difference (a b : Address) : outcome Z :=
  let d := ad_seq a - ad_seq b in
  if (- 2 ^ 63 <=? d) && (d <? 2 ^ 63) then Val (s32 d) else UB.

(** [isInitiator(local, remote)] *)
Definition compare_inet (a b : Address) : Z :=
  let rv := memcmp (sin_addr a) (sin_addr b) in
  if rv =? 0 then sin_port a - sin_port b else rv.
Definition compare_inet6 (a b : Address) : Z :=
  let rv := memcmp (sin6_addr a) (sin6_addr b) in
  if rv =? 0 then sin_port a - sin_port b else rv.

Definition isInitiator (local remote : Address) : outcome bool :=
  _ ← enforce (ss_family local =? ss_family remote);
  let family := ss_family local in
  rv ← (if family =? AF_INET then Val (compare_inet local remote)
        else if family =? AF_INET6 then Val (compare_inet6 local remote)
        else Exn EnforceNotMet);
  rv ← (if rv =? 0 then seq_difference local remote else Val rv);
  _ ← enforce (negb (rv =? 0));
  Val (0 <? rv).

(** The addresses are of one device. *)
Definition same_device (a b : Address) : bool :=
  if ss_family a =? AF_INET then compare_inet a b =? 0 else compare_inet6 a b =? 0.

(* ------------------------------------------------------------------ *)
(** * The listener *)

Section listener.
Context {F Sock : Type}.

(** [class Listener]: callbacks and sockets by sequence number. *)
Record Listener := mkListener {
  addr_ : Address;
  seq_ : Z;
  seqToCallback_ : gmap Z F;
  seqToSocket_ : gmap Z Sock;
}.

Definition Listener_new (sockName : Address) : Listener := mkListener sockName 0 ∅ ∅.

(** [nextAddress()] *)
Definition nextAddress : M Listener Address :=
  s ← get;
  _ ← (if seq_ s + 1 <? 2 ^ 63 then put (mkListener (addr_ s) (seq_ s + 1) (seqToCallback_ s) (seqToSocket_ s)) else undef);
  mret (mkAddress (ad_ss (addr_ s)) (seq_ s)).

(** [emplace] into an [std::unordered_map]: what is there stays. *)
Definition emplace {A} (k : Z) (a : A) (m : gmap Z A) : gmap Z A :=
  match m !! k with None => <[k := a]> m | Some _ => m end.

(** [waitForConnection(seq, fn)], with the call it leaves for the loop. *)
Definition waitForConnection (seq : Z) (fn : F) : M Listener (list (F * Sock)) :=
  s ← get;
  match seqToSocket_ s !! seq with
  | None => _ ← put (mkListener (addr_ s) (seq_ s) (emplace seq fn (seqToCallback_ s)) (seqToSocket_ s)); mret []
  | Some socket =>
      _ ← put (mkListener (addr_ s) (seq_ s) (seqToCallback_ s) (delete seq (seqToSocket_ s))); mret [(fn, socket)]
  end.

(** [haveConnection(socket, seq)], with the call it makes. *)
Definition haveConnection (socket : Sock) (seq : Z) : M Listener (list (F * Sock)) :=
  s ← get;
  match seqToCallback_ s !! seq with
  | None => _ ← put (mkListener (addr_ s) (seq_ s) (seqToCallback_ s) (emplace seq socket (seqToSocket_ s))); mret []
  | Some fn =>
      _ ← put (mkListener (addr_ s) (seq_ s) (delete seq (seqToCallback_ s)) (seqToSocket_ s)); mret [(fn, socket)]
  end.

(** What happens to a listener, in some order. *)
Inductive LEvent := LWait (seq : Z) (fn : F) | LHave (seq : Z) (socket : Sock).

Definition LEvent_run (e : LEvent) : M Listener (list (F * Sock)) :=
  match e with LWait seq fn => waitForConnection seq fn | LHave seq socket => haveConnection socket seq end.
Fixpoint LEvents_run (es : list LEvent) : M Listener (list (F * Sock)) :=
  match es with
  | [] => mret []
  | e :: es => calls ← LEvent_run e; calls' ← LEvents_run es; mret (calls ++ calls')
  end.
End listener.
Arguments Listener : clear implicits.
Arguments LEvent : clear implicits.

(* ------------------------------------------------------------------ *)
(** * Lemmas *)

(** A number is the bytes it was read from. *)
Lemma shifts_le_val l : bytes_ok l → (λ i : Z, u8 (Z.shiftr (le_val l) (i * 8))) <$> seqZ 0 (lenZ l) = l.
Proof.
  induction 1 as [|b l Hb Hl IH]; [done|]. unfold in_range in Hb. rewrite lenZ_cons.
  rewrite seqZ_cons by (pose proof (lenZ_nonneg l); lia). cbn [fmap list_fmap le_val]. pose proof (le_val_bound l Hl). f_equal.
  - rewrite Z.mul_0_l, Z.shiftr_0_r. unfold wrap. change (2 ^ 8) with 256 in *. rewrite Z.mul_comm, Z_mod_plus_full. by apply Z.mod_small.
  - etransitivity; [|exact IH]. replace (Z.pred (lenZ l + 1)) with (lenZ l) by lia. change (Z.succ 0) with (1 + 0).
    rewrite <-fmap_add_seqZ, <-list_fmap_compose. apply list_fmap_ext. intros j i Hi. cbn.
    apply lookup_seqZ in Hi as [-> Hi]. rewrite !Z.shiftr_div_pow2 by lia. f_equal.
    rewrite Z.mul_add_distr_r, Z.pow_add_r, <-Z.div_div by lia. f_equal. change (2 ^ (1 * 8)) with 256.
    change (2 ^ 8) with 256 in *. rewrite Z.mul_comm, Z.div_add by lia. rewrite Z.div_small; lia.
Qed.

Lemma s64_u64 x : - 2 ^ 63 <= x < 2 ^ 63 → s64 (u64 x) = x.
Proof.
  intros Hx. unfold swrap, wrap. change (2 ^ (64 - 1)) with (2 ^ 63). rewrite Z.add_mod_idemp_l by lia.
  rewrite Z.mod_small; lia.
Qed.
Lemma u64_s64 x : 0 <= x < 2 ^ 64 → (- 2 ^ 63 <= s64 x < 2 ^ 63) ∧ u64 (s64 x) = x.
Proof.
  intros Hx. unfold swrap, wrap. change (2 ^ (64 - 1)) with (2 ^ 63). pose proof (Z.mod_pos_bound (x + 2 ^ 63) (2 ^ 64)). split; [lia|].
  rewrite Zminus_mod_idemp_l, Z.add_simpl_r. by apply Z.mod_small.
Qed.

Lemma Address_bytes_length a : length (ad_ss a) = sizeof_ss → lenZ (Address_bytes a) = sizeof_Impl.
Proof. intros H. unfold lenZ, Address_bytes. by rewrite length_app, H. Qed.

Lemma Address_of_bytes a : Address_wf a → Address_of (Address_bytes a) = Val a.
Proof.
  destruct a as [ss seq]. intros [Hl Hb Hs].
  cbn [ad_ss ad_seq] in *. unfold Address_of. rewrite Address_bytes_length by done. rewrite Z.eqb_refl. cbn [enforce mbind outcome_bind].
  unfold Address_bytes. cbn [ad_ss ad_seq]. rewrite take_app_length', drop_app_length' by done.
  rewrite (put_u64_slice_val false (u64 seq)) by (apply wrap_range; lia). by rewrite s64_u64.
Qed.

(** An address survives the store: from its bytes comes the same address,
    and any string of bytes of the right length is the bytes of the address
    read from it; one of another length throws. *)
Theorem Address_roundtrip :
  (∀ a, Address_wf a → Address_of (Address_bytes a) = Val a) ∧
  (∀ bytes, bytes_ok bytes → ∀ a, Address_of bytes = Val a → Address_wf a ∧ Address_bytes a = bytes) ∧
  (∀ bytes, lenZ bytes ≠ sizeof_Impl → Address_of bytes = Exn EnforceNotMet).
Proof.
  split_and!.
  - apply Address_of_bytes.
  - intros bytes Hb a. unfold Address_of. destruct (Z.eqb_spec sizeof_Impl (lenZ bytes)) as [Hl|]; [|done]. cbn [enforce mbind outcome_bind].
    intros [= <-]. unfold sizeof_Impl, lenZ, sizeof_ss in *. assert (length bytes = 136)%nat as Hl' by lia.
    assert (bytes_ok (drop 128 bytes)) as Hd by by apply Forall_drop.
    pose proof (le_val_bound _ Hd) as Hv. unfold lenZ in Hv. rewrite length_drop, Hl' in Hv. change (256 ^ Z.of_nat (136 - 128)) with (2 ^ 64) in Hv.
    set (v := le_val (drop 128 bytes)) in *.
    destruct (u64_s64 v) as [Hr Hu]; [done|].
    split.
    + split; cbn [ad_ss ad_seq]; [unfold sizeof_ss; rewrite length_take; lia|by apply Forall_take|done].
    + unfold Address_bytes. cbn [ad_ss ad_seq]. rewrite Hu. rewrite <-(take_drop 128 bytes) at 2. f_equal.
      rewrite <-(shifts_le_val (drop 128 bytes)) by done. fold v. unfold lenZ. by rewrite length_drop, Hl'.
  - intros bytes Hl. unfold Address_of. by destruct (Z.eqb_spec sizeof_Impl (lenZ bytes)).
Qed.

Lemma Address_bytes_ok a : bytes_ok (ad_ss a) → bytes_ok (Address_bytes a).
Proof. intros H. apply Forall_app. split; [done|apply put_u64_slice_ok]. Qed.

(* ------------------------------------------------------------------ *)
(** * One of two connects *)

Lemma memcmp_opp a : ∀ b, memcmp b a = - memcmp a b.
Proof.
  induction a as [|x a IH]; intros [|y b]; [done..|]. cbn [memcmp].
  destruct (Z.ltb_spec x y), (Z.ltb_spec y x); try lia. apply IH.
Qed.
Lemma memcmp_refl a : memcmp a a = 0.
Proof. induction a as [|x a IH]; [done|]. cbn. by rewrite Z.ltb_irrefl. Qed.
Lemma compare_inet_opp a b : compare_inet b a = - compare_inet a b.
Proof.
  unfold compare_inet. rewrite memcmp_opp. generalize (memcmp (sin_addr a) (sin_addr b)). intros m. destruct (Z.eqb_spec m 0), (Z.eqb_spec (- m) 0); lia.
Qed.
Lemma compare_inet6_opp a b : compare_inet6 b a = - compare_inet6 a b.
Proof.
  unfold compare_inet6. rewrite memcmp_opp. generalize (memcmp (sin6_addr a) (sin6_addr b)). intros m. destruct (Z.eqb_spec m 0), (Z.eqb_spec (- m) 0); lia.
Qed.

Lemma s32_opp x : x `mod` 2 ^ 32 ≠ 2 ^ 31 → s32 (- x) = - s32 x.
Proof.
  unfold swrap. change (2 ^ (32 - 1)) with (2 ^ 31). intros Hx.
  pose proof (Z.div_mod x (2 ^ 32)). pose proof (Z.mod_pos_bound x (2 ^ 32)). set (q := x / 2 ^ 32) in *. set (r := x `mod` 2 ^ 32) in *.
  assert ((x + 2 ^ 31) `mod` 2 ^ 32 = if decide (r < 2 ^ 31) then r + 2 ^ 31 else r - 2 ^ 31) as ->.
  { case_decide; symmetry; [apply (Z.mod_unique_pos _ _ q)|apply (Z.mod_unique_pos _ _ (q + 1))]; lia. }
  assert ((- x + 2 ^ 31) `mod` 2 ^ 32 = if decide (r < 2 ^ 31) then 2 ^ 31 - r else 2 ^ 31 + 2 ^ 32 - r) as ->.
  { case_decide; symmetry; [apply (Z.mod_unique_pos _ _ (- q))|apply (Z.mod_unique_pos _ _ (- q - 1))]; lia. }
  case_decide; lia.
Qed.

Lemma s32_zero x : s32 x = 0 ↔ x `mod` 2 ^ 32 = 0.
Proof.
  unfold swrap. change (2 ^ (32 - 1)) with (2 ^ 31). split; intros H.
  - replace x with (x + 2 ^ 31 - 2 ^ 31) by lia. rewrite Zminus_mod. replace ((x + 2 ^ 31) `mod` 2 ^ 32) with (2 ^ 31) by lia. reflexivity.
  - rewrite Z.add_mod, H by lia. reflexivity.
Qed.

Definition inet_family (a : Address) : bool := (ss_family a =? AF_INET) || (ss_family a =? AF_INET6).

Lemma isInitiator_eq a b : 0 <= ad_seq a < 2 ^ 63 → 0 <= ad_seq b < 2 ^ 63 →
  isInitiator a b =
    if (ss_family a =? ss_family b) && inet_family a then
      let rv := if ss_family a =? AF_INET then compare_inet a b else compare_inet6 a b in
      let rv := if rv =? 0 then s32 (ad_seq a - ad_seq b) else rv in
      if rv =? 0 then Exn EnforceNotMet else Val (0 <? rv)
    else Exn EnforceNotMet.
Proof.
  intros Ha Hb. unfold isInitiator, inet_family, seq_difference.
  destruct (ss_family a =? ss_family b); [|done]. cbn [enforce mbind outcome_bind andb].
  destruct (ss_family a =? AF_INET); [|destruct (ss_family a =? AF_INET6); [|done]]; cbn [orb mbind outcome_bind].
  all: rewrite (proj2 (Z.leb_le _ _)), (proj2 (Z.ltb_lt _ _)) by lia; cbn [andb].
  1: destruct (compare_inet a b =? 0) eqn:E. 3: destruct (compare_inet6 a b =? 0) eqn:E.
  all: rewrite ?E; cbn [mbind outcome_bind]; rewrite ?E; by try destruct (s32 _ =? 0).
Qed.

Lemma isInitiator_family a b r : isInitiator a b = Val r → ss_family a = ss_family b ∧ inet_family a = true.
Proof.
  unfold isInitiator, inet_family. destruct (Z.eqb_spec (ss_family a) (ss_family b)); [|done]. cbn [enforce mbind outcome_bind].
  destruct (ss_family a =? AF_INET); [done|]. by destruct (ss_family a =? AF_INET6).
Qed.

(** What is left of the two comparisons. *)
Definition sides (rv d : Z) : outcome bool :=
  let rv := if rv =? 0 then s32 d else rv in if rv =? 0 then Exn EnforceNotMet else Val (0 <? rv).
Lemma sides_opp rv d : ¬ ((rv =? 0) = true ∧ d `mod` 2 ^ 32 = 2 ^ 31) →
  sides (- rv) (- d) = negb <$> sides rv d ∧ ((∃ r, sides rv d = Val r) ↔ ((rv =? 0) = true → d `mod` 2 ^ 32 ≠ 0)).
Proof.
  intros Hd. unfold sides. cbn zeta. pose proof (s32_zero d). destruct (Z.eqb_spec rv 0) as [->|Hr]; cbn [Z.opp Z.eqb].
  - change (- 0 =? 0) with true. cbv iota. rewrite s32_opp by (intros ?; by apply Hd).
    destruct (Z.eqb_spec (s32 d) 0) as [Hs|Hs].
    { rewrite Hs. cbn. split; [done|]. split; [by intros [? ?]|]. intros Hn. exfalso. apply Hn; [done|]. by apply H. }
    destruct (Z.eqb_spec (- s32 d) 0); [lia|]. cbn. split; [f_equal|split; [intros _ _ Hm; by apply Hs, H|eauto]].
    destruct (Z.ltb_spec 0 (- s32 d)), (Z.ltb_spec 0 (s32 d)); cbn; lia || done.
  - rewrite (proj2 (Z.eqb_neq (- rv) 0)) by lia. rewrite (proj2 (Z.eqb_neq (- rv) 0)) by lia. rewrite (proj2 (Z.eqb_neq rv 0)) by lia. cbn. split; [f_equal|split; [done|eauto]].
    destruct (Z.ltb_spec 0 (- rv)), (Z.ltb_spec 0 rv); cbn; lia || done.
Qed.

Lemma isInitiator_both a b
    (Ha : 0 <= ad_seq a < 2 ^ 63) (Hb : 0 <= ad_seq b < 2 ^ 63)
    (Hd : ¬ (same_device a b = true ∧ (ad_seq a - ad_seq b) `mod` 2 ^ 32 = 2 ^ 31)) :
  isInitiator b a = negb <$> isInitiator a b ∧
  ((∃ r, isInitiator a b = Val r) ↔
    ss_family a = ss_family b ∧ inet_family a = true ∧
    (same_device a b = true → (ad_seq a - ad_seq b) `mod` 2 ^ 32 ≠ 0)).
Proof.
  rewrite !isInitiator_eq by done. unfold same_device in *. rewrite (Z.eqb_sym (ss_family b)), compare_inet_opp, compare_inet6_opp.
  destruct (Z.eqb_spec (ss_family a) (ss_family b)) as [Hf|Hf]; [|naive_solver]. unfold inet_family. rewrite <-!Hf. cbn [andb].
  destruct ((ss_family a =? AF_INET) || (ss_family a =? AF_INET6)); [|naive_solver].
  revert Hd. destruct (ss_family a =? AF_INET); [generalize (compare_inet a b)|generalize (compare_inet6 a b)]; intros rv Hd; cbn zeta.
  all: fold (sides rv (ad_seq a - ad_seq b)); fold (sides (- rv) (ad_seq b - ad_seq a)); destruct (sides_opp _ _ Hd) as [H1 H2];
    replace (ad_seq b - ad_seq a) with (- (ad_seq a - ad_seq b)) by lia; naive_solver.
Qed.

(** C20: Two pairs that are given each other's address agree on who connects.
    For addresses with sequence numbers that were given out, unless both are of
    one device and their sequence numbers are 2^31 apart (modulo 2^32), the one
    side answers the opposite of the other, and either both get an answer or
    both throw; they do get one exactly when the families are the same and
    known, and the devices differ or the sequence numbers do (modulo 2^32). *)
Theorem isInitiator_sides a b
    (Ha : 0 <= ad_seq a < 2 ^ 63) (Hb : 0 <= ad_seq b < 2 ^ 63)
    (Hd : ¬ (same_device a b = true ∧ (ad_seq a - ad_seq b) `mod` 2 ^ 32 = 2 ^ 31)) :
  isInitiator b a = negb <$> isInitiator a b ∧
  ((∃ r, isInitiator a b = Val r) ↔
    ss_family a = ss_family b ∧ inet_family a = true ∧
    (same_device a b = true → (ad_seq a - ad_seq b) `mod` 2 ^ 32 ≠ 0)).
Proof. by apply isInitiator_both. Qed.

(** An IPv4 address: family, port and address as they lie in memory. *)
Definition inet_address (port ip : list Z) (seq : Z) : Address :=
  mkAddress ([2; 0] ++ port ++ ip ++ replicate 120 0) seq.

Lemma isInitiator_sides_witness :
  let a := inet_address [31; 144] [127; 0; 0; 1] 5 in let b := inet_address [31; 144] [127; 0; 0; 1] 3 in
  isInitiator b a = negb <$> isInitiator a b ∧ isInitiator a b = Val true.
Proof.
  cbn zeta. split; [|reflexivity]. apply isInitiator_sides.
  - cbn. lia.
  - cbn. lia.
  - intros [_ H]. vm_compute in H. discriminate.
Defined.

(** On one device, sequence numbers 2^31 apart: neither side connects. *)
Lemma isInitiator_neither :
  let a := inet_address [31; 144] [127; 0; 0; 1] (2 ^ 31) in let b := inet_address [31; 144] [127; 0; 0; 1] 0 in
  isInitiator a b = Val false ∧ isInitiator b a = Val false.
Proof. split; reflexivity. Qed.

(* ------------------------------------------------------------------ *)
(** * Connections find their pairs *)

Section matching.
Context {F Sock : Type}.
Implicit Types (es : list (LEvent F Sock)).

Fixpoint fn_of es (k : Z) : option F :=
  match es with
  | [] => None
  | LWait seq fn :: es => if decide (seq = k) then Some fn else fn_of es k
  | LHave _ _ :: es => fn_of es k
  end.
Fixpoint sock_of es (k : Z) : option Sock :=
  match es with
  | [] => None
  | LHave seq socket :: es => if decide (seq = k) then Some socket else sock_of es k
  | LWait _ _ :: es => sock_of es k
  end.

(** The callbacks of the pairs for which a connection came, with it. *)
Definition matched_with (socks : Z → option Sock) es : list (F * Sock) :=
  omap (λ e, match e with LWait seq fn => (λ s, (fn, s)) <$> socks seq | LHave _ _ => None end) es.
Definition matched es : list (F * Sock) := matched_with (sock_of es) es.

(** No sequence number is waited for twice or comes twice. *)
Definition wait_seqs es : list Z := omap (λ e, match e with LWait seq _ => Some seq | _ => None end) es.
Definition have_seqs es : list Z := omap (λ e, match e with LHave seq _ => Some seq | _ => None end) es.
Definition distinct es : Prop := NoDup (wait_seqs es) ∧ NoDup (have_seqs es).

Lemma fn_of_None es k : fn_of es k = None ↔ k ∉ wait_seqs es.
Proof.
  induction es as [|[seq fn|seq s] es IH]; cbn; [set_solver| |done].
  fold (wait_seqs es). rewrite not_elem_of_cons. case_decide; naive_solver.
Qed.
Lemma sock_of_None es k : sock_of es k = None ↔ k ∉ have_seqs es.
Proof.
  induction es as [|[seq fn|seq s] es IH]; cbn; [set_solver|done|].
  fold (have_seqs es). rewrite not_elem_of_cons. case_decide; naive_solver.
Qed.

Lemma fn_of_app es es' k : fn_of (es ++ es') k = match fn_of es k with Some fn => Some fn | None => fn_of es' k end.
Proof. induction es as [|[seq fn|seq s] es IH]; cbn; [done| |done]. by case_decide. Qed.
Lemma sock_of_app es es' k : sock_of (es ++ es') k = match sock_of es k with Some s => Some s | None => sock_of es' k end.
Proof. induction es as [|[seq fn|seq s] es IH]; cbn; [done|done|]. by case_decide. Qed.

Lemma matched_with_app socks es es' : matched_with socks (es ++ es') = matched_with socks es ++ matched_with socks es'.
Proof. apply omap_app. Qed.

(** A connection that comes is matched once, with the pair that waits. *)
Lemma matched_with_insert es (socks : Z → option Sock) k s : NoDup (wait_seqs es) → socks k = None →
  matched_with (λ k', if decide (k' = k) then Some s else socks k') es ≡ₚ
  matched_with socks es ++ match fn_of es k with Some fn => [(fn, s)] | None => [] end.
Proof.
  intros Hnd Hk. induction es as [|[seq fn|seq s'] es IH]; [done| |by apply IH].
  cbn in Hnd. apply NoDup_cons in Hnd as [Hni Hnd]. specialize (IH Hnd). cbn. fold (wait_seqs es) in *.
  fold (matched_with (λ k', if decide (k' = k) then Some s else socks k') es). fold (matched_with socks es).
  destruct (decide (seq = k)) as [->|Hne].
  - rewrite Hk. cbn. apply fn_of_None in Hni. rewrite Hni, app_nil_r in IH. rewrite IH. by rewrite Permutation_app_comm.
  - destruct (socks seq); cbn; by rewrite IH.
Qed.

Record Listener_after es (calls : list (F * Sock)) (l0 l : Listener F Sock) : Prop := {
  la_addr : addr_ l = addr_ l0;
  la_seq : seq_ l = seq_ l0;
  la_calls : calls ≡ₚ matched es;
  la_fns k : seqToCallback_ l !! k = match sock_of es k with None => fn_of es k | Some _ => None end;
  la_socks k : seqToSocket_ l !! k = match fn_of es k with None => sock_of es k | Some _ => None end;
}.

Lemma LEvents_run_snoc es e l calls l1 : LEvents_run es l = (Val calls, l1) →
  ∀ calls' l2, LEvent_run e l1 = (Val calls', l2) → LEvents_run (es ++ [e]) l = (Val (calls ++ calls'), l2).
Proof.
  revert l calls. induction es as [|e' es IH]; intros l calls H calls' l2 He; cbn [LEvents_run app] in *.
  - apply ret_inv in H as [-> ->]. rewrite (M_bind_val _ _ _ _ _ He). unfold mbind, M_bind, mret, M_ret. by rewrite app_nil_r.
  - M_inv H. M_inv H. M_inv H. rewrite (M_bind_val _ _ _ _ _ H0), (M_bind_val _ _ _ _ _ (IH _ _ H1 _ _ He)).
    unfold mret, M_ret. by rewrite app_assoc.
Qed.

Lemma distinct_snoc es e : distinct (es ++ [e]) → distinct es ∧
  match e with LWait seq _ => fn_of es seq = None | LHave seq _ => sock_of es seq = None end.
Proof.
  unfold distinct, wait_seqs, have_seqs. rewrite !omap_app, !NoDup_app. rewrite <-?fn_of_None, <-?sock_of_None.
  intros [(Hw & Hwe & _) (Hh & Hhe & _)]. split; [done|]. destruct e as [seq fn|seq s]; cbn in *.
  - apply fn_of_None. intros Hin. by eapply Hwe; [exact Hin|left].
  - apply sock_of_None. intros Hin. by eapply Hhe; [exact Hin|left].
Qed.

Lemma matched_with_ext socks socks' es : (∀ k, socks k = socks' k) → matched_with socks es = matched_with socks' es.
Proof. intros H. unfold matched_with. apply list_omap_ext. apply Forall_Forall2_diag, Forall_true. intros [seq fn|]; [by rewrite H|done]. Qed.

Lemma matched_wait es seq fn :
  matched (es ++ [LWait seq fn]) = matched es ++ match sock_of es seq with Some s => [(fn, s)] | None => [] end.
Proof.
  unfold matched. rewrite (matched_with_ext _ (sock_of es)).
  - rewrite matched_with_app. f_equal. cbn. by destruct (sock_of es seq).
  - intros k. rewrite sock_of_app. cbn. by destruct (sock_of es k).
Qed.
Lemma matched_have es seq s : NoDup (wait_seqs es) → sock_of es seq = None →
  matched (es ++ [LHave seq s]) ≡ₚ matched es ++ match fn_of es seq with Some fn => [(fn, s)] | None => [] end.
Proof.
  intros Hnd Hs. unfold matched. rewrite matched_with_app. cbn [matched_with omap list_omap]. rewrite app_nil_r.
  rewrite <-(matched_with_insert es (sock_of es) seq s Hnd Hs). erewrite matched_with_ext; [reflexivity|].
  intros k. rewrite sock_of_app. cbn. repeat case_decide; subst; rewrite ?Hs; try done. by destruct (sock_of es k).
Qed.

Lemma Listener_step es e calls l0 l : distinct (es ++ [e]) → Listener_after es calls l0 l →
  ∃ calls' l', LEvent_run e l = (Val calls', l') ∧ Listener_after (es ++ [e]) (calls ++ calls') l0 l'.
Proof.
  intros Hd [Ha Hq Hc Hf Hk]. apply distinct_snoc in Hd as [[Hnd _] He].
  destruct e as [seq fn|seq s]; cbn [LEvent_run]; unfold waitForConnection, haveConnection; M_run.
  - pose proof (Hk seq) as Hkq. rewrite He in Hkq. rewrite Hkq.
    destruct (sock_of es seq) as [s|] eqn:Hso; eexists _, _; (split; [reflexivity|split; cbn [addr_ seq_ seqToCallback_ seqToSocket_]; [done|done|..]]).
    + rewrite matched_wait, Hso, Hc. done.
    + intros k. rewrite Hf, sock_of_app, fn_of_app. cbn. destruct (sock_of es k) eqn:Hsk; [done|]. case_decide; [congruence|]. by destruct (fn_of es k).
    + intros k. rewrite fn_of_app, sock_of_app. cbn. case_decide.
      * subst. rewrite He. by rewrite lookup_delete_eq.
      * rewrite lookup_delete_ne by done. rewrite Hk. by destruct (fn_of es k), (sock_of es k).
    + by rewrite matched_wait, Hso, Hc.
    + intros k. unfold emplace. pose proof (Hf seq) as Hfq. rewrite Hso, He in Hfq. rewrite Hfq. rewrite sock_of_app, fn_of_app. cbn. case_decide.
      * subst. by rewrite lookup_insert_eq, Hso, He.
      * rewrite lookup_insert_ne by done. rewrite Hf. by destruct (fn_of es k), (sock_of es k).
    + intros k. rewrite Hk, fn_of_app, sock_of_app. cbn. destruct (fn_of es k) eqn:Hfk; [done|]. case_decide; [subst; by rewrite Hso|]. by destruct (sock_of es k).
  - pose proof (Hf seq) as Hfq. rewrite He in Hfq. rewrite Hfq.
    destruct (fn_of es seq) as [fn|] eqn:Hfn; eexists _, _; (split; [reflexivity|split; cbn [addr_ seq_ seqToCallback_ seqToSocket_]; [done|done|..]]).
    + by rewrite matched_have, Hfn, Hc.
    + intros k. rewrite sock_of_app, fn_of_app. cbn. case_decide.
      * subst. rewrite He. by rewrite lookup_delete_eq.
      * rewrite lookup_delete_ne by done. rewrite Hf. by destruct (fn_of es k), (sock_of es k).
    + intros k. rewrite Hk, fn_of_app, sock_of_app. cbn. destruct (fn_of es k) eqn:Hfk; [done|]. case_decide; [congruence|]. by destruct (sock_of es k).
    + by rewrite matched_have, Hfn, Hc.
    + intros k. rewrite Hf, sock_of_app, fn_of_app. cbn. destruct (sock_of es k) eqn:Hsk; [done|]. case_decide; [subst; by rewrite Hfn|]. by destruct (fn_of es k).
    + intros k. unfold emplace. pose proof (Hk seq) as Hkq. rewrite Hfn, He in Hkq. rewrite Hkq. rewrite fn_of_app, sock_of_app. cbn. case_decide.
      * subst. by rewrite lookup_insert_eq, Hfn, He.
      * rewrite lookup_insert_ne by done. rewrite Hk. by destruct (fn_of es k), (sock_of es k).
Qed.

Lemma Listener_runs es : distinct es → ∀ l0, seqToCallback_ l0 = ∅ → seqToSocket_ l0 = ∅ →
  ∃ calls l, LEvents_run es l0 = (Val calls, l) ∧ Listener_after es calls l0 l.
Proof.
  intros Hd l0 H1 H2. induction es as [|e es IH] using rev_ind.
  { exists [], l0. split; [done|]. split; [done..| |]; intros k; by rewrite ?H1, ?H2. }
  destruct (IH (proj1 (distinct_snoc _ _ Hd))) as (calls & l & Hr & Hl).
  destruct (Listener_step es e calls l0 l Hd Hl) as (calls' & l' & Hr' & Hl').
  eexists _, l'. split; [by eapply LEvents_run_snoc|done].
Qed.

(** C21: The listener brings each connection to its pair, whichever comes first.
    From a new listener, after any sequence in which no number is waited for
    twice and none comes twice, the callbacks that were called are, each once,
    those of the pairs whose connection came, each with the socket that came
    with its number; the callbacks and the sockets still kept are those that
    have found no match. *)
Theorem Listener_matches es sockName (Hd : distinct es) :
  ∃ calls l, LEvents_run es (Listener_new sockName) = (Val calls, l) ∧ calls ≡ₚ matched es ∧
    (∀ k, seqToCallback_ l !! k = match sock_of es k with None => fn_of es k | Some _ => None end) ∧
    (∀ k, seqToSocket_ l !! k = match fn_of es k with None => sock_of es k | Some _ => None end).
Proof.
  destruct (Listener_runs es Hd (Listener_new sockName)) as (calls & l & Hr & [_ _ Hc Hf Hk]); [done..|]. by exists calls, l.
Qed.
End matching.

Lemma Listener_matches_witness : ∃ l : Listener string string,
  LEvents_run [LHave 1 "s1"%string; LWait 0 "f0"%string; LWait 1 "f1"%string; LHave 0 "s0"%string; LHave 2 "s2"%string]
    (Listener_new (inet_address [0; 0] [127; 0; 0; 1] (-1))) = (Val [("f1"%string, "s1"%string); ("f0"%string, "s0"%string)], l) ∧
  seqToSocket_ l !! 2 = Some "s2"%string.
Proof.
  destruct (Listener_matches [LHave 1 "s1"%string; LWait 0 "f0"%string; LWait 1 "f1"%string; LHave 0 "s0"%string; LHave 2 "s2"%string]
    (inet_address [0; 0] [127; 0; 0; 1] (-1))) as (calls & l & Hr & _ & _ & Hs).
  - split; vm_compute; repeat constructor; set_solver.
  - exists l. assert (calls = [("f1"%string, "s1"%string); ("f0"%string, "s0"%string)]) as <- by (vm_compute in Hr; congruence).
    split; [exact Hr|]. rewrite Hs. reflexivity.
Defined.
