(* ===== verification/Mesh.v ===== *)
(** [rendezvous/context.cc]: [connectFullMesh], and the processes that run it
    against one store, each with a device of its own. *)
From stdpp Require Import gmap strings pretty.
From S2P Require Import Prelude Packet PairOps Stores Device.

(* ------------------------------------------------------------------ *)
(** * The program *)

(** What a process does to the store, to its transport context and to its
    pairs, and what it does next. *)
Inductive MProg :=
  | PSet (key : string) (data : Data) (next : MProg)
  | PGet (key : string) (next : Data → MProg)
  | PWait (keys : list string) (timeout : Z) (next : MProg)
  | PCreatePair (i : Z) (next : Address → MProg)       (* and its [address()] *)
  | PSetLocalRank (i localRank : Z) (next : MProg)
  | PConnect (i : Z) (bytes : list Z) (next : MProg)
  | PWaitConnected (i : Z) (next : MProg)
  | PStop (r : outcome unit).

Definition POutcome {A} (o : outcome A) (next : A → MProg) : MProg :=
  match o with Val a => next a | Exn e => PStop (Exn e) | UB => PStop UB end.

(** ["rank_" + std::to_string(i)] and [ostringstream() << i] *)
Definition host_key (i : Z) : string := ("rank_" +:+ pretty i)%string.
Definition addr_key (i : Z) : string := pretty i.

Section program.
Context (rank size : Z) (localHostName : list Z) (timeout : Z).

(** The local rank: one loop up to [i == rank]. *)
Fixpoint localRank_loop (ranks : list Z) (localRank : Z) (next : Z → MProg) : MProg :=
  match ranks with
  | [] => next localRank
  | i :: ranks =>
      if i =? rank then next localRank
      else PGet (host_key i) (λ hostName,
        localRank_loop ranks (if bool_decide (hostName = localHostName) then localRank + 1 else localRank) next)
  end.

(** Create the pairs and collect their addresses. *)
Fixpoint createPair_loop (ranks : list Z) (localRank : Z) (allBytes : list Z) (next : list Z → MProg) : MProg :=
  match ranks with
  | [] => next allBytes
  | i :: ranks =>
      if i =? rank then createPair_loop ranks localRank allBytes next
      else PCreatePair i (λ self, PSetLocalRank i localRank
        (createPair_loop ranks localRank (allBytes ++ Address_bytes self) next))
  end.

(** [extractAddress(allAddrs, i)] *)
Definition extractAddress (allAddrs : list Z) (i : Z) : outcome (list Z) :=
  let adjRank := if i <? rank then rank - 1 else rank in
  if size - 1 =? 0 then UB
  else let addrSize := s32 (lenZ allAddrs `quot` (size - 1)) in
       from_option_ub (sub allAddrs (adjRank * addrSize) addrSize).

(** [getPair(i)->connect(bytes)] *)
Definition pair_connect (i : Z) (bytes : list Z) (next : MProg) : MProg := PConnect i bytes (PWaitConnected i next).

(** Connect every pair. *)
Fixpoint connect_loop (ranks : list Z) (next : MProg) : MProg :=
  match ranks with
  | [] => next
  | i :: ranks =>
      if i =? rank then connect_loop ranks next
      else PWait [addr_key i] timeout (PGet (addr_key i) (λ allAddrs,
        POutcome (extractAddress allAddrs i) (λ addr, pair_connect i addr (connect_loop ranks next))))
  end.

Definition connectFullMesh : MProg :=
  PSet (host_key rank) localHostName (
  localRank_loop (seqZ 0 size) 0 (λ localRank,
  createPair_loop (seqZ 0 size) localRank [] (λ allBytes,
  PSet (addr_key rank) allBytes (
  connect_loop (seqZ 0 size) (PStop (Val ())))))).
End program.

(* ------------------------------------------------------------------ *)
(** * Pairs and devices of one process *)

(** One end of a connection that pair [sk_from.2] of process [sk_from.1]
    asked for; the accepted end is the other side's. *)
Record Socket := mkSocket { sk_from : Z * Z; sk_accepted : bool }.

(** [tcp::Pair] while it connects. *)
Record CPair := mkCPair {
  cp_state : pair_state;
  cp_self : Address;
  cp_peer : option Address;
  cp_localRank : Z;
  cp_fd : option Socket;
}.
#[export] Instance CPair_eta : Eta CPair := λ p, mkCPair (cp_state p) (cp_self p) (cp_peer p) (cp_localRank p) (cp_fd p).

(** A process: the rest of its program, its pairs, its device's listener (the
    callbacks are those of its pairs), the sequence numbers the loop has yet
    to write, and the callbacks it has yet to call. *)
Record MProc := mkMProc {
  mp_prog : MProg;
  mp_pairs : gmap Z CPair;
  mp_listener : Listener Z Socket;
  mp_writes : list (Address * Socket * Z);
  mp_calls : list (Z * Socket);
}.
#[export] Instance MProc_eta : Eta MProc := λ p,
  mkMProc (mp_prog p) (mp_pairs p) (mp_listener p) (mp_writes p) (mp_calls p).

(** The store, the processes by rank, and the sequence numbers on their way:
    to the listener at an address, on the accepted end of a connection. *)
Record Mesh (S : Type) := mkMesh {
  ms_store : S;
  ms_proc : gmap Z MProc;
  ms_flight : list (list Z * Z * Socket);
}.
Arguments mkMesh {S}.
Arguments ms_store {S}.
Arguments ms_proc {S}.
Arguments ms_flight {S}.

Definition mesh_set {S} (r : Z) (p : MProc) (s : Mesh S) : Mesh S :=
  mkMesh (ms_store s) (<[r := p]> (ms_proc s)) (ms_flight s).

Section process.
(** [getsockname(2)] and [getpeername(2)] *)
Context (sockName peerName : Socket → Address).

(** [nextAddress], [waitForConnection] and [haveConnection] of the device's
    listener. *)
Definition on_listener {A} (m : M (Listener Z Socket) A) : M MProc A :=
  p ← get;
  let '(r, l) := m (mp_listener p) in
  _ ← put (p <| mp_listener := l |>); lift r.

Definition on_cpair {A} (i : Z) (m : M CPair A) : M MProc A :=
  p ← get;
  match mp_pairs p !! i with
  | None => undef
  | Some c => let '(r, c) := m c in _ ← put (p <| mp_pairs ::= <[i := c]> |>); lift r
  end.

(** [createPair(i)] and the constructor of [Pair] *)
Definition createPair (i : Z) : M MProc Address :=
  self ← on_listener nextAddress;
  _ ← modify (λ p, p <| mp_pairs ::= <[i := mkCPair INITIALIZING self None 0 None]> |>);
  mret self.

Definition setLocalRank (i localRank : Z) : M MProc unit :=
  on_cpair i (_ ← lift (enforce (0 <=? localRank)); modify (λ p, p <| cp_localRank := localRank |>)).

(** [connectCallback(socket, error)], when there was no error *)
Definition connectCallback (i : Z) (socket : Socket) : M MProc unit :=
  on_cpair i (modify (λ p, p
    <| cp_self := sockName socket |> <| cp_peer := Some (peerName socket) |> <| cp_fd := Some socket |>
    <| cp_state := CONNECTED |>)).

(** [connectAsInitiator] and [connectAsListener] of the device: the socket's
    sequence number is written by the loop. *)
Definition connectAsInitiator (rank i : Z) (remote : Address) : M MProc unit :=
  modify (λ p, p <| mp_writes ::= λ w, w ++ [(remote, mkSocket (rank, i) false, i)] |>).
Definition connectAsListener (i : Z) (local : Address) : M MProc unit :=
  calls ← on_listener (waitForConnection (ad_seq local) i);
  modify (λ p, p <| mp_calls ::= λ c, c ++ calls |>).

(** [Device::connect] *)
Definition Device_connect (rank i : Z) (local remote : Address) : M MProc unit :=
  initiator ← lift (isInitiator local remote);
  if initiator : bool then connectAsInitiator rank i remote else connectAsListener i local.

(** [Pair::connect(bytes)], up to the wait *)
Definition CPair_connect (rank i : Z) (bytes : list Z) : M MProc unit :=
  peer ← lift (Address_of bytes);
  local ← on_cpair i (
    p ← get;
    _ ← lift (enforce (bool_decide (cp_state p = INITIALIZING)));
    _ ← put (p <| cp_state := CONNECTING |>);
    mret (cp_self p));
  Device_connect rank i local peer.

(* ------------------------------------------------------------------ *)
(** * All processes *)

(** The program goes on with the result of a call. *)
Definition go_on {A} (next : A → MProg) (x : outcome A * MProc) : MProc :=
  x.2 <| mp_prog := POutcome x.1 next |>.

Inductive MLabel :=
  | LRun (r : Z)                (* the next call of a program *)
  | LWrite (r : Z) (n : nat)    (* the loop writes a sequence number *)
  | LCall (r : Z) (n : nat)     (* the loop calls a callback *)
  | LArrive (n : nat) (r : Z).  (* a sequence number is read off a socket *)

(** A function that the loop calls: what it throws ends the process. *)
Definition loop_runs (m : M MProc unit) (p : MProc) : MProc :=
  match m p with (Val _, p) => p | (o, p) => p <| mp_prog := PStop o |> end.

Context {S : Type} (st : Store S).

(** A call that has to wait takes no step; no wait times out. *)
Definition mesh_run (r : Z) (s : Mesh S) : option (Mesh S) :=
  p ← ms_proc s !! r;
  match mp_prog p with
  | PSet key data next =>
      let '(o, store) := store_set key data (ms_store s) in
      Some (mkMesh store (<[r := go_on (λ _, next) (o, p)]> (ms_proc s)) (ms_flight s))
  | PGet key next => o ← store_get key 0 (ms_store s); Some (mesh_set r (go_on next (o, p)) s)
  | PWait keys timeout next => o ← store_wait keys timeout 0 (ms_store s); Some (mesh_set r (go_on (λ _, next) (o, p)) s)
  | PCreatePair i next => Some (mesh_set r (go_on next (createPair i p)) s)
  | PSetLocalRank i localRank next => Some (mesh_set r (go_on (λ _, next) (setLocalRank i localRank p)) s)
  | PConnect i bytes next => Some (mesh_set r (go_on (λ _, next) (CPair_connect r i bytes p)) s)
  | PWaitConnected i next =>
      match mp_pairs p !! i with
      | None => Some (mesh_set r (go_on (λ _ : unit, next) (UB, p)) s)
      | Some c =>
          match cp_state c with
          | CONNECTED | CLOSED => Some (mesh_set r (go_on (λ _, next) (Val (), p)) s)
          | _ => None
          end
      end
  | PStop _ => None
  end.

Definition mesh_exec (l : MLabel) (s : Mesh S) : option (Mesh S) :=
  match l with
  | LRun r => mesh_run r s
  | LWrite r n =>
      p ← ms_proc s !! r;
      '(remote, socket, i) ← mp_writes p !! n;
      let p := loop_runs (connectCallback i socket) (p <| mp_writes ::= delete n |>) in
      Some (mkMesh (ms_store s) (<[r := p]> (ms_proc s))
              (ms_flight s ++ [(ad_ss remote, ad_seq remote, mkSocket (sk_from socket) true)]))
  | LCall r n =>
      p ← ms_proc s !! r;
      '(i, socket) ← mp_calls p !! n;
      Some (mesh_set r (loop_runs (connectCallback i socket) (p <| mp_calls ::= delete n |>)) s)
  | LArrive n r =>
      '(ss, seq, socket) ← ms_flight s !! n;
      p ← ms_proc s !! r;
      if bool_decide (ad_ss (addr_ (mp_listener p)) = ss) then
        let p := loop_runs (calls ← on_listener (haveConnection socket seq);
          foldr (λ '(i, socket) m, _ ← connectCallback i socket; m) (mret ()) calls) p in
        Some (mkMesh (ms_store s) (<[r := p]> (ms_proc s)) (delete n (ms_flight s)))
      else None
  end.

Fixpoint mesh_execs (ls : list MLabel) (s : Mesh S) : option (Mesh S) :=
  match ls with [] => Some s | l :: ls => s ← mesh_exec l s; mesh_execs ls s end.
End process.

(** Before any process has started. *)
Definition mesh_init {S} (store : S) (size timeout : Z) (host : Z → list Z) (listener : Z → Listener Z Socket) : Mesh S :=
  mkMesh store (list_to_map ((λ r, (r, mkMProc (connectFullMesh r size (host r) timeout) ∅ (listener r) [] [])) <$> seqZ 0 size)) [].
