(* ===== verification/MeshRun.v ===== *)
(** [connectFullMesh] of all processes at once: that it ends, and what it has
    connected. *)
From Stdlib Require Import Ascii.
From stdpp Require Import gmap strings pretty sorting.
From S2P Require Import Prelude Packet PairOps Stores Device Mesh.

(* ------------------------------------------------------------------ *)
(** * Keys *)

Lemma host_key_inj i j : host_key i = host_key j → i = j.
Proof. unfold host_key. intros H. apply (inj (String.append "rank_")) in H. by apply (inj pretty) in H. Qed.
Lemma addr_key_inj i j : addr_key i = addr_key j → i = j.
Proof. apply (inj pretty). Qed.

Lemma pretty_N_go_last x : ∀ s s', s ≠ EmptyString → pretty_N_go x s = String "r"%char s' → ∃ s'', s = String "r"%char s''.
Proof.
  induction (N.lt_wf_0 x) as [x _ IH]. intros s s' Hs. destruct (decide (0 < x)%N) as [Hx|Hx].
  - rewrite pretty_N_go_step by done. intros (s'' & Hc)%IH; [|by apply N.div_lt|done]. exfalso. injection Hc as Hc _. revert Hc.
    unfold pretty_N_char. by repeat case_match.
  - assert (x = 0%N) as -> by lia. rewrite pretty_N_go_0. eauto.
Qed.
Lemma pretty_Z_head (i : Z) s : pretty i ≠ String "r"%char s.
Proof.
  assert (∀ x : N, pretty x ≠ String "r"%char s) as HN.
  { intros x. unfold pretty, pretty_N. case_decide; [done|]. rewrite pretty_N_go_step by lia.
    intros (s' & Hh)%pretty_N_go_last; [|done]. injection Hh as Hh _. revert Hh. unfold pretty_N_char. by repeat case_match. }
  destruct i; [done|apply HN|done].
Qed.
Lemma addr_host_key i j : addr_key i ≠ host_key j.
Proof. apply pretty_Z_head. Qed.

(* ------------------------------------------------------------------ *)
(** * The ranks a process goes through *)

Lemma elem_snoc {A} (x b : A) l : x ∈ l ++ [b] ↔ x ∈ l ∨ x = b.
Proof. by rewrite elem_of_app, list_elem_of_singleton. Qed.
Lemma filter_never {A} (P : A → Prop) `{∀ x, Decision (P x)} (l : list A) : (∀ x, ¬ P x) → filter P l = [].
Proof. intros HP. induction l as [|x l IH]; [done|]. by rewrite filter_cons_False. Qed.
Lemma filter_every {A} (P : A → Prop) `{∀ x, Decision (P x)} (l : list A) : Forall P l → filter P l = l.
Proof. induction 1 as [|x l Hx _ IH]; [done|]. by rewrite filter_cons_True, IH. Qed.

Section ranks.
Context (n a : Z) (Ha : 0 <= a < n).

Definition besides (l : list Z) : list Z := filter (λ i, i ≠ a) l.
Definition peers : list Z := besides (seqZ 0 n).

(** The loops do nothing for the rank itself. *)
Definition skip (l : list Z) : list Z := match l with [] => [] | i :: l' => if i =? a then l' else l end.

Lemma createPair_skip l lr bytes next : createPair_loop a l lr bytes next = createPair_loop a (skip l) lr bytes next.
Proof. destruct l as [|i l]; [done|]. cbn. destruct (i =? a) eqn:E; [done|]. cbn. by rewrite E. Qed.
Lemma connect_skip l timeout next : connect_loop a n timeout l next = connect_loop a n timeout (skip l) next.
Proof. destruct l as [|i l]; [done|]. cbn. destruct (i =? a) eqn:E; [done|]. cbn. by rewrite E. Qed.

(** A loop that went through [dn] and has [todo] left. *)
Record reached (dn todo : list Z) : Prop := {
  re_pre : ∃ pre, seqZ 0 n = pre ++ todo ∧ dn = besides pre;
  re_head b todo' : todo = b :: todo' → b ≠ a;
}.

Lemma besides_app l l' : besides (l ++ l') = besides l ++ besides l'.
Proof. apply filter_app. Qed.
Lemma besides_cons b l : b ≠ a → besides (b :: l) = b :: besides l.
Proof. intros H. unfold besides. by rewrite filter_cons, decide_True. Qed.

Lemma skip_besides l : besides (skip l) = besides l.
Proof.
  destruct l as [|i l]; [done|]. cbn [skip]. destruct (Z.eqb_spec i a) as [->|]; [|done]. unfold besides.
  by rewrite filter_cons, decide_False by tauto.
Qed.

Lemma reached_skip dn todo pre : seqZ 0 n = pre ++ todo → dn = besides pre → reached dn (skip todo).
Proof.
  intros Hs Hd. destruct todo as [|i todo]; cbn [skip].
  - split; [by exists pre|done].
  - destruct (Z.eqb_spec i a) as [->|Hi].
    + split.
      * exists (pre ++ [a]). split; [by rewrite <-app_assoc|]. rewrite besides_app, <-Hd. unfold besides.
        rewrite filter_cons, decide_False by tauto. cbn. by rewrite app_nil_r.
      * intros b todo' -> ->. pose proof (NoDup_seqZ 0 n) as Hnd. rewrite Hs in Hnd. apply NoDup_app in Hnd as (_ & _ & Hnd).
        apply NoDup_cons in Hnd as [Hnd _]. apply Hnd. left.
    + split; [by exists pre|congruence].
Qed.

Lemma reached_init : reached [] (skip (seqZ 0 n)).
Proof. by apply (reached_skip [] (seqZ 0 n) []). Qed.
Lemma reached_next dn b todo : reached dn (b :: todo) → reached (dn ++ [b]) (skip todo).
Proof.
  intros [(pre & Hs & Hd) Hb]. apply (reached_skip _ _ (pre ++ [b])); [by rewrite <-app_assoc|].
  rewrite besides_app, Hd, besides_cons by by eapply Hb. done.
Qed.

Lemma reached_peers dn todo : reached dn todo → peers = dn ++ besides todo.
Proof. intros [(pre & Hs & ->) _]. unfold peers. by rewrite Hs, besides_app. Qed.

Lemma elem_of_peers b : b ∈ peers ↔ 0 <= b < n ∧ b ≠ a.
Proof. clear Ha. unfold peers, besides. rewrite list_elem_of_filter, elem_of_seqZ. naive_solver lia. Qed.
Lemma peers_NoDup : NoDup peers.
Proof. apply NoDup_filter, NoDup_seqZ. Qed.

(** The place of a peer. *)
Definition place (b : Z) : Z := if b <? a then b else b - 1.

Lemma reached_place dn b todo : reached dn (b :: todo) → lenZ dn = place b.
Proof.
  intros [(pre & Hs & ->) Hb]. specialize (Hb _ _ eq_refl).
  assert (pre = seqZ 0 b ∧ 0 <= b < n) as [-> Hbn].
  { assert (seqZ 0 n !! length pre = Some b) as Hl by (rewrite Hs; by apply list_lookup_middle).
    apply lookup_seqZ in Hl as [-> Hl]. split; [|lia].
    replace n with (Z.of_nat (length pre) + (n - Z.of_nat (length pre))) in Hs by lia.
    rewrite seqZ_app in Hs by lia. apply app_inj_1 in Hs as [Hs _]; [|rewrite length_seqZ; lia]. by rewrite Z.add_0_l. }
  unfold lenZ, place, besides. destruct (Z.ltb_spec b a).
  - rewrite filter_every; [rewrite length_seqZ; lia|]. apply Forall_forall. intros x. rewrite elem_of_seqZ. lia.
  - replace b with (a + (1 + (b - a - 1))) at 1 by lia. rewrite seqZ_app, filter_app by lia.
    rewrite (filter_every _ (seqZ 0 a)) by (apply Forall_forall; intros x; rewrite elem_of_seqZ; lia).
    rewrite Z.add_0_l, (seqZ_cons a) by lia. rewrite filter_cons, decide_False by tauto.
    rewrite (filter_every _ (seqZ (Z.succ a) _)) by (apply Forall_forall; intros x; rewrite elem_of_seqZ; lia).
    rewrite length_app, !length_seqZ. lia.
Qed.

(** The peers already dealt with come before the one in hand. *)
Lemma reached_before dn b todo x : reached dn (b :: todo) → x ∈ dn → x < b.
Proof.
  intros [(pre & Hs & ->) _] Hx. unfold besides in Hx. apply list_elem_of_filter in Hx as [_ Hx].
  apply list_elem_of_lookup in Hx as [i Hi].
  pose proof (lookup_lt_Some _ _ _ Hi) as Hlt.
  assert (seqZ 0 n !! i = Some x) as H1 by (rewrite Hs; by apply lookup_app_l_Some).
  assert (seqZ 0 n !! length pre = Some b) as H2 by (rewrite Hs; by apply list_lookup_middle).
  apply lookup_seqZ in H1 as [-> _], H2 as [-> _]. lia.
Qed.

Lemma reached_after dn b todo x : reached dn (b :: todo) → x ∈ peers → x ∉ dn → x ≠ b → b < x.
Proof.
  intros [(pre & Hs & ->) Hb] [Hx Hxa]%elem_of_peers Hnd Hxb. assert (x ∈ seqZ 0 n) as Hin by (apply elem_of_seqZ; lia).
  rewrite Hs, elem_of_app, elem_of_cons in Hin. destruct Hin as [Hin|[Hin|Hin]]; [|done|].
  - exfalso. apply Hnd. unfold besides. by apply list_elem_of_filter.
  - apply list_elem_of_lookup in Hin as [i Hi].
    assert (seqZ 0 n !! length pre = Some b) as H1 by (rewrite Hs; by apply list_lookup_middle).
    assert (seqZ 0 n !! (length pre + Datatypes.S i)%nat = Some x) as H2.
    { rewrite Hs, lookup_app_r by lia. by replace (length pre + Datatypes.S i - length pre)%nat with (Datatypes.S i) by lia. }
    apply lookup_seqZ in H1 as [-> _], H2 as [-> _]. lia.
Qed.

Lemma reached_in dn b todo : reached dn (b :: todo) → b ∈ peers ∧ (b ∉ dn) ∧ (b ∉ besides todo) ∧ b ≠ a ∧ peers = dn ++ b :: besides todo.
Proof.
  intros H. pose proof (re_head _ _ H _ _ eq_refl) as Hb. pose proof (reached_peers _ _ H) as Hp. rewrite besides_cons in Hp by done.
  pose proof peers_NoDup as Hnd. rewrite Hp in Hnd. rewrite Hp. split_and!; [set_solver|..|done|done].
  - apply NoDup_app in Hnd as (_ & Hnd & _). intros Hin. by eapply Hnd; [exact Hin|left].
  - apply NoDup_app in Hnd as (_ & _ & Hnd). by apply NoDup_cons in Hnd as [? _].
Qed.
End ranks.

(* ------------------------------------------------------------------ *)
(** * Where the processes are *)

(** A process before it has set its host; counting the hosts of the ranks from
    [i]; creating pairs; with a pair that has no local rank yet; waiting for
    the addresses of the next peer, if there is one; with them at hand; about
    to connect; and waiting for the pair of [b], connected or not. [dn] are
    the peers dealt with, and [lr] is the local rank. *)
Inductive phase :=
  | PhHost
  | PhHosts (i lr : Z)
  | PhCreate (dn todo : list Z) (lr : Z)
  | PhLocal (dn : list Z) (b : Z) (todo : list Z) (lr : Z)
  | PhWait (dn todo : list Z) (lr : Z)
  | PhGet (dn : list Z) (b : Z) (todo : list Z) (lr : Z)
  | PhConnect (dn : list Z) (b : Z) (todo : list Z) (lr : Z)
  | PhJoin (dn : list Z) (b : Z) (todo : list Z) (lr : Z) (up : bool).

(** The peers with whose pair it is connected, the one it is connecting with,
    and whether its addresses are in the store. *)
Definition joined (ph : phase) : list Z :=
  match ph with
  | PhWait dn _ _ | PhGet dn _ _ _ | PhConnect dn _ _ _ => dn
  | PhJoin dn b _ _ up => if up then dn ++ [b] else dn
  | _ => []
  end.
Definition joining (ph : phase) : option Z := match ph with PhJoin _ b _ _ false => Some b | _ => None end.
Definition published (ph : phase) : bool :=
  match ph with PhWait _ _ _ | PhGet _ _ _ _ | PhConnect _ _ _ _ | PhJoin _ _ _ _ _ => true | _ => false end.
Definition ph_lr (ph : phase) : Z :=
  match ph with
  | PhHost => 0
  | PhHosts _ lr | PhCreate _ _ lr | PhLocal _ _ _ lr | PhWait _ _ lr | PhGet _ _ _ lr | PhConnect _ _ _ lr | PhJoin _ _ _ lr _ => lr
  end.

Section mesh.
Context {S : Type} (st : Store S) (K : string → Prop) (view : S → string → option Data) `{L : !StoreLaws st K view}.
Context (sockName peerName : Socket → Address).
Context (n timeout : Z) (Hn : 1 <= n) (Ht : 0 <= timeout).
Context (host : Z → list Z) (dev : Z → Listener Z Socket).

Definition is_rank (a : Z) : Prop := 0 <= a < n.

(** The address of the pair of [a] for [b]. *)
Definition adr (a b : Z) : Address := mkAddress (ad_ss (addr_ (dev a))) (seq_ (dev a) + place a b).
Definition role (a b : Z) : bool := match isInitiator (adr a b) (adr b a) with Val true => true | _ => false end.
Definition addrs (a : Z) (l : list Z) : list Z := concat ((λ b, Address_bytes (adr a b)) <$> l).

(** The ranks below [i] on the host of [a]. *)
Definition hosted (a i : Z) : Z := lenZ (filter (λ j, host j = host a) (seqZ 0 i)).

(** The end of the connection between the two that the pair of [a] has. *)
Definition end_of (a b : Z) : Socket := if role a b then mkSocket (a, b) false else mkSocket (b, a) true.

Definition after_connect (a : Z) (todo : list Z) : MProg := connect_loop a n timeout todo (PStop (Val ())).
Definition after_create (a : Z) (allBytes : list Z) : MProg := PSet (addr_key a) allBytes (after_connect a (seqZ 0 n)).
Definition after_hosts (a lr : Z) : MProg := createPair_loop a (seqZ 0 n) lr [] (after_create a).

(** What is left of its program. *)
Definition rest_of (a : Z) (ph : phase) : MProg :=
  match ph with
  | PhHost => connectFullMesh a n (host a) timeout
  | PhHosts i lr => localRank_loop a (host a) (seqZ i (n - i)) lr (after_hosts a)
  | PhCreate dn todo lr => createPair_loop a todo lr (addrs a dn) (after_create a)
  | PhLocal dn b todo lr => PSetLocalRank b lr (createPair_loop a todo lr (addrs a (dn ++ [b])) (after_create a))
  | PhWait dn todo lr => after_connect a todo
  | PhGet dn b todo lr => PGet (addr_key b) (λ allAddrs,
      POutcome (extractAddress a n allAddrs b) (λ addr, pair_connect b addr (after_connect a todo)))
  | PhConnect dn b todo lr => pair_connect b (Address_bytes (adr b a)) (after_connect a todo)
  | PhJoin dn b todo lr up => PWaitConnected b (after_connect a todo)
  end.

(** The pairs it has made, and each as it stands. *)
Definition made (a : Z) (ph : phase) : list Z :=
  match ph with
  | PhHost | PhHosts _ _ => []
  | PhCreate dn _ _ => dn
  | PhLocal dn b _ _ => dn ++ [b]
  | _ => peers n a
  end.
Definition fresh_lr (ph : phase) (b : Z) : Z :=
  match ph with PhLocal _ b' _ lr => if decide (b = b') then 0 else lr | _ => ph_lr ph end.
Definition joined_pair (a b lr : Z) : CPair :=
  mkCPair CONNECTED (sockName (end_of a b)) (Some (peerName (end_of a b))) lr (Some (end_of a b)).
Definition cpair_at (a : Z) (ph : phase) (b : Z) : option CPair :=
  if decide (b ∈ joined ph) then Some (joined_pair a b (ph_lr ph))
  else if decide (joining ph = Some b) then Some (mkCPair CONNECTING (adr a b) None (ph_lr ph) None)
  else if decide (b ∈ made a ph) then Some (mkCPair INITIALIZING (adr a b) None (fresh_lr ph b) None)
  else None.

(** The local rank is right, or, when a missing key is not waited for, may
    be short. *)
Context (blocks : bool).
Definition lr_ok (a i lr : Z) : Prop := 0 <= lr <= hosted a i ∧ (blocks = true → lr = hosted a i).

Definition phase_ok (a : Z) (ph : phase) : Prop :=
  match ph with
  | PhHost => True
  | PhHosts i lr => 0 <= i < a ∧ lr_ok a i lr
  | PhCreate dn todo lr | PhWait dn todo lr => reached n a dn todo ∧ lr_ok a a lr
  | PhLocal dn b todo lr | PhGet dn b todo lr | PhConnect dn b todo lr | PhJoin dn b todo lr _ =>
      reached n a dn (b :: todo) ∧ lr_ok a a lr
  end.

(** The listener, and what the loop has to do: [landed b] when the sequence
    number of the pair of [b] has arrived. *)
Definition callbacks (a : Z) (ph : phase) (landed : Z → bool) : gmap Z Z :=
  match joining ph with
  | Some b => if role a b || landed b then ∅ else {[ad_seq (adr a b) := b]}
  | None => ∅
  end.
Definition called (ph : phase) (b : Z) : bool := bool_decide (b ∈ joined ph) || bool_decide (joining ph = Some b).
Definition writes (a : Z) (ph : phase) : list (Address * Socket * Z) :=
  match joining ph with Some b => if role a b then [(adr b a, mkSocket (a, b) false, b)] else [] | None => [] end.
Definition calls (a : Z) (ph : phase) (landed : Z → bool) : list (Z * Socket) :=
  match joining ph with Some b => if negb (role a b) && landed b then [(b, mkSocket (b, a) true)] else [] | None => [] end.

Record mproc_ok (a : Z) (ph : phase) (landed : Z → bool) (p : MProc) : Prop := {
  po_prog : mp_prog p = rest_of a ph;
  po_pairs b : mp_pairs p !! b = cpair_at a ph b;
  po_addr : addr_ (mp_listener p) = addr_ (dev a);
  po_seq : seq_ (mp_listener p) = seq_ (dev a) + lenZ (made a ph);
  po_fns : seqToCallback_ (mp_listener p) = callbacks a ph landed;
  po_socks b : b ∈ peers n a → seqToSocket_ (mp_listener p) !! ad_seq (adr a b) =
    if landed b && negb (called ph b) then Some (mkSocket (b, a) true) else None;
  po_writes : mp_writes p = writes a ph;
  po_calls : mp_calls p = calls a ph landed;
}.

(** The sequence numbers on their way. *)
Definition all_pairs : list (Z * Z) := a ← seqZ 0 n; (λ b, (a, b)) <$> peers n a.
Definition wrote_to (ph : Z → phase) (p : Z * Z) : bool := role p.1 p.2 && bool_decide (p.2 ∈ joined (ph p.1)).
Definition flown (p : Z * Z) : list Z * Z * Socket := (ad_ss (adr p.2 p.1), ad_seq (adr p.2 p.1), mkSocket p true).
Definition on_the_way (ph : Z → phase) (landed : Z * Z → bool) : list (list Z * Z * Socket) :=
  flown <$> filter (λ p, wrote_to ph p = true ∧ landed p = false) all_pairs.

Record mesh_ok (ph : Z → phase) (landed : Z * Z → bool) (s : Mesh S) : Prop := {
  mo_proc a : is_rank a → ∃ p, ms_proc s !! a = Some p ∧ mproc_ok a (ph a) (λ b, landed (b, a)) p;
  mo_none a : ¬ is_rank a → ms_proc s !! a = None;
  mo_phase a : is_rank a → phase_ok a (ph a);
  mo_host a : is_rank a → view (ms_store s) (host_key a) = match ph a with PhHost => None | _ => Some (host a) end;
  mo_addrs a : is_rank a → view (ms_store s) (addr_key a) =
    if published (ph a) then Some (addrs a (peers n a)) else None;
  mo_flight : ms_flight s ≡ₚ on_the_way ph landed;
  mo_landed a b : is_rank a → is_rank b → landed (a, b) = true → wrote_to ph (a, b) = true;
  mo_joined a b : is_rank a → is_rank b → role a b = true → a ∈ joined (ph b) → landed (a, b) = true;
  mo_get a : is_rank a → match ph a with PhGet _ b _ _ => published (ph b) = true | _ => True end;
}.

(* ------------------------------------------------------------------ *)
(** * Addresses and roles *)

Context (HK : ∀ a, is_rank a → K (host_key a) ∧ K (addr_key a)).
Context (Hmiss : ∀ s k, K k → view s k = None → store_get k 0 s = if blocks then None else Some (Val [])).
Context (Hhost : ∀ a, is_rank a → host a ≠ []).
Context (Hdev : ∀ a, is_rank a → length (ad_ss (addr_ (dev a))) = sizeof_ss ∧ bytes_ok (ad_ss (addr_ (dev a))) ∧
  0 <= seq_ (dev a) ∧ seq_ (dev a) + n < 2 ^ 63 ∧ seqToCallback_ (dev a) = ∅ ∧ seqToSocket_ (dev a) = ∅).
Context (Hfam : ∀ a b, is_rank a → is_rank b → a ≠ b → ss_family (addr_ (dev a)) = ss_family (addr_ (dev b)) ∧
  inet_family (addr_ (dev a)) = true ∧ same_device (addr_ (dev a)) (addr_ (dev b)) = false).

Lemma peer_rank a b : b ∈ peers n a → is_rank b ∧ b ≠ a.
Proof. intros [? ?]%elem_of_peers. done. Qed.

Lemma place_range a b : is_rank a → is_rank b → b ≠ a → 0 <= place a b < n - 1.
Proof. unfold is_rank, place. intros. destruct (Z.ltb_spec b a); lia. Qed.
Lemma place_inj a b b' : b ≠ a → b' ≠ a → place a b = place a b' → b = b'.
Proof. unfold place. intros. destruct (Z.ltb_spec b a), (Z.ltb_spec b' a); lia. Qed.

Lemma adr_seq_inj a b b' : b ≠ a → b' ≠ a → ad_seq (adr a b) = ad_seq (adr a b') → b = b'.
Proof. cbn. intros Hb Hb' H. apply (place_inj a); [done..|lia]. Qed.

Lemma adr_wf a b : is_rank a → is_rank b → b ≠ a → Address_wf (adr a b).
Proof.
  intros Ha Hb Hne. pose proof (place_range a b Ha Hb Hne). destruct (Hdev a Ha) as (Hl & Hby & Hs & Hs' & _).
  split; cbn [adr ad_ss ad_seq]; [done|done|lia].
Qed.

Lemma role_spec a b : is_rank a → is_rank b → a ≠ b →
  isInitiator (adr a b) (adr b a) = Val (role a b) ∧ role b a = negb (role a b).
Proof.
  intros Ha Hb Hne. destruct (Hfam a b Ha Hb Hne) as (Hf & Hi & Hd).
  pose proof (place_range a b Ha Hb ltac:(done)). pose proof (place_range b a Hb Ha ltac:(done)).
  destruct (Hdev a Ha) as (_ & _ & Hsa & Hsa' & _), (Hdev b Hb) as (_ & _ & Hsb & Hsb' & _).
  change (same_device (adr a b) (adr b a) = false) in Hd.
  destruct (isInitiator_both (adr a b) (adr b a)) as [H1 H2].
  - cbn. lia.
  - cbn. lia.
  - rewrite Hd. by intros [? _].
  - destruct (proj2 H2) as [r Hr]; [by rewrite Hd|]. unfold role. rewrite H1, Hr. by destruct r.
Qed.

Lemma role_flip a b : is_rank a → is_rank b → a ≠ b → role b a = negb (role a b).
Proof. intros. by apply role_spec. Qed.

Lemma ss_inj a b : is_rank a → is_rank b → ad_ss (addr_ (dev a)) = ad_ss (addr_ (dev b)) → a = b.
Proof.
  intros Ha Hb H. destruct (decide (a = b)) as [|Hne]; [done|]. destruct (Hfam a b Ha Hb Hne) as (_ & _ & Hd). exfalso.
  unfold same_device, compare_inet, compare_inet6, sin_addr, sin6_addr, sin_port in Hd. rewrite <-H in Hd.
  rewrite !memcmp_refl, !Z.sub_diag in Hd. by destruct (ss_family _ =? AF_INET).
Qed.

Lemma peers_split a b : is_rank a → b ∈ peers n a → ∃ dn todo, peers n a = dn ++ b :: todo ∧ lenZ dn = place a b.
Proof.
  intros Ha [Hb Hne]%elem_of_peers. assert (reached n a (besides a (seqZ 0 b)) (b :: seqZ (b + 1) (n - b - 1))) as H.
  { split; [|congruence]. exists (seqZ 0 b). split; [|done]. replace n with (b + (1 + (n - b - 1))) at 1 by lia.
    rewrite seqZ_app, (seqZ_cons (0 + b)) by lia. by replace (Z.pred (1 + (n - b - 1))) with (n - b - 1) by lia. }
  eexists _, _. split; [by apply (reached_in n a Ha _ _ _ H)|by eapply reached_place].
Qed.

Lemma peers_length a : is_rank a → lenZ (peers n a) = n - 1.
Proof.
  intros Ha. unfold peers, lenZ. pose proof (filter_app_complement (λ i, i ≠ a) (seqZ 0 n)) as H. apply Permutation_length in H.
  rewrite length_app, length_seqZ in H. fold (besides a (seqZ 0 n)) in H.
  assert (length (filter (λ i, ¬ i ≠ a) (seqZ 0 n)) = 1%nat); [|unfold is_rank in *; lia].
  rewrite (Permutation_length (l' := [a])); [done|]. apply NoDup_Permutation; [apply NoDup_filter, NoDup_seqZ|apply NoDup_singleton|].
  intros x. rewrite list_elem_of_filter, elem_of_seqZ, list_elem_of_singleton. unfold is_rank in *. split; [lia|]. intros ->. split; lia.
Qed.

Lemma addrs_length a l : is_rank a → lenZ (addrs a l) = sizeof_Impl * lenZ l.
Proof.
  intros Ha. unfold addrs. induction l as [|b l IH]; [done|]. cbn [fmap list_fmap concat]. rewrite lenZ_app, IH, lenZ_cons.
  rewrite Address_bytes_length by by apply Hdev. lia.
Qed.

Lemma addrs_app a l l' : addrs a (l ++ l') = addrs a l ++ addrs a l'.
Proof. unfold addrs. by rewrite fmap_app, concat_app. Qed.

Lemma extract a b : is_rank a → is_rank b → a ≠ b →
  extractAddress a n (addrs b (peers n b)) b = Val (Address_bytes (adr b a)).
Proof.
  intros Ha Hb Hne. unfold extractAddress. rewrite addrs_length, peers_length by done.
  assert (n - 1 ≠ 0) as Hn1 by (unfold is_rank in *; lia). rewrite (proj2 (Z.eqb_neq _ _)) by done.
  rewrite Z.quot_mul by done. change (s32 sizeof_Impl) with sizeof_Impl.
  destruct (peers_split b a Hb) as (dn & todo & Hp & Hl); [by apply elem_of_peers|].
  replace (if b <? a then a - 1 else a) with (place b a) by (unfold place; destruct (Z.ltb_spec a b), (Z.ltb_spec b a); lia).
  rewrite Hp, addrs_app. change (addrs b (a :: todo)) with (Address_bytes (adr b a) ++ addrs b todo).
  replace (place b a * sizeof_Impl) with (lenZ (addrs b dn)) by (rewrite addrs_length, Hl by done; lia).
  assert (lenZ (Address_bytes (adr b a)) = sizeof_Impl) as <- by (apply Address_bytes_length; by apply Hdev).
  by rewrite sub_app.
Qed.

Lemma addrs_peers_not_nil a b : is_rank a → is_rank b → a ≠ b → addrs a (peers n a) ≠ [].
Proof.
  intros Ha Hb Hne H. apply (f_equal lenZ) in H. rewrite addrs_length, peers_length in H by done.
  change (lenZ (@nil Z)) with 0 in H. unfold sizeof_Impl, is_rank in *. lia.
Qed.

(* ------------------------------------------------------------------ *)
(** * The programs *)

Lemma code_hosts a i lr : is_rank a → 0 <= i < a →
  rest_of a (PhHosts i lr) = PGet (host_key i) (λ hostName,
    localRank_loop a (host a) (seqZ (i + 1) (n - (i + 1))) (if bool_decide (hostName = host a) then lr + 1 else lr) (after_hosts a)).
Proof.
  unfold is_rank. intros Ha Hi. cbn [rest_of]. rewrite seqZ_cons by lia. cbn [localRank_loop]. rewrite (proj2 (Z.eqb_neq _ _)) by lia.
  by replace (Z.pred (n - i)) with (n - (i + 1)) by lia.
Qed.
Lemma code_hosts_end a lr : is_rank a → localRank_loop a (host a) (seqZ a (n - a)) lr (after_hosts a) = rest_of a (PhCreate [] (skip a (seqZ 0 n)) lr).
Proof.
  unfold is_rank. intros Ha. rewrite seqZ_cons by lia. cbn [localRank_loop]. rewrite Z.eqb_refl. cbn [rest_of addrs fmap list_fmap concat].
  unfold after_hosts. apply createPair_skip.
Qed.
Lemma code_create a dn b todo lr : b ≠ a → rest_of a (PhCreate dn (b :: todo) lr) = PCreatePair b (λ self,
  PSetLocalRank b lr (createPair_loop a todo lr (addrs a dn ++ Address_bytes self) (after_create a))).
Proof. intros Hb. cbn [rest_of createPair_loop]. by rewrite (proj2 (Z.eqb_neq _ _)). Qed.
Lemma code_create_end a dn lr : rest_of a (PhCreate dn [] lr) = PSet (addr_key a) (addrs a dn) (rest_of a (PhWait [] (skip a (seqZ 0 n)) lr)).
Proof. cbn [rest_of createPair_loop]. unfold after_create, after_connect. by rewrite connect_skip. Qed.
Lemma code_local a dn b todo lr : rest_of a (PhLocal dn b todo lr) = PSetLocalRank b lr (rest_of a (PhCreate (dn ++ [b]) (skip a todo) lr)).
Proof. cbn [rest_of]. by rewrite createPair_skip. Qed.
Lemma code_wait a dn b todo lr : b ≠ a → rest_of a (PhWait dn (b :: todo) lr) = PWait [addr_key b] timeout (rest_of a (PhGet dn b todo lr)).
Proof. intros Hb. cbn [rest_of]. unfold after_connect. cbn [connect_loop]. by rewrite (proj2 (Z.eqb_neq _ _)). Qed.
Lemma code_join a dn b todo lr up : rest_of a (PhJoin dn b todo lr up) = PWaitConnected b (rest_of a (PhWait (dn ++ [b]) (skip a todo) lr)).
Proof. cbn [rest_of]. unfold after_connect. by rewrite connect_skip. Qed.

(** After the host of rank [i - 1]. *)
Definition next_hosts (a i lr : Z) : phase := if i <? a then PhHosts i lr else PhCreate [] (skip a (seqZ 0 n)) lr.
Lemma code_next_hosts a i lr : is_rank a → 0 <= i <= a →
  localRank_loop a (host a) (seqZ i (n - i)) lr (after_hosts a) = rest_of a (next_hosts a i lr).
Proof.
  intros Ha Hi. unfold next_hosts. destruct (Z.ltb_spec i a); [done|]. replace i with a by lia. by apply code_hosts_end.
Qed.

(* ------------------------------------------------------------------ *)
(** * What is left to do *)

Definition weight (a : Z) (ph : phase) : nat :=
  match ph with
  | PhHost => 7 * Z.to_nat n + 2 + Z.to_nat a
  | PhHosts i _ => 7 * Z.to_nat n + 1 + Z.to_nat (a - i)
  | PhCreate _ todo _ => 5 * Z.to_nat n + 1 + 2 * length todo
  | PhLocal _ _ todo _ => 5 * Z.to_nat n + 2 + 2 * length todo
  | PhWait _ todo _ => 5 * length todo
  | PhGet _ _ todo _ => 5 * length todo + 4
  | PhConnect _ _ todo _ => 5 * length todo + 3
  | PhJoin _ _ todo _ up => 5 * length todo + if up then 1 else 2
  end.
Definition measure (ph : Z → phase) (landed : Z * Z → bool) : nat :=
  sum_list ((λ a, weight a (ph a)) <$> seqZ 0 n) + length (filter (λ p, landed p = false) all_pairs).

Lemma skip_length a l : (length (skip a l) ≤ length l)%nat.
Proof. destruct l as [|i l]; [done|]. cbn. destruct (i =? a); cbn; lia. Qed.
Lemma skip_seqZ_length a : (length (skip a (seqZ 0 n)) ≤ Z.to_nat n)%nat.
Proof. etransitivity; [apply skip_length|]. by rewrite length_seqZ. Qed.

Definition moved {A} (a : Z) (x : A) (f : Z → A) : Z → A := λ b, if decide (b = a) then x else f b.
Lemma moved_eq {A} a (x : A) f : moved a x f a = x.
Proof. unfold moved. by rewrite decide_True. Qed.
Lemma moved_ne {A} a (x : A) f b : b ≠ a → moved a x f b = f b.
Proof. intros. unfold moved. by rewrite decide_False. Qed.

Lemma sum_upd (f g : Z → nat) a l : NoDup l → a ∈ l → (∀ b, b ≠ a → g b = f b) → (g a < f a)%nat →
  (sum_list (g <$> l) < sum_list (f <$> l))%nat.
Proof.
  intros Hnd (l1 & l2 & ->)%list_elem_of_split Hne Hlt.
  apply NoDup_app in Hnd as (_ & H1 & Hnd). apply NoDup_cons in Hnd as [H2 _].
  rewrite !fmap_app, !sum_list_with_app. cbn.
  rewrite (list_fmap_ext g f l1), (list_fmap_ext g f l2); [lia|..].
  - intros i x Hx%list_elem_of_lookup_2. apply Hne. by intros ->.
  - intros i x Hx%list_elem_of_lookup_2. apply Hne. intros ->. eapply H1; [exact Hx|left].
Qed.

Lemma measure_upd ph landed a q : is_rank a → (weight a q < weight a (ph a))%nat →
  (measure (moved a q ph) landed < measure ph landed)%nat.
Proof.
  intros Ha Hw. unfold measure. apply Nat.add_lt_mono_r. apply (sum_upd _ _ a); [apply NoDup_seqZ|apply elem_of_seqZ; unfold is_rank in *; lia|..].
  - intros b Hb. by rewrite moved_ne.
  - by rewrite moved_eq.
Qed.

(* ------------------------------------------------------------------ *)
(** * A process goes on *)

Lemma flying_ext ph ph' landed : (∀ p, wrote_to ph' p = wrote_to ph p) → on_the_way ph' landed = on_the_way ph landed.
Proof. intros H. unfold on_the_way. f_equal. apply list_filter_iff. intros p. by rewrite H. Qed.

Lemma wrote_upd ph a q : joined q = joined (ph a) → ∀ p, wrote_to (moved a q ph) p = wrote_to ph p.
Proof. intros Hj [c d]. unfold wrote_to. cbn [fst snd]. unfold moved. case_decide; subst; [by rewrite Hj|done]. Qed.

Lemma run_ok ph landed s a q p store : mesh_ok ph landed s → is_rank a →
  (weight a q < weight a (ph a))%nat → phase_ok a q → joined q = joined (ph a) →
  (published (ph a) = true → published q = true) →
  match q with PhGet _ b _ _ => b ≠ a ∧ published (ph b) = true | _ => True end →
  mproc_ok a q (λ b, landed (b, a)) p →
  (∀ b, is_rank b → view store (host_key b) = match moved a q ph b with PhHost => None | _ => Some (host b) end) →
  (∀ b, is_rank b → view store (addr_key b) = if published (moved a q ph b) then Some (addrs b (peers n b)) else None) →
  ∃ ph' landed', mesh_ok ph' landed' (mkMesh store (<[a := p]> (ms_proc s)) (ms_flight s)) ∧
    (measure ph' landed' < measure ph landed)%nat.
Proof.
  intros H Ha Hw Hq Hj Hpub Hget Hp Hs1 Hs2. exists (moved a q ph), landed. split; [|by apply measure_upd].
  split; cbn [ms_proc ms_store ms_flight]; [..|done|done| | | |].
  - intros b Hb. destruct (decide (b = a)) as [->|Hne].
    + exists p. rewrite lookup_insert_eq, moved_eq. done.
    + rewrite lookup_insert_ne, moved_ne by done. by apply (mo_proc _ _ _ H).
  - intros b Hb. rewrite lookup_insert_ne by by intros ->. by apply (mo_none _ _ _ H).
  - intros b Hb. destruct (decide (b = a)) as [->|Hne]; [by rewrite moved_eq|]. rewrite moved_ne by done. by apply (mo_phase _ _ _ H).
  - rewrite (flying_ext ph) by by apply wrote_upd. apply (mo_flight _ _ _ H).
  - intros b c Hb Hc Hl. rewrite wrote_upd by done. by apply (mo_landed _ _ _ H).
  - intros b c Hb Hc Hr Hin. apply (mo_joined _ _ _ H); [done..|]. revert Hin. unfold moved. case_decide; [subst; by rewrite Hj|done].
  - intros b Hb. destruct (decide (b = a)) as [->|Hne].
    + rewrite moved_eq. destruct q; try done. destruct Hget. by rewrite moved_ne.
    + rewrite (moved_ne _ _ _ b) by done. pose proof (mo_get _ _ _ H b Hb) as Hg. destruct (ph b); try done.
      unfold moved. case_decide; [subst; auto|done].
Qed.

(** The same, when the store is as it was. *)
Lemma run_same ph landed s a q p : mesh_ok ph landed s → is_rank a →
  (weight a q < weight a (ph a))%nat → phase_ok a q → joined q = joined (ph a) → published q = published (ph a) →
  q ≠ PhHost → ph a ≠ PhHost →
  match q with PhGet _ b _ _ => b ≠ a ∧ published (ph b) = true | _ => True end →
  mproc_ok a q (λ b, landed (b, a)) p →
  ∃ ph' landed', mesh_ok ph' landed' (mesh_set a p s) ∧ (measure ph' landed' < measure ph landed)%nat.
Proof.
  intros H Ha Hw Hq Hj Hpub Hq0 Hp0 Hget Hp. unfold mesh_set. apply (run_ok ph landed s a q p); auto; [congruence|..].
  - intros b Hb. rewrite (mo_host _ _ _ H) by done. unfold moved. case_decide; [subst|done]. by destruct (ph a), q.
  - intros b Hb. rewrite (mo_addrs _ _ _ H) by done. unfold moved. case_decide; [subst; by rewrite Hpub|done].
Qed.

Lemma proc_prog a ph q landed p : mproc_ok a ph landed p → joined q = joined ph → joining q = joining ph →
  made a q = made a ph → (∀ b, cpair_at a q b = cpair_at a ph b) → mproc_ok a q landed (p <| mp_prog := rest_of a q |>).
Proof.
  destruct p. intros [H1 H2 H3 H4 H5 H6 H7 H8] Hj Hg Hm Hc. cbn in H1, H2, H3, H4, H5, H6, H7, H8. split; cbn; [done|..].
  - intros b. by rewrite Hc.
  - done.
  - by rewrite Hm.
  - rewrite H5. unfold callbacks. by rewrite Hg.
  - intros b Hb. rewrite H6 by done. unfold called. by rewrite Hj, Hg.
  - rewrite H7. unfold writes. by rewrite Hg.
  - rewrite H8. unfold calls. by rewrite Hg.
Qed.

Lemma hosted_next a i : 0 <= i → hosted a (i + 1) = hosted a i + if decide (host i = host a) then 1 else 0.
Proof.
  intros Hi. unfold hosted. replace (i + 1) with (Z.of_nat (Datatypes.S (Z.to_nat i))) by lia. rewrite seqZ_S, filter_app, (filter_cons _ (0 + _)), filter_nil.
  replace (0 + Z.of_nat (Z.to_nat i)) with i by lia. replace (Z.of_nat (Z.to_nat i)) with i by lia.
  case_decide; rewrite ?lenZ_app, ?app_nil_r, ?Z.add_0_r; done.
Qed.
Lemma hosted_bound a i : 0 <= hosted a i.
Proof. apply lenZ_nonneg. Qed.

Lemma next_hosts_ok a i lr : is_rank a → 0 <= i <= a → lr_ok a i lr → phase_ok a (next_hosts a i lr).
Proof.
  intros Ha Hi Hl. unfold next_hosts. destruct (Z.ltb_spec i a); [split; [lia|done]|]. assert (i = a) as -> by lia. split; [|done]. by apply reached_init.
Qed.
Lemma next_hosts_weight a i lr : is_rank a → 0 <= i <= a → (weight a (next_hosts a i lr) < 7 * Z.to_nat n + 2 + Z.to_nat (a - i))%nat.
Proof.
  intros Ha Hi. unfold next_hosts. pose proof (skip_seqZ_length a). destruct (Z.ltb_spec i a); cbn [weight]; lia.
Qed.
Lemma next_hosts_plain a i lr : joined (next_hosts a i lr) = [] ∧ joining (next_hosts a i lr) = None ∧ published (next_hosts a i lr) = false ∧
  made a (next_hosts a i lr) = [] ∧ next_hosts a i lr ≠ PhHost ∧ (∀ b, cpair_at a (next_hosts a i lr) b = None).
Proof. unfold next_hosts. by destruct (i <? a). Qed.

Lemma step_host ph landed s a s' : mesh_ok ph landed s → is_rank a → ph a = PhHost → mesh_run st a s = Some s' →
  ∃ ph' landed', mesh_ok ph' landed' s' ∧ (measure ph' landed' < measure ph landed)%nat.
Proof.
  intros H Ha Hph. destruct (mo_proc _ _ _ H a Ha) as (p & Hp & Hok). rewrite Hph in Hok. unfold mesh_run. rewrite Hp. cbn [mbind option_bind].
  rewrite (po_prog _ _ _ _ Hok). cbn [rest_of connectFullMesh].
  pose proof (mo_host _ _ _ H a Ha) as Hv. rewrite Hph in Hv.
  destruct (sl_set (StoreLaws := L) _ _ (host a) (proj1 (HK a Ha)) Hv) as (store & -> & Hview). intros [= <-].
  assert (0 <= 0 <= a) as H0 by (unfold is_rank in *; lia). destruct (next_hosts_plain a 0 0) as (Hj & Hg & Hpu & Hm & Hne & Hc).
  apply (run_ok ph landed s a (next_hosts a 0 0)); [done|done|..].
  - rewrite Hph. pose proof (next_hosts_weight a 0 0 Ha H0). cbn [weight]. lia.
  - apply next_hosts_ok; [done|done|]. split; [pose proof (hosted_bound a 0); lia|done].
  - by rewrite Hj, Hph.
  - by rewrite Hph.
  - unfold next_hosts. by destruct (0 <? a).
  - unfold go_on. cbn [fst snd POutcome].
    change (localRank_loop a (host a) (seqZ 0 n) 0 _) with (localRank_loop a (host a) (seqZ 0 n) 0 (after_hosts a)).
    assert (localRank_loop a (host a) (seqZ 0 n) 0 (after_hosts a) = rest_of a (next_hosts a 0 0)) as ->
      by (rewrite <-(code_next_hosts a 0 0 Ha H0); by rewrite Z.sub_0_r).
    apply (proc_prog a PhHost); [done|by rewrite Hj|by rewrite Hg|by rewrite Hm|]. intros b. by rewrite Hc.
  - intros b Hb. rewrite Hview by by apply HK. unfold moved. case_decide as Hk.
    + apply host_key_inj in Hk as ->. rewrite decide_True by done. by destruct (next_hosts a 0 0).
    + rewrite decide_False by by intros ->. by apply (mo_host _ _ _ H).
  - intros b Hb. rewrite Hview by by apply HK. rewrite decide_False by apply addr_host_key. rewrite (mo_addrs _ _ _ H) by done.
    unfold moved. case_decide; [subst; by rewrite Hph, Hpu|done].
Qed.

(** [a step]: the run of process [a], which is at [q0]. *)
Ltac at_phase H Ha Hph p Hp Hok :=
  destruct (mo_proc _ _ _ H _ Ha) as (p & Hp & Hok); rewrite Hph in Hok;
  unfold mesh_run; rewrite Hp; cbn [mbind option_bind]; rewrite (po_prog _ _ _ _ Hok).

Lemma step_hosts ph landed s a s' i lr : mesh_ok ph landed s → is_rank a → ph a = PhHosts i lr → mesh_run st a s = Some s' →
  ∃ ph' landed', mesh_ok ph' landed' s' ∧ (measure ph' landed' < measure ph landed)%nat.
Proof.
  intros H Ha Hph. at_phase H Ha Hph p Hp Hok. pose proof (mo_phase _ _ _ H a Ha) as Hq. rewrite Hph in Hq. destruct Hq as [Hi Hlr].
  assert (is_rank i) as Hri by (unfold is_rank in *; lia). rewrite code_hosts by done.
  assert (∀ lr' val, lr_ok a (i + 1) lr' → lr' = (if bool_decide (val = host a) then lr + 1 else lr) →
    ∃ ph' landed', mesh_ok ph' landed' (mesh_set a (go_on (λ hostName,
      localRank_loop a (host a) (seqZ (i + 1) (n - (i + 1))) (if bool_decide (hostName = host a) then lr + 1 else lr) (after_hosts a)) (Val val, p)) s) ∧
    (measure ph' landed' < measure ph landed)%nat) as Hgo.
  { intros lr' val Hok' ->. set (lr' := if bool_decide (val = host a) then lr + 1 else lr) in *. assert (0 <= i + 1 <= a) as H1 by lia.
    destruct (next_hosts_plain a (i + 1) lr') as (Hj & Hg & Hpu & Hm & Hne & Hc).
    apply (run_same ph landed s a (next_hosts a (i + 1) lr')); [done|done|..].
    - rewrite Hph. pose proof (next_hosts_weight a (i + 1) lr' Ha H1). cbn [weight]. lia.
    - by apply next_hosts_ok.
    - by rewrite Hj, Hph.
    - by rewrite Hph.
    - done.
    - by rewrite Hph.
    - unfold next_hosts. by destruct (i + 1 <? a).
    - unfold go_on. cbn [fst snd POutcome]. rewrite (code_next_hosts a (i + 1) _ Ha H1). fold lr'.
      apply (proc_prog a (PhHosts i lr)); [done|by rewrite Hj|by rewrite Hg|by rewrite Hm|]. intros b. by rewrite Hc. }
  destruct (HK i Hri) as [HKi _]. pose proof (mo_host _ _ _ H i Hri) as Hv. destruct Hlr as [Hlr Hb]. pose proof (hosted_next a i ltac:(lia)) as Hnext.
  assert (view (ms_store s) (host_key i) = Some (host i) →
    (o ← store_get (host_key i) 0 (ms_store s); Some (mesh_set a (go_on (λ hostName,
      localRank_loop a (host a) (seqZ (i + 1) (n - (i + 1))) (if bool_decide (hostName = host a) then lr + 1 else lr) (after_hosts a)) (o, p)) s)) = Some s' →
    ∃ ph' landed', mesh_ok ph' landed' s' ∧ (measure ph' landed' < measure ph landed)%nat) as Hset.
  { intros Hv'. rewrite (sl_get (StoreLaws := L) _ _ (host i)) by auto. intros [= <-]. eapply Hgo; [|reflexivity].
    unfold lr_ok. rewrite Hnext. case_decide; [rewrite bool_decide_eq_true_2 by done|rewrite bool_decide_eq_false_2 by done]; (split; [lia|intros ?%Hb; lia]). }
  destruct (ph i) eqn:Hphi; [|by apply Hset..].
  rewrite Hmiss by done. destruct blocks eqn:Hbl; [done|]. intros [= <-]. eapply Hgo; [|reflexivity].
  rewrite bool_decide_eq_false_2 by by intros ?%symmetry%Hhost. split; [rewrite Hnext; case_decide; lia|by rewrite Hbl].
Qed.

Lemma createPair_run p i : let l := mp_listener p in seq_ l + 1 < 2 ^ 63 →
  let self := mkAddress (ad_ss (addr_ l)) (seq_ l) in
  createPair i p = (Val self, p <| mp_listener := mkListener (addr_ l) (seq_ l + 1) (seqToCallback_ l) (seqToSocket_ l) |>
    <| mp_pairs ::= <[i := mkCPair INITIALIZING self None 0 None]> |>).
Proof.
  intros l Hs self. unfold createPair, on_listener, nextAddress, mbind, M_bind, get, put, mret, M_ret, lift, modify.
  fold l. by rewrite (proj2 (Z.ltb_lt _ _)).
Qed.

Lemma addrs_one a b : addrs a [b] = Address_bytes (adr a b).
Proof. unfold addrs. cbn. by rewrite app_nil_r. Qed.

Lemma step_create ph landed s a s' dn todo lr : mesh_ok ph landed s → is_rank a → ph a = PhCreate dn todo lr → mesh_run st a s = Some s' →
  ∃ ph' landed', mesh_ok ph' landed' s' ∧ (measure ph' landed' < measure ph landed)%nat.
Proof.
  intros H Ha Hph. at_phase H Ha Hph p Hp Hok. pose proof (mo_phase _ _ _ H a Ha) as Hq. rewrite Hph in Hq. destruct Hq as [Hr Hlr].
  destruct todo as [|b todo].
  - rewrite code_create_end. pose proof (mo_addrs _ _ _ H a Ha) as Hv. rewrite Hph in Hv. cbn [published] in Hv.
    destruct (sl_set (StoreLaws := L) _ _ (addrs a dn) (proj2 (HK a Ha)) Hv) as (store & -> & Hview). intros [= <-].
    assert (dn = peers n a) as Hdn by (rewrite (reached_peers n a _ _ Hr); by rewrite app_nil_r).
    apply (run_ok ph landed s a (PhWait [] (skip a (seqZ 0 n)) lr)); [done|done|..].
    + rewrite Hph. cbn [weight length]. pose proof (skip_seqZ_length a). lia.
    + split; [by apply reached_init|done].
    + by rewrite Hph.
    + by rewrite Hph.
    + done.
    + apply (proc_prog a (PhCreate dn [] lr)); [done|done|done|symmetry; exact Hdn|]. intros b. unfold cpair_at. cbn [joined joining made fresh_lr ph_lr].
      by rewrite Hdn.
    + intros b Hb. rewrite Hview by by apply HK. rewrite decide_False by (intros ?%symmetry%addr_host_key; done).
      rewrite (mo_host _ _ _ H) by done. unfold moved. case_decide; [subst; by rewrite Hph|done].
    + intros b Hb. rewrite Hview by by apply HK. unfold moved. case_decide as Hk.
      * apply addr_key_inj in Hk as ->. rewrite decide_True by done. cbn [published]. by rewrite Hdn.
      * rewrite decide_False by by intros ->. by apply (mo_addrs _ _ _ H).
  - destruct (reached_in n a Ha _ _ _ Hr) as (Hbin & Hbn & _ & Hba & _). rewrite code_create by done. intros [= <-].
    destruct (peer_rank a b Hbin) as [Hbr _]. pose proof (place_range a b Ha Hbr Hba) as Hpl. pose proof (reached_place n a Ha _ _ _ Hr) as Hlen.
    destruct (Hdev a Ha) as (_ & _ & Hs0 & Hs1 & _).
    pose proof (po_seq _ _ _ _ Hok) as Hsq. cbn [made] in Hsq. rewrite Hlen in Hsq.
    rewrite createPair_run by lia. rewrite (po_addr _ _ _ _ Hok), Hsq. fold (adr a b).
    apply (run_same ph landed s a (PhLocal dn b todo lr)); [done|done|rewrite Hph; cbn [weight length]; lia|done|by rewrite Hph|by rewrite Hph|done|by rewrite Hph|done|].
    unfold go_on. cbn [fst snd POutcome]. destruct p, Hok as [H1 H2 H3 H4 H5 H6 H7 H8]. cbn in H1, H2, H3, H4, H5, H6, H7, H8.
    split; cbn; [|..|done|done|done].
    + by rewrite addrs_app, addrs_one.
    + intros c. destruct (decide (c = b)) as [->|Hc].
      * rewrite lookup_insert_eq. unfold cpair_at. cbn. rewrite decide_False by apply not_elem_of_nil. rewrite decide_False by done.
        rewrite !decide_True by (apply elem_snoc || done; tauto). done.
      * rewrite lookup_insert_ne, H2 by done. unfold cpair_at. cbn. rewrite !(decide_False (P := c ∈ [])) by apply not_elem_of_nil.
        rewrite !(decide_False (P := None = Some c)) by done. rewrite (decide_False (P := c = b)) by done.
        by destruct (decide (c ∈ dn)) as [Hin|Hin]; [rewrite (decide_True (P := c ∈ dn ++ [b])) by (apply elem_snoc; tauto)|rewrite (decide_False (P := c ∈ dn ++ [b])) by (rewrite elem_snoc; tauto)].
    + done.
    + rewrite lenZ_app, Hlen. change (lenZ [b]) with 1. lia.
    + done.
Qed.

Lemma step_local ph landed s a s' dn b todo lr : mesh_ok ph landed s → is_rank a → ph a = PhLocal dn b todo lr → mesh_run st a s = Some s' →
  ∃ ph' landed', mesh_ok ph' landed' s' ∧ (measure ph' landed' < measure ph landed)%nat.
Proof.
  intros H Ha Hph. at_phase H Ha Hph p Hp Hok. pose proof (mo_phase _ _ _ H a Ha) as Hq. rewrite Hph in Hq. destruct Hq as [Hr Hlr].
  destruct (reached_in n a Ha _ _ _ Hr) as (Hbin & Hbn & _ & Hba & _). rewrite code_local. intros [= <-].
  pose proof (skip_length a todo) as Hsk.
  apply (run_same ph landed s a (PhCreate (dn ++ [b]) (skip a todo) lr));
    [done|done|rewrite Hph; cbn [weight length]; lia| |by rewrite Hph|by rewrite Hph|done|by rewrite Hph|done|].
  { split; [by apply reached_next|done]. }
  assert (mp_pairs p !! b = Some (mkCPair INITIALIZING (adr a b) None 0 None)) as Hpb.
  { rewrite (po_pairs _ _ _ _ Hok). unfold cpair_at. cbn. rewrite decide_False by apply not_elem_of_nil. rewrite decide_False by done.
    rewrite decide_True by (apply elem_snoc; tauto). by rewrite decide_True. }
  unfold setLocalRank, on_cpair, mbind, M_bind, get, put, lift, modify, go_on. rewrite Hpb.
  rewrite (proj2 (Z.leb_le 0 lr)) by apply Hlr. cbn [enforce fst snd POutcome].
  destruct p, Hok as [H1 H2 H3 H4 H5 H6 H7 H8]. cbn in H1, H2, H3, H4, H5, H6, H7, H8, Hpb.
  split; cbn; [done| |done|done|done|done|done|done].
  intros c. destruct (decide (c = b)) as [->|Hc].
  - rewrite lookup_insert_eq. unfold cpair_at. cbn. rewrite decide_False by apply not_elem_of_nil. rewrite decide_False by done.
    by rewrite decide_True by (apply elem_snoc; tauto).
  - rewrite lookup_insert_ne, H2 by done. unfold cpair_at. cbn. rewrite (decide_False (P := c = b)) by done. done.
Qed.

Lemma step_wait ph landed s a s' dn todo lr : mesh_ok ph landed s → is_rank a → ph a = PhWait dn todo lr → mesh_run st a s = Some s' →
  ∃ ph' landed', mesh_ok ph' landed' s' ∧ (measure ph' landed' < measure ph landed)%nat.
Proof.
  intros H Ha Hph. at_phase H Ha Hph p Hp Hok. pose proof (mo_phase _ _ _ H a Ha) as Hq. rewrite Hph in Hq. destruct Hq as [Hr Hlr].
  destruct todo as [|b todo]; [done|].
  destruct (reached_in n a Ha _ _ _ Hr) as (Hbin & Hbn & _ & Hba & _). destruct (peer_rank a b Hbin) as [Hbr _]. rewrite code_wait by done.
  assert (Forall K [addr_key b]) as HKb by (repeat constructor; by apply HK).
  pose proof (mo_addrs _ _ _ H b Hbr) as Hv. destruct (published (ph b)) eqn:Hpub.
  - rewrite (sl_wait_ready (StoreLaws := L)); [|done|repeat constructor; by rewrite Hv]. intros [= <-].
    apply (run_same ph landed s a (PhGet dn b todo lr));
      [done|done|rewrite Hph; cbn [weight length]; lia|done|by rewrite Hph|by rewrite Hph|done|by rewrite Hph|done|].
    by apply (proc_prog a (PhWait dn (b :: todo) lr)).
  - destruct (sl_wait (StoreLaws := L) (ms_store s) [addr_key b] timeout 0 HKb) as [Hw _].
    { intros Hf. apply Forall_cons in Hf as [Hf _]. done. }
    rewrite Hw by (destruct (decide (timeout = 0)); [by left|right; lia]). done.
Qed.

Lemma step_get ph landed s a s' dn b todo lr : mesh_ok ph landed s → is_rank a → ph a = PhGet dn b todo lr → mesh_run st a s = Some s' →
  ∃ ph' landed', mesh_ok ph' landed' s' ∧ (measure ph' landed' < measure ph landed)%nat.
Proof.
  intros H Ha Hph. at_phase H Ha Hph p Hp Hok. pose proof (mo_phase _ _ _ H a Ha) as Hq. rewrite Hph in Hq. destruct Hq as [Hr Hlr].
  destruct (reached_in n a Ha _ _ _ Hr) as (Hbin & Hbn & _ & Hba & _). destruct (peer_rank a b Hbin) as [Hbr _]. cbn [rest_of].
  pose proof (mo_get _ _ _ H a Ha) as Hg. rewrite Hph in Hg. pose proof (mo_addrs _ _ _ H b Hbr) as Hv. rewrite Hg in Hv.
  rewrite (sl_get (StoreLaws := L) _ _ _ _ (proj2 (HK b Hbr)) Hv) by by apply (addrs_peers_not_nil b a). intros [= <-].
  apply (run_same ph landed s a (PhConnect dn b todo lr));
    [done|done|rewrite Hph; cbn [weight length]; lia|done|by rewrite Hph|by rewrite Hph|done|by rewrite Hph|done|].
  unfold go_on. cbn [fst snd POutcome]. rewrite extract by done. by apply (proc_prog a (PhGet dn b todo lr)).
Qed.

Lemma CPair_connect_run a b p c : is_rank a → is_rank b → a ≠ b →
  mp_pairs p !! b = Some c → cp_state c = INITIALIZING → cp_self c = adr a b →
  CPair_connect a b (Address_bytes (adr b a)) p =
    (if role a b then connectAsInitiator a b (adr b a) else connectAsListener b (adr a b))
      (p <| mp_pairs ::= <[b := c <| cp_state := CONNECTING |>]> |>).
Proof.
  intros Ha Hb Hne Hp Hst Hself. unfold CPair_connect. rewrite Address_of_bytes by by apply adr_wf. M_run.
  erewrite M_bind_val; [|unfold on_cpair; M_run; rewrite Hp; unfold mbind, M_bind, get, put, lift, mret, M_ret; rewrite Hst; cbn; reflexivity].
  unfold Device_connect. rewrite Hself. destruct (role_spec a b Ha Hb Hne) as [-> _]. M_run. rewrite <-Hself. by destruct (role a b).
Qed.

Lemma step_connect ph landed s a s' dn b todo lr : mesh_ok ph landed s → is_rank a → ph a = PhConnect dn b todo lr → mesh_run st a s = Some s' →
  ∃ ph' landed', mesh_ok ph' landed' s' ∧ (measure ph' landed' < measure ph landed)%nat.
Proof.
  intros H Ha Hph. at_phase H Ha Hph p Hp Hok. pose proof (mo_phase _ _ _ H a Ha) as Hq. rewrite Hph in Hq. destruct Hq as [Hr Hlr].
  destruct (reached_in n a Ha _ _ _ Hr) as (Hbin & Hbn & _ & Hba & _). destruct (peer_rank a b Hbin) as [Hbr _]. cbn [rest_of]. intros [= <-].
  apply (run_same ph landed s a (PhJoin dn b todo lr false));
    [done|done|rewrite Hph; cbn [weight length]; lia|done|by rewrite Hph|by rewrite Hph|done|by rewrite Hph|done|].
  assert (mp_pairs p !! b = Some (mkCPair INITIALIZING (adr a b) None lr None)) as Hpb.
  { rewrite (po_pairs _ _ _ _ Hok). unfold cpair_at. cbn [joined joining made fresh_lr ph_lr]. rewrite decide_False by done.
    rewrite decide_False by done. by rewrite decide_True. }
  rewrite (CPair_connect_run a b p _ Ha Hbr ltac:(done) Hpb) by done.
  destruct p, Hok as [H1 H2 H3 H4 H5 H6 H7 H8]. cbn in H1, H2, H3, H4, H5, H6, H7, H8, Hpb.
  assert (∀ c, <[b := mkCPair CONNECTING (adr a b) None lr None]> mp_pairs !! c = cpair_at a (PhJoin dn b todo lr false) c) as Hpairs.
  { intros c. destruct (decide (c = b)) as [->|Hc].
    - rewrite lookup_insert_eq. unfold cpair_at. cbn [joined joining ph_lr]. rewrite decide_False by done. by rewrite decide_True.
    - rewrite lookup_insert_ne, H2 by done. unfold cpair_at. cbn [joined joining made fresh_lr ph_lr].
      rewrite (decide_False (P := None = Some c)) by done. by rewrite (decide_False (P := Some b = Some c)) by congruence. }
  assert (∀ c, called (PhJoin dn b todo lr false) c = bool_decide (c = b) || called (PhConnect dn b todo lr) c) as Hcalled.
  { intros c. unfold called. cbn [joined joining]. rewrite (bool_decide_eq_false_2 (None = Some c)) by done. rewrite orb_false_r, orb_comm. f_equal.
    apply bool_decide_ext. naive_solver. }
  pose proof (H6 b Hbin) as Hsb. unfold called in Hsb. cbn [joined joining] in Hsb. rewrite !bool_decide_eq_false_2 in Hsb by done. rewrite andb_true_r in Hsb.
  destruct (role a b) eqn:Hrole.
  - unfold connectAsInitiator, modify, go_on. cbn [fst snd POutcome].
    split; cbn; [done|exact Hpairs|done|done|rewrite H5; unfold callbacks; cbn; by rewrite Hrole| |rewrite H7; unfold writes; cbn; by rewrite Hrole|
      rewrite H8; unfold calls; cbn; by rewrite Hrole].
    intros c Hc. rewrite H6 by done. rewrite Hcalled. case_bool_decide; [subst|done]. cbn.
    destruct (landed (b, a)) eqn:Hl; [|done]. exfalso. apply (mo_landed _ _ _ H) in Hl; [|done..]. unfold wrote_to in Hl. cbn [fst snd] in Hl.
    by rewrite (role_flip a b Ha Hbr ltac:(done)), Hrole in Hl.
  - unfold connectAsListener, on_listener, waitForConnection, go_on. cbn.
    unfold mbind, M_bind, get, put, lift, modify, mret, M_ret. cbn. rewrite Hsb.
    destruct (landed (b, a)) eqn:Hl; cbn [fst snd POutcome].
    + split; cbn; [done|exact Hpairs|done|done|rewrite H5; unfold callbacks; cbn; by rewrite Hrole, Hl| |rewrite H7; unfold writes; cbn; by rewrite Hrole|
        rewrite H8; unfold calls; cbn; by rewrite Hrole, Hl].
      intros c Hc. rewrite Hcalled. case_bool_decide; [subst|].
      * cbn. rewrite andb_false_r. apply lookup_delete_eq.
      * cbn. rewrite lookup_delete_ne; [by apply H6|]. intros Hs. apply (adr_seq_inj a b c) in Hs; [by subst|done|by apply (peer_rank a c)].
    + split; cbn; [done|exact Hpairs|done|done| | |rewrite H7; unfold writes; cbn; by rewrite Hrole|
        rewrite H8; unfold calls; cbn; by rewrite Hrole, Hl].
      * rewrite H5. unfold callbacks. cbn. by rewrite Hrole, Hl.
      * intros c Hc. rewrite Hcalled. case_bool_decide; [subst; cbn; by rewrite Hsb, andb_false_r|by apply H6].
Qed.

Lemma step_join ph landed s a s' dn b todo lr up : mesh_ok ph landed s → is_rank a → ph a = PhJoin dn b todo lr up → mesh_run st a s = Some s' →
  ∃ ph' landed', mesh_ok ph' landed' s' ∧ (measure ph' landed' < measure ph landed)%nat.
Proof.
  intros H Ha Hph. at_phase H Ha Hph p Hp Hok. pose proof (mo_phase _ _ _ H a Ha) as Hq. rewrite Hph in Hq. destruct Hq as [Hr Hlr].
  destruct (reached_in n a Ha _ _ _ Hr) as (Hbin & Hbn & _ & Hba & _). rewrite code_join, (po_pairs _ _ _ _ Hok).
  unfold cpair_at. cbn [joined joining ph_lr]. destruct up.
  - rewrite decide_True by (apply elem_snoc; tauto). cbn [joined_pair cp_state]. intros [= <-]. pose proof (skip_length a todo).
    apply (run_same ph landed s a (PhWait (dn ++ [b]) (skip a todo) lr));
      [done|done|rewrite Hph; cbn [weight length]; lia| |by rewrite Hph|by rewrite Hph|done|by rewrite Hph|done|].
    + split; [by apply reached_next|done].
    + by apply (proc_prog a (PhJoin dn b todo lr true)).
  - rewrite decide_False by done. by rewrite decide_True.
Qed.

Lemma run_step ph landed s a s' : mesh_ok ph landed s → mesh_run st a s = Some s' →
  ∃ ph' landed', mesh_ok ph' landed' s' ∧ (measure ph' landed' < measure ph landed)%nat.
Proof.
  intros H Hr. assert (is_rank a) as Ha.
  { destruct (decide (0 <= a < n)) as [|Hna]; [done|]. unfold mesh_run in Hr. by rewrite (mo_none _ _ _ H) in Hr. }
  destruct (ph a) eqn:Hph.
  - by eapply step_host.
  - by eapply step_hosts.
  - by eapply step_create.
  - by eapply step_local.
  - by eapply step_wait.
  - by eapply step_get.
  - by eapply step_connect.
  - by eapply step_join.
Qed.

(* ------------------------------------------------------------------ *)
(** * The loop goes on *)

Lemma joining_inv ph b : joining ph = Some b → ∃ dn todo lr, ph = PhJoin dn b todo lr false.
Proof. destruct ph as [| | | | | | |dn c todo lr []]; cbn; try done. intros [= ->]. eauto. Qed.

Lemma connectCallback_run i sock p c : mp_pairs p !! i = Some c →
  loop_runs (connectCallback sockName peerName i sock) p = p <| mp_pairs ::= <[i := mkCPair CONNECTED (sockName sock) (Some (peerName sock)) (cp_localRank c) (Some sock)]> |>.
Proof.
  intros Hp. unfold loop_runs, connectCallback, on_cpair, mbind, M_bind, get, put, lift, modify. by rewrite Hp.
Qed.

Lemma called_up dn b todo lr c : called (PhJoin dn b todo lr true) c = called (PhJoin dn b todo lr false) c.
Proof.
  unfold called. cbn [joined joining]. rewrite (bool_decide_eq_false_2 (None = Some c)) by done. rewrite orb_false_r, <-bool_decide_or.
  apply bool_decide_ext. rewrite elem_snoc. naive_solver.
Qed.

(** A pair that is connected: the process may go on. *)
Lemma proc_up a dn b todo lr landed p : is_rank a → reached n a dn (b :: todo) →
  mproc_ok a (PhJoin dn b todo lr false) landed p →
  ∀ ws cs fns, fns = ∅ → ws = [] → cs = [] →
  mproc_ok a (PhJoin dn b todo lr true) landed
    (mkMProc (mp_prog p) (<[b := joined_pair a b lr]> (mp_pairs p))
      (mkListener (addr_ (mp_listener p)) (seq_ (mp_listener p)) fns (seqToSocket_ (mp_listener p))) ws cs).
Proof.
  intros Ha Hr [H1 H2 H3 H4 H5 H6 H7 H8] ws cs fns -> -> ->. destruct (reached_in n a Ha _ _ _ Hr) as (Hbin & Hbn & _ & Hba & _).
  split; cbn; [done| |done|done|done| |done|done].
  - intros c. unfold cpair_at. cbn [joined joining ph_lr made fresh_lr]. rewrite (decide_False (P := None = Some c)) by done.
    destruct (decide (c = b)) as [->|Hc].
    + rewrite lookup_insert_eq. by rewrite decide_True by (apply elem_snoc; tauto).
    + rewrite lookup_insert_ne, H2 by done. unfold cpair_at. cbn [joined joining ph_lr made fresh_lr].
      rewrite (decide_False (P := Some b = Some c)) by congruence.
      by destruct (decide (c ∈ dn)) as [Hin|Hin]; [rewrite (decide_True (P := c ∈ dn ++ [b])) by (apply elem_snoc; tauto)|rewrite (decide_False (P := c ∈ dn ++ [b])) by (rewrite elem_snoc; tauto)].
  - intros c Hc. rewrite called_up. exact (H6 c Hc).
Qed.

Lemma pair_joining ph a dn b todo lr p : phase_ok a (PhJoin dn b todo lr false) → is_rank a → mproc_ok a (PhJoin dn b todo lr false) ph p →
  mp_pairs p !! b = Some (mkCPair CONNECTING (adr a b) None lr None).
Proof.
  intros [Hr _] Ha Hok. destruct (reached_in n a Ha _ _ _ Hr) as (Hbin & Hbn & _ & Hba & _).
  rewrite (po_pairs _ _ _ _ Hok). unfold cpair_at. cbn [joined joining]. rewrite decide_False by done. by rewrite decide_True.
Qed.

Lemma soup_add {A} (P Q : A → Prop) `{∀ x, Decision (P x), ∀ x, Decision (Q x)} (l : list A) x :
  NoDup l → x ∈ l → ¬ P x → (∀ y, Q y ↔ P y ∨ y = x) → filter Q l ≡ₚ x :: filter P l.
Proof.
  intros Hnd Hx Hp Hq. apply NoDup_Permutation; [by apply NoDup_filter|constructor; [rewrite list_elem_of_filter; tauto|by apply NoDup_filter]|].
  intros y. rewrite elem_of_cons, !list_elem_of_filter, Hq. naive_solver.
Qed.

Lemma all_pairs_NoDup : NoDup all_pairs.
Proof.
  unfold all_pairs. apply NoDup_bind; [|intros a _; apply (NoDup_fmap_2 _), peers_NoDup|apply NoDup_seqZ].
  intros a a' p _ _ (b & -> & _)%list_elem_of_fmap (b' & Hp & _)%list_elem_of_fmap. congruence.
Qed.
Lemma elem_of_all_pairs a b : (a, b) ∈ all_pairs ↔ is_rank a ∧ is_rank b ∧ a ≠ b.
Proof.
  unfold all_pairs. rewrite list_elem_of_bind. unfold is_rank. split.
  - intros (c & (b' & [= -> ->] & [Hb Hne]%elem_of_peers)%list_elem_of_fmap & Hc%elem_of_seqZ). split_and!; (lia || done).
  - intros (Ha & Hb & Hne). exists a. split; [|apply elem_of_seqZ; lia]. apply list_elem_of_fmap. exists b. split; [done|]. by apply elem_of_peers.
Qed.

Lemma flying_write ph landed a q b : is_rank a → is_rank b → a ≠ b → role a b = true → b ∉ joined (ph a) →
  (∀ c, c ∈ joined q ↔ c ∈ joined (ph a) ∨ c = b) → landed (a, b) = false →
  on_the_way (moved a q ph) landed ≡ₚ flown (a, b) :: on_the_way ph landed.
Proof.
  intros Ha Hb Hne Hr Hnj Hj Hl. unfold on_the_way. change (flown (a, b) :: (flown <$> ?l)) with (flown <$> ((a, b) :: l)).
  rewrite (soup_add (λ p, wrote_to ph p = true ∧ landed p = false) (λ p, wrote_to (moved a q ph) p = true ∧ landed p = false) all_pairs (a, b)); [done|..].
  - apply all_pairs_NoDup.
  - by apply elem_of_all_pairs.
  - intros [Hw _]. unfold wrote_to in Hw. cbn [fst snd] in Hw. by rewrite Hr, bool_decide_eq_false_2 in Hw.
  - intros [c d]. unfold wrote_to, moved. cbn [fst snd]. rewrite !andb_true_iff. destruct (decide (c = a)) as [->|Hc].
    + rewrite !bool_decide_eq_true, Hj. naive_solver.
    + naive_solver.
Qed.

Lemma wrote_mono ph a dn b todo lr p : ph a = PhJoin dn b todo lr false → wrote_to ph p = true →
  wrote_to (moved a (PhJoin dn b todo lr true) ph) p = true.
Proof.
  destruct p as [c d]. unfold wrote_to, moved. cbn [fst snd]. intros Hph. rewrite !andb_true_iff. intros [Hr Hj]. split; [done|].
  destruct (decide (c = a)) as [->|]; [|done]. rewrite Hph in Hj. apply bool_decide_eq_true in Hj. apply bool_decide_eq_true. cbn in *. apply elem_snoc. by left.
Qed.

Lemma filter_length_le {A} (P Q : A → Prop) `{∀ x, Decision (P x), ∀ x, Decision (Q x)} (l : list A) :
  (∀ x, P x → Q x) → (length (filter P l) ≤ length (filter Q l))%nat.
Proof.
  intros HPQ. induction l as [|x l IH]; [done|]. rewrite !filter_cons. repeat case_decide; cbn; try lia. naive_solver.
Qed.

Lemma proc_landed a ph landed landed' p : (∀ b, landed' b = landed b) → mproc_ok a ph landed p → mproc_ok a ph landed' p.
Proof.
  intros Hl [H1 H2 H3 H4 H5 H6 H7 H8]. split; [done..| | |done|].
  - rewrite H5. unfold callbacks. destruct (joining ph); [|done]. by rewrite Hl.
  - intros d Hd. rewrite H6 by done. by rewrite Hl.
  - rewrite H8. unfold calls. destruct (joining ph); [|done]. by rewrite Hl.
Qed.

(** A process whose pair is connected now. *)
Lemma up_ok ph landed landed' s a dn b todo lr p fl : mesh_ok ph landed s → is_rank a → ph a = PhJoin dn b todo lr false →
  let q := PhJoin dn b todo lr true in
  mproc_ok a q (λ c, landed' (c, a)) p → (∀ c d, d ≠ a → landed' (c, d) = landed (c, d)) → fl ≡ₚ on_the_way (moved a q ph) landed' →
  (∀ c d, is_rank c → is_rank d → landed' (c, d) = true → landed (c, d) = true ∨ wrote_to ph (c, d) = true) →
  (∀ c d, landed (c, d) = true → landed' (c, d) = true) → (role b a = true → landed' (b, a) = true) →
  ∃ ph' landed', mesh_ok ph' landed' (mkMesh (ms_store s) (<[a := p]> (ms_proc s)) fl) ∧ (measure ph' landed' < measure ph landed)%nat.
Proof.
  intros H Ha Hph q Hp Hl1 Hfl Hl2 Hl3 Hl4. exists (moved a q ph), landed'. split.
  - split; cbn [ms_proc ms_store ms_flight].
    + intros c Hc. destruct (decide (c = a)) as [->|Hne].
      * exists p. rewrite lookup_insert_eq, moved_eq. done.
      * rewrite lookup_insert_ne, moved_ne by done. destruct (mo_proc _ _ _ H c Hc) as (p' & Hp' & Hok). exists p'. split; [done|].
        eapply proc_landed; [|exact Hok]. intros d. by apply Hl1.
    + intros c Hc. rewrite lookup_insert_ne by by intros ->. by apply (mo_none _ _ _ H).
    + intros c Hc. unfold moved. case_decide; [subst|by apply (mo_phase _ _ _ H)]. pose proof (mo_phase _ _ _ H a Ha) as Hq. by rewrite Hph in Hq.
    + intros c Hc. rewrite (mo_host _ _ _ H) by done. unfold moved. case_decide; [subst; by rewrite Hph|done].
    + intros c Hc. rewrite (mo_addrs _ _ _ H) by done. unfold moved. case_decide; [subst; by rewrite Hph|done].
    + done.
    + intros c d Hc Hd Hl. destruct (Hl2 c d Hc Hd Hl) as [Hl'|Hw]; apply wrote_mono; [done|by apply (mo_landed _ _ _ H)|done..].
    + intros c d Hc Hd Hr Hj. revert Hj. unfold moved. case_decide; [subst|by intros Hj; apply Hl3, (mo_joined _ _ _ H)].
      cbn [q joined]. rewrite elem_snoc. intros [Hj| ->]; [|by apply Hl4]. apply Hl3, (mo_joined _ _ _ H); [done..|]. by rewrite Hph.
    + intros c Hc. pose proof (mo_get _ _ _ H c Hc) as Hg. unfold moved at 1. case_decide; [done|]. destruct (ph c); try done.
      unfold moved. case_decide; [done|done].
  - eapply Nat.lt_le_trans; [apply (measure_upd _ _ a); [done|rewrite Hph; cbn [weight q]; lia]|]. unfold measure.
    apply Nat.add_le_mono_l, filter_length_le. intros [c d]. destruct (landed (c, d)) eqn:E; [|done]. by rewrite (Hl3 _ _ E).
Qed.

Lemma write_step ph landed s s' a k : mesh_ok ph landed s → mesh_exec sockName peerName st (LWrite a k) s = Some s' →
  ∃ ph' landed', mesh_ok ph' landed' s' ∧ (measure ph' landed' < measure ph landed)%nat.
Proof.
  intros H. cbn [mesh_exec]. destruct (decide (0 <= a < n)) as [Ha|Hna]; [|by rewrite (mo_none _ _ _ H)].
  destruct (mo_proc _ _ _ H a Ha) as (p & Hp & Hok). rewrite Hp. cbn [mbind option_bind]. rewrite (po_writes _ _ _ _ Hok). unfold writes.
  destruct (joining (ph a)) as [b|] eqn:Hj; [|by destruct k]. apply joining_inv in Hj as (dn & todo & lr & Hph). rewrite Hph in Hok.
  destruct (role a b) eqn:Hrole; [|by destruct k]. destruct k as [|k]; [|by destruct k]. cbn [lookup list_lookup]. intros [= <-].
  pose proof (mo_phase _ _ _ H a Ha) as Hq. rewrite Hph in Hq. pose proof (proj1 Hq) as Hr.
  destruct (reached_in n a Ha _ _ _ Hr) as (Hbin & Hbn & _ & Hba & _). destruct (peer_rank a b Hbin) as [Hbr _].
  assert (landed (a, b) = false) as Hl.
  { destruct (landed (a, b)) eqn:Hl; [|done]. apply (mo_landed _ _ _ H) in Hl; [|done..]. unfold wrote_to in Hl. cbn [fst snd] in Hl.
    rewrite Hph in Hl. cbn [joined] in Hl. by rewrite bool_decide_eq_false_2, andb_false_r in Hl. }
  erewrite connectCallback_run by exact (pair_joining _ _ _ _ _ _ _ Hq Ha Hok).
  eapply (up_ok ph landed landed s a dn b todo lr); [done|done|done| |done| |auto|done|].
  - assert (joined_pair a b lr = mkCPair CONNECTED (sockName (mkSocket (a, b) false)) (Some (peerName (mkSocket (a, b) false))) lr (Some (mkSocket (a, b) false))) as Hjp
      by (unfold joined_pair, end_of; by rewrite Hrole).
    pose proof (proc_up a dn b todo lr _ p Ha Hr Hok [] [] ∅) as Hup. specialize (Hup eq_refl eq_refl eq_refl). rewrite Hjp in Hup.
    destruct p as [pg pp [la ls lf lk] pw pc], Hok as [H1 H2 H3 H4 H5 H6 H7 H8]. cbn in *. subst pw pc lf. unfold calls, writes, callbacks. cbn [joining].
    rewrite Hrole. exact Hup.
  - rewrite (mo_flight _ _ _ H). rewrite (flying_write ph landed a (PhJoin dn b todo lr true) b); [by rewrite Permutation_app_comm|done..|by rewrite Hph| |done].
    intros c. rewrite Hph. cbn [joined]. apply elem_snoc.
  - rewrite (role_flip a b), Hrole by done. done.
Qed.

(** On the listening side nothing new is written. *)
Lemma wrote_listener ph a dn b todo lr : ph a = PhJoin dn b todo lr false → role a b = false →
  ∀ p, wrote_to (moved a (PhJoin dn b todo lr true) ph) p = wrote_to ph p.
Proof.
  intros Hph Hr [c d]. unfold wrote_to, moved. cbn [fst snd]. destruct (decide (c = a)) as [->|]; [|done]. rewrite Hph. cbn [joined].
  destruct (role a d) eqn:Hd; [|done]. cbn. apply bool_decide_ext. rewrite elem_snoc. split; [|tauto]. intros [?| ->]; congruence.
Qed.

Lemma joined_pair_listener a b lr : role a b = false →
  joined_pair a b lr = mkCPair CONNECTED (sockName (mkSocket (b, a) true)) (Some (peerName (mkSocket (b, a) true))) lr (Some (mkSocket (b, a) true)).
Proof. intros Hr. unfold joined_pair, end_of. by rewrite Hr. Qed.

Lemma call_step ph landed s s' a k : mesh_ok ph landed s → mesh_exec sockName peerName st (LCall a k) s = Some s' →
  ∃ ph' landed', mesh_ok ph' landed' s' ∧ (measure ph' landed' < measure ph landed)%nat.
Proof.
  intros H. cbn [mesh_exec]. destruct (decide (0 <= a < n)) as [Ha|Hna]; [|by rewrite (mo_none _ _ _ H)].
  destruct (mo_proc _ _ _ H a Ha) as (p & Hp & Hok). rewrite Hp. cbn [mbind option_bind]. rewrite (po_calls _ _ _ _ Hok). unfold calls.
  destruct (joining (ph a)) as [b|] eqn:Hj; [|by destruct k]. apply joining_inv in Hj as (dn & todo & lr & Hph). rewrite Hph in Hok.
  destruct (role a b) eqn:Hrole; [by destruct k|]. destruct (landed (b, a)) eqn:Hl; [|by destruct k]. destruct k as [|k]; [|by destruct k].
  cbn [negb andb lookup list_lookup]. intros [= <-].
  pose proof (mo_phase _ _ _ H a Ha) as Hq. rewrite Hph in Hq. pose proof (proj1 Hq) as Hr.
  erewrite connectCallback_run by exact (pair_joining _ _ _ _ _ _ _ Hq Ha Hok). cbn [cp_localRank]. rewrite <-joined_pair_listener by done.
  unfold mesh_set. eapply (up_ok ph landed landed s a dn b todo lr); [done|done|done| |done| |auto|done|done].
  - pose proof (proc_up a dn b todo lr _ p Ha Hr Hok [] [] ∅ eq_refl eq_refl eq_refl) as Hup.
    destruct p as [pg pp [la ls lf lk] pw pc], Hok as [H1 H2 H3 H4 H5 H6 H7 H8]. cbn in *. subst pw pc lf. unfold calls, writes, callbacks. cbn [joining].
    rewrite Hrole, Hl. exact Hup.
  - rewrite (mo_flight _ _ _ H). by rewrite (flying_ext ph (moved a _ ph)) by by apply wrote_listener.
Qed.

(** A sequence number that arrives. *)
Definition land (p : Z * Z) (landed : Z * Z → bool) : Z * Z → bool := λ q, bool_decide (q = p) || landed q.

Lemma land_other p landed q : q ≠ p → land p landed q = landed q.
Proof. intros Hq. unfold land. by rewrite bool_decide_eq_false_2. Qed.
Lemma land_self p landed : land p landed p = true.
Proof. unfold land. by rewrite bool_decide_eq_true_2. Qed.

Lemma flying_land ph landed b a : (b, a) ∈ all_pairs → wrote_to ph (b, a) = true → landed (b, a) = false →
  on_the_way ph landed ≡ₚ flown (b, a) :: on_the_way ph (land (b, a) landed).
Proof.
  intros Hin Hw Hl. unfold on_the_way. change (flown (b, a) :: (flown <$> ?l)) with (flown <$> ((b, a) :: l)).
  rewrite (soup_add (λ p, wrote_to ph p = true ∧ land (b, a) landed p = false) (λ p, wrote_to ph p = true ∧ landed p = false) all_pairs (b, a)); [done|..].
  - apply all_pairs_NoDup.
  - done.
  - rewrite land_self. naive_solver.
  - intros p. destruct (decide (p = (b, a))) as [->|Hne]; [rewrite land_self; naive_solver|]. rewrite land_other by done. naive_solver.
Qed.

(** Whatever flies was written by one process for another. *)
Lemma flight_inv ph landed s k ss seq sock : mesh_ok ph landed s → ms_flight s !! k = Some (ss, seq, sock) →
  ∃ b a, is_rank b ∧ is_rank a ∧ b ≠ a ∧ wrote_to ph (b, a) = true ∧ landed (b, a) = false ∧
    ss = ad_ss (addr_ (dev a)) ∧ seq = ad_seq (adr a b) ∧ sock = mkSocket (b, a) true ∧
    delete k (ms_flight s) ≡ₚ on_the_way ph (land (b, a) landed).
Proof.
  intros H Hk. pose proof (list_elem_of_lookup_2 _ _ _ Hk) as Hin. rewrite (mo_flight _ _ _ H) in Hin.
  unfold on_the_way in Hin. apply list_elem_of_fmap in Hin as ([b a] & Hf & [[Hw Hl] Hin]%list_elem_of_filter).
  pose proof Hin as (Hb & Ha & Hne)%elem_of_all_pairs. exists b, a. injection Hf as -> -> ->. split_and!; try done.
  apply (Permutation_cons_inv (a := flown (b, a))). rewrite <-flying_land by done. rewrite <-(mo_flight _ _ _ H). symmetry.
  by apply delete_Permutation.
Qed.

Lemma callbacks_at a ph landed b : b ≠ a → (∀ c, joining ph = Some c → c ≠ a) → role a b = false → landed b = false →
  callbacks a ph landed !! ad_seq (adr a b) = if bool_decide (joining ph = Some b) then Some b else None.
Proof.
  intros Hba Hj Hr Hl. unfold callbacks. destruct (joining ph) as [c|] eqn:E; [|done]. specialize (Hj c eq_refl).
  destruct (decide (c = b)) as [->|Hc].
  - rewrite Hr, Hl. cbn [orb]. rewrite bool_decide_eq_true_2 by done. apply lookup_singleton_eq.
  - rewrite bool_decide_eq_false_2 by congruence. destruct (role a c || landed c); [done|]. apply lookup_singleton_ne.
    intros Hs. by apply (adr_seq_inj a c b) in Hs.
Qed.

Lemma arrive_step ph landed s s' a k : mesh_ok ph landed s → mesh_exec sockName peerName st (LArrive k a) s = Some s' →
  ∃ ph' landed', mesh_ok ph' landed' s' ∧ (measure ph' landed' < measure ph landed)%nat.
Proof.
  intros H. cbn [mesh_exec]. destruct (ms_flight s !! k) as [[[ss seq] sock]|] eqn:Hk; [|done]. cbn [mbind option_bind].
  destruct (decide (0 <= a < n)) as [Ha|Hna]; [|by rewrite (mo_none _ _ _ H)].
  destruct (mo_proc _ _ _ H a Ha) as (p & Hp & Hok). rewrite Hp. cbn [mbind option_bind]. case_bool_decide as Hss; [|done]. intros [= <-].
  destruct (flight_inv _ _ _ _ _ _ _ H Hk) as (b & a' & Hbr & Ha' & Hne & Hw & Hl & -> & -> & -> & Hdel).
  rewrite (po_addr _ _ _ _ Hok) in Hss. apply ss_inj in Hss as <-; [|done..].
  assert (role b a = true) as Hrb by (unfold wrote_to in Hw; cbn in Hw; by apply andb_true_iff in Hw as [? _]).
  assert (role a b = false) as Hrole by (by rewrite (role_flip b a), Hrb).
  assert (∀ c, joining (ph a) = Some c → c ≠ a) as Hjne.
  { intros c Hj. apply joining_inv in Hj as (dn & todo & lr & Hph). pose proof (mo_phase _ _ _ H a Ha) as Hq. rewrite Hph in Hq.
    destruct Hq as [Hr _]. by destruct (reached_in n a Ha _ _ _ Hr) as (_ & _ & _ & ? & _). }
  pose proof (callbacks_at a (ph a) (λ c, landed (c, a)) b ltac:(done) Hjne Hrole Hl) as Hcb. rewrite <-(po_fns _ _ _ _ Hok) in Hcb.
  case_bool_decide as Hj.
  - apply joining_inv in Hj as (dn & todo & lr & Hph). rewrite Hph in Hok.
    pose proof (mo_phase _ _ _ H a Ha) as Hq. rewrite Hph in Hq. pose proof (proj1 Hq) as Hr.
    pose proof (pair_joining _ _ _ _ _ _ _ Hq Ha Hok) as Hpb.
    assert (mproc_ok a (PhJoin dn b todo lr true) (λ c, land (b, a) landed (c, a)) 
      (mkMProc (mp_prog p) (<[b := joined_pair a b lr]> (mp_pairs p))
        (mkListener (addr_ (mp_listener p)) (seq_ (mp_listener p)) ∅ (seqToSocket_ (mp_listener p))) [] [])) as Hup.
    { pose proof (proc_up a dn b todo lr _ p Ha Hr Hok [] [] ∅ eq_refl eq_refl eq_refl) as [H1 H2 H3 H4 H5 H6 H7 H8].
      split; [exact H1|exact H2|exact H3|exact H4|exact H5| |exact H7|exact H8].
      intros c Hc. rewrite (H6 c Hc). destruct (decide (c = b)) as [->|Hcb']; [|by rewrite land_other by congruence].
      assert (called (PhJoin dn b todo lr true) b = true) as ->; [|by rewrite !andb_false_r].
      unfold called. cbn [joined]. by rewrite bool_decide_eq_true_2 by (apply elem_snoc; tauto). }
    eapply (up_ok ph landed (land (b, a) landed) s a dn b todo lr); [done|done|done| | | | | |].
    + unfold loop_runs, on_listener, haveConnection, mbind, M_bind, get, put, lift, mret, M_ret. rewrite Hcb. cbn [foldr].
      unfold connectCallback, on_cpair, mbind, M_bind, get, put, lift, modify, mret, M_ret. cbn. rewrite Hpb. cbn.
      rewrite <-joined_pair_listener by done.
      pose proof (po_fns _ _ _ _ Hok) as Hf. pose proof (po_writes _ _ _ _ Hok) as Hw'. pose proof (po_calls _ _ _ _ Hok) as Hc'.
      unfold callbacks, writes, calls in Hf, Hw', Hc'. cbn [joining] in Hf, Hw', Hc'. rewrite Hrole, Hl in Hf, Hc'. rewrite Hrole in Hw'. cbn [orb negb andb] in *.
      rewrite Hf, Hw', Hc'. rewrite delete_singleton_eq. exact Hup.
    + intros c d Hd. apply land_other. congruence.
    + rewrite Hdel. rewrite (flying_ext ph (moved a _ ph)); [done|by apply wrote_listener].
    + intros c d _ _. destruct (decide ((c, d) = (b, a))) as [->|Hcd]; [tauto|]. rewrite land_other by done. tauto.
    + intros c d Hcd. unfold land. rewrite Hcd. apply orb_true_r.
    + intros _. apply land_self.
  - assert (called (ph a) b = false) as Hnc.
    { unfold called. rewrite !bool_decide_eq_false_2; [done|done|]. intros Hin. by rewrite (mo_joined _ _ _ H b a) in Hl. }
    exists ph, (land (b, a) landed). split.
    + destruct Hok as [H1 H2 H3 H4 H5 H6 H7 H8]. assert (b ∈ peers n a) as Hbin by (by apply elem_of_peers).
      pose proof (H6 b Hbin) as Hsb. rewrite Hl in Hsb. cbn [andb] in Hsb.
      split; cbn [ms_proc ms_store ms_flight]; [| |apply (mo_phase _ _ _ H)|apply (mo_host _ _ _ H)|apply (mo_addrs _ _ _ H)|done| | |apply (mo_get _ _ _ H)].
      * intros c Hc. destruct (decide (c = a)) as [->|Hca].
        -- eexists. rewrite lookup_insert_eq. split; [reflexivity|].
           unfold loop_runs, on_listener, haveConnection, mbind, M_bind, get, put, lift, mret, M_ret. rewrite Hcb. cbn [foldr].
           unfold mret, M_ret. cbn. split; cbn; [done..| | | |].
           ++ rewrite H5. unfold callbacks. destruct (joining (ph a)) as [d|] eqn:Hjd; [|done]. by rewrite land_other by congruence.
           ++ intros d Hd. unfold emplace. change (seq_ (dev a) + place a d) with (ad_seq (adr a d)).
              change (seq_ (dev a) + place a b) with (ad_seq (adr a b)). rewrite Hsb. destruct (decide (d = b)) as [->|Hdb].
              ** rewrite lookup_insert_eq, land_self, Hnc. done.
              ** rewrite land_other by congruence. rewrite lookup_insert_ne; [by apply H6|].
                 intros Hs. apply (adr_seq_inj a b d) in Hs; [done|done|by apply (peer_rank a d)].
           ++ done.
           ++ rewrite H8. unfold calls. destruct (joining (ph a)) as [d|] eqn:Hjd; [|done]. by rewrite land_other by congruence.
        -- rewrite lookup_insert_ne by done. destruct (mo_proc _ _ _ H c Hc) as (p' & Hp' & Hok'). exists p'. split; [done|].
           eapply proc_landed; [|exact Hok']. intros d. apply land_other. congruence.
      * intros c Hc. rewrite lookup_insert_ne by by intros ->. by apply (mo_none _ _ _ H).
      * intros c d Hc Hd. destruct (decide ((c, d) = (b, a))) as [->|Hcd]; [done|]. rewrite land_other by done. by apply (mo_landed _ _ _ H).
      * intros c d Hc Hd Hr Hin. unfold land. rewrite (mo_joined _ _ _ H) by done. apply orb_true_r.
    + unfold measure. apply Nat.add_lt_mono_l. erewrite (Permutation_length (l := filter (λ p0, landed p0 = false) all_pairs)).
      2: { apply (soup_add (λ p0, land (b, a) landed p0 = false) _ _ (b, a)); [apply all_pairs_NoDup|by apply elem_of_all_pairs|by rewrite land_self|].
           intros q. destruct (decide (q = (b, a))) as [->|Hq]; [rewrite land_self; naive_solver|]. rewrite land_other by done. naive_solver. }
      cbn [length]. lia.
Qed.

Lemma exec_step ph landed s s' l : mesh_ok ph landed s → mesh_exec sockName peerName st l s = Some s' →
  ∃ ph' landed', mesh_ok ph' landed' s' ∧ (measure ph' landed' < measure ph landed)%nat.
Proof.
  intros H. destruct l as [r|r k|r k|k r]; [by apply run_step|by eapply write_step|by eapply call_step|by eapply arrive_step].
Qed.

Lemma execs_ok ls : ∀ ph landed s s', mesh_ok ph landed s → mesh_execs sockName peerName st ls s = Some s' →
  ∃ ph' landed', mesh_ok ph' landed' s' ∧ (length ls + measure ph' landed' ≤ measure ph landed)%nat.
Proof.
  induction ls as [|l ls IH]; intros ph landed s s' H; cbn [mesh_execs].
  - intros [= <-]. exists ph, landed. split; [done|]. cbn. lia.
  - destruct (mesh_exec sockName peerName st l s) as [s1|] eqn:Hl; [|done]. cbn [mbind option_bind]. intros Hs.
    destruct (exec_step _ _ _ _ _ H Hl) as (ph1 & landed1 & H1 & Hm1). destruct (IH _ _ _ _ H1 Hs) as (ph2 & landed2 & H2 & Hm2).
    exists ph2, landed2. split; [done|]. cbn [length]. lia.
Qed.

(* ------------------------------------------------------------------ *)
(** * The start *)

Lemma mesh_init_at (store : S) a : is_rank a →
  ms_proc (mesh_init store n timeout host dev) !! a = Some (mkMProc (connectFullMesh a n (host a) timeout) ∅ (dev a) [] []).
Proof.
  intros Ha. cbn [mesh_init ms_proc]. apply elem_of_list_to_map_1.
  - rewrite <-list_fmap_compose. cbn. rewrite list_fmap_id. apply NoDup_seqZ.
  - apply list_elem_of_fmap. exists a. split; [done|]. apply elem_of_seqZ. unfold is_rank in *. lia.
Qed.

Lemma init_ok (store : S) : (∀ a, is_rank a → view store (host_key a) = None ∧ view store (addr_key a) = None) →
  mesh_ok (λ _, PhHost) (λ _, false) (mesh_init store n timeout host dev).
Proof.
  intros Hv. split; try done.
  - intros a Ha. eexists. split; [by apply mesh_init_at|]. destruct (Hdev a Ha) as (_ & _ & _ & _ & Hf & Hk).
    split; cbn; [done|done|done|by rewrite lenZ_nil, Z.add_0_r|done| |done|done]. intros b Hb. by rewrite Hk.
  - intros a Ha. cbn [mesh_init ms_proc]. apply not_elem_of_list_to_map_1. rewrite <-list_fmap_compose. cbn. rewrite list_fmap_id, elem_of_seqZ.
    unfold is_rank in *. lia.
  - intros a Ha. by apply Hv.
  - intros a Ha. by apply Hv.
  - cbn [mesh_init ms_flight]. unfold on_the_way. rewrite filter_never; [done|]. intros [c d].
    unfold wrote_to. cbn. rewrite andb_false_r. naive_solver.
  - intros a b _ _ _ Hin. by apply not_elem_of_nil in Hin.
Qed.

(* ------------------------------------------------------------------ *)
(** * No deadlock *)

Lemma blocked ph landed s a : mesh_ok ph landed s → is_rank a → mesh_run st a s = None →
  match ph a with
  | PhHosts i _ => ph i = PhHost
  | PhWait _ (b :: _) _ => published (ph b) = false
  | PhWait _ [] _ | PhJoin _ _ _ _ false => True
  | _ => False
  end.
Proof.
  intros H Ha. destruct (mo_proc _ _ _ H a Ha) as (p & Hp & Hok). pose proof (mo_phase _ _ _ H a Ha) as Hq.
  pose proof (mo_get _ _ _ H a Ha) as Hg. revert Hq Hg Hok. unfold mesh_run. rewrite Hp. cbn [mbind option_bind].
  destruct (ph a) as [|i lr|dn todo lr|dn b todo lr|dn todo lr|dn b todo lr|dn b todo lr|dn b todo lr up] eqn:Hph; intros Hq Hg Hok; rewrite (po_prog _ _ _ _ Hok).
  - cbn [rest_of connectFullMesh]. by destruct (store_set _ _ _).
  - destruct Hq as [Hi _]. assert (is_rank i) as Hri by (unfold is_rank in *; lia). rewrite code_hosts by done.
    pose proof (mo_host _ _ _ H i Hri) as Hv. destruct (ph i); [done|..].
    all: rewrite (sl_get (StoreLaws := L) _ _ (host i)) by (try apply HK; auto); done.
  - destruct Hq as [Hr _]. destruct todo as [|b todo].
    + rewrite code_create_end. by destruct (store_set _ _ _).
    + by rewrite code_create by (by eapply re_head).
  - by rewrite code_local.
  - destruct todo as [|b todo]; [done|]. destruct Hq as [Hr _]. destruct (reached_in n a Ha _ _ _ Hr) as (Hbin & _ & _ & Hba & _).
    destruct (peer_rank a b Hbin) as [Hbr _]. rewrite code_wait by done. pose proof (mo_addrs _ _ _ H b Hbr) as Hv.
    destruct (published (ph b)); [|done]. rewrite (sl_wait_ready (StoreLaws := L)); [done|repeat constructor; by apply HK|repeat constructor; by rewrite Hv].
  - destruct Hq as [Hr _]. destruct (reached_in n a Ha _ _ _ Hr) as (Hbin & _ & _ & Hba & _).
    destruct (peer_rank a b Hbin) as [Hbr _]. cbn [rest_of]. pose proof (mo_addrs _ _ _ H b Hbr) as Hv. rewrite Hg in Hv.
    by rewrite (sl_get (StoreLaws := L) _ _ _ _ (proj2 (HK b Hbr)) Hv) by by apply (addrs_peers_not_nil b a).
  - done.
  - destruct up; [|done]. cbn [rest_of]. rewrite (po_pairs _ _ _ _ Hok). unfold cpair_at. cbn [joined].
    by rewrite decide_True by (apply elem_snoc; tauto).
Qed.

(** Nothing can go on: no process, and nothing for the loops to do. *)
Definition candidates (a : Z) : list MLabel := [LRun a; LWrite a 0; LCall a 0; LArrive 0 a].
Definition stuck (s : Mesh S) : Prop := ∀ a l, is_rank a → l ∈ candidates a → mesh_exec sockName peerName st l s = None.

Lemma stuck_or (s : Mesh S) : (∃ l s', mesh_exec sockName peerName st l s = Some s') ∨ stuck s.
Proof.
  assert (∀ ls : list MLabel, (∃ l s', mesh_exec sockName peerName st l s = Some s') ∨ ∀ l, l ∈ ls → mesh_exec sockName peerName st l s = None) as Hls.
  { induction ls as [|l ls [IH|IH]]; [right; by intros l ?%not_elem_of_nil|by left|].
    destruct (mesh_exec sockName peerName st l s) as [s'|] eqn:Hl; [left; eauto|]. right. intros l' [->|Hin]%elem_of_cons; auto. }
  destruct (Hls (seqZ 0 n ≫= candidates)) as [|Hn']; [by left|]. right. intros a l Ha Hl. apply Hn', list_elem_of_bind.
  exists a. split; [done|]. apply elem_of_seqZ. unfold is_rank in *. lia.
Qed.

Lemma stuck_run s a : stuck s → is_rank a → mesh_run st a s = None.
Proof. intros Hs Ha. apply (Hs a (LRun a) Ha). left. Qed.

Lemma stuck_flight ph landed s : mesh_ok ph landed s → stuck s → ms_flight s = [].
Proof.
  intros H Hs. destruct (ms_flight s) as [|[[ss seq] sock] fl] eqn:Hf; [done|]. exfalso.
  assert (ms_flight s !! 0%nat = Some (ss, seq, sock)) as Hk by by rewrite Hf.
  destruct (flight_inv _ _ _ _ _ _ _ H Hk) as (b & a & Hb & Ha & _ & _ & _ & -> & _).
  specialize (Hs a (LArrive 0 a) Ha ltac:(by do 3 right; left)). cbn [mesh_exec] in Hs. rewrite Hk in Hs. cbn [mbind option_bind] in Hs.
  destruct (mo_proc _ _ _ H a Ha) as (p & Hp & Hok). rewrite Hp in Hs. cbn [mbind option_bind] in Hs. rewrite (po_addr _ _ _ _ Hok) in Hs.
  by rewrite bool_decide_eq_true_2 in Hs.
Qed.

Lemma stuck_writes ph landed s a : mesh_ok ph landed s → stuck s → is_rank a → writes a (ph a) = [].
Proof.
  intros H Hs Ha. destruct (mo_proc _ _ _ H a Ha) as (p & Hp & Hok). specialize (Hs a (LWrite a 0) Ha ltac:(by right; left)). cbn [mesh_exec] in Hs.
  rewrite Hp in Hs. cbn [mbind option_bind] in Hs. rewrite (po_writes _ _ _ _ Hok) in Hs. by destruct (writes a (ph a)) as [|[[? ?] ?] ?].
Qed.
Lemma stuck_calls ph landed s a : mesh_ok ph landed s → stuck s → is_rank a → calls a (ph a) (λ b, landed (b, a)) = [].
Proof.
  intros H Hs Ha. destruct (mo_proc _ _ _ H a Ha) as (p & Hp & Hok). specialize (Hs a (LCall a 0) Ha ltac:(by do 2 right; left)). cbn [mesh_exec] in Hs.
  rewrite Hp in Hs. cbn [mbind option_bind] in Hs. rewrite (po_calls _ _ _ _ Hok) in Hs. by destruct (calls _ _ _) as [|[? ?] ?].
Qed.

(** Then every process is done or waits for a pair. *)
Lemma stuck_waits ph landed s a : mesh_ok ph landed s → stuck s → is_rank a →
  (∃ dn lr, ph a = PhWait dn [] lr) ∨ ∃ dn b todo lr, ph a = PhJoin dn b todo lr false.
Proof.
  intros H Hs. assert (∀ c, is_rank c → ph c ≠ PhHost) as H0.
  { intros c Hc Hph. pose proof (blocked ph landed s c H Hc (stuck_run s c Hs Hc)) as Hb. by rewrite Hph in Hb. }
  assert (∀ c, is_rank c → published (ph c) = true) as H1.
  { intros c Hc. pose proof (blocked ph landed s c H Hc (stuck_run s c Hs Hc)) as Hb. pose proof (mo_phase _ _ _ H c Hc) as Hq.
    destruct (ph c) as [|i lr| | | | | |]; try done. destruct Hq as [Hi _]. exfalso. apply (H0 i); [unfold is_rank in *; lia|done]. }
  intros Ha. pose proof (blocked ph landed s a H Ha (stuck_run s a Hs Ha)) as Hb. pose proof (mo_phase _ _ _ H a Ha) as Hq. pose proof (H1 a Ha) as Hpub.
  destruct (ph a) as [| | | |dn [|b todo] lr| | |dn b todo lr []]; try done; [left; eauto| |right; eauto 10].
  destruct Hq as [Hr _]. destruct (reached_in n a Ha _ _ _ Hr) as (Hbin & _). destruct (peer_rank a b Hbin) as [Hbr _]. by rewrite H1 in Hb.
Qed.

(** A process that waits for the pair of [b] waits for a process that waits
    for the pair of a smaller rank. *)
Lemma stuck_next ph landed s a dn b todo lr : mesh_ok ph landed s → stuck s → is_rank a → ph a = PhJoin dn b todo lr false →
  is_rank b ∧ ∃ dn' c todo' lr', ph b = PhJoin dn' c todo' lr' false ∧ c < a.
Proof.
  intros H Hs Ha Hph. pose proof (mo_phase _ _ _ H a Ha) as Hq. rewrite Hph in Hq. destruct Hq as [Hr _].
  destruct (reached_in n a Ha _ _ _ Hr) as (Hbin & Hbn & _ & Hba & _). destruct (peer_rank a b Hbin) as [Hbr _]. split; [done|].
  pose proof (stuck_writes _ _ _ a H Hs Ha) as Hw. pose proof (stuck_calls _ _ _ a H Hs Ha) as Hc. rewrite Hph in Hw, Hc.
  unfold writes in Hw. unfold calls in Hc. cbn [joining] in Hw, Hc. destruct (role a b) eqn:Hrole; [done|]. cbn [negb andb] in Hc.
  destruct (landed (b, a)) eqn:Hl; [done|]. assert (role b a = true) as Hrb by by rewrite (role_flip a b), Hrole.
  assert (a ∉ joined (ph b)) as Hnj.
  { intros Hin. pose proof (stuck_flight _ _ _ H Hs) as Hf. pose proof (mo_flight _ _ _ H) as Hfl. rewrite Hf in Hfl.
    apply Permutation_nil_l in Hfl. symmetry in Hfl. apply fmap_nil_inv in Hfl. apply (filter_nil_not_elem_of _ _ (b, a)) in Hfl.
    - apply Hfl. by apply elem_of_all_pairs.
    - split; [|done]. unfold wrote_to. cbn [fst snd]. by rewrite Hrb, bool_decide_eq_true_2. }
  assert (a ∈ peers n b) as Hab by (apply elem_of_peers; unfold is_rank in *; split; [lia|congruence]).
  pose proof (mo_phase _ _ _ H b Hbr) as Hqb.
  destruct (stuck_waits _ _ _ b H Hs Hbr) as [(dn' & lr' & Hphb)|(dn' & c & todo' & lr' & Hphb)]; rewrite Hphb in Hqb, Hnj; destruct Hqb as [Hrb' _]; cbn [joined] in Hnj.
  - rewrite (reached_peers n b _ _ Hrb') in Hab. cbn [besides filter list_filter] in Hab. by rewrite app_nil_r in Hab.
  - exists dn', c, todo', lr'. split; [done|]. apply (reached_after n b dn' c todo'); [done|done|done|]. intros ->.
    pose proof (stuck_writes _ _ _ b H Hs Hbr) as Hwb. rewrite Hphb in Hwb. unfold writes in Hwb. cbn [joining] in Hwb. by rewrite Hrb in Hwb.
Qed.

Lemma stuck_done ph landed s : mesh_ok ph landed s → stuck s → ∀ a, is_rank a → ∃ dn lr, ph a = PhWait dn [] lr.
Proof.
  intros H Hs a Ha. destruct (stuck_waits _ _ _ a H Hs Ha) as [|(dn & b & todo & lr & Hph)]; [done|]. exfalso. revert Ha dn b todo lr Hph.
  induction (Z.lt_wf 0 a) as [a _ IH]. intros Ha dn b todo lr Hph.
  destruct (stuck_next _ _ _ a dn b todo lr H Hs Ha Hph) as (Hbr & dn' & c & todo' & lr' & Hphb & Hlt).
  destruct (stuck_next _ _ _ b dn' c todo' lr' H Hs Hbr Hphb) as (Hcr & dn'' & d & todo'' & lr'' & Hphc & _).
  eapply (IH c); [unfold is_rank in *; lia|done|exact Hphc].
Qed.

Lemma end_of_other a b : is_rank a → is_rank b → a ≠ b →
  sk_from (end_of b a) = sk_from (end_of a b) ∧ sk_accepted (end_of b a) = negb (sk_accepted (end_of a b)).
Proof. intros Ha Hb Hne. unfold end_of. rewrite (role_flip a b) by done. by destruct (role a b). Qed.

Lemma mesh_completes (store : S) : (∀ a, is_rank a → view store (host_key a) = None ∧ view store (addr_key a) = None) →
  ∀ ls s, mesh_execs sockName peerName st ls (mesh_init store n timeout host dev) = Some s →
    (length ls ≤ measure (λ _, PhHost) (λ _, false))%nat ∧
    ((∃ l s', mesh_exec sockName peerName st l s = Some s') ∨
     ms_flight s = [] ∧ ∀ a, is_rank a → ∃ p lr, ms_proc s !! a = Some p ∧ mp_prog p = PStop (Val ()) ∧ mp_writes p = [] ∧ mp_calls p = [] ∧
       lr_ok a a lr ∧ ∀ b, is_rank b → b ≠ a → mp_pairs p !! b = Some (joined_pair a b lr)).
Proof.
  intros Hv ls s Hs. destruct (execs_ok ls _ _ _ _ (init_ok store Hv) Hs) as (ph & landed & H & Hm). split; [lia|].
  destruct (stuck_or s) as [|Hst]; [by left|]. right. split; [by eapply stuck_flight|]. intros a Ha.
  destruct (stuck_done _ _ _ H Hst a Ha) as (dn & lr & Hph). destruct (mo_proc _ _ _ H a Ha) as (p & Hp & Hok).
  pose proof (mo_phase _ _ _ H a Ha) as Hq. rewrite Hph in Hq, Hok. destruct Hq as [Hr Hlr]. exists p, lr.
  destruct Hok as [H1 H2 H3 H4 H5 H6 H7 H8]. split_and!; [done|by rewrite H1|by rewrite H7|by rewrite H8|done|].
  intros b Hb Hne. rewrite H2. unfold cpair_at. cbn [joined ph_lr]. rewrite decide_True; [done|].
  rewrite <-(app_nil_r dn). change [] with (besides a []). rewrite <-(reached_peers n a _ _ Hr). by apply elem_of_peers.
Qed.
End mesh.

(* ------------------------------------------------------------------ *)
(** * A full mesh *)

(** Processes on named hosts, each with a listening device: of one family,
    at addresses of their own, with sequence numbers to give out, and with
    nothing waiting. *)
Record mesh_setup (n timeout : Z) (host : Z → list Z) (dev : Z → Listener Z Socket) : Prop := {
  me_size : 1 <= n;
  me_timeout : 0 <= timeout;
  me_host a : 0 <= a < n → host a ≠ [];
  me_addr a : 0 <= a < n → length (ad_ss (addr_ (dev a))) = sizeof_ss ∧ bytes_ok (ad_ss (addr_ (dev a)));
  me_seq a : 0 <= a < n → 0 <= seq_ (dev a) ∧ seq_ (dev a) + n < 2 ^ 63;
  me_empty a : 0 <= a < n → seqToCallback_ (dev a) = ∅ ∧ seqToSocket_ (dev a) = ∅;
  me_apart a b : 0 <= a < n → 0 <= b < n → a ≠ b →
    ss_family (addr_ (dev a)) = ss_family (addr_ (dev b)) ∧ inet_family (addr_ (dev a)) = true ∧
    same_device (addr_ (dev a)) (addr_ (dev b)) = false;
}.

(** Every process is done, with a connected pair for every other: the two
    pairs hold the two ends of one connection, and know their local rank. *)
Definition full_mesh {S} (n : Z) (host : Z → list Z) (exact : bool) (s : Mesh S) : Prop :=
  ms_flight s = [] ∧
  ∀ a, 0 <= a < n → ∃ p lr, ms_proc s !! a = Some p ∧
    mp_prog p = PStop (Val ()) ∧ mp_writes p = [] ∧ mp_calls p = [] ∧
    0 <= lr <= hosted host a a ∧ (exact = true → lr = hosted host a a) ∧
    ∀ b, 0 <= b < n → b ≠ a → ∃ accepted c p' c',
      let conn := if accepted : bool then (b, a) else (a, b) in
      mp_pairs p !! b = Some c ∧ cp_state c = CONNECTED ∧ cp_localRank c = lr ∧ cp_fd c = Some (mkSocket conn accepted) ∧
      ms_proc s !! b = Some p' ∧ mp_pairs p' !! a = Some c' ∧ cp_fd c' = Some (mkSocket conn (negb accepted)).

(** C19: Connecting a full mesh succeeds. For any number of processes on any
    hosts that run connectFullMesh against one store that keeps what it
    promises, with fresh keys, each on a device of its own, and for every
    interleaving of their calls, of what their event loops write and call, and
    of what arrives: no execution is longer than a bound, none is stuck before
    it is complete, and a complete one is a full mesh, in which no process threw.
    Where a missing key is waited for, the local rank is the number of lower
    ranks on the host; where it reads as empty, it can be less. *)
Theorem connectFullMesh_completes {S} (st : Store S) (K : string → Prop) view (L : StoreLaws st K view) (sockName peerName : Socket → Address)
    (n timeout : Z) (host : Z → list Z) (dev : Z → Listener Z Socket) (store : S) (blocks : bool)
    (Hset : mesh_setup n timeout host dev)
    (Hmiss : ∀ s k, K k → view s k = None → store_get k 0 s = if blocks then None else Some (Val []))
    (Hkeys : ∀ a, 0 <= a < n → K (host_key a) ∧ K (addr_key a) ∧ view store (host_key a) = None ∧ view store (addr_key a) = None) :
  ∃ bound, ∀ ls s, mesh_execs sockName peerName st ls (mesh_init store n timeout host dev) = Some s →
    (length ls ≤ bound)%nat ∧
    ((∃ l s', mesh_exec sockName peerName st l s = Some s') ∨ full_mesh n host blocks s).
Proof.
  destruct Hset as [Hn Ht Hhost Haddr Hseq Hempty Hapart]. unfold full_mesh.
  assert (∀ a, is_rank n a → length (ad_ss (addr_ (dev a))) = sizeof_ss ∧ bytes_ok (ad_ss (addr_ (dev a))) ∧
    0 <= seq_ (dev a) ∧ seq_ (dev a) + n < 2 ^ 63 ∧ seqToCallback_ (dev a) = ∅ ∧ seqToSocket_ (dev a) = ∅) as Hdev.
  { intros a Ha. destruct (Haddr a Ha), (Hseq a Ha), (Hempty a Ha). done. }
  eexists. intros ls s Hs.
  edestruct (mesh_completes st K view sockName peerName n timeout Hn Ht host dev blocks) as [Hb Hd]; [..|exact Hs|split; [exact Hb|]].
  - intros a Ha. destruct (Hkeys a Ha) as (? & ? & _). done.
  - exact Hmiss.
  - exact Hhost.
  - exact Hdev.
  - exact Hapart.
  - intros a Ha. by destruct (Hkeys a Ha) as (_ & _ & ?).
  - destruct Hd as [Hd|[Hf Hd]]; [by left|]. right. split; [done|]. intros a Ha.
    destruct (Hd a Ha) as (p & lr & Hp & Hprog & Hw & Hc & [Hlr Hex] & Hpairs). exists p, lr. split_and!; try done; [lia..|].
    intros b Hb' Hne. destruct (Hd b Hb') as (p' & lr' & Hp' & _ & _ & _ & _ & Hpairs').
    destruct (end_of_other n dev Hdev Hapart a b Ha Hb' ltac:(done)) as [He1 He2].
    exists (sk_accepted (end_of dev a b)), (joined_pair sockName peerName dev a b lr), p', (joined_pair sockName peerName dev b a lr').
    cbn [joined_pair cp_state cp_localRank cp_fd]. split_and!; [by apply Hpairs|done|done| |done|by apply Hpairs'|].
    + unfold end_of. by destruct (role dev a b).
    + f_equal. rewrite <-He2. destruct (end_of dev b a) as [f acc] eqn:Eb. cbn in *. f_equal. rewrite He1.
      unfold end_of. by destruct (role dev a b).
Qed.

(** Two processes on one host, with a file store. *)
Definition two_host (a : Z) : list Z := [104].
Definition two_dev (a : Z) : Listener Z Socket := Listener_new (inet_address [31; 144] [10; 0; 0; a + 1] kSequenceNumberUnset).
Definition two_hash (k : string) : N :=
  (N.of_nat (String.length k) * 256 + match String.get (String.length k - 1) k with Some c => N_of_ascii c | None => 0 end)%N.
Definition two_keys (k : string) : Prop := k ∈ [host_key 0; host_key 1; addr_key 0; addr_key 1].
Definition no_name (s : Socket) : Address := mkAddress [] kSequenceNumberUnset.

Lemma two_setup : mesh_setup 2 30000 two_host two_dev.
Proof.
  split; try done.
  - intros a Ha. split; [done|]. assert (a = 0 ∨ a = 1) as [-> | ->] by lia; by repeat constructor.
  - intros a b Ha Hb Hne. assert (a = 0 ∧ b = 1 ∨ a = 1 ∧ b = 0) as [[-> ->] | [-> ->]] by lia; split_and!; reflexivity.
Qed.

Lemma connectFullMesh_completes_witness :
  ∃ bound, ∀ ls s,
    mesh_execs no_name no_name (FileStore_store "/tmp" two_hash) ls (mesh_init (mkFileStore ∅ []) 2 30000 two_host two_dev) = Some s →
    (length ls ≤ bound)%nat ∧
    ((∃ l s', mesh_exec no_name no_name (FileStore_store "/tmp" two_hash) l s = Some s') ∨ full_mesh 2 two_host true s).
Proof.
  assert (∀ k k', two_keys k → two_keys k' → two_hash k = two_hash k' → k = k') as HK.
  { intros k k' Hk Hk'. unfold two_keys in *. rewrite !elem_of_cons in Hk, Hk'.
    destruct Hk as [->|[->|[->|[->|?%not_elem_of_nil]]]], Hk' as [->|[->|[->|[->|?%not_elem_of_nil]]]]; done. }
  apply (connectFullMesh_completes (FileStore_store "/tmp" two_hash) two_keys (FileStore_view "/tmp" two_hash)
    (FileStore_laws "/tmp" two_hash two_keys HK) no_name no_name 2 30000 two_host two_dev (mkFileStore ∅ []) true two_setup).
  - intros s k Hk Hv. by apply (FileStore_blocks "/tmp" two_hash two_keys s k 0).
  - intros a Ha. assert (a = 0 ∨ a = 1) as [-> | ->] by lia; (split_and!; [unfold two_keys; rewrite !elem_of_cons; auto 10..|reflexivity|reflexivity]).
Defined.

(** With a HashStore, whose [get] does not wait, the second process may count
    no lower rank on its host: both have the local rank 0. *)
Definition localRank_of {S} (s : Mesh S) (r i : Z) : option (outcome unit * Z) :=
  p ← ms_proc s !! r; c ← mp_pairs p !! i;
  match mp_prog p with PStop o => Some (o, cp_localRank c) | _ => None end.
Lemma HashStore_localRank : ∃ ls s,
  mesh_execs no_name no_name HashStore_store ls (mesh_init (mkHashStore ∅) 2 30000 two_host two_dev) = Some s ∧
  localRank_of s 0 1 = Some (Val (), 0) ∧ localRank_of s 1 0 = Some (Val (), 0) ∧ hosted two_host 1 1 = 1.
Proof.
  eexists (replicate 5 (LRun 1) ++ replicate 7 (LRun 0) ++ replicate 3 (LRun 1) ++ [LWrite 1 0; LArrive 0 0; LRun 0; LRun 1]), _.
  split; [vm_compute; reflexivity|]. vm_compute. done.
Qed.
