(* ===== verification/RecoveryModel.v ===== *)
(** Congestion control of [src/gloo/Recovery.h]: the window counters fed by
    acknowledgements, the window they give and the history a rollback uses. *)
From Stdlib Require Import SpecFloat.
From S2P Require Import Prelude FloatOps.

Definition INITIAL_WINDOW_PACKETS : Z := 8.
Definition ELICT_ACK_CONSTANT : Z := 8.
Definition MINIMUM_WINDOW_PACKETS : Z := 2.
Definition INI_WIN : Z := 1350 * 8.
Definition PACKET_SIZE : Z := 1350.

Record Recovery := mkRecovery {
  app_limit : bool;
  congestion_window : Z;
  bytes_in_flight : Z;
  max_datagram_size : Z;
  incre_win : Z;
  decre_win : Z;
  former_win_vecter : list Z;
  roll_back_flag : bool;
  function_change : bool;
  incre_win_copy : Z;
  decre_win_copy : Z;
}.

#[export] Instance Recovery_eta : Eta Recovery := λ s,
  mkRecovery (app_limit s) (congestion_window s) (bytes_in_flight s) (max_datagram_size s)
    (incre_win s) (decre_win s) (former_win_vecter s) (roll_back_flag s) (function_change s)
    (incre_win_copy s) (decre_win_copy s).

Definition Recovery_new : Recovery :=
  mkRecovery false INI_WIN 0 PACKET_SIZE 0 0 [] false false 0 0.

Definition Recovery_on_init (s : Recovery) : Recovery :=
  s <| congestion_window := u64 (max_datagram_size s * INITIAL_WINDOW_PACKETS) |>.

Definition Recovery_reset (s : Recovery) : Recovery :=
  s <| congestion_window := u64 (max_datagram_size s * INITIAL_WINDOW_PACKETS) |>.

(** [(3 * pow((double)weights, 2) - 12 * (double)weights + 4) * (double)max_datagram_size] *)
Definition win_curve (weights : spec_float) (mds : Z) : spec_float :=
  let w := f64_of_f32 weights in
  f64_mul (f64_add (f64_sub (f64_mul (f64_of_Z 3) (f64_square w)) (f64_mul (f64_of_Z 12) w))
                   (f64_of_Z 4)) (f64_of_Z mds).

(** [if (x > 0) inc += (size_t)x; else dec += (size_t)(-x);] *)
Definition add_win (x : spec_float) (inc dec : Z) : outcome (Z * Z) :=
  if f_gtb x (S754_zero false) then
    n ← f_to_size_t x; Val (u64 (inc + n), dec)
  else
    n ← f_to_size_t (SFopp x); Val (inc, u64 (dec + n)).

(** [weights] is a [float], [num] a [double]. *)
Definition Recovery_update_win (weights num : spec_float) (s : Recovery) : outcome Recovery :=
  let '(winadd, winadd_copy, s) :=
    if function_change s then
      (win_curve weights (max_datagram_size s), S754_zero false, s)
    else
      let s := if f_gtb weights (S754_zero false)
               then s <| function_change := true |> <| incre_win := incre_win_copy s |>
                      <| decre_win := decre_win_copy s |>
               else s in
      (f64_mul num (f64_of_Z (max_datagram_size s)),
       f32_of_f64 (win_curve weights (max_datagram_size s)), s) in
  let s := if f_neqb winadd num then s <| roll_back_flag := true |> else s in
  '(inc, dec) ← add_win winadd (incre_win s) (decre_win s);
  let s := s <| incre_win := inc |> <| decre_win := dec |> in
  '(inc, dec) ← add_win winadd_copy (incre_win_copy s) (decre_win_copy s);
  Val (s <| incre_win_copy := inc |> <| decre_win_copy := dec |>).

Definition Recovery_should_elicit_ack (pkt_num : Z) : bool := pkt_num `mod` ELICT_ACK_CONSTANT =? 0.

Definition Recovery_cwnd (s : Recovery) : Z * Recovery :=
  let tmp_win := if decre_win s <? u64 (2 * incre_win s)
                 then u64 (u64 (2 * incre_win s) - decre_win s) else 0 in
  let s := if roll_back_flag s then s
           else s <| former_win_vecter ::= oset_insert tmp_win |> in
  let s := s <| congestion_window := tmp_win |> <| incre_win := 0 |> <| decre_win := 0 |>
             <| incre_win_copy := 0 |> <| decre_win_copy := 0 |> in
  if PACKET_SIZE * INITIAL_WINDOW_PACKETS <=? congestion_window s then (congestion_window s, s)
  else let s := s <| congestion_window := PACKET_SIZE * INITIAL_WINDOW_PACKETS |> in
       (congestion_window s, s).

Definition Recovery_cwnd_available (s : Recovery) : Z :=
  u64 (congestion_window s - bytes_in_flight s).

Definition Recovery_collapse_cwnd (s : Recovery) : Recovery := s <| congestion_window := INI_WIN |>.
Definition Recovery_update_app_limited (v : bool) (s : Recovery) : Recovery := s <| app_limit := v |>.
Definition Recovery_app_limited (s : Recovery) : bool := app_limit s.

(** [*former_win_vecter.rbegin()] is the largest recorded window. *)
Definition Recovery_rollback (s : Recovery) : Z * Recovery :=
  let s := match last (former_win_vecter s) with
           | None => s <| congestion_window := INI_WIN |>
           | Some w => s <| congestion_window := w |>
                         <| former_win_vecter ::= λ l, take (length l - 1) l |>
           end in
  (congestion_window s, s).

(* ------------------------------------------------------------------ *)
(** * The window *)

(** [cwnd] returns twice the increments less the decrements, never below
    the initial eight packets, starts the next round with cleared counters,
    and records the raw window exactly while no rollback is flagged. *)
Theorem Recovery_cwnd_spec (s : Recovery) :
  0 ≤ incre_win s < 2 ^ 63 → 0 ≤ decre_win s < 2 ^ 64 →
  let raw := Z.max 0 (2 * incre_win s - decre_win s) in
  let '(w, s') := Recovery_cwnd s in
  w = Z.max INI_WIN raw ∧ congestion_window s' = w ∧
  incre_win s' = 0 ∧ decre_win s' = 0 ∧ incre_win_copy s' = 0 ∧ decre_win_copy s' = 0 ∧
  former_win_vecter s' = (if roll_back_flag s then former_win_vecter s
                          else oset_insert raw (former_win_vecter s)) ∧
  roll_back_flag s' = roll_back_flag s ∧ function_change s' = function_change s.
Proof.
  intros Hi Hd raw. unfold Recovery_cwnd.
  assert ((if decre_win s <? u64 (2 * incre_win s)
           then u64 (u64 (2 * incre_win s) - decre_win s) else 0) = raw) as Hraw.
  { rewrite (wrap_small 64 (2 * incre_win s)) by (unfold in_range; lia).
    destruct (Z.ltb_spec (decre_win s) (2 * incre_win s)); unfold raw; [|lia].
    rewrite wrap_small by (unfold in_range; lia). lia. }
  rewrite Hraw. clearbody raw. unfold PACKET_SIZE, INITIAL_WINDOW_PACKETS, INI_WIN.
  destruct (roll_back_flag s) eqn:Hr; simpl;
    destruct (Z.leb_spec (1350 * 8) raw); simpl; rewrite ?Hr; split_and!; try done; lia.
Qed.

Lemma oset_last_max l w x : oset_wf l → last l = Some w → x ∈ l → x ≤ w.
Proof.
  intros Hwf. induction Hwf as [|y l Hl IH Hall]; [done|]. destruct l as [|z l].
  - simpl. intros [= ->] ->%list_elem_of_singleton. done.
  - rewrite last_cons_cons. intros Hw [->|Hx]%elem_of_cons; [|auto].
    rewrite Forall_forall in Hall. apply Z.lt_le_incl, Hall.
    apply last_Some in Hw as [l' ->]. set_solver.
Qed.

(** [rollback] returns the largest window on record and forgets it; with
    nothing on record it falls back to the initial window. Successive rollbacks
    therefore strictly shrink the window while there is history. *)
Theorem Recovery_rollback_spec (s : Recovery) :
  oset_wf (former_win_vecter s) →
  let '(w, s') := Recovery_rollback s in
  congestion_window s' = w ∧ oset_wf (former_win_vecter s') ∧
  (former_win_vecter s = [] ∧ w = INI_WIN ∧ former_win_vecter s' = []
   ∨ w ∈ former_win_vecter s ∧
     (∀ x, x ∈ former_win_vecter s ↔ x = w ∨ x ∈ former_win_vecter s') ∧
     (∀ x, x ∈ former_win_vecter s' → x < w)).
Proof.
  intros Hwf. unfold Recovery_rollback.
  destruct (last (former_win_vecter s)) as [w|] eqn:Hl; last first.
  { apply last_None in Hl. simpl. rewrite Hl. split_and!; [done|constructor|]. by left. }
  destruct (proj1 (last_Some _ _) Hl) as [l Heq]. simpl. rewrite Heq in *.
  rewrite length_app, Nat.add_sub, take_app_length.
  assert (oset_wf l ∧ ∀ x, x ∈ l → x < w) as [Hwf' Hlt].
  { clear -Hwf. induction l as [|y l IH]; simpl in *; [split; [constructor|set_solver]|].
    apply StronglySorted_inv in Hwf as [Hs Hall]. destruct (IH Hs) as [? Hx].
    apply Forall_app in Hall as [? Hw]. rewrite Forall_singleton in Hw.
    split; [by constructor|].
    intros x [->|?]%elem_of_cons; auto. }
  split_and!; [done|done|]. right. split_and!; [set_solver|set_solver|done].
Qed.

(* ------------------------------------------------------------------ *)
(** * Slow start *)

(** The number of packets an acknowledgement batch reports ([pnum] in
    [Connection::process_ack]). *)
Definition pnum_ok (n : Z) : bool := (1 <=? n) && (n <=? 8).

Lemma pnum_cases (P : Z → bool) n :
  forallb P [1; 2; 3; 4; 5; 6; 7; 8] = true → pnum_ok n = true → P n = true.
Proof.
  intros HP Hn. unfold pnum_ok in Hn. apply (proj1 (List.forallb_forall P _) HP).
  assert (n = 1 ∨ n = 2 ∨ n = 3 ∨ n = 4 ∨ n = 5 ∨ n = 6 ∨ n = 7 ∨ n = 8) as H by lia.
  simpl. naive_solver.
Qed.

(** A batch without loss, before the first loss. *)
Lemma update_win_no_loss n s :
  pnum_ok n = true → function_change s = false → max_datagram_size s = PACKET_SIZE →
  Recovery_update_win (S754_zero false) (f64_of_Z n) s =
  Val (s <| roll_back_flag := true |>
         <| incre_win := u64 (incre_win s + 1350 * n) |>
         <| incre_win_copy := u64 (incre_win_copy s + 5400) |>).
Proof.
  intros Hn Hf Hm. unfold Recovery_update_win. rewrite Hf.
  change (f_gtb (S754_zero false) (S754_zero false)) with false. cbv iota beta zeta. rewrite Hm.
  change (f32_of_f64 (win_curve (S754_zero false) PACKET_SIZE)) with (f32_of_Z 5400).
  assert (f_neqb (f64_mul (f64_of_Z n) (f64_of_Z PACKET_SIZE)) (f64_of_Z n) = true) as ->.
  { revert Hn. apply (pnum_cases (λ n, f_neqb (f64_mul (f64_of_Z n) (f64_of_Z PACKET_SIZE)) (f64_of_Z n))).
    vm_compute. done. }
  unfold add_win.
  assert (f_gtb (f64_mul (f64_of_Z n) (f64_of_Z PACKET_SIZE)) (S754_zero false) = true ∧
    f_to_size_t (f64_mul (f64_of_Z n) (f64_of_Z PACKET_SIZE)) = Val (1350 * n)) as [-> ->].
  { pose proof (pnum_cases (λ n,
      f_gtb (f64_mul (f64_of_Z n) (f64_of_Z PACKET_SIZE)) (S754_zero false) &&
      bool_decide (f_to_size_t (f64_mul (f64_of_Z n) (f64_of_Z PACKET_SIZE)) = Val (1350 * n))) n
      ltac:(vm_compute; done) Hn) as H.
    apply andb_prop in H as [? H]. split; [done|]. by apply bool_decide_eq_true in H. }
  change (f_gtb (f32_of_Z 5400) (S754_zero false)) with true.
  change (f_to_size_t (f32_of_Z 5400)) with (Val 5400). done.
Qed.

Definition update_all (nums : list Z) (s : Recovery) : outcome Recovery :=
  foldl (λ o n, o ≫= Recovery_update_win (S754_zero false) (f64_of_Z n)) (Val s) nums.

Lemma update_all_no_loss nums s :
  Forall (λ n, pnum_ok n = true) nums → function_change s = false →
  max_datagram_size s = PACKET_SIZE → 0 ≤ incre_win s →
  incre_win s + 1350 * foldr Z.add 0 nums < 2 ^ 64 →
  ∃ s', update_all nums s = Val s' ∧ incre_win s' = incre_win s + 1350 * foldr Z.add 0 nums ∧
    decre_win s' = decre_win s ∧ function_change s' = false ∧ max_datagram_size s' = PACKET_SIZE ∧
    former_win_vecter s' = former_win_vecter s.
Proof.
  intros Hf. revert s. induction Hf as [|n nums Hn Hf IH]; intros s Hfc Hm Hi Hb.
  { exists s. simpl. split_and!; try done. lia. }
  assert (0 ≤ foldr Z.add 0 nums).
  { clear -Hf. induction Hf as [|m ? Hm ? IHf]; simpl; [lia|]. unfold pnum_ok in Hm. lia. }
  simpl in Hb. assert (1 ≤ n ≤ 8) by (unfold pnum_ok in Hn; lia).
  unfold update_all. cbn [foldl mbind outcome_bind].
  rewrite (update_win_no_loss n s Hn Hfc Hm).
  destruct (IH (s <| roll_back_flag := true |> <| incre_win := u64 (incre_win s + 1350 * n) |>
      <| incre_win_copy := u64 (incre_win_copy s + 5400) |>)) as (s' & Heq & Hi' & ?); try done.
  { simpl. rewrite wrap_small by (unfold in_range; lia). lia. }
  { simpl. rewrite wrap_small by (unfold in_range; lia). lia. }
  exists s'. split; [exact Heq|]. split; [|done]. rewrite Hi'. simpl.
  rewrite wrap_small by (unfold in_range; lia). lia.
Qed.

(** slow start. From a fresh controller, a round of loss-free
    acknowledgements reporting [n] packets in total (in batches of at most
    eight) opens the window to twice the acknowledged bytes, and never below
    the initial window. *)
Theorem Recovery_slow_start (nums : list Z) :
  Forall (λ n, pnum_ok n = true) nums → 1350 * foldr Z.add 0 nums < 2 ^ 63 →
  ∃ s', update_all nums Recovery_new = Val s' ∧
    fst (Recovery_cwnd s') = Z.max INI_WIN (2 * (1350 * foldr Z.add 0 nums)).
Proof.
  intros Hf Hb. destruct (update_all_no_loss nums Recovery_new) as (s' & Heq & Hi & Hd & _);
    try done; [simpl; lia|].
  assert (0 ≤ foldr Z.add 0 nums).
  { clear -Hf. induction Hf as [|m ? Hm ? IHf]; simpl; [lia|]. unfold pnum_ok in Hm. lia. }
  exists s'. split; [done|].
  change (incre_win Recovery_new) with 0 in Hi. change (decre_win Recovery_new) with 0 in Hd.
  pose proof (Recovery_cwnd_spec s' ltac:(lia) ltac:(lia)) as Hw.
  destruct (Recovery_cwnd s') as [w s'']. destruct Hw as (-> & _). simpl. lia.
Qed.

(* ------------------------------------------------------------------ *)
(** * The history freezes at the first acknowledgement *)

(** The operations the connection calls on its controller. *)
Inductive RecoveryOp :=
  | OpUpdate (weights : spec_float) (n : Z)
  | OpCwnd
  | OpRollback
  | OpReset
  | OpCollapse.

Definition recovery_step (s : Recovery) (op : RecoveryOp) : outcome Recovery :=
  match op with
  | OpUpdate w n => Recovery_update_win w (f64_of_Z n) s
  | OpCwnd => Val (snd (Recovery_cwnd s))
  | OpRollback => Val (snd (Recovery_rollback s))
  | OpReset => Val (Recovery_reset s)
  | OpCollapse => Val (Recovery_collapse_cwnd s)
  end.

Fixpoint recovery_run (s : Recovery) (ops : list RecoveryOp) : outcome Recovery :=
  match ops with
  | [] => Val s
  | op :: ops => s' ← recovery_step s op; recovery_run s' ops
  end.

Lemma update_win_keeps w num s s' :
  Recovery_update_win w num s = Val s' →
  former_win_vecter s' = former_win_vecter s ∧ (roll_back_flag s = true → roll_back_flag s' = true).
Proof.
  unfold Recovery_update_win. intros H.
  destruct (function_change s); [|destruct (f_gtb w _)]; cbv beta iota zeta in H;
    destruct (f_neqb _ _); apply outcome_bind_val in H as ([i d] & _ & H);
    apply outcome_bind_val in H as ([i' d'] & _ & H); injection H as <-; done.
Qed.

Lemma recovery_step_frozen s op s' :
  roll_back_flag s = true → recovery_step s op = Val s' →
  roll_back_flag s' = true ∧ former_win_vecter s' ⊆ former_win_vecter s.
Proof.
  intros Hr. destruct op as [w n| | | |]; simpl.
  - intros [-> ?]%update_win_keeps. auto.
  - intros [= <-]. unfold Recovery_cwnd. rewrite Hr. simpl. by case_match.
  - intros [= <-]. unfold Recovery_rollback. destruct (last _); simpl; split; try done.
    apply subseteq_take.
  - by intros [= <-].
  - by intros [= <-].
Qed.

(** the first acknowledgement batch processed before any loss curve is in
    force sets [roll_back_flag] (it compares the byte count [num * 1350] with
    the packet count [num]), the flag is never cleared, and from then on no
    sequence of operations adds a window to the rollback history. *)
Theorem Recovery_history_frozen (s s1 s2 : Recovery) (w : spec_float) (n : Z) (ops : list RecoveryOp) :
  function_change s = false → max_datagram_size s = PACKET_SIZE → pnum_ok n = true →
  recovery_step s (OpUpdate w n) = Val s1 → recovery_run s1 ops = Val s2 →
  former_win_vecter s2 ⊆ former_win_vecter s.
Proof.
  intros Hf Hm Hn H1 H2.
  assert (roll_back_flag s1 = true ∧ former_win_vecter s1 = former_win_vecter s) as [Hr <-].
  { split; [|by apply update_win_keeps in H1 as [? _]]. simpl in H1.
    unfold Recovery_update_win in H1. rewrite Hf in H1.
    assert (f_neqb (f64_mul (f64_of_Z n) (f64_of_Z PACKET_SIZE)) (f64_of_Z n) = true) as Hne.
    { revert Hn. apply (pnum_cases (λ n, f_neqb (f64_mul (f64_of_Z n) (f64_of_Z PACKET_SIZE)) (f64_of_Z n))).
      vm_compute. done. }
    destruct (f_gtb w _); cbv beta iota zeta in H1; cbn [max_datagram_size] in H1;
      [change (max_datagram_size (_ <| decre_win := _ |>)) with (max_datagram_size s) in H1|];
      rewrite Hm, Hne in H1; apply outcome_bind_val in H1 as ([i d] & _ & H1);
      apply outcome_bind_val in H1 as ([i' d'] & _ & H1); injection H1 as <-; done. }
  clear -Hr H2. revert s1 Hr H2. induction ops as [|op ops IH]; simpl; intros s1 Hr H2.
  { injection H2 as <-. done. }
  apply outcome_bind_val in H2 as (s' & Hs & H2).
  apply recovery_step_frozen in Hs as [Hr' Hsub]; [|done]. etrans; [by apply IH|done].
Qed.

(* ------------------------------------------------------------------ *)
(** * The theorems at concrete inputs *)

Definition demo_recovery : Recovery := Recovery_new <| incre_win := 10000 |> <| decre_win := 500 |>.

Lemma Recovery_cwnd_spec_witness : 19500 = Z.max INI_WIN (2 * 10000 - 500) ∧ fst (Recovery_cwnd demo_recovery) = 19500.
Proof.
  pose proof (Recovery_cwnd_spec demo_recovery ltac:(decide_eval) ltac:(decide_eval)) as H.
  split; [done|]. vm_compute in H. destruct H as (H & _). vm_compute. exact H.
Defined.

Lemma Recovery_rollback_spec_witness :
  let s := Recovery_new <| former_win_vecter := [10800; 21600] |> in
  let '(w, s') := Recovery_rollback s in
  congestion_window s' = w ∧ oset_wf (former_win_vecter s') ∧
  (former_win_vecter s = [] ∧ w = INI_WIN ∧ former_win_vecter s' = []
   ∨ w ∈ former_win_vecter s ∧
     (∀ x, x ∈ former_win_vecter s ↔ x = w ∨ x ∈ former_win_vecter s') ∧
     (∀ x, x ∈ former_win_vecter s' → x < w)).
Proof.
  apply (Recovery_rollback_spec (Recovery_new <| former_win_vecter := [10800; 21600] |>)).
  repeat constructor; done.
Defined.

Lemma Recovery_slow_start_witness :
  ∃ s', update_all [8; 8; 3] Recovery_new = Val s' ∧ fst (Recovery_cwnd s') = 51300.
Proof. apply (Recovery_slow_start [8; 8; 3]); [repeat constructor; done|decide_eval]. Defined.

Definition demo_after_update : Recovery :=
  match recovery_step Recovery_new (OpUpdate (S754_zero false) 8) with Val s => s | _ => Recovery_new end.

Lemma Recovery_history_frozen_witness :
  former_win_vecter (snd (Recovery_cwnd demo_after_update)) ⊆ former_win_vecter Recovery_new.
Proof.
  apply (Recovery_history_frozen Recovery_new demo_after_update (snd (Recovery_cwnd demo_after_update))
    (S754_zero false) 8 [OpCwnd]); try done; vm_compute; reflexivity.
Defined.
