(* ===== verification/ConnState.v ===== *)
(** The state of [dmludp::Connection] ([src/gloo/connection.h]) and the
    operations that only touch a few of its fields: construction, the round
    trip estimate, the flags, the packet type of the next single packet, and
    the functions that fill the per-chunk priority table. *)
From Stdlib Require Import SpecFloat.
From S2P Require Import Prelude RangeBuffer Packet RecvBuffer SendBuffer FloatOps RecoveryModel.

Definition HEADER_LENGTH : Z := 26.
Definition ELICIT_FLAG : Z := 8.
Definition CONGESTION_THREAHOLD : spec_float := f64_lit 1 100.
Definition MIN_CLIENT_INITIAL_LEN : Z := 1350.
Definition MAX_SEND_UDP_PAYLOAD_SIZE : Z := 1350.

(** [class sbuffer]: a range of application memory and what is left of it. *)
Record sbuffer := mkSbuffer { sbf_src : Z; sbf_len : Z; sbf_left : Z }.
#[export] Instance sbuffer_eta : Eta sbuffer := λ s, mkSbuffer (sbf_src s) (sbf_len s) (sbf_left s).

Definition sbuffer_new (src len : Z) : sbuffer := mkSbuffer src len len.
Definition sbuffer_sent (b : sbuffer) : Z := u64 (sbf_len b - sbf_left b).
Definition sbuffer_written (result : Z) (b : sbuffer) : sbuffer :=
  b <| sbf_left ::= λ l, u64 (l - result) |>.

(** [class Config] *)
Record Config := mkConfig { cfg_max_send_udp_payload_size : Z; cfg_max_idle_timeout : Z }.
#[export] Instance Config_eta : Eta Config :=
  λ c, mkConfig (cfg_max_send_udp_payload_size c) (cfg_max_idle_timeout c).
Definition Config_new : Config := mkConfig MAX_SEND_UDP_PAYLOAD_SIZE 5000.
Definition Config_set_max_idle_timeout (v : Z) (c : Config) : Config := c <| cfg_max_idle_timeout := v |>.

(** A stored elicit-ack body and the time it was sent. *)
Definition AckBody : Type := list Z * Z.

(** Times are nanoseconds. The socket addresses are not modelled: the
    connection only stores them. *)
Record Connection := mkConnection {
  cn_recv_count : Z;
  cn_sent_count : Z;
  cn_is_server : bool;
  cn_handshake_completed : bool;
  cn_handshake_confirmed : bool;
  cn_closed : bool;
  cn_timed_out : bool;
  cn_server : bool;
  cn_written_data : Z;
  cn_stop_flag : bool;
  cn_stop_ack : bool;
  cn_prioritydic : gmap Z Z;
  cn_sent_pkt : list Z;
  cn_record_send : list Z;
  cn_recv_dic : gmap Z Z;
  cn_send_data_buf : list Z;
  cn_norm2_vec : list Z;
  cn_record_win : Z;
  cn_total_offset : Z;
  cn_recv_flag : bool;
  cn_recv_hashmap : gmap Z Z;
  cn_feed_back : bool;
  cn_ack_point : Z;
  cn_max_off : Z;
  cn_send_num : Z;
  cn_high_priority : Z;
  cn_sent_number : Z;
  cn_sent_dic : gmap Z Z;
  cn_bidirect : bool;
  cn_recovery : Recovery;
  cn_space0 : PktNumSpace;
  cn_space1 : PktNumSpace;
  cn_rtt : Z;
  cn_handshake : Z;
  cn_ack_set : gset Z;
  cn_send_buffer : SendBuf;
  cn_rec_buffer : RecvBuf;
  cn_keyToValues : gmap Z (list Z);
  cn_valueToKeys : gmap Z Z;
  cn_timeout_ack : gmap Z AckBody;
  cn_data_buffer : list sbuffer;
  cn_current_buffer_pos : Z;
  cn_initial : bool;
  cn_waiting_flag : bool;
  cn_retransmission_ack : gmap Z AckBody;
}.

#[export] Instance Connection_eta : Eta Connection := λ c, mkConnection
  (cn_recv_count c) (cn_sent_count c) (cn_is_server c) (cn_handshake_completed c)
  (cn_handshake_confirmed c) (cn_closed c) (cn_timed_out c) (cn_server c) (cn_written_data c)
  (cn_stop_flag c) (cn_stop_ack c) (cn_prioritydic c) (cn_sent_pkt c) (cn_record_send c)
  (cn_recv_dic c) (cn_send_data_buf c) (cn_norm2_vec c) (cn_record_win c) (cn_total_offset c)
  (cn_recv_flag c) (cn_recv_hashmap c) (cn_feed_back c) (cn_ack_point c) (cn_max_off c)
  (cn_send_num c) (cn_high_priority c) (cn_sent_number c) (cn_sent_dic c) (cn_bidirect c)
  (cn_recovery c) (cn_space0 c) (cn_space1 c) (cn_rtt c) (cn_handshake c) (cn_ack_set c)
  (cn_send_buffer c) (cn_rec_buffer c) (cn_keyToValues c) (cn_valueToKeys c) (cn_timeout_ack c)
  (cn_data_buffer c) (cn_current_buffer_pos c) (cn_initial c) (cn_waiting_flag c)
  (cn_retransmission_ack c).

(** [Connection(local, peer, config, server)] at time [now]. *)
Definition Connection_new (server : bool) (now : Z) : Connection := {|
  cn_recv_count := 0; cn_sent_count := 0; cn_is_server := server;
  cn_handshake_completed := false; cn_handshake_confirmed := false;
  cn_closed := false; cn_timed_out := false; cn_server := server; cn_written_data := 0;
  cn_stop_flag := true; cn_stop_ack := true; cn_prioritydic := ∅; cn_sent_pkt := [];
  cn_record_send := []; cn_recv_dic := ∅; cn_send_data_buf := []; cn_norm2_vec := [];
  cn_record_win := 0; cn_total_offset := 0; cn_recv_flag := false; cn_recv_hashmap := ∅;
  cn_feed_back := false; cn_ack_point := 0; cn_max_off := 0; cn_send_num := 0;
  cn_high_priority := 0; cn_sent_number := 0; cn_sent_dic := ∅; cn_bidirect := true;
  cn_recovery := Recovery_new; cn_space0 := PktNumSpace_new; cn_space1 := PktNumSpace_new;
  cn_rtt := 0; cn_handshake := now; cn_ack_set := ∅; cn_send_buffer := SendBuf_new;
  cn_rec_buffer := RecvBuf_new; cn_keyToValues := ∅; cn_valueToKeys := ∅; cn_timeout_ack := ∅;
  cn_data_buffer := []; cn_current_buffer_pos := 0; cn_initial := false; cn_waiting_flag := false;
  cn_retransmission_ack := ∅ |}.

Definition Connection_connect (now : Z) : Connection := Connection_new false now.
Definition Connection_accept (now : Z) : Connection := Connection_new true now.

(* ------------------------------------------------------------------ *)
(** * Round trip time *)

(** [std::chrono] arithmetic is on [int64_t]: overflow is undefined. *)
Definition i64_arith (x : Z) : outcome Z :=
  if (- 2 ^ 63 <=? x) && (x <? 2 ^ 63) then Val x else UB.

Definition update_rtt (now : Z) (c : Connection) : outcome Connection :=
  d ← i64_arith (now - cn_handshake c);
  if cn_rtt c =? 0 then Val (c <| cn_rtt := d |>)
  else n ← i64_arith (17 * d); Val (c <| cn_rtt := Z.quot n 16 |>).

Definition set_rtt (inter : Z) (c : Connection) : Connection :=
  if cn_bidirect c then c <| cn_rtt := s64 inter |> else c.

Definition new_rtt (last : Z) (c : Connection) : outcome Connection :=
  t ← i64_arith (3 * s64 last);
  r ← i64_arith (Z.quot (cn_rtt c) 4 + Z.quot t 4);
  Val (c <| cn_rtt := r |>).

Definition set_handshake (now : Z) (c : Connection) : Connection := c <| cn_handshake := now |>.

Definition get_rtt (c : Connection) : spec_float := f64_of_Z (cn_rtt c).

Definition is_ack (now : Z) (c : Connection) : outcome bool :=
  interval ← i64_arith (now - cn_handshake c); Val (cn_rtt c <? interval).

(* ------------------------------------------------------------------ *)
(** * Flags and queries *)

Definition send_ack (c : Connection) : bool := cn_feed_back c.
Definition is_waiting (c : Connection) : bool := cn_waiting_flag c.
Definition enable_adding (c : Connection) : bool := cn_stop_flag c && cn_stop_ack c.
Definition is_stopped (c : Connection) : bool := cn_stop_flag c && cn_stop_ack c && cn_initial c.
Definition is_established (c : Connection) : bool := cn_handshake_completed c.
Definition is_closed (c : Connection) : bool := cn_closed c.
Definition is_timed_out (c : Connection) : bool := cn_timed_out c.
Definition max_send_udp_payload_size : Z := MIN_CLIENT_INITIAL_LEN.
Definition data_is_empty (c : Connection) : bool := SendBuf_is_empty (cn_send_buffer c).
Definition conn_is_empty (c : Connection) : bool :=
  match cn_send_data_buf c with [] => true | _ => false end.
Definition ack_clear (c : Connection) : bool := SendBuf_check_ack (cn_send_buffer c).
Definition data_empty (c : Connection) : bool := ack_clear c && conn_is_empty c.
Definition conn_empty (c : Connection) : bool := data_is_empty c && conn_is_empty c.
Definition conn_max_ack (c : Connection) : Z := RecvBuf_max_ack (cn_rec_buffer c).
Definition has_recv (c : Connection) : bool := RecvBuf_is_empty (cn_rec_buffer c).
Definition recv_len (c : Connection) : outcome Z := RecvBuf_first_item_len (cn_rec_buffer c).
Definition findweight (unack : Z) (c : Connection) : outcome Z :=
  from_option_exn OutOfRange (cn_prioritydic c !! unack).

(** [write_pkt_type()] *)
Definition write_pkt_type (c : Connection) : PktType * Connection :=
  if (cn_rtt c =? 0) && cn_is_server c then (Handshake, c <| cn_handshake_completed := true |>)
  else if negb (cn_handshake_confirmed c) && negb (cn_is_server c) then
    (Handshake, c <| cn_handshake_confirmed := true |>)
  else if cn_recv_flag c then (ACK, c <| cn_recv_flag := false |>)
  else if ((cn_sent_count c `mod` ELICIT_FLAG =? 0) && (0 <? cn_sent_count c)) || cn_stop_flag c then
    (ElicitAck, c <| cn_sent_count := 0 |>)
  else if negb (cn_rtt c =? 0) then (Application, c)
  else if SendBuf_is_empty (cn_send_buffer c) then (Stop, c)
  else (Unknown, c).

(* ------------------------------------------------------------------ *)
(** * Priorities *)

(** [norm2_vec[off / 1024]]: no bounds check. *)
Definition priority_calculation (off : Z) (c : Connection) : outcome Z :=
  from_option_ub (nthZ (cn_norm2_vec c) (off / 1024)).

Definition Connection_reset (c : Connection) : Connection :=
  c <| cn_norm2_vec := [] |> <| cn_send_buffer ::= SendBuf_clear |>.

(** The table size both [get_data] and [data_write] compute. *)
Definition chunks_of_1350 (n : Z) : Z := if n `mod` 1350 =? 0 then n / 1350 else n / 1350 + 1.

(** [get_data(iovecs, iovecs_len)], [iovecs_len] the number of iovecs: the
    table is sized from that number. *)
Definition get_data (iovecs : list iovec) (c : Connection) : bool * Connection :=
  match cn_data_buffer c with
  | _ :: _ => (false, c)
  | [] =>
      let c := c <| cn_data_buffer ::=
                 λ b, b ++ map (λ v, sbuffer_new (iov_base v) (iov_len v)) iovecs |> in
      let completed := negb (bool_decide (lenZ (cn_data_buffer c) ≤ 0)) in
      let c := c <| cn_norm2_vec := [] |> in
      let len := chunks_of_1350 (lenZ iovecs) in
      (completed, c <| cn_norm2_vec ::= λ v, v ++ replicate (Z.to_nat len) 3 |>)
  end.

Definition data_write (length : Z) (c : Connection) : Z * Connection :=
  let c := c <| cn_norm2_vec := [] |> in
  let len := chunks_of_1350 length in
  let c := match cn_data_buffer c with [] => c <| cn_total_offset := 0 |> | _ => c end in
  let c := c <| cn_norm2_vec ::= λ v, replicate (Z.to_nat len) 3 ++ v |> in
  (length, c <| cn_send_buffer ::= SendBuf_clear |>).

Definition transmission_complete (c : Connection) : bool * Connection :=
  let result := forallb (λ b, sbf_left b =? 0) (cn_data_buffer c) in
  let result := if negb (lenZ (sb_data (cn_send_buffer c)) =? 0)
                   || negb (Nat.eqb (size (sb_offset_recv (cn_send_buffer c))) 0)
                then false else result in
  if result then (true, c <| cn_data_buffer := [] |> <| cn_current_buffer_pos := 0 |>)
  else (false, c).

(* ------------------------------------------------------------------ *)
(** * The congestion window of a sending round *)

(** Shared by [send_mmsg] and [write]: when the send buffer is empty a new
    window is chosen from the share of high-priority losses ([0.0 / 0.0] is
    NaN and compares false), otherwise the recorded one is kept. *)
Definition next_window (c : Connection) : Z * Connection :=
  if SendBuf_is_empty (cn_send_buffer c) then
    let high_ratio := f64_div (f64_of_Z (cn_high_priority c)) (f64_of_Z (cn_sent_number c)) in
    let c := c <| cn_high_priority := 0 |> <| cn_sent_number := 0 |> in
    let '(w, r) := if f_gtb high_ratio CONGESTION_THREAHOLD
                   then Recovery_rollback (cn_recovery c) else Recovery_cwnd (cn_recovery c) in
    (w, c <| cn_recovery := r |> <| cn_record_win := w |>)
  else (cn_record_win c, c).

(** [write()]: its calls of [send_buffer.write] are commented out. *)
Definition Connection_write (c : Connection) : Z * Connection := (0, snd (next_window c)).

(** [v.erase(v.begin(), v.begin() + n)] *)
Definition erase_front {A} (n : Z) (l : list A) : outcome (list A) :=
  from_option_ub (sub l n (lenZ l - n)).

Definition send_all (now : Z) (c : Connection) : outcome (bool * Connection) :=
  let c := c <| cn_stop_flag := false |> <| cn_stop_ack := false |> <| cn_waiting_flag := false |> in
  let c := set_handshake now c in
  let go c :=
    let '(written, c) := Connection_write c in
    rest ← erase_front written (cn_send_data_buf c);
    Val (true, c <| cn_send_data_buf := rest |>
                 <| cn_written_data ::= λ n, u64 (n + written) |>
                 <| cn_total_offset ::= λ n, u64 (n + written) |>) in
  if 0 <? lenZ (cn_send_data_buf c) then go c
  else if SendBuf_is_empty (cn_send_buffer c) then Val (false, c)
  else go c.

(** [read(out, output_len)] *)
Definition Connection_read (out : list Z) (output_len : Z) (c : Connection)
    : option (outcome (Z * list Z * Connection)) :=
  r ← RecvBuf_emit out output_len (cn_rec_buffer c);
  Some ('(n, out, rb) ← r; Val (n, out, c <| cn_rec_buffer := rb |>)).
