(* ===== verification/ConnAck.v ===== *)
(** The acknowledgement exchange of [dmludp::Connection]
    ([src/gloo/connection.h]): the elicit-ack request ([send_elicit_ack]), the
    loss check of the receiver ([check_loss]), its reply ([send_data]), the
    processing of the reply ([process_ack]), and the dispatch of incoming
    packets ([recv_slice]). *)
From Stdlib Require Import SpecFloat.
From S2P Require Import Prelude RangeBuffer Packet RecvBuffer SendBuffer FloatOps RecoveryModel ConnState.

Section exchange.
(** The machine's byte order, and the order in which an [unordered_map] is
    iterated. *)
Context (be : bool).
Context (unord : ∀ A, gmap Z A → list (Z * A)).

Definition convertToUint64 (v : list Z) : outcome Z :=
  bs ← from_option_ub (sub v 0 8); Val (or_bytes be 0 bs 0).

(** [addUint64]: appends the bytes in the order opposite to the machine's. *)
Definition addUint64 (v : list Z) (input : Z) : list Z := v ++ put_u64_slice (negb be) input.

(* ------------------------------------------------------------------ *)
(** ** The receiver's side *)

(** [check_loss]: the loop stops when [start] reaches the end of the list. *)
Fixpoint check_loss_loop (fuel : nat) (b : list Z) (start : Z) : M Connection unit :=
  match fuel with
  | O => undef
  | S fuel =>
      offset ← lift (get_u64 be b start);
      let start := start + 8 in
      _ ← modify (λ c,
        let v := match cn_recv_dic c !! offset with Some _ => 0 | None => 1 end in
        c <| cn_recv_hashmap ::= λ h, match h !! offset with
                                      | Some _ => h | None => <[offset := v]> h end |>);
      if lenZ b <=? start then mret () else check_loss_loop fuel b start
  end.

(** [length b / 8 + 1] reads are enough: [check_loss_spec], and a list whose
    length is not a multiple of eight makes the last read run off its end. *)
Definition check_loss (b : list Z) : M Connection unit :=
  if lenZ b =? 0 then mret () else check_loss_loop (length b / 8 + 1) b 0.

(** The body of the reply: [put_u64(out, offset)], [put_u8(out, lost)] for
    each entry of the map. *)
Fixpoint put_acks (entries : list (Z * Z)) (off : Z) (out : list Z) : outcome (list Z) :=
  match entries with
  | [] => Val out
  | (k, v) :: entries =>
      out ← put_u64 be out k (s32 off);
      out ← put_u8 out v (s32 (off + 8));
      put_acks entries (off + 9) out
  end.

(** [send_data(out)]: returns the total length and the filled buffer. *)
Definition send_data (now : Z) (out : list Z) : M Connection (Z * list Z) :=
  ty ← (λ c, let '(ty, c) := write_pkt_type c in (Val ty, c));
  match ty with
  | Handshake =>
      srv ← gets cn_server;
      out ← lift (to_bytes be (mkHeader Handshake 0 0 0 0) out);
      _ ← (if srv : bool then modify (set_handshake now)
           else modify (λ c, c <| cn_feed_back := false |> <| cn_initial := true |>));
      _ ← modify (λ c, c <| cn_handshake := now |>);
      mret (HEADER_LENGTH, out)
  | ACK =>
      _ ← modify (λ c, c <| cn_feed_back := false |>);
      h ← gets cn_recv_hashmap;
      let psize := u64 (Z.of_nat (size h) * 9) in
      num ← gets cn_send_num;
      out ← lift (to_bytes be (mkHeader ACK num 0 0 psize) out);
      out ← lift (put_acks (unord Z h) 26 out);
      _ ← modify (λ c, c <| cn_recv_hashmap := ∅ |>);
      _ ← modify (λ c, c <| cn_handshake := now |>);
      mret (u64 (HEADER_LENGTH + psize), out)
  | Stop =>
      out ← lift (to_bytes be (mkHeader Stop 0 0 0 0) out);
      mret (HEADER_LENGTH, out)
  | _ =>
      _ ← modify (λ c, c <| cn_handshake := now |>);
      mret (HEADER_LENGTH, out)
  end.

(** [Header(ty, pn, offset, priority, psize)]: the offset and the priority,
    both zero, are passed in each other's place. *)
Definition send_data_stop (out : list Z) : M Connection (Z * list Z) :=
  pn ← (λ c, let '(pn, sp) := updatepktnum (cn_space1 c) in (Val pn, c <| cn_space1 := sp |>));
  out ← lift (to_bytes be (mkHeader Stop pn 0 0 0) out);
  mret (HEADER_LENGTH, out).

Definition send_data_handshake (out : list Z) : M Connection (Z * list Z) :=
  out ← lift (to_bytes be (mkHeader Handshake 0 0 0 0) out);
  mret (HEADER_LENGTH, out).

(* ------------------------------------------------------------------ *)
(** ** The sender's side *)

(** [for (int key : keyToValues[ini])]: the packet numbers pass through an
    [int]. *)
Definition forget_key (key : Z) (c : Connection) : Connection :=
  let key := u64 (s32 key) in
  c <| cn_retransmission_ack ::= delete key |> <| cn_valueToKeys ::= delete key |>
    <| cn_timeout_ack ::= delete key |>.

(** [weights += x]: computed in [double], stored in [float]. *)
Definition add_weight (weights x : spec_float) : spec_float :=
  f32_of_f64 (f64_add (f64_of_f32 weights) x).

(** One entry of an acknowledgement whose offset is in [sent_dic]: returns the
    new weights. *)
Definition ack_entry (unack priority : Z) (weights : spec_float) : M Connection spec_float :=
  priority ← (if negb (priority =? 0)
              then (λ c, (priority_calculation unack c, c)) else mret priority);
  weights ← (if priority =? 1 then mret (add_weight weights (f64_lit 15 100))
             else if priority =? 2 then mret (add_weight weights (f64_lit 2 10))
             else if priority =? 3 then mret (add_weight weights (f64_lit 25 100))
             else _ ← modify (λ c, c <| cn_send_buffer ::= SendBuf_ack_and_drop unack |>);
                  mret weights);
  real_priority ← (λ c, (priority_calculation unack c, c));
  _ ← (if negb (priority =? 0) && (real_priority =? 3)
       then modify (λ c, c <| cn_high_priority ::= λ n, u64 (n + 1) |>) else mret ());
  mret weights.

(** [while (start < len)]; an offset that was never sent is skipped without
    counting. *)
Fixpoint ack_loop (fuel : nat) (unackbuf : list Z) (start count : Z) (weights : spec_float)
    : M Connection unit :=
  if start <? lenZ unackbuf then
    match fuel with
    | O => undef
    | S fuel =>
        bs ← lift (from_option_ub (sub unackbuf start 8));
        unack ← lift (convertToUint64 bs);
        let start := start + 8 in
        priority ← lift (from_option_ub (nthZ unackbuf start));
        let start := start + 1 in
        sent ← gets (λ c, cn_sent_dic c !! unack);
        match sent with
        | None => ack_loop fuel unackbuf start count weights
        | Some p =>
            _ ← (if p =? 0
                 then modify (λ c, c <| cn_send_buffer ::= SendBuf_ack_and_drop unack |>)
                 else mret ());
            weights ← ack_entry unack priority weights;
            _ ← (if (count `mod` 8 =? 0) || (start =? lenZ unackbuf) then
                   let pnum := if count `mod` 8 =? 0 then 8 else count `mod` 8 in
                   r ← gets cn_recovery;
                   r ← lift (Recovery_update_win weights (f64_of_Z pnum) r);
                   modify (λ c, c <| cn_recovery := r |>)
                 else mret ());
            ack_loop fuel unackbuf start (u64 (count + 1)) weights
        end
    end
  else mret ().

(** When the acknowledged packet was sent, if it is one we wait for. *)
Definition ack_sent_time (received_ack : Z) (c : Connection) : option Z :=
  match cn_retransmission_ack c !! received_ack with
  | Some (_, t) => Some t
  | None => snd <$> cn_timeout_ack c !! received_ack
  end.

Definition process_ack (now : Z) (buf : list Z) : M Connection unit :=
  ack_header ← lift (from_option_ub (sub buf 0 26));
  hd ← lift (from_slice be ack_header);
  c ← get;
  if bool_decide (cn_ack_set c = ∅) then modify (λ c, c <| cn_stop_ack := true |>)
  else
    let received_ack := h_pkt_num hd in
    match ack_sent_time received_ack c with
    | None => mret ()
    | Some t =>
        _ ← modify (λ c, c <| cn_handshake := t |>);
        c ← get;
        c ← lift (update_rtt now c);
        _ ← put c;
        match cn_valueToKeys c !! received_ack with
        | None => mret ()
        | Some ini =>
            _ ← modify (λ c, c <| cn_ack_set ::= λ s, s ∖ {[ini]} |>);
            _ ← modify (λ c, foldl (λ c key, forget_key key c) c
                               (default [] (cn_keyToValues c !! ini)));
            _ ← modify (λ c, c <| cn_keyToValues ::= delete ini |>);
            unackbuf ← lift (from_option_ub (sub buf 26 (h_pkt_length hd)));
            _ ← lift (from_option_ub (sub unackbuf 0 8));
            _ ← ack_loop (length unackbuf) unackbuf 0 1 (S754_zero false);
            modify (λ c, if sb_pos (cn_send_buffer c) =? 0
                         then c <| cn_send_buffer ::= SendBuf_recv_and_drop |> else c)
        end
    end.

(** The search of [send_elicit_ack] for a request older than 1.2 round trips,
    reading the clock once per entry; with the request found comes the clock's
    next reading. *)
Fixpoint find_expired (clock : nat → Z) (d : Z) (l : list (Z * AckBody)) : outcome (option (Z * Z)) :=
  match l with
  | [] => Val None
  | (k, (_, t)) :: l =>
      due ← i64_arith (t + d);
      if due <? clock O then Val (Some (k, clock 1%nat)) else find_expired (λ i, clock (S i)) d l
  end.

(** [(ssize_t)e.first], tested against [-1]. *)
Definition expired_request (clock : nat → Z) (c : Connection) : outcome (option (Z * Z)) :=
  match unord _ (cn_retransmission_ack c) with
  | [] => Val None
  | l =>
      d ← f_to_size_t (f64_mul (f64_lit 12 10) (get_rtt c));
      r ← find_expired clock (s64 d) l;
      Val ('(k, t) ← r; if s64 k =? -1 then None else Some (k, t))
  end.

(** [memcpy(out.data() + 26, record_send.data() + ack_point, out.size())]:
    the source is the storage of the vector, [spare] the bytes of its
    capacity behind the last element; [out_cap] is the capacity of [out]. *)
Definition copy_offsets (record_send : list Z) (spare : list Z) (ack_point out_cap : Z) (out : list Z)
    : outcome (list Z) :=
  let storage := flat_map (put_u64_slice be) record_send ++ spare in
  src ← from_option_ub (sub storage (ack_point * 8) (lenZ out));
  if out_cap <? 26 + lenZ out then UB
  else from_option_ub (blit out 26 (take (length out - 26) src)).

(** The common part of the two branches of a fresh request: [n] offsets. *)
Definition elicit_fresh (n now : Z) (spare : list Z) (out_cap : Z) (out : list Z)
    : M Connection (Z * list Z) :=
  pn ← (λ c, let '(pn, sp) := updatepktnum (cn_space1 c) in (Val pn, c <| cn_space1 := sp |>));
  let pktlen := n * 8 in
  let out := resizeZ 0 (pktlen + 26) out in
  out ← lift (to_bytes be (mkHeader ElicitAck pn 0 0 pktlen) out);
  c ← get;
  out ← lift (copy_offsets (cn_record_send c) spare (cn_ack_point c) out_cap out);
  _ ← modify (λ c,
    c <| cn_ack_set ::= λ s, {[pn]} ∪ s |>
      <| cn_keyToValues ::= λ m, <[pn := default [] (m !! pn) ++ [pn]]> m |>
      <| cn_valueToKeys ::= <[pn := pn]> |>
      <| cn_ack_point ::= λ p, u64 (p + n) |>
      <| cn_retransmission_ack ::= <[pn := (drop 26 out, now)]> |>);
  mret (pktlen + 26, out).

(** [send_elicit_ack(out)]: [clock i] is the [i]-th reading of the clock. *)
Definition send_elicit_ack (clock : nat → Z) (spare : list Z) (out_cap : Z) (out : list Z)
    : M Connection (Z * list Z) :=
  c ← get;
  let pktnum := lenZ (cn_record_send c) in
  if bool_decide (cn_retransmission_ack c = ∅) && (cn_ack_point c =? pktnum) && cn_stop_ack c
  then mret (-1, out)
  else if negb (cn_ack_point c =? pktnum) then
    let leftnum := u64 (pktnum - cn_ack_point c) in
    if 160 <=? leftnum then elicit_fresh 160 (clock O) spare out_cap out
    else elicit_fresh leftnum (clock O) spare out_cap out
  else
    pn ← lift (expired_request clock c);
    match pn with
    | None => mret (0, out)
    | Some (pn, now) =>
        pktnum ← (λ c, let '(k, sp) := updatepktnum (cn_space1 c) in (Val k, c <| cn_space1 := sp |>));
        c ← get;
        old ← lift (from_option_exn OutOfRange (cn_retransmission_ack c !! pn));
        let wait_ack := fst old in
        let pktlen := lenZ wait_ack + 26 in
        let out := resizeZ 0 (pktlen + 26) out in
        out ← lift (to_bytes be (mkHeader ElicitAck pktnum 0 0 (lenZ wait_ack)) out);
        out ← lift (from_option_ub (blit out 26 wait_ack));
        let initial_pn := default 0 (cn_valueToKeys c !! pn) in
        _ ← modify (λ c,
          c <| cn_valueToKeys ::= λ m, match m !! pn with Some _ => m | None => <[pn := 0]> m end |>
            <| cn_keyToValues ::= λ m, <[initial_pn := default [] (m !! initial_pn) ++ [pktnum]]> m |>
            <| cn_valueToKeys ::= <[pktnum := initial_pn]> |>
            <| cn_timeout_ack ::= λ m, match m !! pn with Some _ => m | None => <[pn := old]> m end |>
            <| cn_retransmission_ack ::= delete pn |>
            <| cn_retransmission_ack ::= <[pktnum := (wait_ack, now)]> |>);
        mret (pktlen, out)
    end.

(* ------------------------------------------------------------------ *)
(** ** Dispatch *)

(** [recv_slice(buf)] *)
Definition recv_slice (now : Z) (buf : list Z) : M Connection Z :=
  _ ← modify (λ c, c <| cn_recv_count ::= λ n, u64 (n + 1) |>);
  hdr ← lift (from_bytes be buf);
  srv ← gets cn_is_server;
  match h_ty hdr with
  | Handshake =>
      if (srv : bool) then
        c ← get;
        c ← lift (update_rtt now c);
        _ ← put (c <| cn_handshake_completed := true |> <| cn_initial := true |>);
        mret 0
      else
        _ ← modify (λ c, c <| cn_handshake_confirmed := false |> <| cn_feed_back := true |>);
        mret 0
  | ACK =>
      _ ← process_ack now buf;
      _ ← modify (λ c, if bool_decide (cn_ack_set c = ∅) then c <| cn_stop_ack := true |> else c);
      mret 0
  | ElicitAck =>
      _ ← modify (λ c, c <| cn_recv_flag := true |>);
      subbuf ← lift (from_option_ub (sub buf 1 8));
      num ← lift (convertToUint64 subbuf);
      _ ← modify (λ c, c <| cn_send_num := num |>);
      checkbuf ← lift (from_option_ub (sub buf 26 (lenZ buf - 26)));
      _ ← check_loss checkbuf;
      _ ← modify (λ c, c <| cn_feed_back := true |>);
      mret 0
  | Application =>
      _ ← modify (λ c, c <| cn_recv_count ::= λ n, u64 (n + 1) |>);
      writebuf ← lift (from_option_ub (sub buf 26 (h_pkt_length hdr)));
      _ ← modify (λ c,
        c <| cn_rec_buffer ::= RecvBuf_write writebuf (h_offset hdr) |>
          <| cn_recv_dic ::= λ d, match d !! h_offset hdr with
                                  | Some _ => d | None => <[h_offset hdr := h_priority hdr]> d end |>);
      mret (h_pkt_length hdr)
  | Stop => _ ← modify (λ c, c <| cn_stop_flag := false |>); mret 0
  | _ => mret 0
  end.

End exchange.
