(* ===== verification/AckExchange.v ===== *)
(** Correctness of the acknowledgement exchange of [ConnAck]: what each of its
    four steps does to a well-formed packet, and their composition: one round
    of elicit-ack, reply and processing drops from the sender's buffer exactly
    the offsets the receiver has. *)
From Stdlib Require Import SpecFloat.
From S2P Require Import Prelude RangeBuffer Packet RecvBuffer SendBuffer FloatOps RecoveryModel ConnState ConnAck.

(** The body of an elicit-ack packet: the offsets, eight bytes each. *)
Definition offs_bytes (be : bool) (offs : list Z) : list Z := flat_map (put_u64_slice be) offs.

(** The body of a reply: offset and loss mark, nine bytes each. *)
Definition ack_body (be : bool) (entries : list (Z * Z)) : list Z :=
  flat_map (λ '(k, v), put_u64_slice be k ++ [u8 v]) entries.

Lemma offs_bytes_len be offs : lenZ (offs_bytes be offs) = 8 * lenZ offs.
Proof.
  induction offs as [|o offs IH]; [done|]. unfold offs_bytes in *. cbn [flat_map].
  rewrite lenZ_app, put_u64_slice_len, lenZ_cons, IH. lia.
Qed.

Lemma ack_body_len be entries : lenZ (ack_body be entries) = 9 * lenZ entries.
Proof.
  induction entries as [|[k v] entries IH]; [done|]. unfold ack_body in *. cbn [flat_map].
  rewrite !lenZ_app, put_u64_slice_len, (lenZ_cons (k, v)), IH. change (lenZ [u8 v]) with 1. lia.
Qed.

Lemma offs_bytes_ok be offs : bytes_ok (offs_bytes be offs).
Proof.
  unfold bytes_ok. induction offs; [constructor|]. unfold offs_bytes in *. cbn [flat_map].
  apply Forall_app. split; [apply put_u64_slice_ok|done].
Qed.

Lemma ack_body_ok be entries : bytes_ok (ack_body be entries).
Proof.
  unfold bytes_ok. induction entries as [|[k v] ? ?]; [constructor|]. unfold ack_body in *. cbn [flat_map].
  rewrite !Forall_app. split_and!; [apply put_u64_slice_ok|apply u8_ok|done].
Qed.

(* ------------------------------------------------------------------ *)
(** * The receiver *)

(** The mark [check_loss] gives an offset: 0 received, 1 not. *)
Definition loss_mark (dic : gmap Z Z) (o : Z) : Z := match dic !! o with Some _ => 0 | None => 1 end.

Definition mark_loss (dic h : gmap Z Z) (o : Z) : gmap Z Z :=
  match h !! o with Some _ => h | None => <[o := loss_mark dic o]> h end.

Lemma mark_loss_lookup dic offs h o :
  foldl (mark_loss dic) h offs !! o =
  match h !! o with
  | Some v => Some v
  | None => if decide (o ∈ offs) then Some (loss_mark dic o) else None
  end.
Proof.
  revert h. induction offs as [|p offs IH]; intros h.
  { cbn [foldl]. by destruct (h !! o). }
  cbn [foldl]. rewrite IH. unfold mark_loss.
  destruct (decide (p = o)) as [->|Hne].
  - destruct (h !! o) eqn:Ho; [by rewrite Ho|]. rewrite lookup_insert_eq.
    by rewrite decide_True by set_solver.
  - assert ((match h !! p with Some _ => h | None => <[p := loss_mark dic p]> h end) !! o = h !! o) as ->
      by (destruct (h !! p); [done|by rewrite lookup_insert_ne]).
    destruct (h !! o); [done|]. repeat case_decide; set_solver.
Qed.

Lemma check_loss_loop_spec be fuel pre offs (c : Connection) :
  offs ≠ [] → Forall is_u64 offs → bytes_ok pre → (length offs ≤ fuel)%nat →
  check_loss_loop be fuel (pre ++ offs_bytes be offs) (lenZ pre) c =
  (Val (), c <| cn_recv_hashmap := foldl (mark_loss (cn_recv_dic c)) (cn_recv_hashmap c) offs |>).
Proof.
  revert pre offs c. induction fuel as [|fuel IH]; intros pre offs c Hne Hu Hok Hf.
  { destruct offs; [done|]. simpl in Hf. lia. }
  destruct offs as [|o offs]; [done|]. apply Forall_cons in Hu as [Ho Hu].
  cbn [check_loss_loop]. unfold mbind, M_bind, lift at 1.
  rewrite (get_u64_slice be _ pre o (offs_bytes be offs)); [|done| |done]; last first.
  { apply Forall_app. split; [done|apply offs_bytes_ok]. }
  cbv beta iota delta [modify].
  rewrite lenZ_app, offs_bytes_len, lenZ_cons.
  destruct offs as [|o' offs].
  - rewrite (lenZ_nil (A:=Z)). rewrite (proj2 (Z.leb_le _ _)) by lia. done.
  - rewrite lenZ_cons. pose proof (lenZ_nonneg offs). rewrite (proj2 (Z.leb_gt _ _)) by lia.
    replace (pre ++ offs_bytes be (o :: o' :: offs))
      with ((pre ++ put_u64_slice be o) ++ offs_bytes be (o' :: offs)) by (by rewrite <-app_assoc).
    replace (lenZ pre + 8) with (lenZ (pre ++ put_u64_slice be o)) by (by rewrite lenZ_app).
    rewrite IH; [done|done|done| |simpl in *; lia].
    apply Forall_app. split; [done|apply put_u64_slice_ok].
Qed.

(** [check_loss] on a list of offsets marks each new one. *)
Lemma check_loss_spec be offs (c : Connection) :
  offs ≠ [] → Forall is_u64 offs →
  check_loss be (offs_bytes be offs) c =
  (Val (), c <| cn_recv_hashmap := foldl (mark_loss (cn_recv_dic c)) (cn_recv_hashmap c) offs |>).
Proof.
  intros Hne Hu. unfold check_loss. rewrite offs_bytes_len.
  destruct offs as [|o offs]; [done|]. rewrite lenZ_cons. pose proof (lenZ_nonneg offs).
  rewrite (proj2 (Z.eqb_neq _ 0)) by lia.
  apply (check_loss_loop_spec be _ [] (o :: offs)); [done|done|constructor|].
  pose proof (offs_bytes_len be (o :: offs)) as Hl. unfold lenZ in Hl.
  replace (length (offs_bytes be (o :: offs))) with (8 * length (o :: offs))%nat by lia.
  rewrite Nat.mul_comm, Nat.div_mul by done. lia.
Qed.

(** The reply's entries land one after the other. *)
Lemma put_acks_spec be entries pre rest :
  9 * lenZ entries ≤ lenZ rest → lenZ pre + lenZ rest < 2 ^ 31 →
  put_acks be entries (lenZ pre) (pre ++ rest) =
  Val (pre ++ ack_body be entries ++ drop (length (ack_body be entries)) rest).
Proof.
  revert pre rest. induction entries as [|[k v] entries IH]; intros pre rest Hl Hb.
  { simpl. by rewrite drop_0. }
  rewrite lenZ_cons in Hl. pose proof (lenZ_nonneg entries). pose proof (lenZ_nonneg pre).
  assert (∃ m1 x m2, rest = m1 ++ [x] ++ m2 ∧ lenZ m1 = 8) as (m1 & x & m2 & -> & Hm1).
  { unfold lenZ in *. do 9 (destruct rest as [|? rest]; [exfalso; simpl in *; lia|]).
    by eexists [_; _; _; _; _; _; _; _], _, rest. }
  rewrite !lenZ_app in *. change (lenZ [x]) with 1 in *.
  cbn [put_acks]. rewrite !swrap_small by (pose proof (lenZ_nonneg m2); lia).
  unfold put_u64. rewrite (blit_app pre m1 ([x] ++ m2) (put_u64_slice be k)) by done.
  cbn [from_option_ub mbind outcome_bind]. unfold put_u8.
  replace (lenZ pre + 8) with (lenZ (pre ++ put_u64_slice be k)) by (by rewrite lenZ_app).
  rewrite (app_assoc pre (put_u64_slice be k)), (blit_app _ [x] m2 [u8 v]) by done.
  cbn [from_option_exn mbind outcome_bind].
  replace (lenZ pre + 9) with (lenZ ((pre ++ put_u64_slice be k) ++ [u8 v]))
    by (rewrite !lenZ_app, put_u64_slice_len; change (lenZ [u8 v]) with 1; lia).
  rewrite (app_assoc _ [u8 v] m2), IH.
  - f_equal. unfold ack_body. cbn [flat_map]. rewrite <-!app_assoc. do 4 f_equal.
    rewrite !length_app, app_assoc. change (length [u8 v]) with 1%nat.
    replace (length (put_u64_slice be k) + (1 + _))%nat
      with (length (m1 ++ [x]) + length (flat_map (λ '(k0, v0), put_u64_slice be k0 ++ [u8 v0]) entries))%nat.
    + rewrite <-drop_drop, drop_app_length. done.
    + rewrite length_app. unfold lenZ in Hm1. simpl. lia.
  - lia.
  - rewrite !lenZ_app, put_u64_slice_len. change (lenZ [u8 v]) with 1. lia.
Qed.

(* ------------------------------------------------------------------ *)
(** * The sender *)

(** The weight of [k] lost packets of priority 3: [k] quarters, exactly. *)
Definition lost_weight (k : Z) : spec_float := f32_norm k (-2) false.

(** A reply has at most this many entries ([send_elicit_ack] asks about at
    most 160 offsets). *)
Definition max_entries : Z := 160.

Definition range_upto (n : Z) : list Z := seqZ 0 (n + 1).

Lemma range_upto_forall (P : Z → bool) n k :
  forallb P (range_upto n) = true → 0 ≤ k ≤ n → P k = true.
Proof.
  intros HP Hk. apply (proj1 (List.forallb_forall P _) HP).
  apply list_elem_of_In. unfold range_upto. apply elem_of_seqZ. lia.
Qed.

Lemma add_weight_quarter k :
  0 ≤ k ≤ max_entries → add_weight (lost_weight k) (f64_lit 25 100) = lost_weight (k + 1).
Proof.
  intros Hk.
  assert (forallb (λ k, bool_decide
    (add_weight (lost_weight k) (f64_lit 25 100) = lost_weight (k + 1))) (range_upto max_entries) = true)
    as H by (vm_compute; done).
  apply (range_upto_forall _ _ k H) in Hk. by apply bool_decide_eq_true in Hk.
Qed.

Definition is_val {A} (o : outcome A) : bool := match o with Val _ => true | _ => false end.

(** [add_win] converts the increment to [size_t] with a defined result. *)
Definition add_win_defined (x : spec_float) : bool :=
  if f_gtb x (S754_zero false) then is_val (f_to_size_t x) else is_val (f_to_size_t (SFopp x)).

Lemma add_win_val x inc dec : add_win_defined x = true → ∃ p, add_win x inc dec = Val p.
Proof.
  unfold add_win_defined, add_win. case_match; destruct (f_to_size_t _); simpl; try done; eauto.
Qed.

Definition update_defined (k n : Z) : bool :=
  add_win_defined (win_curve (lost_weight k) PACKET_SIZE) &&
  add_win_defined (f32_of_f64 (win_curve (lost_weight k) PACKET_SIZE)) &&
  add_win_defined (f64_mul (f64_of_Z n) (f64_of_Z PACKET_SIZE)).

Lemma update_defined_all k n :
  0 ≤ k ≤ max_entries → pnum_ok n = true → update_defined k n = true.
Proof.
  intros Hk Hn. assert (forallb (λ k, forallb (update_defined k) (range_upto 8)) (range_upto max_entries) = true)
    as H by (vm_compute; done).
  apply (range_upto_forall _ _ k H) in Hk. apply (range_upto_forall _ _ n Hk).
  unfold pnum_ok in Hn. lia.
Qed.

(** Every reply a sender can get keeps [update_win] within its domain. *)
Lemma update_win_defined k n r :
  0 ≤ k ≤ max_entries → pnum_ok n = true → max_datagram_size r = PACKET_SIZE →
  ∃ r', Recovery_update_win (lost_weight k) (f64_of_Z n) r = Val r' ∧ max_datagram_size r' = PACKET_SIZE.
Proof.
  intros Hk Hn Hm. pose proof (update_defined_all k n Hk Hn) as H.
  unfold update_defined in H. rewrite !andb_true_iff in H. destruct H as [[H1 H2] H3].
  assert (∀ a b s, add_win_defined a = true → add_win_defined b = true → max_datagram_size s = PACKET_SIZE →
    ∃ r', (let s := if f_neqb a (f64_of_Z n) then s <| roll_back_flag := true |> else s in
      '(inc, dec) ← add_win a (incre_win s) (decre_win s);
      let s := s <| incre_win := inc |> <| decre_win := dec |> in
      '(inc, dec) ← add_win b (incre_win_copy s) (decre_win_copy s);
      Val (s <| incre_win_copy := inc |> <| decre_win_copy := dec |>)) = Val r' ∧
      max_datagram_size r' = PACKET_SIZE) as Hgo.
  { intros a b s Ha Hb Hs. cbv zeta. set (s1 := if f_neqb _ _ then _ else _).
    assert (max_datagram_size s1 = PACKET_SIZE) as Hs1 by (unfold s1; by case_match). clearbody s1.
    destruct (add_win_val a (incre_win s1) (decre_win s1) Ha) as [[i d] ->]. cbn [mbind outcome_bind].
    destruct (add_win_val b (incre_win_copy (s1 <| incre_win := i |> <| decre_win := d |>))
      (decre_win_copy (s1 <| incre_win := i |> <| decre_win := d |>)) Hb) as [[i' d'] ->].
    eexists. split; [reflexivity|]. exact Hs1. }
  unfold Recovery_update_win. rewrite Hm. destruct (function_change r).
  - apply Hgo; done.
  - destruct (f_gtb (lost_weight k) _); cbv zeta.
    + change (max_datagram_size (r <| function_change := true |> <| incre_win := _ |> <| decre_win := _ |>))
        with (max_datagram_size r). rewrite Hm. by apply Hgo.
    + rewrite Hm. by apply Hgo.
Qed.

Lemma ack_and_drop_idemp o s :
  SendBuf_ack_and_drop o (SendBuf_ack_and_drop o s) = SendBuf_ack_and_drop o s.
Proof.
  unfold SendBuf_ack_and_drop. destruct (sb_offset_recv s !! o) eqn:Ho; [|by rewrite Ho].
  cbn. rewrite lookup_insert_eq. unfold set_field. simpl. by rewrite insert_insert_eq.
Qed.

Definition ack_all (offs : list Z) (s : SendBuf) : SendBuf :=
  foldl (λ s o, SendBuf_ack_and_drop o s) s offs.

(** The offsets of a reply that [process_ack] drops: sent ones reported
    received, or retransmitted as often as their priority allows. *)
Definition drops (sent : gmap Z Z) (e : Z * Z) : bool :=
  match sent !! e.1 with
  | Some p => (p =? 0) || (e.2 =? 0)
  | None => false
  end.

Definition dropped (sent : gmap Z Z) (entries : list (Z * Z)) : list Z :=
  fst <$> filter (λ e, drops sent e = true) entries.

(** The reported offsets that were sent are in the priority table, with
    priority 3. *)
Definition priority3 (c : Connection) (entries : list (Z * Z)) : Prop :=
  Forall (λ e, is_Some (cn_sent_dic c !! e.1) →
               nthZ (cn_norm2_vec c) (e.1 / 1024) = Some 3) entries.

(** [c'] is [c] but for the send buffer and congestion control. *)
Definition ack_result (c c' : Connection) (sb : SendBuf) : Prop :=
  ∃ r n, c' = c <| cn_send_buffer := sb |> <| cn_recovery := r |> <| cn_high_priority := n |> ∧
    max_datagram_size r = PACKET_SIZE.

Lemma ack_entry_spec unack v k c p :
  nthZ (cn_norm2_vec c) (unack / 1024) = Some 3 → 0 ≤ k ≤ max_entries →
  cn_sent_dic c !! unack = Some p → max_datagram_size (cn_recovery c) = PACKET_SIZE →
  ∃ k' c', (_ ← (if p =? 0
                 then modify (λ c, c <| cn_send_buffer ::= SendBuf_ack_and_drop unack |>)
                 else mret ());
            ack_entry unack v (lost_weight k)) c = (Val (lost_weight k'), c') ∧ k ≤ k' ≤ k + 1 ∧
    ack_result c c' (ack_all (dropped (cn_sent_dic c) [(unack, v)]) (cn_send_buffer c)) ∧
    cn_recovery c' = cn_recovery c.
Proof.
  intros Hn Hk Hp Hm.
  assert (∀ sb n, priority_calculation unack (c <| cn_send_buffer := sb |> <| cn_high_priority := n |>) = Val 3)
    as Hpc by (intros; unfold priority_calculation; cbn; by rewrite Hn).
  assert (dropped (cn_sent_dic c) [(unack, v)] = if (p =? 0) || (v =? 0) then [unack] else []) as ->.
  { unfold dropped. rewrite filter_cons, filter_nil. unfold drops. simpl. rewrite Hp.
    destruct ((p =? 0) || (v =? 0)); [by rewrite decide_True|by rewrite decide_False]. }
  set (b0 := p =? 0) in *. clearbody b0.
  set (c1 := if b0 then c <| cn_send_buffer ::= SendBuf_ack_and_drop unack |> else c).
  assert ((_ ← (if b0
                 then modify (λ c, c <| cn_send_buffer ::= SendBuf_ack_and_drop unack |>)
                 else mret ());
            ack_entry unack v (lost_weight k)) c = ack_entry unack v (lost_weight k) c1) as ->
    by (unfold c1; by destruct b0).
  assert (priority_calculation unack c1 = Val 3) as Hpc1
    by (unfold c1, priority_calculation; destruct b0; cbn; by rewrite Hn).
  unfold ack_entry, mbind, M_bind.
  destruct (v =? 0) eqn:Hv; cbn [negb]; cbv beta iota.
  - apply Z.eqb_eq in Hv as ->. rewrite orb_true_r.
    cbv beta iota delta [Z.eqb Pos.eqb mret M_ret modify negb andb].
    change (priority_calculation unack (c1 <| cn_send_buffer ::= SendBuf_ack_and_drop unack |>))
      with (priority_calculation unack c1). rewrite Hpc1. cbv beta iota.
    exists k. eexists. split; [reflexivity|]. split; [lia|]. split; [|by unfold c1; destruct b0].
    eexists (cn_recovery c), (cn_high_priority c). split; [|done]. unfold c1, ack_all. cbn [foldl].
    destruct b0; [|done]. unfold set_field. simpl. by rewrite ack_and_drop_idemp.
  - rewrite Hpc1. cbv beta iota.
    cbv beta iota delta [Z.eqb Pos.eqb mret M_ret negb]. rewrite add_weight_quarter by done. rewrite Hpc1.
    cbv beta iota delta [Z.eqb Pos.eqb negb andb modify].
    exists (k + 1). eexists. split; [reflexivity|]. split; [lia|]. split; [|by unfold c1; destruct b0].
    eexists (cn_recovery c), (u64 (cn_high_priority c + 1)). split; [|done].
    unfold c1. rewrite orb_false_r. by destruct b0.
Qed.

Lemma ack_result_refl c :
  max_datagram_size (cn_recovery c) = PACKET_SIZE → ack_result c c (cn_send_buffer c).
Proof. exists (cn_recovery c), (cn_high_priority c). split; [by destruct c|done]. Qed.

Lemma ack_result_trans c c1 c2 sb1 sb2 :
  ack_result c c1 sb1 → ack_result c1 c2 sb2 → ack_result c c2 sb2.
Proof. intros (r1 & n1 & -> & _) (r2 & n2 & -> & ?). by exists r2, n2. Qed.

Lemma convert_slice be v : is_u64 v → convertToUint64 be (put_u64_slice be v) = Val v.
Proof.
  intros Hv. pose proof (get_u64_slice be (put_u64_slice be v) [] v [] Hv) as H.
  apply H; [apply put_u64_slice_ok|by rewrite app_nil_r].
Qed.

Lemma dropped_app sent l1 l2 : dropped sent (l1 ++ l2) = dropped sent l1 ++ dropped sent l2.
Proof. unfold dropped. by rewrite filter_app, fmap_app. Qed.

Lemma ack_loop_spec be fuel pre entries count k c :
  Forall (λ e, is_u64 e.1 ∧ is_u8 e.2) entries → priority3 c entries →
  max_datagram_size (cn_recovery c) = PACKET_SIZE → (length entries ≤ fuel)%nat →
  0 ≤ k < count → count + lenZ entries ≤ max_entries + 1 →
  ∃ c', ack_loop be fuel (pre ++ ack_body be entries) (lenZ pre) count (lost_weight k) c = (Val (), c') ∧
    ack_result c c' (ack_all (dropped (cn_sent_dic c) entries) (cn_send_buffer c)).
Proof.
  unfold max_entries. revert fuel pre count k c.
  induction entries as [|[o v] entries IH]; intros fuel pre count k c Hu Hpr Hm Hf Hk Hcount.
  { exists c. unfold ack_body. cbn [flat_map]. rewrite app_nil_r.
    assert (ack_loop be fuel pre (lenZ pre) count (lost_weight k) c = (Val (), c)) as ->
      by (destruct fuel; cbn [ack_loop]; by rewrite Z.ltb_irrefl).
    split; [done|]. by apply ack_result_refl. }
  apply Forall_cons in Hu as [[Ho Hv] Hu]. apply Forall_cons in Hpr as [Hp Hpr]. simpl in Ho, Hv, Hp.
  destruct fuel as [|fuel]; [simpl in Hf; lia|]. rewrite lenZ_cons in Hcount.
  pose proof (lenZ_nonneg entries). set (buf := pre ++ ack_body be ((o, v) :: entries)).
  assert (buf = pre ++ put_u64_slice be o ++ ([u8 v] ++ ack_body be entries)) as Hbuf.
  { unfold buf, ack_body. cbn [flat_map]. by rewrite <-!app_assoc. }
  assert (lenZ buf = lenZ pre + 9 + 9 * lenZ entries) as Hlen.
  { unfold buf. rewrite lenZ_app, ack_body_len, lenZ_cons. lia. }
  assert (buf = ((pre ++ put_u64_slice be o) ++ [u8 v]) ++ ack_body be entries) as Hbuf'
    by (by rewrite Hbuf, <-!app_assoc).
  assert (lenZ ((pre ++ put_u64_slice be o) ++ [u8 v]) = lenZ pre + 8 + 1) as Hpre'
    by (by rewrite !lenZ_app).
  cbn [ack_loop]. rewrite (proj2 (Z.ltb_lt _ _)) by lia.
  erewrite M_bind_val; last first.
  { apply lift_val. rewrite Hbuf. by rewrite (sub_app pre (put_u64_slice be o)). }
  erewrite M_bind_val by (apply lift_val, convert_slice, Ho). cbv zeta.
  erewrite M_bind_val; last first.
  { apply lift_val. rewrite Hbuf, app_assoc. unfold nthZ. pose proof (lenZ_nonneg pre).
    rewrite bool_decide_true by lia. rewrite lookup_app_r; unfold lenZ; rewrite length_app;
      change (length (put_u64_slice be o)) with 8%nat; [|lia].
    replace (_ - _)%nat with O by lia. simpl. by rewrite (wrap_small 8 v). }
  erewrite M_bind_val by reflexivity.
  destruct (cn_sent_dic c !! o) as [p|] eqn:Hsent.
  - destruct (ack_entry_spec o v k c p) as (k' & c1 & Heq & Hk' & Hres & Hrec); [by apply Hp; eauto|unfold max_entries; lia|done|done|].
    rewrite M_bind_assoc. erewrite M_bind_val by exact Heq. clear Heq.
    assert (∃ c2, (if (count `mod` 8 =? 0) || (lenZ pre + 8 + 1 =? lenZ buf)
      then let pnum := if count `mod` 8 =? 0 then 8 else count `mod` 8 in
           r ← gets cn_recovery;
           r ← lift (Recovery_update_win (lost_weight k') (f64_of_Z pnum) r);
           modify (λ c, c <| cn_recovery := r |>) else mret ()) c1 = (Val (), c2) ∧
      ack_result c1 c2 (cn_send_buffer c1)) as (c2 & Hup & Hres2).
    { destruct (_ || _); last first.
      - exists c1. split; [done|]. apply ack_result_refl. by rewrite Hrec.
      - cbv zeta. set (pnum := if count `mod` 8 =? 0 then 8 else count `mod` 8).
        destruct (update_win_defined k' pnum (cn_recovery c1)) as (r & Hr & Hmr).
        + unfold max_entries; lia.
        + unfold pnum, pnum_ok. destruct (Z.eqb_spec (count `mod` 8) 0); [done|].
          pose proof (Z.mod_pos_bound count 8 ltac:(done)). lia.
        + by rewrite Hrec.
        + erewrite M_bind_val by reflexivity. erewrite M_bind_val by (apply lift_val, Hr).
          eexists. split; [reflexivity|]. by exists r, (cn_high_priority c1). }
    erewrite M_bind_val by exact Hup. clear Hup.
    pose proof (ack_result_trans _ _ _ _ _ Hres Hres2) as Hres3.
    destruct Hres as (r1 & n1 & -> & _). destruct Hres2 as (r2 & n2 & -> & Hr2).
    rewrite wrap_small by (unfold in_range; lia). rewrite Hbuf', <-Hpre'.
    lazymatch goal with |- context [ack_loop _ _ _ _ _ _ ?c2] =>
      destruct (IH fuel ((pre ++ put_u64_slice be o) ++ [u8 v]) (count + 1) k' c2) as (c' & Heq & Hres') end;
      [done|exact Hpr|exact Hr2|simpl in Hf; lia|lia|lia|].
    exists c'. split; [exact Heq|]. eapply ack_result_trans; [exact Hres3|].
    change ((o, v) :: entries) with ([(o, v)] ++ entries). rewrite dropped_app. unfold ack_all.
    rewrite foldl_app. exact Hres'.
  - rewrite Hbuf', <-Hpre'.
    destruct (IH fuel ((pre ++ put_u64_slice be o) ++ [u8 v]) count k c) as (c' & Heq & Hres');
      [done|done|done|simpl in Hf; lia|lia|lia|].
    exists c'. split; [exact Heq|].
    change ((o, v) :: entries) with ([(o, v)] ++ entries). rewrite dropped_app.
    assert (dropped (cn_sent_dic c) [(o, v)] = []) as ->; [|done].
    unfold dropped. rewrite filter_cons, filter_nil. unfold drops. simpl. rewrite Hsent. done.
Qed.

(* ------------------------------------------------------------------ *)
(** * The four steps on well-formed packets *)

(** The request for [offs], numbered [pn], and the reply to it. *)
Definition elicit_packet (be : bool) (pn : Z) (offs : list Z) : list Z :=
  header_bytes be (mkHeader ElicitAck pn 0 0 (lenZ offs * 8)) ++ offs_bytes be offs.
Definition ack_packet (be : bool) (pn : Z) (entries : list (Z * Z)) : list Z :=
  header_bytes be (mkHeader ACK pn 0 0 (lenZ entries * 9)) ++ ack_body be entries.

(** The sender after requesting [offs] with packet number [pn] at [now]. *)
Definition after_elicit (be : bool) (pn now : Z) (offs : list Z) (c : Connection) : Connection :=
  c <| cn_space1 := mkPktNumSpace (pn + 1) |>
    <| cn_ack_set ::= λ s, {[pn]} ∪ s |>
    <| cn_keyToValues ::= λ m, <[pn := default [] (m !! pn) ++ [pn]]> m |>
    <| cn_valueToKeys ::= <[pn := pn]> |>
    <| cn_ack_point ::= λ p, u64 (p + lenZ offs) |>
    <| cn_retransmission_ack ::= <[pn := (offs_bytes be offs, now)]> |>.

Lemma copy_offsets_spec be pre offs spare ack_point out_cap hdr body :
  ack_point = lenZ pre → lenZ hdr = 26 → lenZ body = lenZ (offs_bytes be offs) →
  26 ≤ lenZ spare → 26 + lenZ (hdr ++ body) ≤ out_cap →
  copy_offsets be (pre ++ offs) spare ack_point out_cap (hdr ++ body) = Val (hdr ++ offs_bytes be offs).
Proof.
  intros -> Hh Hb Hs Hc. unfold copy_offsets.
  rewrite flat_map_app. fold (offs_bytes be pre) (offs_bytes be offs).
  assert (∃ s1 s2, spare = s1 ++ s2 ∧ lenZ s1 = 26) as (s1 & s2 & -> & Hs1).
  { exists (take 26 spare), (drop 26 spare). rewrite take_drop. split; [done|].
    unfold lenZ in *. rewrite length_take. lia. }
  replace (lenZ pre * 8) with (lenZ (offs_bytes be pre)) by (rewrite offs_bytes_len; lia).
  replace (lenZ (hdr ++ body)) with (lenZ (offs_bytes be offs ++ s1)) by (rewrite !lenZ_app; lia).
  rewrite <-!app_assoc, (app_assoc (offs_bytes be offs) s1), sub_app.
  cbn [from_option_ub mbind outcome_bind].
  rewrite lenZ_app in Hc. rewrite (proj2 (Z.ltb_ge _ _)) by (rewrite lenZ_app; lia).
  replace (length (hdr ++ body) - 26)%nat with (length (offs_bytes be offs))
    by (unfold lenZ in *; rewrite length_app; lia).
  rewrite take_app_length. replace 26 with (lenZ hdr).
  rewrite <-(app_nil_r body), (blit_app hdr body []) by done. by rewrite app_nil_r.
Qed.

Lemma elicit_fresh_spec be c pre offs now spare out_cap out :
  cn_record_send c = pre ++ offs → cn_ack_point c = lenZ pre → 0 ≤ next_pkt_num (cn_space1 c) < 2 ^ 31 →
  26 ≤ lenZ spare → 52 + lenZ offs * 8 ≤ out_cap →
  let pn := next_pkt_num (cn_space1 c) in
  elicit_fresh be (lenZ offs) now spare out_cap out c =
  (Val (lenZ offs * 8 + 26, elicit_packet be pn offs), after_elicit be pn now offs c).
Proof.
  intros Hrec Hap Hpn Hs Hcap pn. unfold elicit_fresh.
  erewrite M_bind_val; last first.
  { unfold updatepktnum. rewrite (wrap_small 64 (_ + 1)) by (unfold in_range; lia).
    rewrite wrap_small by (unfold in_range; lia). rewrite Z.add_simpl_r. reflexivity. }
  fold pn. cbv zeta. pose proof (lenZ_nonneg offs).
  erewrite M_bind_val; last first.
  { apply lift_val, to_bytes_app. unfold resizeZ, lenZ in *. rewrite length_resize. lia. }
  erewrite M_bind_val by reflexivity.
  erewrite M_bind_val; last first.
  { apply lift_val. change (cn_record_send (c <| cn_space1 := _ |>)) with (cn_record_send c).
    change (cn_ack_point (c <| cn_space1 := _ |>)) with (cn_ack_point c). rewrite Hrec.
    assert (lenZ (drop 26 (resizeZ 0 (lenZ offs * 8 + 26) out)) = lenZ offs * 8) as Hd.
    { unfold resizeZ, lenZ in *. rewrite length_drop, length_resize. lia. }
    apply copy_offsets_spec; [done|by rewrite header_bytes_len| |done|].
    - rewrite Hd, offs_bytes_len. lia.
    - rewrite lenZ_app, header_bytes_len, Hd. lia. }
  erewrite M_bind_val by reflexivity. reflexivity.
Qed.

(** The whole call: everything sent since the last request, when it fits one
    request, is asked about. *)
Lemma send_elicit_ack_spec be unord c pre offs clock spare out_cap out :
  cn_record_send c = pre ++ offs → cn_ack_point c = lenZ pre → 0 ≤ next_pkt_num (cn_space1 c) < 2 ^ 31 →
  0 < lenZ offs ≤ 160 → 26 ≤ lenZ spare → 52 + lenZ offs * 8 ≤ out_cap →
  let pn := next_pkt_num (cn_space1 c) in
  send_elicit_ack be unord clock spare out_cap out c =
  (Val (lenZ offs * 8 + 26, elicit_packet be pn offs), after_elicit be pn (clock O) offs c).
Proof.
  intros Hrec Hap Hpn Ho Hs Hcap pn. unfold send_elicit_ack. erewrite M_bind_val by reflexivity.
  rewrite Hrec, lenZ_app, Hap. pose proof (lenZ_nonneg pre).
  rewrite (proj2 (Z.eqb_neq (lenZ pre) _)) by lia. rewrite andb_false_r. cbn [andb negb].
  replace (lenZ pre + lenZ offs - lenZ pre) with (lenZ offs) by lia.
  rewrite wrap_small by (unfold in_range; lia).
  assert ((if 160 <=? lenZ offs then elicit_fresh be 160 (clock O) spare out_cap out
           else elicit_fresh be (lenZ offs) (clock O) spare out_cap out) =
          elicit_fresh be (lenZ offs) (clock O) spare out_cap out) as ->.
  { destruct (Z.leb_spec 160 (lenZ offs)); [|done]. by replace (lenZ offs) with 160 by lia. }
  by apply elicit_fresh_spec with (pre := pre).
Qed.

(** The receiver after the request. *)
Definition after_request (pn : Z) (offs : list Z) (c : Connection) : Connection :=
  c <| cn_recv_count ::= λ n, u64 (n + 1) |> <| cn_recv_flag := true |> <| cn_send_num := pn |>
    <| cn_recv_hashmap := foldl (mark_loss (cn_recv_dic c)) (cn_recv_hashmap c) offs |>
    <| cn_feed_back := true |>.

Lemma recv_slice_elicit be now pn offs c :
  is_u64 pn → offs ≠ [] → Forall is_u64 offs → lenZ offs ≤ 160 →
  recv_slice be now (elicit_packet be pn offs) c = (Val 0, after_request pn offs c).
Proof.
  intros Hpn Hne Hu Hl. pose proof (lenZ_nonneg offs). unfold recv_slice.
  erewrite M_bind_val by reflexivity. set (h := mkHeader ElicitAck pn 0 0 (lenZ offs * 8)).
  assert (Header_ok h) as Hh by (unfold Header_ok, in_range; simpl; unfold in_range in *; lia).
  erewrite M_bind_val by (apply lift_val, (from_bytes_header be h); done).
  erewrite M_bind_val by reflexivity. cbn [h_ty h].
  erewrite M_bind_val by reflexivity.
  unfold elicit_packet. fold h.
  erewrite M_bind_val; last first.
  { apply lift_val. unfold header_bytes. rewrite <-!app_assoc.
    change 1 with (lenZ [u8 (byte_of_type (h_ty h))]). 
    change 8 with (lenZ (put_u64_slice be (h_pkt_num h))). by rewrite sub_app. }
  erewrite M_bind_val by (apply lift_val; by apply convert_slice).
  erewrite M_bind_val by reflexivity.
  erewrite M_bind_val; last first.
  { apply lift_val. rewrite lenZ_app, header_bytes_len.
    replace (26 + lenZ (offs_bytes be offs) - 26) with (lenZ (offs_bytes be offs)) by lia.
    rewrite <-(app_nil_r (offs_bytes be offs)) at 1. change 26 with (lenZ (header_bytes be h)).
    by rewrite sub_app. }
  erewrite M_bind_val by (by apply check_loss_spec).
  erewrite M_bind_val by reflexivity. reflexivity.
Qed.

(** The receiver's next single packet is the reply. *)
Definition will_reply (c : Connection) : Prop :=
  (cn_rtt c ≠ 0 ∨ cn_is_server c = false) ∧ (cn_handshake_confirmed c = true ∨ cn_is_server c = true).

Definition after_reply (now : Z) (c : Connection) : Connection :=
  c <| cn_recv_flag := false |> <| cn_feed_back := false |> <| cn_recv_hashmap := ∅ |>
    <| cn_handshake := now |>.

Lemma write_pkt_type_ack c :
  will_reply c → cn_recv_flag c = true → write_pkt_type c = (ACK, c <| cn_recv_flag := false |>).
Proof.
  intros [H1 H2] Hf. unfold write_pkt_type. rewrite Hf.
  destruct (Z.eqb_spec (cn_rtt c) 0); destruct (cn_is_server c), (cn_handshake_confirmed c); naive_solver.
Qed.

Lemma send_data_ack be (unord : ∀ A, gmap Z A → list (Z * A)) now out c :
  unord Z (cn_recv_hashmap c) ≡ₚ map_to_list (cn_recv_hashmap c) →
  will_reply c → cn_recv_flag c = true → is_u64 (cn_send_num c) →
  (size (cn_recv_hashmap c) ≤ 160)%nat → 26 + Z.of_nat (size (cn_recv_hashmap c)) * 9 ≤ lenZ out < 2 ^ 31 →
  ∃ rest, lenZ (ack_packet be (cn_send_num c) (unord Z (cn_recv_hashmap c)) ++ rest) = lenZ out ∧
    send_data be unord now out c =
    (Val (26 + Z.of_nat (size (cn_recv_hashmap c)) * 9,
          ack_packet be (cn_send_num c) (unord Z (cn_recv_hashmap c)) ++ rest),
     after_reply now c).
Proof.
  intros Hperm Hw Hf Hn Hsz Hout. set (n := size (cn_recv_hashmap c)) in *.
  assert (length (unord Z (cn_recv_hashmap c)) = n) as Hlen
    by (rewrite Hperm; apply length_map_to_list).
  unfold send_data. erewrite M_bind_val by (cbv beta; rewrite write_pkt_type_ack by done; reflexivity).
  cbv beta iota.
  erewrite M_bind_val by reflexivity. erewrite M_bind_val by reflexivity.
  change (cn_recv_hashmap (_ <| cn_feed_back := false |>)) with (cn_recv_hashmap c). fold n.
  rewrite (wrap_small 64 (Z.of_nat n * 9)) by (unfold in_range; lia).
  erewrite M_bind_val by reflexivity.
  change (cn_send_num (_ <| cn_feed_back := false |>)) with (cn_send_num c).
  erewrite M_bind_val by (apply lift_val, to_bytes_app; lia).
  assert (lenZ (drop 26 out) = lenZ out - 26) as Hd by (unfold lenZ in *; rewrite length_drop; lia).
  erewrite M_bind_val; last first.
  { apply lift_val. 
    apply (put_acks_spec be (unord Z (cn_recv_hashmap c)) (header_bytes be (mkHeader ACK (cn_send_num c) 0 0 (Z.of_nat n * 9)))).
    - rewrite Hd. unfold lenZ at 1. rewrite Hlen. lia.
    - rewrite Hd, header_bytes_len. lia. }
  erewrite M_bind_val by reflexivity. erewrite M_bind_val by reflexivity.
  rewrite (wrap_small 64) by (unfold in_range, HEADER_LENGTH; lia).
  set (l := unord Z (cn_recv_hashmap c)) in *.
  assert (lenZ l = Z.of_nat n) as Hll by (unfold lenZ; by rewrite Hlen).
  eexists (drop (length (ack_body be l)) (drop 26 out)). unfold ack_packet. rewrite <-app_assoc, Hll. split; [|reflexivity].
  assert (lenZ (drop (length (ack_body be l)) (drop 26 out)) = lenZ out - 26 - lenZ (ack_body be l)) as Hr.
  { pose proof (ack_body_len be l) as Hb. unfold lenZ in *. rewrite !length_drop. lia. }
  rewrite !lenZ_app, header_bytes_len, Hr. lia.
Qed.

(** What the sender's buffer becomes. *)
Definition drop_acked (offs : list Z) (s : SendBuf) : SendBuf :=
  if sb_pos s =? 0 then SendBuf_recv_and_drop (ack_all offs s) else ack_all offs s.

Lemma update_rtt_some now c :
  0 ≤ now - cn_handshake c < 2 ^ 58 → ∃ r, update_rtt now c = Val (c <| cn_rtt := r |>).
Proof.
  intros H. unfold update_rtt, i64_arith.
  rewrite (proj2 (Z.leb_le _ _)), (proj2 (Z.ltb_lt _ _)) by lia. cbn [andb mbind outcome_bind].
  destruct (cn_rtt c =? 0); [eauto|].
  rewrite (proj2 (Z.leb_le _ _)), (proj2 (Z.ltb_lt _ _)) by lia. cbn [andb mbind outcome_bind]. eauto.
Qed.

(** What processing the reply to request [pn] leaves alone, but for forgetting
    the request. *)
Record ack_kept (pn : Z) (c c' : Connection) : Prop := {
  ak_data : cn_data_buffer c' = cn_data_buffer c ∧ cn_current_buffer_pos c' = cn_current_buffer_pos c;
  ak_record : cn_record_send c' = cn_record_send c ∧ cn_ack_point c' = cn_ack_point c;
  ak_spaces : cn_space0 c' = cn_space0 c ∧ cn_space1 c' = cn_space1 c;
  ak_keys : cn_keyToValues c' = delete pn (cn_keyToValues c);
}.

Lemma process_ack_spec be now pn t body entries c :
  0 ≤ pn < 2 ^ 31 → cn_retransmission_ack c !! pn = Some (body, t) → cn_valueToKeys c !! pn = Some pn →
  cn_keyToValues c !! pn = Some [pn] → pn ∈ cn_ack_set c → 0 ≤ now - t < 2 ^ 58 →
  entries ≠ [] → lenZ entries ≤ max_entries → Forall (λ e, is_u64 e.1 ∧ is_u8 e.2) entries →
  priority3 c entries → max_datagram_size (cn_recovery c) = PACKET_SIZE →
  ∃ c', process_ack be now (ack_packet be pn entries) c = (Val (), c') ∧
    cn_send_buffer c' = drop_acked (dropped (cn_sent_dic c) entries) (cn_send_buffer c) ∧
    cn_ack_set c' = cn_ack_set c ∖ {[pn]} ∧ cn_stop_ack c' = cn_stop_ack c ∧
    cn_retransmission_ack c' = delete pn (cn_retransmission_ack c) ∧
    max_datagram_size (cn_recovery c') = PACKET_SIZE ∧ ack_kept pn c c'.
Proof.
  intros Hpn Hret Hval Hkey Hin Ht Hne Hlen Hu Hpr Hm. unfold max_entries in Hlen.
  pose proof (lenZ_nonneg entries). unfold process_ack, ack_packet.
  set (h := mkHeader ACK pn 0 0 (lenZ entries * 9)).
  assert (Header_ok h) as Hh by (unfold Header_ok, in_range; simpl; lia).
  erewrite M_bind_val; last first.
  { apply lift_val. change 26 with (lenZ (header_bytes be h)). 
    change (header_bytes be h ++ ack_body be entries) with ([] ++ header_bytes be h ++ ack_body be entries).
    change 0 with (lenZ (@nil Z)). by rewrite sub_app. }
  erewrite M_bind_val by (apply lift_val, from_slice_header; done).
  erewrite M_bind_val by reflexivity.
  rewrite bool_decide_eq_false_2 by set_solver. cbv zeta. cbn [h_pkt_num h].
  unfold ack_sent_time. rewrite Hret. cbv beta iota.
  erewrite M_bind_val by reflexivity. erewrite M_bind_val by reflexivity.
  destruct (update_rtt_some now (c <| cn_handshake := t |>)) as [r Hr]; [done|].
  erewrite M_bind_val by (by apply lift_val). erewrite M_bind_val by reflexivity.
  change (cn_valueToKeys (c <| cn_handshake := t |> <| cn_rtt := r |>)) with (cn_valueToKeys c).
  rewrite Hval. cbv beta iota.
  erewrite M_bind_val by reflexivity.
  erewrite M_bind_val; last first.
  { unfold modify. cbv beta. change (cn_keyToValues (_ <| cn_ack_set ::= _ |>)) with (cn_keyToValues c).
    rewrite Hkey. change (default [] (Some [pn])) with [pn]. cbn [foldl]. unfold forget_key.
    rewrite (swrap_small 32 pn), (wrap_small 64 pn) by (unfold in_range; lia). reflexivity. }
  erewrite M_bind_val by reflexivity.
  assert (lenZ (ack_body be entries) = lenZ entries * 9) as Hbl by (rewrite ack_body_len; lia).
  erewrite M_bind_val; last first.
  { apply lift_val. cbn [h_pkt_length h]. rewrite <-Hbl, <-(app_nil_r (ack_body be entries)) at 1.
    rewrite app_nil_r. 
    pose proof (sub_app (header_bytes be h) (ack_body be entries) []) as Hs. rewrite app_nil_r in Hs.
    change (lenZ (header_bytes be h)) with 26 in Hs. rewrite Hs. reflexivity. }
  assert (∃ bs, sub (ack_body be entries) 0 8 = Some bs) as [bs Hbs].
  { apply sub_some; [done..|]. destruct entries; [done|]. rewrite lenZ_cons in *.
    pose proof (lenZ_nonneg entries). lia. }
  erewrite M_bind_val by (apply lift_val; rewrite Hbs; reflexivity).
  lazymatch goal with |- context [(ack_loop _ _ _ _ _ _ ≫= _) ?c2] =>
    destruct (ack_loop_spec be (length (ack_body be entries)) [] entries 1 0 c2) as (c' & Heq & Hres) end.
  { done. } { exact Hpr. } { exact Hm. }
  { unfold lenZ in Hbl. lia. } { lia. } { unfold max_entries. lia. }
  change (lost_weight 0) with (S754_zero false) in Heq. change (lenZ (@nil Z)) with 0 in Heq.
  cbn [app] in Heq.
  erewrite M_bind_val by exact Heq. clear Heq.
  destruct Hres as (r' & n' & -> & Hr').
  eexists. split; [reflexivity|].
  match goal with |- context [sb_pos (cn_send_buffer ?b)] =>
    change (cn_send_buffer b) with (ack_all (dropped (cn_sent_dic c) entries) (cn_send_buffer c)) end.
  destruct (ack_and_drop_all_data (dropped (cn_sent_dic c) entries) (cn_send_buffer c)) as (_ & Hpos & _).
  unfold drop_acked. fold (ack_all (dropped (cn_sent_dic c) entries) (cn_send_buffer c)) in Hpos.
  rewrite Hpos. destruct (sb_pos (cn_send_buffer c) =? 0); by split_and!.
Qed.

Lemma recv_slice_ack be now pn t body entries c :
  0 ≤ pn < 2 ^ 31 → cn_retransmission_ack c !! pn = Some (body, t) → cn_valueToKeys c !! pn = Some pn →
  cn_keyToValues c !! pn = Some [pn] → pn ∈ cn_ack_set c → 0 ≤ now - t < 2 ^ 58 →
  entries ≠ [] → lenZ entries ≤ max_entries → Forall (λ e, is_u64 e.1 ∧ is_u8 e.2) entries →
  priority3 c entries → max_datagram_size (cn_recovery c) = PACKET_SIZE →
  ∃ c', recv_slice be now (ack_packet be pn entries) c = (Val 0, c') ∧
    cn_send_buffer c' = drop_acked (dropped (cn_sent_dic c) entries) (cn_send_buffer c) ∧
    cn_ack_set c' = cn_ack_set c ∖ {[pn]} ∧
    cn_stop_ack c' = (if bool_decide (cn_ack_set c ∖ {[pn]} = ∅) then true else cn_stop_ack c) ∧
    cn_retransmission_ack c' = delete pn (cn_retransmission_ack c) ∧
    max_datagram_size (cn_recovery c') = PACKET_SIZE ∧ ack_kept pn c c'.
Proof.
  intros Hpn Hret Hval Hkey Hin Ht Hne Hlen Hu Hpr Hm. pose proof (lenZ_nonneg entries).
  unfold recv_slice. erewrite M_bind_val by reflexivity. unfold max_entries in *.
  set (h := mkHeader ACK pn 0 0 (lenZ entries * 9)).
  assert (Header_ok h) as Hh by (unfold Header_ok, in_range; simpl; lia).
  erewrite M_bind_val by (apply lift_val, (from_bytes_header be h); done).
  erewrite M_bind_val by reflexivity. cbn [h_ty h].
  destruct (process_ack_spec be now pn t body entries (c <| cn_recv_count ::= λ n, u64 (n + 1) |>))
    as (c' & Heq & Hsb & Has & Hsa & Hra & Hmd & [Hk1 Hk2 Hk3 Hk4]); try done.
  erewrite M_bind_val by exact Heq. erewrite M_bind_val by reflexivity.
  eexists. split; [reflexivity|]. 
  change (cn_ack_set (c <| cn_recv_count ::= _ |>)) with (cn_ack_set c) in Has. rewrite Has.
  destruct (bool_decide _); by split_and!.
Qed.

Definition ack_entries_ok (entries : list (Z * Z)) : Prop := Forall (λ e, is_u64 e.1 ∧ is_u8 e.2) entries.

(** The entries of the loss map of [offs], in whatever order. *)
Lemma mark_loss_entries dic offs l :
  l ≡ₚ map_to_list (foldl (mark_loss dic) ∅ offs) →
  ∀ k v, (k, v) ∈ l ↔ k ∈ offs ∧ v = loss_mark dic k.
Proof.
  intros Hl k v. rewrite Hl, elem_of_map_to_list, mark_loss_lookup, lookup_empty.
  case_decide; naive_solver.
Qed.

Lemma mark_loss_size dic offs h :
  (size (foldl (mark_loss dic) h offs) ≤ size h + length offs)%nat.
Proof.
  revert h. induction offs as [|o offs IH]; intros h; simpl; [lia|].
  etrans; [apply IH|]. unfold mark_loss. destruct (h !! o) eqn:Ho; [lia|].
  rewrite map_size_insert_None by done. lia.
Qed.

(** A sender about to ask about [offs], everything sent since its last
    request; its request number is fresh. *)
Record sender_ready (c : Connection) (offs : list Z) : Prop := {
  sr_record : ∃ pre, cn_record_send c = pre ++ offs ∧ cn_ack_point c = lenZ pre;
  sr_some : 0 < lenZ offs ≤ max_entries;
  sr_u64 : Forall is_u64 offs;
  sr_num : 0 ≤ next_pkt_num (cn_space1 c) < 2 ^ 31;
  sr_fresh : cn_keyToValues c !! next_pkt_num (cn_space1 c) = None;
  sr_new : next_pkt_num (cn_space1 c) ∉ cn_ack_set c;
  sr_prio : Forall (λ o, nthZ (cn_norm2_vec c) (o / 1024) = Some 3) offs;
  sr_size : max_datagram_size (cn_recovery c) = PACKET_SIZE;
  sr_buf : SendBuf_wf (cn_send_buffer c);
  sr_pos : sb_pos (cn_send_buffer c) = 0;
  sr_unacked : ∀ o b, sb_offset_recv (cn_send_buffer c) !! o = Some b → b = true;
}.

(** The offsets one exchange drops: asked about, sent, and received by the
    peer or out of retransmissions. *)
Definition exchange_drops (A B : Connection) (offs : list Z) (o : Z) : Prop :=
  o ∈ offs ∧ ((is_Some (cn_sent_dic A !! o) ∧ is_Some (cn_recv_dic B !! o)) ∨ cn_sent_dic A !! o = Some 0).

Lemma dropped_exchange A B offs l :
  l ≡ₚ map_to_list (foldl (mark_loss (cn_recv_dic B)) ∅ offs) →
  ∀ o, o ∈ dropped (cn_sent_dic A) l ↔ exchange_drops A B offs o.
Proof.
  intros Hl o. unfold dropped, exchange_drops. rewrite list_elem_of_fmap.
  setoid_rewrite list_elem_of_filter. split.
  - intros ([k v] & -> & Hd & Hin). apply (mark_loss_entries _ _ _ Hl) in Hin as [Hk ->].
    simpl. split; [done|]. unfold drops, loss_mark in Hd. simpl in Hd.
    destruct (cn_sent_dic A !! k) as [p|]; [|done].
    destruct (p =? 0) eqn:Hp0; [apply Z.eqb_eq in Hp0; right; by rewrite Hp0|]. left. split; [eauto|]. simpl in Hd.
    destruct (cn_recv_dic B !! k); [eauto|done].
  - intros [Ho Hd]. exists (o, loss_mark (cn_recv_dic B) o). split; [done|]. split.
    + unfold drops, loss_mark. simpl. destruct Hd as [[[p ->] [x ->]]| ->]; [by rewrite orb_true_r|done].
    + by apply (mark_loss_entries _ _ _ Hl).
Qed.

(** C1: one acknowledgement exchange. A sender asks about the offsets it sent
    since the last request, the receiver replies, the sender processes the
    reply; each packet reaches the peer as it was written. Then an item leaves
    the send buffer if and only if it was asked about and either the receiver
    has it or it is out of retransmissions: items asked about and lost stay, as
    do those not asked about, in their order. The new request does not stay
    outstanding, older ones do, and the sender may stop waiting if there is
    none.
    Conditions: the offsets are at most 160, in the range of the priority table;
    the copy of the offsets goes 26 bytes too far, so the vectors it reads and
    writes have that much more capacity; the reply fits the receiver's buffer,
    and the receiver is in the state to write one. *)
Theorem ack_exchange (be : bool) (unord : ∀ A, gmap Z A → list (Z * A)) (A B : Connection)
    (offs spare outA outB : list Z) (out_cap : Z) (clock : nat → Z) (tB1 tB2 tA : Z) :
  (∀ m, unord Z m ≡ₚ map_to_list m) →
  sender_ready A offs → 26 ≤ lenZ spare → 52 + lenZ offs * 8 ≤ out_cap → 0 ≤ tA - clock O < 2 ^ 58 →
  will_reply B → cn_recv_hashmap B = ∅ → 26 + lenZ offs * 9 ≤ lenZ outB < 2 ^ 31 →
  ∃ n1 n2 pktA pktB A1 B1 B2 A2,
    send_elicit_ack be unord clock spare out_cap outA A = (Val (n1, pktA), A1) ∧
    recv_slice be tB1 (take (Z.to_nat n1) pktA) B = (Val 0, B1) ∧
    send_data be unord tB2 outB B1 = (Val (n2, pktB), B2) ∧
    recv_slice be tA (take (Z.to_nat n2) pktB) A1 = (Val 0, A2) ∧
    SendBuf_wf (cn_send_buffer A2) ∧
    (∀ x, x ∈ sb_data (cn_send_buffer A2) ↔
          x ∈ sb_data (cn_send_buffer A) ∧ ¬ exchange_drops A B offs (si_off x)) ∧
    sublist (sb_data (cn_send_buffer A2)) (sb_data (cn_send_buffer A)) ∧
    cn_ack_set A2 = cn_ack_set A ∧
    cn_stop_ack A2 = (if bool_decide (cn_ack_set A = ∅) then true else cn_stop_ack A).
Proof.
  intros Hperm HA Hspare Hcap Ht HB Hempty Hout.
  destruct HA as [(pre & Hrec & Hap) Hsome Hu Hnum Hfresh Hnew Hprio Hmds Hwf Hpos Hun].
  unfold max_entries in Hsome. set (pn := next_pkt_num (cn_space1 A)) in *.
  assert (offs ≠ []) as Hne by (intros ->; rewrite (lenZ_nil (A:=Z)) in Hsome; lia).
  pose proof (send_elicit_ack_spec be unord A pre offs clock spare out_cap outA Hrec Hap Hnum Hsome
    Hspare Hcap) as H1. fold pn in H1. cbv zeta in H1.
  assert (is_u64 pn) as Hpn by (unfold in_range; lia).
  pose proof (recv_slice_elicit be tB1 pn offs B Hpn Hne Hu ltac:(lia)) as H2.
  set (B1 := after_request pn offs B) in *.
  assert (cn_recv_hashmap B1 = foldl (mark_loss (cn_recv_dic B)) ∅ offs) as Hmap
    by (unfold B1, after_request; cbn; by rewrite Hempty).
  pose proof (mark_loss_size (cn_recv_dic B) offs ∅) as Hsize. rewrite <-Hmap, map_size_empty in Hsize.
  assert (Z.of_nat (size (cn_recv_hashmap B1)) ≤ lenZ offs) by (unfold lenZ; lia).
  set (l := unord Z (cn_recv_hashmap B1)).
  assert (l ≡ₚ map_to_list (foldl (mark_loss (cn_recv_dic B)) ∅ offs)) as Hl
    by (rewrite <-Hmap; apply Hperm).
  assert (lenZ l = Z.of_nat (size (cn_recv_hashmap B1))) as Hll
    by (unfold lenZ, l; by rewrite Hperm, length_map_to_list).
  destruct (send_data_ack be unord tB2 outB B1) as (rest & _ & H3); [apply Hperm|exact HB|done|done|lia|lia|].
  change (cn_send_num B1) with pn in H3. fold l in H3.
  assert (l ≠ []) as Hlne.
  { intros Hnil. destruct offs as [|o offs]; [done|].
    pose proof (proj2 (mark_loss_entries _ _ _ Hl o _) (conj (list_elem_of_here _ _) eq_refl)) as Hin.
    rewrite Hnil in Hin. by apply elem_of_nil in Hin. }
  set (A1 := after_elicit be pn (clock O) offs A) in *.
  destruct (recv_slice_ack be tA pn (clock O) (offs_bytes be offs) l A1) as (A2 & H4 & Hsb & Has & Hsa & _);
    try done.
  { apply lookup_insert_eq. } { apply lookup_insert_eq. }
  { unfold A1, after_elicit. cbn. rewrite lookup_insert_eq. by rewrite Hfresh. }
  { unfold A1, after_elicit. cbn. set_solver. }
  { unfold max_entries. lia. }
  { apply Forall_forall. intros [k v] [Hk ->]%(mark_loss_entries _ _ _ Hl).
    rewrite Forall_forall in Hu. split; [by apply Hu|]. unfold loss_mark. simpl. by case_match. }
  { apply Forall_forall. intros [k v] [Hk ->]%(mark_loss_entries _ _ _ Hl) _.
    rewrite Forall_forall in Hprio. by apply Hprio. }
  pose proof (dropped_exchange A B offs l Hl) as Hdrop.
  change (cn_sent_dic A1) with (cn_sent_dic A) in Hsb.
  change (cn_send_buffer A1) with (cn_send_buffer A) in Hsb.
  unfold drop_acked in Hsb. rewrite Hpos in Hsb. cbv beta iota delta [Z.eqb] in Hsb.
  destruct (SendBuf_ack_drop_lemma (cn_send_buffer A) (dropped (cn_sent_dic A) l) Hwf Hpos Hun)
    as (Hwf2 & Hdata & _).
  fold (ack_all (dropped (cn_sent_dic A) l) (cn_send_buffer A)) in Hwf2, Hdata.
  rewrite <-Hsb in Hwf2, Hdata.
  exists (lenZ offs * 8 + 26), (26 + Z.of_nat (size (cn_recv_hashmap B1)) * 9).
  do 2 eexists. exists A1, B1. do 2 eexists.
  split; [exact H1|]. split.
  { rewrite take_ge; [exact H2|]. apply Nat2Z.inj_le. rewrite Z2Nat.id by lia.
    change (Z.of_nat (length ?x)) with (lenZ x). unfold elicit_packet.
    rewrite lenZ_app, header_bytes_len, offs_bytes_len. lia. }
  split; [exact H3|]. split.
  { rewrite take_app_length'; [exact H4|]. apply Nat2Z.inj. rewrite Z2Nat.id by lia.
    change (Z.of_nat (length ?x)) with (lenZ x). unfold ack_packet.
    rewrite lenZ_app, header_bytes_len, ack_body_len. lia. }
  assert (cn_ack_set A1 ∖ {[pn]} = cn_ack_set A) as Hset by (unfold A1, after_elicit; cbn; set_solver).
  rewrite Hset in Has, Hsa.
  split_and!; [done| | |done|done].
  - intros x. rewrite Hdata, list_elem_of_filter, Hdrop. naive_solver.
  - rewrite Hdata. apply sublist_filter.
Qed.

(** [send_elicit_ack] copies [out.size()] bytes, 26 more than the offsets
    it asks about take: unless the allocation behind [record_send] extends at
    least 26 bytes past the last offset, and that of the output at least 26
    past its end, the call reads or writes outside them. *)
Theorem elicit_ack_overrun (be : bool) (unord : ∀ A, gmap Z A → list (Z * A)) (c : Connection)
    (pre offs spare out : list Z) (out_cap : Z) (clock : nat → Z) :
  cn_record_send c = pre ++ offs → cn_ack_point c = lenZ pre → 0 < lenZ offs ≤ max_entries →
  lenZ spare < 26 ∨ out_cap < 52 + lenZ offs * 8 →
  ∃ c', send_elicit_ack be unord clock spare out_cap out c = (UB, c').
Proof.
  unfold max_entries. intros Hrec Hap Ho Hbad. unfold send_elicit_ack. erewrite M_bind_val by reflexivity.
  rewrite Hrec, lenZ_app, Hap. pose proof (lenZ_nonneg pre).
  rewrite (proj2 (Z.eqb_neq (lenZ pre) _)) by lia. rewrite andb_false_r. cbn [andb negb].
  replace (lenZ pre + lenZ offs - lenZ pre) with (lenZ offs) by lia.
  rewrite wrap_small by (unfold in_range; lia).
  assert ((if 160 <=? lenZ offs then elicit_fresh be 160 (clock O) spare out_cap out
           else elicit_fresh be (lenZ offs) (clock O) spare out_cap out) =
          elicit_fresh be (lenZ offs) (clock O) spare out_cap out) as ->.
  { destruct (Z.leb_spec 160 (lenZ offs)); [|done]. by replace (lenZ offs) with 160 by lia. }
  unfold elicit_fresh. destruct (updatepktnum (cn_space1 c)) as [pn sp] eqn:Hpn.
  erewrite M_bind_val by (cbv beta; rewrite Hpn; reflexivity). cbv zeta.
  erewrite M_bind_val by (apply lift_val, to_bytes_app; rewrite lenZ_resizeZ; lia).
  erewrite M_bind_val by reflexivity.
  assert (∀ o, lenZ o = lenZ offs * 8 + 26 →
    copy_offsets be (pre ++ offs) spare (lenZ pre) out_cap o = UB) as Hub.
  { intros o Hlo. unfold copy_offsets. rewrite flat_map_app.
    fold (offs_bytes be pre) (offs_bytes be offs). rewrite Hlo.
    destruct (sub _ _ _) as [src|] eqn:Hs; [|done]. cbn [from_option_ub mbind outcome_bind].
    apply sub_spec in Hs as (a & d & Heq & Ha & Hsrc).
    apply (f_equal lenZ) in Heq. rewrite !lenZ_app, !offs_bytes_len in Heq. pose proof (lenZ_nonneg d).
    rewrite (proj2 (Z.ltb_lt _ _)) by lia. done. }
  change (cn_record_send (c <| cn_space1 := sp |>)) with (cn_record_send c).
  change (cn_ack_point (c <| cn_space1 := sp |>)) with (cn_ack_point c). rewrite Hrec, Hap.
  rewrite Hub; [cbn; eauto|]. rewrite lenZ_app, header_bytes_len.
  unfold lenZ, resizeZ. rewrite length_drop, length_resize. lia.
Qed.

(* ------------------------------------------------------------------ *)
(** * The theorems at concrete inputs *)

Definition demo_sender : Connection :=
  Connection_new false 0 <| cn_record_send := [0; 100] |> <| cn_norm2_vec := [3] |>
    <| cn_sent_dic := {[0 := 3; 100 := 3]} |> <| cn_send_buffer := demo_buf |>.
Definition demo_receiver : Connection :=
  Connection_new true 0 <| cn_rtt := 5000 |> <| cn_recv_dic := {[0 := 3]} |>.
Definition demo_order (A : Type) (m : gmap Z A) : list (Z * A) := map_to_list m.

Lemma demo_sender_ready : sender_ready demo_sender [0; 100].
Proof.
  split; try done.
  - exists []. done.
  - repeat constructor; done.
  - repeat constructor; done.
  - apply demo_buf_wf.
  - apply demo_all_unacked.
Qed.

Lemma ack_exchange_witness :
  ∃ A2 : Connection, SendBuf_wf (cn_send_buffer A2) ∧
    (∀ x, x ∈ sb_data (cn_send_buffer A2) ↔
          x ∈ sb_data demo_buf ∧ ¬ exchange_drops demo_sender demo_receiver [0; 100] (si_off x)).
Proof.
  destruct (ack_exchange false demo_order demo_sender demo_receiver [0; 100] (replicate 26 0) [] (replicate 1500 0)
    1500 (λ _, 0) 10 20 30) as (n1 & n2 & pktA & pktB & A1 & B1 & B2 & A2 & _ & _ & _ & _ & Hwf & Hx & _);
    try done.
  - apply demo_sender_ready.
  - split; [by left|by right].
  - exists A2. split; [exact Hwf|exact Hx].
Defined.

Lemma elicit_ack_overrun_witness :
  ∃ c', send_elicit_ack false demo_order (λ _, 0) [] 1500 [] demo_sender = (UB, c').
Proof.
  apply (elicit_ack_overrun false demo_order demo_sender [] [0; 100] [] [] 1500 (λ _, 0)); try done. by left.
Defined.
