(* ===== verification/ConnSend.v ===== *)
(** Sending data: [dmludp::Connection::nwrite] and [send_mmsg]
    ([src/gloo/connection.h]). [send_mmsg] fills the send buffer from the
    application's buffers and turns the buffer's items into a scatter list:
    one header, one data range and, when packets are merged, one padding range
    per item. The heap holds the [Header] objects the list points to. *)
From Stdlib Require Import SpecFloat.
From S2P Require Import Prelude RangeBuffer Packet RecvBuffer SendBuffer FloatOps RecoveryModel ConnState.

(** [nwrite(send_data, congestion_window)] with [send_data] the entry of
    [data_buffer] at [i]: its [left] is updated through the reference. *)
Definition nwrite (i cw : Z) (c : Connection) : outcome (Z * Connection) :=
  b ← from_option_exn OutOfRange (nthZ (cn_data_buffer c) i);
  let off_len := if SendBuf_is_empty (cn_send_buffer c)
                 then 1350 - sbuffer_sent b `mod` 1350 else 0 in
  let '(r, left', sb) := SendBuf_write (sbf_src b) (sbuffer_sent b) (sbf_left b) cw off_len
                          (cn_send_buffer c) in
  Val (r, c <| cn_send_buffer := sb |>
            <| cn_data_buffer ::= <[Z.to_nat i := b <| sbf_left := left' |>]> |>).

(** The loop over the application's buffers. [inl r]: the early
    [return wlen]; [inr n]: the loop ended with [written_len = n]; [None]: it
    is still running after [fuel] iterations. *)
Fixpoint fill_loop (fuel : nat) (cw written_len : Z) (c : Connection)
    : option (outcome (Z + Z) * Connection) :=
  match fuel with
  | O => None
  | S fuel =>
      match nwrite (cn_current_buffer_pos c) cw c with
      | Exn e => Some (Exn e, c)
      | UB => Some (UB, c)
      | Val (wlen, c) =>
          if (written_len =? 0) && (wlen <=? 0) then Some (Val (inl wlen), c)
          else
            let written_len := written_len + wlen in
            match nthZ (cn_data_buffer c) (cn_current_buffer_pos c) with
            | None => Some (UB, c)
            | Some b =>
                if (sbf_left b =? 0) && (cn_current_buffer_pos c =? u64 (lenZ (cn_data_buffer c) - 1))
                then Some (Val (inr written_len), c)
                else
                  let c := if sbuffer_sent b =? sbf_len b
                           then c <| cn_current_buffer_pos ::= λ p, u64 (p + 1) |> else c in
                  if cw <=? u64 written_len then Some (Val (inr written_len), c)
                  else fill_loop fuel cw written_len c
            end
      end
  end.

(** The part of [struct mmsghdr] that is set: the first element of its
    scatter list, as an index in [iovecs], and the list's length. *)
Record mmsghdr := mkMmsg { msg_iov : option Z; msg_iovlen : Z }.
#[export] Instance mmsghdr_eq_dec : EqDecision mmsghdr.
Proof. solve_decision. Defined.

(** The connection, the caller's two vectors, and the heap of headers. *)
Record SendCtx := mkSendCtx {
  sc_conn : Connection;
  sc_iovecs : list iovec;
  sc_messages : list mmsghdr;
  sc_heap : gmap Z Header;
}.
#[export] Instance SendCtx_eta : Eta SendCtx :=
  λ s, mkSendCtx (sc_conn s) (sc_iovecs s) (sc_messages s) (sc_heap s).

Definition iov0 : iovec := mkIovec 0 0.
Definition mmsg0 : mmsghdr := mkMmsg None 0.

(** [iovecs[i] = v], [messages[i] = m]: no bounds check. *)
Definition set_iov (i : Z) (v : iovec) : M SendCtx unit := λ s,
  match nthZ (sc_iovecs s) i with
  | Some _ => (Val (), s <| sc_iovecs ::= <[Z.to_nat i := v]> |>)
  | None => (UB, s)
  end.
Definition set_msg (i : Z) (m : mmsghdr) : M SendCtx unit := λ s,
  match nthZ (sc_messages s) i with
  | Some _ => (Val (), s <| sc_messages ::= <[Z.to_nat i := m]> |>)
  | None => (UB, s)
  end.

(** What both branches do for item [i] with [k] ranges per item: emit it,
    number it, allocate its header at [addr], count the transmission in
    [sent_dic] and record its offset. Returns the stop flag and the length. *)
Definition emit_item (k i addr : Z) : M SendCtx (bool * Z) :=
  s ← get;
  iov ← lift (from_option_ub (nthZ (sc_iovecs s) (k * i + 1)));
  '(s_flag, out, out_len, out_off, sb) ← lift (SendBuf_emit iov (cn_send_buffer (sc_conn s)));
  _ ← modify (λ s, s <| sc_conn ::= λ c, c <| cn_send_buffer := sb |> |>);
  _ ← set_iov (k * i + 1) out;
  let out_off := u64 (out_off - out_len) in
  _ ← modify (λ s, s <| sc_conn ::= λ c,
        c <| cn_sent_count ::= λ n, u64 (n + 1) |> <| cn_sent_number ::= λ n, u64 (n + 1) |> |>);
  s ← get;
  let '(pn, sp) := updatepktnum (cn_space0 (sc_conn s)) in
  _ ← modify (λ s, s <| sc_conn ::= λ c, c <| cn_space0 := sp |> |>);
  priority ← lift (priority_calculation out_off (sc_conn s));
  _ ← modify (λ s, s <| sc_heap ::= <[addr := mkHeader Application pn priority out_off out_len]> |>);
  _ ← set_iov (k * i) (mkIovec addr 26);
  _ ← modify (λ s, s <| sc_conn ::= λ c,
        c <| cn_sent_dic ::= λ m, match m !! out_off with
                                  | Some p => <[out_off := u64 (p - 1)]> m
                                  | None => <[out_off := priority]> m end |>
          <| cn_record_send ::= λ l, l ++ [out_off] |> |>);
  mret (s_flag, out_len).

(** The emission loop of the branch [pkt_size == 1]: item [i] is message [i];
    its header is the [i]-th allocation, at [alloc i]. *)
Fixpoint emit_single (fuel : nat) (alloc : Z → Z) (i : Z) (s : SendCtx) : option (outcome unit * SendCtx) :=
  match fuel with
  | O => None
  | S fuel =>
      match ('(s_flag, _) ← emit_item 2 i (alloc i);
             _ ← set_msg i (mkMmsg (Some (2 * i)) 2);
             _ ← modify (λ s, if (s_flag : bool) then s <| sc_conn ::= λ c, c <| cn_stop_flag := true |> |> else s);
             mret s_flag) s with
      | (Val true, s) => Some (Val (), s)
      | (Val false, s) => emit_single fuel alloc (i + 1) s
      | (Exn e, s) => Some (Exn e, s)
      | (UB, s) => Some (UB, s)
      end
  end.

(** The other branch: [pkt_size] items share a message; the message is
    chosen by [i / 10]. [i % pkt_size] is an [int] remainder. *)
Fixpoint emit_merged (fuel : nat) (alloc : Z → Z) (padding pkt_size i : Z) (s : SendCtx)
    : option (outcome unit * SendCtx) :=
  match fuel with
  | O => None
  | S fuel =>
      match ('(s_flag, out_len) ← emit_item 3 i (alloc i);
             _ ← (if (s_flag : bool) then mret ()
                  else set_iov (3 * i + 2) (mkIovec padding (u64 (1472 - 26 - out_len))));
             _ ← (if (s_flag : bool) then
                    set_msg (Z.quot i 10) (mkMmsg
                      (Some (if Z.rem i pkt_size =? 0 then 3 * i else 3 * (i - Z.rem i pkt_size)))
                      (3 * (Z.rem i pkt_size + 1)))
                  else if Z.rem i pkt_size =? pkt_size - 1 then
                    set_msg (Z.quot i 10) (mkMmsg (Some (3 * (i - pkt_size + 1))) (3 * pkt_size))
                  else mret ());
             _ ← modify (λ s, if (s_flag : bool) then s <| sc_conn ::= λ c, c <| cn_stop_flag := true |> |> else s);
             mret s_flag) s with
      | (Val true, s) => Some (Val (), s)
      | (Val false, s) => emit_merged fuel alloc padding pkt_size (i + 1) s
      | (Exn e, s) => Some (Exn e, s)
      | (UB, s) => Some (UB, s)
      end
  end.

(** The local vector [hdrs] owns the headers: they are freed when
    [send_mmsg] leaves, by return or exception. *)
Definition free_headers (alloc : Z → Z) (n : Z) (s : SendCtx) : SendCtx :=
  s <| sc_heap ::= λ h, foldr (λ i, delete (alloc i)) h (seqZ 0 n) |>.

(** [send_mmsg(padding, messages, iovecs, pkt_size)]: [padding] is the
    address of the padding bytes, [alloc i] the address of the [i]-th header
    allocated. [fill] bounds the iterations of the first loop; the second
    ends after at most one iteration per item of the send buffer
    ([SendBuf_emit_round]). *)
Definition send_mmsg (fill : nat) (alloc : Z → Z) (padding pkt_size : Z) (s : SendCtx)
    : option (outcome Z * SendCtx) :=
  match nthZ (cn_data_buffer (sc_conn s)) (cn_current_buffer_pos (sc_conn s)) with
  | None => Some (Exn OutOfRange, s)
  | Some _ =>
      let '(cw, c) := next_window (sc_conn s) in
      '(r, c) ← (if (cn_current_buffer_pos c <? lenZ (cn_data_buffer c)) : bool
                 then fill_loop fill cw 0 c else Some (Val (inr 0), c));
      let s := s <| sc_conn := c |> in
      match r with
      | Exn e => Some (Exn e, s)
      | UB => Some (UB, s)
      | Val (inl wlen) => Some (Val wlen, s)
      | Val (inr written_len) =>
          let n := lenZ (sb_data (cn_send_buffer c)) in
          let finish (p : outcome unit * SendCtx) : outcome Z * SendCtx :=
            let '(r, s) := p in
            let s := free_headers alloc n s in
            match r with
            | Val _ => (Val written_len,
                if written_len =? 0 then s else s <| sc_conn ::= λ c, c <| cn_stop_ack := false |> |>)
            | Exn e => (Exn e, s)
            | UB => (UB, s)
            end in
          if pkt_size =? 1 then
            let s := s <| sc_iovecs ::= resizeZ iov0 (n * 2) |> <| sc_messages ::= resizeZ mmsg0 n |> in
            finish <$> emit_single (Z.to_nat n + 1) alloc 0 s
          else if pkt_size =? 0 then Some (UB, s)
          else
            let s := s <| sc_iovecs ::= resizeZ iov0 (n * 3) |>
                       <| sc_messages ::= resizeZ mmsg0 (n / u64 pkt_size + 1) |> in
            finish <$> emit_merged (Z.to_nat n + 1) alloc padding pkt_size 0 s
      end
  end.

(* ------------------------------------------------------------------ *)
(** * Emission of the items of the send buffer *)

(** [sent_dic] after one transmission of an offset. *)
Definition count_sent (off priority : Z) (m : gmap Z Z) : gmap Z Z :=
  match m !! off with Some p => <[off := u64 (p - 1)]> m | None => <[off := priority]> m end.

Definition conn_emitted (x : SendItem) (priority : Z) (sb : SendBuf) (c : Connection) : Connection :=
  c <| cn_send_buffer := sb |>
    <| cn_sent_count ::= λ n, u64 (n + 1) |> <| cn_sent_number ::= λ n, u64 (n + 1) |>
    <| cn_space0 := snd (updatepktnum (cn_space0 c)) |>
    <| cn_sent_dic ::= count_sent (si_off x) priority |>
    <| cn_record_send ::= λ l, l ++ [si_off x] |>.

Definition item_emitted (k i addr : Z) (x : SendItem) (priority : Z) (sb : SendBuf) (s : SendCtx) : SendCtx :=
  s <| sc_conn ::= conn_emitted x priority sb |>
    <| sc_iovecs ::= λ l, <[Z.to_nat (k * i) := mkIovec addr 26]> (<[Z.to_nat (k * i + 1) := item_iovec x]> l) |>
    <| sc_heap ::= <[addr := mkHeader Application (fst (updatepktnum (cn_space0 (sc_conn s)))) priority
                               (si_off x) (si_len x)]> |>.

Lemma set_iov_some i v s :
  0 ≤ i < lenZ (sc_iovecs s) → set_iov i v s = (Val (), s <| sc_iovecs ::= <[Z.to_nat i := v]> |>).
Proof. intros Hi. unfold set_iov. by destruct (proj2 (nthZ_Some (sc_iovecs s) i) Hi) as [? ->]. Qed.

Lemma set_msg_some i m s :
  0 ≤ i < lenZ (sc_messages s) → set_msg i m s = (Val (), s <| sc_messages ::= <[Z.to_nat i := m]> |>).
Proof. intros Hi. unfold set_msg. by destruct (proj2 (nthZ_Some (sc_messages s) i) Hi) as [? ->]. Qed.

Lemma lenZ_insert {A} (l : list A) n v : lenZ (<[n := v]> l) = lenZ l.
Proof. unfold lenZ. by rewrite length_insert. Qed.

(** One item, at the cursor [i] of the send buffer. *)
Lemma emit_item_at k i addr s x priority :
  let sb := cn_send_buffer (sc_conn s) in
  SendBuf_wf sb → sb_pos sb = i → nthZ (sb_data sb) i = Some x → lenZ (sb_data sb) < 2 ^ 61 →
  2 ≤ k ≤ 3 → k * lenZ (sb_data sb) ≤ lenZ (sc_iovecs s) →
  nthZ (cn_norm2_vec (sc_conn s)) (si_off x / 1024) = Some priority →
  ∃ stop sb', SendBuf_emit (mkIovec 0 0) sb = Val (stop, item_iovec x, si_len x, si_off x + si_len x, sb') ∧
    emit_item k i addr s = (Val (stop, si_len x), item_emitted k i addr x priority sb' s) ∧
    sb_data sb' = sb_data sb ∧ sb_off sb' = sb_off sb ∧ sb_offset_recv sb' = sb_offset_recv sb ∧
    sb_max_data sb' = sb_max_data sb ∧ sb_sent sb' = u64 (sb_sent sb + si_len x) ∧
    stop = (sb_max_data sb <=? sb_sent sb') || (i + 1 =? lenZ (sb_data sb)) ∧
    sb_pos sb' = if stop then 0 else i + 1.
Proof.
  intros sb Hwf Hpos Hx Hlen Hk Hiov Hprio.
  assert (0 ≤ i < lenZ (sb_data sb)) as Hi by (apply nthZ_Some; eauto).
  destruct (proj2 (nthZ_Some (sc_iovecs s) (k * i + 1)) ltac:(nia)) as [iov Hiovx].
  assert (nthZ (sb_data sb) (sb_pos sb) = Some x) as Hx' by (by rewrite Hpos).
  assert (∀ o, ∃ stop sb', SendBuf_emit o sb = Val (stop, item_iovec x, si_len x, si_off x + si_len x, sb') ∧
    sb_data sb' = sb_data sb ∧ sb_off sb' = sb_off sb ∧ sb_offset_recv sb' = sb_offset_recv sb ∧
    sb_max_data sb' = sb_max_data sb ∧ sb_sent sb' = u64 (sb_sent sb + si_len x) ∧
    stop = (sb_max_data sb <=? sb_sent sb') || (i + 1 =? lenZ (sb_data sb)) ∧
    sb_pos sb' = if stop then 0 else i + 1) as Hemit.
  { intros o. rewrite <-Hpos. apply SendBuf_emit_at; [done|done|lia]. }
  assert (0 ≤ si_off x ∧ si_off x + si_len x < 2 ^ 64) as [Hox Hoy].
  { destruct Hwf as [Hi' _ _ _ Hoff]. rewrite Forall_lookup in Hi'.
    unfold nthZ in Hx. rewrite bool_decide_true in Hx by lia. specialize (Hi' _ _ Hx). simpl in Hi'. lia. }
  assert (0 < si_len x) as Hlx.
  { destruct Hwf as [Hi' _ _ _ _]. rewrite Forall_lookup in Hi'.
    unfold nthZ in Hx. rewrite bool_decide_true in Hx by lia. specialize (Hi' _ _ Hx). simpl in Hi'. lia. }
  destruct (Hemit iov) as (stop & sb' & He & Hrest).
  destruct (Hemit (mkIovec 0 0)) as (stop0 & sb0 & He0 & Hrest0).
  assert (stop0 = stop ∧ sb0 = sb') as [-> ->].
  { revert He He0. unfold SendBuf_emit. destruct (SendBuf_off_front sb) as [o| |]; [|done..].
    cbn [mbind outcome_bind]. replace (length (sb_data sb) + 1)%nat with (S (length (sb_data sb))) by lia.
    cbn [emit_items]. rewrite Hx'.
    destruct Hwf as [Hi' _ _ _ _]. rewrite Forall_lookup in Hi'. unfold nthZ in Hx.
    rewrite bool_decide_true in Hx by lia. specialize (Hi' _ _ Hx). simpl in Hi'. clear Hx.
    unfold SEND_BUFFER_SIZE, MIN_SENDBUF_INITIAL_LEN in *.
    rewrite (proj2 (Z.eqb_neq (si_len x) 0)), (proj2 (Z.leb_le (si_len x) 1350)) by lia.
    intros H1 H2. rewrite H1 in H2. injection H2 as -> ->. done. }
  exists stop, sb'. split; [done|]. split; [|done].
  unfold emit_item. erewrite M_bind_val by reflexivity.
  erewrite M_bind_val by (apply lift_val; by rewrite Hiovx).
  erewrite M_bind_val by (apply lift_val, He). cbv beta iota.
  erewrite M_bind_val by reflexivity.
  erewrite M_bind_val by (apply set_iov_some; change (sc_iovecs (s <| sc_conn ::= _ |>)) with (sc_iovecs s); nia).
  cbv zeta. rewrite Z.add_simpl_r, wrap_small by (unfold in_range; lia).
  erewrite M_bind_val by reflexivity. erewrite M_bind_val by reflexivity.
  match goal with |- context [updatepktnum (cn_space0 (sc_conn ?s1))] =>
    change (cn_space0 (sc_conn s1)) with (cn_space0 (sc_conn s)) end.
  destruct (updatepktnum (cn_space0 (sc_conn s))) as [pn sp] eqn:Hpn.
  erewrite M_bind_val by reflexivity.
  erewrite M_bind_val; last first.
  { apply lift_val. unfold priority_calculation.
    match goal with |- context [cn_norm2_vec ?c1] =>
      change (cn_norm2_vec c1) with (cn_norm2_vec (sc_conn s)) end. by rewrite Hprio. }
  erewrite M_bind_val by reflexivity.
  erewrite M_bind_val; last first.
  { apply set_iov_some. match goal with |- context [lenZ (sc_iovecs ?s1)] =>
      change (sc_iovecs s1) with (<[Z.to_nat (k * i + 1) := item_iovec x]> (sc_iovecs s)) end.
    rewrite lenZ_insert. nia. }
  erewrite M_bind_val by reflexivity.
  replace pn with (fst (updatepktnum (cn_space0 (sc_conn s)))) by (by rewrite Hpn).
  replace sp with (snd (updatepktnum (cn_space0 (sc_conn s)))) by (by rewrite Hpn).
  reflexivity.
Qed.

(** What the loop has written for the items from position [i] on. *)
Record emitted_from (alloc : Z → Z) (i : Z) (l : list SendItem) (s s' : SendCtx) : Prop := {
  ef_item : ∀ j x, 0 ≤ j → nthZ l j = Some x →
    nthZ (sc_iovecs s') (2 * (i + j)) = Some (mkIovec (alloc (i + j)) 26) ∧
    nthZ (sc_iovecs s') (2 * (i + j) + 1) = Some (item_iovec x) ∧
    nthZ (sc_messages s') (i + j) = Some (mkMmsg (Some (2 * (i + j))) 2) ∧
    sc_heap s' !! alloc (i + j) =
      Some (mkHeader Application (next_pkt_num (cn_space0 (sc_conn s)) + j) 3 (si_off x) (si_len x));
  ef_iovecs : lenZ (sc_iovecs s') = lenZ (sc_iovecs s) ∧
    ∀ m, m < 2 * i → nthZ (sc_iovecs s') m = nthZ (sc_iovecs s) m;
  ef_messages : lenZ (sc_messages s') = lenZ (sc_messages s) ∧
    ∀ m, m < i → nthZ (sc_messages s') m = nthZ (sc_messages s) m;
  ef_heap : ∀ a, (∀ j, i ≤ j < i + lenZ l → a ≠ alloc j) → sc_heap s' !! a = sc_heap s !! a;
  ef_record : cn_record_send (sc_conn s') = cn_record_send (sc_conn s) ++ map si_off l;
  ef_dic : cn_sent_dic (sc_conn s') = foldl (λ m x, count_sent (si_off x) 3 m) (cn_sent_dic (sc_conn s)) l;
  ef_num : next_pkt_num (cn_space0 (sc_conn s')) = next_pkt_num (cn_space0 (sc_conn s)) + lenZ l;
  ef_stop : cn_stop_flag (sc_conn s') = true;
  ef_buf : sb_data (cn_send_buffer (sc_conn s')) = sb_data (cn_send_buffer (sc_conn s)) ∧
    sb_pos (cn_send_buffer (sc_conn s')) = 0 ∧ sb_off (cn_send_buffer (sc_conn s')) = sb_off (cn_send_buffer (sc_conn s)) ∧
    sb_offset_recv (cn_send_buffer (sc_conn s')) = sb_offset_recv (cn_send_buffer (sc_conn s));
  ef_buffers : cn_data_buffer (sc_conn s') = cn_data_buffer (sc_conn s) ∧
    cn_current_buffer_pos (sc_conn s') = cn_current_buffer_pos (sc_conn s);
}.

Lemma nthZ_insert {A} (l : list A) i v m :
  0 ≤ i < lenZ l → nthZ (<[Z.to_nat i := v]> l) m = if decide (m = i) then Some v else nthZ l m.
Proof.
  intros Hi. unfold nthZ, lenZ in *. case_decide as Hm.
  - subst m. rewrite bool_decide_true by lia. apply list_lookup_insert_eq. lia.
  - case_bool_decide; [|done]. apply list_lookup_insert_ne. lia.
Qed.

Lemma nthZ_cons {A} (x : A) l j : nthZ (x :: l) j = if decide (j = 0) then Some x else nthZ l (j - 1).
Proof.
  unfold nthZ. case_decide as Hj; [by subst|]. repeat case_bool_decide; try done; try lia.
  replace (Z.to_nat j) with (S (Z.to_nat (j - 1))) by lia. done.
Qed.

Definition emit_single_body (alloc : Z → Z) (i : Z) (x : SendItem) (sb' : SendBuf) (stop : bool) (s : SendCtx) : SendCtx :=
  let s := item_emitted 2 i (alloc i) x 3 sb' s <| sc_messages ::= <[Z.to_nat i := mkMmsg (Some (2 * i)) 2]> |> in
  if stop then s <| sc_conn ::= λ c, c <| cn_stop_flag := true |> |> else s.

(** One turn of the loop does the item under the cursor. *)
Lemma emit_single_turn fuel alloc i s x :
  let sb := cn_send_buffer (sc_conn s) in
  SendBuf_wf sb → sb_pos sb = i → nthZ (sb_data sb) i = Some x → lenZ (sb_data sb) < 2 ^ 61 →
  2 * lenZ (sb_data sb) ≤ lenZ (sc_iovecs s) → lenZ (sb_data sb) ≤ lenZ (sc_messages s) →
  nthZ (cn_norm2_vec (sc_conn s)) (si_off x / 1024) = Some 3 →
  ∃ (stop : bool) sb', emit_single (S fuel) alloc i s =
    (if stop then Some (Val (), emit_single_body alloc i x sb' true s)
     else emit_single fuel alloc (i + 1) (emit_single_body alloc i x sb' false s)) ∧
    sb_data sb' = sb_data sb ∧ sb_off sb' = sb_off sb ∧ sb_offset_recv sb' = sb_offset_recv sb ∧
    sb_max_data sb' = sb_max_data sb ∧ sb_sent sb' = u64 (sb_sent sb + si_len x) ∧
    stop = (sb_max_data sb <=? sb_sent sb') || (i + 1 =? lenZ (sb_data sb)) ∧
    sb_pos sb' = if stop then 0 else i + 1.
Proof.
  intros sb Hwf Hpos Hx Hlen Hiov Hmsg Hprio.
  assert (0 ≤ i < lenZ (sb_data sb)) as Hi by (apply nthZ_Some; eauto).
  destruct (emit_item_at 2 i (alloc i) s x 3 Hwf Hpos Hx Hlen ltac:(lia) Hiov Hprio)
    as (stop & sb' & _ & He & Hrest).
  exists stop, sb'. split; [|exact Hrest]. cbn [emit_single].
  erewrite M_bind_val by exact He. cbv beta iota.
  erewrite M_bind_val; last first.
  { apply set_msg_some. change (sc_messages (item_emitted _ _ _ _ _ _ s)) with (sc_messages s). lia. }
  erewrite M_bind_val by reflexivity. unfold emit_single_body. by destruct stop.
Qed.

Lemma emit_single_body_from alloc i x sb' (stop : bool) s :
  0 ≤ i → i < lenZ (sc_messages s) → 2 * i + 1 < lenZ (sc_iovecs s) →
  0 ≤ next_pkt_num (cn_space0 (sc_conn s)) < 2 ^ 63 →
  sb_data sb' = sb_data (cn_send_buffer (sc_conn s)) → sb_off sb' = sb_off (cn_send_buffer (sc_conn s)) →
  sb_offset_recv sb' = sb_offset_recv (cn_send_buffer (sc_conn s)) → (stop = true → sb_pos sb' = 0) →
  stop = true → emitted_from alloc i [x] s (emit_single_body alloc i x sb' stop s).
Proof.
  intros Hi Hm Hv Hn Hd Ho Ha Hp ->. unfold emit_single_body, item_emitted, conn_emitted, updatepktnum.
  set (pn := next_pkt_num _) in *.
  assert (u64 (u64 (pn + 1) - 1) = pn ∧ u64 (pn + 1) = pn + 1) as [Hpn Hpn'].
  { rewrite (wrap_small 64 (pn + 1)) by (unfold in_range; lia).
    rewrite wrap_small by (unfold in_range; lia). split; lia. }
  split; cbn -[Z.mul]; rewrite ?lenZ_insert.
  - intros j y Hj Hy. rewrite nthZ_cons in Hy. case_decide; [|by unfold nthZ in Hy; case_bool_decide].
    subst j. injection Hy as ->. rewrite !Z.add_0_r.
    rewrite !nthZ_insert by (rewrite ?lenZ_insert; lia).
    repeat case_decide; try lia. split_and!; [done|done|done|].
    rewrite lookup_insert_eq. fold pn. by rewrite Hpn.
  - split; [done|]. intros m Hm2. rewrite !nthZ_insert by (rewrite ?lenZ_insert; lia).
    repeat case_decide; try lia. done.
  - split; [done|]. intros m Hm2. rewrite !nthZ_insert by lia. by rewrite decide_False by lia.
  - intros a Hne. apply lookup_insert_ne. intros <-. apply (Hne i); [|done]. unfold lenZ. simpl. lia.
  - done.
  - done.
  - fold pn. rewrite Hpn'. done.
  - done.
  - split_and!; [done|by apply Hp|done|done].
  - done.
Qed.

Lemma emitted_from_cons alloc i x l sb' s s' :
  (∀ a b, alloc a = alloc b → a = b) →
  0 ≤ i → i < lenZ (sc_messages s) → 2 * i + 1 < lenZ (sc_iovecs s) →
  0 ≤ next_pkt_num (cn_space0 (sc_conn s)) < 2 ^ 63 →
  sb_data sb' = sb_data (cn_send_buffer (sc_conn s)) → sb_off sb' = sb_off (cn_send_buffer (sc_conn s)) →
  sb_offset_recv sb' = sb_offset_recv (cn_send_buffer (sc_conn s)) →
  emitted_from alloc (i + 1) l (emit_single_body alloc i x sb' false s) s' →
  emitted_from alloc i (x :: l) s s'.
Proof.
  intros Hinj Hi Hm Hv Hn Hd Ho Ha [E1 E2 E3 E4 E5 E6 E7 E8 E9 E10].
  unfold emit_single_body, item_emitted, conn_emitted, updatepktnum in *.
  set (pn := next_pkt_num (cn_space0 (sc_conn s))) in *.
  assert (u64 (u64 (pn + 1) - 1) = pn ∧ u64 (pn + 1) = pn + 1) as [Hpn Hpn'].
  { rewrite (wrap_small 64 (pn + 1)) by (unfold in_range; lia).
    rewrite wrap_small by (unfold in_range; lia). split; lia. }
  cbn -[Z.mul] in *. fold pn in E1, E7. rewrite ?lenZ_insert in *. rewrite ?Hpn, ?Hpn' in *.
  destruct E2 as [E2 E2'], E3 as [E3 E3']. pose proof (lenZ_nonneg l).
  split; fold pn.
  - intros j y Hj Hy. rewrite nthZ_cons in Hy. case_decide as Hj0.
    + subst j. injection Hy as ->. rewrite !Z.add_0_r, E2', E2', E3', E4 by (intros; try apply not_eq_sym; try intros ?%Hinj; lia).
      rewrite !nthZ_insert by (rewrite ?lenZ_insert; lia). repeat case_decide; try lia.
      rewrite lookup_insert_eq. done.
    + destruct (E1 (j - 1) y ltac:(lia) Hy) as (H1 & H2 & H3 & H4).
      replace (i + 1 + (j - 1)) with (i + j) in * by lia.
      replace (pn + 1 + (j - 1)) with (pn + j) in * by lia. done.
  - split; [done|]. intros m Hm2. rewrite E2' by lia.
    rewrite !nthZ_insert by (rewrite ?lenZ_insert; lia). repeat case_decide; try lia. done.
  - split; [done|]. intros m Hm2. rewrite E3' by lia. rewrite nthZ_insert by lia.
    by rewrite decide_False by lia.
  - intros a Hne. rewrite lenZ_cons in Hne. rewrite E4 by (intros j Hj; apply Hne; lia).
    apply lookup_insert_ne. intros <-. apply (Hne i); [lia|done].
  - rewrite E5, <-app_assoc. done.
  - done.
  - rewrite E7, lenZ_cons. lia.
  - done.
  - rewrite <-Hd, <-Ho, <-Ha. done.
  - done.
Qed.

(** The loop from position [i] of the send buffer on. *)
Lemma emit_single_from alloc l0 : ∀ i x0 s fuel,
  let sb := cn_send_buffer (sc_conn s) in
  (∀ a b, alloc a = alloc b → a = b) →
  SendBuf_wf sb → sb_pos sb = i → drop (Z.to_nat i) (sb_data sb) = x0 :: l0 → lenZ (sb_data sb) < 2 ^ 61 →
  0 ≤ sb_sent sb → sb_sent sb + items_total (x0 :: l0) ≤ sb_max_data sb < 2 ^ 64 →
  2 * lenZ (sb_data sb) ≤ lenZ (sc_iovecs s) → lenZ (sb_data sb) ≤ lenZ (sc_messages s) →
  Forall (λ x, nthZ (cn_norm2_vec (sc_conn s)) (si_off x / 1024) = Some 3) (x0 :: l0) →
  0 ≤ next_pkt_num (cn_space0 (sc_conn s)) → next_pkt_num (cn_space0 (sc_conn s)) + lenZ (x0 :: l0) < 2 ^ 63 →
  (length (x0 :: l0) ≤ fuel)%nat →
  ∃ s', emit_single fuel alloc i s = Some (Val (), s') ∧ emitted_from alloc i (x0 :: l0) s s'.
Proof.
  induction l0 as [|x1 l0 IH]; intros i x0 s fuel sb Hinj Hwf Hpos Hdrop Hlen Hsent Hmax Hiov Hmsg Hprio Hn Hn2 Hfuel.
  all: pose proof (wf_pos _ Hwf) as Hp; rewrite Hpos in Hp.
  all: assert (nthZ (sb_data sb) i = Some x0) as Hx by
    (unfold nthZ; rewrite bool_decide_true by lia; rewrite <-(Nat.add_0_r (Z.to_nat _)), <-lookup_drop, Hdrop; done).
  all: assert (lenZ (sb_data sb) = i + lenZ (drop (Z.to_nat i) (sb_data sb))) as Hlens by
    (unfold lenZ in *; rewrite length_drop; lia).
  all: rewrite Hdrop in Hlens; rewrite lenZ_cons in Hlens; rewrite lenZ_cons in Hn2.
  all: apply Forall_cons in Hprio as [Hp0 Hprio].
  all: assert (Forall (λ x, 0 < si_len x) (drop (Z.to_nat i) (sb_data sb))) as Hf by
    (apply Forall_drop; eapply Forall_impl; [apply (wf_items _ Hwf)|]; simpl; lia).
  all: rewrite Hdrop in Hf; cbn [items_total foldr] in Hmax.
  all: destruct fuel as [|fuel]; [simpl in Hfuel; lia|].
  all: destruct (emit_single_turn fuel alloc i s x0 Hwf Hpos Hx Hlen Hiov Hmsg Hp0)
    as (stop & sb' & -> & Hd & Ho & Ha & Hm & Hs & Hstop & Hpos').
  - rewrite (lenZ_nil (A:=SendItem)) in Hlens, Hn2. fold sb in Hstop.
    rewrite (proj2 (Z.eqb_eq (i + 1) _)), orb_true_r in Hstop by lia. subst stop.
    eexists. split; [done|]. apply emit_single_body_from; try done; fold sb; lia.
  - rewrite !lenZ_cons in *. pose proof (lenZ_nonneg l0). fold sb in Hstop, Hs, Hd, Ho, Ha, Hm.
    rewrite (proj2 (Z.eqb_neq (i + 1) _)), orb_false_r in Hstop by lia.
    fold (items_total l0) in Hmax.
    apply Forall_cons in Hf as [Hx0 Hf]. apply Forall_cons in Hf as [Hx1 Hf].
    assert (0 ≤ items_total l0). { clear -Hf. induction Hf; simpl; lia. }
    rewrite wrap_small in Hs by (unfold in_range; lia).
    rewrite (proj2 (Z.leb_gt _ _)) in Hstop by lia. subst stop.
    set (s1 := emit_single_body alloc i x0 sb' false s).
    assert (cn_send_buffer (sc_conn s1) = sb') as Hsb by done.
    assert (u64 (next_pkt_num (cn_space0 (sc_conn s)) + 1) = next_pkt_num (cn_space0 (sc_conn s)) + 1) as Hnum
      by (apply wrap_small; unfold in_range; lia).
    destruct (IH (i + 1) x1 s1 fuel) as (s' & He & Hef); rewrite ?Hsb; try done.
    + destruct Hwf. split; rewrite ?Hd, ?Ho, ?Ha, ?Hpos'; try done. lia.
    + rewrite Hd, Z2Nat.inj_add, <-drop_drop, Hdrop by lia. done.
    + by rewrite Hd.
    + lia.
    + cbn [items_total foldr]. fold (items_total l0). lia.
    + rewrite Hd. unfold s1, emit_single_body. cbn -[Z.mul]. rewrite !lenZ_insert. done.
    + rewrite Hd. unfold s1, emit_single_body. cbn -[Z.mul]. rewrite !lenZ_insert. done.
    + unfold s1, emit_single_body. cbn -[Z.mul]. rewrite Hnum. lia.
    + unfold s1, emit_single_body. cbn -[Z.mul]. rewrite Hnum, lenZ_cons. lia.
    + simpl in *. lia.
    + exists s'. split; [done|]. apply (emitted_from_cons alloc i x0 (x1 :: l0) sb' s s'); try done; fold sb; lia.
Qed.

(* ------------------------------------------------------------------ *)
(** * A whole message *)

Lemma next_window_keeps c :
  let c1 := snd (next_window c) in
  cn_send_buffer c1 = cn_send_buffer c ∧ cn_data_buffer c1 = cn_data_buffer c ∧
  cn_current_buffer_pos c1 = cn_current_buffer_pos c ∧ cn_norm2_vec c1 = cn_norm2_vec c ∧
  cn_record_send c1 = cn_record_send c ∧ cn_sent_dic c1 = cn_sent_dic c ∧ cn_space0 c1 = cn_space0 c.
Proof.
  unfold next_window. destruct (SendBuf_is_empty _); [|done]. cbv zeta.
  destruct (f_gtb _ _); [destruct (Recovery_rollback _)|destruct (Recovery_cwnd _)]; done.
Qed.

(** One call of [nwrite] with room for something. *)
Lemma nwrite_spec i cw c b :
  nthZ (cn_data_buffer c) i = Some b → 0 ≤ i →
  let sb := cn_send_buffer c in
  SendBuf_wf sb → SendBuf_len sb < sb_max_data sb < 2 ^ 63 → SendBuf_len sb < cw →
  0 < sbf_left b ≤ sbf_len b → sbf_len b < 2 ^ 63 → 0 ≤ sbf_src b → sbf_src b + sbf_len b < 2 ^ 64 →
  sb_off sb + sbf_left b < 2 ^ 64 →
  let n := Z.min (sb_max_data sb - SendBuf_len sb) (sbf_left b) in
  ∃ items sb', nwrite i cw c = Val (n, c <| cn_send_buffer := sb' |>
      <| cn_data_buffer ::= <[Z.to_nat i := b <| sbf_left := sbf_left b - n |>]> |>) ∧
    SendBuf_wf sb' ∧ sb_data sb' = sb_data sb ++ items ∧
    tiles (sb_off sb) (sbf_src b + (sbf_len b - sbf_left b)) n items ∧
    sb_off sb' = sb_off sb + n ∧ sb_pos sb' = sb_pos sb ∧
    sb_max_data sb' = (if SendBuf_is_empty sb then cw else sb_max_data sb) ∧
    sb_sent sb' = (if SendBuf_is_empty sb then 0 else sb_sent sb).
Proof.
  intros Hb Hi sb Hwf Hmax Hcw Hleft Hlen Hsrc Hsrc2 Hoff n. unfold nwrite. rewrite Hb.
  cbn [from_option_exn mbind outcome_bind]. fold sb.
  assert (sbuffer_sent b = sbf_len b - sbf_left b) as Hsent
    by (unfold sbuffer_sent; apply wrap_small; unfold in_range; lia).
  rewrite Hsent.
  destruct (SendBuf_write_lemma sb (sbf_src b) (sbf_len b - sbf_left b) (sbf_left b) cw
    (if SendBuf_is_empty sb then 1350 - (sbf_len b - sbf_left b) `mod` 1350 else 0))
    as (m & items & sb' & -> & Hw & Hwf' & Hd & Ht & Ho & _ & Hp & Hm & Hs); try done; try lia.
  { unfold SEND_BUFFER_SIZE. case_match; [|lia].
    pose proof (Z.mod_pos_bound (sbf_len b - sbf_left b) 1350 ltac:(lia)). lia. }
  fold n in Hw, Ht, Ho. rewrite Hw. by eexists items, sb'.
Qed.

Lemma tiles_total off ptr n items : tiles off ptr n items → items_total items = n.
Proof.
  revert off ptr n. induction items as [|x items IH]; simpl; intros off ptr n Ht; [done|].
  destruct Ht as (_ & _ & _ & Ht). rewrite (IH _ _ _ Ht). lia.
Qed.

Lemma tiles_range off ptr n items x :
  tiles off ptr n items → x ∈ items → off ≤ si_off x ∧ si_off x + si_len x ≤ off + n ∧ 0 < si_len x.
Proof.
  revert off ptr n. induction items as [|y items IH]; simpl; intros off ptr n Ht Hx; [set_solver|].
  destruct Ht as (<- & _ & Hy & Ht). pose proof (tiles_total _ _ _ _ Ht) as Htot.
  assert (0 ≤ n - si_len y).
  { rewrite <-Htot. clear -Ht. revert Ht. generalize (si_off y + si_len y), (ptr + si_len y), (n - si_len y).
    induction items as [|z items IH]; simpl; intros a p m Hz; [lia|].
    destruct Hz as (_ & _ & Hz & Hr). specialize (IH _ _ _ Hr). lia. }
  apply elem_of_cons in Hx as [->|Hx]; [lia|]. specialize (IH _ _ _ Ht Hx). lia.
Qed.

Lemma free_headers_lookup alloc n s a :
  sc_heap (free_headers alloc n s) !! a =
  if decide (a ∈ alloc <$> seqZ 0 n) then None else sc_heap s !! a.
Proof.
  unfold free_headers. change (sc_heap (s <| sc_heap ::= ?f |>)) with (f (sc_heap s)). cbv beta.
  generalize (seqZ 0 n) as l, (sc_heap s) as h. induction l as [|j l IH]; intros h; [done|].
  cbn [foldr fmap list_fmap]. destruct (decide (alloc j = a)) as [<-|Hne].
  - rewrite lookup_delete_eq, decide_True; [done|]. apply list_elem_of_here.
  - rewrite lookup_delete_ne, IH by done. repeat case_decide; set_solver.
Qed.

(** A connection whose only pending buffer [b] fits the capacity and the
    window [w], with nothing left over from an earlier message. *)
Record message_ready (c : Connection) (b : sbuffer) (w : Z) : Prop := {
  mr_buffer : cn_data_buffer c = [b] ∧ cn_current_buffer_pos c = 0;
  mr_len : 0 < sbf_len b < 2 ^ 40 ∧ sbf_left b = sbf_len b;
  mr_src : 0 ≤ sbf_src b ∧ sbf_src b + sbf_len b < 2 ^ 64;
  mr_wf : SendBuf_wf (cn_send_buffer c);
  mr_empty : sb_data (cn_send_buffer c) = [] ∧ sb_pos (cn_send_buffer c) = 0;
  mr_off : sb_off (cn_send_buffer c) + sbf_len b < 2 ^ 64;
  mr_cap : sbf_len b ≤ sb_max_data (cn_send_buffer c) < 2 ^ 63;
  mr_window : fst (next_window c) = w ∧ sbf_len b ≤ w < 2 ^ 63;
  mr_num : 0 ≤ next_pkt_num (cn_space0 c) < 2 ^ 62;
}.

(** The priority table covers the message [b]. *)
Definition table_covers (c : Connection) (b : sbuffer) : Prop :=
  ∀ o, sb_off (cn_send_buffer c) ≤ o < sb_off (cn_send_buffer c) + sbf_len b →
       nthZ (cn_norm2_vec c) (o / 1024) = Some 3.

(** The state in which the emission loop starts. *)
Record filled (s s1 : SendCtx) (b : sbuffer) (w : Z) (items : list SendItem) : Prop := {
  fl_tiles : tiles (sb_off (cn_send_buffer (sc_conn s))) (sbf_src b) (sbf_len b) items;
  fl_count : 0 < lenZ items ≤ sbf_len b;
  fl_iovecs : sc_iovecs s1 = resizeZ iov0 (lenZ items * 2) (sc_iovecs s);
  fl_messages : sc_messages s1 = resizeZ mmsg0 (lenZ items) (sc_messages s);
  fl_heap : sc_heap s1 = sc_heap s;
  fl_space : cn_space0 (sc_conn s1) = cn_space0 (sc_conn s);
  fl_record : cn_record_send (sc_conn s1) = cn_record_send (sc_conn s);
  fl_dic : cn_sent_dic (sc_conn s1) = cn_sent_dic (sc_conn s);
  fl_norm2 : cn_norm2_vec (sc_conn s1) = cn_norm2_vec (sc_conn s);
  fl_buf : SendBuf_wf (cn_send_buffer (sc_conn s1)) ∧ sb_data (cn_send_buffer (sc_conn s1)) = items ∧
    sb_pos (cn_send_buffer (sc_conn s1)) = 0 ∧ sb_max_data (cn_send_buffer (sc_conn s1)) = w ∧
    sb_sent (cn_send_buffer (sc_conn s1)) = 0;
  fl_data : cn_data_buffer (sc_conn s1) = [b <| sbf_left := 0 |>];
}.

(** How [send_mmsg] ends once the emission loop is done. *)
Definition finish_single (alloc : Z → Z) (n written_len : Z) (p : outcome unit * SendCtx) : outcome Z * SendCtx :=
  let '(r, s) := p in
  let s := free_headers alloc n s in
  match r with
  | Val _ => (Val written_len,
      if written_len =? 0 then s else s <| sc_conn ::= λ c, c <| cn_stop_ack := false |> |>)
  | Exn e => (Exn e, s)
  | UB => (UB, s)
  end.

(** The filling part: the whole message goes into the send buffer. *)
Lemma send_mmsg_fill fill alloc padding s b w :
  message_ready (sc_conn s) b w → (1 ≤ fill)%nat →
  ∃ items s1, filled s s1 b w items ∧
    send_mmsg fill alloc padding 1 s =
      finish_single alloc (lenZ items) (sbf_len b) <$> emit_single (Z.to_nat (lenZ items) + 1) alloc 0 s1.
Proof.
  intros [[Hb Hcur] [Hlen Hleft] [Hsrc Hsrc2] Hwf [Hempty Hpos] Hoff Hcap [Hw Hww] Hnum] Hfill.
  unfold send_mmsg. rewrite Hb, Hcur. change (nthZ [b] 0) with (Some b). cbv beta iota.
  pose proof (next_window_keeps (sc_conn s)) as Hk. destruct (next_window (sc_conn s)) as [w' c1].
  cbn [fst snd] in Hw, Hk. subst w'. cbv zeta in Hk.
  destruct Hk as (Ksb & Kdb & Kpos & Kn & Kr & Kd & Ks). rewrite Kdb, Kpos, Hcur, Hb.
  change (0 <? lenZ [b]) with true. cbv beta iota.
  destruct fill as [|fill]; [lia|]. cbn [fill_loop].
  assert (SendBuf_len (cn_send_buffer c1) = 0) as Hl0 by (rewrite Ksb; unfold SendBuf_len; by rewrite Hempty).
  assert (SendBuf_is_empty (cn_send_buffer c1) = true) as He0
    by (rewrite Ksb; unfold SendBuf_is_empty; by rewrite Hempty).
  destruct (nwrite_spec 0 w c1 b) as (items & sb' & Heq & Hwf' & Hd & Ht & Ho & Hp & Hm & Hs);
    rewrite ?Kdb, ?Hl0, ?Ksb, ?Hb; try done; try lia.
  rewrite Hl0, Z.sub_0_r, Hleft in Heq, Ht, Ho. rewrite Ksb, ?Kdb in *.
  replace (Z.min (sb_max_data (cn_send_buffer (sc_conn s))) (sbf_len b)) with (sbf_len b) in * by lia.
  rewrite Kpos, Hcur, Heq. rewrite (proj2 (Z.leb_gt (sbf_len b) 0)), andb_false_r by lia.
  rewrite Z.sub_diag in *. rewrite He0 in Hm, Hs. rewrite Hempty in Hd. cbn [app] in Hd.
  set (c2 := c1 <| cn_send_buffer := sb' |> <| cn_data_buffer ::= _ |>).
  assert (cn_data_buffer c2 = [b <| sbf_left := 0 |>]) as Hb2 by (unfold c2; cbn; by rewrite Kdb, Hb).
  assert (cn_current_buffer_pos c2 = 0) as Hp2 by (unfold c2; cbn; by rewrite Kpos).
  cbv zeta. rewrite Hb2, Hp2. change (nthZ [b <| sbf_left := 0 |>] 0) with (Some (b <| sbf_left := 0 |>)).
  cbv beta iota. change (sbf_left (b <| sbf_left := 0 |>)) with 0.
  change (0 =? 0) with true. change (u64 (lenZ [b <| sbf_left := 0 |>] - 1)) with 0.
  change (0 =? 0) with true. cbn [andb mbind option_bind]. rewrite Z.add_0_l.
  change (cn_send_buffer c2) with sb'. rewrite Hd.
  change (1 =? 1) with true. cbv beta iota. rewrite Z.add_0_r in Ht.
  pose proof (tiles_total _ _ _ _ Ht) as Htot.
  assert (0 < lenZ items ≤ sbf_len b) as Hli.
  { split; [destruct items; [simpl in Htot; lia|rewrite lenZ_cons; pose proof (lenZ_nonneg items); lia]|].
    clear -Ht. revert Ht. generalize (sb_off (cn_send_buffer (sc_conn s))), (sbf_src b), (sbf_len b).
    induction items as [|y items IH]; intros o p n Ht; cbn [tiles] in Ht; [subst; done|].
    destruct Ht as (_ & _ & Hy & Ht). specialize (IH _ _ _ Ht). rewrite lenZ_cons. lia. }
  eexists items, _. split; [|reflexivity]. split; try done.
  cbn -[Z.mul]. split_and!; try done. congruence.
Qed.

(** The whole message goes out: the state [send_mmsg] leaves is, but for the
    freed headers, the one the emission loop leaves. *)
Lemma send_mmsg_lemma fill alloc padding s b w :
  message_ready (sc_conn s) b w → table_covers (sc_conn s) b → (∀ i j, alloc i = alloc j → i = j) →
  (1 ≤ fill)%nat →
  ∃ items s1 s2, filled s s1 b w items ∧ emitted_from alloc 0 items s1 s2 ∧
    send_mmsg fill alloc padding 1 s =
      Some (Val (sbf_len b), free_headers alloc (lenZ items) s2 <| sc_conn ::= λ c, c <| cn_stop_ack := false |> |>).
Proof.
  intros Hr Hprio Hinj Hfill. destruct (send_mmsg_fill fill alloc padding s b w Hr Hfill)
    as (items & s1 & Hf & ->). destruct Hr as [_ [Hlen _] _ _ _ Hoff _ [_ Hww] Hnum].
  pose proof Hf as [Ht Hli Hv Hm _ Hsp _ _ Hn (Hwf & Hd & Hp & Hmax & Hs) _].
  pose proof (tiles_total _ _ _ _ Ht) as Htot.
  assert (∃ x0 l0, items = x0 :: l0) as (x0 & l0 & Hitems)
    by (destruct items; [simpl in Htot; lia|eauto]).
  destruct (emit_single_from alloc l0 0 x0 s1 (Z.to_nat (lenZ items) + 1)) as (s2 & Hemit & Hef); cbv zeta;
    rewrite ?Hd, ?Hmax, ?Hs, ?Hsp, <-?Hitems; try done; try lia.
  - rewrite Hv, lenZ_resizeZ; lia.
  - rewrite Hm, lenZ_resizeZ; lia.
  - apply Forall_forall. intros x Hx. pose proof (tiles_range _ _ _ _ _ Ht Hx).
    rewrite Hn. apply Hprio. lia.
  - unfold lenZ. lia.
  - rewrite <-Hitems in Hef. exists items, s1, s2. split; [done|]. split; [done|].
    rewrite Hemit. cbn [fmap option_fmap option_map]. unfold finish_single.
    by rewrite (proj2 (Z.eqb_neq (sbf_len b) 0)) by lia.
Qed.

(** C2: sending a message that fits the window and the priority table, which
    [get_data] makes of one entry: for the first 1024 bytes of the stream. (A
    message of several datagrams that goes past the table is undefined
    behaviour, [send_mmsg_long_message_undefined].) [send_mmsg] accepts all of it
    and cuts it into datagrams that tile the application's memory; message [i]
    is the pair of ranges [2i] (26 header bytes at the [i]-th header) and
    [2i + 1] (the bytes of item [i], in place); the offsets are recorded in
    order for the next elicit-ack and the items stay buffered. *)
Theorem send_mmsg_single (fill : nat) (alloc : Z → Z) (padding : Z) (s : SendCtx) (b : sbuffer) (w : Z) :
  message_ready (sc_conn s) b w → table_covers (sc_conn s) b → (∀ i j, alloc i = alloc j → i = j) →
  (1 ≤ fill)%nat →
  ∃ items s', send_mmsg fill alloc padding 1 s = Some (Val (sbf_len b), s') ∧
    tiles (sb_off (cn_send_buffer (sc_conn s))) (sbf_src b) (sbf_len b) items ∧
    lenZ (sc_messages s') = lenZ items ∧ lenZ (sc_iovecs s') = 2 * lenZ items ∧
    (∀ i x, 0 ≤ i → nthZ items i = Some x →
      nthZ (sc_messages s') i = Some (mkMmsg (Some (2 * i)) 2) ∧
      nthZ (sc_iovecs s') (2 * i) = Some (mkIovec (alloc i) 26) ∧
      nthZ (sc_iovecs s') (2 * i + 1) = Some (item_iovec x)) ∧
    cn_record_send (sc_conn s') = cn_record_send (sc_conn s) ++ map si_off items ∧
    sb_data (cn_send_buffer (sc_conn s')) = items ∧ sb_pos (cn_send_buffer (sc_conn s')) = 0 ∧
    cn_stop_flag (sc_conn s') = true ∧ cn_stop_ack (sc_conn s') = false ∧
    forallb (λ b, sbf_left b =? 0) (cn_data_buffer (sc_conn s')) = true.
Proof.
  intros Hr Hprio Hinj Hfill. destruct (send_mmsg_lemma fill alloc padding s b w Hr Hprio Hinj Hfill)
    as (items & s1 & s2 & [Ht Hli Hv Hm _ Hsp Hrec _ _ (_ & Hd & _) Hdata] &
        [E1 [E2 _] [E3 _] _ E5 _ _ E8 (E9 & E9' & _) [E10 _]] & ->).
  exists items. eexists. split; [reflexivity|].
  change (sc_messages (_ <| sc_conn ::= _ |>)) with (sc_messages s2).
  change (sc_iovecs (_ <| sc_conn ::= _ |>)) with (sc_iovecs s2). cbn -[Z.mul].
  split_and!; try done.
  - rewrite E3, Hm, lenZ_resizeZ; lia.
  - rewrite E2, Hv, lenZ_resizeZ; lia.
  - intros i x Hi Hx. destruct (E1 i x Hi Hx) as (H1 & H2 & H3 & _).
    rewrite ?Z.add_0_l in H1, H2, H3. done.
  - by rewrite E5, Hrec.
  - by rewrite E9.
  - rewrite E10, Hdata. done.
Qed.

(** the scatter list outlives its headers. When [send_mmsg] returns, every
    header range of the list still points to the header that was allocated for
    it, and none of those headers is allocated any more: the local vector that
    owned them is gone before the caller passes the list to [sendmmsg]. *)
Theorem send_mmsg_headers_dangle (fill : nat) (alloc : Z → Z) (padding : Z) (s : SendCtx) (b : sbuffer) (w : Z) :
  message_ready (sc_conn s) b w → table_covers (sc_conn s) b → (∀ i j, alloc i = alloc j → i = j) →
  (1 ≤ fill)%nat →
  ∃ s', send_mmsg fill alloc padding 1 s = Some (Val (sbf_len b), s') ∧ 0 < lenZ (sc_messages s') ∧
    ∀ i, 0 ≤ i < lenZ (sc_messages s') →
      nthZ (sc_iovecs s') (2 * i) = Some (mkIovec (alloc i) 26) ∧ sc_heap s' !! alloc i = None.
Proof.
  intros Hr Hprio Hinj Hfill. destruct (send_mmsg_lemma fill alloc padding s b w Hr Hprio Hinj Hfill)
    as (items & s1 & s2 & [_ Hli _ Hm _ _ _ _ _ _ _] & [E1 _ [E3 _] _ _ _ _ _ _ _] & ->).
  eexists. split; [reflexivity|].
  change (sc_messages (_ <| sc_conn ::= _ |>)) with (sc_messages s2).
  change (sc_iovecs (_ <| sc_conn ::= _ |>)) with (sc_iovecs s2).
  change (sc_heap (?s3 <| sc_conn ::= _ |>)) with (sc_heap s3).
  rewrite E3, Hm, lenZ_resizeZ by lia. split; [lia|]. intros i Hi.
  destruct (proj2 (nthZ_Some items i) Hi) as [x Hx].
  destruct (E1 i x ltac:(lia) Hx) as (H1 & _). rewrite Z.add_0_l in H1. split; [done|].
  rewrite free_headers_lookup, decide_True; [done|].
  apply list_elem_of_fmap. exists i. split; [done|]. apply elem_of_seqZ. lia.
Qed.

(* ------------------------------------------------------------------ *)
(** * Where sending goes wrong *)

Lemma emit_item_oob k i addr s x :
  let sb := cn_send_buffer (sc_conn s) in
  SendBuf_wf sb → sb_pos sb = i → nthZ (sb_data sb) i = Some x → lenZ (sb_data sb) < 2 ^ 61 →
  2 ≤ k ≤ 3 → k * lenZ (sb_data sb) ≤ lenZ (sc_iovecs s) →
  nthZ (cn_norm2_vec (sc_conn s)) (si_off x / 1024) = None →
  ∃ s', emit_item k i addr s = (UB, s').
Proof.
  intros sb Hwf Hpos Hx Hlen Hk Hiov Hprio.
  assert (0 ≤ i < lenZ (sb_data sb)) as Hi by (apply nthZ_Some; eauto).
  destruct (proj2 (nthZ_Some (sc_iovecs s) (k * i + 1)) ltac:(nia)) as [iov Hiovx].
  assert (nthZ (sb_data sb) (sb_pos sb) = Some x) as Hx' by (by rewrite Hpos).
  destruct (SendBuf_emit_at sb iov x Hwf Hx' ltac:(lia)) as (stop & sb' & He & _).
  assert (0 ≤ si_off x ∧ si_off x + si_len x < 2 ^ 64 ∧ 0 < si_len x) as (Hox & Hoy & Hlx).
  { destruct Hwf as [Hi' _ _ _ Hoff]. rewrite Forall_lookup in Hi'.
    unfold nthZ in Hx. rewrite bool_decide_true in Hx by lia. specialize (Hi' _ _ Hx). simpl in Hi'. lia. }
  unfold emit_item. erewrite M_bind_val by reflexivity.
  erewrite M_bind_val by (apply lift_val; by rewrite Hiovx).
  erewrite M_bind_val by (apply lift_val, He). cbv beta iota.
  erewrite M_bind_val by reflexivity.
  erewrite M_bind_val by (apply set_iov_some; change (sc_iovecs (s <| sc_conn ::= _ |>)) with (sc_iovecs s); nia).
  cbv zeta. rewrite Z.add_simpl_r, wrap_small by (unfold in_range; lia).
  erewrite M_bind_val by reflexivity. erewrite M_bind_val by reflexivity.
  destruct (updatepktnum _) as [pn sp]. erewrite M_bind_val by reflexivity.
  unfold mbind at 1, M_bind at 1, lift at 1, priority_calculation.
  match goal with |- context [cn_norm2_vec ?c1] =>
    change (cn_norm2_vec c1) with (cn_norm2_vec (sc_conn s)) end. rewrite Hprio. cbn. eauto.
Qed.

Lemma emit_single_undefined alloc l : ∀ i s fuel,
  let sb := cn_send_buffer (sc_conn s) in
  SendBuf_wf sb → sb_pos sb = i → drop (Z.to_nat i) (sb_data sb) = l → lenZ (sb_data sb) < 2 ^ 61 →
  0 ≤ sb_sent sb → sb_sent sb + items_total l ≤ sb_max_data sb < 2 ^ 64 →
  2 * lenZ (sb_data sb) ≤ lenZ (sc_iovecs s) → lenZ (sb_data sb) ≤ lenZ (sc_messages s) →
  Forall (λ p, p = 3) (cn_norm2_vec (sc_conn s)) →
  Exists (λ x, nthZ (cn_norm2_vec (sc_conn s)) (si_off x / 1024) = None) l →
  (length l ≤ fuel)%nat → ∃ s', emit_single fuel alloc i s = Some (UB, s').
Proof.
  induction l as [|x0 l IH]; intros i s fuel sb Hwf Hpos Hdrop Hlen Hsent Hmax Hiov Hmsg Hall Hex Hfuel;
    [by inversion Hex|].
  pose proof (wf_pos _ Hwf) as Hp; rewrite Hpos in Hp.
  assert (nthZ (sb_data sb) i = Some x0) as Hx by
    (unfold nthZ; rewrite bool_decide_true by lia; rewrite <-(Nat.add_0_r (Z.to_nat _)), <-lookup_drop, Hdrop; done).
  destruct fuel as [|fuel]; [simpl in Hfuel; lia|].
  destruct (nthZ (cn_norm2_vec (sc_conn s)) (si_off x0 / 1024)) as [p|] eqn:Hp0; last first.
  { destruct (emit_item_oob 2 i (alloc i) s x0 Hwf Hpos Hx Hlen ltac:(lia) Hiov Hp0) as [s' He].
    cbn [emit_single]. unfold mbind at 1, M_bind at 1. rewrite He. eauto. }
  assert (p = 3) as ->.
  { rewrite Forall_lookup in Hall. unfold nthZ in Hp0. case_bool_decide; [by eapply Hall|done]. }
  apply Exists_cons in Hex as [Hex|Hex]; [congruence|].
  assert (∃ x1 l1, l = x1 :: l1) as (x1 & l1 & Hl) by (destruct l; [by inversion Hex|eauto]).
  assert (lenZ (sb_data sb) = i + lenZ (drop (Z.to_nat i) (sb_data sb))) as Hlens by
    (unfold lenZ in *; rewrite length_drop; lia).
  rewrite Hdrop, Hl, !lenZ_cons in Hlens. pose proof (lenZ_nonneg l1).
  assert (Forall (λ x, 0 < si_len x) (drop (Z.to_nat i) (sb_data sb))) as Hf by
    (apply Forall_drop; eapply Forall_impl; [apply (wf_items _ Hwf)|]; simpl; lia).
  rewrite Hdrop in Hf. apply Forall_cons in Hf as [Hx0 Hf].
  cbn [items_total foldr] in Hmax. fold (items_total l) in Hmax.
  assert (0 < items_total l).
  { rewrite Hl in Hf |- *. apply Forall_cons in Hf as [? Hf]. cbn [items_total foldr]. fold (items_total l1).
    assert (0 ≤ items_total l1); [|lia]. clear -Hf. induction Hf; simpl; lia. }
  destruct (emit_single_turn fuel alloc i s x0 Hwf Hpos Hx Hlen Hiov Hmsg Hp0)
    as (stop & sb' & -> & Hd & Ho & Ha & Hm & Hs & Hstop & Hpos').
  fold sb in Hstop, Hs, Hd, Ho, Ha, Hm.
  rewrite (proj2 (Z.eqb_neq (i + 1) _)), orb_false_r in Hstop by lia.
  rewrite wrap_small in Hs by (unfold in_range; lia).
  rewrite (proj2 (Z.leb_gt _ _)) in Hstop by lia. subst stop.
  set (s1 := emit_single_body alloc i x0 sb' false s).
  assert (cn_send_buffer (sc_conn s1) = sb') as Hsb by done.
  apply (IH (i + 1) s1 fuel); cbv zeta; rewrite ?Hsb; try done; try lia.
  - destruct Hwf. split; rewrite ?Hd, ?Ho, ?Ha, ?Hpos'; try done. lia.
  - rewrite Hd, Z2Nat.inj_add, <-drop_drop, Hdrop by lia. done.
  - by rewrite Hd.
  - rewrite Hd. unfold s1, emit_single_body. cbn -[Z.mul]. rewrite !lenZ_insert. done.
  - rewrite Hd. unfold s1, emit_single_body. cbn -[Z.mul]. rewrite !lenZ_insert. done.
  - simpl in *. lia.
Qed.

(** The last item of a long message starts past the first kilobyte. *)
Lemma tiles_last_off off ptr n items :
  tiles off ptr n items → SEND_BUFFER_SIZE < n → ∃ x, x ∈ items ∧ off + n - SEND_BUFFER_SIZE ≤ si_off x.
Proof.
  unfold SEND_BUFFER_SIZE.
  revert off ptr n. induction items as [|y items IH]; intros off ptr n Ht Hn; cbn [tiles] in Ht; [lia|].
  destruct Ht as (<- & _ & Hy & Ht). unfold SEND_BUFFER_SIZE in Hy. destruct (decide (1350 < n - si_len y)) as [Hlt|Hge].
  - destruct (IH _ _ _ Ht Hlt) as (x & Hx & Hox). exists x. split; [set_solver|lia].
  - destruct items as [|z items]; [simpl in Ht; lia|]. destruct Ht as (Hz & _).
    exists z. split; [set_solver|lia].
Qed.

(** sending a message of 2374 bytes or more through [get_data] and
    [send_mmsg] reads outside [norm2_vec]. [get_data] sizes the priority table
    from the number of iovecs, one entry for up to 1350 of them, while
    [priority_calculation] indexes it by offset / 1024. *)
Theorem send_mmsg_long_message_undefined (fill : nat) (alloc : Z → Z) (padding : Z) (s : SendCtx)
    (c : Connection) (iovecs : list iovec) (b : sbuffer) (w : Z) :
  cn_data_buffer c = [] → 1 ≤ lenZ iovecs ≤ 1350 → sc_conn s = snd (get_data iovecs c) →
  message_ready (sc_conn s) b w → sb_off (cn_send_buffer (sc_conn s)) = 0 → 2374 ≤ sbf_len b → (1 ≤ fill)%nat →
  ∃ s', send_mmsg fill alloc padding 1 s = Some (UB, s').
Proof.
  intros Hc Hio Hconn Hr Hoff0 Hlong Hfill.
  assert (cn_norm2_vec (sc_conn s) = [3]) as Hn2.
  { rewrite Hconn. unfold get_data. rewrite Hc. cbn. unfold chunks_of_1350.
    assert ((if lenZ iovecs `mod` 1350 =? 0 then lenZ iovecs / 1350 else lenZ iovecs / 1350 + 1) = 1) as ->; [|done].
    destruct (Z.eqb_spec (lenZ iovecs `mod` 1350) 0); Z.to_euclidean_division_equations; lia. }
  destruct (send_mmsg_fill fill alloc padding s b w Hr Hfill) as (items & s1 & Hf & ->).
  destruct Hr as [_ [Hlen _] _ _ _ Hoff _ [_ Hww] Hnum].
  destruct Hf as [Ht Hli Hv Hm _ Hsp _ _ Hn (Hwf & Hd & Hp & Hmax & Hs) _]. rewrite Hoff0 in Ht.
  pose proof (tiles_total _ _ _ _ Ht) as Htot.
  destruct (emit_single_undefined alloc items 0 s1 (Z.to_nat (lenZ items) + 1)) as [s2 Hemit]; cbv zeta;
    rewrite ?Hd, ?Hmax, ?Hs, ?Hn, ?Hn2; try done; try lia.
  - rewrite Hv, lenZ_resizeZ; lia.
  - rewrite Hm, lenZ_resizeZ; lia.
  - by repeat constructor.
  - destruct (tiles_last_off _ _ _ _ Ht) as (x & Hx & Hox); [unfold SEND_BUFFER_SIZE; lia|].
    apply Exists_exists. exists x. split; [done|]. apply nthZ_None. right. unfold SEND_BUFFER_SIZE in Hox.
    change (lenZ [3]) with 1. Z.to_euclidean_division_equations; lia.
  - unfold lenZ. lia.
  - eexists. rewrite Hemit. reflexivity.
Qed.

(** [write] into a full buffer: nothing happens but bookkeeping. *)
Lemma SendBuf_write_full src so left wnd ol s :
  SendBuf_len s = sb_max_data s →
  ∃ s', SendBuf_write src so left wnd ol s = (0, left, s') ∧ sb_data s' = sb_data s ∧
    sb_max_data s' = sb_max_data s.
Proof.
  intros Hfull. unfold SendBuf_write, SendBuf_cap.
  set (s0 := if sb_pos s =? 0 then _ else s).
  assert (sb_data s0 = sb_data s ∧ sb_max_data s0 = sb_max_data s) as [Hd Hm] by (unfold s0; by case_match).
  cbv beta iota zeta. change (sb_max_data (s0 <| sb_used_length := _ |>)) with (sb_max_data s0).
  change (sb_used_length (s0 <| sb_used_length := _ |>)) with (SendBuf_len s0).
  assert (SendBuf_len s0 = SendBuf_len s) as Hl by (unfold SendBuf_len; by rewrite Hd).
  rewrite Hl, Hfull, Hm, Z.sub_diag. change (u64 0 =? 0) with true. by eexists.
Qed.

(** The fill loop with a full buffer and data left to write never ends. *)
Lemma fill_loop_stuck fuel cw written c b :
  nthZ (cn_data_buffer c) (cn_current_buffer_pos c) = Some b → sbf_left b ≠ 0 → sbuffer_sent b ≠ sbf_len b →
  SendBuf_len (cn_send_buffer c) = sb_max_data (cn_send_buffer c) → 0 < written < cw → cw < 2 ^ 64 →
  fill_loop fuel cw written c = None.
Proof.
  intros Hb Hleft Hsent Hfull Hw Hcw. revert c b Hb Hleft Hsent Hfull.
  induction fuel as [|fuel IH]; intros c b Hb Hleft Hsent Hfull; [done|].
  cbn [fill_loop]. unfold nwrite. rewrite Hb. cbn [from_option_exn mbind outcome_bind].
  destruct (SendBuf_write_full (sbf_src b) (sbuffer_sent b) (sbf_left b) cw
    (if SendBuf_is_empty (cn_send_buffer c) then 1350 - sbuffer_sent b `mod` 1350 else 0)
    (cn_send_buffer c) Hfull) as (sb & -> & Hd & Hm).
  assert (0 ≤ cn_current_buffer_pos c < lenZ (cn_data_buffer c)) as Hp by (apply nthZ_Some; eauto).
  rewrite (proj2 (Z.eqb_neq written 0)) by lia. cbn [andb]. rewrite Z.add_0_r.
  set (c1 := c <| cn_send_buffer := sb |> <| cn_data_buffer ::= _ |>). cbv zeta.
  assert (nthZ (cn_data_buffer c1) (cn_current_buffer_pos c1) = Some (b <| sbf_left := sbf_left b |>)) as Hb1.
  { unfold c1. cbn. rewrite nthZ_insert by done. by rewrite decide_True. }
  rewrite Hb1. change (sbf_left (b <| sbf_left := sbf_left b |>)) with (sbf_left b).
  rewrite (proj2 (Z.eqb_neq (sbf_left b) 0)) by done. cbn [andb].
  change (sbuffer_sent (b <| sbf_left := sbf_left b |>)) with (sbuffer_sent b).
  change (sbf_len (b <| sbf_left := sbf_left b |>)) with (sbf_len b).
  rewrite (proj2 (Z.eqb_neq (sbuffer_sent b) (sbf_len b))) by done.
  rewrite (wrap_small 64 written) by (unfold in_range; lia). rewrite (proj2 (Z.leb_gt cw written)) by lia.
  apply (IH c1 _ Hb1); [done|done|]. unfold c1. cbn. unfold SendBuf_len. rewrite Hd, Hm. exact Hfull.
Qed.

(** [send_mmsg] can loop forever. When some items of the message await
    retransmission and more of it is left than the rest of the window takes,
    the first iteration fills the window and every later one writes nothing,
    ends no buffer and stays below the window: no number of iterations ends
    the loop. *)
Theorem send_mmsg_livelock (fill : nat) (alloc : Z → Z) (padding pkt_size : Z) (s : SendCtx) (b : sbuffer) :
  let c := sc_conn s in
  let sb := cn_send_buffer c in
  cn_data_buffer c = [b] → cn_current_buffer_pos c = 0 →
  SendBuf_wf sb → sb_data sb ≠ [] → sb_max_data sb = cn_record_win c → SendBuf_len sb < cn_record_win c < 2 ^ 63 →
  cn_record_win c - SendBuf_len sb < sbf_left b ≤ sbf_len b → sbf_len b < 2 ^ 40 →
  0 ≤ sbf_src b → sbf_src b + sbf_len b < 2 ^ 64 → sb_off sb + sbf_len b < 2 ^ 63 →
  send_mmsg fill alloc padding pkt_size s = None.
Proof.
  intros c sb Hb Hcur Hwf Hne Hmax Hwin Hleft Hlen Hsrc Hsrc2 Hoff. unfold send_mmsg.
  fold c. rewrite Hb, Hcur. change (nthZ [b] 0) with (Some b). cbv beta iota.
  assert (SendBuf_is_empty sb = false) as Hemp by (unfold SendBuf_is_empty; by destruct (sb_data sb)).
  assert (next_window c = (cn_record_win c, c)) as -> by (unfold next_window; fold sb; by rewrite Hemp).
  rewrite Hb, Hcur. change (0 <? lenZ [b]) with true. cbv beta iota.
  destruct fill as [|fill]; [done|]. cbn [fill_loop].
  pose proof (SendBuf_total_bound sb Hwf) as Htb. rewrite <-SendBuf_len_total in Htb by done.
  assert (0 < SendBuf_len sb) as Hpos.
  { rewrite SendBuf_len_total by done. destruct Hwf as [Hi _ _ _ _]. destruct (sb_data sb) as [|x l]; [done|].
    apply Forall_cons in Hi as [Hx Hi]. cbn [items_total foldr]. fold (items_total l).
    assert (0 ≤ items_total l); [|lia]. clear -Hi. induction Hi as [|y l Hy]; simpl; lia. }
  assert (nthZ (cn_data_buffer c) 0 = Some b) as Hb0 by (by rewrite Hb).
  destruct (nwrite_spec 0 (cn_record_win c) c b Hb0) as (items & sb' & Heq & Hwf' & Hd & Ht & Ho & Hp & Hm & Hs);
    fold sb; try done; try lia.
  fold sb in Heq, Hd, Ht, Ho, Hm. rewrite ?Hmax in Heq, Ht, Ho, Hm. rewrite Hemp in Hm.
  rewrite Z.min_l in Heq, Ht, Ho by lia. rewrite Hcur, Heq.
  rewrite (proj2 (Z.leb_gt (cn_record_win c - SendBuf_len sb) 0)), andb_false_r by lia. cbv zeta.
  set (b1 := b <| sbf_left := sbf_left b - (cn_record_win c - SendBuf_len sb) |>).
  set (c1 := c <| cn_send_buffer := sb' |> <| cn_data_buffer ::= _ |>).
  assert (cn_data_buffer c1 = [b1]) as Hb1 by (unfold c1; cbn; by rewrite Hb).
  assert (cn_current_buffer_pos c1 = 0) as Hcur1 by (unfold c1; cbn; done).
  rewrite Hb1, Hcur1. change (nthZ [b1] 0) with (Some b1). cbv beta iota.
  assert (sbf_left b1 ≠ 0) as Hl1 by (unfold b1; cbn; lia).
  assert (sbuffer_sent b1 ≠ sbf_len b1) as Hs1.
  { unfold sbuffer_sent, b1. cbn. rewrite wrap_small by (unfold in_range; lia). lia. }
  rewrite (proj2 (Z.eqb_neq (sbf_left b1) 0)), (proj2 (Z.eqb_neq (sbuffer_sent b1) _)) by done. cbn [andb].
  rewrite Z.add_0_l, (wrap_small 64 (cn_record_win c - SendBuf_len sb)) by (unfold in_range; lia).
  rewrite (proj2 (Z.leb_gt (cn_record_win c) _)) by lia.
  rewrite (fill_loop_stuck fill _ _ c1 b1); [done|by rewrite Hb1, Hcur1|done|done| |lia|lia].
  change (cn_send_buffer c1) with sb'. rewrite SendBuf_len_total, Hd, items_total_app by done.
  rewrite (tiles_total _ _ _ _ Ht), <-SendBuf_len_total by done. rewrite Hm. lia.
Qed.

(** a lost packet is never resent. Once the whole message has been moved to
    the send buffer, [send_mmsg] returns -1 (its comment says 0) before it
    emits anything, whatever items await retransmission; the caller's vectors
    are left as they were. *)
Theorem send_mmsg_no_retransmission (fill : nat) (alloc : Z → Z) (padding pkt_size : Z) (s : SendCtx) (b : sbuffer) :
  let c := sc_conn s in
  let sb := cn_send_buffer c in
  nthZ (cn_data_buffer c) (cn_current_buffer_pos c) = Some b → sbf_left b = 0 →
  sb_data sb ≠ [] → SendBuf_len sb < sb_max_data sb < 2 ^ 64 → 0 ≤ SendBuf_len sb → (1 ≤ fill)%nat →
  ∃ s', send_mmsg fill alloc padding pkt_size s = Some (Val (-1), s') ∧
    sc_messages s' = sc_messages s ∧ sc_iovecs s' = sc_iovecs s ∧
    sb_data (cn_send_buffer (sc_conn s')) = sb_data sb ∧
    cn_record_send (sc_conn s') = cn_record_send c ∧ cn_sent_dic (sc_conn s') = cn_sent_dic c.
Proof.
  intros c sb Hb Hleft Hne Hmax Hlen Hfill. unfold send_mmsg. fold c. rewrite Hb.
  assert (SendBuf_is_empty sb = false) as Hemp by (unfold SendBuf_is_empty; by destruct (sb_data sb)).
  assert (next_window c = (cn_record_win c, c)) as -> by (unfold next_window; fold sb; by rewrite Hemp).
  assert (0 ≤ cn_current_buffer_pos c < lenZ (cn_data_buffer c)) as Hp by (apply nthZ_Some; eauto).
  rewrite (proj2 (Z.ltb_lt _ _)) by lia. destruct fill as [|fill]; [lia|]. cbn [fill_loop].
  unfold nwrite. rewrite Hb. cbn [from_option_exn mbind outcome_bind]. fold sb. rewrite Hemp, Hleft.
  assert (∃ sb', SendBuf_write (sbf_src b) (sbuffer_sent b) 0 (cn_record_win c) 0 sb = (-1, 0, sb') ∧
    sb_data sb' = sb_data sb) as (sb' & -> & Hd).
  { unfold SendBuf_write, SendBuf_cap. set (s0 := if sb_pos sb =? 0 then _ else sb).
    assert (sb_data s0 = sb_data sb ∧ sb_max_data s0 = sb_max_data sb) as [Hd Hm] by (unfold s0; by case_match).
    cbv beta iota zeta. change (sb_max_data (s0 <| sb_used_length := _ |>)) with (sb_max_data s0).
    change (sb_used_length (s0 <| sb_used_length := _ |>)) with (SendBuf_len s0).
    assert (SendBuf_len s0 = SendBuf_len sb) as Hl by (unfold SendBuf_len; by rewrite Hd).
    rewrite Hl, Hm, wrap_small by (unfold in_range; lia). rewrite (proj2 (Z.eqb_neq _ 0)) by lia.
    change (0 <=? 0) with true. by eexists. }
  change (-1 <=? 0) with true. change (0 =? 0) with true. cbn [andb mbind option_bind].
  eexists. split; [reflexivity|]. by split_and!.
Qed.

(* ------------------------------------------------------------------ *)
(** * The theorems at concrete inputs *)

Definition demo_alloc (i : Z) : Z := 1000000 + 32 * i.

Lemma demo_alloc_inj i j : demo_alloc i = demo_alloc j → i = j.
Proof. unfold demo_alloc. lia. Qed.

Definition demo_fresh_ctx (len : Z) : SendCtx :=
  mkSendCtx (snd (get_data [mkIovec 4096 len] (Connection_new false 0))) [] [] ∅.

Lemma demo_message_ready len :
  0 < len ≤ 10800 → message_ready (sc_conn (demo_fresh_ctx len)) (sbuffer_new 4096 len) 10800.
Proof.
  intros Hlen. split; try done.
  - change (0 < len < 2 ^ 40 ∧ len = len). lia.
  - change (0 ≤ 4096 ∧ 4096 + len < 2 ^ 64). lia.
  - apply SendBuf_new_wf.
  - change (0 + len < 2 ^ 64). lia.
  - change (len ≤ 10800 < 2 ^ 63). lia.
  - change (sbf_len (sbuffer_new 4096 len)) with len. split; [vm_compute; reflexivity|lia].
Qed.

Lemma demo_table len : 0 < len ≤ 1024 → table_covers (sc_conn (demo_fresh_ctx len)) (sbuffer_new 4096 len).
Proof. intros Hlen o Ho. cbn in Ho |- *. rewrite Z.div_small by lia. done. Qed.

Lemma send_mmsg_single_witness :
  ∃ s' : SendCtx, fst <$> send_mmsg 1 demo_alloc 0 1 (demo_fresh_ctx 1000) = Some (Val 1000) ∧
    cn_stop_flag (sc_conn s') = true.
Proof.
  destruct (send_mmsg_single 1 demo_alloc 0 (demo_fresh_ctx 1000) (sbuffer_new 4096 1000) 10800
    (demo_message_ready 1000 ltac:(lia)) (demo_table 1000 ltac:(lia)) demo_alloc_inj (le_n 1))
    as (items & s' & Heq & _ & _ & _ & _ & _ & _ & _ & Hstop & _).
  exists s'. rewrite Heq. split; [reflexivity|exact Hstop].
Defined.

Lemma send_mmsg_headers_dangle_witness :
  ∃ s', send_mmsg 1 demo_alloc 0 1 (demo_fresh_ctx 1000) = Some (Val 1000, s') ∧ 0 < lenZ (sc_messages s') ∧
    ∀ i, 0 ≤ i < lenZ (sc_messages s') →
      nthZ (sc_iovecs s') (2 * i) = Some (mkIovec (demo_alloc i) 26) ∧ sc_heap s' !! demo_alloc i = None.
Proof.
  apply (send_mmsg_headers_dangle 1 demo_alloc 0 (demo_fresh_ctx 1000) (sbuffer_new 4096 1000) 10800
    (demo_message_ready 1000 ltac:(lia)) (demo_table 1000 ltac:(lia)) demo_alloc_inj (le_n 1)).
Defined.

Lemma send_mmsg_long_message_undefined_witness :
  ∃ s', send_mmsg 1 demo_alloc 0 1 (demo_fresh_ctx 3000) = Some (UB, s').
Proof.
  apply (send_mmsg_long_message_undefined 1 demo_alloc 0 (demo_fresh_ctx 3000) (Connection_new false 0)
    [mkIovec 4096 3000] (sbuffer_new 4096 3000) 10800); try done.
  apply demo_message_ready. lia.
Defined.

(** 150 bytes await retransmission, 19850 are left and the window is 10800. *)
Definition demo_stuck_ctx (left : Z) : SendCtx :=
  mkSendCtx (Connection_new false 0 <| cn_send_buffer := demo_buf |> <| cn_record_win := 10800 |>
    <| cn_data_buffer := [mkSbuffer 4096 20000 left] |>) [] [] ∅.

Lemma send_mmsg_livelock_witness : send_mmsg 1000 demo_alloc 0 1 (demo_stuck_ctx 19850) = None.
Proof.
  apply (send_mmsg_livelock 1000 demo_alloc 0 1 (demo_stuck_ctx 19850) (mkSbuffer 4096 20000 19850));
    try done; apply demo_buf_wf.
Defined.

Lemma send_mmsg_no_retransmission_witness :
  ∃ s', send_mmsg 1 demo_alloc 0 1 (demo_stuck_ctx 0) = Some (Val (-1), s') ∧
    sc_messages s' = [] ∧ sc_iovecs s' = [] ∧
    sb_data (cn_send_buffer (sc_conn s')) = sb_data demo_buf ∧
    cn_record_send (sc_conn s') = [] ∧ cn_sent_dic (sc_conn s') = ∅.
Proof.
  apply (send_mmsg_no_retransmission 1 demo_alloc 0 1 (demo_stuck_ctx 0) (mkSbuffer 4096 20000 0)); done.
Defined.
