(* ===== verification/AckBooks.v ===== *)
(** The sender's books on outstanding elicit-ack requests: the invariant that
    ties [ack_set], [keyToValues], [valueToKeys], [retransmission_ack] and
    [timeout_ack] together, and that every operation of the connection keeps
    it. *)
From Stdlib Require Import SpecFloat.
From S2P Require Import Prelude RangeBuffer Packet RecvBuffer SendBuffer FloatOps RecoveryModel.
From S2P Require Import ConnState ConnAck ConnSend.

(** The fields the books consist of. *)
Definition books_of (c : Connection) :=
  (cn_ack_set c, cn_keyToValues c, cn_valueToKeys c, cn_retransmission_ack c, cn_timeout_ack c,
   next_pkt_num (cn_space1 c)).

Definition same_books (c c' : Connection) : Prop := books_of c' = books_of c.

#[export] Instance same_books_preorder : PreOrder same_books.
Proof. split; [by intros ?|]. unfold same_books. intros ??? -> ->. done. Qed.

(** Every request number in use belongs to the group of one initial request;
    a group is outstanding as a whole, and one of its numbers is the one that
    will be resent; only outstanding numbers have stored bodies. *)
Record books_ok (c : Connection) : Prop := {
  bk_ini : ∀ k ini, cn_valueToKeys c !! k = Some ini →
    ∃ l, cn_keyToValues c !! ini = Some l ∧ k ∈ l;
  bk_group : ∀ ini l, cn_keyToValues c !! ini = Some l →
    ini ∈ cn_ack_set c ∧ ini ∈ l ∧ ∀ k, k ∈ l → cn_valueToKeys c !! k = Some ini;
  bk_live : ∀ ini, ini ∈ cn_ack_set c →
    ∃ l k, cn_keyToValues c !! ini = Some l ∧ k ∈ l ∧ is_Some (cn_retransmission_ack c !! k);
  bk_stored : ∀ k, is_Some (cn_retransmission_ack c !! k) ∨ is_Some (cn_timeout_ack c !! k) →
    is_Some (cn_valueToKeys c !! k);
  bk_num : ∀ k, is_Some (cn_valueToKeys c !! k) → 0 ≤ k < next_pkt_num (cn_space1 c);
}.

Lemma books_ok_same c c' : same_books c c' → books_ok c → books_ok c'.
Proof.
  intros Hs [H1 H2 H3 H4 H5]. unfold same_books, books_of in Hs. injection Hs as E1 E2 E3 E4 E5 E6.
  split; rewrite ?E1, ?E2, ?E3, ?E4, ?E5, ?E6; done.
Qed.

Lemma same_books_num c c' : same_books c c' → next_pkt_num (cn_space1 c') = next_pkt_num (cn_space1 c).
Proof. unfold same_books, books_of. intros H. by injection H. Qed.

Lemma Connection_new_books server now : books_ok (Connection_new server now).
Proof.
  split; cbn; intros *; rewrite ?lookup_empty; try done.
  intros [[? ?]|[? ?]]; done.
Qed.

(* ------------------------------------------------------------------ *)
(** * What does not touch the books *)

Lemma ack_entry_frame unack p w : frame same_books (ack_entry unack p w).
Proof. unfold ack_entry. frame_tac. Qed.
#[local] Hint Resolve ack_entry_frame : frame.

Lemma ack_loop_frame be fuel buf start count w : frame same_books (ack_loop be fuel buf start count w).
Proof.
  revert start count w. induction fuel as [|fuel IH]; intros start count w; cbn [ack_loop]; frame_tac; apply IH.
Qed.

Lemma check_loss_frame be b : frame same_books (check_loss be b).
Proof.
  unfold check_loss. destruct (_ =? _); [frame_tac|]. generalize (length b / 8 + 1)%nat 0.
  intros fuel. induction fuel as [|fuel IH]; intros start; cbn [check_loss_loop]; frame_tac; apply IH.
Qed.

Lemma write_pkt_type_books c : same_books c (snd (write_pkt_type c)).
Proof. unfold write_pkt_type. by repeat case_match; simplify_eq. Qed.

Lemma send_data_frame be unord now out : frame same_books (send_data be unord now out).
Proof.
  unfold send_data. apply frame_bind; [typeclasses eauto| |].
  - intros c. pose proof (write_pkt_type_books c) as H. by destruct (write_pkt_type c).
  - intros []; frame_tac.
Qed.

(* ------------------------------------------------------------------ *)
(** * The operations that do *)

(** Forgetting a whole group. *)
Lemma forget_group_lookup l : ∀ c,
  (∀ k, k ∈ l → 0 ≤ k < 2 ^ 31) →
  let c' := foldl (λ c key, forget_key key c) c l in
  (∀ k, cn_valueToKeys c' !! k = if decide (k ∈ l) then None else cn_valueToKeys c !! k) ∧
  (∀ k, cn_retransmission_ack c' !! k = if decide (k ∈ l) then None else cn_retransmission_ack c !! k) ∧
  (∀ k, cn_timeout_ack c' !! k = if decide (k ∈ l) then None else cn_timeout_ack c !! k) ∧
  cn_keyToValues c' = cn_keyToValues c ∧ cn_ack_set c' = cn_ack_set c ∧ cn_space1 c' = cn_space1 c.
Proof.
  induction l as [|key l IH]; intros c Hl; cbn [foldl]; [done|].
  destruct (IH (forget_key key c)) as (H1 & H2 & H3 & H4 & H5 & H6); [set_solver|].
  assert (0 ≤ key < 2 ^ 31) as Hk by set_solver.
  unfold forget_key in *. rewrite (swrap_small 32 key), (wrap_small 64 key) in * by (unfold in_range; lia).
  split_and!; [| | |done|done|done]; intros k;
    [rewrite H1|rewrite H2|rewrite H3]; cbn; clear -k;
    destruct (decide (key = k)) as [->|Hne];
    [rewrite lookup_delete_eq|rewrite lookup_delete_ne by done|rewrite lookup_delete_eq|
     rewrite lookup_delete_ne by done|rewrite lookup_delete_eq|rewrite lookup_delete_ne by done];
    repeat case_decide; set_solver.
Qed.

(** [process_ack] settles the whole group of the acknowledged number. *)
Lemma forget_group_books c r ini l :
  books_ok c → next_pkt_num (cn_space1 c) ≤ 2 ^ 31 → cn_valueToKeys c !! r = Some ini →
  cn_keyToValues c !! ini = Some l →
  books_ok (foldl (λ c key, forget_key key c) (c <| cn_ack_set ::= λ s, s ∖ {[ini]} |>) l
            <| cn_keyToValues ::= delete ini |>) ∧
  next_pkt_num (cn_space1 (foldl (λ c key, forget_key key c) (c <| cn_ack_set ::= λ s, s ∖ {[ini]} |>) l
            <| cn_keyToValues ::= delete ini |>)) = next_pkt_num (cn_space1 c).
Proof.
  intros [H1 H2 H3 H4 H5] Hn Hr Hl.
  assert (∀ k, k ∈ l → 0 ≤ k < 2 ^ 31) as Hrange.
  { intros k Hk. destruct (H2 _ _ Hl) as (_ & _ & Hg). specialize (Hg k Hk). specialize (H5 k ltac:(eauto)). lia. }
  destruct (forget_group_lookup l (c <| cn_ack_set ::= λ s, s ∖ {[ini]} |>) Hrange)
    as (L1 & L2 & L3 & L4 & L5 & L6).
  cbn in L1, L2, L3, L4, L5, L6. set (c' := foldl _ _ l) in *. clearbody c'.
  assert (∀ k i, cn_valueToKeys c' !! k = Some i → i ≠ ini ∧ cn_valueToKeys c !! k = Some i) as Hother.
  { intros k i. rewrite L1. case_decide as Hk; [done|]. intros Hki. split; [|done]. intros ->.
    destruct (H1 _ _ Hki) as (l' & Hl' & Hin). congruence. }
  destruct (H2 _ _ Hl) as (Hset & _ & Hg).
  split; [|cbn; by rewrite L6]. split; cbn; rewrite ?L4, ?L5, ?L6.
  - intros k i Hki. destruct (Hother _ _ Hki) as [Hne Hki']. rewrite lookup_delete_ne by done. by apply H1.
  - intros i l' [Hne Hi]%lookup_delete_Some. destruct (H2 _ _ Hi) as (Hs' & Hown & Hg').
    split; [set_solver|]. split; [done|].
    intros k Hk. rewrite L1. case_decide as Hkl; [|by apply Hg'].
    specialize (Hg k Hkl). specialize (Hg' k Hk). congruence.
  - intros i [Hi Hne]%elem_of_difference. destruct (H3 _ Hi) as (l' & k & Hl' & Hk & Hs).
    assert (i ≠ ini) by set_solver. exists l', k. rewrite lookup_delete_ne by done. split_and!; [done|done|].
    rewrite L2. case_decide as Hkl; [|done]. destruct (H2 _ _ Hl') as (_ & _ & Hg').
    specialize (Hg k Hkl). specialize (Hg' k Hk). congruence.
  - intros k Hk. rewrite L1. rewrite L2, L3 in Hk. case_decide; [naive_solver|]. by apply H4.
  - intros k Hk. apply H5. rewrite L1 in Hk. by case_decide; [destruct Hk|].
Qed.

(** A fresh request opens a group of its own. *)
Lemma after_fresh_books c c' pn (body : list Z) (t : Z) :
  books_ok c → pn = next_pkt_num (cn_space1 c) → 0 ≤ pn < 2 ^ 63 →
  next_pkt_num (cn_space1 c') = pn + 1 → cn_ack_set c' = {[pn]} ∪ cn_ack_set c →
  cn_keyToValues c' = <[pn := default [] (cn_keyToValues c !! pn) ++ [pn]]> (cn_keyToValues c) →
  cn_valueToKeys c' = <[pn := pn]> (cn_valueToKeys c) →
  cn_retransmission_ack c' = <[pn := (body, t)]> (cn_retransmission_ack c) →
  cn_timeout_ack c' = cn_timeout_ack c → books_ok c'.
Proof.
  intros [H1 H2 H3 H4 H5] Hpn Hr E1 E2 E3 E4 E5 E6.
  assert (cn_valueToKeys c !! pn = None) as Hv.
  { apply eq_None_not_Some. intros Hs. specialize (H5 _ Hs). lia. }
  assert (cn_keyToValues c !! pn = None) as Hk.
  { apply eq_None_not_Some. intros [l Hl]. destruct (H2 _ _ Hl) as (_ & Hin & Hg).
    specialize (Hg _ Hin). congruence. }
  rewrite Hk in E3. change (default [] None ++ [pn]) with [pn] in E3.
  split; rewrite ?E1, ?E2, ?E3, ?E4, ?E5, ?E6.
  - intros k i [[<- <-]|[Hne Hki]]%lookup_insert_Some.
    + exists [pn]. rewrite lookup_insert_eq. split; [done|set_solver].
    + destruct (H1 _ _ Hki) as (l & Hl & Hin). exists l. rewrite lookup_insert_ne by congruence. done.
  - intros i l [[<- <-]|[Hne Hi]]%lookup_insert_Some.
    + split_and!; [set_solver|set_solver|]. intros k ->%list_elem_of_singleton. apply lookup_insert_eq.
    + destruct (H2 _ _ Hi) as (Hs & Hin & Hg). split_and!; [set_solver|done|].
      intros k Hkl. specialize (Hg _ Hkl). rewrite lookup_insert_ne by congruence. done.
  - intros i [->%elem_of_singleton|Hi]%elem_of_union.
    + exists [pn], pn. rewrite !lookup_insert_eq. split_and!; [done|set_solver|eauto].
    + destruct (H3 _ Hi) as (l & k & Hl & Hkl & Hs). exists l, k.
      rewrite lookup_insert_ne by congruence. split_and!; [done|done|].
      rewrite lookup_insert_is_Some. destruct (decide (pn = k)); auto.
  - intros k Hs. destruct (decide (pn = k)) as [<-|Hne]; [rewrite lookup_insert_eq; eauto|].
    rewrite !lookup_insert_ne in * by done. auto.
  - intros k. rewrite lookup_insert_is_Some. intros [<-|[Hne Hs]]; [lia|]. specialize (H5 _ Hs). lia.
Qed.

(** Resending request [pn] under the new number [nn] keeps the group
    outstanding, with [nn] now the number that will be resent. *)
Lemma after_resend_books c c' pn nn ini old (body : list Z) (t : Z) :
  books_ok c → nn = next_pkt_num (cn_space1 c) → 0 ≤ nn < 2 ^ 63 →
  cn_retransmission_ack c !! pn = Some old → cn_valueToKeys c !! pn = Some ini →
  next_pkt_num (cn_space1 c') = nn + 1 → cn_ack_set c' = cn_ack_set c →
  cn_keyToValues c' = <[ini := default [] (cn_keyToValues c !! ini) ++ [nn]]> (cn_keyToValues c) →
  cn_valueToKeys c' = <[nn := ini]> (cn_valueToKeys c) →
  cn_timeout_ack c' = (match cn_timeout_ack c !! pn with
    Some _ => cn_timeout_ack c | None => <[pn := old]> (cn_timeout_ack c) end) →
  cn_retransmission_ack c' = <[nn := (body, t)]> (delete pn (cn_retransmission_ack c)) → books_ok c'.
Proof.
  intros [H1 H2 H3 H4 H5] Hnn Hr Hold Hini E1 E2 E3 E4 E5 E6.
  assert (cn_valueToKeys c !! nn = None) as Hv.
  { apply eq_None_not_Some. intros Hs. specialize (H5 _ Hs). lia. }
  destruct (H1 _ _ Hini) as (l & Hl & Hpl). destruct (H2 _ _ Hl) as (Hset & Hown & Hg).
  assert (∀ k, is_Some ((match cn_timeout_ack c !! pn with
     Some _ => cn_timeout_ack c | None => <[pn := old]> (cn_timeout_ack c) end) !! k) →
     k = pn ∨ is_Some (cn_timeout_ack c !! k)) as Htime.
  { intros k. destruct (cn_timeout_ack c !! pn); [auto|]. rewrite lookup_insert_is_Some. naive_solver. }
  rewrite Hl in E3. change (default [] (Some l)) with l in E3.
  split; rewrite ?E1, ?E2, ?E3, ?E4, ?E5, ?E6.
  - intros k i [[<- <-]|[Hne Hki]]%lookup_insert_Some.
    + exists (l ++ [nn]). rewrite lookup_insert_eq. split; [done|set_solver].
    + destruct (H1 _ _ Hki) as (l' & Hl' & Hin). destruct (decide (ini = i)) as [<-|].
      * exists (l ++ [nn]). rewrite lookup_insert_eq. assert (l' = l) as -> by congruence. split; [done|set_solver].
      * exists l'. by rewrite lookup_insert_ne.
  - intros i l' [[<- <-]|[Hne Hi]]%lookup_insert_Some.
    + split_and!; [done|set_solver|]. intros k [Hk| ->%list_elem_of_singleton]%elem_of_app; [|apply lookup_insert_eq].
      specialize (Hg _ Hk). rewrite lookup_insert_ne by congruence. done.
    + destruct (H2 _ _ Hi) as (Hs & Hin & Hg'). split_and!; [done|done|].
      intros k Hkl. specialize (Hg' _ Hkl). rewrite lookup_insert_ne by congruence. done.
  - intros i Hi. destruct (H3 _ Hi) as (l' & k & Hl' & Hkl & Hs). destruct (decide (ini = i)) as [<-|Hne].
    + exists (l ++ [nn]), nn. rewrite !lookup_insert_eq. split_and!; [done|set_solver|eauto].
    + exists l', k. rewrite lookup_insert_ne by done. split_and!; [done|done|].
      destruct (H2 _ _ Hl') as (_ & _ & Hg'). specialize (Hg' _ Hkl).
      rewrite lookup_insert_is_Some, lookup_delete_ne by congruence. destruct (decide (nn = k)); auto.
  - intros k Hk. rewrite lookup_insert_is_Some. destruct (decide (nn = k)) as [|Hne]; [auto|].
    right. split; [done|]. destruct Hk as [Hk|Hk].
    + rewrite lookup_insert_ne in Hk by done. apply H4. left.
      destruct (decide (pn = k)) as [<-|]; [eauto|]. by rewrite lookup_delete_ne in Hk.
    + apply Htime in Hk as [->|Hk]; [eauto|auto].
  - intros k. rewrite lookup_insert_is_Some. intros [<-|[Hne Hs]]; [lia|]. specialize (H5 _ Hs). lia.
Qed.

Lemma frame_run {A} (m : M Connection A) c r c' :
  frame same_books m → m c = (r, c') → books_ok c → books_ok c'.
Proof. intros Hf Hm. specialize (Hf c). rewrite Hm in Hf. by apply books_ok_same. Qed.

Lemma update_rtt_books now c c' : update_rtt now c = Val c' → same_books c c'.
Proof.
  unfold update_rtt. intros H. apply outcome_bind_val in H as (d & _ & H).
  case_match; [by injection H as <-|]. apply outcome_bind_val in H as (n & _ & H). by injection H as <-.
Qed.

Lemma process_ack_books be now buf c r c' :
  books_ok c → next_pkt_num (cn_space1 c) ≤ 2 ^ 31 → process_ack be now buf c = (Val r, c') →
  books_ok c' ∧ next_pkt_num (cn_space1 c') = next_pkt_num (cn_space1 c).
Proof.
  intros Hok Hn H. unfold process_ack in H. do 3 M_inv H. case_bool_decide.
  { M_inv H. split; [by apply (books_ok_same c)|done]. }
  cbv zeta in H. destruct (ack_sent_time _ c) as [t|]; [|by M_inv H].
  do 2 M_inv H. M_inv H. match goal with
    Hu : update_rtt _ _ = Val ?x |- _ => rename x into c2, Hu into Hup end.
  apply update_rtt_books in Hup. M_inv H.
  assert (same_books c c2) as Hsame by (etrans; [|exact Hup]; done).
  assert (books_ok c2) as Hok2 by (by apply (books_ok_same c)).
  pose proof (same_books_num _ _ Hsame) as Hnum. rewrite <-Hnum in Hn |- *.
  match type of H with (match ?m with _ => _ end) _ = _ => destruct m as [ini|] eqn:Hini end; [|by M_inv H].
  destruct (bk_ini _ Hok2 _ _ Hini) as (l & Hl & _).
  pose proof (forget_group_books c2 _ _ _ Hok2 Hn Hini Hl) as [Hok3 Hs3].
  do 2 M_inv H.
  change (cn_keyToValues (c2 <| cn_ack_set ::= _ |>)) with (cn_keyToValues c2) in H. rewrite Hl in H.
  change (default [] (Some l)) with l in H. do 4 M_inv H. M_inv H.
  match goal with Hrun : ack_loop _ _ _ _ _ _ ?c3 = (_, ?s3) |- _ =>
    assert (same_books c3 s3) as Hs4
      by (pose proof (ack_loop_frame be (length a1) a1 0 1 (S754_zero false) c3) as Hf; by rewrite Hrun in Hf);
    assert (books_ok s3) as Hok4 by (by apply (books_ok_same c3));
    apply same_books_num in Hs4;
    split; [apply (books_ok_same s3); [by case_match|done]|]
  end.
  etrans; [|exact Hs3]. etrans; [|exact Hs4]. by case_match.
Qed.

Lemma recv_slice_books be now buf c r c' :
  books_ok c → next_pkt_num (cn_space1 c) ≤ 2 ^ 31 → recv_slice be now buf c = (Val r, c') →
  books_ok c' ∧ next_pkt_num (cn_space1 c') = next_pkt_num (cn_space1 c).
Proof.
  intros Hok Hn H. unfold recv_slice in H. do 3 M_inv H.
  change (next_pkt_num (cn_space1 c)) with
    (next_pkt_num (cn_space1 (c <| cn_recv_count ::= λ n, u64 (n + 1) |>))) in *.
  assert (books_ok (c <| cn_recv_count ::= λ n, u64 (n + 1) |>)) as Hok1 by (by apply (books_ok_same c)).
  revert H Hn. set (c1 := c <| cn_recv_count ::= _ |>) in *. clearbody c1. intros H Hn.
  assert (∀ m, frame same_books m → m c1 = (Val r, c') →
    books_ok c' ∧ next_pkt_num (cn_space1 c') = next_pkt_num (cn_space1 c1)) as Hframe.
  { intros m Hf Hm. specialize (Hf c1). rewrite Hm in Hf. split; [by apply (books_ok_same c1)|].
    by apply same_books_num in Hf. }
  destruct (h_ty _).
  2: { destruct (cn_is_server c1).
    - do 2 M_inv H. match goal with Hu : update_rtt _ _ = Val _ |- _ =>
        apply update_rtt_books in Hu as Hup end. M_inv H. M_inv H.
      split; [|by apply same_books_num in Hup].
      apply (books_ok_same c1); [|done]. etrans; [exact Hup|done].
    - M_inv H. M_inv H. split; [by apply (books_ok_same c1)|done]. }
  4: { M_inv H. match goal with Hp : process_ack _ _ _ _ = _ |- _ => apply process_ack_books in Hp as [Hok2 <-] end;
      [|done|done]. M_inv H. M_inv H. split; [apply (books_ok_same s); [by case_match|done]|by case_match]. }
  all: refine (Hframe _ _ H).
  all: frame_tac; apply check_loss_frame.
Qed.

Lemma books_ok_num c n :
  books_ok c → next_pkt_num (cn_space1 c) ≤ n → books_ok (c <| cn_space1 := mkPktNumSpace n |>).
Proof. intros [H1 H2 H3 H4 H5] Hn. split; try done. intros k Hk. specialize (H5 k Hk). cbn. lia. Qed.

Lemma updatepktnum_small sp :
  0 ≤ next_pkt_num sp < 2 ^ 63 → updatepktnum sp = (next_pkt_num sp, mkPktNumSpace (next_pkt_num sp + 1)).
Proof.
  intros Hn. unfold updatepktnum. rewrite (wrap_small 64 (_ + 1)) by (unfold in_range; lia).
  rewrite wrap_small by (unfold in_range; lia). do 2 f_equal; lia.
Qed.

Lemma elicit_fresh_books be n now spare out_cap out c r c' :
  books_ok c → 0 ≤ next_pkt_num (cn_space1 c) < 2 ^ 31 →
  elicit_fresh be n now spare out_cap out c = (Val r, c') →
  books_ok c' ∧ next_pkt_num (cn_space1 c') = next_pkt_num (cn_space1 c) + 1.
Proof.
  intros Hok Hn H. unfold elicit_fresh in H. M_inv H. rewrite updatepktnum_small in H0 by lia.
  apply run_inv in H0 as [-> ->]. do 4 M_inv H. M_inv H. split; [|done].
  by eapply (after_fresh_books c _ _ _ _ Hok eq_refl ltac:(lia)).
Qed.

Lemma send_elicit_ack_books be unord clock spare out_cap out c r c' :
  books_ok c → 0 ≤ next_pkt_num (cn_space1 c) < 2 ^ 31 →
  send_elicit_ack be unord clock spare out_cap out c = (Val r, c') →
  books_ok c' ∧ next_pkt_num (cn_space1 c) ≤ next_pkt_num (cn_space1 c') ≤ next_pkt_num (cn_space1 c) + 1.
Proof.
  intros Hok Hn H. unfold send_elicit_ack in H. M_inv H.
  destruct (_ && _ && _); [M_inv H; split; [done|lia]|].
  destruct (negb _).
  { cbv zeta in H. destruct (_ <=? _); apply elicit_fresh_books in H as [? ->]; try done; (split; [done|lia]). }
  M_inv H. match type of H with (match ?x with _ => _ end) _ = _ => destruct x as [[pn now]|] end;
    [|M_inv H; split; [done|lia]].
  M_inv H. rewrite updatepktnum_small in * by lia.
  match goal with Hr : (Val _, _) = (Val _, _) |- _ => apply run_inv in Hr as [-> ->] end. do 2 M_inv H.
  cbv zeta in H. do 3 M_inv H. M_inv H.
  set (nn := next_pkt_num (cn_space1 c)) in *.
  match goal with Hr : from_option_exn OutOfRange (_ !! pn) = Val ?x |- _ =>
    change (cn_retransmission_ack (c <| cn_space1 := _ |>)) with (cn_retransmission_ack c) in Hr;
    destruct (cn_retransmission_ack c !! pn) as [old|] eqn:Hold; [|done]; cbn in Hr;
    injection Hr as <- end.
  destruct (bk_stored _ Hok pn) as [ini Hini]; [left; eauto|].
  split; [|cbn; fold nn; lia].
  eapply (after_resend_books c _ pn nn ini old _ _ Hok eq_refl ltac:(lia) Hold Hini); try reflexivity;
    cbn; by rewrite Hini.
Qed.

(** [send_mmsg] and the other operations leave the books alone. *)
Definition same_books_ctx (s s' : SendCtx) : Prop := same_books (sc_conn s) (sc_conn s').
#[export] Instance same_books_ctx_preorder : PreOrder same_books_ctx.
Proof. split; [by intros ?|]. intros ??? H1 H2. unfold same_books_ctx in *. by etrans. Qed.

Lemma set_iov_frame i v : frame same_books_ctx (set_iov i v).
Proof. intros s. unfold set_iov. by case_match. Qed.
Lemma set_msg_frame i m : frame same_books_ctx (set_msg i m).
Proof. intros s. unfold set_msg. by case_match. Qed.
#[local] Hint Resolve set_iov_frame set_msg_frame : frame.

Lemma emit_item_frame k i addr : frame same_books_ctx (emit_item k i addr).
Proof. unfold emit_item. frame_tac. Qed.
#[local] Hint Resolve emit_item_frame : frame.

Ltac by_cases_refl :=
  lazymatch goal with |- same_books_ctx _ (if ?b then _ else _) => destruct b end; reflexivity.

Lemma emit_single_frame alloc : ∀ fuel i s r s', emit_single fuel alloc i s = Some (r, s') → same_books_ctx s s'.
Proof.
  induction fuel as [|fuel IH]; intros i s r s' H; [done|]. cbn [emit_single] in H.
  match type of H with context [match ?m s with _ => _ end] =>
    assert (frame same_books_ctx m) as Hf by (frame_tac; by_cases_refl); specialize (Hf s);
    destruct (m s) as [[[]| |] s1] end; simplify_eq/=; try done.
  etrans; [exact Hf|]. by eapply IH.
Qed.

Lemma emit_merged_frame alloc padding ps : ∀ fuel i s r s',
  emit_merged fuel alloc padding ps i s = Some (r, s') → same_books_ctx s s'.
Proof.
  induction fuel as [|fuel IH]; intros i s r s' H; [done|]. cbn [emit_merged] in H.
  match type of H with context [match ?m s with _ => _ end] =>
    assert (frame same_books_ctx m) as Hf by (frame_tac; by_cases_refl); specialize (Hf s);
    destruct (m s) as [[[]| |] s1] end; simplify_eq/=; try done.
  etrans; [exact Hf|]. by eapply IH.
Qed.

Lemma fill_loop_frame : ∀ fuel cw w c r c', fill_loop fuel cw w c = Some (r, c') → same_books c c'.
Proof.
  induction fuel as [|fuel IH]; intros cw w c r c' H; [done|]. cbn [fill_loop] in H.
  destruct (nwrite _ cw c) as [[n c1]| |] eqn:Hw; [|by simplify_eq..].
  assert (same_books c c1) as Hs.
  { unfold nwrite in Hw. apply outcome_bind_val in Hw as (b & _ & Hw). cbv zeta in Hw.
    destruct (SendBuf_write _ _ _ _ _ _) as [[? ?] ?]. by injection Hw as _ <-. }
  repeat case_match; simplify_eq/=; try done; (etrans; [exact Hs|]); try done; eapply IH in H; exact H.
Qed.

Lemma next_window_books c : same_books c (snd (next_window c)).
Proof. unfold next_window. repeat case_match; by simplify_eq/=. Qed.

Lemma send_mmsg_books fill alloc padding ps s r s' :
  send_mmsg fill alloc padding ps s = Some (r, s') → same_books_ctx s s'.
Proof.
  unfold send_mmsg. destruct (nthZ _ _); [|by intros [= <- <-]].
  pose proof (next_window_books (sc_conn s)) as Hw. destruct (next_window (sc_conn s)) as [w c1]. simpl in Hw.
  intros H. apply bind_Some in H as ([r1 c2] & Hf & H).
  assert (same_books (sc_conn s) c2) as Hs.
  { destruct (_ <? _); [apply fill_loop_frame in Hf; by etrans|by injection Hf as _ <-]. }
  destruct r1 as [[]| |]; [by injection H as <- <-| |by injection H as <- <-..].
  destruct (ps =? 1); [|destruct (ps =? 0); [by injection H as <- <-|]].
  - apply fmap_Some in H as ([r2 s2] & H & Heq). apply emit_single_frame in H.
    unfold same_books_ctx in *. etrans; [exact Hs|]. etrans; [exact H|].
    destruct r2; [destruct (_ =? 0)|..]; by injection Heq as _ ->.
  - apply fmap_Some in H as ([r2 s2] & H & Heq). apply emit_merged_frame in H.
    unfold same_books_ctx in *. etrans; [exact Hs|]. etrans; [exact H|].
    destruct r2; [destruct (_ =? 0)|..]; by injection Heq as _ ->.
Qed.

(* ------------------------------------------------------------------ *)
(** * Reachability *)

(** The connections an application can reach: a new connection, then any
    sequence of completed calls of the operations that change it. [Connection]
    has no lock: the calls of one connection are made one after the other. The
    steps that number a packet of the second space do so below 2^31, where the
    numbers pass through [int] unharmed. *)
Inductive conn_reach (be : bool) (unord : ∀ A, gmap Z A → list (Z * A)) : Connection → Prop :=
  | reach_new server now : conn_reach be unord (Connection_new server now)
  | reach_recv c now buf n c' :
      conn_reach be unord c → recv_slice be now buf c = (Val n, c') → conn_reach be unord c'
  | reach_elicit c clock spare out_cap out r c' :
      conn_reach be unord c → next_pkt_num (cn_space1 c) < 2 ^ 31 - 1 →
      send_elicit_ack be unord clock spare out_cap out c = (Val r, c') →
      conn_reach be unord c'
  | reach_data c now out r c' :
      conn_reach be unord c → send_data be unord now out c = (Val r, c') → conn_reach be unord c'
  | reach_stop c out r c' :
      conn_reach be unord c → next_pkt_num (cn_space1 c) < 2 ^ 31 - 1 →
      send_data_stop be out c = (Val r, c') → conn_reach be unord c'
  | reach_get_data c iovecs : conn_reach be unord c → conn_reach be unord (snd (get_data iovecs c))
  | reach_mmsg s fill alloc padding ps r s' :
      conn_reach be unord (sc_conn s) → send_mmsg fill alloc padding ps s = Some (Val r, s') →
      conn_reach be unord (sc_conn s')
  | reach_complete c : conn_reach be unord c → conn_reach be unord (snd (transmission_complete c))
  | reach_read c out n r c' :
      conn_reach be unord c → Connection_read out n c = Some (Val (r, c')) → conn_reach be unord c'
  | reach_send_all c now b c' :
      conn_reach be unord c → send_all now c = Val (b, c') → conn_reach be unord c'
  | reach_set_rtt c inter : conn_reach be unord c → conn_reach be unord (set_rtt inter c)
  | reach_data_write c len : conn_reach be unord c → conn_reach be unord (snd (data_write len c)).

Lemma send_all_books now c b c' : send_all now c = Val (b, c') → same_books c c'.
Proof.
  unfold send_all. cbv zeta. set (c1 := set_handshake now _). assert (same_books c c1) as H1 by reflexivity.
  clearbody c1.
  assert (∀ r, (let '(written, c) := Connection_write c1 in
    rest ← erase_front written (cn_send_data_buf c);
    Val (true, c <| cn_send_data_buf := rest |>
                 <| cn_written_data ::= λ n, u64 (n + written) |>
                 <| cn_total_offset ::= λ n, u64 (n + written) |>)) = Val r → same_books c1 (snd r)) as Hgo.
  { intros r H. unfold Connection_write in H. pose proof (next_window_books c1) as Hw.
    destruct (next_window c1) as [w c2]. cbn in H, Hw. apply outcome_bind_val in H as (rest & _ & H).
    injection H as <-. etrans; [exact Hw|reflexivity]. }
  destruct (0 <? _).
  - intros H. apply Hgo in H. by etrans.
  - destruct (SendBuf_is_empty _); [intros H; by injection H as _ <-|].
    intros H. apply Hgo in H. by etrans.
Qed.


Lemma conn_reach_books be unord c :
  conn_reach be unord c → books_ok c ∧ 0 ≤ next_pkt_num (cn_space1 c) < 2 ^ 31.
Proof.
  assert (∀ c c', same_books c c' → books_ok c ∧ 0 ≤ next_pkt_num (cn_space1 c) < 2 ^ 31 →
    books_ok c' ∧ 0 ≤ next_pkt_num (cn_space1 c') < 2 ^ 31) as Hsame.
  { intros c1 c2 Hs [Hok Hn]. split; [by apply (books_ok_same c1)|].
    apply same_books_num in Hs. by rewrite Hs. }
  induction 1 as [server now|c now buf n c' _ [IH Hn] Hs|c clock spare oc out r c' _ [IH Hn] Hb Hs
    |c now out r c' _ IH Hs|c out r c' _ [IH Hn] Hb Hs|c iovecs _ IH|s fill alloc padding ps r s' _ IH Hs
    |c _ IH|c out n r c' _ IH Hs|c now b c' _ IH Hs|c inter _ IH|c len _ IH].
  - split; [apply Connection_new_books|done].
  - apply recv_slice_books in Hs as [? ->]; [done|done|lia].
  - apply send_elicit_ack_books in Hs as [? ?]; [split; [done|lia]|done|done].
  - revert IH. apply Hsame. pose proof (send_data_frame be unord now out c) as Hf. by rewrite Hs in Hf.
  - unfold send_data_stop in Hs. M_inv Hs. rewrite updatepktnum_small in * by lia.
    match goal with Hr : (Val _, _) = (Val _, _) |- _ => apply run_inv in Hr as [-> ->] end.
    M_inv Hs. M_inv Hs. split; [apply books_ok_num; [done|lia]|cbn; lia].
  - revert IH. apply Hsame. unfold get_data. by case_match.
  - revert IH. apply Hsame. by apply send_mmsg_books in Hs.
  - revert IH. apply Hsame. unfold transmission_complete. cbv zeta. by repeat case_match; simplify_eq/=.
  - revert IH. apply Hsame. unfold Connection_read in Hs.
    apply bind_Some in Hs as (o & _ & Hs). injection Hs as Hs.
    apply outcome_bind_val in Hs as ([[? ?] ?] & _ & Hs). by injection Hs as _ <-.
  - revert IH. apply Hsame. by apply send_all_books in Hs.
  - revert IH. apply Hsame. unfold set_rtt. by case_match.
  - revert IH. apply Hsame. unfold data_write. cbn. by repeat case_match; simplify_eq/=.
Qed.

(** C4: the books of a reachable connection are consistent: every number of a
    stored request belongs to exactly one outstanding group, the groups are
    those of [ack_set], and of every outstanding group one number is scheduled
    to be resent. So no request is forgotten while it is unanswered, and none
    is resent once it has been answered: nothing is stored for retransmission
    exactly when nothing is outstanding. *)
Theorem conn_books (be : bool) (unord : ∀ A, gmap Z A → list (Z * A)) (c : Connection) :
  conn_reach be unord c →
  books_ok c ∧ (cn_ack_set c = ∅ ↔ cn_retransmission_ack c = ∅).
Proof.
  intros Hr. apply conn_reach_books in Hr as [Hok _]. split; [done|].
  destruct Hok as [H1 H2 H3 H4 H5]. split; intros He.
  - apply map_empty. intros k. apply eq_None_not_Some. intros Hs.
    destruct (H4 k (or_introl Hs)) as [ini Hini]. destruct (H1 _ _ Hini) as (l & Hl & _).
    destruct (H2 _ _ Hl) as (Hin & _). set_solver.
  - apply leibniz_equiv, elem_of_equiv_empty. intros ini Hin.
    destruct (H3 _ Hin) as (l & k & _ & _ & [? Hs]). rewrite He, lookup_empty in Hs. done.
Qed.

(* ------------------------------------------------------------------ *)
(** * The theorems at concrete inputs *)

Lemma conn_books_witness :
  let c := snd (get_data [mkIovec 4096 100] (Connection_new false 0)) in
  books_ok c ∧ (cn_ack_set c = ∅ ↔ cn_retransmission_ack c = ∅).
Proof.
  apply (conn_books false (λ A m, map_to_list m)). apply reach_get_data, reach_new.
Defined.
