(* ===== verification/DmludpApi.v ===== *)
(** The C-style interface of [src/gloo/dmludp.h]: error codes, and the
    wrappers that copy between raw buffers and vectors around the connection's
    operations. A raw buffer of [len] bytes is the list of its bytes; what a
    wrapper writes through its pointer is the list it returns. *)
From Stdlib Require Import SpecFloat.
From S2P Require Import Prelude RangeBuffer Packet RecvBuffer SendBuffer FloatOps RecoveryModel.
From S2P Require Import ConnState ConnAck ConnSend.

(** [enum dmludp_error] *)
Inductive dmludp_error :=
  | ERR_DONE | ERR_BUFFER_TOO_SHORT | ERR_STOP | ERR_INVALID_STATE | ERR_INVALID_TRANSPORT_PARAM
  | ERR_CRYPTO_FAIL | ERR_TLS_FAIL | ERR_FLOW_CONTROL | ERR_FINAL_SIZE | ERR_CONGESTION_CONTROL
  | ERR_ID_LIMIT | ERR_OUT_OF_IDENTIFIERS.

Definition error_code (e : dmludp_error) : Z :=
  match e with
  | ERR_DONE => -1 | ERR_BUFFER_TOO_SHORT => -2 | ERR_STOP => -3 | ERR_INVALID_STATE => -6
  | ERR_INVALID_TRANSPORT_PARAM => -8 | ERR_CRYPTO_FAIL => -9 | ERR_TLS_FAIL => -10
  | ERR_FLOW_CONTROL => -11 | ERR_FINAL_SIZE => -13 | ERR_CONGESTION_CONTROL => -14
  | ERR_ID_LIMIT => -17 | ERR_OUT_OF_IDENTIFIERS => -18
  end.

Section api.
Context (be : bool) (unord : ∀ A, gmap Z A → list (Z * A)).

(** [dmludp_header_info(data, buf_len, type, pn)]: the result and [pn], which
    is an [int]; [type] is never written. *)
Definition dmludp_header_info (data : list Z) : outcome (Z * Z) :=
  hdr ← from_slice be data;
  let result := match h_ty hdr with
                | Retry => 1 | Handshake => 2 | Application => 3 | ElicitAck => 4 | ACK => 5
                | Stop => 6 | Fin => 7 | StartAck => 8 | Unknown => 0 end in
  Val (result, s32 (h_pkt_num hdr)).

Definition dmludp_set_rtt (interval : Z) : M Connection unit := modify (set_rtt (u64 interval)).

Definition dmludp_get_data (iovecs : list iovec) : M Connection bool :=
  λ c, let '(b, c) := get_data iovecs c in (Val b, c).

Definition dmludp_transmission_complete : M Connection bool :=
  λ c, let '(b, c) := transmission_complete c in (Val b, c).

(** [memcpy(out, v.data(), n)] into the [len] bytes at [out]: outside either
    range it is undefined. *)
Definition copy_out (v : list Z) (n len : Z) : outcome (list Z) :=
  if len <? n then UB else from_option_ub (sub v 0 n).

(** The vector that receives the packet is created with [out_len] zeros;
    [realloc n] is the capacity the allocator gives it when [n] bytes do not
    fit. *)
Definition dmludp_send_elicit_ack (clock : nat → Z) (spare : list Z) (realloc : Z → Z) (out_len : Z)
    : M Connection (Z * list Z) :=
  let out := replicate (Z.to_nat out_len) 0 in
  c ← get;
  let need := lenZ (cn_record_send c) in
  let size := Z.min 160 (u64 (need - cn_ack_point c)) * 8 + 26 in
  let cap := if size <=? out_len then out_len else realloc size in
  '(written, out) ← send_elicit_ack be unord clock spare cap out;
  if 0 <? written then bs ← lift (copy_out out written out_len); mret (written, bs)
  else mret (written, []).

Definition dmludp_send_data_stop (out_len : Z) : M Connection (Z * list Z) :=
  if out_len <=? 0 then mret (error_code ERR_BUFFER_TOO_SHORT, [])
  else
    '(written, out) ← send_data_stop be (replicate (Z.to_nat out_len) 0);
    bs ← lift (copy_out out written out_len); mret (written, bs).

Definition dmludp_send_data_handshake (out_len : Z) : M Connection (Z * list Z) :=
  if out_len <=? 0 then mret (error_code ERR_BUFFER_TOO_SHORT, [])
  else
    '(written, out) ← send_data_handshake be (replicate (Z.to_nat out_len) 0);
    bs ← lift (copy_out out written out_len); mret (written, bs).

(** [dmludp_conn_send]: copies [out_len] bytes and returns [written]. *)
Definition dmludp_conn_send (now out_len : Z) : M Connection (Z * list Z) :=
  if out_len <=? 0 then mret (error_code ERR_BUFFER_TOO_SHORT, [])
  else
    '(written, buf) ← send_data be unord now (replicate (Z.to_nat out_len) 0);
    if negb (written =? 0) then
      bs ← lift (copy_out buf out_len out_len); mret (written, bs)
    else
      stopped ← gets is_stopped;
      mret (if (stopped : bool) then error_code ERR_DONE else written, []).

Definition dmludp_conn_recv (now : Z) (buf : list Z) : M Connection Z :=
  if lenZ buf <=? 0 then mret (error_code ERR_BUFFER_TOO_SHORT)
  else
    received ← recv_slice be now buf;
    if received =? 0 then
      hdr ← lift (from_slice be buf);
      mret (if bool_decide (h_ty hdr = Stop) then error_code ERR_STOP
            else if bool_decide (h_ty hdr = Fin) then error_code ERR_DONE else received)
    else mret received.

(** [dmludp_data_read(conn, buf, len)]: reads into a fresh vector and copies
    its [size()] bytes to [buf], which has [len]. *)
Definition dmludp_data_read (len : Z) (c : Connection) : option (outcome (Z * list Z * Connection)) :=
  if len <=? 0 then Some (Val (error_code ERR_BUFFER_TOO_SHORT, [], c))
  else
    r ← Connection_read (replicate (Z.to_nat len) 0) len c;
    Some ('(result, slice, c) ← r;
          bs ← copy_out slice (lenZ slice) len;
          Val (result, bs, c)).

(** The wrappers that only forward to an operation of the connection. *)
Definition dmludp_config_new : Config := Config_new.
Definition dmludp_accept (now : Z) : Connection := Connection_accept now.
Definition dmludp_connect (now : Z) : Connection := Connection_connect now.
Definition dmludp_data_write (len : Z) (c : Connection) : Z * Connection := data_write len c.
Definition dmludp_data_send_mmsg (fill : nat) (alloc : Z → Z) (padding pkt_size : Z) (s : SendCtx) :
    option (outcome Z * SendCtx) := send_mmsg fill alloc padding pkt_size s.
Definition dmludp_enable_adding (c : Connection) : bool := enable_adding c.
Definition dmludp_conn_send_all (now : Z) (c : Connection) : outcome (bool * Connection) := send_all now c.
Definition dmludp_conn_is_empty (c : Connection) : bool := data_is_empty c.
Definition dmludp_conn_data_empty (c : Connection) : bool := data_empty c.
Definition dmludp_is_empty (c : Connection) : Z := if conn_empty c then 1 else 0.
Definition dmludp_buffer_is_empty (c : Connection) : bool := conn_is_empty c.
Definition dmludp_conn_is_stop (c : Connection) : bool := is_stopped c.
Definition dmludp_is_waiting (c : Connection) : bool := is_waiting c.
Definition dmludp_conn_is_closed (c : Connection) : bool := is_closed c.
Definition dmludp_conn_has_recv (c : Connection) : bool := has_recv c.
Definition dmludp_conn_recv_len (c : Connection) : outcome Z := recv_len c.

(** [dmludp_get_rtt]: [get_rtt] returns a [double], converted to [long]. *)
Definition dmludp_get_rtt (c : Connection) : outcome Z :=
  from_option_ub (r ← f_trunc (get_rtt c); if (- 2 ^ 63 <=? r) && (r <? 2 ^ 63) then Some r else None).

End api.

(* ------------------------------------------------------------------ *)
(** * Receiving a message and reading it back *)

(** A data packet as the peer's [send_mmsg] lays it out. *)
Definition data_packet (be : bool) (pn prio : Z) (c : Z * list Z) : list Z :=
  header_bytes be (mkHeader Application pn prio c.1 (lenZ c.2)) ++ c.2.

(** The connection's receive buffer after it was given packets in any order. *)
Fixpoint recv_all (be : bool) (now : Z) (pkts : list (list Z)) : M Connection (list Z) :=
  match pkts with
  | [] => mret []
  | p :: pkts => n ← dmludp_conn_recv be now p; l ← recv_all be now pkts; mret (n :: l)
  end.

(** What decides how the connection answers a request. *)
Definition reply_fields (c : Connection) :=
  (cn_rtt c, cn_is_server c, cn_handshake_confirmed c, cn_recv_hashmap c).

Lemma recv_data_packet be now pn prio ch c :
  is_u64 pn → is_u8 prio → chunk_ok ch →
  ∃ c', dmludp_conn_recv be now (data_packet be pn prio ch) c = (Val (lenZ ch.2), c') ∧
    cn_rec_buffer c' = RecvBuf_write ch.2 ch.1 (cn_rec_buffer c) ∧
    (∀ o, is_Some (cn_recv_dic c' !! o) ↔ o = ch.1 ∨ is_Some (cn_recv_dic c !! o)) ∧
    reply_fields c' = reply_fields c.
Proof.
  intros Hpn Hprio (H0 & H1 & H2). unfold dmludp_conn_recv, data_packet.
  set (h := mkHeader Application pn prio ch.1 (lenZ ch.2)).
  assert (Header_ok h) as Hh by (unfold Header_ok, in_range in *; simpl; lia).
  assert (lenZ (header_bytes be h ++ ch.2) = 26 + lenZ ch.2) as Hl by (by rewrite lenZ_app, header_bytes_len).
  rewrite (proj2 (Z.leb_gt _ 0)) by lia.
  set (c1 := c <| cn_recv_count ::= λ n, u64 (n + 1) |> <| cn_recv_count ::= λ n, u64 (n + 1) |>
    <| cn_rec_buffer ::= RecvBuf_write ch.2 ch.1 |>
    <| cn_recv_dic ::= λ d, match d !! ch.1 with Some _ => d | None => <[ch.1 := prio]> d end |>).
  assert (recv_slice be now (header_bytes be h ++ ch.2) c = (Val (lenZ ch.2), c1)) as Hrecv.
  { unfold recv_slice. erewrite M_bind_val by reflexivity.
    erewrite M_bind_val by (apply lift_val, (from_bytes_header be h); done).
    erewrite M_bind_val by reflexivity. cbn [h_ty h]. erewrite M_bind_val by reflexivity.
    erewrite M_bind_val; last first.
    { apply lift_val. cbn [h_pkt_length h]. rewrite <-(app_nil_r ch.2) at 1.
      change 26 with (lenZ (header_bytes be h)). by rewrite sub_app. }
    erewrite M_bind_val by reflexivity. reflexivity. }
  erewrite M_bind_val by exact Hrecv. rewrite (proj2 (Z.eqb_neq (lenZ ch.2) 0)) by lia.
  exists c1. split; [reflexivity|]. split; [done|]. split; [|done]. intros o. unfold c1. cbn.
  destruct (cn_recv_dic c !! ch.1) eqn:Hd.
  - split; [auto|]. intros [->|Ho]; [eauto|done].
  - rewrite lookup_insert_is_Some. destruct (decide (ch.1 = o)); naive_solver.
Qed.

Lemma recv_all_spec be now ws : ∀ c,
  Forall (λ '(pn, prio, ch), is_u64 pn ∧ is_u8 prio ∧ chunk_ok ch) ws →
  ∃ c', recv_all be now ((λ '(pn, prio, ch), data_packet be pn prio ch) <$> ws) c =
      (Val ((λ '(_, _, ch), lenZ ch.2) <$> ws), c') ∧
    cn_rec_buffer c' = foldl (λ r w, RecvBuf_write w.2 w.1 r) (cn_rec_buffer c) (snd <$> ws) ∧
    (∀ o, is_Some (cn_recv_dic c' !! o) ↔ o ∈ (λ '(_, _, ch), ch.1) <$> ws ∨ is_Some (cn_recv_dic c !! o)).
Proof.
  induction ws as [|[[pn prio] ch] ws IH]; intros c Hok.
  { exists c. split; [done|]. split; [done|]. intros o. cbn. set_solver. }
  apply Forall_cons in Hok as [(Hpn & Hprio & Hch) Hok].
  destruct (recv_data_packet be now pn prio ch c Hpn Hprio Hch) as (c1 & Hr & Hb & Hd & _).
  destruct (IH c1 Hok) as (c2 & Hr2 & Hb2 & Hd2).
  exists c2. cbn [fmap list_fmap recv_all]. erewrite M_bind_val by exact Hr.
  erewrite M_bind_val by exact Hr2. split; [reflexivity|]. split.
  - rewrite Hb2, Hb. done.
  - intros o. rewrite Hd2, Hd, elem_of_cons. naive_solver.
Qed.

(** C3: delivery. A receiver that is handed the data packets of a stream in any
    order and any number of times, as long as each chunk comes at least once,
    reports each payload's length, remembers exactly the stream's offsets for
    the acknowledgement, and its receive buffer drains to the stream. *)
Theorem dmludp_stream_delivery (be : bool) (now : Z) (cs : list (Z * list Z))
    (ws : list (Z * Z * (Z * list Z))) (c : Connection) :
  chunks_ok cs → Forall (λ '(pn, prio, _), is_u64 pn ∧ is_u8 prio) ws →
  (∀ ch, ch ∈ snd <$> ws ↔ ch ∈ cs) → cn_rec_buffer c = RecvBuf_new → cn_recv_dic c = ∅ →
  ∃ c' r', recv_all be now ((λ '(pn, prio, ch), data_packet be pn prio ch) <$> ws) c =
      (Val ((λ '(_, _, ch), lenZ ch.2) <$> ws), c') ∧
    (∀ o, is_Some (cn_recv_dic c' !! o) ↔ o ∈ fst <$> cs) ∧
    RecvBuf_drain (length cs) (cn_rec_buffer c') = Some (Val (concat (snd <$> cs), r')) ∧
    RecvBuf_is_empty r' = true.
Proof.
  intros Hcs Hnums Hsame Hnew Hdic.
  assert (Forall (λ '(pn, prio, ch), is_u64 pn ∧ is_u8 prio ∧ chunk_ok ch) ws) as Hok.
  { rewrite Forall_forall in *. intros [[pn prio] ch] Hin. specialize (Hnums _ Hin). simpl in Hnums.
    split_and!; [apply Hnums..|]. destruct Hcs as [_ Hcs]. rewrite Forall_forall in Hcs.
    apply Hcs, Hsame, list_elem_of_fmap. by exists (pn, prio, ch). }
  destruct (recv_all_spec be now ws c Hok) as (c' & Hr & Hb & Hd).
  destruct (RecvBuf_reassembly_lemma cs (snd <$> ws) Hcs Hsame) as (r' & Hdrain & He).
  exists c', r'. split; [done|]. split; [|by rewrite Hb, Hnew].
  intros o. rewrite Hd, Hdic, lookup_empty. rewrite !list_elem_of_fmap. split.
  - intros [([[pn prio] ch] & -> & Hin)|[? ?]]; [|done]. exists ch. split; [done|].
    apply Hsame, list_elem_of_fmap. by exists (pn, prio, ch).
  - intros (ch & -> & Hin). left. apply Hsame, list_elem_of_fmap in Hin as ([[pn prio] ch'] & -> & Hin).
    by exists (pn, prio, ch').
Qed.

(* ------------------------------------------------------------------ *)
(** * The theorems at concrete inputs *)

Lemma dmludp_stream_delivery_witness :
  ∃ c' r', recv_all false 0 [data_packet false 1 3 (3, [4; 5]); data_packet false 0 3 (0, [1; 2; 3])]
      (Connection_new true 0) = (Val [2; 3], c') ∧
    (∀ o, is_Some (cn_recv_dic c' !! o) ↔ o ∈ [0; 3]) ∧
    RecvBuf_drain 2 (cn_rec_buffer c') = Some (Val ([1; 2; 3; 4; 5], r')) ∧ RecvBuf_is_empty r' = true.
Proof.
  apply (dmludp_stream_delivery false 0 demo_chunks [(1, 3, (3, [4; 5])); (0, 3, (0, [1; 2; 3]))]
    (Connection_new true 0)); try done.
  - apply demo_chunks_ok.
  - repeat constructor; done.
  - intros ch. cbn. unfold demo_chunks. rewrite !elem_of_cons, elem_of_nil. tauto.
Defined.
