(* ===== verification/DmludpPair.v ===== *)
(** A pair over the datagram protocol: [src/gloo/transport/dmludp/pair.cc].
    It is the TCP pair of [Frame] except where it writes an operation
    ([write2dmludp], [write]) and reads one ([handleread]), which go through
    the connection of [DmludpApi]; the functions that are the same in both
    files ([prepareWrite], [prepareRead], [writeComplete], [signalException],
    ...) are those of [Frame]. The kernel's answers are given in advance:
    [d_net] to [recv], one datagram each, [d_mm] to [sendmmsg] and [writev]; then
    there is nothing to receive, and nothing can be sent ([EAGAIN]). *)
From Stdlib Require Import SpecFloat.
From S2P Require Import Prelude Packet RecvBuffer SendBuffer RecoveryModel ConnState ConnAck ConnSend AckExchange.
From S2P Require Import DmludpApi Tally PairOps Net Frame.

(** What [recv] and [sendmmsg] answer: a datagram, or how many messages were
    sent ([writev] sends one, whole); or an error. *)
Inductive KDgram := DGot (bs : list Z) | DError (e : Errno).
Inductive KMmsg := MSent (n : Z) | MError (e : Errno).

(** The pair, its connection with the vectors of [write2dmludp], and the socket:
    the datagrams it was given, [errno], and how often the clock was read. *)
Record Dio := mkDio {
  d_pio : Pio;
  d_send : SendCtx;
  d_net : list KDgram;
  d_mm : list KMmsg;
  d_out : list (list Z);
  d_errno : Errno;
  d_tick : nat;
}.
#[export] Instance Dio_eta : Eta Dio := λ d,
  mkDio (d_pio d) (d_send d) (d_net d) (d_mm d) (d_out d) (d_errno d) (d_tick d).
Definition d_conn (d : Dio) : Connection := sc_conn (d_send d).

(** A computation on a pair; [None]: it still runs when its fuel is used up. *)
Definition L (A : Type) : Type := Dio → option (outcome A * Dio).
#[export] Instance L_ret : MRet L := λ A a d, Some (Val a, d).
#[export] Instance L_bind : MBind L := λ A B f m d,
  match m d with
  | Some (Val a, d') => f a d'
  | Some (Exn e, d') => Some (Exn e, d')
  | Some (UB, d') => Some (UB, d')
  | None => None
  end.
Definition running {A} : L A := λ _, None.
Definition L_get : L Dio := λ d, Some (Val d, d).
Definition L_modify (f : Dio → Dio) : L unit := λ d, Some (Val (), f d).
Definition L_lift {A} (o : outcome A) : L A := λ d, Some (o, d).
Definition on_pio {A} (m : M Pio A) : L A := λ d,
  let '(r, p) := m (d_pio d) in Some (r, d <| d_pio := p |>).
Definition on_conn {A} (m : M Connection A) : L A := λ d,
  let '(r, c) := m (d_conn d) in Some (r, d <| d_send ::= λ s, s <| sc_conn := c |> |>).

(** [recv(fd_, buffer, 1500, 0)]: a longer datagram is cut; [None]: [-1]. *)
Definition recv_dgram : L (option (list Z)) := λ d,
  match d_net d with
  | [] => Some (Val None, d <| d_errno := EAGAIN |>)
  | DGot bs :: ks => Some (Val (Some (take 1500 bs)), d <| d_net := ks |>)
  | DError e :: ks => Some (Val None, d <| d_net := ks |> <| d_errno := e |>)
  end.

(** [send(fd_, out, n, 0)], whose result is not looked at; with a negative [n],
    an impossible length, it sends nothing. *)
Definition sock_send (out : list Z) (n : Z) : L unit :=
  if n <? 0 then mret ()
  else bs ← L_lift (from_option_ub (sub out 0 n)); L_modify (λ d, d <| d_out ::= λ l, l ++ [bs] |>).

Section pair.
(** The machine's byte order, the order of an [unordered_map], the clock, the
    bytes behind a vector and the capacity of a larger one, as in [DmludpApi];
    [alloc k] are the headers' addresses and [stale k a] what the freed memory
    at [a] holds when [k] datagrams have been sent; [place] gives the address of
    a buffer and, for [None], of the preamble; [fill] bounds [send_mmsg]. *)
Context (be : bool) (unord : ∀ A, gmap Z A → list (Z * A)) (clock : nat → Z).
Context (spare : list Z) (realloc : Z → Z).
Context (alloc : nat → Z → Z) (stale : nat → Z → list Z) (place : option Z → Z) (padding : Z) (fill : nat).

Definition clock_now : L Z := λ d, Some (Val (clock (d_tick d)), d <| d_tick ::= S |>).

(** [dmludp_conn_recv] and [dmludp_header_info] on the datagram [buf]. *)
Definition dgram_in (buf : list Z) : L (Z * Z) :=
  t ← clock_now;
  n ← on_conn (dmludp_conn_recv be t buf);
  '(rv, _) ← L_lift (dmludp_header_info be (take 26 buf));
  mret (n, rv).

(** The answers to an elicit-ack ([rv == 4]) and to a stop ([rv == 6]). *)
Definition reply_ack : L unit :=
  t ← clock_now; '(w, out) ← on_conn (dmludp_conn_send be unord t 1500); sock_send out w.
Definition reply_stop : L unit :=
  '(w, out) ← on_conn (dmludp_send_data_stop be 1500); sock_send out w.

(* ------------------------------------------------------------------ *)
(** * Reading *)

(** [rx_.nread += n] *)
Definition nread_add (n : Z) : L unit := on_pio (set_rx (λ o, o <| io_nread ::= λ k, u64 (k + n) |>)).

(** [dmludp2read(iov)]: [dmludp_data_read] into the memory of [iov]. *)
Definition dmludp2read (v : Iovec) : L unit := λ d,
  match dmludp_data_read (iov_len v) (d_conn d) with
  | None => None
  | Some (Val (_, bs, c)) => on_pio (Frame.fill v bs) (d <| d_send ::= λ s, s <| sc_conn := c |> |>)
  | Some (Exn e) => Some (Exn e, d)
  | Some UB => Some (UB, d)
  end.

(** The [while(1)] of [handleread]: receive until all asked for has come and
    been acknowledged. [None]: [return false]. A datagram without bytes leaves
    [errno] as it was. *)
Fixpoint collect (fuel : nat) (left_data : Z) : L (option Z) :=
  match fuel with
  | O => running
  | S fuel =>
      r ← recv_dgram;
      match r with
      | Some ((_ :: _) as buf) =>
          '(n, rv) ← dgram_in buf;
          if rv =? 4 then
            _ ← reply_ack;
            if left_data <=? 0 then mret (Some left_data) else collect fuel left_data
          else if rv =? 6 then _ ← reply_stop; mret (Some left_data)
          else if (rv =? 3) && (0 <? left_data) then _ ← nread_add n; collect fuel (s64 (left_data - n))
          else collect fuel left_data
      | _ =>
          d ← L_get;
          match d_errno d with EAGAIN => mret None | _ => collect fuel left_data end
      end
  end.

Section reading.
(** [handleRemotePendingSend] and [handleRemotePendingRecv], see [PairOps]. *)
Context (handle : Opcode → IoOp → L unit).

(** [readComplete(buf)] *)
Definition d_readComplete : L unit :=
  d ← L_get;
  let o := pi_rx (d_pio d) in
  _ ← match getOpcode o with
      | Some NOTIFY_SEND_READY => handle NOTIFY_SEND_READY o
      | Some NOTIFY_RECV_READY => handle NOTIFY_RECV_READY o
      | _ => mret ()
      end;
  L_modify (λ d, d <| d_pio ::= λ p,
    p <| pi_done ::= λ l, l ++ [DoneRecv (io_preamble o) (rx_payload (pi_mem p) o)] |> <| pi_rx := IoOp_new |> |>).

(** When there is no buffer for the message one datagram is still taken. *)
Definition read_nothing : L unit :=
  r ← recv_dgram;
  match r with
  | Some ((_ :: _) as buf) => '(_, rv) ← dgram_in buf; if rv =? 4 then reply_ack else mret ()
  | _ => mret ()
  end.

(** What was received before counts first; [recv_len] is the length of the
    first chunk. *)
Definition count_buffered (left_data : Z) : L Z :=
  d ← L_get;
  if dmludp_conn_has_recv (d_conn d) then mret left_data
  else
    left_len ← L_lift (dmludp_conn_recv_len (d_conn d));
    if left_len <=? u64 left_data then _ ← nread_add left_len; mret (s64 (left_data - left_len))
    else _ ← nread_add left_data; mret 0.

(** The loop of [handleread()]. *)
Fixpoint handleread_loop (fuel : nat) : L bool :=
  match fuel with
  | O => running
  | S fuel =>
      v ← on_pio prepareRead;
      let nbytes := match v with Some v => s64 (iov_len v) | None => -1 end in
      match v with
      | Some v =>
          if nbytes <? 0 then _ ← read_nothing; mret false
          else if nbytes =? 0 then _ ← d_readComplete; mret true
          else
            left_data ← count_buffered nbytes;
            r ← (if 0 <? left_data then collect fuel left_data else mret (Some left_data));
            match r with
            | None => mret false
            | Some _ => _ ← dmludp2read v; handleread_loop fuel
            end
      | None => _ ← read_nothing; mret false
      end
  end.

(** [handleread()] *)
Definition handleread (fuel : nat) : L bool :=
  d ← L_get;
  match pi_state (d_pio d) with CLOSED => mret false | _ => handleread_loop fuel end.

(** [while (handleread())] *)
Fixpoint handleread_all (fuel : nat) : L unit :=
  match fuel with
  | O => running
  | S fuel => rv ← handleread fuel; if (rv : bool) then handleread_all fuel else mret ()
  end.
End reading.

(* ------------------------------------------------------------------ *)
(** * Writing *)

Definition iov_addr (v : Iovec) : Z :=
  match v with IovPreamble off _ => place None + off | IovMem r => place (Some (rg_buf r)) + rg_off r end.

(** The bytes at a range of a scatter list: a header that is still allocated,
    a part of what is being sent, or memory that was freed. *)
Definition range_bytes (d : Dio) (o : IoOp) (iov : list Iovec) (r : iovec) : list Z :=
  let a := iov_base r in
  let n := Z.to_nat (SendBuffer.iov_len r) in
  match sc_heap (d_send d) !! a with
  | Some h => take n (header_bytes be h)
  | None =>
      match filter (λ v, iov_addr v ≤ a ∧ a + SendBuffer.iov_len r ≤ iov_addr v + iov_len v) iov with
      | v :: _ => take n (drop (Z.to_nat (a - iov_addr v)) (iov_bytes (pi_mem (d_pio d)) o v))
      | [] => take n (stale (length (d_out d)) a)
      end
  end.

(** The datagram of a message. *)
Definition dgram_of (d : Dio) (o : IoOp) (iov : list Iovec) (m : mmsghdr) : outcome (list Z) :=
  i ← from_option_ub (msg_iov m);
  rs ← from_option_ub (sub (sc_iovecs (d_send d)) i (msg_iovlen m));
  Val (rs ≫= range_bytes d o iov).

(** [while(messages.size() > sent)]: whether all was sent. *)
Fixpoint sendmmsg_loop (ks : list KMmsg) (o : IoOp) (iov : list Iovec) (sent : Z) : L bool :=
  d ← L_get;
  let messages := sc_messages (d_send d) in
  if lenZ messages <=? sent then mret true
  else
    match ks with
    | [] => _ ← L_modify (λ d, d <| d_errno := EAGAIN |>); mret false
    | k :: ks =>
        _ ← L_modify (λ d, d <| d_mm := ks |>);
        match k with
        | MSent n =>
            let n := Z.max 1 (Z.min n (lenZ messages - sent)) in
            bs ← L_lift (mapM (dgram_of d o iov) (take (Z.to_nat n) (drop (Z.to_nat sent) messages)));
            _ ← L_modify (λ d, d <| d_out ::= λ l, l ++ bs |>);
            sendmmsg_loop ks o iov (sent + n)
        | MError EINTR => sendmmsg_loop ks o iov sent
        | MError e => _ ← L_modify (λ d, d <| d_errno := e |>); mret false
        end
    end.

(** The loop that asks for acknowledgements until none is outstanding; it
    looks at the clock once for each that is. *)
Definition ask_ack : L (Z * list Z) := λ d,
  let ask := on_conn (dmludp_send_elicit_ack be unord (λ i, clock (d_tick d + i)%nat) spare realloc 1500) in
  ask (d <| d_tick ::= λ k, (k + S (size (cn_retransmission_ack (d_conn d))))%nat |>).

Fixpoint ack_rounds (fuel : nat) : L unit :=
  match fuel with
  | O => running
  | S fuel =>
      '(ack_len, out) ← ask_ack;
      if ack_len =? -1 then mret ()
      else
        _ ← (if 0 <? ack_len then sock_send out ack_len else mret ());
        r ← recv_dgram;
        match r with
        | Some ((_ :: _) as buf) =>
            '(_, rv) ← dgram_in buf;
            if rv =? 4 then _ ← reply_ack; ack_rounds fuel
            else if rv =? 6 then reply_stop
            else ack_rounds fuel
        | _ => ack_rounds fuel
        end
  end.

(** [dmludp_data_send_mmsg(connection, padding, messages, iovecs)] *)
Definition send_round : L Z := λ d,
  match dmludp_data_send_mmsg fill (alloc (length (d_out d))) padding 1 (d_send d) with
  | None => None
  | Some (r, s) => Some (r, d <| d_send := s |>)
  end.

(** The outer loop: rounds until the connection has nothing left. [None]:
    [return false] from within. *)
Fixpoint write_rounds (fuel : nat) (o : IoOp) (iov : list Iovec) (written : Z) : L (option Z) :=
  match fuel with
  | O => running
  | S fuel =>
      n ← send_round;
      let written := s64 (written + n) in
      d ← L_get;
      sent ← sendmmsg_loop (d_mm d) o iov 0;
      if (sent : bool) then
        _ ← ack_rounds fuel;
        complete ← on_conn dmludp_transmission_complete;
        if (complete : bool) then mret (Some written) else write_rounds fuel o iov written
      else mret None
  end.

(** [write2dmludp(op)]: whether it is done, and the operation after it. *)
Definition write2dmludp (fuel : nat) (o : IoOp) : L (bool * IoOp) :=
  d ← L_get;
  match pi_state (d_pio d) with
  | CLOSED => mret (false, o)
  | _ =>
      if buffer_gone (pi_alive (d_pio d)) o then mret (false, o)
      else
        '(iov, _) ← L_lift (prepareWrite o);
        _ ← L_modify (λ d, d <| d_send ::= λ s, s <| sc_iovecs := [] |> <| sc_messages := [] |> |>);
        ok ← on_conn (dmludp_get_data ((λ v, mkIovec (iov_addr v) (iov_len v)) <$> iov));
        if (ok : bool) then
          r ← write_rounds fuel o iov 0;
          match r with
          | None => mret (false, o)
          | Some written =>
              let o := o <| io_nwritten ::= λ n, u64 (n + written) |> in
              if io_nwritten o =? io_total o then _ ← on_pio (writeComplete o); mret (true, o)
              else mret (false, o)
          end
        else mret (false, o)
  end.

(** [write(op)], still there for the synchronous mode: what [writev] returns is
    not looked at and [sent_size] stays 0, so that its loop has no way to go on
    but to start again. *)
Fixpoint d_write_loop (fuel : nat) (o : IoOp) : L (bool * IoOp) :=
  match fuel with
  | O => running
  | S fuel =>
      '(iov, nbytes) ← L_lift (prepareWrite o);
      _ ← L_modify (λ d,
        match d_mm d with
        | MSent _ :: ks => d <| d_mm := ks |> <| d_out ::= λ l, l ++ [concat (iov_bytes (pi_mem (d_pio d)) o <$> iov)] |>
        | MError _ :: ks => d <| d_mm := ks |>
        | [] => d
        end);
      if 0 <? u64 nbytes then d_write_loop fuel o
      else
        _ ← L_lift (enforce (0 =? u64 nbytes));
        _ ← L_lift (enforce (io_nwritten o =? io_total o));
        _ ← on_pio (writeComplete o);
        mret (true, o)
  end.
Definition d_write (fuel : nat) (o : IoOp) : L (bool * IoOp) :=
  d ← L_get;
  match pi_state (d_pio d) with
  | CLOSED => mret (false, o)
  | _ => if buffer_gone (pi_alive (d_pio d)) o then mret (false, o) else d_write_loop fuel o
  end.

(** [sendSyncMode(op)] *)
Definition d_sendSyncMode (fuel : nat) (o : IoOp) : L unit :=
  d ← L_get;
  _ ← L_lift (enforce (pi_sync (d_pio d)));
  '(rv, _) ← d_write fuel o;
  if (rv : bool) then mret ()
  else
    d ← L_get;
    match pi_ex (d_pio d) with Some e => L_lift (Exn e) | None => L_lift (Exn EnforceNotMet) end.

(** [sendAsyncMode(op)] *)
Definition d_sendAsyncMode (fuel : nat) (o : IoOp) : L unit :=
  d ← L_get;
  _ ← L_lift (enforce (negb (pi_sync (d_pio d))));
  match pi_tx (d_pio d) with
  | _ :: _ => on_pio (modify (λ p, p <| pi_tx ::= λ l, l ++ [o] |>))
  | [] =>
      '(rv, o) ← write2dmludp fuel o;
      if (rv : bool) then mret ()
      else
        _ ← on_pio Pio_throwIfException;
        on_pio (modify (λ p, p <| pi_tx ::= λ l, l ++ [o] |> <| pi_events := Some true |>))
  end.

(** [send(op)]; the size of the socket's buffer is left to the kernel. *)
Definition d_send_op (fuel : nat) (o : IoOp) : L unit :=
  _ ← on_pio Pio_throwIfException;
  _ ← on_pio verifyConnected;
  d ← L_get;
  if pi_sync (d_pio d) then d_sendSyncMode fuel o else d_sendAsyncMode fuel o.

(* ------------------------------------------------------------------ *)
(** * The device loop *)

(** [while (!tx_.empty())]: while the connection is not done with the last
    operation the loop goes round. *)
Fixpoint write2dmludp_queue (fuel : nat) : L unit :=
  match fuel with
  | O => running
  | S fuel =>
      d ← L_get;
      match pi_tx (d_pio d) with
      | [] => mret ()
      | o :: _ =>
          complete ← on_conn dmludp_transmission_complete;
          if (complete : bool) then
            '(rv, o) ← write2dmludp fuel o;
            if (rv : bool) then
              _ ← on_pio (modify (λ p, p <| pi_tx ::= tail |>)); write2dmludp_queue fuel
            else on_pio (modify (λ p, p <| pi_tx ::= λ l, o :: tail l |>))
          else write2dmludp_queue fuel
      end
  end.

(** [handleReadWrite(events)] *)
Definition d_handleReadWrite (handle : Opcode → IoOp → L unit) (fuel : nat) (out inp : bool) : L unit :=
  _ ← (if out then
         d ← L_get;
         _ ← L_lift (enforce (match pi_tx (d_pio d) with [] => false | _ => true end));
         _ ← write2dmludp_queue fuel;
         d ← L_get;
         match pi_tx (d_pio d) with
         | [] => on_pio (modify (λ p, p <| pi_events := Some false |>))
         | _ => mret ()
         end
       else mret ());
  if inp then handleread_all handle fuel else mret ().

(** [handleEvents(events)]; [locked]: another thread holds the mutex. *)
Definition d_handleEvents (handle : Opcode → IoOp → L unit) (fuel : nat) (locked out inp : bool) : L unit :=
  if locked then mret ()
  else
    d ← L_get;
    _ ← L_lift (enforce (state_value (pi_state (d_pio d)) <=? state_value CONNECTED));
    _ ← L_lift (enforce (match pi_ex (d_pio d) with None => true | Some _ => false end));
    match pi_state (d_pio d) with
    | CONNECTED => d_handleReadWrite handle fuel out inp
    | _ => L_lift (Exn EnforceNotMet)
    end.
End pair.
