(* ===== verification/DmludpSend.v ===== *)
(** Sending an operation over the datagram protocol: what [write2dmludp] does
    up to the acknowledgement, and how a pair hangs when [sendmmsg] fails. *)
From Stdlib Require Import SpecFloat.
From S2P Require Import Prelude Packet RecvBuffer SendBuffer FloatOps RecoveryModel ConnState ConnAck ConnSend AckExchange.
From S2P Require Import DmludpApi Tally PairOps Net Frame FrameSend DmludpPair.

(* ------------------------------------------------------------------ *)
(** * Small buffers become one datagram each *)

(** Writing at most a datagram's worth, with room for it, appends one item. *)
Lemma SendBuf_write_small s src n wnd ol :
  SendBuf_wf s → 0 < n ≤ SEND_BUFFER_SIZE → SendBuf_len s + n ≤ sb_max_data s < 2 ^ 63 → SendBuf_len s < wnd →
  0 ≤ src → src + n < 2 ^ 64 → sb_off s + n < 2 ^ 64 → ol = 0 ∨ n ≤ ol →
  ∃ s', SendBuf_write src 0 n wnd ol s = (n, 0, s') ∧ SendBuf_wf s' ∧
    sb_data s' = sb_data s ++ [mkSendItem (sb_off s) src n] ∧ sb_off s' = sb_off s + n ∧ sb_pos s' = sb_pos s ∧
    sb_max_data s' = (if SendBuf_is_empty s then wnd else sb_max_data s) ∧
    sb_sent s' = (if SendBuf_is_empty s then 0 else sb_sent s) ∧
    sb_offset_recv s' = <[sb_off s := true]> (sb_offset_recv s).
Proof.
  intros Hwf Hn Hmax Hwnd Hsrc Hsrc2 Hoff Hol.
  pose proof (SendBuf_total_bound s Hwf) as Htot. rewrite <-SendBuf_len_total in Htot by done.
  unfold SEND_BUFFER_SIZE in *. unfold SendBuf_write.
  set (s0 := if sb_pos s =? 0 then s <| sb_recv_count := ∅ |> else s).
  assert (sb_data s0 = sb_data s ∧ sb_off s0 = sb_off s ∧ sb_offset_recv s0 = sb_offset_recv s ∧
    sb_pos s0 = sb_pos s ∧ sb_max_data s0 = sb_max_data s ∧ sb_sent s0 = sb_sent s) as (Hd & Ho & Ha & Hp & Hm & Hst)
    by (unfold s0; by case_match).
  assert (∀ s1, sb_data s1 = sb_data s → SendBuf_len s1 = SendBuf_len s) as Hlen
    by (intros ? Hd1; unfold SendBuf_len; by rewrite Hd1).
  unfold SendBuf_cap. cbv beta iota zeta.
  change (sb_max_data (s0 <| sb_used_length := _ |>)) with (sb_max_data s0).
  change (sb_used_length (s0 <| sb_used_length := _ |>)) with (SendBuf_len s0).
  rewrite Hm, (Hlen s0 Hd), Z.add_0_r. rewrite !wrap_small by (unfold in_range; lia).
  rewrite (proj2 (Z.eqb_neq _ 0)), (proj2 (Z.leb_gt n 0)) by lia.
  assert (∀ s1, sb_data s1 = sb_data s → sb_off s1 = sb_off s → sb_offset_recv s1 = sb_offset_recv s →
    sb_pos s1 = sb_pos s → ∃ s',
    write_chunks src n (sb_max_data s - SendBuf_len s) ol s1 = (n, 0, s') ∧
    SendBuf_wf s' ∧ sb_data s' = sb_data s ++ [mkSendItem (sb_off s) src n] ∧ sb_off s' = sb_off s + n ∧
    sb_pos s' = sb_pos s ∧ sb_max_data s' = sb_max_data s1 ∧ sb_sent s' = sb_sent s1 ∧
    sb_offset_recv s' = <[sb_off s := true]> (sb_offset_recv s)) as Hgo.
  { intros s1 Hd1 Ho1 Ha1 Hp1. pose proof (SendBuf_wf_fields s s1 Hd1 Ho1 Ha1 Hp1 Hwf) as Hwf1.
    destruct (push_chunk_appended src n s1 Hwf1) as [W _ D O P Mx St A]; [unfold SEND_BUFFER_SIZE; lia|lia|].
    exists (push_chunk src n s1). rewrite <-Hd1, <-Ho1, <-Hp1, <-Ha1. split; [|by split_and!].
    unfold write_chunks. rewrite (proj2 (Z.ltb_ge (sb_max_data s - SendBuf_len s) n)) by lia.
    rewrite Z.sub_diag. change (u64 0) with 0. destruct Hol as [->|Hol].
    - change (0 <? 0) with false. cbv beta iota. unfold SEND_BUFFER_SIZE.
      assert (∃ f, Z.to_nat (n / 1350 + 1) = S f) as [f ->].
      { exists (Z.to_nat (n / 1350)). pose proof (Z.div_pos n 1350). lia. }
      cbn [SendBuffer.write_loop]. unfold SEND_BUFFER_SIZE.
      rewrite (proj2 (Z.ltb_lt 0 n)) by lia. rewrite Z.sub_0_r, !Z.add_0_r, !Z.add_0_l.
      rewrite !(wrap_small 64) by (unfold in_range; lia). rewrite (proj2 (Z.ltb_ge 1350 n)) by lia.
      assert (∀ s2, SendBuffer.write_loop f src n n n s2 = (n, s2)) as ->
        by (intros s2; destruct f; cbn [SendBuffer.write_loop]; by rewrite Z.ltb_irrefl).
      rewrite swrap_small by lia. by rewrite Z.sub_diag.
    - rewrite (proj2 (Z.ltb_lt 0 ol)), (proj2 (Z.ltb_ge ol n)) by lia. by rewrite swrap_small by lia. }
  assert (SendBuf_is_empty (s0 <| sb_used_length := SendBuf_len s |>) = SendBuf_is_empty s) as Hemp
    by (unfold SendBuf_is_empty; cbn; by rewrite Hd).
  rewrite Hemp. destruct (SendBuf_is_empty s).
  - match goal with |- context [wnd <=? ?L] => replace L with (SendBuf_len s) by (symmetry; apply (Hlen s0 Hd)) end.
    rewrite (proj2 (Z.leb_gt wnd _)) by lia. apply Hgo; assumption.
  - rewrite (Hlen (s0 <| sb_used_length := _ |>)) by exact Hd. rewrite (proj2 (Z.leb_gt wnd _)) by lia.
    destruct (Hgo (s0 <| sb_used_length := SendBuf_len s |>)) as (s' & H); [assumption..|]. exists s'.
    change (sb_max_data (s0 <| sb_used_length := _ |>)) with (sb_max_data s0) in H.
    change (sb_sent (s0 <| sb_used_length := _ |>)) with (sb_sent s0) in H. by rewrite Hst, Hm in H.
Qed.

(** A buffer that fits a datagram and of which nothing was sent. *)
Definition small_buffer (b : sbuffer) : Prop :=
  0 < sbf_len b ≤ SEND_BUFFER_SIZE ∧ sbf_left b = sbf_len b ∧ 0 ≤ sbf_src b ∧ sbf_src b + sbf_len b < 2 ^ 64.

Fixpoint buffer_items (off : Z) (bs : list sbuffer) : list SendItem :=
  match bs with
  | [] => []
  | b :: bs => mkSendItem off (sbf_src b) (sbf_len b) :: buffer_items (off + sbf_len b) bs
  end.
Definition total_len (bs : list sbuffer) : Z := foldr (λ b n, sbf_len b + n) 0 bs.
Definition written_off (b : sbuffer) : sbuffer := b <| sbf_left := 0 |>.

Lemma total_len_nonneg bs : Forall small_buffer bs → 0 ≤ total_len bs.
Proof. induction 1 as [|b bs Hb _ IH]; simpl; [done|]. unfold small_buffer in Hb. lia. Qed.

(** [nwrite] on the [i]-th buffer. *)
Lemma nwrite_small i cw c b :
  nthZ (cn_data_buffer c) i = Some b → small_buffer b →
  let sb := cn_send_buffer c in
  SendBuf_wf sb → SendBuf_len sb + sbf_len b ≤ sb_max_data sb < 2 ^ 63 → SendBuf_len sb < cw →
  sb_off sb + sbf_len b < 2 ^ 64 →
  ∃ sb', nwrite i cw c = Val (sbf_len b, c <| cn_send_buffer := sb' |>
      <| cn_data_buffer ::= <[Z.to_nat i := written_off b]> |>) ∧
    SendBuf_wf sb' ∧ sb_data sb' = sb_data sb ++ [mkSendItem (sb_off sb) (sbf_src b) (sbf_len b)] ∧
    sb_off sb' = sb_off sb + sbf_len b ∧ sb_pos sb' = sb_pos sb ∧
    sb_max_data sb' = (if SendBuf_is_empty sb then cw else sb_max_data sb) ∧
    sb_sent sb' = (if SendBuf_is_empty sb then 0 else sb_sent sb) ∧
    sb_offset_recv sb' = <[sb_off sb := true]> (sb_offset_recv sb).
Proof.
  intros Hb (Hn & Hleft & Hs & Hs2) sb Hwf Hmax Hcw Hoff. unfold nwrite. rewrite Hb.
  cbn [from_option_exn mbind outcome_bind]. fold sb.
  assert (sbuffer_sent b = 0) as -> by (unfold sbuffer_sent; rewrite Hleft, Z.sub_diag; done).
  rewrite Hleft.
  destruct (SendBuf_write_small sb (sbf_src b) (sbf_len b) cw (if SendBuf_is_empty sb then 1350 - 0 `mod` 1350 else 0))
    as (sb' & -> & H); try done.
  { unfold SEND_BUFFER_SIZE in *. destruct (SendBuf_is_empty sb); [right; change (0 `mod` 1350) with 0; lia|by left]. }
  exists sb'. split; [reflexivity|done].
Qed.

(** No offset of the buffer is acknowledged. *)
Definition unacked (s : SendBuf) : Prop := ∀ o b, sb_offset_recv s !! o = Some b → b = true.

(** What writing buffers of [n] bytes together as [items] does to the send
    buffer; an empty one takes the window [cw] as its limit. *)
Record took (cw : Z) (items : list SendItem) (n : Z) (s s' : SendBuf) : Prop := {
  tk_wf : SendBuf_wf s';
  tk_data : sb_data s' = sb_data s ++ items;
  tk_off : sb_off s' = sb_off s + n;
  tk_pos : sb_pos s' = sb_pos s;
  tk_max : sb_max_data s' = (if SendBuf_is_empty s then cw else sb_max_data s);
  tk_sent : sb_sent s' = (if SendBuf_is_empty s then 0 else sb_sent s);
  tk_unacked : unacked s → unacked s';
}.

Lemma SendBuf_len_app s s' items : SendBuf_wf s → SendBuf_wf s' → sb_data s' = sb_data s ++ items →
  SendBuf_len s' = SendBuf_len s + items_total items.
Proof. intros H H' Hd. rewrite !SendBuf_len_total, Hd by done. apply items_total_app. Qed.

Lemma took_trans cw x l n m s1 s2 s3 :
  took cw [x] n s1 s2 → took cw l m s2 s3 → took cw (x :: l) (n + m) s1 s3.
Proof.
  intros [W1 D1 O1 P1 M1 S1 U1] [W2 D2 O2 P2 M2 S2 U2].
  assert (SendBuf_is_empty s2 = false) as He.
  { unfold SendBuf_is_empty. rewrite D1. by destruct (sb_data s1). }
  rewrite He in M2, S2. split; [done| |lia|congruence|congruence|congruence|auto]. by rewrite D2, D1, <-app_assoc.
Qed.

Lemma conn_filled c sb f bs p :
  f (cn_data_buffer c) = bs → cn_current_buffer_pos c = p →
  c <| cn_send_buffer := sb |> <| cn_data_buffer ::= f |> =
  c <| cn_send_buffer := sb |> <| cn_data_buffer := bs |> <| cn_current_buffer_pos := p |>.
Proof. destruct c. cbn. by intros -> ->. Qed.

(** The fill loop puts every small buffer into the send buffer. *)
Lemma fill_small bs : ∀ fuel pre cw written c,
  cn_data_buffer c = pre ++ bs → cn_current_buffer_pos c = lenZ pre → bs ≠ [] → Forall small_buffer bs →
  lenZ (pre ++ bs) < 2 ^ 63 →
  let sb := cn_send_buffer c in
  SendBuf_wf sb → SendBuf_len sb + total_len bs ≤ sb_max_data sb < 2 ^ 63 → SendBuf_len sb + total_len bs ≤ cw < 2 ^ 63 →
  sb_off sb + total_len bs < 2 ^ 64 → 0 ≤ written → written + total_len bs ≤ cw → (length bs ≤ fuel)%nat →
  ∃ sb', fill_loop fuel cw written c = Some (Val (inr (written + total_len bs)),
      c <| cn_send_buffer := sb' |> <| cn_data_buffer := pre ++ (written_off <$> bs) |>
        <| cn_current_buffer_pos := lenZ pre + lenZ bs - 1 |>) ∧
    took cw (buffer_items (sb_off sb) bs) (total_len bs) sb sb'.
Proof.
  induction bs as [|b bs IH]; intros fuel pre cw written c Hb Hpos Hne Hsm Hlen sb Hwf Hmax Hcw Hoff Hw0 Hw Hf; [done|].
  apply Forall_cons in Hsm as [Hb1 Hsm]. pose proof (total_len_nonneg bs Hsm) as Htn.
  destruct fuel as [|fuel]; [simpl in Hf; lia|]. cbn [total_len foldr] in *. fold (total_len bs) in *.
  assert (nthZ (cn_data_buffer c) (cn_current_buffer_pos c) = Some b) as Hn.
  { rewrite Hb, Hpos. unfold nthZ, lenZ. rewrite bool_decide_true, Nat2Z.id by lia.
    rewrite lookup_app_r, Nat.sub_diag by lia. done. }
  assert (0 < sbf_len b) as Hpb by (unfold small_buffer in Hb1; lia). cbn [fill_loop].
  destruct (nwrite_small (cn_current_buffer_pos c) cw c b) as (sb1 & Heq & Hwf1 & Hd & Ho & Hp & Hm & Hs & Ha);
    try done; fold sb; try lia.
  fold sb in Hd, Ho, Hp, Hm, Hs, Ha.
  rewrite Heq. rewrite (proj2 (Z.leb_gt (sbf_len b) 0)), andb_false_r by lia. cbv zeta.
  assert (took cw [mkSendItem (sb_off sb) (sbf_src b) (sbf_len b)] (sbf_len b) sb sb1) as Ht1.
  { split; try done. unfold unacked. rewrite Ha. intros Hu o x. rewrite lookup_insert_Some. naive_solver. }
  set (c1 := c <| cn_send_buffer := sb1 |> <| cn_data_buffer ::= _ |>).
  assert (cn_data_buffer c1 = pre ++ written_off b :: bs) as Hb2.
  { unfold c1. cbn. rewrite Hb, Hpos. unfold lenZ. rewrite Nat2Z.id.
    rewrite <-(Nat.add_0_r (length pre)), insert_app_r. done. }
  assert (cn_current_buffer_pos c1 = lenZ pre) as Hp1 by exact Hpos.
  assert (nthZ (cn_data_buffer c1) (cn_current_buffer_pos c1) = Some (written_off b)) as Hn1.
  { rewrite Hb2, Hp1. unfold nthZ, lenZ. rewrite bool_decide_true, Nat2Z.id by lia.
    rewrite lookup_app_r, Nat.sub_diag by lia. done. }
  rewrite Hn1. change (sbf_left (written_off b) =? 0) with true. cbn [andb].
  rewrite Hp1, Hb2. rewrite lenZ_app, lenZ_cons. rewrite lenZ_app, lenZ_cons in Hlen.
  pose proof (lenZ_nonneg pre). pose proof (lenZ_nonneg bs).
  rewrite wrap_small by (unfold in_range; lia).
  destruct (decide (bs = [])) as [->|Hne'].
  { change (lenZ []) with 0. rewrite (proj2 (Z.eqb_eq (lenZ pre) _)) by lia.
    exists sb1. change (total_len []) with 0. rewrite Z.add_0_r. split; [|exact Ht1]. do 2 f_equal.
    apply conn_filled; [exact Hb2|]. rewrite Hpos. change (lenZ [b]) with 1. lia. }
  assert (0 < lenZ bs) by (destruct bs; [done|rewrite lenZ_cons; pose proof (lenZ_nonneg bs); lia]).
  rewrite (proj2 (Z.eqb_neq (lenZ pre) _)) by lia.
  assert (sbuffer_sent (written_off b) = sbf_len b) as Hsent.
  { unfold sbuffer_sent, written_off. cbn. rewrite Z.sub_0_r. apply wrap_small. unfold small_buffer, in_range in *. lia. }
  rewrite Hsent. change (sbf_len (written_off b)) with (sbf_len b). rewrite Z.eqb_refl.
  assert (0 < total_len bs).
  { destruct bs as [|b2 bs]; [done|]. apply Forall_cons in Hsm as [Hb2' Hsm]. pose proof (total_len_nonneg bs Hsm).
    cbn [total_len foldr]. fold (total_len bs). unfold small_buffer in Hb2'. lia. }
  rewrite (wrap_small 64 (written + _)) by (unfold in_range; lia). rewrite (proj2 (Z.leb_gt cw _)) by lia.
  set (c2 := c1 <| cn_current_buffer_pos ::= _ |>).
  assert (SendBuf_len sb1 = SendBuf_len sb + sbf_len b) as Hl1.
  { rewrite (SendBuf_len_app sb sb1 _ Hwf Hwf1 Hd). simpl. lia. }
  destruct (IH fuel (pre ++ [written_off b]) cw (written + sbf_len b) c2) as (sb2 & Heq2 & Ht2); cbv zeta.
  - rewrite <-app_assoc. exact Hb2.
  - unfold c2. cbn. rewrite Hpos, lenZ_app, wrap_small by (unfold in_range; lia). done.
  - done.
  - done.
  - rewrite !lenZ_app. change (lenZ [written_off b]) with 1. lia.
  - exact Hwf1.
  - change (cn_send_buffer c2) with sb1. rewrite Hl1, Hm. case_match; lia.
  - change (cn_send_buffer c2) with sb1. rewrite Hl1. lia.
  - change (cn_send_buffer c2) with sb1. rewrite Ho. lia.
  - lia.
  - lia.
  - simpl in Hf. lia.
  - exists sb2. rewrite Heq2. split; [|].
    + do 2 f_equal; [do 2 f_equal; lia|]. unfold c2, c1. cbn [fmap list_fmap].
      rewrite <-app_assoc. cbn [app]. rewrite lenZ_app. change (lenZ [written_off b]) with 1.
      replace (lenZ pre + 1 + lenZ bs - 1) with (lenZ pre + (lenZ bs + 1) - 1) by lia. by rewrite lenZ_cons.
    + eapply took_trans; [exact Ht1|]. rewrite <-Ho. exact Ht2.
Qed.

(* ------------------------------------------------------------------ *)
(** * What sending leaves alone *)

(** The fields that belong to the acknowledgements and to receiving. *)
Definition conn_rest (c : Connection) :=
  (cn_norm2_vec c, (cn_ack_point c, cn_space1 c, cn_retransmission_ack c, cn_timeout_ack c),
   (cn_keyToValues c, cn_valueToKeys c, cn_ack_set c), max_datagram_size (cn_recovery c),
   (cn_rec_buffer c, cn_recv_dic c, cn_recv_hashmap c)).
Definition rest_kept (s s' : SendCtx) : Prop := conn_rest (sc_conn s') = conn_rest (sc_conn s).
#[export] Instance rest_kept_preorder : PreOrder rest_kept.
Proof. split; [done|]. intros s1 s2 s3. unfold rest_kept. congruence. Qed.

Lemma set_iov_rest i v : frame rest_kept (set_iov i v).
Proof. intros s. unfold set_iov. by destruct (nthZ _ _). Qed.
Lemma set_msg_rest i m : frame rest_kept (set_msg i m).
Proof. intros s. unfold set_msg. by destruct (nthZ _ _). Qed.
#[export] Hint Resolve set_iov_rest set_msg_rest : frame.

Lemma emit_item_rest k i addr : frame rest_kept (emit_item k i addr).
Proof. unfold emit_item. frame_tac. Qed.
#[export] Hint Resolve emit_item_rest : frame.

Lemma emit_single_rest fuel alloc : ∀ i s r s',
  emit_single fuel alloc i s = Some (r, s') → rest_kept s s'.
Proof.
  induction fuel as [|fuel IH]; intros i s r s'; [done|]. cbn [emit_single].
  set (m := emit_item 2 i (alloc i) ≫= _).
  assert (frame rest_kept m) as Hm by (unfold m; frame_tac; by case_match).
  specialize (Hm s). destruct (m s) as [[[]| |] s1]; cbn in Hm; [by intros [= _ <-]| |by intros [= _ <-]..].
  intros He. etrans; [exact Hm|]. by eapply IH.
Qed.

Lemma Recovery_cwnd_mds s : max_datagram_size (snd (Recovery_cwnd s)) = max_datagram_size s.
Proof. unfold Recovery_cwnd. cbv zeta. destruct (roll_back_flag s); cbn; by case_match. Qed.
Lemma Recovery_rollback_mds s : max_datagram_size (snd (Recovery_rollback s)) = max_datagram_size s.
Proof. unfold Recovery_rollback. by destruct (last _). Qed.

Lemma next_window_rest c : conn_rest (snd (next_window c)) = conn_rest c.
Proof.
  unfold next_window. destruct (SendBuf_is_empty _); [|done]. cbv zeta. unfold conn_rest.
  destruct (f_gtb _ _).
  - pose proof (Recovery_rollback_mds (cn_recovery c)) as H. destruct (Recovery_rollback _). cbn in *. by rewrite H.
  - pose proof (Recovery_cwnd_mds (cn_recovery c)) as H. destruct (Recovery_cwnd _). cbn in *. by rewrite H.
Qed.

(** A sending connection between two messages. *)
Record sender_idle (c : Connection) : Prop := {
  id_data : cn_data_buffer c = [] ∧ cn_current_buffer_pos c = 0;
  id_wf : SendBuf_wf (cn_send_buffer c);
  id_empty : sb_data (cn_send_buffer c) = [];
  id_asked : cn_ack_point c = lenZ (cn_record_send c);
  id_none : cn_retransmission_ack c = ∅ ∧ cn_ack_set c = ∅ ∧ cn_keyToValues c = ∅;
  id_nums : 0 ≤ next_pkt_num (cn_space0 c) < 2 ^ 62 ∧ 0 ≤ next_pkt_num (cn_space1 c) < 2 ^ 30;
  id_mds : max_datagram_size (cn_recovery c) = PACKET_SIZE;
}.

(** There is room for [n] bytes, in one window. *)
Definition has_room (c : Connection) (n : Z) : Prop :=
  n ≤ sb_max_data (cn_send_buffer c) < 2 ^ 63 ∧ n ≤ fst (next_window c) < 2 ^ 63.

(** The state of [send_mmsg] after it has sent [items] once. *)
Record sent_once (alloc : Z → Z) (items : list SendItem) (s s' : SendCtx) : Prop := {
  so_messages : lenZ (sc_messages s') = lenZ items;
  so_item : ∀ j x, nthZ items j = Some x →
    nthZ (sc_messages s') j = Some (mkMmsg (Some (2 * j)) 2) ∧
    nthZ (sc_iovecs s') (2 * j) = Some (mkIovec (alloc j) 26) ∧
    nthZ (sc_iovecs s') (2 * j + 1) = Some (item_iovec x);
  so_heap : ∀ a, sc_heap s !! a = None → sc_heap s' !! a = None;
  so_rest : conn_rest (sc_conn s') = conn_rest (sc_conn s);
  so_record : cn_record_send (sc_conn s') = cn_record_send (sc_conn s) ++ map si_off items;
  so_dic : Forall (λ x, is_Some (cn_sent_dic (sc_conn s') !! si_off x)) items;
  so_buf : SendBuf_wf (cn_send_buffer (sc_conn s')) ∧ sb_data (cn_send_buffer (sc_conn s')) = items ∧
    sb_pos (cn_send_buffer (sc_conn s')) = 0 ∧ unacked (cn_send_buffer (sc_conn s'));
  so_data : forallb (λ b, sbf_left b =? 0) (cn_data_buffer (sc_conn s')) = true ∧
    length (cn_data_buffer (sc_conn s')) = length items;
  so_num : next_pkt_num (cn_space0 (sc_conn s')) = next_pkt_num (cn_space0 (sc_conn s)) + lenZ items;
  so_stop : cn_stop_ack (sc_conn s') = false;
}.

Lemma buffer_items_len off bs : length (buffer_items off bs) = length bs.
Proof. revert off. induction bs as [|b bs IH]; intros off; simpl; [done|]. by rewrite IH. Qed.
Lemma buffer_items_total off bs : items_total (buffer_items off bs) = total_len bs.
Proof. revert off. induction bs as [|b bs IH]; intros off; simpl; [done|]. by rewrite IH. Qed.
Lemma buffer_items_range off bs x : Forall small_buffer bs → x ∈ buffer_items off bs →
  off ≤ si_off x ∧ si_off x + si_len x ≤ off + total_len bs.
Proof.
  intros Hs. revert off. induction Hs as [|b bs Hb Hs IH]; intros off; simpl; [set_solver|].
  pose proof (total_len_nonneg bs Hs). unfold small_buffer in Hb.
  rewrite elem_of_cons. intros [->|Hx]; simpl; [lia|]. specialize (IH _ Hx). lia.
Qed.

Lemma count_sent_some l : ∀ m o, is_Some (m !! o) ∨ o ∈ map si_off l →
  is_Some (foldl (λ m x, count_sent (si_off x) 3 m) m l !! o).
Proof.
  assert (∀ k o (m : gmap Z Z), is_Some (m !! o) ∨ o = k → is_Some (count_sent k 3 m !! o)) as Hone.
  { intros k o m H. unfold count_sent. destruct (decide (k = o)) as [->|Hne].
    - destruct (m !! o); rewrite lookup_insert_eq; eauto.
    - destruct (m !! k); rewrite lookup_insert_ne by done; naive_solver. }
  induction l as [|x l IH]; intros m o H; simpl in *.
  - destruct H as [H|H]; [done|by apply elem_of_nil in H].
  - apply IH. destruct H as [H|H]; [left; by apply Hone; left|].
    apply elem_of_cons in H as [->|H]; [left; by apply Hone; right|by right].
Qed.

(** Emission of the items [send_mmsg] has just put into the buffer. *)
Lemma emit_all alloc s1 w off bs :
  let sb := cn_send_buffer (sc_conn s1) in
  let items := buffer_items off bs in
  (∀ i j, alloc i = alloc j → i = j) → bs ≠ [] → Forall small_buffer bs →
  SendBuf_wf sb → unacked sb → sb_data sb = items → sb_pos sb = 0 → sb_sent sb = 0 →
  total_len bs ≤ sb_max_data sb < 2 ^ 64 → lenZ bs < 2 ^ 40 → 
  sc_iovecs s1 = resizeZ iov0 (lenZ items * 2) w → lenZ (sc_messages s1) = lenZ items →
  (∀ o, off ≤ o < off + total_len bs → nthZ (cn_norm2_vec (sc_conn s1)) (o / 1024) = Some 3) →
  0 ≤ next_pkt_num (cn_space0 (sc_conn s1)) < 2 ^ 62 →
  ∃ s2, emit_single (Z.to_nat (lenZ items) + 1) alloc 0 s1 = Some (Val (), s2) ∧
    emitted_from alloc 0 items s1 s2 ∧ rest_kept s1 s2.
Proof.
  intros sb items Hinj Hne Hs Hwf Hun Hd Hp Hs0 Hmax Hlen Hv Hm Hprio Hn.
  assert (∃ x0 l0, items = x0 :: l0) as (x0 & l0 & Hitems) by (destruct bs; [done|by do 2 eexists]).
  assert (lenZ items = lenZ bs) as Hli by (unfold lenZ, items; by rewrite buffer_items_len).
  destruct (emit_single_from alloc l0 0 x0 s1 (Z.to_nat (lenZ items) + 1)) as (s2 & Hemit & Hef); cbv zeta;
    fold sb; rewrite ?Hd, ?Hs0, <-?Hitems; try done; try lia.
  - unfold items. rewrite buffer_items_total. lia.
  - pose proof (lenZ_nonneg items). rewrite Hv, lenZ_resizeZ; lia.
  - apply Forall_forall. intros x Hx. apply Hprio.
    pose proof (buffer_items_range off bs x Hs Hx).
    assert (0 < si_len x); [|lia]. destruct Hwf as [Hi _ _ _ _]. rewrite Hd in Hi.
    rewrite Forall_forall in Hi. apply (Hi _ Hx).
  - unfold lenZ in *. lia.
  - rewrite <-Hitems in Hef. exists s2. split; [done|]. split; [done|]. by eapply emit_single_rest.
Qed.

(** [send_mmsg] on buffers that were just given to an idle connection. *)
Lemma send_small fill alloc padding s bs :
  let c := sc_conn s in
  let items := buffer_items (sb_off (cn_send_buffer c)) bs in
  (∀ i j, alloc i = alloc j → i = j) → bs ≠ [] → Forall small_buffer bs → (length bs ≤ fill)%nat → lenZ bs < 2 ^ 40 →
  cn_data_buffer c = bs → cn_current_buffer_pos c = 0 →
  SendBuf_wf (cn_send_buffer c) → sb_data (cn_send_buffer c) = [] → has_room c (total_len bs) →
  sb_off (cn_send_buffer c) + total_len bs < 2 ^ 64 →
  (∀ o, sb_off (cn_send_buffer c) ≤ o < sb_off (cn_send_buffer c) + total_len bs →
    nthZ (cn_norm2_vec c) (o / 1024) = Some 3) →
  0 ≤ next_pkt_num (cn_space0 c) < 2 ^ 62 →
  ∃ s', send_mmsg fill alloc padding 1 s = Some (Val (total_len bs), s') ∧ sent_once alloc items s s'.
Proof.
  intros c items Hinj Hne Hs Hfill Hlen Hb Hpos Hwf Hempty [Hcap Hwin] Hoff Hprio Hn.
  assert (0 < total_len bs) as Htot.
  { destruct bs as [|b bs]; [done|]. apply Forall_cons in Hs as [Hb1 Hs]. pose proof (total_len_nonneg bs Hs).
    cbn [total_len foldr]. fold (total_len bs). unfold small_buffer in Hb1. lia. }
  assert (0 < lenZ bs) as Hlb by (destruct bs; [done|rewrite lenZ_cons; pose proof (lenZ_nonneg bs); lia]).
  unfold send_mmsg. fold c. rewrite Hpos, Hb.
  destruct (proj2 (nthZ_Some bs 0)) as [b0 ->]; [lia|].
  pose proof (next_window_keeps c) as Hk. pose proof (next_window_rest c) as Hr0.
  destruct (next_window c) as [w c1]. cbn [fst snd] in *. cbv zeta in Hk.
  destruct Hk as (Ksb & Kdb & Kpos & Kn & Kr & Kd & Ks). rewrite Kdb, Kpos, Hpos, Hb.
  rewrite (proj2 (Z.ltb_lt 0 (lenZ bs))) by lia.
  assert (SendBuf_len (cn_send_buffer c) = 0) as Hl0 by (unfold SendBuf_len; by rewrite Hempty).
  assert (SendBuf_is_empty (cn_send_buffer c) = true) as He0 by (unfold SendBuf_is_empty; by rewrite Hempty).
  assert (sb_pos (cn_send_buffer c) = 0) as Hp0.
  { pose proof (wf_pos _ Hwf) as H. rewrite Hempty, (lenZ_nil (A:=SendItem)) in H. lia. }
  assert (unacked (cn_send_buffer c)) as Hun.
  { intros o x Ho. pose proof (proj1 (wf_tracked _ Hwf o) ltac:(eauto)) as H. rewrite Hempty in H. by apply elem_of_nil in H. }
  destruct (fill_small bs fill [] w 0 c1) as (sb' & Heq & [Tw Td To Tp Tm Ts Tu]); cbv zeta; rewrite ?Ksb, ?Hl0;
    try done; try lia.
  { by rewrite Kdb. } { by rewrite Kpos. } { change ([] ++ bs) with bs. lia. }
  rewrite Heq. cbn [mbind option_bind]. rewrite Z.add_0_l. set (c2 := c1 <| cn_send_buffer := sb' |> <| cn_data_buffer := _ |>
    <| cn_current_buffer_pos := _ |>). change (cn_send_buffer c2) with sb'.
  rewrite Ksb in Td, To, Tp, Tm, Ts, Tu. rewrite Hempty in Td. rewrite He0 in Tm, Ts. cbn [app] in Td.
  fold items in Td. rewrite Td. change (1 =? 1) with true. cbv beta iota.
  set (s1 := s <| sc_conn := c2 |> <| sc_iovecs ::= _ |> <| sc_messages ::= _ |>).
  assert (lenZ items = lenZ bs) as Hli by (unfold lenZ, items; by rewrite buffer_items_len).
  destruct (emit_all alloc s1 (sc_iovecs s) (sb_off (cn_send_buffer c)) bs) as (s2 & Hemit & Hef & Hrest);
    cbv zeta; change (cn_send_buffer (sc_conn s1)) with sb'; change (cn_norm2_vec (sc_conn s1)) with (cn_norm2_vec c1);
    change (cn_space0 (sc_conn s1)) with (cn_space0 c1); rewrite ?Kn, ?Ks; fold items; try done; try lia.
  { auto. }
  { unfold s1. cbn -[Z.mul]. rewrite lenZ_resizeZ; lia. }
  cbv zeta in Hemit, Hef; fold items in Hemit, Hef. rewrite Hemit. cbn [fmap option_fmap option_map]. rewrite (proj2 (Z.eqb_neq (total_len bs) 0)) by lia.
  eexists. split; [reflexivity|].
  destruct Hef as [E1 _ [E3 _] E4 E5 E6 E7 _ (E9 & E9' & E10 & E11) [E12 _]].
  assert (lenZ (sc_messages s1) = lenZ items) as Hm1 by (unfold s1; cbn -[Z.mul]; rewrite lenZ_resizeZ; lia).
  split.
  - by rewrite <-Hm1, <-E3.
  - intros j x Hj. assert (0 ≤ j) as Hj0 by (apply (nthZ_Some items j); eauto).
    destruct (E1 j x Hj0 Hj) as (H1 & H2 & H3 & _). by rewrite ?Z.add_0_l in H1, H2, H3.
  - intros a Ha. change (sc_heap (?s3 <| sc_conn ::= _ |>)) with (sc_heap s3). rewrite free_headers_lookup.
    case_decide as Hin; [done|]. rewrite E4; [exact Ha|]. intros j Hj ->. apply Hin.
    apply list_elem_of_fmap. exists j. split; [done|]. apply elem_of_seqZ. lia.
  - change (conn_rest (sc_conn s2) = conn_rest c). unfold rest_kept in Hrest. rewrite Hrest, <-Hr0. done.
  - change (cn_record_send (sc_conn s2) = cn_record_send c ++ map si_off items). rewrite E5. f_equal. exact Kr.
  - change (Forall (λ x, is_Some (cn_sent_dic (sc_conn s2) !! si_off x)) items). rewrite E6.
    apply Forall_forall. intros x Hx. apply count_sent_some. right. by apply list_elem_of_fmap_2.
  - change (SendBuf_wf (cn_send_buffer (sc_conn s2)) ∧ sb_data (cn_send_buffer (sc_conn s2)) = items ∧
      sb_pos (cn_send_buffer (sc_conn s2)) = 0 ∧ unacked (cn_send_buffer (sc_conn s2))).
    change (cn_send_buffer (sc_conn s1)) with sb' in *. rewrite E9, Td. split_and!; [|done|done|].
    + apply (SendBuf_wf_fields sb'); [done..| |done]. by rewrite E9', Tp.
    + intros o x. rewrite E11. by apply Tu.
  - change (forallb (λ b, sbf_left b =? 0) (cn_data_buffer (sc_conn s2)) = true ∧
      length (cn_data_buffer (sc_conn s2)) = length items). rewrite E12.
    unfold s1, c2. cbn. rewrite length_map. unfold items. rewrite buffer_items_len. split; [|done].
    clear. by induction bs.
  - change (next_pkt_num (cn_space0 (sc_conn s2)) = next_pkt_num (cn_space0 c) + lenZ items). rewrite E7.
    f_equal. by rewrite <-Ks.
  - done.
Qed.

(* ------------------------------------------------------------------ *)
(** * Runs of a pair *)

Lemma L_bind_val {A B} (m : L A) (f : A → L B) d a d' : m d = Some (Val a, d') → (m ≫= f) d = f a d'.
Proof. unfold mbind, L_bind. by intros ->. Qed.
Lemma L_bind_running {A B} (m : L A) (f : A → L B) d : m d = None → (m ≫= f) d = None.
Proof. unfold mbind, L_bind. by intros ->. Qed.
Lemma L_bind_get {B} (f : Dio → L B) d : (L_get ≫= f) d = f d d.
Proof. done. Qed.
Lemma L_bind_modify {B} g (f : unit → L B) d : (L_modify g ≫= f) d = f () (g d).
Proof. done. Qed.
Lemma L_bind_ret {A B} (a : A) (f : A → L B) d : ((mret a : L A) ≫= f) d = f a d.
Proof. done. Qed.
Lemma L_bind_lift {A B} (o : outcome A) a (f : A → L B) d : o = Val a → (L_lift o ≫= f) d = f a d.
Proof. by intros ->. Qed.
Lemma L_bind_conn {A B} (m : M Connection A) (f : A → L B) d a c :
  m (d_conn d) = (Val a, c) → (on_conn m ≫= f) d = f a (d <| d_send ::= λ s, s <| sc_conn := c |> |>).
Proof. unfold mbind, L_bind, on_conn. by intros ->. Qed.
Lemma L_bind_pio {A B} (m : M Pio A) (f : A → L B) d a p :
  m (d_pio d) = (Val a, p) → (on_pio m ≫= f) d = f a (d <| d_pio := p |>).
Proof. unfold mbind, L_bind, on_pio. by intros ->. Qed.

Lemma Dio_same_pio d : d <| d_pio := d_pio d |> = d.
Proof. by destruct d. Qed.
Lemma Dio_same_conn d : d <| d_send ::= λ s, s <| sc_conn := d_conn d |> |> = d.
Proof. by destruct d as [? []]. Qed.

Section sending.
Context (be : bool) (unord : ∀ A, gmap Z A → list (Z * A)) (clock : nat → Z).
Context (spare : list Z) (realloc : Z → Z).
Context (alloc : nat → Z → Z) (stale : nat → Z → list Z) (place : option Z → Z) (padding : Z) (fill : nat).
Implicit Types (d : Dio) (o : IoOp) (iov : list Iovec).

(** While the connection is busy the loop over the queue goes round and round. *)
Lemma write2dmludp_queue_spins fuel d o ops :
  pi_tx (d_pio d) = o :: ops → transmission_complete (d_conn d) = (false, d_conn d) →
  write2dmludp_queue be unord clock spare realloc alloc stale place padding fill fuel d = None.
Proof.
  intros Htx Hc. induction fuel as [|fuel IH]; [done|]. cbn [write2dmludp_queue].
  rewrite L_bind_get, Htx. erewrite L_bind_conn; last first.
  { unfold dmludp_transmission_complete. by rewrite Hc. }
  cbv beta iota. by rewrite Dio_same_conn.
Qed.

(** So the device's thread never comes back from [handleEvents]. *)
Lemma handleEvents_spins handle fuel d o ops inp :
  pi_state (d_pio d) = CONNECTED → pi_ex (d_pio d) = None → pi_tx (d_pio d) = o :: ops →
  transmission_complete (d_conn d) = (false, d_conn d) →
  d_handleEvents be unord clock spare realloc alloc stale place padding fill handle fuel false true inp d = None.
Proof.
  intros Hst Hex Htx Hc. unfold d_handleEvents, d_handleReadWrite. rewrite L_bind_get, Hst, Hex.
  do 2 erewrite L_bind_lift by done. apply L_bind_running. rewrite L_bind_get, Htx.
  erewrite L_bind_lift by done. apply L_bind_running. by eapply write2dmludp_queue_spins.
Qed.

(** [write] starts again for ever. *)
Lemma d_write_loop_spins fuel o iov nbytes : ∀ d,
  prepareWrite o = Val (iov, nbytes) → 0 < u64 nbytes → d_write_loop fuel o d = None.
Proof.
  induction fuel as [|fuel IH]; intros d Hp Hn; [done|]. cbn [d_write_loop].
  erewrite L_bind_lift by done. cbv beta iota. rewrite L_bind_modify, (proj2 (Z.ltb_lt _ _)) by done. by apply IH.
Qed.

(** So a synchronous send never returns, whatever the socket answers. *)
Lemma sync_send_spins fuel d o iov nbytes :
  pi_sync (d_pio d) = true → pi_state (d_pio d) = CONNECTED → pi_ex (d_pio d) = None →
  buffer_gone (pi_alive (d_pio d)) o = false → prepareWrite o = Val (iov, nbytes) → 0 < u64 nbytes →
  d_send_op be unord clock spare realloc alloc stale place padding fill fuel o d = None.
Proof.
  intros Hsync Hst Hex Hal Hp Hn. unfold d_send_op.
  assert (Pio_throwIfException (d_pio d) = (Val (), d_pio d)) as Hthrow
    by (unfold Pio_throwIfException; by rewrite M_bind_gets, Hex).
  assert (verifyConnected (d_pio d) = (Val (), d_pio d)) as Hver
    by (unfold verifyConnected; by rewrite M_bind_gets, Hst).
  rewrite (L_bind_pio _ _ _ _ _ Hthrow), Dio_same_pio, (L_bind_pio _ _ _ _ _ Hver), Dio_same_pio, L_bind_get, Hsync.
  unfold d_sendSyncMode. rewrite L_bind_get, Hsync. erewrite L_bind_lift by done. apply L_bind_running.
  unfold d_write. rewrite L_bind_get, Hst, Hal. by eapply d_write_loop_spins.
Qed.

(** The connection's view of what an operation offers to write. *)
Definition iov_buffer (v : Iovec) : sbuffer := sbuffer_new (iov_addr place v) (iov_len v).
Definition iovs_len iov : Z := total_len (iov_buffer <$> iov).

(** An operation that can be sent at once: the pair is connected, its
    connection idle with room for all of it, every part is a datagram at most,
    and its priorities are in the table that [get_data] makes. *)
Record sendable (d : Dio) (o : IoOp) (iov : list Iovec) : Prop := {
  sd_pair : pi_state (d_pio d) = CONNECTED ∧ pi_ex (d_pio d) = None;
  sd_alive : buffer_gone (pi_alive (d_pio d)) o = false;
  sd_iov : ∃ n, prepareWrite o = Val (iov, n);
  sd_some : 1 ≤ lenZ iov ≤ 1350;
  sd_small : Forall small_buffer (iov_buffer <$> iov);
  sd_idle : sender_idle (d_conn d);
  sd_room : has_room (d_conn d) (iovs_len iov);
  sd_table : sb_off (cn_send_buffer (d_conn d)) + iovs_len iov ≤ 1024;
  sd_heap : sc_heap (d_send d) = ∅;
  sd_alloc : ∀ i j, alloc (length (d_out d)) i = alloc (length (d_out d)) j → i = j;
  sd_fill : (length iov ≤ fill)%nat;
}.

Definition op_items (d : Dio) (iov : list Iovec) : list SendItem :=
  buffer_items (sb_off (cn_send_buffer (d_conn d))) (iov_buffer <$> iov).

(** The pair when the connection has been given the operation. *)
Definition given (d : Dio) (iov : list Iovec) : Dio :=
  d <| d_send ::= λ s, s <| sc_iovecs := [] |> <| sc_messages := [] |>
         <| sc_conn := (get_data ((λ v, mkIovec (iov_addr place v) (iov_len v)) <$> iov) (d_conn d)).2 |> |>.

(** The connection takes the operation's parts and makes one priority for them. *)
Lemma get_data_given d o iov :
  sendable d o iov →
  get_data ((λ v, mkIovec (iov_addr place v) (iov_len v)) <$> iov) (d_conn d) =
    (true, d_conn d <| cn_data_buffer := iov_buffer <$> iov |> <| cn_norm2_vec := [3] |>).
Proof.
  intros H. pose proof (sd_some _ _ _ H) as Hne. destruct (id_data _ (sd_idle _ _ _ H)) as [Hdb _].
  set (ios := (λ v, mkIovec (iov_addr place v) (iov_len v)) <$> iov).
  assert (chunks_of_1350 (lenZ ios) = 1) as Hch.
  { assert (lenZ ios = lenZ iov) as -> by (unfold lenZ, ios; by rewrite length_fmap).
    clear -Hne. unfold chunks_of_1350. destruct (Z.eqb_spec (lenZ iov `mod` 1350) 0); Z.to_euclidean_division_equations; lia. }
  assert (map (λ v, sbuffer_new (iov_base v) (SendBuffer.iov_len v)) ios = iov_buffer <$> iov) as Hm.
  { unfold ios. clear. induction iov as [|v iov IH]; [done|]. cbn. by rewrite <-IH. }
  unfold get_data. rewrite Hdb. cbv zeta. rewrite Hch, Hm. f_equal.
  - cbn. rewrite Hdb. cbn [app]. rewrite bool_decide_eq_false_2; [done|].
    unfold lenZ, ios in *. rewrite !length_fmap. lia.
  - clear -Hdb. destruct (d_conn d). cbn in *. by subst.
Qed.

Lemma given_conn d o iov :
  sendable d o iov →
  sc_conn (d_send (given d iov)) = d_conn d <| cn_data_buffer := iov_buffer <$> iov |> <| cn_norm2_vec := [3] |>.
Proof. intros H. unfold given. by rewrite (get_data_given _ _ _ H). Qed.

Lemma send_round_sends d o iov :
  sendable d o iov →
  (get_data ((λ v, mkIovec (iov_addr place v) (iov_len v)) <$> iov) (d_conn d)).1 = true ∧
  ∃ s', send_round alloc padding fill (given d iov) = Some (Val (iovs_len iov), given d iov <| d_send := s' |>) ∧
    sent_once (alloc (length (d_out d))) (op_items d iov) (d_send (given d iov)) s' ∧
    cn_norm2_vec (sc_conn s') = [3].
Proof.
  intros H. pose proof (get_data_given _ _ _ H) as Hg. pose proof (given_conn _ _ _ H) as Hc.
  destruct H as [_ _ _ Hne Hsm [[Hdb Hpos] Hwf Hempty _ _ [Hn0 _] _] Hroom Htab Hheap Hal Hfill].
  split; [by rewrite Hg|].
  assert (iov_buffer <$> iov ≠ []) as Hne' by (intros ->%fmap_nil_inv; change (lenZ []) with 0 in Hne; lia).
  pose proof (wf_off _ Hwf) as Ho0.
  destruct (send_small fill (alloc (length (d_out d))) padding (d_send (given d iov)) (iov_buffer <$> iov))
    as (s' & Heq & Hs); cbv zeta; rewrite ?Hc; try done.
  - by rewrite length_fmap.
  - unfold lenZ in *. rewrite length_fmap. lia.
  - destruct Hroom as [Hr1 Hr2]. split; [exact Hr1|].
    match goal with |- context [next_window ?c] => assert (fst (next_window c) = fst (next_window (d_conn d))) as -> end; [|exact Hr2].
    clear. unfold next_window. cbn. destruct (SendBuf_is_empty _); [|done]. destruct (f_gtb _ _).
    + by destruct (Recovery_rollback _).
    + by destruct (Recovery_cwnd _).
  - change (sb_off (cn_send_buffer (d_conn d)) + iovs_len iov < 2 ^ 64). lia.
  - intros x Hx. change (sb_off (cn_send_buffer (d_conn d)) ≤ x < sb_off (cn_send_buffer (d_conn d)) + iovs_len iov) in Hx.
    change (nthZ [3] (x / 1024) = Some 3). rewrite Z.div_small by lia. done.
  - exists s'. split; [|split].
    + unfold send_round, dmludp_data_send_mmsg. change (d_out (given d iov)) with (d_out d). by rewrite Heq.
    + rewrite Hc in Hs. exact Hs.
    + pose proof (so_rest _ _ _ _ Hs) as Hr. unfold conn_rest in Hr. rewrite Hc in Hr. by injection Hr as ->.
Qed.

(** With items left in its send buffer a connection is not done. *)
Lemma busy_incomplete c : sb_data (cn_send_buffer c) ≠ [] → transmission_complete c = (false, c).
Proof.
  intros H. unfold transmission_complete.
  assert ((lenZ (sb_data (cn_send_buffer c)) =? 0) = false) as ->; [|done].
  apply Z.eqb_neq. destruct (sb_data _); [done|]. rewrite lenZ_cons. pose proof (lenZ_nonneg l). lia.
Qed.

Lemma sendable_write fuel d o iov :
  sendable d o iov →
  write2dmludp be unord clock spare realloc alloc stale place padding fill fuel o d =
  (r ← write_rounds be unord clock spare realloc alloc stale place padding fill fuel o iov 0;
   match r with
   | None => mret (false, o)
   | Some written =>
       let o := o <| io_nwritten ::= λ n, u64 (n + written) |> in
       if io_nwritten o =? io_total o then _ ← on_pio (writeComplete o); mret (true, o) else mret (false, o)
   end) (given d iov).
Proof.
  intros H. destruct (send_round_sends d o iov H) as [Hg _]. destruct H as [[Hst _] Hal [n Hp] _ _ _ _ _ _ _ _].
  unfold write2dmludp. rewrite L_bind_get, Hst, Hal. erewrite L_bind_lift by done. cbv beta iota.
  rewrite L_bind_modify.
  set (ios := (λ v, mkIovec (iov_addr place v) (iov_len v)) <$> iov) in *.
  assert (dmludp_get_data ios (d_conn d) = (Val true, (get_data ios (d_conn d)).2)) as Hgd
    by (unfold dmludp_get_data; by destruct (get_data _ _) as [b c]; cbn in Hg; subst b).
  match goal with |- context [(on_conn _ ≫= _) ?d1] => change (d_conn d) with (d_conn d1) in Hgd end.
  rewrite (L_bind_conn _ _ _ _ _ Hgd). reflexivity.
Qed.

(** C6: when [sendmmsg] reports an error other than an interruption (a full
    socket buffer, say), the pair never recovers: the operation is queued and
    the pair registered for output, and when the socket can be written again the
    device's thread, holding the pair's lock, never comes back from
    [handleEvents]: it waits for the connection to finish the operation before
    it starts on it. *)
Theorem failed_send_hangs (d : Dio) (o : IoOp) (iov : list Iovec) (e : Errno) (ks : list KMmsg) (fuel : nat) :
  sendable d o iov → pi_sync (d_pio d) = false → pi_tx (d_pio d) = [] → d_mm d = MError e :: ks → e ≠ EINTR →
  ∃ d', d_sendAsyncMode be unord clock spare realloc alloc stale place padding fill (S fuel) o d = Some (Val (), d') ∧
    pi_tx (d_pio d') = [o] ∧ pi_events (d_pio d') = Some true ∧ pi_state (d_pio d') = CONNECTED ∧
    ∀ handle fuel' inp,
      d_handleEvents be unord clock spare realloc alloc stale place padding fill handle fuel' false true inp d' = None.
Proof.
  intros H Hsync Htx Hmm He. destruct (send_round_sends d o iov H) as (_ & s' & Hround & Hs & _).
  assert (lenZ (op_items d iov) = lenZ iov) as Hli.
  { unfold op_items, lenZ. by rewrite buffer_items_len, length_fmap. }
  pose proof (sd_some _ _ _ H) as Hne. pose proof (sd_pair _ _ _ H) as [Hst Hex].
  set (d1 := given d iov <| d_send := s' |>).
  assert (∃ d2, write2dmludp be unord clock spare realloc alloc stale place padding fill (S fuel) o d = Some (Val (false, o), d2) ∧
    d_pio d2 = d_pio d ∧ d_send d2 = s') as (d2 & Hw & Hp2 & Hs2).
  { rewrite (sendable_write _ _ _ _ H). unfold mbind at 1, L_bind at 1. cbn [write_rounds].
    erewrite L_bind_val by exact Hround. cbv zeta. rewrite L_bind_get. fold d1.
    change (d_mm d1) with (d_mm d). rewrite Hmm. cbn [sendmmsg_loop].
    assert ((lenZ (sc_messages (d_send d1)) <=? 0) = false) as Hm.
    { apply Z.leb_gt. unfold d1. cbn. rewrite (so_messages _ _ _ _ Hs). lia. }
    unfold mbind at 1, L_bind at 1. rewrite L_bind_get, Hm, L_bind_modify.
    destruct e; [..|done|]; rewrite L_bind_modify; by eexists. }
  unfold d_sendAsyncMode. rewrite L_bind_get, Hsync. erewrite L_bind_lift by done. rewrite Htx.
  erewrite L_bind_val by exact Hw. cbv beta iota.
  erewrite L_bind_pio; last first.
  { unfold Pio_throwIfException. rewrite M_bind_gets, Hp2, Hex. reflexivity. }
  eexists. split; [reflexivity|]. split_and!.
  - cbn. by rewrite Htx.
  - done.
  - done.
  - intros handle fuel' inp. eapply handleEvents_spins.
    + done.
    + done.
    + cbn. by rewrite Htx.
    + apply busy_incomplete. change (sb_data (cn_send_buffer (sc_conn (d_send d2))) ≠ []).
      rewrite Hs2. destruct (so_buf _ _ _ _ Hs) as (_ & -> & _). intros E. rewrite E in Hli. change (lenZ []) with 0 in Hli. lia.
Qed.
End sending.

(* ------------------------------------------------------------------ *)
(** * A pair to run *)

(** The message of [su] on [slot]: the operation and its parts. *)
Definition message_op (slot : Z) (su : UOp) : IoOp := io_of_op (unbound_op slot su).
Definition message_iov (su : UOp) : list Iovec :=
  [IovPreamble 0 48; IovMem (mkRegion (uo_buf su) (uo_offset su) (uo_nbytes su))].

(** Headers at addresses of their own, and the buffers apart from them. *)
Definition demo_headers (k : nat) (j : Z) : Z := if j <? 0 then 32 * j else 10000 + 32 * j.
Definition demo_place (b : option Z) : Z := match b with None => 5000 | Some b => 6000 + 100 * b end.
Definition demo_pio (posts : gmap Z (list UOp)) (m : Mem) : Pio :=
  mkPio CONNECTED false false true (Some false) None [] IoOp_new ∅ posts ∅ (λ _, 64) (λ _, true) m [] [] [] [] [] [] [].
Definition demo_su : UOp := mkUOp 4 1 6.
Definition demo_sending (net : list KDgram) (mm : list KMmsg) : Dio :=
  mkDio (demo_pio ∅ (demo_mems 0)) (mkSendCtx (Connection_new false 0) [] [] ∅) net mm [] EAGAIN 0.

Lemma demo_headers_inj k i j : demo_headers k i = demo_headers k j → i = j.
Proof. unfold demo_headers. repeat case_match; lia. Qed.

Lemma demo_sendable net mm : sendable demo_headers demo_place 10 (demo_sending net mm) (message_op 3 demo_su) (message_iov demo_su).
Proof.
  split; try done.
  - eexists. vm_compute. reflexivity.
  - repeat constructor; vm_compute; by intros ?.
  - split; try done; apply SendBuf_new_wf.
  - intros i j. apply demo_headers_inj.
  - cbn. lia.
Qed.

Lemma failed_send_hangs_witness :
  ∃ d', d_sendAsyncMode false demo_order (λ i, Z.of_nat i) [] id demo_headers (λ _ _, []) demo_place 0 10 1
      (message_op 3 demo_su) (demo_sending [] [MError EAGAIN]) = Some (Val (), d') ∧
    pi_tx (d_pio d') = [message_op 3 demo_su] ∧ pi_events (d_pio d') = Some true ∧ pi_state (d_pio d') = CONNECTED ∧
    ∀ handle fuel' inp,
      d_handleEvents false demo_order (λ i, Z.of_nat i) [] id demo_headers (λ _ _, []) demo_place 0 10
        handle fuel' false true inp d' = None.
Proof. by apply (failed_send_hangs _ _ _ _ _ _ _ _ _ _ _ _ _ EAGAIN [] 0 (demo_sendable _ _)). Defined.
