(* ===== verification/DmludpRecv.v ===== *)
(** Receiving an operation over the datagram protocol: what [handleread] does
    with the datagrams of a message and the request that follows them. *)
From Stdlib Require Import SpecFloat.
From S2P Require Import Prelude RangeBuffer Packet RecvBuffer SendBuffer RecoveryModel ConnState ConnAck ConnSend AckExchange.
From S2P Require Import DmludpApi Tally PairOps Net Frame FrameSend DmludpPair DmludpSend.

Definition with_conn (c : Connection) (d : Dio) : Dio := d <| d_send ::= λ s, s <| sc_conn := c |> |>.

(** [rx_.nread] after [n] more bytes were counted. *)
Definition counted (n : Z) (d : Dio) : Dio :=
  d <| d_pio ::= λ p, p <| pi_rx ::= λ o, o <| io_nread ::= λ k, u64 (k + n) |> |> |>.

Lemma header_26 be h body : take 26 (header_bytes be h ++ body) = header_bytes be h.
Proof. apply take_app_length'. pose proof (header_bytes_len be h). unfold lenZ in *. lia. Qed.

Lemma header_info_packet be h body : Header_ok h → h_ty h ≠ Unknown →
  ∃ pn, dmludp_header_info be (take 26 (header_bytes be h ++ body)) =
    Val (match h_ty h with
         | Retry => 1 | Handshake => 2 | Application => 3 | ElicitAck => 4 | ACK => 5
         | Packet.Stop => 6 | Fin => 7 | StartAck => 8 | Unknown => 0 end, pn).
Proof.
  intros Hh Ht. rewrite header_26. unfold dmludp_header_info. rewrite from_slice_header by done. cbn. eauto.
Qed.

Lemma from_slice_packet be h body :
  Header_ok h → h_ty h ≠ Unknown → bytes_ok body → from_slice be (header_bytes be h ++ body) = Val h.
Proof.
  intros Hh Hty Hb. pose proof (from_bytes_header be h body Hh Hty) as H.
  unfold from_slice. rewrite !get_u64_load; [exact H|..];
    (apply Forall_app; split; [apply header_bytes_ok|exact Hb]).
Qed.

Lemma data_packet_len be pn prio ch : lenZ (data_packet be pn prio ch) = 26 + lenZ ch.2.
Proof. unfold data_packet. by rewrite lenZ_app, header_bytes_len. Qed.

(** A packet that fits the buffer of [recv] arrives whole. *)
Lemma recv_dgram_whole d bs ks : d_net d = DGot bs :: ks → lenZ bs ≤ 1500 →
  recv_dgram d = Some (Val (Some bs), d <| d_net := ks |>).
Proof. intros Hn Hl. unfold recv_dgram. rewrite Hn, take_ge; [done|]. unfold lenZ in Hl. lia. Qed.

Lemma packet_cons (bs : list Z) : 26 ≤ lenZ bs → ∃ b l, bs = b :: l.
Proof. destruct bs as [|b l]; [done|eauto]. Qed.

Section reading.
Context (be : bool) (unord : ∀ A, gmap Z A → list (Z * A)) (clock : nat → Z).

Lemma dgram_in_data d pn prio ch :
  is_u64 pn → is_u8 prio → chunk_ok ch →
  ∃ c, dgram_in be clock (data_packet be pn prio ch) d = Some (Val (lenZ ch.2, 3), with_conn c (d <| d_tick ::= S |>)) ∧
    cn_rec_buffer c = RecvBuf_write ch.2 ch.1 (cn_rec_buffer (d_conn d)) ∧
    (∀ o, is_Some (cn_recv_dic c !! o) ↔ o = ch.1 ∨ is_Some (cn_recv_dic (d_conn d) !! o)) ∧
    reply_fields c = reply_fields (d_conn d).
Proof.
  intros Hpn Hprio Hch.
  destruct (recv_data_packet be (clock (d_tick d)) pn prio ch (d_conn d) Hpn Hprio Hch) as (c & Hr & Hc).
  exists c. split; [|exact Hc]. unfold dgram_in.
  erewrite L_bind_val by reflexivity. change (d_conn d) with (d_conn (d <| d_tick ::= S |>)) in Hr.
  rewrite (L_bind_conn _ _ _ _ _ Hr). destruct Hch as (H0 & H1 & H2).
  destruct (header_info_packet be (mkHeader Application pn prio ch.1 (lenZ ch.2)) ch.2) as [x Hx]; [|done|].
  { unfold Header_ok, in_range in *; simpl; lia. }
  unfold data_packet. rewrite (L_bind_lift _ _ _ _ Hx). done.
Qed.

(** One data packet: it counts if bytes are still asked for. *)
Lemma collect_data fuel d pn prio ch ks left :
  is_u64 pn → is_u8 prio → chunk_ok ch → lenZ ch.2 ≤ 1474 → d_net d = DGot (data_packet be pn prio ch) :: ks →
  0 ≤ left < 2 ^ 62 →
  ∃ c, collect be unord clock (S fuel) left d =
    (if 0 <? left
     then collect be unord clock fuel (left - lenZ ch.2)
            (counted (lenZ ch.2) (with_conn c (d <| d_net := ks |> <| d_tick ::= S |>)))
     else collect be unord clock fuel left (with_conn c (d <| d_net := ks |> <| d_tick ::= S |>))) ∧
    cn_rec_buffer c = RecvBuf_write ch.2 ch.1 (cn_rec_buffer (d_conn d)) ∧
    (∀ o, is_Some (cn_recv_dic c !! o) ↔ o = ch.1 ∨ is_Some (cn_recv_dic (d_conn d) !! o)) ∧
    reply_fields c = reply_fields (d_conn d).
Proof.
  intros Hpn Hprio Hch Hlen Hnet Hleft.
  destruct (dgram_in_data (d <| d_net := ks |>) pn prio ch Hpn Hprio Hch) as (c & Hin & Hc).
  exists c. split; [|exact Hc]. cbn [collect].
  rewrite (L_bind_val _ _ _ _ _ (recv_dgram_whole _ _ _ Hnet ltac:(rewrite data_packet_len; lia))).
  destruct (packet_cons (data_packet be pn prio ch)) as (b & l & Hbl);
    [rewrite data_packet_len; pose proof (lenZ_nonneg ch.2); lia|].
  rewrite Hbl. cbv beta iota. rewrite <-Hbl. rewrite (L_bind_val _ _ _ _ _ Hin). cbv beta iota.
  change (3 =? 4) with false. change (3 =? 6) with false. change (3 =? 3) with true. cbv iota. cbn [andb].
  destruct (0 <? left) eqn:E; [|done]. unfold nread_add. 
  erewrite L_bind_pio by reflexivity. rewrite swrap_small by (destruct Hch; lia).
  done.
Qed.

(** Packets after what is asked for has come are only received. *)
Lemma collect_more ws : ∀ fuel d ks,
  Forall (λ '(pn, prio, ch), is_u64 pn ∧ is_u8 prio ∧ chunk_ok ch ∧ lenZ ch.2 ≤ 1474) ws →
  d_net d = (DGot <$> ((λ '(pn, prio, ch), data_packet be pn prio ch) <$> ws)) ++ ks →
  ∃ c k, collect be unord clock (length ws + fuel) 0 d =
      collect be unord clock fuel 0 (with_conn c (d <| d_net := ks |> <| d_tick := k |>)) ∧
    cn_rec_buffer c = foldl (λ r w, RecvBuf_write w.2 w.1 r) (cn_rec_buffer (d_conn d)) (snd <$> ws) ∧
    (∀ o, is_Some (cn_recv_dic c !! o) ↔ o ∈ (λ '(_, _, ch), ch.1) <$> ws ∨ is_Some (cn_recv_dic (d_conn d) !! o)) ∧
    reply_fields c = reply_fields (d_conn d).
Proof.
  induction ws as [|[[pn prio] ch] ws IH]; intros fuel d ks Hok Hnet.
  { exists (d_conn d), (d_tick d). cbn in Hnet. split; [|split_and!; [done| |done]].
    - destruct d as [? [] ? ? ? ? ?]. cbn in *. by subst.
    - intros o. cbn. rewrite elem_of_nil. tauto. }
  apply Forall_cons in Hok as [(Hpn & Hprio & Hch & Hl) Hok]. cbn [fmap list_fmap app] in Hnet.
  destruct (collect_data (length ws + fuel) d pn prio ch _ 0 Hpn Hprio Hch Hl Hnet ltac:(lia)) as (c1 & Heq & Hb & Hd & Hr).
  change (0 <? 0) with false in Heq. cbv iota in Heq. cbn [length plus]. rewrite Heq.
  set (d1 := with_conn c1 _) in *.
  destruct (IH fuel d1 ks Hok eq_refl) as (c2 & k & Heq2 & Hb2 & Hd2 & Hr2).
  exists c2, k. rewrite Heq2. change (d_conn d1) with c1 in *. split; [done|].
  split_and!; [by rewrite Hb2, Hb| |congruence].
  intros o. rewrite Hd2, Hd. cbn [fmap list_fmap]. rewrite elem_of_cons. tauto.
Qed.

(** A control packet that the connection accepts. *)
Lemma dgram_in_control d h body c' :
  Header_ok h → h_ty h = ElicitAck ∨ h_ty h = ACK → bytes_ok body →
  recv_slice be (clock (d_tick d)) (header_bytes be h ++ body) (d_conn d) = (Val 0, c') →
  dgram_in be clock (header_bytes be h ++ body) d =
    Some (Val (0, match h_ty h with ElicitAck => 4 | _ => 5 end), with_conn c' (d <| d_tick ::= S |>)).
Proof.
  intros Hh Hty Hbody Hrecv. assert (h_ty h ≠ Unknown) as Hun by (by destruct Hty as [-> | ->]).
  unfold dgram_in. erewrite L_bind_val by reflexivity.
  assert (dmludp_conn_recv be (clock (d_tick d)) (header_bytes be h ++ body) (d_conn d) = (Val 0, c')) as Hr.
  { unfold dmludp_conn_recv. rewrite lenZ_app, header_bytes_len. pose proof (lenZ_nonneg body).
    rewrite (proj2 (Z.leb_gt _ 0)), (M_bind_val _ _ _ _ _ Hrecv) by lia. change (0 =? 0) with true. cbv iota.
    rewrite (M_bind_val _ _ _ _ _ (lift_val _ _ _ (from_slice_packet be h body Hh Hun Hbody))).
    by destruct Hty as [-> | ->]. }
  change (d_conn d) with (d_conn (d <| d_tick ::= S |>)) in Hr. rewrite (L_bind_conn _ _ _ _ _ Hr).
  destruct (header_info_packet be h body Hh Hun) as [x Hx]. rewrite (L_bind_lift _ _ _ _ Hx).
  by destruct Hty as [-> | ->].
Qed.

(** The request: it is answered, and reading may go on. *)
Lemma collect_elicit fuel d pn offs ks :
  unord Z (cn_recv_hashmap (after_request pn offs (d_conn d))) ≡ₚ
    map_to_list (cn_recv_hashmap (after_request pn offs (d_conn d))) →
  is_u64 pn → offs ≠ [] → Forall is_u64 offs → lenZ offs ≤ 160 →
  will_reply (d_conn d) → cn_recv_hashmap (d_conn d) = ∅ →
  d_net d = DGot (elicit_packet be pn offs) :: ks →
  ∃ l k, l ≡ₚ map_to_list (foldl (mark_loss (cn_recv_dic (d_conn d))) ∅ offs) ∧
    collect be unord clock (S fuel) 0 d = Some (Val (Some 0),
      with_conn (after_reply (clock (S (d_tick d))) (after_request pn offs (d_conn d)))
        (d <| d_net := ks |> <| d_tick := k |> <| d_out ::= λ o, o ++ [ack_packet be pn l] |>)).
Proof.
  intros Hperm Hpn Hne Hu Hlo Hwr Hempty Hnet. set (c := d_conn d) in *. set (c1 := after_request pn offs c) in *.
  assert (lenZ (elicit_packet be pn offs) = 26 + 8 * lenZ offs) as Hlen
    by (unfold elicit_packet; rewrite lenZ_app, header_bytes_len, offs_bytes_len; lia).
  pose proof (lenZ_nonneg offs). cbn [collect].
  rewrite (L_bind_val _ _ _ _ _ (recv_dgram_whole _ _ _ Hnet ltac:(lia))).
  destruct (packet_cons (elicit_packet be pn offs)) as (b & l0 & Hbl); [lia|].
  rewrite Hbl. cbv beta iota. rewrite <-Hbl.
  set (h := mkHeader ElicitAck pn 0 0 (lenZ offs * 8)).
  assert (Header_ok h) as Hh by (unfold Header_ok, in_range; simpl; unfold in_range in *; lia).
  assert (dgram_in be clock (elicit_packet be pn offs) (d <| d_net := ks |>) =
    Some (Val (0, 4), with_conn c1 (d <| d_net := ks |> <| d_tick ::= S |>))) as Hin.
  { apply (dgram_in_control (d <| d_net := ks |>) h); [done|by left|apply offs_bytes_ok|].
    exact (recv_slice_elicit be (clock (d_tick d)) pn offs c Hpn Hne Hu Hlo). }
  rewrite (L_bind_val _ _ _ _ _ Hin). cbv beta iota. change (4 =? 4) with true. cbv iota.
  change (0 <=? 0) with true. cbv iota.
  assert (cn_recv_hashmap c1 = foldl (mark_loss (cn_recv_dic c)) ∅ offs) as Hmap by (unfold c1, after_request; cbn; by rewrite Hempty).
  pose proof (mark_loss_size (cn_recv_dic c) offs ∅) as Hsize. rewrite <-Hmap, map_size_empty in Hsize.
  set (l := unord Z (cn_recv_hashmap c1)) in *.
  assert (lenZ l = Z.of_nat (size (cn_recv_hashmap c1))) as Hll by (unfold lenZ; by rewrite Hperm, length_map_to_list).
  assert (will_reply c1) as Hwr1 by exact Hwr.
  destruct (send_data_ack be unord (clock (S (d_tick d))) (replicate (Z.to_nat 1500) 0) c1) as (rest & Hrl & H3);
    [done|done|done|done|unfold lenZ in *; lia| |].
  { rewrite lenZ_replicate by lia. unfold lenZ in *. lia. }
  rewrite lenZ_replicate in Hrl by lia. change (cn_send_num c1) with pn in *. fold l in Hrl, H3.
  exists l, (S (S (d_tick d))). split; [rewrite <-Hmap; exact Hperm|].
  assert (dmludp_conn_send be unord (clock (S (d_tick d))) 1500 c1 =
    (Val (26 + Z.of_nat (size (cn_recv_hashmap c1)) * 9, ack_packet be pn l ++ rest), after_reply (clock (S (d_tick d))) c1)) as Hsend.
  { unfold dmludp_conn_send. change (1500 <=? 0) with false. cbv iota.
    rewrite (M_bind_val _ _ _ _ _ H3). cbv beta iota.
    rewrite (proj2 (Z.eqb_neq _ 0)) by lia. cbn [negb].
    erewrite M_bind_val; [reflexivity|]. apply lift_val. unfold copy_out. rewrite Z.ltb_irrefl.
    pose proof (sub_app [] (ack_packet be pn l ++ rest) []) as Hsub. cbn [app] in Hsub. rewrite app_nil_r in Hsub.
    change (lenZ []) with 0 in Hsub. rewrite Hrl in Hsub. by rewrite Hsub. }
  set (d1 := with_conn c1 (d <| d_net := ks |> <| d_tick ::= S |>)).
  set (c2 := after_reply (clock (S (d_tick d))) c1) in *.
  assert (reply_ack be unord clock d1 = Some (Val (), with_conn c2
    (d <| d_net := ks |> <| d_tick := S (S (d_tick d)) |> <| d_out ::= λ o, o ++ [ack_packet be pn l] |>))) as Hra.
  { unfold reply_ack. erewrite L_bind_val by reflexivity.
    change (clock (S (d_tick d))) with (clock (d_tick d1)) in Hsend.
    assert (d_conn (d1 <| d_tick ::= S |>) = c1) as Hc by done.
    erewrite L_bind_conn by (rewrite Hc; exact Hsend). cbv beta iota. unfold sock_send.
    rewrite (proj2 (Z.ltb_ge _ 0)) by lia.
    assert (sub (ack_packet be pn l ++ rest) 0 (26 + Z.of_nat (size (cn_recv_hashmap c1)) * 9) = Some (ack_packet be pn l)) as Hsub.
    { pose proof (sub_app [] (ack_packet be pn l) rest) as Hs. cbn [app] in Hs. change (lenZ []) with 0 in Hs.
      rewrite <-Hs. f_equal. unfold ack_packet. rewrite lenZ_app, header_bytes_len, ack_body_len. lia. }
    rewrite Hsub. done. }
  by rewrite (L_bind_val _ _ _ _ _ Hra).
Qed.

(* ------------------------------------------------------------------ *)
(** ** Filling the memory asked for *)

(** The receive buffer holds the chunks [cs]. *)
Definition holds_chunks (c : Connection) (cs : list (Z * list Z)) : Prop := rv_data (cn_rec_buffer c) = chunk_entry <$> cs.

Lemma dmludp2read_first v d ch cs :
  holds_chunks (d_conn d) (ch :: cs) → chunk_ok ch → iov_len v = lenZ ch.2 →
  ∃ c, dmludp2read v d = on_pio (Frame.fill v ch.2) (with_conn c d) ∧ holds_chunks c cs ∧
    reply_fields c = reply_fields (d_conn d) ∧ cn_recv_dic c = cn_recv_dic (d_conn d).
Proof.
  intros Hh Hch Hl. pose proof (chunk_entry_fresh ch Hch) as Hf.
  assert (RangeBuf_len (chunk_entry ch).2 = lenZ ch.2) as Hrl by (by rewrite fresh_chunk_len).
  pose proof (RecvBuf_emit_first ch.1 (chunk_entry ch).2 _ (replicate (Z.to_nat (lenZ ch.2)) 0) _ Hh Hf) as He.
  destruct Hch as (H0 & H1 & H2). rewrite Hrl, lenZ_replicate in He by lia. specialize (He eq_refl).
  unfold dmludp2read, dmludp_data_read, Connection_read. rewrite Hl, (proj2 (Z.leb_gt (lenZ ch.2) 0)) by lia.
  rewrite He. cbn [mbind option_bind outcome_bind]. unfold copy_out. change (rb_data (chunk_entry ch).2) with ch.2.
  rewrite Z.ltb_irrefl. pose proof (sub_app [] ch.2 []) as Hs. cbn [app] in Hs. rewrite app_nil_r in Hs.
  change (lenZ []) with 0 in Hs. rewrite Hs. eexists. split; [reflexivity|]. done.
Qed.

(** The chunks of a message that were received in any order. *)
Lemma holds_written cs ws r : chunks_ok cs → (∀ w, w ∈ ws ↔ w ∈ cs) → rv_data r = [] →
  rv_data (foldl (λ r w, RecvBuf_write w.2 w.1 r) r ws) = chunk_entry <$> cs.
Proof.
  intros Hcs Hws Hr. pose proof Hcs as [Hwf Hok].
  assert (Forall (.∈ cs) ws) as Hin by (apply Forall_forall; intros w Hw; by apply Hws).
  assert (Forall chunk_ok ws) as Hokw.
  { rewrite Forall_forall in *. intros w Hw. apply Hok, Hin, Hw. }
  assert (∀ r' ws', Forall chunk_ok ws' → rv_data r' = rv_data r →
    rv_data (foldl (λ r w, RecvBuf_write w.2 w.1 r) r ws') = rv_data (foldl (λ r w, RecvBuf_write w.2 w.1 r) r' ws')) as Heq.
  { clear. intros r' ws' Hok. revert r r'. induction Hok as [|w ws' Hw _ IH]; intros r r' Hd; [done|]. cbn [foldl].
    apply IH. by rewrite !RecvBuf_write_data, Hd. }
  rewrite (Heq RecvBuf_new ws Hokw) by done. change (foldl _ RecvBuf_new ws) with (write_all ws).
  apply omap_ext; [by apply write_all_wf|by apply chunk_entries_wf|].
  intros x. rewrite (write_all_elem cs) by done. rewrite list_elem_of_fmap. setoid_rewrite Hws. naive_solver.
Qed.
End reading.

(* ------------------------------------------------------------------ *)
(** * What is asked for *)

Lemma prepareRead_fresh p : pi_rx p = IoOp_new → prepareRead p = (Val (Some (IovPreamble 0 48)), p).
Proof. intros Hr. unfold prepareRead. M_run. by rewrite Hr. Qed.

(** The preamble [P] of a message to an unbound buffer is there: the next
    receive posted on its slot takes it. *)
Lemma prepareRead_payload p P u q :
  preamble_wf P → pa_opcode P = SEND_UNBOUND_BUFFER → io_preamble (pi_rx p) = preamble_bytes P →
  io_nread (pi_rx p) = 48 → io_ubuf (pi_rx p) = None →
  pi_localPendingRecv p !! pa_slot P = Some (u :: q) → pi_alive p (uo_buf u) = true →
  is_u64 (uo_offset u) → pa_length P ≤ uo_nbytes u →
  prepareRead p = (Val (Some (IovMem (mkRegion (uo_buf u) (uo_offset u) (pa_length P)))),
    p <| pi_rx ::= λ o, o <| io_ubuf := Some (uo_buf u) |> <| io_offset := uo_offset u |> <| io_nbytes := uo_nbytes u |> |>
      <| pi_localPendingRecv ::= queue_set (pa_slot P) q |>).
Proof.
  intros HP Hop Hpre Hn Hu Hq Hal Ho Hl. unfold prepareRead, sizeof_preamble. M_run. rewrite Hn.
  change (48 <? 48) with false. cbv iota. rewrite (getOpcode_val P) by done. rewrite Hop.
  pose proof (λ k v, preamble_field_val k v P (pi_rx p) HP Hpre) as Hf.
  assert (io_slot (pi_rx p) = pa_slot P) as Hs by (by apply Hf).
  assert (io_length (pi_rx p) = pa_length P) as Hlen by (by apply Hf).
  unfold find_unbound. rewrite <-M_bind_assoc. M_run. rewrite Hu. unfold set_rx. rewrite Hs.
  rewrite <-M_bind_assoc. M_run. rewrite Hq. rewrite <-M_bind_assoc. M_run.
  match goal with |- context [io_ubuf (pi_rx ?b)] => change (io_ubuf (pi_rx b)) with (Some (uo_buf u)) end.
  cbn [from_option_ub]. M_run. cbn [pi_alive]. change (pi_alive (p <| pi_rx ::= _ |> <| pi_localPendingRecv ::= _ |>)) with (pi_alive p).
  rewrite Hal.
  match goal with |- context [io_length (pi_rx ?b)] => change (io_length (pi_rx b)) with (io_length (pi_rx p));
    change (io_nbytes (pi_rx b)) with (uo_nbytes u); change (io_offset (pi_rx b)) with (uo_offset u) end.
  rewrite Hlen. rewrite M_bind_enforce by (by apply Z.leb_le).
  destruct HP. rewrite Z.add_0_r, !Z.sub_0_r, !wrap_small by done. done.
Qed.

(** All of the payload was counted. *)
Lemma prepareRead_complete p P b :
  preamble_wf P → pa_opcode P = SEND_UNBOUND_BUFFER → io_preamble (pi_rx p) = preamble_bytes P →
  io_nread (pi_rx p) = 48 + pa_length P → io_ubuf (pi_rx p) = Some b → pi_alive p b = true →
  pa_length P ≤ io_nbytes (pi_rx p) →
  ∃ r, prepareRead p = (Val (Some (IovMem r)), p) ∧ rg_len r = 0.
Proof.
  intros HP Hop Hpre Hn Hu Hal Hl. unfold prepareRead, sizeof_preamble. M_run. rewrite Hn.
  destruct HP as [? ? ? HPl ?] eqn:E. rewrite (proj2 (Z.ltb_ge _ 48)) by (unfold in_range in HPl; lia).
  rewrite (getOpcode_val P) by done. rewrite Hop.
  pose proof (λ k v, preamble_field_val k v P (pi_rx p) HP Hpre) as Hf.
  assert (io_length (pi_rx p) = pa_length P) as Hlen by (by apply Hf).
  unfold find_unbound. rewrite <-M_bind_assoc. M_run. rewrite Hu. M_run. rewrite Hu. cbn [from_option_ub]. M_run.
  rewrite Hal, Hlen. rewrite M_bind_enforce by (by apply Z.leb_le). eexists. split; [reflexivity|]. cbn [rg_len].
  replace (pa_length P - _) with 0 by lia. done.
Qed.

(* ------------------------------------------------------------------ *)
(** * A whole message *)

(** A message of one payload datagram on its way: the stream's two chunks. *)
Definition message_chunks (off : Z) (P : Preamble) (pay : list Z) : list (Z * list Z) :=
  [(off, preamble_bytes P); (off + 48, pay)].
Definition chunk_packet (be : bool) (w : Z * Z * (Z * list Z)) : list Z :=
  let '(pn, prio, ch) := w in data_packet be pn prio ch.
Definition packet_ok (w : Z * Z * (Z * list Z)) : Prop := let '(pn, prio, _) := w in is_u64 pn ∧ is_u8 prio.

(** A receiving pair between two messages, with the receive [u] posted first on
    [slot]. *)
Record receiver_idle (d : Dio) (slot : Z) (u : UOp) (q : list UOp) : Prop := {
  ri_state : pi_state (d_pio d) = CONNECTED;
  ri_rx : pi_rx (d_pio d) = IoOp_new;
  ri_posted : pi_localPendingRecv (d_pio d) !! slot = Some (u :: q);
  ri_alive : pi_alive (d_pio d) (uo_buf u) = true;
  ri_region : is_u64 (uo_offset u);
  ri_empty : holds_chunks (d_conn d) [];
  ri_reply : will_reply (d_conn d) ∧ cn_recv_hashmap (d_conn d) = ∅;
}.

(** The pair after the message. *)
Definition delivered (P : Preamble) (pay : list Z) (u : UOp) (q : list UOp) (p : Pio) : Pio :=
  p <| pi_mem := write (pi_mem p) (mkRegion (uo_buf u) (uo_offset u) (lenZ pay)) pay |>
    <| pi_localPendingRecv ::= queue_set (pa_slot P) q |>
    <| pi_done ::= λ l, l ++ [DoneRecv (preamble_bytes P) pay] |> <| pi_rx := IoOp_new |>.

Section message.
Context (be : bool) (unord : ∀ A, gmap Z A → list (Z * A)) (clock : nat → Z) (handle : Opcode → IoOp → L unit).
Context (Hperm : ∀ m, unord Z m ≡ₚ map_to_list m).

(** Everything is received while the preamble is asked for. *)
Lemma collect_message fuel d off P pay w0 ws en offs ks :
  let cs := message_chunks off P pay in
  0 ≤ off → 0 < lenZ pay ≤ SEND_BUFFER_SIZE → off + 48 + lenZ pay < 2 ^ 64 →
  Forall packet_ok (w0 :: ws) → snd w0 = (off, preamble_bytes P) → (∀ ch, ch ∈ snd <$> w0 :: ws ↔ ch ∈ cs) →
  holds_chunks (d_conn d) [] → will_reply (d_conn d) → cn_recv_hashmap (d_conn d) = ∅ →
  is_u64 en → offs ≠ [] → Forall is_u64 offs → lenZ offs ≤ 160 →
  d_net d = DGot (chunk_packet be w0) :: (DGot <$> (chunk_packet be <$> ws)) ++ DGot (elicit_packet be en offs) :: ks →
  ∃ c k l, collect be unord clock (S (length ws + S fuel)) 48 d =
      Some (Val (Some 0), with_conn c (counted 48 d <| d_net := ks |> <| d_tick := k |>
                            <| d_out ::= λ o, o ++ [ack_packet be en l] |>)) ∧
    holds_chunks c cs ∧ will_reply c ∧ cn_recv_hashmap c = ∅ ∧
    l ≡ₚ map_to_list (foldl (mark_loss (cn_recv_dic c)) ∅ offs) ∧
    Forall (λ o, is_Some (cn_recv_dic c !! o)) (fst <$> cs).
Proof.
  intros cs Hoff Hpay Hend Hok Hw0 Hsame Hempty Hwr Hhm Hen Hne Hu Hlo Hnet.
  unfold SEND_BUFFER_SIZE in Hpay.
  assert (lenZ (preamble_bytes P) = 48) as Hpl by (unfold lenZ; by rewrite preamble_bytes_length).
  assert (∀ ch, ch ∈ cs → chunk_ok ch ∧ lenZ ch.2 ≤ 1474) as Hcs.
  { intros ch [->|[->|[]%elem_of_nil]%elem_of_cons]%elem_of_cons; unfold chunk_ok; cbn [fst snd]; lia. }
  assert (chunks_ok cs) as Hcok.
  { split; [do 2 (apply SSorted_cons; [|repeat apply Forall_cons_2; try apply Forall_nil_2; unfold key_lt; cbn [fst]; lia]); apply SSorted_nil|]. apply Forall_forall. intros ch Hch. by apply Hcs. }
  assert (∀ w, w ∈ w0 :: ws → let '(pn, prio, ch) := w in is_u64 pn ∧ is_u8 prio ∧ chunk_ok ch ∧ lenZ ch.2 ≤ 1474) as Hall.
  { intros [[pn prio] ch] Hin. rewrite Forall_forall in Hok. destruct (Hok _ Hin). split_and!; [done|done|..];
      apply Hcs, Hsame, list_elem_of_fmap; by exists (pn, prio, ch). }
  destruct w0 as [[pn0 prio0] ch0]. cbn [snd] in Hw0. subst ch0. cbn [chunk_packet] in Hnet.
  destruct (Hall _ (list_elem_of_here _ _)) as (Hpn0 & Hpr0 & Hch0 & Hl0).
  destruct (collect_data be unord clock (length ws + S fuel) d pn0 prio0 _ _ 48 Hpn0 Hpr0 Hch0 Hl0 Hnet ltac:(lia))
    as (c1 & Heq1 & Hb1 & Hd1 & Hr1).
  change (0 <? 48) with true in Heq1. cbv iota in Heq1. cbn [fst snd] in Heq1, Hb1, Hd1. rewrite Hpl, Z.sub_diag in Heq1.
  rewrite Heq1. set (d1 := counted 48 _).
  destruct (collect_more be unord clock ws (S fuel) d1 (DGot (elicit_packet be en offs) :: ks)) as (c2 & k & Heq2 & Hb2 & Hd2 & Hr2).
  { apply Forall_forall. intros [[pn prio] ch] Hin. apply (Hall (pn, prio, ch)). by apply list_elem_of_further. }
  { reflexivity. }
  change (d_conn d1) with c1 in Hb2, Hd2, Hr2. rewrite Heq2. set (d2 := with_conn c2 _).
  assert (reply_fields c2 = reply_fields (d_conn d)) as Hr by congruence.
  assert (will_reply c2 ∧ cn_recv_hashmap c2 = ∅) as [Hwr2 Hhm2].
  { unfold reply_fields in Hr. injection Hr as E1 E2 E3 E4. unfold will_reply. rewrite E1, E2, E3, E4. done. }
  destruct (collect_elicit be unord clock fuel d2 en offs ks) as (l & k' & Hl & Heq3); try done.
  change (d_conn d2) with c2 in Hl, Heq3. rewrite Heq3.
  eexists _, k', l. split; [reflexivity|].
  set (c3 := after_reply _ _).
  split_and!; [|exact Hwr2|done|exact Hl|].
  - change (cn_rec_buffer c3) with (cn_rec_buffer c2). unfold holds_chunks. change (cn_rec_buffer c3) with (cn_rec_buffer c2).
    rewrite Hb2, Hb1.
    change (foldl (λ r w, RecvBuf_write w.2 w.1 r) (RecvBuf_write (preamble_bytes P) off (cn_rec_buffer (d_conn d))) (snd <$> ws))
      with (foldl (λ r w, RecvBuf_write w.2 w.1 r) (cn_rec_buffer (d_conn d)) (snd <$> (pn0, prio0, (off, preamble_bytes P)) :: ws)).
    by apply holds_written.
  - apply Forall_forall. intros o Ho. change (cn_recv_dic c3) with (cn_recv_dic c2). apply Hd2.
    apply list_elem_of_fmap in Ho as (ch & -> & Hch). apply Hsame in Hch. cbn [fmap list_fmap] in Hch.
    apply elem_of_cons in Hch as [->|Hch]; [right; apply Hd1; by left|left].
    apply list_elem_of_fmap in Hch as ([[pn prio] ch'] & -> & Hin). apply list_elem_of_fmap. by exists (pn, prio, ch').
Qed.

(** One turn of the loop of [handleread]. *)
Lemma handleread_turn fuel d v p :
  prepareRead (d_pio d) = (Val (Some v), p) →
  handleread_loop be unord clock handle (S fuel) d =
  (if s64 (iov_len v) <? 0 then _ ← read_nothing be unord clock; mret false
   else if s64 (iov_len v) =? 0 then _ ← d_readComplete handle; mret true
   else
     left_data ← count_buffered (s64 (iov_len v));
     r ← (if 0 <? left_data then collect be unord clock fuel left_data else mret (Some left_data));
     match r with
     | None => mret false
     | Some _ => _ ← dmludp2read v; handleread_loop be unord clock handle fuel
     end) (d <| d_pio := p |>).
Proof. intros Hp. cbn [handleread_loop]. by rewrite (L_bind_pio _ _ _ _ _ Hp). Qed.

(** [handleread] on the datagrams of a message: its preamble first, the payload
    in one datagram, repetitions of either in any order, and the request. *)
Lemma handleread_message fuel d slot u q su off pay w0 ws en offs ks :
  let P := op_preamble (unbound_op slot su) in
  receiver_idle d slot u q → is_u64 slot → 0 ≤ off → uo_nbytes su = lenZ pay → 0 < lenZ pay ≤ SEND_BUFFER_SIZE →
  lenZ pay ≤ uo_nbytes u → off + 48 + lenZ pay < 2 ^ 64 →
  Forall packet_ok (w0 :: ws) → snd w0 = (off, preamble_bytes P) → (∀ ch, ch ∈ snd <$> w0 :: ws ↔ ch ∈ message_chunks off P pay) →
  is_u64 en → offs ≠ [] → Forall is_u64 offs → lenZ offs ≤ 160 → 
  d_net d = DGot (chunk_packet be w0) :: (DGot <$> (chunk_packet be <$> ws)) ++ DGot (elicit_packet be en offs) :: ks →
  ∃ d' dic l, handleread be unord clock handle (S (S (length ws + S (S fuel)))) d = Some (Val true, d') ∧
    d_pio d' = delivered P pay u q (d_pio d) ∧ d_out d' = d_out d ++ [ack_packet be en l] ∧ d_net d' = ks ∧
    holds_chunks (d_conn d') [] ∧ will_reply (d_conn d') ∧ cn_recv_hashmap (d_conn d') = ∅ ∧
    l ≡ₚ map_to_list (foldl (mark_loss dic) ∅ offs) ∧ is_Some (dic !! off) ∧ is_Some (dic !! (off + 48)).
Proof.
  intros P [Hst Hrx Hpost Hal Hreg Hempty [Hwr Hhm]] Hslot Hoff Hsu Hpay Hfit Hend Hok Hw0 Hsame Hen Hne Hu Hlo Hnet.
  pose proof Hpay as Hpay'. unfold SEND_BUFFER_SIZE in Hpay'.
  assert (preamble_wf P) as HP by (split; cbn; rewrite ?Hsu; unfold sizeof_preamble; try word_lia; done).
  assert (pa_length P = lenZ pay) as HPl by done.
  assert (lenZ (preamble_bytes P) = 48) as Hpl by (unfold lenZ; by rewrite preamble_bytes_length).
  unfold handleread. rewrite L_bind_get, Hst.
  rewrite (handleread_turn _ _ _ _ (prepareRead_fresh _ Hrx)).
  change (s64 (iov_len (IovPreamble 0 48))) with 48. change (48 <? 0) with false. change (48 =? 0) with false. cbv iota.
  rewrite Dio_same_pio.
  assert (count_buffered 48 d = Some (Val 48, d)) as Hcb.
  { unfold count_buffered. rewrite L_bind_get. unfold dmludp_conn_has_recv, has_recv, RecvBuf_is_empty. by rewrite Hempty. }
  rewrite (L_bind_val _ _ _ _ _ Hcb). change (0 <? 48) with true. cbv iota.
  destruct (collect_message (S fuel) d off P pay w0 ws en offs ks) as (c1 & k & l & Heq1 & Hh1 & Hwr1 & Hhm1 & Hl & Hdic); try done.
  rewrite (L_bind_val _ _ _ _ _ Heq1). cbv beta iota. clear Heq1.
  set (d1 := with_conn c1 _).
  assert (holds_chunks (d_conn d1) (message_chunks off P pay)) as Hh by exact Hh1.
  destruct (dmludp2read_first (IovPreamble 0 48) d1 _ _ Hh) as (c2 & Heq2 & Hh2 & Hr2 & Hdc2); [|cbn [snd]; by rewrite Hpl|].
  { unfold chunk_ok. cbn [fst snd]. lia. }
  erewrite L_bind_val; last first.
  { rewrite Heq2. unfold on_pio. cbn [Frame.fill]. unfold set_rx, modify. reflexivity. }
  cbn [snd]. match goal with |- context [handleread_loop _ _ _ _ _ ?x] => set (d2 := x) end.
  assert (pi_rx (d_pio d2) = mkIoOp (preamble_bytes P) None None 48 0 0 0) as Hrx2.
  { unfold d2, d1. cbn. rewrite Hrx. cbn. done. }
  erewrite handleread_turn; last first.
  { apply (prepareRead_payload _ P u q); rewrite ?Hrx2; try done. by rewrite HPl. }
  cbn [iov_len rg_len]. rewrite HPl, swrap_small by lia.
  rewrite (proj2 (Z.ltb_ge (lenZ pay) 0)), (proj2 (Z.eqb_neq (lenZ pay) 0)) by lia.
  set (d3 := d2 <| d_pio := _ |>).
  assert (holds_chunks (d_conn d3) [(off + 48, pay)]) as Hh3 by exact Hh2.
  assert (count_buffered (lenZ pay) d3 = Some (Val 0, counted (lenZ pay) d3)) as Hcb3.
  { unfold count_buffered. rewrite L_bind_get. unfold dmludp_conn_has_recv, has_recv, RecvBuf_is_empty.
    rewrite Hh3. cbn [fmap list_fmap chunk_entry fst snd]. unfold dmludp_conn_recv_len, recv_len, RecvBuf_first_item_len.
    rewrite Hh3. cbn [fmap list_fmap chunk_entry fst snd].
    assert (RangeBuf_len (RangeBuf_from pay (off + 48)) = lenZ pay) as Hrl.
    { apply fresh_chunk_len, (chunk_entry_fresh (off + 48, pay)). unfold chunk_ok. cbn [fst snd]. lia. }
    rewrite (L_bind_lift _ _ _ _ eq_refl), Hrl, (wrap_small 64) by (unfold in_range; lia).
    rewrite Z.leb_refl. erewrite L_bind_val by reflexivity. by rewrite Z.sub_diag. }
  rewrite (L_bind_val _ _ _ _ _ Hcb3). change (0 <? 0) with false. cbv iota. rewrite L_bind_ret.
  set (r := mkRegion _ _ _) in *.
  destruct (dmludp2read_first (IovMem r) (counted (lenZ pay) d3) _ _ Hh3) as (c4 & Heq4 & Hh4 & Hr4 & Hdc4); [|done|].
  { unfold chunk_ok. cbn [fst snd]. lia. }
  erewrite L_bind_val; last first.
  { rewrite Heq4. unfold on_pio. cbn [Frame.fill snd]. unfold modify. reflexivity. }
  match goal with |- context [handleread_loop _ _ _ _ _ ?x] => set (d5 := x) end.
  assert (pi_rx (d_pio d5) = mkIoOp (preamble_bytes P) None (Some (uo_buf u)) (48 + lenZ pay) 0 (uo_offset u) (uo_nbytes u)) as Hrx5.
  { transitivity (pi_rx (d_pio d2) <| io_ubuf := Some (uo_buf u) |> <| io_offset := uo_offset u |> <| io_nbytes := uo_nbytes u |>
      <| io_nread ::= λ k, u64 (k + lenZ pay) |>); [reflexivity|]. rewrite Hrx2.
    change (mkIoOp (preamble_bytes P) None (Some (uo_buf u)) (u64 (48 + lenZ pay)) 0 (uo_offset u) (uo_nbytes u) =
      mkIoOp (preamble_bytes P) None (Some (uo_buf u)) (48 + lenZ pay) 0 (uo_offset u) (uo_nbytes u)).
    by rewrite (wrap_small 64) by (unfold in_range; lia). }
  destruct (prepareRead_complete (d_pio d5) P (uo_buf u)) as (r6 & Hp6 & Hr6); rewrite ?Hrx5; try done.
  { by rewrite HPl. } { rewrite HPl. exact Hfit. }
  replace (length ws + S (S fuel))%nat with (S (length ws + S fuel)) by lia.
  rewrite (handleread_turn _ _ _ _ Hp6), Dio_same_pio. cbn [iov_len]. rewrite Hr6.
  change (s64 0 <? 0) with false. change (s64 0 =? 0) with true. cbv iota.
  assert (getOpcode (pi_rx (d_pio d5)) = Some SEND_UNBOUND_BUFFER) as Hop by (rewrite (getOpcode_val P); [done|done|by rewrite Hrx5]).
  assert (rx_payload (pi_mem (d_pio d5)) (pi_rx (d_pio d5)) = pay) as Hpl5.
  { unfold rx_payload. rewrite Hop, Hrx5. cbn [io_ubuf io_offset].
    replace (preamble_field 4 _) with (pa_length P); [|symmetry; by apply (preamble_field_val 4 _ P)]. rewrite HPl.
    unfold d5. cbn. by apply read_write_same. }
  erewrite L_bind_val; last first.
  { unfold d_readComplete. rewrite L_bind_get, Hop. reflexivity. }
  eexists _, (cn_recv_dic c1), l. split; [reflexivity|].
  assert (holds_chunks c4 [] ∧ will_reply c4 ∧ cn_recv_hashmap c4 = ∅) as (Hh4' & Hwr4 & Hhm4).
  { split; [exact Hh4|]. change (d_conn (counted (lenZ pay) d3)) with c2 in Hr4. change (d_conn d1) with c1 in Hr2.
    rewrite Hr2 in Hr4. unfold reply_fields in Hr4. injection Hr4 as E1 E2 E3 E4. unfold will_reply. by rewrite E1, E2, E3, E4. }
  split_and!; [|reflexivity|reflexivity|exact Hh4'|exact Hwr4|exact Hhm4|exact Hl|..].
  - transitivity (d_pio d5 <| pi_done ::= λ l0, l0 ++ [DoneRecv (io_preamble (pi_rx (d_pio d5)))
      (rx_payload (pi_mem (d_pio d5)) (pi_rx (d_pio d5)))] |> <| pi_rx := IoOp_new |>); [reflexivity|].
    rewrite Hpl5, Hrx5. reflexivity.
  - rewrite Forall_forall in Hdic. apply Hdic. by left.
  - rewrite Forall_forall in Hdic. apply Hdic. right. by left.
Qed.
End message.

(* ------------------------------------------------------------------ *)
(** * A message that is read too early *)

(** Runs that leave the pair alone. *)
Definition keeps_pio {A} (m : L A) : Prop := ∀ d r d', m d = Some (r, d') → d_pio d' = d_pio d.

Lemma keeps_pio_bind {A B} (m : L A) (f : A → L B) : keeps_pio m → (∀ a, keeps_pio (f a)) → keeps_pio (m ≫= f).
Proof.
  intros Hm Hf d r d'. unfold mbind, L_bind. destruct (m d) as [[[a|e|] d1]|] eqn:E; [|intros [= _ <-]..|done].
  - intros Hd. rewrite (Hf _ _ _ _ Hd). by eapply Hm.
  - by eapply Hm.
  - by eapply Hm.
Qed.
Lemma keeps_pio_ret {A} (a : A) : keeps_pio (mret a).
Proof. by intros d r d' [= _ <-]. Qed.
Lemma keeps_pio_lift {A} (x : outcome A) : keeps_pio (L_lift x).
Proof. by intros d r d' [= _ <-]. Qed.
Lemma keeps_pio_conn {A} (m : M Connection A) : keeps_pio (on_conn m).
Proof. intros d r d'. unfold on_conn. destruct (m _). by intros [= _ <-]. Qed.
Lemma keeps_pio_sock out n : keeps_pio (sock_send out n).
Proof.
  unfold sock_send. case_match; [apply keeps_pio_ret|]. apply keeps_pio_bind; [apply keeps_pio_lift|].
  by intros bs d r d' [= _ <-].
Qed.
Lemma keeps_pio_recv : keeps_pio recv_dgram.
Proof. intros d r d'. unfold recv_dgram. repeat case_match; by intros [= _ <-]. Qed.

Section early.
Context (be : bool) (unord : ∀ A, gmap Z A → list (Z * A)) (clock : nat → Z) (handle : Opcode → IoOp → L unit).

Lemma keeps_pio_clock : keeps_pio (clock_now clock).
Proof. by intros d r d' [= _ <-]. Qed.
Lemma keeps_pio_in buf : keeps_pio (dgram_in be clock buf).
Proof.
  apply keeps_pio_bind; [apply keeps_pio_clock|]. intros t. apply keeps_pio_bind; [apply keeps_pio_conn|]. intros n.
  apply keeps_pio_bind; [apply keeps_pio_lift|]. intros []. apply keeps_pio_ret.
Qed.
Lemma keeps_pio_reply : keeps_pio (reply_ack be unord clock).
Proof.
  apply keeps_pio_bind; [apply keeps_pio_clock|]. intros t. apply keeps_pio_bind; [apply keeps_pio_conn|].
  intros []. apply keeps_pio_sock.
Qed.
Lemma read_nothing_keeps : keeps_pio (read_nothing be unord clock).
Proof.
  apply keeps_pio_bind; [apply keeps_pio_recv|]. intros [[|]|]; try apply keeps_pio_ret.
  apply keeps_pio_bind; [apply keeps_pio_in|]. intros []. case_match; [apply keeps_pio_reply|apply keeps_pio_ret].
Qed.

(** A preamble that was counted but not stored reads as one for a bound buffer
    on slot 0, which there is not. *)
Definition preamble_lost (p : Pio) : Prop := pi_rx p = IoOp_new <| io_nread := 48 |> ∧ pi_buffers p !! 0 = None.

Lemma lost_prepareRead p : preamble_lost p → prepareRead p = (Val None, p).
Proof.
  intros [Hrx Hb].
  assert (find_bound p = (Val None, p)) as Hf.
  { unfold find_bound. rewrite M_bind_gets, Hrx.
    change (io_buf (IoOp_new <| io_nread := 48 |>)) with (@None Z). cbv iota.
    assert (getBuffer 0 p = (Val None, p)) as Hg by (unfold getBuffer, gets; change (s32 0) with 0; by rewrite Hb).
    change (io_slot (IoOp_new <| io_nread := 48 |>)) with 0. rewrite (M_bind_val _ _ _ _ _ Hg). unfold set_rx, modify. erewrite M_bind_val by reflexivity.
    unfold mret, M_ret. f_equal. destruct p. cbn in *. by subst. }
  unfold prepareRead. rewrite M_bind_gets, Hrx. cbv zeta.
  change (io_nread (IoOp_new <| io_nread := 48 |>) <? sizeof_preamble) with false.
  change (getOpcode (IoOp_new <| io_nread := 48 |>)) with (Some SEND_BUFFER). cbv iota.
  by rewrite (M_bind_val _ _ _ _ _ Hf).
Qed.

(** What happens to the pair later: datagrams arrive, and it reads. *)
Inductive read_later : Dio → Dio → Prop :=
  | later_now d : read_later d d
  | later_read d d1 net fuel r d2 :
      read_later d d1 → handleread be unord clock handle fuel (d1 <| d_net ::= λ l, l ++ net |>) = Some (r, d2) → read_later d d2.

Lemma lost_read fuel d r d' : preamble_lost (d_pio d) → handleread be unord clock handle fuel d = Some (r, d') →
  d_pio d' = d_pio d ∧ r ≠ Val true.
Proof.
  intros Hs. unfold handleread. rewrite L_bind_get.
  destruct (pi_state (d_pio d)); try by intros [= <- <-].
  all: destruct fuel as [|fuel]; [done|]; cbn [handleread_loop];
    rewrite (L_bind_pio _ _ _ _ _ (lost_prepareRead _ Hs)), Dio_same_pio; unfold mbind at 1, L_bind at 1;
    destruct (read_nothing be unord clock d) as [[[[]|e|] d1]|] eqn:E; try done; intros [= <- <-];
    (split; [by eapply read_nothing_keeps|done]).
Qed.

Lemma lost_later d d' : preamble_lost (d_pio d) → read_later d d' → d_pio d' = d_pio d.
Proof.
  intros Hs. induction 1 as [|d d1 net fuel r d2 _ IH Hread]; [done|]. specialize (IH Hs).
  apply lost_read in Hread as [-> _]; [exact IH|]. change (preamble_lost (d_pio d1)). by rewrite IH.
Qed.

(** C7: a receiver that runs before the request for acknowledgement has come
    loses the message and everything after it. The bytes of the preamble are
    counted as read but not stored when [recv] has no more datagrams; from then
    on the pair reads the preamble of an empty operation, waits for a bound
    buffer on slot 0, and whatever arrives and however often it reads, no
    operation completes and no memory is written. *)
Theorem early_read_loses fuel (d : Dio) (slot : Z) (u : UOp) (q : list UOp) pn prio (off : Z) (P : Preamble) ws :
  receiver_idle d slot u q → pi_buffers (d_pio d) !! 0 = None →
  packet_ok (pn, prio, (off, preamble_bytes P)) → 0 ≤ off → off + 48 < 2 ^ 64 →
  Forall (λ w, packet_ok w ∧ chunk_ok w.2 ∧ lenZ w.2.2 ≤ 1474) ws →
  d_net d = DGot <$> (chunk_packet be <$> (pn, prio, (off, preamble_bytes P)) :: ws) →
  ∃ d', handleread be unord clock handle (S (S (length ws + S fuel))) d = Some (Val false, d') ∧
    d_pio d' = d_pio d <| pi_rx := IoOp_new <| io_nread := 48 |> |> ∧
    ∀ d'', read_later d' d'' → d_pio d'' = d_pio d'.
Proof.
  intros [Hst Hrx _ _ _ Hempty _] Hbuf Hok Hoff Hend Hws Hnet. destruct Hok as [Hpn Hprio].
  assert (lenZ (preamble_bytes P) = 48) as Hpl by (unfold lenZ; by rewrite preamble_bytes_length).
  cbn [fmap list_fmap chunk_packet] in Hnet.
  destruct (collect_data be unord clock (length ws + S fuel) d pn prio (off, preamble_bytes P)
    (DGot <$> (chunk_packet be <$> ws)) 48 Hpn Hprio) as (c1 & Heq1 & _);
    [unfold chunk_ok; cbn [fst snd]; lia|cbn [snd]; lia|exact Hnet|lia|].
  change (0 <? 48) with true in Heq1. cbv iota in Heq1. cbn [snd] in Heq1. rewrite Hpl in Heq1. change (48 - 48) with 0 in Heq1.
  set (d1 := counted 48 _) in Heq1.
  destruct (collect_more be unord clock ws (S fuel) d1 []) as (c2 & k & Heq2 & _).
  { eapply Forall_impl; [exact Hws|]. intros [[pn' prio'] ch] ([] & ? & ?). done. }
  { rewrite app_nil_r. reflexivity. }
  unfold handleread. rewrite L_bind_get, Hst. 
  eexists. split; [|split].
  - rewrite (handleread_turn _ _ _ _ _ _ _ _ (prepareRead_fresh _ Hrx)).
    change (s64 (iov_len (IovPreamble 0 48))) with 48. change (48 <? 0) with false. change (48 =? 0) with false. cbv iota.
    rewrite Dio_same_pio.
    assert (count_buffered 48 d = Some (Val 48, d)) as Hcb.
    { unfold count_buffered. rewrite L_bind_get. unfold dmludp_conn_has_recv, has_recv, RecvBuf_is_empty. by rewrite Hempty. }
    rewrite (L_bind_val _ _ _ _ _ Hcb). change (0 <? 48) with true. cbv iota.
    erewrite L_bind_val; [|rewrite Heq1, Heq2; reflexivity]. reflexivity.
  - cbn. by rewrite Hrx.
  - intros d''. apply lost_later. cbn. rewrite Hrx. done.
Qed.
End early.

(** A pair that has one receive posted, and these datagrams to read. *)
Definition demo_receiving (net : list KDgram) : Dio :=
  mkDio (demo_pio {[ 3 := [mkUOp 9 2 8] ]} (demo_mems 1)) (mkSendCtx (Connection_new false 0 <| cn_handshake_confirmed := true |>) [] [] ∅)
    net [] [] EAGAIN 0.
Lemma demo_receiver_idle net : receiver_idle (demo_receiving net) 3 (mkUOp 9 2 8) [].
Proof. split; try done. split; [|done]. split; [by right|by left]. Qed.

Lemma early_read_loses_witness :
  let P := op_preamble (unbound_op 3 demo_su) in
  let d := demo_receiving [DGot (data_packet false 0 3 (0, preamble_bytes P)); DGot (data_packet false 1 3 (48, [1; 2; 3; 4; 5; 6]))] in
  ∃ d', handleread false demo_order Z.of_nat (λ _ _, mret ()) 4 d = Some (Val false, d') ∧
    d_pio d' = d_pio d <| pi_rx := IoOp_new <| io_nread := 48 |> |> ∧
    ∀ d'', read_later false demo_order Z.of_nat (λ _ _, mret ()) d' d'' → d_pio d'' = d_pio d'.
Proof.
  intros P d. apply (early_read_loses false demo_order Z.of_nat (λ _ _, mret ()) 0 d 3 (mkUOp 9 2 8) [] 0 3 0 P
    [(1, 3, (48, [1; 2; 3; 4; 5; 6]))]); try done.
  - apply demo_receiver_idle.
  - apply Forall_singleton. done.
Defined.
