(* ===== verification/DmludpExchange.v ===== *)
(** The two ends of a message over the datagram protocol: [write2dmludp] with the
    answer that [handleread] gives to its data packets. *)
From Stdlib Require Import SpecFloat.
From S2P Require Import Prelude RangeBuffer Packet RecvBuffer SendBuffer RecoveryModel ConnState ConnAck ConnSend AckExchange.
From S2P Require Import DmludpApi Tally PairOps Net Frame FrameSend DmludpPair DmludpSend DmludpRecv.



Section exchange.
Context (be : bool) (unord : ∀ A, gmap Z A → list (Z * A)) (clock : nat → Z).
Context (spare : list Z) (realloc : Z → Z).
Context (alloc : nat → Z → Z) (stale : nat → Z → list Z) (place : option Z → Z) (padding : Z) (fill : nat).
Implicit Types (d : Dio) (o : IoOp) (iov : list Iovec).


(** The parts of an operation in memory. *)
Definition op_parts (m : Mem) (o : IoOp) (iov : list Iovec) : list (list Z) := iov_bytes m o <$> iov.



Lemma iovs_len_parts m o iov : Forall (λ v, lenZ (iov_bytes m o v) = iov_len v) iov →
  total_len (iov_buffer place <$> iov) = lenZ (concat (op_parts m o iov)).
Proof.
  induction 1 as [|v iov Hv _ IH]; [done|]. cbn. unfold total_len, op_parts in IH. rewrite IH.
  rewrite lenZ_app, Hv. done.
Qed.





















End exchange.

(* ------------------------------------------------------------------ *)
(** * Both ends *)






Section both.
Context (be : bool) (unord : ∀ A, gmap Z A → list (Z * A)) (clock : nat → Z).
Context (spare : list Z) (realloc : Z → Z).
Context (alloc : nat → Z → Z) (stale : nat → Z → list Z) (place : option Z → Z) (padding : Z) (fill : nat).
Context (unordB : ∀ A, gmap Z A → list (Z * A)) (clockB : nat → Z) (handle : Opcode → IoOp → L unit).
Implicit Types (a b : Dio) (u su : UOp).








End both.

(* ------------------------------------------------------------------ *)
(** * A message to run *)

(** Freed memory, overwritten. *)
Definition demo_stale (k : nat) (addr : Z) : list Z := replicate 64 (addr `mod` 256).
Definition demo_clock (i : nat) : Z := Z.min (Z.of_nat i) 1000.



(** A message without payload is never done: the connection accounts -1 for
    its empty part, though everything was sent and acknowledged. *)
Lemma empty_payload_unfinished :
  (λ '(r, d), (r, fst (transmission_complete (d_conn d)))) <$>
    write2dmludp false demo_order demo_clock (replicate 26 0) id demo_headers demo_stale demo_place 0 10 4
      (message_op 3 (mkUOp 4 1 0)) (demo_sending [DGot (ack_packet false 0 [(0, 0)])] [MSent 5]) =
  Some (Val (false, message_op 3 (mkUOp 4 1 0) <| io_nwritten := 47 |>), true).
Proof. vm_compute. reflexivity. Qed.
